(* ===== verification/_CoqProject ===== *)
-Q . S2P
Prelude.v
AllocDomain.v
Gc.v
GcCorrect.v
Bytes.v
Text.v
HashTiers.v
DetSerde.v
DetSerdeCorrect.v
IrContract.v
IrContractCorrect.v
InterpCore.v
BaselineInterp.v
InterpShape.v
InterpProgress.v
InterpTraces.v
InterpReplay.v
InterpSafety.v
InterpExamples.v
Mmr.v
MmrForest.v
MmrCorrect.v
ShapeAlgebra.v
ShapeAlgebraCorrect.v
ShapeCaches.v
ShapeCachesCorrect.v
BytecodeVm.v
BytecodeVmCorrect.v
BytecodeVmTyping.v
BytecodeVmStats.v
SignaturePreimage.v
FlowLattice.v
FlowLatticeCorrect.v
MarkerStream.v
MarkerCorrect.v
SecurityEpoch.v
ObjectModel.v
ObjectCorrect.v
ObjectWalks.v
ObjectCycles.v
ObjectProxies.v
PromiseModel.v
PromiseCorrect.v
PromiseCombinators.v
EngineObjectId.v
SortedMultisig.v
PolicyCheckpoint.v
CheckpointFrontier.v
Capability.v
CapabilityToken.v
RevocationChain.v
RevocationCorrect.v
ClosureModel.v
ClosureCorrect.v
DelegationChain.v
RevocationEnforcement.v
RevocationFreshness.v
EpochBarrier.v
RegionLifecycle.v
RegionCorrect.v
ObligationChannel.v
SessionChannel.v
SessionCorrect.v
SagaOrchestrator.v
SagaCorrect.v
SchedulerLane.v
SchedulerCorrect.v
LeaseTracker.v
LeaseCorrect.v
ExecutionCell.v
CancellationLifecycle.v
CellCorrect.v
AntiEntropy.v
AntiEntropyCorrect.v
FallbackCorrect.v
Seqlock.v
EsmLoader.v
EsmCorrect.v
EsmExports.v
LiveBinding.v
