(* ===== verification/Prelude.v ===== *)
(** * FrankenEngine: a verification of the execution core

    FrankenEngine (crates/franken-engine) is a deterministic runtime for
    untrusted extensions.  Source code is lowered to IR3, a register-machine
    module; a lane of the baseline interpreter executes it under an instruction
    budget, a call-depth limit and a set of granted capabilities and records an
    IR4 witness; artifacts are identified by the hash of their canonical bytes;
    extension heaps are collected by a deterministic mark-sweep collector whose
    memory is charged to allocation domains.  Beside the baseline interpreter
    stand a bytecode VM with hidden-class shapes and inline caches, a promise
    store with its event loop, an object model with descriptors, prototypes and
    proxies, an audit trail of hash-linked decision markers under monotone
    security epochs, and an information-flow engine that lets labelled data
    reach a sink against signed declassification receipts.  The trust layer
    derives object identifiers from canonical bytes, collects sorted arrays of
    signatures for policy checkpoints, keeps per zone a frontier of accepted
    checkpoints, issues capability tokens and records revocations in a
    hash-linked chain.  Delegation chains of tokens are verified against it, an
    enforcer consults it before work starts, and a controller refuses risky
    operations while its head is out of date.  Epoch changes wait for critical
    operations behind a barrier, work is owned by regions that close in phases,
    two-phase obligations travel over channels, and host calls run over
    authenticated sessions.  Extensions and sessions live in cells over these
    regions and are cancelled in phases; leases watch over remote endpoints,
    sagas order steps that can be compensated and lanes schedule the tasks.  Nodes
    reconcile their object sets by exchanging lookup tables, and threads share
    snapshots through a sequence lock.  Modules are linked and evaluated by a
    loader over live bindings.  Lexical scopes and closures are a model of their
    own.
    This library models these parts as executable functions and proves what
    makes them correct.

    ** Parts, files and their sources (under crates/franken-engine/src)

    - Prelude.v (this file): [Result], machine integers with their wrap-around
      and saturation, [BTreeMap]s as [gmap]s with sorted iteration (class
      [BTreeKey]), sums over maps, the tactics [mlia] and [res_inv] and the hint
      database [franken].
    - AllocDomain.v: alloc_domain.rs.  [DomainBudget], [DomainConfig] and
      [DomainRegistry] are the structs of the source; [Budget.*] and
      [Registry.*] are their methods, taking and returning the state.
    - Gc.v: gc.rs.  [ExtensionHeap] and [GcCollector] with the operations in the
      modules [Heap] and [Collector]; [collect_tracked] and [allocate_tracked]
      call the registry of AllocDomain.v.  GcCorrect.v holds the proofs.
    - Bytes.v, Text.v: what the sources use of the standard library: big- and
      little-endian bytes, UTF-8 validity, decimal printing and parsing, trim.
    - HashTiers.v: hash_tiers.rs, bit for bit on 64-bit words.
    - DetSerde.v: deterministic_serde.rs.  [CanonicalValue], [encode_value],
      [decode_value], the schema prefix and the registry ([SchemaReg.*]).
      DetSerdeCorrect.v holds the proofs.
    - IrContract.v: ir_contract.rs, levels IR3 and IR4: the data, canonical
      values, bytes and hashes, the checks [verify_ir3_specialization] and
      [verify_ir4_linkage] and the verifier ([Verifier.*]).
      IrContractCorrect.v holds the proofs.
    - InterpCore.v: baseline_interpreter.rs, first half: values, the state
      [InterpreterCore], the monad [M] of its methods (state passing with
      [Result]), registers, heap, prototype chains, iterators and operators;
      also [ExecutionConfig] of runtime_config.rs.
    - BaselineInterp.v: baseline_interpreter.rs, second half: one handler per
      instruction, calls, exceptions and finally blocks, the loop, [execute]
      with its seeds, the two lanes and the router.
    - InterpShape.v, InterpProgress.v, InterpTraces.v, InterpReplay.v,
      InterpSafety.v: the interpreter's properties.  InterpExamples.v: those of
      operators and property accesses, and evaluations on programs.
    - Mmr.v: mmr_proof.rs, the Merkle mountain range behind the marker stream:
      positions, [MMR.append], roots, proofs and their verification.
      It ends with the positions of a complete tree; MmrForest.v relates the
      range to a forest of such trees; MmrCorrect.v holds the theorems.
    - ShapeAlgebra.v: shape_transition_algebra.rs, the interned shapes and their
      memoised transitions ([apply_mutation]); the JSON encoder, SHA-256 and the
      hex printer are the class [ShapeCrates].  ShapeAlgebraCorrect.v holds the
      proofs.  ShapeCaches.v: the rest of that file, property cells ([Cells.*]),
      inline caches ([IC.*], [Table.*]) and graph queries, with
      ShapeCachesCorrect.v.
    - BytecodeVm.v: bytecode_vm.rs, in the monad [VM] of state, error and panic.
      The reference machine on plain maps ([Ref.execute]) is at its end;
      BytecodeVmCorrect.v, BytecodeVmTyping.v and BytecodeVmStats.v hold the
      proofs.
    - SignaturePreimage.v: signature_preimage.rs and the domain tags of
      engine_object_id.rs; the trait is the class [SignaturePreimage].  With the
      proofs.
    - FlowLattice.v: flow_lattice.rs, with the labels and receipts of
      ifc_artifacts.rs ([Labels.*], [Clear.*], the engine [Ir2FlowLattice]); the
      JSON encoder of receipts is the class [IfcCrates].  FlowLatticeCorrect.v
      holds the proofs.
    - MarkerStream.v: marker_stream.rs, the hash-linked stream of decision
      markers ([Stream.*]) on the content and authenticity hashes, with
      MarkerCorrect.v.  SecurityEpoch.v: security_epoch.rs, the epoch tracker
      ([Tracker.*]) and its properties.
    - ObjectModel.v: object_model.rs: descriptors ([Desc.*]), ordinary objects
      ([Obj.*]), the heap with its prototype walks and the functions of [Object]
      ([Heap.*]), proxies ([Proxy.*], [ProxyCheck.*]), symbols ([Symbols.*]) and
      [Reflect.*].  ObjectCorrect.v, ObjectWalks.v, ObjectCycles.v and
      ObjectProxies.v hold the proofs.
    - PromiseModel.v: promise_model.rs: [Store.*], [Micro.*], [Macro.*],
      [Clock.*], [Loop.*] and the combinators' trackers.  PromiseCorrect.v and
      PromiseCombinators.v hold the proofs; the latter through the interface
      [TrackerOps] with its laws.  PromiseCombinators.v
      also holds the bridge from exceptions to rejections ([Bridge.*]).
    - EngineObjectId.v: engine_object_id.rs, identifiers derived from domain,
      zone, schema and canonical bytes.  SortedMultisig.v:
      sorted_multisig.rs, the sorted signature arrays ([Arr.*]) and quorums.
    - PolicyCheckpoint.v: policy_checkpoint.rs, the checkpoint, its builder and
      its verification.  CheckpointFrontier.v: checkpoint_frontier.rs, the
      manager of accepted frontiers over a persistence backend.
    - Capability.v: capability.rs, profiles as sets of runtime capabilities.
      CapabilityToken.v: capability_token.rs, the token, its builder and its
      verification in a context.
    - RevocationChain.v: revocation_chain.rs ([Chain.*]), with
      RevocationCorrect.v.
    - ClosureModel.v: closure_model.rs, the scope chain ([Scopes.*]) and the
      store of closures, with ClosureCorrect.v.
    - DelegationChain.v: delegation_chain.rs, the checks of each link and the
      proof of authorization; the revocation oracle is the class of the trait,
      with the source's implementations as instances.
    - RevocationEnforcement.v: revocation_enforcement.rs, the enforcer ([Enf.*])
      over the chain of RevocationChain.v.  RevocationFreshness.v:
      revocation_freshness.rs, the degraded-mode controller ([Ctl.*]).
    - EpochBarrier.v: epoch_barrier.rs ([Bar.*]).
    - RegionLifecycle.v: region_lifecycle.rs, regions as trees of their children,
      with RegionCorrect.v.  ObligationChannel.v: obligation_channel.rs ([Ob.*]).
    - SessionChannel.v: session_hostcall_channel.rs: the handshake, the sessions
      ([Sess.*]) and the channel that holds them, with SessionCorrect.v.
    - ExecutionCell.v: execution_cell.rs: cells over regions ([Cell.*]), their
      manager ([Mgr.*]) and the binding of the extension host ([Host.*]); the
      context is the class [ContextAdapter] of the trait of control_plane/mod.rs.
      CancellationLifecycle.v: cancellation_lifecycle.rs ([CM.*]).  CellCorrect.v
      holds the proofs of both.
    - SagaOrchestrator.v: saga_orchestrator.rs ([Orch.*]), with SagaCorrect.v.
      SchedulerLane.v: scheduler_lane.rs ([Sched.*]), with SchedulerCorrect.v.
      LeaseTracker.v: lease_tracker.rs ([Leases.*]), with LeaseCorrect.v.
    - AntiEntropy.v: anti_entropy.rs: tables ([Table.*], [Peel.*]), sessions
      ([Recon.*]), the fallback ([Fallback.*]) and its monitor ([Monitor.*]), with
      AntiEntropyCorrect.v and FallbackCorrect.v.
    - Seqlock.v: seqlock_fastpath.rs, [SnapshotFastPath] under a schedule of the
      accesses of its threads, with the proofs.
    - EsmLoader.v: esm_loader.rs, import and export entries ([Entries.*]), module
      records ([Mod.*]) and the graph that links, evaluates and resolves exports
      ([Graph.*]).  EsmCorrect.v holds the proofs on linking and evaluation,
      EsmExports.v those on exports and orders.
    - LiveBinding.v: module_live_binding.rs, binding cells ([Cell.*]) and the map
      of cells and aliases ([Live.*]), with the proofs.

    A [Vec] that is a stack grows at the head of a list; registers, events and
    decisions are lists in order.  A handler that returns [Err] keeps the
    mutations made before the error, as the code does.

    ** What the theorems show

    - Interpreter.  Every execution returns ([interp_execute_terminates]) within
      its instruction budget ([interp_budget_respected]).  The call stack stays
      within its bound and the frames' register windows are contiguous
      ([interp_stack_discipline]), so that what runs above a frame cannot change
      that frame's registers ([interp_callee_cannot_touch_caller]).  Recorded
      host calls are granted ones made by host-call instructions
      ([interp_hostcalls_are_granted]), the recorded events form a witness that
      the IR4 check accepts ([interp_witness_passes_linkage]), and a second
      execution on the same core returns the same result
      ([interp_replay_deterministic]).  All follow from [loop_step_shape], which
      classifies an iteration by its effect on the control state, and, for
      replay, from [blind]: no method reads the post-run seed.
      Handles never dangle and numbers stay 64-bit ([interp_memory_safe], by the
      triples [safe] of InterpSafety.v).  [interp_exp_is_wrapped_power],
      [interp_for_in_keys_agree] and [interp_set_then_get] say what operators,
      prototype chains and assignments compute.
      [interp_discarded_return_leaks] is a program on which unwinding is wrong.
    - Collector.  A collection keeps exactly the objects reachable from roots
      ([gc_collect_keeps_exactly_reachable]), touches one heap only
      ([gc_collect_isolated]), finds nothing the second time
      ([gc_collect_idempotent]), and the bytes of the live objects are the used
      bytes of the extension-heap domain, within its limit
      ([gc_live_bytes_within_budget]).
    - Allocation domains.  Used bytes stay within limits
      ([registry_budget_invariant]); [registry_allocate_spec] covers every branch.
    - Serialization.  [decode_value] and [encode_value] are inverse bijections
      between bounded values and accepted buffers ([serde_decode_encode],
      [serde_accepted_is_canonical]); schemas are checked
      ([serde_schema_roundtrip], [serde_registry_checks_schema]); the limit of
      the length prefix shows in [serde_oversized_rejected].
    - IR contract.  Canonical bytes identify IR3 modules and IR4 witnesses
      ([ir3_canonical_bytes_injective], [ir4_canonical_bytes_injective]);
      [ir4_linkage_accepts_iff] says exactly what the linkage check accepts.
    - Hashes.  [hash_constant_time_eq_correct] and [hash_absorb_injective].
    - Merkle mountain ranges.  [mmr_append_extends] refines appending to the
      forest, honest proofs verify ([mmr_inclusion_complete],
      [mmr_consistency_complete]), and an accepted inclusion proof is right or
      exhibits a hash collision, when the verifier knows the length
      ([mmr_inclusion_sound]).  [inclusion_trusts_stream_length] and
      [mmr_consistency_accepts_any_prefix] are what verification fails to check.

    - Bytecode VM.  Shapes, slots and inline caches are invisible: the VM agrees
      with the reference machine on plain maps ([vm_refines_plain_objects]), a
      checked program meets only the three dynamic errors
      ([vm_checked_program_safe]) and the cache statistics are those of the
      event log ([vm_cache_stats_exact]).
    - Shapes.  The memo table is invisible ([shape_requests_history_free]);
      adding and deleting a property returns ([shape_add_delete_returns]); an
      inline cache is a function of its history
      ([inline_cache_follows_history]); lineages are simple paths
      ([lineage_is_simple_path]).  These and the refinement of the VM assume
      that the 64-bit shape ids are distinct on the layouts that occur, for the VM
      on those over the property names of its program.
    - Flows.  Receipts authorize exactly what they say
      ([flow_receipt_authorizes]), obligations are not overspent
      ([flow_obligation_uses_bounded]), the check decides every branch
      ([flow_check_decides]) and propagation is exact
      ([flow_propagation_exact]).  [forged_receipt_is_accepted] and
      [clearance_meet_widens] are its weak points.
    - Signatures.  A signature binds domain, schema and view or exhibits a hash
      collision ([signature_binds_object]); honest signatures verify
      ([signature_sign_verify]) and so do forged ones
      ([forged_signature_verifies]).
    - Marker stream.  An appended stream verifies ([marker_stream_verifies]) and
      a verified one is determined by its last hash up to collisions
      ([marker_chain_tamper_evident]), except for what
      [override_reason_not_hashed] shows.
    - Epochs.  The epoch never moves back and its history is exact
      ([epoch_history_monotone]); artifacts are accepted exactly in their window
      ([epoch_artifact_window]).
    - Objects.  Under every sequence of heap operations objects keep the
      essential invariants of ES2020 ([object_invariants_preserved]), frozen
      ones do not change ([frozen_object_immutable]) and prototype chains stay
      free of cycles ([prototype_chains_never_cycle]).  The walks agree with the
      first owner on the chain ([prototype_walks_agree]) and assignment with
      its definition on the object ([object_set_is_ordinary_set]).  The proxy
      checks accept honest traps ([proxy_honest_traps_accepted]) and, nine of
      them, exactly what the target allows ([proxy_checks_exact]).
      ObjectProxies.v ends with the places where the code departs from ES2020.
    - Promises.  Settlement is final ([promise_settle_once]), microtasks are a
      FIFO queue ([promise_microtasks_fifo]), turns pick the least ready task
      ([event_loop_turn_progress]) and run every task once and in order
      ([event_loop_runs_every_task]), and [Promise.all] completes when all inputs
      have ([promise_all_completes]).  An exception handed to the bridge rejects
      the promise with the thrown value ([Bridge.bridge_rejects]).
    - Identifiers and signature arrays.  An identifier determines what it was
      derived from, up to collisions ([object_id_binds]); signature arrays are
      sorted and free of duplicates ([multisig_array_canonical]) and a quorum
      counts distinct authorized signers whose signature verifies
      ([quorum_counts_distinct_signers]).
    - Checkpoints.  A built checkpoint verifies ([checkpoint_build_verifies]),
      its identifier and signatures fix its content
      ([checkpoint_id_determines], [checkpoint_signature_binds]), and the
      manager keeps, for every zone and under every sequence of calls, the
      maximum of what it accepted ([frontier_ratchet]).
      [frontier_skips_linkage] and [frontier_accepts_other_zone] are what it
      does not check.
    - Capabilities.  Intersection is the meet of profiles
      ([intersect_is_meet]); a token that was built verifies
      ([token_build_verifies]) and its signature fixes its fields up to
      collisions ([token_signature_binds]).
    - Revocations.  A chain grown by any sequence of appends is linked, counted,
      indexed and verifies ([revocation_chain_sound]), is what rebuilding from
      its events returns ([revocation_rebuild_roundtrip]), and its last hash
      fixes its events ([revocation_chain_tamper_evident]).
      [failed_append_breaks_chain] is the error path that spoils it.
    - Scopes and closures.  The scope chain with its shared scope table refines
      nested environments ([scope_chain_refines_nesting]), bindings keep their
      kinds and initialization discipline ([scope_bindings_invariant]) and the
      closure store only grows ([closure_store_grows]).
    - Delegation.  An accepted chain starts at an authorized root, each link is
      unrevoked, verified and no stronger than its parent, so that the authority
      at the leaf is confined by every link ([delegation_authority_confined]);
      [delegation_chain_exact_iff] says exactly what is accepted and
      [bearer_link_extends_to_anyone] what an empty audience allows.
    - Enforcement and freshness.  Under every sequence of calls the enforcer
      clears exactly what the chain does not revoke ([revocation_enforced]), and
      a revoked link ends a delegation ([revoked_link_ends_delegation]).  The
      controller allows operations by its state, and its state says how far it
      lags behind ([freshness_gate]); a recovery lasts the holdoff
      ([freshness_holdoff]) unless the sum overflows ([long_holdoff_is_skipped]).
    - Epoch barrier.  When every guard is released at most once, no guard outlives
      its epoch ([barrier_no_straddling]) and a transition that was begun can be
      completed ([barrier_transitions_complete]); [double_release_straddles] is
      the run that releases one twice.
    - Regions and obligations.  [region_close_exact] says what closing returns and
      leaves behind, [region_phases_forward] that phases only advance.  An
      obligation is resolved at most once and the counters are exact
      ([obligations_resolved_once]).
    - Sessions.  Against an adversary who rewrites the queues, a session delivers
      authentic envelopes only, with increasing sequence numbers
      ([session_replay_protection]); without one it is a bounded queue with
      exactly-once delivery ([session_delivery_fifo]).  The tag fixes the envelope
      ([session_mac_binds]) and nonces have the right length
      ([aead_nonce_exact]).
    - Cells.  [cancel_cell_exact] says what a cancellation returns and leaves
      behind, for every drain budget and event that forces aborts.  [session_outlives_extension],
      [reloaded_cell_dropped_running] and [mode_flags_ignored] are what it does
      not do.
    - Sagas.  The records of a saga tell the history that its state calls for
      ([saga_compensates_in_reverse]), and executing what the orchestrator hands
      out ends every saga with the verdict of its outcomes
      ([saga_drives_to_verdict]); [stale_epoch_fails_sagas] and
      [epoch_change_abandons_compensation] are its weak points.
    - Scheduling.  [schedule_batch_exact] says what a batch contains
      ([sub_bands_ignored] is what it says nothing about),
      [scheduler_accounts_for_tasks] that no task is lost or run twice, and
      [ready_tasks_not_starved] how long a ready task waits at most.
    - Leases.  [lease_scan_exact] says what a scan escalates, [lease_lifecycle]
      what the events of a lease are; [check_swallows_escalation] is how an
      escalation is lost.
    - Reconciliation.  A table is the sketch of a signed multiset ([sketch]).
      When no cell mixes differing keys of both sides, peeling ends and finds the
      exact difference or has a stopping set left ([iblt_difference_exact]), and a
      session succeeds or falls back ([reconcile_exact_or_fallback]), the latter
      after any failed peeling ([retries_never_help]).  Otherwise
      phantom keys pass the checksum ([checksum_never_rejects],
      [phantom_object_reported]) and the loop may never end
      ([reconcile_never_returns]).  The two fallbacks agree
      ([fallback_by_ranges_exact]) and the monitor's ring buffer is its window
      ([rate_monitor_window]).
    - Seqlock.  Publishing, seeding and reading a snapshot from many threads is
      linearizable ([seqlock_linearizable]).  Readers wait for a writer that holds
      the lock of the snapshot only, and return within their budgets otherwise
      ([seqlock_reader_returns]); nothing deadlocks ([seqlock_never_stuck]) and the
      counters say exactly what the finished calls did
      ([seqlock_telemetry_exact]).  Memory is sequentially consistent.
    - Modules.  Of every fresh graph with fewer modules than the depth limit,
      [esm_link_exact] and [esm_evaluate_exact] say what linking and evaluation
      return and leave behind.  The resolution of an export ends with a binding
      that the declarations entail, the one there is when it is unique
      ([resolve_export_exact]); [transitive_dependencies_exact] and
      [topological_order_exact] are the two searches.
      [acyclic_graph_reports_cycle], [failed_link_poisons_graph],
      [ambiguity_is_swallowed] and [default_through_star] are its weak points.
      Imports through re-exports read the one cell of their source
      ([live_bindings_agree], [live_binding_shared]); [re_export_chain_lost] and
      [dead_cells_revive] are what the map does not do.

    ** Fuel and bounds

    The mark loop runs on [mark_fuel] (the seeds and all references, plus one),
    proved enough in [mark_fuel_enough].  The interpreter loop runs on
    [run_fuel] (remaining budget and call depth), and
    [interp_execute_terminates] is the proof that it is enough.  The loops over
    positions of a mountain range run 64 times at most, the width of a position;
    below [2 ^ 62] leaves nothing overflows and that is enough, since the
    theorems show the results.  Prototype walks
    stop after 64 links (1024 in the object model) and the decoder after nesting level 128, as in the code.
    The loop of the bytecode VM runs on its step budget plus one, and the
    lineage loop on the number of transitions plus two: the theorems show that
    both are enough.  The reevaluation of the freshness state runs four times at
    most, shown to reach a state that no longer changes; the key expansion runs
    255 times, the bound of its own counter.  Closing a region or cancelling a
    cell ticks as often as its deadline allows, as the code does.  The loop that
    peels a table has no bound in the code; with one pass more than there are
    differing keys it ends when no cell is mixed, and not for any fuel in
    [reconcile_never_returns].  Linking and evaluation descend at
    most 512 levels, the limit of the code; the resolution of exports runs on
    [resolve_fuel], the number of pairs of module and name it can visit, and the
    two searches on one step more than there are names, shown to be enough, as
    is one step more than there are aliases for their walk.  Counters the source increments without
    a check wrap around.  [usize] has 64 bits.

    ** Not modelled

    Floating-point ratios (domain utilization, collector pressure), the serde
    derives, [Display] texts other than the ones the code stores, IR levels 0 to
    2 with the parser and the lowering passes, the other artifacts of ifc_artifacts.rs, the evidence ledger,
    the resolution of specifiers to files and the search of the loader for the
    members of cycles, the top-level orchestrator and containment, the gateways
    of the control plane, the statistical monitors, logging, reports and artifact
    files. *)
From stdpp Require Import base numbers list strings gmap sorting.
Open Scope Z_scope.

(** ** Results

    [Result<A, E>] of the source; the error type comes first so that
    [result E] is a monad. *)

Inductive result (E A : Type) : Type :=
  | Ok (a : A)
  | Err (e : E).
Arguments Ok {E A} _.
Arguments Err {E A} _.

#[export] Instance result_ret {E} : MRet (result E) := fun A a => Ok a.
#[export] Instance result_bind {E} : MBind (result E) :=
  fun A B f r => match r with Ok a => f a | Err e => Err e end.
#[export] Instance result_fmap {E} : FMap (result E) :=
  fun A B f r => match r with Ok a => Ok (f a) | Err e => Err e end.

#[export] Instance result_eq_dec {E A} `{!EqDecision E, !EqDecision A} :
  EqDecision (result E A).
Proof. solve_decision. Defined.

(** [opt.ok_or(e)] *)
Definition ok_or {E A} (e : E) (o : option A) : result E A :=
  match o with Some a => Ok a | None => Err e end.

(** [r.map_err(f)] *)
Definition map_err {E F A} (f : E -> F) (r : result E A) : result F A :=
  match r with Ok a => Ok a | Err e => Err (f e) end.

Definition is_ok {E A} (r : result E A) : bool :=
  match r with Ok _ => true | Err _ => false end.

(** ** Machine integers

    A w-bit unsigned integer is a [Z] in [0, 2^w); a w-bit signed integer is a
    [Z] in [-2^(w-1), 2^(w-1)).  The operations write the overflow behaviour
    of the source out. *)

Definition u8_max : Z := 2 ^ 8 - 1.
Definition u16_max : Z := 2 ^ 16 - 1.
Definition u32_max : Z := 2 ^ 32 - 1.
Definition u64_max : Z := 2 ^ 64 - 1.
Definition i64_min : Z := - 2 ^ 63.
Definition i64_max : Z := 2 ^ 63 - 1.
(** [usize] is 64 bits wide on the supported targets. *)
Definition usize_max : Z := u64_max.

Definition is_u8 (z : Z) : Prop := 0 <= z <= u8_max.
Definition is_u16 (z : Z) : Prop := 0 <= z <= u16_max.
Definition is_u32 (z : Z) : Prop := 0 <= z <= u32_max.
Definition is_u64 (z : Z) : Prop := 0 <= z <= u64_max.
Definition is_i64 (z : Z) : Prop := i64_min <= z <= i64_max.

Definition wrap_u8 (z : Z) : Z := z mod 2 ^ 8.
Definition wrap_u32 (z : Z) : Z := z mod 2 ^ 32.
Definition wrap_u64 (z : Z) : Z := z mod 2 ^ 64.
Definition wrap_i32 (z : Z) : Z := (z + 2 ^ 31) mod 2 ^ 32 - 2 ^ 31.
Definition wrap_i64 (z : Z) : Z := (z + 2 ^ 63) mod 2 ^ 64 - 2 ^ 63.

(** [a.saturating_add(b)] and [a.saturating_sub(b)] on [u64]. *)
Definition sat_add64 (a b : Z) : Z := Z.min (a + b) u64_max.
Definition sat_sub64 (a b : Z) : Z := Z.max (a - b) 0.

(** [a.checked_add(b)] on [u64]/[usize]. *)
Definition checked_add64 (a b : Z) : option Z :=
  if a + b <=? u64_max then Some (a + b) else None.

(** [u32::try_from(n).unwrap_or(u32::MAX)] *)
Definition u32_sat (n : Z) : Z := if n <=? u32_max then n else u32_max.

Ltac unfold_words :=
  unfold is_u8, is_u16, is_u32, is_u64, is_i64, wrap_u8, wrap_u32, wrap_u64,
    wrap_i32, wrap_i64, sat_add64, sat_sub64, checked_add64, u32_sat, usize_max,
    u8_max, u16_max, u32_max, u64_max, i64_min, i64_max in *.

(** Linear arithmetic with the machine bounds unfolded. *)
Ltac mlia := unfold_words; lia.

Create HintDb franken.

Lemma is_u64_sat_add a b : is_u64 a -> is_u64 b -> is_u64 (sat_add64 a b).
Proof. mlia. Qed.

Lemma is_u64_sat_sub a b : is_u64 a -> 0 <= b -> is_u64 (sat_sub64 a b).
Proof. mlia. Qed.

Lemma is_u64_wrap z : is_u64 (wrap_u64 z).
Proof. unfold_words. pose proof (Z.mod_pos_bound z (2 ^ 64)). lia. Qed.

Lemma is_i64_wrap z : is_i64 (wrap_i64 z).
Proof. unfold_words. pose proof (Z.mod_pos_bound (z + 2 ^ 63) (2 ^ 64)). lia. Qed.

Lemma wrap_u64_small z : is_u64 z -> wrap_u64 z = z.
Proof. intros H. unfold wrap_u64. apply Z.mod_small. mlia. Qed.

Lemma wrap_i64_small z : is_i64 z -> wrap_i64 z = z.
Proof. intros H. unfold wrap_i64. rewrite Z.mod_small; mlia. Qed.

#[export] Hint Resolve is_u64_sat_add is_u64_sat_sub is_u64_wrap is_i64_wrap : franken.

(** ** Deterministic iteration over maps

    A [BTreeMap<K, V>] is a [gmap K V]; iterating over it visits the entries in
    increasing key order, which [sorted_entries] makes explicit.  The order on
    keys is a [BTreeKey] instance. *)

Class BTreeKey (K : Type) := {
  key_le : K -> K -> Prop;
  key_le_dec :: RelDecision key_le;
  key_le_total :: Total key_le;
  key_le_trans :: Transitive key_le;
}.

Section sorted_entries.
Context `{Countable K, !BTreeKey K} {V : Type}.

Definition entry_le (a b : K * V) : Prop := key_le a.1 b.1.

#[export] Instance entry_le_dec : RelDecision entry_le.
Proof. intros a b. apply key_le_dec. Defined.

#[export] Instance entry_le_total : Total entry_le.
Proof. intros a b. apply key_le_total. Qed.

#[export] Instance entry_le_trans : Transitive entry_le.
Proof. intros a b c. apply key_le_trans. Qed.

(** [map.iter()] *)
Definition sorted_entries (m : gmap K V) : list (K * V) :=
  merge_sort entry_le (map_to_list m).
(** [map.keys()] and [map.values()] *)
Definition sorted_keys (m : gmap K V) : list K := (sorted_entries m).*1.
Definition sorted_values (m : gmap K V) : list V := (sorted_entries m).*2.

Lemma sorted_entries_perm m : sorted_entries m ≡ₚ map_to_list m.
Proof. apply merge_sort_Permutation. Qed.

Lemma elem_of_sorted_entries m k v : (k, v) ∈ sorted_entries m <-> m !! k = Some v.
Proof. rewrite sorted_entries_perm. apply elem_of_map_to_list. Qed.

Lemma elem_of_sorted_keys m k : k ∈ sorted_keys m <-> is_Some (m !! k).
Proof.
  unfold sorted_keys. rewrite list_elem_of_fmap. split.
  - intros [[k' v] [-> Hin]]. apply elem_of_sorted_entries in Hin. eauto.
  - intros [v Hv]. exists (k, v). split; [done|]. by apply elem_of_sorted_entries.
Qed.

Lemma sorted_entries_sorted m : StronglySorted entry_le (sorted_entries m).
Proof. apply StronglySorted_merge_sort; apply _. Qed.

Lemma NoDup_sorted_keys m : NoDup (sorted_keys m).
Proof.
  unfold sorted_keys. rewrite sorted_entries_perm. apply NoDup_fst_map_to_list.
Qed.
End sorted_entries.

#[export] Instance Z_btree_key : BTreeKey Z := {| key_le := Z.le |}.

(** Lexicographic order on strings: the byte-wise order of [str::cmp]. *)
#[export] Instance string_btree_key : BTreeKey string := {| key_le := String.le |}.

(** ** Sets visited in order *)

(** [set.iter()] *)
Definition set_iter `{Countable K, !BTreeKey K} (s : gset K) : list K :=
  merge_sort key_le (elements s).

Lemma set_iter_perm `{Countable K, !BTreeKey K} (s : gset K) : set_iter s ≡ₚ elements s.
Proof. apply merge_sort_Permutation. Qed.

Lemma set_iter_set `{Countable K, !BTreeKey K} (s : gset K) : list_to_set (set_iter s) = s.
Proof. apply set_eq. intros x. rewrite elem_of_list_to_set, set_iter_perm. apply elem_of_elements. Qed.

(** ** Sums over maps *)

Section map_sum.
Context `{Countable K} {V : Type}.
Implicit Types (f : V -> Z) (m : gmap K V).

Definition map_sum f m : Z := map_fold (fun _ v acc => f v + acc) 0 m.

Lemma map_sum_empty f : map_sum f ∅ = 0.
Proof. apply map_fold_empty. Qed.

Lemma map_sum_insert f m k v :
  m !! k = None -> map_sum f (<[k:=v]> m) = f v + map_sum f m.
Proof.
  intros Hk. unfold map_sum. rewrite map_fold_insert_L; [done| |done].
  intros. lia.
Qed.

Lemma map_sum_delete f m k v :
  m !! k = Some v -> map_sum f m = f v + map_sum f (delete k m).
Proof.
  intros Hk. rewrite <- (insert_delete_id m k v) at 1 by done.
  apply map_sum_insert, lookup_delete_eq.
Qed.

Lemma map_sum_update f m k v v' :
  m !! k = Some v -> map_sum f (<[k:=v']> m) = map_sum f m - f v + f v'.
Proof.
  intros Hk. rewrite (map_sum_delete f m k v Hk).
  rewrite <- insert_delete_eq, map_sum_insert by apply lookup_delete_eq. lia.
Qed.

Lemma map_sum_nonneg f m : (forall k v, m !! k = Some v -> 0 <= f v) -> 0 <= map_sum f m.
Proof.
  induction m as [|k v m Hk IH] using map_ind; intros Hpos.
  - by rewrite map_sum_empty.
  - rewrite map_sum_insert by done.
    pose proof (Hpos k v (lookup_insert_eq _ _ _)).
    assert (0 <= map_sum f m); [|lia].
    apply IH. intros k' v' Hk'. apply (Hpos k').
    rewrite lookup_insert_ne; [done|]. congruence.
Qed.

Lemma map_sum_filter f (P : K * V -> Prop) `{!forall x, Decision (P x)} m :
  map_sum f m = map_sum f (filter P m) + map_sum f (filter (fun x => ~ P x) m).
Proof.
  induction m as [|k v m Hk IH] using map_ind.
  - by rewrite !map_filter_empty, !map_sum_empty.
  - rewrite map_sum_insert, IH by done.
    destruct (decide (P (k, v))) as [HP|HP].
    + rewrite map_filter_insert_True, map_sum_insert by (done || by apply map_lookup_filter_None; left).
      rewrite map_filter_insert_not' by naive_solver. lia.
    + rewrite map_filter_insert_not' by naive_solver.
      rewrite map_filter_insert_True, map_sum_insert by (done || by apply map_lookup_filter_None; left).
      lia.
Qed.
End map_sum.

(** Sums of lists of integers, and the running wrapped sum of a [u64]
    accumulator. *)
Definition Zsum (l : list Z) : Z := foldr Z.add 0 l.

#[export] Instance Zsum_perm : Proper ((≡ₚ) ==> (=)) Zsum.
Proof. intros l1 l2 Hp. unfold Zsum. induction Hp; simpl; lia. Qed.

Lemma Zsum_nonneg l : Forall (fun z => 0 <= z) l -> 0 <= Zsum l.
Proof. induction 1; simpl; lia. Qed.

Lemma fold_wrap_sum (l : list Z) a :
  Forall (fun z => 0 <= z) l -> 0 <= a -> a + Zsum l <= u64_max ->
  fold_left (fun acc z => wrap_u64 (acc + z)) l a = a + Zsum l.
Proof.
  revert a. induction l as [|z l IH]; intros a Hl Ha Hs; simpl in *; [lia|].
  apply Forall_cons in Hl as [Hz Hl]. pose proof (Zsum_nonneg l Hl).
  rewrite wrap_u64_small by mlia. rewrite IH; [lia|done|lia|lia].
Qed.

Lemma map_sum_sorted_values `{Countable K, !BTreeKey K} {V} (f : V -> Z) (m : gmap K V) :
  map_sum f m = Zsum (f <$> sorted_values m).
Proof.
  unfold map_sum, sorted_values. rewrite map_fold_foldr.
  rewrite sorted_entries_perm. unfold Zsum. 
  induction (map_to_list m) as [|[k v] l IH]; simpl; [done|]. by rewrite IH.
Qed.

(** ** Reasoning about the result monad *)

Lemma bind_Ok {E A B} (r : result E A) (f : A -> result E B) b :
  r ≫= f = Ok b <-> exists a, r = Ok a /\ f a = Ok b.
Proof. destruct r; cbv; naive_solver. Qed.

Lemma ok_or_Ok {E A} (e : E) (o : option A) a : ok_or e o = Ok a <-> o = Some a.
Proof. destruct o; cbv; naive_solver. Qed.

(** Destruct every [_ ≫= _ = Ok _] and [ok_or _ _ = Ok _] hypothesis. *)
Ltac res_inv :=
  repeat match goal with
  | H : Ok _ = Ok _ |- _ => injection H as H; subst
  | H : Err _ = Ok _ |- _ => discriminate H
  | H : (_ ≫= _) = Ok _ |- _ =>
      let a := fresh "a" in let Ha := fresh "Ha" in
      apply bind_Ok in H as (a & Ha & H)
  | H : ok_or _ _ = Ok _ |- _ => apply ok_or_Ok in H
  | a : unit |- _ => destruct a
  | a : _ * _ |- _ => destruct a
  end.

Lemma filter_all {A} (P : A -> Prop) `{!forall x, Decision (P x)} (l : list A) :
  (forall x, x ∈ l -> P x) -> filter P l = l.
Proof.
  induction l as [|x l IH]; intros Ha; [done|].
  rewrite filter_cons_True by (apply Ha; by left). f_equal. apply IH. intros y Hy. apply Ha. by right.
Qed.

(** ** Counting

    What the managers of sagas, tasks, leases and cells share: counters by
    event name, the number of entries of a map with a property as a sum,
    removal of a list of keys, and invariants of runs. *)

(** [*counts.entry(name).or_insert(0) += 1] *)
Definition bump_count (name : string) (m : gmap string Z) : gmap string Z :=
  <[name := wrap_u64 (default 0 (m !! name) + 1)]> m.

Lemma bump_count_eq name m n :
  default 0 (m !! name) = n -> is_u64 (n + 1) -> bump_count name m !! name = Some (n + 1).
Proof. intros <- ?. unfold bump_count. by rewrite lookup_insert_eq, wrap_u64_small. Qed.

Lemma bump_count_ne name name' m : name <> name' -> bump_count name m !! name' = m !! name'.
Proof. apply lookup_insert_ne. Qed.

(** A property that every step keeps holds along a run. *)
Lemma rtc_preserves {A} (R : relation A) (P : A -> Prop) :
  (forall x y, P x -> R x y -> P y) -> forall x y, rtc R x y -> P x -> P y.
Proof. intros Hstep x y Hr. induction Hr; eauto. Qed.

Lemma filter_none {A} (P : A -> Prop) `{!forall x, Decision (P x)} (l : list A) :
  (forall x, x ∈ l -> ~ P x) -> filter P l = [].
Proof.
  induction l as [|x l IH]; intros Hn; [done|].
  rewrite filter_cons_False by (apply Hn; by left). apply IH. intros y Hy. apply Hn. by right.
Qed.

Lemma elem_of_concat {A} (x : A) (ls : list (list A)) : x ∈ concat ls <-> exists l, x ∈ l /\ l ∈ ls.
Proof.
  induction ls as [|l ls IH]; cbn; [split; [by intros ?%elem_of_nil|by intros (? & _ & ?%elem_of_nil)]|].
  rewrite elem_of_app, IH. split; [intros [?|(l' & ? & ?)]; [exists l|exists l']; set_solver|].
  intros (l' & Hx & [->|Hl]%elem_of_cons); eauto.
Qed.

Lemma NoDup_fst_filter {A B} (P : A * B -> Prop) `{!forall x, Decision (P x)} (l : list (A * B)) :
  NoDup l.*1 -> NoDup (filter P l).*1.
Proof.
  induction l as [|x l IH]; intros Hnd; [done|]. apply NoDup_cons in Hnd as [Hx Hnd].
  rewrite filter_cons. case_decide; [|by apply IH]. apply NoDup_cons. split; [|by apply IH].
  intros (y & Hy & [_ Hin]%list_elem_of_filter)%list_elem_of_fmap. apply Hx, list_elem_of_fmap. eauto.
Qed.

Lemma filter_sorted {A} (R : relation A) (P : A -> Prop) `{!forall x, Decision (P x)} (l : list A) :
  StronglySorted R l -> StronglySorted R (filter P l).
Proof.
  induction 1 as [|x l Hl IH Hx]; [constructor|]. rewrite filter_cons. case_decide; [|done].
  constructor; [done|]. rewrite Forall_forall in Hx |- *. intros y [_ Hy]%list_elem_of_filter. by apply Hx.
Qed.

(** Removing the listed keys one after the other. *)
Lemma fold_delete_lookup `{Countable K} {V} (l : list K) (m : gmap K V) k :
  fold_left (fun m k => delete k m) l m !! k = if decide (k ∈ l) then None else m !! k.
Proof.
  revert m. induction l as [|k' l IH]; intros m; cbn [fold_left]; [done|]. rewrite IH.
  destruct (decide (k ∈ l)) as [Hl|Hl].
  { rewrite decide_True by set_solver. done. }
  destruct (decide (k' = k)) as [->|Hne].
  - rewrite lookup_delete_eq, decide_True by set_solver. done.
  - rewrite lookup_delete_ne, decide_False by set_solver. done.
Qed.

Section indicator.
Context `{Countable K} {V : Type}.

(** One for a value with the property. *)
Definition indicator (b : V -> bool) (v : V) : Z := if b v then 1 else 0.

Lemma size_filter_sum (b : V -> bool) (P : K * V -> Prop) `{!forall x, Decision (P x)} (m : gmap K V) :
  (forall k v, P (k, v) <-> b v = true) ->
  Z.of_nat (size (filter P m)) = map_sum (indicator b) m.
Proof.
  intros Hb. induction m as [|k v m Hk IH] using map_ind.
  - by rewrite map_filter_empty, map_sum_empty, map_size_empty.
  - rewrite map_sum_insert by done. unfold indicator at 1. destruct (b v) eqn:Hv.
    + rewrite map_filter_insert_True by (by apply Hb). rewrite map_size_insert_None; [lia|].
      apply map_lookup_filter_None. by left.
    + rewrite map_filter_insert_not' by (rewrite ?Hb; congruence). lia.
Qed.

Lemma indicator_sum_le (b : V -> bool) (f : V -> V) (m : gmap K V) :
  (forall v, b (f v) = true -> b v = true) ->
  map_sum (indicator b) (f <$> m) <= map_sum (indicator b) m.
Proof.
  intros Hf. induction m as [|k v m Hk IH] using map_ind.
  - by rewrite fmap_empty.
  - rewrite fmap_insert, !map_sum_insert by (rewrite ?lookup_fmap, ?Hk; done).
    unfold indicator at 1 3. specialize (Hf v). destruct (b (f v)), (b v); [lia|by specialize (Hf eq_refl)|lia|lia].
Qed.

(** The sum over a part of a map. *)
Lemma indicator_sum_subseteq (b : V -> bool) (m m' : gmap K V) :
  m ⊆ m' -> map_sum (indicator b) m <= map_sum (indicator b) m'.
Proof.
  revert m'. induction m as [|k v m Hk IH] using map_ind; intros m' Hs.
  - rewrite map_sum_empty. apply map_sum_nonneg. intros. unfold indicator. case_match; lia.
  - assert (Hv : m' !! k = Some v) by (eapply lookup_weaken; [apply lookup_insert_eq|done]).
    rewrite map_sum_insert, (map_sum_delete _ m' k v) by done.
    assert (m ⊆ delete k m'); [|pose proof (IH (delete k m')); intuition lia].
    rewrite <- (delete_insert_id m k v) by done. by apply delete_mono.
Qed.

(** Replacing one value. *)
Lemma indicator_sum_put (b : V -> bool) (m : gmap K V) k v :
  map_sum (indicator b) (<[k := v]> m) =
  map_sum (indicator b) m - default 0 (indicator b <$> m !! k) + indicator b v.
Proof.
  destruct (m !! k) as [v0|] eqn:Hk; cbn.
  - by rewrite (map_sum_update _ m k v0).
  - rewrite map_sum_insert by done. lia.
Qed.
End indicator.
