(* ===== verification/AllocDomain.v ===== *)
(** * Allocation domains (crates/franken-engine/src/alloc_domain.rs)

    The taxonomy of memory regions, the byte budget of one region
    ([DomainBudget]) and the registry that charges allocations to regions
    ([DomainRegistry]).  The state-changing operations return the new state
    beside the result, so that a failing call shows what it left behind.
    [utilization] (an [f64] ratio for reporting) is not modelled. *)
From S2P Require Import Prelude.
From stdpp Require Import base numbers list strings gmap sorting.
Open Scope Z_scope.

(** ** Data *)

Inductive AllocationDomain :=
  | DExtensionHeap
  | DRuntimeHeap
  | DIrArena
  | DEvidenceArena
  | DScratchBuffer.

#[export] Instance AllocationDomain_eq_dec : EqDecision AllocationDomain.
Proof. solve_decision. Defined.

(** The derived [Ord] of the enum: declaration order. *)
Definition domain_rank (d : AllocationDomain) : Z :=
  match d with
  | DExtensionHeap => 0
  | DRuntimeHeap => 1
  | DIrArena => 2
  | DEvidenceArena => 3
  | DScratchBuffer => 4
  end.

Definition domain_of_rank (z : Z) : option AllocationDomain :=
  if z =? 0 then Some DExtensionHeap
  else if z =? 1 then Some DRuntimeHeap
  else if z =? 2 then Some DIrArena
  else if z =? 3 then Some DEvidenceArena
  else if z =? 4 then Some DScratchBuffer
  else None.

#[export] Instance AllocationDomain_countable : Countable AllocationDomain.
Proof. apply (inj_countable domain_rank domain_of_rank). by intros []. Defined.

#[export] Instance AllocationDomain_btree_key : BTreeKey AllocationDomain.
Proof.
  refine {| key_le a b := domain_rank a <= domain_rank b |}.
  - intros a b. apply Z_le_dec.
  - intros a b. destruct (Z.le_ge_cases (domain_rank a) (domain_rank b)); auto.
  - intros a b c ? ?. lia.
Defined.

Inductive LifetimeClass := RequestScoped | SessionScoped | Global | Arena.

#[export] Instance LifetimeClass_eq_dec : EqDecision LifetimeClass.
Proof. solve_decision. Defined.

Record DomainBudget := mkBudget { max_bytes : Z; used_bytes : Z }.

Record DomainConfig := mkConfig {
  cfg_domain : AllocationDomain;
  cfg_lifetime : LifetimeClass;
  cfg_budget : DomainBudget;
}.

Inductive AllocDomainError :=
  | BudgetExceeded (requested remaining : Z) (domain : option AllocationDomain)
  | BudgetOverflow
  | DomainNotFound (domain : AllocationDomain)
  | DuplicateDomain (domain : AllocationDomain).

#[export] Instance AllocDomainError_eq_dec : EqDecision AllocDomainError.
Proof. solve_decision. Defined.

(** ** [DomainBudget] *)

Module Budget.
Definition new (max : Z) : DomainBudget := mkBudget max 0.

Definition remaining (b : DomainBudget) : Z := sat_sub64 (max_bytes b) (used_bytes b).

Definition try_reserve (b : DomainBudget) (bytes : Z) : DomainBudget * result AllocDomainError unit :=
  match checked_add64 (used_bytes b) bytes with
  | None => (b, Err BudgetOverflow)
  | Some new_used =>
      if max_bytes b <? new_used
      then (b, Err (BudgetExceeded bytes (remaining b) None))
      else (mkBudget (max_bytes b) new_used, Ok tt)
  end.

Definition release (b : DomainBudget) (bytes : Z) : DomainBudget :=
  mkBudget (max_bytes b) (sat_sub64 (used_bytes b) bytes).

(** A budget never promises more than its limit. *)
Definition wf (b : DomainBudget) : Prop :=
  is_u64 (max_bytes b) /\ 0 <= used_bytes b <= max_bytes b.

Lemma budget_new_wf max : is_u64 max -> wf (new max).
Proof. unfold wf, new; simpl. mlia. Qed.

Lemma try_reserve_wf b bytes :
  wf b -> is_u64 bytes -> wf (try_reserve b bytes).1.
Proof.
  intros Hb Hn. unfold try_reserve, checked_add64.
  case_match; simplify_eq/=; repeat case_match; simplify_eq/=; try done.
  unfold wf in *; simpl. mlia.
Qed.

Lemma budget_release_wf b bytes : wf b -> 0 <= bytes -> wf (release b bytes).
Proof. unfold wf, release; simpl. mlia. Qed.

(** [try_reserve] succeeds exactly when the request fits the limit. *)
Lemma try_reserve_ok_iff b bytes :
  wf b -> is_u64 bytes ->
  (try_reserve b bytes).2 = Ok tt <-> used_bytes b + bytes <= max_bytes b.
Proof.
  intros Hb Hn. unfold try_reserve, checked_add64, wf in *.
  destruct (Z.leb_spec (used_bytes b + bytes) u64_max).
  - destruct (Z.ltb_spec (max_bytes b) (used_bytes b + bytes)); simpl.
    + split; [done|lia].
    + split; [lia|done].
  - simpl. split; [done|mlia].
Qed.

Lemma try_reserve_err b bytes e :
  (try_reserve b bytes).2 = Err e -> (try_reserve b bytes).1 = b.
Proof. unfold try_reserve. repeat case_match; naive_solver. Qed.

Lemma try_reserve_ok b bytes :
  (try_reserve b bytes).2 = Ok tt ->
  (try_reserve b bytes).1 = mkBudget (max_bytes b) (used_bytes b + bytes).
Proof.
  unfold try_reserve, checked_add64. repeat case_match; naive_solver.
Qed.
End Budget.

(** ** [DomainRegistry] *)

Record DomainRegistry := mkRegistry {
  domains : gmap AllocationDomain DomainConfig;
  allocation_sequence : Z;
}.

Definition set_budget (c : DomainConfig) (b : DomainBudget) : DomainConfig :=
  mkConfig (cfg_domain c) (cfg_lifetime c) b.

Module Registry.
Definition new : DomainRegistry := mkRegistry ∅ 0.

Definition register (r : DomainRegistry) (d : AllocationDomain) (l : LifetimeClass)
    (max : Z) : DomainRegistry * result AllocDomainError unit :=
  match domains r !! d with
  | Some _ => (r, Err (DuplicateDomain d))
  | None =>
      (mkRegistry (<[d := mkConfig d l (Budget.new max)]> (domains r))
         (allocation_sequence r), Ok tt)
  end.

(** The error of [try_reserve] with the domain filled in. *)
Definition tag_domain (d : AllocationDomain) (e : AllocDomainError) : AllocDomainError :=
  match e with
  | BudgetExceeded requested remaining _ => BudgetExceeded requested remaining (Some d)
  | other => other
  end.

Definition allocate (r : DomainRegistry) (d : AllocationDomain) (bytes : Z)
    : DomainRegistry * result AllocDomainError Z :=
  match domains r !! d with
  | None => (r, Err (DomainNotFound d))
  | Some c =>
      let '(b', res) := Budget.try_reserve (cfg_budget c) bytes in
      match res with
      | Err e => (mkRegistry (<[d := set_budget c b']> (domains r)) (allocation_sequence r),
                  Err (tag_domain d e))
      | Ok _ =>
          let seq := sat_add64 (allocation_sequence r) 1 in
          (mkRegistry (<[d := set_budget c b']> (domains r)) seq, Ok seq)
      end
  end.

Definition release (r : DomainRegistry) (d : AllocationDomain) (bytes : Z)
    : DomainRegistry * result AllocDomainError unit :=
  match domains r !! d with
  | None => (r, Err (DomainNotFound d))
  | Some c =>
      (mkRegistry (<[d := set_budget c (Budget.release (cfg_budget c) bytes)]> (domains r))
         (allocation_sequence r), Ok tt)
  end.

Definition get (r : DomainRegistry) (d : AllocationDomain) : option DomainConfig :=
  domains r !! d.

Definition total_used (r : DomainRegistry) : Z :=
  fold_left (fun acc c => sat_add64 acc (used_bytes (cfg_budget c))) (sorted_values (domains r)) 0.

Definition total_capacity (r : DomainRegistry) : Z :=
  fold_left (fun acc c => sat_add64 acc (max_bytes (cfg_budget c))) (sorted_values (domains r)) 0.

Definition reset_domain (r : DomainRegistry) (d : AllocationDomain)
    : DomainRegistry * result AllocDomainError unit :=
  match domains r !! d with
  | None => (r, Err (DomainNotFound d))
  | Some c =>
      (mkRegistry (<[d := set_budget c (mkBudget (max_bytes (cfg_budget c)) 0)]> (domains r))
         (allocation_sequence r), Ok tt)
  end.

Definition with_standard_domains (extension_heap_bytes : Z) : DomainRegistry :=
  let r := new in
  let r := (register r DExtensionHeap SessionScoped extension_heap_bytes).1 in
  let r := (register r DRuntimeHeap Global u64_max).1 in
  let r := (register r DIrArena Arena (512 * 1024 * 1024)).1 in
  let r := (register r DEvidenceArena SessionScoped (128 * 1024 * 1024)).1 in
  (register r DScratchBuffer RequestScoped (64 * 1024 * 1024)).1.

(** Every registered domain is stored under its own key and within budget. *)
Definition wf (r : DomainRegistry) : Prop :=
  (forall d c, domains r !! d = Some c -> cfg_domain c = d /\ Budget.wf (cfg_budget c)) /\
  is_u64 (allocation_sequence r).

(** The operations of the registry as a step relation. *)
Inductive step : DomainRegistry -> DomainRegistry -> Prop :=
  | step_register r d l max : is_u64 max -> step r (register r d l max).1
  | step_allocate r d n : is_u64 n -> step r (allocate r d n).1
  | step_release r d n : is_u64 n -> step r (release r d n).1
  | step_reset r d : step r (reset_domain r d).1.

Lemma wf_update r d c b seq :
  wf r -> domains r !! d = Some c -> Budget.wf b -> is_u64 seq ->
  wf (mkRegistry (<[d := set_budget c b]> (domains r)) seq).
Proof.
  intros [Hd Hs] Hc Hb Hseq. split; [|done]. intros d' c'. simpl.
  rewrite lookup_insert. case_decide; subst.
  - intros [= <-]. simpl. split; [apply (Hd d' c Hc)|done].
  - apply Hd.
Qed.

Lemma new_wf : wf new.
Proof. split; [|unfold new; simpl; mlia]. intros d c Hc. simpl in Hc. by rewrite lookup_empty in Hc. Qed.

Lemma register_wf r d l max : wf r -> is_u64 max -> wf (register r d l max).1.
Proof.
  intros [Hd Hs] Hm. unfold register. destruct (domains r !! d) eqn:E; [done|].
  split; [|done]. intros d' c'. simpl. rewrite lookup_insert. case_decide; subst.
  - intros [= <-]. split; [done|]. by apply Budget.budget_new_wf.
  - apply Hd.
Qed.

Lemma allocate_wf r d n : wf r -> is_u64 n -> wf (allocate r d n).1.
Proof.
  intros Hr Hn. unfold allocate. destruct (domains r !! d) as [c|] eqn:E; [|done].
  pose proof (proj2 (proj1 Hr d c E)) as Hb.
  pose proof (Budget.try_reserve_wf _ n Hb Hn) as Hb'.
  destruct (Budget.try_reserve (cfg_budget c) n) as [b' [u|e]]; simpl in *;
    apply wf_update; try done; [|apply Hr].
  apply is_u64_sat_add; [apply Hr|mlia].
Qed.

Lemma release_wf r d n : wf r -> is_u64 n -> wf (release r d n).1.
Proof.
  intros Hr Hn. unfold release. destruct (domains r !! d) as [c|] eqn:E; [|done].
  simpl. apply wf_update; try done; [|apply Hr].
  apply Budget.budget_release_wf; [apply (proj1 Hr d c E)|mlia].
Qed.

Lemma reset_wf r d : wf r -> wf (reset_domain r d).1.
Proof.
  intros Hr. unfold reset_domain. destruct (domains r !! d) as [c|] eqn:E; [|done].
  simpl. apply wf_update; try done; [|apply Hr].
  pose proof (proj1 Hr d c E) as [_ [Hm Hu]]. unfold Budget.wf; simpl. mlia.
Qed.

#[export] Hint Resolve new_wf register_wf allocate_wf release_wf reset_wf : franken.

Lemma step_wf r r' : step r r' -> wf r -> wf r'.
Proof. destruct 1; auto with franken. Qed.

Lemma fold_sat_le (f g : DomainConfig -> Z) l a b :
  (forall c, c ∈ l -> f c <= g c) -> a <= b ->
  fold_left (fun acc c => sat_add64 acc (f c)) l a <=
  fold_left (fun acc c => sat_add64 acc (g c)) l b.
Proof.
  revert a b. induction l as [|c l IH]; intros a b Hfg Hab; [done|]. simpl.
  apply IH; [set_solver|]. pose proof (Hfg c ltac:(set_solver)). mlia.
Qed.
End Registry.

Module RegistryProps.
Import Registry.

Lemma rtc_step_wf r r' : rtc step r r' -> wf r -> wf r'.
Proof. induction 1; eauto using step_wf. Qed.

Lemma wf_sorted_values r c :
  wf r -> c ∈ sorted_values (domains r) -> Budget.wf (cfg_budget c).
Proof.
  intros [Hd _]. unfold sorted_values. rewrite list_elem_of_fmap.
  intros [[d c'] [-> Hin]]. apply elem_of_sorted_entries in Hin. apply (Hd d c' Hin).
Qed.

Lemma fold_sat_zero (l : list DomainConfig) a :
  0 <= a -> 0 <= fold_left (fun acc _ => sat_add64 acc 0) l a.
Proof. revert a. induction l as [|c l IH]; intros a Ha; [done|]. simpl. apply IH. mlia. Qed.

(** Every registry reachable from the empty one by registering, allocating, releasing
    and resetting, successfully or not, keeps each domain's used bytes between zero and
    its limit, and the saturating totals satisfy total used at most total capacity. *)
Theorem registry_budget_invariant r :
  rtc step new r ->
  wf r /\ 0 <= total_used r <= total_capacity r.
Proof.
  intros Hsteps. pose proof (rtc_step_wf _ _ Hsteps new_wf) as Hwf.
  split; [done|]. unfold total_used, total_capacity. split.
  - etransitivity; [apply (fold_sat_zero (sorted_values (domains r)) 0); lia|].
    apply fold_sat_le; [|lia]. intros c Hc. apply (wf_sorted_values r c Hwf Hc).
  - apply fold_sat_le; [|lia]. intros c Hc. apply (wf_sorted_values r c Hwf Hc).
Qed.

Lemma set_budget_same c : set_budget c (cfg_budget c) = c.
Proof. by destruct c. Qed.

(** What [allocate] did, from its result. *)
Lemma allocate_cases r d n c :
  wf r -> is_u64 n -> domains r !! d = Some c ->
  match (allocate r d n).2 with
  | Ok seq =>
      used_bytes (cfg_budget c) + n <= max_bytes (cfg_budget c) /\
      (allocate r d n).1 =
        mkRegistry (<[d := set_budget c (mkBudget (max_bytes (cfg_budget c))
                                          (used_bytes (cfg_budget c) + n))]> (domains r)) seq
  | Err _ => (allocate r d n).1 = r
  end.
Proof.
  intros Hr Hn E. unfold allocate. rewrite E.
  pose proof (proj2 (proj1 Hr d c E)) as Hb.
  pose proof (Budget.try_reserve_ok_iff (cfg_budget c) n Hb Hn) as Hiff.
  destruct (Budget.try_reserve (cfg_budget c) n) as [b' res] eqn:Er.
  assert (Hb' : b' = (Budget.try_reserve (cfg_budget c) n).1) by by rewrite Er.
  destruct res as [[]|e]; simpl in *.
  - split; [by apply Hiff|]. rewrite Hb', Budget.try_reserve_ok by by rewrite Er. done.
  - rewrite (Budget.try_reserve_err (cfg_budget c) n e) in Hb' by by rewrite Er.
    subst b'. rewrite set_budget_same, insert_id by done. by destruct r.
Qed.

(** Allocation on every branch: an unknown domain is an error; a request that fits
    adds exactly its bytes to that domain alone and returns the next sequence number; a
    request that does not fit changes nothing and reports an overflow or the remaining
    bytes. *)
Theorem registry_allocate_spec r d n :
  wf r -> is_u64 n ->
  match domains r !! d with
  | None => allocate r d n = (r, Err (DomainNotFound d))
  | Some c =>
      let b := cfg_budget c in
      if decide (used_bytes b + n <= max_bytes b)
      then allocate r d n =
             (mkRegistry
                (<[d := set_budget c (mkBudget (max_bytes b) (used_bytes b + n))]> (domains r))
                (sat_add64 (allocation_sequence r) 1),
              Ok (sat_add64 (allocation_sequence r) 1))
      else exists e, allocate r d n = (r, Err e) /\
           (e = BudgetOverflow \/
            e = BudgetExceeded n (max_bytes b - used_bytes b) (Some d))
  end.
Proof.
  intros Hr Hn. unfold allocate. destruct (domains r !! d) as [c|] eqn:E; [|done].
  pose proof (proj2 (proj1 Hr d c E)) as Hb. simpl.
  pose proof (Budget.try_reserve_ok_iff (cfg_budget c) n Hb Hn) as Hiff.
  destruct (Budget.try_reserve (cfg_budget c) n) as [b' res] eqn:Er.
  assert (Hb' : b' = (Budget.try_reserve (cfg_budget c) n).1) by by rewrite Er.
  destruct res as [[]|e]; case_decide; simpl in *.
  - rewrite Hb', Budget.try_reserve_ok by by rewrite Er. done.
  - naive_solver.
  - naive_solver.
  - rewrite (Budget.try_reserve_err (cfg_budget c) n e) in Hb' by by rewrite Er.
    subst b'. rewrite set_budget_same, insert_id by done. destruct r; simpl in *.
    eexists. split; [done|]. revert Er. unfold Budget.try_reserve, Budget.remaining.
    unfold checked_add64. repeat case_match; intros; simplify_eq; [|by left].
    right. simpl. f_equal. unfold Budget.wf in Hb. mlia.
Qed.

(** A registry that was registered and charged. *)
Definition charged : DomainRegistry :=
  (allocate (register new DIrArena Arena 100).1 DIrArena 60).1.

Lemma charged_reachable : rtc step new charged.
Proof.
  eapply rtc_l; [apply (step_register new DIrArena Arena 100); mlia|].
  apply rtc_once, step_allocate. mlia.
Defined.

Lemma registry_budget_invariant_witness :
  0 <= total_used charged <= total_capacity charged /\ total_used charged = 60.
Proof.
  split; [|vm_compute; reflexivity]. apply (registry_budget_invariant charged charged_reachable).
Defined.

Lemma registry_allocate_spec_witness :
  exists e, allocate charged DIrArena 50 = (charged, Err e).
Proof.
  assert (Hwf : wf charged) by apply (rtc_step_wf _ _ charged_reachable new_wf).
  pose proof (registry_allocate_spec charged DIrArena 50 Hwf ltac:(mlia)) as Hs.
  destruct Hs as (e & He & _). exists e. exact He.
Defined.
End RegistryProps.
