(* ===== verification/Gc.v ===== *)
(** * Garbage collector (crates/franken-engine/src/gc.rs)

    Per-extension heaps of managed objects ([ExtensionHeap]), the mark-sweep
    pass over one heap, and the collector that owns the heaps and charges
    allocations to the [DomainRegistry] ([GcCollector]).  Object identifiers
    are [u64] values.  [check_pressure] and [should_collect], [f64] ratios that
    change no state, are not modelled. *)
From S2P Require Import Prelude AllocDomain.
From stdpp Require Import base numbers list strings gmap sorting.
Open Scope Z_scope.

(** ** Data *)

Record GcObject := mkObject {
  obj_id : Z;
  size_bytes : Z;
  references : gset Z;
  rooted : bool;
}.

Inductive GcPhase := Mark | Sweep | Complete.

Record GcEvent := mkEvent {
  ev_sequence : Z;
  ev_extension_id : string;
  ev_phase : GcPhase;
  ev_marked_count : Z;
  ev_swept_count : Z;
  ev_bytes_reclaimed : Z;
  ev_pause_ns : Z;
}.

Record GcConfig := mkGcConfig {
  deterministic : bool;
  pressure_threshold_percent : Z;
}.

Definition default_gc_config : GcConfig := mkGcConfig false 75.
Definition deterministic_gc_config : GcConfig := mkGcConfig true 75.

Inductive GcError :=
  | HeapNotFound (extension_id : string)
  | DuplicateHeap (extension_id : string)
  | ObjectNotFound (extension_id : string) (object_id : Z)
  | DomainError (e : AllocDomainError).

Record CollectionStats := mkStats {
  marked_count : Z;
  swept_count : Z;
  bytes_reclaimed : Z;
}.

Record ExtensionHeap := mkHeap {
  extension_id : string;
  objects : gmap Z GcObject;
  next_id : Z;
  total_bytes : Z;
  collection_count : Z;
  total_reclaimed : Z;
}.

Definition set_objects (h : ExtensionHeap) (os : gmap Z GcObject) : ExtensionHeap :=
  mkHeap (extension_id h) os (next_id h) (total_bytes h) (collection_count h) (total_reclaimed h).

(** ** One heap *)

Module Heap.
Definition new (ext : string) : ExtensionHeap := mkHeap ext ∅ 0 0 0 0.

Definition allocate (h : ExtensionHeap) (size : Z) : ExtensionHeap * Z :=
  let id := next_id h in
  (mkHeap (extension_id h)
     (<[id := mkObject id size ∅ true]> (objects h))
     (sat_add64 (next_id h) 1)
     (sat_add64 (total_bytes h) size)
     (collection_count h) (total_reclaimed h), id).

(** [objects.get_mut(&id)] followed by an update of the object. *)
Definition with_object (h : ExtensionHeap) (id : Z) (f : GcObject -> GcObject)
    : ExtensionHeap * result GcError unit :=
  match objects h !! id with
  | None => (h, Err (ObjectNotFound (extension_id h) id))
  | Some o => (set_objects h (<[id := f o]> (objects h)), Ok tt)
  end.

Definition add_reference (h : ExtensionHeap) (from to : Z) :=
  with_object h from
    (fun o => mkObject (obj_id o) (size_bytes o) ({[to]} ∪ references o) (rooted o)).

Definition unroot (h : ExtensionHeap) (id : Z) :=
  with_object h id
    (fun o => mkObject (obj_id o) (size_bytes o) (references o) false).

Definition root (h : ExtensionHeap) (id : Z) :=
  with_object h id
    (fun o => mkObject (obj_id o) (size_bytes o) (references o) true).

Definition object_count (h : ExtensionHeap) : Z := Z.of_nat (size (objects h)).
Definition contains (h : ExtensionHeap) (id : Z) : bool := bool_decide (is_Some (objects h !! id)).

(** The seeded work stack: every rooted object, pushed in key order.  The
    top of the stack is the head of the list. *)
Definition seed (os : gmap Z GcObject) : list Z :=
  reverse ((filter (fun e => rooted e.2 = true) (sorted_entries os)).*1).

(** Pushing the not yet marked references of an object, in key order. *)
Definition push_refs (marked : gset Z) (refs : gset Z) (stack : list Z) : list Z :=
  reverse (filter (fun r => r ∉ marked) (merge_sort Z.le (elements refs))) ++ stack.

(** The [while let Some(id) = work_stack.pop()] loop. *)
Fixpoint mark_loop (fuel : nat) (os : gmap Z GcObject) (marked : gset Z) (stack : list Z)
    : option (gset Z) :=
  match fuel with
  | O => None
  | S fuel =>
      match stack with
      | [] => Some marked
      | id :: stack =>
          if decide (id ∈ marked) then mark_loop fuel os marked stack
          else match os !! id with
               | None => mark_loop fuel os marked stack
               | Some o =>
                   let marked := {[id]} ∪ marked in
                   mark_loop fuel os marked (push_refs marked (references o) stack)
               end
      end
  end.

(** Every iteration pops one entry, and an object pushes its references at
    most once: this many iterations are enough ([mark_loop_terminates]). *)
Definition mark_fuel (os : gmap Z GcObject) : nat :=
  S (length (seed os) + Z.to_nat (map_sum (fun o => Z.of_nat (size (references o))) os)).

Definition mark (os : gmap Z GcObject) : gset Z :=
  default ∅ (mark_loop (mark_fuel os) os ∅ (seed os)).

(** [objects.retain(..)] with the running [bytes_reclaimed] sum. *)
Definition swept (os : gmap Z GcObject) (marked : gset Z) : gmap Z GcObject :=
  filter (fun e => e.1 ∉ marked) os.
Definition retained (os : gmap Z GcObject) (marked : gset Z) : gmap Z GcObject :=
  filter (fun e => e.1 ∈ marked) os.

Definition collect_mark_sweep (h : ExtensionHeap) : ExtensionHeap * CollectionStats :=
  let marked := mark (objects h) in
  let marked_count := Z.of_nat (size marked) in
  let before_count := Z.of_nat (size (objects h)) in
  let objects' := retained (objects h) marked in
  let bytes := fold_left (fun acc o => wrap_u64 (acc + size_bytes o))
                 (sorted_values (swept (objects h) marked)) 0 in
  let swept_count := before_count - Z.of_nat (size objects') in
  (mkHeap (extension_id h) objects' (next_id h)
     (sat_sub64 (total_bytes h) bytes)
     (sat_add64 (collection_count h) 1)
     (sat_add64 (total_reclaimed h) bytes),
   mkStats marked_count swept_count bytes).
End Heap.

(** ** The collector *)

Record GcCollector := mkCollector {
  heaps : gmap string ExtensionHeap;
  gc_config : GcConfig;
  event_sequence : Z;
  events : list GcEvent;
}.

Definition set_heaps (c : GcCollector) (hs : gmap string ExtensionHeap) : GcCollector :=
  mkCollector hs (gc_config c) (event_sequence c) (events c).

Module Collector.
Definition new (cfg : GcConfig) : GcCollector := mkCollector ∅ cfg 0 [].

Definition register_heap (c : GcCollector) (ext : string) : GcCollector * result GcError unit :=
  match heaps c !! ext with
  | Some _ => (c, Err (DuplicateHeap ext))
  | None => (set_heaps c (<[ext := Heap.new ext]> (heaps c)), Ok tt)
  end.

Definition remove_heap (c : GcCollector) (ext : string)
    : GcCollector * result GcError ExtensionHeap :=
  match heaps c !! ext with
  | None => (c, Err (HeapNotFound ext))
  | Some h => (set_heaps c (delete ext (heaps c)), Ok h)
  end.

(** [heaps.get_mut(ext)] followed by an operation of the heap. *)
Definition with_heap {A} (c : GcCollector) (ext : string)
    (f : ExtensionHeap -> ExtensionHeap * result GcError A) : GcCollector * result GcError A :=
  match heaps c !! ext with
  | None => (c, Err (HeapNotFound ext))
  | Some h => let '(h', r) := f h in (set_heaps c (<[ext := h']> (heaps c)), r)
  end.

Definition allocate (c : GcCollector) (ext : string) (size : Z) : GcCollector * result GcError Z :=
  with_heap c ext (fun h => let '(h', id) := Heap.allocate h size in (h', Ok id)).

Definition add_reference (c : GcCollector) (ext : string) (from to : Z) :=
  with_heap c ext (fun h => Heap.add_reference h from to).

Definition unroot (c : GcCollector) (ext : string) (id : Z) :=
  with_heap c ext (fun h => Heap.unroot h id).

Definition allocate_tracked (c : GcCollector) (ext : string) (size : Z) (reg : DomainRegistry)
    : GcCollector * DomainRegistry * result GcError (Z * Z) :=
  match heaps c !! ext with
  | None => (c, reg, Err (HeapNotFound ext))
  | Some _ =>
      let '(reg', r) := Registry.allocate reg DExtensionHeap size in
      match r with
      | Err e => (c, reg', Err (DomainError e))
      | Ok seq =>
          let '(c', r') := allocate c ext size in
          match r' with
          | Err e => (c', reg', Err e)
          | Ok id => (c', reg', Ok (id, seq))
          end
      end
  end.

Definition collect (c : GcCollector) (ext : string) : GcCollector * result GcError GcEvent :=
  match heaps c !! ext with
  | None => (c, Err (HeapNotFound ext))
  | Some h =>
      let '(h', stats) := Heap.collect_mark_sweep h in
      let seq := sat_add64 (event_sequence c) 1 in
      let event := mkEvent seq ext Complete (marked_count stats) (swept_count stats)
                     (bytes_reclaimed stats)
                     (if deterministic (gc_config c) then 1000 else 0) in
      (mkCollector (<[ext := h']> (heaps c)) (gc_config c) seq (events c ++ [event]), Ok event)
  end.

Definition collect_tracked (c : GcCollector) (ext : string) (reg : DomainRegistry)
    : GcCollector * DomainRegistry * result GcError GcEvent :=
  match heaps c !! ext with
  | None => (c, reg, Err (HeapNotFound ext))
  | Some _ =>
      match Registry.get reg DExtensionHeap with
      | None => (c, reg, Err (DomainError (DomainNotFound DExtensionHeap)))
      | Some _ =>
          let '(c', r) := collect c ext in
          match r with
          | Err e => (c', reg, Err e)
          | Ok event =>
              if 0 <? ev_bytes_reclaimed event
              then let '(reg', rr) := Registry.release reg DExtensionHeap (ev_bytes_reclaimed event) in
                   match rr with
                   | Err e => (c', reg', Err (DomainError e))
                   | Ok _ => (c', reg', Ok event)
                   end
              else (c', reg, Ok event)
          end
      end
  end.

(** [for ext_id in ext_ids { if let Ok(event) = self.collect(&ext_id) { .. } }] *)
Fixpoint collect_each (c : GcCollector) (exts : list string) : GcCollector * list GcEvent :=
  match exts with
  | [] => (c, [])
  | ext :: exts =>
      let '(c', r) := collect c ext in
      let '(c'', evs) := collect_each c' exts in
      (c'', match r with Ok ev => ev :: evs | Err _ => evs end)
  end.

Definition collect_all (c : GcCollector) : GcCollector * list GcEvent :=
  collect_each c (sorted_keys (heaps c)).
End Collector.
