(* ===== verification/GcCorrect.v ===== *)
(** * Correctness of the mark-sweep collector

    The abstract specification is reachability over the object graph
    ([reachable]); [mark_loop] is shown to terminate within [mark_fuel]
    iterations and to compute exactly the reachable objects, from which the
    effect of a collection on the heap, on its byte accounting and on the
    domain budget follows. *)
From S2P Require Import Prelude AllocDomain Gc.
From stdpp Require Import base numbers list strings gmap sorting.
Open Scope Z_scope.

Import Heap.

(** ** Reachability *)

Inductive reachable (os : gmap Z GcObject) : Z -> Prop :=
  | reach_root id o : os !! id = Some o -> rooted o = true -> reachable os id
  | reach_ref a b oa ob :
      reachable os a -> os !! a = Some oa -> b ∈ references oa -> os !! b = Some ob ->
      reachable os b.

#[export] Hint Constructors reachable : franken.

Lemma reachable_exists os id : reachable os id -> is_Some (os !! id).
Proof. destruct 1; eauto. Qed.

(** ** The work stack *)

Lemma elem_of_seed os id :
  id ∈ seed os <-> exists o, os !! id = Some o /\ rooted o = true.
Proof.
  unfold seed. rewrite elem_of_reverse, list_elem_of_fmap.
  setoid_rewrite list_elem_of_filter. split.
  - intros [[k o] (-> & Hr & Hin)]. apply elem_of_sorted_entries in Hin. eauto.
  - intros (o & Ho & Hr). exists (id, o). split_and!; [done|done|].
    by apply elem_of_sorted_entries.
Qed.

Lemma elem_of_push_refs marked refs stack id :
  id ∈ push_refs marked refs stack <-> (id ∈ refs /\ id ∉ marked) \/ id ∈ stack.
Proof.
  unfold push_refs.
  rewrite elem_of_app, elem_of_reverse, list_elem_of_filter, merge_sort_Permutation,
    elem_of_elements. tauto.
Qed.

Lemma length_push_refs marked refs stack :
  (length (push_refs marked refs stack) <= size refs + length stack)%nat.
Proof.
  unfold push_refs. rewrite length_app, length_reverse.
  pose proof (length_filter (fun r => r ∉ marked) (merge_sort Z.le (elements refs))) as Hle.
  rewrite (Permutation_length (merge_sort_Permutation Z.le (elements refs))) in Hle.
  unfold size, set_size; simpl. lia.
Qed.

(** ** Termination of the mark loop *)

Definition ref_count (o : GcObject) : Z := Z.of_nat (size (references o)).

(** References still to be pushed: those of the unmarked objects. *)
Definition pending_refs (os : gmap Z GcObject) (marked : gset Z) : Z :=
  map_sum ref_count (filter (fun e => e.1 ∉ marked) os).

Lemma pending_refs_nonneg os marked : 0 <= pending_refs os marked.
Proof. apply map_sum_nonneg. intros. unfold ref_count. lia. Qed.

Lemma pending_refs_mark os marked id o :
  os !! id = Some o -> id ∉ marked ->
  pending_refs os marked = ref_count o + pending_refs os ({[id]} ∪ marked).
Proof.
  intros Ho Hid. unfold pending_refs.
  rewrite (map_sum_delete ref_count _ id o) by by apply map_lookup_filter_Some.
  f_equal. f_equal. apply map_eq. intros k. apply option_eq. intros v.
  rewrite lookup_delete_Some, !map_lookup_filter_Some. simpl. set_solver.
Qed.

Lemma mark_loop_terminates fuel os marked stack :
  Z.of_nat (length stack) + pending_refs os marked < Z.of_nat fuel ->
  is_Some (mark_loop fuel os marked stack).
Proof.
  revert marked stack. induction fuel as [|fuel IH]; intros marked stack Hf; simpl.
  - pose proof (pending_refs_nonneg os marked). lia.
  - destruct stack as [|id stack]; [by eexists|]. simpl in Hf.
    case_decide as Hid; [apply IH; lia|].
    destruct (os !! id) as [o|] eqn:Ho; [|apply IH; lia].
    apply IH. rewrite (pending_refs_mark os marked id o Ho Hid) in Hf.
    pose proof (length_push_refs ({[id]} ∪ marked) (references o) stack).
    unfold ref_count in *. lia.
Qed.

Lemma mark_fuel_enough os : is_Some (mark_loop (mark_fuel os) os ∅ (seed os)).
Proof.
  apply mark_loop_terminates. unfold mark_fuel, pending_refs.
  replace (filter (fun e : Z * GcObject => e.1 ∉ (∅ : gset Z)) os) with os.
  - assert (0 <= map_sum ref_count os).
    { apply map_sum_nonneg. intros. unfold ref_count. lia. }
    fold ref_count. lia.
  - symmetry. apply map_filter_id. set_solver.
Qed.

(** ** The mark loop computes reachability *)

Record mark_inv (os : gmap Z GcObject) (marked : gset Z) (stack : list Z) : Prop := {
  mi_marked id : id ∈ marked -> reachable os id;
  mi_stack id : id ∈ stack -> is_Some (os !! id) -> reachable os id;
  mi_roots id o : os !! id = Some o -> rooted o = true -> id ∈ marked \/ id ∈ stack;
  mi_closed a oa b : a ∈ marked -> os !! a = Some oa -> b ∈ references oa ->
    is_Some (os !! b) -> b ∈ marked \/ b ∈ stack;
}.

Lemma mark_inv_seed os : mark_inv os ∅ (seed os).
Proof.
  split; [set_solver| | |set_solver].
  - intros id (o & Ho & Hr)%elem_of_seed _. eauto with franken.
  - intros id o Ho Hr. right. apply elem_of_seed. eauto.
Qed.

Lemma mark_inv_skip os marked id stack :
  mark_inv os marked (id :: stack) -> (id ∈ marked \/ os !! id = None) ->
  mark_inv os marked stack.
Proof.
  intros [Hm Hs Hr Hc] Hid. split; [done|set_solver| |].
  - intros k o Hk Hroot. destruct (Hr k o Hk Hroot) as [|Hin]; [auto|].
    apply elem_of_cons in Hin as [->|]; [|auto]. destruct Hid; [auto|congruence].
  - intros a oa b Ha Hoa Hb Hex. destruct (Hc a oa b Ha Hoa Hb Hex) as [|Hin]; [auto|].
    apply elem_of_cons in Hin as [->|]; [|auto].
    destruct Hid as [|Hn]; [auto|]. destruct Hex. congruence.
Qed.

Lemma mark_inv_visit os marked id o stack :
  mark_inv os marked (id :: stack) -> os !! id = Some o ->
  mark_inv os ({[id]} ∪ marked) (push_refs ({[id]} ∪ marked) (references o) stack).
Proof.
  intros [Hm Hs Hr Hc] Ho.
  assert (Hrid : reachable os id) by (apply Hs; [set_solver|eauto]).
  split.
  - set_solver.
  - intros k [[Hk _]|Hk]%elem_of_push_refs [ok Hok]; [eauto with franken|].
    apply Hs; [set_solver|eauto].
  - intros k ok Hk Hroot. rewrite elem_of_push_refs.
    destruct (Hr k ok Hk Hroot) as [|[->|]%elem_of_cons]; set_solver.
  - intros a oa b Ha Hoa Hb Hex. rewrite elem_of_push_refs.
    destruct (decide (b ∈ {[id]} ∪ marked)) as [|Hnb]; [auto|]. right.
    apply elem_of_union in Ha as [->%elem_of_singleton|Ha].
    + simplify_eq. auto.
    + destruct (Hc a oa b Ha Hoa Hb Hex) as [|[->|]%elem_of_cons]; set_solver.
Qed.

Lemma mark_loop_inv fuel os marked stack res :
  mark_inv os marked stack -> mark_loop fuel os marked stack = Some res ->
  mark_inv os res [].
Proof.
  revert marked stack. induction fuel as [|fuel IH]; intros marked stack Hi; [done|].
  simpl. destruct stack as [|id stack]; [by intros [= <-]|].
  case_decide; [eauto using mark_inv_skip|].
  destruct (os !! id) eqn:Ho; eauto using mark_inv_skip, mark_inv_visit.
Qed.

Lemma mark_reachable os id : id ∈ mark os <-> reachable os id.
Proof.
  unfold mark. destruct (mark_fuel_enough os) as [res Hres]. rewrite Hres. simpl.
  pose proof (mark_loop_inv _ _ _ _ _ (mark_inv_seed os) Hres) as [Hm _ Hr Hc].
  split; [apply Hm|]. induction 1 as [id o Ho Hroot|a b oa ob _ IH Ha Hb Hob].
  - destruct (Hr id o Ho Hroot); set_solver.
  - destruct (Hc a oa b IH Ha Hb); [eauto|done|set_solver].
Qed.

(** ** Effect of a collection on one heap *)

Definition heap_bytes (h : ExtensionHeap) : Z := map_sum size_bytes (objects h).

(** Identifiers are below the allocation cursor and the byte counter is the
    sum of the object sizes. *)
Record heap_wf (h : ExtensionHeap) : Prop := {
  hw_objects id o : objects h !! id = Some o ->
    obj_id o = id /\ 0 <= id < next_id h /\ 0 <= size_bytes o;
  hw_next : is_u64 (next_id h);
  hw_total : total_bytes h = heap_bytes h;
  hw_bound : heap_bytes h <= u64_max;
}.

Lemma retained_lookup os id o :
  retained os (mark os) !! id = Some o <-> os !! id = Some o /\ reachable os id.
Proof. unfold retained. rewrite map_lookup_filter_Some, mark_reachable. done. Qed.

Lemma mark_dom os : mark os = dom (retained os (mark os)).
Proof.
  apply set_eq. intros id. rewrite elem_of_dom. split.
  - intros Hid. pose proof (reachable_exists os id (proj1 (mark_reachable os id) Hid)) as [o Ho].
    exists o. apply retained_lookup. split; [done|]. by apply mark_reachable.
  - intros [o [_ Hr]%retained_lookup]. by apply mark_reachable.
Qed.

Lemma heap_bytes_split os marked :
  map_sum size_bytes os =
  map_sum size_bytes (retained os marked) + map_sum size_bytes (swept os marked).
Proof. apply map_sum_filter. Qed.

Lemma swept_sum os marked :
  (forall id o, os !! id = Some o -> 0 <= size_bytes o) ->
  map_sum size_bytes os <= u64_max ->
  fold_left (fun acc o => wrap_u64 (acc + size_bytes o)) (sorted_values (swept os marked)) 0
  = map_sum size_bytes (swept os marked).
Proof.
  intros Hpos Hmax.
  assert (Hnn : forall P `{!forall x, Decision (P x)}, 0 <= map_sum size_bytes (filter P os)).
  { intros P ?. apply map_sum_nonneg. intros k v [Hk _]%map_lookup_filter_Some. eauto. }
  pose proof (heap_bytes_split os marked) as Hsplit.
  pose proof (Hnn (fun e => e.1 ∈ marked) _) as Hret. fold (retained os marked) in Hret.
  rewrite (map_sum_sorted_values size_bytes (swept os marked)) in *.
  transitivity (fold_left (fun acc z => wrap_u64 (acc + z))
                  (size_bytes <$> sorted_values (swept os marked)) 0).
  { generalize (sorted_values (swept os marked)) 0. intros l. 
    induction l as [|o l IH]; intros a; simpl; [done|apply IH]. }
  rewrite fold_wrap_sum; [lia| |lia|lia].
  apply Forall_fmap, Forall_forall. intros o Ho. unfold sorted_values in Ho.
  apply list_elem_of_fmap in Ho as [[k o'] [-> Hin%elem_of_sorted_entries]]. simpl.
  apply map_lookup_filter_Some in Hin as [Hin _]. eauto.
Qed.

Lemma size_retained_le os marked : (size (retained os marked) <= size os)%nat.
Proof. apply map_subseteq_size, map_filter_subseteq. Qed.

Lemma collect_objects h : objects (collect_mark_sweep h).1 = retained (objects h) (mark (objects h)).
Proof. done. Qed.

(** C31. Mark-sweep collection implements reachability: an object is in the heap after
    collect exactly when it was there before, unchanged, and is reachable from a rooted
    object through references to live objects; the statistics count the survivors and the
    swept objects exactly. *)
Theorem gc_collect_keeps_exactly_reachable h h' stats :
  collect_mark_sweep h = (h', stats) ->
  (forall id o, objects h' !! id = Some o <-> objects h !! id = Some o /\ reachable (objects h) id) /\
  marked_count stats = Z.of_nat (size (objects h')) /\
  marked_count stats + swept_count stats = Z.of_nat (size (objects h)) /\
  0 <= swept_count stats.
Proof.
  intros [= <- <-]. simpl.
  assert (Hm : size (mark (objects h)) = size (retained (objects h) (mark (objects h)))).
  { rewrite mark_dom at 1. apply size_dom. }
  pose proof (size_retained_le (objects h) (mark (objects h))).
  split_and!; [|lia|lia|lia]. intros id o. apply retained_lookup.
Qed.

Lemma collect_bytes h h' stats :
  heap_wf h -> collect_mark_sweep h = (h', stats) ->
  bytes_reclaimed stats = heap_bytes h - heap_bytes h' /\
  0 <= bytes_reclaimed stats /\ total_bytes h' = heap_bytes h'.
Proof.
  intros [Ho Hn Ht Hb] [= <- <-]. unfold heap_bytes in *; simpl.
  rewrite swept_sum; [|intros id o Hio; by apply (Ho id o)|done].
  pose proof (heap_bytes_split (objects h) (mark (objects h))) as Hs.
  assert (Hnn : forall P `{!forall x, Decision (P x)}, 0 <= map_sum size_bytes (filter P (objects h))).
  { intros P ?. apply map_sum_nonneg. intros k v [Hk _]%map_lookup_filter_Some. by apply (Ho k v). }
  pose proof (Hnn (fun e => e.1 ∈ mark (objects h)) _).
  pose proof (Hnn (fun e => e.1 ∉ mark (objects h)) _).
  unfold retained, swept in *. mlia.
Qed.

Lemma collect_wf h : heap_wf h -> heap_wf (collect_mark_sweep h).1.
Proof.
  intros Hwf. pose proof Hwf as [Ho Hn Ht Hb].
  destruct (collect_mark_sweep h) as [h' stats] eqn:E.
  pose proof (collect_bytes h h' stats Hwf E) as (Hb' & Hp & Ht').
  pose proof (collect_objects h) as Hobj. rewrite E in Hobj. simpl in *.
  assert (Hni : next_id h' = next_id h) by (by injection E as <- <-).
  split; simpl; [|by rewrite Hni|done|lia].
  intros id o Hid. rewrite Hobj in Hid. apply retained_lookup in Hid as [Hid _].
  rewrite Hni. by apply Ho.
Qed.

Lemma reachable_retained os id :
  reachable os id <-> reachable (retained os (mark os)) id.
Proof.
  split.
  - induction 1 as [id o Ho Hr|a b oa ob Hra IH Ha Hb Hob].
    + apply (reach_root _ id o); [|done]. apply retained_lookup. eauto with franken.
    + apply (reach_ref _ a b oa ob); [done| |done|]; apply retained_lookup; eauto with franken.
  - induction 1 as [id o Ho Hr|a b oa ob Hra IH Ha Hb Hob].
    + apply retained_lookup in Ho as [Ho _]. eauto with franken.
    + apply retained_lookup in Ha as [Ha _]. apply retained_lookup in Hob as [Hob _].
      eauto with franken.
Qed.

(** A second collection right after a first one finds nothing: it sweeps no object,
    reclaims no byte, marks the same number of objects and leaves the object graph as it
    is. *)
Theorem gc_collect_idempotent h h' stats h'' stats' :
  collect_mark_sweep h = (h', stats) -> collect_mark_sweep h' = (h'', stats') ->
  objects h'' = objects h' /\ marked_count stats' = marked_count stats /\
  swept_count stats' = 0 /\ bytes_reclaimed stats' = 0.
Proof.
  intros [= <- <-]. set (os := retained (objects h) (mark (objects h))).
  assert (Hall : retained os (mark os) = os).
  { apply map_eq. intros id. apply option_eq. intros o. rewrite retained_lookup.
    split; [tauto|]. intros Ho. split; [done|].
    apply (proj1 (reachable_retained (objects h) id)).
    by apply retained_lookup in Ho as [_ Hr]. }
  assert (Hnone : swept os (mark os) = ∅).
  { apply map_eq. intros id. rewrite lookup_empty. apply map_lookup_filter_None.
    right. intros o Ho Hn. apply Hn. apply mark_reachable. rewrite <- Hall in Ho.
    by apply retained_lookup in Ho as [_ Hr]. }
  intros [= <- <-]. simpl. fold os. rewrite Hall, Hnone.
  split_and!; [done| |lia|reflexivity].
  rewrite mark_dom, Hall, size_dom, (mark_dom (objects h)), size_dom. done.
Qed.

(** ** Heap operations preserve well-formedness *)

Lemma new_heap_wf ext : heap_wf (Heap.new ext).
Proof.
  split; simpl.
  - intros id o Hid. by rewrite lookup_empty in Hid.
  - mlia.
  - unfold heap_bytes; simpl. by rewrite map_sum_empty.
  - unfold heap_bytes; simpl. rewrite map_sum_empty. mlia.
Qed.

Lemma heap_fresh h : heap_wf h -> objects h !! next_id h = None.
Proof.
  intros [Ho _ _ _]. destruct (objects h !! next_id h) as [o|] eqn:E; [|done].
  destruct (Ho _ _ E) as (_ & ? & _). lia.
Qed.

Lemma heap_allocate_wf h size :
  heap_wf h -> 0 <= size -> next_id h < u64_max -> heap_bytes h + size <= u64_max ->
  heap_wf (Heap.allocate h size).1 /\
  total_bytes (Heap.allocate h size).1 = total_bytes h + size.
Proof.
  intros Hwf Hs Hn Hb. pose proof (heap_fresh h Hwf) as Hf.
  pose proof Hwf as [Ho Hnx Ht Hbound].
  assert (Hsum : heap_bytes (Heap.allocate h size).1 = heap_bytes h + size).
  { unfold heap_bytes; simpl. rewrite map_sum_insert by done. simpl. lia. }
  assert (Htot : total_bytes (Heap.allocate h size).1 = total_bytes h + size).
  { simpl. mlia. }
  split; [|done]. split; simpl.
  - intros id o. rewrite lookup_insert. case_decide; subst.
    + intros [= <-]. simpl. mlia.
    + intros Hio. destruct (Ho id o Hio) as (? & ? & ?). mlia.
  - mlia.
  - simpl in *. lia.
  - simpl in *. lia.
Qed.

Lemma with_object_wf h id f :
  heap_wf h -> (forall o, obj_id (f o) = obj_id o /\ size_bytes (f o) = size_bytes o) ->
  heap_wf (with_object h id f).1 /\ total_bytes (with_object h id f).1 = total_bytes h.
Proof.
  intros Hwf Hf. unfold with_object. destruct (objects h !! id) as [o|] eqn:E; [|done].
  simpl. split; [|done]. destruct Hwf as [Ho Hn Ht Hb].
  assert (Hsum : map_sum size_bytes (<[id := f o]> (objects h)) = heap_bytes h).
  { rewrite (map_sum_update size_bytes _ id o) by done.
    unfold heap_bytes. rewrite (proj2 (Hf o)). lia. }
  split; simpl; [|done| |].
  - intros k ok. rewrite lookup_insert. case_decide; subst.
    + intros [= <-]. rewrite (proj1 (Hf o)), (proj2 (Hf o)). by apply Ho.
    + apply Ho.
  - by unfold heap_bytes in *; simpl; rewrite Hsum.
  - by unfold heap_bytes in *; simpl; rewrite Hsum.
Qed.

(** ** The collector and the domain budget *)

#[local] Opaque Heap.collect_mark_sweep Heap.allocate.

(** The budget-tracked life of a collector: heaps are registered, objects are
    allocated and collected through the tracked entry points, references and
    roots change.  A heap hands out fewer than [u64::MAX] identifiers. *)
Inductive gc_step : GcCollector * DomainRegistry -> GcCollector * DomainRegistry -> Prop :=
  | gs_register c reg ext :
      gc_step (c, reg) ((Collector.register_heap c ext).1, reg)
  | gs_allocate c reg ext size :
      is_u64 size ->
      (forall h, heaps c !! ext = Some h -> next_id h < u64_max) ->
      gc_step (c, reg) (Collector.allocate_tracked c ext size reg).1
  | gs_add_reference c reg ext from to :
      gc_step (c, reg) ((Collector.add_reference c ext from to).1, reg)
  | gs_unroot c reg ext id :
      gc_step (c, reg) ((Collector.unroot c ext id).1, reg)
  | gs_collect c reg ext :
      gc_step (c, reg) (Collector.collect_tracked c ext reg).1.

Definition live_bytes (c : GcCollector) : Z := map_sum heap_bytes (heaps c).

Record gc_inv (limit : Z) (s : GcCollector * DomainRegistry) : Prop := {
  gi_heaps ext h : heaps s.1 !! ext = Some h -> heap_wf h;
  gi_registry : Registry.wf s.2;
  gi_budget : exists cfg, domains s.2 !! DExtensionHeap = Some cfg /\
    max_bytes (cfg_budget cfg) = limit /\
    used_bytes (cfg_budget cfg) = map_sum total_bytes (heaps s.1);
}.

Lemma total_is_live limit s : gc_inv limit s -> map_sum total_bytes (heaps s.1) = live_bytes s.1.
Proof.
  intros [Hh _ _]. unfold live_bytes. revert Hh. generalize (heaps s.1). intros m.
  induction m as [|k h m Hk IH] using map_ind; intros Hh; [by rewrite !map_sum_empty|].
  rewrite !map_sum_insert by done. rewrite (hw_total h) by (apply (Hh k), lookup_insert_eq).
  f_equal. apply IH. intros ext h' Hext. apply (Hh ext).
  rewrite lookup_insert_ne; [done|]. congruence.
Qed.

Lemma gc_inv_new cfg limit :
  is_u64 limit -> gc_inv limit (Collector.new cfg, Registry.with_standard_domains limit).
Proof.
  intros Hl. split; simpl.
  - intros ext h Hh. by rewrite lookup_empty in Hh.
  - unfold Registry.with_standard_domains.
    repeat (apply Registry.register_wf; [|mlia]). apply Registry.new_wf.
  - eexists. split; [reflexivity|]. simpl. split; [done|]. by rewrite map_sum_empty.
Qed.

(** Replacing one heap by another changes the byte sum by the difference. *)
Lemma gc_inv_update_heap limit c reg reg' ext h h' cfg delta :
  gc_inv limit (c, reg) -> heaps c !! ext = Some h -> heap_wf h' ->
  Registry.wf reg' -> domains reg' !! DExtensionHeap = Some cfg ->
  max_bytes (cfg_budget cfg) = limit ->
  used_bytes (cfg_budget cfg) = map_sum total_bytes (heaps c) + delta ->
  total_bytes h' = total_bytes h + delta ->
  forall cfg' seq evs,
  gc_inv limit (mkCollector (<[ext := h']> (heaps c)) cfg' seq evs, reg').
Proof.
  intros [Hh Hr Hb] Hext Hwf Hr' Hcfg Hmax Hused Ht cfg' seq evs. split; simpl in *.
  - intros e he. rewrite lookup_insert. case_decide; subst; [by intros [= <-]|apply Hh].
  - done.
  - exists cfg. split_and!; [done|done|]. rewrite (map_sum_update total_bytes _ ext h) by done. lia.
Qed.

Lemma gc_inv_with_object limit c reg ext (f : ExtensionHeap -> ExtensionHeap * result GcError unit) :
  gc_inv limit (c, reg) ->
  (forall h, heap_wf h -> heap_wf (f h).1 /\ total_bytes (f h).1 = total_bytes h) ->
  gc_inv limit ((Collector.with_heap c ext f).1, reg).
Proof.
  intros Hi Hf. unfold Collector.with_heap.
  destruct (heaps c !! ext) as [h|] eqn:E; [|done].
  destruct (Hf h (gi_heaps _ _ Hi ext h E)) as [Hwf Ht].
  destruct (f h) as [h' r]. simpl in *.
  destruct (gi_budget _ _ Hi) as (cfg & Hcfg & Hmax & Hused).
  apply (gc_inv_update_heap limit c reg reg ext h h' cfg 0); try done; simpl in *; try lia.
  apply (gi_registry _ _ Hi).
Qed.

Lemma gc_inv_register limit c reg ext :
  gc_inv limit (c, reg) -> gc_inv limit ((Collector.register_heap c ext).1, reg).
Proof.
  intros Hi. unfold Collector.register_heap. destruct (heaps c !! ext) eqn:E; [done|].
  destruct Hi as [Hh Hr (cfg & Hcfg & Hmax & Hused)]. split; simpl in *.
  - intros e h. rewrite lookup_insert. case_decide; subst; [|apply Hh].
    intros [= <-]. apply new_heap_wf.
  - done.
  - exists cfg. split_and!; [done..|]. rewrite map_sum_insert by done. simpl. lia.
Qed.

Lemma live_bytes_ge limit s ext h :
  gc_inv limit s -> heaps s.1 !! ext = Some h ->
  total_bytes h <= map_sum total_bytes (heaps s.1).
Proof.
  intros [Hh _ _] Hext. rewrite (map_sum_delete total_bytes _ ext h) by done.
  assert (0 <= map_sum total_bytes (delete ext (heaps s.1))); [|lia].
  apply map_sum_nonneg. intros k v [_ Hk]%lookup_delete_Some.
  destruct (Hh k v Hk) as [Ho _ Ht _]. rewrite Ht. apply map_sum_nonneg.
  intros id o Hid. by apply (Ho id o).
Qed.

Lemma gc_inv_allocate limit c reg ext size :
  gc_inv limit (c, reg) -> is_u64 size ->
  (forall h, heaps c !! ext = Some h -> next_id h < u64_max) ->
  gc_inv limit (Collector.allocate_tracked c ext size reg).1.
Proof.
  intros Hi Hs Hn. unfold Collector.allocate_tracked, Collector.allocate, Collector.with_heap.
  destruct (heaps c !! ext) as [h|] eqn:E; [|done].
  pose proof Hi as [Hh Hr (cfg & Hcfg & Hmax & Hused)]. simpl in *.
  pose proof (Registry.allocate_wf reg DExtensionHeap size Hr Hs) as Hr'.
  pose proof (RegistryProps.allocate_cases reg DExtensionHeap size cfg Hr Hs Hcfg) as Hcase.
  destruct (Registry.allocate reg DExtensionHeap size) as [reg' [seq|e]]; simpl in *.
  - destruct Hcase as (Hfit & Hreg'). 
    pose proof (live_bytes_ge limit (c, reg) ext h Hi E) as Hge. simpl in Hge.
    pose proof (proj2 (proj1 Hr _ _ Hcfg)) as [Hmx Hux].
    destruct (heap_allocate_wf h size) as [Hwf Ht];
      [eauto|mlia|eauto|rewrite <- (hw_total h) by eauto; mlia|].
    eapply (gc_inv_update_heap limit c reg reg' ext h (Heap.allocate h size).1
              (set_budget cfg (mkBudget (max_bytes (cfg_budget cfg))
                                 (used_bytes (cfg_budget cfg) + size))) size); try done.
    + subst reg'. simpl. apply lookup_insert_eq.
    + simpl. lia.
  - by subst reg'.
Qed.

Lemma gc_inv_collect limit c reg ext :
  gc_inv limit (c, reg) -> gc_inv limit (Collector.collect_tracked c ext reg).1.
Proof.
  intros Hi. unfold Collector.collect_tracked, Collector.collect, Registry.get.
  destruct (heaps c !! ext) as [h|] eqn:E; [|done].
  pose proof Hi as [Hh Hr (cfg & Hcfg & Hmax & Hused)]. simpl in *. rewrite Hcfg.
  pose proof (Hh ext h E) as Hwf. pose proof (collect_wf h Hwf) as Hwf'.
  destruct (collect_mark_sweep h) as [h' stats] eqn:Ec. simpl in *.
  destruct (collect_bytes h h' stats Hwf Ec) as (Hb & Hpos & Ht').
  pose proof (live_bytes_ge limit (c, reg) ext h Hi E) as Hge. simpl in Hge.
  assert (Hle : bytes_reclaimed stats <= total_bytes h).
  { rewrite (hw_total h Hwf), Hb. rewrite <- Ht', (hw_total h' Hwf').
    assert (0 <= heap_bytes h'); [|lia]. apply map_sum_nonneg.
    intros id o Hid. by apply (hw_objects h' Hwf' id o). }
  pose proof (proj2 (proj1 Hr _ _ Hcfg)) as [Hmx Hux].
  destruct (Z.ltb_spec 0 (bytes_reclaimed stats)).
  - pose proof (Registry.release_wf reg DExtensionHeap (bytes_reclaimed stats) Hr) as Hr'.
    unfold Registry.release in *. rewrite Hcfg in *. simpl in *.
    eapply (gc_inv_update_heap limit c reg _ ext h h'
              (set_budget cfg (Budget.release (cfg_budget cfg) (bytes_reclaimed stats)))
              (- bytes_reclaimed stats)); try done.
    + apply Hr'. mlia.
    + simpl. apply lookup_insert_eq.
    + simpl. mlia.
    + rewrite Ht', (hw_total h Hwf). lia.
  - simpl. apply (gc_inv_update_heap limit c reg reg ext h h' cfg 0); try done; try lia.
    rewrite Ht', (hw_total h Hwf). lia.
Qed.

Lemma gc_step_inv limit s s' : gc_step s s' -> gc_inv limit s -> gc_inv limit s'.
Proof.
  destruct 1; intros Hi.
  - by apply gc_inv_register.
  - by apply gc_inv_allocate.
  - apply gc_inv_with_object; [done|]. intros h Hh. by apply with_object_wf.
  - apply gc_inv_with_object; [done|]. intros h Hh. by apply with_object_wf.
  - by apply gc_inv_collect.
Qed.

(** Byte accounting between the collector and the allocation domains: after any
    sequence of heap registrations, tracked allocations (fewer than 2^64 per heap),
    reference and root updates and tracked collections, successful or failing, the used
    bytes of the extension-heap domain are exactly the bytes of the live objects of all
    heaps, they never exceed the domain's limit, and every heap's running byte total is
    the sum of its objects' sizes. *)
Theorem gc_live_bytes_within_budget cfg limit c reg :
  is_u64 limit ->
  rtc gc_step (Collector.new cfg, Registry.with_standard_domains limit) (c, reg) ->
  exists dom_cfg, domains reg !! DExtensionHeap = Some dom_cfg /\
    used_bytes (cfg_budget dom_cfg) = live_bytes c /\
    live_bytes c <= limit /\
    (forall ext h, heaps c !! ext = Some h -> total_bytes h = heap_bytes h).
Proof.
  intros Hl Hsteps.
  assert (Hi : gc_inv limit (c, reg)).
  { pose proof (gc_inv_new cfg limit Hl) as H0.
    revert Hsteps H0. generalize (Collector.new cfg, Registry.with_standard_domains limit).
    intros s Hsteps. induction Hsteps; eauto using gc_step_inv. }
  pose proof (total_is_live limit _ Hi) as Hlive.
  destruct Hi as [Hh Hr (dc & Hdc & Hmax & Hused)]. simpl in *.
  exists dc. pose proof (proj2 (proj1 Hr _ _ Hdc)) as [_ Hu].
  split_and!; [done|lia|lia|]. intros ext h Hext. apply (hw_total h), (Hh ext h Hext).
Qed.

(** Collecting one extension's heap leaves every other extension's heap untouched; an
    unknown extension is an error without effect, and a collection appends one event
    carrying the next sequence number. *)
Theorem gc_collect_isolated c ext c' r :
  Collector.collect c ext = (c', r) ->
  (forall other, other <> ext -> heaps c' !! other = heaps c !! other) /\
  match heaps c !! ext with
  | None => c' = c /\ r = Err (HeapNotFound ext)
  | Some h =>
      heaps c' !! ext = Some (collect_mark_sweep h).1 /\
    exists ev, r = Ok ev /\ events c' = events c ++ [ev] /\
    ev_sequence ev = event_sequence c' /\
    (event_sequence c < u64_max -> event_sequence c' = event_sequence c + 1)
  end.
Proof.
  unfold Collector.collect. destruct (heaps c !! ext) as [h|] eqn:E.
  - destruct (collect_mark_sweep h) as [h' stats]. intros [= <- <-]. simpl. split.
    + intros other Hne. by apply lookup_insert_ne.
    + split; [apply lookup_insert_eq|]. eexists. split_and!; [done..|]. mlia.
  - intros [= <- <-]. done.
Qed.

(** ** A heap to evaluate on *)

(** Objects 0 -> 1 and 2 -> 3, of which only 0 is rooted. *)
Definition sample_heap : ExtensionHeap :=
  let h := (Heap.allocate (Heap.new "ext") 10).1 in
  let h := (Heap.allocate h 20).1 in
  let h := (Heap.allocate h 30).1 in
  let h := (Heap.allocate h 40).1 in
  let h := (Heap.add_reference h 0 1).1 in
  let h := (Heap.add_reference h 2 3).1 in
  let h := (Heap.unroot h 1).1 in
  let h := (Heap.unroot h 2).1 in
  (Heap.unroot h 3).1.

Lemma gc_collect_keeps_exactly_reachable_witness :
  is_Some (objects (collect_mark_sweep sample_heap).1 !! 1) /\
  swept_count (collect_mark_sweep sample_heap).2 = 2.
Proof.
  destruct (gc_collect_keeps_exactly_reachable sample_heap (collect_mark_sweep sample_heap).1
    (collect_mark_sweep sample_heap).2 (surjective_pairing _)) as (_ & _ & Hsum & _).
  split; [by vm_compute; eauto|].
  assert (Hm : marked_count (collect_mark_sweep sample_heap).2 = 2) by (vm_compute; reflexivity).
  assert (Hs : Z.of_nat (size (objects sample_heap)) = 4) by (vm_compute; reflexivity).
  rewrite Hm, Hs in Hsum. lia.
Defined.

Lemma gc_collect_idempotent_witness :
  swept_count (collect_mark_sweep (collect_mark_sweep sample_heap).1).2 = 0.
Proof.
  destruct (gc_collect_idempotent sample_heap _ _ _ _ (surjective_pairing _)
    (surjective_pairing _)) as (_ & _ & Hs & _). exact Hs.
Defined.

(** One extension, one tracked allocation of 64 bytes under a limit of 100. *)
Definition tracked_start : GcCollector * DomainRegistry :=
  ((Collector.register_heap (Collector.new deterministic_gc_config) "ext").1,
   Registry.with_standard_domains 100).

Definition tracked_state : GcCollector * DomainRegistry :=
  (Collector.allocate_tracked tracked_start.1 "ext" 64 tracked_start.2).1.

Lemma tracked_reachable :
  rtc gc_step (Collector.new deterministic_gc_config, Registry.with_standard_domains 100)
    (tracked_state.1, tracked_state.2).
Proof.
  eapply rtc_l; [apply (gs_register _ _ "ext")|].
  rewrite <- surjective_pairing. apply rtc_once, gs_allocate; [mlia|].
  intros h Hh. vm_compute in Hh. injection Hh as <-. vm_compute. reflexivity.
Defined.

Lemma gc_live_bytes_within_budget_witness :
  live_bytes tracked_state.1 <= 100 /\ live_bytes tracked_state.1 = 64.
Proof.
  split; [|vm_compute; reflexivity].
  destruct (gc_live_bytes_within_budget deterministic_gc_config 100 _ _ ltac:(mlia)
    tracked_reachable) as (_ & _ & _ & Hl & _). exact Hl.
Defined.

Lemma gc_collect_isolated_witness :
  (Collector.collect tracked_state.1 "absent") = (tracked_state.1, Err (HeapNotFound "absent")).
Proof.
  destruct (gc_collect_isolated tracked_state.1 "absent" _ _ (surjective_pairing _)) as [_ H].
  assert (Hn : heaps tracked_state.1 !! "absent" = None) by (vm_compute; reflexivity).
  rewrite Hn in H. destruct H as [H1 H2]. rewrite (surjective_pairing (Collector.collect _ _)).
  by rewrite H1, H2.
Defined.
