(* ===== verification/Bytes.v ===== *)
(** * Bytes, strings and UTF-8

    What the source uses of Rust's standard library on byte strings:
    [to_be_bytes]/[from_be_bytes] and the little-endian pair, slicing,
    [str::from_utf8] and the byte-wise order of [str].  A [Vec<u8>] is a
    [list byte]; a Rust [String] is a [string] whose characters are its UTF-8
    bytes. *)
From S2P Require Import Prelude.
From stdpp Require Import base numbers list strings gmap sorting.
From Stdlib Require Import Strings.Byte.
Open Scope Z_scope.

(** ** Bytes *)

Definition byteZ (b : byte) : Z := Z.of_N (Byte.to_N b).
(** [z as u8] *)
Definition Zbyte (z : Z) : byte := default x00 (Byte.of_N (Z.to_N (z mod 256))).

#[export] Instance byte_eq_dec : EqDecision byte := Byte.byte_eq_dec.

#[export] Instance byte_countable : Countable byte.
Proof. apply (inj_countable Byte.to_N Byte.of_N), Byte.of_to_N. Defined.

Lemma byteZ_range b : 0 <= byteZ b < 256.
Proof. unfold byteZ. pose proof (Byte.to_N_bounded b). lia. Qed.

Lemma byteZ_Zbyte z : byteZ (Zbyte z) = z mod 256.
Proof.
  unfold byteZ, Zbyte. pose proof (Z.mod_pos_bound z 256 ltac:(lia)) as Hz.
  destruct (Byte.of_N (Z.to_N (z mod 256))) as [b|] eqn:E; simpl.
  - apply Byte.to_of_N in E. rewrite E. lia.
  - apply Byte.of_N_None_iff in E. lia.
Qed.

Lemma Zbyte_byteZ b : Zbyte (byteZ b) = b.
Proof.
  unfold byteZ, Zbyte. pose proof (Byte.to_N_bounded b).
  rewrite Z.mod_small by lia. rewrite N2Z.id, Byte.of_to_N. done.
Qed.

Lemma byteZ_inj a b : byteZ a = byteZ b -> a = b.
Proof. intros H. by rewrite <- (Zbyte_byteZ a), H, Zbyte_byteZ. Qed.

Lemma Zbyte_mod z : Zbyte (z mod 256) = Zbyte z.
Proof. unfold Zbyte. by rewrite Z.mod_mod by lia. Qed.

(** ** Fixed-width integers as bytes *)

(** [n] low-order bytes of [z], least significant first. *)
Fixpoint le_bytes (n : nat) (z : Z) : list byte :=
  match n with
  | O => []
  | S n => Zbyte z :: le_bytes n (z / 256)
  end.

Fixpoint le_value (l : list byte) : Z :=
  match l with
  | [] => 0
  | b :: l => byteZ b + 256 * le_value l
  end.

Definition be_bytes (n : nat) (z : Z) : list byte := reverse (le_bytes n z).
Definition be_value (l : list byte) : Z := le_value (reverse l).

Lemma length_le_bytes n z : length (le_bytes n z) = n.
Proof. revert z. induction n as [|n IH]; intros z; simpl; [done|]. by rewrite IH. Qed.

Lemma length_be_bytes n z : length (be_bytes n z) = n.
Proof. unfold be_bytes. rewrite length_reverse. apply length_le_bytes. Qed.

Lemma le_value_bytes n z : le_value (le_bytes n z) = z mod 256 ^ Z.of_nat n.
Proof.
  revert z. induction n as [|n IH]; intros z; cbn [le_bytes le_value].
  - by rewrite Z.mod_1_r.
  - rewrite IH, byteZ_Zbyte, Nat2Z.inj_succ, Z.pow_succ_r by lia.
    rewrite (Z.rem_mul_r z 256 (256 ^ Z.of_nat n)) by lia. done.
Qed.

Lemma le_value_range l : 0 <= le_value l < 256 ^ Z.of_nat (length l).
Proof.
  induction l as [|b l IH]; [done|]. cbn [le_value length].
  rewrite Nat2Z.inj_succ, Z.pow_succ_r by lia. pose proof (byteZ_range b). lia.
Qed.

Lemma le_bytes_value l : le_bytes (length l) (le_value l) = l.
Proof.
  induction l as [|b l IH]; [done|]. cbn [le_bytes le_value length].
  pose proof (byteZ_range b). f_equal.
  - rewrite <- Zbyte_mod. replace ((byteZ b + 256 * le_value l) mod 256) with (byteZ b).
    + apply Zbyte_byteZ.
    + rewrite Z.mul_comm, Z.mod_add by lia. by rewrite Z.mod_small.
  - replace ((byteZ b + 256 * le_value l) / 256) with (le_value l); [done|].
    rewrite Z.mul_comm, Z.div_add by lia. rewrite Z.div_small by done. lia.
Qed.

Lemma be_value_bytes n z : be_value (be_bytes n z) = z mod 256 ^ Z.of_nat n.
Proof. unfold be_value, be_bytes. rewrite reverse_involutive. apply le_value_bytes. Qed.

Lemma be_bytes_value l n : length l = n -> be_bytes n (be_value l) = l.
Proof.
  intros <-. unfold be_value, be_bytes. rewrite <- (length_reverse l), le_bytes_value.
  apply reverse_involutive.
Qed.

Lemma be_bytes_mod n z : be_bytes n (z mod 256 ^ Z.of_nat n) = be_bytes n z.
Proof. rewrite <- be_value_bytes. apply be_bytes_value, length_be_bytes. Qed.

Lemma be_value_range l : 0 <= be_value l < 256 ^ Z.of_nat (length l).
Proof. unfold be_value. rewrite <- (length_reverse l). apply le_value_range. Qed.

(** [u64::to_be_bytes] is [be_bytes 8]; a signed value is written as its
    two's complement. *)
Definition i64_of_u64 (z : Z) : Z := if z <? 2 ^ 63 then z else z - 2 ^ 64.

Lemma i64_of_u64_mod z : is_i64 z -> i64_of_u64 (z mod 2 ^ 64) = z.
Proof.
  intros Hz. unfold i64_of_u64. destruct (Z.le_gt_cases 0 z).
  - rewrite Z.mod_small by mlia. destruct (Z.ltb_spec z (2 ^ 63)); mlia.
  - replace (z mod 2 ^ 64) with (z + 2 ^ 64).
    + destruct (Z.ltb_spec (z + 2 ^ 64) (2 ^ 63)); mlia.
    + rewrite <- (Z.mod_add z 1 (2 ^ 64)) by lia. rewrite Z.mod_small; mlia.
Qed.

Lemma i64_of_u64_range z : 0 <= z < 2 ^ 64 -> is_i64 (i64_of_u64 z) /\ i64_of_u64 z mod 2 ^ 64 = z.
Proof.
  intros Hz. unfold i64_of_u64. destruct (Z.ltb_spec z (2 ^ 63)).
  - split; [mlia|]. apply Z.mod_small. lia.
  - split; [mlia|]. rewrite <- (Z.mod_add _ 1 (2 ^ 64)) by lia. rewrite Z.mod_small; lia.
Qed.

(** ** Slices *)

Definition zlen {A} (l : list A) : Z := Z.of_nat (length l).

(** [data[off..off + len]], the bounds having been checked. *)
Definition slice {A} (data : list A) (off len : Z) : list A :=
  take (Z.to_nat len) (drop (Z.to_nat off) data).

Lemma zlen_nonneg {A} (l : list A) : 0 <= zlen l.
Proof. unfold zlen. lia. Qed.

Lemma to_nat_zlen {A} (l : list A) : Z.to_nat (zlen l) = length l.
Proof. apply Nat2Z.id. Qed.

Lemma zlen_app {A} (l k : list A) : zlen (l ++ k) = zlen l + zlen k.
Proof. unfold zlen. rewrite length_app. lia. Qed.

Lemma zlen_cons {A} (x : A) l : zlen (x :: l) = 1 + zlen l.
Proof. unfold zlen. simpl. lia. Qed.

Lemma zlen_nil {A} : zlen (@nil A) = 0.
Proof. done. Qed.

Lemma zlen_be_bytes n z : zlen (be_bytes n z) = Z.of_nat n.
Proof. unfold zlen. by rewrite length_be_bytes. Qed.

Lemma slice_app_middle {A} (pre mid post : list A) off len :
  off = zlen pre -> len = zlen mid -> slice (pre ++ mid ++ post) off len = mid.
Proof.
  unfold zlen. intros -> ->. unfold slice. rewrite !Nat2Z.id.
  by rewrite drop_app_length, take_app_length.
Qed.

Lemma zlen_slice {A} (data : list A) off len :
  0 <= off -> 0 <= len -> off + len <= zlen data -> zlen (slice data off len) = len.
Proof. unfold zlen, slice. intros. rewrite length_take, length_drop. lia. Qed.

(** Splitting a buffer at a checked slice. *)
Lemma slice_split {A} (data : list A) off len :
  0 <= off -> 0 <= len -> off + len <= zlen data ->
  take (Z.to_nat (off + len)) data = take (Z.to_nat off) data ++ slice data off len.
Proof.
  intros. unfold slice. rewrite Z2Nat.inj_add by lia.
  symmetry. apply take_take_drop.
Qed.

Create Rewrite HintDb zlen.
#[export] Hint Rewrite @zlen_app @zlen_cons @zlen_nil zlen_be_bytes : zlen.

(** ** Strings *)

(** [s.as_bytes()] and [String::from_utf8_unchecked]. *)
Definition str_bytes (s : string) : list byte := String.list_byte_of_string s.
Definition bytes_str (l : list byte) : string := String.string_of_list_byte l.

Lemma bytes_str_bytes s : bytes_str (str_bytes s) = s.
Proof. apply String.string_of_list_byte_of_string. Qed.

Lemma str_bytes_str l : str_bytes (bytes_str l) = l.
Proof. apply String.list_byte_of_string_of_list_byte. Qed.

(** A continuation byte, and a byte in a range. *)
Definition in_range (lo hi : Z) (b : byte) : bool := (lo <=? byteZ b) && (byteZ b <=? hi).
Definition is_cont (b : byte) : bool := in_range 0x80 0xBF b.

(** Length of the well-formed UTF-8 sequence a byte string starts with: the
    table of the Unicode standard that [str::from_utf8] checks. *)
Definition utf8_seq_len (l : list byte) : option nat :=
  match l with
  | [] => None
  | b0 :: l =>
      if in_range 0x00 0x7F b0 then Some 1%nat
      else match l with
      | [] => None
      | b1 :: l =>
          if in_range 0xC2 0xDF b0 && is_cont b1 then Some 2%nat
          else match l with
          | [] => None
          | b2 :: l =>
              if (in_range 0xE0 0xE0 b0 && in_range 0xA0 0xBF b1
                  || in_range 0xE1 0xEC b0 && is_cont b1
                  || in_range 0xED 0xED b0 && in_range 0x80 0x9F b1
                  || in_range 0xEE 0xEF b0 && is_cont b1) && is_cont b2
              then Some 3%nat
              else match l with
              | [] => None
              | b3 :: _ =>
                  if (in_range 0xF0 0xF0 b0 && in_range 0x90 0xBF b1
                      || in_range 0xF1 0xF3 b0 && is_cont b1
                      || in_range 0xF4 0xF4 b0 && in_range 0x80 0x8F b1)
                     && is_cont b2 && is_cont b3
                  then Some 4%nat else None
              end
          end
      end
  end.

(** [s.chars()], each character as its UTF-8 bytes; [None] when the bytes are
    not valid UTF-8.  A sequence has at least one byte, so the length of the
    input is enough fuel. *)
Fixpoint utf8_chars_fuel (fuel : nat) (l : list byte) : option (list (list byte)) :=
  match l with
  | [] => Some []
  | _ =>
      match fuel with
      | O => None
      | S fuel =>
          match utf8_seq_len l with
          | None => None
          | Some n => option_map (cons (take n l)) (utf8_chars_fuel fuel (drop n l))
          end
      end
  end.

Definition utf8_chars (l : list byte) : option (list (list byte)) :=
  utf8_chars_fuel (length l) l.

Definition utf8_valid (l : list byte) : bool :=
  match utf8_chars l with Some _ => true | None => false end.

(** [std::str::from_utf8] *)
Definition from_utf8 (l : list byte) : option string :=
  if utf8_valid l then Some (bytes_str l) else None.

(** The invariant of the [String] type. *)
Definition str_wf (s : string) : Prop := utf8_valid (str_bytes s) = true.

Lemma from_utf8_Some l s : from_utf8 l = Some s <-> str_wf s /\ str_bytes s = l.
Proof.
  unfold from_utf8, str_wf. split.
  - destruct (utf8_valid l) eqn:E; [|done]. intros [= <-]. by rewrite str_bytes_str.
  - intros [Hs <-]. by rewrite Hs, bytes_str_bytes.
Qed.

(** ** The order of strings *)

Definition str_lt (a b : string) : Prop := String.compare a b = Lt.

#[export] Instance str_lt_dec : RelDecision str_lt.
Proof. intros a b. unfold str_lt. apply _. Defined.

Lemma str_compare_refl a : String.compare a a = Eq.
Proof.
  induction a as [|c a IH]; [done|]. simpl. unfold Ascii.compare.
  by rewrite N.compare_refl.
Qed.

Lemma str_lt_irrefl a : ~ str_lt a a.
Proof. unfold str_lt. by rewrite str_compare_refl. Qed.

Lemma str_compare_gt a b : String.compare a b = Gt <-> str_lt b a.
Proof.
  unfold str_lt. rewrite String.compare_antisym.
  destruct (String.compare b a); simpl; split; congruence.
Qed.

#[export] Instance str_lt_trans : Transitive str_lt.
Proof.
  intros a b c Hab Hbc. unfold str_lt in *.
  assert (Hle : String.le a c).
  { transitivity b; unfold String.le, String.leb; [by rewrite Hab|by rewrite Hbc]. }
  unfold String.le, String.leb in Hle.
  destruct (String.compare a c) eqn:E; [|done|done].
  apply String.compare_eq_iff in E as ->.
  rewrite String.compare_antisym, Hab in Hbc. done.
Qed.
