(* ===== verification/Text.v ===== *)
(** * Text: the string operations of Rust's standard library the engine uses

    [str::trim], [str::chars], [str::parse] for [i64] and [u64] and the decimal
    [Display] of integers, on strings of UTF-8 bytes. *)
From S2P Require Import Prelude Bytes.
From stdpp Require Import base numbers list strings pretty.
From Stdlib Require Import Strings.Byte.
Open Scope Z_scope.

(** [n.to_string()] *)
Definition int_to_string (n : Z) : string := pretty n.

Definition bool_to_string (b : bool) : string := if b then "true" else "false".

(** [s.chars()]: the characters of a valid string, each as its bytes. *)
Definition chars (s : string) : list (list byte) := default [] (utf8_chars (str_bytes s)).

(** ** [str::trim]

    The characters with the Unicode property [White_Space], as UTF-8. *)
Definition white_space : list (list byte) :=
  [[x09]; [x0a]; [x0b]; [x0c]; [x0d]; [x20]; [xc2; x85]; [xc2; xa0]; [xe1; x9a; x80];
   [xe2; x80; x80]; [xe2; x80; x81]; [xe2; x80; x82]; [xe2; x80; x83]; [xe2; x80; x84];
   [xe2; x80; x85]; [xe2; x80; x86]; [xe2; x80; x87]; [xe2; x80; x88]; [xe2; x80; x89];
   [xe2; x80; x8a]; [xe2; x80; xa8]; [xe2; x80; xa9]; [xe2; x80; xaf]; [xe2; x81; x9f];
   [xe3; x80; x80]].

Definition is_whitespace (c : list byte) : bool := bool_decide (c ∈ white_space).

Fixpoint trim_start_chars (l : list (list byte)) : list (list byte) :=
  match l with
  | [] => []
  | c :: rest => if is_whitespace c then trim_start_chars rest else l
  end.

Definition trim (s : string) : string :=
  bytes_str (concat (reverse (trim_start_chars (reverse (trim_start_chars (chars s)))))).

(** ** [str::parse] *)

Definition digit_value (b : byte) : option Z :=
  if (0x30 <=? byteZ b) && (byteZ b <=? 0x39) then Some (byteZ b - 0x30) else None.

(** The value of a non-empty run of decimal digits. *)
Fixpoint digits_value (acc : Z) (l : list byte) : option Z :=
  match l with
  | [] => Some acc
  | b :: l => d ← digit_value b; digits_value (acc * 10 + d) l
  end.

Definition parse_digits (l : list byte) : option Z :=
  match l with [] => None | _ => digits_value 0 l end.

Definition in_bounds (lo hi : Z) (o : option Z) : option Z :=
  z ← o; if (lo <=? z) && (z <=? hi) then Some z else None.

(** [s.parse::<i64>().ok()]: an optional sign, at least one digit, in range. *)
Definition parse_i64 (s : string) : option Z :=
  in_bounds i64_min i64_max
    match str_bytes s with
    | [] => None
    | b :: rest =>
        if bool_decide (b = x2b) then parse_digits rest
        else if bool_decide (b = x2d) then Z.opp <$> parse_digits rest
        else parse_digits (b :: rest)
    end.

(** [s.parse::<u64>().ok()]: a leading minus sign is not a digit. *)
Definition parse_u64 (s : string) : option Z :=
  in_bounds 0 u64_max
    match str_bytes s with
    | [] => None
    | b :: rest => if bool_decide (b = x2b) then parse_digits rest else parse_digits (b :: rest)
    end.

Lemma in_bounds_Some lo hi o z : in_bounds lo hi o = Some z <-> o = Some z /\ lo <= z <= hi.
Proof.
  unfold in_bounds. destruct o as [z'|]; simpl; [|by split; [|intros []]].
  destruct ((lo <=? z') && (z' <=? hi)) eqn:E; split.
  - intros [= ->]. split; [done|lia].
  - intros [[= ->] _]. done.
  - done.
  - intros [[= ->] ?]. lia.
Qed.

Lemma parse_i64_range s z : parse_i64 s = Some z -> is_i64 z.
Proof. intros H. apply in_bounds_Some in H as [_ H]. exact H. Qed.

(** ** Printing an integer and parsing it back *)

Definition digit_byte (b : byte) : Prop := is_Some (digit_value b).

Lemma pretty_digit (x : N) :
  (x < 10)%N -> digit_value (Ascii.byte_of_ascii (pretty_N_char x)) = Some (Z.of_N x).
Proof.
  intros Hx. assert (x = 0 \/ x = 1 \/ x = 2 \/ x = 3 \/ x = 4 \/ x = 5 \/ x = 6 \/ x = 7 \/
    x = 8 \/ x = 9)%N as Hc by lia.
  by repeat destruct Hc as [->|Hc]; [..|subst].
Qed.

Lemma digits_value_pretty (x : N) s :
  digits_value 0 (str_bytes (pretty_N_go x s)) = digits_value (Z.of_N x) (str_bytes s).
Proof.
  revert s. induction (N.lt_wf_0 x) as [x _ IH]; intros s.
  destruct (decide (x = 0)%N) as [->|Hx]; [by rewrite pretty_N_go_0|].
  rewrite pretty_N_go_step by lia. rewrite IH by (apply N.div_lt; lia).
  change (str_bytes (String ?c ?s)) with (Ascii.byte_of_ascii c :: str_bytes s). cbn [digits_value].
  rewrite pretty_digit by (apply N.mod_lt; lia). cbn [mbind option_bind]. f_equal.
  pose proof (N.div_mod x 10 ltac:(lia)). lia.
Qed.

Lemma pretty_N_go_digits (x : N) s :
  Forall digit_byte (str_bytes s) -> Forall digit_byte (str_bytes (pretty_N_go x s)).
Proof.
  revert s. induction (N.lt_wf_0 x) as [x _ IH]; intros s Hs.
  destruct (decide (x = 0)%N) as [->|Hx]; [by rewrite pretty_N_go_0|].
  rewrite pretty_N_go_step by lia. apply IH; [apply N.div_lt; lia|].
  constructor; [|done]. unfold digit_byte. rewrite pretty_digit by (apply N.mod_lt; lia). eauto.
Qed.

Lemma pretty_pos_spec p :
  Forall digit_byte (str_bytes (pretty p)) /\ parse_digits (str_bytes (pretty p)) = Some (Zpos p).
Proof.
  change (pretty p) with (pretty_N_go (Npos p) "").
  pose proof (pretty_N_go_digits (Npos p) "" (Forall_nil_2 _)) as Hd.
  pose proof (digits_value_pretty (Npos p) "") as Hv. split; [done|].
  unfold parse_digits. destruct (str_bytes (pretty_N_go (Npos p) "")); [|done].
  by injection Hv.
Qed.

Lemma digit_not_sign b : digit_byte b -> b <> x2b /\ b <> x2d.
Proof. intros [d Hd]. split; intros ->; discriminate Hd. Qed.

Lemma parse_i64_to_string n : is_i64 n -> parse_i64 (int_to_string n) = Some n.
Proof.
  intros Hn. apply in_bounds_Some. split; [|exact Hn].
  destruct n as [|p|p]; [done| |].
  - change (int_to_string (Zpos p)) with (pretty p).
    destruct (pretty_pos_spec p) as [Hd Hp]. destruct (str_bytes (pretty p)) as [|b l]; [done|].
    apply Forall_cons in Hd as [Hb _]. apply digit_not_sign in Hb as [? ?].
    by rewrite !bool_decide_false.
  - transitivity (Z.opp <$> parse_digits (str_bytes (pretty p))); [reflexivity|].
    destruct (pretty_pos_spec p) as [_ ->]. done.
Qed.

(** A string of digits and signs has one-byte characters, none of them white
    space, so trimming leaves it alone. *)
Definition plain_byte (b : byte) : Prop := b = x2d \/ digit_byte b.

Lemma plain_byte_ascii b : plain_byte b -> in_range 0x00 0x7F b = true /\ is_whitespace [b] = false.
Proof.
  intros [->|[d Hd]]; [done|]. unfold digit_value in Hd.
  destruct ((0x30 <=? byteZ b) && (byteZ b <=? 0x39)) eqn:E; [|done].
  split; [unfold in_range; lia|]. unfold is_whitespace. apply bool_decide_false.
  intros Hin. clear Hd. unfold white_space in Hin. rewrite !elem_of_cons, elem_of_nil in Hin.
  destruct_or! Hin; try discriminate Hin; try done; injection Hin as ->; discriminate E.
Qed.

Lemma chars_plain l :
  Forall plain_byte l -> utf8_chars l = Some ((fun b => [b]) <$> l).
Proof.
  unfold utf8_chars. induction 1 as [|b l Hb _ IH]; [done|].
  destruct (plain_byte_ascii b Hb) as [Ha _]. cbn [length utf8_chars_fuel utf8_seq_len].
  rewrite Ha. simpl take. simpl drop. rewrite drop_0, IH. done.
Qed.

Lemma trim_start_plain l :
  Forall (fun c => is_whitespace c = false) l -> trim_start_chars l = l.
Proof. destruct 1 as [|c l Hc _]; [done|]. simpl. by rewrite Hc. Qed.

Lemma trim_plain s : Forall plain_byte (str_bytes s) -> trim s = s.
Proof.
  intros Hs. unfold trim, chars. rewrite (chars_plain _ Hs). change (default [] (Some ?x)) with x.
  assert (Hw : Forall (fun c => is_whitespace c = false) ((fun b => [b]) <$> str_bytes s)).
  { apply Forall_fmap. eapply Forall_impl; [exact Hs|]. intros b Hb. by apply plain_byte_ascii. }
  rewrite (trim_start_plain _ Hw), trim_start_plain, reverse_involutive
    by (by apply Forall_reverse).
  assert (Hc : forall l, concat ((fun b : byte => [b]) <$> l) = l).
  { induction l as [|b l IH]; [done|]. simpl. by f_equal. }
  rewrite Hc. apply bytes_str_bytes.
Qed.

Lemma int_to_string_plain n : Forall plain_byte (str_bytes (int_to_string n)).
Proof.
  assert (Hpos : forall p : positive, Forall plain_byte (str_bytes (pretty p))).
  { intros p. destruct (pretty_pos_spec p) as [Hd _]. eapply Forall_impl; [exact Hd|].
    by right. }
  destruct n as [|p|p].
  - apply Forall_singleton. right. by exists 0.
  - apply Hpos.
  - change (str_bytes (int_to_string (Zneg p))) with (x2d :: str_bytes (pretty p)).
    constructor; [by left|apply Hpos].
Qed.

Lemma int_to_string_not_empty n : int_to_string n <> "".
Proof.
  destruct n as [|p|p]; [done| |done]. change (int_to_string (Zpos p)) with (pretty p).
  destruct (pretty_pos_spec p) as [_ Hp]. intros He. by rewrite He in Hp.
Qed.
