(* ===== verification/HashTiers.v ===== *)
(** * Three-tier hashing (crates/franken-engine/src/hash_tiers.rs)

    The SipHash-inspired hash behind [ContentHash] (tier 2) and
    [AuthenticityHash] (tier 3), and the wyhash-inspired [IntegrityHash]
    (tier 1), computed on [u64] words with wrap-around.  [HashEvent], the
    display and hex conversions are not modelled. *)
From S2P Require Import Prelude Bytes.
From stdpp Require Import base numbers list strings gmap sorting.
From Stdlib Require Import Strings.Byte.
Open Scope Z_scope.

(** ** Tiers *)

Inductive HashTier := TIntegrity | TContent | TAuthenticity.
Inductive HashAlgorithm := WyhashInspired | SipInspiredCr | SipInspiredKeyed.

Definition tier (a : HashAlgorithm) : HashTier :=
  match a with
  | WyhashInspired => TIntegrity
  | SipInspiredCr => TContent
  | SipInspiredKeyed => TAuthenticity
  end.

(** ** Words *)

Definition rotl64 (x k : Z) : Z :=
  Z.lor (wrap_u64 (Z.shiftl x k)) (Z.shiftr x (64 - k)).

(** [input.chunks(8)], each chunk zero-padded to a block and read as a
    little-endian word.  The length of the input bounds the chunk count. *)
Fixpoint chunk_words_fuel (fuel : nat) (input : list byte) : list Z :=
  match fuel, input with
  | O, _ | _, [] => []
  | S fuel, _ => le_value (take 8 input) :: chunk_words_fuel fuel (drop 8 input)
  end.

Definition chunk_words (input : list byte) : list Z :=
  chunk_words_fuel (length input) input.

(** ** Tier 1 *)

Definition wymix (a b : Z) : Z :=
  let full := (a * b) mod 2 ^ 128 in
  Z.lxor (wrap_u64 full) (wrap_u64 (Z.shiftr full 64)).

(** The full 8-byte words and the zero-padded tail are consumed alike. *)
Definition wyhash_inspired (data : list byte) : Z :=
  let h := fold_left (fun h word => wymix (Z.lxor h word) (wrap_u64 (h + word)))
             (chunk_words data) (wrap_u64 (zlen data)) in
  wymix h (Z.lxor h 0xe7037ed1a0b428db).

Definition IntegrityHash_compute (data : list byte) : Z := wyhash_inspired data.

(** ** Tiers 2 and 3 *)

Record SipState := mkSip { s0 : Z; s1 : Z; s2 : Z; s3 : Z }.

Definition sip_init : SipState :=
  mkSip 0x736f6d6570736575 0x646f72616e646f6d 0x6c7967656e657261 0x7465646279746573.

Definition sip_round (st : SipState) : SipState :=
  let '(mkSip a b c d) := st in
  let a := wrap_u64 (a + b) in
  let b := rotl64 b 13 in
  let b := Z.lxor b a in
  let a := rotl64 a 32 in
  let c := wrap_u64 (c + d) in
  let d := rotl64 d 16 in
  let d := Z.lxor d c in
  let a := wrap_u64 (a + d) in
  let d := rotl64 d 21 in
  let d := Z.lxor d a in
  let c := wrap_u64 (c + b) in
  let b := rotl64 b 17 in
  let b := Z.lxor b c in
  let c := rotl64 c 32 in
  mkSip a b c d.

Definition sip_rounds (n : nat) (st : SipState) : SipState := Nat.iter n sip_round st.

Definition xor0 (st : SipState) (w : Z) : SipState := mkSip (Z.lxor (s0 st) w) (s1 st) (s2 st) (s3 st).
Definition xor1 (st : SipState) (w : Z) : SipState := mkSip (s0 st) (Z.lxor (s1 st) w) (s2 st) (s3 st).
Definition xor2 (st : SipState) (w : Z) : SipState := mkSip (s0 st) (s1 st) (Z.lxor (s2 st) w) (s3 st).
Definition xor3 (st : SipState) (w : Z) : SipState := mkSip (s0 st) (s1 st) (s2 st) (Z.lxor (s3 st) w).

Definition fold_state (st : SipState) : Z :=
  Z.lxor (Z.lxor (Z.lxor (s0 st) (s1 st)) (s2 st)) (s3 st).

Definition finalize_state (st : SipState) : list byte :=
  let st := sip_rounds 4 (xor2 st 0xff) in
  let h1 := fold_state st in
  let st := sip_rounds 4 (xor1 st 0xee) in
  let h2 := fold_state st in
  let st := sip_rounds 4 (xor0 st 0xdd) in
  let h3 := fold_state st in
  let st := sip_rounds 4 (xor3 st 0xcc) in
  let h4 := fold_state st in
  le_bytes 8 h1 ++ le_bytes 8 h2 ++ le_bytes 8 h3 ++ le_bytes 8 h4.

(** Absorbing one data word: [state[3] ^= word; round; round; state[0] ^= word]. *)
Definition absorb_word (st : SipState) (word : Z) : SipState :=
  xor0 (sip_round (sip_round (xor3 st word))) word.

Definition collision_resistant_hash (input : list byte) : list byte :=
  let st := xor0 sip_init (wrap_u64 (zlen input)) in
  finalize_state (fold_left absorb_word (chunk_words input) st).

Definition keyed_hash (key data : list byte) : list byte :=
  let st := fold_left (fun st word => xor2 (sip_round (xor1 st word)) word)
              (chunk_words key) sip_init in
  let st := sip_round (xor3 (xor0 st (wrap_u64 (zlen key))) 0x0a) in
  let st := xor0 st (wrap_u64 (zlen data)) in
  let st := fold_left absorb_word (chunk_words data) st in
  let st := fold_left (fun st word => sip_round (xor0 st word)) (chunk_words key) st in
  finalize_state st.

(** [ContentHash] and [AuthenticityHash] are 32-byte arrays. *)
Definition ContentHash := list byte.
Definition AuthenticityHash := list byte.

Definition ContentHash_compute (data : list byte) : ContentHash := collision_resistant_hash data.
Definition AuthenticityHash_compute_keyed (key data : list byte) : AuthenticityHash :=
  keyed_hash key data.

Definition hash_wf (h : list byte) : Prop := length h = 32%nat.

(** [let mut diff: u8 = 0; for i in 0..32 { diff |= a[i] ^ b[i] }; diff == 0] *)
Definition constant_time_eq (a b : AuthenticityHash) : bool :=
  fold_left (fun diff i =>
      Z.lor diff (Z.lxor (byteZ (nth i a x00)) (byteZ (nth i b x00))))
    (seq 0 32) 0 =? 0.

(** ** Facts *)

Lemma finalize_state_length st : length (finalize_state st) = 32%nat.
Proof. unfold finalize_state. by rewrite !length_app, !length_le_bytes. Qed.

Lemma ContentHash_wf data : hash_wf (ContentHash_compute data).
Proof. apply finalize_state_length. Qed.

Lemma AuthenticityHash_wf key data : hash_wf (AuthenticityHash_compute_keyed key data).
Proof. apply finalize_state_length. Qed.

#[export] Hint Resolve ContentHash_wf AuthenticityHash_wf : franken.

Lemma fold_lor_zero (f : nat -> Z) l acc :
  (forall i, 0 <= f i) -> 0 <= acc ->
  fold_left (fun diff i => Z.lor diff (f i)) l acc = 0 <->
  acc = 0 /\ forall i, i ∈ l -> f i = 0.
Proof.
  intros Hf. revert acc. induction l as [|i l IH]; intros acc Hacc; cbn [fold_left].
  - split; [intros ->; split; [done|]; set_solver|by intros [-> _]].
  - rewrite IH by (apply Z.lor_nonneg; auto). rewrite Z.lor_eq_0_iff. set_solver.
Qed.

Lemma nth_ext_32 (a b : list byte) :
  length a = 32%nat -> length b = 32%nat ->
  (forall i, (i < 32)%nat -> nth i a x00 = nth i b x00) -> a = b.
Proof. intros Ha Hb H. apply (nth_ext _ _ x00 x00); [congruence|]. rewrite Ha. exact H. Qed.

(** The constant-time comparison of two 32-byte authenticity hashes, which ORs
    together the XOR of every byte pair, returns true exactly when the hashes are equal. *)
Theorem hash_constant_time_eq_correct a b :
  hash_wf a -> hash_wf b -> (constant_time_eq a b = true <-> a = b).
Proof.
  intros Ha Hb. unfold constant_time_eq. rewrite Z.eqb_eq, fold_lor_zero; [|intros i; apply Z.lxor_nonneg;
    pose proof (byteZ_range (nth i a x00)); pose proof (byteZ_range (nth i b x00)); lia|lia].
  split.
  - intros [_ H]. apply nth_ext_32; [done..|]. intros i Hi. apply byteZ_inj, Z.lxor_eq_0_iff, H.
    apply elem_of_seq. lia.
  - intros ->. split; [done|]. intros i _. apply Z.lxor_nilpotent.
Qed.

(** ** The mixing round loses nothing *)

Lemma u64_testbit x n : is_u64 x -> 64 <= n -> Z.testbit x n = false.
Proof.
  intros [H0 H1] Hn. destruct (decide (x = 0)) as [->|Hx]; [apply Z.bits_0|].
  apply Z.bits_above_log2; [done|]. apply Z.log2_lt_pow2; [lia|].
  apply Z.lt_le_trans with (2 ^ 64); [unfold u64_max in H1; lia|]. apply Z.pow_le_mono_r; lia.
Qed.

Lemma testbit_u64 x :
  0 <= x -> (forall n, 64 <= n -> Z.testbit x n = false) -> is_u64 x.
Proof.
  intros Hx Hb. split; [done|]. destruct (decide (x = 0)) as [->|Hne]; [vm_compute; congruence|].
  assert (Z.log2 x < 64).
  { destruct (Z.lt_ge_cases (Z.log2 x) 64) as [|Hge]; [done|].
    pose proof (Hb _ Hge) as Hf. rewrite Z.bit_log2 in Hf; [done|lia]. }
  apply Z.log2_lt_pow2 in H; [unfold u64_max; lia|lia].
Qed.

Lemma wrap_u64_testbit x n :
  0 <= n -> Z.testbit (wrap_u64 x) n = (n <? 64) && Z.testbit x n.
Proof.
  intros Hn. unfold wrap_u64. destruct (Z.ltb_spec n 64).
  - by rewrite Z.mod_pow2_bits_low by lia.
  - by rewrite Z.mod_pow2_bits_high by lia.
Qed.

Lemma rotl64_testbit x k n :
  is_u64 x -> 0 < k < 64 -> 0 <= n < 64 ->
  Z.testbit (rotl64 x k) n = Z.testbit x (if n <? k then n - k + 64 else n - k).
Proof.
  intros Hx Hk Hn. unfold rotl64. rewrite Z.lor_spec, wrap_u64_testbit, Z.shiftl_spec, Z.shiftr_spec by lia.
  destruct (Z.ltb_spec n 64); [|lia]. cbn [andb]. destruct (Z.ltb_spec n k).
  - rewrite (Z.testbit_neg_r x (n - k)) by lia. cbn [orb]. f_equal. lia.
  - rewrite (u64_testbit x (n + (64 - k)) Hx) by lia. apply orb_false_r.
Qed.

Lemma rotl64_u64 x k : is_u64 x -> 0 < k < 64 -> is_u64 (rotl64 x k).
Proof.
  intros Hx Hk. apply testbit_u64.
  - apply Z.lor_nonneg. split; [apply is_u64_wrap|]. apply Z.shiftr_nonneg, Hx.
  - intros n Hn. unfold rotl64.
    rewrite Z.lor_spec, wrap_u64_testbit, Z.shiftr_spec by lia.
    destruct (Z.ltb_spec n 64); [lia|]. cbn [andb orb]. apply u64_testbit; [done|lia].
Qed.

Lemma rotl64_inverse x k : is_u64 x -> 0 < k < 64 -> rotl64 (rotl64 x k) (64 - k) = x.
Proof.
  intros Hx Hk. apply Z.bits_inj'. intros n Hn. destruct (Z.lt_ge_cases n 64).
  - rewrite rotl64_testbit by (auto using rotl64_u64; lia).
    destruct (Z.ltb_spec n (64 - k)); rewrite rotl64_testbit by (done || lia).
    + destruct (Z.ltb_spec (n - (64 - k) + 64) k); [lia|]. f_equal. lia.
    + destruct (Z.ltb_spec (n - (64 - k)) k); [|lia]. f_equal. lia.
  - rewrite !u64_testbit; try done. by repeat apply rotl64_u64; try lia.
Qed.

Lemma lxor_u64 x y : is_u64 x -> is_u64 y -> is_u64 (Z.lxor x y).
Proof.
  intros Hx Hy. apply testbit_u64; [apply Z.lxor_nonneg; destruct Hx, Hy; lia|].
  intros n Hn. by rewrite Z.lxor_spec, !u64_testbit.
Qed.

Lemma lxor_cancel x y : Z.lxor (Z.lxor x y) y = x.
Proof. by rewrite Z.lxor_assoc, Z.lxor_nilpotent, Z.lxor_0_r. Qed.

Lemma wrap_sub_add a b : is_u64 a -> wrap_u64 (wrap_u64 (a + b) - b) = a.
Proof.
  intros Ha. unfold wrap_u64. rewrite Zminus_mod_idemp_l. replace (a + b - b) with a by lia.
  by apply wrap_u64_small.
Qed.

Definition sip_wf (st : SipState) : Prop :=
  is_u64 (s0 st) /\ is_u64 (s1 st) /\ is_u64 (s2 st) /\ is_u64 (s3 st).

Definition rotr64 (x k : Z) : Z := rotl64 x (64 - k).

(** The inverse of [sip_round], step by step in reverse. *)
Definition sip_unround (st : SipState) : SipState :=
  let '(mkSip a b c d) := st in
  let c := rotr64 c 32 in
  let b := rotr64 (Z.lxor b c) 17 in
  let c := wrap_u64 (c - b) in
  let d := rotr64 (Z.lxor d a) 21 in
  let a := wrap_u64 (a - d) in
  let d := rotr64 (Z.lxor d c) 16 in
  let c := wrap_u64 (c - d) in
  let a := rotr64 a 32 in
  let b := rotr64 (Z.lxor b a) 13 in
  let a := wrap_u64 (a - b) in
  mkSip a b c d.

Lemma sip_round_wf st : sip_wf st -> sip_wf (sip_round st).
Proof.
  destruct st as [a b c d]. intros (Ha & Hb & Hc & Hd). cbn in *.
  split_and!; cbn; repeat first [apply lxor_u64 | apply rotl64_u64; [|lia] | apply is_u64_wrap | done].
Qed.

Lemma sip_unround_round st : sip_wf st -> sip_unround (sip_round st) = st.
Proof.
  destruct st as [a b c d]. intros (Ha & Hb & Hc & Hd). cbn [s0 s1 s2 s3] in *.
  unfold sip_round, sip_unround. cbv beta iota zeta.
  set (a1 := wrap_u64 (a + b)). assert (Ha1 : is_u64 a1) by apply is_u64_wrap.
  set (b1 := Z.lxor (rotl64 b 13) a1).
  assert (Hb1 : is_u64 b1) by (apply lxor_u64; [apply rotl64_u64; [done|lia]|done]).
  set (a2 := rotl64 a1 32). assert (Ha2 : is_u64 a2) by (apply rotl64_u64; [done|lia]).
  set (c1 := wrap_u64 (c + d)). assert (Hc1 : is_u64 c1) by apply is_u64_wrap.
  set (d1 := Z.lxor (rotl64 d 16) c1).
  assert (Hd1 : is_u64 d1) by (apply lxor_u64; [apply rotl64_u64; [done|lia]|done]).
  set (a3 := wrap_u64 (a2 + d1)). assert (Ha3 : is_u64 a3) by apply is_u64_wrap.
  set (c2 := wrap_u64 (c1 + b1)). assert (Hc2 : is_u64 c2) by apply is_u64_wrap.
  rewrite (rotl64_inverse c2 32 Hc2 ltac:(lia) : rotr64 (rotl64 c2 32) 32 = c2).
  rewrite (lxor_cancel (rotl64 b1 17) c2).
  rewrite (rotl64_inverse b1 17 Hb1 ltac:(lia) : rotr64 (rotl64 b1 17) 17 = b1).
  rewrite (wrap_sub_add c1 b1 Hc1 : wrap_u64 (c2 - b1) = c1).
  rewrite (lxor_cancel (rotl64 d1 21) a3).
  rewrite (rotl64_inverse d1 21 Hd1 ltac:(lia) : rotr64 (rotl64 d1 21) 21 = d1).
  rewrite (wrap_sub_add a2 d1 Ha2 : wrap_u64 (a3 - d1) = a2).
  rewrite (rotl64_inverse a1 32 Ha1 ltac:(lia) : rotr64 a2 32 = a1).
  rewrite (lxor_cancel (rotl64 b 13) a1 : Z.lxor b1 a1 = rotl64 b 13).
  rewrite (rotl64_inverse b 13 Hb ltac:(lia) : rotr64 (rotl64 b 13) 13 = b).
  rewrite (lxor_cancel (rotl64 d 16) c1 : Z.lxor d1 c1 = rotl64 d 16).
  rewrite (rotl64_inverse d 16 Hd ltac:(lia) : rotr64 (rotl64 d 16) 16 = d).
  unfold a1, c1. by rewrite !wrap_sub_add.
Qed.

Lemma sip_round_inj st st' :
  sip_wf st -> sip_wf st' -> sip_round st = sip_round st' -> st = st'.
Proof.
  intros H H' Heq. by rewrite <- (sip_unround_round st H), Heq, sip_unround_round.
Qed.

Lemma xor3_wf st w : sip_wf st -> is_u64 w -> sip_wf (xor3 st w).
Proof. intros (? & ? & ? & ?) ?. split_and!; cbn; auto using lxor_u64. Qed.
Lemma xor0_wf st w : sip_wf st -> is_u64 w -> sip_wf (xor0 st w).
Proof. intros (? & ? & ? & ?) ?. split_and!; cbn; auto using lxor_u64. Qed.

Lemma lxor_inj x y w : Z.lxor x w = Z.lxor y w -> x = y.
Proof. intros H. by rewrite <- (lxor_cancel x w), H, lxor_cancel. Qed.

Lemma xor3_inj st st' w : xor3 st w = xor3 st' w -> st = st'.
Proof. destruct st, st'. intros [= -> -> -> H]. f_equal. by apply lxor_inj in H. Qed.
Lemma xor0_inj st st' w : xor0 st w = xor0 st' w -> st = st'.
Proof. destruct st, st'. intros [= H -> -> ->]. f_equal. by apply lxor_inj in H. Qed.

Lemma absorb_word_wf st w : sip_wf st -> is_u64 w -> sip_wf (absorb_word st w).
Proof. intros. unfold absorb_word. auto using xor0_wf, xor3_wf, sip_round_wf. Qed.

(** Absorbing loses no information: two states of the tier-2 hash that absorb the
    same words stay different if they were different, because each round of wrapping
    additions, rotations and XORs on 64-bit words is invertible. *)
Theorem hash_absorb_injective words st st' :
  Forall is_u64 words -> sip_wf st -> sip_wf st' ->
  fold_left absorb_word words st = fold_left absorb_word words st' -> st = st'.
Proof.
  revert st st'. induction words as [|w words IH]; intros st st' Hw H H'; [done|].
  apply Forall_cons in Hw as [Hw Hws]. cbn [fold_left]. intros Heq.
  apply IH in Heq; [|done|by apply absorb_word_wf..]. unfold absorb_word in Heq.
  apply xor0_inj in Heq. do 2 (apply sip_round_inj in Heq; [|auto using xor3_wf, sip_round_wf..]).
  by apply xor3_inj in Heq.
Qed.

Lemma hash_constant_time_eq_correct_witness :
  constant_time_eq (ContentHash_compute [x61]) (ContentHash_compute [x62]) <> true.
Proof.
  intros H. apply hash_constant_time_eq_correct in H; [|apply ContentHash_wf..].
  revert H. vm_compute. discriminate.
Defined.

Lemma hash_absorb_injective_witness :
  absorb_word sip_init 7 <> absorb_word (xor0 sip_init 1) 7.
Proof.
  intros H. apply (hash_absorb_injective [7]) in H; [discriminate H|..].
  - apply Forall_singleton. mlia.
  - split_and!; split; vm_compute; congruence.
  - split_and!; split; vm_compute; congruence.
Defined.
