(* ===== verification/DetSerde.v ===== *)
(** * Deterministic serialization (crates/franken-engine/src/deterministic_serde.rs)

    The canonical value type, its tagged big-endian encoding, the
    bounds-checked decoder with its recursion limit, the schema-prefixed
    entry points and the schema registry.  A [BTreeMap<String, _>] inside a
    value is the list of its entries in strictly increasing key order, since
    the encoding depends on that order. *)
From S2P Require Import Prelude Bytes HashTiers.
From stdpp Require Import base numbers list strings gmap sorting.
From Stdlib Require Import Strings.Byte.
Open Scope Z_scope.

(** ** Data *)

(** [SchemaHash([u8; 32])] *)
Definition SchemaHash := list byte.

Definition from_definition (definition : list byte) : SchemaHash := ContentHash_compute definition.

#[warnings="-register-all"]
Inductive CanonicalValue :=
  | VU64 (v : Z)
  | VI64 (v : Z)
  | VBool (v : bool)
  | VBytes (v : list byte)
  | VString (v : string)
  | VArray (items : list CanonicalValue)
  | VMap (entries : list (string * CanonicalValue))
  | VNull.

Definition TAG_U64 : byte := x01.
Definition TAG_I64 : byte := x02.
Definition TAG_BOOL : byte := x03.
Definition TAG_BYTES : byte := x04.
Definition TAG_STRING : byte := x05.
Definition TAG_ARRAY : byte := x06.
Definition TAG_MAP : byte := x07.
Definition TAG_NULL : byte := x08.

Inductive SerdeError :=
  | SchemaMismatch (expected actual : SchemaHash)
  | UnknownSchema (schema_hash : SchemaHash)
  | BufferTooShort (expected actual : Z)
  | InvalidTag (tag : byte) (offset : Z)
  | InvalidBoolEncoding (value : byte) (offset : Z)
  | InvalidUtf8 (offset : Z)
  | DuplicateKey (key : string)
  | NonLexicographicKeys (prev_key current_key : string)
  | RecursionLimitExceeded (offset : Z)
  | TrailingBytes (count : Z).

(** ** Encoding *)

(** [(u32::try_from(len).unwrap_or(u32::MAX)).to_be_bytes()] *)
Definition len_prefix (n : Z) : list byte := be_bytes 4 (u32_sat n).

Fixpoint encode_into (buf : list byte) (value : CanonicalValue) : list byte :=
  match value with
  | VU64 v => (buf ++ [TAG_U64]) ++ be_bytes 8 v
  | VI64 v => (buf ++ [TAG_I64]) ++ be_bytes 8 v
  | VBool v => (buf ++ [TAG_BOOL]) ++ [if v then x01 else x00]
  | VBytes v => ((buf ++ [TAG_BYTES]) ++ len_prefix (zlen v)) ++ v
  | VString v =>
      ((buf ++ [TAG_STRING]) ++ len_prefix (zlen (str_bytes v))) ++ str_bytes v
  | VArray items =>
      fold_left (fun buf item => encode_into buf item) items
        ((buf ++ [TAG_ARRAY]) ++ len_prefix (zlen items))
  | VMap entries =>
      fold_left (fun buf e =>
          encode_into ((buf ++ len_prefix (zlen (str_bytes e.1))) ++ str_bytes e.1) e.2) entries
        ((buf ++ [TAG_MAP]) ++ len_prefix (zlen entries))
  | VNull => buf ++ [TAG_NULL]
  end.

Definition encode_value (value : CanonicalValue) : list byte := encode_into [] value.

(** ** Decoding *)

Definition need_bytes (data : list byte) (offset count : Z) : result SerdeError unit :=
  match checked_add64 offset count with
  | None => Err (BufferTooShort usize_max (zlen data))
  | Some end_ =>
      if zlen data <? end_ then Err (BufferTooShort end_ (zlen data)) else Ok tt
  end.

(** [u32::from_be_bytes(data[pos..pos + 4]) as usize] *)
Definition read_u32 (data : list byte) (pos : Z) : Z := be_value (slice data pos 4).

(** [map.insert(key, val)] on the ordered entries of a [BTreeMap]. *)
Fixpoint btree_insert (key : string) (val : CanonicalValue)
    (m : list (string * CanonicalValue)) : list (string * CanonicalValue) :=
  match m with
  | [] => [(key, val)]
  | (k, v) :: m =>
      match String.compare key k with
      | Lt => (key, val) :: (k, v) :: m
      | Eq => (k, val) :: m
      | Gt => (k, v) :: btree_insert key val m
      end
  end.

(** [for _ in 0..count] of the array branch, over the element decoder. *)
Fixpoint decode_items (dec : Z -> result SerdeError (CanonicalValue * Z)) (count : nat)
    (cur : Z) (items : list CanonicalValue) : result SerdeError (list CanonicalValue * Z) :=
  match count with
  | O => Ok (items, cur)
  | S count =>
      '(val, next) ← dec cur;
      decode_items dec count next (items ++ [val])
  end.

(** The key of one map entry and the position after it, with the order check
    against the previous key. *)
Definition decode_key (data : list byte) (cur : Z) (prev_key : option string)
    : result SerdeError (string * Z) :=
  _ ← need_bytes data cur 4;
  let key_len := read_u32 data cur in
  let cur := cur + 4 in
  _ ← need_bytes data cur key_len;
  key ← ok_or (InvalidUtf8 cur) (from_utf8 (slice data cur key_len));
  let cur := cur + key_len in
  match prev_key with
  | Some prev =>
      match String.compare key prev with
      | Eq => Err (DuplicateKey key)
      | Lt => Err (NonLexicographicKeys prev key)
      | Gt => Ok (key, cur)
      end
  | None => Ok (key, cur)
  end.

(** [for _ in 0..count] of the map branch. *)
Fixpoint decode_entries (dec : Z -> result SerdeError (CanonicalValue * Z)) (data : list byte)
    (count : nat) (cur : Z) (prev_key : option string) (m : list (string * CanonicalValue))
    : result SerdeError (list (string * CanonicalValue) * Z) :=
  match count with
  | O => Ok (m, cur)
  | S count =>
      '(key, cur) ← decode_key data cur prev_key;
      '(val, next) ← dec cur;
      decode_entries dec data count next (Some key) (btree_insert key val m)
  end.

(** [decode_at(data, offset, depth)].  [levels] is the number of levels the
    recursion limit still admits, [129 - depth]: the call with [depth > 128]
    is the one with no level left, and it fails before anything else. *)
Fixpoint decode_at (levels : nat) (data : list byte) (offset : Z)
    : result SerdeError (CanonicalValue * Z) :=
  match levels with
  | O => Err (RecursionLimitExceeded offset)
  | S levels =>
      match data !! Z.to_nat offset with
      | None => Err (BufferTooShort (offset + 1) (zlen data))
      | Some tag =>
          let pos := offset + 1 in
          if decide (tag = TAG_U64) then
            _ ← need_bytes data pos 8;
            Ok (VU64 (be_value (slice data pos 8)), pos + 8)
          else if decide (tag = TAG_I64) then
            _ ← need_bytes data pos 8;
            Ok (VI64 (i64_of_u64 (be_value (slice data pos 8))), pos + 8)
          else if decide (tag = TAG_BOOL) then
            _ ← need_bytes data pos 1;
            match data !! Z.to_nat pos with
            | Some value =>
                if decide (value = x00) then Ok (VBool false, pos + 1)
                else if decide (value = x01) then Ok (VBool true, pos + 1)
                else Err (InvalidBoolEncoding value pos)
            | None => Err (BufferTooShort (pos + 1) (zlen data))
            end
          else if decide (tag = TAG_BYTES) then
            _ ← need_bytes data pos 4;
            let len := read_u32 data pos in
            let start := pos + 4 in
            _ ← need_bytes data start len;
            Ok (VBytes (slice data start len), start + len)
          else if decide (tag = TAG_STRING) then
            _ ← need_bytes data pos 4;
            let len := read_u32 data pos in
            let start := pos + 4 in
            _ ← need_bytes data start len;
            s ← ok_or (InvalidUtf8 start) (from_utf8 (slice data start len));
            Ok (VString s, start + len)
          else if decide (tag = TAG_ARRAY) then
            _ ← need_bytes data pos 4;
            let count := read_u32 data pos in
            let cur := pos + 4 in
            _ ← need_bytes data cur count;
            '(items, cur) ← decode_items (decode_at levels data) (Z.to_nat count) cur [];
            Ok (VArray items, cur)
          else if decide (tag = TAG_MAP) then
            _ ← need_bytes data pos 4;
            let count := read_u32 data pos in
            let cur := pos + 4 in
            '(m, cur) ← decode_entries (decode_at levels data) data (Z.to_nat count) cur None [];
            Ok (VMap m, cur)
          else if decide (tag = TAG_NULL) then Ok (VNull, pos)
          else Err (InvalidTag tag offset)
      end
  end.

(** Calls at depths 0..=128 are admitted. *)
Definition depth_levels : nat := 129.

(** The check that every entry point makes after [decode_at]: the value
    consumed the whole buffer. *)
Definition check_consumed (data : list byte) (r : result SerdeError (CanonicalValue * Z))
    : result SerdeError CanonicalValue :=
  '(value, consumed) ← r;
  if consumed <? zlen data then Err (TrailingBytes (zlen data - consumed)) else Ok value.

Definition decode_value (data : list byte) : result SerdeError CanonicalValue :=
  check_consumed data (decode_at depth_levels data 0).

(** ** Schema-prefixed encoding *)

Definition serialize_with_schema (schema : SchemaHash) (value : CanonicalValue) : list byte :=
  encode_into ([] ++ schema) value.

Definition deserialize_with_schema (expected_schema : SchemaHash) (data : list byte)
    : result SerdeError CanonicalValue :=
  if zlen data <? 32 then Err (BufferTooShort 32 (zlen data))
  else
    let actual_schema := slice data 0 32 in
    if decide (actual_schema = expected_schema)
    then check_consumed data (decode_at depth_levels data 32)
    else Err (SchemaMismatch expected_schema actual_schema).

Definition canonical_hash (schema : SchemaHash) (value : CanonicalValue) : ContentHash :=
  ContentHash_compute (serialize_with_schema schema value).

(** ** [SchemaRegistry] *)

Record SchemaDefinition := mkSchema {
  schema_name : string;
  schema_version : Z;
  schema_hash : SchemaHash;
}.

Definition SchemaRegistry := gmap (list byte) SchemaDefinition.

Module SchemaReg.
Definition new : SchemaRegistry := ∅.

Definition register (r : SchemaRegistry) (name : string) (version : Z) (definition : list byte)
    : SchemaRegistry * SchemaHash :=
  let hash := from_definition definition in
  (<[hash := mkSchema name version hash]> r, hash).

Definition lookup (r : SchemaRegistry) (hash : SchemaHash) : option SchemaDefinition := r !! hash.

Definition is_known (r : SchemaRegistry) (hash : SchemaHash) : bool :=
  bool_decide (is_Some (r !! hash)).

Definition deserialize_checked (r : SchemaRegistry) (data : list byte)
    : result SerdeError (SchemaDefinition * CanonicalValue) :=
  if zlen data <? 32 then Err (BufferTooShort 32 (zlen data))
  else
    let hash := slice data 0 32 in
    def ← ok_or (UnknownSchema hash) (lookup r hash);
    value ← check_consumed data (decode_at depth_levels data 32);
    Ok (def, value).
End SchemaReg.
