(* ===== verification/DetSerdeCorrect.v ===== *)
(** * Correctness of the deterministic encoding

    [decode_value] inverts [encode_value] on every value within the format's
    bounds, and whatever it accepts is the encoding of the value it returns:
    the two are inverse bijections between bounded values and accepted
    buffers. *)
From S2P Require Import Prelude Bytes HashTiers DetSerde.
From stdpp Require Import base numbers list strings gmap sorting.
From Stdlib Require Import Strings.Byte.
Open Scope Z_scope.

(** ** Values within the bounds of the format *)

Section cv_ind.
Variable P : CanonicalValue -> Prop.
Hypothesis Hu64 : forall v, P (VU64 v).
Hypothesis Hi64 : forall v, P (VI64 v).
Hypothesis Hbool : forall v, P (VBool v).
Hypothesis Hbytes : forall v, P (VBytes v).
Hypothesis Hstring : forall v, P (VString v).
Hypothesis Harray : forall items, Forall P items -> P (VArray items).
Hypothesis Hmap : forall es, Forall (fun e => P e.2) es -> P (VMap es).
Hypothesis Hnull : P VNull.

Fixpoint cv_ind (v : CanonicalValue) : P v :=
  match v with
  | VU64 v => Hu64 v
  | VI64 v => Hi64 v
  | VBool v => Hbool v
  | VBytes v => Hbytes v
  | VString v => Hstring v
  | VArray items =>
      Harray items ((fix go l : Forall P l :=
        match l with
        | [] => Forall_nil_2 P
        | x :: l => Forall_cons_2 P x l (cv_ind x) (go l)
        end) items)
  | VMap es =>
      Hmap es ((fix go l : Forall (fun e => P e.2) l :=
        match l with
        | [] => Forall_nil_2 _
        | x :: l => Forall_cons_2 (fun e => P e.2) x l (cv_ind x.2) (go l)
        end) es)
  | VNull => Hnull
  end.
End cv_ind.

(** Keys in strictly increasing order: the invariant of a [BTreeMap]. *)
Definition keys_sorted (es : list (string * CanonicalValue)) : Prop :=
  StronglySorted str_lt es.*1.

#[warnings="-register-all"]
Inductive value_wf : CanonicalValue -> Prop :=
  | wf_u64 v : is_u64 v -> value_wf (VU64 v)
  | wf_i64 v : is_i64 v -> value_wf (VI64 v)
  | wf_bool v : value_wf (VBool v)
  | wf_bytes v : zlen v <= u32_max -> value_wf (VBytes v)
  | wf_string v : str_wf v -> zlen (str_bytes v) <= u32_max -> value_wf (VString v)
  | wf_array items : zlen items <= u32_max -> Forall value_wf items -> value_wf (VArray items)
  | wf_map es :
      zlen es <= u32_max -> keys_sorted es ->
      Forall (fun e => str_wf e.1 /\ zlen (str_bytes e.1) <= u32_max) es ->
      Forall (fun e => value_wf e.2) es -> value_wf (VMap es)
  | wf_null : value_wf VNull.

(** Levels of nesting: the recursion depth decoding needs. *)
Fixpoint nest (v : CanonicalValue) : nat :=
  match v with
  | VArray items => S (foldr (fun i acc => Nat.max (nest i) acc) 0%nat items)
  | VMap es => S (foldr (fun e acc => Nat.max (nest e.2) acc) 0%nat es)
  | _ => 1%nat
  end.

Lemma nest_array items levels :
  (nest (VArray items) <= S levels)%nat <-> Forall (fun i => (nest i <= levels)%nat) items.
Proof.
  simpl. induction items as [|i items IH]; simpl; [split; [constructor|lia]|].
  rewrite Forall_cons, <- IH. lia.
Qed.

Lemma nest_map es levels :
  (nest (VMap es) <= S levels)%nat <-> Forall (fun e => (nest e.2 <= levels)%nat) es.
Proof.
  simpl. induction es as [|e es IH]; simpl; [split; [constructor|lia]|].
  rewrite Forall_cons, <- IH. lia.
Qed.

(** ** The encoding as a concatenation *)

Definition enc_entry (e : string * CanonicalValue) : list byte :=
  len_prefix (zlen (str_bytes e.1)) ++ str_bytes e.1 ++ encode_value e.2.

Definition enc_items (items : list CanonicalValue) : list byte :=
  concat (encode_value <$> items).
Definition enc_entries (es : list (string * CanonicalValue)) : list byte :=
  concat (enc_entry <$> es).

Lemma enc_items_cons i items : enc_items (i :: items) = encode_value i ++ enc_items items.
Proof. done. Qed.

Lemma enc_entries_cons k v es :
  enc_entries ((k, v) :: es) =
  len_prefix (zlen (str_bytes k)) ++ str_bytes k ++ encode_value v ++ enc_entries es.
Proof. unfold enc_entries, enc_entry. simpl. by rewrite <- !app_assoc. Qed.

(** A loop that appends one chunk per element. *)
Lemma fold_left_append {A} (f : list byte -> A -> list byte) (g : A -> list byte) l buf :
  Forall (fun x => forall buf, f buf x = buf ++ g x) l ->
  fold_left f l buf = buf ++ concat (g <$> l).
Proof.
  intros Hf. revert buf. induction Hf as [|x l Hx _ IH]; intros buf; simpl.
  - by rewrite app_nil_r.
  - by rewrite Hx, IH, <- app_assoc.
Qed.

Lemma encode_into_app buf v : encode_into buf v = buf ++ encode_value v.
Proof.
  unfold encode_value. revert buf.
  induction v as [v|v|v|v|v|items IH|es IH|] using cv_ind; intros buf;
    cbn [encode_into]; rewrite ?app_nil_l, <- ?app_assoc; try done.
  - rewrite !(fold_left_append _ encode_value) by done. by rewrite <- !app_assoc.
  - rewrite !(fold_left_append _ enc_entry).
    + by rewrite <- !app_assoc.
    + eapply Forall_impl; [done|]. intros [k v] Hv buf'. simpl in *.
      unfold enc_entry, encode_value. by rewrite Hv, <- !app_assoc.
    + eapply Forall_impl; [done|]. intros [k v] Hv buf'. simpl in *.
      unfold enc_entry, encode_value. by rewrite Hv, <- !app_assoc.
Qed.

Lemma encode_array items :
  encode_value (VArray items) = TAG_ARRAY :: len_prefix (zlen items) ++ enc_items items.
Proof.
  unfold encode_value at 1. cbn [encode_into].
  rewrite (fold_left_append _ encode_value); [done|].
  apply Forall_true. intros; apply encode_into_app.
Qed.

Lemma encode_map es :
  encode_value (VMap es) = TAG_MAP :: len_prefix (zlen es) ++ enc_entries es.
Proof.
  unfold encode_value at 1. cbn [encode_into].
  rewrite (fold_left_append _ enc_entry); [done|].
  apply Forall_true. intros [k v] buf. rewrite encode_into_app.
  unfold enc_entry. by rewrite <- !app_assoc.
Qed.

(** ** Primitive reads *)

Lemma need_bytes_ok data off n :
  off + n <= zlen data -> zlen data <= usize_max -> need_bytes data off n = Ok tt.
Proof.
  intros H1 H2. unfold need_bytes, checked_add64.
  destruct (Z.leb_spec (off + n) u64_max); [|mlia].
  destruct (Z.ltb_spec (zlen data) (off + n)); [lia|done].
Qed.

Lemma need_bytes_Ok data off n : need_bytes data off n = Ok tt -> off + n <= zlen data.
Proof.
  unfold need_bytes, checked_add64. repeat case_match; intros; simplify_eq; lia.
Qed.

Lemma lookup_middle {A} (pre : list A) x post :
  (pre ++ x :: post) !! Z.to_nat (zlen pre) = Some x.
Proof. unfold zlen. rewrite Nat2Z.id. apply list_lookup_middle. done. Qed.

Lemma read_u32_prefix pre n post :
  0 <= n <= u32_max -> read_u32 (pre ++ len_prefix n ++ post) (zlen pre) = n.
Proof.
  intros Hn. unfold read_u32, len_prefix.
  rewrite slice_app_middle; [|done|by rewrite zlen_be_bytes].
  rewrite be_value_bytes. unfold u32_sat. destruct (Z.leb_spec n u32_max); [|lia].
  rewrite Z.mod_small; mlia.
Qed.

Lemma zlen_len_prefix n : zlen (len_prefix n) = 4.
Proof. apply zlen_be_bytes. Qed.

#[export] Hint Rewrite zlen_len_prefix : zlen.

Ltac len_solve := autorewrite with zlen in *; mlia.

(** Reassociate a buffer so that its prefix is explicit. *)
Lemma app_cons_snoc {A} (pre : list A) x post : pre ++ x :: post = (pre ++ [x]) ++ post.
Proof. by rewrite <- app_assoc. Qed.

Lemma zlen_snoc {A} (pre : list A) x : zlen pre + 1 = zlen (pre ++ [x]).
Proof. len_solve. Qed.

(** ** Decoding what was encoded *)

Definition decodes (levels : nat) (v : CanonicalValue) : Prop :=
  forall pre post,
  zlen (pre ++ encode_value v ++ post) <= usize_max ->
  decode_at levels (pre ++ encode_value v ++ post) (zlen pre)
  = Ok (v, zlen pre + zlen (encode_value v)).

(** One length-prefixed chunk, read after its tag. *)
Lemma read_chunk pre (v : list byte) post :
  zlen v <= u32_max -> zlen (pre ++ len_prefix (zlen v) ++ v ++ post) <= usize_max ->
  let data := pre ++ len_prefix (zlen v) ++ v ++ post in
  need_bytes data (zlen pre) 4 = Ok tt /\
  read_u32 data (zlen pre) = zlen v /\
  need_bytes data (zlen pre + 4) (zlen v) = Ok tt /\
  slice data (zlen pre + 4) (zlen v) = v.
Proof.
  intros Hv Hlen data. unfold data.
  pose proof (zlen_nonneg pre). pose proof (zlen_nonneg v). pose proof (zlen_nonneg post).
  split_and!.
  - apply need_bytes_ok; len_solve.
  - by apply read_u32_prefix.
  - apply need_bytes_ok; len_solve.
  - rewrite (app_assoc pre). apply slice_app_middle; len_solve.
Qed.

Lemma decode_items_ok levels items pre post acc :
  Forall (decodes levels) items ->
  zlen (pre ++ enc_items items ++ post) <= usize_max ->
  decode_items (decode_at levels (pre ++ enc_items items ++ post)) (length items) (zlen pre) acc
  = Ok (acc ++ items, zlen pre + zlen (enc_items items)).
Proof.
  intros Hit. revert pre acc.
  induction Hit as [|i items Hi _ IH]; intros pre acc Hlen; cbn [length decode_items].
  - unfold enc_items. simpl. rewrite app_nil_r. do 2 f_equal. len_solve.
  - rewrite enc_items_cons in *. rewrite <- !app_assoc in *.
    rewrite (Hi pre _ Hlen). cbn [mbind result_bind].
    rewrite <- zlen_app, app_assoc. rewrite IH; [|by rewrite <- app_assoc].
    rewrite <- app_assoc. do 2 f_equal. len_solve.
Qed.

Lemma btree_insert_last k v m :
  Forall (fun e => str_lt e.1 k) m -> btree_insert k v m = m ++ [(k, v)].
Proof.
  induction 1 as [|[k' v'] m Hk _ IH]; [done|]. simpl in *.
  apply str_compare_gt in Hk. rewrite Hk. by rewrite IH.
Qed.

(** The keys of [m] are below every key of [es]. *)
Definition keys_below (m es : list (string * CanonicalValue)) : Prop :=
  Forall (fun e => Forall (fun e' => str_lt e.1 e'.1) es) m.

Lemma decode_key_ok pre k post prev :
  str_wf k -> zlen (str_bytes k) <= u32_max ->
  zlen (pre ++ len_prefix (zlen (str_bytes k)) ++ str_bytes k ++ post) <= usize_max ->
  (forall p, prev = Some p -> str_lt p k) ->
  decode_key (pre ++ len_prefix (zlen (str_bytes k)) ++ str_bytes k ++ post) (zlen pre) prev
  = Ok (k, zlen pre + 4 + zlen (str_bytes k)).
Proof.
  intros Hwf Hl Hlen Hprev. unfold decode_key.
  destruct (read_chunk pre (str_bytes k) post Hl Hlen) as (-> & -> & -> & ->).
  cbn [mbind result_bind].
  rewrite (proj2 (from_utf8_Some (str_bytes k) k)) by done. cbn.
  destruct prev as [p|]; [|done].
  by rewrite (proj2 (str_compare_gt k p) (Hprev p eq_refl)).
Qed.

Lemma decode_entries_ok levels es pre post m prev :
  Forall (fun e => decodes levels e.2) es ->
  Forall (fun e => str_wf e.1 /\ zlen (str_bytes e.1) <= u32_max) es ->
  keys_sorted es -> keys_below m es ->
  (forall p, prev = Some p -> Forall (fun e => str_lt p e.1) es) ->
  zlen (pre ++ enc_entries es ++ post) <= usize_max ->
  decode_entries (decode_at levels (pre ++ enc_entries es ++ post)) (pre ++ enc_entries es ++ post)
    (length es) (zlen pre) prev m
  = Ok (m ++ es, zlen pre + zlen (enc_entries es)).
Proof.
  intros Hes. revert pre m prev.
  induction Hes as [|[k v] es Hv _ IH]; intros pre m prev Hwf Hs Hb Hp Hlen;
    cbn [length decode_entries].
  { unfold enc_entries. simpl. rewrite app_nil_r. do 2 f_equal. len_solve. }
  apply Forall_cons in Hwf as [[Hk Hkl] Hwf]. simpl in Hv, Hk, Hkl.
  unfold keys_sorted in Hs. rewrite fmap_cons in Hs.
  apply StronglySorted_inv in Hs as [Hs Hlt]. fold (keys_sorted es) in Hs.
  apply (proj1 (Forall_fmap _ _ _)) in Hlt.
  rewrite enc_entries_cons in *. rewrite <- !app_assoc in *.
  rewrite (decode_key_ok pre k _ prev Hk Hkl Hlen).
  2:{ intros p Hpe. specialize (Hp p Hpe). by apply Forall_cons in Hp as [Hp _]. }
  cbn [mbind result_bind].
  set (kb := len_prefix (zlen (str_bytes k)) ++ str_bytes k).
  replace (zlen pre + 4 + zlen (str_bytes k)) with (zlen (pre ++ kb)) by (unfold kb; len_solve).
  replace (pre ++ len_prefix (zlen (str_bytes k)) ++ str_bytes k ++
             encode_value v ++ enc_entries es ++ post)
    with ((pre ++ kb) ++ encode_value v ++ enc_entries es ++ post) in *
    by (unfold kb; by rewrite <- !app_assoc).
  rewrite (Hv (pre ++ kb) _ Hlen). cbn [mbind result_bind].
  rewrite btree_insert_last.
  2:{ eapply Forall_impl; [exact Hb|]. intros e He. by apply Forall_cons in He as [He _]. }
  rewrite <- zlen_app, (app_assoc (pre ++ kb)). unfold keys_below in *.
  rewrite IH; try done.
  - rewrite <- app_assoc. do 2 f_equal. unfold kb. len_solve.
  - rewrite Forall_app. split.
    + eapply Forall_impl; [exact Hb|]. intros e He. by apply Forall_cons in He as [_ He].
    + apply Forall_singleton. exact Hlt.
  - intros p [= <-]. exact Hlt.
  - by rewrite <- app_assoc.
Qed.

(** Reads the tag byte at the end of [pre] and dispatches on it. *)
Ltac tag_dispatch :=
  cbn [decode_at app]; rewrite lookup_middle; cbv zeta;
  repeat match goal with
  | |- context [decide (?a = ?b)] =>
      let Ht := fresh in
      destruct (decide (a = b)) as [Ht|Ht];
      [try discriminate Ht|try (exfalso; apply Ht; reflexivity)]; clear Ht
  end.

Ltac tag_step t :=
  tag_dispatch;
  rewrite app_cons_snoc, (zlen_snoc _ t);
  match goal with H : zlen _ <= usize_max |- _ => cbn [app] in H; rewrite app_cons_snoc in H end.

(** Every encoded value takes at least its tag byte. *)
Lemma encode_value_length v : 1 <= zlen (encode_value v).
Proof.
  destruct v; rewrite ?encode_array, ?encode_map; unfold encode_value; cbn [encode_into app];
    rewrite ?zlen_cons; match goal with |- context [zlen ?l] => pose proof (zlen_nonneg l) end; lia.
Qed.

Lemma enc_items_length items : zlen items <= zlen (enc_items items).
Proof.
  induction items as [|i items IH]; [done|]. rewrite enc_items_cons.
  pose proof (encode_value_length i). len_solve.
Qed.

Lemma decode_scalar8 pre z post t :
  zlen (pre ++ t :: be_bytes 8 z ++ post) <= usize_max ->
  need_bytes ((pre ++ [t]) ++ be_bytes 8 z ++ post) (zlen (pre ++ [t])) 8 = Ok tt /\
  be_value (slice ((pre ++ [t]) ++ be_bytes 8 z ++ post) (zlen (pre ++ [t])) 8) = z mod 2 ^ 64.
Proof.
  intros Hlen. pose proof (zlen_nonneg post). split.
  - apply need_bytes_ok; len_solve.
  - rewrite slice_app_middle; [|done|len_solve]. apply be_value_bytes.
Qed.

Lemma decode_at_complete v levels :
  value_wf v -> (nest v <= levels)%nat -> decodes levels v.
Proof.
  revert levels. induction v as [v|v|v|v|v|items IH|es IH|] using cv_ind;
    intros levels Hwf Hn; (destruct levels as [|levels]; [simpl in Hn; lia|]);
    inversion Hwf; subst; clear Hwf; intros pre post Hlen.
  - change (encode_value (VU64 v)) with (TAG_U64 :: be_bytes 8 v) in *.
    destruct (decode_scalar8 pre v post TAG_U64 Hlen) as [Hn8 Hv]. tag_step TAG_U64.
    rewrite Hn8, Hv, Z.mod_small by mlia. cbn [mbind result_bind]. do 2 f_equal. len_solve.
  - change (encode_value (VI64 v)) with (TAG_I64 :: be_bytes 8 v) in *.
    destruct (decode_scalar8 pre v post TAG_I64 Hlen) as [Hn8 Hv]. tag_step TAG_I64.
    rewrite Hn8, Hv, i64_of_u64_mod by done. cbn [mbind result_bind]. do 2 f_equal. len_solve.
  - change (encode_value (VBool v)) with [TAG_BOOL; if v then x01 else x00] in *.
    tag_step TAG_BOOL. pose proof (zlen_nonneg post).
    rewrite need_bytes_ok by len_solve. cbn [mbind result_bind app]. rewrite lookup_middle.
    destruct v; do 2 f_equal; len_solve.
  - change (encode_value (VBytes v)) with (TAG_BYTES :: len_prefix (zlen v) ++ v) in *.
    tag_step TAG_BYTES. rewrite <- (app_assoc (len_prefix _)) in *.
    destruct (read_chunk (pre ++ [TAG_BYTES]) v post) as (-> & -> & -> & ->); [done..|].
    cbn [mbind result_bind]. do 2 f_equal. len_solve.
  - change (encode_value (VString v))
      with (TAG_STRING :: len_prefix (zlen (str_bytes v)) ++ str_bytes v) in *.
    tag_step TAG_STRING. rewrite <- (app_assoc (len_prefix _)) in *.
    destruct (read_chunk (pre ++ [TAG_STRING]) (str_bytes v) post) as (-> & -> & -> & ->); [done..|].
    rewrite (proj2 (from_utf8_Some (str_bytes v) v)) by done.
    cbn. do 2 f_equal. len_solve.
  - rewrite encode_array in *. tag_step TAG_ARRAY. rewrite <- (app_assoc (len_prefix _)) in *.
    pose proof (zlen_nonneg post). pose proof (zlen_nonneg items).
    assert (Hall : Forall (decodes levels) items).
    { apply nest_array in Hn. rewrite Forall_forall in *. auto. }
    pose proof (enc_items_length items).
    rewrite read_u32_prefix by lia.
    rewrite !need_bytes_ok by len_solve. cbn [mbind result_bind].
    set (pre' := (pre ++ [TAG_ARRAY]) ++ len_prefix (zlen items)).
    replace (zlen (pre ++ [TAG_ARRAY]) + 4) with (zlen pre') by (unfold pre'; len_solve).
    rewrite (app_assoc (pre ++ [TAG_ARRAY])) in Hlen |- *. fold pre' in Hlen |- *.
    rewrite to_nat_zlen, decode_items_ok by done.
    cbn [mbind result_bind]. do 2 f_equal. unfold pre'. len_solve.
  - rewrite encode_map in *. tag_step TAG_MAP. rewrite <- (app_assoc (len_prefix _)) in *.
    pose proof (zlen_nonneg post). pose proof (zlen_nonneg es).
    assert (Hall : Forall (fun e => decodes levels e.2) es).
    { apply nest_map in Hn. rewrite Forall_forall in *. auto. }
    rewrite read_u32_prefix by lia. pose proof (zlen_nonneg (enc_entries es)).
    rewrite need_bytes_ok by len_solve. cbn [mbind result_bind].
    set (pre' := (pre ++ [TAG_MAP]) ++ len_prefix (zlen es)).
    replace (zlen (pre ++ [TAG_MAP]) + 4) with (zlen pre') by (unfold pre'; len_solve).
    rewrite (app_assoc (pre ++ [TAG_MAP])) in Hlen |- *. fold pre' in Hlen |- *.
    rewrite to_nat_zlen, decode_entries_ok; try done.
    + cbn [mbind result_bind]. do 2 f_equal. unfold pre'. len_solve.
    + by apply Forall_nil.
  - change (encode_value VNull) with [TAG_NULL] in *. tag_dispatch. done.
Qed.

(** ** Whatever decodes is canonical *)

(** [data] read from [off] to [next] is [chunk]. *)
Definition covers (data : list byte) (off next : Z) (chunk : list byte) : Prop :=
  0 <= off <= next /\ next <= zlen data /\
  take (Z.to_nat next) data = take (Z.to_nat off) data ++ chunk.

Lemma covers_app data a b c l1 l2 :
  covers data a b l1 -> covers data b c l2 -> covers data a c (l1 ++ l2).
Proof.
  intros (? & ? & H1) (? & ? & H2). split; [lia|]. split; [done|].
  by rewrite H2, H1, <- app_assoc.
Qed.

Lemma covers_nil data a : 0 <= a <= zlen data -> covers data a a [].
Proof. intros. split; [lia|]. split; [lia|]. by rewrite app_nil_r. Qed.

Lemma covers_lookup data off b :
  0 <= off -> data !! Z.to_nat off = Some b -> covers data off (off + 1) [b].
Proof.
  intros Hoff Hb. apply lookup_lt_Some in Hb as Hlt. unfold covers, zlen.
  split_and!; [lia|lia|lia|]. rewrite Z2Nat.inj_add, Nat.add_1_r by lia. by apply take_S_r.
Qed.

Lemma covers_slice data off n :
  0 <= off -> 0 <= n -> need_bytes data off n = Ok tt ->
  covers data off (off + n) (slice data off n) /\ zlen (slice data off n) = n.
Proof.
  intros Hoff Hn Hneed%need_bytes_Ok. split; [|by apply zlen_slice].
  split_and!; [lia|lia|lia|]. by apply slice_split.
Qed.

Lemma covers_u32 data off :
  0 <= off -> need_bytes data off 4 = Ok tt ->
  covers data off (off + 4) (len_prefix (read_u32 data off)) /\
  0 <= read_u32 data off <= u32_max.
Proof.
  intros Hoff Hneed. destruct (covers_slice data off 4) as [Hc Hl]; [done|lia|done|].
  pose proof (be_value_range (slice data off 4)) as Hr. unfold read_u32 in *.
  assert (Hlen : length (slice data off 4) = 4%nat) by (unfold zlen in Hl; lia).
  rewrite Hlen in Hr. change (256 ^ Z.of_nat 4) with (2 ^ 32) in Hr.
  split; [|mlia]. unfold len_prefix, u32_sat.
  destruct (Z.leb_spec (be_value (slice data off 4)) u32_max); [|mlia].
  by rewrite be_bytes_value.
Qed.

Lemma covers_u64 data off :
  0 <= off -> need_bytes data off 8 = Ok tt ->
  covers data off (off + 8) (be_bytes 8 (be_value (slice data off 8))) /\
  0 <= be_value (slice data off 8) < 2 ^ 64.
Proof.
  intros Hoff Hneed. destruct (covers_slice data off 8) as [Hc Hl]; [done|lia|done|].
  pose proof (be_value_range (slice data off 8)) as Hr.
  assert (Hlen : length (slice data off 8) = 8%nat) by (unfold zlen in Hl; lia).
  rewrite Hlen in Hr. split; [|done]. by rewrite be_bytes_value.
Qed.

Lemma covers_chunk data off :
  0 <= off -> need_bytes data off 4 = Ok tt ->
  need_bytes data (off + 4) (read_u32 data off) = Ok tt ->
  let v := slice data (off + 4) (read_u32 data off) in
  covers data off (off + 4 + read_u32 data off) (len_prefix (zlen v) ++ v) /\ zlen v <= u32_max.
Proof.
  intros Hoff H4 Hn. destruct (covers_u32 data off Hoff H4) as [Hc Hr].
  destruct (covers_slice data (off + 4) (read_u32 data off)) as [Hc' Hl]; [lia|lia|done|].
  cbv zeta. rewrite Hl. split; [|lia]. by eapply covers_app.
Qed.

(** What a successful [decode_at] says about the value and the buffer. *)
Definition decoded (levels : nat) (data : list byte) (off : Z) (v : CanonicalValue) (next : Z) : Prop :=
  value_wf v /\ (nest v <= levels)%nat /\ covers data off next (encode_value v).

Lemma decode_items_sound levels data (dec : Z -> result SerdeError (CanonicalValue * Z)) n cur acc items next :
  (forall off v nx, 0 <= off -> dec off = Ok (v, nx) -> decoded levels data off v nx) ->
  0 <= cur <= zlen data ->
  decode_items dec n cur acc = Ok (items, next) ->
  exists new, items = acc ++ new /\ length new = n /\
    Forall value_wf new /\ Forall (fun i => (nest i <= levels)%nat) new /\
    covers data cur next (enc_items new).
Proof.
  intros Hdec. revert cur acc. induction n as [|n IH]; intros cur acc Hcur Hd; simpl in Hd.
  - injection Hd as <- <-. exists []. rewrite app_nil_r. split_and!; try done.
    by apply covers_nil.
  - apply bind_Ok in Hd as ([v nx] & Hv & Hd).
    destruct (Hdec _ _ _ (proj1 Hcur) Hv) as (Hwf & Hn & Hc).
    destruct (IH nx (acc ++ [v])) as (new & -> & Hlen & Hall & Hnest & Hcov);
      [destruct Hc; lia|done|].
    exists (v :: new). rewrite <- app_assoc. split_and!; [done|by simpl; rewrite Hlen|by constructor|by constructor|].
    rewrite enc_items_cons. by eapply covers_app.
Qed.

Lemma decode_key_sound data cur prev k next :
  0 <= cur -> decode_key data cur prev = Ok (k, next) ->
  str_wf k /\ zlen (str_bytes k) <= u32_max /\
  covers data cur next (len_prefix (zlen (str_bytes k)) ++ str_bytes k) /\
  (forall p, prev = Some p -> str_lt p k).
Proof.
  intros Hcur Hd. unfold decode_key in Hd. res_inv.
  destruct (covers_chunk data cur Hcur Ha Ha0) as [Hc Hl].
  apply from_utf8_Some in Ha1 as [Hwf Hb].
  assert (Hres : k = a1 /\ next = cur + 4 + read_u32 data cur /\
                 forall p, prev = Some p -> str_lt p a1).
  { destruct prev as [p|]; [|by injection Hd as <- <-].
    destruct (String.compare a1 p) eqn:E; [done|done|]. injection Hd as <- <-.
    split_and!; [done..|]. intros q [= <-]. by apply str_compare_gt. }
  destruct Hres as (-> & -> & Hp). rewrite Hb. split_and!; try done.
Qed.

(** Everything inserted so far is at most the previous key. *)
Definition upto (prev : option string) (m : list (string * CanonicalValue)) : Prop :=
  match prev with
  | None => m = []
  | Some p => Forall (fun e => str_lt e.1 p \/ e.1 = p) m
  end.

Lemma upto_below prev m k :
  upto prev m -> (forall p, prev = Some p -> str_lt p k) -> Forall (fun e => str_lt e.1 k) m.
Proof.
  destruct prev as [p|]; simpl; [|intros -> _; constructor].
  intros Hm Hp. eapply Forall_impl; [exact Hm|]. intros e [He|He].
  - etransitivity; [exact He|auto].
  - rewrite He. auto.
Qed.

Lemma keys_sorted_snoc m k v :
  keys_sorted m -> Forall (fun e => str_lt e.1 k) m -> keys_sorted (m ++ [(k, v)]).
Proof.
  unfold keys_sorted. rewrite fmap_app. intros Hs Hk.
  apply StronglySorted_app_2; [|done|repeat constructor].
  intros x y Hx Hy. apply list_elem_of_fmap in Hx as (e & -> & He).
  apply list_elem_of_singleton in Hy as ->. rewrite Forall_forall in Hk. auto.
Qed.

Lemma decode_entries_sound levels data (dec : Z -> result SerdeError (CanonicalValue * Z))
    n cur prev m es next :
  (forall off v nx, 0 <= off -> dec off = Ok (v, nx) -> decoded levels data off v nx) ->
  0 <= cur <= zlen data -> upto prev m -> keys_sorted m ->
  decode_entries dec data n cur prev m = Ok (es, next) ->
  exists new, es = m ++ new /\ length new = n /\ keys_sorted es /\
    Forall (fun e => str_wf e.1 /\ zlen (str_bytes e.1) <= u32_max) new /\
    Forall (fun e => value_wf e.2) new /\ Forall (fun e => (nest e.2 <= levels)%nat) new /\
    covers data cur next (enc_entries new).
Proof.
  intros Hdec. revert cur prev m.
  induction n as [|n IH]; intros cur prev m Hcur Hu Hs Hd; simpl in Hd.
  - injection Hd as <- <-. exists []. rewrite app_nil_r. split_and!; try done.
    by apply covers_nil.
  - apply bind_Ok in Hd as ([k kn] & Hk & Hd). apply bind_Ok in Hd as ([v nx] & Hv & Hd).
    destruct (decode_key_sound _ _ _ _ _ (proj1 Hcur) Hk) as (Hkwf & Hkl & Hkc & Hp).
    pose proof Hkc as (? & ? & _).
    destruct (Hdec kn v nx ltac:(lia) Hv) as (Hwf & Hn & Hc). pose proof Hc as (? & ? & _).
    pose proof (upto_below prev m k Hu Hp) as Hbelow.
    rewrite btree_insert_last in Hd by done.
    destruct (IH nx (Some k) (m ++ [(k, v)])) as (new & -> & Hlen & Hes & Hkeys & Hall & Hnest & Hcov).
    + lia.
    + simpl. apply Forall_app. split; [|by apply Forall_singleton; right].
      eapply Forall_impl; [exact Hbelow|]. auto.
    + by apply keys_sorted_snoc.
    + done.
    + exists ((k, v) :: new). rewrite <- app_assoc in *.
      split_and!; [done|by simpl; rewrite Hlen|done|by constructor|by constructor|by constructor|].
      rewrite enc_entries_cons, app_assoc. eapply covers_app; [done|]. by eapply covers_app.
Qed.

Lemma decode_at_sound levels data off v next :
  0 <= off -> decode_at levels data off = Ok (v, next) -> decoded levels data off v next.
Proof.
  revert off v next. induction levels as [|levels IH]; intros off v next Hoff Hd; [done|].
  cbn [decode_at] in Hd. destruct (data !! Z.to_nat off) as [tag|] eqn:Htag; [|done].
  pose proof (covers_lookup data off tag Hoff Htag) as Ht. cbv zeta in Hd.
  assert (Hpos : 0 <= off + 1) by lia. pose proof Ht as (_ & Hle & _).
  unfold decoded.
  repeat (case_decide; [subst tag|]); res_inv.
  - destruct (covers_u64 data (off + 1) Hpos Ha) as [Hc Hr].
    split_and!; [constructor; mlia|simpl; lia|]. by apply (covers_app _ _ _ _ [TAG_U64] _ Ht).
  - destruct (covers_u64 data (off + 1) Hpos Ha) as [Hc Hr].
    destruct (i64_of_u64_range _ Hr) as [Hi Hm].
    split_and!; [by constructor|simpl; lia|]. apply (covers_app _ _ _ _ [TAG_I64] _ Ht).
    rewrite <- be_bytes_mod. change (256 ^ Z.of_nat 8) with (2 ^ 64). by rewrite Hm.
  - destruct (data !! Z.to_nat (off + 1)) as [b|] eqn:Hb; [|done].
    pose proof (covers_lookup data (off + 1) b Hpos Hb) as Hc.
    repeat (case_decide; [subst b|]); res_inv;
      (split_and!; [apply wf_bool|simpl; lia|by apply (covers_app _ _ _ _ [TAG_BOOL] _ Ht)]).
  - destruct (covers_chunk data (off + 1) Hpos Ha Ha0) as [Hc Hl].
    split_and!; [by constructor|simpl; lia|]. by apply (covers_app _ _ _ _ [TAG_BYTES] _ Ht).
  - destruct (covers_chunk data (off + 1) Hpos Ha Ha0) as [Hc Hl].
    apply from_utf8_Some in Ha1 as [Hwf Hb].
    split_and!; [constructor; by rewrite ?Hb|simpl; lia|].
    apply (covers_app _ _ _ _ [TAG_STRING] _ Ht). by rewrite Hb.
  - destruct (covers_u32 data (off + 1) Hpos Ha) as [Hc Hr]. pose proof Hc as (? & ? & _).
    assert (Hcur : 0 <= off + 1 + 4 <= zlen data) by lia.
    match goal with H : decode_items _ _ _ _ = Ok _ |- _ =>
      destruct (decode_items_sound levels data _ _ _ _ _ _ IH Hcur H)
        as (new & -> & Hlen & Hall & Hnest & Hcov) end.
    assert (Hz : zlen ([] ++ new) = read_u32 data (off + 1)) by (unfold zlen; simpl; lia).
    split_and!; [constructor; [lia|done]|by apply nest_array|].
    rewrite encode_array, Hz. apply (covers_app _ _ _ _ [TAG_ARRAY] _ Ht).
    by eapply covers_app.
  - destruct (covers_u32 data (off + 1) Hpos Ha) as [Hc Hr]. pose proof Hc as (? & ? & _).
    assert (Hcur : 0 <= off + 1 + 4 <= zlen data) by lia.
    match goal with H : decode_entries _ _ _ _ _ _ = Ok _ |- _ => rename H into Hent end.
    assert (Hs0 : keys_sorted []) by constructor.
    destruct (decode_entries_sound levels data _ _ _ None [] _ _ IH Hcur eq_refl Hs0 Hent)
      as (new & -> & Hlen & Hs & Hk & Hall & Hnest & Hcov).
    assert (Hz : zlen ([] ++ new) = read_u32 data (off + 1)) by (unfold zlen; simpl; lia).
    split_and!; [constructor; [lia|done..]|by apply nest_map|].
    rewrite encode_map, Hz. apply (covers_app _ _ _ _ [TAG_MAP] _ Ht).
    by eapply covers_app.
  - split_and!; [constructor|simpl; lia|done].
Qed.

(** ** The properties *)

Lemma check_consumed_Ok data r v :
  check_consumed data r = Ok v <-> exists c, r = Ok (v, c) /\ zlen data <= c.
Proof.
  unfold check_consumed. destruct r as [[v' c]|e]; cbn [mbind result_bind].
  - destruct (Z.ltb_spec c (zlen data)); split.
    + done.
    + intros (c' & [= -> ->] & ?). lia.
    + intros [= ->]. eauto.
    + by intros (c' & [= -> ->] & ?).
  - split; [done|]. by intros (c' & ? & ?).
Qed.

Lemma decode_at_prefix prefix v :
  value_wf v -> (nest v <= depth_levels)%nat -> zlen (prefix ++ encode_value v) <= usize_max ->
  check_consumed (prefix ++ encode_value v)
    (decode_at depth_levels (prefix ++ encode_value v) (zlen prefix)) = Ok v.
Proof.
  intros Hwf Hn Hlen. apply check_consumed_Ok.
  exists (zlen prefix + zlen (encode_value v)). split; [|rewrite zlen_app; lia].
  pose proof (decode_at_complete v depth_levels Hwf Hn prefix []) as Hd.
  rewrite app_nil_r in Hd. by apply Hd.
Qed.

(** C39. Decoding inverts encoding: every canonical value whose integers, lengths and
    strings are within the format's bounds, whose maps are sorted by key and which is
    nested no deeper than the decoder's recursion limit decodes from its encoding to
    itself. *)
Theorem serde_decode_encode v :
  value_wf v -> (nest v <= depth_levels)%nat -> zlen (encode_value v) <= usize_max ->
  decode_value (encode_value v) = Ok v.
Proof. apply (decode_at_prefix []). Qed.

Lemma decode_tail_canonical levels data off v :
  0 <= off -> check_consumed data (decode_at levels data off) = Ok v ->
  value_wf v /\ (nest v <= levels)%nat /\ data = take (Z.to_nat off) data ++ encode_value v.
Proof.
  intros Hoff Hd. apply check_consumed_Ok in Hd as (c & Hv & Hlen).
  destruct (decode_at_sound levels data off v c Hoff Hv) as (Hwf & Hn & Hr & Hle & Htake).
  split_and!; [done..|]. rewrite <- Htake, take_ge; [done|]. unfold zlen in *. lia.
Qed.

Lemma decode_value_canonical data v :
  decode_value data = Ok v ->
  value_wf v /\ (nest v <= depth_levels)%nat /\ data = encode_value v.
Proof.
  unfold decode_value. generalize depth_levels as levels. intros levels Hd.
  apply (decode_tail_canonical levels data 0 v (Z.le_refl 0)) in Hd.
  by rewrite take_0 in Hd.
Qed.

(** C40. The encoding is canonical: whatever buffer decode_value accepts is byte for byte
    the encoding of the value it returns, and that value is well formed and within the
    recursion limit. No value has two accepted encodings: unsorted or duplicate keys,
    non-canonical booleans, invalid UTF-8 and trailing bytes are all rejected. *)
Theorem serde_accepted_is_canonical data v :
  decode_value data = Ok v ->
  data = encode_value v /\ value_wf v /\ (nest v <= depth_levels)%nat.
Proof. intros Hd. apply decode_value_canonical in Hd. tauto. Qed.

(** ** Schema-prefixed payloads *)

Lemma serialize_app schema v : serialize_with_schema schema v = schema ++ encode_value v.
Proof. apply encode_into_app. Qed.

Lemma schema_slice (schema : SchemaHash) rest :
  hash_wf schema -> slice (schema ++ rest) 0 32 = schema.
Proof.
  intros Hs. apply (slice_app_middle [] schema rest); [done|]. unfold zlen.
  by rewrite Hs.
Qed.

Lemma decode_payload schema v :
  hash_wf schema -> value_wf v -> (nest v <= depth_levels)%nat ->
  zlen (serialize_with_schema schema v) <= usize_max ->
  check_consumed (serialize_with_schema schema v)
    (decode_at depth_levels (serialize_with_schema schema v) 32) = Ok v.
Proof.
  intros Hs Hwf Hn Hlen. rewrite serialize_app in *.
  replace 32 with (zlen schema) by (unfold zlen; by rewrite Hs). by apply decode_at_prefix.
Qed.

Lemma serialized_long schema v :
  hash_wf schema -> (zlen (serialize_with_schema schema v) <? 32) = false.
Proof.
  intros Hs. rewrite serialize_app, zlen_app. pose proof (zlen_nonneg (encode_value v)).
  apply Z.ltb_ge. unfold zlen at 1. rewrite Hs. lia.
Qed.

(** Schema-prefixed data is accepted under exactly its own schema: deserializing with
    the schema it was serialized with returns the value, and with any other schema reports
    a mismatch naming both hashes. *)
Theorem serde_schema_roundtrip schema expected v :
  hash_wf schema -> hash_wf expected -> value_wf v -> (nest v <= depth_levels)%nat ->
  zlen (serialize_with_schema schema v) <= usize_max ->
  deserialize_with_schema expected (serialize_with_schema schema v) =
    if decide (schema = expected) then Ok v else Err (SchemaMismatch expected schema).
Proof.
  intros Hs He Hwf Hn Hlen. unfold deserialize_with_schema.
  rewrite serialized_long by done. cbv zeta.
  assert (Hsl : slice (serialize_with_schema schema v) 0 32 = schema).
  { rewrite serialize_app. by apply schema_slice. }
  rewrite Hsl. case_decide; [|done]. by apply decode_payload.
Qed.

Lemma lookup_register (r : SchemaRegistry) name version definition hash :
  SchemaReg.lookup (SchemaReg.register r name version definition).1 hash =
  if decide (from_definition definition = hash) then Some (mkSchema name version hash)
  else SchemaReg.lookup r hash.
Proof.
  unfold SchemaReg.lookup, SchemaReg.register. cbv zeta. cbn [fst].
  rewrite (lookup_insert (M:=gmap (list byte)) r). case_decide as Heq; [by rewrite Heq|done].
Qed.

(** A schema registry after a registration: data whose schema is the registered one
    decodes with the registered definition, data of another known schema decodes with that
    schema's definition as before, and data of an unknown schema is rejected naming its
    hash. *)
Theorem serde_registry_checks_schema (r : SchemaRegistry) name version definition schema v :
  hash_wf schema -> value_wf v -> (nest v <= depth_levels)%nat ->
  zlen (serialize_with_schema schema v) <= usize_max ->
  SchemaReg.deserialize_checked (SchemaReg.register r name version definition).1
    (serialize_with_schema schema v) =
  if decide (from_definition definition = schema)
  then Ok (mkSchema name version schema, v)
  else match SchemaReg.lookup r schema with
       | Some def => Ok (def, v)
       | None => Err (UnknownSchema schema)
       end.
Proof.
  intros Hs Hwf Hn Hlen. unfold SchemaReg.deserialize_checked.
  rewrite serialized_long by done. cbv zeta.
  assert (Hsl : slice (serialize_with_schema schema v) 0 32 = schema).
  { rewrite serialize_app. by apply schema_slice. }
  rewrite Hsl.
  rewrite lookup_register, (decode_payload schema v Hs Hwf Hn Hlen).
  case_decide; [done|].
  by destruct (SchemaReg.lookup r schema).
Qed.

(** ** Beyond the bounds of the format *)

Lemma decode_oversized levels v :
  u32_max < zlen v -> zlen v + 5 <= usize_max ->
  let data := encode_value (VBytes v) in
  check_consumed data (decode_at (S levels) data 0) = Err (TrailingBytes (zlen v - u32_max)).
Proof.
  intros Hv Hlen. cbv zeta. unfold check_consumed.
  change (encode_value (VBytes v)) with (TAG_BYTES :: len_prefix (zlen v) ++ v).
  assert (Hpre : len_prefix (zlen v) = len_prefix u32_max).
  { unfold len_prefix, u32_sat. destruct (Z.leb_spec (zlen v) u32_max); [lia|done]. }
  rewrite Hpre. set (data := TAG_BYTES :: len_prefix u32_max ++ v).
  assert (Hz : zlen data = zlen v + 5) by (unfold data; len_solve).
  cbn [decode_at]. change (data !! Z.to_nat 0) with (Some TAG_BYTES). cbv beta iota zeta.
  repeat match goal with |- context [decide (?a = ?b)] =>
    let Ht := fresh in destruct (decide (a = b)) as [Ht|Ht];
    [try discriminate Ht|try (exfalso; apply Ht; reflexivity)]; clear Ht end.
  change (0 + 1) with (zlen [TAG_BYTES]).
  change data with ([TAG_BYTES] ++ len_prefix u32_max ++ v).
  rewrite (read_u32_prefix [TAG_BYTES] u32_max v) by mlia.
  change ([TAG_BYTES] ++ len_prefix u32_max ++ v) with data.
  rewrite !need_bytes_ok by (rewrite ?Hz; change (zlen [TAG_BYTES]) with 1; mlia).
  cbn [mbind result_bind]. change (zlen [TAG_BYTES]) with 1. rewrite Hz.
  destruct (Z.ltb_spec (1 + 4 + u32_max) (zlen v + 5)); [|mlia].
  assert (Hd : zlen v + 5 - (1 + 4 + u32_max) = zlen v - u32_max) by lia. by rewrite Hd.
Qed.

(** A byte string longer than u32::MAX is encoded with a saturated length prefix, so
    that decoding its own encoding fails with the number of trailing bytes the prefix does
    not account for. *)
Theorem serde_oversized_rejected v :
  u32_max < zlen v -> zlen v + 5 <= usize_max ->
  decode_value (encode_value (VBytes v)) = Err (TrailingBytes (zlen v - u32_max)).
Proof. apply (decode_oversized 128). Qed.

(** ** Values to evaluate on *)

Definition sample_value : CanonicalValue :=
  VMap [("a", VArray [VU64 7; VI64 (-1); VNull]); ("b", VString "ok"); ("c", VBool true)].

Lemma sample_value_wf : value_wf sample_value.
Proof.
  unfold sample_value. apply wf_map.
  - vm_compute. congruence.
  - repeat (constructor; [|by repeat constructor]). constructor.
  - repeat (apply Forall_cons_2; [split; [vm_compute; reflexivity|vm_compute; congruence]|]).
    apply Forall_nil_2.
  - repeat apply Forall_cons_2; [..|apply Forall_nil_2]; cbn [snd].
    + apply wf_array; [vm_compute; congruence|].
      repeat apply Forall_cons_2; [..|apply Forall_nil_2]; constructor; mlia.
    + apply wf_string; [vm_compute; reflexivity|vm_compute; congruence].
    + constructor.
Defined.

Lemma sample_nest : (nest sample_value <= depth_levels)%nat.
Proof. vm_compute. lia. Defined.

Lemma sample_length : zlen (encode_value sample_value) <= usize_max.
Proof. vm_compute. congruence. Defined.

Lemma serde_decode_encode_witness : decode_value (encode_value sample_value) = Ok sample_value.
Proof. apply (serde_decode_encode _ sample_value_wf sample_nest sample_length). Defined.

Lemma serde_accepted_is_canonical_witness : [TAG_NULL] = encode_value VNull.
Proof.
  destruct (serde_accepted_is_canonical [TAG_NULL] VNull ltac:(vm_compute; reflexivity))
    as [H _]. exact H.
Defined.

Definition schema_a : SchemaHash := replicate 32 x41.
Definition schema_b : SchemaHash := from_definition (str_bytes "b").

Lemma schema_a_wf : hash_wf schema_a.
Proof. reflexivity. Defined.

Lemma schema_b_wf : hash_wf schema_b.
Proof. vm_compute. reflexivity. Defined.

Lemma sample_payload_length : zlen (serialize_with_schema schema_a sample_value) <= usize_max.
Proof. vm_compute. congruence. Defined.

Lemma serde_schema_roundtrip_witness :
  deserialize_with_schema schema_b (serialize_with_schema schema_a sample_value) =
    Err (SchemaMismatch schema_b schema_a).
Proof.
  rewrite (serde_schema_roundtrip _ _ _ schema_a_wf schema_b_wf sample_value_wf sample_nest
    sample_payload_length).
  rewrite decide_False; [reflexivity|]. vm_compute. discriminate.
Defined.

Lemma serde_registry_checks_schema_witness :
  SchemaReg.deserialize_checked (SchemaReg.register SchemaReg.new "b" 1 (str_bytes "b")).1
    (serialize_with_schema schema_a sample_value) = Err (UnknownSchema schema_a).
Proof.
  rewrite (serde_registry_checks_schema _ _ _ _ _ _ schema_a_wf sample_value_wf sample_nest
    sample_payload_length).
  rewrite decide_False; [vm_compute; reflexivity|]. vm_compute. discriminate.
Defined.

(** One byte more than a [u32] length can say. *)
Lemma serde_oversized_rejected_witness :
  exists v, zlen v = u32_max + 1 /\
    decode_value (encode_value (VBytes v)) = Err (TrailingBytes (zlen v - u32_max)).
Proof.
  exists (replicate (Z.to_nat (u32_max + 1)) x00).
  assert (Hz : zlen (replicate (Z.to_nat (u32_max + 1)) x00) = u32_max + 1).
  { unfold zlen. rewrite length_replicate, Z2Nat.id; [reflexivity|mlia]. }
  split; [exact Hz|]. apply serde_oversized_rejected; rewrite Hz; mlia.
Defined.
