(* ===== verification/IrContract.v ===== *)
(** * The IR contract (crates/franken-engine/src/ir_contract.rs)

    The execution-ready IR3 (instructions, function table, module) and the IR4
    witness, their canonical values and content hashes, and the verification
    helpers with the event-emitting [IrVerifier].  IR0 to IR2 (the parser's and
    the lowering passes' artifacts) are not part of this file. *)
From S2P Require Import Prelude Bytes HashTiers DetSerde.
From stdpp Require Import base numbers list strings pretty.
From Stdlib Require Import Strings.Byte.
Open Scope Z_scope.

(** [BTreeMap::new()] followed by one [map.insert(key, value)] per pair, in
    the order of the source. *)
Definition map_of (l : list (string * CanonicalValue)) : CanonicalValue :=
  VMap (fold_left (fun m e => btree_insert e.1 e.2 m) l []).

(** ** The common header *)

Record IrSchemaVersion := mkVersion { major : Z; minor : Z; patch : Z }.

Definition IrSchemaVersion_CURRENT : IrSchemaVersion := mkVersion 0 1 0.

Definition IrSchemaVersion_canonical_value (v : IrSchemaVersion) : CanonicalValue :=
  map_of [("major", VU64 (major v)); ("minor", VU64 (minor v)); ("patch", VU64 (patch v))].

Inductive IrLevel := Ir0 | Ir1 | Ir2 | Ir3 | Ir4.

Definition IrLevel_as_str (l : IrLevel) : string :=
  match l with
  | Ir0 => "ir0" | Ir1 => "ir1" | Ir2 => "ir2" | Ir3 => "ir3" | Ir4 => "ir4"
  end.

Record IrHeader := mkHeader {
  schema_version : IrSchemaVersion;
  level : IrLevel;
  source_hash : option ContentHash;
  source_label : string;
}.

Definition hash_value (o : option ContentHash) : CanonicalValue :=
  match o with Some hash => VBytes hash | None => VNull end.

Definition IrHeader_canonical_value (h : IrHeader) : CanonicalValue :=
  map_of
    [("level", VString (IrLevel_as_str (level h)));
     ("schema_version", IrSchemaVersion_canonical_value (schema_version h));
     ("source_hash", hash_value (source_hash h));
     ("source_label", VString (source_label h))].

(** ** IR3 *)

Module IteratorCloseReason.
Inductive t := Break | Return | Throw.

Definition as_str (r : t) : string :=
  match r with Break => "break" | Return => "return" | Throw => "throw" end.
End IteratorCloseReason.

(** [CapabilityTag(pub String)] *)
Record CapabilityTag := mkCap { cap_name : string }.

Definition CapabilityTag_canonical_value (c : CapabilityTag) : CanonicalValue :=
  VString (cap_name c).

(** Registers and instruction indices are [u32]. *)
Record RegRange := mkRange { start : Z; count : Z }.

Definition RegRange_canonical_value (r : RegRange) : CanonicalValue :=
  map_of [("count", VU64 (count r)); ("start", VU64 (start r))].

Module Ir3Instruction.
Inductive t :=
  | LoadInt (dst value : Z)
  | LoadStr (dst pool_index : Z)
  | LoadBool (dst : Z) (value : bool)
  | LoadNull (dst : Z)
  | LoadUndefined (dst : Z)
  | Add (dst lhs rhs : Z)
  | Sub (dst lhs rhs : Z)
  | Mul (dst lhs rhs : Z)
  | Div (dst lhs rhs : Z)
  | Mod (dst lhs rhs : Z)
  | Exp (dst lhs rhs : Z)
  | UnaryNeg (dst src : Z)
  | UnaryPlus (dst src : Z)
  | LogicalNot (dst src : Z)
  | BitNot (dst src : Z)
  | TypeOf (dst src : Z)
  | Void (dst src : Z)
  | Lt (dst lhs rhs : Z)
  | Lte (dst lhs rhs : Z)
  | Gt (dst lhs rhs : Z)
  | Gte (dst lhs rhs : Z)
  | Eq (dst lhs rhs : Z)
  | StrictEq (dst lhs rhs : Z)
  | NotEq (dst lhs rhs : Z)
  | StrictNotEq (dst lhs rhs : Z)
  | BitAnd (dst lhs rhs : Z)
  | BitOr (dst lhs rhs : Z)
  | BitXor (dst lhs rhs : Z)
  | Shl (dst lhs rhs : Z)
  | Shr (dst lhs rhs : Z)
  | Ushr (dst lhs rhs : Z)
  | InstanceOf (dst lhs rhs : Z)
  | InOp (dst lhs rhs : Z)
  | Construct (callee : Z) (args : RegRange) (dst : Z)
  | ForInInit (src dst : Z)
  | ForInNext (iterator value_dst done_target : Z)
  | ForOfInit (src dst : Z)
  | ForOfNext (iterator value_dst done_target : Z)
  | IteratorClose (iterator : Z) (reason : IteratorCloseReason.t)
  | Move (dst src : Z)
  | Jump (target : Z)
  | JumpIf (cond target : Z)
  | JumpIfNullish (cond target : Z)
  | Call (callee : Z) (args : RegRange) (dst : Z)
  | Return (value : Z)
  | HostCall (capability : CapabilityTag) (args : RegRange) (dst : Z)
  | GetProperty (obj key dst : Z)
  | SetProperty (obj key val : Z)
  | DeleteProperty (obj key dst : Z)
  | NewObject (dst : Z)
  | NewArray (dst : Z)
  | TemplateLiteral (parts : RegRange) (dst : Z)
  | Halt
  | BeginTry (catch_target : Z) (finally_target : option Z)
  | EndTry
  | Throw (value : Z)
  | EnterCatch (dst : Z)
  | EnterFinally
  | EndFinally.

(** The entries each instruction inserts, in the order of the match of
    [canonical_value]; the match is cut into three groups of arms. *)
Definition operator_entries (i : t) : list (string * CanonicalValue) :=
  match i with
  | Mod dst lhs rhs =>
      [("op", VString "mod"); ("dst", VU64 dst); ("lhs", VU64 lhs); ("rhs", VU64 rhs)]
  | Exp dst lhs rhs =>
      [("op", VString "exp"); ("dst", VU64 dst); ("lhs", VU64 lhs); ("rhs", VU64 rhs)]
  | UnaryNeg dst src =>
      [("op", VString "unary_neg"); ("dst", VU64 dst); ("src", VU64 src)]
  | UnaryPlus dst src =>
      [("op", VString "unary_plus"); ("dst", VU64 dst); ("src", VU64 src)]
  | LogicalNot dst src =>
      [("op", VString "logical_not"); ("dst", VU64 dst); ("src", VU64 src)]
  | BitNot dst src =>
      [("op", VString "bit_not"); ("dst", VU64 dst); ("src", VU64 src)]
  | TypeOf dst src =>
      [("op", VString "typeof"); ("dst", VU64 dst); ("src", VU64 src)]
  | Void dst src =>
      [("op", VString "void"); ("dst", VU64 dst); ("src", VU64 src)]
  | Lt dst lhs rhs =>
      [("op", VString "lt"); ("dst", VU64 dst); ("lhs", VU64 lhs); ("rhs", VU64 rhs)]
  | Lte dst lhs rhs =>
      [("op", VString "lte"); ("dst", VU64 dst); ("lhs", VU64 lhs); ("rhs", VU64 rhs)]
  | Gt dst lhs rhs =>
      [("op", VString "gt"); ("dst", VU64 dst); ("lhs", VU64 lhs); ("rhs", VU64 rhs)]
  | Gte dst lhs rhs =>
      [("op", VString "gte"); ("dst", VU64 dst); ("lhs", VU64 lhs); ("rhs", VU64 rhs)]
  | Eq dst lhs rhs =>
      [("op", VString "eq"); ("dst", VU64 dst); ("lhs", VU64 lhs); ("rhs", VU64 rhs)]
  | StrictEq dst lhs rhs =>
      [("op", VString "strict_eq"); ("dst", VU64 dst); ("lhs", VU64 lhs); ("rhs", VU64 rhs)]
  | NotEq dst lhs rhs =>
      [("op", VString "not_eq"); ("dst", VU64 dst); ("lhs", VU64 lhs); ("rhs", VU64 rhs)]
  | StrictNotEq dst lhs rhs =>
      [("op", VString "strict_not_eq"); ("dst", VU64 dst); ("lhs", VU64 lhs); ("rhs", VU64 rhs)]
  | BitAnd dst lhs rhs =>
      [("op", VString "bit_and"); ("dst", VU64 dst); ("lhs", VU64 lhs); ("rhs", VU64 rhs)]
  | BitOr dst lhs rhs =>
      [("op", VString "bit_or"); ("dst", VU64 dst); ("lhs", VU64 lhs); ("rhs", VU64 rhs)]
  | BitXor dst lhs rhs =>
      [("op", VString "bit_xor"); ("dst", VU64 dst); ("lhs", VU64 lhs); ("rhs", VU64 rhs)]
  | Shl dst lhs rhs =>
      [("op", VString "shl"); ("dst", VU64 dst); ("lhs", VU64 lhs); ("rhs", VU64 rhs)]
  | Shr dst lhs rhs =>
      [("op", VString "shr"); ("dst", VU64 dst); ("lhs", VU64 lhs); ("rhs", VU64 rhs)]
  | Ushr dst lhs rhs =>
      [("op", VString "ushr"); ("dst", VU64 dst); ("lhs", VU64 lhs); ("rhs", VU64 rhs)]
  | InstanceOf dst lhs rhs =>
      [("op", VString "instance_of"); ("dst", VU64 dst); ("lhs", VU64 lhs); ("rhs", VU64 rhs)]
  | InOp dst lhs rhs =>
      [("op", VString "in_op"); ("dst", VU64 dst); ("lhs", VU64 lhs); ("rhs", VU64 rhs)]
  | Construct callee args dst =>
      [("op", VString "construct"); ("callee", VU64 callee);
       ("args", RegRange_canonical_value args);
       ("dst", VU64 dst)]
  | _ => []
  end.

Definition object_entries (i : t) : list (string * CanonicalValue) :=
  match i with
  | GetProperty obj key dst =>
      [("op", VString "get_property"); ("dst", VU64 dst); ("key", VU64 key); ("obj", VU64 obj)]
  | SetProperty obj key val =>
      [("op", VString "set_property"); ("key", VU64 key); ("obj", VU64 obj); ("val", VU64 val)]
  | DeleteProperty obj key dst =>
      [("op", VString "delete_property"); ("dst", VU64 dst); ("key", VU64 key); ("obj", VU64 obj)]
  | NewObject dst =>
      [("op", VString "new_object"); ("dst", VU64 dst)]
  | NewArray dst =>
      [("op", VString "new_array"); ("dst", VU64 dst)]
  | TemplateLiteral parts dst =>
      [("op", VString "template_literal"); ("parts", RegRange_canonical_value parts);
       ("dst", VU64 dst)]
  | Halt =>
      [("op", VString "halt")]
  | BeginTry catch_target finally_target =>
      [("op", VString "begin_try"); ("catch_target", VU64 catch_target)] ++
      match finally_target with Some ft => [("finally_target", VU64 ft)] | None => [] end
  | EndTry =>
      [("op", VString "end_try")]
  | Throw value =>
      [("op", VString "throw"); ("value", VU64 value)]
  | EnterCatch dst =>
      [("op", VString "enter_catch"); ("dst", VU64 dst)]
  | EnterFinally =>
      [("op", VString "enter_finally")]
  | EndFinally =>
      [("op", VString "end_finally")]
  | _ => operator_entries i
  end.

Definition entries (i : t) : list (string * CanonicalValue) :=
  match i with
| LoadInt dst value =>
      [("op", VString "load_int"); ("dst", VU64 dst); ("value", VI64 value)]
  | LoadStr dst pool_index =>
      [("op", VString "load_str"); ("dst", VU64 dst); ("pool_index", VU64 pool_index)]
  | LoadBool dst value =>
      [("op", VString "load_bool"); ("dst", VU64 dst); ("value", VBool value)]
  | LoadNull dst =>
      [("op", VString "load_null"); ("dst", VU64 dst)]
  | LoadUndefined dst =>
      [("op", VString "load_undefined"); ("dst", VU64 dst)]
  | Add dst lhs rhs =>
      [("op", VString "add"); ("dst", VU64 dst); ("lhs", VU64 lhs); ("rhs", VU64 rhs)]
  | Sub dst lhs rhs =>
      [("op", VString "sub"); ("dst", VU64 dst); ("lhs", VU64 lhs); ("rhs", VU64 rhs)]
  | Mul dst lhs rhs =>
      [("op", VString "mul"); ("dst", VU64 dst); ("lhs", VU64 lhs); ("rhs", VU64 rhs)]
  | Div dst lhs rhs =>
      [("op", VString "div"); ("dst", VU64 dst); ("lhs", VU64 lhs); ("rhs", VU64 rhs)]
  | ForInInit src dst =>
      [("op", VString "for_in_init"); ("dst", VU64 dst); ("src", VU64 src)]
  | ForInNext iterator value_dst done_target =>
      [("op", VString "for_in_next"); ("done_target", VU64 done_target);
       ("iterator", VU64 iterator); ("value_dst", VU64 value_dst)]
  | ForOfInit src dst =>
      [("op", VString "for_of_init"); ("dst", VU64 dst); ("src", VU64 src)]
  | ForOfNext iterator value_dst done_target =>
      [("op", VString "for_of_next"); ("done_target", VU64 done_target);
       ("iterator", VU64 iterator); ("value_dst", VU64 value_dst)]
  | IteratorClose iterator reason =>
      [("op", VString "iterator_close"); ("iterator", VU64 iterator);
       ("reason", VString (IteratorCloseReason.as_str reason))]
  | Move dst src =>
      [("op", VString "move"); ("dst", VU64 dst); ("src", VU64 src)]
  | Jump target =>
      [("op", VString "jump"); ("target", VU64 target)]
  | JumpIf cond target =>
      [("op", VString "jump_if"); ("cond", VU64 cond); ("target", VU64 target)]
  | JumpIfNullish cond target =>
      [("op", VString "jump_if_nullish"); ("cond", VU64 cond); ("target", VU64 target)]
  | Call callee args dst =>
      [("op", VString "call");
       ("args", RegRange_canonical_value args); ("callee", VU64 callee);
       ("dst", VU64 dst)]
  | Return value =>
      [("op", VString "return"); ("value", VU64 value)]
  | HostCall capability args dst =>
      [("op", VString "hostcall");
       ("args", RegRange_canonical_value args); ("capability", CapabilityTag_canonical_value capability);
       ("dst", VU64 dst)]
  | _ => object_entries i
  end.

Definition canonical_value (i : t) : CanonicalValue := map_of (entries i).
End Ir3Instruction.

Record Ir3FunctionDesc := mkFunc {
  entry : Z;
  arity : Z;
  frame_size : Z;
  fn_name : option string;
}.

Definition string_value (o : option string) : CanonicalValue :=
  match o with Some name => VString name | None => VNull end.

Definition Ir3FunctionDesc_canonical_value (f : Ir3FunctionDesc) : CanonicalValue :=
  map_of
    [("arity", VU64 (arity f)); ("entry", VU64 (entry f));
     ("frame_size", VU64 (frame_size f)); ("name", string_value (fn_name f))].

Record SpecializationLinkage := mkSpec {
  proof_input_ids : list string;
  optimization_class : string;
  validity_epoch : Z;
  rollback_token : ContentHash;
}.

Definition strings_value (l : list string) : CanonicalValue := VArray (VString <$> l).

Definition SpecializationLinkage_canonical_value (s : SpecializationLinkage) : CanonicalValue :=
  map_of
    [("optimization_class", VString (optimization_class s));
     ("proof_input_ids", strings_value (proof_input_ids s));
     ("rollback_token", VBytes (rollback_token s));
     ("validity_epoch", VU64 (validity_epoch s))].

Definition spec_value (o : option SpecializationLinkage) : CanonicalValue :=
  match o with Some spec => SpecializationLinkage_canonical_value spec | None => VNull end.

Record Ir3Module := mkIr3 {
  header : IrHeader;
  instructions : list Ir3Instruction.t;
  constant_pool : list string;
  function_table : list Ir3FunctionDesc;
  specialization : option SpecializationLinkage;
  required_capabilities : list CapabilityTag;
}.

Module Ir3Mod.
Definition new (source : ContentHash) (label : string) : Ir3Module := {|
  header := mkHeader IrSchemaVersion_CURRENT Ir3 (Some source) label;
  instructions := [];
  constant_pool := [];
  function_table := [];
  specialization := None;
  required_capabilities := [];
|}.

Definition canonical_value (m : Ir3Module) : CanonicalValue :=
  map_of
    [("constant_pool", strings_value (constant_pool m));
     ("function_table", VArray (Ir3FunctionDesc_canonical_value <$> function_table m));
     ("header", IrHeader_canonical_value (header m));
     ("instructions", VArray (Ir3Instruction.canonical_value <$> instructions m));
     ("required_capabilities",
       VArray (CapabilityTag_canonical_value <$> required_capabilities m));
     ("specialization", spec_value (specialization m))].

Definition canonical_bytes (m : Ir3Module) : list byte := encode_value (canonical_value m).

Definition content_hash (m : Ir3Module) : ContentHash :=
  ContentHash_compute (canonical_bytes m).
End Ir3Mod.

(** ** IR4 *)

Inductive WitnessEventKind :=
  | HostcallDispatched
  | CapabilityChecked
  | ExceptionRaised
  | GcTriggered
  | ExecutionCompleted
  | FlowLabelChecked
  | DeclassificationRequested.

Definition WitnessEventKind_as_str (k : WitnessEventKind) : string :=
  match k with
  | HostcallDispatched => "hostcall_dispatched"
  | CapabilityChecked => "capability_checked"
  | ExceptionRaised => "exception_raised"
  | GcTriggered => "gc_triggered"
  | ExecutionCompleted => "execution_completed"
  | FlowLabelChecked => "flow_label_checked"
  | DeclassificationRequested => "declassification_requested"
  end.

Record WitnessEvent := mkWitness {
  seq : Z;
  kind : WitnessEventKind;
  instruction_index : Z;
  payload_hash : ContentHash;
  timestamp_tick : Z;
}.

Definition WitnessEvent_canonical_value (e : WitnessEvent) : CanonicalValue :=
  map_of
    [("instruction_index", VU64 (instruction_index e));
     ("kind", VString (WitnessEventKind_as_str (kind e)));
     ("payload_hash", VBytes (payload_hash e));
     ("seq", VU64 (seq e));
     ("timestamp_tick", VU64 (timestamp_tick e))].

Module ExecutionOutcome.
Inductive t := Completed | Exception | Timeout | Halted.

Definition as_str (o : t) : string :=
  match o with
  | Completed => "completed"
  | Exception => "exception"
  | Timeout => "timeout"
  | Halted => "halted"
  end.
End ExecutionOutcome.

Record HostcallDecisionRecord := mkDecision {
  dec_seq : Z;
  dec_capability : CapabilityTag;
  dec_allowed : bool;
  dec_instruction_index : Z;
}.

Definition HostcallDecisionRecord_canonical_value (d : HostcallDecisionRecord) : CanonicalValue :=
  map_of
    [("allowed", VBool (dec_allowed d));
     ("capability", CapabilityTag_canonical_value (dec_capability d));
     ("instruction_index", VU64 (dec_instruction_index d));
     ("seq", VU64 (dec_seq d))].

Record Ir4Module := mkIr4 {
  w_header : IrHeader;
  executed_ir3_hash : ContentHash;
  outcome : ExecutionOutcome.t;
  w_events : list WitnessEvent;
  w_hostcall_decisions : list HostcallDecisionRecord;
  w_instructions_executed : Z;
  duration_ticks : Z;
  active_specialization_ids : list string;
}.

Module Ir4Mod.
Definition new (ir3_hash : ContentHash) (label : string) : Ir4Module := {|
  w_header := mkHeader IrSchemaVersion_CURRENT Ir4 (Some ir3_hash) label;
  executed_ir3_hash := ir3_hash;
  outcome := ExecutionOutcome.Completed;
  w_events := [];
  w_hostcall_decisions := [];
  w_instructions_executed := 0;
  duration_ticks := 0;
  active_specialization_ids := [];
|}.

Definition canonical_value (w : Ir4Module) : CanonicalValue :=
  map_of
    [("active_specialization_ids", strings_value (active_specialization_ids w));
     ("duration_ticks", VU64 (duration_ticks w));
     ("events", VArray (WitnessEvent_canonical_value <$> w_events w));
     ("executed_ir3_hash", VBytes (executed_ir3_hash w));
     ("header", IrHeader_canonical_value (w_header w));
     ("hostcall_decisions",
       VArray (HostcallDecisionRecord_canonical_value <$> w_hostcall_decisions w));
     ("instructions_executed", VU64 (w_instructions_executed w));
     ("outcome", VString (ExecutionOutcome.as_str (outcome w)))].

Definition canonical_bytes (w : Ir4Module) : list byte := encode_value (canonical_value w).

Definition content_hash (w : Ir4Module) : ContentHash :=
  ContentHash_compute (canonical_bytes w).
End Ir4Mod.

(** ** Verification helpers *)

Inductive IrErrorCode :=
  | SchemaVersionMismatch
  | LevelMismatch
  | SourceHashMismatch
  | HashVerificationFailed
  | MissingCapabilityAnnotation
  | InvalidSpecializationLinkage
  | WitnessIntegrityViolation.

Definition IrErrorCode_as_str (c : IrErrorCode) : string :=
  match c with
  | SchemaVersionMismatch => "IR_SCHEMA_VERSION_MISMATCH"
  | LevelMismatch => "IR_LEVEL_MISMATCH"
  | SourceHashMismatch => "IR_SOURCE_HASH_MISMATCH"
  | HashVerificationFailed => "IR_HASH_VERIFICATION_FAILED"
  | MissingCapabilityAnnotation => "IR_MISSING_CAPABILITY_ANNOTATION"
  | InvalidSpecializationLinkage => "IR_INVALID_SPECIALIZATION_LINKAGE"
  | WitnessIntegrityViolation => "IR_WITNESS_INTEGRITY_VIOLATION"
  end.

Record IrError := mkIrError {
  err_code : IrErrorCode;
  err_message : string;
  err_level : IrLevel;
}.

(** [hex::encode]: two lower-case digits per byte. *)
Definition hex_digit (z : Z) : string :=
  default EmptyString (["0"; "1"; "2"; "3"; "4"; "5"; "6"; "7"; "8"; "9";
    "a"; "b"; "c"; "d"; "e"; "f"] !! Z.to_nat z).

Definition hex_encode (l : list byte) : string :=
  fold_right (fun b s => hex_digit (byteZ b / 16) +:+ hex_digit (byteZ b mod 16) +:+ s)
    EmptyString l.

Definition verify_ir3_specialization (m : Ir3Module) : result IrError unit :=
  match specialization m with
  | Some spec =>
      if bool_decide (proof_input_ids spec = []) then
        Err (mkIrError InvalidSpecializationLinkage
               "specialization linkage has no proof inputs" Ir3)
      else if bool_decide (optimization_class spec = "") then
        Err (mkIrError InvalidSpecializationLinkage
               "specialization linkage has empty optimization_class" Ir3)
      else Ok tt
  | None => Ok tt
  end.

(** [for window in events.windows(2)] *)
Fixpoint check_monotonic (events : list WitnessEvent) : result IrError unit :=
  match events with
  | e0 :: (e1 :: _) as rest =>
      if seq e1 <=? seq e0 then
        Err (mkIrError WitnessIntegrityViolation
          ("IR4 witness events not monotonic: seq " +:+ pretty (seq e0) +:+
           " followed by " +:+ pretty (seq e1)) Ir4)
      else check_monotonic rest
  | _ => Ok tt
  end.

Definition verify_ir4_linkage (w : Ir4Module) (ir3_hash : ContentHash) : result IrError unit :=
  if bool_decide (executed_ir3_hash w <> ir3_hash) then
    Err (mkIrError WitnessIntegrityViolation
      ("IR4 witness references IR3 hash " +:+ hex_encode (executed_ir3_hash w) +:+
       ", but expected " +:+ hex_encode ir3_hash) Ir4)
  else
    match source_hash (w_header w) with
    | Some source =>
        if bool_decide (source = ir3_hash) then check_monotonic (w_events w)
        else Err (mkIrError WitnessIntegrityViolation
          ("IR4 header source_hash mismatch: expected " +:+ hex_encode ir3_hash +:+
           ", got " +:+ hex_encode source) Ir4)
    | None =>
        Err (mkIrError WitnessIntegrityViolation "IR4 witness missing header source_hash" Ir4)
    end.

(** ** The event-emitting verifier *)

Record IrContractEvent := mkIrEvent {
  ev_trace_id : string;
  ev_component : string;
  ev_event : string;
  ev_outcome : string;
  ev_error_code : option string;
  ev_level : IrLevel;
  ev_content_hash : option string;
}.

Definition IrContractEvent_ok (trace_id event : string) (l : IrLevel) (hash : option ContentHash)
    : IrContractEvent :=
  mkIrEvent trace_id "ir_contract" event "ok" None l (hex_encode <$> hash).

Definition IrContractEvent_err (trace_id event : string) (l : IrLevel) (code : IrErrorCode)
    : IrContractEvent :=
  mkIrEvent trace_id "ir_contract" event "error" (Some (IrErrorCode_as_str code)) l None.

(** [IrVerifier { events }] *)
Definition IrVerifier := list IrContractEvent.

Module Verifier.
Definition new : IrVerifier := [].

Definition verify_ir3 (v : IrVerifier) (m : Ir3Module) (trace_id : string)
    : IrVerifier * result IrError unit :=
  match verify_ir3_specialization m with
  | Ok _ =>
      let hash := Ir3Mod.content_hash m in
      (v ++ [IrContractEvent_ok trace_id "ir3_specialization_verified" Ir3 (Some hash)], Ok tt)
  | Err e =>
      (v ++ [IrContractEvent_err trace_id "ir3_specialization_verified" Ir3 (err_code e)], Err e)
  end.

Definition verify_ir4 (v : IrVerifier) (w : Ir4Module) (ir3_hash : ContentHash)
    (trace_id : string) : IrVerifier * result IrError unit :=
  match verify_ir4_linkage w ir3_hash with
  | Ok _ =>
      let hash := Ir4Mod.content_hash w in
      (v ++ [IrContractEvent_ok trace_id "ir4_linkage_verified" Ir4 (Some hash)], Ok tt)
  | Err e =>
      (v ++ [IrContractEvent_err trace_id "ir4_linkage_verified" Ir4 (err_code e)], Err e)
  end.

Definition drain_events (v : IrVerifier) : IrVerifier * list IrContractEvent := ([], v).
End Verifier.
