(* ===== verification/IrContractCorrect.v ===== *)
(** * What the canonical bytes of an IR artifact identify

    Canonical bytes are injective on IR3 modules and on IR4 witnesses whose
    fields are within their machine types, so that two artifacts with the same
    bytes are the same artifact and a content hash identifies an artifact up to
    a collision of the hash function.  The proof reads every canonical value
    back; the readers are proof devices and do not occur in the source. *)
From stdpp Require Import base numbers list strings pretty sorting.
From Stdlib Require Import Strings.Byte.
From S2P Require Import Prelude Bytes HashTiers DetSerde DetSerdeCorrect IrContract.
Open Scope Z_scope.

(** ** Readers *)

Definition get (k : string) (v : CanonicalValue) : option CanonicalValue :=
  match v with
  | VMap es => snd <$> List.find (fun e => bool_decide (e.1 = k)) es
  | _ => None
  end.

Definition as_u64 (v : CanonicalValue) : option Z := match v with VU64 z => Some z | _ => None end.
Definition as_i64 (v : CanonicalValue) : option Z := match v with VI64 z => Some z | _ => None end.
Definition as_bool (v : CanonicalValue) : option bool :=
  match v with VBool b => Some b | _ => None end.
Definition as_str (v : CanonicalValue) : option string :=
  match v with VString s => Some s | _ => None end.
Definition as_bytes (v : CanonicalValue) : option (list byte) :=
  match v with VBytes b => Some b | _ => None end.
Definition as_list {A} (f : CanonicalValue -> option A) (v : CanonicalValue) : option (list A) :=
  match v with VArray l => mapM f l | _ => None end.
Definition as_option {A} (f : CanonicalValue -> option A) (v : CanonicalValue)
    : option (option A) :=
  match v with VNull => Some None | _ => Some <$> f v end.

Definition get_u64 (k : string) (v : CanonicalValue) : option Z := get k v ≫= as_u64.
Definition get_i64 (k : string) (v : CanonicalValue) : option Z := get k v ≫= as_i64.
Definition get_bool (k : string) (v : CanonicalValue) : option bool := get k v ≫= as_bool.
Definition get_str (k : string) (v : CanonicalValue) : option string := get k v ≫= as_str.

Definition get_range (k : string) (v : CanonicalValue) : option RegRange :=
  r ← get k v; s ← get_u64 "start" r; c ← get_u64 "count" r; Some (mkRange s c).
Definition get_cap (v : CanonicalValue) : option CapabilityTag :=
  mkCap <$> get_str "capability" v.

(** Reads a name back by searching the values whose names it may be. *)
Definition of_name {A} (as_name : A -> string) (all : list A) (s : string) : option A :=
  List.find (fun a => bool_decide (as_name a = s)) all.

Definition get_reason (v : CanonicalValue) : option IteratorCloseReason.t :=
  get_str "reason" v ≫= of_name IteratorCloseReason.as_str
    [IteratorCloseReason.Break; IteratorCloseReason.Return; IteratorCloseReason.Throw].

Definition read_instruction (es : CanonicalValue) : option Ir3Instruction.t :=
  let op := default "" (get_str "op" es) in
  if bool_decide (op = "load_int") then
    dst ← get_u64 "dst" es; value ← get_i64 "value" es; Some (Ir3Instruction.LoadInt dst value)
  else if bool_decide (op = "load_str") then
    dst ← get_u64 "dst" es; pool_index ← get_u64 "pool_index" es; Some (Ir3Instruction.LoadStr dst pool_index)
  else if bool_decide (op = "load_bool") then
    dst ← get_u64 "dst" es; value ← get_bool "value" es; Some (Ir3Instruction.LoadBool dst value)
  else if bool_decide (op = "load_null") then
    dst ← get_u64 "dst" es; Some (Ir3Instruction.LoadNull dst)
  else if bool_decide (op = "load_undefined") then
    dst ← get_u64 "dst" es; Some (Ir3Instruction.LoadUndefined dst)
  else if bool_decide (op = "add") then
    dst ← get_u64 "dst" es; lhs ← get_u64 "lhs" es; rhs ← get_u64 "rhs" es; Some (Ir3Instruction.Add dst lhs rhs)
  else if bool_decide (op = "sub") then
    dst ← get_u64 "dst" es; lhs ← get_u64 "lhs" es; rhs ← get_u64 "rhs" es; Some (Ir3Instruction.Sub dst lhs rhs)
  else if bool_decide (op = "mul") then
    dst ← get_u64 "dst" es; lhs ← get_u64 "lhs" es; rhs ← get_u64 "rhs" es; Some (Ir3Instruction.Mul dst lhs rhs)
  else if bool_decide (op = "div") then
    dst ← get_u64 "dst" es; lhs ← get_u64 "lhs" es; rhs ← get_u64 "rhs" es; Some (Ir3Instruction.Div dst lhs rhs)
  else if bool_decide (op = "for_in_init") then
    src ← get_u64 "src" es; dst ← get_u64 "dst" es; Some (Ir3Instruction.ForInInit src dst)
  else if bool_decide (op = "for_in_next") then
    iterator ← get_u64 "iterator" es; value_dst ← get_u64 "value_dst" es;
    done_target ← get_u64 "done_target" es; Some (Ir3Instruction.ForInNext iterator value_dst done_target)
  else if bool_decide (op = "for_of_init") then
    src ← get_u64 "src" es; dst ← get_u64 "dst" es; Some (Ir3Instruction.ForOfInit src dst)
  else if bool_decide (op = "for_of_next") then
    iterator ← get_u64 "iterator" es; value_dst ← get_u64 "value_dst" es;
    done_target ← get_u64 "done_target" es; Some (Ir3Instruction.ForOfNext iterator value_dst done_target)
  else if bool_decide (op = "iterator_close") then
    iterator ← get_u64 "iterator" es; reason ← get_reason es; Some (Ir3Instruction.IteratorClose iterator reason)
  else if bool_decide (op = "move") then
    dst ← get_u64 "dst" es; src ← get_u64 "src" es; Some (Ir3Instruction.Move dst src)
  else if bool_decide (op = "jump") then
    target ← get_u64 "target" es; Some (Ir3Instruction.Jump target)
  else if bool_decide (op = "jump_if") then
    cond ← get_u64 "cond" es; target ← get_u64 "target" es; Some (Ir3Instruction.JumpIf cond target)
  else if bool_decide (op = "jump_if_nullish") then
    cond ← get_u64 "cond" es; target ← get_u64 "target" es; Some (Ir3Instruction.JumpIfNullish cond target)
  else if bool_decide (op = "call") then
    callee ← get_u64 "callee" es; args ← get_range "args" es; dst ← get_u64 "dst" es; Some (Ir3Instruction.Call callee args dst)
  else if bool_decide (op = "return") then
    value ← get_u64 "value" es; Some (Ir3Instruction.Return value)
  else if bool_decide (op = "hostcall") then
    capability ← get_cap es; args ← get_range "args" es;
    dst ← get_u64 "dst" es; Some (Ir3Instruction.HostCall capability args dst)
  else if bool_decide (op = "get_property") then
    obj ← get_u64 "obj" es; key ← get_u64 "key" es; dst ← get_u64 "dst" es; Some (Ir3Instruction.GetProperty obj key dst)
  else if bool_decide (op = "set_property") then
    obj ← get_u64 "obj" es; key ← get_u64 "key" es; val ← get_u64 "val" es; Some (Ir3Instruction.SetProperty obj key val)
  else if bool_decide (op = "delete_property") then
    obj ← get_u64 "obj" es; key ← get_u64 "key" es; dst ← get_u64 "dst" es; Some (Ir3Instruction.DeleteProperty obj key dst)
  else if bool_decide (op = "new_object") then
    dst ← get_u64 "dst" es; Some (Ir3Instruction.NewObject dst)
  else if bool_decide (op = "new_array") then
    dst ← get_u64 "dst" es; Some (Ir3Instruction.NewArray dst)
  else if bool_decide (op = "template_literal") then
    parts ← get_range "parts" es; dst ← get_u64 "dst" es; Some (Ir3Instruction.TemplateLiteral parts dst)
  else if bool_decide (op = "halt") then Some Ir3Instruction.Halt
  else if bool_decide (op = "begin_try") then
    catch_target ← get_u64 "catch_target" es;
    Some (Ir3Instruction.BeginTry catch_target (get_u64 "finally_target" es))
  else if bool_decide (op = "end_try") then Some Ir3Instruction.EndTry
  else if bool_decide (op = "throw") then
    value ← get_u64 "value" es; Some (Ir3Instruction.Throw value)
  else if bool_decide (op = "enter_catch") then
    dst ← get_u64 "dst" es; Some (Ir3Instruction.EnterCatch dst)
  else if bool_decide (op = "enter_finally") then Some Ir3Instruction.EnterFinally
  else if bool_decide (op = "end_finally") then Some Ir3Instruction.EndFinally
  else if bool_decide (op = "mod") then
    dst ← get_u64 "dst" es; lhs ← get_u64 "lhs" es; rhs ← get_u64 "rhs" es; Some (Ir3Instruction.Mod dst lhs rhs)
  else if bool_decide (op = "exp") then
    dst ← get_u64 "dst" es; lhs ← get_u64 "lhs" es; rhs ← get_u64 "rhs" es; Some (Ir3Instruction.Exp dst lhs rhs)
  else if bool_decide (op = "unary_neg") then
    dst ← get_u64 "dst" es; src ← get_u64 "src" es; Some (Ir3Instruction.UnaryNeg dst src)
  else if bool_decide (op = "unary_plus") then
    dst ← get_u64 "dst" es; src ← get_u64 "src" es; Some (Ir3Instruction.UnaryPlus dst src)
  else if bool_decide (op = "logical_not") then
    dst ← get_u64 "dst" es; src ← get_u64 "src" es; Some (Ir3Instruction.LogicalNot dst src)
  else if bool_decide (op = "bit_not") then
    dst ← get_u64 "dst" es; src ← get_u64 "src" es; Some (Ir3Instruction.BitNot dst src)
  else if bool_decide (op = "typeof") then
    dst ← get_u64 "dst" es; src ← get_u64 "src" es; Some (Ir3Instruction.TypeOf dst src)
  else if bool_decide (op = "void") then
    dst ← get_u64 "dst" es; src ← get_u64 "src" es; Some (Ir3Instruction.Void dst src)
  else if bool_decide (op = "lt") then
    dst ← get_u64 "dst" es; lhs ← get_u64 "lhs" es; rhs ← get_u64 "rhs" es; Some (Ir3Instruction.Lt dst lhs rhs)
  else if bool_decide (op = "lte") then
    dst ← get_u64 "dst" es; lhs ← get_u64 "lhs" es; rhs ← get_u64 "rhs" es; Some (Ir3Instruction.Lte dst lhs rhs)
  else if bool_decide (op = "gt") then
    dst ← get_u64 "dst" es; lhs ← get_u64 "lhs" es; rhs ← get_u64 "rhs" es; Some (Ir3Instruction.Gt dst lhs rhs)
  else if bool_decide (op = "gte") then
    dst ← get_u64 "dst" es; lhs ← get_u64 "lhs" es; rhs ← get_u64 "rhs" es; Some (Ir3Instruction.Gte dst lhs rhs)
  else if bool_decide (op = "eq") then
    dst ← get_u64 "dst" es; lhs ← get_u64 "lhs" es; rhs ← get_u64 "rhs" es; Some (Ir3Instruction.Eq dst lhs rhs)
  else if bool_decide (op = "strict_eq") then
    dst ← get_u64 "dst" es; lhs ← get_u64 "lhs" es; rhs ← get_u64 "rhs" es; Some (Ir3Instruction.StrictEq dst lhs rhs)
  else if bool_decide (op = "not_eq") then
    dst ← get_u64 "dst" es; lhs ← get_u64 "lhs" es; rhs ← get_u64 "rhs" es; Some (Ir3Instruction.NotEq dst lhs rhs)
  else if bool_decide (op = "strict_not_eq") then
    dst ← get_u64 "dst" es; lhs ← get_u64 "lhs" es; rhs ← get_u64 "rhs" es; Some (Ir3Instruction.StrictNotEq dst lhs rhs)
  else if bool_decide (op = "bit_and") then
    dst ← get_u64 "dst" es; lhs ← get_u64 "lhs" es; rhs ← get_u64 "rhs" es; Some (Ir3Instruction.BitAnd dst lhs rhs)
  else if bool_decide (op = "bit_or") then
    dst ← get_u64 "dst" es; lhs ← get_u64 "lhs" es; rhs ← get_u64 "rhs" es; Some (Ir3Instruction.BitOr dst lhs rhs)
  else if bool_decide (op = "bit_xor") then
    dst ← get_u64 "dst" es; lhs ← get_u64 "lhs" es; rhs ← get_u64 "rhs" es; Some (Ir3Instruction.BitXor dst lhs rhs)
  else if bool_decide (op = "shl") then
    dst ← get_u64 "dst" es; lhs ← get_u64 "lhs" es; rhs ← get_u64 "rhs" es; Some (Ir3Instruction.Shl dst lhs rhs)
  else if bool_decide (op = "shr") then
    dst ← get_u64 "dst" es; lhs ← get_u64 "lhs" es; rhs ← get_u64 "rhs" es; Some (Ir3Instruction.Shr dst lhs rhs)
  else if bool_decide (op = "ushr") then
    dst ← get_u64 "dst" es; lhs ← get_u64 "lhs" es; rhs ← get_u64 "rhs" es; Some (Ir3Instruction.Ushr dst lhs rhs)
  else if bool_decide (op = "instance_of") then
    dst ← get_u64 "dst" es; lhs ← get_u64 "lhs" es; rhs ← get_u64 "rhs" es; Some (Ir3Instruction.InstanceOf dst lhs rhs)
  else if bool_decide (op = "in_op") then
    dst ← get_u64 "dst" es; lhs ← get_u64 "lhs" es; rhs ← get_u64 "rhs" es; Some (Ir3Instruction.InOp dst lhs rhs)
  else if bool_decide (op = "construct") then
    callee ← get_u64 "callee" es; args ← get_range "args" es;
    dst ← get_u64 "dst" es; Some (Ir3Instruction.Construct callee args dst)
  else None.

Lemma read_instruction_canonical i :
  read_instruction (Ir3Instruction.canonical_value i) = Some i.
Proof.
  destruct i; repeat match goal with
  | r : RegRange |- _ => destruct r
  | c : CapabilityTag |- _ => destruct c
  | r : IteratorCloseReason.t |- _ => destruct r
  | o : option Z |- _ => destruct o
  end; reflexivity.
Qed.

Definition read_function (v : CanonicalValue) : option Ir3FunctionDesc :=
  e ← get_u64 "entry" v; a ← get_u64 "arity" v; f ← get_u64 "frame_size" v;
  n ← get "name" v ≫= as_option as_str; Some (mkFunc e a f n).

Definition read_version (v : CanonicalValue) : option IrSchemaVersion :=
  a ← get_u64 "major" v; b ← get_u64 "minor" v; c ← get_u64 "patch" v; Some (mkVersion a b c).

Definition read_header (v : CanonicalValue) : option IrHeader :=
  sv ← get "schema_version" v ≫= read_version;
  l ← get_str "level" v ≫= of_name IrLevel_as_str [Ir0; Ir1; Ir2; Ir3; Ir4];
  h ← get "source_hash" v ≫= as_option as_bytes;
  n ← get_str "source_label" v; Some (mkHeader sv l h n).

Definition read_spec (v : CanonicalValue) : option SpecializationLinkage :=
  ids ← get "proof_input_ids" v ≫= as_list as_str;
  c ← get_str "optimization_class" v;
  e ← get_u64 "validity_epoch" v;
  t ← get "rollback_token" v ≫= as_bytes; Some (mkSpec ids c e t).

Definition read_ir3 (v : CanonicalValue) : option Ir3Module :=
  h ← get "header" v ≫= read_header;
  instrs ← get "instructions" v ≫= as_list read_instruction;
  pool ← get "constant_pool" v ≫= as_list as_str;
  fs ← get "function_table" v ≫= as_list read_function;
  sp ← get "specialization" v ≫= as_option read_spec;
  caps ← get "required_capabilities" v ≫= as_list (fun c => mkCap <$> as_str c);
  Some (mkIr3 h instrs pool fs sp caps).

Definition all_kinds : list WitnessEventKind :=
  [HostcallDispatched; CapabilityChecked; ExceptionRaised; GcTriggered; ExecutionCompleted;
   FlowLabelChecked; DeclassificationRequested].

Definition read_event (v : CanonicalValue) : option WitnessEvent :=
  s ← get_u64 "seq" v;
  k ← get_str "kind" v ≫= of_name WitnessEventKind_as_str all_kinds;
  i ← get_u64 "instruction_index" v;
  h ← get "payload_hash" v ≫= as_bytes;
  t ← get_u64 "timestamp_tick" v; Some (mkWitness s k i h t).

Definition read_decision (v : CanonicalValue) : option HostcallDecisionRecord :=
  s ← get_u64 "seq" v; c ← get_cap v; a ← get_bool "allowed" v;
  i ← get_u64 "instruction_index" v; Some (mkDecision s c a i).

Definition read_ir4 (v : CanonicalValue) : option Ir4Module :=
  h ← get "header" v ≫= read_header;
  x ← get "executed_ir3_hash" v ≫= as_bytes;
  o ← get_str "outcome" v ≫= of_name ExecutionOutcome.as_str
    [ExecutionOutcome.Completed; ExecutionOutcome.Exception; ExecutionOutcome.Timeout;
     ExecutionOutcome.Halted];
  es ← get "events" v ≫= as_list read_event;
  ds ← get "hostcall_decisions" v ≫= as_list read_decision;
  n ← get_u64 "instructions_executed" v;
  d ← get_u64 "duration_ticks" v;
  ids ← get "active_specialization_ids" v ≫= as_list as_str;
  Some (mkIr4 h x o es ds n d ids).

Lemma as_list_canonical {A} (read : CanonicalValue -> option A) (canon : A -> CanonicalValue) l :
  (forall x, read (canon x) = Some x) -> as_list read (VArray (canon <$> l)) = Some l.
Proof.
  intros Hr. simpl. induction l as [|x l IH]; [done|]. cbn [fmap list_fmap mapM].
  rewrite Hr. simpl. by rewrite IH.
Qed.

Lemma read_function_canonical f : read_function (Ir3FunctionDesc_canonical_value f) = Some f.
Proof. by destruct f as [? ? ? []]. Qed.

Lemma read_header_canonical h : read_header (IrHeader_canonical_value h) = Some h.
Proof. by destruct h as [[] [] [] ?]. Qed.

Lemma read_spec_canonical s : read_spec (SpecializationLinkage_canonical_value s) = Some s.
Proof.
  destruct s as [ids c e t]. unfold read_spec.
  change (get "proof_input_ids" _) with (Some (strings_value ids)). cbn [mbind option_bind].
  unfold strings_value. by rewrite as_list_canonical.
Qed.

Lemma read_spec_option s : as_option read_spec (spec_value s) = Some s.
Proof.
  destruct s as [s|]; [|done]. cbn [spec_value].
  change (as_option read_spec (SpecializationLinkage_canonical_value s))
    with (Some <$> read_spec (SpecializationLinkage_canonical_value s)).
  by rewrite read_spec_canonical.
Qed.

Lemma read_event_canonical e : read_event (WitnessEvent_canonical_value e) = Some e.
Proof. by destruct e as [? [] ? ? ?]. Qed.

Lemma read_decision_canonical d : read_decision (HostcallDecisionRecord_canonical_value d) = Some d.
Proof. by destruct d as [? [] ? ?]. Qed.

Lemma read_ir3_canonical m : read_ir3 (Ir3Mod.canonical_value m) = Some m.
Proof.
  destruct m as [h instrs pool fs sp caps]. unfold read_ir3.
  change (get "header" _) with (Some (IrHeader_canonical_value h)).
  change (get "instructions" _) with (Some (VArray (Ir3Instruction.canonical_value <$> instrs))).
  change (get "constant_pool" _) with (Some (VArray (VString <$> pool))).
  change (get "function_table" _) with (Some (VArray (Ir3FunctionDesc_canonical_value <$> fs))).
  change (get "specialization" _) with (Some (spec_value sp)).
  change (get "required_capabilities" _)
    with (Some (VArray (CapabilityTag_canonical_value <$> caps))).
  cbn [mbind option_bind].
  rewrite read_header_canonical, read_spec_option, !as_list_canonical;
    auto using read_instruction_canonical, read_function_canonical.
  by intros [].
Qed.

Lemma read_ir4_canonical w : read_ir4 (Ir4Mod.canonical_value w) = Some w.
Proof.
  destruct w as [h x o es ds n d ids]. unfold read_ir4.
  change (get "header" _) with (Some (IrHeader_canonical_value h)).
  change (get "executed_ir3_hash" _) with (Some (VBytes x)).
  change (get_str "outcome" _) with (Some (ExecutionOutcome.as_str o)).
  change (get "events" _) with (Some (VArray (WitnessEvent_canonical_value <$> es))).
  change (get "hostcall_decisions" _)
    with (Some (VArray (HostcallDecisionRecord_canonical_value <$> ds))).
  change (get "active_specialization_ids" _) with (Some (VArray (VString <$> ids))).
  change (get_u64 "instructions_executed" _) with (Some n).
  change (get_u64 "duration_ticks" _) with (Some d).
  cbn [mbind option_bind].
  rewrite read_header_canonical, !as_list_canonical;
    auto using read_event_canonical, read_decision_canonical.
  by destruct o.
Qed.

(** ** Canonical values are within the bounds of the format *)

Definition str_ok (s : string) : Prop := str_wf s /\ zlen (str_bytes s) <= u32_max.

(** A value of the format with at most [n] levels of nesting. *)
Definition val_ok (n : nat) (v : CanonicalValue) : Prop := value_wf v /\ (nest v <= n)%nat.

Definition entry_ok (n : nat) (e : string * CanonicalValue) : Prop := str_ok e.1 /\ val_ok n e.2.

Lemma btree_insert_Forall (P : string * CanonicalValue -> Prop) k v m :
  P (k, v) -> Forall P m -> Forall P (btree_insert k v m).
Proof.
  intros Hk. induction 1 as [|[k' v'] m Hp Hm IH]; simpl; [by constructor|].
  destruct (String.compare k k') eqn:E; [|by repeat constructor|by constructor].
  apply String.compare_eq_iff in E as <-. by constructor.
Qed.

Lemma btree_insert_keys k v m k' :
  k' ∈ (btree_insert k v m).*1 -> k' = k \/ k' ∈ m.*1.
Proof.
  induction m as [|[k0 v0] m IH]; simpl; rewrite ?list_elem_of_singleton; [tauto|].
  destruct (String.compare k k0); simpl; rewrite !elem_of_cons; tauto.
Qed.

Lemma btree_insert_sorted k v m : keys_sorted m -> keys_sorted (btree_insert k v m).
Proof.
  unfold keys_sorted. induction m as [|[k0 v0] m IH]; simpl; [repeat constructor|].
  intros Hs. inversion Hs as [|? ? Hm Hall]; subst.
  destruct (String.compare k k0) eqn:E; simpl.
  - by constructor.
  - constructor; [done|]. constructor; [done|].
    eapply Forall_impl; [exact Hall|]. intros x Hx. by transitivity k0.
  - constructor; [by apply IH|]. rewrite Forall_forall in *. intros x Hx.
    apply btree_insert_keys in Hx as [->|Hx]; [by apply str_compare_gt|by apply Hall].
Qed.

Lemma btree_insert_length k v m : (length (btree_insert k v m) <= S (length m))%nat.
Proof.
  induction m as [|[k0 v0] m IH]; simpl; [lia|]. destruct (String.compare k k0); simpl; lia.
Qed.

Lemma map_of_ok n l :
  zlen l <= u32_max -> Forall (entry_ok n) l -> val_ok (S n) (map_of l).
Proof.
  intros Hlen Hl. unfold map_of.
  assert (Hgen : forall m, keys_sorted m -> Forall (entry_ok n) m ->
    zlen m + zlen l <= u32_max ->
    val_ok (S n) (VMap (fold_left (fun m e => btree_insert e.1 e.2 m) l m))).
  { clear Hlen. induction Hl as [|[k v] l He Hl IH]; intros m Hs Hm Hz; simpl.
    - rewrite zlen_nil in Hz. split.
      + constructor; [lia|done| |]; (eapply Forall_impl; [exact Hm|]); by intros e [? []].
      + apply nest_map. eapply Forall_impl; [exact Hm|]. by intros e [? []].
    - apply IH; [by apply btree_insert_sorted|by apply btree_insert_Forall|].
      pose proof (btree_insert_length k v m). rewrite zlen_cons in Hz. unfold zlen in *. lia. }
  apply Hgen; [constructor|constructor|done].
Qed.

Lemma val_ok_mono n n' v : (n <= n')%nat -> val_ok n v -> val_ok n' v.
Proof. intros ? [? ?]. split; [done|lia]. Qed.

Lemma array_ok {A} n (f : A -> CanonicalValue) (P : A -> Prop) l :
  (forall x, P x -> val_ok n (f x)) -> zlen l <= u32_max -> Forall P l ->
  val_ok (S n) (VArray (f <$> l)).
Proof.
  intros Hf Hlen Hl. split.
  - constructor; [unfold zlen in *; by rewrite length_fmap|].
    apply Forall_fmap. eapply Forall_impl; [exact Hl|]. intros x Hx. by apply Hf.
  - apply nest_array, Forall_fmap. eapply Forall_impl; [exact Hl|]. intros x Hx. by apply Hf.
Qed.

Lemma str_ok_val n s : str_ok s -> val_ok (S n) (VString s).
Proof. intros []. split; [by constructor|simpl; lia]. Qed.

Lemma u32_ok_val n z : is_u32 z -> val_ok (S n) (VU64 z).
Proof. intros. split; [constructor; mlia|simpl; lia]. Qed.

Lemma u64_ok_val n z : is_u64 z -> val_ok (S n) (VU64 z).
Proof. intros. split; [by constructor|simpl; lia]. Qed.

Lemma i64_ok_val n z : is_i64 z -> val_ok (S n) (VI64 z).
Proof. intros. split; [by constructor|simpl; lia]. Qed.

Lemma bool_ok_val n b : val_ok (S n) (VBool b).
Proof. split; [by constructor|simpl; lia]. Qed.

Lemma bytes_ok_val n b : zlen b <= u32_max -> val_ok (S n) (VBytes b).
Proof. intros. split; [by constructor|simpl; lia]. Qed.

Lemma null_ok_val n : val_ok (S n) VNull.
Proof. split; [by constructor|simpl; lia]. Qed.

Create HintDb val_ok.
#[export] Hint Resolve str_ok_val u32_ok_val u64_ok_val i64_ok_val bool_ok_val bytes_ok_val
  null_ok_val : val_ok.

(** A literal name is a short valid string: decided by evaluation. *)
Definition str_okb (s : string) : bool :=
  utf8_valid (str_bytes s) && (zlen (str_bytes s) <=? u32_max).

Lemma str_okb_ok s : str_okb s = true -> str_ok s.
Proof. unfold str_okb, str_ok, str_wf. rewrite andb_true_iff, Z.leb_le. done. Qed.

#[export] Hint Extern 1 (str_ok (String _ _)) =>
  apply str_okb_ok; vm_compute; reflexivity : val_ok.

(** Splits [val_ok _ (map_of l)] into one goal per entry. *)
Ltac map_ok :=
  apply map_of_ok; [vm_compute; congruence|];
  repeat (apply Forall_cons_2; [split; [apply str_okb_ok; vm_compute; reflexivity|cbn [snd IteratorCloseReason.as_str]]|]);
  try apply Forall_nil_2; auto with val_ok.

(** ** Modules within their machine types *)

Definition u32_operands (i : Ir3Instruction.t) : list Z :=
  match i with
  | Ir3Instruction.LoadInt d _ | Ir3Instruction.LoadBool d _ | Ir3Instruction.LoadNull d
  | Ir3Instruction.LoadUndefined d | Ir3Instruction.NewObject d | Ir3Instruction.NewArray d
  | Ir3Instruction.EnterCatch d | Ir3Instruction.Return d | Ir3Instruction.Throw d
  | Ir3Instruction.Jump d | Ir3Instruction.IteratorClose d _ => [d]
  | Ir3Instruction.LoadStr d p | Ir3Instruction.UnaryNeg d p | Ir3Instruction.UnaryPlus d p
  | Ir3Instruction.LogicalNot d p | Ir3Instruction.BitNot d p | Ir3Instruction.TypeOf d p
  | Ir3Instruction.Void d p | Ir3Instruction.ForInInit d p | Ir3Instruction.ForOfInit d p
  | Ir3Instruction.Move d p | Ir3Instruction.JumpIf d p | Ir3Instruction.JumpIfNullish d p =>
      [d; p]
  | Ir3Instruction.Add d l r | Ir3Instruction.Sub d l r | Ir3Instruction.Mul d l r
  | Ir3Instruction.Div d l r | Ir3Instruction.Mod d l r | Ir3Instruction.Exp d l r
  | Ir3Instruction.Lt d l r | Ir3Instruction.Lte d l r | Ir3Instruction.Gt d l r
  | Ir3Instruction.Gte d l r | Ir3Instruction.Eq d l r | Ir3Instruction.StrictEq d l r
  | Ir3Instruction.NotEq d l r | Ir3Instruction.StrictNotEq d l r | Ir3Instruction.BitAnd d l r
  | Ir3Instruction.BitOr d l r | Ir3Instruction.BitXor d l r | Ir3Instruction.Shl d l r
  | Ir3Instruction.Shr d l r | Ir3Instruction.Ushr d l r | Ir3Instruction.InstanceOf d l r
  | Ir3Instruction.InOp d l r | Ir3Instruction.ForInNext d l r | Ir3Instruction.ForOfNext d l r
  | Ir3Instruction.GetProperty d l r | Ir3Instruction.SetProperty d l r
  | Ir3Instruction.DeleteProperty d l r => [d; l; r]
  | Ir3Instruction.Construct c a d | Ir3Instruction.Call c a d => [c; d; start a; count a]
  | Ir3Instruction.HostCall _ a d | Ir3Instruction.TemplateLiteral a d => [d; start a; count a]
  | Ir3Instruction.BeginTry c f => match f with Some f => [c; f] | None => [c] end
  | Ir3Instruction.Halt | Ir3Instruction.EndTry | Ir3Instruction.EnterFinally
  | Ir3Instruction.EndFinally => []
  end.

Definition instr_wf (i : Ir3Instruction.t) : Prop :=
  Forall is_u32 (u32_operands i) /\
  match i with
  | Ir3Instruction.LoadInt _ v => is_i64 v
  | Ir3Instruction.HostCall c _ _ => str_ok (cap_name c)
  | _ => True
  end.

Definition func_wf (f : Ir3FunctionDesc) : Prop :=
  is_u32 (entry f) /\ is_u32 (arity f) /\ is_u32 (frame_size f) /\
  match fn_name f with Some s => str_ok s | None => True end.

Definition opt_hash_wf (o : option ContentHash) : Prop :=
  match o with Some h => hash_wf h | None => True end.

Definition header_wf (h : IrHeader) : Prop :=
  is_u32 (major (schema_version h)) /\ is_u32 (minor (schema_version h)) /\
  is_u32 (patch (schema_version h)) /\ opt_hash_wf (source_hash h) /\ str_ok (source_label h).

Definition list_ok {A} (P : A -> Prop) (l : list A) : Prop := zlen l <= u32_max /\ Forall P l.

Definition spec_wf (s : SpecializationLinkage) : Prop :=
  list_ok str_ok (proof_input_ids s) /\ str_ok (optimization_class s) /\
  is_u64 (validity_epoch s) /\ hash_wf (rollback_token s).

Definition ir3_wf (m : Ir3Module) : Prop :=
  header_wf (header m) /\ list_ok instr_wf (instructions m) /\ list_ok str_ok (constant_pool m) /\
  list_ok func_wf (function_table m) /\
  match specialization m with Some s => spec_wf s | None => True end /\
  list_ok (fun c => str_ok (cap_name c)) (required_capabilities m) /\
  zlen (Ir3Mod.canonical_bytes m) <= usize_max.

Definition event_wf (e : WitnessEvent) : Prop :=
  is_u64 (seq e) /\ is_u32 (instruction_index e) /\ hash_wf (payload_hash e) /\
  is_u64 (timestamp_tick e).

Definition decision_wf (d : HostcallDecisionRecord) : Prop :=
  is_u64 (dec_seq d) /\ str_ok (cap_name (dec_capability d)) /\ is_u32 (dec_instruction_index d).

Definition ir4_wf (w : Ir4Module) : Prop :=
  header_wf (w_header w) /\ hash_wf (executed_ir3_hash w) /\
  list_ok event_wf (w_events w) /\ list_ok decision_wf (w_hostcall_decisions w) /\
  is_u64 (w_instructions_executed w) /\ is_u64 (duration_ticks w) /\
  list_ok str_ok (active_specialization_ids w) /\
  zlen (Ir4Mod.canonical_bytes w) <= usize_max.

Lemma hash_ok_val n h : hash_wf h -> val_ok (S n) (VBytes h).
Proof. intros Hh. apply bytes_ok_val. unfold zlen. rewrite Hh. vm_compute. congruence. Qed.
#[export] Hint Resolve hash_ok_val : val_ok.

Lemma range_ok n r : is_u32 (start r) -> is_u32 (count r) -> val_ok (S (S n)) (RegRange_canonical_value r).
Proof. intros. map_ok. Qed.
#[export] Hint Resolve range_ok : val_ok.

Lemma cap_ok n c : str_ok (cap_name c) -> val_ok (S n) (CapabilityTag_canonical_value c).
Proof. apply str_ok_val. Qed.
#[export] Hint Resolve cap_ok : val_ok.

Lemma instr_ok i : instr_wf i -> val_ok 3 (Ir3Instruction.canonical_value i).
Proof.
  unfold instr_wf, Ir3Instruction.canonical_value.
  destruct i; repeat match goal with o : option Z |- _ => destruct o end;
    cbn [u32_operands]; rewrite ?Forall_cons; intros H; destruct_and?;
    repeat match goal with r : IteratorCloseReason.t |- _ => destruct r end; map_ok.
Qed.

Lemma func_ok f : func_wf f -> val_ok 2 (Ir3FunctionDesc_canonical_value f).
Proof.
  intros (? & ? & ? & ?). unfold Ir3FunctionDesc_canonical_value. map_ok.
  destruct (fn_name f); cbn; auto with val_ok.
Qed.

Lemma header_ok h : header_wf h -> val_ok 3 (IrHeader_canonical_value h).
Proof.
  intros (? & ? & ? & Hh & ?). unfold IrHeader_canonical_value. map_ok.
  - destruct (level h); cbn [IrLevel_as_str]; auto with val_ok.
  - unfold IrSchemaVersion_canonical_value. map_ok.
  - destruct (source_hash h); cbn [hash_value]; auto with val_ok.
Qed.

Lemma strings_ok l : list_ok str_ok l -> val_ok 2 (strings_value l).
Proof. intros [? ?]. apply (array_ok _ _ str_ok); auto with val_ok. Qed.

Lemma spec_ok s : match s with Some s => spec_wf s | None => True end -> val_ok 3 (spec_value s).
Proof.
  destruct s as [[ids c e t]|]; [|auto with val_ok]. intros (? & ? & ? & ?).
  cbn [spec_value]. unfold SpecializationLinkage_canonical_value. map_ok. by apply strings_ok.
Qed.

Lemma event_ok e : event_wf e -> val_ok 2 (WitnessEvent_canonical_value e).
Proof.
  intros (? & ? & ? & ?). unfold WitnessEvent_canonical_value. map_ok.
  destruct (kind e); cbn [WitnessEventKind_as_str]; auto with val_ok.
Qed.

Lemma decision_ok d : decision_wf d -> val_ok 2 (HostcallDecisionRecord_canonical_value d).
Proof. intros (? & ? & ?). unfold HostcallDecisionRecord_canonical_value. map_ok. Qed.

Lemma ir3_ok m : ir3_wf m -> val_ok 5 (Ir3Mod.canonical_value m).
Proof.
  intros (Hh & [Hi1 Hi2] & Hp & [Hf1 Hf2] & Hs & [Hc1 Hc2] & _).
  unfold Ir3Mod.canonical_value. map_ok.
  - eapply val_ok_mono; [|by apply strings_ok]; lia.
  - eapply val_ok_mono; [|by eapply array_ok; [exact func_ok|..]]; lia.
  - eapply val_ok_mono; [|by apply header_ok]; lia.
  - by eapply array_ok; [exact instr_ok|..].
  - eapply val_ok_mono; [|eapply (array_ok 1); [exact (cap_ok 0)|done..]]; lia.
  - eapply val_ok_mono; [|by apply spec_ok]; lia.
Qed.

Lemma ir4_ok w : ir4_wf w -> val_ok 4 (Ir4Mod.canonical_value w).
Proof.
  intros (Hh & Hx & [He1 He2] & [Hd1 Hd2] & Hn & Ht & Ha & _).
  unfold Ir4Mod.canonical_value. map_ok.
  - eapply val_ok_mono; [|by apply strings_ok]; lia.
  - by eapply array_ok; [exact event_ok|..].
  - by apply header_ok.
  - by eapply array_ok; [exact decision_ok|..].
  - destruct (outcome w); cbn [ExecutionOutcome.as_str]; auto with val_ok.
Qed.

(** ** The properties *)

Lemma encode_injective n v1 v2 :
  val_ok n v1 -> val_ok n v2 -> (n <= depth_levels)%nat ->
  zlen (encode_value v1) <= usize_max -> encode_value v1 = encode_value v2 -> v1 = v2.
Proof.
  intros [Hw1 Hn1] [Hw2 Hn2] Hn Hlen Heq.
  pose proof (decode_at_prefix [] v1 Hw1 ltac:(lia) Hlen) as H1.
  rewrite Heq in Hlen. pose proof (decode_at_prefix [] v2 Hw2 ltac:(lia) Hlen) as H2.
  rewrite Heq in H1. cbn [app] in H1, H2. rewrite H1 in H2. by injection H2.
Qed.

(** Two IR3 modules whose fields fit their machine types have the same canonical
    bytes exactly when they are the same module: every field of the header, every
    instruction with its operands, constants, function descriptors, specialization linkage
    and capabilities is determined by the bytes that the content hash is computed over. *)
Theorem ir3_canonical_bytes_injective m1 m2 :
  ir3_wf m1 -> ir3_wf m2 ->
  (Ir3Mod.canonical_bytes m1 = Ir3Mod.canonical_bytes m2 <-> m1 = m2).
Proof.
  intros H1 H2. split; [|by intros ->]. intros Heq.
  assert (Ir3Mod.canonical_value m1 = Ir3Mod.canonical_value m2) as Hv.
  { apply (encode_injective 5); [by apply ir3_ok..|unfold depth_levels; lia| |done].
    unfold ir3_wf, Ir3Mod.canonical_bytes in H1. tauto. }
  pose proof (read_ir3_canonical m1) as Hr. rewrite Hv, read_ir3_canonical in Hr. by injection Hr.
Qed.

(** Two IR4 witnesses whose fields fit their machine types have the same canonical
    bytes exactly when they are the same witness, events and host-call decisions included. *)
Theorem ir4_canonical_bytes_injective w1 w2 :
  ir4_wf w1 -> ir4_wf w2 ->
  (Ir4Mod.canonical_bytes w1 = Ir4Mod.canonical_bytes w2 <-> w1 = w2).
Proof.
  intros H1 H2. split; [|by intros ->]. intros Heq.
  assert (Ir4Mod.canonical_value w1 = Ir4Mod.canonical_value w2) as Hv.
  { apply (encode_injective 4); [by apply ir4_ok..|unfold depth_levels; lia| |done].
    unfold ir4_wf, Ir4Mod.canonical_bytes in H1. tauto. }
  pose proof (read_ir4_canonical w1) as Hr. rewrite Hv, read_ir4_canonical in Hr. by injection Hr.
Qed.

Lemma check_monotonic_Ok events :
  check_monotonic events = Ok tt <-> StronglySorted Z.lt (seq <$> events).
Proof.
  induction events as [|e0 events IH]; [split; [constructor|done]|].
  destruct events as [|e1 events]; [split; [repeat constructor|done]|].
  cbn [check_monotonic fmap list_fmap] in *.
  destruct (Z.leb_spec (seq e1) (seq e0)).
  - split; [done|]. intros Hs. inversion Hs as [|? ? _ Hall]; subst.
    apply Forall_cons in Hall as [? _]. lia.
  - rewrite IH. split.
    + intros Hs. constructor; [done|]. inversion Hs as [|? ? _ Hall]; subst.
      constructor; [done|]. eapply Forall_impl; [exact Hall|]. simpl. lia.
    + intros Hs. by inversion Hs.
Qed.

Lemma verify_ir4_linkage_Ok w ir3_hash :
  verify_ir4_linkage w ir3_hash = Ok tt <->
  executed_ir3_hash w = ir3_hash /\ source_hash (w_header w) = Some ir3_hash /\
  StronglySorted Z.lt (seq <$> w_events w).
Proof.
  rewrite <- check_monotonic_Ok. unfold verify_ir4_linkage.
  case_bool_decide as He; [naive_solver|].
  destruct (source_hash (w_header w)) as [h|]; [|naive_solver].
  case_bool_decide; naive_solver.
Qed.

(** verify_ir4_linkage accepts a witness exactly when it names the given IR3 hash as
    the executed module, its header's source hash is that hash, and the sequence numbers
    of its events are strictly increasing. *)
Theorem ir4_linkage_accepts_iff w ir3_hash :
  verify_ir4_linkage w ir3_hash = Ok tt <->
  executed_ir3_hash w = ir3_hash /\ source_hash (w_header w) = Some ir3_hash /\
  StronglySorted Z.lt (seq <$> w_events w).
Proof. apply verify_ir4_linkage_Ok. Qed.

(** ** Artifacts to evaluate on *)

Definition sample_header (label : string) : IrHeader :=
  mkHeader IrSchemaVersion_CURRENT Ir3 None label.

Definition sample_ir3 (n : Z) : Ir3Module :=
  mkIr3 (sample_header "a.js") [Ir3Instruction.LoadInt 0 n; Ir3Instruction.Return 0] ["x"] []
    None [mkCap "net"].

Lemma sample_header_wf : header_wf (sample_header "a.js").
Proof.
  split_and!; [split; vm_compute; congruence..|exact I|]. apply str_okb_ok. vm_compute. reflexivity.
Defined.

Lemma sample_ir3_wf n :
  is_i64 n -> zlen (Ir3Mod.canonical_bytes (sample_ir3 n)) <= usize_max -> ir3_wf (sample_ir3 n).
Proof.
  intros Hn Hlen. unfold ir3_wf. split_and!; [apply sample_header_wf| | | |exact I| |exact Hlen];
    (split; [vm_compute; congruence|]); cbn [sample_ir3 instructions constant_pool function_table
      required_capabilities]; repeat (apply Forall_cons_2); try apply Forall_nil_2.
  - split; [|exact Hn]. apply Forall_singleton. split; vm_compute; congruence.
  - split; [|exact I]. apply Forall_singleton. split; vm_compute; congruence.
  - apply str_okb_ok. vm_compute. reflexivity.
  - apply str_okb_ok. vm_compute. reflexivity.
Defined.

Lemma sample_ir3_1 : ir3_wf (sample_ir3 1).
Proof. apply sample_ir3_wf; vm_compute; [split|]; congruence. Defined.
Lemma sample_ir3_2 : ir3_wf (sample_ir3 2).
Proof. apply sample_ir3_wf; vm_compute; [split|]; congruence. Defined.

Lemma ir3_canonical_bytes_injective_witness :
  Ir3Mod.canonical_bytes (sample_ir3 1) <> Ir3Mod.canonical_bytes (sample_ir3 2).
Proof.
  intros Heq. apply (ir3_canonical_bytes_injective _ _ sample_ir3_1 sample_ir3_2) in Heq.
  discriminate Heq.
Defined.

Definition sample_ir4 (tick : Z) : Ir4Module :=
  mkIr4 (mkHeader IrSchemaVersion_CURRENT Ir4 (Some (replicate 32 x00)) "a.js") (replicate 32 x00)
    ExecutionOutcome.Halted [mkWitness 0 ExecutionCompleted 3 (replicate 32 x01) tick]
    [] 4 4 [].

Lemma sample_ir4_wf tick :
  is_u64 tick -> zlen (Ir4Mod.canonical_bytes (sample_ir4 tick)) <= usize_max ->
  ir4_wf (sample_ir4 tick).
Proof.
  intros Ht Hlen. unfold ir4_wf. split_and!; [|reflexivity| | |split; vm_compute; congruence
    |split; vm_compute; congruence| |exact Hlen].
  - split_and!; [split; vm_compute; congruence..|reflexivity|].
    apply str_okb_ok. vm_compute. reflexivity.
  - split; [vm_compute; congruence|]. apply Forall_singleton.
    split_and!; [split; vm_compute; congruence..|reflexivity|exact Ht].
  - split; [vm_compute; congruence|apply Forall_nil_2].
  - split; [vm_compute; congruence|apply Forall_nil_2].
Defined.

Lemma sample_ir4_1 : ir4_wf (sample_ir4 1).
Proof. apply sample_ir4_wf; vm_compute; [split|]; congruence. Defined.
Lemma sample_ir4_2 : ir4_wf (sample_ir4 2).
Proof. apply sample_ir4_wf; vm_compute; [split|]; congruence. Defined.

Lemma ir4_canonical_bytes_injective_witness :
  Ir4Mod.canonical_bytes (sample_ir4 1) <> Ir4Mod.canonical_bytes (sample_ir4 2).
Proof.
  intros Heq. apply (ir4_canonical_bytes_injective _ _ sample_ir4_1 sample_ir4_2) in Heq.
  discriminate Heq.
Defined.
