(* ===== verification/InterpCore.v ===== *)
(** * The interpreter core: values, state and evaluation helpers
    (crates/franken-engine/src/baseline_interpreter.rs)

    The runtime values, the interpreter's error type and configuration, the
    whole state of [InterpreterCore], and the helpers its instruction loop is
    made of: register access, heap and iterator operations, coercions,
    arithmetic, comparison and prototype-chain walks.

    Helpers that take [&self] are functions from the state to a [result];
    helpers that take [&mut self] are computations of the monad [M], which keep
    the changes made before an error, as the source does.  The stacks of the
    source ([call_stack], [catch_frames], [suspended_abrupt_completions] and
    [finally_modes]) are lists with their top first. *)
From stdpp Require Import base numbers list strings pretty gmap sorting.
From Stdlib Require Import Strings.Byte.
From S2P Require Import Prelude Bytes Text HashTiers DetSerde IrContract.
Open Scope Z_scope.

(** ** Constants *)

Definition COMPONENT : string := "baseline_interpreter".
Definition DEFAULT_QUICKJS_BUDGET : Z := 100000.
Definition DEFAULT_V8_BUDGET : Z := 1000000.
Definition DEFAULT_QUICKJS_MAX_REGISTERS : Z := 256.
Definition DEFAULT_V8_MAX_REGISTERS : Z := 4096.
Definition MAX_CALL_DEPTH : Z := 256.
Definition MAX_PROTOTYPE_CHAIN_DEPTH : nat := 64.

(** ** Values *)

(** [ObjectId(pub u32)] *)
Definition ObjectId := Z.

Inductive Value :=
  | JUndefined
  | JNull
  | JBool (b : bool)
  | JInt (n : Z)
  | JStr (s : string)
  | JObject (id : ObjectId)
  | JFunction (idx : Z)
  | JIterator (idx : Z).

#[export] Instance Value_eq_dec : EqDecision Value.
Proof. solve_decision. Defined.

Definition is_truthy (v : Value) : bool :=
  match v with
  | JUndefined | JNull => false
  | JBool b => b
  | JInt n => negb (n =? 0)
  | JStr s => negb (bool_decide (s = ""))
  | JObject _ | JFunction _ | JIterator _ => true
  end.

Definition is_nullish (v : Value) : bool :=
  match v with JUndefined | JNull => true | _ => false end.

Definition type_name (v : Value) : string :=
  match v with
  | JUndefined => "undefined"
  | JNull => "null"
  | JBool _ => "boolean"
  | JInt _ => "number"
  | JStr _ => "string"
  | JObject _ => "object"
  | JFunction _ => "function"
  | JIterator _ => "iterator"
  end.

Definition typeof_name (v : Value) : string :=
  match v with
  | JUndefined => "undefined"
  | JNull | JObject _ => "object"
  | JBool _ => "boolean"
  | JInt _ => "number"
  | JStr _ => "string"
  | JFunction _ => "function"
  | JIterator _ => "object"
  end.

(** [impl Display for Value] *)
Definition Value_to_string (v : Value) : string :=
  match v with
  | JUndefined => "undefined"
  | JNull => "null"
  | JBool b => bool_to_string b
  | JInt n => int_to_string n
  | JStr s => s
  | JObject id => "[object#" +:+ int_to_string id +:+ "]"
  | JFunction idx => "[function#" +:+ int_to_string idx +:+ "]"
  | JIterator idx => "[iterator#" +:+ int_to_string idx +:+ "]"
  end.

Record HeapObject := mkObj {
  properties : gmap string Value;
  prototype : option ObjectId;
  constructor_function : option Z;
}.

#[export] Instance HeapObject_eq_dec : EqDecision HeapObject.
Proof. solve_decision. Defined.

Definition HeapObject_new : HeapObject := mkObj ∅ None None.

Record RuntimeForInState := mkForIn {
  fi_object_id : ObjectId;
  fi_keys : list string;
  fi_next_index : nat;
  fi_deleted_keys : gset string;
  fi_done : bool;
  fi_closed : bool;
}.

Record RuntimeForOfState := mkForOf {
  fo_values : list Value;
  fo_next_index : nat;
  fo_done : bool;
  fo_closed : bool;
}.

Inductive RuntimeIteratorState :=
  | ForIn (st : RuntimeForInState)
  | ForOf (st : RuntimeForOfState).

(** ** Frames *)

Record CatchFrame := mkCatch {
  catch_target : Z;
  finally_target : option Z;
  call_depth : nat;
}.

Inductive FinallyMode := FNormal | FException | FReturn.

Inductive AbruptCompletion :=
  | AException (v : Value)
  | AReturn (v : Value).

Record CallFrame := mkFrame {
  return_ip : Z;
  return_reg : Z;
  fr_register_base : Z;
  function_index : option Z;
  construct_this : option Value;
  saved_pending_exception : option Value;
  saved_pending_return : option Value;
  saved_suspended_abrupt_depth : nat;
  saved_finally_mode_depth : nat;
}.

(** ** Errors *)

Inductive InterpreterError :=
  | BudgetExhausted (executed budget : Z)
  | RegisterOutOfBounds (register max : Z)
  | InstructionOutOfBounds (ip count : Z)
  | StackOverflow (depth max : Z)
  | TypeError (expected got : string)
  | DivisionByZero
  | UndefinedRegister (register : Z)
  | ObjectNotFound (id : Z)
  | PropertyNotFound (object_id : Z) (key : string)
  | FunctionNotFound (index table_size : Z)
  | StringPoolOutOfBounds (index pool_size : Z)
  | CapabilityDenied (capability : string)
  | UnsupportedMembershipSemantics (operator : string)
  | IteratorNotFound (handle : Z)
  | Halted
  | UncaughtException (value : string).

(** [impl Display for InterpreterError] *)
Definition InterpreterError_to_string (e : InterpreterError) : string :=
  match e with
  | BudgetExhausted executed budget =>
      "instruction budget exhausted: " +:+ int_to_string executed +:+ "/" +:+ int_to_string budget
  | RegisterOutOfBounds register max =>
      "register " +:+ int_to_string register +:+ " out of bounds (max " +:+
      int_to_string max +:+ ")"
  | InstructionOutOfBounds ip count =>
      "instruction pointer " +:+ int_to_string ip +:+ " out of bounds (" +:+
      int_to_string count +:+ " instructions)"
  | StackOverflow depth max =>
      "call stack overflow: depth " +:+ int_to_string depth +:+ " exceeds max " +:+
      int_to_string max
  | TypeError expected got => "type error: expected " +:+ expected +:+ ", got " +:+ got
  | DivisionByZero => "division by zero"
  | UndefinedRegister register => "undefined register r" +:+ int_to_string register
  | ObjectNotFound id => "object#" +:+ int_to_string id +:+ " not found"
  | PropertyNotFound object_id key =>
      "property '" +:+ key +:+ "' not found on object#" +:+ int_to_string object_id
  | FunctionNotFound index table_size =>
      "function#" +:+ int_to_string index +:+ " not found (table size " +:+
      int_to_string table_size +:+ ")"
  | StringPoolOutOfBounds index pool_size =>
      "string pool index " +:+ int_to_string index +:+ " out of bounds (pool size " +:+
      int_to_string pool_size +:+ ")"
  | CapabilityDenied capability => "capability denied: " +:+ capability
  | UnsupportedMembershipSemantics operator =>
      "unsupported " +:+ operator +:+
      " semantics: baseline interpreter heap is not prototype-aware"
  | IteratorNotFound handle => "iterator#" +:+ int_to_string handle +:+ " not found"
  | Halted => "execution halted"
  | UncaughtException value => "uncaught exception: " +:+ value
  end.

(** ** Configuration *)

Record InterpreterConfig := mkConfig {
  instruction_budget : Z;
  max_registers : Z;
  max_call_depth : Z;
  granted_capabilities : list string;
}.

Definition quickjs_defaults : InterpreterConfig :=
  mkConfig DEFAULT_QUICKJS_BUDGET DEFAULT_QUICKJS_MAX_REGISTERS MAX_CALL_DEPTH [].

Definition v8_defaults : InterpreterConfig :=
  mkConfig DEFAULT_V8_BUDGET DEFAULT_V8_MAX_REGISTERS MAX_CALL_DEPTH [].

(** [ExecutionConfig] of runtime_config.rs *)
Record ExecutionConfig := mkExecConfig {
  deterministic_budget : Z;
  throughput_budget : Z;
  deterministic_max_registers : Z;
  throughput_max_registers : Z;
  cfg_max_call_depth : Z;
  max_prototype_chain_depth : Z;
}.

Definition ExecutionConfig_default : ExecutionConfig :=
  mkExecConfig 100000 1000000 256 4096 256 64.

Definition deterministic_from_config (c : ExecutionConfig) : InterpreterConfig :=
  mkConfig (deterministic_budget c) (deterministic_max_registers c) (cfg_max_call_depth c) [].

Definition throughput_from_config (c : ExecutionConfig) : InterpreterConfig :=
  mkConfig (throughput_budget c) (throughput_max_registers c) (cfg_max_call_depth c) [].

Record InterpreterEvent := mkEvent {
  ie_trace_id : string;
  ie_component : string;
  ie_event : string;
  ie_outcome : string;
  ie_error_code : option string;
}.

Record ExecutionResult := mkResult {
  r_value : Value;
  r_instructions_executed : Z;
  r_witness_events : list WitnessEvent;
  r_hostcall_decisions : list HostcallDecisionRecord;
  r_events : list InterpreterEvent;
}.

Record ExecutionSeed := mkSeed {
  seed_registers : list Value;
  seed_heap : list HeapObject;
  seed_function_prototypes : gmap Z ObjectId;
}.

#[export] Instance ExecutionSeed_eq_dec : EqDecision ExecutionSeed.
Proof. solve_decision. Defined.

(** ** The state *)

Record InterpreterCore := mkCore {
  config : InterpreterConfig;
  registers : list Value;
  call_stack : list CallFrame;
  heap : list HeapObject;
  iterators : list RuntimeIteratorState;
  function_prototypes : gmap Z ObjectId;
  ip : Z;
  instructions_executed : Z;
  witness_events : list WitnessEvent;
  hostcall_decisions : list HostcallDecisionRecord;
  events : list InterpreterEvent;
  witness_seq : Z;
  trace_id : string;
  register_base : Z;
  catch_frames : list CatchFrame;
  pending_exception : option Value;
  pending_return : option Value;
  suspended_abrupt_completions : list AbruptCompletion;
  finally_modes : list FinallyMode;
  last_pre_run_seed : option ExecutionSeed;
  last_post_run_seed : option ExecutionSeed;
}.

(** Assignment to one field: [self.field = v]. *)
Definition set_registers (v : list Value) (s : InterpreterCore) : InterpreterCore :=
  mkCore (config s) v (call_stack s) (heap s) (iterators s) (function_prototypes s) (ip s)
    (instructions_executed s) (witness_events s) (hostcall_decisions s) (events s)
    (witness_seq s) (trace_id s) (register_base s) (catch_frames s) (pending_exception s)
    (pending_return s) (suspended_abrupt_completions s) (finally_modes s) (last_pre_run_seed s)
    (last_post_run_seed s).
Definition set_call_stack (v : list CallFrame) (s : InterpreterCore) : InterpreterCore :=
  mkCore (config s) (registers s) v (heap s) (iterators s) (function_prototypes s) (ip s)
    (instructions_executed s) (witness_events s) (hostcall_decisions s) (events s)
    (witness_seq s) (trace_id s) (register_base s) (catch_frames s) (pending_exception s)
    (pending_return s) (suspended_abrupt_completions s) (finally_modes s) (last_pre_run_seed s)
    (last_post_run_seed s).
Definition set_heap (v : list HeapObject) (s : InterpreterCore) : InterpreterCore :=
  mkCore (config s) (registers s) (call_stack s) v (iterators s) (function_prototypes s) (ip s)
    (instructions_executed s) (witness_events s) (hostcall_decisions s) (events s)
    (witness_seq s) (trace_id s) (register_base s) (catch_frames s) (pending_exception s)
    (pending_return s) (suspended_abrupt_completions s) (finally_modes s) (last_pre_run_seed s)
    (last_post_run_seed s).
Definition set_iterators (v : list RuntimeIteratorState) (s : InterpreterCore) : InterpreterCore :=
  mkCore (config s) (registers s) (call_stack s) (heap s) v (function_prototypes s) (ip s)
    (instructions_executed s) (witness_events s) (hostcall_decisions s) (events s)
    (witness_seq s) (trace_id s) (register_base s) (catch_frames s) (pending_exception s)
    (pending_return s) (suspended_abrupt_completions s) (finally_modes s) (last_pre_run_seed s)
    (last_post_run_seed s).
Definition set_function_prototypes (v : gmap Z ObjectId) (s : InterpreterCore) : InterpreterCore :=
  mkCore (config s) (registers s) (call_stack s) (heap s) (iterators s) v (ip s)
    (instructions_executed s) (witness_events s) (hostcall_decisions s) (events s)
    (witness_seq s) (trace_id s) (register_base s) (catch_frames s) (pending_exception s)
    (pending_return s) (suspended_abrupt_completions s) (finally_modes s) (last_pre_run_seed s)
    (last_post_run_seed s).
Definition set_ip (v : Z) (s : InterpreterCore) : InterpreterCore :=
  mkCore (config s) (registers s) (call_stack s) (heap s) (iterators s) (function_prototypes s)
    v (instructions_executed s) (witness_events s) (hostcall_decisions s) (events s)
    (witness_seq s) (trace_id s) (register_base s) (catch_frames s) (pending_exception s)
    (pending_return s) (suspended_abrupt_completions s) (finally_modes s) (last_pre_run_seed s)
    (last_post_run_seed s).
Definition set_instructions_executed (v : Z) (s : InterpreterCore) : InterpreterCore :=
  mkCore (config s) (registers s) (call_stack s) (heap s) (iterators s) (function_prototypes s)
    (ip s) v (witness_events s) (hostcall_decisions s) (events s) (witness_seq s) (trace_id s)
    (register_base s) (catch_frames s) (pending_exception s) (pending_return s)
    (suspended_abrupt_completions s) (finally_modes s) (last_pre_run_seed s)
    (last_post_run_seed s).
Definition set_witness_events (v : list WitnessEvent) (s : InterpreterCore) : InterpreterCore :=
  mkCore (config s) (registers s) (call_stack s) (heap s) (iterators s) (function_prototypes s)
    (ip s) (instructions_executed s) v (hostcall_decisions s) (events s) (witness_seq s)
    (trace_id s) (register_base s) (catch_frames s) (pending_exception s) (pending_return s)
    (suspended_abrupt_completions s) (finally_modes s) (last_pre_run_seed s)
    (last_post_run_seed s).
Definition set_hostcall_decisions (v : list HostcallDecisionRecord) (s : InterpreterCore) : InterpreterCore :=
  mkCore (config s) (registers s) (call_stack s) (heap s) (iterators s) (function_prototypes s)
    (ip s) (instructions_executed s) (witness_events s) v (events s) (witness_seq s)
    (trace_id s) (register_base s) (catch_frames s) (pending_exception s) (pending_return s)
    (suspended_abrupt_completions s) (finally_modes s) (last_pre_run_seed s)
    (last_post_run_seed s).
Definition set_events (v : list InterpreterEvent) (s : InterpreterCore) : InterpreterCore :=
  mkCore (config s) (registers s) (call_stack s) (heap s) (iterators s) (function_prototypes s)
    (ip s) (instructions_executed s) (witness_events s) (hostcall_decisions s) v (witness_seq s)
    (trace_id s) (register_base s) (catch_frames s) (pending_exception s) (pending_return s)
    (suspended_abrupt_completions s) (finally_modes s) (last_pre_run_seed s)
    (last_post_run_seed s).
Definition set_witness_seq (v : Z) (s : InterpreterCore) : InterpreterCore :=
  mkCore (config s) (registers s) (call_stack s) (heap s) (iterators s) (function_prototypes s)
    (ip s) (instructions_executed s) (witness_events s) (hostcall_decisions s) (events s) v
    (trace_id s) (register_base s) (catch_frames s) (pending_exception s) (pending_return s)
    (suspended_abrupt_completions s) (finally_modes s) (last_pre_run_seed s)
    (last_post_run_seed s).
Definition set_register_base (v : Z) (s : InterpreterCore) : InterpreterCore :=
  mkCore (config s) (registers s) (call_stack s) (heap s) (iterators s) (function_prototypes s)
    (ip s) (instructions_executed s) (witness_events s) (hostcall_decisions s) (events s)
    (witness_seq s) (trace_id s) v (catch_frames s) (pending_exception s) (pending_return s)
    (suspended_abrupt_completions s) (finally_modes s) (last_pre_run_seed s)
    (last_post_run_seed s).
Definition set_catch_frames (v : list CatchFrame) (s : InterpreterCore) : InterpreterCore :=
  mkCore (config s) (registers s) (call_stack s) (heap s) (iterators s) (function_prototypes s)
    (ip s) (instructions_executed s) (witness_events s) (hostcall_decisions s) (events s)
    (witness_seq s) (trace_id s) (register_base s) v (pending_exception s) (pending_return s)
    (suspended_abrupt_completions s) (finally_modes s) (last_pre_run_seed s)
    (last_post_run_seed s).
Definition set_pending_exception (v : option Value) (s : InterpreterCore) : InterpreterCore :=
  mkCore (config s) (registers s) (call_stack s) (heap s) (iterators s) (function_prototypes s)
    (ip s) (instructions_executed s) (witness_events s) (hostcall_decisions s) (events s)
    (witness_seq s) (trace_id s) (register_base s) (catch_frames s) v (pending_return s)
    (suspended_abrupt_completions s) (finally_modes s) (last_pre_run_seed s)
    (last_post_run_seed s).
Definition set_pending_return (v : option Value) (s : InterpreterCore) : InterpreterCore :=
  mkCore (config s) (registers s) (call_stack s) (heap s) (iterators s) (function_prototypes s)
    (ip s) (instructions_executed s) (witness_events s) (hostcall_decisions s) (events s)
    (witness_seq s) (trace_id s) (register_base s) (catch_frames s) (pending_exception s) v
    (suspended_abrupt_completions s) (finally_modes s) (last_pre_run_seed s)
    (last_post_run_seed s).
Definition set_suspended_abrupt_completions (v : list AbruptCompletion) (s : InterpreterCore) : InterpreterCore :=
  mkCore (config s) (registers s) (call_stack s) (heap s) (iterators s) (function_prototypes s)
    (ip s) (instructions_executed s) (witness_events s) (hostcall_decisions s) (events s)
    (witness_seq s) (trace_id s) (register_base s) (catch_frames s) (pending_exception s)
    (pending_return s) v (finally_modes s) (last_pre_run_seed s) (last_post_run_seed s).
Definition set_finally_modes (v : list FinallyMode) (s : InterpreterCore) : InterpreterCore :=
  mkCore (config s) (registers s) (call_stack s) (heap s) (iterators s) (function_prototypes s)
    (ip s) (instructions_executed s) (witness_events s) (hostcall_decisions s) (events s)
    (witness_seq s) (trace_id s) (register_base s) (catch_frames s) (pending_exception s)
    (pending_return s) (suspended_abrupt_completions s) v (last_pre_run_seed s)
    (last_post_run_seed s).
Definition set_last_pre_run_seed (v : option ExecutionSeed) (s : InterpreterCore) : InterpreterCore :=
  mkCore (config s) (registers s) (call_stack s) (heap s) (iterators s) (function_prototypes s)
    (ip s) (instructions_executed s) (witness_events s) (hostcall_decisions s) (events s)
    (witness_seq s) (trace_id s) (register_base s) (catch_frames s) (pending_exception s)
    (pending_return s) (suspended_abrupt_completions s) (finally_modes s) v
    (last_post_run_seed s).
Definition set_last_post_run_seed (v : option ExecutionSeed) (s : InterpreterCore) : InterpreterCore :=
  mkCore (config s) (registers s) (call_stack s) (heap s) (iterators s) (function_prototypes s)
    (ip s) (instructions_executed s) (witness_events s) (hostcall_decisions s) (events s)
    (witness_seq s) (trace_id s) (register_base s) (catch_frames s) (pending_exception s)
    (pending_return s) (suspended_abrupt_completions s) (finally_modes s) (last_pre_run_seed s)
    v.

(** ** The monad of [&mut self] methods *)

Definition M (A : Type) : Type := InterpreterCore -> InterpreterCore * result InterpreterError A.

#[export] Instance M_ret : MRet M := fun A a s => (s, Ok a).
#[export] Instance M_bind : MBind M := fun A B f m s =>
  let '(s, r) := m s in
  match r with Ok a => f a s | Err e => (s, Err e) end.

Definition raise {A} (e : InterpreterError) : M A := fun s => (s, Err e).
Definition gets {A} (f : InterpreterCore -> A) : M A := fun s => (s, Ok (f s)).
Definition modify (f : InterpreterCore -> InterpreterCore) : M unit := fun s => (f s, Ok tt).
(** A [&self] method that may fail. *)
Definition lift {A} (f : InterpreterCore -> result InterpreterError A) : M A := fun s => (s, f s).

(** [self.ip += 1] *)
Definition advance : M unit := modify (fun s => set_ip (ip s + 1) s).
(** [self.ip = target] *)
Definition jump (target : Z) : M unit := modify (set_ip target).

(** ** Vectors *)

(** [vec.resize(n, x)] *)
Definition resize {A} (l : list A) (n : Z) (x : A) : list A :=
  take (Z.to_nat n) l ++ replicate (Z.to_nat n - length l) x.

(** [vec[lo..hi].fill(x)] *)
Definition fill {A} (l : list A) (lo hi : Z) (x : A) : list A :=
  take (Z.to_nat lo) l ++ replicate (Z.to_nat (hi - lo)) x ++ drop (Z.to_nat hi) l.

(** [vec.truncate(n)] on a stack with its top first *)
Definition truncate {A} (l : list A) (n : nat) : list A := drop (length l - n) l.

(** ** Register access *)

Definition read_reg (s : InterpreterCore) (reg : Z) : result InterpreterError Value :=
  if max_registers (config s) <=? reg then
    Err (RegisterOutOfBounds reg (max_registers (config s)))
  else
    let actual_reg := register_base s + reg in
    Ok (default JUndefined (registers s !! Z.to_nat actual_reg)).

Definition write_reg (reg : Z) (value : Value) : M unit := fun s =>
  if max_registers (config s) <=? reg then
    (s, Err (RegisterOutOfBounds reg (max_registers (config s))))
  else
    let actual_reg := register_base s + reg in
    let regs :=
      if zlen (registers s) <=? actual_reg
      then resize (registers s) (actual_reg + 1) JUndefined else registers s in
    (set_registers (<[Z.to_nat actual_reg := value]> regs) s, Ok tt).

(** ** Heap operations *)

Definition alloc_object_with_prototype (proto : option ObjectId) : M ObjectId := fun s =>
  let id := u32_sat (zlen (heap s)) in
  (set_heap (heap s ++ [mkObj ∅ proto None]) s, Ok id).

Definition alloc_object : M ObjectId := alloc_object_with_prototype None.

Definition alloc_iterator (it : RuntimeIteratorState) : M Z := fun s =>
  let handle := u32_sat (zlen (iterators s)) in
  (set_iterators (iterators s ++ [it]) s, Ok handle).

(** [self.heap.get(id).ok_or(ObjectNotFound)] *)
Definition heap_get (s : InterpreterCore) (id : ObjectId) : result InterpreterError HeapObject :=
  ok_or (ObjectNotFound id) (heap s !! Z.to_nat id).

Definition ensure_function_prototype (func_idx : Z) : M ObjectId :=
  protos ← gets function_prototypes;
  match protos !! func_idx with
  | Some existing => mret existing
  | None =>
      proto ← alloc_object;
      _ ← modify (fun s => set_function_prototypes (<[func_idx := proto]> (function_prototypes s)) s);
      mret proto
  end.

(** ** Prototype-chain walks

    [levels] is [MAX_PROTOTYPE_CHAIN_DEPTH - depth]: the walk stops when it
    reaches [0] or meets an object twice. *)

Fixpoint chain_get (s : InterpreterCore) (key : string) (levels : nat) (visited : gset Z)
    (current : option ObjectId) : result InterpreterError Value :=
  match current with
  | None => Ok JUndefined
  | Some id =>
      match levels with
      | O => Ok JUndefined
      | S levels =>
          if bool_decide (id ∈ visited) then Ok JUndefined
          else
            object ← heap_get s id;
            match properties object !! key with
            | Some val => Ok val
            | None => chain_get s key levels ({[id]} ∪ visited) (prototype object)
            end
      end
  end.

Definition prototype_chain_get (s : InterpreterCore) (object_id : ObjectId) (key : string)
    : result InterpreterError Value :=
  chain_get s key MAX_PROTOTYPE_CHAIN_DEPTH ∅ (Some object_id).

Fixpoint chain_has_key (s : InterpreterCore) (key : string) (levels : nat) (visited : gset Z)
    (current : option ObjectId) : result InterpreterError bool :=
  match current with
  | None => Ok false
  | Some id =>
      match levels with
      | O => Ok false
      | S levels =>
          if bool_decide (id ∈ visited) then Ok false
          else
            object ← heap_get s id;
            if bool_decide (is_Some (properties object !! key)) then Ok true
            else chain_has_key s key levels ({[id]} ∪ visited) (prototype object)
      end
  end.

Definition prototype_chain_has_key (s : InterpreterCore) (object_id : ObjectId) (key : string)
    : result InterpreterError bool :=
  chain_has_key s key MAX_PROTOTYPE_CHAIN_DEPTH ∅ (Some object_id).

Fixpoint chain_contains (s : InterpreterCore) (proto : ObjectId) (levels : nat)
    (visited : gset Z) (current : option ObjectId) : result InterpreterError bool :=
  match current with
  | None => Ok false
  | Some id =>
      if id =? proto then Ok true
      else
        match levels with
        | O => Ok false
        | S levels =>
            if bool_decide (id ∈ visited) then Ok false
            else
              object ← heap_get s id;
              chain_contains s proto levels ({[id]} ∪ visited) (prototype object)
        end
  end.

Definition prototype_chain_contains (s : InterpreterCore) (object_id proto : ObjectId)
    : result InterpreterError bool :=
  object ← heap_get s object_id;
  chain_contains s proto MAX_PROTOTYPE_CHAIN_DEPTH {[object_id]} (prototype object).

Fixpoint chain_keys (s : InterpreterCore) (levels : nat) (visited : gset Z)
    (current : option ObjectId) (seen : gset string) (keys : list string)
    : result InterpreterError (list string) :=
  match current with
  | None => Ok keys
  | Some id =>
      match levels with
      | O => Ok keys
      | S levels =>
          if bool_decide (id ∈ visited) then Ok keys
          else
            object ← heap_get s id;
            let '(seen, keys) :=
              fold_left (fun '(seen, keys) key =>
                  if bool_decide (key ∈ seen) then (seen, keys)
                  else ({[key]} ∪ seen, keys ++ [key]))
                (sorted_keys (properties object)) (seen, keys) in
            chain_keys s levels ({[id]} ∪ visited) (prototype object) seen keys
      end
  end.

Definition collect_for_in_keys (s : InterpreterCore) (object_id : ObjectId)
    : result InterpreterError (list string) :=
  chain_keys s MAX_PROTOTYPE_CHAIN_DEPTH ∅ (Some object_id) ∅ [].

(** ** Coercions *)

Definition property_key (v : Value) : string :=
  match v with
  | JStr s => s
  | JInt n => int_to_string n
  | _ => Value_to_string v
  end.

Definition coerce_to_number (v : Value) : option Z :=
  match v with
  | JInt n => Some n
  | JBool b => Some (Z.b2z b)
  | JNull => Some 0
  | JStr s =>
      let trimmed := trim s in
      if bool_decide (trimmed = "") then Some 0 else parse_i64 trimmed
  | JUndefined | JObject _ | JFunction _ | JIterator _ => None
  end.

Definition abstract_eq_values (a b : Value) : bool :=
  match a, b with
  | JUndefined, JUndefined | JNull, JNull | JBool _, JBool _ | JInt _, JInt _
  | JStr _, JStr _ | JObject _, JObject _ | JFunction _, JFunction _
  | JIterator _, JIterator _ => bool_decide (a = b)
  | JNull, JUndefined | JUndefined, JNull => true
  | JNull, _ | _, JNull => false
  | JUndefined, _ | _, JUndefined => false
  | _, _ =>
      match coerce_to_number a, coerce_to_number b with
      | Some lhs, Some rhs => lhs =? rhs
      | _, _ => false
      end
  end.

(** ** Arithmetic *)

(** How [+] and template literals print an operand that is not a string. *)
Definition concat_operand (v : Value) : string :=
  match v with
  | JObject _ | JIterator _ => "[object Object]"
  | JFunction _ => "function"
  | other => Value_to_string other
  end.

(** Both operands as numbers, or the type error of the operator. *)
Definition two_numbers (expected : string) (got : Value -> Value -> string) (a b : Value)
    : result InterpreterError (Z * Z) :=
  x ← ok_or (TypeError expected (got a b)) (coerce_to_number a);
  y ← ok_or (TypeError expected (got a b)) (coerce_to_number b);
  Ok (x, y).

(** [format!("{} {op} {}", a.type_name(), b.type_name())] *)
Definition got_types (op : string) (a b : Value) : string :=
  type_name a +:+ " " +:+ op +:+ " " +:+ type_name b.

Definition eval_add (s : InterpreterCore) (lhs rhs : Z) : result InterpreterError Value :=
  a ← read_reg s lhs;
  b ← read_reg s rhs;
  match a, b with
  | JInt x, JInt y => Ok (JInt (wrap_i64 (x + y)))
  | JStr x, JStr y => Ok (JStr (x +:+ y))
  | JStr x, other => Ok (JStr (x +:+ concat_operand other))
  | other, JStr y => Ok (JStr (concat_operand other +:+ y))
  | _, _ =>
      '(x, y) ← two_numbers "number or string" (got_types "+") a b;
      Ok (JInt (wrap_i64 (x + y)))
  end.

Definition eval_arith (s : InterpreterCore) (lhs rhs : Z) (op : string)
    : result InterpreterError Value :=
  a ← read_reg s lhs;
  b ← read_reg s rhs;
  '(x, y) ← two_numbers "number" (got_types op) a b;
  if bool_decide (op = "sub") then Ok (JInt (wrap_i64 (x - y)))
  else if bool_decide (op = "mul") then Ok (JInt (wrap_i64 (x * y)))
  else Err (TypeError "sub or mul" op).

Definition eval_div (s : InterpreterCore) (lhs rhs : Z) : result InterpreterError Value :=
  a ← read_reg s lhs;
  b ← read_reg s rhs;
  '(x, y) ← two_numbers "number" (got_types "/") a b;
  if y =? 0 then Err DivisionByZero else Ok (JInt (wrap_i64 (Z.quot x y))).

(** [x.checked_rem(y)] *)
Definition checked_rem (x y : Z) : option Z :=
  if (y =? 0) || (x =? i64_min) && (y =? -1) then None else Some (Z.rem x y).

Definition eval_mod (s : InterpreterCore) (lhs rhs : Z) : result InterpreterError Value :=
  a ← read_reg s lhs;
  b ← read_reg s rhs;
  '(x, y) ← two_numbers "number" (got_types "%") a b;
  if y =? 0 then Err DivisionByZero else Ok (JInt (default 0 (checked_rem x y))).

(** [x.wrapping_pow(exp)]: square and multiply, wrapping at every step. *)
Fixpoint pow_pos (x : Z) (exp : positive) : Z :=
  match exp with
  | xH => x
  | xO e => pow_pos (wrap_i64 (x * x)) e
  | xI e => wrap_i64 (x * pow_pos (wrap_i64 (x * x)) e)
  end.

Definition wrapping_pow (x exp : Z) : Z :=
  match exp with Zpos e => pow_pos x e | _ => 1 end.

Definition eval_exp (s : InterpreterCore) (lhs rhs : Z) : result InterpreterError Value :=
  a ← read_reg s lhs;
  b ← read_reg s rhs;
  '(x, y) ← two_numbers "number" (got_types "**") a b;
  if (0 <=? y) && (y <=? u32_max) then Ok (JInt (wrapping_pow x y))
  else Err (TypeError "non-negative exponent" (int_to_string y)).

Definition one_number (v : Value) : result InterpreterError Z :=
  ok_or (TypeError "number-coercible primitive" (type_name v)) (coerce_to_number v).

Definition eval_unary_plus (s : InterpreterCore) (src : Z) : result InterpreterError Value :=
  value ← read_reg s src;
  number ← one_number value;
  Ok (JInt number).

Definition eval_unary_neg (s : InterpreterCore) (src : Z) : result InterpreterError Value :=
  value ← read_reg s src;
  number ← one_number value;
  Ok (JInt (wrap_i64 (- number))).

Definition eval_bit_not (s : InterpreterCore) (src : Z) : result InterpreterError Value :=
  value ← read_reg s src;
  number ← one_number value;
  Ok (JInt (Z.lnot (wrap_i32 number))).

Definition eval_relational (s : InterpreterCore) (lhs rhs : Z) (op : string)
    : result InterpreterError Value :=
  a ← read_reg s lhs;
  b ← read_reg s rhs;
  ordering ←
    match a, b with
    | JStr x, JStr y => Ok (String.compare x y)
    | _, _ =>
        '(x, y) ← two_numbers "comparable primitive" (got_types op) a b;
        Ok (x ?= y)
    end;
  let is_ ords := existsb (fun o => bool_decide (o = ordering)) ords in
  if bool_decide (op = "<") then Ok (JBool (is_ [Lt]))
  else if bool_decide (op = "<=") then Ok (JBool (is_ [Lt; Eq]))
  else if bool_decide (op = ">") then Ok (JBool (is_ [Gt]))
  else if bool_decide (op = ">=") then Ok (JBool (is_ [Gt; Eq]))
  else Err (TypeError "relational operator" op).

Definition eval_equality (s : InterpreterCore) (lhs rhs : Z) (strict negate : bool)
    : result InterpreterError Value :=
  a ← read_reg s lhs;
  b ← read_reg s rhs;
  let matches := if strict then bool_decide (a = b) else abstract_eq_values a b in
  Ok (JBool (if negate then negb matches else matches)).

Definition eval_bitwise (s : InterpreterCore) (lhs rhs : Z) (op : string)
    : result InterpreterError Value :=
  a ← read_reg s lhs;
  b ← read_reg s rhs;
  '(x, y) ← two_numbers "number" (got_types op) a b;
  let lhs32 := wrap_i32 x in
  let rhs32 := wrap_i32 y in
  let shift := Z.land (wrap_u32 y) 31 in
  if bool_decide (op = "&") then Ok (JInt (Z.land lhs32 rhs32))
  else if bool_decide (op = "|") then Ok (JInt (Z.lor lhs32 rhs32))
  else if bool_decide (op = "^") then Ok (JInt (Z.lxor lhs32 rhs32))
  else if bool_decide (op = "<<") then Ok (JInt (wrap_i32 (Z.shiftl lhs32 shift)))
  else if bool_decide (op = ">>") then Ok (JInt (Z.shiftr lhs32 shift))
  else if bool_decide (op = ">>>") then Ok (JInt (Z.shiftr (wrap_u32 x) shift))
  else Err (TypeError "bitwise operator" op).

Definition eval_instanceof (lhs rhs : Z) : M Value :=
  candidate ← lift (fun s => read_reg s lhs);
  ctor ← lift (fun s => read_reg s rhs);
  match ctor with
  | JFunction func_idx =>
      match candidate with
      | JObject object_id =>
          proto ← ensure_function_prototype func_idx;
          b ← lift (fun s => prototype_chain_contains s object_id proto);
          mret (JBool b)
      | _ => mret (JBool false)
      end
  | other => raise (TypeError "function" (type_name other))
  end.

Definition eval_in_operator (s : InterpreterCore) (lhs rhs : Z) : result InterpreterError Value :=
  k ← read_reg s lhs;
  let key := property_key k in
  target ← read_reg s rhs;
  match target with
  | JObject object_id =>
      _ ← heap_get s object_id;
      b ← prototype_chain_has_key s object_id key;
      Ok (JBool b)
  | other => Err (TypeError "object" (type_name other))
  end.

(** ** Iterators *)

Definition expect_iterator_handle (iterator : Value) : result InterpreterError Z :=
  match iterator with
  | JIterator handle => Ok handle
  | other => Err (TypeError "iterator" (type_name other))
  end.

(** [self.iterator_state_mut(handle)?] and the assignment through it *)
Definition iterator_state (s : InterpreterCore) (handle : Z)
    : result InterpreterError RuntimeIteratorState :=
  ok_or (IteratorNotFound handle) (iterators s !! Z.to_nat handle).

Definition put_iterator (handle : Z) (it : RuntimeIteratorState) : M unit :=
  modify (fun s => set_iterators (<[Z.to_nat handle := it]> (iterators s)) s).

Definition init_for_in_iterator (value : Value) : M Value :=
  match value with
  | JObject object_id =>
      keys ← lift (fun s => collect_for_in_keys s object_id);
      handle ← alloc_iterator (ForIn (mkForIn object_id keys 0 ∅ false false));
      mret (JIterator handle)
  | _ => raise (TypeError "object" (type_name value))
  end.

(** The [while] loop over the keys from [next_index] on: the first key that
    was not deleted and the index after it. *)
Fixpoint next_key (deleted : gset string) (keys : list string) (next_index : nat)
    : option string * nat :=
  match keys with
  | [] => (None, next_index)
  | key :: keys =>
      if bool_decide (key ∈ deleted) then next_key deleted keys (S next_index)
      else (Some key, S next_index)
  end.

Definition advance_for_in_iterator (iterator : Value) : M (option Value) :=
  handle ← lift (fun _ => expect_iterator_handle iterator);
  it ← lift (fun s => iterator_state s handle);
  match it with
  | ForIn st =>
      if fi_closed st || fi_done st then
        _ ← put_iterator handle (ForIn (mkForIn (fi_object_id st) (fi_keys st)
              (fi_next_index st) (fi_deleted_keys st) true (fi_closed st)));
        mret None
      else
        let '(found, next) :=
          next_key (fi_deleted_keys st) (drop (fi_next_index st) (fi_keys st))
            (fi_next_index st) in
        let done := match found with Some _ => fi_done st | None => true end in
        _ ← put_iterator handle (ForIn (mkForIn (fi_object_id st) (fi_keys st) next
              (fi_deleted_keys st) done (fi_closed st)));
        mret (JStr <$> found)
  | ForOf _ => raise (TypeError "for..in iterator" "for..of iterator")
  end.

(** [sort_by_key(|(index, _)| *index)]: a stable sort. *)
Fixpoint insert_by_index (x : Z * Value) (l : list (Z * Value)) : list (Z * Value) :=
  match l with
  | [] => [x]
  | y :: l => if x.1 <=? y.1 then x :: y :: l else y :: insert_by_index x l
  end.

Definition sort_by_index (l : list (Z * Value)) : list (Z * Value) :=
  fold_right insert_by_index [] l.

Definition collect_for_of_values (s : InterpreterCore) (iterable : Value)
    : result InterpreterError (list Value) :=
  match iterable with
  | JStr text => Ok ((fun c => JStr (bytes_str c)) <$> chars text)
  | JObject object_id =>
      object ← heap_get s object_id;
      let indexed_values :=
        omap (fun '(key, value) => (fun index => (index, value)) <$> parse_u64 key)
          (sorted_entries (properties object)) in
      let indexed_values := sort_by_index indexed_values in
      if bool_decide (indexed_values = []) then
        Err (TypeError "iterable" (type_name iterable))
      else Ok indexed_values.*2
  | other => Err (TypeError "iterable" (type_name other))
  end.

Definition init_for_of_iterator (value : Value) : M Value :=
  values ← lift (fun s => collect_for_of_values s value);
  handle ← alloc_iterator (ForOf (mkForOf values 0 false false));
  mret (JIterator handle).

Definition advance_for_of_iterator (iterator : Value) : M (option Value) :=
  handle ← lift (fun _ => expect_iterator_handle iterator);
  it ← lift (fun s => iterator_state s handle);
  match it with
  | ForOf st =>
      if fo_closed st || fo_done st then
        _ ← put_iterator handle (ForOf (mkForOf (fo_values st) (fo_next_index st) true
              (fo_closed st)));
        mret None
      else
        match fo_values st !! fo_next_index st with
        | Some value =>
            _ ← put_iterator handle (ForOf (mkForOf (fo_values st) (S (fo_next_index st))
                  (fo_done st) (fo_closed st)));
            mret (Some value)
        | None =>
            _ ← put_iterator handle (ForOf (mkForOf (fo_values st) (fo_next_index st) true
                  (fo_closed st)));
            mret None
        end
  | ForIn _ => raise (TypeError "for..of iterator" "for..in iterator")
  end.

Definition close_iterator (iterator : Value) (_reason : IteratorCloseReason.t) : M unit :=
  handle ← lift (fun _ => expect_iterator_handle iterator);
  it ← lift (fun s => iterator_state s handle);
  put_iterator handle
    match it with
    | ForIn st => ForIn (mkForIn (fi_object_id st) (fi_keys st) (fi_next_index st)
                    (fi_deleted_keys st) true true)
    | ForOf st => ForOf (mkForOf (fo_values st) (fo_next_index st) true true)
    end.

Definition mark_deleted_for_in_iterators (object_id : ObjectId) (key : string) : M unit :=
  modify (fun s => set_iterators
    ((fun it =>
        match it with
        | ForIn st =>
            if fi_object_id st =? object_id
            then ForIn (mkForIn (fi_object_id st) (fi_keys st) (fi_next_index st)
                   ({[key]} ∪ fi_deleted_keys st) (fi_done st) (fi_closed st))
            else it
        | ForOf _ => it
        end) <$> iterators s) s).

(** ** Witnesses and events *)

Definition emit_witness (k : WitnessEventKind) (detail : option string) : M unit := fun s =>
  let payload := str_bytes (default "" detail) in
  let w := mkWitness (witness_seq s) k (wrap_u32 (ip s)) (ContentHash_compute payload)
             (instructions_executed s) in
  (set_witness_seq (witness_seq s + 1) (set_witness_events (witness_events s ++ [w]) s), Ok tt).

Definition push_event (event outcome : string) (err_code : option string) : M unit :=
  modify (fun s =>
    set_events (events s ++ [mkEvent (trace_id s) COMPONENT event outcome err_code]) s).
