(* ===== verification/BaselineInterp.v ===== *)
(** * The baseline interpreter's loop
    (crates/franken-engine/src/baseline_interpreter.rs)

    One handler per instruction, the unwinding of abrupt completions through
    [try]/[catch]/[finally] and calls, the loop [run_loop], the entry point
    [execute] with its replay seeds, the two lanes and the lane router.

    A handler is a computation of [M (option Value)]: [None] goes round the
    loop again and [Some v] is [return Ok(v)].  The loop runs on fuel;
    [run_fuel] is what it needs at most, which InterpProgress.v proves. *)
From stdpp Require Import base numbers list strings pretty gmap.
From Stdlib Require Import Strings.Byte.
From S2P Require Import Prelude Bytes Text HashTiers DetSerde IrContract InterpCore.
Open Scope Z_scope.

(** ** Abrupt completions *)

Definition complete_return (return_val : Value) : M (option Value) := fun s =>
  let current_depth := length (call_stack s) in
  let s := set_catch_frames
             (filter (fun f => (call_depth f < current_depth)%nat) (catch_frames s)) s in
  match call_stack s with
  | frame :: rest =>
      let s := set_call_stack rest s in
      let s := set_register_base (fr_register_base frame) s in
      let s := set_suspended_abrupt_completions
                 (truncate (suspended_abrupt_completions s) (saved_suspended_abrupt_depth frame)) s in
      let s := set_finally_modes
                 (truncate (finally_modes s) (saved_finally_mode_depth frame)) s in
      let s := set_pending_exception (saved_pending_exception frame) s in
      let s := set_pending_return (saved_pending_return frame) s in
      let effective_val :=
        match construct_this frame with
        | Some this_obj => match return_val with JObject _ => return_val | _ => this_obj end
        | None => return_val
        end in
      (_ ← write_reg (return_reg frame) effective_val;
       _ ← jump (return_ip frame);
       mret None) s
  | [] =>
      let s := set_pending_exception None s in
      let s := set_pending_return None s in
      let s := set_suspended_abrupt_completions [] s in
      let s := set_finally_modes [] s in
      (s, Ok (Some return_val))
  end.

(** [while self.call_stack.len() > target_depth], over the frames that are
    popped; the accumulators are the restored completions and the restored
    suspension depth. *)
Fixpoint unwind_frames (frames : list CallFrame) (target_depth : nat) (s : InterpreterCore)
    (exc ret : option Value) (depth : option nat)
    : InterpreterCore * (option Value * option Value * option nat) :=
  match frames with
  | [] => (s, (exc, ret, depth))
  | frame :: rest =>
      if (length frames <=? target_depth)%nat then (s, (exc, ret, depth))
      else
        let s := set_call_stack rest s in
        let s := set_register_base (fr_register_base frame) s in
        let s := set_finally_modes
                   (truncate (finally_modes s) (saved_finally_mode_depth frame)) s in
        let exc := match exc with None => saved_pending_exception frame | _ => exc end in
        let ret := match ret with None => saved_pending_return frame | _ => ret end in
        unwind_frames rest target_depth s exc ret (Some (saved_suspended_abrupt_depth frame))
  end.

Definition unwind_call_stack_to (target_depth : nat) (s : InterpreterCore)
    : InterpreterCore * (option Value * option Value) :=
  let '(s, (exc, ret, depth)) := unwind_frames (call_stack s) target_depth s None None None in
  let s :=
    match depth with
    | Some depth =>
        set_suspended_abrupt_completions (truncate (suspended_abrupt_completions s) depth) s
    | None => s
    end in
  (s, (exc, ret)).

(** [rposition(p)] followed by [truncate(idx)]: the topmost frame that
    satisfies [p] and the frames below it. *)
Fixpoint pop_matching (p : CatchFrame -> bool) (frames : list CatchFrame)
    : option (CatchFrame * list CatchFrame) :=
  match frames with
  | [] => None
  | f :: rest => if p f then Some (f, rest) else pop_matching p rest
  end.

Definition pop_current_try_frame (s : InterpreterCore) : InterpreterCore * option CatchFrame :=
  let current_depth := length (call_stack s) in
  match pop_matching (fun f => (call_depth f =? current_depth)%nat) (catch_frames s) with
  | Some (frame, rest) => (set_catch_frames rest s, Some frame)
  | None => (s, None)
  end.

(** The push of [suspend_abrupt_completion]; its [debug_assert!] is absent
    from release builds. *)
Definition suspend_abrupt_completion (exc ret : option Value) (s : InterpreterCore)
    : InterpreterCore :=
  match exc, ret with
  | Some exception, None =>
      set_suspended_abrupt_completions
        (AException exception :: suspended_abrupt_completions s) s
  | None, Some return_val =>
      set_suspended_abrupt_completions (AReturn return_val :: suspended_abrupt_completions s) s
  | None, None => s
  | Some exception, Some return_val =>
      set_suspended_abrupt_completions
        (AReturn return_val :: AException exception :: suspended_abrupt_completions s) s
  end.

Definition pop_exception_target_frame (s : InterpreterCore)
    : InterpreterCore * option CatchFrame :=
  let current_depth := length (call_stack s) in
  match pop_matching (fun f => (call_depth f <=? current_depth)%nat) (catch_frames s) with
  | Some (frame, rest) =>
      let s := set_catch_frames rest s in
      let '(s, (exc, ret)) := unwind_call_stack_to (call_depth frame) s in
      (suspend_abrupt_completion exc ret s, Some frame)
  | None => (s, None)
  end.

Definition take_current_abrupt_completion (s : InterpreterCore)
    : InterpreterCore * option AbruptCompletion :=
  match pending_exception s with
  | Some exception =>
      (set_pending_return None (set_pending_exception None s), Some (AException exception))
  | None => (set_pending_return None s, AReturn <$> pending_return s)
  end.

Definition suspend_current_abrupt_completion (s : InterpreterCore) : InterpreterCore :=
  let '(s, completion) := take_current_abrupt_completion s in
  match completion with
  | Some c => set_suspended_abrupt_completions (c :: suspended_abrupt_completions s) s
  | None => s
  end.

Definition restore_suspended_abrupt_completion (s : InterpreterCore) : InterpreterCore :=
  match pending_exception s, pending_return s with
  | None, None =>
      match suspended_abrupt_completions s with
      | AException exception :: rest =>
          set_pending_exception (Some exception) (set_suspended_abrupt_completions rest s)
      | AReturn return_val :: rest =>
          set_pending_return (Some return_val) (set_suspended_abrupt_completions rest s)
      | [] => s
      end
  | _, _ => s
  end.

Definition pop_current_finally_target (s : InterpreterCore) : InterpreterCore * option Z :=
  let current_depth := length (call_stack s) in
  match pop_matching (fun f => (call_depth f =? current_depth)%nat &&
                               bool_decide (is_Some (finally_target f))) (catch_frames s) with
  | Some (frame, rest) => (set_catch_frames rest s, finally_target frame)
  | None => (s, None)
  end.

(** A state transformer with a result, as a computation that cannot fail. *)
Definition call {A} (f : InterpreterCore -> InterpreterCore * A) : M A := fun s =>
  let '(s, a) := f s in (s, Ok a).

(** ** Calls *)

(** [for i in 0..n { args.start.checked_add(i).ok_or(..)?; read_reg(reg)? }],
    from index [i] on. *)
Fixpoint read_args (s : InterpreterCore) (start : Z) (i : Z) (n : nat)
    : result InterpreterError (list Value) :=
  match n with
  | O => Ok []
  | S n =>
      if u32_max <? start + i then Err (RegisterOutOfBounds start (max_registers (config s)))
      else
        v ← read_reg s (start + i);
        vs ← read_args s start (i + 1) n;
        Ok (v :: vs)
  end.

Definition push_frame (func_idx dst : Z) (this : option Value) : M unit := modify (fun s =>
  let frame := {|
    return_ip := ip s + 1;
    return_reg := dst;
    fr_register_base := register_base s;
    function_index := Some func_idx;
    construct_this := this;
    saved_pending_exception := pending_exception s;
    saved_pending_return := pending_return s;
    saved_suspended_abrupt_depth := length (suspended_abrupt_completions s);
    saved_finally_mode_depth := length (finally_modes s);
  |} in
  let s := set_pending_exception None (set_pending_return None s) in
  set_call_stack (frame :: call_stack s) s).

(** The new frame's registers, all cleared. *)
Definition open_registers : M unit := modify (fun s =>
  let s := set_register_base (register_base s + max_registers (config s)) s in
  let req_len := register_base s + max_registers (config s) in
  if zlen (registers s) <? req_len
  then set_registers (resize (registers s) req_len JUndefined) s
  else set_registers (fill (registers s) (register_base s) req_len JUndefined) s).

(** [for (i, val) in arg_vals.into_iter().enumerate()], from register [reg]
    on. *)
Fixpoint write_args (reg : Z) (vals : list Value) : M unit :=
  match vals with
  | [] => mret ()
  | val :: vals =>
      max ← gets (fun s => max_registers (config s));
      _ ← (if wrap_u32 reg <? max then write_reg (wrap_u32 reg) val else mret ());
      write_args (reg + 1) vals
  end.

(** The function a value names, and room for one more frame. *)
Definition resolve_function (m : Ir3Module) (func_idx : Z) : M Ir3FunctionDesc :=
  func ← lift (fun _ => ok_or (FunctionNotFound func_idx (wrap_u32 (zlen (function_table m))))
                          (function_table m !! Z.to_nat func_idx));
  depth ← gets (fun s => zlen (call_stack s));
  max ← gets (fun s => max_call_depth (config s));
  if max <=? depth then raise (StackOverflow depth max) else mret func.

Definition exec_call (m : Ir3Module) (callee : Z) (args : RegRange) (dst : Z)
    : M (option Value) :=
  callee_val ← lift (fun s => read_reg s callee);
  match callee_val with
  | JFunction func_idx =>
      func ← resolve_function m func_idx;
      arg_vals ← lift (fun s =>
        read_args s (start args) 0 (Z.to_nat (Z.min (count args) (arity func))));
      _ ← push_frame func_idx dst None;
      _ ← open_registers;
      _ ← write_args 0 arg_vals;
      _ ← jump (entry func);
      mret None
  | _ => raise (TypeError "function" (type_name callee_val))
  end.

(** [if let Some(this_obj) = self.heap.get_mut(..) { .. }] *)
Definition mark_constructed (this_id func_idx : Z) : M unit := modify (fun s =>
  match heap s !! Z.to_nat this_id with
  | Some this_obj =>
      set_heap (<[Z.to_nat this_id :=
        mkObj (properties this_obj) (prototype this_obj) (Some func_idx)]> (heap s)) s
  | None => s
  end).

Definition exec_construct (m : Ir3Module) (callee : Z) (args : RegRange) (dst : Z)
    : M (option Value) :=
  callee_val ← lift (fun s => read_reg s callee);
  match callee_val with
  | JFunction func_idx =>
      func ← resolve_function m func_idx;
      proto ← ensure_function_prototype func_idx;
      this_id ← alloc_object_with_prototype (Some proto);
      _ ← mark_constructed this_id func_idx;
      let this_val := JObject this_id in
      arg_vals ← lift (fun s =>
        read_args s (start args) 0 (Z.to_nat (Z.min (count args) (arity func))));
      _ ← push_frame func_idx dst (Some this_val);
      _ ← open_registers;
      _ ← write_reg 0 this_val;
      _ ← write_args 1 arg_vals;
      _ ← jump (entry func);
      mret None
  | _ => raise (TypeError "function" (type_name callee_val))
  end.

Definition exec_return (value : Z) : M (option Value) :=
  return_val ← lift (fun s => read_reg s value);
  _ ← modify suspend_current_abrupt_completion;
  _ ← modify (set_pending_exception None);
  _ ← modify (set_pending_return (Some return_val));
  target ← call pop_current_finally_target;
  match target with
  | Some finally_target => _ ← jump finally_target; mret None
  | None =>
      _ ← modify (set_pending_return None);
      complete_return return_val
  end.

(** ** Host calls *)

Definition exec_hostcall (capability : CapabilityTag) (dst : Z) : M (option Value) :=
  granted ← gets (fun s => granted_capabilities (config s));
  if negb (existsb (fun c => bool_decide (c = cap_name capability)) granted) then
    _ ← emit_witness CapabilityChecked (Some ("denied:" +:+ cap_name capability));
    raise (CapabilityDenied (cap_name capability))
  else
    _ ← emit_witness HostcallDispatched (Some ("cap:" +:+ cap_name capability));
    _ ← emit_witness CapabilityChecked (Some ("granted:" +:+ cap_name capability));
    _ ← modify (fun s => set_hostcall_decisions
          (hostcall_decisions s ++
            [mkDecision (zlen (hostcall_decisions s)) capability true (wrap_u32 (ip s))]) s);
    _ ← write_reg dst JUndefined;
    _ ← advance;
    mret None.

(** ** Objects *)

Definition exec_get_property (obj key dst : Z) : M (option Value) :=
  obj_val ← lift (fun s => read_reg s obj);
  key_val ← lift (fun s => read_reg s key);
  let key_str := property_key key_val in
  match obj_val with
  | JObject oid =>
      prop ← lift (fun s => prototype_chain_get s oid key_str);
      _ ← write_reg dst prop;
      _ ← advance;
      mret None
  | _ => raise (TypeError "object" (type_name obj_val))
  end.

(** [self.heap.get_mut(oid).ok_or(ObjectNotFound)?.properties = f(..)] *)
Definition update_properties (oid : ObjectId) (f : gmap string Value -> gmap string Value)
    : M unit :=
  obj ← lift (fun s => heap_get s oid);
  modify (fun s => set_heap (<[Z.to_nat oid :=
    mkObj (f (properties obj)) (prototype obj) (constructor_function obj)]> (heap s)) s).

Definition exec_set_property (obj key val : Z) : M (option Value) :=
  obj_val ← lift (fun s => read_reg s obj);
  key_val ← lift (fun s => read_reg s key);
  set_val ← lift (fun s => read_reg s val);
  let key_str := property_key key_val in
  match obj_val with
  | JObject oid =>
      _ ← update_properties oid (insert key_str set_val);
      _ ← advance;
      mret None
  | _ => raise (TypeError "object" (type_name obj_val))
  end.

Definition exec_delete_property (obj key dst : Z) : M (option Value) :=
  obj_val ← lift (fun s => read_reg s obj);
  key_val ← lift (fun s => read_reg s key);
  let key_str := property_key key_val in
  match obj_val with
  | JObject oid =>
      _ ← update_properties oid (delete key_str);
      _ ← mark_deleted_for_in_iterators oid key_str;
      _ ← write_reg dst (JBool true);
      _ ← advance;
      mret None
  | _ => raise (TypeError "object" (type_name obj_val))
  end.

Definition exec_new_object (dst : Z) : M (option Value) :=
  id ← alloc_object;
  _ ← write_reg dst (JObject id);
  _ ← advance;
  mret None.

(** The loop over the parts, from index [i] on. *)
Fixpoint template_parts (s : InterpreterCore) (start : Z) (i : Z) (n : nat) (acc : string)
    : result InterpreterError string :=
  match n with
  | O => Ok acc
  | S n =>
      if u32_max <? start + i then Err (RegisterOutOfBounds start (max_registers (config s)))
      else
        val ← read_reg s (start + i);
        template_parts s start (i + 1) n (acc +:+ concat_operand val)
  end.

(** ** Results of evaluation helpers *)

(** [let result = ..?; self.write_reg(dst, result)?; self.ip += 1;] *)
Definition store (dst : Z) (m : M Value) : M (option Value) :=
  result ← m;
  _ ← write_reg dst result;
  _ ← advance;
  mret None.

(** [store] for a helper that only reads the state. *)
Definition store_eval (dst : Z) (f : InterpreterCore -> result InterpreterError Value)
    : M (option Value) := store dst (lift f).

Definition exec_load_str (m : Ir3Module) (dst pool_index : Z) : M (option Value) :=
  store_eval dst (fun _ =>
    JStr <$> ok_or (StringPoolOutOfBounds pool_index (wrap_u32 (zlen (constant_pool m))))
      (constant_pool m !! Z.to_nat pool_index)).

(** ** Iteration and jumps *)

(** The two [..Next] instructions, over the iterator's advance. *)
Definition exec_iterator_next (step : Value -> M (option Value)) (iterator value_dst done_target : Z)
    : M (option Value) :=
  it ← lift (fun s => read_reg s iterator);
  next ← step it;
  match next with
  | Some value => _ ← write_reg value_dst value; _ ← advance; mret None
  | None => _ ← jump done_target; mret None
  end.

Definition exec_jump_if (test : Value -> bool) (cond target : Z) : M (option Value) :=
  val ← lift (fun s => read_reg s cond);
  _ ← (if test val then jump target else advance);
  mret None.

(** ** Exceptions *)

Definition exec_begin_try (catch_target : Z) (finally_target : option Z) : M (option Value) :=
  _ ← modify (fun s => set_catch_frames
        (mkCatch catch_target finally_target (length (call_stack s)) :: catch_frames s) s);
  _ ← advance;
  mret None.

Definition exec_end_try : M (option Value) :=
  _ ← call pop_current_try_frame;
  _ ← advance;
  mret None.

Definition describe_thrown (thrown : Value) : string :=
  match thrown with
  | JStr s => s
  | JInt n => int_to_string n
  | JBool b => bool_to_string b
  | JUndefined => "undefined"
  | JNull => "null"
  | _ => "[object]"
  end.

(** Unwinds to the nearest handler, or fails with the uncaught value. *)
Definition unwind_to_handler (thrown : Value) : M (option Value) :=
  frame ← call pop_exception_target_frame;
  match frame with
  | Some frame => _ ← jump (catch_target frame); mret None
  | None =>
      _ ← modify (set_suspended_abrupt_completions []);
      raise (UncaughtException (describe_thrown thrown))
  end.

Definition exec_throw (value : Z) : M (option Value) :=
  thrown ← lift (fun s => read_reg s value);
  _ ← modify suspend_current_abrupt_completion;
  _ ← modify (set_pending_return None);
  _ ← modify (set_pending_exception (Some thrown));
  unwind_to_handler thrown.

Definition exec_enter_catch (dst : Z) : M (option Value) :=
  exception ← gets (fun s => default JUndefined (pending_exception s));
  _ ← modify (set_pending_exception None);
  _ ← modify restore_suspended_abrupt_completion;
  _ ← write_reg dst exception;
  _ ← advance;
  mret None.

Definition exec_enter_finally : M (option Value) :=
  _ ← modify (fun s =>
    let mode :=
      if bool_decide (is_Some (pending_exception s)) then FException
      else if bool_decide (is_Some (pending_return s)) then FReturn
      else FNormal in
    set_finally_modes (mode :: finally_modes s) s);
  _ ← advance;
  mret None.

(** [self.finally_modes.pop().unwrap_or(FinallyMode::Normal)] *)
Definition pop_finally_mode (s : InterpreterCore) : InterpreterCore * FinallyMode :=
  match finally_modes s with
  | mode :: rest => (set_finally_modes rest s, mode)
  | [] => (s, FNormal)
  end.

Definition exec_end_finally : M (option Value) :=
  mode ← call pop_finally_mode;
  match mode with
  | FException =>
      pending ← gets pending_exception;
      match pending with
      | Some thrown => unwind_to_handler thrown
      | None => _ ← advance; mret None
      end
  | FReturn =>
      pending ← gets pending_return;
      match pending with
      | Some return_val =>
          _ ← modify (set_pending_return None);
          target ← call pop_current_finally_target;
          match target with
          | Some finally_target =>
              _ ← modify (set_pending_return (Some return_val));
              _ ← jump finally_target;
              mret None
          | None => complete_return return_val
          end
      | None => _ ← advance; mret None
      end
  | FNormal => _ ← advance; mret None
  end.

(** ** Dispatch *)

Definition exec_instr (m : Ir3Module) (instr : Ir3Instruction.t) : M (option Value) :=
  match instr with
  | Ir3Instruction.LoadInt dst value => store_eval dst (fun _ => Ok (JInt value))
  | Ir3Instruction.LoadStr dst pool_index => exec_load_str m dst pool_index
  | Ir3Instruction.LoadBool dst value => store_eval dst (fun _ => Ok (JBool value))
  | Ir3Instruction.LoadNull dst => store_eval dst (fun _ => Ok JNull)
  | Ir3Instruction.LoadUndefined dst => store_eval dst (fun _ => Ok JUndefined)
  | Ir3Instruction.Add dst lhs rhs => store_eval dst (fun s => eval_add s lhs rhs)
  | Ir3Instruction.Sub dst lhs rhs => store_eval dst (fun s => eval_arith s lhs rhs "sub")
  | Ir3Instruction.Mul dst lhs rhs => store_eval dst (fun s => eval_arith s lhs rhs "mul")
  | Ir3Instruction.Div dst lhs rhs => store_eval dst (fun s => eval_div s lhs rhs)
  | Ir3Instruction.ForInInit src dst =>
      store dst (value ← lift (fun s => read_reg s src); init_for_in_iterator value)
  | Ir3Instruction.ForInNext iterator value_dst done_target =>
      exec_iterator_next advance_for_in_iterator iterator value_dst done_target
  | Ir3Instruction.ForOfInit src dst =>
      store dst (value ← lift (fun s => read_reg s src); init_for_of_iterator value)
  | Ir3Instruction.ForOfNext iterator value_dst done_target =>
      exec_iterator_next advance_for_of_iterator iterator value_dst done_target
  | Ir3Instruction.IteratorClose iterator reason =>
      it ← lift (fun s => read_reg s iterator);
      _ ← close_iterator it reason;
      _ ← advance;
      mret None
  | Ir3Instruction.Move dst src => store_eval dst (fun s => read_reg s src)
  | Ir3Instruction.Jump target => _ ← jump target; mret None
  | Ir3Instruction.JumpIf cond target => exec_jump_if is_truthy cond target
  | Ir3Instruction.JumpIfNullish cond target => exec_jump_if is_nullish cond target
  | Ir3Instruction.Call callee args dst => exec_call m callee args dst
  | Ir3Instruction.Return value => exec_return value
  | Ir3Instruction.HostCall capability _ dst => exec_hostcall capability dst
  | Ir3Instruction.GetProperty obj key dst => exec_get_property obj key dst
  | Ir3Instruction.SetProperty obj key val => exec_set_property obj key val
  | Ir3Instruction.DeleteProperty obj key dst => exec_delete_property obj key dst
  | Ir3Instruction.NewObject dst | Ir3Instruction.NewArray dst => exec_new_object dst
  | Ir3Instruction.Mod dst lhs rhs => store_eval dst (fun s => eval_mod s lhs rhs)
  | Ir3Instruction.Exp dst lhs rhs => store_eval dst (fun s => eval_exp s lhs rhs)
  | Ir3Instruction.UnaryNeg dst src => store_eval dst (fun s => eval_unary_neg s src)
  | Ir3Instruction.UnaryPlus dst src => store_eval dst (fun s => eval_unary_plus s src)
  | Ir3Instruction.LogicalNot dst src =>
      store_eval dst (fun s => val ← read_reg s src; Ok (JBool (negb (is_truthy val))))
  | Ir3Instruction.BitNot dst src => store_eval dst (fun s => eval_bit_not s src)
  | Ir3Instruction.TypeOf dst src =>
      store_eval dst (fun s => val ← read_reg s src; Ok (JStr (typeof_name val)))
  | Ir3Instruction.Void dst src =>
      store_eval dst (fun s => _ ← read_reg s src; Ok JUndefined)
  | Ir3Instruction.Lt dst lhs rhs => store_eval dst (fun s => eval_relational s lhs rhs "<")
  | Ir3Instruction.Lte dst lhs rhs => store_eval dst (fun s => eval_relational s lhs rhs "<=")
  | Ir3Instruction.Gt dst lhs rhs => store_eval dst (fun s => eval_relational s lhs rhs ">")
  | Ir3Instruction.Gte dst lhs rhs => store_eval dst (fun s => eval_relational s lhs rhs ">=")
  | Ir3Instruction.Eq dst lhs rhs => store_eval dst (fun s => eval_equality s lhs rhs false false)
  | Ir3Instruction.StrictEq dst lhs rhs =>
      store_eval dst (fun s => eval_equality s lhs rhs true false)
  | Ir3Instruction.NotEq dst lhs rhs =>
      store_eval dst (fun s => eval_equality s lhs rhs false true)
  | Ir3Instruction.StrictNotEq dst lhs rhs =>
      store_eval dst (fun s => eval_equality s lhs rhs true true)
  | Ir3Instruction.BitAnd dst lhs rhs => store_eval dst (fun s => eval_bitwise s lhs rhs "&")
  | Ir3Instruction.BitOr dst lhs rhs => store_eval dst (fun s => eval_bitwise s lhs rhs "|")
  | Ir3Instruction.BitXor dst lhs rhs => store_eval dst (fun s => eval_bitwise s lhs rhs "^")
  | Ir3Instruction.Shl dst lhs rhs => store_eval dst (fun s => eval_bitwise s lhs rhs "<<")
  | Ir3Instruction.Shr dst lhs rhs => store_eval dst (fun s => eval_bitwise s lhs rhs ">>")
  | Ir3Instruction.Ushr dst lhs rhs => store_eval dst (fun s => eval_bitwise s lhs rhs ">>>")
  | Ir3Instruction.InstanceOf dst lhs rhs => store dst (eval_instanceof lhs rhs)
  | Ir3Instruction.InOp dst lhs rhs => store_eval dst (fun s => eval_in_operator s lhs rhs)
  | Ir3Instruction.Construct callee args dst => exec_construct m callee args dst
  | Ir3Instruction.TemplateLiteral parts dst =>
      store_eval dst (fun s =>
        JStr <$> template_parts s (start parts) 0 (Z.to_nat (count parts)) "")
  | Ir3Instruction.Halt => raise Halted
  | Ir3Instruction.BeginTry catch_target finally_target =>
      exec_begin_try catch_target finally_target
  | Ir3Instruction.EndTry => exec_end_try
  | Ir3Instruction.Throw value => exec_throw value
  | Ir3Instruction.EnterCatch dst => exec_enter_catch dst
  | Ir3Instruction.EnterFinally => exec_enter_finally
  | Ir3Instruction.EndFinally => exec_end_finally
  end.

(** ** The loop *)

(** One iteration of [loop]. *)
Definition loop_step (m : Ir3Module) : M (option Value) := fun s =>
  match instructions m !! Z.to_nat (ip s) with
  | None =>
      match call_stack s with
      | _ :: _ => complete_return JUndefined s
      | [] => (s, Some <$> read_reg s 0)
      end
  | Some instr =>
      if instruction_budget (config s) <=? instructions_executed s then
        (s, Err (BudgetExhausted (instructions_executed s) (instruction_budget (config s))))
      else exec_instr m instr (set_instructions_executed (instructions_executed s + 1) s)
  end.

(** [None]: out of fuel. *)
Fixpoint run_loop_fuel (fuel : nat) (m : Ir3Module) (s : InterpreterCore)
    : option (InterpreterCore * result InterpreterError Value) :=
  match fuel with
  | O => None
  | S fuel =>
      match loop_step m s with
      | (s, Ok None) => run_loop_fuel fuel m s
      | (s, Ok (Some v)) => Some (s, Ok v)
      | (s, Err e) => Some (s, Err e)
      end
  end.

(** An executed instruction pushes at most one frame and an iteration that
    executes none pops one. *)
Definition run_fuel (s : InterpreterCore) : nat :=
  (2 * Z.to_nat (instruction_budget (config s) - instructions_executed s) +
   length (call_stack s) + 1)%nat.

Definition run_loop (m : Ir3Module) (s : InterpreterCore)
    : option (InterpreterCore * result InterpreterError Value) :=
  run_loop_fuel (run_fuel s) m s.

(** ** [execute] *)

Module Core.
Definition new (cfg : InterpreterConfig) (trace : string) : InterpreterCore := {|
  config := cfg;
  registers := replicate (Z.to_nat (max_registers cfg)) JUndefined;
  call_stack := [];
  heap := [];
  iterators := [];
  function_prototypes := ∅;
  ip := 0;
  instructions_executed := 0;
  witness_events := [];
  hostcall_decisions := [];
  events := [];
  witness_seq := 0;
  trace_id := trace;
  register_base := 0;
  catch_frames := [];
  pending_exception := None;
  pending_return := None;
  suspended_abrupt_completions := [];
  finally_modes := [];
  last_pre_run_seed := None;
  last_post_run_seed := None;
|}.

Definition capture_execution_seed (s : InterpreterCore) : ExecutionSeed :=
  let max_regs := max_registers (config s) in
  let regs := resize (registers s) max_regs JUndefined in
  mkSeed (take (Z.to_nat max_regs) regs) (heap s) (function_prototypes s).

Definition reset_execution_state_from_seed (seed : ExecutionSeed) (s : InterpreterCore)
    : InterpreterCore := {|
  config := config s;
  registers := seed_registers seed;
  call_stack := [];
  heap := seed_heap seed;
  iterators := [];
  function_prototypes := seed_function_prototypes seed;
  ip := 0;
  instructions_executed := 0;
  witness_events := [];
  hostcall_decisions := [];
  events := [];
  witness_seq := 0;
  trace_id := trace_id s;
  register_base := 0;
  catch_frames := [];
  pending_exception := None;
  pending_return := None;
  suspended_abrupt_completions := [];
  finally_modes := [];
  last_pre_run_seed := last_pre_run_seed s;
  last_post_run_seed := last_post_run_seed s;
|}.

(** The seed [execute] starts from: when the caller-visible state is what the
    previous run left, the state before that run. *)
Definition choose_seed (s : InterpreterCore) : ExecutionSeed :=
  let current_seed := capture_execution_seed s in
  match last_pre_run_seed s, last_post_run_seed s with
  | Some previous_pre_run, Some previous_post_run =>
      if bool_decide (current_seed = previous_post_run) then previous_pre_run
      else current_seed
  | _, _ => current_seed
  end.

(** The part of [execute] before [run_loop]. *)
Definition prepare (s : InterpreterCore) : InterpreterCore :=
  let seed := choose_seed s in
  let s := set_last_pre_run_seed (Some seed) s in
  let s := reset_execution_state_from_seed seed s in
  fst (push_event "execution_started" "ok" None s).

(** The event pushed after [run_loop]. *)
Definition completion_event (r : result InterpreterError Value) : M unit :=
  match r with
  | Ok _ => push_event "execution_completed" "ok" None
  | Err Halted => push_event "execution_halted" "ok" None
  | Err e => push_event "execution_failed" "fail" (Some (InterpreterError_to_string e))
  end.

(** The [ExecutionResult] with the recorded traces moved out of the core. *)
Definition take_result (value : Value) (s : InterpreterCore)
    : InterpreterCore * result InterpreterError ExecutionResult :=
  let s := fst (emit_witness ExecutionCompleted None s) in
  (set_events [] (set_hostcall_decisions [] (set_witness_events [] s)),
   Ok (mkResult value (instructions_executed s) (witness_events s) (hostcall_decisions s)
         (events s))).

(** The part of [execute] after [run_loop]. *)
Definition finish (s : InterpreterCore) (r : result InterpreterError Value)
    : InterpreterCore * result InterpreterError ExecutionResult :=
  let s := fst (completion_event r s) in
  let s := set_last_post_run_seed (Some (capture_execution_seed s)) s in
  match r with
  | Ok v => take_result v s
  | Err Halted =>
      let final_value := match read_reg s 0 with Ok v => v | Err _ => JUndefined end in
      take_result final_value s
  | Err e => (s, Err e)
  end.

Definition execute (m : Ir3Module) (s : InterpreterCore)
    : option (InterpreterCore * result InterpreterError ExecutionResult) :=
  '(s, r) ← run_loop m (prepare s);
  Some (finish s r).
End Core.

(** ** Lanes *)

Inductive LaneChoice := QuickJs | V8.

Inductive LaneReason := SecuritySensitive | ThroughputOptimized | PolicyDirective | DefaultFallback.

#[export] Instance LaneChoice_eq_dec : EqDecision LaneChoice.
Proof. solve_decision. Defined.

Definition LaneChoice_stable_label (l : LaneChoice) : string :=
  match l with
  | QuickJs => "baseline_deterministic_profile"
  | V8 => "baseline_throughput_profile"
  end.

Definition LaneChoice_legacy_lineage_label (l : LaneChoice) : string :=
  match l with
  | QuickJs => "quickjs_inspired_native"
  | V8 => "v8_inspired_native"
  end.

Definition LaneChoice_from_label (label : string) : option LaneChoice :=
  if bool_decide (label ∈ ["baseline_deterministic_profile"; "quickjs_inspired_native";
                           "QuickJs"; "quickjs"]) then Some QuickJs
  else if bool_decide (label ∈ ["baseline_throughput_profile"; "v8_inspired_native";
                                "V8"; "v8"]) then Some V8
  else None.

Definition LaneReason_stable_label (r : LaneReason) : string :=
  match r with
  | SecuritySensitive => "security_sensitive"
  | ThroughputOptimized => "throughput_optimized"
  | PolicyDirective => "policy_directive"
  | DefaultFallback => "default_deterministic_profile"
  end.

Definition LaneReason_from_label (label : string) : option LaneReason :=
  if bool_decide (label ∈ ["security_sensitive"; "SecuritySensitive"]) then
    Some SecuritySensitive
  else if bool_decide (label ∈ ["throughput_optimized"; "ThroughputOptimized"]) then
    Some ThroughputOptimized
  else if bool_decide (label ∈ ["policy_directive"; "PolicyDirective"]) then
    Some PolicyDirective
  else if bool_decide (label ∈ ["default_deterministic_profile"; "DefaultFallback"]) then
    Some DefaultFallback
  else None.

(** [QuickJsLane::execute] and [V8Lane::execute]: a fresh core per run. *)
Definition lane_execute (cfg : InterpreterConfig) (m : Ir3Module) (trace : string)
    : option (result InterpreterError ExecutionResult) :=
  snd <$> Core.execute m (Core.new cfg trace).

Record RoutedResult := mkRouted {
  lane : LaneChoice;
  reason : LaneReason;
  routed : ExecutionResult;
}.

(** [LaneRouter { quickjs, v8 }] *)
Record LaneRouter := mkRouter {
  quickjs : InterpreterConfig;
  v8 : InterpreterConfig;
}.

Module Router.
Definition new : LaneRouter := mkRouter quickjs_defaults v8_defaults.

Definition with_configs (quickjs_config v8_config : InterpreterConfig) : LaneRouter :=
  mkRouter quickjs_config v8_config.

Definition select_lane (m : Ir3Module) : LaneChoice * LaneReason :=
  if negb (bool_decide (length (required_capabilities m) = 0%nat)) then
    (QuickJs, SecuritySensitive)
  else if 1000 <? zlen (instructions m) then (V8, ThroughputOptimized)
  else (QuickJs, DefaultFallback).

Definition execute (r : LaneRouter) (m : Ir3Module) (trace : string)
    (force_lane : option LaneChoice) : option (result InterpreterError RoutedResult) :=
  let '(lane, reason) :=
    match force_lane with
    | Some forced => (forced, PolicyDirective)
    | None => select_lane m
    end in
  match
    match lane with
    | QuickJs => lane_execute (quickjs r) m trace
    | V8 => lane_execute (v8 r) m trace
    end
  with
  | Some (Ok res) => Some (Ok (mkRouted lane reason res))
  | Some (Err e) => Some (Err e)
  | None => None
  end.
End Router.
