(* ===== verification/InterpShape.v ===== *)
(** * The shape of one loop iteration

    Every iteration of [run_loop] is one of five transitions of an abstract
    control machine: it leaves the call stack alone ([calm]), it records a
    granted or denied host call, it pushes a frame, it pops one, or it unwinds
    several.  [loop_step_shape] proves it for every instruction; the properties
    of InterpProgress.v and InterpTraces.v follow from the shape alone. *)
From stdpp Require Import base numbers list strings pretty gmap.
From Stdlib Require Import Strings.Byte.
From S2P Require Import Prelude Bytes Text HashTiers DetSerde IrContract.
From S2P Require Import IrContractCorrect InterpCore BaselineInterp.
Open Scope Z_scope.

(** ** Registers as the program sees them *)

Definition reg_at (s : InterpreterCore) (i : Z) : Value :=
  default JUndefined (registers s !! Z.to_nat i).

(** The registers below [b] are the same. *)
Definition low_regs (b : Z) (s s' : InterpreterCore) : Prop :=
  forall i, 0 <= i < b -> reg_at s' i = reg_at s i.

(** The fields no instruction handler writes. *)
Definition same_run (s s' : InterpreterCore) : Prop :=
  config s' = config s /\ trace_id s' = trace_id s /\
  instructions_executed s' = instructions_executed s /\ events s' = events s /\
  last_pre_run_seed s' = last_pre_run_seed s /\ last_post_run_seed s' = last_post_run_seed s.

(** The recorded traces are the same. *)
Definition same_traces (s s' : InterpreterCore) : Prop :=
  witness_events s' = witness_events s /\ witness_seq s' = witness_seq s /\
  hostcall_decisions s' = hostcall_decisions s.

Definition calm (s s' : InterpreterCore) : Prop :=
  same_run s s' /\ same_traces s s' /\ call_stack s' = call_stack s /\
  register_base s' = register_base s /\ low_regs (register_base s) s s'.

#[export] Instance low_regs_refl b : Reflexive (low_regs b).
Proof. by intros s i Hi. Qed.

Lemma low_regs_trans b s1 s2 s3 : low_regs b s1 s2 -> low_regs b s2 s3 -> low_regs b s1 s3.
Proof. intros H1 H2 i Hi. by rewrite H2, H1. Qed.

Lemma low_regs_mono b b' s s' : b' <= b -> low_regs b s s' -> low_regs b' s s'.
Proof. intros Hb H i Hi. apply H. lia. Qed.

(** States with the same registers. *)
Lemma low_regs_eq b s s' : registers s' = registers s -> low_regs b s s'.
Proof. intros H i _. unfold reg_at. by rewrite H. Qed.

#[export] Instance same_run_refl : Reflexive same_run.
Proof. by intros s; unfold same_run. Qed.
#[export] Instance same_run_trans : Transitive same_run.
Proof. unfold same_run. intros s1 s2 s3 H1 H2. intuition congruence. Qed.
#[export] Instance same_traces_refl : Reflexive same_traces.
Proof. by intros s; unfold same_traces. Qed.
#[export] Instance same_traces_trans : Transitive same_traces.
Proof. unfold same_traces. intros s1 s2 s3 H1 H2. intuition congruence. Qed.

#[export] Instance calm_refl : Reflexive calm.
Proof. intros s. by split_and!. Qed.

#[export] Instance calm_trans : Transitive calm.
Proof.
  intros s1 s2 s3 (R1 & T1 & C1 & B1 & L1) (R2 & T2 & C2 & B2 & L2). split_and!.
  - by transitivity s2.
  - by transitivity s2.
  - congruence.
  - congruence.
  - eapply low_regs_trans; [done|]. by rewrite <- B1.
Qed.

(** ** Computations whose final state is related to the initial one *)

Definition tr {A} (R : InterpreterCore -> InterpreterCore -> Prop) (m : M A) : Prop :=
  forall s, R s (fst (m s)).

Lemma bind_unfold {A B} (m : M A) (f : A -> M B) s :
  (m ≫= f) s =
  match m s with (s', Ok a) => f a s' | (s', Err e) => (s', Err e) end.
Proof. unfold mbind, M_bind. by destruct (m s) as [s' []]. Qed.

Section tr.
Context (R : InterpreterCore -> InterpreterCore -> Prop) `{!Reflexive R, !Transitive R}.

Lemma tr_bind {A B} (m : M A) (f : A -> M B) :
  tr R m -> (forall a, tr R (f a)) -> tr R (m ≫= f).
Proof.
  intros Hm Hf s. rewrite bind_unfold. specialize (Hm s).
  destruct (m s) as [s' [a|e]]; simpl in *; [|done]. transitivity s'; [done|apply Hf].
Qed.

Lemma tr_ret {A} (a : A) : tr R (mret a : M A).
Proof. by intros s. Qed.
Lemma tr_raise {A} e : tr R (raise e : M A).
Proof. by intros s. Qed.
Lemma tr_gets {A} (f : InterpreterCore -> A) : tr R (gets f).
Proof. by intros s. Qed.
Lemma tr_lift {A} (f : InterpreterCore -> result InterpreterError A) : tr R (lift f).
Proof. by intros s. Qed.
Lemma tr_modify f : (forall s, R s (f s)) -> tr R (modify f).
Proof. by intros H s. Qed.
Lemma tr_call {A} (f : InterpreterCore -> InterpreterCore * A) :
  (forall s, R s (fst (f s))) -> tr R (call f).
Proof. intros H s. unfold call. specialize (H s). by destruct (f s). Qed.
End tr.

Create HintDb tr.
#[export] Hint Resolve tr_ret tr_raise tr_gets tr_lift : tr.
#[export] Hint Extern 1 (0 <= _) => lia : tr.

(** Splits a computation along its binds and matches. *)
Ltac tr_split :=
  repeat first
    [ progress intros
    | solve [auto with tr]
    | apply tr_bind; [apply _|..]
    | match goal with |- tr _ (match ?x with _ => _ end) => destruct x end ].

(** ** Register writes *)

Lemma lookup_resize {A} (l : list A) n x i :
  (i < length l)%nat -> (i < Z.to_nat n)%nat -> resize l n x !! i = l !! i.
Proof.
  intros Hl Hn. unfold resize. rewrite lookup_app_l by (rewrite length_take; lia).
  by apply lookup_take_lt.
Qed.

(** Growing the register file is not visible. *)
Lemma resize_default (l : list Value) n i :
  (i < Z.to_nat n)%nat ->
  default JUndefined (resize l n JUndefined !! i) = default JUndefined (l !! i).
Proof.
  intros Hn. destruct (decide (i < length l)%nat) as [Hi|Hi]; [by rewrite lookup_resize|].
  rewrite (lookup_ge_None_2 l) by lia. unfold resize.
  destruct ((take (Z.to_nat n) l ++ replicate (Z.to_nat n - length l) JUndefined) !! i)
    as [v|] eqn:E;
    [|done].
  rewrite lookup_app_r in E by (rewrite length_take; lia).
  apply lookup_replicate in E as [-> _]. done.
Qed.

Lemma write_reg_calm reg v : 0 <= reg -> tr calm (write_reg reg v).
Proof.
  intros Hreg s. assert (Hw : low_regs (register_base s) s (fst (write_reg reg v s))).
  { intros i Hi. unfold write_reg, reg_at.
    destruct (max_registers (config s) <=? reg); [done|]. cbn [fst set_registers registers].
    rewrite list_lookup_insert_ne by lia.
    destruct (zlen (registers s) <=? register_base s + reg) eqn:E; [|done].
    apply resize_default. lia. }
  unfold calm. split_and!; [..|exact Hw];
    unfold write_reg; by destruct (max_registers (config s) <=? reg).
Qed.

(** ** Handlers that leave the call stack alone *)

(** Closes [calm s s'] when [s'] is [s] with other fields assigned. *)
Ltac calm_set := unfold calm; split_and!; [done..|by apply low_regs_eq].

Lemma modify_calm f : (forall s, calm s (f s)) -> tr calm (modify f).
Proof. apply tr_modify. Qed.
#[export] Hint Extern 2 (tr calm (modify _)) => apply modify_calm; intros ?; calm_set : tr.

Lemma advance_calm : tr calm advance.
Proof. apply modify_calm. intros s. calm_set. Qed.
Lemma jump_calm t : tr calm (jump t).
Proof. apply modify_calm. intros s. calm_set. Qed.
Lemma alloc_object_with_prototype_calm p : tr calm (alloc_object_with_prototype p).
Proof. intros s. calm_set. Qed.
Lemma alloc_object_calm : tr calm alloc_object.
Proof. apply alloc_object_with_prototype_calm. Qed.
Lemma alloc_iterator_calm it : tr calm (alloc_iterator it).
Proof. intros s. calm_set. Qed.
Lemma put_iterator_calm h it : tr calm (put_iterator h it).
Proof. apply modify_calm. intros s. calm_set. Qed.
#[export] Hint Resolve advance_calm jump_calm alloc_object_with_prototype_calm alloc_object_calm
  alloc_iterator_calm put_iterator_calm : tr.

Lemma ensure_function_prototype_calm f : tr calm (ensure_function_prototype f).
Proof. unfold ensure_function_prototype. tr_split. Qed.
Lemma mark_constructed_calm i f : tr calm (mark_constructed i f).
Proof.
  apply modify_calm. intros s. destruct (heap s !! Z.to_nat i); [calm_set|done].
Qed.
Lemma mark_deleted_calm i k : tr calm (mark_deleted_for_in_iterators i k).
Proof. apply modify_calm. intros s. calm_set. Qed.
Lemma update_properties_calm i f : tr calm (update_properties i f).
Proof. unfold update_properties. tr_split. Qed.
#[export] Hint Resolve ensure_function_prototype_calm mark_constructed_calm mark_deleted_calm
  update_properties_calm : tr.

Lemma init_for_in_calm v : tr calm (init_for_in_iterator v).
Proof. unfold init_for_in_iterator. tr_split. Qed.
Lemma init_for_of_calm v : tr calm (init_for_of_iterator v).
Proof. unfold init_for_of_iterator. tr_split. Qed.
Lemma advance_for_in_calm v : tr calm (advance_for_in_iterator v).
Proof. unfold advance_for_in_iterator. tr_split. Qed.
Lemma advance_for_of_calm v : tr calm (advance_for_of_iterator v).
Proof. unfold advance_for_of_iterator. tr_split. Qed.
Lemma close_iterator_calm v r : tr calm (close_iterator v r).
Proof. unfold close_iterator. tr_split. Qed.
Lemma eval_instanceof_calm l r : tr calm (eval_instanceof l r).
Proof. unfold eval_instanceof. tr_split. Qed.
#[export] Hint Resolve init_for_in_calm init_for_of_calm advance_for_in_calm advance_for_of_calm
  close_iterator_calm eval_instanceof_calm write_reg_calm : tr.

Lemma store_calm dst m : 0 <= dst -> tr calm m -> tr calm (store dst m).
Proof. intros. unfold store. tr_split. Qed.
Lemma store_eval_calm dst f : 0 <= dst -> tr calm (store_eval dst f).
Proof. intros. apply store_calm; auto with tr. Qed.
Lemma exec_iterator_next_calm step it dst t :
  0 <= dst -> (forall v, tr calm (step v)) -> tr calm (exec_iterator_next step it dst t).
Proof. intros Hd Hs. unfold exec_iterator_next. tr_split. Qed.
Lemma exec_jump_if_calm test c t : tr calm (exec_jump_if test c t).
Proof. unfold exec_jump_if. tr_split. Qed.
Lemma exec_get_property_calm o k d : 0 <= d -> tr calm (exec_get_property o k d).
Proof. intros. unfold exec_get_property. tr_split. Qed.
Lemma exec_set_property_calm o k v : tr calm (exec_set_property o k v).
Proof. unfold exec_set_property. tr_split. Qed.
Lemma exec_delete_property_calm o k d : 0 <= d -> tr calm (exec_delete_property o k d).
Proof. intros. unfold exec_delete_property. tr_split. Qed.
Lemma exec_new_object_calm d : 0 <= d -> tr calm (exec_new_object d).
Proof. intros. unfold exec_new_object. tr_split. Qed.
Lemma exec_begin_try_calm c f : tr calm (exec_begin_try c f).
Proof. unfold exec_begin_try. tr_split. Qed.
Lemma exec_end_try_calm : tr calm exec_end_try.
Proof.
  unfold exec_end_try. tr_split. apply tr_call. intros s. unfold pop_current_try_frame.
  destruct (pop_matching _ _) as [[]|]; [calm_set|done].
Qed.
Lemma restore_suspended_calm s : calm s (restore_suspended_abrupt_completion s).
Proof.
  unfold restore_suspended_abrupt_completion.
  destruct (pending_exception s), (pending_return s), (suspended_abrupt_completions s) as [|[] ?];
    try done; calm_set.
Qed.
Lemma suspend_current_calm s : calm s (suspend_current_abrupt_completion s).
Proof.
  unfold suspend_current_abrupt_completion, take_current_abrupt_completion.
  destruct (pending_exception s), (pending_return s); calm_set.
Qed.
Lemma exec_enter_catch_calm d : 0 <= d -> tr calm (exec_enter_catch d).
Proof.
  intros. unfold exec_enter_catch. tr_split. apply modify_calm, restore_suspended_calm.
Qed.
Lemma exec_enter_finally_calm : tr calm exec_enter_finally.
Proof. unfold exec_enter_finally. tr_split. Qed.
#[export] Hint Resolve store_calm store_eval_calm exec_iterator_next_calm exec_jump_if_calm
  exec_get_property_calm exec_set_property_calm exec_delete_property_calm exec_new_object_calm
  exec_begin_try_calm exec_end_try_calm exec_enter_catch_calm exec_enter_finally_calm : tr.

(** ** The five transitions *)

(** One more frame, whose registers are above those of the caller. *)
Definition pushes (s s' : InterpreterCore) : Prop :=
  same_run s s' /\ same_traces s s' /\
  zlen (call_stack s) < max_call_depth (config s) /\
  (exists frame, call_stack s' = frame :: call_stack s /\
     fr_register_base frame = register_base s /\ 0 <= return_reg frame) /\
  register_base s' = register_base s + max_registers (config s) /\
  low_regs (Z.min (register_base s) (register_base s')) s s'.

(** The frames of [popped] are gone, the last of them being the outermost. *)
Definition pops (s s' : InterpreterCore) : Prop :=
  same_run s s' /\ same_traces s s' /\
  exists popped frame, call_stack s = popped ++ (frame :: call_stack s') /\
    register_base s' = fr_register_base frame /\
    low_regs (Z.min (register_base s) (register_base s')) s s'.

(** A witness of the host call at the current instruction. *)
Definition witness_at (s : InterpreterCore) (seq : Z) (k : WitnessEventKind) (detail : string)
    : WitnessEvent :=
  mkWitness seq k (wrap_u32 (ip s)) (ContentHash_compute (str_bytes detail))
    (instructions_executed s).

Definition stays (s s' : InterpreterCore) : Prop :=
  same_run s s' /\ call_stack s' = call_stack s /\ register_base s' = register_base s /\
  low_regs (register_base s) s s'.

Definition denies (s s' : InterpreterCore) (cap : CapabilityTag) : Prop :=
  stays s s' /\ hostcall_decisions s' = hostcall_decisions s /\
  ~ (cap_name cap ∈ granted_capabilities (config s)) /\
  witness_events s' = witness_events s ++
    [witness_at s (witness_seq s) CapabilityChecked ("denied:" +:+ cap_name cap)] /\
  witness_seq s' = witness_seq s + 1.

Definition grants (s s' : InterpreterCore) (cap : CapabilityTag) : Prop :=
  stays s s' /\
  cap_name cap ∈ granted_capabilities (config s) /\
  hostcall_decisions s' = hostcall_decisions s ++
    [mkDecision (zlen (hostcall_decisions s)) cap true (wrap_u32 (ip s))] /\
  witness_events s' = witness_events s ++
    [witness_at s (witness_seq s) HostcallDispatched ("cap:" +:+ cap_name cap);
     witness_at s (witness_seq s + 1) CapabilityChecked ("granted:" +:+ cap_name cap)] /\
  witness_seq s' = witness_seq s + 2.

Definition shape (s s' : InterpreterCore) : Prop :=
  calm s s' \/ pushes s s' \/ pops s s'.

Definition frames_ok (s : InterpreterCore) : Prop :=
  0 <= max_registers (config s) /\ Forall (fun f => 0 <= return_reg f) (call_stack s).

(** [tr shape] for states whose frames return to a register. *)
Definition trp {A} (m : M A) : Prop := forall s, frames_ok s -> shape s (fst (m s)).

Lemma calm_shape s s1 s2 : calm s s1 -> shape s1 s2 -> shape s s2.
Proof.
  intros Hc [H|[H|H]]; [left; by transitivity s1|right; left|right; right];
    destruct Hc as (R1 & T1 & C1 & B1 & L1).
  - destruct H as (R2 & T2 & Hd & Hf & B2 & L2). destruct R1 as (Ec & R1).
    rewrite C1, B1, Ec in *. split_and!; [..|done|done|].
    + transitivity s1; [by split|done].
    + by transitivity s1.
    + done.
    + eapply low_regs_trans; [|exact L2]. eapply low_regs_mono; [|exact L1]. lia.
  - destruct H as (R2 & T2 & popped & frame & H1 & H2 & L2).
    split_and!; [by transitivity s1|by transitivity s1|]. exists popped, frame.
    rewrite <- C1, <- B1. split_and!; [done..|].
    eapply low_regs_trans; [|exact L2]. eapply low_regs_mono; [|exact L1]. lia.
Qed.

Lemma shape_calm s s1 s2 : shape s s1 -> calm s1 s2 -> shape s s2.
Proof.
  intros [H|[H|H]] Hc; [left; by transitivity s1|right; left|right; right];
    destruct Hc as (R2 & T2 & C2 & B2 & L2).
  - destruct H as (R1 & T1 & Hd & Hf & B1 & L1).
    unfold pushes. rewrite C2, B2. split_and!; [by transitivity s1|by transitivity s1|done..|].
    eapply low_regs_trans; [exact L1|]. eapply low_regs_mono; [|exact L2]. lia.
  - destruct H as (R1 & T1 & popped & frame & H1 & H2 & L1).
    split_and!; [by transitivity s1|by transitivity s1|]. exists popped, frame.
    rewrite C2, B2. split_and!; [done..|].
    eapply low_regs_trans; [exact L1|]. eapply low_regs_mono; [|exact L2]. lia.
Qed.

Lemma calm_frames_ok s s' : calm s s' -> frames_ok s -> frames_ok s'.
Proof. intros ((E & _) & _ & C & _). unfold frames_ok. by rewrite C, E. Qed.

Lemma tr_trp {A} (m : M A) : tr calm m -> trp m.
Proof. intros H s _. left. apply H. Qed.

Lemma trp_bind {A B} (m : M A) (f : A -> M B) :
  tr calm m -> (forall a, trp (f a)) -> trp (m ≫= f).
Proof.
  intros Hm Hf s Hok. rewrite bind_unfold. specialize (Hm s).
  destruct (m s) as [s' [a|e]]; simpl in *; [|by left].
  eapply calm_shape; [done|]. by apply Hf, (calm_frames_ok s).
Qed.

Ltac trp_split :=
  repeat first
    [ progress intros
    | apply trp_bind; [solve [tr_split]|]
    | solve [apply tr_trp; tr_split]
    | match goal with |- trp (match ?x with _ => _ end) => destruct x end ].

(** *** Calls *)

Lemma write_args_calm reg vals : tr calm (write_args reg vals).
Proof.
  revert reg. induction vals as [|v vals IH]; intros reg; simpl; tr_split.
  apply write_reg_calm. unfold wrap_u32. apply Z.mod_pos_bound. lia.
Qed.
#[export] Hint Resolve write_args_calm : tr.

Lemma fill_low {A} (l : list A) lo hi x i :
  (i < Z.to_nat lo)%nat -> (i < length l)%nat -> fill l lo hi x !! i = l !! i.
Proof.
  intros Hi Hl. unfold fill. rewrite lookup_app_l by (rewrite length_take; lia).
  by apply lookup_take_lt.
Qed.

Lemma open_registers_low s :
  0 <= max_registers (config s) ->
  let s' := fst (open_registers s) in
  low_regs (Z.min (register_base s) (register_base s')) s s'.
Proof.
  intros Hmax s' i Hi. subst s'. unfold open_registers, modify, reg_at in *. cbn [fst] in *.
  set (s1 := set_register_base _ s) in *.
  destruct (zlen (registers s1) <? register_base s1 + max_registers (config s1)) eqn:E;
    cbn [set_registers registers register_base] in *.
  - unfold s1 in *. cbn [registers register_base set_register_base config] in *.
    destruct (decide (Z.to_nat i < length (registers s))%nat).
    + rewrite lookup_resize; [done|done|]. unfold zlen in E. lia.
    + rewrite (lookup_ge_None_2 (registers s)) by lia.
      destruct (resize _ _ _ !! _) as [v|] eqn:Ev; [|done].
      unfold resize in Ev. rewrite lookup_app_r in Ev by (rewrite length_take; lia).
      by apply lookup_replicate in Ev as [-> _].
  - unfold s1 in *. cbn [registers register_base set_register_base config] in *.
    unfold zlen in E. destruct (decide (Z.to_nat i < length (registers s))%nat); [|lia].
    by rewrite fill_low by lia.
Qed.

(** Pushing a frame and opening its registers, then anything calm. *)
Lemma enter_pushes {A} func_idx dst this (k : M A) s :
  0 <= max_registers (config s) -> 0 <= dst ->
  zlen (call_stack s) < max_call_depth (config s) -> tr calm k ->
  shape s (fst ((_ ← push_frame func_idx dst this; _ ← open_registers; k) s)).
Proof.
  intros Hmax Hd Hdepth Hk. rewrite bind_unfold. unfold push_frame, modify at 1.
  set (s1 := set_call_stack _ _). cbn beta iota. rewrite bind_unfold.
  pose proof (open_registers_low s1 Hmax) as Hlow.
  unfold open_registers, modify at 1. unfold open_registers, modify in Hlow. cbn [fst] in Hlow.
  set (s2 := if _ <? _ then _ else _) in *. cbn beta iota.
  eapply shape_calm; [|apply Hk]. right; left.
  assert (Hs2 : same_run s s2 /\ same_traces s s2 /\ call_stack s2 = call_stack s1 /\
    register_base s2 = register_base s + max_registers (config s)).
  { unfold s2. by destruct (_ <? _). }
  destruct Hs2 as (HR & HT & HC & HB). split_and!; [done..| |done|].
  - exists (hd (mkFrame 0 0 0 None None None None 0 0) (call_stack s1)).
    rewrite HC. by split_and!.
  - intros i Hi. specialize (Hlow i Hi). exact Hlow.
Qed.

Lemma resolve_function_calm m f : tr calm (resolve_function m f).
Proof. unfold resolve_function. tr_split. Qed.
#[export] Hint Resolve resolve_function_calm : tr.

Lemma resolve_function_depth m f s s' func :
  resolve_function m f s = (s', Ok func) ->
  s' = s /\ zlen (call_stack s) < max_call_depth (config s).
Proof.
  unfold resolve_function. rewrite bind_unfold. unfold lift.
  destruct (ok_or _ _) as [fd|e]; [|done]. rewrite bind_unfold. cbn [gets].
  rewrite bind_unfold. cbn [gets].
  destruct (max_call_depth (config s) <=? zlen (call_stack s)) eqn:E; [done|].
  intros [= <- _]. split; [done|lia].
Qed.

(** Runs [resolve_function] in front of a computation that pushes. *)
Lemma resolve_then {B} m f (k : Ir3FunctionDesc -> M B) s :
  (forall func, zlen (call_stack s) < max_call_depth (config s) -> shape s (fst (k func s))) ->
  shape s (fst ((resolve_function m f ≫= k) s)).
Proof.
  intros Hk. rewrite bind_unfold. pose proof (resolve_function_calm m f s) as Hc.
  destruct (resolve_function m f s) as [s' [func|e]] eqn:E; [|by left].
  apply resolve_function_depth in E as [-> Hd]. by apply Hk.
Qed.

(** A calm step in front of a computation that pushes: the depth is the same. *)
Lemma calm_then {A B} (m : M A) (k : A -> M B) s :
  tr calm m -> frames_ok s -> zlen (call_stack s) < max_call_depth (config s) ->
  (forall a s1, frames_ok s1 -> zlen (call_stack s1) < max_call_depth (config s1) ->
     shape s1 (fst (k a s1))) ->
  shape s (fst ((m ≫= k) s)).
Proof.
  intros Hm Hok Hd Hk. rewrite bind_unfold. specialize (Hm s).
  destruct (m s) as [s1 [a|e]]; simpl in *; [|by left].
  eapply calm_shape; [done|]. apply Hk; [by eapply calm_frames_ok|].
  destruct Hm as ((E & _) & _ & C & _). by rewrite C, E.
Qed.

Lemma exec_call_shape m c a d : 0 <= d -> trp (exec_call m c a d).
Proof.
  intros Hd. unfold exec_call. apply trp_bind; [tr_split|]. intros v.
  destruct v; try (by trp_split). intros s Hok. apply resolve_then. intros func Hdepth.
  apply calm_then; [tr_split|done..|]. intros vals s1 [? ?] ?.
  apply enter_pushes; [done..|tr_split].
Qed.

Lemma exec_construct_shape m c a d : 0 <= d -> trp (exec_construct m c a d).
Proof.
  intros Hd. unfold exec_construct. apply trp_bind; [tr_split|]. intros v.
  destruct v; try (by trp_split). intros s Hok. apply resolve_then. intros func Hdepth.
  apply calm_then; [tr_split|done..|]. intros p s1 ? ?.
  apply calm_then; [tr_split|done..|]. intros this s2 ? ?.
  apply calm_then; [tr_split|done..|]. intros [] s3 ? ?.
  apply calm_then; [tr_split|done..|]. intros vals s4 [? ?] ?.
  apply enter_pushes; [done..|tr_split].
Qed.

(** *** Returns *)

Lemma pops_calm s s1 s2 : pops s s1 -> calm s1 s2 -> pops s s2.
Proof.
  intros (R1 & T1 & popped & frame & H1 & H2 & L1) (R2 & T2 & C2 & B2 & L2).
  split_and!; [by transitivity s1|by transitivity s1|]. exists popped, frame.
  rewrite C2, B2. split_and!; [done..|].
  eapply low_regs_trans; [exact L1|]. eapply low_regs_mono; [|exact L2]. lia.
Qed.

Lemma complete_return_spec v s :
  frames_ok s ->
  let s' := fst (complete_return v s) in
  match call_stack s with [] => calm s s' | _ => pops s s' end.
Proof.
  intros [_ Hok]. unfold complete_return. cbn [set_catch_frames call_stack].
  destruct (call_stack s) as [|frame rest] eqn:Ec; [calm_set|].
  apply Forall_cons in Hok as [Hr _].
  match goal with |- pops s (fst (?k ?s1)) =>
    assert (Hk : tr calm k) by tr_split; apply (pops_calm _ s1); [|apply Hk] end.
  split_and!; [done..|]. exists [], frame. split_and!; [done..|]. by apply low_regs_eq.
Qed.

Lemma complete_return_shape v : trp (complete_return v).
Proof.
  intros s Hok. pose proof (complete_return_spec v s Hok) as Hs. cbv zeta in Hs.
  destruct (call_stack s); [by left|by right; right].
Qed.

Lemma pop_finally_target_calm : tr calm (call pop_current_finally_target).
Proof.
  apply tr_call. intros s. unfold pop_current_finally_target.
  destruct (pop_matching _ _) as [[]|]; [calm_set|done].
Qed.
Lemma suspend_current_tr : tr calm (modify suspend_current_abrupt_completion).
Proof. apply modify_calm, suspend_current_calm. Qed.
Lemma pop_finally_mode_calm : tr calm (call pop_finally_mode).
Proof.
  apply tr_call. intros s. unfold pop_finally_mode.
  destruct (finally_modes s); [done|calm_set].
Qed.
#[export] Hint Resolve pop_finally_target_calm suspend_current_tr pop_finally_mode_calm : tr.

Lemma exec_return_shape r : trp (exec_return r).
Proof. unfold exec_return. trp_split. apply complete_return_shape. Qed.

(** *** Unwinding *)

Lemma unwind_frames_spec frames target s exc ret depth :
  call_stack s = frames ->
  let s' := fst (unwind_frames frames target s exc ret depth) in
  same_run s s' /\ same_traces s s' /\ registers s' = registers s /\
  (call_stack s' = call_stack s /\ register_base s' = register_base s \/
   exists popped frame, call_stack s = popped ++ (frame :: call_stack s') /\
     register_base s' = fr_register_base frame).
Proof.
  revert s exc ret depth. induction frames as [|f rest IH]; intros s exc ret depth Hc; cbn [unwind_frames].
  { split_and!; [reflexivity..|left; by split]. }
  destruct (length (f :: rest) <=? target)%nat; cbn [fst]; [split_and!; [reflexivity..|left; by split]|].
  match goal with |- context [unwind_frames rest target ?s1 ?e1 ?r1 ?d1] =>
    destruct (IH s1 e1 r1 d1) as (HR & HT & Hreg & Hpop); [done|] end.
  split_and!; [by etransitivity|by etransitivity|by etransitivity|]. right.
  destruct Hpop as [[HC HB]|(popped & frame & HC & HB)].
  - exists [], f. rewrite HC, HB, Hc. done.
  - exists (f :: popped), frame. rewrite Hc. cbn [app call_stack] in HC |- *. by rewrite <- HC.
Qed.

Lemma pop_exception_target_shape s : shape s (fst (pop_exception_target_frame s)).
Proof.
  unfold pop_exception_target_frame.
  destruct (pop_matching _ _) as [[frame rest]|]; [|by left].
  unfold unwind_call_stack_to. set (s1 := set_catch_frames rest s).
  pose proof (unwind_frames_spec (call_stack s1) (call_depth frame) s1 None None None eq_refl)
    as Hs. destruct (unwind_frames _ _ _ _ _ _) as [s2 [[exc ret] depth]]. cbn [fst] in Hs |- *.
  set (s3 := match depth with Some _ => _ | None => s2 end).
  assert (H3 : calm s2 s3) by (unfold s3; destruct depth; [calm_set|done]).
  assert (H4 : calm s3 (suspend_abrupt_completion exc ret s3))
    by (unfold suspend_abrupt_completion; destruct exc, ret; try calm_set; done).
  eapply shape_calm; [|by transitivity s3]. destruct Hs as (HR & HT & Hreg & [[HC HB]|Hpop]).
  - left. unfold calm. split_and!; [done..|]. by apply low_regs_eq.
  - right; right. destruct Hpop as (popped & f & HC & HB). split_and!; [done..|].
    exists popped, f. split_and!; [done..|]. by apply low_regs_eq.
Qed.

Lemma unwind_to_handler_shape v : trp (unwind_to_handler v).
Proof.
  intros s Hok. unfold unwind_to_handler. rewrite bind_unfold. unfold call.
  pose proof (pop_exception_target_shape s) as Hs.
  destruct (pop_exception_target_frame s) as [s1 [frame|]]; cbn [fst] in Hs;
    (eapply shape_calm; [exact Hs|]).
  - assert (Ht : tr calm (_ ← jump (catch_target frame); mret (@None Value))) by tr_split.
    apply Ht.
  - assert (Ht : tr calm (_ ← modify (set_suspended_abrupt_completions []);
      raise (UncaughtException (describe_thrown v)) : M (option Value))) by tr_split.
    apply Ht.
Qed.

Lemma exec_throw_shape r : trp (exec_throw r).
Proof. unfold exec_throw. trp_split. apply unwind_to_handler_shape. Qed.

Lemma exec_end_finally_shape : trp exec_end_finally.
Proof.
  unfold exec_end_finally. trp_split; [apply unwind_to_handler_shape|apply complete_return_shape].
Qed.

(** *** Host calls *)

Lemma stays_calm s s1 s2 : stays s s1 -> calm s1 s2 -> stays s s2.
Proof.
  intros (R1 & C1 & B1 & L1) (R2 & _ & C2 & B2 & L2). unfold stays.
  rewrite C2, B2. split_and!; [by transitivity s1|done..|].
  eapply low_regs_trans; [done|]. by rewrite <- B1.
Qed.

Lemma existsb_granted (name : string) (l : list string) :
  existsb (fun c => bool_decide (c = name)) l = true <-> name ∈ l.
Proof.
  rewrite existsb_exists. split.
  - intros (c & Hin & Hc). apply bool_decide_eq_true in Hc as <-. by apply list_elem_of_In.
  - intros Hin. exists name. split; [by apply list_elem_of_In|by apply bool_decide_eq_true].
Qed.

#[local] Opaque ContentHash_compute.

Lemma exec_hostcall_shape cap dst s :
  0 <= dst ->
  let r := exec_hostcall cap dst s in
  (denies s (fst r) cap /\ snd r = Err (CapabilityDenied (cap_name cap))) \/
  grants s (fst r) cap.
Proof.
  intros Hd. unfold exec_hostcall, gets. rewrite bind_unfold. cbv beta iota zeta.
  destruct (existsb _ _) eqn:E; cbn [negb].
  - right. apply existsb_granted in E.
    do 2 (rewrite bind_unfold; unfold emit_witness at 1; cbv beta iota zeta).
    rewrite bind_unfold. unfold modify at 1. cbv beta iota zeta.
    match goal with |- grants s (fst ((_ ≫= _) ?s1)) cap => set (s1' := s1) end.
    assert (Ht : tr calm (_ ← write_reg dst JUndefined; _ ← advance; mret (@None Value)))
      by tr_split.
    specialize (Ht s1'). pose proof Ht as (_ & (Tw & Ts & Td) & _).
    split_and!; [|exact E|..].
    + eapply stays_calm; [|exact Ht]. split_and!; [done..|by apply low_regs_eq].
    + by rewrite Td.
    + rewrite Tw. unfold s1'. cbn. by rewrite <- app_assoc.
    + rewrite Ts. unfold s1'. cbn. lia.
  - left. split; [|done].
    assert (Hn : ~ (cap_name cap ∈ granted_capabilities (config s))).
    { intros Hin. apply existsb_granted in Hin. congruence. }
    split_and!; [|done..]. split_and!; [done..|by apply low_regs_eq].
Qed.

(** ** Every instruction, every iteration *)

Definition instr_shape (i : Ir3Instruction.t) (s s' : InterpreterCore) : Prop :=
  shape s s' \/
  exists cap args dst, i = Ir3Instruction.HostCall cap args dst /\
    (denies s s' cap \/ grants s s' cap).

#[local] Hint Resolve exec_call_shape exec_construct_shape exec_return_shape exec_throw_shape
  exec_end_finally_shape : core.

Lemma exec_instr_shape m i s :
  instr_wf i -> frames_ok s -> instr_shape i s (fst (exec_instr m i s)).
Proof.
  intros [Hops _] Hok.
  destruct (match i with Ir3Instruction.HostCall _ _ _ => true | _ => false end) eqn:Eh.
  - right. destruct i; try discriminate Eh. exists capability, args, dst. split; [done|].
    cbn [u32_operands] in Hops. apply Forall_cons in Hops as [[Hd _] _].
    destruct (exec_hostcall_shape capability dst s Hd) as [[? _]|?]; [by left|by right].
  - left. assert (Hp : trp (exec_instr m i)); [|by apply Hp].
    destruct i; try discriminate Eh; cbn [exec_instr u32_operands] in *;
      rewrite ?Forall_cons in Hops; unfold is_u32 in Hops; destruct_and?;
      try (solve [auto | apply tr_trp; tr_split]).
Qed.

(** What one iteration does, with the counter it increments. *)
Definition loop_shape (m : Ir3Module) (s s' : InterpreterCore) : Prop :=
  (instructions m !! Z.to_nat (ip s) = None /\
   (call_stack s <> [] /\ pops s s' \/ call_stack s = [] /\ s' = s)) \/
  (instruction_budget (config s) <= instructions_executed s /\ s' = s) \/
  (instructions_executed s < instruction_budget (config s) /\
   exists i, instructions m !! Z.to_nat (ip s) = Some i /\
     instr_shape i (set_instructions_executed (instructions_executed s + 1) s) s').

Definition module_wf (m : Ir3Module) : Prop := Forall instr_wf (instructions m).

(** The same, by evaluation. *)
Definition instr_wfb (i : Ir3Instruction.t) : bool :=
  forallb (fun z => (0 <=? z) && (z <=? u32_max)) (u32_operands i) &&
  match i with
  | Ir3Instruction.LoadInt _ v => (i64_min <=? v) && (v <=? i64_max)
  | Ir3Instruction.HostCall c _ _ => str_okb (cap_name c)
  | _ => true
  end.

Lemma instr_wfb_ok i : instr_wfb i = true -> instr_wf i.
Proof.
  unfold instr_wfb, instr_wf. rewrite andb_true_iff, forallb_forall. intros [Ho Hv]. split.
  - apply Forall_forall. intros z Hz. apply list_elem_of_In, Ho in Hz. unfold is_u32. lia.
  - destruct i; try done; [unfold is_i64; lia|by apply str_okb_ok].
Qed.

Lemma module_wfb_ok m : forallb instr_wfb (instructions m) = true -> module_wf m.
Proof.
  rewrite forallb_forall. intros H. apply Forall_forall. intros i Hi.
  apply instr_wfb_ok, H. by apply list_elem_of_In.
Qed.

Lemma loop_step_shape m s :
  module_wf m -> frames_ok s -> loop_shape m s (fst (loop_step m s)).
Proof.
  intros Hm Hok. unfold loop_step, loop_shape.
  destruct (instructions m !! Z.to_nat (ip s)) as [i|] eqn:Ei.
  - right. destruct (Z.leb_spec (instruction_budget (config s)) (instructions_executed s));
      [by left|]. right. split; [done|]. exists i. split; [done|].
    apply exec_instr_shape; [|done]. unfold module_wf in Hm. rewrite Forall_forall in Hm.
    eapply Hm, list_elem_of_lookup_2, Ei.
  - left. split; [done|]. destruct (call_stack s) as [|frame rest] eqn:Ec; [by right|].
    left. split; [done|]. pose proof (complete_return_spec JUndefined s Hok) as Hs.
    by rewrite Ec in Hs.
Qed.
