(* ===== verification/InterpProgress.v ===== *)
(** * Termination, budgets, the call stack and frame isolation

    From the shape of an iteration: every run returns, executes no more
    instructions than its budget and keeps the call stack within its bound,
    frames lie one register window above the other, and what a callee does is
    invisible in the registers of the frames below it. *)
From stdpp Require Import base numbers list strings pretty gmap relations.
From Stdlib Require Import Strings.Byte.
From S2P Require Import Prelude Bytes Text HashTiers DetSerde IrContract.
From S2P Require Import IrContractCorrect InterpCore BaselineInterp InterpShape.
Open Scope Z_scope.

(** ** The call-stack invariant *)

(** Each frame remembers the base of the frame below it. *)
Fixpoint bases_ok (max : Z) (frames : list CallFrame) : Prop :=
  match frames with
  | [] => True
  | f :: rest => fr_register_base f = zlen rest * max /\ bases_ok max rest
  end.

Record stack_inv (s : InterpreterCore) : Prop := {
  inv_frames : frames_ok s;
  inv_base : register_base s = zlen (call_stack s) * max_registers (config s);
  inv_bases : bases_ok (max_registers (config s)) (call_stack s);
  inv_depth : zlen (call_stack s) <= Z.max 0 (max_call_depth (config s));
}.

Lemma bases_ok_app max l1 f l2 :
  bases_ok max (l1 ++ f :: l2) -> fr_register_base f = zlen l2 * max /\ bases_ok max l2.
Proof. induction l1 as [|x l1 IH]; simpl; [tauto|]. intros [_ H]. by apply IH. Qed.

Lemma stack_inv_same s s' :
  same_run s s' -> call_stack s' = call_stack s -> register_base s' = register_base s ->
  stack_inv s -> stack_inv s'.
Proof.
  intros (Ec & _) C B [Hf Hb Hbs Hd]. split; unfold frames_ok in *; by rewrite ?C, ?B, ?Ec.
Qed.

Lemma stack_inv_pushes s s' : pushes s s' -> stack_inv s -> stack_inv s'.
Proof.
  intros ((Ec & _) & _ & Hlt & (frame & C & Hfb & Hr) & B & _) [[Hm Hf] Hb Hbs Hd].
  split; unfold frames_ok; rewrite ?C, ?Ec, ?B, ?zlen_cons.
  - split; [done|]. by constructor.
  - lia.
  - simpl. split; [lia|done].
  - lia.
Qed.

Lemma stack_inv_pops s s' : pops s s' -> stack_inv s -> stack_inv s'.
Proof.
  intros ((Ec & _) & _ & popped & frame & C & B & _) [[Hm Hf] Hb Hbs Hd].
  rewrite C in *. apply bases_ok_app in Hbs as [Hfb Hbs].
  rewrite zlen_app, zlen_cons in Hd. pose proof (zlen_nonneg popped).
  apply Forall_app in Hf as [_ Hf]. apply Forall_cons in Hf as [_ Hf].
  split; unfold frames_ok; rewrite ?Ec, ?B; [done|done|done|lia].
Qed.

Lemma stack_inv_shape s s' : shape s s' -> stack_inv s -> stack_inv s'.
Proof.
  intros [H|[H|H]].
  - destruct H as (R & _ & C & B & _). by apply stack_inv_same.
  - by apply stack_inv_pushes.
  - by apply stack_inv_pops.
Qed.

Lemma stays_of_host s s' cap : denies s s' cap \/ grants s s' cap -> stays s s'.
Proof. by intros [[H _]|[H _]]. Qed.

Lemma stack_inv_instr i s s' : instr_shape i s s' -> stack_inv s -> stack_inv s'.
Proof.
  intros [H|(cap & _ & _ & _ & H)]; [by apply stack_inv_shape|].
  apply stays_of_host in H as (R & C & B & _). by apply stack_inv_same.
Qed.

Lemma stack_inv_count s n : stack_inv s -> stack_inv (set_instructions_executed n s).
Proof. intros [? ? ? ?]. by split. Qed.

Lemma stack_inv_loop m s s' : loop_shape m s s' -> stack_inv s -> stack_inv s'.
Proof.
  intros [(_ & [[_ H]|[_ ->]])|[[_ ->]|(_ & i & _ & H)]] Hs; [by eapply stack_inv_pops|done..|].
  eapply stack_inv_instr; [exact H|]. by apply stack_inv_count.
Qed.

Lemma stack_inv_step m s : module_wf m -> stack_inv s -> stack_inv (fst (loop_step m s)).
Proof. intros Hm Hs. eapply stack_inv_loop; [|done]. apply loop_step_shape; [done|apply Hs]. Qed.

(** ** Runs *)

(** Goes round the loop once more. *)
Definition continues (m : Ir3Module) (s s' : InterpreterCore) : Prop :=
  loop_step m s = (s', Ok None).

(** An invariant of every iteration holds at the end of a run. *)
Lemma run_inv (I : InterpreterCore -> Prop) m fuel s s' r :
  (forall s, I s -> I (fst (loop_step m s))) ->
  run_loop_fuel fuel m s = Some (s', r) -> I s -> I s'.
Proof.
  intros Hstep. revert s. induction fuel as [|fuel IH]; intros s; [done|]. simpl.
  pose proof (Hstep s) as Hs. destruct (loop_step m s) as [s1 [[v|]|e]]; simpl in Hs.
  - intros [= <- _]. done.
  - intros Hr HI. by eapply IH; [|apply Hs].
  - intros [= <- _]. done.
Qed.

(** The initial state of the loop. *)
Lemma prepare_inv s :
  0 <= max_registers (config s) -> stack_inv (Core.prepare s).
Proof.
  intros Hm. split.
  - split; [done|constructor].
  - done.
  - done.
  - unfold zlen. simpl. lia.
Qed.

(** *** Termination *)

Definition measure (s : InterpreterCore) : nat :=
  (2 * Z.to_nat (instruction_budget (config s) - instructions_executed s) +
   length (call_stack s))%nat.

Lemma shape_stack s s' :
  shape s s' -> config s' = config s /\ instructions_executed s' = instructions_executed s /\
  (length (call_stack s') <= S (length (call_stack s)))%nat.
Proof.
  intros [H|[H|H]]; destruct H as (R & _ & H); destruct R as (Ec & _ & Ei & _);
    split_and!; try done.
  - destruct H as (-> & _). lia.
  - destruct H as (_ & (f & -> & _) & _). simpl. lia.
  - destruct H as (popped & f & -> & _). rewrite length_app. simpl. lia.
Qed.

Lemma instr_shape_stack i s s' :
  instr_shape i s s' -> config s' = config s /\
  instructions_executed s' = instructions_executed s /\
  (length (call_stack s') <= S (length (call_stack s)))%nat.
Proof.
  intros [H|(cap & _ & _ & _ & H)]; [by apply shape_stack|].
  apply stays_of_host in H as ((Ec & _ & Ei & _) & -> & _). split_and!; [done..|lia].
Qed.

Lemma continues_measure m s s' :
  module_wf m -> frames_ok s -> continues m s s' -> (measure s' < measure s)%nat.
Proof.
  intros Hm Hok Hc. pose proof (loop_step_shape m s Hm Hok) as Hs.
  unfold continues in Hc. rewrite Hc in Hs. cbn [fst] in Hs. unfold measure.
  destruct Hs as [(Hi & [[_ Hp]|[Hst ->]])|[[Hb ->]|(Hb & i & Hi & Hs)]].
  - destruct Hp as ((-> & _ & -> & _) & _ & popped & f & -> & _).
    rewrite length_app. simpl. lia.
  - unfold loop_step in Hc. rewrite Hi, Hst in Hc. exfalso.
    destruct (read_reg s 0); injection Hc; congruence.
  - exfalso. unfold loop_step in Hc. destruct (instructions m !! Z.to_nat (ip s)) as [i|].
    + destruct (Z.leb_spec (instruction_budget (config s)) (instructions_executed s)); [done|lia].
    + destruct (call_stack s) eqn:Est.
      * destruct (read_reg s 0); injection Hc; congruence.
      * pose proof (complete_return_spec JUndefined s Hok) as Hp. rewrite Est, Hc in Hp.
        destruct Hp as (_ & _ & popped & f & Hst & _). cbn [fst] in Hst.
        apply (f_equal length) in Hst. rewrite length_app in Hst. simpl in Hst. lia.
  - apply instr_shape_stack in Hs as (-> & -> & Hlen).
    cbn [set_instructions_executed config instructions_executed call_stack] in *. lia.
Qed.

Lemma run_loop_fuel_enough m fuel s :
  module_wf m -> stack_inv s -> (measure s < fuel)%nat -> is_Some (run_loop_fuel fuel m s).
Proof.
  intros Hm. revert s. induction fuel as [|fuel IH]; intros s Hs Hf; [lia|]. simpl.
  pose proof (stack_inv_step m s Hm Hs) as Hs'.
  destruct (loop_step m s) as [s1 [[v|]|e]] eqn:E; [eauto| |eauto].
  apply IH; [exact Hs'|].
  pose proof (continues_measure m s s1 Hm (inv_frames s Hs) E). lia.
Qed.

(** C1. Execution of the baseline interpreter always returns. For every module whose
    instruction operands fit their machine types and every core, whatever state an earlier
    run left it in, execute yields a result (a value or an error) within the loop's fuel:
    an iteration either consumes one instruction of the budget or, past the end of the
    code, pops a frame, and the budget check ends the run. *)
Theorem interp_execute_terminates m s :
  module_wf m -> 0 <= max_registers (config s) -> is_Some (Core.execute m s).
Proof.
  intros Hm Hmax. unfold Core.execute, run_loop.
  destruct (run_loop_fuel_enough m (run_fuel (Core.prepare s)) (Core.prepare s)) as [[s' r] Hr].
  - done.
  - by apply prepare_inv.
  - unfold measure, run_fuel. lia.
  - rewrite Hr. simpl. eauto.
Qed.

(** *** The instruction budget *)

Lemma budget_step m s :
  module_wf m -> stack_inv s ->
  config (fst (loop_step m s)) = config s /\
  instructions_executed s <= instructions_executed (fst (loop_step m s)) <=
    Z.max (instructions_executed s) (instruction_budget (config s)).
Proof.
  intros Hm Hs. pose proof (loop_step_shape m s Hm (inv_frames s Hs)) as Hl.
  destruct Hl as [(Hi & [[_ Hp]|[_ ->]])|[[Hb ->]|(Hb & i & Hi & Hl)]].
  - destruct Hp as ((-> & _ & -> & _) & _). split; [done|lia].
  - split; [done|lia].
  - split; [done|lia].
  - apply instr_shape_stack in Hl as (-> & -> & _).
    cbn [set_instructions_executed config instructions_executed]. split; [done|lia].
Qed.

(** What a run leaves of the core's configuration and counters. *)
Definition run_ok (s0 s : InterpreterCore) : Prop :=
  stack_inv s /\ config s = config s0 /\
  0 <= instructions_executed s <= Z.max 0 (instruction_budget (config s0)).

Lemma run_ok_step m s0 s : module_wf m -> run_ok s0 s -> run_ok s0 (fst (loop_step m s)).
Proof.
  intros Hm (Hs & Hc & Hn). destruct (budget_step m s Hm Hs) as [Ec Hb].
  rewrite Hc in *. split_and!; [by apply stack_inv_step|done|lia|lia].
Qed.

Lemma prepare_run_ok s : 0 <= max_registers (config s) -> run_ok s (Core.prepare s).
Proof. intros Hm. split_and!; [by apply prepare_inv|done|simpl; lia..]. Qed.

Lemma run_loop_ok m s s' r :
  module_wf m -> 0 <= max_registers (config s) ->
  run_loop m (Core.prepare s) = Some (s', r) -> run_ok s s'.
Proof.
  intros Hm Hmax Hr. eapply (run_inv (run_ok s)); [|exact Hr|by apply prepare_run_ok].
  intros s1. by apply run_ok_step.
Qed.

Lemma finish_same s r :
  let s' := fst (Core.finish s r) in
  config s' = config s /\ instructions_executed s' = instructions_executed s /\
  call_stack s' = call_stack s /\ register_base s' = register_base s.
Proof. unfold Core.finish. by destruct r as [v|[]]. Qed.

(** C30. The instruction budget is respected: after an execution, successful or not, the
    instruction counter lies between zero and the configured budget, the configuration is
    unchanged, and a successful result reports that counter. *)
Theorem interp_budget_respected m s s' r :
  module_wf m -> 0 <= max_registers (config s) -> Core.execute m s = Some (s', r) ->
  config s' = config s /\
  0 <= instructions_executed s' <= Z.max 0 (instruction_budget (config s)) /\
  (forall res, r = Ok res -> r_instructions_executed res = instructions_executed s').
Proof.
  intros Hm Hmax He. unfold Core.execute in He.
  destruct (run_loop m (Core.prepare s)) as [[s1 r1]|] eqn:Hr; [|done]. injection He as He.
  destruct (run_loop_ok m s s1 r1 Hm Hmax Hr) as (_ & Hc & Hn).
  pose proof (finish_same s1 r1) as (Fc & Fn & _). rewrite He in Fc, Fn. cbn [fst] in Fc, Fn.
  rewrite Fc, Fn. split_and!; [done|lia|lia|].
  intros res ->. revert He. unfold Core.finish.
  destruct r1 as [v|[]]; try done; by intros [= _ <-].
Qed.

(** *** The call stack in every reachable state *)

Lemma reachable_run_ok m s s1 :
  module_wf m -> 0 <= max_registers (config s) ->
  rtc (continues m) (Core.prepare s) s1 -> run_ok s s1.
Proof.
  intros Hm Hmax Hr. pose proof (prepare_run_ok s Hmax) as Hs. revert Hs.
  induction Hr as [|s1 s2 s3 Hc _ IH]; [done|]. intros Hs. apply IH.
  pose proof (run_ok_step m s s1 Hm Hs) as Hs'. unfold continues in Hc. by rewrite Hc in Hs'.
Qed.

Lemma bases_ok_lookup max frames i f :
  bases_ok max frames -> frames !! i = Some f ->
  fr_register_base f = (zlen frames - Z.of_nat i - 1) * max.
Proof.
  revert i. induction frames as [|g rest IH]; intros i; [done|]. intros [Hg Hr].
  rewrite zlen_cons. destruct i as [|i]; simpl.
  - intros [= <-]. rewrite Hg. f_equal. lia.
  - intros Hi. rewrite (IH i Hr Hi). f_equal. lia.
Qed.

(** Call-stack discipline at every point of a run: the stack is never deeper than
    max_call_depth, the register base is the depth times the register window, and each
    frame remembers the base of the frame below it, so that the register windows of the
    frames are disjoint and contiguous. *)
Theorem interp_stack_discipline m s s1 :
  module_wf m -> 0 <= max_registers (config s) -> 0 <= max_call_depth (config s) ->
  rtc (continues m) (Core.prepare s) s1 ->
  zlen (call_stack s1) <= max_call_depth (config s) /\
  register_base s1 = zlen (call_stack s1) * max_registers (config s) /\
  (forall i f, call_stack s1 !! i = Some f ->
     fr_register_base f = (zlen (call_stack s1) - Z.of_nat i - 1) * max_registers (config s)).
Proof.
  intros Hm Hmax Hd Hr. destruct (reachable_run_ok m s s1 Hm Hmax Hr) as ([_ Hb Hbs Hdep] & Hc & _).
  rewrite Hc in *. split_and!; [lia|done|]. intros i f Hf. by apply bases_ok_lookup.
Qed.

(** *** Frame isolation *)

Lemma shape_low s s' :
  shape s s' -> low_regs (Z.min (register_base s) (register_base s')) s s'.
Proof.
  intros [H|[H|H]].
  - destruct H as (_ & _ & _ & -> & L). eapply low_regs_mono; [|exact L]. lia.
  - by destruct H as (_ & _ & _ & _ & _ & L).
  - by destruct H as (_ & _ & popped & f & _ & _ & L).
Qed.

Lemma instr_shape_low i s s' :
  instr_shape i s s' -> low_regs (Z.min (register_base s) (register_base s')) s s'.
Proof.
  intros [H|(cap & _ & _ & _ & H)]; [by apply shape_low|].
  apply stays_of_host in H as (_ & _ & -> & L). eapply low_regs_mono; [|exact L]. lia.
Qed.

Lemma loop_step_low m s :
  module_wf m -> stack_inv s ->
  low_regs (Z.min (register_base s) (register_base (fst (loop_step m s)))) s
    (fst (loop_step m s)).
Proof.
  intros Hm Hs. destruct (loop_step_shape m s Hm (inv_frames s Hs))
    as [(_ & [[_ Hp]|[_ ->]])|[[_ ->]|(_ & i & _ & H)]].
  - apply shape_low. by right; right.
  - reflexivity.
  - reflexivity.
  - by apply instr_shape_low in H.
Qed.

(** Iterations during which the call depth stays at least [d]. *)
Definition continues_above (m : Ir3Module) (d : Z) (s s' : InterpreterCore) : Prop :=
  continues m s s' /\ d <= zlen (call_stack s').

(** C2. Frame isolation. In any run, as long as the call stack stays at least d frames
    deep, no iteration of the loop changes a register of the d frames below: callees,
    constructors, handlers of exceptions and finalizers that run above a frame leave that
    frame's registers as they were. *)
Theorem interp_callee_cannot_touch_caller m s0 s d s' i :
  module_wf m -> 0 <= max_registers (config s0) ->
  rtc (continues m) (Core.prepare s0) s -> d <= zlen (call_stack s) ->
  rtc (continues_above m d) s s' ->
  0 <= i < d * max_registers (config s0) ->
  reg_at s' i = reg_at s i.
Proof.
  intros Hm Hmax Hr Hd Hrun Hi.
  pose proof (reachable_run_ok m s0 s Hm Hmax Hr) as Hok. clear Hr. revert Hd Hok.
  induction Hrun as [|s s1 s2 [Hc Hd1] _ IH]; intros Hd Hok; [done|].
  pose proof (run_ok_step m s0 s Hm Hok) as Hok1.
  destruct Hok as (Hs & Hcfg & _). pose proof (loop_step_low m s Hm Hs) as Hlow.
  unfold continues in Hc. rewrite Hc in Hok1, Hlow. cbn [fst] in Hok1, Hlow.
  rewrite (IH Hd1 Hok1). apply Hlow. destruct Hok1 as (Hs1 & Hcfg1 & _).
  rewrite (inv_base s Hs), (inv_base s1 Hs1), Hcfg, Hcfg1. nia.
Qed.
