(* ===== verification/InterpTraces.v ===== *)
(** * The recorded traces

    What an execution records: the host calls it let through are granted ones,
    made by host-call instructions and numbered in order; witness events are
    numbered consecutively with non-decreasing ticks, so that a witness built
    from them passes the IR4 linkage check. *)
From stdpp Require Import base numbers list strings pretty gmap relations sorting.
From Stdlib Require Import Strings.Byte.
From S2P Require Import Prelude Bytes Text HashTiers DetSerde IrContract.
From S2P Require Import IrContractCorrect InterpCore BaselineInterp InterpShape.
From S2P Require Import InterpProgress.
Open Scope Z_scope.

#[local] Opaque ContentHash_compute.

(** ** The trace invariant *)

(** The host call [d] was granted by [cfg] and made by an instruction of [m]. *)
Definition decision_justified (cfg : InterpreterConfig) (m : Ir3Module)
    (d : HostcallDecisionRecord) : Prop :=
  dec_allowed d = true /\ cap_name (dec_capability d) ∈ granted_capabilities cfg /\
  exists at_ip args dst, dec_instruction_index d = wrap_u32 at_ip /\
    instructions m !! Z.to_nat at_ip = Some (Ir3Instruction.HostCall (dec_capability d) args dst).

Record trace_inv (m : Ir3Module) (s : InterpreterCore) : Prop := {
  tr_seq : seq <$> witness_events s = seqZ 0 (zlen (witness_events s));
  tr_next : witness_seq s = zlen (witness_events s);
  tr_ticks : StronglySorted Z.le (timestamp_tick <$> witness_events s);
  tr_now : Forall (fun w => timestamp_tick w <= instructions_executed s) (witness_events s);
  tr_dec_seq : dec_seq <$> hostcall_decisions s = seqZ 0 (zlen (hostcall_decisions s));
  tr_dec : Forall (decision_justified (config s) m) (hostcall_decisions s);
}.

Lemma seqZ_snoc n : 0 <= n -> seqZ 0 (n + 1) = seqZ 0 n ++ [n].
Proof. intros Hn. rewrite seqZ_app by lia. done. Qed.

Lemma numbered_snoc {A} (f : A -> Z) l x :
  f <$> l = seqZ 0 (zlen l) -> f x = zlen l -> f <$> (l ++ [x]) = seqZ 0 (zlen (l ++ [x])).
Proof.
  intros Hl Hx. rewrite fmap_app, Hl, zlen_app. change (zlen [x]) with 1.
  rewrite seqZ_snoc by apply zlen_nonneg. simpl. by rewrite Hx.
Qed.

Lemma sorted_snoc l x :
  StronglySorted Z.le l -> Forall (fun y => y <= x) l -> StronglySorted Z.le (l ++ [x]).
Proof.
  induction 1 as [|y l Hs IH Hy]; intros Hx; simpl; [repeat constructor|].
  apply Forall_cons in Hx as [? Hx]. constructor; [by apply IH|].
  apply Forall_app. split; [done|]. by repeat constructor.
Qed.

Lemma trace_inv_same m s s' :
  same_traces s s' -> config s' = config s ->
  instructions_executed s <= instructions_executed s' -> trace_inv m s -> trace_inv m s'.
Proof.
  intros (Ew & Es & Ed) Ec Ei [H1 H2 H3 H4 H5 H6]. split; rewrite ?Ew, ?Es, ?Ed, ?Ec; try done.
  eapply Forall_impl; [exact H4|]. simpl. lia.
Qed.

(** Recording one more witness at the current tick. *)
Lemma trace_inv_witness m s s' w :
  trace_inv m s -> seq w = witness_seq s -> timestamp_tick w = instructions_executed s ->
  witness_events s' = witness_events s ++ [w] -> witness_seq s' = witness_seq s + 1 ->
  hostcall_decisions s' = hostcall_decisions s -> config s' = config s ->
  instructions_executed s' = instructions_executed s -> trace_inv m s'.
Proof.
  intros [H1 H2 H3 H4 H5 H6] Hs Ht Ew Es Ed Ec Ei. split; rewrite ?Ew, ?Es, ?Ed, ?Ec; try done.
  - apply numbered_snoc; [done|]. by rewrite Hs.
  - rewrite zlen_app. change (zlen [w]) with 1. lia.
  - rewrite fmap_app. simpl. apply sorted_snoc; [done|]. apply Forall_fmap.
    eapply Forall_impl; [exact H4|]. simpl. lia.
  - rewrite Ei. apply Forall_app. split; [done|]. repeat constructor. lia.
Qed.

(** Recording one more justified decision. *)
Lemma trace_inv_decision m s s' d :
  trace_inv m s -> dec_seq d = zlen (hostcall_decisions s) -> decision_justified (config s) m d ->
  hostcall_decisions s' = hostcall_decisions s ++ [d] -> witness_events s' = witness_events s ->
  witness_seq s' = witness_seq s -> config s' = config s ->
  instructions_executed s' = instructions_executed s -> trace_inv m s'.
Proof.
  intros [H1 H2 H3 H4 H5 H6] Hs Hd Ed Ew Es Ec Ei.
  split; rewrite ?Ew, ?Es, ?Ed, ?Ec, ?Ei; try done.
  - by apply numbered_snoc.
  - apply Forall_app. split; [done|]. by apply Forall_singleton.
Qed.

Lemma trace_inv_shape m s s' : shape s s' -> trace_inv m s -> trace_inv m s'.
Proof.
  intros Hs. assert (same_traces s s' /\ same_run s s') as [HT (Ec & _ & Ei & _)].
  { destruct Hs as [H|[H|H]]; destruct H as (R & T & _); by split. }
  apply trace_inv_same; [done..|lia].
Qed.

Lemma trace_inv_denies m s s' cap : denies s s' cap -> trace_inv m s -> trace_inv m s'.
Proof.
  intros (((Ec & _ & Ei & _) & _) & Ed & _ & Ew & Es) Ht.
  by eapply (trace_inv_witness m s s' _ Ht); [| |exact Ew|..].
Qed.

Lemma trace_inv_grants m s s' cap args dst :
  instructions m !! Z.to_nat (ip s) = Some (Ir3Instruction.HostCall cap args dst) ->
  grants s s' cap -> trace_inv m s -> trace_inv m s'.
Proof.
  intros Hi (((Ec & _ & Ei & _) & _) & Hg & Ed & Ew & Es) Ht.
  pose (w1 := witness_at s (witness_seq s) HostcallDispatched ("cap:" +:+ cap_name cap)).
  pose (w2 := witness_at s (witness_seq s + 1) CapabilityChecked ("granted:" +:+ cap_name cap)).
  pose (s1 := set_witness_seq (witness_seq s + 1)
                (set_witness_events (witness_events s ++ [w1]) s)).
  pose (s2 := set_witness_seq (witness_seq s1 + 1)
                (set_witness_events (witness_events s1 ++ [w2]) s1)).
  assert (H1 : trace_inv m s1) by (by eapply (trace_inv_witness m s s1 w1)).
  assert (H2 : trace_inv m s2) by (by eapply (trace_inv_witness m s1 s2 w2)).
  eapply (trace_inv_decision m s2 s'); [done|..|exact Ed| | |exact Ec|exact Ei].
  - done.
  - split_and!; [done|exact Hg|]. eauto.
  - rewrite Ew. cbn. by rewrite <- app_assoc.
  - rewrite Es. cbn. lia.
Qed.

Lemma trace_inv_step m s :
  module_wf m -> stack_inv s -> trace_inv m s -> trace_inv m (fst (loop_step m s)).
Proof.
  intros Hm Hs Ht. pose proof (loop_step_shape m s Hm (inv_frames s Hs)) as Hl.
  destruct Hl as [(_ & [[_ Hp]|[_ ->]])|[[_ ->]|(_ & i & Hi & Hl)]]; [|done..|].
  { eapply trace_inv_shape; [right; right; exact Hp|done]. }
  assert (H1 : trace_inv m (set_instructions_executed (instructions_executed s + 1) s)).
  { eapply (trace_inv_same m s); [done|done|cbn; lia|done]. }
  destruct Hl as [Hl|(cap & args & dst & -> & [Hl|Hl])].
  - by eapply trace_inv_shape.
  - by eapply trace_inv_denies.
  - by eapply (trace_inv_grants m (set_instructions_executed _ s)).
Qed.

Lemma prepare_trace_inv m s : trace_inv m (Core.prepare s).
Proof. split; simpl; by try constructor. Qed.

Lemma run_trace_inv m s s' r :
  module_wf m -> 0 <= max_registers (config s) ->
  run_loop m (Core.prepare s) = Some (s', r) -> trace_inv m s'.
Proof.
  intros Hm Hmax Hr.
  assert (H : stack_inv s' /\ trace_inv m s'); [|tauto].
  eapply (run_inv (fun s => stack_inv s /\ trace_inv m s)); [|exact Hr|].
  - intros s1 [? ?]. split; [by apply stack_inv_step|by apply trace_inv_step].
  - split; [by apply prepare_inv|apply prepare_trace_inv].
Qed.

(** ** The properties of a result *)

(** The traces of a result, from the state at the end of the loop. *)
Lemma execute_result m s s' res :
  module_wf m -> 0 <= max_registers (config s) -> Core.execute m s = Some (s', Ok res) ->
  exists s1, trace_inv m s1 /\ config s1 = config s /\
    r_witness_events res = witness_events s1 /\
    r_hostcall_decisions res = hostcall_decisions s1 /\
    r_instructions_executed res = instructions_executed s1.
Proof.
  intros Hm Hmax He. unfold Core.execute in He.
  destruct (run_loop m (Core.prepare s)) as [[s1 r1]|] eqn:Hr; [|done]. injection He as He.
  pose proof (run_trace_inv m s s1 r1 Hm Hmax Hr) as Ht.
  destruct (run_loop_ok m s s1 r1 Hm Hmax Hr) as (_ & Hc & _).
  pose (s2 := set_last_post_run_seed
                (Some (Core.capture_execution_seed (fst (Core.completion_event r1 s1))))
                (fst (Core.completion_event r1 s1))).
  assert (Hsame : same_traces s1 s2 /\ config s2 = config s1 /\
    instructions_executed s2 = instructions_executed s1).
  { unfold s2, Core.completion_event. by destruct r1 as [|[]]. }
  destruct Hsame as (HT & HC & HI).
  assert (Ht2 : trace_inv m s2) by (eapply (trace_inv_same m s1); [done..|lia|done]).
  exists (fst (emit_witness ExecutionCompleted None s2)).
  split_and!.
  - by eapply (trace_inv_witness m s2 _ _ Ht2); [| |reflexivity|..].
  - by rewrite <- Hc, <- HC.
  - by destruct r1 as [v|[]]; try done; injection He as _ <-.
  - by destruct r1 as [v|[]]; try done; injection He as _ <-.
  - by destruct r1 as [v|[]]; try done; injection He as _ <-.
Qed.

(** C3. Capability confinement. Every host call recorded in the result of a successful
    execution was allowed, names a capability in the configuration's granted set, and
    stems from a host-call instruction of the module at the recorded index; the decisions
    are numbered 0, 1, 2, ... without gaps. *)
Theorem interp_hostcalls_are_granted m s s' res :
  module_wf m -> 0 <= max_registers (config s) -> Core.execute m s = Some (s', Ok res) ->
  Forall (decision_justified (config s) m) (r_hostcall_decisions res) /\
  dec_seq <$> r_hostcall_decisions res = seqZ 0 (zlen (r_hostcall_decisions res)).
Proof.
  intros Hm Hmax He. destruct (execute_result m s s' res Hm Hmax He) as (s1 & Ht & Hc & _ & -> & _).
  destruct Ht as [_ _ _ _ H5 H6]. rewrite Hc in H6. by split.
Qed.

Lemma seqZ_sorted a n : StronglySorted Z.lt (seqZ a n).
Proof.
  unfold seqZ. generalize 0%nat as k. induction (Z.to_nat n) as [|n' IH]; intros k; simpl; constructor.
  - apply IH.
  - apply Forall_fmap, Forall_forall. intros j Hj. apply elem_of_seq in Hj. simpl. lia.
Qed.

(** The trace an execution records is a valid IR4 witness: its events are numbered
    consecutively from zero with non-decreasing ticks that never exceed the instruction
    count, so that the IR4 artifact assembled from a successful execution passes
    verify_ir4_linkage against the executed module's content hash. *)
Theorem interp_witness_passes_linkage m s s' res label :
  module_wf m -> 0 <= max_registers (config s) -> Core.execute m s = Some (s', Ok res) ->
  let hash := Ir3Mod.content_hash m in
  let w := {|
    w_header := w_header (Ir4Mod.new hash label);
    executed_ir3_hash := hash;
    outcome := ExecutionOutcome.Completed;
    w_events := r_witness_events res;
    w_hostcall_decisions := r_hostcall_decisions res;
    w_instructions_executed := r_instructions_executed res;
    duration_ticks := r_instructions_executed res;
    active_specialization_ids := [];
  |} in
  verify_ir4_linkage w hash = Ok tt /\
  seq <$> r_witness_events res = seqZ 0 (zlen (r_witness_events res)) /\
  StronglySorted Z.le (timestamp_tick <$> r_witness_events res) /\
  Forall (fun w => timestamp_tick w <= r_instructions_executed res) (r_witness_events res).
Proof.
  intros Hm Hmax He hash w.
  destruct (execute_result m s s' res Hm Hmax He) as (s1 & [H1 _ H3 H4 _ _] & _ & Hw & _ & Hn).
  rewrite Hn. split_and!; [|by rewrite Hw..].
  apply verify_ir4_linkage_Ok. cbn [w w_header executed_ir3_hash w_events]. split_and!; [done..|].
  rewrite Hw, H1. apply seqZ_sorted.
Qed.
