(* ===== verification/InterpReplay.v ===== *)
(** * Deterministic replay

    The loop never reads the seed [last_post_run_seed] that [execute] compares
    against, so a second run on the same core, which starts again from the seed
    of the first, goes through the same states and returns the same result. *)
From stdpp Require Import base numbers list strings pretty gmap relations.
From Stdlib Require Import Strings.Byte.
From S2P Require Import Prelude Bytes Text HashTiers DetSerde IrContract.
From S2P Require Import IrContractCorrect InterpCore BaselineInterp InterpShape.
From S2P Require Import InterpProgress.
Open Scope Z_scope.

#[local] Opaque ContentHash_compute MAX_PROTOTYPE_CHAIN_DEPTH.

(** The state with another post-run seed. *)
Definition reseed (x : option ExecutionSeed) (s : InterpreterCore) : InterpreterCore :=
  set_last_post_run_seed x s.

(** A computation that neither reads nor writes the post-run seed. *)
Definition blind {A} (m : M A) : Prop :=
  forall x s, m (reseed x s) = (reseed x (fst (m s)), snd (m s)).

Definition blind_read {A} (f : InterpreterCore -> A) : Prop := forall x s, f (reseed x s) = f s.

Definition blind_write (f : InterpreterCore -> InterpreterCore) : Prop :=
  forall x s, f (reseed x s) = reseed x (f s).

Definition blind_call {A} (f : InterpreterCore -> InterpreterCore * A) : Prop :=
  forall x s, f (reseed x s) = (reseed x (fst (f s)), snd (f s)).

Lemma blind_bind {A B} (m : M A) (f : A -> M B) :
  blind m -> (forall a, blind (f a)) -> blind (m ≫= f).
Proof.
  intros Hm Hf x s. rewrite !bind_unfold, Hm. destruct (m s) as [s' [a|e]]; cbn [fst snd]; [|done].
  apply Hf.
Qed.

Lemma blind_ret {A} (a : A) : blind (mret a : M A).
Proof. by intros x s. Qed.
Lemma blind_raise {A} e : blind (raise e : M A).
Proof. by intros x s. Qed.
Lemma blind_gets {A} (f : InterpreterCore -> A) : blind_read f -> blind (gets f).
Proof. intros H x s. unfold gets. by rewrite H. Qed.
Lemma blind_lift {A} (f : InterpreterCore -> result InterpreterError A) :
  blind_read f -> blind (lift f).
Proof. intros H x s. unfold lift. by rewrite H. Qed.
Lemma blind_modify f : blind_write f -> blind (modify f).
Proof. intros H x s. unfold modify. by rewrite H. Qed.
Lemma blind_of_call {A} (f : InterpreterCore -> InterpreterCore * A) :
  blind_call f -> blind (call f).
Proof. intros H x s. unfold call. rewrite H. by destruct (f s). Qed.

(** ** Reads *)

Lemma heap_get_blind id : blind_read (fun s => heap_get s id).
Proof. done. Qed.

Lemma chain_get_blind k n v c : blind_read (fun s => chain_get s k n v c).
Proof.
  intros x s. revert v c. induction n as [|n IH]; intros v [id|]; simpl; try done.
  case_bool_decide; [done|]. rewrite (heap_get_blind id x s).
  destruct (heap_get s id); simpl; [|done]. by destruct (_ !! k).
Qed.

Lemma chain_has_key_blind k n v c : blind_read (fun s => chain_has_key s k n v c).
Proof.
  intros x s. revert v c. induction n as [|n IH]; intros v [id|]; simpl; try done.
  case_bool_decide; [done|]. rewrite (heap_get_blind id x s).
  destruct (heap_get s id); simpl; [|done]. by case_bool_decide.
Qed.

Lemma chain_contains_blind p n v c : blind_read (fun s => chain_contains s p n v c).
Proof.
  intros x s. revert v c. induction n as [|n IH]; intros v [id|]; simpl; try done.
  destruct (id =? p); [done|]. case_bool_decide; [done|]. rewrite (heap_get_blind id x s).
  by destruct (heap_get s id); simpl.
Qed.

Lemma chain_keys_blind n v c seen keys : blind_read (fun s => chain_keys s n v c seen keys).
Proof.
  intros x s. revert v c seen keys. induction n as [|n IH]; intros v [id|] seen keys; simpl; try done.
  case_bool_decide; [done|]. rewrite (heap_get_blind id x s).
  destruct (heap_get s id); simpl; [|done]. by destruct (fold_left _ _ _).
Qed.

Lemma read_args_blind st i n : blind_read (fun s => read_args s st i n).
Proof.
  intros x s. revert i. induction n as [|n IH]; intros i; simpl; [done|].
  by rewrite IH.
Qed.

Lemma template_parts_blind st i n acc : blind_read (fun s => template_parts s st i n acc).
Proof.
  intros x s. revert i acc. induction n as [|n IH]; intros i acc; simpl; [done|].
  destruct (_ <? _); [done|]. change (read_reg (reseed x s) (st + i)) with (read_reg s (st + i)).
  destruct (read_reg s (st + i)); simpl; [|done]. apply IH.
Qed.

Lemma collect_for_of_blind v : blind_read (fun s => collect_for_of_values s v).
Proof. by intros x s; destruct v. Qed.

Lemma contains_blind o p : blind_read (fun s => prototype_chain_contains s o p).
Proof.
  intros x s. unfold prototype_chain_contains. rewrite (heap_get_blind o x s).
  destruct (heap_get s o); simpl; [|done]. apply chain_contains_blind.
Qed.

Lemma in_operator_blind l r : blind_read (fun s => eval_in_operator s l r).
Proof.
  intros x s. unfold eval_in_operator. change (read_reg (reseed x s)) with (read_reg s).
  destruct (read_reg s l); [|done]. cbn [mbind result_bind].
  destruct (read_reg s r) as [v|]; [|done]. cbn [mbind result_bind].
  destruct v as [| | | | |id| |]; [reflexivity..| |reflexivity|reflexivity].
  change (heap_get (reseed x s)) with (heap_get s). destruct (heap_get s id); [|done].
  cbn [mbind result_bind]. unfold prototype_chain_has_key. by rewrite chain_has_key_blind.
Qed.

Create HintDb blind.
#[export] Hint Resolve blind_ret blind_raise blind_gets blind_lift blind_modify blind_of_call
  chain_get_blind chain_keys_blind read_args_blind collect_for_of_blind contains_blind
  in_operator_blind : blind.
#[export] Hint Extern 3 (blind_read _) => (intros ? ?; reflexivity) : blind.
#[export] Hint Extern 3 (blind_write _) => (intros ? ?; reflexivity) : blind.

Ltac blind_split :=
  repeat first
    [ progress intros
    | solve [auto with blind]
    | apply blind_bind
    | match goal with |- blind (match ?x with _ => _ end) => destruct x end ].

(** ** Operations *)

Lemma write_reg_blind r v : blind (write_reg r v).
Proof.
  intros x s. unfold write_reg. change (config (reseed x s)) with (config s).
  by destruct (_ <=? _).
Qed.
Lemma alloc_object_with_prototype_blind p : blind (alloc_object_with_prototype p).
Proof. by intros x s. Qed.
Lemma alloc_object_blind : blind alloc_object.
Proof. by intros x s. Qed.
Lemma alloc_iterator_blind it : blind (alloc_iterator it).
Proof. by intros x s. Qed.
Lemma emit_witness_blind k d : blind (emit_witness k d).
Proof. by intros x s. Qed.
#[export] Hint Resolve write_reg_blind alloc_object_with_prototype_blind alloc_object_blind
  alloc_iterator_blind emit_witness_blind : blind.

Lemma advance_blind : blind advance.
Proof. apply blind_modify. by intros x s. Qed.
Lemma jump_blind t : blind (jump t).
Proof. apply blind_modify. by intros x s. Qed.
Lemma put_iterator_blind h it : blind (put_iterator h it).
Proof. apply blind_modify. by intros x s. Qed.
Lemma mark_deleted_blind o k : blind (mark_deleted_for_in_iterators o k).
Proof. apply blind_modify. by intros x s. Qed.
Lemma mark_constructed_blind i f : blind (mark_constructed i f).
Proof.
  apply blind_modify. intros x s. change (heap (reseed x s)) with (heap s).
  by destruct (heap s !! Z.to_nat i).
Qed.
#[export] Hint Resolve advance_blind jump_blind put_iterator_blind mark_deleted_blind
  mark_constructed_blind : blind.

Lemma ensure_function_prototype_blind f : blind (ensure_function_prototype f).
Proof. unfold ensure_function_prototype. blind_split. Qed.
Lemma update_properties_blind o f : blind (update_properties o f).
Proof. unfold update_properties. blind_split. Qed.
Lemma resolve_function_blind m f : blind (resolve_function m f).
Proof. unfold resolve_function. blind_split. Qed.
Lemma push_frame_blind f d t : blind (push_frame f d t).
Proof. apply blind_modify. by intros x s. Qed.
Lemma open_registers_blind : blind open_registers.
Proof.
  apply blind_modify. intros x s. cbn.
  change (registers (reseed x s)) with (registers s).
  change (register_base (reseed x s)) with (register_base s).
  change (config (reseed x s)) with (config s). by destruct (_ <? _).
Qed.
Lemma write_args_blind r vs : blind (write_args r vs).
Proof. revert r. induction vs as [|v vs IH]; intros r; simpl; blind_split. Qed.
#[export] Hint Resolve ensure_function_prototype_blind update_properties_blind
  resolve_function_blind push_frame_blind open_registers_blind write_args_blind : blind.

Lemma eval_instanceof_blind l r : blind (eval_instanceof l r).
Proof. unfold eval_instanceof. blind_split. Qed.
Lemma init_for_in_blind v : blind (init_for_in_iterator v).
Proof. unfold init_for_in_iterator, collect_for_in_keys. blind_split. Qed.
Lemma init_for_of_blind v : blind (init_for_of_iterator v).
Proof. unfold init_for_of_iterator. blind_split. Qed.
Lemma advance_for_in_blind v : blind (advance_for_in_iterator v).
Proof. unfold advance_for_in_iterator. blind_split. Qed.
Lemma advance_for_of_blind v : blind (advance_for_of_iterator v).
Proof. unfold advance_for_of_iterator. blind_split. Qed.
Lemma close_iterator_blind v r : blind (close_iterator v r).
Proof. unfold close_iterator. blind_split. Qed.
#[export] Hint Resolve eval_instanceof_blind init_for_in_blind init_for_of_blind
  advance_for_in_blind advance_for_of_blind close_iterator_blind : blind.

(** ** Abrupt completions *)

Lemma complete_return_blind v : blind (complete_return v).
Proof.
  intros x s. unfold complete_return.
  change (call_stack (reseed x s)) with (call_stack s).
  change (catch_frames (reseed x s)) with (catch_frames s).
  cbn [set_catch_frames call_stack]. change (call_stack (reseed x s)) with (call_stack s). 
  destruct (call_stack s) as [|f rest]; [reflexivity|].
  match goal with |- ?k ?s1 = (reseed x (fst (?k ?s2)), _) =>
    assert (Hk : blind k) by blind_split; exact (Hk x s2) end.
Qed.

Lemma unwind_frames_blind frames target exc ret depth :
  blind_call (fun s => unwind_frames frames target s exc ret depth).
Proof.
  intros x s. revert s exc ret depth. induction frames as [|f rest IH]; intros; [done|].
  cbn [unwind_frames]. destruct (_ <=? _)%nat; [done|].
  match goal with |- unwind_frames _ _ _ ?e ?r ?d = (_ (fst (unwind_frames _ _ ?s2 _ _ _)), _) =>
    exact (IH s2 e r d) end.
Qed.

Lemma pop_exception_target_blind : blind_call pop_exception_target_frame.
Proof.
  intros x s. unfold pop_exception_target_frame.
  change (call_stack (reseed x s)) with (call_stack s).
  change (catch_frames (reseed x s)) with (catch_frames s).
  destruct (pop_matching _ _) as [[frame rest]|]; [|done].
  unfold unwind_call_stack_to.
  change (set_catch_frames rest (reseed x s)) with (reseed x (set_catch_frames rest s)).
  rewrite (unwind_frames_blind _ _ _ _ _ x).
  change (call_stack (reseed x (set_catch_frames rest s)))
    with (call_stack (set_catch_frames rest s)).
  destruct (unwind_frames _ _ _ _ _ _) as [s2 [[exc ret] depth]]. cbn [fst snd].
  destruct depth, exc, ret; reflexivity.
Qed.

Lemma unwind_to_handler_blind v : blind (unwind_to_handler v).
Proof.
  unfold unwind_to_handler. apply blind_bind; [apply blind_of_call, pop_exception_target_blind|].
  blind_split.
Qed.

Lemma pop_finally_target_blind : blind_call pop_current_finally_target.
Proof.
  intros x s. unfold pop_current_finally_target.
  change (call_stack (reseed x s)) with (call_stack s).
  change (catch_frames (reseed x s)) with (catch_frames s).
  by destruct (pop_matching _ _) as [[]|].
Qed.
Lemma pop_try_blind : blind_call pop_current_try_frame.
Proof.
  intros x s. unfold pop_current_try_frame.
  change (call_stack (reseed x s)) with (call_stack s).
  change (catch_frames (reseed x s)) with (catch_frames s).
  by destruct (pop_matching _ _) as [[]|].
Qed.
Lemma pop_finally_mode_blind : blind_call pop_finally_mode.
Proof.
  intros x s. unfold pop_finally_mode.
  change (finally_modes (reseed x s)) with (finally_modes s). by destruct (finally_modes s).
Qed.
Lemma suspend_current_blind : blind_write suspend_current_abrupt_completion.
Proof.
  intros x s. unfold suspend_current_abrupt_completion, take_current_abrupt_completion.
  change (pending_exception (reseed x s)) with (pending_exception s).
  change (pending_return (reseed x s)) with (pending_return s).
  by destruct (pending_exception s), (pending_return s).
Qed.
Lemma restore_suspended_blind : blind_write restore_suspended_abrupt_completion.
Proof.
  intros x s. unfold restore_suspended_abrupt_completion.
  change (pending_exception (reseed x s)) with (pending_exception s).
  change (pending_return (reseed x s)) with (pending_return s).
  change (suspended_abrupt_completions (reseed x s)) with (suspended_abrupt_completions s).
  by destruct (pending_exception s), (pending_return s), (suspended_abrupt_completions s) as [|[] ?].
Qed.
#[export] Hint Resolve complete_return_blind unwind_to_handler_blind pop_finally_target_blind
  pop_try_blind pop_finally_mode_blind suspend_current_blind restore_suspended_blind : blind.

(** ** Every iteration *)

Lemma store_blind dst m : blind m -> blind (store dst m).
Proof. intros. unfold store. blind_split. Qed.
Lemma store_eval_blind dst f : blind_read f -> blind (store_eval dst f).
Proof. intros. apply store_blind. auto with blind. Qed.
Lemma iterator_next_blind step it d t :
  (forall v, blind (step v)) -> blind (exec_iterator_next step it d t).
Proof. intros. unfold exec_iterator_next. blind_split. Qed.
#[export] Hint Resolve store_blind store_eval_blind iterator_next_blind : blind.

Lemma exec_instr_blind m i : blind (exec_instr m i).
Proof.
  destruct i; cbn [exec_instr];
    unfold exec_load_str, exec_jump_if, exec_call, exec_construct, exec_return, exec_hostcall,
      exec_get_property, exec_set_property, exec_delete_property, exec_new_object,
      exec_begin_try, exec_end_try, exec_throw, exec_enter_catch, exec_enter_finally,
      exec_end_finally, prototype_chain_get;
    try (solve [blind_split]).
  all: apply store_eval_blind; intros x s; by rewrite template_parts_blind.
Qed.

Lemma loop_step_blind m : blind (loop_step m).
Proof.
  intros x s. unfold loop_step.
  change (ip (reseed x s)) with (ip s). change (call_stack (reseed x s)) with (call_stack s).
  change (instructions_executed (reseed x s)) with (instructions_executed s).
  change (config (reseed x s)) with (config s).
  destruct (instructions m !! Z.to_nat (ip s)) as [i|].
  - destruct (_ <=? _); [done|].
    exact (exec_instr_blind m i x (set_instructions_executed (instructions_executed s + 1) s)).
  - destruct (call_stack s); [done|]. apply complete_return_blind.
Qed.

Lemma run_loop_fuel_blind m fuel x s :
  run_loop_fuel fuel m (reseed x s) =
  (fun '(s', r) => (reseed x s', r)) <$> run_loop_fuel fuel m s.
Proof.
  revert s. induction fuel as [|fuel IH]; intros s; [done|]. simpl. rewrite loop_step_blind.
  destruct (loop_step m s) as [s1 [[v|]|e]]; cbn [fst snd]; [done| |done]. apply IH.
Qed.

(** ** Replay *)

(** What a run never changes. *)
Definition kept (s0 s : InterpreterCore) : Prop :=
  config s = config s0 /\ trace_id s = trace_id s0 /\
  last_pre_run_seed s = last_pre_run_seed s0 /\ last_post_run_seed s = last_post_run_seed s0.

Lemma kept_run s0 s s' : same_run s s' -> kept s0 s -> kept s0 s'.
Proof. unfold same_run, kept. intuition congruence. Qed.

Lemma kept_step m s0 s :
  module_wf m -> stack_inv s -> kept s0 s -> kept s0 (fst (loop_step m s)).
Proof.
  intros Hm Hs Hk. destruct (loop_step_shape m s Hm (inv_frames s Hs))
    as [(_ & [[_ Hp]|[_ ->]])|[[_ ->]|(_ & i & _ & H)]]; [|done..|].
  - destruct Hp as (R & _). by eapply kept_run.
  - assert (Hk1 : kept s0 (set_instructions_executed (instructions_executed s + 1) s)) by done.
    destruct H as [H|(cap & _ & _ & _ & H)].
    + eapply kept_run; [|exact Hk1]. by destruct H as [H|[H|H]]; destruct H as (R & _).
    + apply stays_of_host in H as (R & _). by eapply kept_run.
Qed.

Lemma run_kept m s s' r :
  module_wf m -> 0 <= max_registers (config s) ->
  run_loop m (Core.prepare s) = Some (s', r) -> kept (Core.prepare s) s'.
Proof.
  intros Hm Hmax Hr. assert (stack_inv s' /\ kept (Core.prepare s) s') as [_ ?]; [|done].
  eapply (run_inv (fun s' => stack_inv s' /\ kept (Core.prepare s) s')); [|exact Hr|].
  - intros s1 [? ?]. split; [by apply stack_inv_step|by apply kept_step].
  - split; [by apply prepare_inv|done].
Qed.

(** What [finish] leaves for the next run. *)
Lemma finish_kept s r :
  let s' := fst (Core.finish s r) in
  config s' = config s /\ trace_id s' = trace_id s /\
  last_pre_run_seed s' = last_pre_run_seed s /\
  last_post_run_seed s' = Some (Core.capture_execution_seed s').
Proof. unfold Core.finish. by destruct r as [v|[]]. Qed.

(** The result does not depend on the post-run seed. *)
Lemma finish_blind x s r : snd (Core.finish (reseed x s) r) = snd (Core.finish s r).
Proof. unfold Core.finish. by destruct r as [v|[]]. Qed.

(** A core that a run has left as it is starts again from the run's seed. *)
Lemma choose_seed_again s s1 :
  last_pre_run_seed s1 = Some (Core.choose_seed s) ->
  last_post_run_seed s1 = Some (Core.capture_execution_seed s1) ->
  Core.choose_seed s1 = Core.choose_seed s.
Proof. intros Hpre Hpost. unfold Core.choose_seed at 1. by rewrite Hpre, Hpost, bool_decide_true. Qed.

Lemma execute_seed m s s1 r1 :
  module_wf m -> 0 <= max_registers (config s) -> Core.execute m s = Some (s1, r1) ->
  Core.choose_seed s1 = Core.choose_seed s.
Proof.
  intros Hm Hmax. unfold Core.execute.
  destruct (run_loop m (Core.prepare s)) as [[t u]|] eqn:Hr; [|done]. intros [= Hf].
  destruct (run_kept m s t u Hm Hmax Hr) as (_ & _ & Kpre & _).
  destruct (finish_kept t u) as (_ & _ & Fpre & Fpost). rewrite Hf in Fpre, Fpost. cbn [fst] in *.
  apply choose_seed_again; [by rewrite Fpre, Kpre|done].
Qed.

Lemma prepare_again s s1 :
  config s1 = config s -> trace_id s1 = trace_id s ->
  last_pre_run_seed s1 = Some (Core.choose_seed s) ->
  last_post_run_seed s1 = Some (Core.capture_execution_seed s1) ->
  Core.prepare s1 = reseed (last_post_run_seed s1) (Core.prepare s).
Proof.
  intros Ec Et Hpre Hpost. unfold Core.prepare. rewrite (choose_seed_again s s1) by done.
  unfold Core.reset_execution_state_from_seed, push_event, modify, reseed. cbn.
  by rewrite Ec, Et.
Qed.

(** C4. Deterministic replay. Executing the same module a second time on the core the
    first execution left behind returns exactly the same result: value, instruction count,
    witness events, host-call decisions and events, or the same error. The second run
    starts from the seed the first one started from, although heap, registers and
    iterators have been mutated in between. *)
Theorem interp_replay_deterministic m s s1 r1 s2 r2 :
  module_wf m -> 0 <= max_registers (config s) ->
  Core.execute m s = Some (s1, r1) -> Core.execute m s1 = Some (s2, r2) -> r2 = r1.
Proof.
  intros Hm Hmax. unfold Core.execute.
  destruct (run_loop m (Core.prepare s)) as [[t u]|] eqn:Hr; [|done]. intros [= Hf] He2.
  destruct (run_kept m s t u Hm Hmax Hr) as (Kc & Kt & Kpre & _).
  destruct (finish_kept t u) as (Fc & Ft & Fpre & Fpost). rewrite Hf in Fc, Ft, Fpre, Fpost.
  cbn [fst] in *.
  assert (Hp : Core.prepare s1 = reseed (last_post_run_seed s1) (Core.prepare s)).
  { apply prepare_again; [by rewrite Fc, Kc|by rewrite Ft, Kt|by rewrite Fpre, Kpre|done]. }
  rewrite Hp in He2. unfold run_loop in Hr, He2.
  change (run_fuel (reseed (last_post_run_seed s1) (Core.prepare s)))
    with (run_fuel (Core.prepare s)) in He2.
  rewrite run_loop_fuel_blind, Hr in He2. cbn [fmap option_fmap option_map] in He2.
  injection He2 as He2. pose proof (finish_blind (last_post_run_seed s1) t u) as Hb.
  rewrite He2, Hf in Hb. done.
Qed.
