(* ===== verification/InterpSafety.v ===== *)
(** * Memory safety of the interpreter

    Values never dangle: every object and iterator handle in a register, a
    property, a prototype link, an iterator, a frame or a pending completion
    names an existing object or iterator, and every number is a 64-bit integer.
    [state_ok] is that invariant; each method keeps it and only lets the heap
    and the iterator table grow, so that no execution that starts from a sound
    seed fails to find an object or an iterator. *)
From stdpp Require Import base numbers list strings pretty gmap.
From Stdlib Require Import Strings.Byte.
From S2P Require Import Prelude Bytes Text HashTiers DetSerde IrContract IrContractCorrect.
From S2P Require Import InterpCore BaselineInterp InterpShape InterpProgress InterpReplay.
Open Scope Z_scope.

#[local] Opaque ContentHash_compute MAX_PROTOTYPE_CHAIN_DEPTH.

(** ** Sound values and states *)

(** With [h] objects and [n] iterators. *)
Definition value_ok (h n : nat) (v : Value) : Prop :=
  match v with
  | JInt z => is_i64 z
  | JObject id => 0 <= id /\ (Z.to_nat id < h)%nat
  | JIterator it => 0 <= it /\ (Z.to_nat it < n)%nat
  | _ => True
  end.

Definition opt_ok (h n : nat) (o : option Value) : Prop := forall v, o = Some v -> value_ok h n v.

Definition link_ok (h : nat) (o : option ObjectId) : Prop :=
  forall id, o = Some id -> value_ok h 0 (JObject id).

Definition obj_ok (h n : nat) (o : HeapObject) : Prop :=
  map_Forall (fun _ v => value_ok h n v) (properties o) /\ link_ok h (prototype o).

Definition iter_ok (h n : nat) (it : RuntimeIteratorState) : Prop :=
  match it with
  | ForIn st => value_ok h n (JObject (fi_object_id st))
  | ForOf st => Forall (value_ok h n) (fo_values st)
  end.

Definition completion_ok (h n : nat) (c : AbruptCompletion) : Prop :=
  match c with AException v | AReturn v => value_ok h n v end.

Definition frame_ok (h n : nat) (f : CallFrame) : Prop :=
  opt_ok h n (construct_this f) /\ opt_ok h n (saved_pending_exception f) /\
  opt_ok h n (saved_pending_return f).

Record state_ok_at (h n : nat) (s : InterpreterCore) : Prop := {
  so_registers : Forall (value_ok h n) (registers s);
  so_heap : Forall (obj_ok h n) (heap s);
  so_protos : map_Forall (fun _ id => value_ok h n (JObject id)) (function_prototypes s);
  so_iterators : Forall (iter_ok h n) (iterators s);
  so_exception : opt_ok h n (pending_exception s);
  so_return : opt_ok h n (pending_return s);
  so_suspended : Forall (completion_ok h n) (suspended_abrupt_completions s);
  so_stack : Forall (frame_ok h n) (call_stack s);
}.

Definition vok (s : InterpreterCore) : Value -> Prop :=
  value_ok (length (heap s)) (length (iterators s)).
Definition voks (s : InterpreterCore) : list Value -> Prop := Forall (vok s).
Definition vopt (s : InterpreterCore) : option Value -> Prop :=
  opt_ok (length (heap s)) (length (iterators s)).

Definition state_ok (s : InterpreterCore) : Prop :=
  state_ok_at (length (heap s)) (length (iterators s)) s.

(** Objects and iterators are never removed. *)
Definition grows (s s' : InterpreterCore) : Prop :=
  (length (heap s) <= length (heap s'))%nat /\ (length (iterators s) <= length (iterators s'))%nat.

(** The errors that do not come from a dangling handle. *)
Definition sound_error (e : InterpreterError) : Prop :=
  match e with ObjectNotFound _ | IteratorNotFound _ => False | _ => True end.

Section mono.
Context (h n h' n' : nat) (Hh : (h <= h')%nat) (Hn : (n <= n')%nat).

Lemma handle_ok_mono v : value_ok h n v -> value_ok h' n' v.
Proof using Hh Hn. destruct v; simpl; lia || done. Qed.

Lemma vals_ok_mono l : Forall (value_ok h n) l -> Forall (value_ok h' n') l.
Proof using Hh Hn. intros H. eapply Forall_impl; [done|]. intros v. apply handle_ok_mono. Qed.

Lemma opt_ok_mono o : opt_ok h n o -> opt_ok h' n' o.
Proof using Hh Hn. intros H v Hv. by apply handle_ok_mono, H. Qed.

Lemma obj_ok_mono o : obj_ok h n o -> obj_ok h' n' o.
Proof using Hh Hn.
  intros [H1 H2]. split.
  - intros k v Hk. apply handle_ok_mono. by apply (H1 k).
  - intros id Hid. destruct (H2 id Hid). simpl. lia.
Qed.

Lemma iter_ok_mono it : iter_ok h n it -> iter_ok h' n' it.
Proof using Hh Hn. destruct it; [apply handle_ok_mono|apply vals_ok_mono]. Qed.

Lemma completion_ok_mono c : completion_ok h n c -> completion_ok h' n' c.
Proof using Hh Hn. destruct c; apply handle_ok_mono. Qed.

Lemma frame_ok_mono f : frame_ok h n f -> frame_ok h' n' f.
Proof using Hh Hn. intros (? & ? & ?). split_and!; by apply opt_ok_mono. Qed.

Lemma state_ok_mono s : state_ok_at h n s -> state_ok_at h' n' s.
Proof using Hh Hn.
  intros [Hr Hhp Hp Hi He Ht Hs Hc]. split.
  - by apply vals_ok_mono.
  - eapply Forall_impl; [done|]. intros o. apply obj_ok_mono.
  - intros k id Hk. eapply handle_ok_mono, (Hp k id Hk).
  - eapply Forall_impl; [done|]. intros o. apply iter_ok_mono.
  - by apply opt_ok_mono.
  - by apply opt_ok_mono.
  - eapply Forall_impl; [done|]. intros o. apply completion_ok_mono.
  - eapply Forall_impl; [done|]. intros o. apply frame_ok_mono.
Qed.
End mono.

#[export] Instance grows_refl : Reflexive grows.
Proof. by intros s; split. Qed.
#[export] Instance grows_trans : Transitive grows.
Proof. unfold grows. intros s1 s2 s3. lia. Qed.

Lemma vok_grows s s' v : grows s s' -> vok s v -> vok s' v.
Proof. intros [? ?]. by apply handle_ok_mono. Qed.
Lemma voks_grows s s' l : grows s s' -> voks s l -> voks s' l.
Proof. intros [? ?]. by apply vals_ok_mono. Qed.
Lemma vopt_grows s s' o : grows s s' -> vopt s o -> vopt s' o.
Proof. intros [? ?]. by apply opt_ok_mono. Qed.

Lemma vopt_Some s v : vopt s (Some v) <-> vok s v.
Proof. split; [intros H; by apply H|]. by intros H ? [= <-]. Qed.
Lemma vopt_None s : vopt s None.
Proof. done. Qed.

Lemma opt_ok_None h n : opt_ok h n None.
Proof. done. Qed.

(** A change that leaves heap and iterator table alone. *)
Lemma state_ok_same s s' :
  heap s' = heap s -> iterators s' = iterators s ->
  state_ok_at (length (heap s)) (length (iterators s)) s' -> state_ok s' /\ grows s s'.
Proof. unfold state_ok, grows. intros -> ->. done. Qed.

(** ** Sound computations *)

Definition rsound {A} (P : A -> Prop) (r : result InterpreterError A) : Prop :=
  match r with Ok a => P a | Err e => sound_error e end.

Definition safe {A} (s : InterpreterCore) (m : M A) (Q : InterpreterCore -> A -> Prop) : Prop :=
  state_ok (fst (m s)) /\ grows s (fst (m s)) /\ rsound (Q (fst (m s))) (snd (m s)).

Lemma rsound_bind {A B} (r : result InterpreterError A) (f : A -> result InterpreterError B) P Q :
  rsound P r -> (forall a, P a -> rsound Q (f a)) -> rsound Q (r ≫= f).
Proof. destruct r; simpl; auto. Qed.

Lemma rsound_weaken {A} (r : result InterpreterError A) (P Q : A -> Prop) :
  rsound P r -> (forall a, P a -> Q a) -> rsound Q r.
Proof. destruct r; simpl; auto. Qed.

Lemma rsound_ok_or {A} e (o : option A) (P : A -> Prop) :
  sound_error e -> (forall a, o = Some a -> P a) -> rsound P (ok_or e o).
Proof. destruct o; simpl; auto. Qed.

Lemma safe_bind {A B} s (m : M A) (f : A -> M B) P Q :
  safe s m P ->
  (forall s' a, state_ok s' -> grows s s' -> P s' a -> safe s' (f a) Q) ->
  safe s (m ≫= f) Q.
Proof.
  unfold safe. intros (Ho & Hg & Hp) Hf. rewrite bind_unfold.
  destruct (m s) as [s' [a|e]]; cbn [fst snd rsound] in *; [|done].
  destruct (Hf s' a Ho Hg Hp) as (? & ? & ?). split_and!; [done| |done]. by transitivity s'.
Qed.

Lemma safe_weaken {A} s (m : M A) (P Q : InterpreterCore -> A -> Prop) :
  safe s m P -> (forall s' a, P s' a -> Q s' a) -> safe s m Q.
Proof.
  intros (? & ? & ?) HPQ. split_and!; [done..|]. eapply rsound_weaken; eauto.
Qed.

Lemma safe_ret {A} s (a : A) (Q : InterpreterCore -> A -> Prop) :
  state_ok s -> Q s a -> safe s (mret a) Q.
Proof. intros. by split_and!. Qed.

Lemma safe_raise {A} s e (Q : InterpreterCore -> A -> Prop) :
  state_ok s -> sound_error e -> safe s (raise e) Q.
Proof. intros. by split_and!. Qed.

Lemma safe_gets {A} s (f : InterpreterCore -> A) (Q : InterpreterCore -> A -> Prop) :
  state_ok s -> Q s (f s) -> safe s (gets f) Q.
Proof. intros. by split_and!. Qed.

Lemma safe_lift {A} s (f : InterpreterCore -> result InterpreterError A)
    (Q : InterpreterCore -> A -> Prop) :
  state_ok s -> rsound (Q s) (f s) -> safe s (lift f) Q.
Proof. intros. by split_and!. Qed.

(** Reading leaves the state alone. *)
Lemma safe_read {A B} s (f : InterpreterCore -> result InterpreterError A) (g : A -> M B) P Q :
  state_ok s -> rsound P (f s) -> (forall a, P a -> safe s (g a) Q) -> safe s (lift f ≫= g) Q.
Proof.
  intros Hs Hf Hg. unfold safe. rewrite !bind_unfold. unfold lift.
  destruct (f s) as [a|e]; [by apply Hg|by split_and!].
Qed.

(** A modification that touches neither the heap nor the iterators. *)
Lemma safe_modify s f (Q : InterpreterCore -> unit -> Prop) :
  state_ok_at (length (heap s)) (length (iterators s)) (f s) ->
  heap (f s) = heap s -> iterators (f s) = iterators s ->
  Q (f s) tt -> safe s (modify f) Q.
Proof. intros Ho Hh Hi HQ. destruct (state_ok_same s (f s)) as [? ?]; [done..|]. by split_and!. Qed.

Lemma safe_call {A} s (f : InterpreterCore -> InterpreterCore * A)
    (Q : InterpreterCore -> A -> Prop) :
  state_ok_at (length (heap s)) (length (iterators s)) (fst (f s)) ->
  heap (fst (f s)) = heap s -> iterators (fst (f s)) = iterators s ->
  Q (fst (f s)) (snd (f s)) -> safe s (call f) Q.
Proof.
  intros Ho Hh Hi HQ. destruct (state_ok_same s (fst (f s))) as [? ?]; [done..|].
  unfold safe, call. by destruct (f s).
Qed.

(** ** Reading *)

Lemma read_reg_sound s r : state_ok s -> rsound (vok s) (read_reg s r).
Proof.
  intros Hs. unfold read_reg. destruct (_ <=? _); [done|]. simpl.
  destruct (registers s !! _) as [v|] eqn:E; simpl; [|done].
  eapply (Forall_lookup_1 _ _ _ _ (so_registers _ _ _ Hs) E).
Qed.

Lemma heap_get_sound s id :
  vok s (JObject id) -> exists o, heap_get s id = Ok o /\ heap s !! Z.to_nat id = Some o.
Proof.
  intros [_ Hid]. unfold heap_get. destruct (heap s !! Z.to_nat id) as [o|] eqn:E; [by exists o|].
  apply lookup_ge_None in E. lia.
Qed.

Lemma heap_lookup_ok s i o : state_ok s -> heap s !! i = Some o ->
  map_Forall (fun _ v => vok s v) (properties o) /\
  (forall p, prototype o = Some p -> vok s (JObject p)).
Proof.
  intros Hs Ho. destruct (Forall_lookup_1 _ _ _ _ (so_heap _ _ _ Hs) Ho) as [H1 H2].
  split; [done|]. intros p Hp. exact (H2 p Hp).
Qed.

Lemma args_sound s start i n : state_ok s -> rsound (voks s) (read_args s start i n).
Proof.
  intros Hs. revert i. induction n as [|n IH]; intros i; simpl; [constructor|].
  destruct (_ <? _); [done|].
  eapply rsound_bind; [by apply read_reg_sound|]. intros v Hv.
  eapply rsound_bind; [apply IH|]. intros vs Hvs. by constructor.
Qed.

Lemma template_sound s start i n acc : state_ok s ->
  rsound (fun _ => True) (template_parts s start i n acc).
Proof.
  intros Hs. revert i acc. induction n as [|n IH]; intros i acc; simpl; [done|].
  destruct (_ <? _); [done|].
  eapply rsound_bind; [by apply read_reg_sound|]. intros v _. apply IH.
Qed.

(** ** Prototype chains *)

Section chains.
Context (s : InterpreterCore) (Hs : state_ok s).

Definition link (current : option ObjectId) : Prop :=
  forall id, current = Some id -> vok s (JObject id).

Lemma link_object id o : vok s (JObject id) -> heap s !! Z.to_nat id = Some o -> link (prototype o).
Proof using Hs. intros _ Ho p. by apply (heap_lookup_ok s _ o Hs Ho). Qed.

Lemma chain_get_sound key levels visited current :
  link current -> rsound (vok s) (chain_get s key levels visited current).
Proof using Hs.
  revert visited current. induction levels as [|l IH]; intros visited [id|] Hl; simpl; try done.
  case_bool_decide; [done|]. destruct (heap_get_sound s id (Hl _ eq_refl)) as (o & -> & Ho). simpl.
  destruct (properties o !! key) as [v|] eqn:E.
  - by apply (heap_lookup_ok s _ o Hs Ho) in E.
  - apply IH, (link_object id o); auto.
Qed.

Lemma chain_has_key_sound key levels visited current :
  link current -> rsound (fun _ => True) (chain_has_key s key levels visited current).
Proof using Hs.
  revert visited current. induction levels as [|l IH]; intros visited [id|] Hl; simpl; try done.
  case_bool_decide; [done|]. destruct (heap_get_sound s id (Hl _ eq_refl)) as (o & -> & Ho). simpl.
  case_bool_decide; [done|]. apply IH, (link_object id o); auto.
Qed.

Lemma chain_contains_sound p levels visited current :
  link current -> rsound (fun _ => True) (chain_contains s p levels visited current).
Proof using Hs.
  revert visited current. induction levels as [|l IH]; intros visited [id|] Hl; simpl; try done;
    destruct (id =? p); try done.
  case_bool_decide; [done|]. destruct (heap_get_sound s id (Hl _ eq_refl)) as (o & -> & Ho). simpl.
  apply IH, (link_object id o); auto.
Qed.

Lemma chain_keys_sound levels visited current seen keys :
  link current -> rsound (fun _ => True) (chain_keys s levels visited current seen keys).
Proof using Hs.
  revert visited current seen keys.
  induction levels as [|l IH]; intros visited [id|] seen keys Hl; simpl; try done.
  case_bool_decide; [done|]. destruct (heap_get_sound s id (Hl _ eq_refl)) as (o & -> & Ho). simpl.
  destruct (fold_left _ _ _) as [seen' keys']. apply IH, (link_object id o); auto.
Qed.

Lemma contains_sound id p :
  vok s (JObject id) -> rsound (fun _ => True) (prototype_chain_contains s id p).
Proof using Hs.
  intros Hid. unfold prototype_chain_contains.
  destruct (heap_get_sound s id Hid) as (o & -> & Ho). simpl.
  apply chain_contains_sound, (link_object id o); auto.
Qed.
End chains.

Lemma link_Some s id : vok s (JObject id) -> link s (Some id).
Proof. by intros H ? [= <-]. Qed.

(** ** Numbers stay 64-bit integers *)

Lemma coerce_sound s v z : vok s v -> coerce_to_number v = Some z -> is_i64 z.
Proof.
  destruct v as [| |b|n|t| | |]; simpl; intros Hv Hz; try discriminate.
  - injection Hz as <-. mlia.
  - injection Hz as <-. destruct b; simpl; mlia.
  - by injection Hz as <-.
  - case_bool_decide; [injection Hz as <-; mlia|]. by apply parse_i64_range in Hz.
Qed.

Lemma two_numbers_sound s expected got a b :
  vok s a -> vok s b ->
  rsound (fun p => is_i64 p.1 /\ is_i64 p.2) (two_numbers expected got a b).
Proof.
  intros Ha Hb. unfold two_numbers.
  eapply rsound_bind;
    [apply (rsound_ok_or _ _ is_i64); [done|intros z; by apply (coerce_sound s)]|]. intros x Hx.
  eapply rsound_bind;
    [apply (rsound_ok_or _ _ is_i64); [done|intros z; by apply (coerce_sound s)]|]. done.
Qed.

Lemma one_number_sound s v : vok s v -> rsound is_i64 (one_number v).
Proof. intros Hv. apply rsound_ok_or; [done|]. intros z. by apply (coerce_sound s). Qed.

Definition is_i32 (z : Z) : Prop := - 2 ^ 31 <= z < 2 ^ 31.

Lemma wrap_i32_range z : is_i32 (wrap_i32 z).
Proof. unfold is_i32, wrap_i32. pose proof (Z.mod_pos_bound (z + 2 ^ 31) (2 ^ 32)). lia. Qed.

Lemma i32_i64 z : is_i32 z -> is_i64 z.
Proof. unfold is_i32. mlia. Qed.

(** The bits from the sign bit on are all equal. *)
Lemma is_i32_shiftr z : is_i32 z <-> Z.shiftr z 31 = 0 \/ Z.shiftr z 31 = -1.
Proof.
  unfold is_i32. rewrite Z.shiftr_div_pow2 by lia.
  pose proof (Z.div_mod z (2 ^ 31)). pose proof (Z.mod_pos_bound z (2 ^ 31)). nia.
Qed.

Lemma bitwise_i32 x y : is_i32 x -> is_i32 y ->
  is_i32 (Z.land x y) /\ is_i32 (Z.lor x y) /\ is_i32 (Z.lxor x y).
Proof.
  rewrite !is_i32_shiftr, Z.shiftr_land, Z.shiftr_lor, Z.shiftr_lxor.
  intros [-> | ->] [-> | ->]; vm_compute; tauto.
Qed.

Lemma shiftr_range x n lo hi : lo <= 0 <= hi -> lo <= x <= hi -> 0 <= n -> lo <= Z.shiftr x n <= hi.
Proof.
  intros H0 Hx Hn. rewrite Z.shiftr_div_pow2 by done.
  assert (0 < 2 ^ n) by (apply Z.pow_pos_nonneg; lia).
  pose proof (Z.div_mod x (2 ^ n)). pose proof (Z.mod_pos_bound x (2 ^ n)). nia.
Qed.

Lemma checked_rem_range x y r : is_i64 x -> is_i64 y -> checked_rem x y = Some r -> is_i64 r.
Proof.
  unfold checked_rem. intros Hx Hy. destruct (_ || _) eqn:E; [done|]. intros [= <-].
  apply orb_false_iff in E as [Hz _]. apply Z.eqb_neq in Hz.
  pose proof (Z.rem_bound_abs x y Hz). mlia.
Qed.

Lemma pow_pos_range x e : is_i64 x -> is_i64 (pow_pos x e).
Proof.
  revert x. induction e as [e IH|e IH|]; intros x Hx; simpl; auto with franken.
Qed.

(** ** Evaluation helpers *)

(** Reads the operands of a helper, then leaves its computation. *)
Ltac operands :=
  repeat (eapply rsound_bind;
    [first [by apply read_reg_sound | by eapply two_numbers_sound | by eapply one_number_sound]|];
    intros ? ?; try match goal with p : Z * Z |- _ => destruct p; simpl in * end).

Section evals.
Context (s : InterpreterCore) (Hs : state_ok s).

Lemma eval_add_sound lhs rhs : rsound (vok s) (eval_add s lhs rhs).
Proof using Hs.
  unfold eval_add. operands.
  assert (rsound (vok s) ('(x, y) ← two_numbers "number or string" (got_types "+") a a0;
    Ok (JInt (wrap_i64 (x + y))))) as Hn.
  { eapply rsound_bind; [by eapply two_numbers_sound|]. intros [? ?] _. apply is_i64_wrap. }
  destruct a; destruct a0; cbv beta iota; first [exact I | apply Hn | apply is_i64_wrap].
Qed.

Lemma eval_arith_sound lhs rhs op : rsound (vok s) (eval_arith s lhs rhs op).
Proof using Hs.
  unfold eval_arith. operands. repeat case_bool_decide; simpl; try done; apply is_i64_wrap.
Qed.

Lemma eval_div_sound lhs rhs : rsound (vok s) (eval_div s lhs rhs).
Proof using Hs. unfold eval_div. operands. destruct (_ =? _); simpl; [done|]. apply is_i64_wrap. Qed.

Lemma eval_mod_sound lhs rhs : rsound (vok s) (eval_mod s lhs rhs).
Proof using Hs.
  unfold eval_mod. operands. destruct (_ =? _); simpl; [done|].
  destruct (checked_rem _ _) eqn:E; simpl; [|mlia]. eapply checked_rem_range in E; naive_solver.
Qed.

Lemma eval_exp_sound lhs rhs : rsound (vok s) (eval_exp s lhs rhs).
Proof using Hs.
  unfold eval_exp. operands. destruct (_ && _); simpl; [|done].
  unfold wrapping_pow. destruct z0; simpl; [mlia| |mlia]. apply pow_pos_range. naive_solver.
Qed.

Lemma eval_unary_plus_sound src : rsound (vok s) (eval_unary_plus s src).
Proof using Hs. unfold eval_unary_plus. by operands. Qed.

Lemma eval_unary_neg_sound src : rsound (vok s) (eval_unary_neg s src).
Proof using Hs. unfold eval_unary_neg. operands. apply is_i64_wrap. Qed.

Lemma eval_bit_not_sound src : rsound (vok s) (eval_bit_not s src).
Proof using Hs.
  unfold eval_bit_not. operands. simpl. pose proof (wrap_i32_range a0) as Hw.
  unfold is_i32 in Hw. unfold vok, value_ok. unfold Z.lnot. mlia.
Qed.

Lemma eval_relational_sound lhs rhs op : rsound (vok s) (eval_relational s lhs rhs op).
Proof using Hs.
  unfold eval_relational. operands.
  eapply (rsound_bind _ _ (fun _ => True)).
  - assert (rsound (fun _ => True)
      ('(x, y) ← two_numbers "comparable primitive" (got_types op) a a0; Ok (x ?= y))) as Hn.
    { eapply rsound_bind; [by eapply two_numbers_sound|]. by intros [? ?] _. }
    destruct a; try exact Hn. destruct a0; try exact Hn. done.
  - intros o _. by repeat case_bool_decide.
Qed.

Lemma eval_equality_sound lhs rhs strict negate : rsound (vok s) (eval_equality s lhs rhs strict negate).
Proof using Hs. unfold eval_equality. by operands. Qed.

Lemma eval_bitwise_sound lhs rhs op : rsound (vok s) (eval_bitwise s lhs rhs op).
Proof using Hs.
  unfold eval_bitwise. operands.
  destruct (bitwise_i32 (wrap_i32 z) (wrap_i32 z0)) as (? & ? & ?); [apply wrap_i32_range..|].
  assert (0 <= Z.land (wrap_u32 z0) 31) by (apply Z.land_nonneg; lia).
  pose proof (wrap_i32_range z) as Hz. unfold is_i32 in Hz.
  repeat case_bool_decide; simpl; try done; try (apply i32_i64; done || apply wrap_i32_range).
  - pose proof (shiftr_range (wrap_i32 z) (Z.land (wrap_u32 z0) 31) (- 2 ^ 31) (2 ^ 31)). mlia.
  - assert (0 <= wrap_u32 z < 2 ^ 32) by (apply Z.mod_pos_bound; lia).
    pose proof (shiftr_range (wrap_u32 z) (Z.land (wrap_u32 z0) 31) 0 (2 ^ 32)). mlia.
Qed.

Lemma eval_in_sound lhs rhs : rsound (vok s) (eval_in_operator s lhs rhs).
Proof using Hs.
  unfold eval_in_operator. operands. destruct a0; try done.
  destruct (heap_get_sound s id) as (o & -> & Ho); [done|]. simpl.
  eapply rsound_bind; [by apply chain_has_key_sound, link_Some|]. done.
Qed.

Lemma for_of_values_sound v : vok s v -> rsound (voks s) (collect_for_of_values s v).
Proof using Hs.
  intros Hv. unfold collect_for_of_values. destruct v; try done; simpl.
  - apply Forall_fmap, Forall_true. done.
  - destruct (heap_get_sound s id) as (o & -> & Ho); [done|]. simpl.
    case_bool_decide as E; [done|]. simpl. clear E.
    destruct (heap_lookup_ok s _ o Hs Ho) as [Hp _].
    assert (Forall (fun p => vok s p.2)
      (omap (fun '(key, value) => (fun index => (index, value)) <$> parse_u64 key)
         (sorted_entries (properties o)))) as H.
    { apply Forall_forall. intros [i v] Hin. apply list_elem_of_omap in Hin as ([k v'] & Hin & Heq).
      apply elem_of_sorted_entries, Hp in Hin. destruct (parse_u64 k); simplify_eq/=. done. }
    revert H. generalize (omap (fun '(key, value) => (fun index => (index, value)) <$> parse_u64 key)
         (sorted_entries (properties o))). intros l H.
    apply Forall_fmap. unfold sort_by_index. induction H as [|x l Hx _ IH]; simpl; [constructor|].
    revert IH. generalize (fold_right insert_by_index [] l). intros r IH.
    induction IH as [|y r Hy Hr IH]; simpl; [by repeat constructor|].
    destruct (_ <=? _); repeat constructor; auto.
Qed.
End evals.

(** ** Methods that change the state *)

(** Moves what is known of values to the state after a step. *)
Ltac adopt Hg :=
  cbv beta in *; repeat match goal with
  | H : vok _ _ |- _ => apply (vok_grows _ _ _ Hg) in H
  | H : voks _ _ |- _ => apply (voks_grows _ _ _ Hg) in H
  | H : vopt _ _ |- _ => apply (vopt_grows _ _ _ Hg) in H
  end; clear Hg.

Definition any {A} : InterpreterCore -> A -> Prop := fun _ _ => True.


Lemma Forall_resize {A} (P : A -> Prop) l n x : P x -> Forall P l -> Forall P (resize l n x).
Proof.
  intros Hx Hl. apply Forall_app. split; [by apply Forall_take|by apply Forall_replicate].
Qed.

Lemma Forall_fill {A} (P : A -> Prop) l lo hi x : P x -> Forall P l -> Forall P (fill l lo hi x).
Proof.
  intros Hx Hl. unfold fill. rewrite !Forall_app.
  split_and!; [by apply Forall_take|by apply Forall_replicate|by apply Forall_drop].
Qed.

Section setters.
Context (h n : nat) (s : InterpreterCore) (Hs : state_ok_at h n s).

Lemma ok_registers v : Forall (value_ok h n) v -> state_ok_at h n (set_registers v s).
Proof using Hs. destruct Hs. by split. Qed.
Lemma ok_heap v : Forall (obj_ok h n) v -> state_ok_at h n (set_heap v s).
Proof using Hs. destruct Hs. by split. Qed.
Lemma ok_iterators v : Forall (iter_ok h n) v -> state_ok_at h n (set_iterators v s).
Proof using Hs. destruct Hs. by split. Qed.
Lemma ok_protos v :
  map_Forall (fun _ id => value_ok h n (JObject id)) v -> state_ok_at h n (set_function_prototypes v s).
Proof using Hs. destruct Hs. by split. Qed.
Lemma ok_exception v : opt_ok h n v -> state_ok_at h n (set_pending_exception v s).
Proof using Hs. destruct Hs. by split. Qed.
Lemma ok_return v : opt_ok h n v -> state_ok_at h n (set_pending_return v s).
Proof using Hs. destruct Hs. by split. Qed.
Lemma ok_suspended v :
  Forall (completion_ok h n) v -> state_ok_at h n (set_suspended_abrupt_completions v s).
Proof using Hs. destruct Hs. by split. Qed.
Lemma ok_stack v : Forall (frame_ok h n) v -> state_ok_at h n (set_call_stack v s).
Proof using Hs. destruct Hs. by split. Qed.
Lemma ok_ip v : state_ok_at h n (set_ip v s).
Proof using Hs. destruct Hs. by split. Qed.
Lemma ok_base v : state_ok_at h n (set_register_base v s).
Proof using Hs. destruct Hs. by split. Qed.
Lemma ok_catch v : state_ok_at h n (set_catch_frames v s).
Proof using Hs. destruct Hs. by split. Qed.
Lemma ok_modes v : state_ok_at h n (set_finally_modes v s).
Proof using Hs. destruct Hs. by split. Qed.
Lemma ok_executed v : state_ok_at h n (set_instructions_executed v s).
Proof using Hs. destruct Hs. by split. Qed.
Lemma ok_witnesses v : state_ok_at h n (set_witness_events v s).
Proof using Hs. destruct Hs. by split. Qed.
Lemma ok_seq v : state_ok_at h n (set_witness_seq v s).
Proof using Hs. destruct Hs. by split. Qed.
Lemma ok_decisions v : state_ok_at h n (set_hostcall_decisions v s).
Proof using Hs. destruct Hs. by split. Qed.
End setters.

Create HintDb safe.
#[export] Hint Resolve ok_ip ok_base ok_catch ok_modes ok_executed ok_witnesses ok_seq
  ok_decisions ok_exception ok_return : safe.
#[export] Hint Resolve vopt_None opt_ok_None : safe.
#[export] Hint Extern 1 (any _ _) => exact I : safe.

Lemma write_reg_safe s r v : state_ok s -> vok s v -> safe s (write_reg r v) any.
Proof.
  intros Hs Hv. unfold safe, write_reg. destruct (_ <=? _); [by split_and!|]. cbn [fst snd rsound].
  destruct (state_ok_same s (set_registers (<[Z.to_nat (register_base s + r):=v]>
    (if zlen (registers s) <=? register_base s + r
     then resize (registers s) (register_base s + r + 1) JUndefined else registers s)) s))
    as [? ?]; [done..| |done].
  apply ok_registers; [done|]. apply Forall_insert; [|done].
  destruct (_ <=? _); [apply Forall_resize; [done|]|]; apply Hs.
Qed.

Lemma advance_safe s : state_ok s -> safe s advance any.
Proof. intros Hs. apply safe_modify; by auto with safe. Qed.
Lemma jump_safe s t : state_ok s -> safe s (jump t) any.
Proof. intros Hs. apply safe_modify; by auto with safe. Qed.

Lemma emit_safe s k d : state_ok s -> safe s (emit_witness k d) any.
Proof.
  intros Hs. unfold safe, emit_witness. cbn [fst snd].
  destruct (state_ok_same s (set_witness_seq (witness_seq s + 1) (set_witness_events
    (witness_events s ++ [mkWitness (witness_seq s) k (wrap_u32 (ip s))
       (ContentHash_compute (str_bytes (default "" d))) (instructions_executed s)]) s)))
    as [? ?]; [done..| |done]. by auto with safe.
Qed.

Lemma u32_sat_range n : 0 <= n -> 0 <= u32_sat n <= n.
Proof. unfold u32_sat, u32_max. intros. destruct (Z.leb_spec n (2 ^ 32 - 1)); lia. Qed.

(** A new object gets an identifier below the new length, also when the
    identifier saturates. *)
Lemma alloc_object_safe s p :
  state_ok s -> link s p ->
  safe s (alloc_object_with_prototype p) (fun s' id => vok s' (JObject id)).
Proof.
  intros Hs Hp. unfold safe, alloc_object_with_prototype. cbn [fst snd rsound].
  pose proof (u32_sat_range (zlen (heap s)) ltac:(unfold zlen; lia)) as Hid.
  unfold state_ok, grows, vok. simpl. rewrite length_app. simpl. split_and!.
  - apply (state_ok_mono _ _ (length (heap s) + 1) (length (iterators s))) in Hs; [|lia..].
    apply ok_heap; [done|]. apply Forall_app. split; [apply Hs|]. apply Forall_singleton. split.
    + apply map_Forall_empty.
    + intros id Hi. destruct (Hp id Hi). simpl in *. lia.
  - lia.
  - done.
  - unfold zlen in *. lia.
  - unfold zlen in *. lia.
Qed.

Lemma alloc_iterator_safe s it :
  state_ok s -> iter_ok (length (heap s)) (length (iterators s)) it ->
  safe s (alloc_iterator it) (fun s' i => vok s' (JIterator i)).
Proof.
  intros Hs Hi. unfold safe, alloc_iterator. cbn [fst snd rsound].
  pose proof (u32_sat_range (zlen (iterators s)) ltac:(unfold zlen; lia)) as Hid.
  unfold state_ok, grows, vok. simpl. rewrite length_app. simpl. split_and!.
  - apply (state_ok_mono _ _ (length (heap s)) (length (iterators s) + 1)) in Hs; [|lia..].
    apply ok_iterators; [done|]. apply Forall_app. split; [apply Hs|]. apply Forall_singleton.
    by eapply iter_ok_mono; [..|done]; lia.
  - done.
  - lia.
  - unfold zlen in *. lia.
  - unfold zlen in *. lia.
Qed.

Lemma ensure_prototype_safe s f :
  state_ok s -> safe s (ensure_function_prototype f) (fun s' id => vok s' (JObject id)).
Proof.
  intros Hs. unfold ensure_function_prototype.
  eapply (safe_bind _ _ _ (fun s' p => p = function_prototypes s')); [by apply safe_gets|].
  intros s1 p Hs1 _ ->. destruct (function_prototypes s1 !! f) as [id|] eqn:E.
  - apply safe_ret; [done|]. by apply (so_protos _ _ _ Hs1) in E.
  - eapply safe_bind; [by apply alloc_object_safe|]. intros s2 id Hs2 _ Hid.
    eapply (safe_bind _ _ _ (fun s' _ => vok s' (JObject id))).
    + apply safe_modify; [|done..]. apply ok_protos; [done|].
      apply map_Forall_insert_2; [done|apply Hs2].
    + intros s3 [] Hs3 _ Hid'. by apply safe_ret.
Qed.

(** Writing through an index of the heap or the iterator table. *)
Lemma put_object_safe s i o :
  state_ok s -> obj_ok (length (heap s)) (length (iterators s)) o ->
  state_ok (set_heap (<[i := o]> (heap s)) s) /\ grows s (set_heap (<[i := o]> (heap s)) s).
Proof.
  intros Hs Ho. unfold state_ok, grows. simpl. rewrite length_insert. split_and!; [|done..].
  apply ok_heap; [done|]. apply Forall_insert; [apply Hs|done].
Qed.

Lemma put_iterator_safe s i it :
  state_ok s -> iter_ok (length (heap s)) (length (iterators s)) it ->
  safe s (put_iterator i it) any.
Proof.
  intros Hs Hi. unfold safe, put_iterator, modify, state_ok, grows. simpl.
  rewrite length_insert. split_and!; [|done..].
  apply ok_iterators; [done|]. apply Forall_insert; [apply Hs|done].
Qed.

Lemma mark_deleted_safe s id key : state_ok s -> safe s (mark_deleted_for_in_iterators id key) any.
Proof.
  intros Hs. unfold safe, mark_deleted_for_in_iterators, modify, state_ok, grows. simpl.
  rewrite length_fmap. split_and!; [|done..].
  apply ok_iterators; [done|]. apply Forall_fmap. eapply Forall_impl; [apply Hs|].
  intros [st|st] Hi; simpl; [by destruct (_ =? _)|done].
Qed.

Lemma update_properties_safe s id f :
  state_ok s -> vok s (JObject id) ->
  (forall m, map_Forall (fun _ v => vok s v) m -> map_Forall (fun _ v => vok s v) (f m)) ->
  safe s (update_properties id f) any.
Proof.
  intros Hs Hid Hf. unfold update_properties.
  destruct (heap_get_sound s id Hid) as (o & Hget & Ho).
  unfold safe. rewrite bind_unfold. unfold lift. rewrite Hget. unfold modify. cbn [fst snd].
  destruct (Forall_lookup_1 _ _ _ _ (so_heap _ _ _ Hs) Ho) as [Hp Hl].
  destruct (put_object_safe s (Z.to_nat id)
    (mkObj (f (properties o)) (prototype o) (constructor_function o))) as [? ?]; [done| |done].
  split; [by apply Hf|done].
Qed.

Lemma mark_constructed_safe s id f : state_ok s -> safe s (mark_constructed id f) any.
Proof.
  intros Hs. unfold safe, mark_constructed, modify. cbn [fst snd].
  destruct (heap s !! Z.to_nat id) as [o|] eqn:Ho; [|done].
  destruct (Forall_lookup_1 _ _ _ _ (so_heap _ _ _ Hs) Ho) as [Hp Hl].
  destruct (put_object_safe s (Z.to_nat id) (mkObj (properties o) (prototype o) (Some f)))
    as [? ?]; done.
Qed.

(** ** Iterators *)

Lemma handle_sound s v : vok s v -> rsound (fun i => vok s (JIterator i)) (expect_iterator_handle v).
Proof. by destruct v. Qed.

Lemma iterator_state_sound s i :
  state_ok s -> vok s (JIterator i) ->
  rsound (iter_ok (length (heap s)) (length (iterators s))) (iterator_state s i).
Proof.
  intros Hs [_ Hi]. unfold iterator_state. destruct (iterators s !! Z.to_nat i) as [it|] eqn:E.
  - eapply (Forall_lookup_1 _ _ _ _ (so_iterators _ _ _ Hs) E).
  - apply lookup_ge_None in E. lia.
Qed.

(** The state of the iterator a value names. *)
Lemma with_iterator_safe {A} s v (f : Z -> RuntimeIteratorState -> M A) Q :
  state_ok s -> vok s v ->
  (forall i it, iter_ok (length (heap s)) (length (iterators s)) it -> safe s (f i it) Q) ->
  safe s (handle ← lift (fun _ => expect_iterator_handle v);
          it ← lift (fun s => iterator_state s handle); f handle it) Q.
Proof.
  intros Hs Hv Hf. eapply safe_read; [done|by apply handle_sound|]. intros i Hi.
  eapply safe_read; [done|by apply iterator_state_sound|]. apply Hf.
Qed.

Lemma init_for_in_safe s v : state_ok s -> vok s v -> safe s (init_for_in_iterator v) vok.
Proof.
  intros Hs Hv. unfold init_for_in_iterator. destruct v; try by apply safe_raise.
  eapply safe_bind; [apply safe_lift; [done|by apply chain_keys_sound, link_Some]|].
  intros s1 keys Hs1 Hg _. adopt Hg. eapply safe_bind; [by apply alloc_iterator_safe|].
  intros s2 i Hs2 _ Hi. by apply safe_ret.
Qed.

Lemma init_for_of_safe s v : state_ok s -> vok s v -> safe s (init_for_of_iterator v) vok.
Proof.
  intros Hs Hv. unfold init_for_of_iterator.
  eapply (safe_bind _ _ _ voks); [apply safe_lift; [done|by apply for_of_values_sound]|].
  intros s1 vs Hs1 _ Hvs. eapply safe_bind; [by apply alloc_iterator_safe|].
  intros s2 i Hs2 _ Hi. by apply safe_ret.
Qed.

Lemma advance_for_in_safe s v : state_ok s -> vok s v -> safe s (advance_for_in_iterator v) vopt.
Proof.
  intros Hs Hv. apply with_iterator_safe; [done..|]. intros i [st|st] Hi; [|by apply safe_raise].
  destruct (_ || _).
  - eapply safe_bind; [by apply put_iterator_safe|]. intros s1 [] Hs1 _ _. by apply safe_ret.
  - destruct (next_key _ _ _) as [found next].
    eapply safe_bind; [by apply put_iterator_safe|]. intros s1 [] Hs1 _ _. apply safe_ret; [done|].
    destruct found; [by apply vopt_Some|done].
Qed.

Lemma advance_for_of_safe s v : state_ok s -> vok s v -> safe s (advance_for_of_iterator v) vopt.
Proof.
  intros Hs Hv. apply with_iterator_safe; [done..|]. intros i [st|st] Hi; [by apply safe_raise|].
  destruct (_ || _); [|destruct (fo_values st !! fo_next_index st) as [x|] eqn:E].
  1, 3: eapply safe_bind; [by apply put_iterator_safe|]; intros s1 [] Hs1 _ _; by apply safe_ret.
  assert (vok s x) as Hx by exact (Forall_lookup_1 _ _ _ _ Hi E).
  eapply safe_bind; [by apply put_iterator_safe|]. intros s1 [] Hs1 Hg _. adopt Hg.
  apply safe_ret; [done|]. by apply vopt_Some.
Qed.

Lemma close_iterator_safe s v r : state_ok s -> vok s v -> safe s (close_iterator v r) any.
Proof.
  intros Hs Hv. apply with_iterator_safe; [done..|]. intros i [st|st] Hi; by apply put_iterator_safe.
Qed.

(** ** Instruction handlers *)

#[export] Hint Resolve write_reg_safe advance_safe jump_safe emit_safe put_iterator_safe
  mark_deleted_safe mark_constructed_safe read_reg_sound : safe.
#[export] Hint Extern 1 (vok _ (JBool _)) => exact I : safe.
#[export] Hint Extern 1 (vok _ JUndefined) => exact I : safe.

(** The next read of a register. *)
Ltac read_step :=
  eapply safe_read; [done|by apply read_reg_sound|]; intros ? ?.

(** The next method call, whose result says nothing of values. *)
Ltac call_step :=
  eapply (safe_bind _ _ _ any); [solve [eauto with safe]|];
  let Hg := fresh "Hg" in intros ? ? ? Hg _; adopt Hg;
  repeat match goal with u : unit |- _ => destruct u end.

(** [..; Ok(None)] *)
Ltac call_steps := repeat call_step; try (apply safe_ret; [done|apply vopt_None]).

Lemma store_safe s dst (m : M Value) : safe s m vok -> safe s (store dst m) vopt.
Proof.
  intros Hm. unfold store. eapply safe_bind; [done|]. intros s1 v Hs1 _ Hv. call_steps.
Qed.

Lemma store_eval_safe s dst f :
  state_ok s -> rsound (vok s) (f s) -> safe s (store_eval dst f) vopt.
Proof. intros Hs Hf. by apply store_safe, safe_lift. Qed.

Lemma eval_instanceof_safe s lhs rhs : state_ok s -> safe s (eval_instanceof lhs rhs) vok.
Proof.
  intros Hs. unfold eval_instanceof. read_step. read_step.
  destruct a0; try by apply safe_raise. destruct a; try by apply safe_ret.
  eapply safe_bind; [by apply ensure_prototype_safe|]. intros s1 p Hs1 Hg Hp. adopt Hg.
  eapply safe_read; [done|by apply contains_sound|]. intros b _. by apply safe_ret.
Qed.

Lemma iterator_next_safe s step it dst target :
  state_ok s -> (forall v, vok s v -> safe s (step v) vopt) ->
  safe s (exec_iterator_next step it dst target) vopt.
Proof.
  intros Hs Hstep. unfold exec_iterator_next. read_step.
  eapply safe_bind; [by apply Hstep|]. intros s1 o Hs1 _ Ho.
  destruct o as [v|]; [apply vopt_Some in Ho|]; call_steps.
Qed.

Lemma jump_if_safe s test cond target : state_ok s -> safe s (exec_jump_if test cond target) vopt.
Proof. intros Hs. unfold exec_jump_if. read_step. destruct (test _); call_steps. Qed.

Lemma get_property_safe s obj key dst : state_ok s -> safe s (exec_get_property obj key dst) vopt.
Proof.
  intros Hs. unfold exec_get_property. read_step. read_step. destruct a; try by apply safe_raise.
  eapply safe_read; [done|by apply chain_get_sound, link_Some|]. intros v Hv. call_steps.
Qed.

Lemma set_property_safe s obj key val : state_ok s -> safe s (exec_set_property obj key val) vopt.
Proof.
  intros Hs. unfold exec_set_property. do 3 read_step. destruct a; try by apply safe_raise.
  eapply (safe_bind _ _ _ any).
  - apply update_properties_safe; [done..|]. intros m Hm. by apply map_Forall_insert_2.
  - intros s1 [] Hs1 _ _. call_steps.
Qed.

Lemma delete_property_safe s obj key dst :
  state_ok s -> safe s (exec_delete_property obj key dst) vopt.
Proof.
  intros Hs. unfold exec_delete_property. do 2 read_step. destruct a; try by apply safe_raise.
  eapply (safe_bind _ _ _ any).
  - apply update_properties_safe; [done..|]. intros m Hm. by apply map_Forall_delete.
  - intros s1 [] Hs1 _ _. call_steps.
Qed.

Lemma new_object_safe s dst : state_ok s -> safe s (exec_new_object dst) vopt.
Proof.
  intros Hs. unfold exec_new_object, alloc_object.
  eapply safe_bind; [by apply alloc_object_safe|]. intros s1 id Hs1 _ Hid. call_steps.
Qed.

Lemma hostcall_safe s cap dst : state_ok s -> safe s (exec_hostcall cap dst) vopt.
Proof.
  intros Hs. unfold exec_hostcall.
  eapply (safe_bind _ _ _ any); [by apply safe_gets|]. intros s1 granted Hs1 _ _.
  destruct (negb _); [call_step; by apply safe_raise|]. do 2 call_step.
  eapply (safe_bind _ _ _ any); [apply safe_modify; by auto with safe|].
  intros s4 [] Hs4 _ _. call_steps.
Qed.

(** ** Calls *)

Lemma resolve_safe s m f : state_ok s -> safe s (resolve_function m f) any.
Proof.
  intros Hs. unfold resolve_function.
  eapply (safe_read _ _ _ (fun _ => True)); [done|by apply rsound_ok_or|]. intros func _.
  eapply (safe_bind _ _ _ any); [by apply safe_gets|]. intros s1 d Hs1 _ _.
  eapply (safe_bind _ _ _ any); [by apply safe_gets|]. intros s2 mx Hs2 _ _.
  destruct (_ <=? _); [by apply safe_raise|by apply safe_ret].
Qed.

Lemma push_frame_safe s f dst this : state_ok s -> vopt s this -> safe s (push_frame f dst this) any.
Proof.
  intros Hs Ht. apply safe_modify; [|done..]. cbv zeta.
  apply ok_stack; [by auto with safe|]. constructor; [|apply Hs].
  split_and!; [done|apply Hs..].
Qed.

Lemma open_registers_safe s : state_ok s -> safe s open_registers any.
Proof.
  intros Hs. unfold open_registers.
  apply safe_modify; [|cbv zeta; by destruct (_ <? _)..|done].
  cbv zeta. destruct (_ <? _); (apply ok_registers; [by apply ok_base|]);
    [apply Forall_resize|apply Forall_fill]; (done || apply Hs).
Qed.

Lemma write_args_safe s r vals : state_ok s -> voks s vals -> safe s (write_args r vals) any.
Proof.
  revert s r. induction vals as [|v vals IH]; intros s r Hs Hvs; simpl; [by apply safe_ret|].
  apply Forall_cons in Hvs as [Hv Hvs]. change (voks s vals) in Hvs.
  eapply (safe_bind _ _ _ any); [by apply safe_gets|]. intros s1 mx Hs1 Hg _. adopt Hg.
  eapply (safe_bind _ _ _ any).
  { destruct (_ <? _); [by apply write_reg_safe|by apply safe_ret]. }
  intros s2 [] Hs2 Hg _. adopt Hg. by apply IH.
Qed.

#[export] Hint Resolve resolve_safe push_frame_safe open_registers_safe write_args_safe : safe.

Lemma exec_call_safe s m callee args dst : state_ok s -> safe s (exec_call m callee args dst) vopt.
Proof.
  intros Hs. unfold exec_call. read_step. destruct a; try by apply safe_raise. call_step.
  eapply safe_read; [done|by apply args_sound|]. intros vals Hvals. call_steps.
Qed.

Lemma exec_construct_safe s m callee args dst :
  state_ok s -> safe s (exec_construct m callee args dst) vopt.
Proof.
  intros Hs. unfold exec_construct. read_step. destruct a; try by apply safe_raise. call_step.
  eapply safe_bind; [by apply ensure_prototype_safe|]. intros s2 p Hs2 Hg Hp. adopt Hg.
  eapply safe_bind; [by apply alloc_object_safe, link_Some|]. intros s3 this Hs3 Hg Hthis. adopt Hg.
  call_step.
  eapply safe_read; [done|by apply args_sound|]. intros vals Hvals.
  eapply (safe_bind _ _ _ any); [by apply push_frame_safe, vopt_Some|].
  intros s5 [] Hs5 Hg _. adopt Hg. call_steps.
Qed.

(** ** Abrupt completions *)

Section abrupt.
Context (h n : nat).

Lemma ok_truncate_suspended d s :
  state_ok_at h n s ->
  Forall (completion_ok h n) (truncate (suspended_abrupt_completions s) d).
Proof. intros Hs. apply Forall_drop, Hs. Qed.

Lemma unwind_frames_ok frames depth s exc ret d :
  state_ok_at h n s -> Forall (frame_ok h n) frames -> opt_ok h n exc -> opt_ok h n ret ->
  match unwind_frames frames depth s exc ret d with
  | (s', (exc', ret', _)) =>
      state_ok_at h n s' /\ heap s' = heap s /\ iterators s' = iterators s /\
      opt_ok h n exc' /\ opt_ok h n ret'
  end.
Proof.
  revert s exc ret d. induction frames as [|f rest IH]; intros s exc ret d Hs Hf He Hr; simpl; [done|].
  apply Forall_cons in Hf as [(_ & Hfe & Hfr) Hrest].
  match goal with |- match (if ?b then _ else _) with _ => _ end => destruct b end; [done|].
  match goal with |- context [unwind_frames rest depth ?s1 ?e ?r ?d] => apply (IH s1 e r d) end;
    [|done|by destruct exc|by destruct ret].
  apply ok_modes, ok_base. by apply ok_stack.
Qed.

Lemma suspend_ok exc ret s :
  state_ok_at h n s -> opt_ok h n exc -> opt_ok h n ret ->
  state_ok_at h n (suspend_abrupt_completion exc ret s) /\
  heap (suspend_abrupt_completion exc ret s) = heap s /\
  iterators (suspend_abrupt_completion exc ret s) = iterators s.
Proof.
  intros Hs He Hr. destruct exc as [e|], ret as [r|]; simpl; split_and!; try done;
    (apply ok_suspended; [done|]; repeat constructor; simpl; eauto; apply Hs).
Qed.

Lemma pop_target_ok s :
  state_ok_at h n s ->
  state_ok_at h n (fst (pop_exception_target_frame s)) /\
  heap (fst (pop_exception_target_frame s)) = heap s /\
  iterators (fst (pop_exception_target_frame s)) = iterators s.
Proof.
  intros Hs. unfold pop_exception_target_frame. destruct (pop_matching _ _) as [[f rest]|]; [|done].
  unfold unwind_call_stack_to.
  pose proof (unwind_frames_ok (call_stack (set_catch_frames rest s)) (call_depth f)
    (set_catch_frames rest s) None None None) as Hu.
  destruct (unwind_frames _ _ _ _ _ _) as [s1 [[exc ret] d]].
  destruct Hu as (H1 & Hh1 & Hi1 & He & Hr); [by auto with safe|apply Hs|done|done|].
  simpl in Hh1, Hi1. cbn [fst]. rewrite <- Hh1, <- Hi1. destruct d as [d|].
  - match goal with |- context [suspend_abrupt_completion exc ret ?s2] =>
      apply (suspend_ok exc ret s2) end; [|done..].
    apply ok_suspended; [done|]. by apply ok_truncate_suspended.
  - by apply suspend_ok.
Qed.

Lemma pop_finally_target_ok s :
  state_ok_at h n s ->
  state_ok_at h n (fst (pop_current_finally_target s)) /\
  heap (fst (pop_current_finally_target s)) = heap s /\
  iterators (fst (pop_current_finally_target s)) = iterators s.
Proof.
  intros Hs. unfold pop_current_finally_target. destruct (pop_matching _ _) as [[f rest]|]; [|done].
  split_and!; [by apply ok_catch|done..].
Qed.

Lemma suspend_current_ok s :
  state_ok_at h n s ->
  state_ok_at h n (suspend_current_abrupt_completion s) /\
  heap (suspend_current_abrupt_completion s) = heap s /\
  iterators (suspend_current_abrupt_completion s) = iterators s.
Proof.
  intros Hs. unfold suspend_current_abrupt_completion, take_current_abrupt_completion.
  pose proof (so_exception _ _ _ Hs) as He. pose proof (so_return _ _ _ Hs) as Hr.
  destruct (pending_exception s) as [e|] eqn:E; [|destruct (pending_return s) as [r|] eqn:Er]; simpl.
  - split_and!; [|done..]. apply ok_suspended; [by auto with safe|]. constructor; [by apply He|apply Hs].
  - split_and!; [|done..]. apply ok_suspended; [by auto with safe|]. constructor; [by apply Hr|apply Hs].
  - split_and!; [by auto with safe|done..].
Qed.

Lemma restore_ok s :
  state_ok_at h n s ->
  state_ok_at h n (restore_suspended_abrupt_completion s) /\
  heap (restore_suspended_abrupt_completion s) = heap s /\
  iterators (restore_suspended_abrupt_completion s) = iterators s.
Proof.
  intros Hs. unfold restore_suspended_abrupt_completion.
  pose proof (so_suspended _ _ _ Hs) as Hl.
  destruct (pending_exception s), (pending_return s); try done.
  destruct (suspended_abrupt_completions s) as [|[v|v] rest]; [done|..];
    apply Forall_cons in Hl as [Hv Hl]; split_and!; try done;
    [apply ok_exception|apply ok_return]; (by apply ok_suspended || by intros ? [= <-]).
Qed.
End abrupt.

(** A method that leaves heap and iterators alone. *)
Lemma safe_modify_of s f :
  state_ok s ->
  (forall h n s, state_ok_at h n s ->
     state_ok_at h n (f s) /\ heap (f s) = heap s /\ iterators (f s) = iterators s) ->
  safe s (modify f) any.
Proof. intros Hs Hf. destruct (Hf _ _ s Hs) as (? & ? & ?). by apply safe_modify. Qed.

Lemma safe_call_of {A} s (f : InterpreterCore -> InterpreterCore * A) :
  state_ok s ->
  (forall h n s, state_ok_at h n s ->
     state_ok_at h n (fst (f s)) /\ heap (fst (f s)) = heap s /\ iterators (fst (f s)) = iterators s) ->
  safe s (call f) any.
Proof. intros Hs Hf. destruct (Hf _ _ s Hs) as (? & ? & ?). by apply safe_call. Qed.

Lemma suspend_current_safe s : state_ok s -> safe s (modify suspend_current_abrupt_completion) any.
Proof. intros Hs. apply safe_modify_of; [done|apply suspend_current_ok]. Qed.
Lemma restore_safe s : state_ok s -> safe s (modify restore_suspended_abrupt_completion) any.
Proof. intros Hs. apply safe_modify_of; [done|apply restore_ok]. Qed.
Lemma pop_target_safe s : state_ok s -> safe s (call pop_exception_target_frame) any.
Proof. intros Hs. apply safe_call_of; [done|apply pop_target_ok]. Qed.
Lemma pop_finally_target_safe s : state_ok s -> safe s (call pop_current_finally_target) any.
Proof. intros Hs. apply safe_call_of; [done|apply pop_finally_target_ok]. Qed.
Lemma pop_try_safe s : state_ok s -> safe s (call pop_current_try_frame) any.
Proof.
  intros Hs. apply safe_call_of; [done|]. intros h n s0 H0. unfold pop_current_try_frame.
  destruct (pop_matching _ _) as [[f rest]|]; [|done]. split_and!; [by apply ok_catch|done..].
Qed.
Lemma pop_mode_safe s : state_ok s -> safe s (call pop_finally_mode) any.
Proof.
  intros Hs. apply safe_call_of; [done|]. intros h n s0 H0. unfold pop_finally_mode.
  destruct (finally_modes s0); [done|]. split_and!; [by apply ok_modes|done..].
Qed.
Lemma set_exception_safe s o : state_ok s -> vopt s o -> safe s (modify (set_pending_exception o)) any.
Proof. intros Hs Ho. apply safe_modify; [|done..]. by apply ok_exception. Qed.
Lemma set_return_safe s o : state_ok s -> vopt s o -> safe s (modify (set_pending_return o)) any.
Proof. intros Hs Ho. apply safe_modify; [|done..]. by apply ok_return. Qed.

#[export] Hint Resolve suspend_current_safe restore_safe pop_target_safe pop_finally_target_safe
  pop_try_safe pop_mode_safe set_exception_safe set_return_safe : safe.
#[export] Hint Extern 1 (vopt _ (Some _)) => apply vopt_Some : safe.

Lemma complete_return_safe s v : state_ok s -> vok s v -> safe s (complete_return v) vopt.
Proof.
  intros Hs Hv. unfold safe, complete_return. simpl call_stack.
  pose proof (so_stack _ _ _ Hs) as Hst. destruct (call_stack s) as [|f rest] eqn:E.
  - cbn [fst snd rsound]. match goal with |- state_ok ?s2 /\ _ =>
      destruct (state_ok_same s s2) as [? ?]; [done..| |] end.
    + apply ok_modes, ok_suspended; [by auto with safe|constructor].
    + split_and!; [done..|]. by apply vopt_Some.
  - apply Forall_cons in Hst as [(Ht & He & Hr) Hst].
    match goal with |- state_ok (fst (_ ?s2)) /\ _ =>
      destruct (state_ok_same s s2) as [Hs2 Hg2]; [done..| |] end.
    + apply ok_return, Hr. apply ok_exception, He. apply ok_modes, ok_suspended.
      * apply ok_base. by apply ok_stack, Hst; auto with safe.
      * apply Forall_drop, Hs.
    + match goal with |- state_ok (fst (?m ?s2)) /\ _ =>
        assert (safe s2 m vopt) as (H1 & H2 & H3) end.
      { assert (vok s (match construct_this f with
          | Some this_obj => match v with JObject _ => v | _ => this_obj end
          | None => v end)) as Hev.
        { destruct (construct_this f) as [t|]; [|done]. specialize (Ht t eq_refl). by destruct v. }
        apply (vok_grows _ _ _ Hg2) in Hev. call_steps. }
      split_and!; [done| |done]. by etransitivity.
Qed.

Lemma unwind_to_handler_safe s v : state_ok s -> safe s (unwind_to_handler v) vopt.
Proof.
  intros Hs. unfold unwind_to_handler. call_step. destruct a; [call_steps|].
  eapply (safe_bind _ _ _ any); [apply safe_modify; [apply ok_suspended|done..]; done|].
  intros s2 [] Hs2 _ _. by apply safe_raise.
Qed.

Lemma exec_return_safe s r : state_ok s -> safe s (exec_return r) vopt.
Proof.
  intros Hs. unfold exec_return. read_step. do 4 call_step. destruct a0; [call_steps|].
  call_step. by apply complete_return_safe.
Qed.

Lemma exec_throw_safe s r : state_ok s -> safe s (exec_throw r) vopt.
Proof.
  intros Hs. unfold exec_throw. read_step. do 3 call_step. by apply unwind_to_handler_safe.
Qed.

Lemma begin_try_safe s c f : state_ok s -> safe s (exec_begin_try c f) vopt.
Proof.
  intros Hs. unfold exec_begin_try.
  eapply (safe_bind _ _ _ any); [apply safe_modify; by auto with safe|]. intros s1 [] Hs1 _ _.
  call_steps.
Qed.

Lemma end_try_safe s : state_ok s -> safe s exec_end_try vopt.
Proof. intros Hs. unfold exec_end_try. call_steps. Qed.

Lemma enter_catch_safe s dst : state_ok s -> safe s (exec_enter_catch dst) vopt.
Proof.
  intros Hs. unfold exec_enter_catch.
  eapply (safe_bind _ _ _ vok).
  { apply safe_gets; [done|]. pose proof (so_exception _ _ _ Hs) as He.
    destruct (pending_exception s); [by apply He|done]. }
  intros s1 v Hs1 _ Hv. call_steps.
Qed.

Lemma enter_finally_safe s : state_ok s -> safe s exec_enter_finally vopt.
Proof.
  intros Hs. unfold exec_enter_finally.
  eapply (safe_bind _ _ _ any); [apply safe_modify; by auto with safe|]. intros s1 [] Hs1 _ _.
  call_steps.
Qed.

Lemma end_finally_safe s : state_ok s -> safe s exec_end_finally vopt.
Proof.
  intros Hs. unfold exec_end_finally. call_step. destruct a; [call_steps|..].
  - eapply (safe_bind _ _ _ vopt); [apply safe_gets; [done|by eapply so_exception]|].
    intros s2 [v|] Hs2 _ Hv; [by apply unwind_to_handler_safe|call_steps].
  - eapply (safe_bind _ _ _ vopt); [apply safe_gets; [done|by eapply so_return]|].
    intros s2 [v|] Hs2 _ Hv; [apply vopt_Some in Hv|call_steps]. do 2 call_step.
    destruct a; [call_steps|by apply complete_return_safe].
Qed.

(** ** The loop *)

#[export] Hint Resolve eval_add_sound eval_arith_sound eval_div_sound eval_mod_sound eval_exp_sound
  eval_unary_plus_sound eval_unary_neg_sound eval_bit_not_sound eval_relational_sound
  eval_equality_sound eval_bitwise_sound eval_in_sound : safe.
#[export] Hint Resolve iterator_next_safe jump_if_safe get_property_safe set_property_safe
  delete_property_safe new_object_safe hostcall_safe exec_call_safe exec_construct_safe
  exec_return_safe exec_throw_safe begin_try_safe end_try_safe enter_catch_safe
  enter_finally_safe end_finally_safe eval_instanceof_safe store_safe store_eval_safe
  advance_for_in_safe advance_for_of_safe : safe.

Lemma exec_instr_safe m i s : instr_wf i -> state_ok s -> safe s (exec_instr m i) vopt.
Proof.
  intros [_ Hi] Hs. destruct i; cbn [exec_instr]; try solve [auto with safe].
  - apply store_eval_safe; [done|]. by destruct (constant_pool m !! _).
  - apply store_eval_safe; [done|]. eapply rsound_bind; [by apply read_reg_sound|]. done.
  - apply store_eval_safe; [done|]. eapply rsound_bind; [by apply read_reg_sound|]. done.
  - apply store_eval_safe; [done|]. eapply rsound_bind; [by apply read_reg_sound|]. done.
  - apply store_safe. read_step. by apply init_for_in_safe.
  - apply store_safe. read_step. by apply init_for_of_safe.
  - read_step. eapply (safe_bind _ _ _ any); [by apply close_iterator_safe|].
    intros s1 [] Hs1 _ _. call_steps.
  - call_steps.
  - apply store_eval_safe; [done|].
    pose proof (template_sound s (start parts) 0 (Z.to_nat (count parts)) "" Hs) as Ht.
    by destruct (template_parts _ _ _ _ _).
  - by apply safe_raise.
Qed.

Lemma loop_step_safe m s : module_wf m -> state_ok s -> safe s (loop_step m) vopt.
Proof.
  intros Hm Hs. unfold loop_step, safe. destruct (instructions m !! _) as [i|] eqn:Hi.
  - destruct (_ <=? _); [by split_and!|].
    assert (state_ok (set_instructions_executed (instructions_executed s + 1) s)) as Hs1
      by by apply ok_executed.
    apply (exec_instr_safe m i _ (Forall_lookup_1 _ _ _ _ Hm Hi) Hs1).
  - destruct (call_stack s); [|by apply complete_return_safe]. split_and!; [done..|].
    pose proof (read_reg_sound s 0 Hs) as Hr. destruct (read_reg s 0); [|done].
    by apply vopt_Some.
Qed.

Lemma continues_safe m s s' : module_wf m -> state_ok s -> rtc (continues m) s s' -> state_ok s'.
Proof.
  intros Hm Hs. induction 1 as [|s s1 s' Hc _ IH]; [done|]. apply IH.
  pose proof (loop_step_safe m s Hm Hs) as (H1 & _). unfold continues in Hc. by rewrite Hc in H1.
Qed.

Lemma run_safe m fuel s s' r :
  module_wf m -> state_ok s -> run_loop_fuel fuel m s = Some (s', r) ->
  state_ok s' /\ rsound (vok s') r.
Proof.
  intros Hm. revert s. induction fuel as [|fuel IH]; intros s Hs; [done|]. simpl.
  pose proof (loop_step_safe m s Hm Hs) as (H1 & _ & H3).
  destruct (loop_step m s) as [s1 [[v|]|e]]; cbn [fst snd] in *.
  - intros [= <- <-]. split; [done|]. by apply vopt_Some.
  - by apply IH.
  - intros [= <- <-]. done.
Qed.

(** ** Executions *)

(** A seed keeps no iterator. *)
Definition seed_ok (x : ExecutionSeed) : Prop :=
  Forall (value_ok (length (seed_heap x)) 0) (seed_registers x) /\
  Forall (obj_ok (length (seed_heap x)) 0) (seed_heap x) /\
  map_Forall (fun _ id => value_ok (length (seed_heap x)) 0 (JObject id))
    (seed_function_prototypes x).

Lemma prepare_ok s : seed_ok (Core.choose_seed s) -> state_ok (Core.prepare s).
Proof. intros (Hr & Hh & Hp). split; simpl; try done; constructor. Qed.

Lemma new_seed_ok cfg trace : seed_ok (Core.choose_seed (Core.new cfg trace)).
Proof.
  split_and!; simpl; [|constructor|apply map_Forall_empty].
  apply Forall_take, Forall_resize; [done|]. by apply Forall_replicate.
Qed.

Lemma finish_state s r :
  let s' := fst (Core.finish s r) in
  heap s' = heap s /\ iterators s' = iterators s /\
  (forall h n, state_ok_at h n s -> state_ok_at h n s').
Proof.
  unfold Core.finish.
  destruct r as [v|[]]; (split_and!; [done..|]; intros h n []; by split).
Qed.

Lemma read_default_ok s r :
  state_ok s -> vok s (match read_reg s r with Ok v => v | Err _ => JUndefined end).
Proof. intros Hs. pose proof (read_reg_sound s r Hs). by destruct (read_reg s r). Qed.

Lemma finish_ok s r :
  state_ok s -> rsound (vok s) r ->
  state_ok (fst (Core.finish s r)) /\
  match snd (Core.finish s r) with
  | Ok res => vok (fst (Core.finish s r)) (r_value res)
  | Err e => sound_error e
  end.
Proof.
  intros Hs Hr. pose proof (finish_state s r) as (Hh & Hi & Hst).
  assert (Hs' : state_ok (fst (Core.finish s r))).
  { unfold state_ok. rewrite Hh, Hi. by apply Hst. }
  split; [done|]. unfold vok. rewrite Hh, Hi. revert Hr.
  destruct r as [v|e]; [done|]. destruct e; try done.
  intros _. simpl. apply (read_default_ok s 0 Hs).
Qed.

(** C5. Memory safety. An execution of a module with operands in the range of their types,
    by a fresh core or by any core whose next seed is sound, never fails to find an object
    or an iterator: between any two iterations of the loop and at the end, all object and
    iterator handles in registers, properties, prototype links, function prototypes,
    for-in and for-of iterators, frames and pending completions name existing entries and
    all numbers are 64-bit integers. The value returned is sound as well, and so is the
    seed of the next execution. *)
Theorem interp_memory_safe m s s' r :
  module_wf m -> 0 <= max_registers (config s) ->
  (exists cfg trace, s = Core.new cfg trace) \/ seed_ok (Core.choose_seed s) ->
  Core.execute m s = Some (s', r) ->
  (forall s1, rtc (continues m) (Core.prepare s) s1 -> state_ok s1) /\
  state_ok s' /\ seed_ok (Core.choose_seed s') /\
  match r with Ok res => vok s' (r_value res) | Err e => sound_error e end.
Proof.
  intros Hm Hmax Hstart He.
  assert (Hseed : seed_ok (Core.choose_seed s)) by (destruct Hstart as [(cfg & tr & ->)|]; [apply new_seed_ok|done]).
  split; [intros s1; by apply continues_safe, prepare_ok|]. rewrite (execute_seed m s s' r) by done.
  unfold Core.execute in He.
  destruct (run_loop m (Core.prepare s)) as [[t u]|] eqn:Hr; [|done]. injection He as Hf.
  destruct (run_safe m _ _ _ _ Hm (prepare_ok s Hseed) Hr) as [Ht Hu].
  destruct (finish_ok t u Ht Hu) as [Hs' Hres]. rewrite Hf in Hs', Hres. done.
Qed.
