(* ===== verification/InterpExamples.v ===== *)
(** * Operators, property accesses and concrete executions

    First what operators and property accesses compute, then small programs the properties of the interpreter are evaluated on, and one
    program on which unwinding goes wrong: a [return] that is pending in a
    callee survives the callee's removal from the call stack and takes effect in
    the caller. *)
From stdpp Require Import base numbers list strings pretty gmap relations sorting.
From Stdlib Require Import Strings.Byte Zpow_facts.
From S2P Require Import Prelude Bytes Text HashTiers DetSerde IrContract.
From S2P Require Import IrContractCorrect InterpCore BaselineInterp InterpShape.
From S2P Require Import InterpProgress InterpTraces InterpReplay InterpSafety.
Open Scope Z_scope.
(** ** What operators and property accesses compute

    Exponentiation by squaring with a wrap at every step is the wrapped power;
    the three walks along a prototype chain (property lookup, the [in]
    operator and the keys of [for..in]) agree with each other; and an
    assignment is read back and changes nothing else. *)

#[local] Opaque MAX_PROTOTYPE_CHAIN_DEPTH.

(** ** Wrapping exponentiation *)

Lemma wrap_i64_mod a : wrap_i64 a mod 2 ^ 64 = a mod 2 ^ 64.
Proof.
  unfold wrap_i64. rewrite Zminus_mod, Zmod_mod, <- Zminus_mod. f_equal. lia.
Qed.

Lemma wrap_i64_cong a b : a mod 2 ^ 64 = b mod 2 ^ 64 -> wrap_i64 a = wrap_i64 b.
Proof. intros H. unfold wrap_i64. by rewrite (Z.add_mod a), H, <- Z.add_mod by lia. Qed.

Lemma pow_pos_power x e : is_i64 x -> pow_pos x e = wrap_i64 (x ^ Zpos e).
Proof.
  revert x. induction e as [e IH|e IH|]; intros x Hx; simpl pow_pos.
  - rewrite IH by apply is_i64_wrap. apply wrap_i64_cong.
    rewrite Zmult_mod, wrap_i64_mod, Zpower_mod, wrap_i64_mod, <- Zpower_mod, <- Zmult_mod by lia.
    f_equal. rewrite Pos2Z.inj_xI, Z.add_1_r, Z.pow_succ_r, Z.pow_mul_r, Z.pow_2_r by lia. done.
  - rewrite IH by apply is_i64_wrap. apply wrap_i64_cong.
    rewrite Zpower_mod, wrap_i64_mod, <- Zpower_mod by lia.
    f_equal. rewrite Pos2Z.inj_xO, Z.pow_mul_r, Z.pow_2_r by lia. done.
  - by rewrite Z.pow_1_r, wrap_i64_small.
Qed.

(** Exponentiation by squaring with a wrap at every step computes the mathematical
    power reduced to 64 bits, for operands of any type that coerces to a number; exponents
    that are negative or exceed 32 bits are a type error. *)
Theorem interp_exp_is_wrapped_power s lhs rhs a b x y :
  state_ok s -> read_reg s lhs = Ok a -> read_reg s rhs = Ok b ->
  coerce_to_number a = Some x -> coerce_to_number b = Some y ->
  eval_exp s lhs rhs =
    if decide (0 <= y <= u32_max) then Ok (JInt (wrap_i64 (x ^ y)))
    else Err (TypeError "non-negative exponent" (int_to_string y)).
Proof.
  intros Hs Ha Hb Hx Hy. unfold eval_exp, two_numbers. rewrite Ha, Hb. simpl. rewrite Hx, Hy. simpl.
  pose proof (read_reg_sound s lhs Hs) as Hv. rewrite Ha in Hv.
  pose proof (coerce_sound s a x Hv Hx) as Hi.
  destruct (Z.leb_spec 0 y), (Z.leb_spec y u32_max), (decide (0 <= y <= u32_max));
    simpl; try lia; try done.
  unfold wrapping_pow. destruct y; [done|by rewrite pow_pos_power|lia].
Qed.

(** ** Prototype chains *)

(** The objects a walk visits, nearest first. *)
Fixpoint chain_objects (s : InterpreterCore) (levels : nat) (visited : gset Z)
    (current : option ObjectId) : list HeapObject :=
  match current, levels with
  | Some id, S levels =>
      if bool_decide (id ∈ visited) then []
      else match heap s !! Z.to_nat id with
           | Some o => o :: chain_objects s levels ({[id]} ∪ visited) (prototype o)
           | None => []
           end
  | _, _ => []
  end.

Definition owns (k : string) (o : HeapObject) : bool := bool_decide (is_Some (properties o !! k)).

(** [fold_left] of [collect_for_in_keys] over the keys of one object. *)
Definition add_keys (acc : gset string * list string) (o : HeapObject) : gset string * list string :=
  fold_left (fun '(seen, keys) key =>
      if bool_decide (key ∈ seen) then (seen, keys) else ({[key]} ∪ seen, keys ++ [key]))
    (sorted_keys (properties o)) acc.

Section walks.
Context (s : InterpreterCore) (Hs : state_ok s).

Lemma has_key_objects k levels visited current :
  link s current ->
  chain_has_key s k levels visited current =
    Ok (existsb (owns k) (chain_objects s levels visited current)).
Proof using Hs.
  revert visited current. induction levels as [|l IH]; intros visited [id|] Hl; simpl; try done.
  case_bool_decide; [done|]. destruct (heap_get_sound s id (Hl _ eq_refl)) as (o & -> & Ho).
  rewrite Ho. simpl. unfold owns at 1. case_bool_decide; [done|]. simpl.
  apply IH, (link_object s Hs id o); auto.
Qed.

Lemma get_objects k levels visited current :
  link s current ->
  chain_get s k levels visited current =
    Ok (default JUndefined
          (List.find (owns k) (chain_objects s levels visited current) ≫= fun o => properties o !! k)).
Proof using Hs.
  revert visited current. induction levels as [|l IH]; intros visited [id|] Hl; simpl; try done.
  case_bool_decide; [done|]. destruct (heap_get_sound s id (Hl _ eq_refl)) as (o & -> & Ho).
  rewrite Ho. simpl. unfold owns at 1. destruct (properties o !! k) as [v|] eqn:E; simpl.
  - by rewrite E.
  - apply IH, (link_object s Hs id o); auto.
Qed.

Lemma keys_objects levels visited current seen keys :
  link s current ->
  chain_keys s levels visited current seen keys =
    Ok (fold_left add_keys (chain_objects s levels visited current) (seen, keys)).2.
Proof using Hs.
  revert visited current seen keys.
  induction levels as [|l IH]; intros visited [id|] seen keys Hl; simpl; try done.
  case_bool_decide; [done|]. destruct (heap_get_sound s id (Hl _ eq_refl)) as (o & -> & Ho).
  rewrite Ho. simpl. fold (add_keys (seen, keys) o). destruct (add_keys (seen, keys) o) as [sn ks].
  apply IH, (link_object s Hs id o); auto.
Qed.
End walks.

(** The list of keys and the set of seen keys hold the same keys, without
    repetition. *)
Definition keys_inv (acc : gset string * list string) : Prop :=
  NoDup acc.2 /\ forall k, k ∈ acc.2 <-> k ∈ acc.1.

Lemma add_key_list l acc :
  keys_inv acc ->
  let acc' := fold_left (fun '(seen, keys) key =>
      if bool_decide (key ∈ seen) then (seen, keys) else ({[key]} ∪ seen, keys ++ [key])) l acc in
  keys_inv acc' /\ forall k, k ∈ acc'.2 <-> k ∈ l \/ k ∈ acc.2.
Proof.
  revert acc. induction l as [|key l IH]; intros [seen keys] Hi; cbn [fold_left]; [set_solver|].
  destruct Hi as [Hd Hin]. cbn [fst snd] in *. case_bool_decide as Hk.
  - destruct (IH (seen, keys)) as [Hi' Hk']; [done|]. split; [exact Hi'|].
    intros k. rewrite Hk'. cbn [snd]. specialize (Hin key). set_solver.
  - destruct (IH ({[key]} ∪ seen, keys ++ [key])) as [Hi' Hk'].
    + split; cbn [fst snd].
      * apply NoDup_app. split_and!; [done| |apply NoDup_singleton]. set_solver.
      * set_solver.
    + split; [exact Hi'|]. intros k. rewrite Hk'. set_solver.
Qed.

Lemma add_objects objs acc :
  keys_inv acc ->
  keys_inv (fold_left add_keys objs acc) /\
  forall k, k ∈ (fold_left add_keys objs acc).2 <-> existsb (owns k) objs = true \/ k ∈ acc.2.
Proof.
  revert acc. induction objs as [|o objs IH]; intros acc Hi; simpl; [naive_solver|].
  destruct (add_key_list (sorted_keys (properties o)) acc Hi) as [Hi1 Hk1].
  fold (add_keys acc o) in Hi1, Hk1. destruct (IH (add_keys acc o) Hi1) as [Hi2 Hk2].
  split; [done|]. intros k. rewrite Hk2, Hk1, elem_of_sorted_keys, orb_true_iff.
  unfold owns at 2. rewrite bool_decide_eq_true. tauto.
Qed.

(** The three walks along a prototype chain agree: the keys collected for for..in are
    without repetition and are exactly the keys for which the in operator answers true,
    and a property lookup of any other key is undefined. *)
Theorem interp_for_in_keys_agree s id :
  state_ok s -> vok s (JObject id) ->
  exists keys, collect_for_in_keys s id = Ok keys /\ NoDup keys /\
    forall k, (k ∈ keys <-> prototype_chain_has_key s id k = Ok true) /\
              (k ∉ keys -> prototype_chain_get s id k = Ok JUndefined).
Proof.
  intros Hs Hid. pose proof (link_Some s id Hid) as Hl.
  set (objs := chain_objects s MAX_PROTOTYPE_CHAIN_DEPTH ∅ (Some id)).
  destruct (add_objects objs (∅, [])) as [[Hd _] Hk]; [split; [constructor|set_solver]|].
  exists (fold_left add_keys objs (∅, [])).2. split_and!; [by apply keys_objects|done|]. intros k.
  unfold prototype_chain_has_key, prototype_chain_get.
  rewrite has_key_objects, get_objects by done. fold objs. rewrite Hk. cbn [snd]. split.
  - split; [intros [->|?%not_elem_of_nil]; done|]. intros [= ->]. by left.
  - intros Hn. destruct (List.find (owns k) objs) as [o|] eqn:E; [|done].
    apply find_some in E as [Hin Ho]. destruct Hn. left. apply existsb_exists. eauto.
Qed.

(** ** Assignment *)

(** [Object.getOwn]: the property [k] of the object at an index of the heap. *)
Definition own (s : InterpreterCore) (i : nat) (k : string) : option Value :=
  heap s !! i ≫= fun o => properties o !! k.

(** A successful property assignment is read back by the next lookup of that property
    on that object, advances the instruction pointer, and changes no register and no other
    property of any object. *)
Theorem interp_set_then_get s s' obj key val id k v :
  read_reg s obj = Ok (JObject id) -> read_reg s key = Ok k -> read_reg s val = Ok v ->
  exec_set_property obj key val s = (s', Ok None) ->
  prototype_chain_get s' id (property_key k) = Ok v /\
  registers s' = registers s /\ ip s' = ip s + 1 /\
  (forall i k', i <> Z.to_nat id \/ k' <> property_key k -> own s' i k' = own s i k').
Proof.
  intros Ho Hk Hv. unfold exec_set_property.
  rewrite !bind_unfold. unfold lift at 1. rewrite Ho.
  rewrite !bind_unfold. unfold lift at 1. rewrite Hk.
  rewrite !bind_unfold. unfold lift at 1. rewrite Hv.
  unfold update_properties. rewrite !bind_unfold. unfold lift.
  unfold heap_get. destruct (heap s !! Z.to_nat id) as [o|] eqn:E; [|done]. cbn.
  intros [= <-]. unfold prototype_chain_get. split_and!; [|done..|].
  - change MAX_PROTOTYPE_CHAIN_DEPTH with (S 63). cbn [chain_get].
    rewrite bool_decide_false by set_solver. unfold heap_get. cbn [heap set_ip set_heap].
    rewrite list_lookup_insert_eq by by eapply lookup_lt_Some. cbn. by rewrite lookup_insert_eq.
  - intros i k' Hne. unfold own. cbn [heap set_ip set_heap].
    destruct (decide (i = Z.to_nat id)) as [->|]; [|by rewrite list_lookup_insert_ne].
    rewrite list_lookup_insert_eq by by eapply lookup_lt_Some. rewrite E. cbn.
    rewrite lookup_insert_ne; [done|]. naive_solver.
Qed.

(** ** Programs *)

Import Ir3Instruction.

Definition demo_module (instrs : list t) (funcs : list Ir3FunctionDesc) : Ir3Module :=
  mkIr3 (mkHeader IrSchemaVersion_CURRENT IrContract.Ir3 None "demo.js") instrs ["total: "] funcs
    None [].

(** A core with eight registers per frame, whose register 7 holds function 0
    and register 6 function 1. *)
Definition demo_core : InterpreterCore :=
  set_registers
    [JUndefined; JUndefined; JUndefined; JUndefined; JUndefined; JUndefined; JFunction 1;
     JFunction 0]
    (Core.new (mkConfig 100 8 4 ["fs.read"]) "trace-1").

(** Calls a function, makes a granted host call, and returns a string. *)
Definition demo_program : Ir3Module :=
  demo_module
    [LoadInt 0 20; Call 7 (mkRange 0 1) 1; HostCall (mkCap "fs.read") (mkRange 0 0) 2;
     LoadStr 3 0; Add 4 3 1; Return 4;
     (* function 0: doubles its argument *)
     Add 1 0 0; Return 1]
    [mkFunc 6 1 8 None].

Lemma demo_program_wf : module_wf demo_program.
Proof. apply module_wfb_ok. vm_compute. reflexivity. Defined.

Lemma demo_registers : 0 <= max_registers (config demo_core).
Proof. vm_compute. congruence. Defined.

Lemma interp_execute_terminates_witness :
  is_Some (Core.execute demo_program demo_core).
Proof. apply (interp_execute_terminates _ _ demo_program_wf demo_registers). Defined.

(** The demo program returns the string it computed. *)
Example demo_result :
  (fun '(_, r) => match r with Ok res => Some (r_value res) | Err _ => None end)
    <$> Core.execute demo_program demo_core = Some (Some (JStr "total: 40")).
Proof. vm_compute. reflexivity. Qed.

Definition demo_run : InterpreterCore * result InterpreterError ExecutionResult :=
  default (demo_core, Err Halted) (Core.execute demo_program demo_core).

Lemma demo_run_eq : Core.execute demo_program demo_core = Some demo_run.
Proof.
  unfold demo_run. destruct (Core.execute demo_program demo_core) eqn:E; [done|].
  exfalso. revert E. vm_compute. discriminate.
Defined.

Definition demo_res : ExecutionResult :=
  match demo_run with (_, Ok res) => res | _ => mkResult JUndefined 0 [] [] [] end.

Lemma demo_run_ok : Core.execute demo_program demo_core = Some (fst demo_run, Ok demo_res).
Proof. vm_compute. reflexivity. Defined.

Lemma interp_budget_respected_witness :
  0 <= instructions_executed (fst demo_run) <= 100 /\ r_instructions_executed demo_res = 8.
Proof.
  destruct (interp_budget_respected _ _ _ _ demo_program_wf demo_registers demo_run_ok)
    as (_ & Hb & Hr). split; [exact Hb|]. rewrite (Hr _ eq_refl). vm_compute. reflexivity.
Defined.

Lemma interp_hostcalls_are_granted_witness :
  Forall (decision_justified (config demo_core) demo_program) (r_hostcall_decisions demo_res) /\
  length (r_hostcall_decisions demo_res) = 1%nat.
Proof.
  split; [|vm_compute; reflexivity].
  apply (interp_hostcalls_are_granted _ _ _ _ demo_program_wf demo_registers demo_run_ok).
Defined.

Lemma interp_witness_passes_linkage_witness :
  seq <$> r_witness_events demo_res = [0; 1; 2].
Proof.
  destruct (interp_witness_passes_linkage _ _ _ _ "demo.js" demo_program_wf demo_registers
    demo_run_ok) as (_ & Hs & _).
  rewrite Hs. vm_compute. reflexivity.
Defined.

(** The second run starts from the core the first one left. *)
Definition demo_run2 : InterpreterCore * result InterpreterError ExecutionResult :=
  default (demo_core, Err Halted) (Core.execute demo_program (fst demo_run)).

Lemma demo_run2_eq :
  Core.execute demo_program (fst demo_run) = Some (fst demo_run2, snd demo_run2).
Proof. vm_compute. reflexivity. Defined.

Lemma interp_replay_deterministic_witness : snd demo_run2 = Ok demo_res.
Proof.
  apply (interp_replay_deterministic _ _ _ _ _ _ demo_program_wf demo_registers demo_run_ok
    demo_run2_eq).
Defined.

(** *** States in the middle of the demo run *)

(** The state after [n] iterations. *)
Fixpoint after (n : nat) : InterpreterCore :=
  match n with
  | O => Core.prepare demo_core
  | S n => fst (loop_step demo_program (after n))
  end.

Definition continues_b (n : nat) : bool :=
  match snd (loop_step demo_program (after n)) with Ok None => true | _ => false end.

Lemma after_continues n : continues_b n = true -> continues demo_program (after n) (after (S n)).
Proof.
  unfold continues_b, continues. cbn [after].
  destruct (loop_step demo_program (after n)) as [s' [[v|]|e]]; done.
Defined.

Lemma after_2 : rtc (continues demo_program) (Core.prepare demo_core) (after 2).
Proof.
  apply (rtc_l _ _ (after 1)); [apply (after_continues 0); vm_compute; reflexivity|].
  apply rtc_once, (after_continues 1). vm_compute. reflexivity.
Defined.

Lemma interp_stack_discipline_witness :
  register_base (after 2) = zlen (call_stack (after 2)) * 8 /\ zlen (call_stack (after 2)) = 1.
Proof.
  split; [|vm_compute; reflexivity].
  destruct (interp_stack_discipline _ _ _ demo_program_wf demo_registers
    ltac:(vm_compute; congruence) after_2) as (_ & Hb & _). exact Hb.
Defined.

Lemma interp_callee_cannot_touch_caller_witness :
  reg_at (after 3) 0 = reg_at (after 2) 0 /\ reg_at (after 2) 0 = JInt 20.
Proof.
  split; [|vm_compute; reflexivity].
  apply (interp_callee_cannot_touch_caller demo_program demo_core (after 2) 1 (after 3) 0
    demo_program_wf demo_registers after_2).
  - vm_compute. congruence.
  - apply rtc_once. split; [apply (after_continues 2); vm_compute; reflexivity|].
    vm_compute. congruence.
  - vm_compute. split; congruence.
Defined.

(** ** Memory safety and operators *)

Lemma demo_seed_ok : seed_ok (Core.choose_seed demo_core).
Proof.
  split_and!; [repeat constructor|constructor|apply map_Forall_empty].
Defined.

Lemma interp_memory_safe_witness :
  state_ok (fst demo_run) /\ vok (fst demo_run) (r_value demo_res).
Proof.
  destruct (interp_memory_safe _ _ _ _ demo_program_wf demo_registers (or_intror demo_seed_ok) demo_run_ok)
    as (_ & Hs & _ & Hv). split; assumption.
Defined.

(** Object 1 inherits from object 0; register 0 holds object 1. *)
Definition object_core : InterpreterCore :=
  set_heap [mkObj {["kind" := JStr "base"]} None None; mkObj {["size" := JInt 3]} (Some 0) None]
    (set_registers [JObject 1; JStr "size"; JInt 3; JStr " 41 "]
      (Core.new (mkConfig 100 8 4 []) "trace-2")).

Lemma object_core_ok : state_ok object_core.
Proof.
  split; simpl; [|..|apply map_Forall_empty|constructor|done|done|constructor|constructor].
  - repeat constructor; simpl; unfold is_i64, i64_min, i64_max; lia.
  - apply Forall_cons. split; [|apply Forall_singleton]; (split; [apply map_Forall_singleton|]).
    + exact I.
    + by intros id [=].
    + simpl. unfold is_i64, i64_min, i64_max. lia.
    + intros id [= <-]. simpl. lia.
Defined.

Lemma interp_exp_is_wrapped_power_witness :
  eval_exp object_core 2 3 = Ok (JInt (wrap_i64 (3 ^ 41))).
Proof.
  apply (interp_exp_is_wrapped_power object_core 2 3 (JInt 3) (JStr " 41 ") 3 41 object_core_ok);
    vm_compute; reflexivity.
Defined.

Lemma interp_for_in_keys_agree_witness :
  exists keys, collect_for_in_keys object_core 1 = Ok keys /\ "kind" ∈ keys /\ "other" ∉ keys.
Proof.
  destruct (interp_for_in_keys_agree object_core 1 object_core_ok) as (keys & Hk & _ & Hag).
  { split; simpl; lia. }
  exists keys. split; [exact Hk|]. split.
  - apply (Hag "kind"). vm_compute. reflexivity.
  - intros Hin. apply (Hag "other") in Hin. revert Hin. vm_compute. discriminate.
Defined.

Lemma interp_set_then_get_witness :
  prototype_chain_get (fst (exec_set_property 0 1 2 object_core)) 1 "size" = Ok (JInt 3) /\
  own (fst (exec_set_property 0 1 2 object_core)) 0 "kind" = Some (JStr "base").
Proof.
  destruct (interp_set_then_get object_core (fst (exec_set_property 0 1 2 object_core)) 0 1 2 1
    (JStr "size") (JInt 3)) as (Hg & _ & _ & Ho); [vm_compute; reflexivity..|].
  split; [exact Hg|]. rewrite Ho; [vm_compute; reflexivity|]. left. vm_compute. discriminate.
Defined.

(** ** A pending return of a discarded frame *)

(** [main] calls [A] inside [try]/[catch], then runs an unrelated
    [try]/[finally] and returns 42.  [A] is [try { return 1 } finally { B() }]
    and [B] throws. *)
Definition leak_program : Ir3Module :=
  demo_module
    [ (* main *)
     LoadInt 5 42; BeginTry 4 None; Call 7 (mkRange 6 1) 0; EndTry;
     EnterCatch 1; BeginTry 7 (Some 7); EndTry; EnterFinally; EndFinally; Return 5;
     (* function 0, A *)
     LoadInt 1 1; BeginTry 13 (Some 13); Return 1; EnterFinally; Call 0 (mkRange 0 0) 2;
     EndFinally; Return 1;
     (* function 1, B *)
     LoadInt 0 7; Throw 0]
    [mkFunc 10 1 8 None; mkFunc 17 0 8 None].

(** On a well-formed program whose main function catches the exception of a callee,
    runs an unrelated try/finally and returns 42, the interpreter returns 1: the return
    that was pending in the callee when it was discarded is restored into the caller's
    suspended completions and takes effect at the caller's next end of a finally block. *)
Theorem interp_discarded_return_leaks :
  module_wf leak_program /\
  exists s' res, Core.execute leak_program demo_core = Some (s', Ok res) /\ r_value res = JInt 1.
Proof.
  split; [apply module_wfb_ok; vm_compute; reflexivity|].
  destruct (Core.execute leak_program demo_core) as [[s' [res|e]]|] eqn:E.
  - exists s', res. split; [done|]. revert E. vm_compute. intros [= _ <-]. reflexivity.
  - exfalso. revert E. vm_compute. discriminate.
  - exfalso. revert E. vm_compute. discriminate.
Qed.
