(* ===== verification/Mmr.v ===== *)
(** * Merkle mountain ranges (crates/franken-engine/src/mmr_proof.rs)

    The append-only accumulator behind the marker stream: position arithmetic,
    appending, roots, inclusion and consistency proofs and their verification.

    Positions, sizes and heights are [u64]/[u32] values written as [Z]; nothing
    overflows below [2 ^ 62] leaves.  Indexing a vector out of range panics in
    the source and is [None] here, as is running out of the 64 iterations that
    the width of a position allows a loop; MmrCorrect.v proves that neither
    happens. *)
From stdpp Require Import base numbers list strings.
From Stdlib Require Import Strings.Byte.
From S2P Require Import Prelude Bytes HashTiers.
Open Scope Z_scope.

(** ** Positions *)

(** [n.count_ones()] *)
Fixpoint ones_pos (p : positive) : Z :=
  match p with
  | xH => 1
  | xO p => ones_pos p
  | xI p => 1 + ones_pos p
  end.

Definition count_ones (n : Z) : Z := match n with Zpos p => ones_pos p | _ => 0 end.

(** [64 - n.leading_zeros()] *)
Definition bit_length (n : Z) : Z := if n =? 0 then 0 else Z.log2 n + 1.

Definition is_all_ones (n : Z) : bool := (0 <? n) && (Z.land n (wrap_u64 (n + 1)) =? 0).

(** The [while] loop of [pos_height]; the bit length decreases. *)
Fixpoint strip_msb (fuel : nat) (n : Z) : Z :=
  match fuel with
  | O => n
  | S fuel =>
      if is_all_ones n then n
      else strip_msb fuel (n - Z.shiftl 1 (bit_length n - 1) + 1)
  end.

Definition pos_height (pos : Z) : Z := count_ones (strip_msb 64 (pos + 1)) - 1.

Definition leaf_to_pos (leaf_index : Z) : Z := 2 * leaf_index - count_ones leaf_index.

Definition mmr_size (num_leaves : Z) : Z :=
  if num_leaves =? 0 then 0 else 2 * num_leaves - count_ones num_leaves.

(** [if h == 64 { u64::MAX } else { (1u64 << h) - 1 }] *)
Definition tree_size (h : Z) : Z := if h =? 64 then u64_max else Z.shiftl 1 h - 1.

(** The [while remaining > 0] loop; every iteration takes the largest complete
    tree that fits. *)
Fixpoint peaks_from (fuel : nat) (remaining offset : Z) : list Z :=
  match fuel with
  | O => []
  | S fuel =>
      if remaining <=? 0 then []
      else
        let h := bit_length remaining in
        let size := if remaining <? tree_size h then tree_size (h - 1) else tree_size h in
        (offset + size - 1) :: peaks_from fuel (remaining - size) (offset + size)
  end.

Definition peak_positions (size : Z) : list Z := peaks_from 64 size 0.

(** ** Hashing *)

Definition hash_pair (l r : ContentHash) : ContentHash := ContentHash_compute (l ++ r).

Definition zero_hash : ContentHash := replicate 32 x00.

(** Right to left. *)
Definition bag_peaks (peaks : list ContentHash) : ContentHash :=
  match rev peaks with
  | [] => zero_hash
  | last :: rest => fold_left (fun root peak => hash_pair peak root) rest last
  end.

(** ** Proofs and errors *)

Inductive ProofError :=
  | IndexOutOfRange (index stream_len : Z)
  | RootMismatch (expected computed : ContentHash)
  | InvalidProof (why : string)
  | EmptyStream
  | ConsistencyFailure (old_length new_length : Z) (why : string).

Inductive ProofType := Inclusion | Consistency.

Record MmrProof := mkProof {
  proof_type : ProofType;
  marker_index : Z;
  proof_hashes : list ContentHash;
  root_hash : ContentHash;
  stream_length : Z;
  proof_epoch : Z;
}.

(** ** The accumulator *)

Record MerkleMountainRange := mkMmr {
  nodes : list ContentHash;
  num_leaves : Z;
  epoch_id : Z;
}.

(** [self.nodes[pos as usize]] *)
Definition node_at (ns : list ContentHash) (pos : Z) : option ContentHash := ns !! Z.to_nat pos.

(** What the walks find above a node: it is a left child, with its sibling and
    parent, a right child, or a peak. *)
Inductive Up :=
  | LeftChild (sibling parent : Z)
  | RightChild (sibling parent : Z)
  | AtPeak.

(** The two sibling tests of the loops of [inclusion_proof] and
    [verify_inclusion]. *)
Definition step_up (size pos height : Z) : Up :=
  let sibling_offset := Z.shiftl 1 (height + 1) - 1 in
  let right_sibling := pos + sibling_offset in
  if (right_sibling <? size) && (pos_height right_sibling =? height)
  then LeftChild right_sibling (right_sibling + 1)
  else if sibling_offset <=? pos then
    let left_sibling := pos - sibling_offset in
    if pos_height left_sibling =? height then RightChild left_sibling (pos + 1) else AtPeak
  else AtPeak.

Module MMR.
Definition new (epoch : Z) : MerkleMountainRange := mkMmr [] 0 epoch.

Definition size (m : MerkleMountainRange) : Z := zlen (nodes m).

Definition is_empty (m : MerkleMountainRange) : bool := num_leaves m =? 0.

(** The merging [loop] of [append]. *)
Fixpoint merge (fuel : nat) (ns : list ContentHash) (current_pos height : Z)
    : option (list ContentHash) :=
  match fuel with
  | O => None
  | S fuel =>
      let left_sibling_offset := Z.shiftl 1 (height + 1) - 1 in
      if current_pos <? left_sibling_offset then Some ns
      else
        let left_sibling_pos := current_pos - left_sibling_offset in
        if negb (pos_height left_sibling_pos =? height) then Some ns
        else
          left_hash ← node_at ns left_sibling_pos;
          right_hash ← node_at ns current_pos;
          merge fuel (ns ++ [hash_pair left_hash right_hash]) (zlen ns) (height + 1)
  end.

Definition append (m : MerkleMountainRange) (leaf_hash : ContentHash)
    : option (MerkleMountainRange * Z) :=
  let leaf_pos := zlen (nodes m) in
  ns ← merge 64 (nodes m ++ [leaf_hash]) leaf_pos 0;
  Some (mkMmr ns (num_leaves m + 1) (epoch_id m), leaf_pos).

Definition peaks (m : MerkleMountainRange) : option (list ContentHash) :=
  mapM (node_at (nodes m)) (peak_positions (zlen (nodes m))).

Definition root_hash (m : MerkleMountainRange) : option (result ProofError ContentHash) :=
  if num_leaves m =? 0 then Some (Err EmptyStream)
  else
    ps ← peaks m;
    Some (Ok (bag_peaks ps)).

(** The walk of [inclusion_proof]: the sibling hashes and the position of the
    peak it ends at. *)
Fixpoint siblings (fuel : nat) (ns : list ContentHash) (size pos height : Z)
    : option (list ContentHash * Z) :=
  match fuel with
  | O => None
  | S fuel =>
      match step_up size pos height with
      | LeftChild sibling parent | RightChild sibling parent =>
          h ← node_at ns sibling;
          '(hs, peak) ← siblings fuel ns size parent (height + 1);
          Some (h :: hs, peak)
      | AtPeak => Some ([], pos)
      end
  end.

(** The peak hashes other than the one at [pos]. *)
Definition other_peaks (ns : list ContentHash) (size pos : Z) : option (list ContentHash) :=
  mapM (node_at ns) (filter (fun peak_pos => peak_pos <> pos) (peak_positions size)).

Definition inclusion_proof (m : MerkleMountainRange) (leaf_index : Z)
    : option (result ProofError MmrProof) :=
  if num_leaves m <=? leaf_index then Some (Err (IndexOutOfRange leaf_index (num_leaves m)))
  else
    let size := zlen (nodes m) in
    '(path, pos) ← siblings 64 (nodes m) size (leaf_to_pos leaf_index) 0;
    others ← other_peaks (nodes m) size pos;
    root ← root_hash m;
    Some (root ← root;
          Ok (mkProof Inclusion leaf_index (path ++ others) root (num_leaves m) (epoch_id m))).

Definition consistency_proof (m : MerkleMountainRange) (old_length : Z)
    : option (result ProofError MmrProof) :=
  if old_length =? 0 then Some (Err EmptyStream)
  else if num_leaves m <? old_length then
    Some (Err (ConsistencyFailure old_length (num_leaves m) "old length exceeds current stream"))
  else
    let old_peak_positions := peak_positions (mmr_size old_length) in
    let new_peak_positions := peak_positions (zlen (nodes m)) in
    old ← mapM (node_at (nodes m)) old_peak_positions;
    fresh ← mapM (node_at (nodes m))
              (filter (fun pos => pos ∉ old_peak_positions) new_peak_positions);
    root ← root_hash m;
    Some (root ← root;
          Ok (mkProof Consistency old_length (old ++ fresh) root (num_leaves m) (epoch_id m))).
End MMR.

(** ** Verification *)

(** The walk of [verify_inclusion]: the position and hash of the peak and the
    proof hashes that are left. *)
Fixpoint verify_walk (fuel : nat) (size pos height : Z) (current_hash : ContentHash)
    (hashes : list ContentHash) : option (result ProofError (Z * ContentHash * list ContentHash)) :=
  match fuel with
  | O => None
  | S fuel =>
      match step_up size pos height, hashes with
      | AtPeak, _ => Some (Ok (pos, current_hash, hashes))
      | _, [] => Some (Err (InvalidProof "not enough proof hashes"))
      | LeftChild _ parent, h :: hashes =>
          verify_walk fuel size parent (height + 1) (hash_pair current_hash h) hashes
      | RightChild _ parent, h :: hashes =>
          verify_walk fuel size parent (height + 1) (hash_pair h current_hash) hashes
      end
  end.

(** The peak hashes: the computed one at its position, the proof's at the
    others. *)
Fixpoint fill_peaks (positions : list Z) (pos : Z) (current_hash : ContentHash)
    (hashes : list ContentHash) : result ProofError (list ContentHash) :=
  match positions with
  | [] => Ok []
  | peak_pos :: positions =>
      if peak_pos =? pos then
        rest ← fill_peaks positions pos current_hash hashes;
        Ok (current_hash :: rest)
      else
        match hashes with
        | [] => Err (InvalidProof "not enough proof hashes for peaks")
        | h :: hashes =>
            rest ← fill_peaks positions pos current_hash hashes;
            Ok (h :: rest)
        end
  end.

(** The part of [verify_inclusion] after the walk. *)
Definition check_peaks (size : Z) (root : ContentHash) (walked : Z * ContentHash * list ContentHash)
    : result ProofError unit :=
  let '(pos, current_hash, hashes) := walked in
  peak_hashes ← fill_peaks (peak_positions size) pos current_hash hashes;
  let computed_root := bag_peaks peak_hashes in
  if bool_decide (computed_root = root) then Ok tt else Err (RootMismatch root computed_root).

Definition verify_inclusion (marker_hash : ContentHash) (leaf_index : Z) (proof : MmrProof)
    : option (result ProofError unit) :=
  match proof_type proof with
  | Consistency => Some (Err (InvalidProof "expected inclusion proof"))
  | Inclusion =>
      if stream_length proof <=? leaf_index then
        Some (Err (IndexOutOfRange leaf_index (stream_length proof)))
      else
        let size := mmr_size (stream_length proof) in
        walked ← verify_walk 64 size (leaf_to_pos leaf_index) 0 marker_hash (proof_hashes proof);
        Some (walked ≫= check_peaks size (root_hash proof))
  end.

(** The loop over the new peaks: an old peak is looked up by its position
    among the old ones. *)
Fixpoint new_peak_hashes (positions old_positions : list Z) (old_peaks remaining : list ContentHash)
    : result ProofError (list ContentHash) :=
  match positions with
  | [] => Ok []
  | pos :: positions =>
      match list_find (fun p => p = pos) old_positions with
      | Some (old_idx, _) =>
          rest ← new_peak_hashes positions old_positions old_peaks remaining;
          Ok (default zero_hash (old_peaks !! old_idx) :: rest)
      | None =>
          match remaining with
          | [] => Err (InvalidProof "not enough proof hashes for new peaks")
          | h :: remaining =>
              rest ← new_peak_hashes positions old_positions old_peaks remaining;
              Ok (h :: rest)
          end
      end
  end.

Definition verify_consistency (old_root : ContentHash) (proof : MmrProof)
    : result ProofError unit :=
  match proof_type proof with
  | Inclusion => Err (InvalidProof "expected consistency proof")
  | Consistency =>
      let old_length := marker_index proof in
      if old_length =? 0 then Err EmptyStream
      else
        let old_positions := peak_positions (mmr_size old_length) in
        let old_peak_count := length old_positions in
        if (length (proof_hashes proof) <? old_peak_count)%nat then
          Err (InvalidProof "not enough proof hashes for old peaks")
        else
          let old_peaks := take old_peak_count (proof_hashes proof) in
          if bool_decide (bag_peaks old_peaks <> old_root) then
            Err (ConsistencyFailure old_length (stream_length proof)
                   "old root does not match reconstructed peaks")
          else
            let remaining := drop old_peak_count (proof_hashes proof) in
            new_peaks ← new_peak_hashes (peak_positions (mmr_size (stream_length proof)))
                          old_positions old_peaks remaining;
            let computed_new_root := bag_peaks new_peaks in
            if bool_decide (computed_new_root = root_hash proof) then Ok tt
            else Err (RootMismatch (root_hash proof) computed_new_root)
  end.

(** ** Positions in a Merkle mountain range

    A range numbers its nodes in post-order, so that positions do not depend on
    how many leaves there are.  [hgt] is the height of a position in a complete
    tree by descent from the root; [pos_height] computes the same by stripping
    leading bits.  The lemmas at the end say where a node's subtree lies, which
    is all the walks of the proofs need. *)

#[local] Coercion Z.of_nat : nat >-> Z.

(** ** Counting bits *)

Lemma count_ones_double n b :
  0 <= n -> count_ones (2 * n + Z.b2z b) = count_ones n + Z.b2z b.
Proof.
  intros Hn. destruct n as [|p|p]; [by destruct b| |lia]. destruct b; cbn [Z.b2z].
  - change (2 * Z.pos p + 1) with (Z.pos p~1). cbn [count_ones ones_pos]. lia.
  - change (2 * Z.pos p + 0) with (Z.pos p~0). cbn [count_ones ones_pos]. lia.
Qed.

Lemma count_ones_even n : 0 <= n -> count_ones (2 * n) = count_ones n.
Proof. intros Hn. pose proof (count_ones_double n false Hn). simpl in *. rewrite !Z.add_0_r in *. done. Qed.

Lemma count_ones_odd n : 0 <= n -> count_ones (2 * n + 1) = count_ones n + 1.
Proof. apply (count_ones_double n true). Qed.

Lemma count_ones_all (k : nat) : count_ones (2 ^ k - 1) = k.
Proof.
  induction k as [|k IH]; [done|]. rewrite Nat2Z.inj_succ, Z.pow_succ_r by lia.
  replace (2 * 2 ^ k - 1) with (2 * (2 ^ k - 1) + 1) by lia.
  rewrite count_ones_odd, IH by (pose proof (Z.pow_pos_nonneg 2 k); lia). lia.
Qed.

(** Adding a bit above all others. *)
Lemma count_ones_top (k : nat) j : 0 <= j < 2 ^ k -> count_ones (2 ^ k + j) = 1 + count_ones j.
Proof.
  revert j. induction k as [|k IH]; intros j Hj.
  - change (2 ^ 0%nat) with 1 in *. assert (j = 0) as -> by lia. done.
  - rewrite Nat2Z.inj_succ, Z.pow_succ_r in * by lia.
    pose proof (Z.div2_odd j) as Hd. set (q := Z.div2 j) in *. set (b := Z.odd j) in *.
    assert (0 <= Z.b2z b <= 1) by (destruct b; simpl; lia).
    rewrite Hd. replace (2 * 2 ^ k + (2 * q + Z.b2z b)) with (2 * (2 ^ k + q) + Z.b2z b) by lia.
    rewrite !count_ones_double, IH by lia. lia.
Qed.

Lemma log2_bounds (k : nat) n : 2 ^ k <= n < 2 ^ Z.of_nat (S k) -> bit_length n = k + 1.
Proof.
  intros Hn. unfold bit_length. pose proof (Z.pow_pos_nonneg 2 k).
  destruct (Z.eqb_spec n 0); [lia|]. f_equal. apply Z.log2_unique; [lia|].
  by replace (Z.succ k) with (Z.of_nat (S k)) by lia.
Qed.

(** ** Sizes of complete trees *)

Definition psize (h : nat) : Z := 2 ^ Z.of_nat (S h) - 1.

Lemma psize_0 : psize 0 = 1.
Proof. done. Qed.

Lemma psize_S h : psize (S h) = 2 * psize h + 1.
Proof. unfold psize. rewrite (Nat2Z.inj_succ (S h)), Z.pow_succ_r by lia. lia. Qed.

Lemma psize_pos h : 1 <= psize h.
Proof. induction h; [done|]. rewrite psize_S. lia. Qed.

Lemma psize_mono h k : (h <= k)%nat -> psize h <= psize k.
Proof.
  induction 1 as [|k _ IH]; [done|]. rewrite psize_S. pose proof (psize_pos k). lia.
Qed.

Lemma psize_shift h : Z.shiftl 1 (Z.of_nat h + 1) - 1 = psize h.
Proof. rewrite Z.shiftl_1_l. unfold psize. do 2 f_equal. lia. Qed.

(** ** Heights *)

Lemma all_ones_psize h : (h < 63)%nat -> is_all_ones (psize h) = true.
Proof.
  intros Hh. unfold is_all_ones. pose proof (psize_pos h).
  assert (psize h + 1 < 2 ^ 64).
  { pose proof (psize_mono h 62 ltac:(lia)). change (psize 62) with (2 ^ 63 - 1) in *. lia. }
  apply andb_true_iff. split; [lia|]. apply Z.eqb_eq. rewrite wrap_u64_small by mlia.
  unfold psize. replace (2 ^ Z.of_nat (S h) - 1 + 1) with (2 ^ Z.of_nat (S h)) by lia.
  rewrite Z.sub_1_r, <- Z.ones_equiv, Z.land_comm, Z.land_ones by lia.
  apply Z.mod_same. pose proof (Z.pow_pos_nonneg 2 (Z.of_nat (S h))). lia.
Qed.

Lemma testbit_top (k : nat) n : 2 ^ k <= n < 2 ^ Z.of_nat (S k) -> Z.testbit n k = true.
Proof.
  intros Hn. pose proof (Z.pow_pos_nonneg 2 k). replace (k : Z) with (Z.log2 n).
  - apply Z.bit_log2. lia.
  - apply Z.log2_unique; [lia|]. by replace (Z.succ k) with (Z.of_nat (S k)) by lia.
Qed.

(** Between two all-ones numbers. *)
Lemma not_all_ones h n :
  (h < 62)%nat -> psize h < n < psize (S h) -> is_all_ones n = false.
Proof.
  intros Hh Hn. unfold is_all_ones. apply andb_false_iff. right. apply Z.eqb_neq. intros Hz.
  assert (n + 1 < 2 ^ 64).
  { pose proof (psize_mono (S h) 62 ltac:(lia)). change (psize 62) with (2 ^ 63 - 1) in *. lia. }
  rewrite wrap_u64_small in Hz by (pose proof (psize_pos h); mlia).
  assert (Z.testbit (Z.land n (n + 1)) (Z.of_nat (S h)) = true) as Ht.
  { rewrite Z.land_spec, !testbit_top; [done|unfold psize in Hn; lia..]. }
  by rewrite Hz, Z.bits_0 in Ht.
Qed.

(** The height of a position in a complete tree of height [h]. *)
Fixpoint hgt (h : nat) (p : Z) : nat :=
  match h with
  | O => O
  | S h' =>
      if p =? psize h - 1 then h
      else if p <? psize h' then hgt h' p
      else hgt h' (p - psize h')
  end.

Lemma hgt_root h : hgt h (psize h - 1) = h.
Proof. destruct h; [done|]. cbn [hgt]. by rewrite Z.eqb_refl. Qed.

Lemma hgt_left h p : 0 <= p < psize h -> hgt (S h) p = hgt h p.
Proof.
  intros Hp. cbn [hgt]. rewrite psize_S. destruct (Z.eqb_spec p (2 * psize h + 1 - 1)); [lia|].
  destruct (Z.ltb_spec p (psize h)); [done|lia].
Qed.

Lemma hgt_right h p : 0 <= p < psize h -> hgt (S h) (psize h + p) = hgt h p.
Proof.
  intros Hp. cbn [hgt]. rewrite psize_S.
  destruct (Z.eqb_spec (psize h + p) (2 * psize h + 1 - 1)); [lia|].
  destruct (Z.ltb_spec (psize h + p) (psize h)); [lia|]. f_equal. lia.
Qed.

(** The three places of a position in a complete tree. *)
Lemma place_cases h p : 0 <= p < psize (S h) ->
  p = psize (S h) - 1 \/ 0 <= p < psize h \/ exists q, p = psize h + q /\ 0 <= q < psize h.
Proof.
  intros Hp. rewrite psize_S in *. destruct (decide (p = 2 * psize h + 1 - 1)); [by left|].
  right. destruct (decide (p < psize h)); [left; lia|right]. exists (p - psize h). lia.
Qed.

Lemma strip_msb_hgt h fuel p :
  (h < 63)%nat -> (h < fuel)%nat -> 0 <= p < psize h ->
  count_ones (strip_msb fuel (p + 1)) - 1 = hgt h p.
Proof.
  revert fuel p. induction h as [|h IH]; intros fuel p Hh Hf Hp.
  - rewrite psize_0 in Hp. assert (p = 0) as -> by lia. destruct fuel; [lia|]. done.
  - destruct (place_cases h p Hp) as [->|[Hl|(q & -> & Hq)]].
    + rewrite hgt_root. destruct fuel as [|fuel]; [lia|]. cbn [strip_msb].
      replace (psize (S h) - 1 + 1) with (psize (S h)) by lia. rewrite all_ones_psize by lia.
      unfold psize. rewrite count_ones_all. lia.
    + rewrite hgt_left by done. apply IH; lia.
    + rewrite hgt_right by done. destruct fuel as [|fuel]; [lia|]. cbn [strip_msb].
      rewrite (not_all_ones h) by (rewrite ?psize_S; lia).
      rewrite (log2_bounds (S h)) by (unfold psize in *; rewrite (Nat2Z.inj_succ (S h)), Z.pow_succ_r; lia).
      rewrite Z.shiftl_1_l. replace (Z.of_nat (S h) + 1 - 1) with (Z.of_nat (S h)) by lia.
      replace (psize h + q + 1 - 2 ^ Z.of_nat (S h) + 1) with (q + 1) by (unfold psize; lia).
      apply IH; lia.
Qed.

(** Every position is in the tree of height 62, of [2 ^ 63 - 1] nodes. *)
Definition top : nat := 62.

Lemma pos_height_hgt p : 0 <= p < psize top -> pos_height p = hgt top p.
Proof. intros Hp. apply strip_msb_hgt; [unfold top; lia..|done]. Qed.

(** The nodes before a position of height [k] form its subtree. *)
Lemma hgt_subtree H p : 0 <= p < psize H ->
  let k := hgt H p in
  psize k <= p + 1 /\
  forall q, 0 <= q < psize k -> hgt H (p + 1 - psize k + q) = hgt k q.
Proof.
  revert p. induction H as [|H IH]; intros p Hp; cbv zeta.
  - rewrite psize_0 in *. simpl. rewrite psize_0. split; [lia|done].
  - destruct (place_cases H p Hp) as [->|[Hl|(r & -> & Hr)]].
    + rewrite hgt_root. split; [lia|]. intros q Hq. f_equal. lia.
    + rewrite hgt_left by done. destruct (IH p Hl) as [Hs Hq]. split; [done|]. intros q Hqr.
      rewrite hgt_left by lia. by apply Hq.
    + rewrite hgt_right by done. destruct (IH r Hr) as [Hs Hq]. split; [lia|]. intros q Hqr.
      replace (psize H + r + 1 - psize (hgt H r) + q)
        with (psize H + (r + 1 - psize (hgt H r) + q)) by lia.
      rewrite hgt_right by lia. by apply Hq.
Qed.

Lemma hgt_0 h : hgt h 0 = O.
Proof.
  induction h as [|h IH]; [done|]. rewrite hgt_left; [done|]. pose proof (psize_pos h). lia.
Qed.

(** The subtree of a node begins with a leaf. *)
Lemma pos_height_first p h :
  0 <= p < psize top -> pos_height p = Z.of_nat h ->
  psize h <= p + 1 /\ pos_height (p + 1 - psize h) = 0.
Proof.
  intros Hp Hh. rewrite pos_height_hgt in Hh by done.
  destruct (hgt_subtree top p Hp) as [Hs Hq]. apply Nat2Z.inj in Hh. rewrite Hh in *.
  pose proof (psize_pos h). split; [done|]. rewrite pos_height_hgt by lia.
  specialize (Hq 0 ltac:(lia)). rewrite Z.add_0_r, hgt_0 in Hq. by rewrite Hq.
Qed.

(** A node of positive height has its children right below it. *)
Lemma pos_height_children p h :
  0 <= p < psize top -> pos_height p = Z.of_nat (S h) ->
  pos_height (p - 1) = h /\ pos_height (p - 1 - psize h) = h.
Proof.
  intros Hp Hh. rewrite pos_height_hgt in Hh by done.
  destruct (hgt_subtree top p Hp) as [Hs Hq]. apply Nat2Z.inj in Hh. rewrite Hh in *.
  pose proof (psize_pos h). rewrite psize_S in *.
  pose proof (Hq (psize h + (psize h - 1)) ltac:(lia)) as Hr.
  pose proof (Hq (psize h - 1) ltac:(lia)) as Hl.
  rewrite hgt_right, hgt_root in Hr by lia. rewrite hgt_left, hgt_root in Hl by lia.
  rewrite !pos_height_hgt by lia. split; f_equal.
  - etransitivity; [|exact Hr]. f_equal. lia.
  - etransitivity; [|exact Hl]. f_equal. lia.
Qed.

(** Positions do not depend on the tree they are looked up in. *)
Lemma hgt_grow h k p : (h <= k)%nat -> 0 <= p < psize h -> hgt k p = hgt h p.
Proof.
  intros Hk Hp. induction Hk as [|k Hk IH]; [done|].
  rewrite hgt_left; [done|]. pose proof (psize_mono h k Hk). lia.
Qed.

Lemma pos_height_root h : (h <= top)%nat -> pos_height (psize h - 1) = h.
Proof.
  intros Hh. pose proof (psize_pos h). pose proof (psize_mono h top Hh).
  by rewrite pos_height_hgt, (hgt_grow h), hgt_root by lia.
Qed.

(** To the right of a complete tree, heights start over. *)
Lemma pos_height_shift h p :
  (h < top)%nat -> 0 <= p < psize h -> pos_height (psize h + p) = pos_height p.
Proof.
  intros Hh Hp. pose proof (psize_mono (S h) top Hh). rewrite psize_S in *.
  rewrite !pos_height_hgt by lia. f_equal.
  rewrite (hgt_grow (S h) top (psize h + p)), hgt_right by (rewrite ?psize_S; lia).
  symmetry. apply hgt_grow; lia.
Qed.
