(* ===== verification/MmrForest.v ===== *)
(** * The forest behind a Merkle mountain range

    The node vector of a range is the post-order listing of complete trees of
    strictly decreasing heights, one per bit of the number of leaves.  This file
    relates the operations on positions to that forest: [append] adds a leaf and
    merges, [peak_positions] finds the roots, [leaf_to_pos] finds a leaf and
    [step_up] finds a node's sibling and parent. *)
From stdpp Require Import base numbers list sorting.
From S2P Require Import Prelude Bytes HashTiers Mmr.
Open Scope Z_scope.

#[local] Coercion Z.of_nat : nat >-> Z.
#[local] Opaque ContentHash_compute.

(** ** Trees *)

Inductive tree :=
  | Leaf (h : ContentHash)
  | Node (l r : tree).

Fixpoint thash (t : tree) : ContentHash :=
  match t with Leaf h => h | Node l r => hash_pair (thash l) (thash r) end.

Fixpoint flatten (t : tree) : list ContentHash :=
  match t with Leaf h => [h] | Node l r => flatten l ++ flatten r ++ [thash t] end.

Fixpoint tleaves (t : tree) : list ContentHash :=
  match t with Leaf h => [h] | Node l r => tleaves l ++ tleaves r end.

Inductive perfect : nat -> tree -> Prop :=
  | perfect_leaf h : perfect 0 (Leaf h)
  | perfect_node k l r : perfect k l -> perfect k r -> perfect (S k) (Node l r).

Lemma zlen_flatten k t : perfect k t -> zlen (flatten t) = psize k.
Proof.
  induction 1 as [|k l r _ IHl _ IHr]; [done|]. cbn [flatten].
  rewrite !zlen_app, IHl, IHr, psize_S. change (zlen [thash (Node l r)]) with 1. lia.
Qed.

Lemma zlen_tleaves k t : perfect k t -> zlen (tleaves t) = 2 ^ k.
Proof.
  induction 1 as [|k l r _ IHl _ IHr]; [done|]. cbn [tleaves].
  rewrite zlen_app, IHl, IHr, Nat2Z.inj_succ, Z.pow_succ_r by lia. lia.
Qed.

Lemma flatten_last t : exists init, flatten t = init ++ [thash t].
Proof. destruct t; [by exists []|]. exists (flatten t1 ++ flatten t2). cbn [flatten]. by rewrite <- app_assoc. Qed.

(** ** Forests *)

Definition forest := list (nat * tree).

Definition fnodes (f : forest) : list ContentHash := concat ((fun x => flatten x.2) <$> f).
Definition fleaves (f : forest) : list ContentHash := concat ((fun x => tleaves x.2) <$> f).
Definition fsize (f : forest) : Z := Zsum ((fun x => psize x.1) <$> f).
Definition fcount (f : forest) : Z := Zsum ((fun x => 2 ^ Z.of_nat x.1) <$> f).

Definition above (x y : nat * tree) : Prop := (y.1 < x.1)%nat.

Record forest_ok (f : forest) : Prop := {
  fo_perfect : Forall (fun x => perfect x.1 x.2) f;
  fo_sorted : StronglySorted above f;
  fo_bound : Forall (fun x => (x.1 < 62)%nat) f;
}.

Lemma Zsum_app l1 l2 : Zsum (l1 ++ l2) = Zsum l1 + Zsum l2.
Proof. induction l1 as [|z l1 IH]; simpl; [done|]. unfold Zsum in *. simpl. lia. Qed.

Lemma fsize_app f1 f2 : fsize (f1 ++ f2) = fsize f1 + fsize f2.
Proof. unfold fsize. by rewrite fmap_app, Zsum_app. Qed.
Lemma fsize_one x : fsize [x] = psize x.1.
Proof. unfold fsize, Zsum. simpl. lia. Qed.
Lemma fsize_cons x f : fsize (x :: f) = psize x.1 + fsize f.
Proof. done. Qed.
Lemma fcount_cons x f : fcount (x :: f) = 2 ^ Z.of_nat x.1 + fcount f.
Proof. done. Qed.
Lemma fcount_app f1 f2 : fcount (f1 ++ f2) = fcount f1 + fcount f2.
Proof. unfold fcount. by rewrite fmap_app, Zsum_app. Qed.
Lemma fnodes_app f1 f2 : fnodes (f1 ++ f2) = fnodes f1 ++ fnodes f2.
Proof. unfold fnodes. by rewrite fmap_app, concat_app. Qed.
Lemma fleaves_app f1 f2 : fleaves (f1 ++ f2) = fleaves f1 ++ fleaves f2.
Proof. unfold fleaves. by rewrite fmap_app, concat_app. Qed.
Lemma fnodes_one x : fnodes [x] = flatten x.2.
Proof. unfold fnodes. simpl. by rewrite app_nil_r. Qed.
Lemma fleaves_one x : fleaves [x] = tleaves x.2.
Proof. unfold fleaves. simpl. by rewrite app_nil_r. Qed.

Lemma fsize_nonneg f : 0 <= fsize f.
Proof.
  apply Zsum_nonneg, Forall_fmap, Forall_true. intros x. simpl. pose proof (psize_pos x.1). lia.
Qed.
Lemma fcount_nonneg f : 0 <= fcount f.
Proof. apply Zsum_nonneg, Forall_fmap, Forall_true. intros x. simpl. lia. Qed.

Lemma zlen_fnodes f : Forall (fun x => perfect x.1 x.2) f -> zlen (fnodes f) = fsize f.
Proof.
  induction 1 as [|x f Hx _ IH]; [done|]. change (x :: f) with ([x] ++ f).
  by rewrite fnodes_app, fsize_app, zlen_app, IH, fnodes_one, fsize_one, (zlen_flatten x.1).
Qed.

Lemma zlen_fleaves f : Forall (fun x => perfect x.1 x.2) f -> zlen (fleaves f) = fcount f.
Proof.
  induction 1 as [|x f Hx _ IH]; [done|]. change (x :: f) with ([x] ++ f).
  rewrite fleaves_app, fcount_app, zlen_app, IH, fleaves_one, (zlen_tleaves x.1) by done.
  unfold fcount, Zsum. simpl. lia.
Qed.

Lemma forest_ok_app f1 f2 : forest_ok (f1 ++ f2) -> forest_ok f1 /\ forest_ok f2.
Proof.
  intros [Hp Hs Hb]. apply Forall_app in Hp as [? ?]. apply Forall_app in Hb as [? ?].
  apply StronglySorted_app in Hs as (? & ? & ?). done.
Qed.

Lemma forest_ok_snoc f x :
  forest_ok f -> perfect x.1 x.2 -> (x.1 < 62)%nat -> Forall (fun y => above y x) f ->
  forest_ok (f ++ [x]).
Proof.
  intros [Hp Hs Hb] Hx Hxb Ha. split.
  - apply Forall_app. by split; [|apply Forall_singleton].
  - apply StronglySorted_app. split_and!; [|done|by repeat constructor].
    intros y z Hy Hz%list_elem_of_singleton. subst z. rewrite Forall_forall in Ha. by apply Ha.
  - apply Forall_app. by split; [|apply Forall_singleton].
Qed.

(** Everything to the right of a mountain is smaller than the mountain. *)
Lemma fsize_below h f :
  StronglySorted above f -> Forall (fun y => (y.1 < h)%nat) f ->
  fsize f < psize h /\ fcount f < 2 ^ h /\ (length f <= h)%nat.
Proof.
  intros Hs. revert h. induction Hs as [|x f Hs IH Hx]; intros h Hh.
  - pose proof (psize_pos h). unfold fsize, fcount, Zsum. simpl. lia.
  - apply Forall_cons in Hh as [Hxh _]. destruct (IH x.1 Hx) as (H1 & H2 & H3).
    rewrite fsize_cons, fcount_cons. simpl length.
    pose proof (psize_mono (S x.1) h Hxh). rewrite psize_S in *.
    assert (2 ^ Z.of_nat (S x.1) <= 2 ^ h) by (apply Z.pow_le_mono_r; lia).
    rewrite Nat2Z.inj_succ, Z.pow_succ_r in * by lia. lia.
Qed.

Lemma fsize_rest x f : forest_ok (x :: f) -> fsize f < psize x.1 /\ fcount f < 2 ^ Z.of_nat x.1.
Proof.
  intros [_ Hs _]. apply StronglySorted_inv in Hs as [Hs Hx].
  destruct (fsize_below x.1 f Hs Hx) as (? & ? & _). done.
Qed.

Lemma fsize_top f : forest_ok f -> fsize f < psize top /\ (length f <= 62)%nat.
Proof.
  intros [_ Hs Hb]. destruct (fsize_below 62 f Hs Hb) as (? & ? & ?). done.
Qed.

(** ** Heights of mountain tops *)

Lemma peak_height pre x post :
  forest_ok (pre ++ x :: post) -> pos_height (fsize pre + psize x.1 - 1) = x.1.
Proof.
  intros Hok. change (x :: post) with ([x] ++ post) in Hok. rewrite app_assoc in Hok.
  apply forest_ok_app in Hok as [Hok _].
  induction pre as [|[h0 t0] pre IH]; simpl app in Hok.
  - change (fsize []) with 0. rewrite Z.add_0_l. apply pos_height_root.
    destruct Hok as [_ _ Hb]. rewrite Forall_singleton in Hb. unfold top. lia.
  - pose proof (fsize_rest _ _ Hok) as [Hr _]. rewrite fsize_app, fsize_one in Hr. simpl in Hr.
    pose proof (fsize_nonneg pre). pose proof (psize_pos x.1).
    change ((h0, t0) :: pre ++ [x]) with ([(h0, t0)] ++ (pre ++ [x])) in Hok.
    apply forest_ok_app in Hok as [[_ _ Hb] Hok]. rewrite Forall_singleton in Hb.
    rewrite <- IH, fsize_cons by done. simpl.
    replace (psize h0 + fsize pre + psize x.1 - 1) with (psize h0 + (fsize pre + psize x.1 - 1)) by lia.
    apply pos_height_shift; [done|lia].
Qed.

(** ** Peaks *)

(** The positions of the mountain tops, from offset [off] on. *)
Fixpoint roots (off : Z) (f : forest) : list Z :=
  match f with
  | [] => []
  | x :: f => (off + psize x.1 - 1) :: roots (off + psize x.1) f
  end.

Lemma tree_size_psize h : (h < 63)%nat -> tree_size (Z.of_nat (S h)) = psize h.
Proof.
  intros Hh. unfold tree_size. destruct (Z.eqb_spec (S h) 64); [lia|].
  rewrite Z.shiftl_1_l. done.
Qed.

Lemma peaks_from_roots fuel f off :
  forest_ok f -> (length f < fuel)%nat -> peaks_from fuel (fsize f) off = roots off f.
Proof.
  revert f off. induction fuel as [|fuel IH]; intros f off Hok Hf; [lia|].
  destruct f as [|x f]; [done|]. cbn [peaks_from roots].
  pose proof (fsize_rest x f Hok) as [Hr _]. pose proof (fsize_nonneg f). pose proof (psize_pos x.1).
  rewrite fsize_cons. destruct (Z.leb_spec (psize x.1 + fsize f) 0); [lia|].
  assert (x.1 < 62)%nat as Hx by (destruct Hok as [_ _ Hb]; by apply Forall_cons in Hb as [? _]).
  set (size := if psize x.1 + fsize f <? _ then _ else _).
  assert (size = psize x.1) as ->.
  { subst size. destruct (decide (fsize f = 0)) as [->|Hne].
    - rewrite Z.add_0_r, (log2_bounds x.1) by (unfold psize; rewrite Nat2Z.inj_succ, Z.pow_succ_r; lia).
      replace (Z.of_nat x.1 + 1) with (Z.of_nat (S x.1)) by lia.
      rewrite tree_size_psize by lia. by rewrite Z.ltb_irrefl.
    - rewrite (log2_bounds (S x.1))
        by (unfold psize in *; rewrite (Nat2Z.inj_succ (S x.1)), Z.pow_succ_r; lia).
      replace (Z.of_nat (S x.1) + 1) with (Z.of_nat (S (S x.1))) by lia.
      rewrite tree_size_psize by lia. rewrite psize_S.
      destruct (Z.ltb_spec (psize x.1 + fsize f) (2 * psize x.1 + 1)); [|lia].
      replace (Z.of_nat (S (S x.1)) - 1) with (Z.of_nat (S x.1)) by lia.
      apply tree_size_psize. lia. }
  f_equal. replace (psize x.1 + fsize f - psize x.1) with (fsize f) by lia.
  apply IH; [|simpl in Hf; lia]. by apply (forest_ok_app [x] f).
Qed.

Lemma peak_positions_roots f : forest_ok f -> peak_positions (fsize f) = roots 0 f.
Proof. intros Hok. apply peaks_from_roots; [done|]. destruct (fsize_top f Hok). lia. Qed.

Lemma roots_app off f1 f2 : roots off (f1 ++ f2) = roots off f1 ++ roots (off + fsize f1) f2.
Proof.
  revert off. induction f1 as [|x f1 IH]; intros off; simpl.
  - change (fsize []) with 0. by rewrite Z.add_0_r.
  - rewrite IH, fsize_cons. do 2 f_equal. f_equal. lia.
Qed.

Lemma roots_range off f p : p ∈ roots off f -> off <= p < off + fsize f.
Proof.
  revert off. induction f as [|x f IH]; intros off; simpl; [by intros ?%not_elem_of_nil|].
  pose proof (psize_pos x.1). pose proof (fsize_nonneg f). rewrite fsize_cons.
  intros [->|Hp]%elem_of_cons; [lia|]. apply IH in Hp. lia.
Qed.

(** ** Size and leaves *)

Lemma count_ones_forest f : forest_ok f -> count_ones (fcount f) = length f.
Proof.
  induction f as [|x f IH]; intros Hok; [done|].
  pose proof (fsize_rest x f Hok) as [_ Hc]. pose proof (fcount_nonneg f).
  rewrite fcount_cons, count_ones_top, IH by (done || by apply (forest_ok_app [x] f)).
  simpl length. lia.
Qed.

Lemma fsize_fcount f : fsize f = 2 * fcount f - length f.
Proof.
  induction f as [|x f IH]; [done|]. rewrite fsize_cons, fcount_cons, IH. unfold psize.
  rewrite Nat2Z.inj_succ, Z.pow_succ_r by lia. simpl length. lia.
Qed.

Lemma mmr_size_forest f : forest_ok f -> mmr_size (fcount f) = fsize f.
Proof.
  intros Hok. unfold mmr_size. rewrite fsize_fcount. destruct (Z.eqb_spec (fcount f) 0) as [E|E].
  - rewrite E. destruct f as [|x f]; [done|]. rewrite fcount_cons in E.
    pose proof (fcount_nonneg f). pose proof (Z.pow_pos_nonneg 2 (Z.of_nat x.1)). lia.
  - by rewrite count_ones_forest.
Qed.

(** ** Appending *)

Lemma node_at_last ns x : node_at (ns ++ [x]) (zlen ns) = Some x.
Proof. unfold node_at, zlen. rewrite Nat2Z.id, lookup_app_r, Nat.sub_diag by lia. done. Qed.

Lemma node_at_app_l ns ns' p : 0 <= p < zlen ns -> node_at (ns ++ ns') p = node_at ns p.
Proof. unfold node_at, zlen. intros Hp. apply lookup_app_l. lia. Qed.

(** The last node of a mountain. *)
Lemma node_at_root ns t rest k :
  perfect k t -> node_at (ns ++ flatten t ++ rest) (zlen ns + psize k - 1) = Some (thash t).
Proof.
  intros Ht. pose proof (zlen_flatten k t Ht) as Hl. destruct (flatten_last t) as [init E].
  rewrite E in *. rewrite zlen_app in Hl. change (zlen [thash t]) with 1 in Hl.
  rewrite <- app_assoc, app_assoc, (app_assoc (ns ++ init)).
  replace (zlen ns + psize k - 1) with (zlen (ns ++ init)) by (rewrite zlen_app; lia).
  rewrite node_at_app_l; [apply node_at_last|]. rewrite !zlen_app.
  change (zlen [thash t]) with 1. pose proof (zlen_nonneg ns). pose proof (zlen_nonneg init). lia.
Qed.

(** A mountain of the same height to the left is merged. *)
Lemma merge_equal fuel pre k t1 t :
  forest_ok (pre ++ [(k, t1)]) -> perfect k t ->
  MMR.merge (S fuel) (fnodes (pre ++ [(k, t1)]) ++ flatten t) (fsize (pre ++ [(k, t1)]) + psize k - 1) k =
  MMR.merge fuel (fnodes pre ++ flatten (Node t1 t)) (fsize pre + psize (S k) - 1) (S k).
Proof.
  intros Hok Ht. pose proof (peak_height pre (k, t1) [] Hok) as Hpk. simpl in Hpk.
  assert (perfect k t1) as Ht1
    by (destruct Hok as [Hp _ _]; apply Forall_app in Hp as [_ Hp]; by rewrite Forall_singleton in Hp).
  assert (zlen (fnodes pre) = fsize pre) as Hpn
    by (apply zlen_fnodes; by apply forest_ok_app in Hok as [[? _ _] _]).
  pose proof (psize_pos k). pose proof (fsize_nonneg pre).
  cbn [MMR.merge]. rewrite psize_shift, fsize_app, fsize_one, fnodes_app, fnodes_one. cbn [fst snd].
  destruct (Z.ltb_spec (fsize pre + psize k + psize k - 1) (psize k)); [lia|].
  replace (fsize pre + psize k + psize k - 1 - psize k) with (fsize pre + psize k - 1) by lia.
  rewrite Hpk, Z.eqb_refl. cbn [negb]. rewrite <- !app_assoc.
  rewrite <- Hpn at 1. rewrite node_at_root by done. cbn [mbind option_bind].
  replace (fsize pre + psize k + psize k - 1) with (zlen (fnodes pre ++ flatten t1) + psize k - 1)
    by (rewrite zlen_app, Hpn, (zlen_flatten k) by done; lia).
  pose proof (node_at_root (fnodes pre ++ flatten t1) t [] k Ht) as Hr.
  rewrite app_nil_r, <- app_assoc in Hr. rewrite Hr.
  cbn [mbind option_bind flatten thash]. f_equal; [by rewrite <- !app_assoc| |lia].
  rewrite !zlen_app, Hpn, !(zlen_flatten k), psize_S by done. lia.
Qed.

(** A higher mountain, or none, stops the loop. *)
Lemma merge_stop fuel pre k t :
  forest_ok pre -> Forall (fun y => (k < y.1)%nat) pre ->
  MMR.merge (S fuel) (fnodes pre ++ flatten t) (fsize pre + psize k - 1) k =
  Some (fnodes pre ++ flatten t).
Proof.
  intros Hok Hlt. cbn [MMR.merge]. rewrite psize_shift. pose proof (psize_pos k).
  destruct pre as [|[h1 t1] pre _] using rev_ind.
  - change (fsize []) with 0. by destruct (Z.ltb_spec (0 + psize k - 1) (psize k)); [|lia].
  - pose proof (peak_height pre (h1, t1) [] Hok) as Hpk. simpl in Hpk.
    apply Forall_app in Hlt as [_ Hlt]. rewrite Forall_singleton in Hlt. simpl in Hlt.
    pose proof (psize_pos h1). pose proof (fsize_nonneg pre). rewrite fsize_app, fsize_one. cbn [fst].
    destruct (Z.ltb_spec (fsize pre + psize h1 + psize k - 1) (psize k)); [lia|].
    replace (fsize pre + psize h1 + psize k - 1 - psize k) with (fsize pre + psize h1 - 1) by lia.
    rewrite Hpk. by destruct (Z.eqb_spec h1 k); [lia|].
Qed.

Lemma forest_ok_heights pre x : forest_ok (pre ++ [x]) -> Forall (fun y => (x.1 < y.1)%nat) pre.
Proof.
  intros [_ Hs _]. apply StronglySorted_app in Hs as (Hs & _). apply Forall_forall. intros y Hy.
  apply (Hs y x); [done|by apply list_elem_of_singleton].
Qed.

Lemma pow_bound (k : nat) n : 0 <= n -> n + 2 ^ k < 2 ^ 62 -> (k < 62)%nat.
Proof.
  intros Hn Hk. destruct (decide (k < 62)%nat); [done|].
  pose proof (Z.pow_le_mono_r 2 62 k). lia.
Qed.

Lemma merge_forest pre k t :
  forall fuel, (length pre < fuel)%nat -> forest_ok pre -> perfect k t -> fcount pre + 2 ^ k < 2 ^ 62 ->
  Forall (fun y => (k <= y.1)%nat) pre ->
  exists f, MMR.merge fuel (fnodes pre ++ flatten t) (fsize pre + psize k - 1) k = Some (fnodes f) /\
    forest_ok f /\ fleaves f = fleaves pre ++ tleaves t.
Proof.
  revert k t. induction pre as [|[h1 t1] pre IH] using rev_ind; intros k t fuel Hfuel Hok Ht Hk Hle;
    (destruct fuel as [|fuel]; [lia|]); pose proof (pow_bound k _ (fcount_nonneg _) Hk) as Hk62.
  - exists [(k, t)]. rewrite merge_stop by done. rewrite fnodes_one, fleaves_one.
    split_and!; [done| |done]. by apply (forest_ok_snoc []).
  - pose proof (forest_ok_heights pre _ Hok) as Hh. simpl in Hh.
    destruct (decide (h1 = k)) as [->|Hne].
    + rewrite merge_equal by done. rewrite length_app in Hfuel. simpl in Hfuel.
      rewrite fcount_app in Hk. change (fcount [(k, t1)]) with (2 ^ k + 0) in Hk.
      destruct (IH (S k) (Node t1 t) fuel) as (f & Hm & Hf & Hl);
        [lia|by apply forest_ok_app in Hok as [? _]| | |done|].
      * constructor; [|done]. destruct Hok as [Hp _ _]. apply Forall_app in Hp as [_ Hp].
        by rewrite Forall_singleton in Hp.
      * rewrite Nat2Z.inj_succ, Z.pow_succ_r by lia. lia.
      * exists f. split_and!; [done..|]. rewrite Hl, fleaves_app, fleaves_one. cbn [tleaves snd].
        by rewrite app_assoc.
    + assert (Forall (fun y => (k < y.1)%nat) (pre ++ [(h1, t1)])) as Hlt.
      { apply Forall_app in Hle as [_ Hle]. rewrite Forall_singleton in Hle. simpl in Hle.
        apply Forall_app. split; [|apply Forall_singleton; simpl; lia].
        eapply Forall_impl; [done|]. simpl. lia. }
      exists ((pre ++ [(h1, t1)]) ++ [(k, t)]). rewrite merge_stop by done.
      rewrite (fnodes_app (pre ++ _)), fnodes_one, (fleaves_app (pre ++ _)), fleaves_one.
      split_and!; [done| |done]. by apply forest_ok_snoc.
Qed.

(** ** Ranges *)

(** The range [m] holds [leaves]. *)
Definition holds (m : MerkleMountainRange) (f : forest) (leaves : list ContentHash) : Prop :=
  forest_ok f /\ nodes m = fnodes f /\ fleaves f = leaves /\ num_leaves m = zlen leaves.

Lemma holds_count m f leaves : holds m f leaves -> fcount f = num_leaves m.
Proof. intros (Hok & _ & <- & ->). symmetry. apply zlen_fleaves, Hok. Qed.

Lemma holds_size m f leaves :
  holds m f leaves -> zlen (nodes m) = fsize f /\ fsize f = mmr_size (num_leaves m).
Proof.
  intros Hm. pose proof Hm as (Hok & -> & _). rewrite <- (holds_count m f leaves Hm).
  split; [apply zlen_fnodes, Hok|by rewrite mmr_size_forest].
Qed.

Lemma holds_new e : holds (MMR.new e) [] [].
Proof. split_and!; [|done..]. split; constructor. Qed.

Lemma append_holds m f leaves h :
  holds m f leaves -> num_leaves m + 1 < 2 ^ 62 ->
  exists m' f', MMR.append m h = Some (m', mmr_size (num_leaves m)) /\
    holds m' f' (leaves ++ [h]) /\ epoch_id m' = epoch_id m.
Proof.
  intros Hm Hn. pose proof (holds_count m f leaves Hm) as Hc.
  destruct (holds_size m f leaves Hm) as [Hsz Hsz']. destruct Hm as (Hok & En & El & Ec).
  destruct (merge_forest f 0 (Leaf h) 64) as (f' & Hmg & Hf' & Hl'); [|done|constructor| | |].
  - destruct (fsize_top f Hok). lia.
  - rewrite Hc. change (2 ^ 0%nat) with 1. lia.
  - apply Forall_true. intros y. lia.
  - unfold MMR.append. rewrite Hsz, En. rewrite psize_0 in Hmg.
    replace (fsize f + 1 - 1) with (fsize f) in Hmg by lia. cbn [flatten] in Hmg.
    change (Z.of_nat 0) with 0 in Hmg. rewrite Hmg. cbn [mbind option_bind].
    eexists _, f'. rewrite Hsz'. split_and!; [done| |done].
    split_and!; [done..| |]; cbn [num_leaves].
    + by rewrite Hl', El.
    + rewrite zlen_app, Ec. done.
Qed.

(** ** Nodes inside a mountain

    A node is a subtree [u] in a context: the siblings on the way up, innermost
    first; [true] marks that the node is a left child. *)

Definition ctx := list (bool * tree).

Fixpoint plug (c : ctx) (u : tree) : tree :=
  match c with
  | [] => u
  | (b, s) :: c => plug c (if b then Node u s else Node s u)
  end.

(** A context for subtrees of height [h] in a tree of height [H]. *)
Fixpoint ctx_ok (h H : nat) (c : ctx) : Prop :=
  match c with
  | [] => h = H
  | (_, s) :: c => perfect h s /\ ctx_ok (S h) H c
  end.

(** How many nodes come before the subtree, and which leaf it is. *)
Fixpoint cstart (h : nat) (c : ctx) : Z :=
  match c with
  | [] => 0
  | (b, _) :: c => cstart (S h) c + (if b then 0 else psize h)
  end.

Fixpoint cidx (c : ctx) : Z :=
  match c with [] => 0 | (b, _) :: c => 2 * cidx c + (if b then 0 else 1) end.

Lemma cidx_nonneg c : 0 <= cidx c.
Proof. induction c as [|[b s] c IH]; simpl; [done|]. destruct b; lia. Qed.

Lemma cstart_nonneg h c : 0 <= cstart h c.
Proof.
  revert h. induction c as [|[b s] c IH]; intros h; cbn [cstart]; [done|].
  specialize (IH (S h)). pose proof (psize_pos h). destruct b; lia.
Qed.

Lemma cstart_cidx h c : cstart h c = 2 ^ Z.of_nat (S h) * cidx c - count_ones (cidx c).
Proof.
  revert h. induction c as [|[b s] c IH]; intros h; cbn [cstart cidx];
    [rewrite Z.mul_0_r; done|].
  rewrite IH, Nat2Z.inj_succ, Z.pow_succ_r by lia. pose proof (cidx_nonneg c). destruct b.
  - rewrite !Z.add_0_r, count_ones_even by done. lia.
  - rewrite count_ones_odd by done. unfold psize. lia.
Qed.

Lemma plug_app c1 c2 u : plug (c1 ++ c2) u = plug c2 (plug c1 u).
Proof. revert u. induction c1 as [|[b s] c1 IH]; intros u; simpl; auto. Qed.

Lemma ctx_ok_app h k H c1 c2 : ctx_ok h k c1 -> ctx_ok k H c2 -> ctx_ok h H (c1 ++ c2).
Proof.
  revert h. induction c1 as [|[b s] c1 IH]; intros h; simpl; [by intros ->|]. naive_solver.
Qed.

Lemma ctx_ok_length h H c : ctx_ok h H c -> (h + length c = H)%nat.
Proof.
  revert h. induction c as [|[b s] c IH]; intros h; simpl; [lia|]. intros [_ Hc]. apply IH in Hc. lia.
Qed.

Lemma cidx_app c1 c2 : cidx (c1 ++ c2) = cidx c1 + 2 ^ Z.of_nat (length c1) * cidx c2.
Proof.
  induction c1 as [|[b s] c1 IH]; [simpl; lia|].
  cbn [app cidx length]. rewrite IH, Nat2Z.inj_succ, Z.pow_succ_r by lia. lia.
Qed.

Lemma plug_perfect h H c u : ctx_ok h H c -> perfect h u -> perfect H (plug c u).
Proof.
  revert h u. induction c as [|[b s] c IH]; intros h u; simpl; [by intros ->|].
  intros [Hs Hc] Hu. apply (IH (S h)); [done|]. destruct b; by constructor.
Qed.

(** Where the subtree lies in the listing. *)
Lemma flatten_plug h H c u : ctx_ok h H c -> perfect h u ->
  exists before after, flatten (plug c u) = before ++ flatten u ++ after /\ zlen before = cstart h c.
Proof.
  revert h u. induction c as [|[b s] c IH]; intros h u Hc Hu; simpl in Hc.
  - exists [], []. cbn [plug cstart]. by rewrite app_nil_r.
  - destruct Hc as [Hs Hc]. cbn [plug cstart].
    destruct (IH (S h) (if b then Node u s else Node s u) Hc) as (x & y & E & Hx);
      [by destruct b; constructor|]. rewrite E. destruct b; cbn [flatten].
    + eexists x, _. split; [by rewrite <- !app_assoc|]. rewrite Hx. lia.
    + eexists (x ++ flatten s), _. split; [by rewrite <- !app_assoc|].
      rewrite zlen_app, Hx, (zlen_flatten h s) by done. lia.
Qed.

(** Every leaf has a context. *)
Lemma leaf_ctx H t i x : perfect H t -> tleaves t !! i = Some x ->
  exists c, ctx_ok 0 H c /\ plug c (Leaf x) = t /\ cidx c = Z.of_nat i.
Proof.
  intros Ht. revert i. induction Ht as [h|k l r Hl IHl Hr IHr]; intros i; cbn [tleaves].
  - intros [-> ->]%list_lookup_singleton_Some. by exists [].
  - pose proof (zlen_tleaves k l Hl) as Hlen. unfold zlen in Hlen. intros Hi.
    apply lookup_app_Some in Hi as [Hi|[Hge Hi]].
    + destruct (IHl i Hi) as (c & Hc & Hp & Hx). exists (c ++ [(true, r)]). split_and!.
      * eapply ctx_ok_app; [done|]. simpl. done.
      * by rewrite plug_app, Hp.
      * rewrite cidx_app, Hx. simpl. lia.
    + destruct (IHr _ Hi) as (c & Hc & Hp & Hx). exists (c ++ [(false, l)]). split_and!.
      * eapply ctx_ok_app; [done|]. simpl. done.
      * by rewrite plug_app, Hp.
      * rewrite cidx_app, Hx. apply ctx_ok_length in Hc. simpl in Hc. rewrite Hc. simpl. lia.
Qed.

(** ** Walking up *)

Section walk.
Context (pre post : forest) (H : nat).

Definition position (h : nat) (c : ctx) : Z := fsize pre + cstart h c + psize h - 1.

(** The forest in which the mountain is [plug c u]. *)
Definition around (c : ctx) (u : tree) : forest := pre ++ (H, plug c u) :: post.

Record located (h : nat) (c : ctx) (u : tree) : Prop := {
  loc_forest : forest_ok (around c u);
  loc_ctx : ctx_ok h H c;
  loc_perfect : perfect h u;
}.

Lemma around_size c u : fsize (around c u) = fsize pre + psize H + fsize post.
Proof. unfold around. rewrite fsize_app, fsize_cons. simpl. lia. Qed.

(** The node is in the vector, at its position. *)
Lemma located_node h c u :
  located h c u -> node_at (fnodes (around c u)) (position h c) = Some (thash u).
Proof.
  intros [Hok Hc Hu]. unfold around in *. change ((H, plug c u) :: post) with ([(H, plug c u)] ++ post) in *.
  destruct (forest_ok_app _ _ Hok) as [Hpre _].
  rewrite !fnodes_app, fnodes_one. cbn [snd].
  destruct (flatten_plug h H c u Hc Hu) as (x & y & E & Hx). rewrite E, <- !app_assoc, app_assoc.
  replace (position h c) with (zlen (fnodes pre ++ x) + psize h - 1).
  - by apply node_at_root.
  - unfold position. rewrite zlen_app, Hx, zlen_fnodes by apply Hpre. lia.
Qed.

Lemma located_up h b s c u :
  located h ((b, s) :: c) u -> located (S h) c (if b then Node u s else Node s u).
Proof.
  intros [Hok [Hs Hc] Hu]. split; [done|done|]. destruct b; by constructor.
Qed.

(** The sibling, with the node as its own sibling. *)
Lemma located_sibling h b s c u :
  located h ((b, s) :: c) u -> located h ((negb b, u) :: c) s /\
  around ((negb b, u) :: c) s = around ((b, s) :: c) u.
Proof.
  intros [Hok [Hs Hc] Hu]. assert (around ((negb b, u) :: c) s = around ((b, s) :: c) u) as E
    by (unfold around; destruct b; done).
  split; [|done]. split; [by rewrite E|done|done].
Qed.

Lemma located_range h c u : located h c u -> 0 <= position h c < psize top /\
  position h c < fsize (around c u).
Proof.
  intros Hl. pose proof (located_node h c u Hl) as Hn. destruct Hl as [Hok Hc Hu].
  apply lookup_lt_Some in Hn. pose proof (zlen_fnodes _ (fo_perfect _ Hok)) as Hz.
  destruct (fsize_top _ Hok) as [Ht _]. pose proof (fsize_nonneg pre). pose proof (cstart_nonneg h c).
  pose proof (psize_pos h). unfold zlen in Hz. unfold position in *. lia.
Qed.

Lemma located_height h c u : located h c u -> pos_height (position h c) = h.
Proof.
  revert h u. induction c as [|[b s] c IH]; intros h u Hl.
  - destruct Hl as [Hok Hc Hu]. simpl in Hc. unfold position. cbn [cstart].
    rewrite Z.add_0_r, Hc. apply (peak_height pre (H, u) post Hok).
  - pose proof (IH _ _ (located_up _ _ _ _ _ Hl)) as Hp.
    destruct (located_range _ _ _ (located_up _ _ _ _ _ Hl)) as [Hr _].
    destruct (pos_height_children _ _ Hr Hp) as [H1 H2].
    destruct b.
    + etransitivity; [|exact H2]. f_equal. unfold position. cbn [cstart]. rewrite psize_S. lia.
    + etransitivity; [|exact H1]. f_equal. unfold position. cbn [cstart]. rewrite psize_S. lia.
Qed.

(** A left child finds its sibling to the right. *)
Lemma step_up_left h s c u :
  located h ((true, s) :: c) u ->
  step_up (fsize (around ((true, s) :: c) u)) (position h ((true, s) :: c)) h =
  LeftChild (position h ((false, u) :: c)) (position (S h) c).
Proof.
  intros Hl. destruct (located_sibling _ _ _ _ _ Hl) as [Hs E]. simpl in Hs, E.
  pose proof (located_height _ _ _ Hs) as Hh. destruct (located_range _ _ _ Hs) as [_ Hr].
  rewrite E in Hr. unfold step_up. rewrite psize_shift.
  replace (position h ((true, s) :: c) + psize h) with (position h ((false, u) :: c))
    by (unfold position; cbn [cstart]; lia).
  destruct (Z.ltb_spec (position h ((false, u) :: c)) (fsize (around ((true, s) :: c) u))); [|lia].
  rewrite Hh, Z.eqb_refl. cbn [andb]. f_equal. unfold position. cbn [cstart]. rewrite psize_S. lia.
Qed.

(** A right child finds its sibling to the left: what lies to the right at
    that distance is not of its height, since its parent comes next. *)
Lemma step_up_right h s c u :
  located h ((false, s) :: c) u ->
  step_up (fsize (around ((false, s) :: c) u)) (position h ((false, s) :: c)) h =
  RightChild (position h ((true, u) :: c)) (position (S h) c).
Proof.
  intros Hl. destruct (located_sibling _ _ _ _ _ Hl) as [Hs _]. simpl in Hs.
  pose proof (located_height _ _ _ Hs) as Hh. destruct (located_range _ _ _ Hs) as [Hr _].
  destruct (located_range _ _ _ Hl) as [Hrl _].
  pose proof (located_height _ _ _ (located_up _ _ _ _ _ Hl)) as Hp.
  assert (position (S h) c = position h ((false, s) :: c) + 1) as Ep
    by (unfold position; cbn [cstart]; rewrite psize_S; lia).
  assert (position h ((true, u) :: c) = position h ((false, s) :: c) - psize h) as Es
    by (unfold position; cbn [cstart]; lia).
  unfold step_up. rewrite psize_shift. set (p := position h ((false, s) :: c)) in *.
  destruct (Z.ltb_spec (p + psize h) (fsize (around ((false, s) :: c) u))) as [Hlt|]; cbn [andb].
  - destruct (fsize_top _ (loc_forest _ _ _ Hl)) as [Ht _].
    destruct (Z.eqb_spec (pos_height (p + psize h)) h) as [E|_].
    + exfalso. pose proof (psize_pos h).
      destruct (pos_height_first (p + psize h) h ltac:(lia) E) as [_ Hf].
      replace (p + psize h + 1 - psize h) with (p + 1) in Hf by lia.
      rewrite <- Ep, Hp in Hf. lia.
    + destruct (Z.leb_spec (psize h) p); [|lia]. by rewrite <- Es, Hh, Z.eqb_refl, Ep.
  - destruct (Z.leb_spec (psize h) p); [|lia]. by rewrite <- Es, Hh, Z.eqb_refl, Ep.
Qed.

(** A mountain top has no sibling. *)
Lemma step_up_peak u : located H [] u -> step_up (fsize (around [] u)) (position H []) H = AtPeak.
Proof.
  intros [Hok _ _]. unfold step_up. rewrite psize_shift, around_size.
  unfold around, position in *. cbn [cstart plug] in *. rewrite Z.add_0_r.
  pose proof (psize_pos H). pose proof (fsize_nonneg post). pose proof (fsize_nonneg pre).
  assert (fsize post < psize H) as Hpost.
  { destruct (forest_ok_app _ _ Hok) as [_ Hr]. by destruct (fsize_rest _ _ Hr). }
  destruct (Z.ltb_spec (fsize pre + psize H - 1 + psize H) (fsize pre + psize H + fsize post)); [lia|].
  cbn [andb]. destruct (Z.leb_spec (psize H) (fsize pre + psize H - 1)); [|done].
  destruct pre as [|[h1 t1] pre' _] eqn:E using rev_ind; [change (fsize []) with 0 in *; lia|].
  rewrite fsize_app, fsize_one. cbn [fst].
  rewrite <- app_assoc in Hok. pose proof (peak_height pre' (h1, t1) _ Hok) as Hp. cbn [fst] in Hp.
  replace (fsize pre' + psize h1 + psize H - 1 - psize H) with (fsize pre' + psize h1 - 1) by lia.
  rewrite Hp. destruct (Z.eqb_spec h1 H) as [E'|]; [|done].
  destruct (forest_ok_app _ _ Hok) as [_ [_ Hs _]]. apply StronglySorted_inv in Hs as [_ Hs].
  apply Forall_cons in Hs as [Ha _]. unfold above in Ha. cbn in Ha. lia.
Qed.
End walk.
