(* ===== verification/MmrCorrect.v ===== *)
(** * Correctness of Merkle mountain ranges

    Appending keeps the range the listing of its forest, honest inclusion and
    consistency proofs verify, and an inclusion proof that verifies against the
    root of a range proves membership unless it exhibits a collision of the
    hash function.  The last theorem shows what consistency verification does
    not check. *)
From stdpp Require Import base numbers list sets sorting strings.
From Stdlib Require Import Strings.Byte.
From S2P Require Import Prelude Bytes HashTiers Mmr MmrForest.
Open Scope Z_scope.

#[local] Coercion Z.of_nat : nat >-> Z.
#[local] Opaque ContentHash_compute.

(** ** Ranges built by appending *)

Fixpoint extend (m : MerkleMountainRange) (leaves : list ContentHash) : option MerkleMountainRange :=
  match leaves with
  | [] => Some m
  | h :: leaves => '(m, _) ← MMR.append m h; extend m leaves
  end.

Definition build (epoch : Z) (leaves : list ContentHash) : option MerkleMountainRange :=
  extend (MMR.new epoch) leaves.

Lemma extend_app m l1 l2 : extend m (l1 ++ l2) = m' ← extend m l1; extend m' l2.
Proof.
  revert m. induction l1 as [|h l1 IH]; intros m; [done|]. cbn [app extend].
  destruct (MMR.append m h) as [[m' p]|]; [apply IH|done].
Qed.

Lemma extend_holds m f done_ leaves :
  holds m f done_ -> zlen (done_ ++ leaves) < 2 ^ 62 ->
  exists m' f', extend m leaves = Some m' /\ holds m' f' (done_ ++ leaves) /\ epoch_id m' = epoch_id m.
Proof.
  revert m f done_. induction leaves as [|h leaves IH]; intros m f done_ Hm Hn.
  - rewrite app_nil_r. by exists m, f.
  - rewrite zlen_app, zlen_cons in Hn. pose proof (zlen_nonneg leaves).
    destruct (append_holds m f done_ h Hm) as (m1 & f1 & Ha & Hm1 & He).
    { destruct Hm as (_ & _ & _ & ->). lia. }
    destruct (IH m1 f1 (done_ ++ [h]) Hm1) as (m' & f' & Hx & Hm' & He').
    { rewrite !zlen_app. change (zlen [h]) with 1. lia. }
    exists m', f'. cbn [extend]. rewrite Ha. cbn [mbind option_bind].
    rewrite <- app_assoc in Hm'. split_and!; [done..|congruence].
Qed.

Lemma build_holds e leaves m :
  zlen leaves < 2 ^ 62 -> build e leaves = Some m -> exists f, holds m f leaves /\ epoch_id m = e.
Proof.
  intros Hn Hb. destruct (extend_holds (MMR.new e) [] [] leaves (holds_new e)) as (m' & f & Hm & Hh & He);
    [done|]. unfold build in Hb. rewrite Hm in Hb. injection Hb as ->. by exists f.
Qed.

Lemma build_exists e leaves : zlen leaves < 2 ^ 62 -> is_Some (build e leaves).
Proof.
  intros Hn. destruct (extend_holds (MMR.new e) [] [] leaves (holds_new e)) as (m' & f & Hm & _);
    [done|]. by exists m'.
Qed.

Lemma merge_prefix fuel ns p h ns' : MMR.merge fuel ns p h = Some ns' -> ns `prefix_of` ns'.
Proof.
  revert ns p h. induction fuel as [|fuel IH]; intros ns p h; [done|]. cbn [MMR.merge].
  destruct (_ <? _); [by intros [= ->]|]. destruct (negb _); [by intros [= ->]|].
  destruct (node_at ns (p - _)) as [l|]; [|done]. cbn [mbind option_bind].
  destruct (node_at ns p) as [r|]; [|done]. cbn [mbind option_bind].
  intros Hm. apply IH in Hm. etransitivity; [|done]. by apply prefix_app_r.
Qed.

Lemma append_prefix m h m' p : MMR.append m h = Some (m', p) -> nodes m `prefix_of` nodes m'.
Proof.
  unfold MMR.append. destruct (MMR.merge _ _ _ _) as [ns|] eqn:E; [|done]. cbn [mbind option_bind].
  intros [= <- _]. apply merge_prefix in E. etransitivity; [|done]. by apply prefix_app_r.
Qed.

Lemma extend_prefix m leaves m' : extend m leaves = Some m' -> nodes m `prefix_of` nodes m'.
Proof.
  revert m. induction leaves as [|h leaves IH]; intros m; cbn [extend]; [by intros [= ->]|].
  destruct (MMR.append m h) as [[m1 p]|] eqn:E; [|done]. cbn [mbind option_bind]. intros Hx.
  apply IH in Hx. apply append_prefix in E. by etransitivity.
Qed.

(** ** Leaves *)

Lemma count_ones_before pre (H : nat) j :
  StronglySorted above pre -> Forall (fun y => (H < y.1)%nat) pre -> 0 <= j < 2 ^ H ->
  count_ones (fcount pre + j) = length pre + count_ones j.
Proof.
  intros Hs. revert j. induction Hs as [|x pre Hs IH Hx]; intros j Hh Hj; [done|].
  apply Forall_cons in Hh as [Hxh Hh].
  assert (fcount pre + j < 2 ^ Z.of_nat x.1) as Hlt.
  { clear -Hs Hx Hh Hj Hxh. revert x Hx Hxh. induction Hs as [|y pre Hs IH Hy]; intros x Hx Hxh.
    - change (fcount []) with 0. assert (2 ^ H <= 2 ^ Z.of_nat x.1) by (apply Z.pow_le_mono_r; lia). lia.
    - apply Forall_cons in Hx as [Hxy _]. apply Forall_cons in Hh as [Hyh Hh].
      specialize (IH Hh y Hy Hyh). rewrite fcount_cons. unfold above in Hxy.
      assert (2 ^ Z.of_nat (S y.1) <= 2 ^ Z.of_nat x.1) by (apply Z.pow_le_mono_r; lia).
      rewrite Nat2Z.inj_succ, Z.pow_succ_r in * by lia. lia. }
  rewrite fcount_cons, <- Z.add_assoc, count_ones_top, IH
    by (done || pose proof (fcount_nonneg pre); lia).
  simpl length. lia.
Qed.

Lemma forest_leaf f i x : fleaves f !! i = Some x ->
  exists pre y post j, f = pre ++ y :: post /\ tleaves y.2 !! j = Some x /\
    i = (length (fleaves pre) + j)%nat.
Proof.
  revert i. induction f as [|y f IH]; intros i; [done|].
  change (fleaves (y :: f)) with (tleaves y.2 ++ fleaves f).
  intros [Hi|[Hge Hi]]%lookup_app_Some.
  - exists [], y, f, i. done.
  - destruct (IH _ Hi) as (pre & z & post & j & -> & Hz & Hj).
    exists (y :: pre), z, post, j. split_and!; [done..|].
    change (fleaves (y :: pre)) with (tleaves y.2 ++ fleaves pre). rewrite length_app. lia.
Qed.

(** The mountain and the context of a leaf. *)
Lemma leaf_located f (i : nat) x :
  forest_ok f -> fleaves f !! i = Some x ->
  exists pre post H c, f = around pre post H c (Leaf x) /\ located pre post H 0 c (Leaf x) /\
    leaf_to_pos i = position pre 0 c.
Proof.
  intros Hok Hi. destruct (forest_leaf f i x Hi) as (pre & [H t] & post & j & -> & Hj & ->).
  cbn [snd] in Hj. assert (perfect H t) as Ht
    by (destruct Hok as [Hp _ _]; apply Forall_app in Hp as [_ Hp]; by apply Forall_cons in Hp as [? _]).
  destruct (leaf_ctx H t j x Ht Hj) as (c & Hc & <- & Hx).
  exists pre, post, H, c. split_and!; [done|by split; [|done|constructor]|].
  destruct (forest_ok_app _ _ Hok) as [[Hp Hs _] _].
  pose proof (zlen_fleaves pre Hp) as Hl. unfold zlen in Hl. rewrite Nat2Z.inj_add, Hl.
  assert (0 <= Z.of_nat j < 2 ^ H) as Hjb.
  { apply lookup_lt_Some in Hj. pose proof (zlen_tleaves H _ Ht) as Hz. unfold zlen in Hz. lia. }
  unfold leaf_to_pos, position. rewrite cstart_cidx, psize_0, fsize_fcount, Hx.
  rewrite (count_ones_before pre H); [change (2 ^ 1%nat) with 2; lia|done| |done].
  destruct Hok as [_ Hso _]. apply StronglySorted_app in Hso as (Hso & _).
  apply Forall_forall. intros y Hy. apply (Hso y (H, plug c (Leaf x))); [done|]. apply elem_of_cons. by left.
Qed.

(** Appending a leaf returns the position leaf_to_pos gives to it, keeps the old
    nodes as a prefix, makes the vector exactly mmr_size long, and afterwards every leaf
    ever appended is found at its computed position; the merging loop ends within the
    width of a position. *)
Theorem mmr_append_extends e leaves m h :
  build e leaves = Some m -> zlen leaves + 1 < 2 ^ 62 ->
  exists m', MMR.append m h = Some (m', leaf_to_pos (zlen leaves)) /\
    num_leaves m' = zlen leaves + 1 /\ zlen (nodes m') = mmr_size (zlen leaves + 1) /\
    nodes m `prefix_of` nodes m' /\
    forall i x, (leaves ++ [h]) !! i = Some x -> node_at (nodes m') (leaf_to_pos (Z.of_nat i)) = Some x.
Proof.
  intros Hb Hn. destruct (build_holds e leaves m ltac:(lia) Hb) as (f & Hm & _).
  pose proof Hm as (_ & _ & _ & Hc).
  destruct (append_holds m f leaves h Hm ltac:(lia)) as (m' & f' & Ha & Hm' & _).
  exists m'. rewrite Hc in Ha. pose proof (append_prefix _ _ _ _ Ha) as Hp.
  destruct (holds_size _ _ _ Hm') as [Hs1 Hs2]. pose proof Hm' as (Hok & En & El & Hc').
  rewrite zlen_app in Hc'. change (zlen [h]) with 1 in Hc'. rewrite Hc' in Hs2.
  split_and!; [|done|by rewrite Hs1, Hs2|done|].
  - rewrite Ha. do 2 f_equal. unfold mmr_size, leaf_to_pos. by destruct (Z.eqb_spec (zlen leaves) 0) as [->|].
  - intros i x Hi. rewrite <- El in Hi.
    destruct (leaf_located f' i x Hok Hi) as (pre & post & H & c & Ef & Hl & ->).
    rewrite En, Ef. apply (located_node pre post H 0 c (Leaf x) Hl).
Qed.

(** ** Hash chains

    Both the walk up a mountain and the bagging of the peaks fold a list of
    hashes into one, each from the left or from the right. *)

Definition chain_step (c : ContentHash) (s : bool * ContentHash) : ContentHash :=
  if s.1 then hash_pair c s.2 else hash_pair s.2 c.

Definition run (c : ContentHash) (steps : list (bool * ContentHash)) : ContentHash :=
  fold_left chain_step steps c.

(** The byte strings a chain hashes. *)
Fixpoint run_inputs (c : ContentHash) (steps : list (bool * ContentHash)) : list (list byte) :=
  match steps with
  | [] => []
  | s :: steps => (if s.1 then c ++ s.2 else s.2 ++ c) :: run_inputs (chain_step c s) steps
  end.

Definition bag_steps (peaks : list ContentHash) : list (bool * ContentHash) :=
  match rev peaks with [] => [] | _ :: rest => (fun p => (false, p)) <$> rest end.

Definition bag_start (peaks : list ContentHash) : ContentHash :=
  match rev peaks with [] => zero_hash | last :: _ => last end.

Definition bag_inputs (peaks : list ContentHash) : list (list byte) :=
  run_inputs (bag_start peaks) (bag_steps peaks).

Lemma bag_peaks_run peaks : bag_peaks peaks = run (bag_start peaks) (bag_steps peaks).
Proof.
  unfold bag_peaks, bag_start, bag_steps. destruct (rev peaks) as [|last rest]; [done|].
  revert last. induction rest as [|p rest IH]; intros last; [done|]. cbn [fold_left fmap list_fmap].
  rewrite IH. done.
Qed.

(** Two byte strings at the same place of two lists that collide. *)
Definition collides (xs ys : list (list byte)) : Prop :=
  exists k x y, xs !! k = Some x /\ ys !! k = Some y /\ x <> y /\
    ContentHash_compute x = ContentHash_compute y.

Lemma collides_here x y xs ys :
  x <> y -> ContentHash_compute x = ContentHash_compute y -> collides (x :: xs) (y :: ys).
Proof. intros Hne Heq. exists 0%nat, x, y. split_and!; [reflexivity|reflexivity|exact Hne|exact Heq]. Qed.
Lemma collides_later x y xs ys : collides xs ys -> collides (x :: xs) (y :: ys).
Proof. intros (k & a & b & H). by exists (S k), a, b. Qed.
Lemma collides_app_l xs ys xs' ys' : collides xs ys -> collides (xs ++ xs') (ys ++ ys').
Proof.
  intros (k & a & b & Ha & Hb & H). exists k, a, b.
  split_and!; [by apply lookup_app_l_Some|by apply lookup_app_l_Some|apply H|apply H].
Qed.
Lemma collides_app_r xs ys xs' ys' :
  length xs = length ys -> collides xs' ys' -> collides (xs ++ xs') (ys ++ ys').
Proof.
  intros Hl (k & a & b & Ha & Hb & H). exists (length xs + k)%nat, a, b.
  rewrite !lookup_app_r by lia. rewrite <- Hl.
  replace (length xs + k - length xs)%nat with k by lia. split_and!; [exact Ha|exact Hb|apply H|apply H].
Qed.

Lemma chain_step_wf c s : hash_wf (chain_step c s).
Proof. unfold chain_step, hash_pair. destruct s.1; apply ContentHash_wf. Qed.

(** Chains with the same result started and went on alike, or collide. *)
Lemma run_inj dirs c1 c2 hs1 hs2 :
  length hs1 = length dirs -> length hs2 = length dirs ->
  hash_wf c1 -> hash_wf c2 -> Forall hash_wf hs1 -> Forall hash_wf hs2 ->
  run c1 (zip dirs hs1) = run c2 (zip dirs hs2) ->
  (c1 = c2 /\ hs1 = hs2) \/ collides (run_inputs c1 (zip dirs hs1)) (run_inputs c2 (zip dirs hs2)).
Proof.
  revert c1 c2 hs1 hs2. induction dirs as [|b dirs IH]; intros c1 c2 [|h1 hs1] [|h2 hs2];
    intros Hl1 Hl2 Hc1 Hc2 Hw1 Hw2; try discriminate; [by left|].
  injection Hl1 as Hl1. injection Hl2 as Hl2.
  apply Forall_cons in Hw1 as [Hh1 Hw1]. apply Forall_cons in Hw2 as [Hh2 Hw2].
  cbn [zip zip_with run_inputs run fold_left]. intros Hr.
  destruct (IH (chain_step c1 (b, h1)) (chain_step c2 (b, h2)) hs1 hs2) as [[Hs ->]|Hcol];
    [done|done|apply chain_step_wf|apply chain_step_wf|done|done|done| |by right; apply collides_later].
  set (x := if b then c1 ++ h1 else h1 ++ c1). set (y := if b then c2 ++ h2 else h2 ++ c2).
  assert (ContentHash_compute x = ContentHash_compute y) as Hxy
    by (subst x y; unfold chain_step, hash_pair in Hs; cbn [fst snd] in Hs; by destruct b).
  destruct (decide (x = y)) as [E|E]; [left|right; by apply collides_here].
  clear Hxy Hs Hr IH. unfold hash_wf in *. subst x y.
  destruct b; apply app_inj_1 in E as [-> ->]; (lia || split; reflexivity).
Qed.

Lemma run_inputs_length c steps : length (run_inputs c steps) = length steps.
Proof. revert c. induction steps; intros c; simpl; auto. Qed.

Lemma bag_inj ps1 ps2 :
  length ps1 = length ps2 -> Forall hash_wf ps1 -> Forall hash_wf ps2 ->
  bag_peaks ps1 = bag_peaks ps2 -> ps1 = ps2 \/ collides (bag_inputs ps1) (bag_inputs ps2).
Proof.
  intros Hl H1 H2. rewrite !bag_peaks_run. unfold bag_inputs, bag_start, bag_steps, ContentHash in *.
  assert (length (rev ps1) = length (rev ps2)) as Hr by by rewrite !length_rev.
  apply Forall_rev in H1. apply Forall_rev in H2.
  destruct (rev ps1) as [|l1 r1] eqn:E1, (rev ps2) as [|l2 r2] eqn:E2; try discriminate Hr.
  - intros _. left. rewrite <- (rev_involutive ps1), <- (rev_involutive ps2), E1, E2. done.
  - apply Forall_cons in H1 as [Hl1 Hr1]. apply Forall_cons in H2 as [Hl2 Hr2].
    injection Hr as Hr. intros Hrun.
    assert (forall r : list (list byte),
      (fun p => (false, p)) <$> r = zip (replicate (length r) false) r) as Hz.
    { induction r as [|p r IH]; [done|]. cbn. by rewrite IH. }
    rewrite !Hz in Hrun |- *. rewrite Hr in Hrun |- *.
    destruct (run_inj (replicate (length r2) false) l1 l2 r1 r2) as [[-> ->]|Hc];
      rewrite ?length_replicate; try done; [left|by right].
    rewrite <- (rev_involutive ps1), <- (rev_involutive ps2), E1, E2. done.
Qed.

(** ** The walks *)

Section walks.
Context (pre post : forest) (H : nat).

(** [step_up] along a context. *)
Lemma step_up_located h b s c u :
  located pre post H h ((b, s) :: c) u ->
  step_up (fsize (around pre post H ((b, s) :: c) u)) (position pre h ((b, s) :: c)) h =
  (if b then LeftChild else RightChild) (position pre h ((negb b, u) :: c)) (position pre (S h) c).
Proof. destruct b; [apply step_up_left|apply step_up_right]. Qed.

Lemma located_top u h : located pre post H h [] u -> h = H.
Proof. by intros [_ Hc _]. Qed.

Lemma siblings_located fuel c h u :
  located pre post H h c u -> (length c < fuel)%nat ->
  MMR.siblings fuel (fnodes (around pre post H c u)) (fsize (around pre post H c u)) (position pre h c) h =
  Some ((fun x => thash x.2) <$> c, position pre H []).
Proof.
  revert c h u. induction fuel as [|fuel IH]; intros c h u Hl Hf; [lia|]. cbn [MMR.siblings].
  destruct c as [|[b s] c].
  - pose proof (located_top u h Hl) as ->. by rewrite step_up_peak.
  - rewrite step_up_located by done. destruct (located_sibling _ _ _ _ _ _ _ _ Hl) as [Hs E].
    pose proof (located_node _ _ _ _ _ _ Hs) as Hn. rewrite E in Hn.
    pose proof (IH c (S h) _ (located_up _ _ _ _ _ _ _ _ Hl)) as Hw. simpl length in Hf.
    specialize (Hw ltac:(lia)). replace (Z.of_nat (S h)) with (h + 1) in Hw by lia.
    destruct b; cbn [negb] in *; rewrite Hn; cbn [mbind option_bind];
      (change (around pre post H ((_, s) :: c) u) with (around pre post H c (Node u s)) ||
       change (around pre post H ((_, s) :: c) u) with (around pre post H c (Node s u))); by rewrite Hw.
Qed.

(** What the walk over arbitrary proof hashes computes. *)
Lemma verify_walk_located fuel c h u cur hs :
  located pre post H h c u -> (length c < fuel)%nat ->
  verify_walk fuel (fsize (around pre post H c u)) (position pre h c) h cur hs =
  if (length hs <? length c)%nat then Some (Err (InvalidProof "not enough proof hashes"))
  else Some (Ok (position pre H [], run cur (zip c.*1 hs), drop (length c) hs)).
Proof.
  revert c h u cur hs. induction fuel as [|fuel IH]; intros c h u cur hs Hl Hf; [lia|].
  cbn [verify_walk]. destruct c as [|[b s] c].
  - pose proof (located_top u h Hl) as ->. by rewrite step_up_peak.
  - rewrite step_up_located by done. simpl length in Hf.
    pose proof (fun cur hs => IH c (S h) _ cur hs (located_up _ _ _ _ _ _ _ _ Hl) ltac:(lia)) as Hw.
    replace (Z.of_nat (S h)) with (h + 1) in Hw by lia.
    destruct hs as [|x hs]; [by destruct b|].
    destruct b; cbn [length fmap list_fmap zip zip_with drop fst];
      (change (around pre post H ((_, s) :: c) u) with (around pre post H c (Node u s)) ||
       change (around pre post H ((_, s) :: c) u) with (around pre post H c (Node s u))); rewrite Hw; done.
Qed.

(** The byte strings it hashes. *)
Fixpoint walk_inputs (fuel : nat) (size pos height : Z) (cur : ContentHash)
    (hashes : list ContentHash) : list (list byte) :=
  match fuel with
  | O => []
  | S fuel =>
      match step_up size pos height, hashes with
      | AtPeak, _ | _, [] => []
      | LeftChild _ parent, h :: hashes =>
          (cur ++ h) :: walk_inputs fuel size parent (height + 1) (hash_pair cur h) hashes
      | RightChild _ parent, h :: hashes =>
          (h ++ cur) :: walk_inputs fuel size parent (height + 1) (hash_pair h cur) hashes
      end
  end.

Lemma walk_inputs_located fuel c h u cur hs :
  located pre post H h c u -> (length c < fuel)%nat ->
  walk_inputs fuel (fsize (around pre post H c u)) (position pre h c) h cur hs = run_inputs cur (zip c.*1 hs).
Proof.
  revert c h u cur hs. induction fuel as [|fuel IH]; intros c h u cur hs Hl Hf; [lia|].
  cbn [walk_inputs]. destruct c as [|[b s] c].
  - pose proof (located_top u h Hl) as ->. by rewrite step_up_peak.
  - rewrite step_up_located by done. simpl length in Hf.
    pose proof (fun cur hs => IH c (S h) _ cur hs (located_up _ _ _ _ _ _ _ _ Hl) ltac:(lia)) as Hw.
    replace (Z.of_nat (S h)) with (h + 1) in Hw by lia.
    destruct hs as [|x hs]; [by destruct b|].
    destruct b; cbn [fmap list_fmap zip zip_with fst run_inputs snd];
      (change (around pre post H ((_, s) :: c) u) with (around pre post H c (Node u s)) ||
       change (around pre post H ((_, s) :: c) u) with (around pre post H c (Node s u))); rewrite Hw; done.
Qed.
End walks.

(** The honest chain computes the hash of the mountain. *)
Lemma run_plug c u : run (thash u) (zip c.*1 ((fun x => thash x.2) <$> c)) = thash (plug c u).
Proof.
  revert u. induction c as [|[b s] c IH]; intros u; [done|].
  cbn [fmap list_fmap zip zip_with fst snd plug]. unfold run in *. cbn [fold_left].
  rewrite <- IH. by destruct b.
Qed.

(** ** Peaks of a forest *)

Definition fpeaks (f : forest) : list ContentHash := (fun x => thash x.2) <$> f.

Lemma mapM_roots pre suf :
  forest_ok (pre ++ suf) -> mapM (node_at (fnodes (pre ++ suf))) (roots (fsize pre) suf) = Some (fpeaks suf).
Proof.
  revert pre. induction suf as [|[H t] suf IH]; intros pre Hok; [done|].
  assert (perfect H t) as Ht
    by (destruct Hok as [Hp _ _]; apply Forall_app in Hp as [_ Hp]; by apply Forall_cons in Hp as [? _]).
  assert (located pre suf H H [] t) as Hl by by split.
  pose proof (located_node _ _ _ _ _ _ Hl) as Hn. unfold around, position in Hn. cbn [cstart plug] in Hn.
  rewrite Z.add_0_r in Hn. cbn [roots mapM fst]. rewrite Hn. cbn [mbind option_bind].
  specialize (IH (pre ++ [(H, t)])). rewrite <- app_assoc, fsize_app, fsize_one in IH.
  cbn [app fst] in IH. rewrite IH by done. done.
Qed.

Lemma peaks_holds m f leaves : holds m f leaves -> MMR.peaks m = Some (fpeaks f).
Proof.
  intros Hm. destruct (holds_size _ _ _ Hm) as [Hs _]. destruct Hm as (Hok & En & _).
  unfold MMR.peaks. rewrite Hs, peak_positions_roots, En by done. apply (mapM_roots [] f Hok).
Qed.

Lemma root_holds m f leaves :
  holds m f leaves -> leaves <> [] -> MMR.root_hash m = Some (Ok (bag_peaks (fpeaks f))).
Proof.
  intros Hm Hne. pose proof Hm as (_ & _ & _ & Hn). unfold MMR.root_hash.
  rewrite (peaks_holds m f leaves Hm), Hn. destruct leaves; [done|]. rewrite zlen_cons.
  pose proof (zlen_nonneg leaves). by destruct (Z.eqb_spec (1 + zlen leaves) 0); [lia|].
Qed.

(** The roots other than one. *)
Lemma filter_roots pre x post :
  filter (fun p => p <> fsize pre + psize x.1 - 1) (roots 0 (pre ++ x :: post)) =
  roots 0 pre ++ roots (fsize pre + psize x.1) post.
Proof.
  pose proof (psize_pos x.1).
  rewrite roots_app, filter_app, Z.add_0_l. cbn [roots]. rewrite filter_cons_False by naive_solver.
  assert (forall off f, (forall p, p ∈ roots off f -> p <> fsize pre + psize x.1 - 1) ->
    filter (fun p => p <> fsize pre + psize x.1 - 1) (roots off f) = roots off f) as Hall.
  { intros off f. induction (roots off f) as [|p l IH]; intros Hf; [done|].
    rewrite filter_cons_True by (apply Hf; left). rewrite IH; [done|]. intros q Hq. apply Hf. by right. }
  f_equal; apply Hall; intros p Hp%roots_range; lia.
Qed.

Lemma mapM_others pre x post :
  forest_ok (pre ++ x :: post) ->
  mapM (node_at (fnodes (pre ++ x :: post))) (roots 0 pre ++ roots (fsize pre + psize x.1) post) =
  Some (fpeaks pre ++ fpeaks post).
Proof.
  intros Hok. pose proof (mapM_roots [] _ Hok) as H0. cbn [app] in H0. change (fsize []) with 0 in H0.
  rewrite roots_app, Z.add_0_l in H0. cbn [roots] in H0. unfold fpeaks in *. rewrite fmap_app in H0.
  apply mapM_Some in H0. apply Forall2_app_inv in H0 as [H1 H2].
  - apply Forall2_cons_1 in H2 as [_ H2]. apply mapM_Some. by apply Forall2_app.
  - clear. rewrite length_fmap. generalize 0. induction pre; intros z; simpl; auto.
Qed.

Lemma fill_peaks_other ps pos cur hs :
  (forall p, p ∈ ps -> p <> pos) ->
  fill_peaks ps pos cur hs =
  if (length hs <? length ps)%nat then Err (InvalidProof "not enough proof hashes for peaks")
  else Ok (take (length ps) hs).
Proof.
  revert hs. induction ps as [|p ps IH]; intros hs Hp; [by rewrite take_0|]. cbn [fill_peaks length].
  destruct (Z.eqb_spec p pos); [set_solver|]. destruct hs as [|h hs]; [done|].
  rewrite IH by set_solver. cbn [length take]. change (S ?a <? S ?b)%nat with (a <? b)%nat.
  by destruct (_ <? _)%nat.
Qed.

Lemma fill_peaks_at ps pos qs cur hs :
  (forall p, p ∈ ps -> p <> pos) -> (forall p, p ∈ qs -> p <> pos) ->
  fill_peaks (ps ++ pos :: qs) pos cur hs =
  if (length hs <? length ps + length qs)%nat
  then Err (InvalidProof "not enough proof hashes for peaks")
  else Ok (take (length ps) hs ++ cur :: take (length qs) (drop (length ps) hs)).
Proof.
  revert hs. induction ps as [|p ps IH]; intros hs Hp Hq; cbn [app fill_peaks length].
  - rewrite Z.eqb_refl, fill_peaks_other by done. cbn [plus]. rewrite take_0, drop_0.
    by destruct (_ <? _)%nat.
  - destruct (Z.eqb_spec p pos); [set_solver|]. destruct hs as [|h hs]; [done|].
    rewrite IH by set_solver. cbn [length take drop plus].
    change (S ?a <? S ?b)%nat with (a <? b)%nat. by destruct (_ <? _)%nat.
Qed.

(** ** Inclusion *)

#[local] Opaque verify_walk walk_inputs peak_positions MMR.siblings.

(** The byte strings hashed by [verify_inclusion]. *)
Definition verify_inputs (marker_hash : ContentHash) (leaf_index : Z) (proof : MmrProof)
    : list (list byte) :=
  let size := mmr_size (stream_length proof) in
  walk_inputs 64 size (leaf_to_pos leaf_index) 0 marker_hash (proof_hashes proof) ++
  match verify_walk 64 size (leaf_to_pos leaf_index) 0 marker_hash (proof_hashes proof) with
  | Some (Ok (pos, current_hash, hashes)) =>
      match fill_peaks (peak_positions size) pos current_hash hashes with
      | Ok peak_hashes => bag_inputs peak_hashes
      | Err _ => []
      end
  | _ => []
  end.

(** What verification does with the hashes of a proof for a leaf with context
    [c] under a mountain between [pre] and [post]. *)
Definition peak_list (pre post : forest) (c : ctx) (h : ContentHash) (hs : list ContentHash)
    : list ContentHash :=
  let rest := drop (length c) hs in
  take (length pre) rest ++ run h (zip c.*1 hs) :: take (length post) (drop (length pre) rest).

Section verify.
Context (m : MerkleMountainRange) (leaves : list ContentHash) (pre post : forest) (H : nat).
Context (c : ctx) (x : ContentHash) (i : nat) (p : MmrProof).
Hypothesis Hm : holds m (around pre post H c (Leaf x)) leaves.
Hypothesis Hl : located pre post H 0 c (Leaf x).
Hypothesis Hpos : leaf_to_pos i = position pre 0 c.
Hypothesis Hlen : stream_length p = num_leaves m.

Lemma ctx_short : (length c < 64)%nat.
Proof using Hl.
  destruct Hl as [[_ _ Hb] Hc _]. apply ctx_ok_length in Hc. unfold around in Hb.
  apply Forall_app in Hb as [_ Hb]. apply Forall_cons in Hb as [Hb _]. simpl in *. lia.
Qed.

Lemma roots_around :
  roots 0 (around pre post H c (Leaf x)) =
  roots 0 pre ++ position pre H [] :: roots (fsize pre + psize H) post.
Proof using.
  unfold around, position. rewrite roots_app, Z.add_0_l. cbn [roots cstart fst]. by rewrite Z.add_0_r.
Qed.

Lemma length_roots off f : length (roots off f) = length f.
Proof using. revert off. induction f; intros off; simpl; auto. Qed.

Lemma fill_around cur hs :
  fill_peaks (roots 0 (around pre post H c (Leaf x))) (position pre H []) cur hs =
  if (length hs <? length pre + length post)%nat
  then Err (InvalidProof "not enough proof hashes for peaks")
  else Ok (take (length pre) hs ++ cur :: take (length post) (drop (length pre) hs)).
Proof using.
  rewrite roots_around, fill_peaks_at, !length_roots; [done|..];
    intros q Hq%roots_range; unfold position; cbn [cstart]; pose proof (psize_pos H); lia.
Qed.

Lemma verify_walk_around h hs :
  verify_walk 64 (mmr_size (stream_length p)) (leaf_to_pos i) 0 h hs =
  if (length hs <? length c)%nat then Some (Err (InvalidProof "not enough proof hashes"))
  else Some (Ok (position pre H [], run h (zip c.*1 hs), drop (length c) hs)).
Proof using Hm Hl Hpos Hlen.
  destruct (holds_size _ _ _ Hm) as [_ Hsz]. rewrite Hlen, <- Hsz, Hpos.
  apply (verify_walk_located pre post H 64 c 0 (Leaf x)); [exact Hl|apply ctx_short].
Qed.

Lemma fill_peaks_around cur hs :
  fill_peaks (peak_positions (mmr_size (stream_length p))) (position pre H []) cur hs =
  if (length hs <? length pre + length post)%nat
  then Err (InvalidProof "not enough proof hashes for peaks")
  else Ok (take (length pre) hs ++ cur :: take (length post) (drop (length pre) hs)).
Proof using Hm Hlen.
  destruct (holds_size _ _ _ Hm) as [_ Hsz]. pose proof Hm as (Hok & _ & _ & _).
  rewrite Hlen, <- Hsz, peak_positions_roots by exact Hok. apply fill_around.
Qed.

Lemma check_peaks_around root cur hs :
  check_peaks (mmr_size (stream_length p)) root (position pre H [], cur, hs) =
  if (length hs <? length pre + length post)%nat
  then Err (InvalidProof "not enough proof hashes for peaks")
  else
    let computed := bag_peaks (take (length pre) hs ++ cur :: take (length post) (drop (length pre) hs)) in
    if bool_decide (computed = root) then Ok tt else Err (RootMismatch root computed).
Proof using Hm Hlen.
  unfold check_peaks. rewrite fill_peaks_around. by destruct (_ <? _)%nat.
Qed.

Lemma verify_inclusion_located h :
  proof_type p = Inclusion -> (i < length leaves)%nat ->
  verify_inclusion h i p =
  Some (if (length (proof_hashes p) <? length c)%nat then Err (InvalidProof "not enough proof hashes")
        else if (length (proof_hashes p) - length c <? length pre + length post)%nat
        then Err (InvalidProof "not enough proof hashes for peaks")
        else let root := bag_peaks (peak_list pre post c h (proof_hashes p)) in
             if bool_decide (root = root_hash p) then Ok tt else Err (RootMismatch (root_hash p) root)).
Proof using Hm Hl Hpos Hlen.
  intros Ht Hi. assert ((stream_length p <=? i) = false) as Hle.
  { destruct Hm as (_ & _ & _ & Hn). rewrite Hlen, Hn. unfold zlen. lia. }
  unfold verify_inclusion. rewrite Ht, Hle. cbv zeta. rewrite verify_walk_around.
  destruct (_ <? length c)%nat; cbn [mbind option_bind result_bind]; [reflexivity|].
  rewrite check_peaks_around, length_drop. reflexivity.
Qed.

Lemma verify_inputs_located h :
  (length c + length pre + length post <= length (proof_hashes p))%nat ->
  verify_inputs h i p =
  run_inputs h (zip c.*1 (proof_hashes p)) ++ bag_inputs (peak_list pre post c h (proof_hashes p)).
Proof using Hm Hl Hpos Hlen.
  intros Hh. unfold verify_inputs. cbv zeta. rewrite verify_walk_around.
  assert (walk_inputs 64 (mmr_size (stream_length p)) (leaf_to_pos i) 0 h (proof_hashes p) =
    run_inputs h (zip c.*1 (proof_hashes p))) as ->.
  { destruct (holds_size _ _ _ Hm) as [_ Hsz]. rewrite Hlen, <- Hsz, Hpos.
    apply (walk_inputs_located pre post H 64 c 0 (Leaf x)); [exact Hl|apply ctx_short]. }
  destruct (Nat.ltb_spec (length (proof_hashes p)) (length c)); [lia|].
  rewrite fill_peaks_around, length_drop.
  destruct (Nat.ltb_spec (length (proof_hashes p) - length c) (length pre + length post)); [lia|].
  unfold peak_list. reflexivity.
Qed.
End verify.

Lemma others_around pre post H c u :
  forest_ok (around pre post H c u) ->
  MMR.other_peaks (fnodes (around pre post H c u)) (fsize (around pre post H c u)) (position pre H []) =
  Some (fpeaks pre ++ fpeaks post).
Proof.
  intros Hok. unfold MMR.other_peaks. rewrite peak_positions_roots by done. pose proof (filter_roots pre (H, plug c u) post) as Hf. cbn [fst] in Hf.
  unfold position. cbn [cstart]. rewrite Z.add_0_r. unfold around in *. rewrite Hf.
  by apply (mapM_others pre (H, plug c u) post).
Qed.

Lemma obind_eq {A B} (o : option A) (f : A -> option B) a r :
  o = Some a -> f a = r -> o ≫= f = r.
Proof. by intros -> <-. Qed.

(** The proof [inclusion_proof] generates. *)
Lemma inclusion_proof_located m leaves pre post H c x (i : nat) :
  holds m (around pre post H c (Leaf x)) leaves -> located pre post H 0 c (Leaf x) ->
  leaf_to_pos i = position pre 0 c -> (i < length leaves)%nat ->
  MMR.inclusion_proof m i =
  Some (Ok (mkProof Inclusion i (((fun y => thash y.2) <$> c) ++ fpeaks pre ++ fpeaks post)
    (bag_peaks (fpeaks (around pre post H c (Leaf x)))) (num_leaves m) (epoch_id m))).
Proof.
  intros Hm Hl Hpos Hi. destruct (holds_size _ _ _ Hm) as [Hs _].
  pose proof Hm as (Hok & En & _ & Hn).
  assert ((num_leaves m <=? i) = false) as Hle by (rewrite Hn; unfold zlen; lia).
  assert (leaves <> []) as Hne by (intros ->; simpl in Hi; lia).
  unfold MMR.inclusion_proof. rewrite Hle. cbv zeta. rewrite Hs, En, Hpos.
  eapply obind_eq.
  { apply (siblings_located pre post H 64 c 0 (Leaf x) Hl). by eapply ctx_short. }
  cbv beta iota. eapply obind_eq; [by apply others_around|].
  eapply obind_eq; [exact (root_holds m _ leaves Hm Hne)|]. reflexivity.
Qed.

(** With the honest hashes, the peaks are those of the forest. *)
Lemma peak_list_honest pre post H c x :
  peak_list pre post c x (((fun y => thash y.2) <$> c) ++ fpeaks pre ++ fpeaks post) =
  fpeaks (around pre post H c (Leaf x)).
Proof.
  unfold peak_list. rewrite drop_app_length' by by rewrite length_fmap.
  rewrite take_app_length', drop_app_length' by by (unfold fpeaks; rewrite length_fmap).
  rewrite take_ge by (unfold fpeaks; rewrite length_fmap; lia).
  unfold around, fpeaks. rewrite fmap_app. f_equal. cbn [fmap list_fmap snd]. f_equal.
  rewrite <- (run_plug c (Leaf x)). f_equal. cbn [thash].
  clear. induction c as [|[b s] c IH]; [by destruct (_ ++ _)|]. cbn. by rewrite IH.
Qed.

(** Completeness of inclusion proofs. For every leaf of a range of fewer than 2^62
    leaves, inclusion_proof returns a proof that carries the range's root and length and
    that verify_inclusion accepts for that leaf. *)
Theorem mmr_inclusion_complete e leaves m i x :
  build e leaves = Some m -> zlen leaves < 2 ^ 62 -> leaves !! i = Some x ->
  exists p, MMR.inclusion_proof m (Z.of_nat i) = Some (Ok p) /\
    Some (Ok (root_hash p)) = MMR.root_hash m /\ stream_length p = zlen leaves /\
    verify_inclusion x (Z.of_nat i) p = Some (Ok tt).
Proof.
  intros Hb Hn Hi. destruct (build_holds e leaves m Hn Hb) as (f & Hm & _).
  pose proof Hm as (Hok & _ & El & Hc). rewrite <- El in Hi.
  destruct (leaf_located f i x Hok Hi) as (pre & post & H & c & -> & Hl & Hpos).
  rewrite El in Hi. pose proof (lookup_lt_Some _ _ _ Hi) as Hlt.
  eexists. split; [by eapply inclusion_proof_located|]. cbn [root_hash stream_length].
  split_and!; [by rewrite (root_holds _ _ _ Hm) by (intros ->; simpl in Hlt; lia)|done|].
  rewrite (verify_inclusion_located m leaves pre post H c x i) by done. cbn [proof_hashes root_hash].
  rewrite (peak_list_honest pre post H), bool_decide_true by done.
  rewrite !length_app, length_fmap. unfold fpeaks. rewrite !length_fmap.
  destruct (Nat.ltb_spec (length c + (length pre + length post)) (length c)); [lia|].
  by destruct (Nat.ltb_spec (length c + (length pre + length post) - length c)
    (length pre + length post)); [lia|].
Qed.

(** ** Soundness of inclusion *)

Lemma run_wf c steps : hash_wf c -> hash_wf (run c steps).
Proof.
  revert c. induction steps as [|s steps IH]; intros c Hc; [done|]. unfold run. cbn [fold_left].
  apply IH, chain_step_wf.
Qed.

Lemma thash_wf t : Forall hash_wf (tleaves t) -> hash_wf (thash t).
Proof. destruct t; cbn [tleaves thash]; intros Hf; [by rewrite Forall_singleton in Hf|apply ContentHash_wf]. Qed.

Lemma fpeaks_wf f : Forall hash_wf (fleaves f) -> Forall hash_wf (fpeaks f).
Proof.
  induction f as [|x f IH]; intros Hf; [constructor|].
  change (fleaves (x :: f)) with (tleaves x.2 ++ fleaves f) in Hf. apply Forall_app in Hf as [Hx Hf].
  constructor; [by apply thash_wf|by apply IH].
Qed.

Lemma zip_take {A B} (l : list A) (k : list B) : zip l k = zip l (take (length l) k).
Proof. revert k. induction l as [|a l IH]; intros [|b k]; cbn; try done. by rewrite IH. Qed.

Lemma siblings_wf c u : Forall hash_wf (tleaves (plug c u)) ->
  Forall hash_wf (tleaves u) /\ Forall hash_wf ((fun y => thash y.2) <$> c).
Proof.
  revert u. induction c as [|[b s] c IH]; intros u Hf; cbn [plug] in Hf; [by split|].
  apply IH in Hf as [Hu Hc]. cbn [fmap list_fmap snd].
  destruct b; cbn [tleaves] in Hu; apply Forall_app in Hu as [H1 H2]; (split; [done|]);
    constructor; auto using thash_wf.
Qed.

Lemma peak_list_length pre post c h hs :
  (length c + length pre + length post <= length hs)%nat ->
  length (peak_list pre post c h hs) = (length pre + S (length post))%nat.
Proof.
  intros Hl. unfold peak_list. rewrite length_app, length_take, length_drop. cbn [length].
  rewrite length_take, !length_drop. lia.
Qed.

Lemma peak_list_wf pre post c h hs :
  hash_wf h -> Forall hash_wf hs -> Forall hash_wf (peak_list pre post c h hs).
Proof.
  intros Hh Hs. unfold peak_list. apply Forall_app. split; [by apply Forall_take, Forall_drop|].
  constructor; [by apply run_wf|]. by apply Forall_take, Forall_drop, Forall_drop.
Qed.

Lemma peak_list_at pre post c h hs :
  (length c + length pre + length post <= length hs)%nat ->
  peak_list pre post c h hs !! length pre = Some (run h (zip c.*1 hs)).
Proof.
  intros Hl. unfold peak_list. rewrite lookup_app_r by (rewrite length_take; lia).
  rewrite length_take, length_drop. replace (length pre - _)%nat with 0%nat by lia. done.
Qed.

(** Two runs of verification on one leaf that reach the same root agree on
    the leaf, or collide. *)
Lemma verify_agree pre post c (h1 h2 : ContentHash) (hs1 hs2 : list ContentHash) :
  (length c + length pre + length post <= length hs1)%nat ->
  (length c + length pre + length post <= length hs2)%nat ->
  hash_wf h1 -> hash_wf h2 -> Forall hash_wf hs1 -> Forall hash_wf hs2 ->
  bag_peaks (peak_list pre post c h1 hs1) = bag_peaks (peak_list pre post c h2 hs2) ->
  h1 = h2 \/
  collides (run_inputs h1 (zip c.*1 hs1) ++ bag_inputs (peak_list pre post c h1 hs1))
           (run_inputs h2 (zip c.*1 hs2) ++ bag_inputs (peak_list pre post c h2 hs2)).
Proof.
  intros Hl1 Hl2 Hh1 Hh2 Hw1 Hw2 Hb.
  assert (forall k hs, (length c <= length hs)%nat ->
    length (run_inputs k (zip c.*1 hs)) = length c) as Hlen.
  { intros k hs Hl. rewrite run_inputs_length, length_zip_with, length_fmap. lia. }
  destruct (bag_inj (peak_list pre post c h1 hs1) (peak_list pre post c h2 hs2)) as [E|Hc];
    [by rewrite !peak_list_length|by apply peak_list_wf|by apply peak_list_wf|done|..].
  - pose proof (peak_list_at pre post c h1 hs1 Hl1) as H1.
    rewrite E, (peak_list_at pre post c h2 hs2 Hl2) in H1. injection H1 as H1. symmetry in H1.
    rewrite (zip_take c.*1 hs1), (zip_take c.*1 hs2), length_fmap in H1 |- *.
    destruct (run_inj c.*1 h1 h2 (take (length c) hs1) (take (length c) hs2)) as [[-> _]|Hc];
      [rewrite length_take, length_fmap; unfold ContentHash in *; lia
      |rewrite length_take, length_fmap; unfold ContentHash in *; lia|done|done
      |by apply Forall_take|by apply Forall_take|done|by left|right; by apply collides_app_l].
  - right. apply collides_app_r; [|done]. by rewrite !Hlen by lia.
Qed.

Lemma verify_inclusion_type h i p : verify_inclusion h i p = Some (Ok tt) -> proof_type p = Inclusion.
Proof. unfold verify_inclusion. by destruct (proof_type p). Qed.

(** C32. Soundness of inclusion proofs for a verifier that knows the length of the range,
    below 2^62. If verify_inclusion accepts a hash at an index, with a proof whose
    stream_length is the number of leaves and whose root is that of the range built by
    appending them, then the hash is the leaf at that index, or the byte strings hashed
    while verifying it and while verifying the honest proof contain, at the same place,
    two different strings with the same content hash. *)
Theorem mmr_inclusion_sound e leaves m i x honest h p :
  build e leaves = Some m -> zlen leaves < 2 ^ 62 -> Forall hash_wf leaves ->
  leaves !! i = Some x -> MMR.inclusion_proof m (Z.of_nat i) = Some (Ok honest) ->
  hash_wf h -> Forall hash_wf (proof_hashes p) ->
  stream_length p = zlen leaves -> Some (Ok (root_hash p)) = MMR.root_hash m ->
  verify_inclusion h (Z.of_nat i) p = Some (Ok tt) ->
  h = x \/ collides (verify_inputs h (Z.of_nat i) p) (verify_inputs x (Z.of_nat i) honest).
Proof.
  intros Hb Hn Hw Hi Hhon Hh Hps Hsl Hroot Hv.
  destruct (build_holds e leaves m Hn Hb) as (f & Hm & _). pose proof Hm as (Hok & _ & El & Hc).
  rewrite <- El in Hi. destruct (leaf_located f i x Hok Hi) as (pre & post & H & c & -> & Hl & Hpos).
  rewrite El in Hi. pose proof (lookup_lt_Some _ _ _ Hi) as Hlt.
  pose proof (verify_inclusion_type _ _ _ Hv) as Ht.
  assert (leaves <> []) as Hne by (intros ->; simpl in Hlt; lia).
  rewrite (root_holds _ _ _ Hm Hne) in Hroot. injection Hroot as Hroot.
  rewrite (inclusion_proof_located m leaves pre post H c x) in Hhon by done.
  injection Hhon as <-. rewrite <- Hc in Hsl.
  rewrite (verify_inclusion_located m leaves pre post H c x) in Hv by done.
  destruct (Nat.ltb_spec (length (proof_hashes p)) (length c)); [done|].
  destruct (Nat.ltb_spec (length (proof_hashes p) - length c) (length pre + length post)); [done|].
  cbv zeta in Hv. case_bool_decide as Er; [|done]. clear Hv.
  rewrite Hroot, <- (peak_list_honest pre post H) in Er.
  rewrite <- El in Hw. unfold around in Hw. rewrite fleaves_app in Hw.
  change (fleaves ((H, plug c (Leaf x)) :: post)) with (tleaves (plug c (Leaf x)) ++ fleaves post) in Hw.
  rewrite !Forall_app in Hw. destruct Hw as (Hwpre & Hwt & Hwpost).
  destruct (siblings_wf c (Leaf x) Hwt) as [Hwx Hwc]. cbn [tleaves] in Hwx. rewrite Forall_singleton in Hwx.
  rewrite !(verify_inputs_located m leaves pre post H c x i) by
    (done || cbn [proof_hashes]; rewrite ?length_app; unfold fpeaks; rewrite ?length_fmap; lia).
  cbn [proof_hashes]. apply verify_agree; try done; try lia.
  - rewrite !length_app. unfold fpeaks. rewrite !length_fmap. lia.
  - apply Forall_app. split; [done|]. apply Forall_app. split; by apply fpeaks_wf.
Qed.

(** ** Consistency *)

Lemma new_peaks_honest ns ps hs old old_hs fresh :
  Forall2 (fun p h => node_at ns p = Some h) ps hs ->
  Forall2 (fun p h => node_at ns p = Some h) old old_hs ->
  mapM (node_at ns) (filter (fun p => p ∉ old) ps) = Some fresh ->
  new_peak_hashes ps old old_hs fresh = Ok hs.
Proof.
  intros Hps Hold. revert fresh. induction Hps as [|p h ps hs Hp _ IH]; intros fresh Hf; [done|].
  cbn [new_peak_hashes]. destruct (list_find (fun q => q = p) old) as [[k q]|] eqn:E.
  - apply list_find_Some in E as (Hk & -> & _).
    destruct (Forall2_lookup_l _ _ _ _ _ Hold Hk) as (h' & Hh' & Hn).
    rewrite Hp in Hn. injection Hn as <-. rewrite Hh'. cbn [default].
    rewrite filter_cons_False in Hf by (intros Hnot; apply Hnot; by eapply list_elem_of_lookup_2).
    by rewrite (IH fresh Hf).
  - assert (p ∉ old) as Hnot.
    { intros Hin. apply list_find_None in E. rewrite Forall_forall in E. by apply (E p Hin). }
    rewrite filter_cons_True in Hf by done. cbn [mapM] in Hf. rewrite Hp in Hf. cbn [mbind option_bind] in Hf.
    destruct (mapM (node_at ns) (filter (fun q => q ∉ old) ps)) as [fr|] eqn:Efr; [|done].
    cbn [mbind option_bind] in Hf. injection Hf as <-. by rewrite (IH fr eq_refl).
Qed.

Lemma mapM_filter {A B} (g : A -> option B) (P : A -> Prop) `{!forall x, Decision (P x)} l k :
  mapM g l = Some k -> is_Some (mapM g (filter P l)).
Proof.
  revert k. induction l as [|x l IH]; intros k Hk; [by eexists|]. cbn [mapM] in Hk.
  destruct (g x) as [y|] eqn:E; [|done]. cbn [mbind option_bind] in Hk.
  destruct (mapM g l) as [ys|] eqn:El; [|done]. destruct (IH ys eq_refl) as [fr Hfr].
  destruct (decide (P x)).
  - rewrite filter_cons_True by done. cbn [mapM]. rewrite E, Hfr. by eexists.
  - rewrite filter_cons_False by done. by eexists.
Qed.

(** The old nodes are still where they were. *)
Lemma mapM_prefix ns ns' ps hs :
  ns `prefix_of` ns' -> mapM (node_at ns) ps = Some hs -> mapM (node_at ns') ps = Some hs.
Proof.
  intros [k ->]. rewrite !mapM_Some. intros Hall. eapply Forall2_impl; [exact Hall|]. intros p h Hp. unfold node_at in *.
  by apply lookup_app_l_Some.
Qed.

Lemma peaks_positions m f leaves :
  holds m f leaves -> mapM (node_at (nodes m)) (peak_positions (mmr_size (zlen leaves))) = Some (fpeaks f).
Proof.
  intros Hm. rewrite <- (peaks_holds m f leaves Hm). unfold MMR.peaks.
  destruct (holds_size _ _ _ Hm) as [Hs1 Hs2]. destruct Hm as (_ & _ & _ & Hn).
  by rewrite Hs1, Hs2, Hn.
Qed.

Lemma consistency_proof_eq m n olds fresh root :
  n <> 0 -> n <= num_leaves m ->
  mapM (node_at (nodes m)) (peak_positions (mmr_size n)) = Some olds ->
  mapM (node_at (nodes m)) (filter (fun pos => pos ∉ peak_positions (mmr_size n))
    (peak_positions (zlen (nodes m)))) = Some fresh ->
  MMR.root_hash m = Some (Ok root) ->
  MMR.consistency_proof m n =
  Some (Ok (mkProof Consistency n (olds ++ fresh) root (num_leaves m) (epoch_id m))).
Proof.
  intros Hn Hle Ho Hf Hr. unfold MMR.consistency_proof.
  destruct (Z.eqb_spec n 0); [done|]. destruct (Z.ltb_spec (num_leaves m) n); [lia|]. cbv zeta.
  eapply obind_eq; [exact Ho|]. eapply obind_eq; [exact Hf|]. eapply obind_eq; [exact Hr|]. reflexivity.
Qed.

Lemma verify_consistency_eq n olds fresh root len e peaks :
  n <> 0 -> length olds = length (peak_positions (mmr_size n)) ->
  new_peak_hashes (peak_positions (mmr_size len)) (peak_positions (mmr_size n)) olds fresh = Ok peaks ->
  bag_peaks peaks = root ->
  verify_consistency (bag_peaks olds) (mkProof Consistency n (olds ++ fresh) root len e) = Ok tt.
Proof.
  intros Hn Hl Hp Hb. unfold verify_consistency. cbn [proof_type marker_index proof_hashes stream_length root_hash].
  destruct (Z.eqb_spec n 0); [done|]. cbv zeta. rewrite length_app, <- Hl.
  destruct (Nat.ltb_spec (length olds + length fresh) (length olds)); [lia|].
  rewrite take_app_length, drop_app_length, bool_decide_false by naive_solver.
  rewrite Hp. cbn [mbind result_bind]. by rewrite bool_decide_true.
Qed.

(** Completeness of consistency proofs. For a non-empty stream and any extension of
    it, consistency_proof of the extension returns a proof with the extension's root that
    verify_consistency accepts for the root of the prefix. *)
Theorem mmr_consistency_complete e l1 l2 old m old_root :
  build e l1 = Some old -> build e (l1 ++ l2) = Some m -> l1 <> [] -> zlen (l1 ++ l2) < 2 ^ 62 ->
  MMR.root_hash old = Some (Ok old_root) ->
  exists p, MMR.consistency_proof m (zlen l1) = Some (Ok p) /\
    Some (Ok (root_hash p)) = MMR.root_hash m /\ verify_consistency old_root p = Ok tt.
Proof.
  intros Hb1 Hb2 Hne Hn Hr. pose proof (zlen_nonneg l1). pose proof (zlen_nonneg l2).
  rewrite zlen_app in Hn.
  destruct (build_holds e l1 old ltac:(lia) Hb1) as (fo & Ho & _).
  destruct (build_holds e (l1 ++ l2) m ltac:(rewrite zlen_app; lia) Hb2) as (fm & Hm & _).
  assert (nodes old `prefix_of` nodes m) as Hpre.
  { unfold build in Hb1, Hb2. rewrite extend_app, Hb1 in Hb2. cbn [mbind option_bind] in Hb2.
    by eapply extend_prefix. }
  rewrite (root_holds _ _ _ Ho Hne) in Hr. injection Hr as <-.
  pose proof (mapM_prefix _ _ _ _ Hpre (peaks_positions _ _ _ Ho)) as Hold.
  pose proof (peaks_holds _ _ _ Hm) as Hnew. unfold MMR.peaks in Hnew.
  destruct (mapM_filter _ (fun pos => pos ∉ peak_positions (mmr_size (zlen l1))) _ _ Hnew) as [fresh Hfr].
  assert (l1 ++ l2 <> []) as Hne2 by (destruct l1; done).
  pose proof (root_holds _ _ _ Hm Hne2) as Hroot.
  destruct (holds_size _ _ _ Hm) as [Hs1 Hs2]. pose proof Hm as (_ & _ & _ & Hc).
  eexists. split.
  { apply (consistency_proof_eq m (zlen l1) (fpeaks fo) fresh (bag_peaks (fpeaks fm)));
      [destruct l1; [done|]; rewrite zlen_cons; pose proof (zlen_nonneg l1); lia| |done..].
    rewrite Hc, zlen_app. lia. }
  cbn [root_hash]. split; [done|].
  eapply (verify_consistency_eq _ _ _ _ _ _ (fpeaks fm)); [|..|done].
  - destruct l1; [done|]. rewrite zlen_cons. pose proof (zlen_nonneg l1). lia.
  - apply mapM_Some in Hold. by apply Forall2_length in Hold.
  - rewrite <- Hs2, <- Hs1. by apply (new_peaks_honest (nodes m)); [apply mapM_Some..|].
Qed.

(** verify_consistency does not tie the old root to the new one when an old peak has
    been merged: for a stream of two leaves with any root, every hash whatsoever is
    accepted as the root of its one-leaf prefix. *)
Theorem mmr_consistency_accepts_any_prefix old_root root e :
  verify_consistency old_root (mkProof Consistency 1 [old_root; root] root 2 e) = Ok tt.
Proof.
  apply (verify_consistency_eq 1 [old_root] [root] root 2 e [root]); reflexivity || lia.
Qed.

(** ** A small range *)

#[local] Transparent verify_walk walk_inputs peak_positions MMR.siblings ContentHash_compute.

Definition sample_leaves : list ContentHash :=
  [replicate 32 x01; replicate 32 x02; replicate 32 x03].

Definition sample_mmr : MerkleMountainRange := default (MMR.new 1) (build 1 sample_leaves).

Lemma sample_build : build 1 sample_leaves = Some sample_mmr.
Proof. vm_compute. reflexivity. Defined.

Lemma mmr_append_extends_witness :
  exists m', MMR.append sample_mmr (replicate 32 x04) = Some (m', 4) /\
    node_at (nodes m') 4 = Some (replicate 32 x04).
Proof.
  destruct (mmr_append_extends 1 sample_leaves sample_mmr (replicate 32 x04) sample_build
    ltac:(vm_compute; reflexivity)) as (m' & Ha & _ & _ & _ & Hl).
  exists m'. split; [exact Ha|]. exact (Hl 3%nat (replicate 32 x04) eq_refl).
Defined.

Lemma mmr_inclusion_complete_witness :
  exists p, MMR.inclusion_proof sample_mmr 1 = Some (Ok p) /\
    verify_inclusion (replicate 32 x02) 1 p = Some (Ok tt).
Proof.
  destruct (mmr_inclusion_complete 1 sample_leaves sample_mmr 1%nat (replicate 32 x02) sample_build
    ltac:(vm_compute; reflexivity) eq_refl) as (p & Hp & _ & _ & Hv).
  exists p. split; [exact Hp|exact Hv].
Defined.

Definition sample_proof : MmrProof :=
  match MMR.inclusion_proof sample_mmr 1 with
  | Some (Ok p) => p
  | _ => mkProof Inclusion 0 [] zero_hash 0 0
  end.

(** The same with a hash too many, which is accepted as well. *)
Definition padded_proof : MmrProof :=
  mkProof Inclusion 7 (proof_hashes sample_proof ++ [zero_hash]) (root_hash sample_proof) 3 9.

Lemma mmr_inclusion_sound_witness :
  padded_proof <> sample_proof /\ verify_inclusion (replicate 32 x02) 1 padded_proof = Some (Ok tt) /\
  (sample_leaves !! 1%nat = Some (replicate 32 x02) \/
   collides (verify_inputs (replicate 32 x02) 1 padded_proof) (verify_inputs (replicate 32 x02) 1 sample_proof)).
Proof.
  split; [vm_compute; discriminate|]. split; [vm_compute; reflexivity|].
  destruct (mmr_inclusion_sound 1 sample_leaves sample_mmr 1 (replicate 32 x02) sample_proof
    (replicate 32 x02) padded_proof sample_build) as [H|H].
  - vm_compute. reflexivity.
  - repeat constructor.
  - reflexivity.
  - vm_compute. reflexivity.
  - reflexivity.
  - apply (bool_decide_unpack _). vm_compute. exact I.
  - vm_compute. reflexivity.
  - vm_compute. reflexivity.
  - vm_compute. reflexivity.
  - left. exact (f_equal Some (eq_sym H)).
  - right. exact H.
Defined.

(** verify_inclusion takes the stream length from the proof: with a smaller one an
    inner node passes for a leaf of a longer range. *)
Theorem inclusion_trusts_stream_length :
  let h i := replicate 32 i in
  exists m root, build 1 [h x01; h x02; h x03; h x04] = Some m /\ MMR.root_hash m = Some (Ok root) /\
    verify_inclusion (hash_pair (h x01) (h x02)) 0
      (mkProof Inclusion 0 [hash_pair (h x03) (h x04)] root 2 1) = Some (Ok tt) /\
    hash_pair (h x01) (h x02) <> h x01.
Proof.
  intros h. destruct (build 1 [h x01; h x02; h x03; h x04]) as [m|] eqn:E; [|exfalso; revert E; vm_compute; discriminate].
  destruct (MMR.root_hash m) as [[root|e]|] eqn:R.
  - exists m, root. split; [done|]. split; [done|]. revert R. injection E as <-. vm_compute. intros [= <-]. split; [reflexivity|discriminate].
  - exfalso. revert R. injection E as <-. vm_compute. discriminate.
  - exfalso. revert R. injection E as <-. vm_compute. discriminate.
Qed.

Definition sample_prefix : MerkleMountainRange :=
  default (MMR.new 1) (build 1 (take 2 sample_leaves)).

Definition sample_old_root : ContentHash := bag_peaks (default [] (MMR.peaks sample_prefix)).

Lemma mmr_consistency_complete_witness :
  exists p, MMR.consistency_proof sample_mmr 2 = Some (Ok p) /\
    verify_consistency sample_old_root p = Ok tt.
Proof.
  destruct (mmr_consistency_complete 1 (take 2 sample_leaves) (drop 2 sample_leaves) sample_prefix
    sample_mmr sample_old_root) as (p & Hp & _ & Hv).
  - vm_compute. reflexivity.
  - vm_compute. reflexivity.
  - discriminate.
  - vm_compute. reflexivity.
  - vm_compute. reflexivity.
  - exists p. split; [exact Hp|exact Hv].
Defined.
