(* ===== verification/ShapeAlgebra.v ===== *)
(** * The shape-transition algebra (crates/franken-engine/src/shape_transition_algebra.rs)

    Object shapes (hidden classes) are interned by the SHA-256 digest of their
    JSON skeleton, identified by the first eight bytes of that digest, and
    linked by memoised transitions that carry an invalidation receipt.

    The JSON serializer, SHA-256 and the hexadecimal printer are other crates:
    they are the fields of the class [ShapeCrates].  An [expect] that fails is
    [None] here; ShapeAlgebraCorrect.v shows that none does.  The writer of
    artifact files is not modelled. *)
From stdpp Require Import base numbers list strings gmap sorting.
From Stdlib Require Import Strings.Byte.
From S2P Require Import Prelude Bytes.
Open Scope string_scope.
Open Scope list_scope.
Open Scope Z_scope.

(** ** Derived orders: the [Ord] derives compare fields lexicographically. *)

#[export] Instance bool_btree_key : BTreeKey bool.
Proof.
  refine {| key_le := fun a b => implb a b = true |}.
  - intros a b. apply _.
  - intros [] []; auto.
  - intros [] [] []; auto.
Defined.

Definition option_le {A} (le : A -> A -> Prop) (a b : option A) : Prop :=
  match a, b with None, _ => True | Some _, None => False | Some a, Some b => le a b end.

#[export] Instance option_btree_key `{!BTreeKey A} : BTreeKey (option A).
Proof.
  refine {| key_le := option_le key_le |}.
  - intros [a|] [b|]; simpl; apply _.
  - intros [a|] [b|]; simpl; auto. apply key_le_total.
  - intros [a|] [b|] [c|]; simpl; try done. apply key_le_trans.
Defined.

Definition lex_le {A B} (leA : A -> A -> Prop) (leB : B -> B -> Prop) (a b : A * B) : Prop :=
  leA a.1 b.1 /\ (leA b.1 a.1 -> leB a.2 b.2).

#[export] Instance lex_le_dec {A B} (leA : A -> A -> Prop) (leB : B -> B -> Prop)
  `{!RelDecision leA, !RelDecision leB} : RelDecision (lex_le leA leB).
Proof.
  intros [a1 a2] [b1 b2]; unfold lex_le; simpl.
  destruct (decide (leA a1 b1)); [|right; tauto].
  destruct (decide (leA b1 a1)); [|left; tauto].
  destruct (decide (leB a2 b2)); [left|right]; tauto.
Defined.

#[export] Instance prod_btree_key `{!BTreeKey A, !BTreeKey B} : BTreeKey (A * B).
Proof.
  refine {| key_le := lex_le key_le key_le |}.
  - apply _.
  - intros [a1 a2] [b1 b2]; unfold lex_le; simpl.
    pose proof (key_le_total a1 b1) as H1. pose proof (key_le_total a2 b2) as H2.
    destruct (decide (key_le a1 b1)), (decide (key_le b1 a1)); naive_solver.
  - intros [a1 a2] [b1 b2] [c1 c2] [H1 H2] [H3 H4]; unfold lex_le; simpl in *.
    split; [by etrans|]. intros Hc. etrans; [apply H2|apply H4]; by etrans.
Defined.

(** ** Data *)

Record PropertyAttributes := mkAttrs {
  writable : bool; enumerable : bool; configurable : bool }.

Definition attrs_default : PropertyAttributes := mkAttrs true true true.
Definition attrs_frozen : PropertyAttributes := mkAttrs false true false.
Definition attrs_sealed : PropertyAttributes := mkAttrs true true false.
Definition attrs_non_enumerable : PropertyAttributes := mkAttrs true false true.

Record PropertyLayoutDescriptor := mkLayout {
  property_key : string; slot_index : Z; attributes : PropertyAttributes }.

Record ShapeDescriptor := mkShape {
  shape_id : Z;
  fingerprint : string;
  prototype_fingerprint : option string;
  property_layout : list PropertyLayoutDescriptor }.

Definition property_count (s : ShapeDescriptor) : Z := zlen (property_layout s).

(** [iter().find(|d| d.property_key == key)] *)
Definition find_key (layout : list PropertyLayoutDescriptor) (key : string) :
  option PropertyLayoutDescriptor :=
  find (fun d => String.eqb (property_key d) key) layout.

Definition slot_for (s : ShapeDescriptor) (key : string) : option Z :=
  slot_index <$> find_key (property_layout s) key.

Definition keys (s : ShapeDescriptor) : list string := property_key <$> property_layout s.

Inductive TransitionKind :=
  | KAddProperty | KDeleteProperty | KReconfigureProperty | KPropertyCellWrite
  | KPrototypeWrite.

Inductive InvalidatedAssumptionKind :=
  | ShapeGuard | PropertyCell | PropertyDescriptor | PrototypeChain.

Record PropertyCellInvalidationReceipt := mkReceipt {
  receipt_id : string;
  r_transition_kind : TransitionKind;
  invalidated_assumptions : list InvalidatedAssumptionKind;
  r_property_key : option string;
  r_from_shape_id : Z;
  r_to_shape_id : Z;
  summary : string }.

Record ShapeTransition := mkTransition {
  from_shape_id : Z;
  to_shape_id : Z;
  transition_kind : TransitionKind;
  t_property_key : option string;
  t_property_layout : option PropertyLayoutDescriptor;
  t_prototype_fingerprint : option string;
  invalidation_receipt : PropertyCellInvalidationReceipt }.

Inductive ShapeMutation :=
  | AddProperty (key : string) (attributes : PropertyAttributes)
  | DeleteProperty (key : string)
  | ReconfigureProperty (key : string) (attributes : PropertyAttributes)
  | WritePropertyCell (key : string)
  | WritePrototype (prototype_fingerprint : option string).

Record ShapeMutationOutcome := mkOutcome {
  o_shape : ShapeDescriptor; o_transition : ShapeTransition }.

Inductive ShapeAlgebraError :=
  | UnknownShape (shape_id : Z)
  | PropertyAlreadyExists (shape_id : Z) (key : string)
  | MissingProperty (shape_id : Z) (key : string).

Record ShapeSkeleton := mkSkeleton {
  sk_prototype_fingerprint : option string;
  sk_property_layout : list PropertyLayoutDescriptor }.

(** The serialized fields of the receipt seed. *)
Record ReceiptSeed := mkSeed {
  seed_transition_kind : TransitionKind;
  seed_property_key : option string;
  seed_from_shape_id : Z;
  seed_to_shape_id : Z;
  seed_assumptions : list InvalidatedAssumptionKind }.

#[export] Instance PropertyAttributes_eq_dec : EqDecision PropertyAttributes.
Proof. solve_decision. Defined.
#[export] Instance PropertyLayoutDescriptor_eq_dec : EqDecision PropertyLayoutDescriptor.
Proof. solve_decision. Defined.
#[export] Instance TransitionKind_eq_dec : EqDecision TransitionKind.
Proof. solve_decision. Defined.
#[export] Instance InvalidatedAssumptionKind_eq_dec : EqDecision InvalidatedAssumptionKind.
Proof. solve_decision. Defined.
#[export] Instance ShapeMutation_eq_dec : EqDecision ShapeMutation.
Proof. solve_decision. Defined.
#[export] Instance ShapeSkeleton_eq_dec : EqDecision ShapeSkeleton.
Proof. solve_decision. Defined.

(** The key of the transition table: its fields in the order of the derived
    [Ord], the variant first. *)
Definition TransitionLookupKey : Type := Z * ShapeMutation.

Definition attrs_fields (a : PropertyAttributes) : bool * (bool * bool) :=
  (writable a, (enumerable a, configurable a)).

Definition mutation_fields (m : ShapeMutation) : Z * (option string * (bool * (bool * bool))) :=
  let none := (false, (false, false)) in
  match m with
  | AddProperty k a => (0, (Some k, attrs_fields a))
  | DeleteProperty k => (1, (Some k, none))
  | ReconfigureProperty k a => (2, (Some k, attrs_fields a))
  | WritePropertyCell k => (3, (Some k, none))
  | WritePrototype p => (4, (p, none))
  end.

Definition mutation_of_fields (f : Z * (option string * (bool * (bool * bool)))) : ShapeMutation :=
  let '(tag, (k, (w, (e, c)))) := f in
  let key := default "" k in
  if tag =? 0 then AddProperty key (mkAttrs w e c)
  else if tag =? 1 then DeleteProperty key
  else if tag =? 2 then ReconfigureProperty key (mkAttrs w e c)
  else if tag =? 3 then WritePropertyCell key
  else WritePrototype k.

#[export] Program Instance ShapeMutation_countable : Countable ShapeMutation :=
  inj_countable' mutation_fields mutation_of_fields _.
Next Obligation. by intros [? []| |? []| |]. Qed.

#[export] Instance ShapeMutation_btree_key : BTreeKey ShapeMutation.
Proof.
  refine {| key_le := fun a b => key_le (mutation_fields a) (mutation_fields b) |}.
  - intros a b. apply key_le_dec.
  - intros a b. apply key_le_total.
  - intros a b c. apply key_le_trans.
Defined.

Record ShapeTransitionAlgebra := mkAlgebra {
  root_shape_id : Z;
  shapes : gmap Z ShapeDescriptor;
  shape_index : gmap string Z;
  transition_table : gmap TransitionLookupKey ShapeTransition }.

Record ShapeLatticeManifest := mkManifest {
  schema_version : string;
  component : string;
  m_root_shape_id : Z;
  m_shapes : list ShapeDescriptor;
  m_transitions : list ShapeTransition }.

Definition COMPONENT : string := "shape_transition_algebra".
Definition SHAPE_LATTICE_SCHEMA_VERSION : string := "frankenengine.shape-lattice.v1".

(** [{:?}] of the field-less enums. *)
Definition transition_kind_debug (k : TransitionKind) : string :=
  match k with
  | KAddProperty => "AddProperty"
  | KDeleteProperty => "DeleteProperty"
  | KReconfigureProperty => "ReconfigureProperty"
  | KPropertyCellWrite => "PropertyCellWrite"
  | KPrototypeWrite => "PrototypeWrite"
  end.

Definition assumption_debug (a : InvalidatedAssumptionKind) : string :=
  match a with
  | ShapeGuard => "ShapeGuard"
  | PropertyCell => "PropertyCell"
  | PropertyDescriptor => "PropertyDescriptor"
  | PrototypeChain => "PrototypeChain"
  end.

Definition assumption_rank (a : InvalidatedAssumptionKind) : Z :=
  match a with ShapeGuard => 0 | PropertyCell => 1 | PropertyDescriptor => 2 | PrototypeChain => 3 end.

Definition assumption_le (a b : InvalidatedAssumptionKind) : Prop :=
  assumption_rank a <= assumption_rank b.

#[export] Instance assumption_le_dec : RelDecision assumption_le.
Proof. intros a b. unfold assumption_le. apply _. Defined.

(** [slice.join(sep)] *)
Definition join (sep : string) (l : list string) : string := String.concat sep l.

(** ** The other crates *)

Class ShapeCrates := {
  (** [serde_json::to_vec] on the two serialized structs *)
  skeleton_to_vec : ShapeSkeleton -> list byte;
  receipt_seed_to_vec : ReceiptSeed -> list byte;
  (** [Sha256::digest] *)
  sha256_digest : list byte -> list byte;
  (** [hex::encode] *)
  hex_encode : list byte -> string }.

(** What the algebra relies on: distinct byte strings print differently. *)
Class ShapeCratesLaws `{!ShapeCrates} : Prop := {
  hex_encode_inj :: Inj (=) (=) hex_encode }.

Section algebra.
Context `{!ShapeCrates}.

(** ** Descriptors *)

Definition skeleton_digest (sk : ShapeSkeleton) : list byte :=
  sha256_digest (skeleton_to_vec sk).

(** [u64::from_be_bytes] of the first eight bytes of the digest *)
Definition skeleton_shape_id (sk : ShapeSkeleton) : Z := be_value (take 8 (skeleton_digest sk)).

Definition make_shape_descriptor (proto : option string)
    (layout : list PropertyLayoutDescriptor) : ShapeDescriptor :=
  let skeleton := mkSkeleton proto layout in
  mkShape (skeleton_shape_id skeleton) (hex_encode (skeleton_digest skeleton)) proto layout.

Definition build_invalidation_receipt (kind : TransitionKind) (key : option string)
    (from to : Z) (assumptions : list InvalidatedAssumptionKind) :
    PropertyCellInvalidationReceipt :=
  let listed := join ", " (assumption_debug <$> assumptions) in
  let summary :=
    match assumptions, key with
    | [], _ => "no optimized assumptions invalidated"
    | _, Some key => transition_kind_debug kind +:+ " on `" +:+ key +:+ "` invalidated " +:+ listed
    | _, None => transition_kind_debug kind +:+ " invalidated " +:+ listed
    end in
  let sorted := merge_sort assumption_le assumptions in
  mkReceipt (hex_encode (sha256_digest (receipt_seed_to_vec (mkSeed kind key from to sorted))))
    kind assumptions key from to summary.

(** ** The algebra *)

(** [ShapeTransitionAlgebra::default] *)
Definition new : ShapeTransitionAlgebra :=
  let root := make_shape_descriptor None [] in
  mkAlgebra (shape_id root) {[shape_id root := root]} {[fingerprint root := shape_id root]} ∅.

Definition shape (alg : ShapeTransitionAlgebra) (id : Z) : option ShapeDescriptor :=
  shapes alg !! id.

Definition manifest (alg : ShapeTransitionAlgebra) : ShapeLatticeManifest :=
  mkManifest SHAPE_LATTICE_SCHEMA_VERSION COMPONENT (root_shape_id alg)
    (sorted_values (shapes alg)) (sorted_values (transition_table alg)).

(** Returns the descriptor and the new registry; [None] is the failed
    [expect]. *)
Definition intern_shape (alg : ShapeTransitionAlgebra) (proto : option string)
    (layout : list PropertyLayoutDescriptor) :
    option (ShapeDescriptor * ShapeTransitionAlgebra) :=
  let descriptor := make_shape_descriptor proto layout in
  match shape_index alg !! fingerprint descriptor with
  | Some existing_shape_id =>
      existing ← shapes alg !! existing_shape_id; Some (existing, alg)
  | None =>
      Some (descriptor,
        mkAlgebra (root_shape_id alg)
          (<[shape_id descriptor := descriptor]> (shapes alg))
          (<[fingerprint descriptor := shape_id descriptor]> (shape_index alg))
          (transition_table alg))
  end.

(** The tuple computed by the [match] on the mutation. *)
Record Effect := mkEffect {
  next_shape : ShapeDescriptor;
  e_kind : TransitionKind;
  e_key : option string;
  e_layout : option PropertyLayoutDescriptor;
  e_proto : option string;
  e_assumptions : list InvalidatedAssumptionKind }.

(** The rebuilt layout of [DeleteProperty]: retained keys are renumbered and
    their attributes looked up again. *)
Definition compact_layout (base : list PropertyLayoutDescriptor) (retained : list string) :
    option (list PropertyLayoutDescriptor) :=
  mapM (fun '(i, k) => d ← find_key base k; Some (mkLayout k (Z.of_nat i) (attributes d)))
    (imap (fun i k => (i, k)) retained).

Definition reconfigure_layout (base : list PropertyLayoutDescriptor) (key : string)
    (attrs : PropertyAttributes) : list PropertyLayoutDescriptor :=
  (fun d => if String.eqb (property_key d) key
            then mkLayout (property_key d) (slot_index d) attrs else d) <$> base.

Definition mutation_effect (alg : ShapeTransitionAlgebra) (base : ShapeDescriptor)
    (sid : Z) (mutation : ShapeMutation) :
    option (result ShapeAlgebraError Effect * ShapeTransitionAlgebra) :=
  let proto := prototype_fingerprint base in
  match mutation with
  | AddProperty key attrs =>
      if existsb (fun d => String.eqb (property_key d) key) (property_layout base)
      then Some (Err (PropertyAlreadyExists sid key), alg)
      else
        let descriptor := mkLayout key (zlen (property_layout base)) attrs in
        '(next, alg) ← intern_shape alg proto (property_layout base ++ [descriptor]);
        Some (Ok (mkEffect next KAddProperty (Some key) (Some descriptor) proto
                [ShapeGuard; PropertyCell]), alg)
  | DeleteProperty key =>
      let retained :=
        property_key <$> List.filter (fun d => negb (String.eqb (property_key d) key))
                           (property_layout base) in
      if zlen retained =? zlen (property_layout base)
      then Some (Err (MissingProperty sid key), alg)
      else
        layout ← compact_layout (property_layout base) retained;
        '(next, alg) ← intern_shape alg proto layout;
        Some (Ok (mkEffect next KDeleteProperty (Some key) None proto
                [ShapeGuard; PropertyCell; PropertyDescriptor]), alg)
  | ReconfigureProperty key attrs =>
      if existsb (fun d => String.eqb (property_key d) key) (property_layout base) then
        '(next, alg) ← intern_shape alg proto (reconfigure_layout (property_layout base) key attrs);
        Some (Ok (mkEffect next KReconfigureProperty (Some key)
                (find_key (property_layout next) key) proto
                [ShapeGuard; PropertyCell; PropertyDescriptor]), alg)
      else Some (Err (MissingProperty sid key), alg)
  | WritePropertyCell key =>
      match find_key (property_layout base) key with
      | None => Some (Err (MissingProperty sid key), alg)
      | Some descriptor =>
          Some (Ok (mkEffect base KPropertyCellWrite (Some key) (Some descriptor) proto
                  [PropertyCell]), alg)
      end
  | WritePrototype new_proto =>
      let assumptions :=
        if decide (new_proto = proto) then [] else [ShapeGuard; PrototypeChain] in
      '(next, alg) ← intern_shape alg new_proto (property_layout base);
      Some (Ok (mkEffect next KPrototypeWrite None None new_proto assumptions), alg)
  end.

Definition transition_of_effect (sid : Z) (e : Effect) : ShapeTransition :=
  let to := shape_id (next_shape e) in
  mkTransition sid to (e_kind e) (e_key e) (e_layout e) (e_proto e)
    (build_invalidation_receipt (e_kind e) (e_key e) sid to (e_assumptions e)).

Definition apply_mutation (alg : ShapeTransitionAlgebra) (sid : Z)
    (mutation : ShapeMutation) :
    option (result ShapeAlgebraError ShapeMutationOutcome * ShapeTransitionAlgebra) :=
  let lookup_key := (sid, mutation) in
  match transition_table alg !! lookup_key with
  | Some existing =>
      match shapes alg !! to_shape_id existing with
      | Some shape => Some (Ok (mkOutcome shape existing), alg)
      | None => Some (Err (UnknownShape (to_shape_id existing)), alg)
      end
  | None =>
      match shapes alg !! sid with
      | None => Some (Err (UnknownShape sid), alg)
      | Some base =>
          '(r, alg) ← mutation_effect alg base sid mutation;
          match r with
          | Err e => Some (Err e, alg)
          | Ok e =>
              let transition := transition_of_effect sid e in
              Some (Ok (mkOutcome (next_shape e) transition),
                mkAlgebra (root_shape_id alg) (shapes alg) (shape_index alg)
                  (<[lookup_key := transition]> (transition_table alg)))
          end
      end
  end.
End algebra.
