(* ===== verification/ShapeAlgebraCorrect.v ===== *)
(** * Correctness of the shape-transition algebra

    [mutate] is the history-free meaning of a mutation: what [apply_mutation]
    would return without the registry, the index and the memo table.  The
    invariant [alg_ok] says that the three tables are caches of it, and
    [apply_mutation_spec] that they stay so, as long as the shapes met have
    distinct 64-bit identifiers. *)
From stdpp Require Import base numbers list strings gmap sets sorting.
From Stdlib Require Import Strings.Byte.
From S2P Require Import Prelude Bytes ShapeAlgebra.
Open Scope string_scope.
Open Scope list_scope.
Open Scope Z_scope.

(** ** Layouts *)

Definition has_key (key : string) (d : PropertyLayoutDescriptor) : bool :=
  String.eqb (property_key d) key.

(** Slots are the positions and keys are distinct. *)
Record layout_ok (l : list PropertyLayoutDescriptor) : Prop := {
  lo_slots : forall i d, l !! i = Some d -> slot_index d = Z.of_nat i;
  lo_keys : NoDup (property_key <$> l) }.

(** Positions renumbered from [n]. *)
Definition renumber (l : list PropertyLayoutDescriptor) : list PropertyLayoutDescriptor :=
  imap (fun i d => mkLayout (property_key d) (Z.of_nat i) (attributes d)) l.

Lemma layout_ok_nil : layout_ok [].
Proof. split; [intros i d; by rewrite lookup_nil|constructor]. Qed.

Lemma find_key_Some l key d :
  find_key l key = Some d -> property_key d = key /\ d ∈ l.
Proof.
  intros [Hin Heq]%find_some. apply String.eqb_eq in Heq. split; [done|].
  by apply list_elem_of_In.
Qed.

Lemma find_key_None l key : find_key l key = None <-> key ∉ (property_key <$> l).
Proof.
  split.
  - intros H. rewrite list_elem_of_fmap. intros (d & -> & Hd).
    apply list_elem_of_In in Hd. apply (find_none _ _ H) in Hd. by rewrite String.eqb_refl in Hd.
  - intros H. destruct (find_key l key) as [d|] eqn:Hf; [|done].
    apply find_key_Some in Hf as [<- Hin]. destruct H. apply list_elem_of_fmap. eauto.
Qed.

Lemma find_key_lookup l key i d :
  NoDup (property_key <$> l) -> l !! i = Some d -> property_key d = key ->
  find_key l key = Some d.
Proof.
  intros Hnd Hi <-. destruct (find_key l (property_key d)) as [d'|] eqn:Hf.
  - apply find_key_Some in Hf as [Hk Hin]. apply list_elem_of_lookup in Hin as [j Hj].
    assert (i = j) as ->; [|congruence].
    eapply NoDup_lookup; [done|rewrite list_lookup_fmap, Hi; done|].
    rewrite list_lookup_fmap, Hj. simpl. by rewrite Hk.
  - apply find_key_None in Hf. destruct Hf. apply list_elem_of_fmap. exists d.
    split; [done|]. by apply list_elem_of_lookup_2 in Hi.
Qed.

Lemma existsb_has_key l key :
  existsb (fun d => String.eqb (property_key d) key) l = bool_decide (key ∈ (property_key <$> l)).
Proof.
  apply Bool.eq_iff_eq_true. rewrite existsb_exists, bool_decide_eq_true, list_elem_of_fmap.
  split; intros (d & H1 & H2); exists d.
  - apply String.eqb_eq in H2. split; [done|]. by apply list_elem_of_In.
  - subst. split; [by apply list_elem_of_In|]. by apply String.eqb_refl.
Qed.

Lemma layout_ok_snoc l key attrs :
  layout_ok l -> key ∉ (property_key <$> l) ->
  layout_ok (l ++ [mkLayout key (zlen l) attrs]).
Proof.
  intros [Hs Hk] Hnew. split.
  - intros i d [Hi|(Hi & Hd)]%lookup_app_Some; [by apply Hs|].
    apply list_lookup_singleton_Some in Hd as [? <-]. simpl. unfold zlen. lia.
  - rewrite fmap_app. apply NoDup_app. split; [done|]. split; [|apply NoDup_singleton].
    intros k Hin ->%list_elem_of_singleton. done.
Qed.

Lemma layout_ok_renumber l : NoDup (property_key <$> l) -> layout_ok (renumber l).
Proof.
  intros Hnd. split.
  - intros i d. unfold renumber. rewrite list_lookup_imap.
    intros (d' & Hd & ->)%fmap_Some. done.
  - replace (property_key <$> renumber l) with (property_key <$> l); [done|].
    apply list_eq. intros i. unfold renumber.
    rewrite !list_lookup_fmap, list_lookup_imap. by destruct (l !! i).
Qed.

Lemma renumber_ok l : layout_ok l -> renumber l = l.
Proof.
  intros [Hs _]. apply list_eq. intros i. unfold renumber. rewrite list_lookup_imap.
  destruct (l !! i) as [[k s a]|] eqn:Hi; [|done]. simpl. apply Hs in Hi. simpl in Hi. by subst.
Qed.

Lemma layout_ok_reconfigure l key attrs :
  layout_ok l -> layout_ok (reconfigure_layout l key attrs).
Proof.
  intros [Hs Hk]. unfold reconfigure_layout. split.
  - intros i d. rewrite list_lookup_fmap. intros (d' & Hd & ->)%fmap_Some.
    apply Hs in Hd. by destruct (String.eqb _ _).
  - rewrite <- list_fmap_compose.
    replace (_ <$> l) with (property_key <$> l); [done|].
    apply list_fmap_ext. intros i d _. simpl. by destruct (String.eqb _ _).
Qed.

(** Dropping a key keeps the others distinct. *)
Lemma NoDup_filter_keys (f : PropertyLayoutDescriptor -> bool) l :
  NoDup (property_key <$> l) -> NoDup (property_key <$> List.filter f l).
Proof.
  induction l as [|d l IH]; simpl; [done|]. intros [Hd Hl]%NoDup_cons.
  destruct (f d); simpl; [|by auto]. apply NoDup_cons. split; [|by auto].
  rewrite list_elem_of_fmap in *. intros (d' & Hk & Hin). apply Hd. exists d'. split; [done|].
  apply list_elem_of_In in Hin. apply filter_In in Hin as [Hin _]. by apply list_elem_of_In.
Qed.

(** The lookup of the rebuilt layout finds the retained descriptors, so the
    [expect] holds and the result is a renumbering. *)
Lemma compact_layout_spec base f :
  NoDup (property_key <$> base) ->
  compact_layout base (property_key <$> List.filter f base)
    = Some (renumber (List.filter f base)).
Proof.
  intros Hnd. unfold compact_layout. apply mapM_Some.
  apply Forall2_same_length_lookup. split.
  { unfold renumber. by rewrite !length_imap, length_fmap. }
  intros i [i' k] d. rewrite list_lookup_imap, list_lookup_fmap. unfold renumber.
  rewrite list_lookup_imap. intros Hk Hd.
  destruct (List.filter f base !! i) as [d'|] eqn:Hd'; [|done]. simpl in *. simplify_eq.
  apply list_elem_of_lookup_2, list_elem_of_In, filter_In in Hd' as [Hin _].
  apply list_elem_of_In, list_elem_of_lookup in Hin as [j Hj].
  by rewrite (find_key_lookup _ _ _ _ Hnd Hj eq_refl).
Qed.

Lemma filter_drop_length l key :
  zlen (property_key <$> List.filter (fun d => negb (String.eqb (property_key d) key)) l) = zlen l
  <-> key ∉ (property_key <$> l).
Proof.
  unfold zlen. rewrite length_fmap.
  assert (forall l : list PropertyLayoutDescriptor,
    (length (List.filter (fun d => negb (String.eqb (property_key d) key)) l) <= length l)%nat) as Hle.
  { intros l'. induction l' as [|d l' IH]; simpl; [lia|]. destruct (negb _); simpl; lia. }
  induction l as [|d l IH]; simpl; [split; [intros _; apply not_elem_of_nil|done]|].
  rewrite not_elem_of_cons. specialize (Hle l).
  destruct (String.eqb_spec (property_key d) key); simpl; split; try naive_solver lia.
Qed.

Section correct.
Context `{!ShapeCrates, !ShapeCratesLaws}.

(** ** The history-free meaning of a mutation *)

Definition skeleton_of (s : ShapeDescriptor) : ShapeSkeleton :=
  mkSkeleton (prototype_fingerprint s) (property_layout s).

Definition canonical (s : ShapeDescriptor) : Prop :=
  s = make_shape_descriptor (prototype_fingerprint s) (property_layout s).

Definition mutate (base : ShapeDescriptor) (sid : Z) (m : ShapeMutation) :
    result ShapeAlgebraError Effect :=
  let proto := prototype_fingerprint base in
  let layout := property_layout base in
  let present key := bool_decide (key ∈ (property_key <$> layout)) in
  match m with
  | AddProperty key attrs =>
      if present key then Err (PropertyAlreadyExists sid key)
      else
        let d := mkLayout key (zlen layout) attrs in
        Ok (mkEffect (make_shape_descriptor proto (layout ++ [d])) KAddProperty (Some key)
              (Some d) proto [ShapeGuard; PropertyCell])
  | DeleteProperty key =>
      if present key then
        let kept := List.filter (fun d => negb (String.eqb (property_key d) key)) layout in
        Ok (mkEffect (make_shape_descriptor proto (renumber kept)) KDeleteProperty (Some key)
              None proto [ShapeGuard; PropertyCell; PropertyDescriptor])
      else Err (MissingProperty sid key)
  | ReconfigureProperty key attrs =>
      if present key then
        let layout' := reconfigure_layout layout key attrs in
        Ok (mkEffect (make_shape_descriptor proto layout') KReconfigureProperty (Some key)
              (find_key layout' key) proto [ShapeGuard; PropertyCell; PropertyDescriptor])
      else Err (MissingProperty sid key)
  | WritePropertyCell key =>
      match find_key layout key with
      | None => Err (MissingProperty sid key)
      | Some d => Ok (mkEffect base KPropertyCellWrite (Some key) (Some d) proto [PropertyCell])
      end
  | WritePrototype p =>
      Ok (mkEffect (make_shape_descriptor p layout) KPrototypeWrite None None p
            (if decide (p = proto) then [] else [ShapeGuard; PrototypeChain]))
  end.

(** The answer to a request, given what the registry knows about its shape. *)
Definition answer (known : option ShapeDescriptor) (sid : Z) (m : ShapeMutation) :
    result ShapeAlgebraError ShapeMutationOutcome :=
  match known with
  | None => Err (UnknownShape sid)
  | Some base =>
      (fun e => mkOutcome (next_shape e) (transition_of_effect sid e)) <$> mutate base sid m
  end.

(** The registry after an answer. *)
Definition learn (r : result ShapeAlgebraError ShapeMutationOutcome)
    (known : gmap Z ShapeDescriptor) : gmap Z ShapeDescriptor :=
  match r with Ok o => <[shape_id (o_shape o) := o_shape o]> known | Err _ => known end.

(** ** The invariant *)

(** The skeletons the algebra meets, and that they have distinct identifiers. *)
Context (U : ShapeSkeleton -> Prop).

Definition ids_distinct : Prop :=
  forall a b, U a -> U b -> skeleton_shape_id a = skeleton_shape_id b -> a = b.

Record shape_ok (s : ShapeDescriptor) : Prop := {
  so_canonical : canonical s;
  so_layout : layout_ok (property_layout s);
  so_universe : U (skeleton_of s) }.

Record alg_ok (alg : ShapeTransitionAlgebra) : Prop := {
  ok_root : is_Some (shapes alg !! root_shape_id alg);
  ok_shapes : forall id s, shapes alg !! id = Some s -> shape_ok s /\ shape_id s = id;
  ok_index : forall fp id, shape_index alg !! fp = Some id ->
    exists s, shapes alg !! id = Some s /\ fingerprint s = fp;
  ok_table : forall sid m t, transition_table alg !! (sid, m) = Some t ->
    exists base e, shapes alg !! sid = Some base /\ mutate base sid m = Ok e /\
      t = transition_of_effect sid e /\
      shapes alg !! shape_id (next_shape e) = Some (next_shape e) }.

Lemma canonical_make p l : canonical (make_shape_descriptor p l).
Proof. done. Qed.

Lemma new_ok : U (mkSkeleton None []) -> alg_ok new.
Proof.
  intros HU. split; unfold new; simpl.
  - rewrite lookup_singleton_eq. eauto.
  - intros id s [<- <-]%lookup_singleton_Some. split; [|done].
    split; [apply canonical_make|apply layout_ok_nil|done].
  - intros fp id [<- <-]%lookup_singleton_Some. eexists. by rewrite lookup_singleton_eq.
  - intros sid m t. by rewrite lookup_empty.
Qed.

(** Equal fingerprints of canonical shapes of the universe are equal shapes. *)
Lemma fingerprint_identifies s p l :
  ids_distinct -> shape_ok s -> U (mkSkeleton p l) ->
  fingerprint s = fingerprint (make_shape_descriptor p l) -> s = make_shape_descriptor p l.
Proof.
  intros Hinj [Hc _ HU] HU' Hfp. rewrite Hc in Hfp. simpl in Hfp.
  apply hex_encode_inj in Hfp.
  assert (skeleton_of s = mkSkeleton p l) as [= Hp Hl].
  { apply Hinj; [done|done|]. unfold skeleton_shape_id, skeleton_of. by rewrite Hfp. }
  rewrite Hc, Hp, Hl. done.
Qed.

(** Interning returns the canonical descriptor and only adds shapes. *)
Lemma intern_shape_spec alg p l :
  ids_distinct -> alg_ok alg -> U (mkSkeleton p l) -> layout_ok l ->
  exists alg', intern_shape alg p l = Some (make_shape_descriptor p l, alg') /\
    alg_ok alg' /\ shapes alg ⊆ shapes alg' /\
    transition_table alg' = transition_table alg /\ root_shape_id alg' = root_shape_id alg /\
    shapes alg' = <[shape_id (make_shape_descriptor p l) := make_shape_descriptor p l]> (shapes alg).
Proof.
  intros Hinj Hok HU Hl. unfold intern_shape.
  set (d := make_shape_descriptor p l). destruct (shape_index alg !! fingerprint d) as [id|] eqn:Hi.
  - apply (ok_index _ Hok) in Hi as (s & Hs & Hfp). rewrite Hs. simpl.
    destruct (ok_shapes _ Hok _ _ Hs) as [Hsok Hid].
    assert (s = d) as -> by by apply fingerprint_identifies.
    exists alg. subst id. split_and!; try done. by rewrite insert_id.
  - assert (shapes alg ⊆ <[shape_id d := d]> (shapes alg)) as Hsub.
    { destruct (shapes alg !! shape_id d) as [s|] eqn:Hs; [|by apply insert_subseteq].
      destruct (ok_shapes _ Hok _ _ Hs) as [[Hc Hsl HsU] Hid].
      assert (skeleton_of s = mkSkeleton p l) as [= Hp Hl'].
      { apply Hinj; [done|done|]. rewrite Hc in Hid. done. }
      rewrite insert_id; [done|]. rewrite Hs, Hc, Hp, Hl'. done. }
    eexists; split; [reflexivity|]. split; [|split_and!; done].
    split; simpl.
    + destruct (ok_root _ Hok) as [s Hs]. exists s. by apply (lookup_weaken _ _ _ _ Hs).
    + intros id s [[<- <-]|[_ Hs]]%lookup_insert_Some; [|by apply (ok_shapes _ Hok)].
      split; [|done]. by split.
    + intros fp id [[<- <-]|[_ Hf]]%lookup_insert_Some.
      * exists d. by rewrite lookup_insert_eq.
      * apply (ok_index _ Hok) in Hf as (s & Hs & Hfp). exists s.
        split; [|done]. by apply (lookup_weaken _ _ _ _ Hs).
    + intros sid m t Ht. apply (ok_table _ Hok) in Ht as (base & e & Hb & Hm & -> & Hn).
      exists base, e. split; [by apply (lookup_weaken _ _ _ _ Hb)|]. split; [done|]. split; [done|].
      by apply (lookup_weaken _ _ _ _ Hn).
Qed.

(** What a mutation leads to stays a well-formed shape. *)
Lemma mutate_layout_ok base sid m e :
  shape_ok base -> mutate base sid m = Ok e ->
  layout_ok (property_layout (next_shape e)) /\ canonical (next_shape e).
Proof.
  intros [Hc Hl _] He. unfold mutate in He. destruct m; simpl in He.
  - case_bool_decide; [done|]. simplify_eq. split; [by apply layout_ok_snoc|done].
  - case_bool_decide; [|done]. simplify_eq. split; [|done].
    apply layout_ok_renumber, NoDup_filter_keys, Hl.
  - case_bool_decide; [|done]. simplify_eq. split; [by apply layout_ok_reconfigure|done].
  - destruct (find_key _ _); simplify_eq. done.
  - simplify_eq. done.
Qed.

Lemma mutation_effect_spec alg base sid m :
  ids_distinct -> alg_ok alg -> shapes alg !! sid = Some base ->
  (forall e, mutate base sid m = Ok e -> U (skeleton_of (next_shape e))) ->
  exists alg', mutation_effect alg base sid m = Some (mutate base sid m, alg') /\
    alg_ok alg' /\ shapes alg ⊆ shapes alg' /\ root_shape_id alg' = root_shape_id alg /\
    transition_table alg' = transition_table alg /\
    shapes alg' = match mutate base sid m with
                  | Ok e => <[shape_id (next_shape e) := next_shape e]> (shapes alg)
                  | Err _ => shapes alg end.
Proof.
  intros Hinj Hok Hb HU. destruct (ok_shapes _ Hok _ _ Hb) as [Hbase Hid].
  pose proof (mutate_layout_ok base sid m) as Hlay.
  destruct m as [key attrs|key|key attrs|key|p]; unfold mutation_effect, mutate in *; cbv zeta in *;
    rewrite ?existsb_has_key.
  - case_bool_decide; [by exists alg|].
    destruct (intern_shape_spec alg (prototype_fingerprint base)
      (property_layout base ++ [mkLayout key (zlen (property_layout base)) attrs]))
      as (alg' & -> & ? & ? & ? & ? & ?); [done|done|by eapply (HU _ eq_refl)
      |by eapply (Hlay _ Hbase eq_refl)|].
    exists alg'. simpl. by split_and!.
  - pose proof (filter_drop_length (property_layout base) key) as Hlen.
    destruct (Z.eqb_spec (zlen (property_key <$> List.filter
        (fun d => negb (String.eqb (property_key d) key)) (property_layout base)))
        (zlen (property_layout base))) as [Heq|Heq];
      case_bool_decide as Hin; try tauto.
    + by exists alg.
    + rewrite compact_layout_spec by apply Hbase. simpl.
      edestruct (intern_shape_spec alg) as (alg' & -> & ? & ? & ? & ? & ?);
        [done|done|by eapply (HU _ eq_refl)|by eapply (Hlay _ Hbase eq_refl)|].
      exists alg'. simpl. by split_and!.
  - case_bool_decide; [|by exists alg].
    destruct (intern_shape_spec alg (prototype_fingerprint base)
      (reconfigure_layout (property_layout base) key attrs))
      as (alg' & -> & ? & ? & ? & ? & ?); [done|done|by eapply (HU _ eq_refl)
      |by eapply (Hlay _ Hbase eq_refl)|].
    exists alg'. simpl. by split_and!.
  - destruct (find_key _ _); exists alg; split_and!; try done.
    simpl. by rewrite Hid, insert_id.
  - destruct (intern_shape_spec alg p (property_layout base)) as (alg' & -> & ? & ? & ? & ? & ?);
      [done|done|by eapply (HU _ eq_refl)|apply Hbase|].
    exists alg'. simpl. by split_and!.
Qed.

(** [apply_mutation] is [answer], whatever was asked before. *)
Lemma apply_mutation_spec alg sid m :
  ids_distinct -> alg_ok alg ->
  (forall base e, shapes alg !! sid = Some base -> mutate base sid m = Ok e ->
     U (skeleton_of (next_shape e))) ->
  exists alg', apply_mutation alg sid m = Some (answer (shapes alg !! sid) sid m, alg') /\
    alg_ok alg' /\ shapes alg ⊆ shapes alg' /\ root_shape_id alg' = root_shape_id alg /\
    shapes alg' = learn (answer (shapes alg !! sid) sid m) (shapes alg).
Proof.
  intros Hinj Hok HU. unfold apply_mutation.
  destruct (transition_table alg !! (sid, m)) as [t|] eqn:Ht.
  - destruct (ok_table _ Hok _ _ _ Ht) as (base & e & Hb & Hm & -> & Hn).
    exists alg. simpl. rewrite Hn, Hb. unfold answer. rewrite Hm. split_and!; try done.
    simpl. by rewrite insert_id.
  - destruct (shapes alg !! sid) as [base|] eqn:Hb; [|by exists alg].
    destruct (mutation_effect_spec alg base sid m) as (alg' & -> & Hok' & Hsub & Hr & Htab & Hnext);
      [done|done|done|by eauto|].
    simpl. destruct (mutate base sid m) as [e|e] eqn:Hm; simpl.
    + eexists. split; [reflexivity|]. split; [|done]. destruct Hok' as [? ? ? Htable].
      split; simpl; [done|done|done|].
      intros sid' m' t' [[[= <- <-] <-]|[_ Hl]]%lookup_insert_Some; [|by apply Htable].
      exists base, e. split; [by apply (lookup_weaken _ _ _ _ Hb)|]. split_and!; try done.
      by rewrite Hnext, lookup_insert_eq.
    + by exists alg'.
Qed.

(** ** Sequences of requests *)

Fixpoint serve (alg : ShapeTransitionAlgebra) (requests : list (Z * ShapeMutation)) :
    option (list (result ShapeAlgebraError ShapeMutationOutcome) * ShapeTransitionAlgebra) :=
  match requests with
  | [] => Some ([], alg)
  | (sid, m) :: requests =>
      '(r, alg) ← apply_mutation alg sid m;
      '(rs, alg) ← serve alg requests;
      Some (r :: rs, alg)
  end.

(** The same, from the set of known shapes only. *)
Fixpoint serve_spec (known : gmap Z ShapeDescriptor) (requests : list (Z * ShapeMutation)) :
    list (result ShapeAlgebraError ShapeMutationOutcome) * gmap Z ShapeDescriptor :=
  match requests with
  | [] => ([], known)
  | (sid, m) :: requests =>
      let r := answer (known !! sid) sid m in
      let '(rs, known) := serve_spec (learn r known) requests in
      (r :: rs, known)
  end.

(** The skeletons of the shapes that answers carry. *)
Definition answered (rs : list (result ShapeAlgebraError ShapeMutationOutcome)) : list ShapeSkeleton :=
  omap (fun r => match r with Ok o => Some (skeleton_of (o_shape o)) | Err _ => None end) rs.

(** The layouts that occur while the requests are served: the empty root and
    those of the answers. *)
Definition occurring (requests : list (Z * ShapeMutation)) : list ShapeSkeleton :=
  mkSkeleton None [] :: answered (serve_spec (shapes new) requests).1.

Lemma serve_refines alg requests :
  ids_distinct -> alg_ok alg -> Forall U (answered (serve_spec (shapes alg) requests).1) ->
  exists alg', serve alg requests = Some ((serve_spec (shapes alg) requests).1, alg') /\
    shapes alg' = (serve_spec (shapes alg) requests).2 /\ alg_ok alg'.
Proof.
  intros Hinj. revert alg. induction requests as [|[sid m] requests IH]; intros alg Hok Hcl.
  { by exists alg. }
  simpl in Hcl. destruct (serve_spec (learn _ _) requests) as [rs known] eqn:Hspec. simpl in Hcl.
  destruct (apply_mutation_spec alg sid m) as (alg1 & Happ & Hok1 & _ & _ & Hs1); [done|done| |].
  { intros base e Hb Hm. rewrite Hb in Hcl. unfold answer in Hcl. rewrite Hm in Hcl. simpl in Hcl.
    by apply Forall_cons in Hcl as [? _]. }
  destruct (IH alg1) as (alg2 & Hsrv & Hs2 & Hok2); [done| |].
  { rewrite Hs1, Hspec. simpl. destruct (answer _ _ _); [by apply Forall_cons in Hcl as [_ ?]|done]. }
  exists alg2. simpl. rewrite Happ. simpl. rewrite Hsrv, Hs1. simpl.
  rewrite Hs1 in Hs2. by rewrite Hspec in *.
Qed.
End correct.

(** C37. The memo table of the shape algebra is invisible. Any sequence of mutation
    requests served from a new algebra is answered, without a panic, as by a specification
    that keeps only the map of shapes and recomputes every transition from the layout:
    outcomes, errors, receipts and the resulting shapes agree, whatever was requested
    before. Assumed of the JSON encoder and SHA-256: hex encoding is injective and the
    shape ids of the layouts that occur, the empty root and those of the answers, are
    distinct. *)
Theorem shape_requests_history_free `{!ShapeCrates, !ShapeCratesLaws} (requests : list (Z * ShapeMutation)) :
  ids_distinct (.∈ occurring requests) ->
  exists alg, serve new requests = Some ((serve_spec (shapes new) requests).1, alg) /\
    shapes alg = (serve_spec (shapes new) requests).2.
Proof.
  intros Hinj. destruct (serve_refines (.∈ occurring requests) new requests) as (alg & H1 & H2 & _); [done| | |eauto].
  - apply new_ok. by left.
  - apply Forall_forall. intros sk Hsk. by right.
Qed.

(** ** Adding a property and deleting it again *)

Lemma filter_snoc_key l key s attrs :
  key ∉ (property_key <$> l) ->
  List.filter (fun d => negb (String.eqb (property_key d) key)) (l ++ [mkLayout key s attrs]) = l.
Proof.
  intros Hk. rewrite List.filter_app. simpl. rewrite String.eqb_refl. simpl. rewrite app_nil_r.
  induction l as [|d l IH]; simpl; [done|]. rewrite fmap_cons, not_elem_of_cons in Hk.
  destruct (String.eqb_spec (property_key d) key); [naive_solver|]. simpl. rewrite IH; naive_solver.
Qed.

(** Adding a property and deleting it again leads back to the shape it started
    from, through another one. *)
Theorem shape_add_delete_returns `{!ShapeCrates, !ShapeCratesLaws}
    (U : ShapeSkeleton -> Prop) alg base sid key attrs :
  ids_distinct U -> alg_ok U alg -> shapes alg !! sid = Some base ->
  find_key (property_layout base) key = None ->
  U (mkSkeleton (prototype_fingerprint base)
       (property_layout base ++ [mkLayout key (zlen (property_layout base)) attrs])) ->
  exists o1 alg1 o2 alg2,
    apply_mutation alg sid (AddProperty key attrs) = Some (Ok o1, alg1) /\
    apply_mutation alg1 (shape_id (o_shape o1)) (DeleteProperty key) = Some (Ok o2, alg2) /\
    o_shape o2 = base /\ shape_id (o_shape o1) <> sid.
Proof.
  intros Hinj Hok Hb Hk HU. apply find_key_None in Hk.
  destruct (ok_shapes _ _ Hok _ _ Hb) as [[Hc Hl HUb] Hid].
  destruct (apply_mutation_spec U alg sid (AddProperty key attrs)) as (alg1 & H1 & Hok1 & _ & _ & Hs1);
    [done|done| |].
  { intros base' e Hb' He. simplify_eq. unfold mutate in He. rewrite bool_decide_false in He by done.
    by simplify_eq. }
  rewrite Hb in H1, Hs1. unfold answer, mutate in H1, Hs1. rewrite bool_decide_false in H1, Hs1 by done.
  simpl in H1, Hs1. eexists _, alg1.
  set (s1 := make_shape_descriptor (prototype_fingerprint base)
    (property_layout base ++ [mkLayout key (zlen (property_layout base)) attrs])) in *.
  assert (Hdel : mutate s1 (shape_id s1) (DeleteProperty key) = Ok (mkEffect base KDeleteProperty (Some key)
    None (prototype_fingerprint base) [ShapeGuard; PropertyCell; PropertyDescriptor])).
  { unfold mutate. rewrite bool_decide_true.
    - simpl. rewrite filter_snoc_key, renumber_ok by done. by rewrite <- Hc.
    - simpl. rewrite fmap_app. set_solver. }
  destruct (apply_mutation_spec U alg1 (shape_id s1) (DeleteProperty key)) as (alg2 & H2 & _);
    [done|done| |].
  { intros base' e Hb' He. rewrite Hs1, lookup_insert_eq in Hb'. injection Hb' as <-.
    rewrite Hdel in He. injection He as <-. done. }
  rewrite Hs1, lookup_insert_eq in H2. unfold answer in H2. rewrite Hdel in H2. simpl in H2.
  eexists _, alg2. split; [exact H1|]. split; [exact H2|]. split; [done|]. simpl. intros Heq.
  assert (mkSkeleton (prototype_fingerprint base) (property_layout base ++
    [mkLayout key (zlen (property_layout base)) attrs]) = skeleton_of base) as [= Happ].
  { apply Hinj; [done|done|]. rewrite <- Hid in Heq. rewrite Hc in Heq. done. }
  apply (f_equal length) in Happ. rewrite length_app in Happ. simpl in Happ. lia.
Qed.

(** ** The shapes of a program: no prototype, default attributes, keys of a pool *)

Definition pool_skeleton (pool : list string) (sk : ShapeSkeleton) : Prop :=
  sk_prototype_fingerprint sk = None /\ layout_ok (sk_property_layout sk) /\
  Forall (fun d => property_key d ∈ pool /\ attributes d = attrs_default) (sk_property_layout sk).

Definition pool_mutation (pool : list string) (m : ShapeMutation) : Prop :=
  match m with
  | AddProperty key attrs => key ∈ pool /\ attrs = attrs_default
  | DeleteProperty _ | WritePropertyCell _ => True
  | ReconfigureProperty _ _ | WritePrototype _ => False
  end.

Lemma pool_mutate `{!ShapeCrates} pool base sid m e :
  shape_ok (pool_skeleton pool) base -> pool_mutation pool m -> mutate base sid m = Ok e ->
  pool_skeleton pool (skeleton_of (next_shape e)).
Proof.
  intros Hb Hm He. destruct (mutate_layout_ok _ _ _ _ _ Hb He) as [Hl _].
  destruct Hb as [_ _ (Hp & _ & Hf)]. simpl in *. split; [|split; [done|]]; unfold mutate in He;
    destruct m as [key attrs|key| |key|]; simpl in *; try done.
  - case_bool_decide; by simplify_eq.
  - case_bool_decide; by simplify_eq.
  - destruct (find_key _ _); by simplify_eq.
  - case_bool_decide; simplify_eq. simpl. apply Forall_app. split; [done|].
    by apply Forall_singleton.
  - case_bool_decide; simplify_eq. simpl. apply Forall_lookup. intros i d.
    unfold renumber. rewrite list_lookup_imap. intros (d' & Hd & ->)%fmap_Some. simpl.
    apply list_elem_of_lookup_2, list_elem_of_In, filter_In in Hd as [Hin _].
    apply list_elem_of_In in Hin. by eapply Forall_forall in Hf.
  - destruct (find_key _ _); by simplify_eq.
Qed.

(** A concrete choice of the other crates, on which the identifiers of the
    shapes over two keys are distinct: a digest is seven zero bytes and the
    keys read as digits. *)
Module Sample.
Definition digit (d : PropertyLayoutDescriptor) : Z :=
  if String.eqb (property_key d) "x" then 1 else 2.

Definition code (sk : ShapeSkeleton) : Z :=
  fold_left (fun acc d => 3 * acc + digit d) (sk_property_layout sk) 0.

#[export] Instance crates : ShapeCrates := {
  skeleton_to_vec := fun sk => replicate 7 x00 ++ [Zbyte (code sk)];
  receipt_seed_to_vec := fun seed => [];
  sha256_digest := fun l => l;
  hex_encode := String.string_of_list_byte }.

#[export] Instance laws : ShapeCratesLaws.
Proof.
  split. intros a b Hab. simpl in Hab.
  rewrite <- (String.list_byte_of_string_of_list_byte a), Hab.
  apply String.list_byte_of_string_of_list_byte.
Qed.

Definition px (i : Z) : PropertyLayoutDescriptor := mkLayout "x" i attrs_default.
Definition py (i : Z) : PropertyLayoutDescriptor := mkLayout "y" i attrs_default.

Lemma pool_skeletons sk :
  pool_skeleton ["x"; "y"] sk ->
  sk ∈ mkSkeleton None <$> [ []; [px 0]; [py 0]; [px 0; py 1]; [py 0; px 1] ].
Proof.
  destruct sk as [p l]. intros (Hp & Hl & Hf). simpl in *. subst p.
  rewrite <- (renumber_ok l Hl). destruct Hl as [_ Hnd].
  destruct l as [|[k1 s1 a1] [|[k2 s2 a2] [|[k3 s3 a3] l]]]; simpl in *;
    repeat (apply Forall_cons in Hf as [[?Hk ?Ha] Hf]; simpl in *; subst);
    repeat match goal with
      H : _ ∈ ["x"; "y"] |- _ =>
        apply elem_of_cons in H as [-> | ->%list_elem_of_singleton] end;
    rewrite ?fmap_cons, ?NoDup_cons, ?not_elem_of_cons in Hnd; simpl in Hnd;
    first [exfalso; tauto | apply (bool_decide_unpack _); vm_compute; exact I].
Qed.

Lemma distinct : ids_distinct (pool_skeleton ["x"; "y"]).
Proof.
  intros a b Ha%pool_skeletons Hb%pool_skeletons Hid.
  assert (Forall (fun a => Forall (fun b => skeleton_shape_id a = skeleton_shape_id b -> a = b)
    (mkSkeleton None <$> [ []; [px 0]; [py 0]; [px 0; py 1]; [py 0; px 1] ]))
    (mkSkeleton None <$> [ []; [px 0]; [py 0]; [px 0; py 1]; [py 0; px 1] ])) as Hall.
  { repeat constructor; intros H; try reflexivity; vm_compute in H; discriminate H. }
  rewrite Forall_forall in Hall. specialize (Hall a Ha). rewrite Forall_forall in Hall.
  by apply Hall.
Qed.

Definition id_of (l : list PropertyLayoutDescriptor) : Z := skeleton_shape_id (mkSkeleton None l).

(** [{}] gets [x], then [y], a cell write, [x] again (an error), and loses [x]. *)
Definition requests : list (Z * ShapeMutation) :=
  [ (id_of [], AddProperty "x" attrs_default); (id_of [px 0], AddProperty "y" attrs_default);
    (id_of [px 0; py 1], WritePropertyCell "y"); (id_of [px 0], AddProperty "x" attrs_default);
    (id_of [px 0; py 1], DeleteProperty "x"); (id_of [], AddProperty "y" attrs_default) ].

Lemma requests_distinct : ids_distinct (.∈ occurring requests).
Proof.
  assert (Hall : Forall (fun a => Forall (fun b => skeleton_shape_id a = skeleton_shape_id b -> a = b) (occurring requests))
    (occurring requests)).
  { vm_compute. repeat constructor; intros H; first [reflexivity|discriminate H]. }
  intros a b Ha Hb. rewrite Forall_forall in Hall. specialize (Hall a Ha). rewrite Forall_forall in Hall. by apply Hall.
Qed.

Lemma root_in_pool : pool_skeleton ["x"; "y"] (mkSkeleton None []).
Proof. split; [done|]. split; [apply layout_ok_nil|constructor]. Qed.
End Sample.
#[local] Existing Instances Sample.crates Sample.laws.

Lemma shape_requests_history_free_witness :
  exists alg, serve new Sample.requests =
      Some ((serve_spec (shapes new) Sample.requests).1, alg) /\
    shapes alg = (serve_spec (shapes new) Sample.requests).2.
Proof.
  apply (shape_requests_history_free Sample.requests). exact Sample.requests_distinct.
Defined.

(** The registry of the sample is not trivial: four shapes, one refused request. *)
Example sample_requests_shapes :
  size (serve_spec (shapes new) Sample.requests).2 = 4%nat /\
  is_ok <$> (serve_spec (shapes new) Sample.requests).1 = [true; true; true; false; true; true].
Proof. vm_compute. done. Qed.

Lemma shape_add_delete_returns_witness :
  exists o1 alg1 o2 alg2,
    apply_mutation new (Sample.id_of []) (AddProperty "x" attrs_default) = Some (Ok o1, alg1) /\
    apply_mutation alg1 (shape_id (o_shape o1)) (DeleteProperty "x") = Some (Ok o2, alg2) /\
    o_shape o2 = make_shape_descriptor None [] /\ shape_id (o_shape o1) <> Sample.id_of [].
Proof.
  apply (shape_add_delete_returns (pool_skeleton ["x"; "y"])).
  - exact Sample.distinct.
  - apply new_ok, Sample.root_in_pool.
  - reflexivity.
  - reflexivity.
  - split; [done|]. split; [|repeat constructor].
    apply (layout_ok_snoc [] "x" attrs_default); [apply layout_ok_nil|apply not_elem_of_nil].
Defined.
