(* ===== verification/ShapeCaches.v ===== *)
(** * Property cells, inline caches and lineages (crates/franken-engine/src/shape_transition_algebra.rs)

    The state machines that guard optimized code on top of the shape algebra:
    the cell of a property and the table of cells, the inline cache of an
    instruction and the table of caches with its guard-failure witnesses, and
    the queries on the transition graph.  Display texts are not modelled. *)
From stdpp Require Import base numbers list strings gmap sorting.
From S2P Require Import Prelude Bytes ShapeAlgebra.
Open Scope string_scope.
Open Scope list_scope.
Open Scope Z_scope.

(** [saturating_add] and [saturating_sub] on [u32] *)
Definition sat_add32 (a b : Z) : Z := Z.min (a + b) u32_max.
Definition sat_sub32 (a b : Z) : Z := Z.max (a - b) 0.
Definition sat_mul64 (a b : Z) : Z := Z.min (a * b) u64_max.

(** ** Property cells *)

Inductive PropertyCellState := CUninitialised | CConstant | CStable | CInvalidated.

#[export] Instance PropertyCellState_eq_dec : EqDecision PropertyCellState.
Proof. solve_decision. Defined.

Module Cell.
Definition is_valid_for_ic (s : PropertyCellState) : bool :=
  match s with CConstant | CStable => true | _ => false end.

Definition on_write (s : PropertyCellState) (kind_changed : bool) : PropertyCellState :=
  match s with
  | CUninitialised => CConstant
  | CConstant => if kind_changed then CInvalidated else CStable
  | CStable => if kind_changed then CInvalidated else CStable
  | CInvalidated => CInvalidated
  end.
End Cell.

Record PropertyCellTracker := mkCell {
  c_shape_id : Z;
  c_property_name : string;
  c_state : PropertyCellState;
  dependent_ic_count : Z;
  write_epoch : Z }.

Module Tracker.
Definition new (shape_id : Z) (property_name : string) : PropertyCellTracker :=
  mkCell shape_id property_name CUninitialised 0 0.

Definition record_write (c : PropertyCellTracker) (kind_changed : bool) :
    PropertyCellTracker * bool :=
  let state := Cell.on_write (c_state c) kind_changed in
  (mkCell (c_shape_id c) (c_property_name c) state (dependent_ic_count c)
     (sat_add64 (write_epoch c) 1),
   negb (bool_decide (c_state c = CInvalidated)) && bool_decide (state = CInvalidated)).

Definition add_dependent (c : PropertyCellTracker) : PropertyCellTracker :=
  mkCell (c_shape_id c) (c_property_name c) (c_state c) (sat_add32 (dependent_ic_count c) 1)
    (write_epoch c).

Definition remove_dependent (c : PropertyCellTracker) : PropertyCellTracker :=
  mkCell (c_shape_id c) (c_property_name c) (c_state c) (sat_sub32 (dependent_ic_count c) 1)
    (write_epoch c).
End Tracker.

Record PropertyCellTable := mkCellTable {
  cells : list PropertyCellTracker;
  total_invalidations : Z }.

Module Cells.
Definition new : PropertyCellTable := mkCellTable [] 0.

Definition is_cell (shape_id : Z) (property_name : string) (c : PropertyCellTracker) : Prop :=
  c_shape_id c = shape_id /\ c_property_name c = property_name.

#[export] Instance is_cell_dec s p c : Decision (is_cell s p c).
Proof. unfold is_cell. apply _. Defined.

Definition get (t : PropertyCellTable) (shape_id : Z) (property_name : string) :
    option PropertyCellTracker :=
  snd <$> list_find (is_cell shape_id property_name) (cells t).

(** The mutable reference: the table, with the cell made if need be, and the
    index the reference points to. *)
Definition get_or_create (t : PropertyCellTable) (shape_id : Z) (property_name : string) :
    PropertyCellTable * nat :=
  match list_find (is_cell shape_id property_name) (cells t) with
  | Some (i, _) => (t, i)
  | None =>
      (mkCellTable (cells t ++ [Tracker.new shape_id property_name]) (total_invalidations t),
       length (cells t))
  end.

(** A write through the reference [get_or_create] returns. *)
Definition with_cell (t : PropertyCellTable) (i : nat)
    (f : PropertyCellTracker -> PropertyCellTracker) : PropertyCellTable :=
  mkCellTable (alter f i (cells t)) (total_invalidations t).

Definition record_write (t : PropertyCellTable) (shape_id : Z) (property_name : string)
    (kind_changed : bool) : PropertyCellTable * bool :=
  let '(t, i) := get_or_create t shape_id property_name in
  let invalidated :=
    match cells t !! i with
    | Some c => (Tracker.record_write c kind_changed).2
    | None => false
    end in
  let t := with_cell t i (fun c => (Tracker.record_write c kind_changed).1) in
  (if invalidated then mkCellTable (cells t) (sat_add64 (total_invalidations t) 1) else t,
   invalidated).

(** The condition of the loop and its body. *)
Definition hit_by (shape_id : Z) (c : PropertyCellTracker) : bool :=
  (c_shape_id c =? shape_id) && negb (bool_decide (c_state c = CInvalidated)).

Definition invalidate_cell (shape_id : Z) (c : PropertyCellTracker) : PropertyCellTracker :=
  if hit_by shape_id c
  then mkCell (c_shape_id c) (c_property_name c) CInvalidated (dependent_ic_count c)
         (sat_add64 (write_epoch c) 1)
  else c.

Definition invalidate_shape (t : PropertyCellTable) (shape_id : Z) : PropertyCellTable * Z :=
  let count := wrap_u32 (zlen (List.filter (hit_by shape_id) (cells t))) in
  (mkCellTable (invalidate_cell shape_id <$> cells t)
     (if 0 <? count then sat_add64 (total_invalidations t) count else total_invalidations t),
   count).
End Cells.

(** ** Inline caches *)

Definition MAX_POLYMORPHIC_IC_ENTRIES : Z := 4.

Record PolymorphicIcEntry := mkPoly {
  pe_shape_id : Z;
  pe_slot_offset : Z;
  pe_hit_count : Z }.

Inductive InlineCacheState :=
  | ICUninitialised
  | Monomorphic (shape_id slot_offset hit_count : Z)
  | Polymorphic (entries : list PolymorphicIcEntry) (total_hits : Z)
  | Megamorphic (observed_shapes total_accesses : Z).

Module IC.
Definition bump (e : PolymorphicIcEntry) : PolymorphicIcEntry :=
  mkPoly (pe_shape_id e) (pe_slot_offset e) (sat_add64 (pe_hit_count e) 1).

(** The new state and whether the cache degraded. *)
Definition record_access (s : InlineCacheState) (shape_id slot_offset : Z) :
    InlineCacheState * bool :=
  match s with
  | ICUninitialised => (Monomorphic shape_id slot_offset 1, false)
  | Monomorphic cached cached_off hit_count =>
      if cached =? shape_id then (Monomorphic shape_id cached_off (sat_add64 hit_count 1), false)
      else (Polymorphic [mkPoly cached cached_off hit_count; mkPoly shape_id slot_offset 1]
              (sat_add64 hit_count 1), true)
  | Polymorphic entries total_hits =>
      let new_total := sat_add64 total_hits 1 in
      match list_find (fun e => pe_shape_id e = shape_id) entries with
      | Some (i, _) => (Polymorphic (alter bump i entries) new_total, false)
      | None =>
          if zlen entries <? MAX_POLYMORPHIC_IC_ENTRIES
          then (Polymorphic (entries ++ [mkPoly shape_id slot_offset 1]) new_total, true)
          else (Megamorphic (sat_add32 (wrap_u32 (zlen entries)) 1) new_total, true)
      end
  | Megamorphic observed_shapes total_accesses =>
      (Megamorphic observed_shapes (sat_add64 total_accesses 1), false)
  end.

Definition is_fast_path (s : InlineCacheState) : bool :=
  match s with Monomorphic _ _ _ | Polymorphic _ _ => true | _ => false end.

Definition is_megamorphic (s : InlineCacheState) : bool :=
  match s with Megamorphic _ _ => true | _ => false end.

(** [iter().map(|e| e.hit_count).max().unwrap_or(0)] on [u64]s *)
Definition max_hits (entries : list PolymorphicIcEntry) : Z :=
  fold_left Z.max (pe_hit_count <$> entries) 0.

Definition hit_rate_millionths (s : InlineCacheState) : Z :=
  match s with
  | ICUninitialised | Megamorphic _ _ => 0
  | Monomorphic _ _ hit_count => if hit_count =? 0 then 0 else 1000000
  | Polymorphic entries total_hits =>
      if total_hits =? 0 then 0 else sat_mul64 (max_hits entries) 1000000 / total_hits
  end.
End IC.

(** ** Guard failures and the table of caches *)

Inductive GuardFailureReason :=
  | ShapeMismatch (expected_shape_id actual_shape_id : Z)
  | CellInvalidated (shape_id : Z) (property_name : string) (cell_state : PropertyCellState)
  | DictionaryPromotion (shape_id : Z)
  | PrototypeChanged (shape_id : Z)
  | NonExtensible (shape_id : Z).

Record ShapeGuardWitness := mkGuard {
  instruction_offset : Z;
  reason : GuardFailureReason;
  ic_state_before : InlineCacheState;
  failure_count : Z;
  permanent_deopt : bool }.

Module Guard.
Definition new (offset : Z) (reason : GuardFailureReason) (ic_state : InlineCacheState)
    (failure_count : Z) : ShapeGuardWitness :=
  mkGuard offset reason ic_state failure_count false.

Definition mark_permanent (w : ShapeGuardWitness) : ShapeGuardWitness :=
  mkGuard (instruction_offset w) (reason w) (ic_state_before w) (failure_count w) true.
End Guard.

Record InlineCacheTable := mkIcTable {
  ic_entries : gmap Z InlineCacheState;
  ic_witnesses : list ShapeGuardWitness;
  ic_total_hits : Z;
  ic_total_misses : Z }.

Record InlineCacheSummary := mkSummary {
  entry_count : Z;
  monomorphic_count : Z;
  polymorphic_count : Z;
  megamorphic_count : Z;
  uninitialised_count : Z;
  sum_total_hits : Z;
  sum_total_misses : Z;
  sum_hit_rate_millionths : Z;
  witness_count : Z }.

Module Table.
Definition new : InlineCacheTable := mkIcTable ∅ [] 0 0.

Definition get (t : InlineCacheTable) (offset : Z) : option InlineCacheState :=
  ic_entries t !! offset.

Definition record_access (t : InlineCacheTable) (offset shape_id slot_offset : Z) :
    InlineCacheTable * bool :=
  let current := default ICUninitialised (ic_entries t !! offset) in
  let '(new_state, degraded) := IC.record_access current shape_id slot_offset in
  (mkIcTable (<[offset := new_state]> (ic_entries t)) (ic_witnesses t)
     (if degraded then ic_total_hits t else sat_add64 (ic_total_hits t) 1)
     (if degraded then sat_add64 (ic_total_misses t) 1 else ic_total_misses t),
   negb degraded).

Definition existing_count (t : InlineCacheTable) (offset : Z) : Z :=
  zlen (List.filter (fun w => instruction_offset w =? offset) (ic_witnesses t)).

Definition record_guard_failure (t : InlineCacheTable) (offset : Z) (reason : GuardFailureReason) :
    InlineCacheTable :=
  let ic_state := default ICUninitialised (ic_entries t !! offset) in
  mkIcTable (ic_entries t)
    (ic_witnesses t ++ [Guard.new offset reason ic_state (wrap_u64 (existing_count t offset + 1))])
    (ic_total_hits t) (sat_add64 (ic_total_misses t) 1).

Definition hit_rate_millionths (t : InlineCacheTable) : Z :=
  let total := sat_add64 (ic_total_hits t) (ic_total_misses t) in
  if total =? 0 then 0 else sat_mul64 (ic_total_hits t) 1000000 / total.

(** The counters of [summary] are [u32]s. *)
Definition count_states (t : InlineCacheTable) (p : InlineCacheState -> bool) : Z :=
  fold_left (fun n s => if p s then wrap_u32 (n + 1) else n) (sorted_values (ic_entries t)) 0.

Definition summary (t : InlineCacheTable) : InlineCacheSummary :=
  mkSummary (wrap_u32 (Z.of_nat (size (ic_entries t))))
    (count_states t (fun s => match s with Monomorphic _ _ _ => true | _ => false end))
    (count_states t (fun s => match s with Polymorphic _ _ => true | _ => false end))
    (count_states t (fun s => match s with Megamorphic _ _ => true | _ => false end))
    (count_states t (fun s => match s with ICUninitialised => true | _ => false end))
    (ic_total_hits t) (ic_total_misses t) (hit_rate_millionths t)
    (wrap_u32 (zlen (ic_witnesses t))).
End Table.

(** ** Queries on the transition graph *)

Record LineageStep := mkStep {
  ls_from_shape_id : Z;
  ls_to_shape_id : Z;
  ls_transition_kind : TransitionKind;
  ls_property_key : option string }.

Record ShapeLineage := mkLineage {
  leaf_shape_id : Z;
  depth : Z;
  steps : list LineageStep }.

Record ConvergenceWitness := mkConvergence {
  target_shape_id : Z;
  source_shape_ids : list Z }.

Inductive DeoptTrigger :=
  | DShapeTransition | DCellInvalidation | DPrototypeMutation | DDescriptorChange.

Record DeoptEvent := mkDeopt {
  trigger : DeoptTrigger;
  d_from_shape_id : Z;
  d_to_shape_id : Z;
  d_property_key : option string;
  invalidated_assumption_count : Z }.

Definition all_property_keys (alg : ShapeTransitionAlgebra) : gset string :=
  fold_left (fun keys sh => fold_left (fun keys d => {[property_key d]} ∪ keys) (property_layout sh) keys)
    (sorted_values (shapes alg)) ∅.

Definition shape_count (alg : ShapeTransitionAlgebra) : Z := Z.of_nat (size (shapes alg)).
Definition transition_count (alg : ShapeTransitionAlgebra) : Z :=
  Z.of_nat (size (transition_table alg)).
Definition shape_ids (alg : ShapeTransitionAlgebra) : list Z := sorted_keys (shapes alg).

Definition transitions_from (alg : ShapeTransitionAlgebra) (sid : Z) : list ShapeTransition :=
  snd <$> List.filter (fun '(k, _) => k.1 =? sid) (sorted_entries (transition_table alg)).

Definition parent_transition (alg : ShapeTransitionAlgebra) (current : Z) : option ShapeTransition :=
  find (fun t => (to_shape_id t =? current) && negb (from_shape_id t =? current))
    (sorted_values (transition_table alg)).

Definition lineage_step (t : ShapeTransition) : LineageStep :=
  mkStep (from_shape_id t) (to_shape_id t) (transition_kind t) (t_property_key t).

(** The [while] loop; [None] is the end of the fuel. *)
Fixpoint lineage_loop (fuel : nat) (alg : ShapeTransitionAlgebra) (visited : gset Z) (current : Z)
    (acc : list LineageStep) : option (list LineageStep) :=
  match fuel with
  | O => None
  | S fuel =>
      if decide (current ∈ visited) then Some acc
      else match parent_transition alg current with
           | Some t => lineage_loop fuel alg ({[current]} ∪ visited) (from_shape_id t)
                         (acc ++ [lineage_step t])
           | None => Some acc
           end
  end.

(** Every iteration visits a new target of a transition, or the start. *)
Definition lineage (alg : ShapeTransitionAlgebra) (sid : Z) :
    option (result ShapeAlgebraError ShapeLineage) :=
  match shapes alg !! sid with
  | None => Some (Err (UnknownShape sid))
  | Some _ =>
      steps ← lineage_loop (S (S (size (transition_table alg)))) alg ∅ sid [];
      Some (Ok (mkLineage sid (wrap_u32 (zlen steps)) (reverse steps)))
  end.

Definition incoming (alg : ShapeTransitionAlgebra) : gmap Z (list Z) :=
  fold_left (fun m t =>
      if from_shape_id t =? to_shape_id t then m
      else <[to_shape_id t := default [] (m !! to_shape_id t) ++ [from_shape_id t]]> m)
    (sorted_values (transition_table alg)) ∅.

Definition find_convergences (alg : ShapeTransitionAlgebra) : list ConvergenceWitness :=
  (fun '(t, sources) => mkConvergence t sources) <$>
    List.filter (fun '(_, sources) => 1 <? zlen sources) (sorted_entries (incoming alg)).

Definition classify_deopt (t : ShapeTransition) : DeoptEvent :=
  mkDeopt
    (match transition_kind t with
     | KAddProperty | KDeleteProperty => DShapeTransition
     | KReconfigureProperty => DDescriptorChange
     | KPropertyCellWrite => DCellInvalidation
     | KPrototypeWrite => DPrototypeMutation
     end)
    (from_shape_id t) (to_shape_id t) (t_property_key t)
    (wrap_u32 (zlen (invalidated_assumptions (invalidation_receipt t)))).
