(* ===== verification/ShapeCachesCorrect.v ===== *)
(** * Correctness of inline caches, property cells and lineages

    The state of an inline cache is a function of the accesses it has seen: the
    distinct shapes in the order of their first access, each with the slot of
    that access and its number of accesses.  The table of cells counts its
    invalidated cells.  A lineage is a chain of transitions to its leaf. *)
From stdpp Require Import base numbers list strings gmap sorting.
From S2P Require Import Prelude Bytes ShapeAlgebra ShapeAlgebraCorrect ShapeCaches.
Open Scope string_scope.
Open Scope list_scope.
Open Scope Z_scope.

(** ** The specification of a cache: its history *)

(** An access is a pair of shape and slot.  The first access of every shape, in order. *)
Definition note (seen : list (Z * Z)) (a : Z * Z) : list (Z * Z) :=
  if decide (a.1 ∈ seen.*1) then seen else seen ++ [a].

Definition first_seen (h : list (Z * Z)) : list (Z * Z) := fold_left note h [].

Definition accesses (h : list (Z * Z)) (shape : Z) : Z :=
  zlen (filter (fun a : Z * Z => a.1 = shape) h).

Definition entry_of (h : list (Z * Z)) (a : Z * Z) : PolymorphicIcEntry :=
  mkPoly a.1 a.2 (accesses h a.1).

Definition ic_many (h seen : list (Z * Z)) : InlineCacheState :=
  if zlen seen <=? MAX_POLYMORPHIC_IC_ENTRIES
  then Polymorphic (entry_of h <$> seen) (zlen h)
  else Megamorphic (MAX_POLYMORPHIC_IC_ENTRIES + 1) (zlen h).

Definition ic_spec (h : list (Z * Z)) : InlineCacheState :=
  match first_seen h with
  | [] => ICUninitialised
  | [(shape, slot)] => Monomorphic shape slot (zlen h)
  | seen => ic_many h seen
  end.

(** An access degrades the cache when it brings a new shape to a cache that
    has one already and is not megamorphic. *)
Definition degrades (h : list (Z * Z)) (shape : Z) : bool :=
  bool_decide (shape ∉ (first_seen h).*1) &&
  bool_decide (1 <= zlen (first_seen h) <= MAX_POLYMORPHIC_IC_ENTRIES).

Lemma first_seen_snoc h a : first_seen (h ++ [a]) = note (first_seen h) a.
Proof. unfold first_seen. by rewrite fold_left_app. Qed.

Lemma first_seen_NoDup h : NoDup (first_seen h).*1.
Proof.
  induction h as [|a h IH] using rev_ind; [constructor|]. rewrite first_seen_snoc.
  unfold note. case_decide as Hin; [done|]. rewrite fmap_app. apply NoDup_app.
  split; [done|]. split; [|apply NoDup_singleton]. by intros x Hx ->%list_elem_of_singleton.
Qed.

Lemma first_seen_complete h a : a ∈ h -> a.1 ∈ (first_seen h).*1.
Proof.
  induction h as [|b h IH] using rev_ind; [by intros ?%elem_of_nil|].
  rewrite first_seen_snoc, elem_of_app, list_elem_of_singleton. unfold note.
  intros [Hin| ->]; case_decide as Hd; [by auto| |done|].
  - rewrite fmap_app, elem_of_app. left. by auto.
  - rewrite fmap_app, elem_of_app. right. by left.
Qed.

Lemma accesses_snoc h a shape :
  accesses (h ++ [a]) shape = accesses h shape + (if decide (a.1 = shape) then 1 else 0).
Proof.
  unfold accesses. rewrite filter_app, zlen_app. f_equal. rewrite filter_cons.
  case_decide; by rewrite filter_nil.
Qed.

Lemma accesses_le h shape : accesses h shape <= zlen h.
Proof. unfold accesses, zlen. pose proof (length_filter (fun a : Z * Z => a.1 = shape) h). lia. Qed.

Lemma accesses_new h shape : shape ∉ (first_seen h).*1 -> accesses h shape = 0.
Proof.
  intros Hn. unfold accesses. rewrite filter_none; [done|].
  intros a Ha <-. by apply Hn, first_seen_complete.
Qed.

(** With one shape, every access is of that shape. *)
Lemma accesses_single h shape slot : first_seen h = [(shape, slot)] -> accesses h shape = zlen h.
Proof.
  intros Hs. unfold accesses. rewrite filter_all; [done|].
  intros a Ha. apply first_seen_complete in Ha. rewrite Hs in Ha.
  by apply list_elem_of_singleton in Ha.
Qed.

(** An access of a known shape bumps the entry of that shape. *)
Lemma bump_known h (a : Z * Z) i (e : Z * Z) (seen : list (Z * Z)) :
  NoDup seen.*1 -> seen !! i = Some e -> e.1 = a.1 -> zlen h < u64_max ->
  alter IC.bump i (entry_of h <$> seen) = entry_of (h ++ [a]) <$> seen.
Proof.
  intros Hnd Hi He Hlen. apply list_eq. intros j.
  destruct (decide (i = j)) as [<-|Hne].
  - rewrite list_lookup_alter_eq, !list_lookup_fmap, Hi. simpl. f_equal.
    unfold IC.bump, entry_of. simpl. rewrite accesses_snoc, decide_True by done.
    f_equal. unfold sat_add64. pose proof (accesses_le h e.1). lia.
  - rewrite list_lookup_alter_ne, !list_lookup_fmap by done.
    destruct (seen !! j) as [b|] eqn:Hj; [|done]. simpl. f_equal. unfold entry_of. f_equal.
    rewrite accesses_snoc, decide_False; [lia|]. intros Hb. apply Hne.
    apply (NoDup_lookup seen.*1 i j a.1 Hnd); rewrite list_lookup_fmap;
      [rewrite Hi|rewrite Hj]; simpl; congruence.
Qed.

(** An access of a new shape leaves the other entries and counts as one. *)
Lemma entries_new h a :
  a.1 ∉ (first_seen h).*1 ->
  entry_of (h ++ [a]) <$> (first_seen h ++ [a]) =
  (entry_of h <$> first_seen h) ++ [mkPoly a.1 a.2 1].
Proof.
  intros Hn. rewrite fmap_app. f_equal.
  - apply list_fmap_ext. intros i b Hb. unfold entry_of. f_equal.
    rewrite accesses_snoc, decide_False; [lia|]. intros Heq. apply Hn. rewrite Heq.
    apply list_elem_of_fmap. exists b. split; [done|]. by eapply list_elem_of_lookup_2.
  - simpl. unfold entry_of. rewrite accesses_snoc, decide_True, accesses_new by done. done.
Qed.

Lemma find_entry h shape :
  list_find (fun e => pe_shape_id e = shape) (entry_of h <$> first_seen h) =
  prod_map id (entry_of h) <$> list_find (fun a : Z * Z => a.1 = shape) (first_seen h).
Proof. by rewrite list_find_fmap. Qed.

Lemma sat_zlen h (a : Z * Z) : zlen h < u64_max -> sat_add64 (zlen h) 1 = zlen (h ++ [a]).
Proof. intros Hl. rewrite zlen_app. unfold sat_add64. change (zlen [a]) with 1. lia. Qed.

Lemma many_known h (a : Z * Z) :
  zlen h < u64_max -> a.1 ∈ (first_seen h).*1 ->
  IC.record_access (ic_many h (first_seen h)) a.1 a.2 = (ic_many (h ++ [a]) (first_seen h), false).
Proof.
  intros Hlen Hin. pose proof (first_seen_NoDup h) as Hnd. unfold ic_many.
  destruct (zlen (first_seen h) <=? _); cbn [IC.record_access]; rewrite (sat_zlen h a) by done; [|done].
  rewrite find_entry.
  destruct (list_find (fun b : Z * Z => b.1 = a.1) (first_seen h)) as [[i e]|] eqn:Hf; simpl.
  - apply list_find_Some in Hf as (Hi & He & _). f_equal. f_equal. by eapply bump_known.
  - exfalso. apply list_elem_of_fmap in Hin as (b & Hb & Hin). apply list_find_None in Hf.
    rewrite Forall_forall in Hf. by apply (Hf b).
Qed.

Lemma many_new h (a : Z * Z) :
  zlen h < u64_max -> a.1 ∉ (first_seen h).*1 ->
  IC.record_access (ic_many h (first_seen h)) a.1 a.2 =
  (ic_many (h ++ [a]) (first_seen h ++ [a]),
   bool_decide (zlen (first_seen h) <= MAX_POLYMORPHIC_IC_ENTRIES)).
Proof.
  intros Hlen Hn. unfold ic_many. rewrite zlen_app. change (zlen [a]) with 1.
  destruct (Z.leb_spec (zlen (first_seen h)) MAX_POLYMORPHIC_IC_ENTRIES) as [Hle|Hgt];
    cbn [IC.record_access]; rewrite (sat_zlen h a) by done.
  2: { rewrite bool_decide_false by lia. by replace (_ <=? _) with false by lia. }
  rewrite bool_decide_true, find_entry by lia.
  assert (list_find (fun b : Z * Z => b.1 = a.1) (first_seen h) = None) as ->.
  { apply list_find_None, Forall_forall. intros b Hb Heq. apply Hn. rewrite <- Heq.
    apply list_elem_of_fmap. by exists b. }
  simpl. assert (zlen (entry_of h <$> first_seen h) = zlen (first_seen h)) as ->
    by (unfold zlen; by rewrite length_fmap).
  rewrite entries_new by done.
  destruct (Z.ltb_spec (zlen (first_seen h)) MAX_POLYMORPHIC_IC_ENTRIES) as [Hlt|Hge].
  - by replace (zlen (first_seen h) + 1 <=? _) with true by lia.
  - replace (zlen (first_seen h) + 1 <=? _) with false by lia.
    replace (zlen (first_seen h)) with MAX_POLYMORPHIC_IC_ENTRIES by lia. done.
Qed.

(** One access, from the specified state to the specified state. *)
Lemma record_access_spec h (a : Z * Z) :
  zlen h < u64_max ->
  IC.record_access (ic_spec h) a.1 a.2 = (ic_spec (h ++ [a]), degrades h a.1).
Proof.
  intros Hlen. unfold ic_spec, degrades. rewrite first_seen_snoc. unfold note.
  pose proof (many_known h a Hlen) as Hknown. pose proof (many_new h a Hlen) as Hnew.
  destruct (first_seen h) as [|[s o] [|b seen]] eqn:Hs.
  - rewrite decide_False by apply not_elem_of_nil. simpl. assert (h = []) as ->; [|by destruct a].
    destruct h as [|c h]; [done|]. assert (c ∈ c :: h) as Hc by by left.
    apply first_seen_complete in Hc. rewrite Hs in Hc. by apply elem_of_nil in Hc.
  - cbn [IC.record_access]. rewrite (sat_zlen h a) by done.
    destruct (decide (a.1 ∈ [(s, o)].*1)) as [Hin|Hin].
    + apply list_elem_of_singleton in Hin. simpl in Hin. subst s. rewrite Z.eqb_refl. 
      rewrite bool_decide_false; [done|]. intros Hn. apply Hn. by left.
    + assert (s <> a.1) as Hne by (intros ->; apply Hin; by left).
      rewrite (proj2 (Z.eqb_neq s a.1) Hne), !bool_decide_true by done.
      specialize (Hnew Hin). cbn [app] in *. 
      pose proof (entries_new h a) as He. rewrite Hs in He. specialize (He Hin). unfold ic_many.
      cbn [app] in He. rewrite He. simpl. unfold entry_of. simpl.
      by rewrite (accesses_single h s o Hs).
  - destruct (decide (a.1 ∈ ((s, o) :: b :: seen).*1)) as [Hin|Hin].
    + rewrite Hknown by done. f_equal. rewrite bool_decide_false; [done|tauto].
    + rewrite Hnew by done. simpl. f_equal. rewrite (bool_decide_true (_ ∉ _)) by done. simpl.
      apply bool_decide_ext. unfold zlen. simpl length. lia.
Qed.

(** ** The table of caches *)

Inductive IcOp :=
  | OAccess (offset shape slot : Z)
  | OFailure (offset : Z) (reason : GuardFailureReason).

Definition ic_op (t : InlineCacheTable) (o : IcOp) : InlineCacheTable :=
  match o with
  | OAccess offset shape slot => (Table.record_access t offset shape slot).1
  | OFailure offset r => Table.record_guard_failure t offset r
  end.

Definition ic_run (ops : list IcOp) : InlineCacheTable := fold_left ic_op ops Table.new.

(** The accesses and the failures at one instruction. *)
Definition history (offset : Z) (ops : list IcOp) : list (Z * Z) :=
  omap (fun o => match o with
                 | OAccess off shape slot => if decide (off = offset) then Some (shape, slot) else None
                 | OFailure _ _ => None
                 end) ops.

Definition failures (offset : Z) (ops : list IcOp) : list IcOp :=
  List.filter (fun o => match o with OFailure off _ => off =? offset | _ => false end) ops.

(** The number of operations a counter counts: an access is a miss when it
    degrades its cache; a failed guard is a miss. *)
Fixpoint misses (past ops : list IcOp) : Z :=
  match ops with
  | [] => 0
  | o :: ops =>
      (match o with
       | OAccess off shape _ => if degrades (history off past) shape then 1 else 0
       | OFailure _ _ => 1
       end) + misses (past ++ [o]) ops
  end.

Lemma history_snoc offset ops o :
  history offset (ops ++ [o]) = history offset ops ++ history offset [o].
Proof. unfold history. by rewrite omap_app. Qed.

Lemma history_length offset ops : zlen (history offset ops) <= zlen ops.
Proof.
  induction ops as [|o ops IH] using rev_ind; [done|]. rewrite history_snoc, !zlen_app.
  destruct o as [off s l|]; unfold history at 2; simpl; try case_decide; unfold zlen in *; simpl; lia.
Qed.

Lemma misses_snoc past ops o :
  misses past (ops ++ [o]) = misses past ops + misses (past ++ ops) [o].
Proof.
  revert past. induction ops as [|o' ops IH]; intros past; simpl.
  - rewrite app_nil_r. lia.
  - rewrite IH, <- app_assoc. simpl. lia.
Qed.

Lemma misses_range past ops : 0 <= misses past ops <= zlen ops.
Proof.
  revert past. induction ops as [|o ops IH]; intros past; simpl; [done|].
  specialize (IH (past ++ [o])). rewrite zlen_cons. destruct o; repeat case_match; lia.
Qed.

Record table_ok (ops : list IcOp) (t : InlineCacheTable) : Prop := {
  tb_state : forall off, default ICUninitialised (Table.get t off) = ic_spec (history off ops);
  tb_known : forall off, is_Some (Table.get t off) <-> history off ops <> [];
  tb_hits : ic_total_hits t = zlen ops - misses [] ops;
  tb_misses : ic_total_misses t = misses [] ops;
  tb_failures : forall off, Table.existing_count t off = zlen (failures off ops) }.

Lemma table_new : table_ok [] Table.new.
Proof.
  split; try done. intros off. unfold Table.get, Table.new. simpl. rewrite lookup_empty.
  split; [by intros [? ?]|done].
Qed.

Lemma failures_access offset ops off s l :
  failures offset (ops ++ [OAccess off s l]) = failures offset ops.
Proof. unfold failures. rewrite List.filter_app. simpl. by rewrite app_nil_r. Qed.

Lemma table_access ops t off s l :
  zlen ops < u64_max -> table_ok ops t ->
  table_ok (ops ++ [OAccess off s l]) (Table.record_access t off s l).1.
Proof.
  intros Hlen [Hst Hk Hh Hm Hf]. pose proof (history_length off ops) as Hhl.
  pose proof (misses_range [] ops) as Hmr.
  unfold Table.record_access. specialize (Hst off) as Hoff. unfold Table.get in Hoff. rewrite Hoff.
  pose proof (record_access_spec (history off ops) (s, l)) as Hr. simpl in Hr.
  rewrite Hr by lia. simpl.
  assert (forall o', history o' [OAccess off s l] = if decide (off = o') then [(s, l)] else []) as H1.
  { intros o'. unfold history. simpl. by case_decide. }
  split; simpl.
  - intros o'. rewrite history_snoc, H1. unfold Table.get. simpl. case_decide as He.
    + subst o'. by rewrite lookup_insert_eq.
    + rewrite lookup_insert_ne, app_nil_r by done. apply Hst.
  - intros o'. rewrite history_snoc, H1. unfold Table.get. simpl. case_decide as He.
    + subst o'. rewrite lookup_insert_eq. split; [|by eauto]. intros _ Hnil. by destruct (history off ops).
    + rewrite lookup_insert_ne, app_nil_r by done. apply Hk.
  - rewrite misses_snoc, zlen_app. simpl. rewrite Hh. change (zlen [_]) with 1. unfold sat_add64.
    destruct (degrades _ _); lia.
  - rewrite misses_snoc. simpl. rewrite Hm. unfold sat_add64. destruct (degrades _ _); lia.
  - intros o'. rewrite failures_access. apply Hf.
Qed.

Lemma table_failure ops t off r :
  zlen ops < u64_max -> table_ok ops t ->
  table_ok (ops ++ [OFailure off r]) (Table.record_guard_failure t off r).
Proof.
  intros Hlen [Hst Hk Hh Hm Hf]. pose proof (misses_range [] ops) as Hmr.
  assert (forall o', history o' (ops ++ [OFailure off r]) = history o' ops) as Hhis.
  { intros o'. rewrite history_snoc. unfold history at 2. simpl. by rewrite app_nil_r. }
  split; simpl.
  - intros o'. rewrite Hhis. apply Hst.
  - intros o'. rewrite Hhis. apply Hk.
  - rewrite misses_snoc, zlen_app, Hh. simpl. change (zlen [_]) with 1. lia.
  - rewrite misses_snoc, Hm. simpl. unfold sat_add64. lia.
  - intros o'. unfold Table.existing_count in *. simpl. rewrite List.filter_app, zlen_app, Hf. simpl.
    unfold failures. rewrite List.filter_app, zlen_app. f_equal. simpl. by destruct (off =? o').
Qed.

Lemma ic_run_ok ops : zlen ops <= u64_max -> table_ok ops (ic_run ops).
Proof.
  unfold ic_run. induction ops as [|o ops IH] using rev_ind; intros Hlen; [apply table_new|].
  rewrite zlen_app in Hlen. change (zlen [o]) with 1 in Hlen. rewrite fold_left_app.
  destruct o; [apply table_access|apply table_failure]; try apply IH; lia.
Qed.

(** Every inline cache of the table is a function of the accesses it has seen:
    uninitialised, monomorphic, polymorphic with the distinct shapes in order of their
    first access, each with the slot of that access and its exact count, or megamorphic
    from the fifth shape on. A miss is counted exactly when an access brings a new shape
    to a cache that has one to four, or a guard fails; hits and misses add up to the
    number of operations, and failures are counted per instruction. *)
Theorem inline_cache_follows_history (ops : list IcOp) :
  zlen ops <= u64_max ->
  let t := ic_run ops in
  (forall off, Table.get t off =
     if decide (history off ops = []) then None else Some (ic_spec (history off ops))) /\
  ic_total_misses t = misses [] ops /\ ic_total_hits t + ic_total_misses t = zlen ops /\
  forall off, Table.existing_count t off = zlen (failures off ops).
Proof.
  intros Hlen. destruct (ic_run_ok ops Hlen) as [Hst Hk Hh Hm Hf]. simpl.
  split; [|split; [done|split; [lia|done]]]. intros off. specialize (Hst off). specialize (Hk off).
  destruct (Table.get (ic_run ops) off) as [st|]; simpl in *; case_decide as He.
  - exfalso. by apply Hk.
  - by rewrite Hst.
  - done.
  - apply Hk in He as [? ?]. done.
Qed.

Module Sites.
(** Five shapes at one instruction, one of them twice. *)
Definition ops : list IcOp :=
  [OAccess 7 1 0; OAccess 7 2 1; OAccess 7 1 9; OAccess 7 3 0; OFailure 7 (DictionaryPromotion 3);
   OAccess 7 4 2; OAccess 8 1 0].

Example four_shapes :
  ic_spec (history 7 ops) =
  Polymorphic [mkPoly 1 0 2; mkPoly 2 1 1; mkPoly 3 0 1; mkPoly 4 2 1] 5.
Proof. reflexivity. Qed.
End Sites.

Lemma inline_cache_follows_history_witness :
  Table.get (ic_run (Sites.ops ++ [OAccess 7 5 0])) 7 = Some (Megamorphic 5 6) /\
  ic_total_misses (ic_run (Sites.ops ++ [OAccess 7 5 0])) = 5.
Proof.
  destruct (inline_cache_follows_history (Sites.ops ++ [OAccess 7 5 0])) as (H1 & H2 & _);
    [vm_compute; discriminate|].
  split; [rewrite (H1 7); reflexivity|rewrite H2; reflexivity].
Defined.

(** A megamorphic cache and the first access of a cold one count as hits. *)
Example megamorphic_accesses_are_hits :
  let t := ic_run (OAccess 7 6 0 :: [OAccess 7 1 0; OAccess 7 2 0; OAccess 7 3 0; OAccess 7 4 0;
                                     OAccess 7 8 0; OAccess 7 9 0]) in
  IC.hit_rate_millionths (default ICUninitialised (Table.get t 7)) = 0 /\
  ic_total_hits t = 3.
Proof. split; reflexivity. Qed.

(** ** The table of cells *)

Inductive CellOp :=
  | CWrite (shape : Z) (name : string) (kind_changed : bool)
  | CInvalidate (shape : Z)
  | CDepend (shape : Z) (name : string)
  | CUndepend (shape : Z) (name : string).

Definition cell_op (t : PropertyCellTable) (o : CellOp) : PropertyCellTable :=
  match o with
  | CWrite s p k => (Cells.record_write t s p k).1
  | CInvalidate s => (Cells.invalidate_shape t s).1
  | CDepend s p =>
      let '(t, i) := Cells.get_or_create t s p in Cells.with_cell t i Tracker.add_dependent
  | CUndepend s p =>
      let '(t, i) := Cells.get_or_create t s p in Cells.with_cell t i Tracker.remove_dependent
  end.

Definition cell_run (ops : list CellOp) : PropertyCellTable := fold_left cell_op ops Cells.new.

Definition key (c : PropertyCellTracker) : Z * string := (c_shape_id c, c_property_name c).

Definition dead (c : PropertyCellTracker) : bool := bool_decide (c_state c = CInvalidated).

Definition dead_cells (t : PropertyCellTable) : Z := zlen (List.filter dead (cells t)).

(** One cell per property; the counter counts the invalidated ones. *)
Record cells_ok (t : PropertyCellTable) : Prop := {
  co_unique : NoDup (key <$> cells t);
  co_total : total_invalidations t = dead_cells t }.

Lemma find_none_key t s p :
  list_find (Cells.is_cell s p) (cells t) = None -> (s, p) ∉ key <$> cells t.
Proof.
  rewrite list_find_None, Forall_forall. intros Hn (c & Hc & Hin)%list_elem_of_fmap.
  apply (Hn c Hin). injection Hc as -> ->. done.
Qed.

(** The index [get_or_create] returns is that of the cell asked for. *)
Lemma get_or_create_spec t s p :
  cells_ok t ->
  let '(t', i) := Cells.get_or_create t s p in
  cells_ok t' /\ (exists c, cells t' !! i = Some c /\ key c = (s, p)) /\
  dead_cells t' = dead_cells t /\ zlen (cells t) <= zlen (cells t') <= zlen (cells t) + 1.
Proof.
  intros [Hu Ht]. unfold Cells.get_or_create.
  destruct (list_find _ (cells t)) as [[i c]|] eqn:Hf.
  - apply list_find_Some in Hf as (Hi & [<- <-] & _). split; [done|].
    split; [by exists c|]. split; [done|lia].
  - assert (dead_cells (mkCellTable (cells t ++ [Tracker.new s p]) (total_invalidations t)) =
            dead_cells t) as Hd.
    { unfold dead_cells. simpl. rewrite List.filter_app. simpl. by rewrite app_nil_r. }
    split; [split; simpl|].
    + rewrite fmap_app. apply NoDup_app. split; [done|]. split; [|apply NoDup_singleton].
      intros x Hx ->%list_elem_of_singleton. by apply find_none_key in Hf.
    + by rewrite Hd.
    + split; [|split; [done|simpl; rewrite zlen_app; change (zlen [_]) with 1; lia]].
      exists (Tracker.new s p). split; [by apply list_lookup_middle|done].
Qed.

Lemma filter_alter_count (f : PropertyCellTracker -> PropertyCellTracker) l i c :
  l !! i = Some c ->
  zlen (List.filter dead (alter f i l)) =
  zlen (List.filter dead l) + (if dead (f c) then 1 else 0) - (if dead c then 1 else 0).
Proof.
  revert i. induction l as [|x l IH]; intros [|i] Hi; simpl in *; try done.
  - injection Hi as ->. destruct (dead (f c)), (dead c); unfold zlen; simpl; lia.
  - specialize (IH i Hi). change (alter f i l) with (list_alter f i l) in IH.
    destruct (dead x); unfold zlen in *; simpl; lia.
Qed.

Lemma alter_keys f t i : (forall c, key (f c) = key c) -> key <$> alter f i (cells t) = key <$> cells t.
Proof.
  intros Hf. apply list_eq. intros j. rewrite !list_lookup_fmap.
  destruct (decide (i = j)) as [<-|Hne]; [|by rewrite list_lookup_alter_ne].
  rewrite list_lookup_alter_eq. destruct (cells t !! i); [|done]. simpl. by rewrite Hf.
Qed.

Lemma dead_cells_range t : 0 <= dead_cells t <= zlen (cells t).
Proof. unfold dead_cells, zlen. pose proof (List.filter_length_le dead (cells t)). lia. Qed.

(** A cell changed without touching its state. *)
Lemma with_cell_ok t i c f :
  cells t !! i = Some c -> (forall c, key (f c) = key c) -> (forall c, c_state (f c) = c_state c) ->
  cells_ok t -> cells_ok (Cells.with_cell t i f).
Proof.
  intros Hi Hk Hs [Hu Ht]. split; simpl; [by rewrite alter_keys|]. unfold dead_cells. simpl.
  rewrite (filter_alter_count f _ i c Hi), Ht. unfold dead_cells, dead. rewrite Hs. lia.
Qed.

Lemma record_write_ok t s p k :
  zlen (cells t) < u64_max -> cells_ok t -> cells_ok (Cells.record_write t s p k).1.
Proof.
  intros Hlen Hok. pose proof (get_or_create_spec t s p Hok) as Hg. unfold Cells.record_write.
  destruct (Cells.get_or_create t s p) as [t1 i]. destruct Hg as ([Hu Ht] & (c & Hc & _) & Hd & Hl).
  rewrite Hc. set (f := fun c => (Tracker.record_write c k).1).
  assert (key <$> alter f i (cells t1) = key <$> cells t1) as Hk by by apply alter_keys.
  pose proof (filter_alter_count f _ i c Hc) as Hcount. pose proof (dead_cells_range t) as Hdr.
  change (dead (f c)) with (bool_decide (Cell.on_write (c_state c) k = CInvalidated)) in Hcount.
  unfold dead in Hcount at 3. unfold Tracker.record_write. simpl.
  assert (forall n, n = dead_cells (mkCellTable (alter f i (cells t1)) n) ->
    cells_ok (mkCellTable (alter f i (cells t1)) n)) as Hmk by (intros n Hn; by split; simpl; [rewrite Hk|]).
  unfold dead_cells in *. simpl in *. rewrite Hcount in Hmk.
  destruct (c_state c), k; simpl in *; apply Hmk; rewrite ?Ht; unfold sat_add64; lia.
Qed.

Lemma dead_invalidate s c : dead (Cells.invalidate_cell s c) = dead c || Cells.hit_by s c.
Proof.
  unfold Cells.invalidate_cell. destruct (Cells.hit_by s c); [by rewrite orb_true_r|].
  by rewrite orb_false_r.
Qed.

Lemma hit_not_dead s c : Cells.hit_by s c = true -> dead c = false.
Proof. unfold Cells.hit_by, dead. intros [_ Hd]%andb_true_iff. by apply negb_true_iff in Hd. Qed.

Lemma invalidate_filter s l :
  zlen (List.filter dead (Cells.invalidate_cell s <$> l)) =
  zlen (List.filter dead l) + zlen (List.filter (Cells.hit_by s) l).
Proof.
  induction l as [|c l IH]; [done|]. rewrite fmap_cons. cbn [List.filter].
  rewrite dead_invalidate. pose proof (hit_not_dead s c) as Hd.
  destruct (Cells.hit_by s c); [rewrite Hd by done|]; destruct (dead c);
    cbn [orb]; rewrite ?zlen_cons; lia.
Qed.

Lemma invalidate_shape_ok t s :
  zlen (cells t) <= u32_max -> cells_ok t -> cells_ok (Cells.invalidate_shape t s).1.
Proof.
  intros Hlen [Hu Ht]. unfold Cells.invalidate_shape.
  pose proof (List.filter_length_le (Cells.hit_by s) (cells t)) as Hle.
  pose proof (dead_cells_range t) as Hdr.
  assert (0 <= zlen (List.filter (Cells.hit_by s) (cells t)) <= zlen (cells t)) as Hr
    by (unfold zlen; lia).
  assert (wrap_u32 (zlen (List.filter (Cells.hit_by s) (cells t))) =
          zlen (List.filter (Cells.hit_by s) (cells t))) as ->
    by (unfold wrap_u32; apply Z.mod_small; unfold u32_max in Hlen; lia).
  split; simpl.
  - rewrite <- list_fmap_compose. erewrite list_fmap_ext; [exact Hu|].
    intros i c _. unfold compose, Cells.invalidate_cell. by case_match.
  - unfold dead_cells in *. simpl. rewrite invalidate_filter, Ht.
    unfold sat_add64, u64_max. unfold u32_max in Hlen. destruct (Z.ltb_spec 0 (zlen (List.filter (Cells.hit_by s) (cells t)))); lia.
Qed.

Lemma invalidate_cell_key s c : key (Cells.invalidate_cell s c) = key c.
Proof. unfold Cells.invalidate_cell. by case_match. Qed.

(** An operation adds at most one cell. *)
Lemma cell_op_ok t o :
  zlen (cells t) < u32_max -> cells_ok t ->
  cells_ok (cell_op t o) /\ zlen (cells (cell_op t o)) <= zlen (cells t) + 1.
Proof.
  intros Hlen Hok. assert (u32_max < u64_max) as Hmax by done.
  assert (forall f i l, zlen (alter f i l) = @zlen PropertyCellTracker l) as Halt
    by (intros; unfold zlen; by rewrite length_alter).
  destruct o as [s p k|s|s p|s p]; simpl.
  - split; [apply record_write_ok; [lia|done]|].
    pose proof (get_or_create_spec t s p Hok) as Hg. unfold Cells.record_write.
    destruct (Cells.get_or_create t s p) as [t1 i]. destruct Hg as (_ & _ & _ & Hl).
    case_match; simpl; rewrite Halt; lia.
  - split; [apply invalidate_shape_ok; [lia|done]|]. unfold zlen. simpl. rewrite length_fmap. lia.
  - pose proof (get_or_create_spec t s p Hok) as Hg. destruct (Cells.get_or_create t s p) as [t1 i].
    destruct Hg as (Hok1 & (c & Hc & _) & _ & Hl). split; [by eapply with_cell_ok|].
    simpl. rewrite Halt. lia.
  - pose proof (get_or_create_spec t s p Hok) as Hg. destruct (Cells.get_or_create t s p) as [t1 i].
    destruct Hg as (Hok1 & (c & Hc & _) & _ & Hl). split; [by eapply with_cell_ok|].
    simpl. rewrite Halt. lia.
Qed.

(** After any operations, fewer than 2^32 of them, there is one cell per
    property and the counter is the number of invalidated cells. *)
Lemma cell_table_counts (ops : list CellOp) :
  zlen ops <= u32_max ->
  NoDup (key <$> cells (cell_run ops)) /\
  total_invalidations (cell_run ops) = dead_cells (cell_run ops) /\
  zlen (cells (cell_run ops)) <= zlen ops.
Proof.
  intros Hlen. assert (cells_ok (cell_run ops) /\ zlen (cells (cell_run ops)) <= zlen ops) as [[Hu Ht] Hl].
  2: by rewrite Ht.
  unfold cell_run. induction ops as [|o ops IH] using rev_ind.
  { split; [|done]. split; [constructor|done]. }
  rewrite zlen_app in *. change (zlen [o]) with 1 in *. rewrite fold_left_app. simpl.
  destruct IH as [Hok Hl]; [lia|]. set (t := fold_left cell_op ops Cells.new) in *.
  destruct (cell_op_ok t o) as [Hok' Hl']; [lia|done|]. split; [done|lia].
Qed.

(** An invalidated cell stays invalidated. *)
Lemma invalidated_is_final c k : c_state c = CInvalidated ->
  c_state (Tracker.record_write c k).1 = CInvalidated /\ (Tracker.record_write c k).2 = false.
Proof. intros Hc. unfold Tracker.record_write. simpl. rewrite Hc. done. Qed.

(** ** Lineages *)

(** Steps that lead, one to the next, from a shape to a shape. *)
Fixpoint linked (from : Z) (l : list LineageStep) (to : Z) : Prop :=
  match l with
  | [] => from = to
  | st :: l => ls_from_shape_id st = from /\ linked (ls_to_shape_id st) l to
  end.

Definition is_transition (alg : ShapeTransitionAlgebra) (st : LineageStep) : Prop :=
  exists k t, transition_table alg !! k = Some t /\ st = lineage_step t /\
    ls_from_shape_id st <> ls_to_shape_id st.

Lemma parent_transition_Some alg current t :
  parent_transition alg current = Some t ->
  to_shape_id t = current /\ is_transition alg (lineage_step t).
Proof.
  intros [Hin Hp]%find_some. apply andb_true_iff in Hp as [Hto%Z.eqb_eq Hfrom%negb_true_iff%Z.eqb_neq].
  split; [done|]. apply list_elem_of_In in Hin. unfold sorted_values in Hin.
  apply list_elem_of_fmap in Hin as ([k t'] & -> & Hin). apply elem_of_sorted_entries in Hin.
  exists k, t'. split; [done|]. split; [done|]. simpl in *. congruence.
Qed.

(** The targets still to visit bound the loop. *)
Definition targets (alg : ShapeTransitionAlgebra) : gset Z :=
  list_to_set (to_shape_id <$> sorted_values (transition_table alg)).

Lemma size_list_le (l : list Z) : (size (list_to_set l : gset Z) <= length l)%nat.
Proof.
  induction l as [|x l IH]; [done|]. rewrite list_to_set_cons. simpl length.
  rewrite size_union_alt, size_singleton.
  assert (size ((list_to_set l : gset Z) ∖ {[x]}) <= size (list_to_set l : gset Z))%nat
    by (apply subseteq_size; set_solver). lia.
Qed.

Lemma size_targets alg : (size (targets alg) <= size (transition_table alg))%nat.
Proof.
  unfold targets. etrans; [apply size_list_le|]. unfold sorted_values.
  rewrite !length_fmap, sorted_entries_perm. by rewrite length_map_to_list.
Qed.

Lemma parent_target alg current t : parent_transition alg current = Some t -> current ∈ targets alg.
Proof.
  intros [Hin Hp]%find_some. apply andb_true_iff in Hp as [<-%Z.eqb_eq _].
  unfold targets. apply elem_of_list_to_set, list_elem_of_fmap. exists t.
  split; [done|]. by apply list_elem_of_In.
Qed.

Record path_ok (alg : ShapeTransitionAlgebra) (leaf from : Z) (acc : list LineageStep) : Prop := {
  pa_linked : linked from (reverse acc) leaf;
  pa_steps : Forall (is_transition alg) acc;
  pa_simple : NoDup (ls_to_shape_id <$> acc) }.

Lemma lineage_loop_spec fuel alg visited current acc leaf :
  (size (targets alg ∖ visited) < fuel)%nat ->
  (forall x, x ∈ ls_to_shape_id <$> acc -> x ∈ visited) ->
  path_ok alg leaf current acc ->
  exists res from, lineage_loop fuel alg visited current acc = Some res /\ path_ok alg leaf from res.
Proof.
  revert visited current acc. induction fuel as [|fuel IH]; intros visited current acc Hf Hv Hp; [lia|].
  simpl. case_decide as Hin; [by eauto|].
  destruct (parent_transition alg current) as [t|] eqn:Ht; [|by eauto].
  pose proof (parent_target _ _ _ Ht) as Htg. apply parent_transition_Some in Ht as [Hto Htr].
  apply IH.
  - assert (size (targets alg ∖ ({[current]} ∪ visited)) < size (targets alg ∖ visited))%nat; [|lia].
    apply subset_size. set_solver.
  - intros x. rewrite fmap_app, elem_of_app, list_fmap_singleton, list_elem_of_singleton. simpl.
    intros [Hx| ->]; [|rewrite Hto; set_solver]. apply Hv in Hx. set_solver.
  - destruct Hp as [Hl Hs Hn]. split.
    + rewrite reverse_app. simpl. by rewrite Hto.
    + apply Forall_app. split; [done|]. by apply Forall_singleton.
    + rewrite fmap_app. apply NoDup_app. split; [done|]. split; [|apply NoDup_singleton].
      intros x Hx ->%list_elem_of_singleton. simpl in Hx. rewrite Hto in Hx. by apply Hin, Hv.
Qed.

(** The lineage query always returns, although the transition graph has cycles: an
    unknown shape is an error, and otherwise the steps are transitions of the table that
    lead one to the next to the queried shape without entering a shape twice, at most as
    many as there are transitions. *)
Theorem lineage_is_simple_path alg sid :
  exists r, lineage alg sid = Some r /\
  match r with
  | Err e => e = UnknownShape sid /\ shapes alg !! sid = None
  | Ok l => is_Some (shapes alg !! sid) /\ leaf_shape_id l = sid /\
      (exists from, linked from (steps l) sid) /\ Forall (is_transition alg) (steps l) /\
      NoDup (ls_to_shape_id <$> steps l) /\ zlen (steps l) <= transition_count alg
  end.
Proof.
  unfold lineage. destruct (shapes alg !! sid) as [d|] eqn:Hs; [|by eexists].
  destruct (lineage_loop_spec (S (S (size (transition_table alg)))) alg ∅ sid [] sid)
    as (res & from & Hres & [Hl Ht Hn]).
  - rewrite difference_empty_L. pose proof (size_targets alg). lia.
  - intros x Hx. by apply elem_of_nil in Hx.
  - split; [done|constructor|constructor].
  - rewrite Hres. eexists. split; [reflexivity|]. simpl.
    assert (NoDup (ls_to_shape_id <$> reverse res)) as Hn' by (by rewrite fmap_reverse, reverse_Permutation).
    split; [done|]. split; [done|]. split; [by exists from|]. split; [by apply Forall_reverse|].
    split; [done|]. unfold zlen, transition_count. apply Nat2Z.inj_le.
    rewrite <- (length_fmap ls_to_shape_id).
    rewrite <- (size_list_to_set (C := gset Z) (ls_to_shape_id <$> reverse res)) by done.
    etrans; [apply subseteq_size|apply size_targets].
    intros x (st & -> & Hin)%elem_of_list_to_set%list_elem_of_fmap.
    rewrite elem_of_reverse in Hin. rewrite Forall_forall in Ht.
    destruct (Ht st Hin) as (k & t & Hk & -> & _). apply elem_of_list_to_set, list_elem_of_fmap.
    exists t. split; [done|]. unfold sorted_values. apply list_elem_of_fmap. exists (k, t).
    split; [done|]. by apply elem_of_sorted_entries.
Qed.

(** Adding a property and deleting it again makes a cycle, and the lineage of
    the shape in between goes around it: it starts at the shape itself instead
    of the root. *)
Definition after (alg : ShapeTransitionAlgebra) (sid : Z) (m : ShapeMutation) :
    ShapeTransitionAlgebra :=
  match @apply_mutation Sample.crates alg sid m with Some (_, alg) => alg | None => alg end.

Example lineage_goes_around :
  let alg := after (after (@new Sample.crates) 0 (AddProperty "x" attrs_default)) 1
               (DeleteProperty "x") in
  lineage alg 1 = Some (Ok (mkLineage 1 2
    [mkStep 1 0 KDeleteProperty (Some "x"); mkStep 0 1 KAddProperty (Some "x")])).
Proof. vm_compute. reflexivity. Qed.
