(* ===== verification/BytecodeVm.v ===== *)
(** * The bytecode virtual machine (crates/franken-engine/src/bytecode_vm.rs)

    A register machine with heap objects laid out by the shape algebra and an
    inline cache per property-load instruction.  Methods are functions from the
    machine to an outcome and the machine they leave; [Panicked] is a failed
    [expect] or [debug_assert].  Indices are [Z]; reading a vector out of range
    is [None], as with [get]. *)
From stdpp Require Import base numbers list strings gmap.
From Stdlib Require Import Strings.Byte.
From S2P Require Import Prelude Bytes ShapeAlgebra.
Open Scope string_scope.
Open Scope list_scope.
Open Scope Z_scope.

(** [vec.get(i)] *)
Definition zget {A} (l : list A) (i : Z) : option A :=
  if (0 <=? i) && (i <? zlen l) then l !! Z.to_nat i else None.

Definition VM_COMPONENT : string := "bytecode_vm".

(** ** Data *)

Definition Register : Type := Z.
Definition ObjectId : Type := Z.

Inductive Value :=
  | Undefined
  | VBool (b : bool)
  | VInt (n : Z)
  | VObject (id : ObjectId).

#[export] Instance Value_eq_dec : EqDecision Value.
Proof. solve_decision. Defined.

Definition is_truthy (v : Value) : bool :=
  match v with
  | Undefined => false
  | VBool b => b
  | VInt n => negb (n =? 0)
  | VObject _ => true
  end.

Definition kind (v : Value) : string :=
  match v with
  | Undefined => "undefined"
  | VBool _ => "bool"
  | VInt _ => "int"
  | VObject _ => "object"
  end.

Inductive Instruction :=
  | LoadConst (dst : Register) (const_index : Z)
  | Move (dst src : Register)
  | Add (dst lhs rhs : Register)
  | Sub (dst lhs rhs : Register)
  | Mul (dst lhs rhs : Register)
  | Div (dst lhs rhs : Register)
  | NewObject (dst : Register)
  | StoreProp (object : Register) (property_index : Z) (value : Register)
  | LoadPropCached (dst object : Register) (property_index : Z)
  | Jump (target : Z)
  | JumpIfFalse (condition : Register) (target : Z)
  | Return (src : Register).

Definition opcode_name (i : Instruction) : string :=
  match i with
  | LoadConst _ _ => "load_const"
  | Move _ _ => "move"
  | Add _ _ _ => "add"
  | Sub _ _ _ => "sub"
  | Mul _ _ _ => "mul"
  | Div _ _ _ => "div"
  | NewObject _ => "new_object"
  | StoreProp _ _ _ => "store_prop"
  | LoadPropCached _ _ _ => "load_prop_cached"
  | Jump _ => "jump"
  | JumpIfFalse _ _ => "jump_if_false"
  | Return _ => "return"
  end.

Record Program := mkProgram {
  constants : list Value;
  property_pool : list string;
  instructions : list Instruction }.

Inductive VmError :=
  | RegisterOutOfBounds (register : Z) (register_count : Z)
  | ConstantOutOfBounds (const_index : Z) (constant_count : Z)
  | PropertyIndexOutOfBounds (property_index : Z) (property_count : Z)
  | ObjectNotFound (object_id : Z)
  | TypeMismatch (expected got : string)
  | DivisionByZero
  | InvalidJumpTarget (target : Z) (instruction_count : Z)
  | MissingReturn
  | BudgetExhausted (executed_steps step_budget : Z).

Definition code (e : VmError) : string :=
  match e with
  | RegisterOutOfBounds _ _ => "register_oob"
  | ConstantOutOfBounds _ _ => "constant_oob"
  | PropertyIndexOutOfBounds _ _ => "property_oob"
  | ObjectNotFound _ => "object_not_found"
  | TypeMismatch _ _ => "type_mismatch"
  | DivisionByZero => "division_by_zero"
  | InvalidJumpTarget _ _ => "invalid_jump_target"
  | MissingReturn => "missing_return"
  | BudgetExhausted _ _ => "budget_exhausted"
  end.

Record HeapObject := mkObject {
  obj_shape_id : Z;
  obj_keys : list string;
  slots : list Value;
  key_to_slot : gmap string Z;
  property_cell_revisions : gmap string Z }.

Definition HeapObject_new (shape_id : Z) : HeapObject := mkObject shape_id [] [] ∅ ∅.

Definition load (o : HeapObject) (key : string) : option (Z * Value) :=
  slot ← key_to_slot o !! key; v ← zget (slots o) slot; Some (slot, v).

Definition load_slot (o : HeapObject) (slot_index : Z) : option Value :=
  zget (slots o) slot_index.

Record InlineCacheEntry := mkEntry {
  ic_shape_id : Z;
  ic_property_index : Z;
  ic_slot_index : Z;
  ic_hits : Z;
  ic_misses : Z }.

Definition InlineCacheEntry_default : InlineCacheEntry := mkEntry 0 0 0 0 0.

Record InlineCacheStats := mkStats { st_entries : Z; st_hits : Z; st_misses : Z }.

Record VmEvent := mkEvent {
  ev_trace_id : string;
  ev_component : string;
  ev_step : Z;
  ev_ip : Z;
  ev_opcode : string;
  ev_event : string;
  ev_outcome : string;
  ev_error_code : option string;
  ev_cache_hit : option bool }.

(** In shape_transition_algebra.rs. *)
Record ShapeTraceEvent := mkShapeTrace {
  tr_trace_id : string;
  tr_component : string;
  tr_step : Z;
  tr_object_id : Z;
  tr_from_shape_id : Z;
  tr_to_shape_id : Z;
  tr_to_shape_fingerprint : string;
  tr_transition_kind : TransitionKind;
  tr_property_key : option string;
  tr_invalidation_receipt : PropertyCellInvalidationReceipt;
  tr_revision_before : option Z;
  tr_revision_after : option Z }.

Record ExecutionReport := mkReport {
  rep_trace_id : string;
  rep_result : Value;
  rep_steps : Z;
  rep_cache_stats : InlineCacheStats;
  rep_state_hash : string;
  rep_events : list VmEvent;
  rep_shape_lattice : ShapeLatticeManifest;
  rep_shape_trace : list ShapeTraceEvent }.

Inductive ControlFlow :=
  | Continue (next_ip : Z) (cache_hit : option bool)
  | Returned (value : Value) (cache_hit : option bool).

Record EventRecord := mkRecord {
  er_step : Z;
  er_ip : Z;
  er_opcode : string;
  er_event : string;
  er_outcome : string;
  er_error_code : option string;
  er_cache_hit : option bool }.

Record BytecodeVm := mkVm {
  trace_id : string;
  registers : list Value;
  heap : list HeapObject;
  inline_cache : gmap Z InlineCacheEntry;
  step_budget : Z;
  shape_algebra : ShapeTransitionAlgebra;
  events : list VmEvent;
  shape_trace : list ShapeTraceEvent }.

Definition set_registers (f : list Value -> list Value) (vm : BytecodeVm) : BytecodeVm :=
  mkVm (trace_id vm) (f (registers vm)) (heap vm) (inline_cache vm) (step_budget vm)
    (shape_algebra vm) (events vm) (shape_trace vm).
Definition set_heap (f : list HeapObject -> list HeapObject) (vm : BytecodeVm) : BytecodeVm :=
  mkVm (trace_id vm) (registers vm) (f (heap vm)) (inline_cache vm) (step_budget vm)
    (shape_algebra vm) (events vm) (shape_trace vm).
Definition set_cache (f : gmap Z InlineCacheEntry -> gmap Z InlineCacheEntry)
    (vm : BytecodeVm) : BytecodeVm :=
  mkVm (trace_id vm) (registers vm) (heap vm) (f (inline_cache vm)) (step_budget vm)
    (shape_algebra vm) (events vm) (shape_trace vm).
Definition set_algebra (alg : ShapeTransitionAlgebra) (vm : BytecodeVm) : BytecodeVm :=
  mkVm (trace_id vm) (registers vm) (heap vm) (inline_cache vm) (step_budget vm)
    alg (events vm) (shape_trace vm).
Definition push_event (e : VmEvent) (vm : BytecodeVm) : BytecodeVm :=
  mkVm (trace_id vm) (registers vm) (heap vm) (inline_cache vm) (step_budget vm)
    (shape_algebra vm) (events vm ++ [e]) (shape_trace vm).
Definition push_trace (e : ShapeTraceEvent) (vm : BytecodeVm) : BytecodeVm :=
  mkVm (trace_id vm) (registers vm) (heap vm) (inline_cache vm) (step_budget vm)
    (shape_algebra vm) (events vm) (shape_trace vm ++ [e]).

(** ** Methods: outcome and machine *)

Inductive outcome (A : Type) :=
  | Done (a : A)
  | Fail (e : VmError)
  | Panicked.
Arguments Done {A} _.
Arguments Fail {A} _.
Arguments Panicked {A}.

Definition VM (A : Type) : Type := BytecodeVm -> outcome A * BytecodeVm.

#[export] Instance VM_ret : MRet VM := fun A a vm => (Done a, vm).
#[export] Instance VM_bind : MBind VM :=
  fun A B f m vm =>
    match m vm with
    | (Done a, vm) => f a vm
    | (Fail e, vm) => (Fail e, vm)
    | (Panicked, vm) => (Panicked, vm)
    end.

Definition fail {A} (e : VmError) : VM A := fun vm => (Fail e, vm).
Definition panic {A} : VM A := fun vm => (Panicked, vm).
Definition gets {A} (f : BytecodeVm -> A) : VM A := fun vm => (Done (f vm), vm).
Definition modify (f : BytecodeVm -> BytecodeVm) : VM unit := fun vm => (Done tt, f vm).
(** [opt.ok_or(e)?] *)
Definition ok_or_fail {A} (e : VmError) (o : option A) : VM A :=
  match o with Some a => mret a | None => fail e end.

(** The serialized fields of the state hash. *)
Record HashEnvelope := mkEnvelope {
  he_trace_id : string;
  he_result : Value;
  he_steps : Z;
  he_cache_stats : InlineCacheStats;
  he_registers : list Value;
  he_cache_entries : gmap Z InlineCacheEntry;
  he_heap : list HeapObject;
  he_shape_lattice : ShapeLatticeManifest;
  he_shape_trace : list ShapeTraceEvent }.

(** [serde_json::to_vec] on the envelope *)
Class VmCrates := { envelope_to_vec : HashEnvelope -> list byte }.

Section vm.
Context `{!ShapeCrates, !VmCrates}.

Definition BytecodeVm_new (trace_id : string) (register_count : nat) (step_budget : Z) :
    BytecodeVm :=
  mkVm trace_id (replicate register_count Undefined) [] ∅ step_budget new [] [].

Definition read_register (r : Register) : VM Value :=
  regs ← gets registers;
  ok_or_fail (RegisterOutOfBounds r (zlen regs)) (zget regs r).

Definition write_register (r : Register) (v : Value) : VM unit :=
  regs ← gets registers;
  _ ← ok_or_fail (RegisterOutOfBounds r (zlen regs)) (zget regs r);
  modify (set_registers <[Z.to_nat r := v]>).

Definition read_int (r : Register) : VM Z :=
  v ← read_register r;
  match v with
  | VInt n => mret n
  | other => fail (TypeMismatch "int" (kind other))
  end.

Definition read_object_id (r : Register) : VM ObjectId :=
  v ← read_register r;
  match v with
  | VObject id => mret id
  | other => fail (TypeMismatch "object" (kind other))
  end.

Definition binary_int_op (lhs rhs : Register) (operation : Z -> Z -> Z) : VM Z :=
  left ← read_int lhs;
  right ← read_int rhs;
  mret (operation left right).

Definition wrapping_add (l r : Z) : Z := wrap_i64 (l + r).
Definition wrapping_sub (l r : Z) : Z := wrap_i64 (l - r).
Definition wrapping_mul (l r : Z) : Z := wrap_i64 (l * r).
(** Truncated division; [MIN / -1] wraps. *)
Definition wrapping_div (l r : Z) : Z := wrap_i64 (Z.quot l r).

Definition property_name (p : Program) (property_index : Z) : VM string :=
  ok_or_fail (PropertyIndexOutOfBounds property_index (zlen (property_pool p)))
    (zget (property_pool p) property_index).

Definition get_object (id : ObjectId) : VM HeapObject :=
  h ← gets heap; ok_or_fail (ObjectNotFound id) (zget h id).

Definition next (ip : Z) : ControlFlow := Continue (ip + 1) None.

Definition exec_arith (ip : Z) (dst lhs rhs : Register) (op : Z -> Z -> Z) : VM ControlFlow :=
  value ← binary_int_op lhs rhs op;
  _ ← write_register dst (VInt value);
  mret (next ip).

Definition exec_div (ip : Z) (dst lhs rhs : Register) : VM ControlFlow :=
  left ← read_int lhs;
  right ← read_int rhs;
  if right =? 0 then fail DivisionByZero
  else _ ← write_register dst (VInt (wrapping_div left right)); mret (next ip).

Definition exec_new_object (ip : Z) (dst : Register) : VM ControlFlow :=
  h ← gets heap;
  alg ← gets shape_algebra;
  let object_id := u32_sat (zlen h) in
  _ ← modify (set_heap (fun h => h ++ [HeapObject_new (root_shape_id alg)]));
  _ ← write_register dst (VObject object_id);
  mret (next ip).

(** The block that writes the value and the bookkeeping of one object. *)
Definition store_into (o : HeapObject) (key : string) (v : Value) (existing_slot : option Z)
    (outcome_shape : Z) (revision_after : Z) : HeapObject :=
  let revisions := <[key := revision_after]> (property_cell_revisions o) in
  match existing_slot with
  | Some slot =>
      let slots' := if slot <? zlen (slots o) then <[Z.to_nat slot := v]> (slots o)
                    else slots o ++ [v] in
      mkObject outcome_shape (obj_keys o) slots' (key_to_slot o) revisions
  | None =>
      mkObject outcome_shape (obj_keys o ++ [key]) (slots o ++ [v])
        (<[key := zlen (slots o)]> (key_to_slot o)) revisions
  end.

(** [debug_assert_eq!(layout.slot_index, slot)] *)
Definition slot_as_laid_out (o : HeapObject) (existing_slot : option Z)
    (layout : option PropertyLayoutDescriptor) : bool :=
  match existing_slot, layout with
  | None, Some l => slot_index l =? zlen (slots o)
  | _, _ => true
  end.

Definition exec_store_prop (p : Program) (ip step : Z) (object : Register)
    (property_index : Z) (value : Register) : VM ControlFlow :=
  object_id ← read_object_id object;
  key ← property_name p property_index;
  stored_value ← read_register value;
  o ← get_object object_id;
  let existing_slot := key_to_slot o !! key in
  let revision_before := property_cell_revisions o !! key in
  let mutation := match existing_slot with
                  | Some _ => WritePropertyCell key
                  | None => AddProperty key attrs_default
                  end in
  alg ← gets shape_algebra;
  match apply_mutation alg (obj_shape_id o) mutation with
  | None | Some (Err _, _) => panic
  | Some (Ok out, alg') =>
      _ ← modify (set_algebra alg');
      let revision_after := wrap_u64 (default 0 revision_before + 1) in
      if slot_as_laid_out o existing_slot (t_property_layout (o_transition out)) then
        _ ← modify (set_heap <[Z.to_nat object_id :=
              store_into o key stored_value existing_slot (shape_id (o_shape out)) revision_after]>);
        tid ← gets trace_id;
        _ ← modify (push_trace (mkShapeTrace tid VM_COMPONENT step object_id (obj_shape_id o)
              (shape_id (o_shape out)) (fingerprint (o_shape out))
              (transition_kind (o_transition out)) (t_property_key (o_transition out))
              (invalidation_receipt (o_transition out)) revision_before (Some revision_after)));
        mret (next ip)
      else panic
  end.

(** The guard of the inline cache: the value it yields, if it hits. *)
Definition cache_probe (entry : option InlineCacheEntry) (o : HeapObject) (property_index : Z) :
    option (InlineCacheEntry * Value) :=
  entry ← entry;
  if (ic_shape_id entry =? obj_shape_id o) && (ic_property_index entry =? property_index) then
    v ← load_slot o (ic_slot_index entry); Some (entry, v)
  else None.

Definition exec_load_prop_cached (p : Program) (ip : Z) (dst object : Register)
    (property_index : Z) : VM ControlFlow :=
  object_id ← read_object_id object;
  key ← property_name p property_index;
  o ← get_object object_id;
  let cache_key := wrap_u32 ip in
  cache ← gets inline_cache;
  match cache_probe (cache !! cache_key) o property_index with
  | Some (entry, loaded) =>
      _ ← modify (set_cache <[cache_key :=
            mkEntry (ic_shape_id entry) (ic_property_index entry) (ic_slot_index entry)
              (wrap_u64 (ic_hits entry + 1)) (ic_misses entry)]>);
      _ ← write_register dst loaded;
      mret (Continue (ip + 1) (Some true))
  | None =>
      let '(slot_index, loaded) := default (usize_max, Undefined) (load o key) in
      let entry := default InlineCacheEntry_default (cache !! cache_key) in
      _ ← modify (set_cache <[cache_key :=
            mkEntry (obj_shape_id o) property_index slot_index
              (ic_hits entry) (wrap_u64 (ic_misses entry + 1))]>);
      _ ← write_register dst loaded;
      mret (Continue (ip + 1) (Some false))
  end.

Definition exec_jump (p : Program) (target : Z) : VM ControlFlow :=
  if zlen (instructions p) <=? target
  then fail (InvalidJumpTarget target (zlen (instructions p)))
  else mret (Continue target None).

Definition execute_instruction (p : Program) (ip step : Z) (i : Instruction) : VM ControlFlow :=
  match i with
  | LoadConst dst const_index =>
      constant ← ok_or_fail (ConstantOutOfBounds const_index (zlen (constants p)))
                   (zget (constants p) const_index);
      _ ← write_register dst constant;
      mret (next ip)
  | Move dst src => value ← read_register src; _ ← write_register dst value; mret (next ip)
  | Add dst lhs rhs => exec_arith ip dst lhs rhs wrapping_add
  | Sub dst lhs rhs => exec_arith ip dst lhs rhs wrapping_sub
  | Mul dst lhs rhs => exec_arith ip dst lhs rhs wrapping_mul
  | Div dst lhs rhs => exec_div ip dst lhs rhs
  | NewObject dst => exec_new_object ip dst
  | StoreProp object property_index value => exec_store_prop p ip step object property_index value
  | LoadPropCached dst object property_index => exec_load_prop_cached p ip dst object property_index
  | Jump target => exec_jump p target
  | JumpIfFalse condition target =>
      c ← read_register condition;
      if is_truthy c then mret (next ip) else exec_jump p target
  | Return src => v ← read_register src; mret (Returned v None)
  end.

Definition record_event (e : EventRecord) (vm : BytecodeVm) : BytecodeVm :=
  push_event (mkEvent (trace_id vm) VM_COMPONENT (er_step e) (er_ip e) (er_opcode e) (er_event e)
    (er_outcome e) (er_error_code e) (er_cache_hit e)) vm.

(** [.sum::<u64>()] over the entries *)
Definition cache_stats (vm : BytecodeVm) : InlineCacheStats :=
  let sum (f : InlineCacheEntry -> Z) :=
    fold_left (fun acc e => wrap_u64 (acc + f e)) (sorted_values (inline_cache vm)) 0 in
  mkStats (Z.of_nat (size (inline_cache vm))) (sum ic_hits) (sum ic_misses).

Definition compute_state_hash (vm : BytecodeVm) (result : Value) (steps : Z)
    (stats : InlineCacheStats) (lattice : ShapeLatticeManifest) : string :=
  hex_encode (sha256_digest (envelope_to_vec
    (mkEnvelope (trace_id vm) result steps stats (registers vm) (inline_cache vm) (heap vm)
       lattice (shape_trace vm)))).

Definition error_event (steps ip : Z) (opcode : string) (e : VmError) : EventRecord :=
  mkRecord steps (wrap_u32 ip) opcode "instruction" "error" (Some (code e)) None.

Definition report (vm : BytecodeVm) (value : Value) (steps : Z) : ExecutionReport :=
  let stats := cache_stats vm in
  let lattice := manifest (shape_algebra vm) in
  mkReport (trace_id vm) value steps stats (compute_state_hash vm value steps stats lattice)
    (events vm) lattice (shape_trace vm).

(** The [loop]; [None] is the end of the fuel.  Below the budget [steps + 1]
    does not overflow. *)
Fixpoint run (fuel : nat) (p : Program) (ip steps : Z) (vm : BytecodeVm) :
    option (outcome ExecutionReport * BytecodeVm) :=
  match fuel with
  | O => None
  | S fuel =>
      if step_budget vm <=? steps then
        let e := BudgetExhausted steps (step_budget vm) in
        Some (Fail e, record_event (error_event steps ip "budget" e) vm)
      else
        match zget (instructions p) ip with
        | None => Some (Fail MissingReturn, record_event (error_event steps ip "eof" MissingReturn) vm)
        | Some i =>
            let steps := steps + 1 in
            match execute_instruction p ip steps i vm with
            | (Done (Continue next_ip cache_hit), vm) =>
                run fuel p next_ip steps
                  (record_event (mkRecord steps (wrap_u32 ip) (opcode_name i) "instruction" "ok"
                     None cache_hit) vm)
            | (Done (Returned value cache_hit), vm) =>
                let vm := record_event (mkRecord steps (wrap_u32 ip) (opcode_name i) "return" "ok"
                            None cache_hit) vm in
                Some (Done (report vm value steps), vm)
            | (Fail e, vm) =>
                Some (Fail e, record_event (error_event steps ip (opcode_name i) e) vm)
            | (Panicked, vm) => Some (Panicked, vm)
            end
        end
  end.

(** The fields [execute] clears first. *)
Definition reset (vm : BytecodeVm) : BytecodeVm :=
  mkVm (trace_id vm) ((fun _ => Undefined) <$> registers vm) [] ∅ (step_budget vm) new [] [].

Definition execute (p : Program) (vm : BytecodeVm) : option (outcome ExecutionReport * BytecodeVm) :=
  run (S (Z.to_nat (step_budget vm))) p 0 0 (reset vm).
End vm.

(** ** The reference machine of the bytecode VM

    The same instructions on plain objects: an object is a finite map from
    property names to values.  No shapes, slots or inline caches; this is the
    abstract specification that BytecodeVmCorrect.v refines the machine above
    to. *)

Module Ref.

(** What an event shows apart from the cache: step, instruction pointer,
    opcode, event, outcome, error code. *)
Definition Entry : Type := Z * Z * string * string * string * option string.

Record State := mkState {
  regs : list Value;
  objs : list (gmap string Value);
  trace : list Entry }.

Definition set_regs (f : list Value -> list Value) (st : State) : State :=
  mkState (f (regs st)) (objs st) (trace st).
Definition set_objs (f : list (gmap string Value) -> list (gmap string Value)) (st : State) : State :=
  mkState (regs st) (f (objs st)) (trace st).
Definition emit (e : Entry) (st : State) : State :=
  mkState (regs st) (objs st) (trace st ++ [e]).

Definition R (A : Type) : Type := State -> result VmError A * State.

#[global] Instance R_ret : MRet R := fun A a st => (Ok a, st).
#[global] Instance R_bind : MBind R :=
  fun A B f m st => match m st with (Ok a, st) => f a st | (Err e, st) => (Err e, st) end.

Definition throw {A} (e : VmError) : R A := fun st => (Err e, st).
Definition ask {A} (f : State -> A) : R A := fun st => (Ok (f st), st).
Definition update (f : State -> State) : R unit := fun st => (Ok tt, f st).
Definition ok_or_throw {A} (e : VmError) (o : option A) : R A :=
  match o with Some a => mret a | None => throw e end.

Inductive Flow := Go (ip : Z) | Stop (v : Value).

Definition read (r : Register) : R Value :=
  l ← ask regs; ok_or_throw (RegisterOutOfBounds r (zlen l)) (zget l r).

Definition write (r : Register) (v : Value) : R unit :=
  l ← ask regs;
  _ ← ok_or_throw (RegisterOutOfBounds r (zlen l)) (zget l r);
  update (set_regs <[Z.to_nat r := v]>).

Definition read_int (r : Register) : R Z :=
  v ← read r; match v with VInt n => mret n | v => throw (TypeMismatch "int" (kind v)) end.

Definition read_id (r : Register) : R ObjectId :=
  v ← read r; match v with VObject id => mret id | v => throw (TypeMismatch "object" (kind v)) end.

Definition name (p : Program) (k : Z) : R string :=
  ok_or_throw (PropertyIndexOutOfBounds k (zlen (property_pool p))) (zget (property_pool p) k).

Definition fetch (id : ObjectId) : R (gmap string Value) :=
  h ← ask objs; ok_or_throw (ObjectNotFound id) (zget h id).

Definition jump (p : Program) (target : Z) : R Flow :=
  if zlen (instructions p) <=? target
  then throw (InvalidJumpTarget target (zlen (instructions p))) else mret (Go target).

Definition arith (ip : Z) (dst lhs rhs : Register) (op : Z -> Z -> Z) : R Flow :=
  n ← (a ← read_int lhs; b ← read_int rhs; mret (op a b));
  _ ← write dst (VInt n); mret (Go (ip + 1)).

Definition step (p : Program) (ip : Z) (i : Instruction) : R Flow :=
  match i with
  | LoadConst dst k =>
      v ← ok_or_throw (ConstantOutOfBounds k (zlen (constants p))) (zget (constants p) k);
      _ ← write dst v; mret (Go (ip + 1))
  | Move dst src => v ← read src; _ ← write dst v; mret (Go (ip + 1))
  | Add dst lhs rhs => arith ip dst lhs rhs wrapping_add
  | Sub dst lhs rhs => arith ip dst lhs rhs wrapping_sub
  | Mul dst lhs rhs => arith ip dst lhs rhs wrapping_mul
  | Div dst lhs rhs =>
      a ← read_int lhs; b ← read_int rhs;
      if b =? 0 then throw DivisionByZero
      else _ ← write dst (VInt (wrapping_div a b)); mret (Go (ip + 1))
  | NewObject dst =>
      h ← ask objs;
      _ ← update (set_objs (fun h => h ++ [∅]));
      _ ← write dst (VObject (u32_sat (zlen h))); mret (Go (ip + 1))
  | StoreProp object k value =>
      id ← read_id object; key ← name p k; v ← read value; m ← fetch id;
      _ ← update (set_objs <[Z.to_nat id := <[key := v]> m]>); mret (Go (ip + 1))
  | LoadPropCached dst object k =>
      id ← read_id object; key ← name p k; m ← fetch id;
      _ ← write dst (default Undefined (m !! key)); mret (Go (ip + 1))
  | Jump target => jump p target
  | JumpIfFalse condition target =>
      c ← read condition; if is_truthy c then mret (Go (ip + 1)) else jump p target
  | Return src => v ← read src; mret (Stop v)
  end.

Definition ok_entry (steps ip : Z) (i : Instruction) (event : string) : Entry :=
  (steps, wrap_u32 ip, opcode_name i, event, "ok", None).
Definition err_entry (steps ip : Z) (opcode : string) (e : VmError) : Entry :=
  (steps, wrap_u32 ip, opcode, "instruction", "error", Some (code e)).

Fixpoint run (fuel : nat) (p : Program) (budget ip steps : Z) (st : State) :
    option (result VmError (Value * Z) * State) :=
  match fuel with
  | O => None
  | S fuel =>
      if budget <=? steps then
        let e := BudgetExhausted steps budget in
        Some (Err e, emit (err_entry steps ip "budget" e) st)
      else
        match zget (instructions p) ip with
        | None => Some (Err MissingReturn, emit (err_entry steps ip "eof" MissingReturn) st)
        | Some i =>
            let steps := steps + 1 in
            match step p ip i st with
            | (Ok (Go ip'), st) => run fuel p budget ip' steps (emit (ok_entry steps ip i "instruction") st)
            | (Ok (Stop v), st) => Some (Ok (v, steps), emit (ok_entry steps ip i "return") st)
            | (Err e, st) => Some (Err e, emit (err_entry steps ip (opcode_name i) e) st)
            end
        end
  end.

Definition execute (p : Program) (register_count : nat) (budget : Z) :
    option (result VmError (Value * Z) * State) :=
  run (S (Z.to_nat budget)) p budget 0 0 (mkState (replicate register_count Undefined) [] []).
End Ref.
