(* ===== verification/BytecodeVmCorrect.v ===== *)
(** * The bytecode VM refines the machine on plain objects

    The simulation relation [sim] relates a machine of BytecodeVm.v to a state
    of the reference machine: equal registers, objects laid out by their shape
    ([obj_rel]), inline-cache entries that agree with the shape they guard
    ([cache_ok]).  Computations are related by [simM], which composes along
    [bind]; every instruction preserves the relation. *)
From stdpp Require Import base numbers list strings gmap sets.
From Stdlib Require Import Strings.Byte.
From S2P Require Import Prelude Bytes ShapeAlgebra ShapeAlgebraCorrect.
From S2P Require Import BytecodeVm.
Open Scope string_scope.
Open Scope list_scope.
Open Scope Z_scope.

(** ** Vectors *)

Lemma zget_Some {A} (l : list A) i a :
  zget l i = Some a <-> 0 <= i /\ l !! Z.to_nat i = Some a.
Proof.
  unfold zget, zlen. split.
  - destruct (0 <=? i) eqn:H1, (i <? _) eqn:H2; simpl; try done. intros Hl. split; [lia|exact Hl].
  - intros [H1 H2]. pose proof (lookup_lt_Some _ _ _ H2).
    destruct (0 <=? i) eqn:H3, (i <? _) eqn:H4; try lia. done.
Qed.

Lemma zget_None {A} (l : list A) i : zget l i = None <-> ~ (0 <= i < zlen l).
Proof.
  destruct (zget l i) as [a|] eqn:Hz; split; try done.
  - apply zget_Some in Hz as [H1 H2%lookup_lt_Some]. unfold zlen. lia.
  - intros _ Hi. assert (is_Some (l !! Z.to_nat i)) as [a Ha].
    { apply lookup_lt_is_Some. unfold zlen in *. lia. }
    assert (zget l i = Some a) by (apply zget_Some; split; [lia|done]). congruence.
Qed.

Lemma zget_of_nat {A} (l : list A) n : zget l (Z.of_nat n) = l !! n.
Proof.
  destruct (l !! n) as [a|] eqn:Hn.
  - apply zget_Some. rewrite Nat2Z.id. split; [lia|done].
  - apply zget_None. apply lookup_ge_None in Hn. unfold zlen. lia.
Qed.

Lemma zget_lt {A} (l : list A) i a : zget l i = Some a -> 0 <= i < zlen l.
Proof. intros [H1 H2%lookup_lt_Some]%zget_Some. unfold zlen. lia. Qed.

Lemma zget_Forall2 {A B} (P : A -> B -> Prop) l k i a :
  Forall2 P l k -> zget l i = Some a -> exists b, zget k i = Some b /\ P a b.
Proof.
  intros HF [H1 H2]%zget_Some. eapply Forall2_lookup_l in HF as (b & Hb & HP); [|done].
  exists b. split; [|done]. by apply zget_Some.
Qed.

Lemma zget_Forall2_None {A B} (P : A -> B -> Prop) l k i :
  Forall2 P l k -> zget l i = None -> zget k i = None.
Proof.
  intros HF%Forall2_length Hn. apply zget_None. apply zget_None in Hn. unfold zlen in *. by rewrite <- HF.
Qed.

(** ** Slots of a layout *)

Lemma slot_for_lookup s k i :
  layout_ok (property_layout s) ->
  slot_for s k = Some i <->
  exists n d, property_layout s !! n = Some d /\ property_key d = k /\ i = Z.of_nat n.
Proof.
  intros [Hs Hk]. unfold slot_for. split.
  - intros (d & [Hd Hin]%find_key_Some & ->)%fmap_Some.
    apply list_elem_of_lookup in Hin as [n Hn]. exists n, d. split; [done|]. split; [done|]. by apply Hs.
  - intros (n & d & Hn & Hd & ->). rewrite (find_key_lookup _ _ n d) by done. simpl. f_equal. by apply Hs.
Qed.

Lemma slot_for_snoc s l key attrs k :
  property_layout s = l ++ [mkLayout key (zlen l) attrs] ->
  key ∉ (property_key <$> l) ->
  slot_for s k = if decide (k = key) then Some (zlen l) else slot_index <$> find_key l k.
Proof.
  intros Hs Hk. unfold slot_for. rewrite Hs. unfold find_key. clear Hs s.
  generalize (zlen l). intros n. induction l as [|d l IH].
  - simpl. destruct (String.eqb_spec key k), (decide (k = key)); simpl; congruence.
  - rewrite fmap_cons, not_elem_of_cons in Hk. simpl.
    destruct (String.eqb_spec (property_key d) k), (decide (k = key)); try naive_solver.
Qed.

(** ** The simulation relation *)

Section sim.
Context `{!ShapeCrates, !ShapeCratesLaws, !VmCrates}.
Context (p : Program).
Implicit Types (vm : BytecodeVm) (st : Ref.State) (alg : ShapeTransitionAlgebra).

Definition U : ShapeSkeleton -> Prop := pool_skeleton (property_pool p).

(** An object is laid out as its shape says. *)
Definition obj_ok alg (o : HeapObject) : Prop :=
  exists s, shapes alg !! obj_shape_id o = Some s /\
    (forall k, key_to_slot o !! k = slot_for s k) /\
    obj_keys o = keys s /\
    length (slots o) = length (property_layout s).

Definition obj_rel alg (o : HeapObject) (m : gmap string Value) : Prop :=
  obj_ok alg o /\ forall k, m !! k = snd <$> load o k.

(** A cache entry stores the slot its shape gives to its property, or
    [usize::MAX] when the shape has no such property. *)
Definition entry_ok alg (e : InlineCacheEntry) : Prop :=
  exists s key, shapes alg !! ic_shape_id e = Some s /\
    zget (property_pool p) (ic_property_index e) = Some key /\
    ic_slot_index e = default usize_max (slot_for s key).

Definition cache_ok alg (c : gmap Z InlineCacheEntry) : Prop :=
  map_Forall (fun _ e => entry_ok alg e) c.

Definition erase (e : VmEvent) : Ref.Entry :=
  (ev_step e, ev_ip e, ev_opcode e, ev_event e, ev_outcome e, ev_error_code e).

Record sim (budget : Z) vm st : Prop := {
  sim_regs : registers vm = Ref.regs st;
  sim_heap : Forall2 (obj_rel (shape_algebra vm)) (heap vm) (Ref.objs st);
  sim_cache : cache_ok (shape_algebra vm) (inline_cache vm);
  sim_alg : alg_ok U (shape_algebra vm);
  sim_root : exists s, shapes (shape_algebra vm) !! root_shape_id (shape_algebra vm) = Some s /\
               property_layout s = [];
  sim_trace : erase <$> events vm = Ref.trace st;
  sim_budget : step_budget vm = budget }.

Context (Hdistinct : ids_distinct U).
Context (Hpool : zlen (property_pool p) <= usize_max).
Context (budget : Z).

Lemma heap_obj_ok_mono alg alg' o : shapes alg ⊆ shapes alg' -> obj_ok alg o -> obj_ok alg' o.
Proof. intros Hs (s & Hl & Ho). exists s. split; [|done]. by apply (lookup_weaken _ _ _ _ Hl). Qed.

Lemma entry_ok_mono alg alg' e : shapes alg ⊆ shapes alg' -> entry_ok alg e -> entry_ok alg' e.
Proof.
  intros Hs (s & k & Hl & Ho). exists s, k. split; [|done]. by apply (lookup_weaken _ _ _ _ Hl).
Qed.

(** *** Layout facts *)

(** Objects have fewer slots than the largest index. *)
Lemma layout_small alg id s :
  alg_ok U alg -> shapes alg !! id = Some s -> zlen (property_layout s) <= usize_max.
Proof.
  intros Hok Hs. destruct (ok_shapes _ _ Hok _ _ Hs) as [[_ [_ Hnd] (_ & _ & Hf)] _].
  etrans; [|exact Hpool]. unfold zlen. apply inj_le.
  rewrite <- (length_fmap property_key). apply submseteq_length, NoDup_submseteq; [done|].
  intros k (d & -> & Hd)%list_elem_of_fmap. rewrite Forall_forall in Hf. by apply Hf.
Qed.

(** Loading by name reads the slot of the shape. *)
Lemma load_slot_for alg o s k :
  alg_ok U alg -> shapes alg !! obj_shape_id o = Some s ->
  (forall k, key_to_slot o !! k = slot_for s k) ->
  length (slots o) = length (property_layout s) ->
  match slot_for s k with
  | Some i => exists v, load_slot o i = Some v /\ load o k = Some (i, v)
  | None => load o k = None
  end.
Proof.
  intros Hok Hs Hk Hl. destruct (ok_shapes _ _ Hok _ _ Hs) as [[_ Hlay _] _].
  unfold load, load_slot. rewrite Hk. destruct (slot_for s k) as [i|] eqn:Hi; [|done].
  apply slot_for_lookup in Hi as (n & d & Hn & _ & ->); [|done]. rewrite zget_of_nat.
  assert (is_Some (slots o !! n)) as [v Hv].
  { apply lookup_lt_is_Some. rewrite Hl. by eapply lookup_lt_Some. }
  exists v. simpl. by rewrite zget_of_nat, Hv.
Qed.

(** The heart of cache transparency: a probe that hits yields what the lookup
    by name yields. *)
Lemma cache_probe_correct alg e o m k key entry v :
  alg_ok U alg -> obj_rel alg o m -> entry_ok alg e ->
  zget (property_pool p) k = Some key ->
  cache_probe (Some e) o k = Some (entry, v) -> entry = e /\ v = default Undefined (m !! key).
Proof.
  intros Hok [(s & Hs & Hk & _ & Hl) Hm] (s' & key' & Hs' & Hkey' & Hslot) Hkey. simpl.
  destruct (Z.eqb_spec (ic_shape_id e) (obj_shape_id o)) as [Hid|]; [|done].
  destruct (Z.eqb_spec (ic_property_index e) k) as [<-|]; [|done]. simpl.
  destruct (load_slot o (ic_slot_index e)) as [v'|] eqn:Hload; [|done]. intros [= <- <-].
  split; [done|]. rewrite Hid in Hs'. simplify_eq.
  pose proof (load_slot_for alg o s key' Hok Hs Hk Hl) as Hlf. rewrite Hm.
  destruct (slot_for s key') as [i|].
  - simpl in Hslot. destruct Hlf as (w & Hw & ->). simpl. congruence.
  - exfalso. simpl in Hslot. unfold load_slot in Hload. rewrite Hslot in Hload.
    apply zget_lt in Hload. pose proof (layout_small alg _ _ Hok Hs). unfold zlen in *. lia.
Qed.

(** *** Related computations *)

(** Related results; a panic is related to nothing. *)
Definition post {A B} (Q : A -> B -> Prop) (x : outcome A * BytecodeVm)
    (y : result VmError B * Ref.State) : Prop :=
  match x, y with
  | (Done a, vm'), (Ok b, st') => Q a b /\ sim budget vm' st'
  | (Fail e, vm'), (Err e', st') => e = e' /\ sim budget vm' st'
  | _, _ => False
  end.

Definition simM {A B} (Q : A -> B -> Prop) (m : VM A) (r : Ref.R B) : Prop :=
  forall vm st, sim budget vm st -> post Q (m vm) (r st).

Lemma simM_bind {A B A' B'} (Q : A -> B -> Prop) (Q' : A' -> B' -> Prop) m r f g :
  simM Q m r -> (forall a b, Q a b -> simM Q' (f a) (g b)) -> simM Q' (m ≫= f) (r ≫= g).
Proof.
  intros Hm Hf vm st Hs. specialize (Hm vm st Hs). unfold post, mbind, VM_bind, Ref.R_bind in *.
  destruct (m vm) as [[a|e|] vm'], (r st) as [[b|e'] st']; try done.
  destruct Hm as [HQ Hs']. by apply Hf.
Qed.

Lemma simM_ret {A B} (Q : A -> B -> Prop) a b : Q a b -> simM Q (mret a) (mret b).
Proof. intros HQ vm st Hs. done. Qed.

Lemma simM_fail {A B} (Q : A -> B -> Prop) e : simM Q (fail e) (Ref.throw e).
Proof. intros vm st Hs. done. Qed.

Lemma simM_ok_or {A} e (o : option A) : simM eq (ok_or_fail e o) (Ref.ok_or_throw e o).
Proof. destruct o; [by apply simM_ret|apply simM_fail]. Qed.

Lemma simM_regs : simM eq (gets registers) (Ref.ask Ref.regs).
Proof. intros vm st Hs. split; [apply Hs|done]. Qed.

Lemma simM_set_regs f : simM eq (modify (set_registers f)) (Ref.update (Ref.set_regs f)).
Proof. intros vm st []. split; [done|]. split; simpl; try done. congruence. Qed.

Lemma simM_read r : simM eq (read_register r) (Ref.read r).
Proof. eapply simM_bind; [apply simM_regs|]. intros a ? <-. apply simM_ok_or. Qed.

Lemma simM_write r v : simM eq (write_register r v) (Ref.write r v).
Proof.
  eapply simM_bind; [apply simM_regs|]. intros a ? <-.
  eapply simM_bind; [apply simM_ok_or|]. intros _ _ _. apply simM_set_regs.
Qed.

Lemma simM_read_int r : simM eq (read_int r) (Ref.read_int r).
Proof.
  eapply simM_bind; [apply simM_read|]. intros [] ? <-; try apply simM_fail. by apply simM_ret.
Qed.

Lemma simM_read_id r : simM eq (read_object_id r) (Ref.read_id r).
Proof.
  eapply simM_bind; [apply simM_read|]. intros [] ? <-; try apply simM_fail. by apply simM_ret.
Qed.

Lemma simM_name {A B} (Q : A -> B -> Prop) k f g :
  (forall key, zget (property_pool p) k = Some key -> simM Q (f key) (g key)) ->
  simM Q (property_name p k ≫= f) (Ref.name p k ≫= g).
Proof.
  intros Hk vm st Hs. unfold property_name, Ref.name.
  destruct (zget (property_pool p) k) as [key|]; [by apply (Hk key)|done].
Qed.

(** Control flow, the cache flag apart. *)
Definition flow_rel (c : ControlFlow) (f : Ref.Flow) : Prop :=
  match c, f with
  | Continue ip _, Ref.Go ip' => ip = ip'
  | Returned v _, Ref.Stop v' => v = v'
  | _, _ => False
  end.

Lemma simM_jump t : simM flow_rel (exec_jump p t) (Ref.jump p t).
Proof. unfold exec_jump, Ref.jump. destruct (_ <=? _); [apply simM_fail|by apply simM_ret]. Qed.

(** The shape of the simple instructions: a value is computed and written. *)
Lemma simM_write_next {A} (m : VM A) (r : Ref.R A) dst (f : A -> Value) ip :
  simM eq m r ->
  simM flow_rel (a ← m; _ ← write_register dst (f a); mret (next ip))
    (a ← r; _ ← Ref.write dst (f a); mret (Ref.Go (ip + 1))).
Proof.
  intros Hm. eapply simM_bind; [exact Hm|]. intros a ? <-.
  eapply simM_bind; [apply simM_write|]. intros _ _ _. by apply simM_ret.
Qed.

Lemma simM_arith ip dst lhs rhs op :
  simM flow_rel (exec_arith ip dst lhs rhs op) (Ref.arith ip dst lhs rhs op).
Proof.
  apply (simM_write_next (binary_int_op lhs rhs op) _ dst VInt).
  eapply simM_bind; [apply simM_read_int|]. intros a ? <-.
  eapply simM_bind; [apply simM_read_int|]. intros b ? <-. by apply simM_ret.
Qed.

(** *** Objects *)

Lemma simM_new_object ip dst :
  simM flow_rel (exec_new_object ip dst) (Ref.step p ip (NewObject dst)).
Proof.
  intros vm st Hs. pose proof Hs as [Hregs Hheap Hcache Halg (s & Hroot & Hempty) Htr Hb].
  assert (zlen (heap vm) = zlen (Ref.objs st)) as Hlen.
  { unfold zlen. by rewrite (Forall2_length _ _ _ Hheap). }
  set (vm1 := set_heap (fun h => h ++ [HeapObject_new (root_shape_id (shape_algebra vm))]) vm).
  set (st1 := Ref.set_objs (fun h => h ++ [∅]) st).
  assert (sim budget vm1 st1) as Hs1.
  { split; simpl; try done; [|by eauto]. apply Forall2_app; [done|]. constructor; [|done]. split.
    - exists s. split; [done|]. unfold keys. simpl. rewrite Hempty. split; [|done].
      intros k. unfold slot_for. by rewrite Hempty, lookup_empty.
    - intros k. by rewrite lookup_empty. }
  pose proof (simM_bind eq flow_rel (write_register dst (VObject (u32_sat (zlen (heap vm)))))
    (Ref.write dst (VObject (u32_sat (zlen (heap vm)))))
    (fun _ => mret (next ip)) (fun _ => mret (Ref.Go (ip + 1)))
    (simM_write _ _) ltac:(intros; by apply simM_ret) vm1 st1 Hs1) as Hw.
  unfold exec_new_object, Ref.step. cbv [mbind VM_bind Ref.R_bind gets Ref.ask modify Ref.update] in *.
  rewrite Hlen in Hw. rewrite Hlen. exact Hw.
Qed.

Lemma simM_get_object {A B} (Q : A -> B -> Prop) id f g :
  (forall vm st o m, sim budget vm st -> zget (heap vm) id = Some o ->
     zget (Ref.objs st) id = Some m -> obj_rel (shape_algebra vm) o m ->
     post Q (f o vm) (g m st)) ->
  simM Q (get_object id ≫= f) (Ref.fetch id ≫= g).
Proof.
  intros Hk vm st Hs. pose proof (sim_heap _ _ _ Hs) as Hheap.
  unfold get_object, Ref.fetch, gets, Ref.ask.
  cbv [mbind VM_bind Ref.R_bind]. destruct (zget (heap vm) id) as [o|] eqn:Ho.
  - destruct (zget_Forall2 _ _ _ _ _ Hheap Ho) as (m & Hm & Hrel). rewrite Hm. by apply Hk.
  - rewrite (zget_Forall2_None _ _ _ _ Hheap Ho). by split.
Qed.

(** Writing the loaded value, the cache already updated. *)
Lemma post_write_continue vm st dst v ip hit :
  sim budget vm st ->
  post flow_rel ((_ ← write_register dst v; mret (Continue (ip + 1) hit)) vm)
    ((_ ← Ref.write dst v; mret (Ref.Go (ip + 1))) st).
Proof.
  intros Hs. revert vm st Hs.
  change (simM flow_rel (_ ← write_register dst v; mret (Continue (ip + 1) hit))
    (_ ← Ref.write dst v; mret (Ref.Go (ip + 1)))).
  eapply simM_bind; [apply simM_write|]. intros _ _ _. by apply simM_ret.
Qed.

Lemma sim_set_cache vm st k e :
  sim budget vm st -> entry_ok (shape_algebra vm) e -> sim budget (set_cache <[k := e]> vm) st.
Proof. intros [] He. split; simpl; try done. by apply map_Forall_insert_2. Qed.

Lemma simM_load_prop ip dst object k :
  simM flow_rel (exec_load_prop_cached p ip dst object k)
    (Ref.step p ip (LoadPropCached dst object k)).
Proof.
  eapply simM_bind; [apply simM_read_id|]. intros id ? <-.
  apply simM_name. intros key Hkey. apply simM_get_object. intros vm st o m Hs Ho Hm Hrel.
  cbv [mbind VM_bind gets modify]. pose proof (sim_cache _ _ _ Hs) as Hcache.
  destruct (cache_probe (inline_cache vm !! wrap_u32 ip) o k) as [[entry v]|] eqn:Hprobe.
  - destruct (inline_cache vm !! wrap_u32 ip) as [e|] eqn:He; [|done].
    apply Hcache in He. destruct (cache_probe_correct (shape_algebra vm) e o m k key entry v)
      as [-> ->]; [apply Hs|done|done|done|done|].
    apply post_write_continue, sim_set_cache; [done|exact He].
  - destruct Hrel as [(s & Hs1 & Hk & Hkeys & Hl) Hmk].
    pose proof (load_slot_for (shape_algebra vm) o s key (sim_alg _ _ _ Hs) Hs1 Hk Hl) as Hlf.
    rewrite Hmk. destruct (load o key) as [[i v]|] eqn:Hload; simpl.
    + apply post_write_continue, sim_set_cache; [done|]. exists s, key. simpl.
      split; [done|]. split; [done|]. destruct (slot_for s key); [|done].
      by destruct Hlf as (w & _ & [= -> ->]).
    + apply post_write_continue, sim_set_cache; [done|]. exists s, key. simpl.
      split; [done|]. split; [done|]. destruct (slot_for s key); [|done].
      by destruct Hlf as (w & _ & ?).
Qed.

(** *** Stores *)

Lemma load_store_existing o key v slot sid rev k :
  key_to_slot o !! key = Some slot -> 0 <= slot < zlen (slots o) ->
  (forall k' slot', key_to_slot o !! k' = Some slot' -> slot' = slot -> k' = key) ->
  snd <$> load (store_into o key v (Some slot) sid rev) k =
    if decide (k = key) then Some v else snd <$> load o k.
Proof.
  intros Hslot Hrange Hinj. unfold load, store_into. simpl.
  destruct (Z.ltb_spec slot (zlen (slots o))) as [_|]; [|lia].
  assert (Hlt : (Z.to_nat slot < length (slots o))%nat) by (unfold zlen in *; lia).
  destruct (decide (k = key)) as [->|Hne].
  - rewrite Hslot. simpl.
    assert (zget (<[Z.to_nat slot:=v]> (slots o)) slot = Some v) as ->; [|done].
    apply zget_Some. split; [lia|]. by apply list_lookup_insert_eq.
  - destruct (key_to_slot o !! k) as [slot'|] eqn:Hk; [|done]. simpl.
    assert (zget (<[Z.to_nat slot:=v]> (slots o)) slot' = zget (slots o) slot') as ->; [|done].
    unfold zget, zlen. rewrite length_insert.
    destruct (0 <=? slot') eqn:H0', (slot' <? _) eqn:H1'; simpl; try done.
    apply list_lookup_insert_ne. intros Heq. apply Hne, (Hinj _ _ Hk). lia.
Qed.

Lemma load_store_new o key v sid rev k :
  (forall k' slot', key_to_slot o !! k' = Some slot' -> slot' < zlen (slots o)) ->
  snd <$> load (store_into o key v None sid rev) k =
    if decide (k = key) then Some v else snd <$> load o k.
Proof.
  intros Hlt. unfold load, store_into. simpl. destruct (decide (k = key)) as [->|Hne].
  - rewrite lookup_insert_eq. simpl.
    assert (zget (slots o ++ [v]) (zlen (slots o)) = Some v) as ->; [|done].
    unfold zlen. rewrite zget_of_nat. by apply list_lookup_middle.
  - rewrite lookup_insert_ne by done. destruct (key_to_slot o !! k) as [slot'|] eqn:Hk; [|done]. simpl.
    assert (zget (slots o ++ [v]) slot' = zget (slots o) slot') as ->; [|done].
    specialize (Hlt _ _ Hk). destruct (zget (slots o) slot') as [w|] eqn:Hw.
    + apply zget_Some in Hw as [? Hw]. apply zget_Some. split; [done|]. by apply lookup_app_l_Some.
    + apply zget_None in Hw. apply zget_None. unfold zlen in *. rewrite length_app. simpl. lia.
Qed.

Lemma insert_store_rel o o' (m : gmap string Value) key v :
  (forall k, m !! k = snd <$> load o k) ->
  (forall k, snd <$> load o' k = if decide (k = key) then Some v else snd <$> load o k) ->
  forall k, <[key := v]> m !! k = snd <$> load o' k.
Proof.
  intros Hm Ho' k. rewrite Ho'. destruct (decide (k = key)) as [->|Hne].
  - by rewrite lookup_insert_eq.
  - by rewrite lookup_insert_ne.
Qed.

(** What the shape algebra answers to a store, and that the object it yields
    represents the updated map. *)
Lemma store_object alg o m k key v rev :
  alg_ok U alg -> obj_rel alg o m -> zget (property_pool p) k = Some key ->
  exists out alg', apply_mutation alg (obj_shape_id o)
      (match key_to_slot o !! key with
       | Some _ => WritePropertyCell key | None => AddProperty key attrs_default end)
      = Some (Ok out, alg') /\
    alg_ok U alg' /\ shapes alg ⊆ shapes alg' /\ root_shape_id alg' = root_shape_id alg /\
    slot_as_laid_out o (key_to_slot o !! key) (t_property_layout (o_transition out)) = true /\
    obj_rel alg' (store_into o key v (key_to_slot o !! key) (shape_id (o_shape out)) rev)
      (<[key := v]> m).
Proof.
  intros Hok [(s & Hs & Hk & Hkeys & Hl) Hm] Hkey.
  destruct (ok_shapes _ _ Hok _ _ Hs) as [Hsok Hid]. pose proof (so_layout _ _ Hsok) as Hlay.
  assert (Hslots : forall k' i, key_to_slot o !! k' = Some i ->
    exists n d, property_layout s !! n = Some d /\ property_key d = k' /\ i = Z.of_nat n).
  { intros k' i Hi. rewrite Hk in Hi. by apply slot_for_lookup. }
  assert (Hlt : forall k' i, key_to_slot o !! k' = Some i -> 0 <= i < zlen (slots o)).
  { intros k' i (n & d & Hn%lookup_lt_Some & _ & ->)%Hslots. unfold zlen. lia. }
  set (mu := match key_to_slot o !! key with
    Some _ => WritePropertyCell key | None => AddProperty key attrs_default end).
  assert (Hmu : pool_mutation (property_pool p) mu).
  { unfold mu. destruct (key_to_slot o !! key); [done|]. split; [|done].
    apply zget_Some in Hkey as [_ Hkey]. by eapply list_elem_of_lookup_2. }
  destruct (apply_mutation_spec U alg (obj_shape_id o) mu) as (alg' & Happ & Hok' & Hsub & Hr & Hlearn);
    [done|done| |].
  { intros base e Hb He. rewrite Hs in Hb. injection Hb as <-. by eapply pool_mutate. }
  rewrite Hs in Happ, Hlearn. unfold answer, mutate in Happ, Hlearn. subst mu.
  destruct (key_to_slot o !! key) as [slot|] eqn:Hslot.
  - assert (exists d, find_key (property_layout s) key = Some d) as [d Hd].
    { rewrite Hk in Hslot. apply fmap_Some in Hslot as (d & Hd & _). eauto. }
    rewrite Hd in Happ. eexists _, alg'. split; [exact Happ|]. simpl.
    split_and!; try done. split.
    + exists s. unfold store_into. simpl. rewrite Hid. split; [by apply (lookup_weaken _ _ _ _ Hs)|].
      split_and!; [done|done|]. destruct (Z.ltb_spec slot (zlen (slots o))) as [_|Hge];
        [by rewrite length_insert|]. apply Hlt in Hslot. lia.
    + apply (insert_store_rel o); [done|]. intros k'. apply load_store_existing; [done|by eauto|].
      intros k1 i1 Hk1 ->. apply Hslots in Hk1 as (n1 & d1 & Hn1 & <- & ->).
      apply Hslots in Hslot as (n2 & d2 & Hn2 & <- & ?). assert (n1 = n2) as -> by lia. congruence.
  - assert (Hnot : key ∉ (property_key <$> property_layout s)).
    { rewrite Hk in Hslot. apply fmap_None in Hslot. by apply find_key_None. }
    rewrite bool_decide_false in Happ, Hlearn by done. simpl in Hlearn.
    eexists _, alg'. split; [exact Happ|]. simpl. split_and!; try done.
    { unfold zlen. rewrite Hl. apply Z.eqb_refl. }
    split.
    + eexists. unfold store_into. simpl. rewrite Hlearn. split; [apply lookup_insert_eq|].
      split_and!.
      * intros k'. erewrite slot_for_snoc; [|reflexivity|done].
        destruct (decide (k' = key)) as [->|]; [rewrite lookup_insert_eq|by rewrite lookup_insert_ne].
        unfold zlen. by rewrite Hl.
      * unfold keys in *. simpl. by rewrite fmap_app, Hkeys.
      * simpl. rewrite !length_app. simpl. lia.
    + apply (insert_store_rel o); [done|]. intros k'. apply load_store_new.
      intros k1 i1 Hk1. apply Hlt in Hk1; lia.
Qed.

Lemma simM_store_prop ip step object k value :
  simM flow_rel (exec_store_prop p ip step object k value)
    (Ref.step p ip (StoreProp object k value)).
Proof.
  eapply simM_bind; [apply simM_read_id|]. intros id ? <-.
  apply simM_name. intros key Hkey. eapply simM_bind; [apply simM_read|]. intros v ? <-.
  apply simM_get_object. intros vm st o m Hs Ho Hm Hrel.
  destruct (store_object (shape_algebra vm) o m k key v
    (wrap_u64 (default 0 (property_cell_revisions o !! key) + 1)))
    as (out & alg' & Happ & Hok' & Hsub & Hr & Hassert & Hrel'); [apply Hs|done|done|].
  cbv [mbind VM_bind Ref.R_bind gets modify Ref.update]. rewrite Happ. rewrite Hassert.
  destruct Hs as [Hregs Hheap Hcache Halg (s & Hroot & Hempty) Htr Hb].
  split; [done|]. split; simpl; try done.
  - apply Forall2_insert; [|done]. eapply Forall2_impl; [done|].
    intros o1 m1 [? ?]. split; [by eapply heap_obj_ok_mono|done].
  - intros key' e He. eapply entry_ok_mono; [done|]. by eapply Hcache.
  - exists s. rewrite Hr. split; [|done]. by apply (lookup_weaken _ _ _ _ Hroot).
Qed.

Lemma simM_instruction ip step i :
  simM flow_rel (execute_instruction p ip step i) (Ref.step p ip i).
Proof.
  destruct i; simpl.
  - apply (simM_write_next _ _ dst (fun v => v)), simM_ok_or.
  - apply (simM_write_next _ _ dst (fun v => v)), simM_read.
  - apply simM_arith.
  - apply simM_arith.
  - apply simM_arith.
  - eapply simM_bind; [apply simM_read_int|]. intros a ? <-.
    eapply simM_bind; [apply simM_read_int|]. intros b ? <-.
    destruct (b =? 0); [apply simM_fail|].
    eapply simM_bind; [apply simM_write|]. intros _ _ _. by apply simM_ret.
  - apply simM_new_object.
  - apply simM_store_prop.
  - apply simM_load_prop.
  - apply simM_jump.
  - eapply simM_bind; [apply simM_read|]. intros c ? <-.
    destruct (is_truthy c); [by apply simM_ret|apply simM_jump].
  - eapply simM_bind; [apply simM_read|]. intros v ? <-. by apply simM_ret.
Qed.

(** ** Runs *)

Lemma sim_record vm st e x :
  sim budget vm st ->
  x = (er_step e, er_ip e, er_opcode e, er_event e, er_outcome e, er_error_code e) ->
  sim budget (record_event e vm) (Ref.emit x st).
Proof.
  intros [] ->. split; simpl; try done. rewrite fmap_app. by f_equal.
Qed.

(** The result of a run, caches and hashes apart. *)
Definition report_rel (x : option (outcome ExecutionReport * BytecodeVm))
    (y : option (result VmError (Value * Z) * Ref.State)) : Prop :=
  match x, y with
  | Some (Done rep, vm), Some (Ok (v, n), st) =>
      rep_result rep = v /\ rep_steps rep = n /\ rep_events rep = events vm /\ sim budget vm st
  | Some (Fail e, vm), Some (Err e', st) => e = e' /\ sim budget vm st
  | None, None => True
  | _, _ => False
  end.

Lemma run_refines fuel ip steps vm st :
  sim budget vm st -> report_rel (run fuel p ip steps vm) (Ref.run fuel p budget ip steps st).
Proof.
  revert ip steps vm st. induction fuel as [|fuel IH]; intros ip steps vm st Hs; [done|].
  simpl. rewrite (sim_budget _ _ _ Hs). destruct (budget <=? steps).
  { split; [done|]. by apply sim_record. }
  destruct (zget (instructions p) ip) as [i|]; [|split; [done|]; by apply sim_record].
  pose proof (simM_instruction ip (steps + 1) i vm st Hs) as Hi. unfold post in Hi.
  destruct (execute_instruction p ip (steps + 1) i vm) as [[[ip' hit|v hit]|e|] vm'],
    (Ref.step p ip i st) as [[[ip''|v']|e'] st']; try (by destruct Hi); destruct Hi as [HQ Hs'];
    simpl in HQ; try done; subst.
  - apply IH. by apply sim_record.
  - split_and!; try done. by apply sim_record.
  - split; [done|]. by apply sim_record.
Qed.

Lemma sim_reset vm :
  step_budget vm = budget ->
  sim budget (reset vm) (Ref.mkState (replicate (length (registers vm)) Undefined) [] []).
Proof.
  intros Hb. split; simpl; try done.
  - induction (registers vm) as [|v l IH]; [done|]. rewrite fmap_cons, IH. done.
  - apply new_ok. split; [done|]. split; [apply layout_ok_nil|constructor].
  - eexists. rewrite lookup_singleton_eq. done.
Qed.
End sim.

(** The budget is enough fuel. *)
Lemma ref_run_total p budget fuel ip steps st :
  (Z.to_nat (budget - steps) < fuel)%nat -> is_Some (Ref.run fuel p budget ip steps st).
Proof.
  revert ip steps st. induction fuel as [|fuel IH]; intros ip steps st Hf; [lia|]. simpl.
  destruct (Z.leb_spec budget steps); [eauto|]. destruct (zget (instructions p) ip); [|eauto].
  destruct (Ref.step _ _ _ st) as [[[]|] st']; [|by eauto|by eauto]. apply IH. lia.
Qed.

(** Objects of the machine and the maps they represent. *)
Definition represents (o : HeapObject) (m : gmap string Value) : Prop :=
  forall k, m !! k = snd <$> load o k.

Lemma execute_refines `{!ShapeCrates, !ShapeCratesLaws, !VmCrates} (p : Program) (vm : BytecodeVm) :
  ids_distinct (pool_skeleton (property_pool p)) ->
  zlen (property_pool p) <= usize_max ->
  exists o vm' r st,
    execute p vm = Some (o, vm') /\
    Ref.execute p (length (registers vm)) (step_budget vm) = Some (r, st) /\
    match o, r with
    | Done rep, Ok (v, n) => rep_result rep = v /\ rep_steps rep = n /\ rep_events rep = events vm'
    | Fail e, Err e' => e = e'
    | _, _ => False
    end /\
    registers vm' = Ref.regs st /\
    Forall2 represents (heap vm') (Ref.objs st) /\
    erase <$> events vm' = Ref.trace st.
Proof.
  intros Hd Hp. unfold execute, Ref.execute.
  destruct (ref_run_total p (step_budget vm) (S (Z.to_nat (step_budget vm))) 0 0
    (Ref.mkState (replicate (length (registers vm)) Undefined) [] [])) as [[r st] Hr]; [lia|].
  pose proof (run_refines p Hd Hp (step_budget vm) (S (Z.to_nat (step_budget vm))) 0 0 (reset vm) _
    (sim_reset p (step_budget vm) vm eq_refl)) as Hrel.
  rewrite Hr in *. destruct (run _ p 0 0 (reset vm)) as [[[rep|e|] vm']|]; [| | |done]; simpl in Hrel.
  - destruct r as [[v n]|]; [|done]. destruct Hrel as (? & ? & ? & Hs). exists (Done rep), vm', (Ok (v, n)), st.
    destruct Hs as [? Hh ? ? ? ? ?]. split_and!; try done. eapply Forall2_impl; [done|]. by intros ? ? [].
  - destruct r as [[v n]|]; [done|]. destruct Hrel as (? & Hs). exists (Fail e), vm', (Err e0), st.
    destruct Hs as [? Hh ? ? ? ? ?]. split_and!; try done. eapply Forall2_impl; [done|]. by intros ? ? [].
  - done.
Qed.

(** C6. The bytecode VM with its shapes, slots and inline caches refines a machine whose
    objects are plain maps from keys to values. For every program, whatever state the VM
    was left in, execution returns within its fuel, never panics, and ends with the same
    value and step count or the same error as the reference machine, with the same
    registers, with heap objects that represent the reference objects, and with the same
    events up to the cache-hit flag. Assumed of the JSON encoder and SHA-256: the 64-bit
    shape ids of the layouts the property pool can build are distinct. *)
Theorem vm_refines_plain_objects `{!ShapeCrates, !ShapeCratesLaws, !VmCrates}
    (p : Program) (vm : BytecodeVm) :
  ids_distinct (pool_skeleton (property_pool p)) ->
  zlen (property_pool p) <= usize_max ->
  exists o vm' r st,
    execute p vm = Some (o, vm') /\
    Ref.execute p (length (registers vm)) (step_budget vm) = Some (r, st) /\
    match o, r with
    | Done rep, Ok (v, n) => rep_result rep = v /\ rep_steps rep = n /\ rep_events rep = events vm'
    | Fail e, Err e' => e = e'
    | _, _ => False
    end /\
    registers vm' = Ref.regs st /\
    Forall2 represents (heap vm') (Ref.objs st) /\
    erase <$> events vm' = Ref.trace st.
Proof. apply execute_refines. Qed.

(** A program that counts [x] down in a loop, with a cached load. *)
Module SampleVm.
#[export] Instance vm_crates : VmCrates := { envelope_to_vec := fun _ => [] }.

Definition program : Program :=
  mkProgram [VInt 5; VInt 1] ["x"; "y"]
    [ LoadConst 0 0; LoadConst 3 1; NewObject 1; StoreProp 1 0 0; LoadPropCached 2 1 0;
      Sub 2 2 3; StoreProp 1 0 2; JumpIfFalse 2 9; Jump 4; Return 2 ].
End SampleVm.

#[local] Existing Instances Sample.crates Sample.laws SampleVm.vm_crates.

Definition sample_vm (budget : Z) : BytecodeVm := BytecodeVm_new "t" 4 budget.

Lemma vm_refines_plain_objects_witness :
  exists o vm' r st,
    execute SampleVm.program (sample_vm 100) = Some (o, vm') /\
    Ref.execute SampleVm.program 4 100 = Some (r, st) /\
    match o, r with
    | Done rep, Ok (v, n) => rep_result rep = v /\ rep_steps rep = n /\ rep_events rep = events vm'
    | Fail e, Err e' => e = e'
    | _, _ => False
    end /\
    registers vm' = Ref.regs st /\
    Forall2 represents (heap vm') (Ref.objs st) /\
    erase <$> events vm' = Ref.trace st.
Proof.
  apply (vm_refines_plain_objects SampleVm.program (sample_vm 100)).
  - exact Sample.distinct.
  - vm_compute. discriminate.
Defined.

(** The sample returns 0 after 29 instructions with 4 cache hits, and runs out
    of a budget of 10. *)
Example sample_program_runs :
  match execute SampleVm.program (sample_vm 100) with
  | Some (Done rep, vm) =>
      (rep_result rep, rep_steps rep, rep_cache_stats rep) = (VInt 0, 29, mkStats 1 4 1)
  | _ => False
  end /\
  match execute SampleVm.program (sample_vm 10) with
  | Some (Fail e, _) => e = BudgetExhausted 10 10
  | _ => False
  end.
Proof. split; vm_compute; reflexivity. Qed.
