(* ===== verification/BytecodeVmTyping.v ===== *)
(** * Checked programs of the bytecode VM cannot go wrong structurally

    [checked] is what a loader can test on a program: operands, constants,
    property indices and jump targets are in range, constants hold no object
    handles, and the code ends in a jump or a return.  On the reference machine
    a checked program only fails for a reason the program computes; the
    refinement of BytecodeVmCorrect.v carries this over to the machine with
    shapes and inline caches. *)
From stdpp Require Import base numbers list strings gmap.
From S2P Require Import Prelude Bytes ShapeAlgebra ShapeAlgebraCorrect.
From S2P Require Import BytecodeVm BytecodeVmCorrect.
Open Scope string_scope.
Open Scope list_scope.
Open Scope Z_scope.

Definition in_range {A} (l : list A) (i : Z) : bool := (0 <=? i) && (i <? zlen l).

Lemma in_range_zget {A} (l : list A) i : in_range l i = true -> exists a, zget l i = Some a.
Proof.
  unfold in_range. intros Hi. destruct (zget l i) as [a|] eqn:Hz; [eauto|].
  apply zget_None in Hz. lia.
Qed.

(** Split the hypotheses that are conjunctions of checks. *)
Ltac split_andb :=
  repeat match goal with H : (_ && _) = true |- _ => apply andb_true_iff in H as [? ?] end.

(** ** The check *)

Section check.
Context (p : Program) (nregs : Z).

Definition reg_ok (r : Register) : bool := (0 <=? r) && (r <? nregs).

Definition instruction_ok (i : Instruction) : bool :=
  match i with
  | LoadConst dst k => reg_ok dst && in_range (constants p) k
  | Move dst src => reg_ok dst && reg_ok src
  | Add dst lhs rhs | Sub dst lhs rhs | Mul dst lhs rhs | Div dst lhs rhs =>
      reg_ok dst && reg_ok lhs && reg_ok rhs
  | NewObject dst => reg_ok dst
  | StoreProp object k value => reg_ok object && in_range (property_pool p) k && reg_ok value
  | LoadPropCached dst object k => reg_ok dst && reg_ok object && in_range (property_pool p) k
  | Jump target => in_range (instructions p) target
  | JumpIfFalse condition target => reg_ok condition && in_range (instructions p) target
  | Return src => reg_ok src
  end.

Definition is_terminator (i : Instruction) : bool :=
  match i with Jump _ | Return _ => true | _ => false end.

Definition is_object (v : Value) : bool := match v with VObject _ => true | _ => false end.

Definition checked : bool :=
  forallb instruction_ok (instructions p) &&
  forallb (fun v => negb (is_object v)) (constants p) &&
  match last (instructions p) with Some i => is_terminator i | None => false end.
End check.

(** Errors that depend on the values the program computes. *)
Definition dynamic (e : VmError) : bool :=
  match e with
  | TypeMismatch _ _ | DivisionByZero | BudgetExhausted _ _ => true
  | _ => false
  end.

(** ** Typed states of the reference machine *)

(** Object handles point into a heap of [n] objects. *)
Definition value_ok (n : Z) (v : Value) : Prop :=
  match v with VObject id => 0 <= id < n | _ => True end.

Record typed (nregs : Z) (st : Ref.State) : Prop := {
  ty_count : zlen (Ref.regs st) = nregs;
  ty_regs : Forall (value_ok (zlen (Ref.objs st))) (Ref.regs st);
  ty_objs : Forall (map_Forall (fun _ => value_ok (zlen (Ref.objs st)))) (Ref.objs st) }.

Lemma value_ok_mono n n' v : n <= n' -> value_ok n v -> value_ok n' v.
Proof. destruct v; simpl; lia. Qed.

Section typing.
Context (p : Program) (nregs : Z).
Context (Hchecked : checked p nregs = true).

(** Weakest preconditions that allow dynamic errors only. *)
Definition wp {A} (m : Ref.R A) (Q : A -> Ref.State -> Prop) (st : Ref.State) : Prop :=
  match m st with
  | (Ok a, st') => Q a st'
  | (Err e, _) => dynamic e = true
  end.

Lemma wp_bind {A B} (m : Ref.R A) (f : A -> Ref.R B) Q st :
  wp m (fun a => wp (f a) Q) st -> wp (m ≫= f) Q st.
Proof. unfold wp, mbind, Ref.R_bind. by destruct (m st) as [[a|e] st']. Qed.

Lemma wp_read r Q st :
  typed nregs st -> reg_ok nregs r = true ->
  (forall v, value_ok (zlen (Ref.objs st)) v -> Q v st) -> wp (Ref.read r) Q st.
Proof.
  intros [Hc Hr _] Hok HQ. unfold wp, Ref.read, Ref.ask. cbv [mbind Ref.R_bind].
  destruct (in_range_zget (Ref.regs st) r) as [v Hv]; [unfold in_range, reg_ok in *; by rewrite Hc|].
  rewrite Hv. apply HQ. apply zget_Some in Hv as [_ Hv]. by eapply Forall_lookup_1 in Hr.
Qed.

Lemma wp_write r v Q st :
  typed nregs st -> reg_ok nregs r = true -> value_ok (zlen (Ref.objs st)) v ->
  (forall st', typed nregs st' -> Ref.objs st' = Ref.objs st -> Q tt st') ->
  wp (Ref.write r v) Q st.
Proof.
  intros Hty Hok Hv HQ. pose proof Hty as [Hc Hr Ho]. unfold wp, Ref.write, Ref.ask, Ref.update.
  cbv [mbind Ref.R_bind].
  destruct (in_range_zget (Ref.regs st) r) as [w Hw]; [unfold in_range, reg_ok in *; by rewrite Hc|].
  rewrite Hw. apply HQ; [|done]. split; simpl; try done.
  - unfold zlen in *. by rewrite length_insert.
  - by apply Forall_insert.
Qed.

Lemma wp_read_int r Q st :
  typed nregs st -> reg_ok nregs r = true -> (forall n, Q n st) -> wp (Ref.read_int r) Q st.
Proof.
  intros Hty Hok HQ. apply wp_bind, wp_read; [done|done|]. intros [] _; try done. by apply HQ.
Qed.

Lemma wp_read_id r Q st :
  typed nregs st -> reg_ok nregs r = true ->
  (forall id, 0 <= id < zlen (Ref.objs st) -> Q id st) -> wp (Ref.read_id r) Q st.
Proof.
  intros Hty Hok HQ. apply wp_bind, wp_read; [done|done|]. intros [] Hv; try done. by apply HQ.
Qed.

Lemma wp_name k Q st :
  in_range (property_pool p) k = true -> (forall key, Q key st) -> wp (Ref.name p k) Q st.
Proof.
  intros Hk HQ. destruct (in_range_zget _ _ Hk) as [key Hkey]. unfold wp, Ref.name.
  rewrite Hkey. apply HQ.
Qed.

Lemma wp_fetch id Q st :
  typed nregs st -> 0 <= id < zlen (Ref.objs st) ->
  (forall m, map_Forall (fun _ => value_ok (zlen (Ref.objs st))) m -> Q m st) ->
  wp (Ref.fetch id) Q st.
Proof.
  intros [_ _ Ho] Hid HQ. unfold wp, Ref.fetch, Ref.ask. cbv [mbind Ref.R_bind].
  destruct (zget (Ref.objs st) id) as [m|] eqn:Hm; [|by apply zget_None in Hm].
  apply HQ. apply zget_Some in Hm as [_ Hm]. by eapply Forall_lookup_1 in Ho.
Qed.

(** After a step: still typed, at most one object more, and the next
    instruction pointer is in range unless execution falls through. *)
Definition step_post (ip : Z) (i : Instruction) (st : Ref.State) (f : Ref.Flow) (st' : Ref.State) : Prop :=
  typed nregs st' /\ zlen (Ref.objs st) <= zlen (Ref.objs st') <= zlen (Ref.objs st) + 1 /\
  match f with
  | Ref.Go ip' => in_range (instructions p) ip' = true \/ (ip' = ip + 1 /\ is_terminator i = false)
  | Ref.Stop v => value_ok (zlen (Ref.objs st')) v
  end.

Lemma step_post_next ip i st st' :
  is_terminator i = false -> typed nregs st' -> Ref.objs st' = Ref.objs st ->
  step_post ip i st (Ref.Go (ip + 1)) st'.
Proof. intros Hi Hty Ho. split; [done|]. rewrite Ho. split; [lia|]. by right. Qed.

Lemma wp_write_next ip i dst v st :
  is_terminator i = false -> typed nregs st -> reg_ok nregs dst = true ->
  value_ok (zlen (Ref.objs st)) v ->
  wp (_ ← Ref.write dst v; mret (Ref.Go (ip + 1))) (step_post ip i st) st.
Proof.
  intros Hi Hty Hd Hv. apply wp_bind, wp_write; [done..|]. intros st' Hty' Ho.
  by apply step_post_next.
Qed.

Lemma wp_jump ip i t st :
  typed nregs st -> in_range (instructions p) t = true ->
  wp (Ref.jump p t) (step_post ip i st) st.
Proof.
  intros Hty Ht. unfold Ref.jump, wp. pose proof Ht as Ht'. unfold in_range in Ht'.
  destruct (Z.leb_spec (zlen (instructions p)) t); [lia|].
  split; [done|]. split; [lia|]. by left.
Qed.

Lemma wp_arith ip i dst lhs rhs op st :
  is_terminator i = false -> typed nregs st ->
  reg_ok nregs dst && reg_ok nregs lhs && reg_ok nregs rhs = true ->
  wp (Ref.arith ip dst lhs rhs op) (step_post ip i st) st.
Proof.
  intros Hi Hty ((Hd & Hl)%andb_true_iff & Hr)%andb_true_iff.
  apply wp_bind, wp_bind, wp_read_int; [done..|]. intros a. apply wp_bind, wp_read_int; [done..|].
  intros b. by apply wp_write_next.
Qed.

Lemma typed_new st :
  typed nregs st -> typed nregs (Ref.set_objs (fun h => h ++ [∅]) st).
Proof.
  intros [Hc Hr Ho].
  assert (Hle : zlen (Ref.objs st) <= zlen (Ref.objs st ++ [∅])).
  { unfold zlen. rewrite length_app. lia. }
  split; simpl; [done| |].
  - eapply Forall_impl; [done|]. intros v. by apply value_ok_mono.
  - apply Forall_app. split; [|apply Forall_singleton, map_Forall_empty].
    eapply Forall_impl; [done|]. intros m Hm k v Hk. eapply value_ok_mono; [done|]. by eapply Hm.
Qed.

Lemma typed_store st id key v m :
  typed nregs st -> value_ok (zlen (Ref.objs st)) v ->
  map_Forall (fun _ => value_ok (zlen (Ref.objs st))) m ->
  typed nregs (Ref.set_objs <[Z.to_nat id := <[key := v]> m]> st).
Proof.
  intros [Hc Hr Ho] Hv Hm. split; simpl; unfold zlen in *; rewrite ?length_insert; [done|done|].
  apply Forall_insert; [done|]. by apply map_Forall_insert_2.
Qed.

Lemma checked_instruction ip i :
  zget (instructions p) ip = Some i -> instruction_ok p nregs i = true.
Proof.
  intros [_ Hi]%zget_Some. apply andb_true_iff in Hchecked as [[Hall _]%andb_true_iff _].
  rewrite forallb_forall in Hall. apply Hall. apply list_elem_of_In. by eapply list_elem_of_lookup_2.
Qed.

Lemma step_typed ip i st :
  zget (instructions p) ip = Some i -> typed nregs st -> zlen (Ref.objs st) <= u32_max ->
  wp (Ref.step p ip i) (step_post ip i st) st.
Proof.
  intros Hi Hty Hsmall. apply checked_instruction in Hi as Hok.
  destruct i; simpl in Hok; simpl; try (by apply wp_arith); split_andb.
  - destruct (in_range_zget (constants p) const_index) as [v Hv]; [done|].
    apply wp_bind. unfold wp at 1. rewrite Hv. apply wp_write_next; try done.
    apply andb_true_iff in Hchecked as [[_ Hc]%andb_true_iff _].
    rewrite forallb_forall in Hc. apply zget_Some in Hv as [_ Hv%list_elem_of_lookup_2%list_elem_of_In].
    apply Hc in Hv. by destruct v.
  - apply wp_bind, wp_read; [done..|]. intros v Hv. by apply wp_write_next.
  - apply wp_bind, wp_read_int; [done..|]. intros a. apply wp_bind, wp_read_int; [done..|]. intros b.
    destruct (b =? 0); [done|]. by apply wp_write_next.
  - apply wp_bind. unfold wp at 1, Ref.ask. apply wp_bind. unfold wp at 1, Ref.update.
    set (st1 := Ref.set_objs (fun h => h ++ [∅]) st).
    assert (Hlen : zlen (Ref.objs st1) = zlen (Ref.objs st) + 1).
    { unfold st1, zlen. simpl. rewrite length_app. simpl. lia. }
    apply wp_bind, wp_write; [by apply typed_new|done| |].
    { simpl. unfold u32_sat. destruct (Z.leb_spec (zlen (Ref.objs st)) u32_max); [|lia].
      unfold zlen. rewrite length_app. simpl. lia. }
    intros st' Hty' Ho. split; [done|]. rewrite Ho, Hlen. split; [lia|]. by right.
  - apply wp_bind, wp_read_id; [done..|]. intros id Hid. apply wp_bind, wp_name; [done|]. intros key.
    apply wp_bind, wp_read; [done..|]. intros v Hv. apply wp_bind, wp_fetch; [done..|]. intros m Hm.
    split; [by apply typed_store|]. simpl. unfold zlen. rewrite length_insert. split; [lia|]. by right.
  - apply wp_bind, wp_read_id; [done..|]. intros id Hid. apply wp_bind, wp_name; [done|]. intros key.
    apply wp_bind, wp_fetch; [done..|]. intros m Hm. apply wp_write_next; try done.
    destruct (m !! key) as [v|] eqn:Hk; [|done]. by apply Hm in Hk.
  - by apply wp_jump.
  - apply wp_bind, wp_read; [done..|]. intros c _. destruct (is_truthy c); [|by apply wp_jump].
    by apply step_post_next.
  - apply wp_bind, wp_read; [done..|]. intros v Hv. split; [done|]. split; [lia|done].
Qed.

(** Falling through stays inside the code, since it ends in a terminator. *)
Lemma fall_through ip i :
  zget (instructions p) ip = Some i -> is_terminator i = false ->
  in_range (instructions p) (ip + 1) = true.
Proof.
  intros Hi Ht. pose proof (zget_lt _ _ _ Hi) as Hr. apply zget_Some in Hi as [_ Hi].
  apply andb_true_iff in Hchecked as [_ Hlast]. unfold in_range, zlen in *.
  assert (Z.to_nat ip <> pred (length (instructions p))) as Hne; [|lia].
  intros Heq. rewrite last_lookup, <- Heq, Hi in Hlast. congruence.
Qed.

Definition run_post (budget : Z) (r : option (result VmError (Value * Z) * Ref.State)) : Prop :=
  match r with
  | Some (Ok (v, n), st) => value_ok (zlen (Ref.objs st)) v /\ 0 < n <= budget
  | Some (Err e, st) => dynamic e = true
  | None => False
  end.

Lemma run_typed budget fuel ip steps st :
  budget <= u32_max + 1 -> (Z.to_nat (budget - steps) < fuel)%nat ->
  0 <= steps -> zlen (Ref.objs st) <= steps ->
  typed nregs st -> in_range (instructions p) ip = true ->
  run_post budget (Ref.run fuel p budget ip steps st).
Proof.
  intros Hb. revert ip steps st.
  induction fuel as [|fuel IH]; intros ip steps st Hfuel H0 Hobjs Hty Hip; [lia|].
  simpl. destruct (Z.leb_spec budget steps); [done|].
  destruct (in_range_zget _ _ Hip) as [i Hi]. rewrite Hi.
  pose proof (step_typed ip i st Hi Hty ltac:(lia)) as Hstep. unfold wp in Hstep.
  destruct (Ref.step p ip i st) as [[[ip'|v]|e] st']; [| |done];
    destruct Hstep as (Hty' & Hlen & Hf).
  - apply IH; [lia|lia|simpl; lia|by destruct Hty'|].
    destruct Hf as [?|[-> Ht]]; [done|]. by eapply fall_through.
  - split; [done|lia].
Qed.
End typing.

(** C36. Type safety of checked bytecode. Take a program whose register, constant,
    property and jump indices are in bounds, whose constants are no object handles and
    whose code is not empty and ends in a jump or a return, with distinct shape ids on the
    layouts over its property names. It runs, under a budget of at most 2^32 steps, to a
    value whose object handle is live or to one of the three dynamic errors (type
    mismatch, division by zero, exhausted budget); out-of-bounds and missing-return
    errors, dangling objects and panics do not occur. *)
Theorem vm_checked_program_safe `{!ShapeCrates, !ShapeCratesLaws, !VmCrates}
    (p : Program) (vm : BytecodeVm) :
  ids_distinct (pool_skeleton (property_pool p)) ->
  zlen (property_pool p) <= usize_max ->
  checked p (zlen (registers vm)) = true ->
  step_budget vm <= 2 ^ 32 ->
  exists o vm', execute p vm = Some (o, vm') /\
    match o with
    | Done rep => value_ok (zlen (heap vm')) (rep_result rep) /\ 0 < rep_steps rep <= step_budget vm
    | Fail e => dynamic e = true
    | Panicked => False
    end.
Proof.
  intros Hd Hp Hc Hb.
  destruct (execute_refines p vm Hd Hp) as (o & vm' & r & st & He & Hr & Hm & _ & Hheap & _).
  exists o, vm'. split; [done|].
  pose proof (run_typed p (zlen (registers vm)) Hc (step_budget vm)
    (S (Z.to_nat (step_budget vm))) 0 0
    (Ref.mkState (replicate (length (registers vm)) Undefined) [] [])) as Hrun.
  unfold Ref.execute in Hr. rewrite Hr in Hrun.
  assert (run_post (step_budget vm) (Some (r, st))) as Hpost.
  { apply Hrun; try (simpl; unfold zlen; simpl; mlia).
    - split; simpl; [unfold zlen; by rewrite length_replicate| |constructor].
      by apply Forall_replicate.
    - apply andb_true_iff in Hc as [_ Hlast]. unfold in_range, zlen.
      destruct (instructions p); [done|]. apply andb_true_iff; split; [done|]. simpl. apply Z.ltb_lt. lia. }
  destruct o as [rep|e|], r as [[v n]|e']; simpl in *; try done; [|by subst].
  destruct Hm as (-> & -> & _). unfold zlen in *. by rewrite (Forall2_length _ _ _ Hheap).
Qed.

#[local] Existing Instances Sample.crates Sample.laws SampleVm.vm_crates.

Lemma vm_checked_program_safe_witness :
  exists o vm', execute SampleVm.program (sample_vm 100) = Some (o, vm') /\
    match o with
    | Done rep => value_ok (zlen (heap vm')) (rep_result rep) /\
        0 < rep_steps rep <= step_budget (sample_vm 100)
    | Fail e => dynamic e = true
    | Panicked => False
    end.
Proof.
  apply (vm_checked_program_safe SampleVm.program (sample_vm 100)).
  - exact Sample.distinct.
  - vm_compute. discriminate.
  - reflexivity.
  - vm_compute. discriminate.
Defined.
