(* ===== verification/BytecodeVmStats.v ===== *)
(** * What the bytecode VM reports about its caches

    The counters of the inline caches count the load events of the run, one
    event is recorded per instruction, and no counter overflows. *)
From stdpp Require Import base numbers list strings gmap.
From S2P Require Import Prelude Bytes ShapeAlgebra ShapeAlgebraCorrect.
From S2P Require Import BytecodeVm BytecodeVmCorrect.
Open Scope string_scope.
Open Scope list_scope.
Open Scope Z_scope.

(** Events of loads that hit ([true]) or missed ([false]). *)
Definition loads (hit : bool) (evs : list VmEvent) : Z :=
  zlen (filter (fun e => ev_cache_hit e = Some hit) evs).

Lemma loads_snoc hit evs e :
  loads hit (evs ++ [e]) = loads hit evs + (if decide (ev_cache_hit e = Some hit) then 1 else 0).
Proof.
  unfold loads, zlen. rewrite filter_app, length_app, filter_cons, filter_nil.
  destruct (decide (ev_cache_hit e = Some hit)); simpl; lia.
Qed.

Lemma loads_total evs : loads true evs + loads false evs <= zlen evs.
Proof.
  induction evs as [|e evs IH] using rev_ind; [done|].
  rewrite !loads_snoc. unfold zlen in *. rewrite length_app. simpl.
  destruct (decide (ev_cache_hit e = Some true)) as [He|], (decide (ev_cache_hit e = Some false)) as [He'|];
    [congruence|lia..].
Qed.

Section stats.
Context `{!ShapeCrates, !VmCrates}.
Implicit Types (vm : BytecodeVm).

(** *** Methods that leave the cache, the events and the budget alone *)

Definition same_rest vm vm' : Prop :=
  events vm' = events vm /\ inline_cache vm' = inline_cache vm /\ step_budget vm' = step_budget vm.

Definition frame {A} (Q : A -> Prop) (m : VM A) : Prop :=
  forall vm, let '(o, vm') := m vm in
    same_rest vm vm' /\ match o with Done a => Q a | _ => True end.

Lemma frame_bind {A B} (P : A -> Prop) (Q : B -> Prop) m f :
  frame P m -> (forall a, P a -> frame Q (f a)) -> frame Q (m ≫= f).
Proof.
  intros Hm Hf vm. specialize (Hm vm). cbv [mbind VM_bind].
  destruct (m vm) as [[a|e|] vm']; [|done|done]. destruct Hm as [(H1 & H2 & H3) HP].
  specialize (Hf a HP vm'). destruct (f a vm') as [o vm'']. destruct Hf as [(H4 & H5 & H6) HQ].
  split; [|done]. unfold same_rest. by rewrite H4, H5, H6.
Qed.

Lemma frame_ret {A} (Q : A -> Prop) a : Q a -> frame Q (mret a).
Proof. intros HQ vm. done. Qed.
Lemma frame_fail {A} (Q : A -> Prop) e : frame Q (fail e).
Proof. intros vm. done. Qed.
Lemma frame_panic {A} (Q : A -> Prop) : frame Q panic.
Proof. intros vm. done. Qed.
Lemma frame_gets {A} (f : BytecodeVm -> A) : frame (fun _ => True) (gets f).
Proof. intros vm. done. Qed.
Lemma frame_ok_or {A} e (o : option A) : frame (fun _ => True) (ok_or_fail e o).
Proof. destruct o; [by apply frame_ret|apply frame_fail]. Qed.
Lemma frame_modify f : (forall vm, same_rest vm (f vm)) -> frame (fun _ => True) (modify f).
Proof. intros Hf vm. split; [apply Hf|done]. Qed.

Lemma frame_read r : frame (fun _ => True) (read_register r).
Proof. eapply frame_bind; [apply frame_gets|]. intros. apply frame_ok_or. Qed.
Lemma frame_write r v : frame (fun _ => True) (write_register r v).
Proof.
  eapply frame_bind; [apply frame_gets|]. intros. eapply frame_bind; [apply frame_ok_or|].
  intros. apply frame_modify. done.
Qed.
Lemma frame_read_int r : frame (fun _ => True) (read_int r).
Proof. eapply frame_bind; [apply frame_read|]. intros [] _; try apply frame_fail. by apply frame_ret. Qed.
Lemma frame_read_id r : frame (fun _ => True) (read_object_id r).
Proof. eapply frame_bind; [apply frame_read|]. intros [] _; try apply frame_fail. by apply frame_ret. Qed.
Lemma frame_get_object id : frame (fun _ => True) (get_object id).
Proof. eapply frame_bind; [apply frame_gets|]. intros. apply frame_ok_or. Qed.

(** Control flow that reports no cache access. *)
Definition no_access (f : ControlFlow) : Prop :=
  match f with Continue _ hit | Returned _ hit => hit = None end.

Create HintDb vm_frame.
Hint Resolve frame_read frame_write frame_read_int frame_read_id frame_get_object frame_gets
  frame_ok_or frame_fail frame_panic : vm_frame.

Ltac frame_steps :=
  repeat first
    [ apply frame_ret; done
    | solve [eauto with vm_frame]
    | apply frame_modify; done
    | eapply frame_bind; [first [solve [eauto with vm_frame] | apply frame_modify; done]|intros ? _] ].

Lemma frame_jump p t : frame no_access (exec_jump p t).
Proof. unfold exec_jump. destruct (_ <=? _); frame_steps. Qed.

Lemma frame_store_prop p ip step object k value :
  frame no_access (exec_store_prop p ip step object k value).
Proof.
  unfold exec_store_prop, property_name. frame_steps. cbv zeta.
  destruct (apply_mutation _ _ _) as [[[out|] alg]|]; [|frame_steps..].
  eapply frame_bind; [by apply frame_modify|]. intros _ _.
  destruct (slot_as_laid_out _ _ _); frame_steps.
Qed.

Lemma frame_instruction p ip step i :
  (forall dst o k, i <> LoadPropCached dst o k) ->
  frame no_access (execute_instruction p ip step i).
Proof.
  intros Hi. destruct i; simpl; unfold exec_arith, exec_div, exec_new_object, binary_int_op;
    try (by edestruct Hi); try apply frame_store_prop; try apply frame_jump; frame_steps.
  - eapply frame_bind with (P := fun _ => True); [frame_steps|]. intros ? _. frame_steps.
  - eapply frame_bind with (P := fun _ => True); [frame_steps|]. intros ? _. frame_steps.
  - eapply frame_bind with (P := fun _ => True); [frame_steps|]. intros ? _. frame_steps.
  - destruct (_ =? 0); frame_steps.
  - destruct (is_truthy _); [frame_steps|apply frame_jump].
Qed.

(** *** Counting *)

Definition access (f : ControlFlow) : option bool :=
  match f with Continue _ hit | Returned _ hit => hit end.

Definition one (b : bool) (hit : option bool) : Z := if decide (hit = Some b) then 1 else 0.

Definition nonneg (c : gmap Z InlineCacheEntry) : Prop :=
  map_Forall (fun _ e => 0 <= ic_hits e /\ 0 <= ic_misses e) c.

Record accounted vm : Prop := {
  acc_hits : map_sum ic_hits (inline_cache vm) = loads true (events vm);
  acc_misses : map_sum ic_misses (inline_cache vm) = loads false (events vm);
  acc_nonneg : nonneg (inline_cache vm) }.

Record counted (hit : option bool) vm vm' : Prop := {
  ct_events : events vm' = events vm;
  ct_budget : step_budget vm' = step_budget vm;
  ct_hits : map_sum ic_hits (inline_cache vm') = map_sum ic_hits (inline_cache vm) + one true hit;
  ct_misses :
    map_sum ic_misses (inline_cache vm') = map_sum ic_misses (inline_cache vm) + one false hit;
  ct_nonneg : nonneg (inline_cache vm') }.

Lemma map_sum_entry_le (f : InlineCacheEntry -> Z) (c : gmap Z InlineCacheEntry) k e :
  (forall k e, c !! k = Some e -> 0 <= f e) -> c !! k = Some e -> 0 <= f e <= map_sum f c.
Proof.
  intros Hp He. split; [by eapply Hp|]. rewrite (map_sum_delete f c k e He).
  assert (0 <= map_sum f (delete k c)); [|lia]. apply map_sum_nonneg.
  intros k' e' [_ He']%lookup_delete_Some. by eapply Hp.
Qed.

(** Replacing an entry whose counters are those of the old one, one of them
    increased. *)
Lemma counted_insert vm vm' (hit : bool) k e :
  accounted vm -> zlen (events vm) < u64_max ->
  same_rest (set_cache <[k := e]> vm) vm' ->
  let old := default InlineCacheEntry_default (inline_cache vm !! k) in
  ic_hits e = (if hit then wrap_u64 (ic_hits old + 1) else ic_hits old) ->
  ic_misses e = (if hit then ic_misses old else wrap_u64 (ic_misses old + 1)) ->
  counted (Some hit) vm vm'.
Proof.
  intros [Hh Hm Hn] Hev (He1 & He2 & He3) old Heh Hem.
  pose proof (loads_total (events vm)) as Htot.
  pose proof (map_sum_nonneg ic_hits _ (fun k e He => proj1 (Hn k e He))) as Hh0.
  pose proof (map_sum_nonneg ic_misses _ (fun k e He => proj2 (Hn k e He))) as Hm0.
  assert (Hold : 0 <= ic_hits old <= map_sum ic_hits (inline_cache vm) /\
                 0 <= ic_misses old <= map_sum ic_misses (inline_cache vm)).
  { unfold old. destruct (inline_cache vm !! k) as [e0|] eqn:He0; simpl; [|lia].
    split; eapply map_sum_entry_le; eauto; intros; by eapply Hn. }
  assert (Hsum : forall f : InlineCacheEntry -> Z, f InlineCacheEntry_default = 0 ->
    map_sum f (<[k:=e]> (inline_cache vm)) = map_sum f (inline_cache vm) - f old + f e).
  { intros f Hf. unfold old. destruct (inline_cache vm !! k) as [e0|] eqn:He0; simpl.
    - by apply map_sum_update.
    - rewrite map_sum_insert by done. rewrite Hf. lia. }
  split; [done|done|..]; rewrite ?He2; simpl; rewrite ?Hsum by done.
  - rewrite Heh. destruct hit; [rewrite wrap_u64_small by mlia|]; unfold one; simpl; lia.
  - rewrite Hem. destruct hit; [|rewrite wrap_u64_small by mlia]; unfold one; simpl; lia.
  - apply map_Forall_insert_2; [|done]. rewrite Heh, Hem.
    destruct hit; rewrite wrap_u64_small by mlia; lia.
Qed.

Lemma load_prop_counted p ip dst object k vm f vm' :
  exec_load_prop_cached p ip dst object k vm = (Done f, vm') ->
  accounted vm -> zlen (events vm) < u64_max -> counted (access f) vm vm'.
Proof.
  intros Hex Hacc Hev. unfold exec_load_prop_cached in Hex. cbv [mbind VM_bind gets modify] in Hex.
  assert (Hframe : forall vm, (read_object_id object vm).2 = vm).
  { clear. intros vm. unfold read_object_id, read_register. cbv [mbind VM_bind gets].
    destruct (zget (registers vm) object) as [[]|]; done. }
  specialize (Hframe vm). destruct (read_object_id object vm) as [[id|e|] vm1]; simpl in Hframe; subst vm1;
    [|done|done].
  unfold property_name in Hex. destruct (zget (property_pool p) k) as [key|]; [|done]. simpl in Hex.
  unfold get_object in Hex. cbv [mbind VM_bind gets] in Hex.
  destruct (zget (heap vm) id) as [o|]; [|done]. simpl in Hex.
  destruct (cache_probe _ o k) as [[entry v]|] eqn:Hprobe.
  - destruct (inline_cache vm !! wrap_u32 ip) as [e|] eqn:He; [|done].
    assert (entry = e) as ->.
    { simpl in Hprobe. destruct (_ && _); [|done]. by destruct (load_slot _ _); simplify_eq/=. }
    destruct (write_register dst v _) as [[[]|e'|] vm2] eqn:Hw; [|done|done]. injection Hex as <- <-.
    pose proof (frame_write dst v (set_cache <[wrap_u32 ip:=mkEntry (ic_shape_id e) (ic_property_index e)
      (ic_slot_index e) (wrap_u64 (ic_hits e + 1)) (ic_misses e)]> vm)) as Hf.
    rewrite Hw in Hf. destruct Hf as [Hf _].
    apply (counted_insert _ _ true _ _ Hacc Hev Hf); by rewrite He.
  - destruct (default (usize_max, Undefined) (load o key)) as [slot v].
    destruct (write_register dst v _) as [[[]|e'|] vm2] eqn:Hw; [|done|done]. injection Hex as <- <-.
    pose proof (frame_write dst v (set_cache <[wrap_u32 ip:=mkEntry (obj_shape_id o) k slot
      (ic_hits (default InlineCacheEntry_default (inline_cache vm !! wrap_u32 ip)))
      (wrap_u64 (ic_misses (default InlineCacheEntry_default (inline_cache vm !! wrap_u32 ip)) + 1))]> vm)) as Hf.
    rewrite Hw in Hf. destruct Hf as [Hf _].
    by apply (counted_insert _ _ false _ _ Hacc Hev Hf).
Qed.

Lemma instruction_counted p ip step i vm f vm' :
  execute_instruction p ip step i vm = (Done f, vm') ->
  accounted vm -> zlen (events vm) < u64_max -> counted (access f) vm vm'.
Proof.
  intros Hex Hacc Hev. 
  assert ((exists dst o k, i = LoadPropCached dst o k) \/ forall dst o k, i <> LoadPropCached dst o k)
    as [Hi|Hi] by (destruct i; eauto 6).
  - destruct Hi as (dst & o & k & ->). by eapply load_prop_counted.
  - pose proof (frame_instruction p ip step i) as Hf. unfold frame in Hf.
    specialize (Hf Hi vm). rewrite Hex in Hf. destruct Hf as [(H2 & H3 & H4) Hno].
    assert (access f = None) as -> by by destruct f.
    split; rewrite ?H3; unfold one; simpl; try done; try lia. apply Hacc.
Qed.

Lemma accounted_record hit vm vm' e :
  accounted vm -> counted hit vm vm' -> er_cache_hit e = hit -> accounted (record_event e vm').
Proof.
  intros [Hh Hm Hn] [H2 H3 H4 H5 H6] <-. split; simpl; [| |done]; rewrite loads_snoc, H2; simpl.
  - rewrite H4, Hh. done.
  - rewrite H5, Hm. done.
Qed.

Lemma accounted_reset vm : accounted (reset vm).
Proof. split; simpl; [apply map_sum_empty|apply map_sum_empty|apply map_Forall_empty]. Qed.

Lemma run_accounted p fuel ip steps vm rep vm' :
  run fuel p ip steps vm = Some (Done rep, vm') ->
  accounted vm -> zlen (events vm) = steps -> step_budget vm <= u64_max ->
  rep_events rep = events vm' /\ rep_cache_stats rep = cache_stats vm' /\
  accounted vm' /\ zlen (events vm') = rep_steps rep /\ rep_steps rep <= u64_max.
Proof.
  revert ip steps vm. induction fuel as [|fuel IH]; intros ip steps vm Hrun Hacc Hev Hb; [done|].
  simpl in Hrun. destruct (Z.leb_spec (step_budget vm) steps); [done|].
  destruct (zget (instructions p) ip) as [i|]; [|done].
  destruct (execute_instruction p ip (steps + 1) i vm) as [[f|e|] vm1] eqn:Hex; [|done|done].
  apply instruction_counted in Hex as Hct; [|done|lia].
  assert (Hlen : forall e, zlen (events (record_event e vm1)) = steps + 1).
  { intros e. simpl. rewrite (ct_events _ _ _ Hct). unfold zlen in *. rewrite length_app. simpl. lia. }
  destruct f as [ip' hit|v hit].
  - eapply IH; [done|by eapply accounted_record|apply Hlen|]. simpl. by rewrite (ct_budget _ _ _ Hct).
  - injection Hrun as <- <-. split_and!; [done|done|by eapply accounted_record|apply Hlen|].
    simpl. lia.
Qed.

(** The [u64] sums over the entries are the exact sums. *)
Lemma cache_stats_exact vm :
  accounted vm -> zlen (events vm) <= u64_max ->
  st_hits (cache_stats vm) = loads true (events vm) /\
  st_misses (cache_stats vm) = loads false (events vm).
Proof.
  intros [Hh Hm Hn] Hev. pose proof (loads_total (events vm)) as Htot.
  pose proof (map_sum_nonneg ic_hits _ (fun k e He => proj1 (Hn k e He))) as Hh0.
  pose proof (map_sum_nonneg ic_misses _ (fun k e He => proj2 (Hn k e He))) as Hm0.
  assert (Hsum : forall f : InlineCacheEntry -> Z,
    (forall k e, inline_cache vm !! k = Some e -> 0 <= f e) ->
    map_sum f (inline_cache vm) <= u64_max ->
    fold_left (fun acc e => wrap_u64 (acc + f e)) (sorted_values (inline_cache vm)) 0
      = map_sum f (inline_cache vm)).
  { intros f Hf Hs. rewrite map_sum_sorted_values in *.
    rewrite <- (Z.add_0_l (Zsum _)). rewrite <- fold_wrap_sum; [|..|lia|lia].
    - generalize (sorted_values (inline_cache vm)). clear. intros l. generalize 0.
      induction l as [|e l IHl]; intros z; [done|]. simpl. apply IHl.
    - rewrite Forall_fmap, Forall_forall. intros e He. unfold sorted_values in He. simpl.
      apply list_elem_of_fmap in He as ([k e'] & -> & He). apply elem_of_sorted_entries in He. by eapply Hf. }
  unfold cache_stats. simpl. rewrite !Hsum; [done|..]; try lia; intros; by eapply Hn.
Qed.
End stats.

(** The cache statistics of a report are exact: hits and misses equal the numbers of
    recorded load events that hit and missed, there is one event per step, and their sum
    is at most the number of steps, so that no counter wraps. *)
Theorem vm_cache_stats_exact `{!ShapeCrates, !VmCrates} (p : Program) (vm vm' : BytecodeVm) rep :
  step_budget vm <= u64_max ->
  execute p vm = Some (Done rep, vm') ->
  st_hits (rep_cache_stats rep) = loads true (rep_events rep) /\
  st_misses (rep_cache_stats rep) = loads false (rep_events rep) /\
  zlen (rep_events rep) = rep_steps rep /\
  st_hits (rep_cache_stats rep) + st_misses (rep_cache_stats rep) <= rep_steps rep.
Proof.
  intros Hb Hex. unfold execute in Hex.
  destruct (run_accounted _ _ _ _ _ _ _ Hex (accounted_reset vm) eq_refl Hb)
    as (Hev & Hst & Hacc & Hlen & Hmax).
  destruct (cache_stats_exact vm') as [H1 H2]; [done|lia|].
  pose proof (loads_total (rep_events rep)). rewrite Hst, Hev in *. lia.
Qed.

#[local] Existing Instances Sample.crates Sample.laws SampleVm.vm_crates.

Lemma vm_cache_stats_exact_witness :
  match execute SampleVm.program (sample_vm 100) with
  | Some (Done rep, _) =>
      st_hits (rep_cache_stats rep) = 4 /\
      st_hits (rep_cache_stats rep) = loads true (rep_events rep) /\
      st_misses (rep_cache_stats rep) = loads false (rep_events rep) /\
      zlen (rep_events rep) = rep_steps rep /\
      st_hits (rep_cache_stats rep) + st_misses (rep_cache_stats rep) <= rep_steps rep
  | _ => False
  end.
Proof.
  pose proof sample_program_runs as [Hrun _].
  destruct (execute SampleVm.program (sample_vm 100)) as [[[rep|e|] vm']|] eqn:Hex; [|destruct Hrun..].
  split.
  - injection Hrun as _ _ ->. reflexivity.
  - apply (vm_cache_stats_exact SampleVm.program (sample_vm 100) vm' rep); [|exact Hex].
    vm_compute. discriminate.
Defined.
