(* ===== verification/SignaturePreimage.v ===== *)
(** * Signature preimages (crates/franken-engine/src/signature_preimage.rs)

    What is signed of a security-critical object (its domain tag, its schema
    hash and its canonical unsigned view), and the keyed-hash signatures over
    it.  The trait is the class [SignaturePreimage]; keys are 32-byte arrays and
    signatures two 32-byte halves.  [ObjectDomain] is engine_object_id.rs's.  The
    properties follow the definitions. *)
From stdpp Require Import base numbers list strings gmap.
From Stdlib Require Import Strings.Byte.
From S2P Require Import Prelude Bytes Text HashTiers DetSerde DetSerdeCorrect.
From S2P Require Import IrContract IrContractCorrect.
Open Scope string_scope.
Open Scope list_scope.
Open Scope Z_scope.

(** ** Domains *)

Inductive ObjectDomain :=
  | PolicyObject | EvidenceRecord | Revocation | SignedManifest | Attestation
  | CapabilityToken | CheckpointArtifact | RecoveryArtifact | KeyBundle.

#[export] Instance ObjectDomain_eq_dec : EqDecision ObjectDomain.
Proof. solve_decision. Defined.

Definition tag (d : ObjectDomain) : list byte :=
  str_bytes match d with
  | PolicyObject => "FrankenEngine.PolicyObject.v1"
  | EvidenceRecord => "FrankenEngine.EvidenceRecord.v1"
  | Revocation => "FrankenEngine.Revocation.v1"
  | SignedManifest => "FrankenEngine.SignedManifest.v1"
  | Attestation => "FrankenEngine.Attestation.v1"
  | CapabilityToken => "FrankenEngine.CapabilityToken.v1"
  | CheckpointArtifact => "FrankenEngine.CheckpointArtifact.v1"
  | RecoveryArtifact => "FrankenEngine.RecoveryArtifact.v1"
  | KeyBundle => "FrankenEngine.KeyBundle.v1"
  end.

(** ** Keys and signatures *)

Definition SigningKey := list byte.
Definition VerificationKey := list byte.
Definition KEY_LEN : nat := 32.
Definition SIGNATURE_LEN : nat := 64.
Definition SIGNATURE_SENTINEL : list byte := replicate SIGNATURE_LEN x00.

Definition verification_key (sk : SigningKey) : VerificationKey :=
  ContentHash_compute (str_bytes "vk-derive:" ++ sk).

Definition to_hex (vk : VerificationKey) : string := hex_encode vk.

Record Signature := mkSignature { lower : list byte; upper : list byte }.

Definition Signature_from_bytes (b : list byte) : Signature :=
  mkSignature (take 32 b) (drop 32 b).
Definition Signature_to_bytes (s : Signature) : list byte := lower s ++ upper s.
Definition is_sentinel (s : Signature) : bool :=
  bool_decide (lower s = replicate 32 x00) && bool_decide (upper s = replicate 32 x00).

Inductive SignatureError :=
  | VerificationFailed (signer : VerificationKey) (reason : string)
  | NonCanonicalObject (detail : string)
  | PreimageError (detail : string)
  | InvalidSigningKey
  | InvalidVerificationKey.

#[export] Instance SignatureError_eq_dec : EqDecision SignatureError.
Proof. solve_decision. Defined.

(** [Display] of [SignatureError] and of [SerdeError] *)
Definition signature_error_string (e : SignatureError) : string :=
  match e with
  | VerificationFailed signer reason =>
      "verification failed for signer " +:+ to_hex signer +:+ ": " +:+ reason
  | NonCanonicalObject detail => "non-canonical object: " +:+ detail
  | PreimageError detail => "preimage error: " +:+ detail
  | InvalidSigningKey => "signing key is all zeros"
  | InvalidVerificationKey => "verification key is all zeros"
  end.

Definition serde_error_string (e : SerdeError) : string :=
  let int := int_to_string in
  match e with
  | SchemaMismatch expected actual =>
      "schema mismatch: expected " +:+ hex_encode expected +:+ ", got " +:+ hex_encode actual
  | UnknownSchema h => "unknown schema: " +:+ hex_encode h
  | BufferTooShort expected actual =>
      "buffer too short: need " +:+ int expected +:+ ", got " +:+ int actual
  | InvalidTag t off => "invalid tag 0x" +:+ hex_encode [t] +:+ " at offset " +:+ int off
  | InvalidBoolEncoding v off =>
      "invalid bool encoding 0x" +:+ hex_encode [v] +:+ " at offset " +:+ int off
  | InvalidUtf8 off => "invalid UTF-8 at offset " +:+ int off
  | DuplicateKey key => "duplicate key: " +:+ key
  | NonLexicographicKeys p c => "non-lexicographic keys: " +:+ p +:+ " > " +:+ c
  | RecursionLimitExceeded off => "recursion limit exceeded at offset " +:+ int off
  | TrailingBytes n => int n +:+ " trailing bytes"
  end.

(** ** The keyed hash *)

Definition byte_xor (a b : byte) : byte := Zbyte (Z.lxor (byteZ a) (byteZ b)).

(** Pass 1: [hash(key ^ ipad || preimage)]; pass 2: [hash(key ^ opad || lower)]. *)
Definition compute_verification_hash (vk : VerificationKey) (preimage : list byte) : list byte :=
  let ipad := byte_xor x36 <$> vk in
  let opad := byte_xor x5c <$> vk in
  let inner_hash := ContentHash_compute (ipad ++ preimage) in
  let outer_hash := ContentHash_compute (opad ++ inner_hash) in
  inner_hash ++ outer_hash.

(** [for i in 0..SIGNATURE_LEN { diff |= a[i] ^ b[i] }] *)
Definition constant_time_eq_64 (a b : list byte) : bool :=
  fold_left (fun diff i =>
      Z.lor diff (Z.lxor (byteZ (nth i a x00)) (byteZ (nth i b x00))))
    (List.seq 0 SIGNATURE_LEN) 0 =? 0.

Definition all_zero (key : list byte) : bool := bool_decide (key = replicate KEY_LEN x00).

Definition sign_preimage (sk : SigningKey) (preimage : list byte) :
    result SignatureError Signature :=
  if all_zero sk then Err InvalidSigningKey
  else
    let vk := verification_key sk in
    Ok (Signature_from_bytes (compute_verification_hash vk preimage)).

Definition verify_signature (vk : VerificationKey) (preimage : list byte) (s : Signature) :
    result SignatureError unit :=
  if all_zero vk then Err InvalidVerificationKey
  else
    let expected := compute_verification_hash vk preimage in
    if constant_time_eq_64 (Signature_to_bytes s) expected then Ok tt
    else Err (VerificationFailed vk "signature does not match preimage").

(** ** Objects *)

#[export] Instance CanonicalValue_eq_dec : EqDecision CanonicalValue.
Proof.
  unfold EqDecision, Decision. fix rec 1. intros v w.
  destruct v as [a|a|a|a|a|a|a|], w as [b|b|b|b|b|b|b|]; try (right; discriminate).
  - destruct (decide (a = b)) as [He|Hn]; [left; congruence|right; congruence].
  - destruct (decide (a = b)) as [He|Hn]; [left; congruence|right; congruence].
  - destruct (decide (a = b)) as [He|Hn]; [left; congruence|right; congruence].
  - destruct (decide (a = b)) as [He|Hn]; [left; congruence|right; congruence].
  - destruct (decide (a = b)) as [He|Hn]; [left; congruence|right; congruence].
  - destruct (List.list_eq_dec rec a b) as [He|Hn]; [left; congruence|right; congruence].
  - assert (forall x y : string * CanonicalValue, {x = y} + {x <> y}) as Hp.
    { intros [k x] [l y]. destruct (decide (k = l)) as [Hk|Hn]; [|right; congruence].
      destruct (rec x y) as [He|Hn]; [left; congruence|right; congruence]. }
    destruct (List.list_eq_dec Hp a b) as [He|Hn]; [left; congruence|right; congruence].
  - by left.
Defined.

Class SignaturePreimage (T : Type) := {
  signature_domain : T -> ObjectDomain;
  signature_schema : T -> SchemaHash;
  unsigned_view : T -> CanonicalValue }.

Definition build_preimage (domain : ObjectDomain) (schema : SchemaHash) (view : CanonicalValue) :
    list byte :=
  tag domain ++ schema ++ encode_value view.

Definition preimage_hash (preimage : list byte) : ContentHash := ContentHash_compute preimage.

Definition check_canonical_for_signing (value : CanonicalValue) : result SignatureError unit :=
  match decode_value (encode_value value) with
  | Ok decoded =>
      if decide (decoded = value) then Ok tt
      else Err (NonCanonicalObject "round-trip produced different value")
  | Err e => Err (NonCanonicalObject (serde_error_string e))
  end.

Section objects.
Context `{!SignaturePreimage T}.

Definition preimage_bytes (o : T) : list byte :=
  tag (signature_domain o) ++ signature_schema o ++ encode_value (unsigned_view o).

Definition sign_object (o : T) (sk : SigningKey) : result SignatureError Signature :=
  sign_preimage sk (preimage_bytes o).

Definition verify_object (o : T) (vk : VerificationKey) (s : Signature) : result SignatureError unit :=
  verify_signature vk (preimage_bytes o) s.
End objects.

(** ** The context with audit events *)

Inductive SignatureEventType :=
  | EvSigned (signer : VerificationKey)
  | EvVerified (signer : VerificationKey)
  | EvVerificationFailed (signer : VerificationKey) (reason : string)
  | EvCanonicalityCheckFailed (detail : string).

Record SignatureEvent := mkSigEvent {
  event_type : SignatureEventType; sig_domain : ObjectDomain; sig_trace_id : string }.

Record SignatureContext := mkContext {
  sig_events : list SignatureEvent;
  sign_count : Z;
  verify_count : Z;
  failure_count : Z }.

Module Context.
Definition new : SignatureContext := mkContext [] 0 0 0.

Section context.
Context `{!SignaturePreimage T}.

(** The counters are [u64]s incremented with [+= 1]. *)
Definition sign (c : SignatureContext) (o : T) (sk : SigningKey) (trace_id : string) :
    SignatureContext * result SignatureError Signature :=
  match check_canonical_for_signing (unsigned_view o) with
  | Err e =>
      (mkContext
         (sig_events c ++ [mkSigEvent (EvCanonicalityCheckFailed (signature_error_string e))
                             (signature_domain o) trace_id])
         (sign_count c) (verify_count c) (wrap_u64 (failure_count c + 1)), Err e)
  | Ok _ =>
      let vk := verification_key sk in
      let signature := Signature_from_bytes (compute_verification_hash vk (preimage_bytes o)) in
      (mkContext (sig_events c ++ [mkSigEvent (EvSigned vk) (signature_domain o) trace_id])
         (wrap_u64 (sign_count c + 1)) (verify_count c) (failure_count c), Ok signature)
  end.

Definition verify (c : SignatureContext) (o : T) (vk : VerificationKey) (s : Signature)
    (trace_id : string) : SignatureContext * result SignatureError unit :=
  let r := verify_object o vk s in
  (match r with
   | Ok _ =>
       mkContext (sig_events c ++ [mkSigEvent (EvVerified vk) (signature_domain o) trace_id])
         (sign_count c) (wrap_u64 (verify_count c + 1)) (failure_count c)
   | Err (VerificationFailed _ reason) =>
       mkContext
         (sig_events c ++ [mkSigEvent (EvVerificationFailed vk reason) (signature_domain o) trace_id])
         (sign_count c) (verify_count c) (wrap_u64 (failure_count c + 1))
   | Err _ =>
       mkContext (sig_events c) (sign_count c) (verify_count c) (wrap_u64 (failure_count c + 1))
   end, r).
End context.

(** [std::mem::take(&mut self.events)] *)
Definition drain_events (c : SignatureContext) : SignatureContext * list SignatureEvent :=
  (mkContext [] (sign_count c) (verify_count c) (failure_count c), sig_events c).

Definition event_key (e : SignatureEvent) : string :=
  match event_type e with
  | EvSigned _ => "signed"
  | EvVerified _ => "verified"
  | EvVerificationFailed _ _ => "verification_failed"
  | EvCanonicalityCheckFailed _ => "canonicality_failed"
  end.

Definition event_counts (c : SignatureContext) : gmap string Z :=
  fold_left (fun counts e => <[event_key e := default 0 (counts !! event_key e) + 1]> counts)
    (sig_events c) ∅.
End Context.

(** ** What a signature over a preimage establishes

    Preimages are injective: domain tags are prefix-free, schema hashes have a
    fixed width and views have one encoding.  A signature that two objects
    share therefore binds one object, up to a collision of the content hash.
    Since the verification key is also the key of the keyed hash, it suffices to
    produce signatures ([forged_signature_verifies]). *)
#[local] Opaque ContentHash_compute.

(** ** The keyed hash and its comparison *)

Lemma compute_verification_hash_length vk pre :
  length (compute_verification_hash vk pre) = SIGNATURE_LEN.
Proof. unfold compute_verification_hash. rewrite length_app, !ContentHash_wf. done. Qed.

Lemma constant_time_eq_64_correct a b :
  length a = SIGNATURE_LEN -> length b = SIGNATURE_LEN ->
  constant_time_eq_64 a b = true <-> a = b.
Proof.
  intros Ha Hb. unfold constant_time_eq_64. rewrite Z.eqb_eq, fold_lor_zero;
    [|intros i; apply Z.lxor_nonneg; pose proof (byteZ_range (nth i a x00));
      pose proof (byteZ_range (nth i b x00)); lia|lia].
  split.
  - intros [_ H]. apply (nth_ext _ _ x00 x00); [congruence|]. intros i Hi.
    apply byteZ_inj, Z.lxor_eq_0_iff, H. apply elem_of_seq. lia.
  - intros ->. split; [done|]. intros i _. apply Z.lxor_nilpotent.
Qed.

Definition signature_wf (s : Signature) : Prop :=
  length (lower s) = 32%nat /\ length (upper s) = 32%nat.

Lemma signature_bytes_roundtrip b :
  Signature_to_bytes (Signature_from_bytes b) = b.
Proof. unfold Signature_to_bytes, Signature_from_bytes. apply take_drop. Qed.

Lemma signature_from_to s : signature_wf s -> Signature_from_bytes (Signature_to_bytes s) = s.
Proof.
  intros [Hl Hu]. destruct s as [l u]. unfold Signature_from_bytes, Signature_to_bytes. simpl in *.
  rewrite take_app_length', drop_app_length' by done. done.
Qed.

Lemma signature_to_bytes_length s : signature_wf s -> length (Signature_to_bytes s) = SIGNATURE_LEN.
Proof. intros [Hl Hu]. unfold Signature_to_bytes. rewrite length_app, Hl, Hu. done. Qed.

(** Verification accepts one signature per key and preimage. *)
Lemma verify_signature_iff vk pre s :
  signature_wf s ->
  verify_signature vk pre s = Ok tt <->
  all_zero vk = false /\ Signature_to_bytes s = compute_verification_hash vk pre.
Proof.
  intros Hs. unfold verify_signature. destruct (all_zero vk); [naive_solver|].
  destruct (constant_time_eq_64 _ _) eqn:He.
  - apply constant_time_eq_64_correct in He; [naive_solver|by apply signature_to_bytes_length
      |apply compute_verification_hash_length].
  - split; [done|]. intros [_ Heq]. apply constant_time_eq_64_correct in Heq;
      [congruence|by apply signature_to_bytes_length|apply compute_verification_hash_length].
Qed.

(** ** Preimages *)

Lemma tag_prefix_free d1 d2 r1 r2 : tag d1 ++ r1 = tag d2 ++ r2 -> d1 = d2 /\ r1 = r2.
Proof.
  destruct d1, d2; intros H; first
    [ split; [reflexivity|]; exact (app_inv_head _ _ _ H)
    | exfalso; vm_compute in H; discriminate H ].
Qed.

(** What the encoder's contract needs of a view. *)
Record view_ok (v : CanonicalValue) : Prop := {
  vo_wf : value_wf v;
  vo_nest : (nest v <= depth_levels)%nat;
  vo_len : zlen (encode_value v) <= usize_max }.

Lemma encode_view_inj v1 v2 :
  view_ok v1 -> view_ok v2 -> encode_value v1 = encode_value v2 -> v1 = v2.
Proof.
  intros [W1 N1 L1] [W2 N2 L2] He.
  pose proof (decode_at_prefix [] v1 W1 N1 L1) as D1. pose proof (decode_at_prefix [] v2 W2 N2 L2) as D2.
  cbn [app] in D1, D2. rewrite He in D1. rewrite D1 in D2. by injection D2.
Qed.

Lemma build_preimage_inj d1 d2 h1 h2 v1 v2 :
  length h1 = 32%nat -> length h2 = 32%nat -> view_ok v1 -> view_ok v2 ->
  build_preimage d1 h1 v1 = build_preimage d2 h2 v2 -> d1 = d2 /\ h1 = h2 /\ v1 = v2.
Proof.
  intros H1 H2 V1 V2 He. apply tag_prefix_free in He as [-> He].
  apply app_inj_1 in He as [-> He]; [|congruence]. split; [done|]. split; [done|].
  by apply encode_view_inj.
Qed.

(** The hashed input of the first pass. *)
Definition inner_input (vk : VerificationKey) (pre : list byte) : list byte :=
  (byte_xor x36 <$> vk) ++ pre.

Section binding.
Context `{!SignaturePreimage T1, !SignaturePreimage T2}.

(** Domain separation. A signature that verifies for two objects under one key binds
    domain, schema and unsigned view: either all three agree or the inner hash of the
    keyed hash collides on two different inputs. *)
Theorem signature_binds_object (o1 : T1) (o2 : T2) (vk : VerificationKey) (s : Signature) :
  signature_wf s ->
  length (signature_schema o1) = 32%nat -> length (signature_schema o2) = 32%nat ->
  view_ok (unsigned_view o1) -> view_ok (unsigned_view o2) ->
  verify_object o1 vk s = Ok tt -> verify_object o2 vk s = Ok tt ->
  (signature_domain o1 = signature_domain o2 /\ signature_schema o1 = signature_schema o2 /\
   unsigned_view o1 = unsigned_view o2) \/
  (inner_input vk (preimage_bytes o1) <> inner_input vk (preimage_bytes o2) /\
   ContentHash_compute (inner_input vk (preimage_bytes o1)) =
   ContentHash_compute (inner_input vk (preimage_bytes o2))).
Proof.
  intros Hs L1 L2 V1 V2 H1 H2.
  apply verify_signature_iff in H1 as [_ H1]; [|done]. apply verify_signature_iff in H2 as [_ H2]; [|done].
  rewrite H1 in H2. unfold compute_verification_hash in H2.
  apply app_inj_1 in H2 as [Hin _]; [|by rewrite !ContentHash_wf].
  destruct (decide (preimage_bytes o1 = preimage_bytes o2)) as [He|Hne].
  - left. by apply (build_preimage_inj _ _ _ _ _ _ L1 L2 V1 V2).
  - right. split; [|exact Hin]. intros He. apply Hne. exact (app_inv_head _ _ _ He).
Qed.
End binding.

(** ** Signing *)

(** A signature made with a signing key verifies under the derived key, on the
    same object. *)
Theorem signature_sign_verify `{!SignaturePreimage T} (o : T) (sk : SigningKey) (s : Signature) :
  all_zero (verification_key sk) = false ->
  sign_object o sk = Ok s -> verify_object o (verification_key sk) s = Ok tt.
Proof.
  intros Hz Hs. unfold sign_object, sign_preimage in Hs. destruct (all_zero sk); [done|].
  injection Hs as <-. unfold verify_object, verify_signature. rewrite Hz, signature_bytes_roundtrip.
  rewrite (proj2 (constant_time_eq_64_correct _ _ (compute_verification_hash_length _ _)
    (compute_verification_hash_length _ _)) eq_refl). done.
Qed.

(** A signature computed from the verification key alone. *)
Definition forge `{!SignaturePreimage T} (vk : VerificationKey) (o : T) : Signature :=
  Signature_from_bytes (compute_verification_hash vk (preimage_bytes o)).

Lemma forged_signature_verifies `{!SignaturePreimage T} (vk : VerificationKey) (o : T) :
  all_zero vk = false -> verify_object o vk (forge vk o) = Ok tt.
Proof.
  intros Hz. unfold verify_object, verify_signature, forge. rewrite Hz, signature_bytes_roundtrip.
  rewrite (proj2 (constant_time_eq_64_correct _ _ (compute_verification_hash_length _ _)
    (compute_verification_hash_length _ _)) eq_refl). done.
Qed.

(** ** A concrete object *)

Record Note := mkNote { note_domain : ObjectDomain; note_text : list byte }.

#[export] Instance Note_preimage : SignaturePreimage Note := {
  signature_domain := note_domain;
  signature_schema := fun _ => from_definition (str_bytes "note");
  unsigned_view := fun n => VBytes (note_text n) }.

Definition sample_note : Note := mkNote EvidenceRecord [x61; x62].
Definition sample_key : SigningKey := replicate 32 x07.

(** The context signs under the all-zero key, which [sign_preimage] refuses. *)
Lemma context_signs_with_zero_key :
  sign_object sample_note (replicate 32 x00) = Err InvalidSigningKey /\
  is_ok (Context.sign Context.new sample_note (replicate 32 x00) "t").2 = true.
Proof. split; vm_compute; reflexivity. Qed.

#[local] Transparent ContentHash_compute.

Lemma signature_sign_verify_witness :
  exists s, sign_object sample_note sample_key = Ok s /\
    verify_object sample_note (verification_key sample_key) s = Ok tt.
Proof.
  eexists. split; [reflexivity|].
  apply (signature_sign_verify sample_note sample_key); [vm_compute|]; reflexivity.
Defined.

Lemma sample_view_ok : view_ok (unsigned_view sample_note).
Proof. split; [constructor; vm_compute; discriminate|vm_compute; lia|vm_compute; discriminate]. Qed.

Lemma signature_binds_object_witness :
  exists s, verify_object sample_note (verification_key sample_key) s = Ok tt /\
    ((signature_domain sample_note = signature_domain sample_note /\
      signature_schema sample_note = signature_schema sample_note /\
      unsigned_view sample_note = unsigned_view sample_note) \/
     (inner_input (verification_key sample_key) (preimage_bytes sample_note) <>
      inner_input (verification_key sample_key) (preimage_bytes sample_note) /\
      ContentHash_compute (inner_input (verification_key sample_key) (preimage_bytes sample_note)) =
      ContentHash_compute (inner_input (verification_key sample_key) (preimage_bytes sample_note)))).
Proof.
  assert (Hz : all_zero (verification_key sample_key) = false) by (vm_compute; reflexivity).
  exists (forge (verification_key sample_key) sample_note).
  split; [exact (forged_signature_verifies _ _ Hz)|].
  apply (signature_binds_object sample_note sample_note (verification_key sample_key)
    (forge (verification_key sample_key) sample_note)).
  - vm_compute. split; reflexivity.
  - apply ContentHash_wf.
  - apply ContentHash_wf.
  - exact sample_view_ok.
  - exact sample_view_ok.
  - exact (forged_signature_verifies _ _ Hz).
  - exact (forged_signature_verifies _ _ Hz).
Defined.
