(* ===== verification/FlowLattice.v ===== *)
(** * Information-flow lattice (crates/franken-engine/src/flow_lattice.rs)

    Labels, sink clearances, declassification obligations and the engine that
    checks flows and spends obligations, with the receipts of ifc_artifacts.rs
    ([Label], [DeclassificationReceipt]).  The JSON text of a receipt comes from
    another crate: it is the field of the class [IfcCrates].  An operation
    returns the new engine and its result. *)
From stdpp Require Import base numbers list strings gmap sorting.
From Stdlib Require Import Strings.Byte.
From S2P Require Import Prelude Bytes Text HashTiers DetSerde SignaturePreimage.
Open Scope string_scope.
Open Scope list_scope.
Open Scope Z_scope.

#[export] Program Instance byte_countable : Countable byte := inj_countable' byteZ Zbyte _.
Next Obligation. intros b. apply Zbyte_byteZ. Qed.

(** ** Labels of ifc_artifacts.rs *)

Inductive Label :=
  | LPublic | LInternal | LConfidential | LSecret | LTopSecret
  | LCustom (name : string) (level : Z).

#[export] Instance Label_eq_dec : EqDecision Label.
Proof. solve_decision. Defined.

Definition Label_level (l : Label) : Z :=
  match l with
  | LPublic => 0 | LInternal => 1 | LConfidential => 2 | LSecret => 3 | LTopSecret => 4
  | LCustom _ level => level
  end.

Definition Label_string (l : Label) : string :=
  match l with
  | LPublic => "public" | LInternal => "internal" | LConfidential => "confidential"
  | LSecret => "secret" | LTopSecret => "top_secret"
  | LCustom name level => "custom(" +:+ name +:+ ", level=" +:+ int_to_string level +:+ ")"
  end.

(** ** Clearances *)

Inductive Clearance := OpenSink | RestrictedSink | AuditedSink | SealedSink | NeverSink.

#[export] Instance Clearance_eq_dec : EqDecision Clearance.
Proof. solve_decision. Defined.

Module Clear.
Definition level (c : Clearance) : Z :=
  match c with
  | OpenSink => 0 | RestrictedSink => 1 | AuditedSink => 2 | SealedSink => 3 | NeverSink => 4
  end.

Definition max_label_level (c : Clearance) : Z :=
  match c with
  | OpenSink => 4 | RestrictedSink => 1 | AuditedSink => 2 | SealedSink => 3 | NeverSink => 0
  end.

Definition can_receive_label (c : Clearance) (l : Label) : bool :=
  Label_level l <=? max_label_level c.

Definition meet (a b : Clearance) : Clearance := if level a <=? level b then a else b.
Definition join (a b : Clearance) : Clearance := if level b <=? level a then a else b.

Definition to_string (c : Clearance) : string :=
  match c with
  | OpenSink => "open_sink" | RestrictedSink => "restricted_sink"
  | AuditedSink => "audited_sink" | SealedSink => "sealed_sink" | NeverSink => "never_sink"
  end.
End Clear.

(** ** Label classes *)

Inductive LabelClass := Public | Internal | Confidential | Secret | TopSecret.

#[export] Instance LabelLabelseq_dec : EqDecision LabelClass.
Proof. solve_decision. Defined.

Module Labels.
Definition level (l : LabelClass) : Z :=
  match l with Public => 0 | Internal => 1 | Confidential => 2 | Secret => 3 | TopSecret => 4 end.

Definition join (a b : LabelClass) : LabelClass := if level b <=? level a then a else b.
Definition meet (a b : LabelClass) : LabelClass := if level a <=? level b then a else b.

Definition can_flow_to (l : LabelClass) (c : Clearance) : bool :=
  level l <=? Clear.max_label_level c.

Definition to_label (l : LabelClass) : Label :=
  match l with
  | Public => LPublic | Internal => LInternal | Confidential => LConfidential
  | Secret => LSecret | TopSecret => LTopSecret
  end.

Definition from_label (l : Label) : LabelClass :=
  match l with
  | LPublic => Public | LInternal => Internal | LConfidential => Confidential
  | LSecret => Secret | LTopSecret => TopSecret
  | LCustom _ level =>
      if level =? 0 then Public else if level =? 1 then Internal
      else if level =? 2 then Confidential else if level =? 3 then Secret else TopSecret
  end.
End Labels.

(** ** Sources and sinks *)

Inductive DataSource :=
  | Literal
  | EnvironmentVariable
  | CredentialFileRead
  | GeneralFileRead
  | KeyMaterial
  | PolicyProtectedArtifact
  | HostcallReturn (clearance : Clearance)
  | Computed (input_labels : list LabelClass)
  | Declassified (original : LabelClass).

Definition assign_label (s : DataSource) : LabelClass :=
  match s with
  | Literal => Public
  | EnvironmentVariable => Secret
  | CredentialFileRead => Secret
  | GeneralFileRead => Internal
  | KeyMaterial => TopSecret
  | PolicyProtectedArtifact => Confidential
  | HostcallReturn clearance =>
      match clearance with
      | OpenSink => Public
      | RestrictedSink => Internal
      | AuditedSink => Confidential
      | SealedSink => Secret
      | NeverSink => TopSecret
      end
  | Computed input_labels => fold_left Labels.join input_labels Public
  | Declassified _ => Public
  end.

Inductive SinkKind :=
  | NetworkEgress | SubprocessIpc | PersistenceExport | DeclassificationEndpoint
  | LoggingRedacted | MetricsExport.

Definition sink_clearance (s : SinkKind) : Clearance :=
  match s with
  | NetworkEgress => NeverSink
  | SubprocessIpc => NeverSink
  | PersistenceExport => SealedSink
  | DeclassificationEndpoint => SealedSink
  | LoggingRedacted => OpenSink
  | MetricsExport => RestrictedSink
  end.

(** ** Obligations *)

Record DeclassificationObligation := mkObligation {
  obligation_id : string;
  source_label : LabelClass;
  target_clearance : Clearance;
  decision_contract_id : string;
  declassification_route_ref : option string;
  requires_operator_approval : bool;
  max_uses : Z;
  use_count : Z }.

Inductive FlowLatticeError :=
  | ObligationExhausted (obligation_id : string)
  | ObligationNotFound (obligation_id : string)
  | DuplicateObligation (obligation_id : string)
  | FlowBlocked (detail : string).

Definition has_remaining_uses (o : DeclassificationObligation) : bool :=
  (max_uses o =? 0) || (use_count o <? max_uses o).

Definition record_use (o : DeclassificationObligation) :
    result FlowLatticeError DeclassificationObligation :=
  if negb (has_remaining_uses o) then Err (ObligationExhausted (obligation_id o))
  else Ok (mkObligation (obligation_id o) (source_label o) (target_clearance o)
             (decision_contract_id o) (declassification_route_ref o)
             (requires_operator_approval o) (max_uses o) (sat_add64 (use_count o) 1)).

(** ** Receipts of ifc_artifacts.rs *)

Inductive DeclassificationDecision := Allow | Deny.

#[export] Instance DeclassificationDecision_eq_dec : EqDecision DeclassificationDecision.
Proof. solve_decision. Defined.

Record IfcSchemaVersion := mkVersion { major : Z; minor : Z; patch : Z }.

Record DeclassificationReceipt := mkReceipt {
  receipt_id : string;
  r_source_label : Label;
  r_sink_clearance : Label;
  r_route_ref : string;
  r_decision_contract_id : string;
  policy_evaluation_summary : string;
  loss_assessment_milli : Z;
  decision : DeclassificationDecision;
  authorized_by : VerificationKey;
  replay_linkage : string;
  timestamp_ms : Z;
  schema_version : IfcSchemaVersion;
  signature : Signature }.

Definition with_signature (s : Signature) (r : DeclassificationReceipt) : DeclassificationReceipt :=
  mkReceipt (receipt_id r) (r_source_label r) (r_sink_clearance r) (r_route_ref r)
    (r_decision_contract_id r) (policy_evaluation_summary r) (loss_assessment_milli r) (decision r)
    (authorized_by r) (replay_linkage r) (timestamp_ms r) (schema_version r) s.

(** [serde_json::to_vec(&receipt).unwrap_or_default()] *)
Class IfcCrates := { receipt_to_vec : DeclassificationReceipt -> list byte }.

Definition replay_command (r : DeclassificationReceipt) : string :=
  "frankenctl replay run --trace <trace.json> --mode strict".

Definition is_blank (s : string) : bool := String.eqb (trim s) "".

Definition trimmed_artifact_id (artifact_id fallback : string) : string :=
  let trimmed := trim artifact_id in
  if String.eqb trimmed "" then fallback else trimmed.

(** [IfcValidationError::EmptyRequiredField], the error of [validate], in its
    display form. *)
Definition empty_required_field (artifact_kind artifact_id field_name : string) : string :=
  artifact_kind +:+ " " +:+ artifact_id +:+ " has empty required field " +:+ field_name.

Definition validate_required_field (artifact_kind artifact_id field_name value : string) :
    result string unit :=
  if is_blank value then Err (empty_required_field artifact_kind artifact_id field_name) else Ok tt.

Definition validate (r : DeclassificationReceipt) : result string unit :=
  let artifact_id := trimmed_artifact_id (receipt_id r) "<empty-receipt-id>" in
  let required := validate_required_field "declassification_receipt" artifact_id in
  _ ← required "receipt_id" (receipt_id r);
  _ ← required "declassification_route_ref" (r_route_ref r);
  _ ← required "decision_contract_id" (r_decision_contract_id r);
  _ ← required "policy_evaluation_summary" (policy_evaluation_summary r);
  _ ← required "replay_linkage" (replay_linkage r);
  Ok tt.

Section receipts.
Context `{!IfcCrates}.

#[export] Instance receipt_preimage : SignaturePreimage DeclassificationReceipt := {
  signature_domain := fun _ => EvidenceRecord;
  signature_schema := fun _ => from_definition (str_bytes "ifc_declassification_receipt_v2");
  unsigned_view := fun r =>
    VBytes (receipt_to_vec (with_signature (Signature_from_bytes SIGNATURE_SENTINEL) r)) }.

Definition receipt_sign (r : DeclassificationReceipt) (sk : SigningKey) :
    result SignatureError DeclassificationReceipt :=
  _ ← map_err NonCanonicalObject (validate r);
  s ← sign_object r sk;
  Ok (with_signature s r).

Definition receipt_verify (r : DeclassificationReceipt) (vk : VerificationKey) :
    result SignatureError unit :=
  _ ← map_err NonCanonicalObject (validate r);
  verify_signature vk (preimage_bytes r) (signature r).
End receipts.

(** ** The engine *)

Inductive FlowCheckResult :=
  | LegalByLattice
  | RequiresDeclassification (obligation_id : string)
  | Blocked (source : LabelClass) (sink : Clearance).

Record FlowLatticeEvent := mkFlowEvent {
  fe_trace_id : string;
  fe_decision_id : string;
  fe_policy_id : string;
  fe_component : string;
  fe_event : string;
  fe_outcome : string;
  fe_error_code : option string;
  fe_obligation_id : option string;
  fe_decision_contract_id : option string;
  fe_route_ref : option string;
  fe_receipt_id : option string;
  fe_receipt_replay_command : option string }.

Record Ir2FlowLattice := mkLattice {
  obligations : gmap string DeclassificationObligation;
  events : list FlowLatticeEvent;
  decision_id : string;
  policy_id : string;
  trusted_receipt_authorizers : gmap string (gset VerificationKey) }.

Definition RECEIPT_BLOCKED_ERROR_CODE : string := "FE-IFC-BLOCK".
Definition UNSPECIFIED_DECISION_ID : string := "flow-lattice:decision:unspecified".

Definition set_obligations (m : gmap string DeclassificationObligation) (e : Ir2FlowLattice) :
    Ir2FlowLattice :=
  mkLattice m (events e) (decision_id e) (policy_id e) (trusted_receipt_authorizers e).

Definition with_decision_id (policy decision : string) : Ir2FlowLattice :=
  mkLattice ∅ [] (if is_blank decision then UNSPECIFIED_DECISION_ID else decision) policy ∅.

Definition Ir2FlowLattice_new (policy : string) : Ir2FlowLattice :=
  with_decision_id policy UNSPECIFIED_DECISION_ID.

Definition trust_receipt_authorizer_for_contract (e : Ir2FlowLattice) (contract : string)
    (vk : VerificationKey) : Ir2FlowLattice :=
  mkLattice (obligations e) (events e) (decision_id e) (policy_id e)
    (<[contract := {[vk]} ∪ default ∅ (trusted_receipt_authorizers e !! contract)]>
       (trusted_receipt_authorizers e)).

Definition register_obligation (e : Ir2FlowLattice) (o : DeclassificationObligation) :
    Ir2FlowLattice * result FlowLatticeError unit :=
  match obligations e !! obligation_id o with
  | Some _ => (e, Err (DuplicateObligation (obligation_id o)))
  | None => (set_obligations (<[obligation_id o := o]> (obligations e)) e, Ok tt)
  end.

Definition emit_event_with_metadata (e : Ir2FlowLattice) (trace_id event outcome : string)
    (error_code obligation contract route receipt replay : option string) : Ir2FlowLattice :=
  mkLattice (obligations e)
    (events e ++ [mkFlowEvent trace_id (decision_id e) (policy_id e) "flow_lattice" event outcome
                    error_code obligation contract route receipt replay])
    (decision_id e) (policy_id e) (trusted_receipt_authorizers e).

Definition emit_event (e : Ir2FlowLattice) (trace_id event outcome : string)
    (error_code : option string) : Ir2FlowLattice :=
  emit_event_with_metadata e trace_id event outcome error_code None None None None None.

Definition emit_receipt_blocked_event (e : Ir2FlowLattice) (trace_id oid contract : string)
    (r : DeclassificationReceipt) : Ir2FlowLattice :=
  emit_event_with_metadata e trace_id "use_declassification" "blocked"
    (Some RECEIPT_BLOCKED_ERROR_CODE) (Some oid) (Some contract) (Some (r_route_ref r))
    (Some (receipt_id r)) (Some (replay_command r)).

(** The closure of the two searches. *)
Definition matches (source : LabelClass) (sink : Clearance) (o : DeclassificationObligation) : bool :=
  bool_decide (source_label o = source) && bool_decide (target_clearance o = sink) &&
  has_remaining_uses o.

(** [obligation.map_or((None, None), ...)] *)
Definition contract_and_route (o : option DeclassificationObligation) :
    option string * option string :=
  match o with
  | Some o => (Some (decision_contract_id o), declassification_route_ref o)
  | None => (None, None)
  end.

Definition emit_requires (e : Ir2FlowLattice) (trace_id oid : string) : Ir2FlowLattice :=
  let '(contract, route) := contract_and_route (obligations e !! oid) in
  emit_event_with_metadata e trace_id "check_flow" "requires_declassification" None (Some oid)
    contract route None None.

Definition check_flow_with_obligation_hint (e : Ir2FlowLattice) (source : LabelClass)
    (sink : Clearance) (preferred : option string) (trace_id : string) :
    Ir2FlowLattice * FlowCheckResult :=
  if Labels.can_flow_to source sink
  then (emit_event e trace_id "check_flow" "legal_by_lattice" None, LegalByLattice)
  else
    let blocked := (emit_event e trace_id "check_flow" "blocked" (Some "FLOW_BLOCKED"),
                    Blocked source sink) in
    match preferred with
    | Some oid =>
        match obligations e !! oid with
        | Some o =>
            if matches source sink o
            then (emit_requires e trace_id oid, RequiresDeclassification oid) else blocked
        | None => blocked
        end
    | None =>
        match find (fun '(_, o) => matches source sink o) (sorted_entries (obligations e)) with
        | Some (oid, _) => (emit_requires e trace_id oid, RequiresDeclassification oid)
        | None => blocked
        end
    end.

Definition check_flow (e : Ir2FlowLattice) (source : LabelClass) (sink : Clearance)
    (trace_id : string) : Ir2FlowLattice * FlowCheckResult :=
  check_flow_with_obligation_hint e source sink None trace_id.

Definition use_declassification (e : Ir2FlowLattice) (oid trace_id : string) :
    Ir2FlowLattice * result FlowLatticeError unit :=
  let '(contract, route) := contract_and_route (obligations e !! oid) in
  match obligations e !! oid with
  | None => (e, Err (ObligationNotFound oid))
  | Some o =>
      match record_use o with
      | Err err => (e, Err err)
      | Ok o' =>
          let e := set_obligations (<[oid := o']> (obligations e)) e in
          (emit_event_with_metadata e trace_id "use_declassification" "ok" None (Some oid)
             contract route None None, Ok tt)
      end
  end.

Definition authorizer_is_trusted (e : Ir2FlowLattice) (contract : string) (vk : VerificationKey) :
    bool :=
  match trusted_receipt_authorizers e !! contract with
  | Some trusted => bool_decide (vk ∈ trusted)
  | None => false
  end.

Section engine.
Context `{!IfcCrates}.

(** The chain of guards; the string is the error's detail. *)
Definition receipt_guards (e : Ir2FlowLattice) (oid : string) (o : DeclassificationObligation)
    (r : DeclassificationReceipt) (trace_id : string) : result string unit :=
  let rid := "receipt " +:+ receipt_id r in
  let contract := decision_contract_id o in
  if negb (authorizer_is_trusted e contract (authorized_by r)) then
    Err (rid +:+ " authorizer is not trusted for decision contract " +:+ contract +:+
         " on obligation " +:+ oid)
  else
  _ ← map_err (fun err => rid +:+ " failed signature verification: " +:+ signature_error_string err)
        (receipt_verify r (authorized_by r));
  if negb (String.eqb (r_decision_contract_id r) contract) then
    Err (rid +:+ " decision contract " +:+ r_decision_contract_id r +:+
         " does not match obligation " +:+ oid +:+ " contract " +:+ contract)
  else if negb (bool_decide (decision r = Allow)) then
    Err (rid +:+ " denied declassification for obligation " +:+ oid)
  else if negb (bool_decide (Labels.from_label (r_source_label r) = source_label o)) then
    Err (rid +:+ " source label does not match obligation " +:+ oid)
  else
  match declassification_route_ref o with
  | Some route =>
      if negb (String.eqb (r_route_ref r) route) then
        Err (rid +:+ " route " +:+ r_route_ref r +:+ " does not match obligation " +:+ oid +:+
             " route " +:+ route)
      else Ok tt
  | None => Ok tt
  end ≫= fun _ =>
  if negb (Clear.can_receive_label (target_clearance o) (r_sink_clearance r)) then
    Err (rid +:+ " sink clearance " +:+ Label_string (r_sink_clearance r) +:+
         " cannot flow to obligation target clearance " +:+ Clear.to_string (target_clearance o) +:+
         " for obligation " +:+ oid)
  else if negb (String.eqb (replay_linkage r) trace_id) then
    Err (rid +:+ " replay linkage does not match trace " +:+ trace_id +:+ " for obligation " +:+ oid)
  else Ok tt.

Definition use_declassification_with_receipt (e : Ir2FlowLattice) (oid : string)
    (r : DeclassificationReceipt) (trace_id : string) :
    Ir2FlowLattice * result FlowLatticeError unit :=
  match obligations e !! oid with
  | None => (e, Err (ObligationNotFound oid))
  | Some o =>
      let contract := decision_contract_id o in
      match receipt_guards e oid o r trace_id with
      | Err detail => (emit_receipt_blocked_event e trace_id oid contract r, Err (FlowBlocked detail))
      | Ok _ =>
          match record_use o with
          | Err err => (emit_receipt_blocked_event e trace_id oid contract r, Err err)
          | Ok o' =>
              let e := set_obligations (<[oid := o']> (obligations e)) e in
              (emit_event_with_metadata e trace_id "use_declassification" "ok" None (Some oid)
                 (Some contract) (Some (r_route_ref r)) (Some (receipt_id r))
                 (Some (replay_command r)), Ok tt)
          end
      end
  end.
End engine.

Definition propagate_labels (inputs : list LabelClass) : LabelClass :=
  fold_left Labels.join inputs Public.
