(* ===== verification/FlowLatticeCorrect.v ===== *)
(** * Correctness of the information-flow lattice

    Derived data flows to a sink exactly when all its inputs do; the flow check
    decides legality; a receipt is honoured exactly when every guard holds; and
    no sequence of operations exercises an obligation more often than it
    allows. *)
From stdpp Require Import base numbers list strings gmap sets sorting.
From Stdlib Require Import Strings.Byte.
From S2P Require Import Prelude Bytes Text HashTiers DetSerde DetSerdeCorrect.
From S2P Require Import SignaturePreimage FlowLattice.
Open Scope string_scope.
Open Scope list_scope.
Open Scope Z_scope.
#[local] Opaque ContentHash_compute.

(** ** The lattice of labels *)

Lemma label_level_inj a b : Labels.level a = Labels.level b -> a = b.
Proof. by destruct a, b. Qed.

(** The join is the least upper bound and the meet the greatest lower bound of
    the order by level. *)
Lemma label_join_lub a b c :
  Labels.level (Labels.join a b) <= Labels.level c <->
  Labels.level a <= Labels.level c /\ Labels.level b <= Labels.level c.
Proof. unfold Labels.join. destruct (Z.leb_spec (Labels.level b) (Labels.level a)); lia. Qed.

Lemma can_flow_join a b c :
  Labels.can_flow_to (Labels.join a b) c = Labels.can_flow_to a c && Labels.can_flow_to b c.
Proof. by destruct a, b, c. Qed.

Lemma can_flow_fold ls acc c :
  Labels.can_flow_to (fold_left Labels.join ls acc) c =
  Labels.can_flow_to acc c && forallb (fun l => Labels.can_flow_to l c) ls.
Proof.
  revert acc. induction ls as [|l ls IH]; intros acc; simpl; [by rewrite andb_true_r|].
  by rewrite IH, can_flow_join, andb_assoc.
Qed.

(** Label propagation is exact: the label of a computation may flow to a sink exactly
    when the labels of all its inputs may, it is the label the data-source classification
    gives to the computed value, and it is one of the inputs' labels or public. *)
Theorem flow_propagation_exact (inputs : list LabelClass) (sink : Clearance) :
  Labels.can_flow_to (propagate_labels inputs) sink =
    forallb (fun l => Labels.can_flow_to l sink) inputs /\
  assign_label (Computed inputs) = propagate_labels inputs /\
  (propagate_labels inputs = Public \/ propagate_labels inputs ∈ inputs).
Proof.
  split; [|split; [done|]].
  - unfold propagate_labels. rewrite can_flow_fold. by destruct sink.
  - unfold propagate_labels. generalize Public.
    induction inputs as [|l inputs IH]; intros acc; simpl; [by left|].
    destruct (IH (Labels.join acc l)) as [H|H]; [|right; set_solver].
    rewrite H. unfold Labels.join. destruct (_ <=? _); [by left|right; set_solver].
Qed.

(** Narrowing two clearances by [meet] can widen what a sink accepts: the order
    by level puts the sink that receives everything at the bottom. *)
Lemma clearance_meet_widens :
  Clear.meet OpenSink NeverSink = OpenSink /\
  Labels.can_flow_to TopSecret NeverSink = false /\
  Labels.can_flow_to TopSecret (Clear.meet OpenSink NeverSink) = true.
Proof. done. Qed.

(** ** The flow check *)

(** The obligation the check refers to. *)
Definition applicable (e : Ir2FlowLattice) (source : LabelClass) (sink : Clearance)
    (preferred : option string) (oid : string) : Prop :=
  exists o, obligations e !! oid = Some o /\
    source_label o = source /\ target_clearance o = sink /\ has_remaining_uses o = true /\
    match preferred with
    | Some p => p = oid
    | None => forall oid' o', obligations e !! oid' = Some o' -> matches source sink o' = true ->
                String.le oid oid'
    end.

Lemma matches_spec source sink o :
  matches source sink o = true <->
  source_label o = source /\ target_clearance o = sink /\ has_remaining_uses o = true.
Proof. unfold matches. rewrite !andb_true_iff, !bool_decide_eq_true. tauto. Qed.

(** The search returns the least matching key, and fails only without one. *)
Lemma find_first {V} (f : string * V -> bool) (m : gmap string V) :
  match find f (sorted_entries m) with
  | Some (k, v) => m !! k = Some v /\ f (k, v) = true /\
      forall k' v', m !! k' = Some v' -> f (k', v') = true -> String.le k k'
  | None => forall k v, m !! k = Some v -> f (k, v) = false
  end.
Proof.
  pose proof (sorted_entries_sorted m) as Hsort.
  assert (Hin : forall k v, (k, v) ∈ sorted_entries m <-> m !! k = Some v)
    by (intros; apply elem_of_sorted_entries).
  assert (match find f (sorted_entries m) with
    | Some kv => kv ∈ sorted_entries m /\ f kv = true /\
        forall kv', kv' ∈ sorted_entries m -> f kv' = true -> entry_le kv kv'
    | None => forall kv, kv ∈ sorted_entries m -> f kv = false end) as Hf.
  { clear Hin. induction Hsort as [|kv l Hs IH Hle]; simpl; [set_solver|].
    destruct (f kv) eqn:Hkv.
    - split; [set_solver|]. split; [done|]. intros kv' [->|Hin]%elem_of_cons _.
      + destruct (total entry_le kv kv); done.
      + rewrite Forall_forall in Hle. by apply Hle.
    - destruct (find f l) as [kv'|]; [|set_solver]. destruct IH as (? & ? & Hmin).
      split; [set_solver|]. split; [done|]. intros kv'' [->|?]%elem_of_cons ?; [congruence|by apply Hmin]. }
  destruct (find f (sorted_entries m)) as [[k v]|].
  - destruct Hf as (H1 & H2 & H3). split; [by apply Hin|]. split; [done|].
    intros k' v' Hk' Hf'. apply (H3 (k', v')); [by apply Hin|done].
  - intros k v Hk. apply Hf. by apply Hin.
Qed.

(** The flow check decides correctly on every branch: legal exactly when the lattice
    allows the flow, declassification required only with an applicable obligation that has
    uses left (the preferred one when one is named), and blocked only when no applicable
    obligation exists. The check changes nothing but the log, by one event. *)
Theorem flow_check_decides (e e' : Ir2FlowLattice) source sink preferred trace_id r :
  check_flow_with_obligation_hint e source sink preferred trace_id = (e', r) ->
  obligations e' = obligations e /\
  trusted_receipt_authorizers e' = trusted_receipt_authorizers e /\
  length (events e') = S (length (events e)) /\
  match r with
  | LegalByLattice => Labels.can_flow_to source sink = true
  | RequiresDeclassification oid =>
      Labels.can_flow_to source sink = false /\ applicable e source sink preferred oid
  | Blocked source' sink' =>
      source' = source /\ sink' = sink /\ Labels.can_flow_to source sink = false /\
      forall oid, ~ applicable e source sink preferred oid
  end.
Proof.
  unfold check_flow_with_obligation_hint, emit_requires, emit_event, emit_event_with_metadata.
  destruct (Labels.can_flow_to source sink) eqn:Hflow.
  { intros [= <- <-]. simpl. rewrite length_app. simpl. split_and!; [done|done|lia|done]. }
  destruct preferred as [p|].
  - destruct (obligations e !! p) as [o|] eqn:Hp; [destruct (matches source sink o) eqn:Hm|];
      intros [= <- <-]; simpl; rewrite length_app; simpl; split_and!; try done; try lia.
    + apply matches_spec in Hm. exists o. naive_solver.
    + intros oid (o' & Ho' & H1 & H2 & H3 & <-). rewrite Hp in Ho'. injection Ho' as <-.
      assert (matches source sink o = true) by by apply matches_spec. congruence.
    + intros oid (o' & Ho' & _ & _ & _ & <-). congruence.
  - pose proof (find_first (fun '(_, o) => matches source sink o) (obligations e)) as Hfind.
    destruct (find _ _) as [[oid o]|]; destruct (contract_and_route _) as [contract route] || idtac;
      intros [= <- <-]; simpl; rewrite length_app; simpl; split_and!; try done; try lia.
    + destruct Hfind as (Ho & Hm & Hmin). apply matches_spec in Hm. exists o. naive_solver.
    + intros oid (o' & Ho' & H1 & H2 & H3 & _). apply Hfind in Ho'.
      assert (matches source sink o' = true) by by apply matches_spec. congruence.
Qed.

(** ** Receipts *)

Section receipts.
Context `{!IfcCrates}.

(** Everything a receipt must satisfy to be honoured for an obligation. *)
Record honoured (e : Ir2FlowLattice) (o : DeclassificationObligation)
    (r : DeclassificationReceipt) (trace_id : string) : Prop := {
  hn_trusted : exists trusted, trusted_receipt_authorizers e !! decision_contract_id o = Some trusted /\
    authorized_by r ∈ trusted;
  hn_verified : receipt_verify r (authorized_by r) = Ok tt;
  hn_contract : r_decision_contract_id r = decision_contract_id o;
  hn_allow : decision r = Allow;
  hn_label : Labels.from_label (r_source_label r) = source_label o;
  hn_route : forall route, declassification_route_ref o = Some route -> r_route_ref r = route;
  hn_clearance : Label_level (r_sink_clearance r) <= Clear.max_label_level (target_clearance o);
  hn_linkage : replay_linkage r = trace_id }.

Lemma authorizer_is_trusted_spec e contract vk :
  authorizer_is_trusted e contract vk = true <->
  exists trusted, trusted_receipt_authorizers e !! contract = Some trusted /\ vk ∈ trusted.
Proof.
  unfold authorizer_is_trusted. destruct (trusted_receipt_authorizers e !! contract);
    [rewrite bool_decide_eq_true|]; naive_solver.
Qed.

Lemma receipt_guards_iff e oid o r trace_id :
  receipt_guards e oid o r trace_id = Ok tt <-> honoured e o r trace_id.
Proof.
  unfold receipt_guards.
  destruct (authorizer_is_trusted e (decision_contract_id o) (authorized_by r)) eqn:Ht; simpl.
  2: { split; [done|]. intros [Htr _ _ _ _ _ _ _]. apply authorizer_is_trusted_spec in Htr. congruence. }
  apply authorizer_is_trusted_spec in Ht.
  destruct (receipt_verify r (authorized_by r)) as [[]|err] eqn:Hv; simpl.
  2: { split; [done|]. intros []. congruence. }
  destruct (String.eqb_spec (r_decision_contract_id r) (decision_contract_id o)); simpl.
  2: { split; [done|]. by intros []. }
  destruct (bool_decide_reflect (decision r = Allow)); simpl.
  2: { split; [done|]. by intros []. }
  destruct (bool_decide_reflect (Labels.from_label (r_source_label r) = source_label o)); simpl.
  2: { split; [done|]. by intros []. }
  destruct (declassification_route_ref o) as [route|] eqn:Hroute.
  1: destruct (String.eqb_spec (r_route_ref r) route) as [Heq|Hne]; simpl in *.
  2: { split; [done|]. intros []. naive_solver. }
  all: destruct (Clear.can_receive_label (target_clearance o) (r_sink_clearance r)) eqn:Hc;
    unfold Clear.can_receive_label in Hc; simpl;
    [|split; [done|]; intros []; lia];
    destruct (String.eqb_spec (replay_linkage r) trace_id); simpl;
    [|split; [done|]; by intros []];
    (split; [|done]); intros _; split; try done; try lia; rewrite Hroute; naive_solver.
Qed.

(** One use more. *)
Definition spent (o : DeclassificationObligation) : DeclassificationObligation :=
  mkObligation (obligation_id o) (source_label o) (target_clearance o) (decision_contract_id o)
    (declassification_route_ref o) (requires_operator_approval o) (max_uses o)
    (sat_add64 (use_count o) 1).

Lemma record_use_spec o :
  record_use o =
  if has_remaining_uses o then Ok (spent o) else Err (ObligationExhausted (obligation_id o)).
Proof. unfold record_use. by destruct (has_remaining_uses o). Qed.

Lemma use_with_receipt_spec (e e' : Ir2FlowLattice) oid r trace_id res :
  use_declassification_with_receipt e oid r trace_id = (e', res) ->
  (res = Ok tt <-> exists o, obligations e !! oid = Some o /\ honoured e o r trace_id /\
                    has_remaining_uses o = true) /\
  obligations e' =
    match res, obligations e !! oid with
    | Ok _, Some o => <[oid := spent o]> (obligations e)
    | _, _ => obligations e
    end.
Proof.
  unfold use_declassification_with_receipt. destruct (obligations e !! oid) as [o|] eqn:Ho.
  2: { intros [= <- <-]. split; [|done]. split; [done|]. by intros (o & ? & _). }
  pose proof (receipt_guards_iff e oid o r trace_id) as Hg.
  destruct (receipt_guards e oid o r trace_id) as [[]|detail].
  2: { intros [= <- <-]. split; [|done]. split; [done|]. intros (o' & [= <-] & Hh%Hg & _). done. }
  rewrite record_use_spec. destruct (has_remaining_uses o) eqn:Hrem; intros [= <- <-]; (split; [|done]).
  - split; [|done]. intros _. exists o. split; [done|]. split; [by apply Hg|done].
  - split; [done|]. intros (o' & [= <-] & _ & ?). congruence.
Qed.

(** C11. Declassification by receipt happens exactly when it is authorized: the obligation
    exists and has uses left, the receipt's authorizer is trusted for the obligation's
    contract and the signature verifies, the receipt allows, and its contract, source
    label, route, sink clearance and replay linkage match. Only then is one use of that
    one obligation spent; every other call leaves the obligations as they were. *)
Theorem flow_receipt_authorizes (e e' : Ir2FlowLattice) oid r trace_id res :
  use_declassification_with_receipt e oid r trace_id = (e', res) ->
  (res = Ok tt <-> exists o, obligations e !! oid = Some o /\ honoured e o r trace_id /\
                    has_remaining_uses o = true) /\
  obligations e' =
    match res, obligations e !! oid with
    | Ok _, Some o => <[oid := spent o]> (obligations e)
    | _, _ => obligations e
    end.
Proof. apply use_with_receipt_spec. Qed.

(** The signed bytes do not depend on the signature field. *)
Lemma preimage_with_signature s r : preimage_bytes (with_signature s r) = preimage_bytes r.
Proof. unfold preimage_bytes. reflexivity. Qed.

Lemma validate_with_signature s r : validate (with_signature s r) = validate r.
Proof. reflexivity. Qed.

(** A receipt whose signature is computed from the authorizer's verification
    key alone is honoured: the signing key is not needed. *)
Lemma forged_receipt_is_accepted e oid o r trusted :
  obligations e !! oid = Some o -> has_remaining_uses o = true ->
  trusted_receipt_authorizers e !! decision_contract_id o = Some trusted ->
  authorized_by r ∈ trusted -> all_zero (authorized_by r) = false ->
  validate r = Ok tt -> r_decision_contract_id r = decision_contract_id o -> decision r = Allow ->
  Labels.from_label (r_source_label r) = source_label o ->
  (forall route, declassification_route_ref o = Some route -> r_route_ref r = route) ->
  Label_level (r_sink_clearance r) <= Clear.max_label_level (target_clearance o) ->
  (use_declassification_with_receipt e oid (with_signature (forge (authorized_by r) r) r)
     (replay_linkage r)).2 = Ok tt.
Proof.
  intros Ho Hrem Ht Hin Hz Hval Hc Ha Hl Hroute Hclear.
  destruct (use_declassification_with_receipt _ _ _ _) as [e' res] eqn:Huse.
  pose proof (use_with_receipt_spec e e' oid _ _ res Huse) as [[_ Hok] _]. apply Hok.
  exists o. split; [done|]. split; [|done]. split; simpl; eauto.
  unfold receipt_verify. rewrite validate_with_signature, Hval, preimage_with_signature.
  exact (forged_signature_verifies (authorized_by r) r Hz).
Qed.

(** ** Sequences of operations *)

Inductive Op :=
  | ORegister (o : DeclassificationObligation)
  | OTrust (contract : string) (vk : VerificationKey)
  | OCheck (source : LabelClass) (sink : Clearance) (preferred : option string) (trace_id : string)
  | OUse (oid trace_id : string)
  | OUseReceipt (oid : string) (r : DeclassificationReceipt) (trace_id : string).

Definition op_step (e : Ir2FlowLattice) (op : Op) : Ir2FlowLattice :=
  match op with
  | ORegister o => (register_obligation e o).1
  | OTrust contract vk => trust_receipt_authorizer_for_contract e contract vk
  | OCheck source sink preferred t => (check_flow_with_obligation_hint e source sink preferred t).1
  | OUse oid t => (use_declassification e oid t).1
  | OUseReceipt oid r t => (use_declassification_with_receipt e oid r t).1
  end.

Definition op_run (e : Ir2FlowLattice) (ops : list Op) : Ir2FlowLattice := fold_left op_step ops e.

(** The recorded successful uses of an obligation. *)
Definition is_use (oid : string) (ev : FlowLatticeEvent) : bool :=
  String.eqb (fe_event ev) "use_declassification" && String.eqb (fe_outcome ev) "ok" &&
  bool_decide (fe_obligation_id ev = Some oid).

Definition uses (oid : string) (evs : list FlowLatticeEvent) : Z := zlen (List.filter (is_use oid) evs).

Lemma uses_snoc oid evs ev : uses oid (evs ++ [ev]) = uses oid evs + (if is_use oid ev then 1 else 0).
Proof.
  unfold uses, zlen. rewrite List.filter_app, length_app. simpl. destruct (is_use oid ev); simpl; lia.
Qed.

(** An obligation and the one it was registered as, after [n] uses. *)
Record used (n : Z) (o0 o : DeclassificationObligation) : Prop := {
  us_fields : (obligation_id o, source_label o, target_clearance o, decision_contract_id o,
               declassification_route_ref o, requires_operator_approval o, max_uses o) =
              (obligation_id o0, source_label o0, target_clearance o0, decision_contract_id o0,
               declassification_route_ref o0, requires_operator_approval o0, max_uses o0);
  us_count : use_count o = Z.min (use_count o0 + n) u64_max;
  us_bound : max_uses o0 <> 0 -> n <= Z.max 0 (max_uses o0 - use_count o0) }.

Definition obligation_wf (o : DeclassificationObligation) : Prop :=
  is_u64 (max_uses o) /\ is_u64 (use_count o).

Record accounted (registered : list DeclassificationObligation) (e : Ir2FlowLattice) : Prop := {
  ac_known : forall oid o, obligations e !! oid = Some o -> exists o0, o0 ∈ registered /\
    obligation_id o0 = oid /\ obligation_wf o0 /\ used (uses oid (events e)) o0 o;
  ac_unknown : forall oid, obligations e !! oid = None -> uses oid (events e) = 0 }.

Lemma uses_nonneg oid evs : 0 <= uses oid evs.
Proof. unfold uses, zlen. lia. Qed.

Lemma accounted_mono reg reg' e :
  (forall o, o ∈ reg -> o ∈ reg') -> accounted reg e -> accounted reg' e.
Proof.
  intros Hsub [H1 H2]. split; [|done]. intros oid o Ho.
  destruct (H1 _ _ Ho) as (o0 & Hin & Hrest). exists o0. split; [by apply Hsub|done].
Qed.

(** An event that is not a use leaves the accounts alone. *)
Lemma accounted_other reg e e' ev :
  accounted reg e -> obligations e' = obligations e -> events e' = events e ++ [ev] ->
  (forall oid, is_use oid ev = false) -> accounted reg e'.
Proof.
  intros [H1 H2] Ho He Hev. assert (forall oid, uses oid (events e') = uses oid (events e)) as Hu.
  { intros oid. rewrite He, uses_snoc, Hev. lia. }
  split; intros oid; rewrite Ho, Hu; [by apply H1|by apply H2].
Qed.

(** A recorded use spends the obligation. *)
Lemma accounted_spend reg e e' oid o ev :
  accounted reg e -> obligations e !! oid = Some o -> has_remaining_uses o = true ->
  obligations e' = <[oid := spent o]> (obligations e) -> events e' = events e ++ [ev] ->
  (forall oid', is_use oid' ev = bool_decide (oid' = oid)) -> accounted reg e'.
Proof.
  intros [H1 H2] Ho Hrem Hob Hev Huse.
  assert (forall oid', uses oid' (events e') =
    uses oid' (events e) + (if bool_decide (oid' = oid) then 1 else 0)) as Hu.
  { intros oid'. by rewrite Hev, uses_snoc, Huse. }
  split; intros oid'; rewrite Hob, Hu.
  - intros o' [[<- <-]|[Hne Ho']]%lookup_insert_Some.
    + destruct (H1 _ _ Ho) as (o0 & Hin & Hid & [Hw1 Hw2] & [Hf Hc Hb]).
      exists o0. split; [done|]. split; [done|]. split; [done|]. injection Hf as ? ? ? ? ? ? Hmax.
      rewrite bool_decide_true by done. pose proof (uses_nonneg oid (events e)).
      unfold has_remaining_uses in Hrem. split; simpl; [congruence| |]; unfold_words; [lia|].
      intros Hm. rewrite Hmax in Hrem. lia.
    + rewrite bool_decide_false by done. rewrite Z.add_0_r. by apply H1.
  - intros [Ho' Hne]%lookup_insert_None. rewrite bool_decide_false by done.
    rewrite Z.add_0_r. by apply H2.
Qed.

Definition op_wf (op : Op) : Prop :=
  match op with ORegister o => obligation_wf o | _ => True end.

Definition op_registers (op : Op) : list DeclassificationObligation :=
  match op with ORegister o => [o] | _ => [] end.

Lemma op_step_accounted reg e op :
  op_wf op -> accounted reg e -> accounted (reg ++ op_registers op) (op_step e op).
Proof.
  intros Hwf Hacc. destruct op as [o|contract vk|source sink pref t|oid t|oid r t]; simpl;
    rewrite ?app_nil_r.
  - unfold register_obligation. destruct (obligations e !! obligation_id o) as [o'|] eqn:Ho; simpl.
    { eapply accounted_mono; [|done]. set_solver. }
    destruct Hacc as [H1 H2]. split; simpl; intros oid.
    + intros o' [[<- <-]|[_ Ho']]%lookup_insert_Some.
      * exists o. split; [set_solver|]. split; [done|]. split; [done|]. rewrite (H2 _ Ho).
        destruct Hwf as [? ?]. split; [done|mlia|mlia].
      * destruct (H1 _ _ Ho') as (o0 & Hin & Hrest). exists o0. split; [set_solver|done].
    + intros [Ho' _]%lookup_insert_None. by apply H2.
  - destruct Hacc as [H1 H2]. by split.
  - destruct (check_flow_with_obligation_hint e source sink pref t) as [e' res] eqn:Hc. simpl.
    unfold check_flow_with_obligation_hint, emit_requires, emit_event, emit_event_with_metadata in Hc.
    assert (exists ev, obligations e' = obligations e /\ events e' = events e ++ [ev] /\
      fe_event ev = "check_flow") as (ev & Hob & Hevs & Hev).
    { destruct (Labels.can_flow_to source sink); [injection Hc as <- _; simpl; eauto|].
      destruct pref as [p|].
      - destruct (obligations e !! p) as [o|]; [destruct (matches source sink o)|];
          injection Hc as <- _; simpl; eauto.
      - destruct (find _ _) as [[oid o]|];
          [destruct (contract_and_route _) as [? ?]|]; injection Hc as <- _; simpl; eauto. }
    eapply accounted_other; [done|done|done|]. intros oid. unfold is_use. by rewrite Hev.
  - unfold use_declassification. destruct (obligations e !! oid) as [o|] eqn:Ho; [|done]. simpl.
    rewrite record_use_spec. destruct (has_remaining_uses o) eqn:Hrem; [|done]. simpl.
    eapply accounted_spend; [done|done|done|reflexivity|reflexivity|].
    intros oid'. unfold is_use. simpl. apply bool_decide_ext. split; congruence.
  - unfold use_declassification_with_receipt. destruct (obligations e !! oid) as [o|] eqn:Ho; [|done].
    destruct (receipt_guards e oid o r t) as [[]|detail]; simpl.
    2: { eapply accounted_other; [done|reflexivity|reflexivity|done]. }
    rewrite record_use_spec. destruct (has_remaining_uses o) eqn:Hrem; simpl.
    2: { eapply accounted_other; [done|reflexivity|reflexivity|done]. }
    eapply accounted_spend; [done|done|done|reflexivity|reflexivity|].
    intros oid'. unfold is_use. simpl. apply bool_decide_ext. split; congruence.
Qed.

Lemma op_run_accounted reg e ops :
  Forall op_wf ops -> accounted reg e ->
  accounted (reg ++ concat (op_registers <$> ops)) (op_run e ops).
Proof.
  intros Hwf. revert reg e. induction Hwf as [|op ops Hop Hops IH]; intros reg e Hacc; simpl.
  - by rewrite app_nil_r.
  - rewrite app_assoc. apply IH. by apply op_step_accounted.
Qed.

(** Along every sequence of engine operations an obligation is used at most as often
    as its limit allows: the use count is that of its registration plus the number of
    successful use events in the log, and with a limit and a count that started at zero
    the number of such events does not exceed the limit. *)
Theorem flow_obligation_uses_bounded policy (ops : list Op) oid o :
  Forall op_wf ops ->
  obligations (op_run (Ir2FlowLattice_new policy) ops) !! oid = Some o ->
  exists o0, ORegister o0 ∈ ops /\ obligation_id o0 = oid /\
    let n := uses oid (events (op_run (Ir2FlowLattice_new policy) ops)) in
    used n o0 o /\ (max_uses o <> 0 -> use_count o0 = 0 -> n <= max_uses o).
Proof.
  intros Hwf Ho. destruct (op_run_accounted [] (Ir2FlowLattice_new policy) ops Hwf) as [H1 _].
  { split; simpl; intros oid'; [by rewrite lookup_empty|done]. }
  destruct (H1 _ _ Ho) as (o0 & Hin & Hid & [Hm _] & Hu). exists o0. split.
  - simpl in Hin. apply list_elem_of_In, in_concat in Hin as (l & Hl & Hin).
    apply list_elem_of_In, list_elem_of_fmap in Hl as (op & -> & Hop).
    apply list_elem_of_In in Hin. destruct op; set_solver.
  - split; [done|]. split; [done|]. intros Hne H0. destruct Hu as [Hf _ Hb].
    injection Hf as ? ? ? ? ? ? Hmax. rewrite Hmax in *. specialize (Hb Hne). unfold is_u64 in Hm. lia.
Qed.
End receipts.

(** ** A concrete engine *)
Module SampleFlow.
#[export] Instance crates : IfcCrates := { receipt_to_vec := fun r => str_bytes (receipt_id r) }.

Definition obligation : DeclassificationObligation :=
  mkObligation "ob" Secret NeverSink "dc" None false 1 0.

Definition key : SigningKey := replicate 32 x07.

Definition unsigned : DeclassificationReceipt :=
  mkReceipt "r1" LSecret LPublic "route" "dc" "ok" 0 Allow (verification_key key) "t1" 0
    (mkVersion 1 0 0) (Signature_from_bytes SIGNATURE_SENTINEL).

Definition receipt : DeclassificationReceipt :=
  match receipt_sign unsigned key with Ok r => r | Err _ => unsigned end.

Definition engine : Ir2FlowLattice :=
  trust_receipt_authorizer_for_contract
    (register_obligation (Ir2FlowLattice_new "p") obligation).1 "dc" (verification_key key).

Definition ops : list Op :=
  [ ORegister obligation; OTrust "dc" (verification_key key);
    OCheck Secret NeverSink None "t1"; OUseReceipt "ob" receipt "t1";
    OUseReceipt "ob" receipt "t1"; OUse "ob" "t2" ].
End SampleFlow.

#[local] Existing Instance SampleFlow.crates.
#[local] Transparent ContentHash_compute.

Lemma flow_check_decides_witness :
  let '(e', r) := check_flow_with_obligation_hint SampleFlow.engine Secret NeverSink None "t1" in
  r = RequiresDeclassification "ob" /\
  Labels.can_flow_to Secret NeverSink = false /\
  applicable SampleFlow.engine Secret NeverSink None "ob".
Proof.
  destruct (check_flow_with_obligation_hint SampleFlow.engine Secret NeverSink None "t1")
    as [e' r] eqn:Hc.
  assert (Hr : r = RequiresDeclassification "ob").
  { change r with (e', r).2. rewrite <- Hc. vm_compute. reflexivity. }
  split; [exact Hr|]. subst r.
  exact (proj2 (proj2 (proj2 (flow_check_decides SampleFlow.engine e' Secret NeverSink None "t1"
    (RequiresDeclassification "ob") Hc)))).
Defined.

Lemma flow_receipt_authorizes_witness :
  let '(e', res) := use_declassification_with_receipt SampleFlow.engine "ob" SampleFlow.receipt "t1" in
  res = Ok tt /\
  (exists o, obligations SampleFlow.engine !! "ob" = Some o /\
     honoured SampleFlow.engine o SampleFlow.receipt "t1" /\ has_remaining_uses o = true).
Proof.
  destruct (use_declassification_with_receipt SampleFlow.engine "ob" SampleFlow.receipt "t1")
    as [e' res] eqn:Hc.
  assert (Hr : res = Ok tt).
  { change res with (e', res).2. rewrite <- Hc. vm_compute. reflexivity. }
  split; [exact Hr|].
  exact (proj1 (proj1 (flow_receipt_authorizes SampleFlow.engine e' "ob" SampleFlow.receipt "t1"
    res Hc)) Hr).
Defined.

(** The second use of a one-use obligation is refused. *)
Example sample_ops_uses :
  uses "ob" (events (op_run (Ir2FlowLattice_new "p") SampleFlow.ops)) = 1 /\
  fe_outcome <$> events (op_run (Ir2FlowLattice_new "p") SampleFlow.ops) =
    ["requires_declassification"; "ok"; "blocked"].
Proof. vm_compute. done. Qed.

Lemma flow_obligation_uses_bounded_witness :
  exists o0, ORegister o0 ∈ SampleFlow.ops /\ obligation_id o0 = "ob" /\
    let n := uses "ob" (events (op_run (Ir2FlowLattice_new "p") SampleFlow.ops)) in
    used n o0 (spent SampleFlow.obligation) /\
    (max_uses (spent SampleFlow.obligation) <> 0 -> use_count o0 = 0 ->
     n <= max_uses (spent SampleFlow.obligation)).
Proof.
  apply (flow_obligation_uses_bounded "p" SampleFlow.ops "ob" (spent SampleFlow.obligation)).
  - repeat constructor; vm_compute; discriminate.
  - vm_compute. reflexivity.
Defined.
