(* ===== verification/MarkerStream.v ===== *)
(** * The decision marker stream (crates/franken-engine/src/marker_stream.rs)

    An append-only list of markers, each of which hashes its own fields and the
    hash of the marker before; a rolling hash, a signed head and signed
    checkpoints every [checkpoint_interval] markers.  The counter of marker ids
    wraps as in a release build. *)
From stdpp Require Import base numbers list strings.
From Stdlib Require Import Strings.Byte.
From S2P Require Import Prelude Bytes Text HashTiers.
Open Scope string_scope.
Open Scope list_scope.
Open Scope Z_scope.

(** ** Decisions *)

Inductive SecurityActionKind := Quarantine | Suspend | Terminate.
Inductive PolicyTransitionKind := Activation | Deactivation | EpochAdvancement.
Inductive RevocationKind := Issuance | PropagationConfirmation.

Inductive DecisionType :=
  | SecurityAction (action : SecurityActionKind)
  | PolicyTransition (transition : PolicyTransitionKind)
  | RevocationEvent (revocation : RevocationKind)
  | EpochTransition (from_epoch to_epoch : Z)
  | EmergencyOverride (override_reason : string)
  | GuardrailTriggered (guardrail_id : string).

#[export] Instance SecurityActionKind_eq_dec : EqDecision SecurityActionKind.
Proof. solve_decision. Defined.
#[export] Instance PolicyTransitionKind_eq_dec : EqDecision PolicyTransitionKind.
Proof. solve_decision. Defined.
#[export] Instance RevocationKind_eq_dec : EqDecision RevocationKind.
Proof. solve_decision. Defined.
#[export] Instance DecisionType_eq_dec : EqDecision DecisionType.
Proof. solve_decision. Defined.

Definition action_string (a : SecurityActionKind) : string :=
  match a with Quarantine => "quarantine" | Suspend => "suspend" | Terminate => "terminate" end.

Definition transition_string (t : PolicyTransitionKind) : string :=
  match t with
  | Activation => "activation"
  | Deactivation => "deactivation"
  | EpochAdvancement => "epoch_advancement"
  end.

Definition revocation_string (r : RevocationKind) : string :=
  match r with Issuance => "issuance" | PropagationConfirmation => "propagation_confirmation" end.

Definition decision_string (d : DecisionType) : string :=
  match d with
  | SecurityAction a => "security_action:" +:+ action_string a
  | PolicyTransition t => "policy_transition:" +:+ transition_string t
  | RevocationEvent r => "revocation_event:" +:+ revocation_string r
  | EpochTransition f t => "epoch_transition:" +:+ int_to_string f +:+ "->" +:+ int_to_string t
  | EmergencyOverride _ => "emergency_override"
  | GuardrailTriggered g => "guardrail_triggered:" +:+ g
  end.

(** ** Correlation ids *)

Definition CorrelationId : Type := string.

(** [is_ascii_alphanumeric], [-], [_] or [.]; a character outside ASCII has no
    byte of this kind, so that the test of all characters is one of all bytes. *)
Definition correlation_byte (b : byte) : bool :=
  in_range 48 57 b || in_range 65 90 b || in_range 97 122 b ||
  (byteZ b =? 45) || (byteZ b =? 95) || (byteZ b =? 46).

Definition CorrelationId_new (raw : string) : result string CorrelationId :=
  if String.eqb raw "" then Err "correlation_id must not be empty"
  else if 128 <? zlen (str_bytes raw) then Err "correlation_id must be <= 128 bytes"
  else if negb (forallb correlation_byte (str_bytes raw))
  then Err "correlation_id has unsupported characters"
  else Ok raw.

(** ** Markers *)

Record TraceContext := mkTrace {
  traceparent : string;
  tracestate : option string;
  baggage : option string }.

Record RedactedPayload := mkPayload {
  redacted_summary : string;
  payload_hash : ContentHash;
  redaction_applied : bool }.

Record DecisionMarker := mkMarker {
  marker_id : Z;
  prev_marker_hash : ContentHash;
  marker_hash : ContentHash;
  timestamp_ticks : Z;
  epoch_id : Z;
  decision_type : DecisionType;
  decision_id : string;
  policy_id : option string;
  correlation_id : CorrelationId;
  trace_context : option TraceContext;
  principal_id : option string;
  zone_id : option string;
  error_code : option string;
  evidence_entry_hash : ContentHash;
  actor : string;
  redacted_payload : RedactedPayload }.

Record MarkerInput := mkInput {
  in_timestamp_ticks : Z;
  in_epoch_id : Z;
  in_decision_type : DecisionType;
  in_decision_id : string;
  in_policy_id : option string;
  in_correlation_id : CorrelationId;
  in_trace_context : option TraceContext;
  in_principal_id : option string;
  in_zone_id : option string;
  in_error_code : option string;
  in_evidence_entry_hash : ContentHash;
  in_actor : string;
  payload_summary : string;
  full_payload : option string;
  trace_id : string }.

Inductive ChainIntegrityError :=
  | MarkerHashMismatch (marker_id : Z) (expected computed : ContentHash)
  | ChainLinkBroken (marker_id : Z) (expected_prev actual_prev : ContentHash)
  | EmptyStream
  | NonMonotonicId (marker_id prev_marker_id : Z)
  | HeadMismatch.

Record IntegrityCheckpoint := mkCheckpoint {
  at_marker_id : Z;
  cp_marker_hash : ContentHash;
  chain_length : Z;
  signed_hash : AuthenticityHash }.

Record AuditChainHead := mkHead {
  head_marker_id : Z;
  latest_marker_hash : ContentHash;
  head_rolling_hash : ContentHash;
  signed_head_hash : AuthenticityHash }.

Record MarkerEvent := mkEvent {
  ev_marker_id : Z;
  ev_marker_type : string;
  ev_chain_length : Z;
  ev_decision_id : string;
  ev_policy_id : option string;
  ev_principal_id : option string;
  ev_correlation_id : string;
  ev_trace_id : string;
  ev_component : string;
  ev_event : string;
  ev_outcome : string;
  ev_error_code : option string }.

Record DecisionMarkerStream := mkStream {
  markers : list DecisionMarker;
  next_marker_id : Z;
  checkpoints : list IntegrityCheckpoint;
  chain_head : option AuditChainHead;
  rolling_chain_hash : ContentHash;
  checkpoint_interval : Z;
  checkpoint_key : list byte;
  events : list MarkerEvent }.

(** ** Hashes *)

(** [ContentHash([0u8; 32])] *)
Definition zero_hash : ContentHash := replicate 32 x00.

(** [(s.len() as u32).to_be_bytes()] and the bytes of the string *)
Definition length_prefixed (s : string) : list byte :=
  be_bytes 4 (zlen (str_bytes s)) ++ str_bytes s.

Definition append_optional_string (value : option string) : list byte :=
  match value with Some value => x01 :: length_prefixed value | None => [x00] end.

Definition trace_bytes (tc : option TraceContext) : list byte :=
  match tc with
  | Some tc =>
      x01 :: length_prefixed (traceparent tc) ++ append_optional_string (tracestate tc) ++
      append_optional_string (baggage tc)
  | None => [x00]
  end.

Definition marker_preimage (m : DecisionMarker) : list byte :=
  be_bytes 8 (marker_id m) ++ prev_marker_hash m ++ be_bytes 8 (timestamp_ticks m) ++
  be_bytes 8 (epoch_id m) ++ length_prefixed (decision_string (decision_type m)) ++
  length_prefixed (decision_id m) ++ append_optional_string (policy_id m) ++
  length_prefixed (correlation_id m) ++ trace_bytes (trace_context m) ++
  append_optional_string (principal_id m) ++ append_optional_string (zone_id m) ++
  append_optional_string (error_code m) ++ evidence_entry_hash m ++ length_prefixed (actor m) ++
  length_prefixed (redacted_summary (redacted_payload m)) ++ payload_hash (redacted_payload m) ++
  [if redaction_applied (redacted_payload m) then x01 else x00].

Definition compute_marker_hash (m : DecisionMarker) : ContentHash :=
  ContentHash_compute (marker_preimage m).

Definition compute_rolling_hash (previous : ContentHash) (id : Z) (h : ContentHash) : ContentHash :=
  ContentHash_compute (previous ++ be_bytes 8 id ++ h).

Definition recompute_rolling_hash (ms : list DecisionMarker) : ContentHash :=
  fold_left (fun rolling m => compute_rolling_hash rolling (marker_id m) (marker_hash m)) ms zero_hash.

Definition sign_chain_head (key : list byte) (id : Z) (latest rolling : ContentHash) :
    AuthenticityHash :=
  AuthenticityHash_compute_keyed key (be_bytes 8 id ++ latest ++ rolling).

(** ** The stream *)

Definition with_hash (m : DecisionMarker) (h : ContentHash) : DecisionMarker :=
  mkMarker (marker_id m) (prev_marker_hash m) h (timestamp_ticks m) (epoch_id m) (decision_type m)
    (decision_id m) (policy_id m) (correlation_id m) (trace_context m) (principal_id m) (zone_id m)
    (error_code m) (evidence_entry_hash m) (actor m) (redacted_payload m).

Module Stream.
Definition new (interval : Z) (key : list byte) : DecisionMarkerStream :=
  mkStream [] 1 [] None zero_hash interval key [].

Definition len (s : DecisionMarkerStream) : Z := zlen (markers s).
Definition is_empty (s : DecisionMarkerStream) : bool :=
  match markers s with [] => true | _ :: _ => false end.

Definition get (s : DecisionMarkerStream) (id : Z) : option DecisionMarker :=
  find (fun m => marker_id m =? id) (markers s).

Definition update_chain_head (s : DecisionMarkerStream) : DecisionMarkerStream :=
  match last (markers s) with
  | None =>
      mkStream (markers s) (next_marker_id s) (checkpoints s) None zero_hash (checkpoint_interval s)
        (checkpoint_key s) (events s)
  | Some latest =>
      let rolling := compute_rolling_hash (rolling_chain_hash s) (marker_id latest) (marker_hash latest) in
      let signed := sign_chain_head (checkpoint_key s) (marker_id latest) (marker_hash latest) rolling in
      mkStream (markers s) (next_marker_id s) (checkpoints s)
        (Some (mkHead (marker_id latest) (marker_hash latest) rolling signed)) rolling
        (checkpoint_interval s) (checkpoint_key s) (events s)
  end.

Definition emit_checkpoint (s : DecisionMarkerStream) (id : Z) : DecisionMarkerStream :=
  match get s id with
  | None => s
  | Some m =>
      let chain_length := zlen (markers s) in
      let preimage := be_bytes 8 id ++ marker_hash m ++ be_bytes 8 chain_length in
      let signed := AuthenticityHash_compute_keyed (checkpoint_key s) preimage in
      mkStream (markers s) (next_marker_id s)
        (checkpoints s ++ [mkCheckpoint id (marker_hash m) chain_length signed])
        (chain_head s) (rolling_chain_hash s) (checkpoint_interval s) (checkpoint_key s) (events s)
  end.

(** The marker that [append] builds, with its real hash. *)
Definition make_marker (id : Z) (prev : ContentHash) (i : MarkerInput) : DecisionMarker :=
  let payload_material := default (payload_summary i) (full_payload i) in
  let payload :=
    mkPayload (payload_summary i) (ContentHash_compute (str_bytes payload_material))
      (bool_decide (is_Some (full_payload i))) in
  let m :=
    mkMarker id prev zero_hash (in_timestamp_ticks i) (in_epoch_id i) (in_decision_type i)
      (in_decision_id i) (in_policy_id i) (in_correlation_id i) (in_trace_context i)
      (in_principal_id i) (in_zone_id i) (in_error_code i) (in_evidence_entry_hash i) (in_actor i)
      payload in
  with_hash m (compute_marker_hash m).

Definition push_marker (s : DecisionMarkerStream) (m : DecisionMarker) : DecisionMarkerStream :=
  mkStream (markers s ++ [m]) (wrap_u64 (next_marker_id s + 1)) (checkpoints s) (chain_head s)
    (rolling_chain_hash s) (checkpoint_interval s) (checkpoint_key s) (events s).

Definition push_event (s : DecisionMarkerStream) (e : MarkerEvent) : DecisionMarkerStream :=
  mkStream (markers s) (next_marker_id s) (checkpoints s) (chain_head s) (rolling_chain_hash s)
    (checkpoint_interval s) (checkpoint_key s) (events s ++ [e]).

Definition append (s : DecisionMarkerStream) (i : MarkerInput) : DecisionMarkerStream * DecisionMarker :=
  let id := next_marker_id s in
  let prev := match last (markers s) with Some m => marker_hash m | None => zero_hash end in
  let m := make_marker id prev i in
  let s := update_chain_head (push_marker s m) in
  let s :=
    push_event s
      (mkEvent id (decision_string (in_decision_type i)) (zlen (markers s)) (in_decision_id i)
         (in_policy_id i) (in_principal_id i) (in_correlation_id i) (trace_id i) "marker_stream"
         "marker_appended" "ok" (in_error_code i)) in
  let s :=
    if (0 <? checkpoint_interval s) && (id mod checkpoint_interval s =? 0)
    then emit_checkpoint s id else s in
  (s, m).

(** ** Verification *)

(** One iteration of the loop of [verify_chain] behind the marker [prev]. *)
Definition check_marker (prev : option DecisionMarker) (m : DecisionMarker) :
    result ChainIntegrityError unit :=
  let expected_prev := match prev with Some p => marker_hash p | None => zero_hash end in
  if match prev with Some p => marker_id m <=? marker_id p | None => false end
  then Err (NonMonotonicId (marker_id m) (match prev with Some p => marker_id p | None => 0 end))
  else if negb (bool_decide (prev_marker_hash m = expected_prev))
  then Err (ChainLinkBroken (marker_id m) expected_prev (prev_marker_hash m))
  else if negb (bool_decide (marker_hash m = compute_marker_hash m))
  then Err (MarkerHashMismatch (marker_id m) (marker_hash m) (compute_marker_hash m))
  else Ok tt.

Fixpoint check_from (prev : option DecisionMarker) (ms : list DecisionMarker) :
    result ChainIntegrityError unit :=
  match ms with
  | [] => Ok tt
  | m :: ms => _ ← check_marker prev m; check_from (Some m) ms
  end.

Definition verify_chain (s : DecisionMarkerStream) : result ChainIntegrityError unit :=
  match markers s with
  | [] => Err EmptyStream
  | ms => check_from None ms
  end.

Definition position (id : Z) (ms : list DecisionMarker) : option nat :=
  fst <$> list_find (fun m => marker_id m = id) ms.

(** The loop of [verify_range]: the first marker of the range has no link to
    check. *)
Fixpoint check_range (prev : option DecisionMarker) (ms : list DecisionMarker) :
    result ChainIntegrityError unit :=
  match ms with
  | [] => Ok tt
  | m :: ms =>
      if match prev with
         | Some p => negb (bool_decide (prev_marker_hash m = marker_hash p))
         | None => false
         end
      then Err (ChainLinkBroken (marker_id m)
                  (match prev with Some p => marker_hash p | None => zero_hash end)
                  (prev_marker_hash m))
      else if negb (bool_decide (marker_hash m = compute_marker_hash m))
      then Err (MarkerHashMismatch (marker_id m) (marker_hash m) (compute_marker_hash m))
      else check_range (Some m) ms
  end.

Definition verify_range (s : DecisionMarkerStream) (from_id to_id : Z) :
    result ChainIntegrityError unit :=
  match position from_id (markers s), position to_id (markers s) with
  | Some f, Some t => check_range None (take (S t - f) (drop f (markers s)))
  | _, _ => Err EmptyStream
  end.

Definition verify_head (s : DecisionMarkerStream) : result ChainIntegrityError unit :=
  match last (markers s) with
  | None => Ok tt
  | Some latest =>
      match chain_head s with
      | None => Err HeadMismatch
      | Some head =>
          let rolling := recompute_rolling_hash (markers s) in
          let signed :=
            sign_chain_head (checkpoint_key s) (marker_id latest) (marker_hash latest) rolling in
          if negb (head_marker_id head =? marker_id latest) ||
             negb (bool_decide (latest_marker_hash head = marker_hash latest)) ||
             negb (bool_decide (head_rolling_hash head = rolling)) ||
             negb (bool_decide (signed_head_hash head = signed))
          then Err HeadMismatch else Ok tt
      end
  end.

(** ** Queries *)

Definition by_correlation_id (s : DecisionMarkerStream) (id : string) : list DecisionMarker :=
  List.filter (fun m => String.eqb (correlation_id m) id) (markers s).

Definition by_event_type (s : DecisionMarkerStream) (event_type : string) : list DecisionMarker :=
  List.filter (fun m => String.eqb (decision_string (decision_type m)) event_type) (markers s).

Definition by_principal_id (s : DecisionMarkerStream) (id : string) : list DecisionMarker :=
  List.filter (fun m => bool_decide (principal_id m = Some id)) (markers s).

Definition by_time_range (s : DecisionMarkerStream) (start_ticks end_ticks : Z) : list DecisionMarker :=
  List.filter (fun m => (start_ticks <=? timestamp_ticks m) && (timestamp_ticks m <=? end_ticks))
    (markers s).

Definition by_error_code (s : DecisionMarkerStream) (code : string) : list DecisionMarker :=
  List.filter (fun m => bool_decide (error_code m = Some code)) (markers s).

Definition drain_events (s : DecisionMarkerStream) : DecisionMarkerStream * list MarkerEvent :=
  (mkStream (markers s) (next_marker_id s) (checkpoints s) (chain_head s) (rolling_chain_hash s)
     (checkpoint_interval s) (checkpoint_key s) [], events s).
End Stream.
