(* ===== verification/MarkerCorrect.v ===== *)
(** * What the marker stream establishes

    The preimage of a marker determines its fields, so that two verified chains
    with the same last hash are the same chain, up to a collision of the content
    hash; a stream that was only appended to verifies. *)
From stdpp Require Import base numbers list strings pretty sets.
From Stdlib Require Import Strings.Byte.
From S2P Require Import Prelude Bytes Text HashTiers MarkerStream.
Open Scope string_scope.
Open Scope list_scope.
Open Scope Z_scope.

#[local] Opaque ContentHash_compute AuthenticityHash_compute_keyed be_bytes.

(** ** Encoders that can be read back from the front *)

Class PrefixFree {A} (P : A -> Prop) (enc : A -> list byte) : Prop :=
  prefix_free a b r s : P a -> P b -> enc a ++ r = enc b ++ s -> a = b /\ r = s.

#[export] Instance prefix_u64 : PrefixFree is_u64 (be_bytes 8).
Proof.
  intros a b r s Ha Hb Heq. apply app_inj_1 in Heq as [Heq ->]; [|by rewrite !length_be_bytes].
  apply (f_equal be_value) in Heq. rewrite !be_value_bytes, !Z.mod_small in Heq by mlia. done.
Qed.

Lemma hash_front (a b : ContentHash) (r s : list byte) :
  hash_wf a -> hash_wf b -> a ++ r = b ++ s -> a = b /\ r = s.
Proof. intros Ha Hb Heq. unfold hash_wf in *. apply app_inj_1 in Heq; [done|congruence]. Qed.

(** A string whose length fits the prefix. *)
Definition str_short (s : string) : Prop := zlen (str_bytes s) <= u32_max.

Lemma str_bytes_inj a b : str_bytes a = str_bytes b -> a = b.
Proof. intros H. by rewrite <- (bytes_str_bytes a), H, bytes_str_bytes. Qed.

#[export] Instance prefix_string : PrefixFree str_short length_prefixed.
Proof.
  intros a b r s Ha Hb. unfold length_prefixed, str_short in *. rewrite <- !(assoc_L (++)). intros Heq.
  apply app_inj_1 in Heq as [Hlen Heq]; [|by rewrite !length_be_bytes].
  apply (f_equal be_value) in Hlen. pose proof (zlen_nonneg (str_bytes a)). pose proof (zlen_nonneg (str_bytes b)).
  rewrite !be_value_bytes, !Z.mod_small in Hlen by mlia.
  apply app_inj_1 in Heq as [Heq ->]; [|unfold zlen in Hlen; lia]. split; [by apply str_bytes_inj|done].
Qed.

Definition opt_all {A} (P : A -> Prop) (o : option A) : Prop :=
  match o with Some x => P x | None => True end.

#[local] Opaque length_prefixed.

Lemma cons_tail (x : byte) l l' : x :: l = x :: l' -> l = l'.
Proof. congruence. Qed.

#[export] Instance prefix_optional : PrefixFree (opt_all str_short) append_optional_string.
Proof.
  intros [a|] [b|] r s Ha Hb Heq; simpl in Heq; try discriminate; apply cons_tail in Heq; [|done].
  apply (prefix_free (enc := length_prefixed)) in Heq as [-> ->]; done.
Qed.

Definition trace_short (tc : TraceContext) : Prop :=
  str_short (traceparent tc) /\ opt_all str_short (tracestate tc) /\ opt_all str_short (baggage tc).

(** Read the next field of both sides. *)
Ltac read_field H :=
  rewrite <- ?(assoc_L (++)) in H;
  first [ apply (prefix_free (enc := be_bytes 8)) in H as [? H]; [|assumption..]
        | apply (prefix_free (enc := length_prefixed)) in H as [? H]; [|assumption..]
        | apply (prefix_free (enc := append_optional_string)) in H as [? H]; [|assumption..]
        | apply (prefix_free (enc := trace_bytes)) in H as [? H]; [|assumption..]
        | apply hash_front in H as [? H]; [|assumption..] ].

#[local] Opaque append_optional_string.

#[export] Instance prefix_trace : PrefixFree (opt_all trace_short) trace_bytes.
Proof.
  intros [[p1 s1 b1]|] [[p2 s2 b2]|] r s Ha Hb Heq; simpl in Heq; try discriminate; apply cons_tail in Heq; [|done].
  destruct Ha as (? & ? & ?), Hb as (? & ? & ?). simpl in *.
  do 3 read_field Heq. subst. done.
Qed.

#[local] Opaque trace_bytes.

(** ** The decision in the preimage *)

Definition digits (l : list byte) : Prop := Forall digit_byte l.

Lemma int_to_string_digits n : 0 <= n -> digits (str_bytes (int_to_string n)).
Proof.
  intros Hn. destruct n as [|p|p]; [|apply pretty_pos_spec|lia]. apply Forall_singleton. by exists 0.
Qed.

(** A number ends at the first byte that is no digit. *)
Lemma digits_split l1 l2 x r1 r2 :
  digits l1 -> digits l2 -> ~ digit_byte x -> l1 ++ x :: r1 = l2 ++ x :: r2 -> l1 = l2 /\ r1 = r2.
Proof.
  intros H1. revert l2. induction H1 as [|b l1 Hb H1 IH]; intros [|b' l2] H2 Hx Heq; cbn [app] in Heq.
  - by apply cons_tail in Heq.
  - apply Forall_cons in H2 as [Hb' _]. assert (b' = x) by congruence. congruence.
  - assert (b = x) by congruence. congruence.
  - apply Forall_cons in H2 as [_ H2]. assert (b' = b) as -> by congruence.
    apply cons_tail in Heq. destruct (IH _ H2 Hx Heq) as [-> ->]. done.
Qed.

Lemma str_bytes_app a b : str_bytes (a +:+ b) = str_bytes a ++ str_bytes b.
Proof.
  induction a as [|c a IH]; [done|]. change (String c a +:+ b) with (String c (a +:+ b)).
  change (str_bytes (String ?c ?s)) with (Ascii.byte_of_ascii c :: str_bytes s). by rewrite IH.
Qed.

Lemma int_to_string_inj a b : int_to_string a = int_to_string b -> a = b.
Proof. apply (inj pretty). Qed.

(** The reason of an override is the one field that is not hashed. *)
Definition hashed_decision (d : DecisionType) : DecisionType :=
  match d with EmergencyOverride _ => EmergencyOverride "" | d => d end.

Definition decision_wf (d : DecisionType) : Prop :=
  match d with EpochTransition f t => is_u64 f /\ is_u64 t | _ => True end.

Lemma decision_string_inj d d' :
  decision_wf d -> decision_wf d' -> decision_string d = decision_string d' ->
  hashed_decision d = hashed_decision d'.
Proof.
  destruct d as [[]|[]|[]|f t|r|g], d' as [[]|[]|[]|f' t'|r'|g']; intros Hd Hd' Heq;
    try discriminate Heq; try done.
  - apply (f_equal str_bytes) in Heq. unfold decision_string in Heq. rewrite !str_bytes_app in Heq.
    apply app_inv_head in Heq. destruct Hd as [Hf Ht], Hd' as [Hf' Ht'].
    apply digits_split in Heq as [H1 H2]; [|apply int_to_string_digits; mlia..|by intros [? ?]].
    apply str_bytes_inj, int_to_string_inj in H1 as ->.
    apply cons_tail, str_bytes_inj, int_to_string_inj in H2 as ->. done.
  - simpl in Heq. by simplify_eq.
Qed.

(** ** The preimage determines the marker *)

Record marker_wf (m : DecisionMarker) : Prop := {
  wf_id : is_u64 (marker_id m);
  wf_prev : hash_wf (prev_marker_hash m);
  wf_ticks : is_u64 (timestamp_ticks m);
  wf_epoch : is_u64 (epoch_id m);
  wf_decision : decision_wf (decision_type m);
  wf_decision_string : str_short (decision_string (decision_type m));
  wf_decision_id : str_short (decision_id m);
  wf_policy : opt_all str_short (policy_id m);
  wf_correlation : str_short (correlation_id m);
  wf_trace : opt_all trace_short (trace_context m);
  wf_principal : opt_all str_short (principal_id m);
  wf_zone : opt_all str_short (zone_id m);
  wf_error : opt_all str_short (error_code m);
  wf_evidence : hash_wf (evidence_entry_hash m);
  wf_actor : str_short (actor m);
  wf_summary : str_short (redacted_summary (redacted_payload m));
  wf_payload : hash_wf (payload_hash (redacted_payload m)) }.

(** A marker without what is not hashed. *)
Definition hashed (m : DecisionMarker) : DecisionMarker :=
  mkMarker (marker_id m) (prev_marker_hash m) (marker_hash m) (timestamp_ticks m) (epoch_id m)
    (hashed_decision (decision_type m)) (decision_id m) (policy_id m) (correlation_id m)
    (trace_context m) (principal_id m) (zone_id m) (error_code m) (evidence_entry_hash m) (actor m)
    (redacted_payload m).

Lemma marker_preimage_inj m m' :
  marker_wf m -> marker_wf m' -> marker_hash m = marker_hash m' ->
  marker_preimage m = marker_preimage m' -> hashed m = hashed m'.
Proof.
  intros [] [] Hh Heq. destruct m, m'; simpl in *. unfold marker_preimage in Heq. simpl in Heq.
  do 16 read_field Heq.
  destruct redacted_payload as [s1 h1 r1], redacted_payload0 as [s2 h2 r2]. simpl in *.
  assert (r1 = r2) as -> by (by destruct r1, r2).
  unfold hashed. simpl. subst. f_equal. by apply decision_string_inj.
Qed.

(** ** Chains *)

Definition last_hash (ms : list DecisionMarker) : ContentHash :=
  match last ms with Some m => marker_hash m | None => zero_hash end.

Lemma check_marker_Ok prev m :
  Stream.check_marker prev m = Ok tt <->
  (forall p, prev = Some p -> marker_id p < marker_id m) /\
  prev_marker_hash m = match prev with Some p => marker_hash p | None => zero_hash end /\
  marker_hash m = compute_marker_hash m.
Proof.
  unfold Stream.check_marker. destruct prev as [p|]; simpl.
  - destruct (Z.leb_spec (marker_id m) (marker_id p)).
    { split; [done|]. intros [Hp _]. specialize (Hp p eq_refl). lia. }
    repeat case_bool_decide; naive_solver lia.
  - repeat case_bool_decide; naive_solver.
Qed.

Lemma check_from_snoc prev ms m :
  Stream.check_from prev (ms ++ [m]) = Ok tt <->
  Stream.check_from prev ms = Ok tt /\
  Stream.check_marker (match last ms with Some p => Some p | None => prev end) m = Ok tt.
Proof.
  revert prev. induction ms as [|p ms IH]; intros prev; cbn [app Stream.check_from].
  { rewrite bind_Ok. split; [by intros ([] & ? & _)|]. intros [_ ?]. by exists tt. }
  rewrite !bind_Ok. setoid_rewrite IH. rewrite last_cons.
  destruct (last ms); (split; [intros ([] & ? & ? & ?)|intros (([] & ? & ?) & ?)]; eauto 6).
Qed.

Lemma verified_snoc ms m :
  Stream.check_from None (ms ++ [m]) = Ok tt <->
  Stream.check_from None ms = Ok tt /\
  (forall p, last ms = Some p -> marker_id p < marker_id m) /\
  prev_marker_hash m = last_hash ms /\ marker_hash m = compute_marker_hash m.
Proof.
  rewrite check_from_snoc, check_marker_Ok. unfold last_hash. destruct (last ms); done.
Qed.

(** Two markers of the chains with one hash but different preimages, or a marker
    that hashes to the hash in front of every stream. *)
Inductive hash_break (ms ms' : list DecisionMarker) : Prop :=
  | break_collision m m' :
      m ∈ ms -> m' ∈ ms' -> marker_preimage m <> marker_preimage m' ->
      compute_marker_hash m = compute_marker_hash m' -> hash_break ms ms'
  | break_zero m : m ∈ ms ++ ms' -> compute_marker_hash m = zero_hash -> hash_break ms ms'.

Lemma hash_break_mono ms1 ms1' ms2 ms2' :
  ms1 ⊆ ms2 -> ms1' ⊆ ms2' -> hash_break ms1 ms1' -> hash_break ms2 ms2'.
Proof.
  intros H1 H2 [m m' Hm Hm' Hne Heq|m Hm Hz].
  - eapply break_collision; [by apply H1|by apply H2|done..].
  - apply (break_zero _ _ m); [|done]. apply elem_of_app in Hm as [Hm|Hm]; apply elem_of_app; auto.
Qed.

Lemma verified_last_hash ms m :
  Stream.check_from None ms = Ok tt -> last ms = Some m -> compute_marker_hash m = marker_hash m /\ m ∈ ms.
Proof.
  intros Hv Hl. apply last_Some in Hl as [l ->]. apply verified_snoc in Hv as (_ & _ & _ & Hh).
  split; [done|]. set_solver.
Qed.

Lemma same_last_same_chain ms ms' :
  Forall marker_wf ms -> Forall marker_wf ms' ->
  Stream.check_from None ms = Ok tt -> Stream.check_from None ms' = Ok tt ->
  last_hash ms = last_hash ms' -> hashed <$> ms = hashed <$> ms' \/ hash_break ms ms'.
Proof.
  revert ms'. induction ms as [|m ms IH] using rev_ind; intros ms' Hwf Hwf' Hv Hv' Hl.
  - destruct (last ms') as [m'|] eqn:Hl'; [|apply last_None in Hl' as ->; by left].
    right. destruct (verified_last_hash _ _ Hv' Hl') as [Hh Hin]. apply (break_zero _ _ m'); [set_solver|].
    unfold last_hash in Hl. rewrite Hl' in Hl. simpl in Hl. congruence.
  - destruct ms' as [|m' ms' _] using rev_ind.
    { right. apply verified_snoc in Hv as (_ & _ & _ & Hh). apply (break_zero _ _ m); [set_solver|].
      unfold last_hash in Hl. rewrite last_snoc in Hl. simpl in Hl. congruence. }
    apply verified_snoc in Hv as (Hv & _ & Hp & Hh), Hv' as (Hv' & _ & Hp' & Hh').
    apply Forall_app in Hwf as [Hwf Hm], Hwf' as [Hwf' Hm'].
    apply (proj1 (Forall_singleton _ _)) in Hm, Hm'.
    unfold last_hash in Hl. rewrite !last_snoc in Hl.
    destruct (decide (marker_preimage m = marker_preimage m')) as [Hpre|Hpre].
    2: { right. apply (break_collision _ _ m m'); [set_solver..|done|congruence]. }
    pose proof (marker_preimage_inj _ _ Hm Hm' Hl Hpre) as Heq.
    destruct (IH ms') as [Hms|Hbreak]; try done.
    + apply (f_equal prev_marker_hash) in Heq. simpl in Heq. congruence.
    + left. by rewrite !fmap_app, Hms, !fmap_cons, Heq.
    + right. eapply hash_break_mono; [..|exact Hbreak]; intros x Hx; apply elem_of_app; by left.
Qed.

(** C33. Two streams that both pass verify_chain and end with the same marker hash hold
    the same markers, except for the reasons of emergency overrides, which are not hashed;
    otherwise two of their markers are a collision of the content hash, or one hashes to
    the all-zero hash in front of a stream. The markers are well formed: 64-bit numbers,
    32-byte hashes, strings whose length fits the 32-bit prefix. *)
Theorem marker_chain_tamper_evident s s' :
  Stream.verify_chain s = Ok tt -> Stream.verify_chain s' = Ok tt ->
  Forall marker_wf (markers s) -> Forall marker_wf (markers s') ->
  last_hash (markers s) = last_hash (markers s') ->
  hashed <$> markers s = hashed <$> markers s' \/ hash_break (markers s) (markers s').
Proof.
  unfold Stream.verify_chain. intros Hv Hv' Hwf Hwf' Hl.
  apply same_last_same_chain; [done|done|by destruct (markers s)|by destruct (markers s')|done].
Qed.

(** ** Streams that were only appended to *)

Definition run (s : DecisionMarkerStream) (inputs : list MarkerInput) : DecisionMarkerStream :=
  fold_left (fun s i => (Stream.append s i).1) inputs s.

Definition checkpoint_due (interval : Z) (m : DecisionMarker) : bool :=
  (0 <? interval) && (marker_id m mod interval =? 0).

Definition checkpoint_for (key : list byte) (m : DecisionMarker) : IntegrityCheckpoint :=
  mkCheckpoint (marker_id m) (marker_hash m) (marker_id m)
    (AuthenticityHash_compute_keyed key
       (be_bytes 8 (marker_id m) ++ marker_hash m ++ be_bytes 8 (marker_id m))).

Definition head_for (key : list byte) (rolling : ContentHash) (m : DecisionMarker) : AuditChainHead :=
  mkHead (marker_id m) (marker_hash m) rolling (sign_chain_head key (marker_id m) (marker_hash m) rolling).

Record stream_inv (s : DecisionMarkerStream) : Prop := {
  inv_ids : forall k m, markers s !! k = Some m -> marker_id m = Z.of_nat k + 1;
  inv_next : next_marker_id s = zlen (markers s) + 1;
  inv_chain : Stream.check_from None (markers s) = Ok tt;
  inv_rolling : rolling_chain_hash s = recompute_rolling_hash (markers s);
  inv_head : chain_head s = head_for (checkpoint_key s) (rolling_chain_hash s) <$> last (markers s);
  inv_checkpoints :
    checkpoints s =
    checkpoint_for (checkpoint_key s) <$> List.filter (checkpoint_due (checkpoint_interval s)) (markers s) }.

Lemma new_inv interval key : stream_inv (Stream.new interval key).
Proof. by split. Qed.

(** The marker that an append adds. *)
Definition appended (s : DecisionMarkerStream) (i : MarkerInput) : DecisionMarker :=
  Stream.make_marker (next_marker_id s) (last_hash (markers s)) i.

Lemma appended_hash s i : marker_hash (appended s i) = compute_marker_hash (appended s i).
Proof. done. Qed.

Lemma get_fresh s m :
  (forall p, p ∈ markers s -> marker_id p <> marker_id m) ->
  find (fun p => marker_id p =? marker_id m) (markers s ++ [m]) = Some m.
Proof.
  induction (markers s) as [|p ms IH]; intros Hf; simpl; [by rewrite Z.eqb_refl|].
  destruct (Z.eqb_spec (marker_id p) (marker_id m)) as [He|_].
  - exfalso. eapply Hf; [by left|done].
  - apply IH. intros q Hq. apply Hf. by right.
Qed.

Lemma push_head s m :
  Stream.update_chain_head (Stream.push_marker s m) =
  let rolling := compute_rolling_hash (rolling_chain_hash s) (marker_id m) (marker_hash m) in
  mkStream (markers s ++ [m]) (wrap_u64 (next_marker_id s + 1)) (checkpoints s)
    (Some (head_for (checkpoint_key s) rolling m)) rolling (checkpoint_interval s) (checkpoint_key s)
    (events s).
Proof. unfold Stream.update_chain_head. cbn [markers Stream.push_marker]. by rewrite last_snoc. Qed.

Definition append_event (s : DecisionMarkerStream) (i : MarkerInput) : MarkerEvent :=
  mkEvent (next_marker_id s) (decision_string (in_decision_type i)) (zlen (markers s) + 1)
    (in_decision_id i) (in_policy_id i) (in_principal_id i) (in_correlation_id i) (trace_id i)
    "marker_stream" "marker_appended" "ok" (in_error_code i).

Lemma zlen_app_one {A} (l : list A) x : zlen (l ++ [x]) = zlen l + 1.
Proof. rewrite zlen_app. done. Qed.

Lemma append_eq s i :
  (forall p, p ∈ markers s -> marker_id p <> next_marker_id s) ->
  let m := appended s i in
  let rolling := compute_rolling_hash (rolling_chain_hash s) (marker_id m) (marker_hash m) in
  (Stream.append s i).1 =
  mkStream (markers s ++ [m]) (wrap_u64 (next_marker_id s + 1))
    (checkpoints s ++
     (if checkpoint_due (checkpoint_interval s) m
      then [mkCheckpoint (marker_id m) (marker_hash m) (zlen (markers s) + 1)
              (AuthenticityHash_compute_keyed (checkpoint_key s)
                 (be_bytes 8 (marker_id m) ++ marker_hash m ++ be_bytes 8 (zlen (markers s) + 1)))]
      else []))
    (Some (head_for (checkpoint_key s) rolling m)) rolling (checkpoint_interval s) (checkpoint_key s)
    (events s ++ [append_event s i]).
Proof.
  intros Hf m rolling. pose proof (get_fresh s m Hf) as Hget.
  unfold Stream.append. fold (last_hash (markers s)). fold (appended s i). fold m. cbv zeta.
  rewrite push_head. fold rolling. cbv zeta. unfold Stream.push_event.
  cbn [markers next_marker_id checkpoints chain_head rolling_chain_hash checkpoint_interval
       checkpoint_key events].
  change (next_marker_id s) with (marker_id m).
  fold (checkpoint_due (checkpoint_interval s) m). rewrite zlen_app_one. cbn [fst].
  destruct (checkpoint_due (checkpoint_interval s) m); [|by rewrite app_nil_r].
  unfold Stream.emit_checkpoint, Stream.get. cbn [markers]. rewrite Hget, zlen_app_one. done.
Qed.

Lemma ids_fresh s : stream_inv s -> forall p, p ∈ markers s -> marker_id p <> next_marker_id s.
Proof.
  intros Hs p [k Hk]%list_elem_of_lookup. rewrite (inv_ids s Hs k p Hk), (inv_next s Hs).
  apply lookup_lt_Some in Hk. unfold zlen. lia.
Qed.

Lemma append_inv s i :
  stream_inv s -> zlen (markers s) + 1 < u64_max -> stream_inv (Stream.append s i).1.
Proof.
  intros Hs Hmax. rewrite (append_eq s i (ids_fresh s Hs)). cbv zeta.
  set (m := appended s i). assert (marker_id m = zlen (markers s) + 1) as Hid by apply (inv_next s Hs).
  destruct Hs as [Hids Hnext Hchain Hroll Hhead Hcp].
  split; cbn [markers next_marker_id checkpoints chain_head rolling_chain_hash checkpoint_interval
              checkpoint_key events].
  - intros k p [Hk|[Hk Hp]]%lookup_app_Some; [by apply Hids|].
    apply list_lookup_singleton_Some in Hp as [Hk' <-]. rewrite Hid. unfold zlen. lia.
  - rewrite zlen_app_one, Hnext. pose proof (zlen_nonneg (markers s)). apply wrap_u64_small. mlia.
  - apply verified_snoc. split; [done|]. split; [|split; [done|apply appended_hash]].
    intros p Hp. rewrite Hid. rewrite last_lookup in Hp. rewrite (Hids _ _ Hp).
    apply lookup_lt_Some in Hp. unfold zlen. lia.
  - unfold recompute_rolling_hash. rewrite fold_left_app. cbn [fold_left].
    fold (recompute_rolling_hash (markers s)). by rewrite <- Hroll.
  - by rewrite last_snoc.
  - rewrite List.filter_app, fmap_app, Hcp. f_equal. cbn [List.filter].
    destruct (checkpoint_due (checkpoint_interval s) m); [|done].
    unfold checkpoint_for. cbn [fmap list_fmap]. by rewrite Hid.
Qed.

Lemma append_markers s i :
  stream_inv s -> markers (Stream.append s i).1 = markers s ++ [appended s i] /\
  events (Stream.append s i).1 = events s ++ [append_event s i].
Proof. intros Hs. by rewrite (append_eq s i (ids_fresh s Hs)). Qed.

Lemma run_spec s inputs :
  stream_inv s -> ev_marker_id <$> events s = marker_id <$> markers s ->
  zlen (markers s) + zlen inputs < u64_max ->
  let s' := run s inputs in
  stream_inv s' /\ checkpoint_interval s' = checkpoint_interval s /\ checkpoint_key s' = checkpoint_key s /\
  ev_marker_id <$> events s' = marker_id <$> markers s' /\
  exists ms, markers s' = markers s ++ ms /\ length ms = length inputs /\
  forall k i, inputs !! k = Some i ->
    ms !! k = Some (Stream.make_marker (zlen (markers s) + Z.of_nat k + 1)
                      (last_hash (take (length (markers s) + k) (markers s'))) i).
Proof.
  revert s. induction inputs as [|i inputs IH]; intros s Hs Hev Hmax; cbn [run fold_left].
  { do 4 (split; [done|]). exists []. by rewrite app_nil_r. }
  rewrite zlen_cons in Hmax. pose proof (zlen_nonneg inputs).
  destruct (append_markers s i Hs) as [Hm He]. pose proof (append_eq s i (ids_fresh s Hs)) as Happ. cbv zeta in Happ.
  destruct (IH (Stream.append s i).1) as (Hs' & Hi & Hk & Hev' & ms & Hms & Hlen & Hget).
  { apply append_inv; [done|lia]. }
  { rewrite Hm, He, !fmap_app, Hev. done. }
  { rewrite Hm, zlen_app_one. lia. }
  fold (run (Stream.append s i).1 inputs). split; [done|]. rewrite Hi, Hk, Happ. split; [done|]. split; [done|].
  rewrite <- Happ. split; [done|]. exists (appended s i :: ms).
  rewrite Hms, Hm, <- (assoc_L (++)). split; [done|]. split; [simpl; lia|].
  intros [|k] i' Hi'; simpl in Hi'.
  - injection Hi' as ->. rewrite Nat.add_0_r. change ((appended s i' :: ms) !! O) with (Some (appended s i')).
    unfold appended.
    rewrite (inv_next s Hs), take_app_length, Z.add_0_r. done.
  - change ((appended s i :: ms) !! S k) with (ms !! k).
    rewrite (Hget _ _ Hi'), Hms, Hm, zlen_app_one, length_app, <- (assoc_L (++)).
    replace (zlen (markers s) + 1 + Z.of_nat k + 1) with (zlen (markers s) + Z.of_nat (S k) + 1) by lia.
    replace (length (markers s) + length [appended s i] + k)%nat with (length (markers s) + S k)%nat
      by (simpl; lia).
    done.
Qed.

(** ** Verification of an appended stream *)

Lemma check_from_range prev q ms n f :
  Stream.check_from prev ms = Ok tt -> q = None \/ (f = O /\ q = prev) ->
  Stream.check_range q (take n (drop f ms)) = Ok tt.
Proof.
  revert prev q n f. induction ms as [|m ms IH]; intros prev q n f Hc Hq.
  { by rewrite drop_nil, take_nil. }
  cbn [Stream.check_from] in Hc. apply bind_Ok in Hc as ([] & Hm & Hc).
  destruct f as [|f]; [|eapply IH; [done|left; naive_solver]].
  destruct n as [|n]; [done|]. cbn [drop take Stream.check_range].
  apply check_marker_Ok in Hm as (_ & Hp & Hh). rewrite bool_decide_true by done. simpl.
  assert (match q with Some p => negb (bool_decide (prev_marker_hash m = marker_hash p)) | None => false end = false) as ->.
  { destruct Hq as [->|[_ ->]]; [done|]. destruct prev; [|done]. by rewrite bool_decide_true. }
  rewrite <- (drop_0 ms). eapply IH; [done|auto].
Qed.

Lemma inv_position s k m :
  stream_inv s -> markers s !! k = Some m -> is_Some (Stream.position (Z.of_nat k + 1) (markers s)).
Proof.
  intros Hs Hk. unfold Stream.position. rewrite fmap_is_Some.
  apply (list_find_elem_of _ _ m); [by eapply list_elem_of_lookup_2|]. by apply (inv_ids s Hs).
Qed.

Lemma inv_verify_range s f t :
  stream_inv s -> 1 <= f <= zlen (markers s) -> 1 <= t <= zlen (markers s) ->
  Stream.verify_range s f t = Ok tt.
Proof.
  intros Hs Hf Ht. unfold Stream.verify_range.
  assert (forall x, 1 <= x <= zlen (markers s) -> is_Some (Stream.position x (markers s))) as Hpos.
  { intros x Hx. unfold zlen in Hx. destruct (lookup_lt_is_Some_2 (markers s) (Z.to_nat (x - 1))) as [m Hm]; [lia|].
    replace x with (Z.of_nat (Z.to_nat (x - 1)) + 1) by lia. by eapply inv_position. }
  destruct (Hpos f Hf) as [a ->], (Hpos t Ht) as [b ->].
  eapply check_from_range; [apply (inv_chain s Hs)|by left].
Qed.

Lemma inv_get s k m : stream_inv s -> markers s !! k = Some m -> Stream.get s (Z.of_nat k + 1) = Some m.
Proof.
  intros Hs Hk. unfold Stream.get. destruct (find _ _) as [p|] eqn:Hf.
  - apply find_some in Hf as [Hin He]. apply list_elem_of_In, list_elem_of_lookup in Hin as [j Hj].
    apply Z.eqb_eq in He. rewrite (inv_ids s Hs _ _ Hj) in He. assert (j = k) as -> by lia. congruence.
  - pose proof (list_elem_of_lookup_2 _ _ _ Hk) as Hin. apply list_elem_of_In in Hin. apply (find_none _ _ Hf) in Hin.
    rewrite (inv_ids s Hs _ _ Hk) in Hin. apply Z.eqb_neq in Hin. done.
Qed.

Lemma inv_verify_head s : stream_inv s -> Stream.verify_head s = Ok tt.
Proof.
  intros Hs. unfold Stream.verify_head. rewrite (inv_head s Hs). destruct (last (markers s)) as [m|]; [|done].
  cbn [fmap option_fmap option_map head_for]. unfold head_for.
  cbn [head_marker_id latest_marker_hash head_rolling_hash signed_head_hash].
  rewrite <- (inv_rolling s Hs), Z.eqb_refl, !bool_decide_true by done. done.
Qed.

(** A stream that is only appended to passes verify_chain, verify_head and every
    verify_range; each marker is found under its position and is the one built from its
    input on the hash of its predecessor; a signed checkpoint is emitted exactly at the
    multiples of the interval and one event per marker. *)
Theorem marker_stream_verifies interval key inputs :
  inputs <> [] -> zlen inputs < u64_max ->
  let s := run (Stream.new interval key) inputs in
  Stream.verify_chain s = Ok tt /\ Stream.verify_head s = Ok tt /\
  (forall f t, 1 <= f <= zlen inputs -> 1 <= t <= zlen inputs -> Stream.verify_range s f t = Ok tt) /\
  Stream.len s = zlen inputs /\
  (forall k i, inputs !! k = Some i ->
     Stream.get s (Z.of_nat k + 1) =
     Some (Stream.make_marker (Z.of_nat k + 1) (last_hash (take k (markers s))) i)) /\
  checkpoints s = checkpoint_for key <$> List.filter (checkpoint_due interval) (markers s) /\
  ev_marker_id <$> events s = marker_id <$> markers s.
Proof.
  intros Hne Hmax s.
  destruct (run_spec (Stream.new interval key) inputs (new_inv _ _) eq_refl) as (Hs & Hi & Hk & Hev & ms & Hms & Hlen & Hget).
  { done. }
  fold s in Hs, Hi, Hk, Hev, Hms, Hget. cbn [app markers Stream.new] in Hms.
  assert (zlen (markers s) = zlen inputs) as Hn by (unfold zlen; rewrite Hms; lia).
  split.
  { unfold Stream.verify_chain. pose proof (inv_chain s Hs) as Hc. destruct (markers s) eqn:Hnil; [|done].
    destruct inputs; [done|]. unfold zlen in Hn. simpl in Hn. lia. }
  split; [by apply inv_verify_head|]. split; [rewrite <- Hn; intros; by apply inv_verify_range|].
  split; [done|]. split.
  - intros k i Hki. apply inv_get; [done|]. rewrite Hms at 1. rewrite (Hget _ _ Hki). done.
  - split; [|done]. rewrite (inv_checkpoints s Hs), Hi, Hk. done.
Qed.

(** ** Samples *)

Module Samples.
Definition input (d : DecisionType) (id : string) : MarkerInput :=
  mkInput 7 1 d id (Some "policy-1") "corr-1" (Some (mkTrace "00-abc" None (Some "k=v"))) None None None
    zero_hash "operator" "summary" (Some "secret") "trace-1".
Definition inputs : list MarkerInput :=
  [input (GuardrailTriggered "g1") "d1"; input (EmergencyOverride "on-call approved") "d2"].
Definition stream : DecisionMarkerStream := run (Stream.new 2 [x01; x02]) inputs.

Definition with_decision (m : DecisionMarker) (d : DecisionType) : DecisionMarker :=
  mkMarker (marker_id m) (prev_marker_hash m) (marker_hash m) (timestamp_ticks m) (epoch_id m) d
    (decision_id m) (policy_id m) (correlation_id m) (trace_context m) (principal_id m) (zone_id m)
    (error_code m) (evidence_entry_hash m) (actor m) (redacted_payload m).

(** The stream with the decision of one marker replaced. *)
Definition tampered (k : nat) (d : DecisionType) : DecisionMarkerStream :=
  mkStream (alter (fun m => with_decision m d) k (markers stream)) (next_marker_id stream)
    (checkpoints stream) (chain_head stream) (rolling_chain_hash stream) (checkpoint_interval stream)
    (checkpoint_key stream) (events stream).

Definition forged : DecisionMarkerStream := tampered 1 (EmergencyOverride "nobody asked").
End Samples.

Lemma marker_stream_verifies_witness :
  Stream.verify_chain Samples.stream = Ok tt /\ Stream.verify_range Samples.stream 1 2 = Ok tt.
Proof.
  destruct (marker_stream_verifies 2 [x01; x02] Samples.inputs) as (Hc & _ & Hr & _); [done|vm_compute; done|].
  split; [exact Hc|]. apply Hr; vm_compute; split; discriminate.
Defined.

Lemma samples_wf : Forall marker_wf (markers Samples.stream) /\ Forall marker_wf (markers Samples.forged).
Proof.
  split; vm_compute markers;
    repeat (apply Forall_cons; split; [split; vm_compute; repeat split; (done || discriminate)|]); apply Forall_nil; done.
Qed.

(** The reason of an emergency override is not hashed: a stream whose override
    carries another reason passes every check. *)
Example override_reason_not_hashed :
  decision_type <$> markers Samples.forged !! 1%nat = Some (EmergencyOverride "nobody asked") /\
  Stream.verify_chain Samples.forged = Ok tt /\ Stream.verify_head Samples.forged = Ok tt /\
  Stream.verify_range Samples.forged 1 2 = Ok tt.
Proof. vm_compute. auto. Qed.

(** A range given backwards is empty and passes, whatever the markers are. *)
Example reversed_range_accepted :
  let s := Samples.tampered 0 (GuardrailTriggered "g2") in
  is_ok (Stream.verify_range s 1 2) = false /\ Stream.verify_range s 2 1 = Ok tt.
Proof. vm_compute. auto. Qed.

Lemma marker_chain_tamper_evident_witness :
  hashed <$> markers Samples.stream = hashed <$> markers Samples.forged \/
  hash_break (markers Samples.stream) (markers Samples.forged).
Proof.
  apply (marker_chain_tamper_evident Samples.stream Samples.forged);
    [vm_compute; reflexivity..|exact (proj1 samples_wf)|exact (proj2 samples_wf)|vm_compute; reflexivity].
Defined.
