(* ===== verification/SecurityEpoch.v ===== *)
(** * Security epochs (crates/franken-engine/src/security_epoch.rs)

    The monotonic epoch counter, the validity windows of signed artifacts and
    the tracker that advances the counter and keeps its history.  The theorems
    say that no operation moves the epoch back, that the history is exact, and
    that an artifact is accepted exactly inside its window, so that an expired
    one is never accepted again. *)
From stdpp Require Import base numbers list strings gmap.
From S2P Require Import Prelude Bytes Text.
Open Scope string_scope.
Open Scope list_scope.
Open Scope Z_scope.

Definition SecurityEpoch : Type := Z.

Definition GENESIS : SecurityEpoch := 0.
Definition next (e : SecurityEpoch) : SecurityEpoch := sat_add64 e 1.

Inductive TransitionReason :=
  | PolicyKeyRotation
  | RevocationFrontierAdvance
  | GuardrailConfigChange
  | LossMatrixUpdate
  | RemoteTrustConfigChange
  | OperatorManualBump.

#[export] Instance TransitionReason_eq_dec : EqDecision TransitionReason.
Proof. solve_decision. Defined.

Definition reason_string (r : TransitionReason) : string :=
  match r with
  | PolicyKeyRotation => "policy_key_rotation"
  | RevocationFrontierAdvance => "revocation_frontier_advance"
  | GuardrailConfigChange => "guardrail_config_change"
  | LossMatrixUpdate => "loss_matrix_update"
  | RemoteTrustConfigChange => "remote_trust_config_change"
  | OperatorManualBump => "operator_manual_bump"
  end.

Record EpochMetadata := mkMetadata {
  epoch_id : SecurityEpoch;
  valid_from_epoch : SecurityEpoch;
  valid_until_epoch : option SecurityEpoch }.

Definition open_ended (current : SecurityEpoch) : EpochMetadata := mkMetadata current current None.
Definition windowed (current valid_from valid_until : SecurityEpoch) : EpochMetadata :=
  mkMetadata current valid_from (Some valid_until).

Inductive EpochValidationError :=
  | NotYetValid (current_epoch valid_from : SecurityEpoch)
  | Expired (current_epoch valid_until : SecurityEpoch)
  | FutureArtifact (current_epoch artifact_epoch : SecurityEpoch)
  | InvertedWindow (valid_from valid_until : SecurityEpoch).

Record MonotonicityViolation := mkViolation {
  current : SecurityEpoch;
  attempted : SecurityEpoch }.

Record TransitionRecord := mkTransition {
  previous_epoch : SecurityEpoch;
  new_epoch : SecurityEpoch;
  reason : TransitionReason;
  trace_id : string }.

Record EpochTracker := mkTracker {
  current_epoch : SecurityEpoch;
  transitions : list TransitionRecord;
  transition_counts : gmap string Z }.

Module Tracker.
Definition new : EpochTracker := mkTracker GENESIS [] ∅.
Definition from_persisted (e : SecurityEpoch) : EpochTracker := mkTracker e [] ∅.

Definition advance (t : EpochTracker) (r : TransitionReason) (trace : string) :
    EpochTracker * result MonotonicityViolation SecurityEpoch :=
  let next := next (current_epoch t) in
  if next =? current_epoch t then (t, Err (mkViolation (current_epoch t) next))
  else
    let record := mkTransition (current_epoch t) next r trace in
    let count := default 0 (transition_counts t !! reason_string r) in
    (mkTracker next (transitions t ++ [record])
       (<[reason_string r := wrap_u64 (count + 1)]> (transition_counts t)), Ok next).

Definition verify_persisted (t : EpochTracker) (persisted : SecurityEpoch) :
    EpochTracker * result MonotonicityViolation unit :=
  if current_epoch t <=? persisted
  then (mkTracker persisted (transitions t) (transition_counts t), Ok tt)
  else (t, Err (mkViolation (current_epoch t) persisted)).

Definition validate_artifact (t : EpochTracker) (md : EpochMetadata) :
    result (list EpochValidationError) unit :=
  let current := current_epoch t in
  let errors :=
    match valid_until_epoch md with
    | Some until =>
        if until <? valid_from_epoch md then [InvertedWindow (valid_from_epoch md) until] else []
    | None => []
    end ++
    (if current <? epoch_id md then [FutureArtifact current (epoch_id md)] else []) ++
    (if current <? valid_from_epoch md then [NotYetValid current (valid_from_epoch md)] else []) ++
    match valid_until_epoch md with
    | Some until => if until <? current then [Expired current until] else []
    | None => []
    end in
  match errors with [] => Ok tt | _ => Err errors end.

Definition stamp_open_ended (t : EpochTracker) : EpochMetadata := open_ended (current_epoch t).
Definition stamp_windowed (t : EpochTracker) (valid_from valid_until : SecurityEpoch) : EpochMetadata :=
  windowed (current_epoch t) valid_from valid_until.
Definition transition_count (t : EpochTracker) : Z := zlen (transitions t).
End Tracker.

(** ** Operations in sequence *)

Inductive EpochOp :=
  | OpAdvance (r : TransitionReason) (trace : string)
  | OpPersisted (e : SecurityEpoch).

Definition epoch_op (t : EpochTracker) (op : EpochOp) : EpochTracker :=
  match op with
  | OpAdvance r trace => (Tracker.advance t r trace).1
  | OpPersisted e => (Tracker.verify_persisted t e).1
  end.

Definition epoch_run (t : EpochTracker) (ops : list EpochOp) : EpochTracker := fold_left epoch_op ops t.

(** The history: every record is one step up, and starts no earlier than the one
    before ended. *)
Fixpoint history_from (e : SecurityEpoch) (l : list TransitionRecord) (current : SecurityEpoch) : Prop :=
  match l with
  | [] => e <= current
  | r :: l => e <= previous_epoch r /\ new_epoch r = previous_epoch r + 1 /\ history_from (new_epoch r) l current
  end.

Definition count_of (l : list TransitionRecord) (s : string) : Z :=
  zlen (List.filter (fun r => String.eqb (reason_string (reason r)) s) l).

Record tracker_inv (e0 : SecurityEpoch) (t : EpochTracker) : Prop := {
  ti_epoch : is_u64 (current_epoch t);
  ti_history : history_from e0 (transitions t) (current_epoch t);
  ti_counts : forall s, default 0 (transition_counts t !! s) = count_of (transitions t) s }.

Lemma epochs_snoc e l c r :
  history_from e l c -> c = previous_epoch r -> new_epoch r = previous_epoch r + 1 ->
  history_from e (l ++ [r]) (new_epoch r).
Proof.
  revert e. induction l as [|r' l IH]; intros e Hl Hc Hr; simpl in *; [lia|].
  destruct Hl as (H1 & H2 & H3). auto.
Qed.

Lemma history_weaken e l c c' : history_from e l c -> c <= c' -> history_from e l c'.
Proof. revert e. induction l as [|r l IH]; intros e Hl Hc; simpl in *; [lia|]. naive_solver. Qed.

(** The transitions fit between the first epoch and the current one. *)
Lemma epochs_length e l c : history_from e l c -> e + zlen l <= c.
Proof.
  revert e. induction l as [|r l IH]; intros e Hl; simpl in Hl; [by rewrite zlen_nil, Z.add_0_r|].
  destruct Hl as (H1 & H2 & H3). apply IH in H3. rewrite zlen_cons. lia.
Qed.

Lemma count_of_bound l s : 0 <= count_of l s <= zlen l.
Proof.
  unfold count_of, zlen. pose proof (List.filter_length_le (fun r => String.eqb (reason_string (reason r)) s) l). lia.
Qed.

Lemma count_of_snoc l r s :
  count_of (l ++ [r]) s = count_of l s + (if String.eqb (reason_string (reason r)) s then 1 else 0).
Proof.
  unfold count_of. rewrite List.filter_app, zlen_app. simpl. by destruct (String.eqb _ s).
Qed.

Lemma advance_inv e0 t r trace :
  0 <= e0 -> tracker_inv e0 t -> tracker_inv e0 (Tracker.advance t r trace).1.
Proof.
  intros He0 [He Hh Hc]. unfold Tracker.advance. destruct (Z.eqb_spec (next (current_epoch t)) (current_epoch t)) as [|Hne].
  { by split. }
  assert (next (current_epoch t) = current_epoch t + 1) as Hn by (unfold next in *; unfold_words; lia).
  assert (is_u64 (next (current_epoch t))) as Hu by (unfold next in *; unfold_words; lia).
  split; simpl; [done| |].
  - apply (epochs_snoc _ _ _ (mkTransition (current_epoch t) (next (current_epoch t)) r trace) Hh); done.
  - intros s. rewrite count_of_snoc. simpl. rewrite <- Hc. destruct (String.eqb_spec (reason_string r) s) as [<-|Hs].
    + rewrite lookup_insert_eq. simpl. apply wrap_u64_small. rewrite Hc.
      pose proof (epochs_length _ _ _ Hh). pose proof (count_of_bound (transitions t) (reason_string r)).
      mlia.
    + rewrite lookup_insert_ne by done. lia.
Qed.

Definition op_u64 (op : EpochOp) : Prop := match op with OpPersisted e => is_u64 e | _ => True end.

Lemma epoch_op_inv e0 t op :
  0 <= e0 -> op_u64 op -> tracker_inv e0 t -> tracker_inv e0 (epoch_op t op).
Proof.
  intros He0 Hop Ht. destruct op as [r trace|e]; simpl; [by apply advance_inv|].
  unfold Tracker.verify_persisted. destruct Ht as [He Hh Hc].
  destruct (Z.leb_spec (current_epoch t) e); [|by split].
  split; simpl; [done| |done]. by eapply history_weaken.
Qed.

Lemma epoch_op_grows t op :
  is_u64 (current_epoch t) -> op_u64 op ->
  current_epoch t <= current_epoch (epoch_op t op) /\ is_u64 (current_epoch (epoch_op t op)).
Proof.
  intros Ht Hop. destruct op as [r trace|e]; simpl.
  - unfold Tracker.advance. destruct (Z.eqb_spec (next (current_epoch t)) (current_epoch t)); simpl; [split; [lia|done]|].
    unfold next in *. unfold_words. lia.
  - unfold Tracker.verify_persisted. destruct (Z.leb_spec (current_epoch t) e); simpl; (split; [lia|done]).
Qed.

Lemma epoch_run_grows t ops :
  is_u64 (current_epoch t) -> Forall op_u64 ops -> current_epoch t <= current_epoch (epoch_run t ops).
Proof.
  intros Ht Hops. unfold epoch_run. revert t Ht. induction Hops as [|op ops Hop Hops IH]; intros t Ht; simpl; [lia|].
  destruct (epoch_op_grows t op Ht Hop) as [H1 H2]. specialize (IH _ H2). lia.
Qed.

Lemma epoch_run_inv e0 t ops :
  0 <= e0 -> Forall op_u64 ops -> tracker_inv e0 t -> tracker_inv e0 (epoch_run t ops).
Proof.
  intros He0 Hops. unfold epoch_run. revert t. induction Hops as [|op ops Hop Hops IH]; intros t Ht; simpl; [done|].
  by apply IH, epoch_op_inv.
Qed.

Lemma epoch_run_history t ops : transitions t `prefix_of` transitions (epoch_run t ops).
Proof.
  unfold epoch_run. revert t. induction ops as [|op ops IH]; intros t; simpl; [done|].
  etrans; [|apply IH]. destruct op as [r trace|e]; simpl.
  - unfold Tracker.advance. destruct (_ =? _); simpl; [done|]. by apply prefix_app_r.
  - unfold Tracker.verify_persisted. by destruct (_ <=? _).
Qed.

Lemma persisted_inv e0 : is_u64 e0 -> tracker_inv e0 (Tracker.from_persisted e0).
Proof.
  intros He. split; simpl; [done|lia|]. intros s. by rewrite lookup_empty.
Qed.

(** No sequence of advances and restorations moves the security epoch back or drops a
    transition; the recorded transitions each step up by one, do not overlap and end at or
    below the current epoch, and the counter of every reason is the number of its records. *)
Theorem epoch_history_monotone e0 ops1 ops2 :
  is_u64 e0 -> Forall op_u64 (ops1 ++ ops2) ->
  let t1 := epoch_run (Tracker.from_persisted e0) ops1 in
  let t2 := epoch_run t1 ops2 in
  e0 <= current_epoch t1 <= current_epoch t2 /\ is_u64 (current_epoch t2) /\
  transitions t1 `prefix_of` transitions t2 /\
  history_from e0 (transitions t2) (current_epoch t2) /\
  (forall s, default 0 (transition_counts t2 !! s) = count_of (transitions t2) s).
Proof.
  intros He [Ho1 Ho2]%Forall_app t1 t2. assert (0 <= e0) as He0 by mlia.
  pose proof (epoch_run_inv e0 _ ops1 He0 Ho1 (persisted_inv e0 He)) as Ht1.
  pose proof (epoch_run_inv e0 _ ops2 He0 Ho2 Ht1) as Ht2.
  split; [split; [by apply (epoch_run_grows (Tracker.from_persisted e0))|apply epoch_run_grows; [apply Ht1|done]]|]. split; [apply Ht2|]. split; [apply epoch_run_history|]. split; apply Ht2.
Qed.

(** The epochs in which an artifact is valid. *)
Definition in_window (md : EpochMetadata) (e : SecurityEpoch) : Prop :=
  epoch_id md <= e /\ valid_from_epoch md <= e /\ forall u, valid_until_epoch md = Some u -> e <= u.

Lemma validate_iff t md : Tracker.validate_artifact t md = Ok tt <-> in_window md (current_epoch t).
Proof.
  unfold Tracker.validate_artifact, in_window.
  destruct (Z.ltb_spec (current_epoch t) (epoch_id md)), (Z.ltb_spec (current_epoch t) (valid_from_epoch md)),
    (valid_until_epoch md) as [u|]; simpl;
    try destruct (Z.ltb_spec u (valid_from_epoch md)); try destruct (Z.ltb_spec u (current_epoch t)); simpl;
    (split; [|try (intros (? & ? & Hu); try specialize (Hu _ eq_refl); try lia; done)]); try done;
    intros _; (split; [lia|]; split; [lia|]); intros ? [=]; lia.
Qed.

Lemma validate_errors t md errors x :
  Tracker.validate_artifact t md = Err errors ->
  x ∈ errors <->
  match x with
  | NotYetValid c f => c = current_epoch t /\ f = valid_from_epoch md /\ c < f
  | Expired c u => c = current_epoch t /\ valid_until_epoch md = Some u /\ u < c
  | FutureArtifact c e => c = current_epoch t /\ e = epoch_id md /\ c < e
  | InvertedWindow f u => f = valid_from_epoch md /\ valid_until_epoch md = Some u /\ u < f
  end.
Proof.
  unfold Tracker.validate_artifact. intros Hv.
  match type of Hv with match ?l with _ => _ end = _ => assert (errors = l) as -> by (by destruct l; simplify_eq) end.
  clear Hv. rewrite !elem_of_app.
  destruct (Z.ltb_spec (current_epoch t) (epoch_id md)), (Z.ltb_spec (current_epoch t) (valid_from_epoch md)),
    (valid_until_epoch md) as [u|];
    try destruct (Z.ltb_spec u (valid_from_epoch md)); try destruct (Z.ltb_spec u (current_epoch t));
    destruct x; rewrite ?elem_of_nil, ?list_elem_of_singleton; naive_solver lia.
Qed.

(** validate_artifact accepts exactly when the current epoch is at least the creation
    epoch and lies in the validity window, and otherwise reports every violated condition
    and no other; an expired artifact stays rejected after any further operations, and a
    fresh open-ended stamp is accepted. *)
Theorem epoch_artifact_window t md ops :
  is_u64 (current_epoch t) ->
  (Tracker.validate_artifact t md = Ok tt <-> in_window md (current_epoch t)) /\
  (forall errors x, Tracker.validate_artifact t md = Err errors ->
     x ∈ errors <->
     match x with
     | NotYetValid c f => c = current_epoch t /\ f = valid_from_epoch md /\ c < f
     | Expired c u => c = current_epoch t /\ valid_until_epoch md = Some u /\ u < c
     | FutureArtifact c e => c = current_epoch t /\ e = epoch_id md /\ c < e
     | InvertedWindow f u => f = valid_from_epoch md /\ valid_until_epoch md = Some u /\ u < f
     end) /\
  (forall u, valid_until_epoch md = Some u -> u < current_epoch t -> Forall op_u64 ops ->
     is_ok (Tracker.validate_artifact (epoch_run t ops) md) = false) /\
  Tracker.validate_artifact t (Tracker.stamp_open_ended t) = Ok tt.
Proof.
  intros Ht. split; [apply validate_iff|]. split; [intros errors x; apply validate_errors|]. split.
  - intros u Hu Hlt Hops. destruct (Tracker.validate_artifact (epoch_run t ops) md) as [[]|] eqn:Hv; [|done].
    apply validate_iff in Hv as (_ & _ & Hw). specialize (Hw u Hu).
    pose proof (epoch_run_grows t ops Ht Hops). lia.
  - apply validate_iff. unfold in_window. simpl. split; [lia|]. split; [lia|done].
Qed.

Module Epochs.
Definition ops1 : list EpochOp := [OpAdvance PolicyKeyRotation "t1"; OpPersisted 9].
Definition ops2 : list EpochOp := [OpPersisted 3; OpAdvance OperatorManualBump "t2"].
Definition t1 : EpochTracker := epoch_run (Tracker.from_persisted 4) ops1.
End Epochs.

Lemma epoch_history_monotone_witness :
  4 <= current_epoch Epochs.t1 <= current_epoch (epoch_run Epochs.t1 Epochs.ops2).
Proof.
  apply (epoch_history_monotone 4 Epochs.ops1 Epochs.ops2); [vm_compute; split; discriminate|].
  repeat (apply Forall_cons; split); try apply Forall_nil; vm_compute; try done; split; discriminate.
Defined.

Lemma epoch_artifact_window_witness :
  is_ok (Tracker.validate_artifact (epoch_run Epochs.t1 Epochs.ops2) (windowed 5 5 8)) = false.
Proof.
  apply (epoch_artifact_window Epochs.t1 (windowed 5 5 8) Epochs.ops2) with (u := 8);
    [vm_compute; split; discriminate|reflexivity|vm_compute; reflexivity|].
  repeat (apply Forall_cons; split); try apply Forall_nil; vm_compute; try done; split; discriminate.
Defined.
