(* ===== verification/ObjectModel.v ===== *)
(** * The object model (crates/franken-engine/src/object_model.rs)

    Property keys and descriptors, ordinary objects with the ES2020 internal
    methods, proxies, the heap with its prototype walks, the symbol registry,
    the checks of proxy traps and the Reflect namespace.  A handle is a [u32]
    index into the heap's vector.  A method that mutates returns the new state
    beside its result. *)
From stdpp Require Import base numbers list strings gmap sorting.
From S2P Require Import Prelude Bytes Text.
Open Scope string_scope.
Open Scope list_scope.
Open Scope Z_scope.

(** ** Keys and values *)

Definition SymbolId : Type := Z.
Definition ObjectHandle : Type := Z.

Inductive PropertyKey :=
  | KString (s : string)
  | KSymbol (id : SymbolId).

#[export] Instance PropertyKey_eq_dec : EqDecision PropertyKey.
Proof. solve_decision. Defined.

#[export] Program Instance PropertyKey_countable : Countable PropertyKey :=
  inj_countable'
    (fun k => match k with KString s => inl s | KSymbol id => inr id end)
    (fun x => match x with inl s => KString s | inr id => KSymbol id end) _.
Next Obligation. by intros []. Qed.

(** The derived [Ord]: strings before symbols. *)
Definition key_order (a b : PropertyKey) : Prop :=
  match a, b with
  | KString a, KString b => key_le a b
  | KString _, KSymbol _ => True
  | KSymbol _, KString _ => False
  | KSymbol a, KSymbol b => key_le a b
  end.

#[export] Instance PropertyKey_btree_key : BTreeKey PropertyKey.
Proof.
  refine {| key_le := key_order |}.
  - intros [a|a] [b|b]; unfold key_order; apply _.
  - intros [a|a] [b|b]; unfold key_order; auto; apply key_le_total.
  - intros [a|a] [b|b] [c|c]; unfold key_order; try done; apply key_le_trans.
Defined.

(** [Display] *)
Definition key_string (k : PropertyKey) : string :=
  match k with KString s => s | KSymbol id => "Symbol(" +:+ int_to_string id +:+ ")" end.

Inductive WellKnownSymbol :=
  | WIterator | WToPrimitive | WHasInstance | WToStringTag | WSpecies | WIsConcatSpreadable
  | WUnscopables | WAsyncIterator | WMatch | WMatchAll | WReplace | WSearch | WSplit.

Module WellKnown.
Definition id (s : WellKnownSymbol) : SymbolId :=
  match s with
  | WIterator => 1 | WToPrimitive => 2 | WHasInstance => 3 | WToStringTag => 4 | WSpecies => 5
  | WIsConcatSpreadable => 6 | WUnscopables => 7 | WAsyncIterator => 8 | WMatch => 9
  | WMatchAll => 10 | WReplace => 11 | WSearch => 12 | WSplit => 13
  end.

Definition key (s : WellKnownSymbol) : PropertyKey := KSymbol (id s).
End WellKnown.

Inductive JsValue :=
  | JsUndefined
  | JsNull
  | JsBool (b : bool)
  | JsInt (n : Z)
  | JsStr (s : string)
  | JsSymbol (id : SymbolId)
  | JsObject (h : ObjectHandle)
  | JsFunction (id : Z).

#[export] Instance JsValue_eq_dec : EqDecision JsValue.
Proof. solve_decision. Defined.

Definition same_value (a b : JsValue) : bool := bool_decide (a = b).

(** ** Descriptors *)

Inductive PropertyDescriptor :=
  | Data (value : JsValue) (writable enumerable configurable : bool)
  | Accessor (get set : option ObjectHandle) (enumerable configurable : bool).

#[export] Instance PropertyDescriptor_eq_dec : EqDecision PropertyDescriptor.
Proof. solve_decision. Defined.

Module Desc.
Definition data (v : JsValue) : PropertyDescriptor := Data v true true true.
Definition data_frozen (v : JsValue) : PropertyDescriptor := Data v false false false.

Definition is_configurable (d : PropertyDescriptor) : bool :=
  match d with Data _ _ _ c | Accessor _ _ _ c => c end.
Definition is_enumerable (d : PropertyDescriptor) : bool :=
  match d with Data _ _ e _ | Accessor _ _ e _ => e end.
Definition is_data (d : PropertyDescriptor) : bool :=
  match d with Data _ _ _ _ => true | Accessor _ _ _ _ => false end.
Definition is_accessor (d : PropertyDescriptor) : bool :=
  match d with Data _ _ _ _ => false | Accessor _ _ _ _ => true end.
Definition value (d : PropertyDescriptor) : option JsValue :=
  match d with Data v _ _ _ => Some v | Accessor _ _ _ _ => None end.
Definition is_writable (d : PropertyDescriptor) : bool :=
  match d with Data _ w _ _ => w | Accessor _ _ _ _ => false end.

Definition set_non_configurable (d : PropertyDescriptor) : PropertyDescriptor :=
  match d with Data v w e _ => Data v w e false | Accessor g s e _ => Accessor g s e false end.
Definition set_non_writable (d : PropertyDescriptor) : PropertyDescriptor :=
  match d with Data v _ e c => Data v false e c | Accessor g s e c => Accessor g s e c end.
Definition set_non_enumerable (d : PropertyDescriptor) : PropertyDescriptor :=
  match d with Data v w _ c => Data v w false c | Accessor g s _ c => Accessor g s false c end.
End Desc.

Inductive ObjectError :=
  | TypeError (message : string)
  | ObjectNotFound (h : ObjectHandle)
  | ProxyRevoked
  | PrototypeCycleDetected
  | PrototypeChainTooDeep (depth max : Z).

#[export] Instance ObjectError_eq_dec : EqDecision ObjectError.
Proof. solve_decision. Defined.

(** ** Ordinary objects *)

Definition MAX_PROTOTYPE_CHAIN_DEPTH : Z := 1024.

Record OrdinaryObject := mkOrdinary {
  prototype : option ObjectHandle;
  extensible : bool;
  properties : gmap PropertyKey PropertyDescriptor;
  class_tag : option string;
  callable : bool;
  constructable : bool }.

#[export] Instance OrdinaryObject_eq_dec : EqDecision OrdinaryObject.
Proof. solve_decision. Defined.

(** [s.parse::<u32>()] *)
Definition parse_u32 (s : string) : option Z :=
  n ← parse_u64 s; if n <=? u32_max then Some n else None.

(** [sort_by_key], which is stable *)
Fixpoint insert_by_key {A} (x : Z * A) (l : list (Z * A)) : list (Z * A) :=
  match l with
  | [] => [x]
  | y :: l => if x.1 <=? y.1 then x :: y :: l else y :: insert_by_key x l
  end.

Definition sort_by_key {A} (l : list (Z * A)) : list (Z * A) := foldr insert_by_key [] l.

Module Obj.
Definition with_prototype (proto : option ObjectHandle) : OrdinaryObject :=
  mkOrdinary proto true ∅ None false false.

Definition set_properties (ps : gmap PropertyKey PropertyDescriptor) (o : OrdinaryObject) :
    OrdinaryObject :=
  mkOrdinary (prototype o) (extensible o) ps (class_tag o) (callable o) (constructable o).

Definition set_prototype (p : option ObjectHandle) (o : OrdinaryObject) : OrdinaryObject :=
  mkOrdinary p (extensible o) (properties o) (class_tag o) (callable o) (constructable o).

Definition set_extensible (b : bool) (o : OrdinaryObject) : OrdinaryObject :=
  mkOrdinary (prototype o) b (properties o) (class_tag o) (callable o) (constructable o).

Definition get_own_property (o : OrdinaryObject) (k : PropertyKey) : option PropertyDescriptor :=
  properties o !! k.

Definition has_own_property (o : OrdinaryObject) (k : PropertyKey) : bool :=
  bool_decide (is_Some (properties o !! k)).

(** The chain of tests on a non-configurable property. *)
Definition compatible (current desc : PropertyDescriptor) : bool :=
  if Desc.is_configurable desc then false
  else if negb (Bool.eqb (Desc.is_enumerable desc) (Desc.is_enumerable current)) then false
  else if negb (Bool.eqb (Desc.is_data current) (Desc.is_data desc)) then false
  else
    match current, desc with
    | Data current_v current_w _ _, Data new_v new_w _ _ =>
        if negb current_w then
          if new_w then false else same_value current_v new_v
        else true
    | Accessor cur_get cur_set _ _, Accessor new_get new_set _ _ =>
        bool_decide (cur_get = new_get) && bool_decide (cur_set = new_set)
    | _, _ => true
    end.

Definition define_own_property (o : OrdinaryObject) (k : PropertyKey) (desc : PropertyDescriptor) :
    OrdinaryObject * result ObjectError bool :=
  match properties o !! k with
  | Some current =>
      if negb (Desc.is_configurable current) && negb (compatible current desc) then (o, Ok false)
      else (set_properties (<[k := desc]> (properties o)) o, Ok true)
  | None =>
      if negb (extensible o) then (o, Ok false)
      else (set_properties (<[k := desc]> (properties o)) o, Ok true)
  end.

Definition delete_ (o : OrdinaryObject) (k : PropertyKey) : OrdinaryObject * bool :=
  match properties o !! k with
  | Some desc =>
      if negb (Desc.is_configurable desc) then (o, false)
      else (set_properties (delete k (properties o)) o, true)
  | None => (o, true)
  end.

Definition own_property_keys (o : OrdinaryObject) : list PropertyKey :=
  let keys := sorted_keys (properties o) in
  let int_keys := omap (fun k => match k with
                                 | KString s => n ← parse_u32 s; Some (n, k)
                                 | KSymbol _ => None
                                 end) keys in
  let str_keys := List.filter (fun k => match k with
                                        | KString s => bool_decide (parse_u32 s = None)
                                        | KSymbol _ => false
                                        end) keys in
  let sym_keys := List.filter (fun k => match k with KString _ => false | KSymbol _ => true end) keys in
  (sort_by_key int_keys).*2 ++ str_keys ++ sym_keys.

Definition prevent_extensions (o : OrdinaryObject) : OrdinaryObject := set_extensible false o.

Definition freeze (o : OrdinaryObject) : OrdinaryObject :=
  set_properties
    ((fun d => Desc.set_non_writable (Desc.set_non_configurable d)) <$> properties o)
    (set_extensible false o).

Definition seal (o : OrdinaryObject) : OrdinaryObject :=
  set_properties (Desc.set_non_configurable <$> properties o) (set_extensible false o).

(** [self.properties.values().all(..)] *)
Definition all_descriptors (f : PropertyDescriptor -> bool) (o : OrdinaryObject) : bool :=
  forallb f (sorted_values (properties o)).

Definition is_frozen (o : OrdinaryObject) : bool :=
  if extensible o then false
  else all_descriptors (fun d =>
         if negb (Desc.is_configurable d)
         then match d with Data _ w _ _ => negb w | Accessor _ _ _ _ => true end
         else false) o.

Definition is_sealed (o : OrdinaryObject) : bool :=
  if extensible o then false else all_descriptors (fun d => negb (Desc.is_configurable d)) o.
End Obj.

(** ** Proxies and the heap *)

Record ProxyObject := mkProxy {
  target : option ObjectHandle;
  handler : option ObjectHandle }.

Module Proxy.
Definition new (t h : ObjectHandle) : ProxyObject := mkProxy (Some t) (Some h).
Definition revoke (p : ProxyObject) : ProxyObject := mkProxy None None.
Definition is_revoked (p : ProxyObject) : bool :=
  match target p with None => true | Some _ => false end.
Definition get_target (p : ProxyObject) : result ObjectError ObjectHandle := ok_or ProxyRevoked (target p).
Definition get_handler (p : ProxyObject) : result ObjectError ObjectHandle :=
  ok_or ProxyRevoked (handler p).
End Proxy.

Inductive ManagedObject :=
  | Ordinary (o : OrdinaryObject)
  | ProxyObj (p : ProxyObject).

Record ObjectHeap := mkHeap {
  objects : list ManagedObject;
  next_symbol : Z }.

(** ** Heap operations *)

Module Heap.
Definition new : ObjectHeap := mkHeap [] 14.

Definition next_handle (H : ObjectHeap) : ObjectHandle := u32_sat (zlen (objects H)).

Definition push (H : ObjectHeap) (m : ManagedObject) : ObjectHeap :=
  mkHeap (objects H ++ [m]) (next_symbol H).

Definition alloc (H : ObjectHeap) (proto : option ObjectHandle) : ObjectHeap * ObjectHandle :=
  (push H (Ordinary (Obj.with_prototype proto)), next_handle H).

Definition alloc_plain (H : ObjectHeap) : ObjectHeap * ObjectHandle := alloc H None.

Definition alloc_proxy (H : ObjectHeap) (t h : ObjectHandle) : ObjectHeap * ObjectHandle :=
  (push H (ProxyObj (Proxy.new t h)), next_handle H).

Definition alloc_symbol (H : ObjectHeap) : ObjectHeap * SymbolId :=
  (mkHeap (objects H) (Z.min (next_symbol H + 1) u32_max), next_symbol H).

Definition get (H : ObjectHeap) (h : ObjectHandle) : result ObjectError ManagedObject :=
  ok_or (ObjectNotFound h) (if h <? 0 then None else objects H !! Z.to_nat h).

(** A write through [get_mut]. *)
Definition put (H : ObjectHeap) (h : ObjectHandle) (o : OrdinaryObject) : ObjectHeap :=
  mkHeap (<[Z.to_nat h := Ordinary o]> (objects H)) (next_symbol H).

(** The methods that match on the object and answer for ordinary ones; a proxy
    is a [TypeError] with the method's message. *)
Definition on_ordinary {A} (H : ObjectHeap) (h : ObjectHandle) (message : string)
    (f : OrdinaryObject -> result ObjectError A) : result ObjectError A :=
  obj ← get H h;
  match obj with Ordinary o => f o | ProxyObj _ => Err (TypeError message) end.

Definition update_ordinary {A} (H : ObjectHeap) (h : ObjectHandle) (message : string)
    (f : OrdinaryObject -> OrdinaryObject * result ObjectError A) : ObjectHeap * result ObjectError A :=
  match get H h with
  | Err e => (H, Err e)
  | Ok (Ordinary o) => let '(o, r) := f o in (put H h o, r)
  | Ok (ProxyObj _) => (H, Err (TypeError message))
  end.

Definition max_depth : nat := Z.to_nat MAX_PROTOTYPE_CHAIN_DEPTH.

(** The error of the loops at [depth >= MAX_PROTOTYPE_CHAIN_DEPTH]; the
    recursion counts the remaining depth down. *)
Definition too_deep : ObjectError :=
  PrototypeChainTooDeep MAX_PROTOTYPE_CHAIN_DEPTH MAX_PROTOTYPE_CHAIN_DEPTH.

(** What [get_property] returns for a descriptor; a getter stands for itself. *)
Definition read_descriptor (d : PropertyDescriptor) : JsValue :=
  match d with
  | Data v _ _ _ => v
  | Accessor (Some getter) _ _ _ => JsObject getter
  | Accessor None _ _ _ => JsUndefined
  end.

Fixpoint get_walk (fuel : nat) (H : ObjectHeap) (k : PropertyKey) (visited : gset Z)
    (current : option ObjectHandle) : result ObjectError JsValue :=
  match current with
  | None => Ok JsUndefined
  | Some h =>
      match fuel with
      | O => Err too_deep
      | S fuel =>
          if decide (h ∈ visited) then Err PrototypeCycleDetected
          else
            obj ← get H h;
            match obj with
            | Ordinary o =>
                match Obj.get_own_property o k with
                | Some desc => Ok (read_descriptor desc)
                | None => get_walk fuel H k ({[h]} ∪ visited) (prototype o)
                end
            | ProxyObj _ => Err (TypeError "proxy get trap must be handled by interpreter")
            end
      end
  end.

Definition get_property (H : ObjectHeap) (h : ObjectHandle) (k : PropertyKey) :
    result ObjectError JsValue :=
  get_walk max_depth H k ∅ (Some h).

(** The first part of [set_property]: [Ok (Some b)] returns at once, [Ok None]
    leaves the loop. *)
Fixpoint set_walk (fuel : nat) (H : ObjectHeap) (receiver : ObjectHandle) (k : PropertyKey)
    (visited : gset Z) (current : option ObjectHandle) : result ObjectError (option bool) :=
  match current with
  | None => Ok None
  | Some h =>
      match fuel with
      | O => Err too_deep
      | S fuel =>
          if decide (h ∈ visited) then Err PrototypeCycleDetected
          else
            obj ← get H h;
            match obj with
            | Ordinary o =>
                match Obj.get_own_property o k with
                | Some desc =>
                    if (h =? receiver) && Desc.is_accessor desc then Ok (Some false)
                    else if negb (h =? receiver) && Desc.is_accessor desc then Ok None
                    else if negb (Desc.is_writable desc) then Ok (Some false)
                    else Ok None
                | None => set_walk fuel H receiver k ({[h]} ∪ visited) (prototype o)
                end
            | ProxyObj _ => Err (TypeError "proxy set trap must be handled by interpreter")
            end
      end
  end.

(** The second part: write the own property of the receiver. *)
Definition write_own (o : OrdinaryObject) (k : PropertyKey) (v : JsValue) :
    OrdinaryObject * result ObjectError bool :=
  match properties o !! k with
  | Some (Data _ w e c) => (Obj.set_properties (<[k := Data v w e c]> (properties o)) o, Ok true)
  | Some (Accessor _ _ _ _) => (o, Ok false)
  | None =>
      if extensible o
      then (Obj.set_properties (<[k := Desc.data v]> (properties o)) o, Ok true)
      else (o, Ok false)
  end.

Definition set_property (H : ObjectHeap) (h : ObjectHandle) (k : PropertyKey) (v : JsValue) :
    ObjectHeap * result ObjectError bool :=
  match set_walk max_depth H h k ∅ (Some h) with
  | Err e => (H, Err e)
  | Ok (Some b) => (H, Ok b)
  | Ok None => update_ordinary H h "Proxy set not supported yet" (fun o => write_own o k v)
  end.

Fixpoint has_walk (fuel : nat) (H : ObjectHeap) (k : PropertyKey) (visited : gset Z)
    (current : option ObjectHandle) : result ObjectError bool :=
  match current with
  | None => Ok false
  | Some h =>
      match fuel with
      | O => Err too_deep
      | S fuel =>
          if decide (h ∈ visited) then Err PrototypeCycleDetected
          else
            obj ← get H h;
            match obj with
            | Ordinary o =>
                if Obj.has_own_property o k then Ok true
                else has_walk fuel H k ({[h]} ∪ visited) (prototype o)
            | ProxyObj _ => Err (TypeError "proxy has trap must be handled by interpreter")
            end
      end
  end.

Definition has_property (H : ObjectHeap) (h : ObjectHandle) (k : PropertyKey) :
    result ObjectError bool :=
  has_walk max_depth H k ∅ (Some h).

Definition delete_property (H : ObjectHeap) (h : ObjectHandle) (k : PropertyKey) :
    ObjectHeap * result ObjectError bool :=
  update_ordinary H h "proxy deleteProperty trap must be handled by interpreter"
    (fun o => let '(o, b) := Obj.delete_ o k in (o, Ok b)).

Definition get_prototype_of (H : ObjectHeap) (h : ObjectHandle) :
    result ObjectError (option ObjectHandle) :=
  on_ordinary H h "proxy getPrototypeOf trap must be handled by interpreter"
    (fun o => Ok (prototype o)).

(** The cycle check of [set_prototype_of]; a proxy ends it. *)
Fixpoint cycle_walk (fuel : nat) (H : ObjectHeap) (visited : gset Z)
    (current : option ObjectHandle) : result ObjectError unit :=
  match current with
  | None => Ok tt
  | Some h =>
      match fuel with
      | O => Err too_deep
      | S fuel =>
          if decide (h ∈ visited) then Err PrototypeCycleDetected
          else
            obj ← get H h;
            match obj with
            | Ordinary o => cycle_walk fuel H ({[h]} ∪ visited) (prototype o)
            | ProxyObj _ => Ok tt
            end
      end
  end.

Definition set_prototype_of (H : ObjectHeap) (h : ObjectHandle) (proto : option ObjectHandle) :
    ObjectHeap * result ObjectError bool :=
  match cycle_walk max_depth H {[h]} proto with
  | Err e => (H, Err e)
  | Ok _ =>
      update_ordinary H h "proxy setPrototypeOf trap must be handled by interpreter"
        (fun o => if negb (extensible o) then (o, Ok (bool_decide (prototype o = proto)))
                  else (Obj.set_prototype proto o, Ok true))
  end.

Definition is_extensible (H : ObjectHeap) (h : ObjectHandle) : result ObjectError bool :=
  on_ordinary H h "proxy isExtensible trap must be handled by interpreter"
    (fun o => Ok (extensible o)).

Definition prevent_extensions (H : ObjectHeap) (h : ObjectHandle) :
    ObjectHeap * result ObjectError bool :=
  update_ordinary H h "proxy preventExtensions trap must be handled by interpreter"
    (fun o => (Obj.prevent_extensions o, Ok true)).

Definition define_property (H : ObjectHeap) (h : ObjectHandle) (k : PropertyKey)
    (desc : PropertyDescriptor) : ObjectHeap * result ObjectError bool :=
  update_ordinary H h "proxy defineProperty trap must be handled by interpreter"
    (fun o => Obj.define_own_property o k desc).

Definition get_own_property_descriptor (H : ObjectHeap) (h : ObjectHandle) (k : PropertyKey) :
    result ObjectError (option PropertyDescriptor) :=
  on_ordinary H h "proxy getOwnPropertyDescriptor trap must be handled by interpreter"
    (fun o => Ok (Obj.get_own_property o k)).

Definition own_keys_message : string := "proxy ownKeys trap must be handled by interpreter".

Definition string_key (k : PropertyKey) : option string :=
  match k with KString s => Some s | KSymbol _ => None end.

(** [o.properties.get(&k)] restricted to enumerable data properties. *)
Definition enumerable_value (o : OrdinaryObject) (k : PropertyKey) : option JsValue :=
  d ← properties o !! k; if Desc.is_enumerable d then Desc.value d else None.

Definition values (H : ObjectHeap) (h : ObjectHandle) : result ObjectError (list JsValue) :=
  on_ordinary H h own_keys_message (fun o =>
    Ok (omap (enumerable_value o)
          (List.filter (fun k => match k with KString _ => true | KSymbol _ => false end)
             (Obj.own_property_keys o)))).

Definition entries (H : ObjectHeap) (h : ObjectHandle) :
    result ObjectError (list (string * JsValue)) :=
  on_ordinary H h own_keys_message (fun o =>
    Ok (omap (fun k => s ← string_key k; v ← enumerable_value o k; Some (s, v))
          (Obj.own_property_keys o))).

(** The loop stops at the first property that is refused. *)
Fixpoint define_properties (H : ObjectHeap) (h : ObjectHandle)
    (props : list (PropertyKey * PropertyDescriptor)) : ObjectHeap * result ObjectError bool :=
  match props with
  | [] => (H, Ok true)
  | (k, d) :: props =>
      match define_property H h k d with
      | (H, Ok true) => define_properties H h props
      | (H, Ok false) => (H, Ok false)
      | (H, Err e) => (H, Err e)
      end
  end.

Definition get_own_property_descriptors (H : ObjectHeap) (h : ObjectHandle) :
    result ObjectError (list (PropertyKey * PropertyDescriptor)) :=
  on_ordinary H h "proxy getOwnPropertyDescriptor trap must be handled by interpreter" (fun o =>
    Ok (omap (fun k => d ← properties o !! k; Some (k, d)) (Obj.own_property_keys o))).

(** One key of [for..in]: the keys seen so far and the result. *)
Definition note_key (o : OrdinaryObject) (st : gset PropertyKey * list string) (k : PropertyKey) :
    gset PropertyKey * list string :=
  let '(seen, acc) := st in
  if decide (k ∈ seen) then (seen, acc)
  else
    ({[k]} ∪ seen,
     match k, properties o !! k with
     | KString s, Some d => if Desc.is_enumerable d then acc ++ [s] else acc
     | _, _ => acc
     end).

Definition for_in_object (o : OrdinaryObject) (seen : gset PropertyKey) (acc : list string) :
    gset PropertyKey * list string :=
  fold_left (note_key o) (Obj.own_property_keys o) (seen, acc).

Fixpoint for_in_walk (fuel : nat) (H : ObjectHeap) (seen : gset PropertyKey) (acc : list string)
    (visited : gset Z) (current : option ObjectHandle) : result ObjectError (list string) :=
  match current with
  | None => Ok acc
  | Some h =>
      match fuel with
      | O => Err too_deep
      | S fuel =>
          if decide (h ∈ visited) then Err PrototypeCycleDetected
          else
            obj ← get H h;
            match obj with
            | Ordinary o =>
                let '(seen, acc) := for_in_object o seen acc in
                for_in_walk fuel H seen acc ({[h]} ∪ visited) (prototype o)
            | ProxyObj _ => Err (TypeError own_keys_message)
            end
      end
  end.

Definition for_in_keys (H : ObjectHeap) (h : ObjectHandle) : result ObjectError (list string) :=
  for_in_walk max_depth H ∅ [] ∅ (Some h).

Definition keys (H : ObjectHeap) (h : ObjectHandle) : result ObjectError (list string) :=
  on_ordinary H h own_keys_message (fun o =>
    Ok (omap string_key
          (List.filter (fun k => match properties o !! k with
                                 | Some d => Desc.is_enumerable d &&
                                     match k with KString _ => true | KSymbol _ => false end
                                 | None => false
                                 end) (Obj.own_property_keys o)))).

Definition freeze (H : ObjectHeap) (h : ObjectHandle) : ObjectHeap * result ObjectError unit :=
  update_ordinary H h "cannot freeze proxy directly" (fun o => (Obj.freeze o, Ok tt)).

Definition seal (H : ObjectHeap) (h : ObjectHandle) : ObjectHeap * result ObjectError unit :=
  update_ordinary H h "cannot seal proxy directly" (fun o => (Obj.seal o, Ok tt)).

Definition is_frozen (H : ObjectHeap) (h : ObjectHandle) : result ObjectError bool :=
  obj ← get H h; match obj with Ordinary o => Ok (Obj.is_frozen o) | ProxyObj _ => Ok false end.

Definition is_sealed (H : ObjectHeap) (h : ObjectHandle) : result ObjectError bool :=
  obj ← get H h; match obj with Ordinary o => Ok (Obj.is_sealed o) | ProxyObj _ => Ok false end.

(** The own enumerable data properties of a source. *)
Definition copyable (o : OrdinaryObject) : list (PropertyKey * JsValue) :=
  omap (fun k => v ← enumerable_value o k; Some (k, v)) (Obj.own_property_keys o).

Definition source_properties (H : ObjectHeap) (message : string) (src : ObjectHandle) :
    result ObjectError (list (PropertyKey * JsValue)) :=
  on_ordinary H src message (fun o => Ok (copyable o)).

(** [for src in sources { .. all_props.push(pairs) }], which stops at an error *)
Fixpoint collect_sources (H : ObjectHeap) (message : string) (sources : list ObjectHandle) :
    result ObjectError (list (PropertyKey * JsValue)) :=
  match sources with
  | [] => Ok []
  | src :: sources =>
      pairs ← source_properties H message src;
      rest ← collect_sources H message sources;
      Ok (pairs ++ rest)
  end.

(** [self.set_property(target, key, value)?] in turn: the booleans are ignored. *)
Fixpoint set_all (H : ObjectHeap) (h : ObjectHandle) (props : list (PropertyKey * JsValue)) :
    ObjectHeap * result ObjectError unit :=
  match props with
  | [] => (H, Ok tt)
  | (k, v) :: props =>
      match set_property H h k v with
      | (H, Ok _) => set_all H h props
      | (H, Err e) => (H, Err e)
      end
  end.

Definition assign (H : ObjectHeap) (h : ObjectHandle) (sources : list ObjectHandle) :
    ObjectHeap * result ObjectError unit :=
  match collect_sources H "Object.assign source cannot be proxy (handled by interpreter)" sources with
  | Err e => (H, Err e)
  | Ok props => set_all H h props
  end.

Definition create (H : ObjectHeap) (proto : option ObjectHandle) : ObjectHeap * ObjectHandle :=
  alloc H proto.

Definition revoke_proxy (H : ObjectHeap) (h : ObjectHandle) : ObjectHeap * result ObjectError unit :=
  match get H h with
  | Err e => (H, Err e)
  | Ok (ProxyObj p) =>
      (mkHeap (<[Z.to_nat h := ProxyObj (Proxy.revoke p)]> (objects H)) (next_symbol H), Ok tt)
  | Ok (Ordinary _) => (H, Err (TypeError "cannot revoke non-proxy object"))
  end.

Definition object_is (a b : JsValue) : bool := same_value a b.

Definition get_own_property_names (H : ObjectHeap) (h : ObjectHandle) :
    result ObjectError (list string) :=
  on_ordinary H h own_keys_message (fun o => Ok (omap string_key (Obj.own_property_keys o))).

Definition get_own_property_symbols (H : ObjectHeap) (h : ObjectHandle) :
    result ObjectError (list SymbolId) :=
  on_ordinary H h own_keys_message (fun o =>
    Ok (omap (fun k => match k with KSymbol id => Some id | KString _ => None end)
          (Obj.own_property_keys o))).

(** [let _ = self.set_property(..)]: errors are ignored. *)
Definition from_entries (H : ObjectHeap) (es : list (string * JsValue)) : ObjectHeap * ObjectHandle :=
  let '(H, h) := alloc_plain H in
  (fold_left (fun H '(s, v) => (set_property H h (KString s) v).1) es H, h).

Definition has_own (H : ObjectHeap) (h : ObjectHandle) (k : PropertyKey) : result ObjectError bool :=
  on_ordinary H h "proxy getOwnPropertyDescriptor trap must be handled by interpreter"
    (fun o => Ok (Obj.has_own_property o k)).

(** The loop that ignores refusals and stops at an error. *)
Fixpoint define_each (H : ObjectHeap) (h : ObjectHandle)
    (props : list (PropertyKey * PropertyDescriptor)) : ObjectHeap * result ObjectError unit :=
  match props with
  | [] => (H, Ok tt)
  | (k, d) :: props =>
      match define_property H h k d with
      | (H, Ok _) => define_each H h props
      | (H, Err e) => (H, Err e)
      end
  end.

Definition create_with_properties (H : ObjectHeap) (proto : option ObjectHandle)
    (props : list (PropertyKey * PropertyDescriptor)) : ObjectHeap * result ObjectError ObjectHandle :=
  let '(H, h) := alloc H proto in
  match define_each H h props with
  | (H, Ok _) => (H, Ok h)
  | (H, Err e) => (H, Err e)
  end.

Definition alloc_callable (H : ObjectHeap) (proto : option ObjectHandle) : ObjectHeap * ObjectHandle :=
  (push H (Ordinary (mkOrdinary proto true ∅ None true false)), next_handle H).

Definition alloc_constructor (H : ObjectHeap) (proto : option ObjectHandle) :
    ObjectHeap * ObjectHandle :=
  (push H (Ordinary (mkOrdinary proto true ∅ None true true)), next_handle H).

Fixpoint instance_walk (fuel : nat) (H : ObjectHeap) (proto_target : ObjectHandle)
    (visited : gset Z) (current : option ObjectHandle) : result ObjectError bool :=
  match current with
  | None => Ok false
  | Some h =>
      match fuel with
      | O => Err too_deep
      | S fuel =>
          if decide (h ∈ visited) then Err PrototypeCycleDetected
          else if h =? proto_target then Ok true
          else
            p ← get_prototype_of H h;
            instance_walk fuel H proto_target ({[h]} ∪ visited) p
      end
  end.

Definition instance_of (H : ObjectHeap) (obj proto_target : ObjectHandle) : result ObjectError bool :=
  p ← get_prototype_of H obj;
  instance_walk max_depth H proto_target {[obj]} p.

Definition spread_into (H : ObjectHeap) (h source : ObjectHandle) :
    ObjectHeap * result ObjectError unit :=
  match source_properties H "spread source cannot be proxy (handled by interpreter)" source with
  | Err e => (H, Err e)
  | Ok props => set_all H h props
  end.
End Heap.

(** ** The symbol registry *)

Record SymbolRegistry := mkSymbols {
  by_description : gmap string SymbolId;
  by_id : gmap SymbolId string }.

Module Symbols.
Definition well_knowns : list (WellKnownSymbol * string) :=
  [(WIterator, "Symbol.iterator"); (WToPrimitive, "Symbol.toPrimitive");
   (WHasInstance, "Symbol.hasInstance"); (WToStringTag, "Symbol.toStringTag");
   (WSpecies, "Symbol.species"); (WIsConcatSpreadable, "Symbol.isConcatSpreadable");
   (WUnscopables, "Symbol.unscopables"); (WAsyncIterator, "Symbol.asyncIterator");
   (WMatch, "Symbol.match"); (WMatchAll, "Symbol.matchAll"); (WReplace, "Symbol.replace");
   (WSearch, "Symbol.search"); (WSplit, "Symbol.split")].

Definition new : SymbolRegistry :=
  mkSymbols ∅ (fold_left (fun m '(s, desc) => <[WellKnown.id s := desc]> m) well_knowns ∅).

Definition symbol_for (r : SymbolRegistry) (key : string) (H : ObjectHeap) :
    SymbolRegistry * ObjectHeap * SymbolId :=
  match by_description r !! key with
  | Some id => (r, H, id)
  | None =>
      let '(H, id) := Heap.alloc_symbol H in
      (mkSymbols (<[key := id]> (by_description r)) (<[id := key]> (by_id r)), H, id)
  end.

Definition key_for (r : SymbolRegistry) (sym : SymbolId) : option string := by_id r !! sym.
End Symbols.

(** ** Checks of proxy traps *)

Module ProxyCheck.
Definition fail (message : string) : result ObjectError unit := Err (TypeError message).

(** Two non-configurable, non-writable data descriptors that differ in value. *)
Definition values_clash (a b : PropertyDescriptor) : bool :=
  match a, b with
  | Data av aw _ _, Data bv bw _ _ => negb aw && negb bw && negb (same_value av bv)
  | _, _ => false
  end.

Definition check_get_own_property (t : OrdinaryObject) (k : PropertyKey)
    (trap_result : option PropertyDescriptor) : result ObjectError unit :=
  let ks := key_string k in
  match trap_result, Obj.get_own_property t k with
  | None, Some td =>
      if negb (Desc.is_configurable td) then
        fail ("proxy getOwnPropertyDescriptor: cannot report non-configurable property '" +:+ ks +:+
              "' as non-existent")
      else if negb (extensible t) then
        fail ("proxy getOwnPropertyDescriptor: cannot report existing property '" +:+ ks +:+
              "' as non-existent on non-extensible target")
      else Ok tt
  | Some td, target_d =>
      if (match target_d with None => true | Some _ => false end) && negb (extensible t) then
        fail ("proxy getOwnPropertyDescriptor: cannot report property '" +:+ ks +:+
              "' as existent on non-extensible target")
      else if negb (Desc.is_configurable td) then
        match target_d with
        | Some existing =>
            if negb (Desc.is_configurable existing) then
              if values_clash td existing then
                fail ("proxy getOwnPropertyDescriptor: non-configurable non-writable property '" +:+
                      ks +:+ "' must have same value")
              else Ok tt
            else
              fail ("proxy getOwnPropertyDescriptor: cannot return non-configurable descriptor for property '"
                    +:+ ks +:+ "' when target property is configurable or absent")
        | None =>
            fail ("proxy getOwnPropertyDescriptor: cannot return non-configurable descriptor for property '"
                  +:+ ks +:+ "' when target property is configurable or absent")
        end
      else Ok tt
  | None, None => Ok tt
  end.

Definition check_has (t : OrdinaryObject) (k : PropertyKey) (trap_result : bool) :
    result ObjectError unit :=
  if negb trap_result then
    if match Obj.get_own_property t k with Some td => negb (Desc.is_configurable td) | None => false end
    then fail ("proxy has: cannot report non-configurable property '" +:+ key_string k +:+
               "' as non-existent")
    else if negb (extensible t) && Obj.has_own_property t k then
      fail ("proxy has: cannot report property '" +:+ key_string k +:+
            "' as non-existent on non-extensible target")
    else Ok tt
  else Ok tt.

Definition check_get (t : OrdinaryObject) (k : PropertyKey) (trap_result : JsValue) :
    result ObjectError unit :=
  match Obj.get_own_property t k with
  | Some (Data v false _ false) =>
      if negb (same_value trap_result v) then
        fail ("proxy get: non-configurable non-writable property '" +:+ key_string k +:+
              "' must return same value")
      else Ok tt
  | Some (Accessor None _ _ false) =>
      if negb (bool_decide (trap_result = JsUndefined)) then
        fail ("proxy get: non-configurable accessor property '" +:+ key_string k +:+
              "' with undefined getter must return undefined")
      else Ok tt
  | _ => Ok tt
  end.

Definition check_set (t : OrdinaryObject) (k : PropertyKey) (v : JsValue) (trap_result : bool) :
    result ObjectError unit :=
  if trap_result then
    match Obj.get_own_property t k with
    | Some (Data current false _ false) =>
        if negb (same_value v current) then
          fail ("proxy set: cannot set non-configurable non-writable property '" +:+ key_string k +:+
                "' to different value")
        else Ok tt
    | Some (Accessor _ None _ false) =>
        fail ("proxy set: cannot set non-configurable accessor property '" +:+ key_string k +:+
              "' with undefined setter")
    | _ => Ok tt
    end
  else Ok tt.

Definition check_delete (t : OrdinaryObject) (k : PropertyKey) (trap_result : bool) :
    result ObjectError unit :=
  if trap_result then
    match Obj.get_own_property t k with
    | Some td =>
        if negb (Desc.is_configurable td) then
          fail ("proxy deleteProperty: cannot delete non-configurable property '" +:+ key_string k +:+ "'")
        else if negb (extensible t) then
          fail ("proxy deleteProperty: cannot report existing property '" +:+ key_string k +:+
                "' as deleted on non-extensible target")
        else Ok tt
    | None => Ok tt
    end
  else Ok tt.

(** [for key in trap_result { if !seen.insert(key) { .. } }] *)
Fixpoint check_duplicates (seen : gset PropertyKey) (l : list PropertyKey) :
    result ObjectError (gset PropertyKey) :=
  match l with
  | [] => Ok seen
  | k :: l =>
      if decide (k ∈ seen)
      then Err (TypeError ("proxy ownKeys: duplicate key '" +:+ key_string k +:+ "'"))
      else check_duplicates ({[k]} ∪ seen) l
  end.

Definition check_own_keys (t : OrdinaryObject) (trap_result : list PropertyKey) :
    result ObjectError unit :=
  seen ← check_duplicates ∅ trap_result;
  _ ← match find (fun '(k, d) => negb (Desc.is_configurable d) && negb (bool_decide (k ∈ seen)))
              (sorted_entries (properties t)) with
      | Some (k, _) =>
          fail ("proxy ownKeys: must include non-configurable property '" +:+ key_string k +:+ "'")
      | None => Ok tt
      end;
  if negb (extensible t) then
    if negb (bool_decide (dom (properties t) = (list_to_set trap_result : gset PropertyKey)))
    then fail "proxy ownKeys: non-extensible target requires exact key set"
    else Ok tt
  else Ok tt.

Definition check_get_prototype_of (t : OrdinaryObject) (trap_result : option ObjectHandle) :
    result ObjectError unit :=
  if negb (extensible t) && negb (bool_decide (trap_result = prototype t))
  then fail "proxy getPrototypeOf: non-extensible target must return same prototype" else Ok tt.

Definition check_set_prototype_of (t : OrdinaryObject) (new_proto : option ObjectHandle)
    (trap_result : bool) : result ObjectError unit :=
  if trap_result && negb (extensible t) && negb (bool_decide (new_proto = prototype t))
  then fail "proxy setPrototypeOf: non-extensible target can only set to current prototype" else Ok tt.

Definition check_is_extensible (t : OrdinaryObject) (trap_result : bool) : result ObjectError unit :=
  if negb (Bool.eqb trap_result (extensible t))
  then fail "proxy isExtensible: must match target extensibility" else Ok tt.

Definition check_prevent_extensions (t : OrdinaryObject) (trap_result : bool) :
    result ObjectError unit :=
  if trap_result && extensible t
  then fail "proxy preventExtensions: cannot return true when target is still extensible" else Ok tt.

Definition check_define_own_property (t : OrdinaryObject) (k : PropertyKey)
    (desc : PropertyDescriptor) (trap_result : bool) : result ObjectError unit :=
  if trap_result then
    if negb (Obj.has_own_property t k) && negb (extensible t) then
      fail ("proxy defineProperty: cannot add property '" +:+ key_string k +:+
            "' to non-extensible target")
    else if negb (Desc.is_configurable desc) then
      match Obj.get_own_property t k with
      | Some td =>
          if negb (Desc.is_configurable td) then
            if values_clash desc td then
              fail ("proxy defineProperty: cannot change value of non-configurable non-writable property '"
                    +:+ key_string k +:+ "'")
            else Ok tt
          else
            fail ("proxy defineProperty: cannot define non-configurable property '" +:+ key_string k +:+
                  "' when target property is configurable or absent")
      | None =>
          fail ("proxy defineProperty: cannot define non-configurable property '" +:+ key_string k +:+
                "' when target property is configurable or absent")
      end
    else Ok tt
  else Ok tt.
End ProxyCheck.

(** ** Reflect

    Most methods delegate to the heap; the last two make requests for the
    interpreter. *)

Record ReflectApplyRequest := mkApply {
  ap_target : ObjectHandle;
  this_arg : JsValue;
  ap_arguments : list JsValue }.

Record ReflectConstructRequest := mkConstruct {
  co_target : ObjectHandle;
  co_arguments : list JsValue;
  new_target : ObjectHandle }.

Module Reflect.
Definition get (H : ObjectHeap) (t : ObjectHandle) (k : PropertyKey) : result ObjectError JsValue :=
  Heap.get_property H t k.
Definition set (H : ObjectHeap) (t : ObjectHandle) (k : PropertyKey) (v : JsValue) :
    ObjectHeap * result ObjectError bool :=
  Heap.set_property H t k v.
Definition has (H : ObjectHeap) (t : ObjectHandle) (k : PropertyKey) : result ObjectError bool :=
  Heap.has_property H t k.
Definition delete_property (H : ObjectHeap) (t : ObjectHandle) (k : PropertyKey) :
    ObjectHeap * result ObjectError bool :=
  Heap.delete_property H t k.
Definition get_prototype_of (H : ObjectHeap) (t : ObjectHandle) :
    result ObjectError (option ObjectHandle) :=
  Heap.get_prototype_of H t.
Definition set_prototype_of (H : ObjectHeap) (t : ObjectHandle) (proto : option ObjectHandle) :
    ObjectHeap * result ObjectError bool :=
  Heap.set_prototype_of H t proto.
Definition is_extensible (H : ObjectHeap) (t : ObjectHandle) : result ObjectError bool :=
  Heap.is_extensible H t.
Definition prevent_extensions (H : ObjectHeap) (t : ObjectHandle) :
    ObjectHeap * result ObjectError bool :=
  Heap.prevent_extensions H t.
Definition define_property (H : ObjectHeap) (t : ObjectHandle) (k : PropertyKey)
    (desc : PropertyDescriptor) : ObjectHeap * result ObjectError bool :=
  Heap.define_property H t k desc.
Definition get_own_property_descriptor (H : ObjectHeap) (t : ObjectHandle) (k : PropertyKey) :
    result ObjectError (option PropertyDescriptor) :=
  Heap.get_own_property_descriptor H t k.

Definition own_keys (H : ObjectHeap) (t : ObjectHandle) : result ObjectError (list PropertyKey) :=
  Heap.on_ordinary H t "proxy ownKeys trap must be handled by interpreter"
    (fun o => Ok (Obj.own_property_keys o)).

Definition apply (H : ObjectHeap) (t : ObjectHandle) (this : JsValue) (args : list JsValue) :
    result ObjectError ReflectApplyRequest :=
  obj ← Heap.get H t;
  match obj with
  | Ordinary o =>
      if negb (callable o) then Err (TypeError "Reflect.apply: target is not callable")
      else Ok (mkApply t this args)
  | ProxyObj _ => Ok (mkApply t this args)
  end.

Definition require_constructor (message : string) (obj : ManagedObject) : result ObjectError unit :=
  match obj with
  | Ordinary o => if negb (constructable o) then Err (TypeError message) else Ok tt
  | ProxyObj _ => Ok tt
  end.

Definition construct (H : ObjectHeap) (t : ObjectHandle) (args : list JsValue)
    (nt : option ObjectHandle) : result ObjectError ReflectConstructRequest :=
  obj ← Heap.get H t;
  _ ← require_constructor "Reflect.construct: target is not a constructor" obj;
  effective ← match nt with
              | Some nt =>
                  nt_obj ← Heap.get H nt;
                  _ ← require_constructor "Reflect.construct: newTarget is not a constructor" nt_obj;
                  Ok nt
              | None => Ok t
              end;
  Ok (mkConstruct t args effective).
End Reflect.
