(* ===== verification/ObjectCorrect.v ===== *)
(** * The invariants of ES2020 objects

    Whatever is done to the heap, an ordinary object keeps what the essential
    invariants of the internal methods promise: a non-extensible object gains no
    property and keeps its prototype, a non-configurable property stays with its
    kind and attributes, and a read-only one with its value.  A frozen object
    therefore never changes. *)
From stdpp Require Import base numbers list strings gmap relations sorting.
From S2P Require Import Prelude Bytes Text ObjectModel.
Open Scope string_scope.
Open Scope list_scope.
Open Scope Z_scope.

#[local] Opaque Heap.max_depth.

(** ** How descriptors and objects may evolve *)

(** What a non-configurable descriptor may become. *)
Definition desc_evolves (d d' : PropertyDescriptor) : Prop :=
  match d, d' with
  | Data v w e _, Data v' w' e' c' => c' = false /\ e' = e /\ (w = false -> w' = false /\ v' = v)
  | Accessor g s e _, Accessor g' s' e' c' => c' = false /\ e' = e /\ g' = g /\ s' = s
  | _, _ => False
  end.

Record obj_evolves (o o' : OrdinaryObject) : Prop := {
  ev_extensible : extensible o = false ->
    extensible o' = false /\ prototype o' = prototype o /\
    forall k, properties o !! k = None -> properties o' !! k = None;
  ev_fixed : forall k d, properties o !! k = Some d -> Desc.is_configurable d = false ->
    exists d', properties o' !! k = Some d' /\ desc_evolves d d';
  ev_class : class_tag o' = class_tag o /\ callable o' = callable o /\
    constructable o' = constructable o }.

Lemma desc_evolves_refl d : Desc.is_configurable d = false -> desc_evolves d d.
Proof. destruct d; simpl; tauto. Qed.

Lemma desc_evolves_trans d1 d2 d3 : desc_evolves d1 d2 -> desc_evolves d2 d3 -> desc_evolves d1 d3.
Proof.
  destruct d1 as [v1 w1 e1 c1|g1 s1 e1 c1], d2 as [v2 w2 e2 c2|g2 s2 e2 c2],
    d3 as [v3 w3 e3 c3|g3 s3 e3 c3]; simpl; try tauto.
  - intros (-> & -> & H1) (-> & -> & H2). split; [done|]. split; [done|]. intros Hw.
    destruct (H1 Hw) as [Hw2 ->]. by apply H2.
  - naive_solver.
Qed.

Lemma desc_evolves_fixed d d' : desc_evolves d d' -> Desc.is_configurable d' = false.
Proof. destruct d, d'; simpl; tauto. Qed.

#[export] Instance obj_evolves_preorder : PreOrder obj_evolves.
Proof.
  split.
  - intros o. split; [done| |done]. intros k d Hk Hc. exists d. split; [done|].
    by apply desc_evolves_refl.
  - intros o1 o2 o3 [E1 F1 C1] [E2 F2 C2]. split.
    + intros He. destruct (E1 He) as (He2 & Hp2 & Hn2). destruct (E2 He2) as (He3 & Hp3 & Hn3).
      split; [done|]. split; [congruence|]. auto.
    + intros k d Hk Hc. destruct (F1 _ _ Hk Hc) as (d2 & Hk2 & Hd2).
      destruct (F2 _ _ Hk2 (desc_evolves_fixed _ _ Hd2)) as (d3 & Hk3 & Hd3).
      exists d3. split; [done|]. by eapply desc_evolves_trans.
    + destruct C1 as (? & ? & ?), C2 as (? & ? & ?). split_and!; congruence.
Qed.

(** Writing one property. *)
Lemma insert_evolves o k d :
  (forall d0, properties o !! k = Some d0 -> Desc.is_configurable d0 = false -> desc_evolves d0 d) ->
  (properties o !! k = None -> extensible o = true) ->
  obj_evolves o (Obj.set_properties (<[k := d]> (properties o)) o).
Proof.
  intros Hd Hn. split; simpl; [| |done].
  - intros He. split; [done|]. split; [done|]. intros k' Hk'. rewrite lookup_insert_ne; [done|].
    intros <-. rewrite Hn in He by done. done.
  - intros k' d' Hk' Hc. destruct (decide (k = k')) as [<-|Hne].
    + exists d. rewrite lookup_insert_eq. split; [done|]. by apply Hd.
    + exists d'. rewrite lookup_insert_ne by done. split; [done|]. by apply desc_evolves_refl.
Qed.

Lemma compatible_evolves current desc :
  Desc.is_configurable current = false -> Obj.compatible current desc = true ->
  desc_evolves current desc.
Proof.
  unfold Obj.compatible. destruct current as [v w e c|g s e c], desc as [v' w' e' c'|g' s' e' c']; simpl;
    intros -> Hc; destruct c', e, e'; simpl in Hc; try done; try (destruct w, w'; simpl in Hc; try done);
    unfold same_value in Hc.
  all: try (apply bool_decide_eq_true in Hc); try (apply andb_true_iff in Hc as [H1 H2];
    apply bool_decide_eq_true in H1, H2); naive_solver.
Qed.

Lemma define_evolves o k desc : obj_evolves o (Obj.define_own_property o k desc).1.
Proof.
  unfold Obj.define_own_property. destruct (properties o !! k) as [current|] eqn:Hk.
  - destruct (Desc.is_configurable current) eqn:Hc; simpl.
    + apply insert_evolves; [congruence|congruence].
    + destruct (Obj.compatible current desc) eqn:Hcomp; simpl; [|reflexivity].
      apply insert_evolves; [|congruence]. intros d0 Hd0 _. assert (d0 = current) as -> by congruence.
      by apply compatible_evolves.
  - destruct (extensible o) eqn:He; simpl; [|reflexivity]. apply insert_evolves; congruence.
Qed.

Lemma delete_evolves o k : obj_evolves o (Obj.delete_ o k).1.
Proof.
  unfold Obj.delete_. destruct (properties o !! k) as [desc|] eqn:Hk; [|reflexivity].
  destruct (Desc.is_configurable desc) eqn:Hc; simpl; [|reflexivity]. split; simpl; [| |done].
  - intros He. split; [done|]. split; [done|]. intros k' Hk'.
    destruct (decide (k = k')) as [<-|Hne]; [apply lookup_delete_eq|by rewrite lookup_delete_ne].
  - intros k' d' Hk' Hc'. exists d'. rewrite lookup_delete_ne; [|congruence].
    split; [done|]. by apply desc_evolves_refl.
Qed.

(** Attributes taken away from all descriptors. *)
Lemma fmap_evolves o (f : PropertyDescriptor -> PropertyDescriptor) :
  (forall d, Desc.is_configurable d = false -> desc_evolves d (f d)) ->
  obj_evolves o (Obj.set_properties (f <$> properties o) (Obj.set_extensible false o)).
Proof.
  intros Hf. split; simpl; [| |done].
  - intros He. split; [done|]. split; [done|]. intros k Hk. by rewrite lookup_fmap, Hk.
  - intros k d Hk Hc. exists (f d). rewrite lookup_fmap, Hk. split; [done|]. by apply Hf.
Qed.

Lemma freeze_evolves o : obj_evolves o (Obj.freeze o).
Proof. apply fmap_evolves. intros [v w e c|g s e c]; simpl; naive_solver. Qed.

Lemma seal_evolves o : obj_evolves o (Obj.seal o).
Proof. apply fmap_evolves. intros [v w e c|g s e c]; simpl; naive_solver. Qed.

Lemma prevent_extensions_evolves o : obj_evolves o (Obj.prevent_extensions o).
Proof.
  split; simpl; [done| |done]. intros k d Hk Hc. exists d. split; [done|]. by apply desc_evolves_refl.
Qed.

Lemma set_prototype_evolves o p : extensible o = true -> obj_evolves o (Obj.set_prototype p o).
Proof.
  intros He. split; simpl; [congruence| |done]. intros k d Hk Hc. exists d.
  split; [done|]. by apply desc_evolves_refl.
Qed.

(** An assignment writes an own property only if it is writable. *)
Lemma write_own_evolves o k v :
  (forall d, properties o !! k = Some d -> Desc.is_writable d = true) ->
  obj_evolves o (Heap.write_own o k v).1.
Proof.
  intros Hw. unfold Heap.write_own. destruct (properties o !! k) as [[v0 w e c|g s e c]|] eqn:Hk; simpl.
  - apply insert_evolves; [|congruence]. intros d0 Hd0 Hc. specialize (Hw _ eq_refl). simpl in Hw.
    assert (d0 = Data v0 w e c) as -> by congruence. simpl in Hc |- *. subst. naive_solver.
  - reflexivity.
  - destruct (extensible o) eqn:He; simpl; [|reflexivity]. apply insert_evolves; congruence.
Qed.

(** ** The heap *)

Definition managed_evolves (m m' : ManagedObject) : Prop :=
  match m, m' with
  | Ordinary o, Ordinary o' => obj_evolves o o'
  | ProxyObj p, ProxyObj p' => p' = p \/ p' = Proxy.revoke p
  | _, _ => False
  end.

Definition heap_evolves (H H' : ObjectHeap) : Prop :=
  forall i m, objects H !! i = Some m -> exists m', objects H' !! i = Some m' /\ managed_evolves m m'.

Lemma managed_refl m : managed_evolves m m.
Proof. destruct m; simpl; [reflexivity|by left]. Qed.

Lemma managed_trans m1 m2 m3 : managed_evolves m1 m2 -> managed_evolves m2 m3 -> managed_evolves m1 m3.
Proof.
  destruct m1, m2, m3; simpl; try done; [apply transitivity|]. unfold Proxy.revoke. naive_solver.
Qed.

#[export] Instance heap_evolves_preorder : PreOrder heap_evolves.
Proof.
  split.
  - intros H i m Hi. exists m. split; [done|apply managed_refl].
  - intros H1 H2 H3 E1 E2 i m Hi. destruct (E1 _ _ Hi) as (m2 & Hi2 & Hm2).
    destruct (E2 _ _ Hi2) as (m3 & Hi3 & Hm3). exists m3. split; [done|]. by eapply managed_trans.
Qed.

Lemma heap_get_Ok H h m : Heap.get H h = Ok m <-> 0 <= h /\ objects H !! Z.to_nat h = Some m.
Proof.
  unfold Heap.get. rewrite ok_or_Ok. destruct (Z.ltb_spec h 0); [|naive_solver].
  split; [done|lia].
Qed.

Lemma put_objects_evolves H i m m' :
  objects H !! i = Some m -> managed_evolves m m' ->
  heap_evolves H (mkHeap (<[i := m']> (objects H)) (next_symbol H)).
Proof.
  intros Hi Hm j m0 Hj. simpl. destruct (decide (i = j)) as [<-|Hne].
  - exists m'. rewrite list_lookup_insert_eq by (by eapply lookup_lt_Some).
    split; [done|]. congruence.
  - exists m0. rewrite list_lookup_insert_ne by done. split; [done|apply managed_refl].
Qed.

Lemma update_evolves {A} H h message (f : OrdinaryObject -> OrdinaryObject * result ObjectError A) :
  (forall o, Heap.get H h = Ok (Ordinary o) -> obj_evolves o (f o).1) ->
  heap_evolves H (Heap.update_ordinary H h message f).1.
Proof.
  intros Hf. unfold Heap.update_ordinary. destruct (Heap.get H h) as [[o|p]|e] eqn:Hg; [|reflexivity..].
  specialize (Hf o eq_refl). destruct (f o) as [o' r]. simpl in *.
  apply heap_get_Ok in Hg as [_ Hg]. by eapply put_objects_evolves.
Qed.

Lemma push_evolves H m : heap_evolves H (Heap.push H m).
Proof.
  intros i m0 Hi. exists m0. simpl. split; [by apply lookup_app_l_Some|apply managed_refl].
Qed.

(** When the walk of an assignment lets it through, the receiver's own property
    is writable. *)
Lemma set_walk_writable fuel H h k o d :
  Heap.set_walk fuel H h k ∅ (Some h) = Ok None ->
  Heap.get H h = Ok (Ordinary o) -> properties o !! k = Some d -> Desc.is_writable d = true.
Proof.
  intros Hw Hg Hk. destruct fuel as [|fuel]; [done|]. simpl in Hw.
  rewrite decide_False, Hg in Hw by set_solver. simpl in Hw.
  unfold Obj.get_own_property in Hw. rewrite Hk, Z.eqb_refl in Hw. simpl in Hw.
  destruct (Desc.is_accessor d); [done|]. by destruct (Desc.is_writable d).
Qed.

Lemma set_property_evolves H h k v : heap_evolves H (Heap.set_property H h k v).1.
Proof.
  unfold Heap.set_property. destruct (Heap.set_walk _ _ _ _ _ _) as [[b|]|e] eqn:Hw; [reflexivity| |reflexivity].
  apply update_evolves. intros o Ho. apply write_own_evolves. intros d Hd.
  by eapply set_walk_writable.
Qed.

Lemma define_property_evolves H h k d : heap_evolves H (Heap.define_property H h k d).1.
Proof. apply update_evolves. intros o _. apply define_evolves. Qed.

Lemma delete_property_evolves H h k : heap_evolves H (Heap.delete_property H h k).1.
Proof.
  apply update_evolves. intros o _. pose proof (delete_evolves o k) as Hd.
  by destruct (Obj.delete_ o k).
Qed.

Lemma set_prototype_of_evolves H h p : heap_evolves H (Heap.set_prototype_of H h p).1.
Proof.
  unfold Heap.set_prototype_of. destruct (Heap.cycle_walk _ _ _ _); [|reflexivity].
  apply update_evolves. intros o _. destruct (extensible o) eqn:He; simpl; [|reflexivity].
  by apply set_prototype_evolves.
Qed.

Lemma prevent_property_evolves H h : heap_evolves H (Heap.prevent_extensions H h).1.
Proof. apply update_evolves. intros o _. apply prevent_extensions_evolves. Qed.

Lemma heap_freeze_evolves H h : heap_evolves H (Heap.freeze H h).1.
Proof. apply update_evolves. intros o _. apply freeze_evolves. Qed.

Lemma heap_seal_evolves H h : heap_evolves H (Heap.seal H h).1.
Proof. apply update_evolves. intros o _. apply seal_evolves. Qed.

Lemma revoke_evolves H h : heap_evolves H (Heap.revoke_proxy H h).1.
Proof.
  unfold Heap.revoke_proxy. destruct (Heap.get H h) as [[o|p]|e] eqn:Hg; [reflexivity| |reflexivity].
  apply heap_get_Ok in Hg as [_ Hg]. eapply put_objects_evolves; [done|by right].
Qed.

Create HintDb objects.
#[export] Hint Resolve push_evolves set_property_evolves define_property_evolves
  delete_property_evolves set_prototype_of_evolves prevent_property_evolves heap_freeze_evolves
  heap_seal_evolves revoke_evolves : objects.

Lemma define_properties_evolves H h ps : heap_evolves H (Heap.define_properties H h ps).1.
Proof.
  revert H. induction ps as [|[k d] ps IH]; intros H; simpl; [reflexivity|].
  pose proof (define_property_evolves H h k d) as Hd.
  destruct (Heap.define_property H h k d) as [H1 [[]|e]]; simpl in *; [|done..]. by etrans.
Qed.

Lemma set_all_evolves H h ps : heap_evolves H (Heap.set_all H h ps).1.
Proof.
  revert H. induction ps as [|[k v] ps IH]; intros H; simpl; [reflexivity|].
  pose proof (set_property_evolves H h k v) as Hs.
  destruct (Heap.set_property H h k v) as [H1 [b|e]]; simpl in *; [|done]. by etrans.
Qed.

Lemma define_each_evolves H h ps : heap_evolves H (Heap.define_each H h ps).1.
Proof.
  revert H. induction ps as [|[k d] ps IH]; intros H; simpl; [reflexivity|].
  pose proof (define_property_evolves H h k d) as Hd.
  destruct (Heap.define_property H h k d) as [H1 [b|e]]; simpl in *; [|done]. by etrans.
Qed.

Lemma from_entries_evolves H es : heap_evolves H (Heap.from_entries H es).1.
Proof.
  unfold Heap.from_entries, Heap.alloc_plain, Heap.alloc. simpl.
  etrans; [apply (push_evolves H (Ordinary (Obj.with_prototype None)))|].
  generalize (Heap.push H (Ordinary (Obj.with_prototype None))). intros H0. revert H0.
  induction es as [|[s v] es IH]; intros H0; simpl; [reflexivity|].
  etrans; [apply set_property_evolves|apply IH].
Qed.

Lemma assign_evolves H h srcs : heap_evolves H (Heap.assign H h srcs).1.
Proof.
  unfold Heap.assign. destruct (Heap.collect_sources _ _ _); [apply set_all_evolves|reflexivity].
Qed.

Lemma spread_evolves H h src : heap_evolves H (Heap.spread_into H h src).1.
Proof.
  unfold Heap.spread_into. destruct (Heap.source_properties _ _ _); [apply set_all_evolves|reflexivity].
Qed.

Lemma create_with_evolves H p ps : heap_evolves H (Heap.create_with_properties H p ps).1.
Proof.
  unfold Heap.create_with_properties, Heap.alloc.
  pose proof (define_each_evolves (Heap.push H (Ordinary (Obj.with_prototype p))) (Heap.next_handle H) ps) as Hd.
  destruct (Heap.define_each _ _ _) as [H1 [[]|e]]; simpl in *; (etrans; [apply push_evolves|exact Hd]).
Qed.

(** ** Sequences of operations *)

Inductive HeapOp :=
  | OpAlloc (proto : option ObjectHandle)
  | OpAllocCallable (proto : option ObjectHandle)
  | OpAllocConstructor (proto : option ObjectHandle)
  | OpAllocProxy (target handler : ObjectHandle)
  | OpAllocSymbol
  | OpSet (h : ObjectHandle) (k : PropertyKey) (v : JsValue)
  | OpDefine (h : ObjectHandle) (k : PropertyKey) (d : PropertyDescriptor)
  | OpDefineAll (h : ObjectHandle) (ps : list (PropertyKey * PropertyDescriptor))
  | OpDelete (h : ObjectHandle) (k : PropertyKey)
  | OpSetPrototype (h : ObjectHandle) (p : option ObjectHandle)
  | OpPreventExtensions (h : ObjectHandle)
  | OpFreeze (h : ObjectHandle)
  | OpSeal (h : ObjectHandle)
  | OpAssign (h : ObjectHandle) (sources : list ObjectHandle)
  | OpSpread (h source : ObjectHandle)
  | OpFromEntries (es : list (string * JsValue))
  | OpCreateWith (proto : option ObjectHandle) (ps : list (PropertyKey * PropertyDescriptor))
  | OpRevoke (h : ObjectHandle).

Definition heap_op (H : ObjectHeap) (op : HeapOp) : ObjectHeap :=
  match op with
  | OpAlloc p => (Heap.alloc H p).1
  | OpAllocCallable p => (Heap.alloc_callable H p).1
  | OpAllocConstructor p => (Heap.alloc_constructor H p).1
  | OpAllocProxy t h => (Heap.alloc_proxy H t h).1
  | OpAllocSymbol => (Heap.alloc_symbol H).1
  | OpSet h k v => (Heap.set_property H h k v).1
  | OpDefine h k d => (Heap.define_property H h k d).1
  | OpDefineAll h ps => (Heap.define_properties H h ps).1
  | OpDelete h k => (Heap.delete_property H h k).1
  | OpSetPrototype h p => (Heap.set_prototype_of H h p).1
  | OpPreventExtensions h => (Heap.prevent_extensions H h).1
  | OpFreeze h => (Heap.freeze H h).1
  | OpSeal h => (Heap.seal H h).1
  | OpAssign h srcs => (Heap.assign H h srcs).1
  | OpSpread h src => (Heap.spread_into H h src).1
  | OpFromEntries es => (Heap.from_entries H es).1
  | OpCreateWith p ps => (Heap.create_with_properties H p ps).1
  | OpRevoke h => (Heap.revoke_proxy H h).1
  end.

Definition heap_run (H : ObjectHeap) (ops : list HeapOp) : ObjectHeap := fold_left heap_op ops H.

#[export] Hint Resolve define_properties_evolves assign_evolves spread_evolves from_entries_evolves
  create_with_evolves : objects.

Lemma heap_op_evolves H op : heap_evolves H (heap_op H op).
Proof.
  destruct op; cbn [heap_op]; auto with objects; try apply push_evolves.
  intros i m Hi. exists m. split; [done|apply managed_refl].
Qed.

Lemma heap_run_evolves H ops : heap_evolves H (heap_run H ops).
Proof.
  unfold heap_run. revert H. induction ops as [|op ops IH]; intros H; simpl; [reflexivity|].
  etrans; [apply heap_op_evolves|apply IH].
Qed.

(** C34. Whatever sequence of heap operations runs, an ordinary object stays an ordinary
    object with the essential invariants of ES2020: once non-extensible it keeps its
    prototype and gains no property; a non-configurable property stays, with its kind and
    enumerability, an accessor with its functions and a read-only data property with its
    value; callable and constructable never change. *)
Theorem object_invariants_preserved H ops h o :
  Heap.get H h = Ok (Ordinary o) ->
  exists o', Heap.get (heap_run H ops) h = Ok (Ordinary o') /\
    (extensible o = false -> extensible o' = false /\ prototype o' = prototype o /\
       dom (properties o') ⊆ dom (properties o)) /\
    (forall k d, properties o !! k = Some d -> Desc.is_configurable d = false ->
       exists d', properties o' !! k = Some d' /\ desc_evolves d d') /\
    callable o' = callable o /\ constructable o' = constructable o.
Proof.
  intros [Hpos Hg]%heap_get_Ok. destruct (heap_run_evolves H ops _ _ Hg) as ([o'|p] & Hg' & Hev); [|done].
  simpl in Hev. exists o'. split; [by apply heap_get_Ok|]. destruct Hev as [He Hf (_ & Hc1 & Hc2)].
  split; [|done]. intros Hx. destruct (He Hx) as (H1 & H2 & H3). split; [done|]. split; [done|].
  intros k Hk. apply elem_of_dom in Hk. apply elem_of_dom.
  destruct (properties o !! k) eqn:Hn; [done|]. rewrite H3 in Hk by done. by destruct Hk.
Qed.

(** A frozen object has only read-only, non-configurable properties, each of
    which can only evolve to itself. *)
Lemma frozen_desc o k d :
  Obj.is_frozen o = true -> properties o !! k = Some d ->
  Desc.is_configurable d = false /\ forall d', desc_evolves d d' -> d' = d.
Proof.
  unfold Obj.is_frozen, Obj.all_descriptors. destruct (extensible o); [done|].
  rewrite forallb_forall. intros Hall Hk.
  assert (In d (sorted_values (properties o))) as Hin.
  { apply list_elem_of_In. unfold sorted_values. apply list_elem_of_fmap. exists (k, d).
    split; [done|]. by apply elem_of_sorted_entries. }
  specialize (Hall d Hin). destruct d as [v w e c|g s e c]; simpl in *; destruct c; try done.
  - destruct w; [done|]. split; [done|]. intros [v' w' e' c'|] Hd; [|done]. simpl in Hd. naive_solver.
  - split; [done|]. intros [|g' s' e' c'] Hd; [done|]. simpl in Hd. naive_solver.
Qed.

Lemma frozen_evolves o o' : Obj.is_frozen o = true -> obj_evolves o o' -> o' = o.
Proof.
  intros Hf [He Hfix (Ht & Hc1 & Hc2)].
  assert (extensible o = false) as Hext by (unfold Obj.is_frozen in Hf; by destruct (extensible o)).
  destruct (He Hext) as (He' & Hp & Hn). destruct o, o'. simpl in *. subst. f_equal.
  apply map_eq. intros k. destruct (properties !! k) as [d|] eqn:Hk; [|by apply Hn].
  destruct (frozen_desc _ k d Hf Hk) as [Hc Huniq].
  destruct (Hfix k d Hk Hc) as (d' & Hk' & Hd). rewrite Hk'. f_equal. by apply Huniq.
Qed.

(** An object for which Object.isFrozen answers true is never changed again by any
    sequence of heap operations, on it or on others. *)
Theorem frozen_object_immutable H ops h :
  Heap.is_frozen H h = Ok true -> Heap.get (heap_run H ops) h = Heap.get H h.
Proof.
  unfold Heap.is_frozen. intros (m & Hg & Hf)%bind_Ok. destruct m as [o|p]; [|done].
  injection Hf as Hf. rewrite Hg. apply heap_get_Ok in Hg as [Hpos Hg]. apply heap_get_Ok.
  split; [done|]. destruct (heap_run_evolves H ops _ _ Hg) as ([o'|p] & Hg' & Hev); [|done].
  simpl in Hev. by rewrite Hg', (frozen_evolves o o').
Qed.

(** Freezing freezes. *)
Lemma freeze_is_frozen o : Obj.is_frozen (Obj.freeze o) = true.
Proof.
  unfold Obj.is_frozen, Obj.all_descriptors. simpl. apply forallb_forall. intros d Hin%list_elem_of_In.
  unfold sorted_values in Hin. apply list_elem_of_fmap in Hin as ([k d'] & -> & Hin).
  apply elem_of_sorted_entries in Hin. simpl in *. rewrite lookup_fmap in Hin.
  destruct (properties o !! k) as [[]|]; by simplify_eq/=.
Qed.

Module Frozen.
Definition kx : PropertyKey := KString "x".
Definition H0 : ObjectHeap :=
  heap_run Heap.new [OpAlloc None; OpSet 0 kx (JsInt 1); OpDefine 0 (KString "g") (Accessor None None true true)].
Definition H1 : ObjectHeap := heap_op H0 (OpFreeze 0).
Definition attempts : list HeapOp :=
  [OpSet 0 kx (JsInt 2); OpDelete 0 kx; OpDefine 0 kx (Desc.data JsNull); OpSetPrototype 0 (Some 1);
   OpSet 0 (KString "new") JsNull; OpFromEntries [("x", JsInt 5)]; OpAssign 0 [1]].
End Frozen.

Lemma frozen_object_immutable_witness :
  Heap.get (heap_run Frozen.H1 Frozen.attempts) 0 = Heap.get Frozen.H1 0 /\
  Heap.get_property Frozen.H1 0 Frozen.kx = Ok (JsInt 1).
Proof.
  split; [|vm_compute; reflexivity].
  apply (frozen_object_immutable Frozen.H1 Frozen.attempts 0). vm_compute. reflexivity.
Defined.

Lemma object_invariants_preserved_witness :
  exists o', Heap.get (heap_run Frozen.H1 Frozen.attempts) 0 = Ok (Ordinary o') /\
    extensible o' = false.
Proof.
  assert (exists o, Heap.get Frozen.H1 0 = Ok (Ordinary o) /\ extensible o = false) as (o & Ho & He)
    by (eexists; split; [vm_compute; reflexivity|reflexivity]).
  destruct (object_invariants_preserved Frozen.H1 Frozen.attempts 0 o Ho) as (o' & Ho' & Hx & _).
  exists o'. split; [done|]. by apply Hx.
Defined.
