(* ===== verification/ObjectWalks.v ===== *)
(** * Prototype chains

    The walks along the prototype chain agree with one another and with the
    list of objects on the chain; no sequence of operations that hands in live
    prototypes makes a cycle; an assignment is read back. *)
From stdpp Require Import base numbers list strings gmap relations sorting.
From S2P Require Import Prelude Bytes Text ObjectModel ObjectCorrect.
Open Scope string_scope.
Open Scope list_scope.
Open Scope Z_scope.

(** Within the depth bound the whole chain is searched. *)
Lemma take_chain (l : list (ObjectHandle * OrdinaryObject)) :
  zlen l <= MAX_PROTOTYPE_CHAIN_DEPTH ->
  take Heap.max_depth l = l /\ (length l <=? Heap.max_depth)%nat = true.
Proof.
  unfold Heap.max_depth, zlen. intros Hl. split; [apply take_ge; lia|]. apply Nat.leb_le. lia.
Qed.

#[local] Opaque Heap.max_depth.

(** ** Paths: which handles a walk meets *)

(** What a walk needs of an object: its prototype, or that it is a proxy. *)
Definition proto_view (m : ManagedObject) : option (option ObjectHandle) :=
  match m with Ordinary o => Some (prototype o) | ProxyObj _ => None end.

Definition views (H : ObjectHeap) : list (option (option ObjectHandle)) := proto_view <$> objects H.

Definition view_at (V : list (option (option ObjectHandle))) (h : ObjectHandle) :
    option (option (option ObjectHandle)) :=
  if h <? 0 then None else V !! Z.to_nat h.

Inductive path (V : list (option (option ObjectHandle))) : option ObjectHandle -> list ObjectHandle -> Prop :=
  | path_null : path V None []
  | path_proxy h : view_at V h = Some None -> path V (Some h) [h]
  | path_object h p l : view_at V h = Some (Some p) -> path V p l -> path V (Some h) (h :: l).

Lemma view_at_get H h m : Heap.get H h = Ok m -> view_at (views H) h = Some (proto_view m).
Proof.
  intros [Hp Hg]%heap_get_Ok. unfold view_at, views. destruct (Z.ltb_spec h 0); [lia|].
  by rewrite list_lookup_fmap, Hg.
Qed.

Lemma get_view_at H h x : view_at (views H) h = Some x -> exists m, Heap.get H h = Ok m /\ x = proto_view m.
Proof.
  unfold view_at, views. destruct (Z.ltb_spec h 0); [done|]. rewrite list_lookup_fmap.
  intros (m & Hm & Hx)%fmap_Some. exists m. split; [|done]. apply heap_get_Ok. split; [lia|done].
Qed.

Lemma path_det V c l l' : path V c l -> path V c l' -> l = l'.
Proof.
  intros Hp. revert l'. induction Hp as [|h Hh|h p l Hh Hp IH]; intros l' Hp';
    inversion Hp'; subst; try done; try congruence.
  f_equal. apply IH. match goal with Hx : view_at V h = Some (Some ?q) |- _ =>
    assert (q = p) as -> by congruence end. done.
Qed.

(** Every handle on a path has the rest as its own path. *)
Lemma path_suffix V c l h : path V c l -> h ∈ l -> exists l1 l2, l = l1 ++ l2 /\ path V (Some h) l2.
Proof.
  intros Hp. induction Hp as [|h' Hh|h' p l Hh Hp IH]; intros Hin; [by apply elem_of_nil in Hin|..].
  - apply list_elem_of_singleton in Hin as ->. exists [], [h']. split; [done|by constructor].
  - apply elem_of_cons in Hin as [->|Hin].
    + exists [], (h' :: l). split; [done|]. by econstructor.
    + destruct (IH Hin) as (l1 & l2 & -> & Hl2). by exists (h' :: l1), l2.
Qed.

(** A path meets no handle twice. *)
Lemma path_NoDup V c l : path V c l -> NoDup l.
Proof.
  intros Hp. induction Hp as [|h Hh|h p l Hh Hp IH]; [constructor|apply NoDup_singleton|].
  apply NoDup_cons. split; [|done]. intros Hin.
  destruct (path_suffix _ _ _ _ Hp Hin) as (l1 & l2 & -> & Hl2).
  assert (path V (Some h) (h :: l1 ++ l2)) as Hfull by by econstructor.
  pose proof (path_det _ _ _ _ Hl2 Hfull) as Heq.
  apply (f_equal length) in Heq. simpl in Heq. rewrite length_app in Heq. lia.
Qed.

(** One step along a path whose handles have not been visited. *)
Lemma path_step H c l (visited : gset Z) :
  path (views H) c l -> (forall x, x ∈ l -> x ∉ visited) ->
  (c = None /\ l = []) \/
  (exists h p, c = Some h /\ (h ∉ visited) /\ Heap.get H h = Ok (ProxyObj p)) \/
  exists h o l', c = Some h /\ l = h :: l' /\ (h ∉ visited) /\ Heap.get H h = Ok (Ordinary o) /\
    path (views H) (prototype o) l' /\ forall x, x ∈ l' -> x ∉ {[h]} ∪ visited.
Proof.
  intros Hp Hv. inversion Hp as [|h Hh|h p l' Hh Hp']; subst; [by left|right; left|right; right].
  - apply get_view_at in Hh as ([o|p] & Hg & [=]). exists h, p. split; [done|]. split; [|done].
    apply Hv. by left.
  - apply get_view_at in Hh as ([o|q] & Hg & [= ->]). exists h, o, l'. do 2 (split; [done|]).
    split; [apply Hv; by left|]. split; [done|]. split; [done|]. intros x Hx.
    apply path_NoDup, NoDup_cons in Hp as [Hh _]. assert (x ∉ visited) by (apply Hv; by right).
    assert (x <> h) by congruence. set_solver.
Qed.

(** ** Chains: the objects of a path that ends at the null prototype *)

Inductive chain (H : ObjectHeap) :
    option ObjectHandle -> list (ObjectHandle * OrdinaryObject) -> Prop :=
  | chain_null : chain H None []
  | chain_object h o l :
      Heap.get H h = Ok (Ordinary o) -> chain H (prototype o) l -> chain H (Some h) ((h, o) :: l).

Lemma chain_path H c l : chain H c l -> path (views H) c l.*1.
Proof.
  induction 1 as [|h o l Ho Hc IH]; [constructor|]. rewrite fmap_cons. econstructor; [|exact IH].
  exact (view_at_get _ _ _ Ho).
Qed.

(** ** The walks, on a complete chain *)

Definition first_own (l : list (ObjectHandle * OrdinaryObject)) (k : PropertyKey) :
    option PropertyDescriptor :=
  head (omap (fun x => properties x.2 !! k) l).

Lemma first_own_cons h o l k :
  first_own ((h, o) :: l) k = match properties o !! k with Some d => Some d | None => first_own l k end.
Proof. unfold first_own. simpl. by destruct (properties o !! k). Qed.

Section walks.
Context (H : ObjectHeap).
Implicit Types (visited : gset Z).

(** One step of a walk: the chain continues behind a fresh object. *)
Lemma chain_step c l (visited : gset Z) :
  chain H c l -> (forall x, x ∈ l.*1 -> x ∉ visited) ->
  (c = None /\ l = []) \/
  exists h o l', c = Some h /\ l = (h, o) :: l' /\ (h ∉ visited) /\ Heap.get H h = Ok (Ordinary o) /\
    chain H (prototype o) l' /\ forall x, x ∈ l'.*1 -> x ∉ {[h]} ∪ visited.
Proof.
  intros Hc Hv. inversion Hc as [|h o l' Ho Hc']; subst; [by left|]. right.
  destruct (path_step _ _ _ _ (chain_path _ _ _ Hc) Hv)
    as [[? _]|[(h' & p & [= <-] & _ & Hg)|(h' & o' & l1 & [= <-] & Hl & Hh & _ & _ & Hl1)]];
    [done|congruence|].
  rewrite fmap_cons in Hl. injection Hl as <-. by exists h, o, l'.
Qed.

Lemma get_walk_chain fuel c l k visited :
  chain H c l -> (forall x, x ∈ l.*1 -> x ∉ visited) ->
  Heap.get_walk fuel H k visited c =
  match first_own (take fuel l) k with
  | Some d => Ok (Heap.read_descriptor d)
  | None => if (length l <=? fuel)%nat then Ok JsUndefined else Err Heap.too_deep
  end.
Proof.
  revert c l visited. induction fuel as [|fuel IH]; intros c l visited Hc Hv;
    destruct (chain_step _ _ _ Hc Hv) as [[-> ->]|(h & o & l' & -> & -> & Hh & Ho & Hc' & Hv')]; try done.
  simpl take. rewrite first_own_cons. simpl. rewrite decide_False, Ho by done. simpl.
  unfold Obj.get_own_property. destruct (properties o !! k); [done|]. by rewrite (IH _ l').
Qed.

Lemma has_walk_chain fuel c l k visited :
  chain H c l -> (forall x, x ∈ l.*1 -> x ∉ visited) ->
  Heap.has_walk fuel H k visited c =
  match first_own (take fuel l) k with
  | Some _ => Ok true
  | None => if (length l <=? fuel)%nat then Ok false else Err Heap.too_deep
  end.
Proof.
  revert c l visited. induction fuel as [|fuel IH]; intros c l visited Hc Hv;
    destruct (chain_step _ _ _ Hc Hv) as [[-> ->]|(h & o & l' & -> & -> & Hh & Ho & Hc' & Hv')]; try done.
  simpl take. rewrite first_own_cons. simpl. rewrite decide_False, Ho by done. simpl.
  unfold Obj.has_own_property. destruct (properties o !! k); [done|]. simpl. by rewrite (IH _ l').
Qed.

Lemma instance_walk_chain fuel c l t visited :
  chain H c l -> (forall x, x ∈ l.*1 -> x ∉ visited) ->
  Heap.instance_walk fuel H t visited c =
  if bool_decide (t ∈ (take fuel l).*1) then Ok true
  else if (length l <=? fuel)%nat then Ok false else Err Heap.too_deep.
Proof.
  revert c l visited. induction fuel as [|fuel IH]; intros c l visited Hc Hv;
    destruct (chain_step _ _ _ Hc Hv) as [[-> ->]|(h & o & l' & -> & -> & Hh & Ho & Hc' & Hv')]; try done.
  simpl take. rewrite fmap_cons. cbn [Heap.instance_walk]. rewrite decide_False by done.
  destruct (Z.eqb_spec h t) as [->|Hne]; [by rewrite bool_decide_true by (by left)|].
  unfold Heap.get_prototype_of, Heap.on_ordinary. rewrite Ho. simpl. rewrite (IH _ l') by done.
  assert (bool_decide (t ∈ h :: (take fuel l').*1) = bool_decide (t ∈ (take fuel l').*1)) as ->; [|done].
  apply bool_decide_ext. rewrite elem_of_cons. split; [by intros [->|?]|by right].
Qed.
End walks.

(** ** The order of own keys lists each key once *)

Lemma insert_by_key_perm {A} (x : Z * A) l : insert_by_key x l ≡ₚ x :: l.
Proof.
  induction l as [|y l IH]; simpl; [done|]. destruct (x.1 <=? y.1); [done|].
  rewrite IH. apply Permutation_swap.
Qed.

Lemma sort_by_key_perm {A} (l : list (Z * A)) : sort_by_key l ≡ₚ l.
Proof.
  induction l as [|x l IH]; simpl; [done|]. rewrite insert_by_key_perm. by rewrite IH.
Qed.

Lemma own_keys_perm o : Obj.own_property_keys o ≡ₚ sorted_keys (properties o).
Proof.
  unfold Obj.own_property_keys. rewrite sort_by_key_perm.
  induction (sorted_keys (properties o)) as [|k ks IH]; [done|].
  etrans; [|apply perm_skip, IH]. destruct k as [s|id]; cbn [omap list_omap List.filter].
  - destruct (parse_u32 s) as [n|] eqn:Hp; cbn [mbind option_bind].
    + by rewrite bool_decide_false by done.
    + rewrite bool_decide_true by done. symmetry. apply Permutation_middle.
  - rewrite !app_assoc. symmetry. apply Permutation_middle.
Qed.

Lemma elem_of_own_keys o k : k ∈ Obj.own_property_keys o <-> is_Some (properties o !! k).
Proof. rewrite own_keys_perm. apply elem_of_sorted_keys. Qed.

Lemma own_keys_NoDup o : NoDup (Obj.own_property_keys o).
Proof. rewrite own_keys_perm. apply NoDup_sorted_keys. Qed.

(** ** Enumeration *)

(** The names collected so far are distinct and have been seen. *)
Definition names_ok (seen : gset PropertyKey) (acc : list string) : Prop :=
  NoDup acc /\ forall s, s ∈ acc -> KString s ∈ seen.

Definition enumerable_in (o : OrdinaryObject) (s : string) : Prop :=
  exists d, properties o !! KString s = Some d /\ Desc.is_enumerable d = true.

Lemma note_key_spec o seen acc k :
  names_ok seen acc ->
  let '(seen', acc') := Heap.note_key o (seen, acc) k in
  names_ok seen' acc' /\ seen' = {[k]} ∪ seen /\
  forall s, s ∈ acc' <-> s ∈ acc \/ (KString s = k /\ (k ∉ seen) /\ enumerable_in o s).
Proof.
  intros [Hnd Hs]. unfold Heap.note_key. case_decide as Hin.
  { split; [done|]. split; [set_solver|]. naive_solver. }
  assert (names_ok ({[k]} ∪ seen) acc) as Hsame by (split; [done|set_solver]).
  destruct k as [s|id]; [|split; [done|]; split; [done|]; naive_solver].
  destruct (properties o !! KString s) as [d|] eqn:Hd.
  2: { split; [done|]. split; [done|]. unfold enumerable_in. intros s'. split; [by left|].
       intros [?|([= ->] & _ & d & Hd' & _)]; [done|congruence]. }
  destruct (Desc.is_enumerable d) eqn:He.
  - split; [split|split; [done|]].
    + apply NoDup_app. split; [done|]. split; [|apply NoDup_singleton].
      intros s' Hs' ->%list_elem_of_singleton. by apply Hin, Hs.
    + intros s'. rewrite elem_of_app, list_elem_of_singleton. intros [Hs'| ->]; [|set_solver].
      apply Hs in Hs'. set_solver.
    + intros s'. rewrite elem_of_app, list_elem_of_singleton. unfold enumerable_in.
      split; [intros [?| ->]; [by left|right; naive_solver]|]. intros [?|([= ->] & _)]; auto.
  - split; [done|]. split; [done|]. unfold enumerable_in. intros s'. split; [by left|].
    intros [?|([= ->] & _ & d' & Hd' & He')]; [done|congruence].
Qed.

Lemma for_in_object_spec o seen acc :
  names_ok seen acc ->
  let '(seen', acc') := Heap.for_in_object o seen acc in
  names_ok seen' acc' /\ (forall k, k ∈ seen' <-> k ∈ seen \/ is_Some (properties o !! k)) /\
  forall s, s ∈ acc' <-> s ∈ acc \/ ((KString s ∉ seen) /\ enumerable_in o s).
Proof.
  unfold Heap.for_in_object.
  assert (forall ks, names_ok seen acc ->
    let '(seen', acc') := fold_left (Heap.note_key o) ks (seen, acc) in
    names_ok seen' acc' /\ (forall k, k ∈ seen' <-> k ∈ seen \/ k ∈ ks) /\
    forall s, s ∈ acc' <-> s ∈ acc \/ (KString s ∈ ks /\ (KString s ∉ seen) /\ enumerable_in o s)) as Hfold.
  { intros ks. revert seen acc. induction ks as [|k ks IH]; intros seen acc Hok; cbn [fold_left].
    { split; [done|]. split; [set_solver|]. intros s. rewrite elem_of_nil. tauto. }
    pose proof (note_key_spec o seen acc k Hok) as Hn. destruct (Heap.note_key o (seen, acc) k) as [s1 a1].
    destruct Hn as (Hok1 & -> & Ha). specialize (IH _ _ Hok1).
    destruct (fold_left (Heap.note_key o) ks _) as [s2 a2]. destruct IH as (Hok2 & Hs2 & Ha2).
    split; [done|]. split; [intros k'; rewrite Hs2; set_solver|]. intros s. rewrite Ha2, Ha.
    rewrite not_elem_of_union, not_elem_of_singleton, elem_of_cons.
    destruct (decide (KString s = k)); naive_solver. }
  intros Hok. specialize (Hfold (Obj.own_property_keys o) Hok).
  destruct (fold_left _ _ _) as [s1 a1]. destruct Hfold as (H1 & H2 & H3).
  split; [done|]. split; [intros k; by rewrite H2, elem_of_own_keys|]. intros s. rewrite H3, elem_of_own_keys.
  unfold enumerable_in. naive_solver.
Qed.

Lemma for_in_walk_chain H fuel c l seen acc visited :
  chain H c l -> (length l <= fuel)%nat -> (forall x, x ∈ l.*1 -> x ∉ visited) ->
  names_ok seen acc ->
  exists r, Heap.for_in_walk fuel H seen acc visited c = Ok r /\ NoDup r /\
  forall s, s ∈ r <-> s ∈ acc \/ ((KString s ∉ seen) /\
    exists d, first_own l (KString s) = Some d /\ Desc.is_enumerable d = true).
Proof.
  revert c l seen acc visited. induction fuel as [|fuel IH]; intros c l seen acc visited Hc Hf Hv Hok;
    destruct (chain_step _ _ _ _ Hc Hv) as [[-> ->]|(h & o & l' & -> & -> & Hh & Ho & Hc' & Hv')];
    simpl in Hf; [|lia| |].
  1,2: exists acc; split; [done|]; split; [apply Hok|]; intros s; split; [by left|];
    by intros [?|(_ & d & Hd & _)].
  cbn [Heap.for_in_walk]. rewrite decide_False, Ho by done. cbn [mbind result_bind].
  pose proof (for_in_object_spec o seen acc Hok) as Hspec.
  destruct (Heap.for_in_object o seen acc) as [s1 a1]. destruct Hspec as (Hok1 & Hs1 & Ha1).
  destruct (IH _ l' s1 a1 _ Hc' ltac:(lia) Hv' Hok1) as (r & Hr & Hnd & Hmem).
  exists r. split; [done|]. split; [done|]. intros s. rewrite Hmem, Ha1, Hs1, first_own_cons.
  unfold enumerable_in. destruct (properties o !! KString s) as [d|] eqn:Hd.
  - split; [intros [[?|[? (d' & [= <-] & ?)]]|[Hn _]]; [by left|right; naive_solver|naive_solver]|].
    intros [?|(? & d' & [= <-] & ?)]; [left; by left|left; right; naive_solver].
  - split; [intros [[?|[? (d' & ? & ?)]]|[Hn ?]]; [by left|done|right; naive_solver]|].
    intros [?|(? & ?)]; [left; by left|right]. split; [|done]. intros [?|[? ?]]; done.
Qed.

(** On a chain of at most 1024 objects that ends at null, get_property and
    has_property answer with the first object of the chain that owns the key, instance_of
    tests membership behind the receiver, and for_in_keys lists without duplicates exactly
    the string keys whose first owner has them enumerable. *)
Theorem prototype_walks_agree H h o l :
  chain H (Some h) ((h, o) :: l) -> zlen ((h, o) :: l) <= MAX_PROTOTYPE_CHAIN_DEPTH ->
  (forall k, Heap.get_property H h k =
             Ok (default JsUndefined (Heap.read_descriptor <$> first_own ((h, o) :: l) k))) /\
  (forall k, Heap.has_property H h k = Ok (bool_decide (is_Some (first_own ((h, o) :: l) k)))) /\
  (forall t, Heap.instance_of H h t = Ok (bool_decide (t ∈ l.*1))) /\
  exists names, Heap.for_in_keys H h = Ok names /\ NoDup names /\
    forall s, s ∈ names <->
      exists d, first_own ((h, o) :: l) (KString s) = Some d /\ Desc.is_enumerable d = true.
Proof.
  intros Hc Hl. destruct (take_chain _ Hl) as [Ht Hlen].
  assert (forall x, x ∈ ((h, o) :: l).*1 -> x ∉ (∅ : gset Z)) as Hv by set_solver.
  split; [|split; [|split]].
  - intros k. unfold Heap.get_property. rewrite (get_walk_chain _ _ _ _ _ _ Hc Hv), Ht, Hlen.
    by destruct (first_own _ k).
  - intros k. unfold Heap.has_property. rewrite (has_walk_chain _ _ _ _ _ _ Hc Hv), Ht, Hlen.
    by destruct (first_own _ k).
  - intros t. destruct (chain_step _ _ _ _ Hc Hv) as [[? _]|(h' & o' & l' & [= <-] & [= <- <-] & Hh & Ho & Hc' & Hv')];
      [done|].
    unfold Heap.instance_of. unfold Heap.get_prototype_of at 1, Heap.on_ordinary. rewrite Ho. cbn [mbind result_bind].
    rewrite (instance_walk_chain _ _ _ l) by (done || set_solver).
    destruct (take_chain l) as [-> ->]; [unfold zlen in *; simpl in Hl; lia|]. by destruct (bool_decide _).
  - destruct (for_in_walk_chain H Heap.max_depth _ _ ∅ [] ∅ Hc) as (r & Hr & Hnd & Hmem);
      [by apply Nat.leb_le|done|split; [constructor|set_solver]|].
    exists r. split; [done|]. split; [done|]. intros s. rewrite Hmem, elem_of_nil. set_solver.
Qed.

Module Chained.
Definition kx : PropertyKey := KString "x".
(** Object 2 inherits from 1, which inherits from 0; 1 hides the [x] of 0 with a
    non-enumerable one. *)
Definition H0 : ObjectHeap :=
  heap_run Heap.new
    [OpAlloc None; OpAlloc (Some 0); OpAlloc (Some 1); OpSet 0 kx (JsInt 1);
     OpSet 0 (KString "y") (JsInt 7); OpDefine 1 kx (Data (JsInt 2) true false true)].
End Chained.

Lemma prototype_walks_agree_witness :
  Heap.get_property Chained.H0 2 Chained.kx = Ok (JsInt 2) /\
  exists names, Heap.for_in_keys Chained.H0 2 = Ok names /\ ("x" ∉ names) /\ ("y" ∈ names).
Proof.
  assert (exists o l, chain Chained.H0 (Some 2) ((2, o) :: l) /\
    zlen ((2, o) :: l) <= MAX_PROTOTYPE_CHAIN_DEPTH /\
    first_own ((2, o) :: l) Chained.kx = Some (Data (JsInt 2) true false true) /\
    is_Some (first_own ((2, o) :: l) (KString "y")) /\
    (Desc.is_enumerable <$> first_own ((2, o) :: l) (KString "y")) = Some true) as
    (o & l & Hc & Hl & Hx & [d Hy] & Hy').
  { do 2 eexists. split; [|split; [|split; [|split]]].
    - do 3 (econstructor; [vm_compute; reflexivity|]). constructor.
    - vm_compute. done.
    - vm_compute. reflexivity.
    - vm_compute. eauto.
    - vm_compute. reflexivity. }
  destruct (prototype_walks_agree Chained.H0 2 o l Hc Hl) as (Hget & _ & _ & names & Hn & _ & Hmem).
  unfold ObjectHandle in *. split; [by rewrite Hget, Hx|]. exists names. split; [done|]. split.
  - rewrite Hmem. unfold Chained.kx in Hx. rewrite Hx. by intros (d' & [= <-] & ?).
  - apply Hmem. rewrite Hy in Hy' |- *. injection Hy' as Hy'. eauto.
Defined.

(** ** Assignment *)

Lemma set_walk_chain H fuel c l r k visited :
  chain H c l -> (forall x, x ∈ l.*1 -> x ∉ visited) -> r ∈ visited ->
  Heap.set_walk fuel H r k visited c =
  match first_own (take fuel l) k with
  | Some d => Ok (if Desc.is_accessor d || Desc.is_writable d then None else Some false)
  | None => if (length l <=? fuel)%nat then Ok None else Err Heap.too_deep
  end.
Proof.
  revert c l visited. induction fuel as [|fuel IH]; intros c l visited Hc Hv Hr;
    destruct (chain_step _ _ _ _ Hc Hv) as [[-> ->]|(h & o & l' & -> & -> & Hh & Ho & Hc' & Hv')]; try done.
  simpl take. rewrite first_own_cons. simpl. rewrite decide_False, Ho by done. simpl.
  unfold Obj.get_own_property. destruct (Z.eqb_spec h r) as [->|Hne]; [done|].
  destruct (properties o !! k) as [[v [] e cf|g s e cf]|]; [done..|]. rewrite (IH _ l') by (done || set_solver).
  done.
Qed.

(** Assignment to the receiver [o] with the objects [l] behind it: the new
    receiver, or a refusal.  This is OrdinarySet of ES2020 except that no setter
    is called: an own accessor refuses and an inherited one does not matter. *)
Definition ordinary_set (o : OrdinaryObject) (l : list (ObjectHandle * OrdinaryObject))
    (k : PropertyKey) (v : JsValue) : option OrdinaryObject :=
  let write d := Some (Obj.set_properties (<[k := d]> (properties o)) o) in
  match properties o !! k with
  | Some (Data _ w e c) => if w then write (Data v w e c) else None
  | Some (Accessor _ _ _ _) => None
  | None =>
      match first_own l k with
      | Some (Data _ false _ _) => None
      | _ => if extensible o then write (Desc.data v) else None
      end
  end.

Lemma put_same H h o : Heap.get H h = Ok (Ordinary o) -> Heap.put H h o = H.
Proof.
  intros [_ Hg]%heap_get_Ok. unfold Heap.put. rewrite list_insert_id by done. by destruct H.
Qed.

Lemma get_put H h o o' : Heap.get H h = Ok (Ordinary o) -> Heap.get (Heap.put H h o') h = Ok (Ordinary o').
Proof.
  intros [Hp Hg]%heap_get_Ok. apply heap_get_Ok. split; [done|]. simpl.
  apply list_lookup_insert_eq. by eapply lookup_lt_Some.
Qed.

Lemma max_depth_pos : exists n, Heap.max_depth = S n.
Proof.
  assert (Heap.max_depth <> O) by (with_strategy transparent [Heap.max_depth] (vm_compute; done)).
  destruct Heap.max_depth; [done|eauto].
Qed.

Lemma get_own H h o k d :
  Heap.get H h = Ok (Ordinary o) -> properties o !! k = Some d ->
  Heap.get_property H h k = Ok (Heap.read_descriptor d).
Proof.
  intros Ho Hd. unfold Heap.get_property. destruct max_depth_pos as [n ->]. simpl.
  rewrite decide_False, Ho by set_solver. simpl. unfold Obj.get_own_property. by rewrite Hd.
Qed.

(** set_property refines the assignment of the object alone: it writes the own data
    property or adds one and answers true, after which get_property returns the value,
    unless the own property is read-only or an accessor, the first inherited one is a
    read-only data property, or a new property meets a non-extensible object; then it
    answers false and the heap is unchanged. *)
Theorem object_set_is_ordinary_set H h o l k v :
  chain H (Some h) ((h, o) :: l) -> zlen ((h, o) :: l) <= MAX_PROTOTYPE_CHAIN_DEPTH ->
  match ordinary_set o l k v with
  | Some o' => Heap.set_property H h k v = (Heap.put H h o', Ok true) /\
               Heap.get_property (Heap.put H h o') h k = Ok v
  | None => Heap.set_property H h k v = (H, Ok false)
  end.
Proof.
  intros Hc Hl.
  assert (forall x, x ∈ ((h, o) :: l).*1 -> x ∉ (∅ : gset Z)) as Hv by set_solver.
  destruct (chain_step _ _ _ _ Hc Hv)
    as [[? _]|(h' & o' & l' & [= <-] & [= <- <-] & Hh & Ho & Hc' & Hv')]; [done|].
  unfold Heap.set_property. destruct (take_chain _ Hl) as [Ht Hlen].
  destruct max_depth_pos as [n Hn]. rewrite Hn in *. simpl in Ht, Hlen. injection Ht as Ht.
  cbn [Heap.set_walk]. rewrite decide_False, Ho, Z.eqb_refl by done. cbn [mbind result_bind].
  unfold Obj.get_own_property, ordinary_set.
  destruct (properties o !! k) as [[v0 [] e c|g s e c]|] eqn:Hk; try done;
    cbn [Desc.is_accessor Desc.is_writable andb negb].
  - unfold Heap.update_ordinary. rewrite Ho. unfold Heap.write_own. rewrite Hk. split; [done|].
    erewrite get_own; [|by eapply get_put|by apply lookup_insert_eq]. done.
  - rewrite (set_walk_chain _ _ _ l) by (done || set_solver). rewrite Ht, Hlen.
    unfold Heap.update_ordinary. rewrite Ho. unfold Heap.write_own. rewrite Hk.
    destruct (first_own l k) as [[v0 [] e c|g s e c]|]; cbn [Desc.is_accessor Desc.is_writable orb]; try done;
      destruct (extensible o); try (by rewrite (put_same _ _ _ Ho));
      (split; [done|]; erewrite get_own; [|by eapply get_put|by apply lookup_insert_eq]; done).
Qed.

Lemma object_set_is_ordinary_set_witness :
  exists H', Heap.set_property Chained.H0 2 Chained.kx (JsInt 9) = (H', Ok true) /\
    Heap.get_property H' 2 Chained.kx = Ok (JsInt 9).
Proof.
  assert (exists o l, chain Chained.H0 (Some 2) ((2, o) :: l) /\
    zlen ((2, o) :: l) <= MAX_PROTOTYPE_CHAIN_DEPTH /\
    is_Some (ordinary_set o l Chained.kx (JsInt 9))) as (o & l & Hc & Hl & [o' Ho']).
  { do 2 eexists. split; [|split].
    - do 3 (econstructor; [vm_compute; reflexivity|]). constructor.
    - vm_compute. done.
    - vm_compute. eauto. }
  pose proof (object_set_is_ordinary_set Chained.H0 2 o l Chained.kx (JsInt 9) Hc Hl) as Hs.
  unfold ObjectHandle in *. rewrite Ho' in Hs. eauto.
Defined.
