(* ===== verification/ObjectCycles.v ===== *)
(** * No prototype cycles

    Objects are allocated with a live prototype and [set_prototype_of] walks the
    new chain first, so every chain ends; the walks then never report a cycle,
    and [set_prototype_of] reports one only when the object is on the chain. *)
From stdpp Require Import base numbers list strings gmap relations sorting.
From S2P Require Import Prelude Bytes Text ObjectModel ObjectCorrect ObjectWalks.
Open Scope string_scope.
Open Scope list_scope.
Open Scope Z_scope.

#[local] Opaque Heap.max_depth.

(** ** Every chain ends *)

Definition grounded (V : list (option (option ObjectHandle))) : Prop :=
  forall h x, view_at V h = Some x -> exists l, path V (Some h) l.

Lemma view_at_app V W h x : view_at V h = Some x -> view_at (V ++ W) h = Some x.
Proof. unfold view_at. destruct (h <? 0); [done|]. by apply lookup_app_l_Some. Qed.

Lemma path_app V W c l : path V c l -> path (V ++ W) c l.
Proof. induction 1; econstructor; eauto using view_at_app. Qed.

Lemma view_at_snoc V x h y :
  view_at (V ++ [x]) h = Some y -> view_at V h = Some y \/ (0 <= h /\ Z.to_nat h = length V /\ y = x).
Proof.
  unfold view_at. destruct (Z.ltb_spec h 0); [done|]. intros [Hl|[Hl Hx]]%lookup_app_Some; [by left|right].
  apply list_lookup_singleton_Some in Hx as [Hn ->]. split; [done|]. split; [lia|done].
Qed.

Lemma grounded_snoc V x :
  grounded V ->
  (forall p, x = Some (Some p) -> is_Some (view_at V p)) -> grounded (V ++ [x]).
Proof.
  intros Hg Hx h y Hy. destruct (view_at_snoc _ _ _ _ Hy) as [Hy'|(_ & _ & ->)].
  { destruct (Hg _ _ Hy') as [l Hl]. exists l. by apply path_app. }
  destruct x as [[p|]|].
  - destruct (Hx p eq_refl) as [z Hz]. destruct (Hg _ _ Hz) as [l Hl].
    exists (h :: l). econstructor; [done|]. by apply path_app.
  - exists [h]. econstructor; [done|constructor].
  - exists [h]. by constructor.
Qed.

Lemma view_at_insert_eq V h p : is_Some (view_at V h) -> view_at (<[Z.to_nat h := p]> V) h = Some p.
Proof.
  unfold view_at. destruct (Z.ltb_spec h 0); [by intros []|]. intros [x Hx].
  apply list_lookup_insert_eq. by eapply lookup_lt_Some.
Qed.

Lemma view_at_insert_ne V h p h' :
  0 <= h -> h <> h' -> view_at (<[Z.to_nat h := p]> V) h' = view_at V h'.
Proof.
  unfold view_at. destruct (Z.ltb_spec h' 0); [done|]. intros. rewrite list_lookup_insert_ne by lia. done.
Qed.

(** A path that avoids [h] is not affected by a new prototype of [h]. *)
Lemma path_avoids V h x c l : 0 <= h -> path V c l -> h ∉ l -> path (<[Z.to_nat h := x]> V) c l.
Proof.
  intros Hpos. induction 1 as [|h' Hh|h' p l Hh Hp IH]; intros Hn; [constructor|..].
  - constructor. rewrite view_at_insert_ne; [done|done|set_solver].
  - apply not_elem_of_cons in Hn as [Hne Hn]. econstructor; [|by apply IH].
    by rewrite view_at_insert_ne.
Qed.

Lemma path_exists_insert V h x c l l0 :
  0 <= h -> path V c l -> path (<[Z.to_nat h := x]> V) (Some h) l0 ->
  exists l', path (<[Z.to_nat h := x]> V) c l'.
Proof.
  intros Hpos Hp Hh. induction Hp as [|h' Hh'|h' p l Hh' Hp IH]; [by exists []; constructor|..].
  - destruct (decide (h = h')) as [<-|Hne]; [by exists l0|]. exists [h']. constructor.
    by rewrite view_at_insert_ne.
  - destruct (decide (h = h')) as [<-|Hne]; [by exists l0|]. destruct IH as [l' Hl'].
    exists (h' :: l'). econstructor; [|done]. by rewrite view_at_insert_ne.
Qed.

Lemma grounded_set_prototype V h p l :
  grounded V -> is_Some (view_at V h) -> path V p l -> h ∉ l ->
  grounded (<[Z.to_nat h := Some p]> V).
Proof.
  intros Hg Hh Hp Hn h' y Hy.
  assert (0 <= h) as Hpos by (unfold view_at in Hh; destruct (Z.ltb_spec h 0); [by destruct Hh|done]).
  assert (path (<[Z.to_nat h := Some p]> V) (Some h) (h :: l)) as Hnew.
  { econstructor; [by apply view_at_insert_eq|]. by apply path_avoids. }
  destruct (decide (h = h')) as [<-|Hne]; [by eexists|].
  rewrite view_at_insert_ne in Hy by done. destruct (Hg _ _ Hy) as [l' Hl'].
  by eapply path_exists_insert.
Qed.

(** ** The cycle check *)

(** The check passes only along a path that avoids what it started with. *)
Lemma cycle_walk_path fuel H visited c :
  Heap.cycle_walk fuel H visited c = Ok tt ->
  exists l, path (views H) c l /\ forall x, x ∈ l -> x ∉ visited.
Proof.
  revert visited c. induction fuel as [|fuel IH]; intros visited [h|] Hw; simpl in Hw; try done.
  1,3: exists []; split; [constructor|set_solver].
  case_decide as Hin; [done|]. apply bind_Ok in Hw as ([o|p] & Hg & Hw).
  - destruct (IH _ _ Hw) as (l & Hl & Hv). exists (h :: l). split.
    + econstructor; [|exact Hl]. exact (view_at_get _ _ _ Hg).
    + intros x [->|Hx]%elem_of_cons; [done|]. apply Hv in Hx. set_solver.
  - exists [h]. split; [constructor; exact (view_at_get _ _ _ Hg)|]. set_solver.
Qed.

(** It reports a cycle only for a handle it started with. *)
Lemma cycle_walk_genuine fuel H visited c l :
  path (views H) c l -> Heap.cycle_walk fuel H visited c = Err PrototypeCycleDetected ->
  exists x, x ∈ l /\ x ∈ visited.
Proof.
  intros Hp. destruct (decide (Exists (fun x => x ∈ visited) l)) as [Hex|Hex].
  { intros _. by apply Exists_exists in Hex. }
  assert (forall x, x ∈ l -> x ∉ visited) as Hv.
  { intros x Hx Hin. apply Hex, Exists_exists. by exists x. }
  clear Hex. intros Hw. exfalso. revert visited c l Hp Hv Hw.
  induction fuel as [|fuel IH]; intros visited c l Hp Hv;
    destruct (path_step _ _ _ _ Hp Hv)
      as [[-> ->]|[(h & p & -> & Hh & Hg)|(h & o & l' & -> & -> & Hh & Hg & Hp' & Hv')]]; try done;
    simpl; rewrite decide_False, Hg by done; simpl; [done|]. by apply (IH _ _ l').
Qed.

(** ** The walks never meet a cycle *)

(** One step of a walk along an unvisited path, in the three cases. *)
Ltac walk_step IH Hp Hv :=
  destruct (path_step _ _ _ _ Hp Hv)
    as [[-> ->]|[(h & p & -> & Hh & Hg)|(h & o & l' & -> & -> & Hh & Hg & Hp' & Hv')]];
  try done; cbn -[Heap.for_in_object]; rewrite decide_False by done;
  unfold Heap.get_prototype_of, Heap.on_ordinary; rewrite ?Hg; cbn -[Heap.for_in_object]; try done.

Section walks.
Context (H : ObjectHeap).

Lemma get_walk_no_cycle fuel c l k visited :
  path (views H) c l -> (forall x, x ∈ l -> x ∉ visited) ->
  Heap.get_walk fuel H k visited c <> Err PrototypeCycleDetected.
Proof.
  revert visited c l. induction fuel as [|fuel IH]; intros visited c l Hp Hv; walk_step IH Hp Hv.
  destruct (Obj.get_own_property o k); [done|]. by apply (IH _ _ l').
Qed.

Lemma has_walk_no_cycle fuel c l k visited :
  path (views H) c l -> (forall x, x ∈ l -> x ∉ visited) ->
  Heap.has_walk fuel H k visited c <> Err PrototypeCycleDetected.
Proof.
  revert visited c l. induction fuel as [|fuel IH]; intros visited c l Hp Hv; walk_step IH Hp Hv.
  destruct (Obj.has_own_property o k); [done|]. by apply (IH _ _ l').
Qed.

Lemma set_walk_no_cycle fuel c l r k visited :
  path (views H) c l -> (forall x, x ∈ l -> x ∉ visited) ->
  Heap.set_walk fuel H r k visited c <> Err PrototypeCycleDetected.
Proof.
  revert visited c l. induction fuel as [|fuel IH]; intros visited c l Hp Hv; walk_step IH Hp Hv.
  destruct (Obj.get_own_property o k) as [d|]; [by repeat case_match|]. by apply (IH _ _ l').
Qed.

Lemma for_in_walk_no_cycle fuel c l seen acc visited :
  path (views H) c l -> (forall x, x ∈ l -> x ∉ visited) ->
  Heap.for_in_walk fuel H seen acc visited c <> Err PrototypeCycleDetected.
Proof.
  revert seen acc visited c l. induction fuel as [|fuel IH]; intros seen acc visited c l Hp Hv; walk_step IH Hp Hv.
  destruct (Heap.for_in_object o seen acc) as [s' a']. by apply (IH _ _ _ _ l').
Qed.

Lemma instance_walk_no_cycle fuel c l t visited :
  path (views H) c l -> (forall x, x ∈ l -> x ∉ visited) ->
  Heap.instance_walk fuel H t visited c <> Err PrototypeCycleDetected.
Proof.
  revert visited c l. induction fuel as [|fuel IH]; intros visited c l Hp Hv; walk_step IH Hp Hv;
    destruct (h =? t); try done. by apply (IH _ _ l').
Qed.
End walks.

(** ** Operations keep chains finite *)

Lemma views_put H h m m' :
  Heap.get H h = Ok m -> proto_view m' = proto_view m ->
  proto_view <$> <[Z.to_nat h := m']> (objects H) = views H.
Proof.
  intros [_ Hg]%heap_get_Ok Hm. unfold views. rewrite list_fmap_insert. apply list_insert_id.
  by rewrite list_lookup_fmap, Hg, Hm.
Qed.

(** An update that leaves the prototype alone changes no path. *)
Lemma views_update {A} H h message (f : OrdinaryObject -> OrdinaryObject * result ObjectError A) :
  (forall o, prototype (f o).1 = prototype o) ->
  views (Heap.update_ordinary H h message f).1 = views H.
Proof.
  intros Hf. unfold Heap.update_ordinary. destruct (Heap.get H h) as [[o|p]|e] eqn:Hg; try done.
  specialize (Hf o). destruct (f o) as [o' r]. simpl in *. eapply views_put; [done|]. simpl. congruence.
Qed.

Lemma views_define H h k d : views (Heap.define_property H h k d).1 = views H.
Proof.
  apply views_update. intros o. unfold Obj.define_own_property. by repeat case_match.
Qed.

Lemma views_set H h k v : views (Heap.set_property H h k v).1 = views H.
Proof.
  unfold Heap.set_property. destruct (Heap.set_walk _ _ _ _ _ _) as [[b|]|e]; [done| |done].
  apply views_update. intros o. unfold Heap.write_own. by repeat case_match.
Qed.

Lemma views_set_all H h ps : views (Heap.set_all H h ps).1 = views H.
Proof.
  revert H. induction ps as [|[k v] ps IH]; intros H; simpl; [done|].
  pose proof (views_set H h k v) as Hs. destruct (Heap.set_property H h k v) as [H1 [b|e]]; simpl in *; [|done].
  by rewrite IH.
Qed.

Lemma views_define_properties H h ps : views (Heap.define_properties H h ps).1 = views H.
Proof.
  revert H. induction ps as [|[k d] ps IH]; intros H; simpl; [done|].
  pose proof (views_define H h k d) as Hs.
  destruct (Heap.define_property H h k d) as [H1 [[]|e]]; simpl in *; [|done..]. by rewrite IH.
Qed.

Lemma views_define_each H h ps : views (Heap.define_each H h ps).1 = views H.
Proof.
  revert H. induction ps as [|[k d] ps IH]; intros H; simpl; [done|].
  pose proof (views_define H h k d) as Hs.
  destruct (Heap.define_property H h k d) as [H1 [b|e]]; simpl in *; [|done]. by rewrite IH.
Qed.

Lemma views_push H m : views (Heap.push H m) = views H ++ [proto_view m].
Proof. unfold views, Heap.push. simpl. by rewrite fmap_app. Qed.

Lemma views_from_entries H es : views (Heap.from_entries H es).1 = views H ++ [Some None].
Proof.
  unfold Heap.from_entries, Heap.alloc_plain, Heap.alloc. simpl.
  trans (views (Heap.push H (Ordinary (Obj.with_prototype None)))); [|apply views_push].
  generalize (Heap.push H (Ordinary (Obj.with_prototype None))). intros H0. revert H0.
  induction es as [|[s v] es IH]; intros H0; simpl; [done|]. by rewrite IH, views_set.
Qed.

(** The prototype handed to an allocation is live. *)
Definition proto_live (H : ObjectHeap) (p : option ObjectHandle) : bool :=
  match p with
  | None => true
  | Some p => match Heap.get H p with Ok _ => true | Err _ => false end
  end.

Definition op_live (H : ObjectHeap) (op : HeapOp) : bool :=
  match op with
  | OpAlloc p | OpAllocCallable p | OpAllocConstructor p | OpCreateWith p _ => proto_live H p
  | _ => true
  end.

Fixpoint ops_live (H : ObjectHeap) (ops : list HeapOp) : bool :=
  match ops with
  | [] => true
  | op :: ops => op_live H op && ops_live (heap_op H op) ops
  end.

Lemma grounded_alloc H m :
  grounded (views H) -> (forall o, m = Ordinary o -> proto_live H (prototype o) = true) ->
  grounded (views (Heap.push H m)).
Proof.
  intros Hg Hm. rewrite views_push. apply grounded_snoc; [done|]. intros p Hp.
  destruct m as [o|q]; [|done]. injection Hp as Hp. specialize (Hm o eq_refl). unfold proto_live in Hm.
  rewrite Hp in Hm. destruct (Heap.get H p) as [m|] eqn:Hgp; [|done]. rewrite (view_at_get _ _ _ Hgp). eauto.
Qed.

Lemma grounded_set_prototype_of H h p :
  grounded (views H) -> grounded (views (Heap.set_prototype_of H h p).1).
Proof.
  intros Hg. unfold Heap.set_prototype_of. destruct (Heap.cycle_walk _ _ _ _) as [[]|e] eqn:Hw; [|done].
  destruct (cycle_walk_path _ _ _ _ Hw) as (l & Hl & Hv). unfold Heap.update_ordinary.
  destruct (Heap.get H h) as [[o|q]|e] eqn:Hgh; try done. destruct (extensible o); simpl.
  - unfold views, Heap.put. simpl. rewrite list_fmap_insert. fold (views H).
    eapply grounded_set_prototype; [done| |done|]; [rewrite (view_at_get _ _ _ Hgh); eauto|].
    intros Hin. apply Hv in Hin. set_solver.
  - unfold Heap.put, views. simpl. by rewrite (views_put _ _ _ (Ordinary o) Hgh).
Qed.

Lemma grounded_op H op : grounded (views H) -> op_live H op = true -> grounded (views (heap_op H op)).
Proof.
  intros Hg Hl. destruct op; cbn [heap_op op_live] in *;
    try (apply grounded_alloc; [done|]; intros ? [= <-]; exact Hl);
    try (rewrite ?views_set, ?views_define, ?views_define_properties; exact Hg).
  - unfold Heap.delete_property. rewrite views_update; [done|]. intros o. unfold Obj.delete_.
    destruct (properties o !! k) as [d|]; [by destruct (Desc.is_configurable d)|done].
  - by apply grounded_set_prototype_of.
  - unfold Heap.prevent_extensions. by rewrite views_update.
  - unfold Heap.freeze. by rewrite views_update.
  - unfold Heap.seal. by rewrite views_update.
  - unfold Heap.assign. destruct (Heap.collect_sources _ _ _); [by rewrite views_set_all|done].
  - unfold Heap.spread_into. destruct (Heap.source_properties _ _ _); [by rewrite views_set_all|done].
  - rewrite views_from_entries. by apply grounded_snoc.
  - unfold Heap.create_with_properties, Heap.alloc.
    pose proof (views_define_each (Heap.push H (Ordinary (Obj.with_prototype proto))) (Heap.next_handle H) ps) as Hd.
    destruct (Heap.define_each _ _ _) as [H1 [[]|e]]; simpl in *; rewrite Hd; apply grounded_alloc; try done;
      by intros ? [= <-].
  - unfold Heap.revoke_proxy. destruct (Heap.get H h) as [[o|q]|e] eqn:Hgh; try done. simpl.
    unfold views. simpl. by rewrite (views_put _ _ _ _ Hgh).
Qed.

Lemma grounded_run H ops : grounded (views H) -> ops_live H ops = true -> grounded (views (heap_run H ops)).
Proof.
  unfold heap_run. revert H. induction ops as [|op ops IH]; intros H Hg Hl; simpl in *; [done|].
  apply andb_true_iff in Hl as [Hl1 Hl2]. apply IH; [by apply grounded_op|done].
Qed.

Lemma grounded_new : grounded (views Heap.new).
Proof. intros h x Hx. unfold view_at in Hx. by destruct (h <? 0). Qed.

(** A handle is on a path or is not live, and is then reported as such. *)
Lemma live_or_dead H h :
  grounded (views H) ->
  (exists l, path (views H) (Some h) l) \/ Heap.get H h = Err (ObjectNotFound h).
Proof.
  intros Hg. destruct (view_at (views H) h) as [x|] eqn:Hx; [left; by eapply Hg|right].
  unfold view_at, views in Hx. unfold Heap.get. destruct (h <? 0); [done|].
  rewrite list_lookup_fmap in Hx. by destruct (objects H !! Z.to_nat h).
Qed.

Section grounded.
Context (H : ObjectHeap) (Hg : grounded (views H)).

(** A walk that starts at [h] with nothing visited. *)
Lemma start_no_cycle {A} (walk : nat -> gset Z -> option ObjectHandle -> result ObjectError A) h fuel :
  (forall l, path (views H) (Some h) l -> walk fuel ∅ (Some h) <> Err PrototypeCycleDetected) ->
  (Heap.get H h = Err (ObjectNotFound h) -> walk fuel ∅ (Some h) <> Err PrototypeCycleDetected) ->
  walk fuel ∅ (Some h) <> Err PrototypeCycleDetected.
Proof. destruct (live_or_dead H h Hg) as [[l Hl]|Hd]; eauto. Qed.

Ltac dead_walk :=
  intros Hd; destruct Heap.max_depth; simpl; [done|]; rewrite decide_False, Hd by set_solver; done.

Lemma get_no_cycle h k : Heap.get_property H h k <> Err PrototypeCycleDetected.
Proof.
  apply (start_no_cycle (fun f v c => Heap.get_walk f H k v c) h Heap.max_depth); [|dead_walk].
  intros l Hl. apply (get_walk_no_cycle _ _ _ _ _ _ Hl). set_solver.
Qed.

Lemma has_no_cycle h k : Heap.has_property H h k <> Err PrototypeCycleDetected.
Proof.
  apply (start_no_cycle (fun f v c => Heap.has_walk f H k v c) h Heap.max_depth); [|dead_walk].
  intros l Hl. apply (has_walk_no_cycle _ _ _ _ _ _ Hl). set_solver.
Qed.

Lemma for_in_no_cycle h : Heap.for_in_keys H h <> Err PrototypeCycleDetected.
Proof.
  apply (start_no_cycle (fun f v c => Heap.for_in_walk f H ∅ [] v c) h Heap.max_depth); [|dead_walk].
  intros l Hl. apply (for_in_walk_no_cycle _ _ _ _ _ _ _ Hl). set_solver.
Qed.

Lemma update_no_cycle {A} h message (f : OrdinaryObject -> OrdinaryObject * result ObjectError A) :
  (forall o, (f o).2 <> Err PrototypeCycleDetected) ->
  (Heap.update_ordinary H h message f).2 <> Err PrototypeCycleDetected.
Proof.
  intros Hf. unfold Heap.update_ordinary. destruct (live_or_dead H h Hg) as [[l Hl]| ->]; [|done].
  destruct (Heap.get H h) as [[o|p]|e] eqn:Hgh; [|done|].
  - specialize (Hf o). by destruct (f o).
  - simpl. inversion Hl as [|h' Hh|h' p l' Hh]; subst; apply get_view_at in Hh as (m & Hm & _); congruence.
Qed.

Lemma set_no_cycle h k v : (Heap.set_property H h k v).2 <> Err PrototypeCycleDetected.
Proof.
  unfold Heap.set_property.
  assert (Heap.set_walk Heap.max_depth H h k ∅ (Some h) <> Err PrototypeCycleDetected) as Hw.
  { apply (start_no_cycle (fun f v c => Heap.set_walk f H h k v c) h Heap.max_depth); [|dead_walk].
    intros l Hl. apply (set_walk_no_cycle _ _ _ _ _ _ _ Hl). set_solver. }
  destruct (Heap.set_walk _ _ _ _ _ _) as [[b|]|e]; [done| |simpl; congruence].
  apply update_no_cycle. intros o. unfold Heap.write_own. by repeat case_match.
Qed.

Lemma instance_no_cycle h t : Heap.instance_of H h t <> Err PrototypeCycleDetected.
Proof.
  unfold Heap.instance_of. unfold Heap.get_prototype_of at 1, Heap.on_ordinary.
  destruct (live_or_dead H h Hg) as [[l Hl]| ->]; [|done].
  assert (forall x, x ∈ l -> x ∉ (∅ : gset Z)) as Hv by set_solver.
  destruct (path_step _ _ _ _ Hl Hv)
    as [[? _]|[(h' & p & [= <-] & _ & ->)|(h' & o & l' & [= <-] & -> & _ & -> & Hp' & Hv')]]; [done..|].
  simpl. apply (instance_walk_no_cycle _ _ _ _ _ _ Hp'). set_solver.
Qed.

Lemma set_prototype_cycle h p :
  (Heap.set_prototype_of H h p).2 = Err PrototypeCycleDetected ->
  p = Some h \/ exists l, path (views H) p l /\ h ∈ l.
Proof.
  unfold Heap.set_prototype_of. destruct (Heap.cycle_walk _ _ _ _) as [[]|e] eqn:Hw.
  { intros Hu. exfalso. revert Hu. apply update_no_cycle. intros o. by destruct (extensible o). }
  simpl. intros [= ->]. destruct p as [q|]; [|by destruct Heap.max_depth].
  destruct (live_or_dead H q Hg) as [[l Hl]|Hd].
  - right. exists l. split; [done|]. destruct (cycle_walk_genuine _ _ _ _ _ Hl Hw) as (x & Hx & Hin).
    apply elem_of_singleton in Hin. congruence.
  - left. destruct Heap.max_depth; simpl in Hw; [done|]. case_decide as Hin; [|by rewrite Hd in Hw].
    apply elem_of_singleton in Hin. congruence.
Qed.
End grounded.

(** C35. On a heap built by any operations in which objects are allocated with live
    prototypes, no walk along a prototype chain (get, has, set, for-in, instanceof) meets
    a cycle, and set_prototype_of refuses for a cycle only when the object is its own new
    prototype or lies on the chain of it. *)
Theorem prototype_chains_never_cycle ops h k v t p :
  ops_live Heap.new ops = true ->
  let H := heap_run Heap.new ops in
  Heap.get_property H h k <> Err PrototypeCycleDetected /\
  Heap.has_property H h k <> Err PrototypeCycleDetected /\
  (Heap.set_property H h k v).2 <> Err PrototypeCycleDetected /\
  Heap.for_in_keys H h <> Err PrototypeCycleDetected /\
  Heap.instance_of H h t <> Err PrototypeCycleDetected /\
  ((Heap.set_prototype_of H h p).2 = Err PrototypeCycleDetected ->
   p = Some h \/ exists l, path (views H) p l /\ h ∈ l).
Proof.
  intros Hl H. pose proof (grounded_run _ _ grounded_new Hl) as Hg. fold H in Hg. clearbody H.
  split_and!; eauto using get_no_cycle, has_no_cycle, set_no_cycle, for_in_no_cycle, instance_no_cycle,
    set_prototype_cycle.
Qed.

Module Cyclic.
(** 1 inherits from 0; making 0 inherit from 1 is refused. *)
Definition ops : list HeapOp :=
  [OpAlloc None; OpAlloc (Some 0); OpSetPrototype 0 (Some 1); OpAllocProxy 0 1; OpSetPrototype 0 (Some 2)].
(** An allocation whose prototype is the handle it is about to get. *)
Definition dangling : ObjectHeap := heap_run Heap.new [OpAlloc (Some 0)].
End Cyclic.

Lemma prototype_chains_never_cycle_witness :
  ops_live Heap.new Cyclic.ops = true /\
  Heap.get_property (heap_run Heap.new Cyclic.ops) 1 (KString "x") <> Err PrototypeCycleDetected /\
  (Heap.set_prototype_of (heap_run Heap.new (take 2 Cyclic.ops)) 0 (Some 1)).2 = Err PrototypeCycleDetected.
Proof.
  split; [vm_compute; reflexivity|]. split; [|vm_compute; reflexivity].
  apply (prototype_chains_never_cycle Cyclic.ops 1 (KString "x") JsNull 0 None). vm_compute. reflexivity.
Defined.

(** Without a live prototype the allocation itself closes a cycle, which the
    walks then report. *)
Example dangling_prototype_cycles :
  Heap.get_property Cyclic.dangling 0 (KString "x") = Err PrototypeCycleDetected.
Proof. vm_compute. reflexivity. Qed.
