(* ===== verification/ObjectProxies.v ===== *)
(** * Proxy traps, symbols and copies

    The checks of proxy traps accept what an honest trap answers and exactly
    the answers the target's fixed properties allow; the symbol registry hands
    out one symbol per key. *)
From stdpp Require Import base numbers list strings gmap relations sorting.
From S2P Require Import Prelude Bytes Text ObjectModel ObjectCorrect ObjectWalks.
Open Scope string_scope.
Open Scope list_scope.
Open Scope Z_scope.

Implicit Types (t : OrdinaryObject) (k : PropertyKey).

(** ** Honest traps *)

Lemma same_value_refl v : same_value v v = true.
Proof. by apply bool_decide_eq_true. Qed.

Lemma values_clash_refl d : ProxyCheck.values_clash d d = false.
Proof. destruct d as [v [] e c|]; simpl; [done| |done]. by rewrite same_value_refl. Qed.

Lemma honest_get_own t k : ProxyCheck.check_get_own_property t k (Obj.get_own_property t k) = Ok tt.
Proof.
  unfold ProxyCheck.check_get_own_property. destruct (Obj.get_own_property t k) as [d|]; [|done].
  simpl. destruct (Desc.is_configurable d); simpl; [done|]. by rewrite values_clash_refl.
Qed.

Lemma honest_define t k d b :
  (Obj.define_own_property t k d).2 = Ok b ->
  ProxyCheck.check_define_own_property (Obj.define_own_property t k d).1 k d b = Ok tt.
Proof.
  unfold Obj.define_own_property, ProxyCheck.check_define_own_property, Obj.has_own_property,
    Obj.get_own_property. intros Hb.
  assert (b = true -> properties (Obj.define_own_property t k d).1 !! k = Some d) as Hd.
  { intros ->. unfold Obj.define_own_property. destruct (properties t !! k) as [c|].
    - destruct (negb _ && negb _); [done|]. simpl. apply lookup_insert_eq.
    - destruct (negb _); [done|]. apply lookup_insert_eq. }
  destruct b; [|done]. specialize (Hd eq_refl). unfold Obj.define_own_property in Hd. rewrite Hd. simpl.
  destruct (Desc.is_configurable d); simpl; [done|]. by rewrite values_clash_refl.
Qed.

Lemma honest_delete t k :
  ProxyCheck.check_delete (Obj.delete_ t k).1 k (Obj.delete_ t k).2 = Ok tt.
Proof.
  unfold Obj.delete_, ProxyCheck.check_delete, Obj.get_own_property.
  destruct (properties t !! k) as [d|] eqn:Hk; simpl; [|by rewrite Hk].
  destruct (Desc.is_configurable d); simpl; [|done]. by rewrite lookup_delete_eq.
Qed.

Lemma honest_set t k v b :
  (Heap.write_own t k v).2 = Ok b -> ProxyCheck.check_set (Heap.write_own t k v).1 k v b = Ok tt.
Proof.
  unfold Heap.write_own, ProxyCheck.check_set, Obj.get_own_property. destruct b; [|done].
  destruct (properties t !! k) as [[v0 w e c|g s e c]|] eqn:Hk; simpl; try done.
  - intros _. rewrite lookup_insert_eq. destruct w, c; try done. by rewrite same_value_refl.
  - destruct (extensible t); [|done]. simpl. by rewrite lookup_insert_eq.
Qed.

Lemma honest_get t k d :
  properties t !! k = Some d ->
  ProxyCheck.check_get t k (match d with Data v _ _ _ => v | Accessor _ _ _ _ => JsUndefined end) = Ok tt.
Proof.
  intros Hd. unfold ProxyCheck.check_get, Obj.get_own_property. rewrite Hd.
  destruct d as [v [] e []|[] s e []]; try done. by rewrite same_value_refl.
Qed.

(** ** What the checks accept *)

Lemma check_duplicates_Ok seen l r :
  ProxyCheck.check_duplicates seen l = Ok r <->
  NoDup l /\ (forall x, x ∈ l -> x ∉ seen) /\ r = list_to_set l ∪ seen.
Proof.
  revert seen. induction l as [|k l IH]; intros seen; simpl.
  { split; [intros [= <-]|intros (_ & _ & ->)]; [|f_equal; set_solver].
    split; [constructor|]. split; set_solver. }
  rewrite NoDup_cons. case_decide as Hk.
  { split; [done|]. intros (_ & Hs & _). exfalso. eapply Hs; [by left|done]. }
  rewrite IH. split.
  - intros (Hnd & Hs & ->). split_and!; [set_solver|done|set_solver|set_solver].
  - intros ([Hkl Hnd] & Hs & ->). split_and!; [done| |set_solver].
    intros x Hx. assert (x <> k) by congruence. set_solver.
Qed.

Lemma check_own_keys_Ok t l :
  ProxyCheck.check_own_keys t l = Ok tt <->
  NoDup l /\
  (forall k d, properties t !! k = Some d -> Desc.is_configurable d = false -> k ∈ l) /\
  (extensible t = false -> forall k, k ∈ l <-> is_Some (properties t !! k)).
Proof.
  unfold ProxyCheck.check_own_keys. rewrite bind_Ok. split.
  - intros (seen & (Hnd & _ & ->)%check_duplicates_Ok & Hrest). split; [done|].
    apply bind_Ok in Hrest as ([] & Hf & Hx).
    destruct (find _ _) as [[k0 d0]|] eqn:Hfind; [done|]. clear Hf. split.
    + intros k d Hk Hc. apply elem_of_sorted_entries in Hk. apply list_elem_of_In in Hk.
      apply (find_none _ _ Hfind) in Hk. rewrite Hc in Hk. simpl in Hk.
      apply negb_false_iff, bool_decide_eq_true in Hk. set_solver.
    + intros He k. rewrite He in Hx. simpl in Hx. destruct (bool_decide _) eqn:Hb; [|done].
      apply bool_decide_eq_true in Hb. rewrite <- elem_of_dom, Hb. set_solver.
  - intros (Hnd & Hfix & Hx). eexists. split; [apply check_duplicates_Ok; split_and!; [done|set_solver|done]|].
    apply bind_Ok. exists tt. split.
    + destruct (find _ _) as [[k d]|] eqn:Hfind; [|done]. exfalso.
      apply find_some in Hfind as [Hin Hb]. apply list_elem_of_In, elem_of_sorted_entries in Hin.
      apply andb_true_iff in Hb as [Hc Hn]. apply negb_true_iff in Hc, Hn. apply bool_decide_eq_false in Hn.
      apply Hn. specialize (Hfix _ _ Hin Hc). set_solver.
    + destruct (extensible t) eqn:He; simpl; [done|]. rewrite bool_decide_true; [done|].
      apply set_eq. intros k. rewrite elem_of_dom, elem_of_list_to_set. by rewrite (Hx eq_refl).
Qed.

Lemma honest_own_keys t : ProxyCheck.check_own_keys t (Obj.own_property_keys t) = Ok tt.
Proof.
  apply check_own_keys_Ok. split; [apply own_keys_NoDup|]. split.
  - intros k d Hk _. apply elem_of_own_keys. eauto.
  - intros _ k. apply elem_of_own_keys.
Qed.

(** A trap that does on the target what it is asked to do, and reports it, passes
    every check. *)
Theorem proxy_honest_traps_accepted t k d v p :
  ProxyCheck.check_get_own_property t k (Obj.get_own_property t k) = Ok tt /\
  ProxyCheck.check_own_keys t (Obj.own_property_keys t) = Ok tt /\
  ProxyCheck.check_has t k (Obj.has_own_property t k) = Ok tt /\
  (forall e, properties t !! k = Some e -> ProxyCheck.check_get t k (default JsUndefined (Desc.value e)) = Ok tt) /\
  (let '(t', r) := Obj.define_own_property t k d in
   forall b, r = Ok b -> ProxyCheck.check_define_own_property t' k d b = Ok tt) /\
  (let '(t', b) := Obj.delete_ t k in ProxyCheck.check_delete t' k b = Ok tt) /\
  (let '(t', r) := Heap.write_own t k v in
   forall b, r = Ok b -> ProxyCheck.check_set t' k v b = Ok tt) /\
  ProxyCheck.check_get_prototype_of t (prototype t) = Ok tt /\
  ProxyCheck.check_set_prototype_of (if extensible t then Obj.set_prototype p t else t) p
    (extensible t || bool_decide (prototype t = p)) = Ok tt /\
  ProxyCheck.check_is_extensible t (extensible t) = Ok tt /\
  ProxyCheck.check_prevent_extensions (Obj.prevent_extensions t) true = Ok tt.
Proof.
  split; [apply honest_get_own|]. split; [apply honest_own_keys|]. split_and!.
  - unfold ProxyCheck.check_has, Obj.has_own_property, Obj.get_own_property.
    destruct (properties t !! k); simpl; [done|]. by rewrite andb_false_r.
  - intros e He. pose proof (honest_get t k e He). by destruct e.
  - pose proof (honest_define t k d) as Hd. by destruct (Obj.define_own_property t k d).
  - pose proof (honest_delete t k) as Hd. by destruct (Obj.delete_ t k).
  - pose proof (honest_set t k v) as Hd. by destruct (Heap.write_own t k v).
  - unfold ProxyCheck.check_get_prototype_of. rewrite bool_decide_true by done. by rewrite andb_false_r.
  - unfold ProxyCheck.check_set_prototype_of. destruct (extensible t) eqn:He; simpl; [by rewrite He|].
    rewrite He. destruct (decide (prototype t = p)) as [<-|Hne]; simpl.
    + by rewrite !bool_decide_true by done.
    + by rewrite bool_decide_false by done.
  - unfold ProxyCheck.check_is_extensible. by rewrite eqb_reflx.
  - done.
Qed.

(** A property of the target that no proxy may hide or report as deleted. *)
Definition pinned (t : OrdinaryObject) (k : PropertyKey) : Prop :=
  exists d, properties t !! k = Some d /\ (Desc.is_configurable d = false \/ extensible t = false).

Lemma check_has_Ok t k b : ProxyCheck.check_has t k b = Ok tt <-> (pinned t k -> b = true).
Proof.
  unfold ProxyCheck.check_has, Obj.get_own_property, Obj.has_own_property, pinned.
  destruct b; simpl; [done|]. destruct (properties t !! k) as [d|] eqn:Hk; simpl.
  - destruct (Desc.is_configurable d) eqn:Hc, (extensible t) eqn:He; simpl; split; try done;
      try (intros Hp; exfalso; cut (false = true); [done|]; apply Hp; eauto).
    intros _ (d' & [= <-] & [?|?]); congruence.
  - rewrite andb_false_r. split; [|done]. intros _ (d & ? & _). done.
Qed.

Lemma check_delete_Ok t k b : ProxyCheck.check_delete t k b = Ok tt <-> (b = true -> ~ pinned t k).
Proof.
  unfold ProxyCheck.check_delete, Obj.get_own_property, pinned.
  destruct b; [|done]. destruct (properties t !! k) as [d|] eqn:Hk; simpl.
  - destruct (Desc.is_configurable d) eqn:Hc, (extensible t) eqn:He; simpl; split; try done;
      try (intros Hp; exfalso; apply Hp; eauto).
    intros _ _ (d' & [= <-] & [?|?]); congruence.
  - split; [|done]. intros _ _ (d & ? & _). done.
Qed.

Lemma same_value_true a b : same_value a b = true <-> a = b.
Proof. apply bool_decide_eq_true. Qed.

Lemma check_get_Ok t k v :
  ProxyCheck.check_get t k v = Ok tt <->
  (forall w e, properties t !! k = Some (Data w false e false) -> v = w) /\
  (forall s e, properties t !! k = Some (Accessor None s e false) -> v = JsUndefined).
Proof.
  unfold ProxyCheck.check_get, Obj.get_own_property.
  destruct (properties t !! k) as [[w [] e []|[g|] s e []]|] eqn:Hk; try (split; [|done]; naive_solver).
  - destruct (same_value v w) eqn:Hs; simpl; [apply same_value_true in Hs as ->; naive_solver|].
    split; [done|]. intros [Hx _]. rewrite (Hx w e eq_refl), same_value_refl in Hs. done.
  - destruct (decide (v = JsUndefined)) as [->|Hne]; simpl; [naive_solver|].
    rewrite bool_decide_false by done. split; [done|]. intros [_ Hx]. by destruct Hne; eapply Hx.
Qed.

Lemma check_set_Ok t k v b :
  ProxyCheck.check_set t k v b = Ok tt <->
  (b = true ->
   (forall w e, properties t !! k = Some (Data w false e false) -> v = w) /\
   (forall g e, properties t !! k <> Some (Accessor g None e false))).
Proof.
  unfold ProxyCheck.check_set, Obj.get_own_property. destruct b; [|done].
  destruct (properties t !! k) as [[w [] e []|g [s|] e []]|] eqn:Hk; try (split; [|done]; naive_solver).
  - destruct (same_value v w) eqn:Hs; simpl; [apply same_value_true in Hs as ->; naive_solver|].
    split; [done|]. intros Hx. destruct (Hx eq_refl) as [Hx' _].
    rewrite (Hx' w e eq_refl), same_value_refl in Hs. done.
  - split; [done|]. intros Hx. destruct (Hx eq_refl) as [_ Hx']. by destruct (Hx' g e).
Qed.

(** Nine of the proxy checks accept exactly the answers that ES2020 allows: a fixed
    property is neither hidden nor reported as deleted, a read-only value is reported and
    set as it is, the key list has no duplicates, contains every non-configurable key and
    is exact for a non-extensible target, and prototype and extensibility are reported
    truthfully where they are fixed. *)
Theorem proxy_checks_exact t k v b l p :
  (ProxyCheck.check_has t k b = Ok tt <-> (pinned t k -> b = true)) /\
  (ProxyCheck.check_delete t k b = Ok tt <-> (b = true -> ~ pinned t k)) /\
  (ProxyCheck.check_get t k v = Ok tt <->
     (forall w e, properties t !! k = Some (Data w false e false) -> v = w) /\
     (forall s e, properties t !! k = Some (Accessor None s e false) -> v = JsUndefined)) /\
  (ProxyCheck.check_set t k v b = Ok tt <->
     (b = true ->
      (forall w e, properties t !! k = Some (Data w false e false) -> v = w) /\
      (forall g e, properties t !! k <> Some (Accessor g None e false)))) /\
  (ProxyCheck.check_own_keys t l = Ok tt <->
     NoDup l /\
     (forall k d, properties t !! k = Some d -> Desc.is_configurable d = false -> k ∈ l) /\
     (extensible t = false -> forall k, k ∈ l <-> is_Some (properties t !! k))) /\
  (ProxyCheck.check_get_prototype_of t p = Ok tt <-> (extensible t = false -> p = prototype t)) /\
  (ProxyCheck.check_set_prototype_of t p b = Ok tt <->
     (b = true -> extensible t = false -> p = prototype t)) /\
  (ProxyCheck.check_is_extensible t b = Ok tt <-> b = extensible t) /\
  (ProxyCheck.check_prevent_extensions t b = Ok tt <-> (b = true -> extensible t = false)).
Proof.
  split; [apply check_has_Ok|]. split; [apply check_delete_Ok|]. split; [apply check_get_Ok|].
  split; [apply check_set_Ok|]. split; [apply check_own_keys_Ok|].
  unfold ProxyCheck.check_get_prototype_of, ProxyCheck.check_set_prototype_of,
    ProxyCheck.check_is_extensible, ProxyCheck.check_prevent_extensions.
  assert (bool_decide (p = prototype t) = true <-> p = prototype t) as Hp by apply bool_decide_eq_true.
  destruct (bool_decide (p = prototype t)), b, (extensible t); simpl; intuition (try congruence); by exfalso; intuition.
Qed.

(** ** The symbol registry *)

(** A registered key and its symbol name each other; registered symbols lie
    above the well-known ones and below the next. *)
Definition registry_wf (r : SymbolRegistry) (H : ObjectHeap) : Prop :=
  14 <= next_symbol H /\
  forall key id, by_description r !! key = Some id ->
    by_id r !! id = Some key /\ 14 <= id < next_symbol H.

Lemma registry_new : registry_wf Symbols.new Heap.new.
Proof. split; [done|]. intros key id Hk. simpl in Hk. by rewrite lookup_empty in Hk. Qed.

(** [Symbol.for] answers with one symbol per key, which [Symbol.keyFor] maps
    back, as long as the 32-bit symbol counter is not exhausted. *)
Lemma symbol_for_spec r H key :
  registry_wf r H -> next_symbol H < u32_max ->
  let '(r', H', id) := Symbols.symbol_for r key H in
  registry_wf r' H' /\ Symbols.key_for r' id = Some key /\ Symbols.symbol_for r' key H' = (r', H', id) /\
  forall key' id', by_description r !! key' = Some id' -> key' <> key -> id' <> id.
Proof.
  intros [Hn Hwf] Hmax. unfold Symbols.symbol_for, Symbols.key_for.
  destruct (by_description r !! key) as [id|] eqn:Hk; simpl.
  - destruct (Hwf _ _ Hk) as [Hid Hr]. rewrite Hk. do 3 (split; [done|]).
    intros key' id' Hk' Hne ->. destruct (Hwf _ _ Hk') as [Hid' _]. congruence.
  - rewrite !lookup_insert_eq. split; [|split; [done|split; [done|]]].
    + split; simpl; [lia|]. intros key' id'. destruct (decide (key = key')) as [<-|Hne].
      * rewrite lookup_insert_eq. intros [= <-]. rewrite lookup_insert_eq. split; [done|lia].
      * rewrite lookup_insert_ne by done. intros Hk'. destruct (Hwf _ _ Hk') as [Hid Hr].
        rewrite lookup_insert_ne by lia. split; [done|lia].
    + intros key' id' Hk' _ ->. destruct (Hwf _ _ Hk') as [_ Hr]. lia.
Qed.

(** ** Divergences from ES2020 *)

Module Divergences.
Definition kx : PropertyKey := KString "x".

(** A target whose [x] is fixed to 1. *)
Definition fixed : OrdinaryObject :=
  Obj.set_properties {[kx := Data (JsInt 1) false false false]} (Obj.with_prototype None).
Definition lie : PropertyDescriptor := Data (JsInt 2) true true true.
End Divergences.

(** The trap may describe a fixed read-only property as a configurable one with
    another value: only the value of non-configurable answers is compared. *)
Example proxy_accepts_incompatible_descriptor :
  Obj.compatible (Data (JsInt 1) false false false) Divergences.lie = false /\
  ProxyCheck.check_get_own_property Divergences.fixed Divergences.kx (Some Divergences.lie) = Ok tt /\
  ProxyCheck.check_define_own_property Divergences.fixed Divergences.kx Divergences.lie true = Ok tt.
Proof. vm_compute. auto. Qed.

(** Every source of [Object.assign] is read before the target is written, so
    [Object.assign(a, b, a)] writes the old value of [a.x] back. *)
Example assign_reads_sources_first :
  let H := heap_run Heap.new
             [OpAlloc None; OpAlloc None; OpSet 0 Divergences.kx (JsInt 1); OpSet 1 Divergences.kx (JsInt 2)] in
  Heap.get_property (Heap.assign H 0 [1; 0]).1 0 Divergences.kx = Ok (JsInt 1) /\
  Heap.get_property (Heap.assign (Heap.assign H 0 [1]).1 0 [0]).1 0 Divergences.kx = Ok (JsInt 2).
Proof. vm_compute. auto. Qed.

(** An assignment over an inherited accessor makes an own data property and
    never reaches the setter. *)
Example set_skips_inherited_setter :
  let H := heap_run Heap.new
             [OpAlloc None; OpAlloc (Some 0);
              OpDefine 0 Divergences.kx (Accessor None (Some 7) true true)] in
  let '(H', r) := Heap.set_property H 1 Divergences.kx (JsInt 5) in
  r = Ok true /\ Heap.has_own H' 1 Divergences.kx = Ok true /\
  Heap.get_property H' 1 Divergences.kx = Ok (JsInt 5).
Proof. vm_compute. auto. Qed.

(** ["01"] and ["+1"] are no array indices, but are ordered among them. *)
Example non_canonical_indices_sorted :
  Obj.own_property_keys
    (Obj.set_properties
       (list_to_map (map (fun s => (KString s, Desc.data JsNull)) ["!"; "2"; "01"; "+1"]))
       (Obj.with_prototype None)) =
  [KString "+1"; KString "01"; KString "2"; KString "!"].
Proof. vm_compute. reflexivity. Qed.

(** [Symbol.keyFor] answers for a well-known symbol, which is not registered. *)
Example key_for_well_known :
  Symbols.key_for Symbols.new (WellKnown.id WIterator) = Some "Symbol.iterator" /\
  by_description Symbols.new !! "Symbol.iterator" = None.
Proof. vm_compute. auto. Qed.
