(* ===== verification/PromiseModel.v ===== *)
(** * Promises, microtasks and the event loop (crates/franken-engine/src/promise_model.rs)

    The promise store, the microtask and macrotask queues, the virtual clock,
    the event loop and the trackers of the combinators.  Handles index vectors;
    counters are [u64]s and [u32]s with their wrap-around.  The bridge from
    exceptions to rejections is in PromiseCombinators.v. *)
From stdpp Require Import base numbers list strings gmap.
From S2P Require Import Prelude Bytes FlowLattice ObjectModel.
Open Scope string_scope.
Open Scope list_scope.
Open Scope Z_scope.

(** ** Data *)

Definition PromiseHandle : Type := Z.
Definition ClosureHandle : Type := Z.

Inductive PromiseState :=
  | Pending
  | Fulfilled (v : JsValue)
  | Rejected (reason : JsValue).

#[export] Instance PromiseState_eq_dec : EqDecision PromiseState.
Proof. solve_decision. Defined.

Definition is_settled (s : PromiseState) : bool :=
  match s with Pending => false | _ => true end.
Definition is_fulfilled (s : PromiseState) : bool :=
  match s with Fulfilled _ => true | _ => false end.
Definition is_rejected (s : PromiseState) : bool :=
  match s with Rejected _ => true | _ => false end.

Inductive ReactionKind := RFulfill | RReject.

#[export] Instance ReactionKind_eq_dec : EqDecision ReactionKind.
Proof. solve_decision. Defined.

Record PromiseReaction := mkReaction {
  re_kind : ReactionKind;
  re_handler : option ClosureHandle;
  re_result_promise : PromiseHandle;
  re_label : Label }.

Record PromiseRecord := mkPromise {
  handle : PromiseHandle;
  state : PromiseState;
  reactions : list PromiseReaction;
  p_label : Label;
  creation_seq : Z;
  rejection_handled : bool }.

Definition PromiseRecord_new (h : PromiseHandle) (seq : Z) : PromiseRecord :=
  mkPromise h Pending [] LPublic seq false.

Inductive Microtask :=
  | MPromiseReaction (handler : option ClosureHandle) (argument : JsValue)
      (result_promise : PromiseHandle) (label : Label)
  | MResolveThenable (promise : PromiseHandle) (then_handler : ClosureHandle)
      (thenable : JsValue) (label : Label).

#[export] Instance Microtask_eq_dec : EqDecision Microtask.
Proof. solve_decision. Defined.

Inductive MacrotaskSource := MessageChannel | Timer | IoCompletion.

#[export] Instance MacrotaskSource_eq_dec : EqDecision MacrotaskSource.
Proof. solve_decision. Defined.

Record Macrotask := mkMacrotask {
  source : MacrotaskSource;
  mt_handler : ClosureHandle;
  scheduled_at : Z;
  registration_seq : Z;
  mt_label : Label }.

#[export] Instance Macrotask_eq_dec : EqDecision Macrotask.
Proof. solve_decision. Defined.

Inductive WitnessEvent :=
  | WPromiseCreated (handle : PromiseHandle) (seq : Z)
  | WPromiseFulfilled (handle : PromiseHandle) (value : JsValue) (label : Label)
  | WPromiseRejected (handle : PromiseHandle) (reason : JsValue) (label : Label)
  | WMicrotaskEnqueued (index : Z)
  | WMicrotaskDequeued (index : Z)
  | WMacrotaskExecuted (source : MacrotaskSource) (registration_seq : Z)
  | WClockAdvanced (from_ms to_ms : Z).

Inductive PromiseError :=
  | AlreadySettled (handle : PromiseHandle)
  | InvalidHandle (handle : PromiseHandle)
  | LabelViolation (handle : PromiseHandle) (value_label context_label : Label).

(** ** The microtask queue *)

Record MicrotaskQueue := mkMicro {
  mq_tasks : list Microtask;
  cursor : nat;
  enqueue_count : Z;
  mq_witness : list WitnessEvent }.

Module Micro.
Definition new : MicrotaskQueue := mkMicro [] 0 0 [].

Definition enqueue (q : MicrotaskQueue) (t : Microtask) : MicrotaskQueue :=
  mkMicro (mq_tasks q ++ [t]) (cursor q) (wrap_u64 (enqueue_count q + 1))
    (mq_witness q ++ [WMicrotaskEnqueued (enqueue_count q)]).

Definition dequeue (q : MicrotaskQueue) : MicrotaskQueue * option Microtask :=
  match mq_tasks q !! cursor q with
  | Some task =>
      (mkMicro (mq_tasks q) (S (cursor q)) (enqueue_count q)
         (mq_witness q ++ [WMicrotaskDequeued (Z.of_nat (cursor q))]), Some task)
  | None => (q, None)
  end.

Definition is_empty (q : MicrotaskQueue) : bool := (length (mq_tasks q) <=? cursor q)%nat.

Definition pending_count (q : MicrotaskQueue) : Z := zlen (mq_tasks q) - Z.of_nat (cursor q).

Definition compact (q : MicrotaskQueue) : MicrotaskQueue :=
  if (0 <? cursor q)%nat
  then mkMicro (drop (cursor q) (mq_tasks q)) 0 (enqueue_count q) (mq_witness q)
  else q.
End Micro.

(** ** The promise store *)

Record PromiseStore := mkStore {
  promises : list PromiseRecord;
  next_seq : Z;
  ps_witness : list WitnessEvent }.

Module Store.
Definition new : PromiseStore := mkStore [] 0 [].

Definition create (s : PromiseStore) : PromiseStore * PromiseHandle :=
  let h := wrap_u32 (zlen (promises s)) in
  let seq := next_seq s in
  (mkStore (promises s ++ [PromiseRecord_new h seq]) (wrap_u64 (seq + 1))
     (ps_witness s ++ [WPromiseCreated h seq]), h).

(** Handles are [u32]s. *)
Definition get (s : PromiseStore) (h : PromiseHandle) : result PromiseError PromiseRecord :=
  ok_or (InvalidHandle h) (if h <? 0 then None else promises s !! Z.to_nat h).

Definition update (s : PromiseStore) (h : PromiseHandle) (r : PromiseRecord) : PromiseStore :=
  mkStore (<[Z.to_nat h := r]> (promises s)) (next_seq s) (ps_witness s).

Definition log (s : PromiseStore) (e : WitnessEvent) : PromiseStore :=
  mkStore (promises s) (next_seq s) (ps_witness s ++ [e]).

(** The microtask a drained reaction becomes: handlers of the other kind are
    dropped. *)
Definition reaction_task (kind : ReactionKind) (argument : JsValue) (label : Label)
    (r : PromiseReaction) : Microtask :=
  MPromiseReaction (if decide (re_kind r = kind) then re_handler r else None) argument
    (re_result_promise r) label.

Definition enqueue_reactions (kind : ReactionKind) (argument : JsValue) (label : Label)
    (rs : list PromiseReaction) (q : MicrotaskQueue) : MicrotaskQueue :=
  fold_left (fun q r => Micro.enqueue q (reaction_task kind argument label r)) rs q.

Definition fulfill (s : PromiseStore) (h : PromiseHandle) (v : JsValue) (label : Label)
    (q : MicrotaskQueue) : result PromiseError (PromiseStore * MicrotaskQueue) :=
  record ← get s h;
  if is_settled (state record) then Err (AlreadySettled h)
  else
    let record' := mkPromise (handle record) (Fulfilled v) [] label (creation_seq record)
                     (rejection_handled record) in
    Ok (log (update s h record') (WPromiseFulfilled h v label),
        enqueue_reactions RFulfill v label (reactions record) q).

Definition has_reject_handler (rs : list PromiseReaction) : bool :=
  existsb (fun r => bool_decide (re_kind r = RReject) && bool_decide (is_Some (re_handler r))) rs.

Definition reject (s : PromiseStore) (h : PromiseHandle) (reason : JsValue) (label : Label)
    (q : MicrotaskQueue) : result PromiseError (PromiseStore * MicrotaskQueue) :=
  record ← get s h;
  if is_settled (state record) then Err (AlreadySettled h)
  else
    let record' := mkPromise (handle record) (Rejected reason) [] label (creation_seq record)
                     (has_reject_handler (reactions record)) in
    Ok (log (update s h record') (WPromiseRejected h reason label),
        enqueue_reactions RReject reason label (reactions record) q).

(** The record is read before the result promise is created. *)
Definition then_ (s : PromiseStore) (h : PromiseHandle)
    (on_fulfilled on_rejected : option ClosureHandle) (label : Label) (q : MicrotaskQueue) :
    result PromiseError (PromiseStore * MicrotaskQueue * PromiseHandle) :=
  record ← get s h;
  let st := state record in
  let '(s, result_promise) := create s in
  match st with
  | Pending =>
      record ← get s h;
      let rs := [ mkReaction RFulfill on_fulfilled result_promise label;
                  mkReaction RReject on_rejected result_promise label ] in
      Ok (update s h (mkPromise (handle record) (state record) (reactions record ++ rs)
            (p_label record) (creation_seq record) (rejection_handled record)), q, result_promise)
  | Fulfilled v =>
      Ok (s, Micro.enqueue q (MPromiseReaction on_fulfilled v result_promise label), result_promise)
  | Rejected reason =>
      s ← match on_rejected with
          | Some _ =>
              record ← get s h;
              Ok (update s h (mkPromise (handle record) (state record) (reactions record)
                    (p_label record) (creation_seq record) true))
          | None => Ok s
          end;
      Ok (s, Micro.enqueue q (MPromiseReaction on_rejected reason result_promise label),
          result_promise)
  end.

(** The [expect] of the two constructors: [None] is the panic. *)
Definition resolve (s : PromiseStore) (v : JsValue) (label : Label) (q : MicrotaskQueue) :
    option (PromiseStore * MicrotaskQueue * PromiseHandle) :=
  let '(s, h) := create s in
  match fulfill s h v label q with Ok (s, q) => Some (s, q, h) | Err _ => None end.

Definition reject_with (s : PromiseStore) (reason : JsValue) (label : Label) (q : MicrotaskQueue) :
    option (PromiseStore * MicrotaskQueue * PromiseHandle) :=
  let '(s, h) := create s in
  match reject s h reason label q with Ok (s, q) => Some (s, q, h) | Err _ => None end.

Definition unhandled_rejections (s : PromiseStore) : list PromiseHandle :=
  handle <$> List.filter (fun p => is_rejected (state p) && negb (rejection_handled p)) (promises s).
End Store.

(** ** The clock and the macrotask queue *)

Record VirtualClock := mkClock { current_ms : Z; next_timer_seq : Z }.

Module Clock.
Definition new : VirtualClock := mkClock 0 0.
Definition advance_to (c : VirtualClock) (target : Z) : VirtualClock :=
  if current_ms c <? target then mkClock target (next_timer_seq c) else c.
Definition register_timer (c : VirtualClock) : VirtualClock * Z :=
  (mkClock (current_ms c) (wrap_u64 (next_timer_seq c + 1)), next_timer_seq c).
End Clock.

Record MacrotaskQueue := mkMacro { ma_tasks : list Macrotask; next_registration_seq : Z }.

Module Macro.
Definition new : MacrotaskQueue := mkMacro [] 0.

Definition schedule (q : MacrotaskQueue) (src : MacrotaskSource) (h : ClosureHandle)
    (at_ : Z) (label : Label) : MacrotaskQueue * Z :=
  let seq := next_registration_seq q in
  (mkMacro (ma_tasks q ++ [mkMacrotask src h at_ seq label]) (wrap_u64 (seq + 1)), seq).

Definition source_rank (s : MacrotaskSource) : Z :=
  match s with MessageChannel => 0 | Timer => 1 | IoCompletion => 2 end.

(** [a.source.cmp(..).then(scheduled_at).then(registration_seq)] is not
    [Greater] *)
Definition task_le (a b : Macrotask) : bool :=
  let ra := source_rank (source a) in
  let rb := source_rank (source b) in
  (ra <? rb) ||
  ((ra =? rb) &&
   ((scheduled_at a <? scheduled_at b) ||
    ((scheduled_at a =? scheduled_at b) && (registration_seq a <=? registration_seq b)))).

(** [iter().enumerate().filter(..).min_by(..)]: the first minimum. *)
Definition best (now : Z) (l : list Macrotask) : option (nat * Macrotask) :=
  fold_left (fun acc '(i, t) =>
      if scheduled_at t <=? now then
        match acc with
        | Some (j, u) => if task_le u t then Some (j, u) else Some (i, t)
        | None => Some (i, t)
        end
      else acc)
    (imap pair l) None.

Definition dequeue_ready (q : MacrotaskQueue) (now : Z) : MacrotaskQueue * option Macrotask :=
  match best now (ma_tasks q) with
  | Some (i, t) => (mkMacro (delete i (ma_tasks q)) (next_registration_seq q), Some t)
  | None => (q, None)
  end.

(** [iter().map(|t| t.scheduled_at).min()] *)
Definition next_scheduled_time (q : MacrotaskQueue) : option Z :=
  match scheduled_at <$> ma_tasks q with
  | [] => None
  | t :: ts => Some (fold_left Z.min ts t)
  end.

Definition is_empty (q : MacrotaskQueue) : bool :=
  match ma_tasks q with [] => true | _ => false end.
End Macro.

(** ** The event loop *)

Record EventLoop := mkLoop {
  microtasks : MicrotaskQueue;
  macrotasks : MacrotaskQueue;
  clock : VirtualClock;
  el_witness : list WitnessEvent;
  max_microtasks_per_turn : Z }.

Record TurnResult := mkTurn {
  microtasks_drained : Z;
  macrotask : option Macrotask;
  clock_advanced : bool }.

Module Loop.
Definition new : EventLoop := mkLoop Micro.new Macro.new Clock.new [] 100000.

(** The [while] loop; every iteration consumes a task, so the pending tasks
    bound the iterations. *)
Fixpoint drain_loop (fuel : nat) (max count : Z) (q : MicrotaskQueue) : MicrotaskQueue * Z :=
  match fuel with
  | O => (q, count)
  | S fuel =>
      if negb (Micro.is_empty q) && (count <? max) then
        match Micro.dequeue q with
        | (q, Some _) => drain_loop fuel max (count + 1) q
        | (q, None) => drain_loop fuel max count q
        end
      else (q, count)
  end.

Definition drain_microtasks (l : EventLoop) : EventLoop * Z :=
  let q := microtasks l in
  let '(q, count) := drain_loop (S (length (mq_tasks q) - cursor q)) (max_microtasks_per_turn l) 0 q in
  (mkLoop q (macrotasks l) (clock l) (el_witness l) (max_microtasks_per_turn l), count).

(** Take a ready task at the current time and record it. *)
Definition take_ready (l : EventLoop) : option (EventLoop * Macrotask) :=
  match Macro.dequeue_ready (macrotasks l) (current_ms (clock l)) with
  | (q, Some t) =>
      Some (mkLoop (microtasks l) q (clock l)
              (el_witness l ++ [WMacrotaskExecuted (source t) (registration_seq t)])
              (max_microtasks_per_turn l), t)
  | (_, None) => None
  end.

Definition turn (l : EventLoop) : EventLoop * TurnResult :=
  let '(l, micro_count) := drain_microtasks l in
  match take_ready l with
  | Some (l, t) => (l, mkTurn micro_count (Some t) false)
  | None =>
      match Macro.next_scheduled_time (macrotasks l) with
      | Some next_time =>
          let from := current_ms (clock l) in
          let l := mkLoop (microtasks l) (macrotasks l) (Clock.advance_to (clock l) next_time)
                     (el_witness l ++ [WClockAdvanced from next_time]) (max_microtasks_per_turn l) in
          match take_ready l with
          | Some (l, t) => (l, mkTurn micro_count (Some t) true)
          | None => (l, mkTurn micro_count None false)
          end
      | None => (l, mkTurn micro_count None false)
      end
  end.

Definition set_timeout (l : EventLoop) (h : ClosureHandle) (delay_ms : Z) (label : Label) :
    EventLoop * Z :=
  let fire_at := wrap_u64 (current_ms (clock l) + delay_ms) in
  let '(q, seq) := Macro.schedule (macrotasks l) Timer h fire_at label in
  (mkLoop (microtasks l) q (clock l) (el_witness l) (max_microtasks_per_turn l), seq).

Definition has_pending_work (l : EventLoop) : bool :=
  negb (Micro.is_empty (microtasks l)) || negb (Macro.is_empty (macrotasks l)).
End Loop.

(** ** Combinators *)

Record PromiseAllTracker := mkAll {
  all_result_promise : PromiseHandle;
  all_values : gmap Z JsValue;
  all_total : Z;
  all_resolved_count : Z;
  all_settled : bool }.

Record SettledOutcome := mkSettled { status : string; so_value : JsValue }.

Record PromiseAllSettledTracker := mkAllSettled {
  as_result_promise : PromiseHandle;
  as_outcomes : gmap Z SettledOutcome;
  as_total : Z;
  as_settled_count : Z }.

Record PromiseRaceTracker := mkRace { race_result_promise : PromiseHandle; race_settled : bool }.

Record PromiseAnyTracker := mkAny {
  any_result_promise : PromiseHandle;
  any_errors : gmap Z JsValue;
  any_total : Z;
  any_rejected_count : Z;
  any_settled : bool }.

(** [if !map.contains_key(&index) { count += 1 }] on a [u32] *)
Definition count_new {V} (m : gmap Z V) (index count : Z) : Z :=
  match m !! index with Some _ => count | None => wrap_u32 (count + 1) end.

(** [(0..total).map(|i| map.get(&i).cloned().unwrap_or(Undefined)).collect()] *)
Definition collect_in_order (m : gmap Z JsValue) (total : Z) : list JsValue :=
  (fun i => default JsUndefined (m !! i)) <$> seqZ 0 total.

Module All.
Definition record_fulfillment (t : PromiseAllTracker) (index : Z) (v : JsValue) :
    PromiseAllTracker * bool :=
  if all_settled t then (t, false)
  else
    let n := count_new (all_values t) index (all_resolved_count t) in
    (mkAll (all_result_promise t) (<[index := v]> (all_values t)) (all_total t) n (all_settled t),
     n =? all_total t).

Definition mark_settled (t : PromiseAllTracker) : PromiseAllTracker :=
  mkAll (all_result_promise t) (all_values t) (all_total t) (all_resolved_count t) true.

Definition collect_values (t : PromiseAllTracker) : list JsValue :=
  collect_in_order (all_values t) (all_total t).
End All.

Module AllSettled.
Definition record (t : PromiseAllSettledTracker) (index : Z) (o : SettledOutcome) :
    PromiseAllSettledTracker * bool :=
  let n := count_new (as_outcomes t) index (as_settled_count t) in
  (mkAllSettled (as_result_promise t) (<[index := o]> (as_outcomes t)) (as_total t) n,
   n =? as_total t).
Definition record_fulfillment (t : PromiseAllSettledTracker) (index : Z) (v : JsValue) :=
  record t index (mkSettled "fulfilled" v).
Definition record_rejection (t : PromiseAllSettledTracker) (index : Z) (reason : JsValue) :=
  record t index (mkSettled "rejected" reason).
End AllSettled.

Module Race.
Definition try_settle (t : PromiseRaceTracker) : PromiseRaceTracker * bool :=
  if race_settled t then (t, false) else (mkRace (race_result_promise t) true, true).
End Race.

Module Any.
Definition record_rejection (t : PromiseAnyTracker) (index : Z) (reason : JsValue) :
    PromiseAnyTracker * bool :=
  if any_settled t then (t, false)
  else
    let n := count_new (any_errors t) index (any_rejected_count t) in
    (mkAny (any_result_promise t) (<[index := reason]> (any_errors t)) (any_total t) n (any_settled t),
     n =? any_total t).

Definition mark_settled (t : PromiseAnyTracker) : PromiseAnyTracker :=
  mkAny (any_result_promise t) (any_errors t) (any_total t) (any_rejected_count t) true.

Definition collect_errors (t : PromiseAnyTracker) : list JsValue :=
  collect_in_order (any_errors t) (any_total t).
End Any.
