(* ===== verification/PromiseCorrect.v ===== *)
(** * Correctness of promises, queues and the event loop

    A settled promise never changes again; the microtask queue with its cursor
    is a FIFO queue; a turn of the event loop drains the microtasks first and
    always runs the best ready macrotask when there is one. *)
From Stdlib Require Import Sorted.
From stdpp Require Import base numbers list strings gmap relations sets.
From S2P Require Import Prelude Bytes FlowLattice ObjectModel PromiseModel.
Open Scope string_scope.
Open Scope list_scope.
Open Scope Z_scope.

(** ** The microtask queue is a FIFO queue *)

(** The tasks still to run, in order. *)
Definition pending (q : MicrotaskQueue) : list Microtask := drop (cursor q) (mq_tasks q).

Definition micro_ok (q : MicrotaskQueue) : Prop := (cursor q <= length (mq_tasks q))%nat.

Lemma enqueue_pending q t :
  micro_ok q -> pending (Micro.enqueue q t) = pending q ++ [t] /\ micro_ok (Micro.enqueue q t).
Proof.
  intros Hq. unfold pending, micro_ok, Micro.enqueue in *. simpl. rewrite length_app.
  split; [|simpl; lia]. by rewrite drop_app_le.
Qed.

Lemma dequeue_pending q :
  micro_ok q ->
  match pending q with
  | [] => Micro.dequeue q = (q, None)
  | t :: rest => exists q', Micro.dequeue q = (q', Some t) /\ pending q' = rest /\ micro_ok q'
  end.
Proof.
  intros Hq. unfold pending, Micro.dequeue, micro_ok in *.
  destruct (drop (cursor q) (mq_tasks q)) as [|t rest] eqn:Hd.
  - assert (mq_tasks q !! cursor q = None) as ->; [|done].
    apply lookup_ge_None. assert (length (drop (cursor q) (mq_tasks q)) = 0%nat) by by rewrite Hd.
    rewrite length_drop in *. lia.
  - assert (mq_tasks q !! cursor q = Some t) as Ht.
    { replace (cursor q) with (cursor q + 0)%nat by lia. rewrite <- lookup_drop, Hd. done. }
    rewrite Ht. eexists. split; [reflexivity|]. simpl. apply lookup_lt_Some in Ht. split; [|lia].
    replace (S (cursor q)) with (cursor q + 1)%nat by lia. rewrite <- drop_drop, Hd. done.
Qed.

Lemma compact_pending q :
  micro_ok q -> pending (Micro.compact q) = pending q /\ micro_ok (Micro.compact q).
Proof.
  intros Hq. unfold Micro.compact. destruct (Nat.ltb_spec 0 (cursor q)); [|done].
  unfold pending, micro_ok. simpl. split; [done|lia].
Qed.

Lemma pending_count_spec q : micro_ok q -> Micro.pending_count q = zlen (pending q).
Proof. unfold micro_ok, Micro.pending_count, pending, zlen. rewrite length_drop. lia. Qed.

Lemma is_empty_spec q : Micro.is_empty q = true <-> pending q = [].
Proof.
  unfold Micro.is_empty, pending. rewrite Nat.leb_le. split; [apply drop_ge|].
  intros Hd%(f_equal length). rewrite length_drop in Hd. simpl in Hd. lia.
Qed.

Inductive QueueOp := QEnqueue (t : Microtask) | QDequeue | QCompact.

Fixpoint queue_run (q : MicrotaskQueue) (ops : list QueueOp) : MicrotaskQueue * list (option Microtask) :=
  match ops with
  | [] => (q, [])
  | QEnqueue t :: ops => queue_run (Micro.enqueue q t) ops
  | QDequeue :: ops =>
      let '(q, t) := Micro.dequeue q in
      let '(q, outs) := queue_run q ops in (q, t :: outs)
  | QCompact :: ops => queue_run (Micro.compact q) ops
  end.

(** The specification: a list. *)
Fixpoint fifo_run (l : list Microtask) (ops : list QueueOp) : list Microtask * list (option Microtask) :=
  match ops with
  | [] => (l, [])
  | QEnqueue t :: ops => fifo_run (l ++ [t]) ops
  | QDequeue :: ops => let '(l', outs) := fifo_run (tail l) ops in (l', head l :: outs)
  | QCompact :: ops => fifo_run l ops
  end.

Lemma queue_refines q ops :
  micro_ok q ->
  (queue_run q ops).2 = (fifo_run (pending q) ops).2 /\
  pending (queue_run q ops).1 = (fifo_run (pending q) ops).1 /\ micro_ok (queue_run q ops).1.
Proof.
  revert q. induction ops as [|[t| |] ops IH]; intros q Hq; simpl; [done|..].
  - destruct (enqueue_pending q t Hq) as [<- Hq']. by apply IH.
  - pose proof (dequeue_pending q Hq) as Hd. destruct (pending q) as [|t rest] eqn:Hp.
    + rewrite Hd. destruct (IH q Hq) as (H1 & H2 & H3). rewrite Hp in H1, H2. simpl.
      destruct (queue_run q ops), (fifo_run [] ops). simpl in *. by subst.
    + destruct Hd as (q' & -> & Hp' & Hq'). destruct (IH q' Hq') as (H1 & H2 & H3).
      rewrite Hp' in H1, H2. simpl. destruct (queue_run q' ops), (fifo_run rest ops). simpl in *. by subst.
  - destruct (compact_pending q Hq) as [<- Hq']. by apply IH.
Qed.

(** The microtask queue with its cursor and compaction implements a FIFO queue: every
    sequence of enqueue, dequeue and compact operations returns what a list would return,
    with the pending tasks, their count and emptiness to match. *)
Theorem promise_microtasks_fifo (ops : list QueueOp) :
  let q := (queue_run Micro.new ops).1 in
  (queue_run Micro.new ops).2 = (fifo_run [] ops).2 /\
  pending q = (fifo_run [] ops).1 /\
  Micro.pending_count q = zlen (fifo_run [] ops).1 /\
  (Micro.is_empty q = true <-> (fifo_run [] ops).1 = []).
Proof.
  destruct (queue_refines Micro.new ops) as (H1 & H2 & H3); [unfold micro_ok; simpl; lia|].
  change (pending Micro.new) with (@nil Microtask) in *. cbv zeta.
  rewrite pending_count_spec, is_empty_spec, H2 by done. done.
Qed.

(** The dequeue events are numbered by the cursor, which compaction resets, and
    not by the number the task was enqueued under. *)
Example dequeue_index_after_compact :
  let t := MPromiseReaction None JsUndefined 0 LPublic in
  mq_witness (queue_run Micro.new
    [QEnqueue t; QDequeue; QCompact; QEnqueue t; QDequeue]).1 =
  [WMicrotaskEnqueued 0; WMicrotaskDequeued 0; WMicrotaskEnqueued 1; WMicrotaskDequeued 0].
Proof. reflexivity. Qed.

(** ** Promises settle once *)

(** Steps of the store and its queue. *)
Inductive pstep : PromiseStore * MicrotaskQueue -> PromiseStore * MicrotaskQueue -> Prop :=
  | ps_create s q : pstep (s, q) ((Store.create s).1, q)
  | ps_fulfill s q h v l s' q' : Store.fulfill s h v l q = Ok (s', q') -> pstep (s, q) (s', q')
  | ps_reject s q h v l s' q' : Store.reject s h v l q = Ok (s', q') -> pstep (s, q) (s', q')
  | ps_then s q h f r l s' q' h' : Store.then_ s h f r l q = Ok (s', q', h') -> pstep (s, q) (s', q')
  | ps_resolve s q v l s' q' h : Store.resolve s v l q = Some (s', q', h) -> pstep (s, q) (s', q')
  | ps_reject_with s q v l s' q' h :
      Store.reject_with s v l q = Some (s', q', h) -> pstep (s, q) (s', q')
  | ps_dequeue s q : pstep (s, q) (s, (Micro.dequeue q).1)
  | ps_compact s q : pstep (s, q) (s, Micro.compact q).

(** How a record may evolve: identity fields stay; once settled, so do the
    state and the label, and no reaction is left. *)
Definition evolves (r r' : PromiseRecord) : Prop :=
  handle r' = handle r /\ creation_seq r' = creation_seq r /\
  (is_settled (state r) = true -> state r' = state r /\ p_label r' = p_label r).

Definition settled_clean (r : PromiseRecord) : Prop := is_settled (state r) = true -> reactions r = [].

Record store_step (s s' : PromiseStore) : Prop := {
  sp_grow : forall i r, promises s !! i = Some r -> exists r', promises s' !! i = Some r' /\ evolves r r';
  sp_clean : Forall settled_clean (promises s) -> Forall settled_clean (promises s') }.

Lemma evolves_refl r : evolves r r.
Proof. done. Qed.

Lemma evolves_trans r1 r2 r3 : evolves r1 r2 -> evolves r2 r3 -> evolves r1 r3.
Proof.
  intros (H1 & H2 & H3) (H4 & H5 & H6). split; [congruence|]. split; [congruence|].
  intros Hs. destruct (H3 Hs) as [Hst Hl]. rewrite <- Hst, <- Hl. apply H6. by rewrite Hst.
Qed.

#[export] Instance store_step_preorder : PreOrder store_step.
Proof.
  split.
  - intros s. split; [|done]. intros i r Hr. exists r. split; [done|apply evolves_refl].
  - intros s1 s2 s3 [G1 C1] [G2 C2]. split; [|by auto]. intros i r Hr.
    destruct (G1 _ _ Hr) as (r2 & H2 & E2). destruct (G2 _ _ H2) as (r3 & H3 & E3).
    exists r3. split; [done|]. by eapply evolves_trans.
Qed.

Lemma create_step s : store_step s (Store.create s).1.
Proof.
  split; simpl.
  - intros i r Hr. exists r. split; [by apply lookup_app_l_Some|apply evolves_refl].
  - intros Hc. apply Forall_app. split; [done|]. by apply Forall_singleton.
Qed.

Lemma get_lookup s h r : Store.get s h = Ok r -> promises s !! Z.to_nat h = Some r.
Proof. unfold Store.get. intros Hg%ok_or_Ok. by destruct (h <? 0). Qed.

(** Replacing a record by one it may evolve to. *)
Lemma update_step s h r r' :
  promises s !! Z.to_nat h = Some r -> evolves r r' -> settled_clean r' ->
  store_step s (Store.update s h r').
Proof.
  intros Hr He Hc. split; simpl.
  - intros i x Hx. destruct (decide (Z.to_nat h = i)) as [<-|Hne].
    + exists r'. rewrite Hr in Hx. injection Hx as <-. split; [|done].
      apply list_lookup_insert_eq. by eapply lookup_lt_Some.
    + exists x. split; [by rewrite list_lookup_insert_ne|apply evolves_refl].
  - intros Hall. by apply Forall_insert.
Qed.

Lemma log_step s s1 e : store_step s s1 -> store_step s (Store.log s1 e).
Proof. by intros [G C]. Qed.

Lemma fulfill_step s h v l q s' q' : Store.fulfill s h v l q = Ok (s', q') -> store_step s s'.
Proof.
  unfold Store.fulfill. intros (r & Hr%get_lookup & H)%bind_Ok.
  destruct (is_settled (state r)) eqn:Hs; [done|]. injection H as <- _.
  apply log_step. eapply update_step; [done| |done]. split; [done|]. split; [done|]. congruence.
Qed.

Lemma reject_step s h v l q s' q' : Store.reject s h v l q = Ok (s', q') -> store_step s s'.
Proof.
  unfold Store.reject. intros (r & Hr%get_lookup & H)%bind_Ok.
  destruct (is_settled (state r)) eqn:Hs; [done|]. injection H as <- _.
  apply log_step. eapply update_step; [done| |done]. split; [done|]. split; [done|]. congruence.
Qed.

(** Creating a promise leaves the others as they are. *)
Lemma create_lookup s i r :
  promises s !! i = Some r -> promises (Store.create s).1 !! i = Some r.
Proof. intros Hr. by apply lookup_app_l_Some. Qed.

Lemma then_step s h f r l q s' q' h' :
  Forall settled_clean (promises s) -> Store.then_ s h f r l q = Ok (s', q', h') -> store_step s s'.
Proof.
  intros Hclean. unfold Store.then_. intros (rec & Hrec%get_lookup & H)%bind_Ok.
  pose proof (create_step s) as Hcr. pose proof (create_lookup _ _ _ Hrec) as Hrec1.
  destruct (Store.create s) as [s1 h1]. simpl in Hcr, Hrec1.
  assert (settled_clean rec) as Hrc by (by eapply Forall_lookup_1).
  destruct (state rec) eqn:Hst.
  - apply bind_Ok in H as (rec2 & Hrec2%get_lookup & H). injection H as <- _ _. etrans; [done|].
    rewrite Hrec1 in Hrec2. injection Hrec2 as <-.
    eapply update_step; [done|done|]. intros Hs. simpl in Hs. by rewrite Hst in Hs.
  - by injection H as <- _ _.
  - apply bind_Ok in H as (s2 & Hs2 & H). injection H as <- _ _. etrans; [done|].
    destruct r as [c|]; [|by injection Hs2 as <-].
    apply bind_Ok in Hs2 as (rec2 & Hrec2%get_lookup & Hs2). injection Hs2 as <-.
    rewrite Hrec1 in Hrec2. injection Hrec2 as <-. by eapply update_step.
Qed.

Lemma resolve_step s v l q s' q' h : Store.resolve s v l q = Some (s', q', h) -> store_step s s'.
Proof.
  unfold Store.resolve. pose proof (create_step s) as Hc. destruct (Store.create s) as [s1 h1].
  destruct (Store.fulfill s1 h1 v l q) as [[s2 q2]|] eqn:Hf; [|done]. intros [= <- _ _].
  etrans; [done|]. by eapply fulfill_step.
Qed.

Lemma reject_with_step s v l q s' q' h :
  Store.reject_with s v l q = Some (s', q', h) -> store_step s s'.
Proof.
  unfold Store.reject_with. pose proof (create_step s) as Hc. destruct (Store.create s) as [s1 h1].
  destruct (Store.reject s1 h1 v l q) as [[s2 q2]|] eqn:Hf; [|done]. intros [= <- _ _].
  etrans; [done|]. by eapply reject_step.
Qed.

Create HintDb promise.
#[export] Hint Resolve create_step fulfill_step reject_step then_step resolve_step
  reject_with_step : promise.

Lemma pstep_step c c' :
  pstep c c' -> Forall settled_clean (promises c.1) -> store_step c.1 c'.1.
Proof. intros Hs Hc. destruct Hs; simpl in *; eauto with promise; reflexivity. Qed.

Lemma psteps_step c c' :
  rtc pstep c c' -> Forall settled_clean (promises c.1) -> store_step c.1 c'.1.
Proof.
  induction 1 as [c|c c1 c' Hstep Hrest IH]; intros Hc; [reflexivity|].
  pose proof (pstep_step _ _ Hstep Hc) as H1. etrans; [done|]. apply IH. by apply (sp_clean _ _ H1).
Qed.

(** Promises settle once. In every reachable state, a settled promise keeps its
    state, label and identity and has no reaction left through all further operations of
    the store and the queue, and any attempt to fulfil or reject it again is an
    AlreadySettled error. *)
Theorem promise_settle_once s q s' q' h r :
  rtc pstep (Store.new, Micro.new) (s, q) -> rtc pstep (s, q) (s', q') ->
  Store.get s h = Ok r -> is_settled (state r) = true ->
  exists r', Store.get s' h = Ok r' /\ state r' = state r /\ p_label r' = p_label r /\
    reactions r' = [] /\ handle r' = handle r /\ creation_seq r' = creation_seq r /\
    forall v l q0, Store.fulfill s' h v l q0 = Err (AlreadySettled h) /\
                   Store.reject s' h v l q0 = Err (AlreadySettled h).
Proof.
  intros H0 H1 Hr Hs.
  assert (Forall settled_clean (promises s)) as Hc
    by (apply (sp_clean _ _ (psteps_step _ _ H0 (Forall_nil_2 _)) (Forall_nil_2 _))).
  pose proof (psteps_step _ _ H1 Hc) as [Hg Hc1]. simpl in *.
  destruct (Hg _ _ (get_lookup _ _ _ Hr)) as (r' & Hr' & Hh & Hq & Hev).
  destruct (Hev Hs) as [Hst Hl]. specialize (Hc1 Hc).
  assert (Store.get s' h = Ok r') as Hget.
  { unfold Store.get in *. destruct (h <? 0); [done|]. by rewrite Hr'. }
  exists r'. repeat split; [done..| | | | |]; try done.
  - apply (Forall_lookup_1 _ _ _ _ Hc1 Hr'). by rewrite Hst.
  - unfold Store.fulfill. rewrite Hget. simpl. by rewrite Hst, Hs.
  - unfold Store.reject. rewrite Hget. simpl. by rewrite Hst, Hs.
Qed.

Module Settled.
Definition f : option ClosureHandle := Some 7.
Definition s1 : PromiseStore := (Store.create Store.new).1.
Definition unsettled : result PromiseError (PromiseStore * MicrotaskQueue * PromiseHandle) :=
  Store.then_ s1 0 f None LPublic Micro.new.
Definition s2 : PromiseStore := match unsettled with Ok (s, _, _) => s | Err _ => Store.new end.
Definition s3 : PromiseStore :=
  match Store.fulfill s2 0 (JsInt 42) LInternal Micro.new with Ok (s, _) => s | Err _ => Store.new end.
Definition q3 : MicrotaskQueue :=
  match Store.fulfill s2 0 (JsInt 42) LInternal Micro.new with Ok (_, q) => q | Err _ => Micro.new end.
Definition q4 : MicrotaskQueue := Micro.compact (Micro.dequeue q3).1.
Definition s5 : PromiseStore :=
  match Store.then_ s3 0 f f LPublic q4 with Ok (s, _, _) => s | Err _ => Store.new end.
Definition q5 : MicrotaskQueue :=
  match Store.then_ s3 0 f f LPublic q4 with Ok (_, q, _) => q | Err _ => Micro.new end.
Definition record : PromiseRecord := mkPromise 0 (Fulfilled (JsInt 42)) [] LInternal 0 false.
End Settled.

Lemma promise_settle_once_witness :
  exists r', Store.get Settled.s5 0 = Ok r' /\ state r' = Fulfilled (JsInt 42) /\
    p_label r' = LInternal /\ reactions r' = [] /\ handle r' = 0 /\ creation_seq r' = 0 /\
    forall v l q0, Store.fulfill Settled.s5 0 v l q0 = Err (AlreadySettled 0) /\
                   Store.reject Settled.s5 0 v l q0 = Err (AlreadySettled 0).
Proof.
  apply (promise_settle_once Settled.s3 Settled.q3 Settled.s5 Settled.q5 0 Settled.record).
  - eapply rtc_l; [apply ps_create|]. eapply rtc_l.
    { eapply (ps_then _ _ 0 Settled.f None LPublic Settled.s2 Micro.new 1). reflexivity. }
    eapply rtc_l; [|apply rtc_refl]. eapply (ps_fulfill _ _ 0 (JsInt 42) LInternal). reflexivity.
  - eapply rtc_l; [apply ps_dequeue|]. eapply rtc_l; [apply ps_compact|].
    eapply rtc_l; [|apply rtc_refl]. eapply (ps_then _ _ 0 Settled.f Settled.f LPublic). reflexivity.
  - reflexivity.
  - reflexivity.
Defined.

(** ** The jobs of a settlement *)

Lemma enqueue_reactions_pending k v l rs q :
  micro_ok q ->
  pending (Store.enqueue_reactions k v l rs q) = pending q ++ map (Store.reaction_task k v l) rs /\
  micro_ok (Store.enqueue_reactions k v l rs q).
Proof.
  revert q. induction rs as [|r rs IH]; intros q Hq; simpl; [by rewrite app_nil_r|].
  destruct (enqueue_pending q (Store.reaction_task k v l r) Hq) as [Hp Hq'].
  unfold Store.enqueue_reactions in *. simpl. destruct (IH _ Hq') as [-> Hok]. split; [|done].
  by rewrite Hp, <- app_assoc.
Qed.

(** Attaching handlers before or after the settlement. *)
Definition attach_then_fulfill (f r : option ClosureHandle) (v : JsValue) : option (list Microtask) :=
  match Store.then_ (Store.create Store.new).1 0 f r LPublic Micro.new with
  | Ok (s, q, _) => match Store.fulfill s 0 v LPublic q with
                    | Ok (_, q) => Some (pending q)
                    | Err _ => None
                    end
  | Err _ => None
  end.

Definition fulfill_then_attach (f r : option ClosureHandle) (v : JsValue) : option (list Microtask) :=
  match Store.fulfill (Store.create Store.new).1 0 v LPublic Micro.new with
  | Ok (s, q) => match Store.then_ s 0 f r LPublic q with
                 | Ok (_, q, _) => Some (pending q)
                 | Err _ => None
                 end
  | Err _ => None
  end.

(** One [then] on a pending promise makes two jobs for one result promise, the
    second without a handler; on a settled promise it makes one. *)
Lemma then_on_pending_runs_twice f r v :
  attach_then_fulfill f r v = Some [MPromiseReaction f v 1 LPublic; MPromiseReaction None v 1 LPublic] /\
  fulfill_then_attach f r v = Some [MPromiseReaction f v 1 LPublic].
Proof. split; reflexivity. Qed.

Definition attach_then_reject (v : JsValue) : option (list Microtask) :=
  match Store.then_ (Store.create Store.new).1 0 None None LPublic Micro.new with
  | Ok (s, q, _) => match Store.reject s 0 v LPublic q with
                    | Ok (_, q) => Some (pending q)
                    | Err _ => None
                    end
  | Err _ => None
  end.

(** Without handlers the jobs of a rejection are those of a fulfilment: the
    consumer of the queue cannot tell a value from a reason. *)
Lemma rejection_jobs_look_fulfilled v :
  attach_then_reject v = attach_then_fulfill None None v.
Proof. reflexivity. Qed.

(** ** A turn of the event loop *)

Definition Ready (now : Z) (t : Macrotask) : Prop := scheduled_at t <= now.

Lemma task_le_refl t : Macro.task_le t t = true.
Proof. unfold Macro.task_le. rewrite !Z.ltb_irrefl, !Z.eqb_refl, Z.leb_refl. done. Qed.

Lemma task_le_trans a b c :
  Macro.task_le a b = true -> Macro.task_le b c = true -> Macro.task_le a c = true.
Proof.
  unfold Macro.task_le. rewrite !orb_true_iff, !andb_true_iff, !orb_true_iff, !andb_true_iff,
    !Z.ltb_lt, !Z.eqb_eq, !Z.leb_le. lia.
Qed.

Lemma task_le_total a b : Macro.task_le a b = false -> Macro.task_le b a = true.
Proof.
  rewrite <- not_true_iff_false. unfold Macro.task_le.
  rewrite !orb_true_iff, !andb_true_iff, !orb_true_iff, !andb_true_iff,
    !Z.ltb_lt, !Z.eqb_eq, !Z.leb_le. lia.
Qed.

Lemma elem_of_snoc (l : list Macrotask) (t u : Macrotask) : u ∈ l ++ [t] -> u ∈ l \/ u = t.
Proof. by rewrite elem_of_app, list_elem_of_singleton. Qed.

(** What the fold of [best] knows after a prefix [l]. *)
Definition best_of (now : Z) (l : list Macrotask) (acc : option (nat * Macrotask)) : Prop :=
  match acc with
  | None => forall t, t ∈ l -> ~ Ready now t
  | Some (i, t) => l !! i = Some t /\ Ready now t /\
      forall u, u ∈ l -> Ready now u -> Macro.task_le t u = true
  end.

Lemma best_step now l acc t :
  best_of now l acc ->
  best_of now (l ++ [t])
    (if scheduled_at t <=? now then
       match acc with
       | Some (j, u) => if Macro.task_le u t then Some (j, u) else Some (length l, t)
       | None => Some (length l, t)
       end
     else acc).
Proof.
  intros Hb. assert ((l ++ [t]) !! length l = Some t) as Hlast by by apply list_lookup_middle.
  destruct (Z.leb_spec (scheduled_at t) now) as [Hr|Hr]; destruct acc as [[j u]|]; simpl in *.
  - destruct Hb as (Hj & Hu & Hmin). destruct (Macro.task_le u t) eqn:Hle; simpl.
    + split; [by apply lookup_app_l_Some|]. split; [done|].
      intros w [Hw| ->]%elem_of_snoc Hw'; auto.
    + split; [done|]. split; [done|]. apply task_le_total in Hle.
      intros w [Hw| ->]%elem_of_snoc Hw'; [|apply task_le_refl].
      eapply task_le_trans; [done|]. by apply Hmin.
  - split; [done|]. split; [done|].
    intros w [Hw| ->]%elem_of_snoc Hw'; [|apply task_le_refl].
    by apply Hb in Hw.
  - destruct Hb as (Hj & Hu & Hmin). split; [by apply lookup_app_l_Some|]. split; [done|].
    intros w [Hw| ->]%elem_of_snoc Hw'; [by auto|]. unfold Ready in *. lia.
  - intros w [Hw| ->]%elem_of_snoc; [by auto|]. unfold Ready. lia.
Qed.

Lemma best_spec now l : best_of now l (Macro.best now l).
Proof.
  induction l as [|t l IH] using rev_ind; [by intros t ?%elem_of_nil|].
  unfold Macro.best. rewrite imap_app, fold_left_app. simpl. rewrite Nat.add_0_r.
  by apply best_step.
Qed.

(** A ready task leaves the queue; nothing else does. *)
Lemma dequeue_ready_spec q now :
  match Macro.dequeue_ready q now with
  | (q', Some t) =>
      ma_tasks q ≡ₚ t :: ma_tasks q' /\ Ready now t /\
      forall u, u ∈ ma_tasks q -> Ready now u -> Macro.task_le t u = true
  | (q', None) => q' = q /\ forall u, u ∈ ma_tasks q -> ~ Ready now u
  end.
Proof.
  unfold Macro.dequeue_ready. pose proof (best_spec now (ma_tasks q)) as Hb.
  destruct (Macro.best now (ma_tasks q)) as [[i t]|]; [|done].
  destruct Hb as (Hi & Hr & Hmin). split; [|done]. simpl. by apply delete_Permutation.
Qed.

Lemma fold_min_spec ts t :
  (fold_left Z.min ts t = t \/ fold_left Z.min ts t ∈ ts) /\
  fold_left Z.min ts t <= t /\ forall u, u ∈ ts -> fold_left Z.min ts t <= u.
Proof.
  revert t. induction ts as [|x ts IH]; intros t; simpl.
  - split; [by left|]. split; [lia|]. by intros u ?%elem_of_nil.
  - destruct (IH (Z.min t x)) as (Hin & Hle & Hall). split; [|split; [lia|]].
    + destruct Hin as [->|Hin]; [|right; by right].
      destruct (Z.min_spec t x) as [[_ ->]|[_ ->]]; [by left|right; by left].
    + intros u [->|Hu]%elem_of_cons; [lia|by apply Hall].
Qed.

(** The next time is the least one scheduled. *)
Lemma next_scheduled_time_spec q :
  match Macro.next_scheduled_time q with
  | None => ma_tasks q = []
  | Some m => (exists t, t ∈ ma_tasks q /\ scheduled_at t = m) /\
              forall u, u ∈ ma_tasks q -> m <= scheduled_at u
  end.
Proof.
  unfold Macro.next_scheduled_time. destruct (ma_tasks q) as [|t ts]; [done|]. rewrite fmap_cons.
  destruct (fold_min_spec (scheduled_at <$> ts) (scheduled_at t)) as (Hin & Hle & Hall). split.
  - destruct Hin as [->|(u & Hu & Hin)%list_elem_of_fmap]; [exists t; split; [by left|done]|].
    exists u. split; [by right|done].
  - intros u [->|Hu]%elem_of_cons; [done|]. apply Hall. apply list_elem_of_fmap. by exists u.
Qed.

(** Draining runs the first tasks, as many as the budget of the turn allows. *)
Lemma drain_loop_spec fuel max count q :
  micro_ok q -> (length (pending q) < fuel)%nat -> count <= max ->
  let n := Z.min (zlen (pending q)) (max - count) in
  let '(q', count') := Loop.drain_loop fuel max count q in
  count' = count + n /\ pending q' = drop (Z.to_nat n) (pending q) /\ micro_ok q'.
Proof.
  revert count q. induction fuel as [|fuel IH]; intros count q Hq Hf Hc; [lia|]. simpl.
  pose proof (is_empty_spec q) as He. pose proof (dequeue_pending q Hq) as Hd.
  destruct (pending q) as [|t rest] eqn:Hp.
  - destruct (Micro.is_empty q) eqn:Hem; [|by destruct He as [_ He]; specialize (He eq_refl)].
    simpl. rewrite Hp, drop_nil. unfold zlen. simpl. split; [lia|done].
  - destruct (Micro.is_empty q) eqn:Hem; [by destruct He as [He _]; specialize (He eq_refl)|].
    simpl. destruct (Z.ltb_spec count max) as [Hlt|Hge].
    + destruct Hd as (q' & -> & Hrest & Hq'). specialize (IH (count + 1) q' Hq').
      destruct (Loop.drain_loop fuel max (count + 1) q') as [q'' count'']. rewrite Hrest in IH.
      destruct IH as (-> & -> & Hok); [simpl in Hf; lia|lia|]. unfold zlen. simpl length.
      split; [lia|]. split; [|done].
      replace (Z.to_nat (Z.min (Z.of_nat (S (length rest))) (max - count)))
        with (S (Z.to_nat (Z.min (Z.of_nat (length rest)) (max - (count + 1))))) by lia. done.
    + unfold zlen. replace (Z.min _ _) with 0 by lia. split; [lia|]. by rewrite Hp.
Qed.

Lemma drain_microtasks_spec l :
  micro_ok (microtasks l) -> 0 <= max_microtasks_per_turn l ->
  let n := Z.min (zlen (pending (microtasks l))) (max_microtasks_per_turn l) in
  exists q, Loop.drain_microtasks l =
      (mkLoop q (macrotasks l) (clock l) (el_witness l) (max_microtasks_per_turn l), n) /\
    pending q = drop (Z.to_nat n) (pending (microtasks l)) /\ micro_ok q.
Proof.
  intros Hq Hm. unfold Loop.drain_microtasks.
  pose proof (drain_loop_spec (S (length (mq_tasks (microtasks l)) - cursor (microtasks l)))
    (max_microtasks_per_turn l) 0 (microtasks l) Hq) as Hd.
  destruct (Loop.drain_loop _ _ _ _) as [q' c]. destruct Hd as (Hc & Hp & Hok); [|lia|].
  { unfold pending. rewrite length_drop. lia. }
  rewrite Z.sub_0_r in Hc, Hp. rewrite Z.add_0_l in Hc. cbv zeta. rewrite <- Hc. exists q'. split; [done|].
  split; [by rewrite Hc|done].
Qed.

Lemma turn_spec l :
  micro_ok (microtasks l) -> 0 <= max_microtasks_per_turn l ->
  let '(l', r) := Loop.turn l in
  let n := Z.min (zlen (pending (microtasks l))) (max_microtasks_per_turn l) in
  microtasks_drained r = n /\
  pending (microtasks l') = drop (Z.to_nat n) (pending (microtasks l)) /\
  micro_ok (microtasks l') /\ max_microtasks_per_turn l' = max_microtasks_per_turn l /\
  current_ms (clock l) <= current_ms (clock l') /\
  match macrotask r with
  | None => ma_tasks (macrotasks l) = [] /\ l' = (Loop.drain_microtasks l).1
  | Some t =>
      ma_tasks (macrotasks l) ≡ₚ t :: ma_tasks (macrotasks l') /\
      Ready (current_ms (clock l')) t /\
      (forall u, u ∈ ma_tasks (macrotasks l) -> Ready (current_ms (clock l')) u ->
         Macro.task_le t u = true) /\
      if clock_advanced r
      then current_ms (clock l') = scheduled_at t /\
           forall u, u ∈ ma_tasks (macrotasks l) -> scheduled_at t <= scheduled_at u /\
             ~ Ready (current_ms (clock l)) u
      else clock l' = clock l
  end.
Proof.
  intros Hq Hm. destruct (drain_microtasks_spec l Hq Hm) as (q & Hd & Hp & Hok).
  unfold Loop.turn. rewrite Hd. unfold Loop.take_ready. simpl.
  pose proof (dequeue_ready_spec (macrotasks l) (current_ms (clock l))) as Hr1.
  destruct (Macro.dequeue_ready (macrotasks l) _) as [q1 [t1|]]; simpl.
  { destruct Hr1 as (H1 & H2 & H3). repeat split; [done..|lia|done|done|done]. }
  destruct Hr1 as [-> Hnone]. pose proof (next_scheduled_time_spec (macrotasks l)) as Hn.
  destruct (Macro.next_scheduled_time (macrotasks l)) as [m|]; simpl.
  2: { repeat split; [done..|lia|done]. }
  destruct Hn as ((t0 & Ht0 & Hm0) & Hmin).
  assert (current_ms (clock l) < m) as Hlt
    by (pose proof (Hnone _ Ht0) as Hnr; unfold Ready in Hnr; lia).
  unfold Clock.advance_to. replace (current_ms (clock l) <? m) with true by lia. simpl.
  pose proof (dequeue_ready_spec (macrotasks l) m) as Hr2.
  destruct (Macro.dequeue_ready (macrotasks l) m) as [q2 [t2|]]; simpl.
  2: { destruct Hr2 as [_ Hnone2]. destruct (Hnone2 _ Ht0). unfold Ready. lia. }
  destruct Hr2 as (H1 & H2 & H3).
  assert (scheduled_at t2 = m) as Ht2.
  { assert (t2 ∈ ma_tasks (macrotasks l)) as Hin by (rewrite H1; by left).
    pose proof (Hmin _ Hin). unfold Ready in H2. lia. }
  repeat split; [done..|lia|done|done|done|done| |by apply Hnone]. rewrite Ht2. by apply Hmin.
Qed.

(** A turn drains the first pending microtasks up to the limit, then hands out the
    least ready macrotask by source, time and registration; when none is ready the clock
    jumps to the earliest scheduled time and that task is taken. Without macrotasks
    nothing but the drain happens, and time never goes back. *)
Theorem event_loop_turn_progress l :
  micro_ok (microtasks l) -> 0 <= max_microtasks_per_turn l ->
  let '(l', r) := Loop.turn l in
  let n := Z.min (zlen (pending (microtasks l))) (max_microtasks_per_turn l) in
  microtasks_drained r = n /\
  pending (microtasks l') = drop (Z.to_nat n) (pending (microtasks l)) /\
  current_ms (clock l) <= current_ms (clock l') /\
  match macrotask r with
  | None => ma_tasks (macrotasks l) = [] /\ l' = (Loop.drain_microtasks l).1
  | Some t =>
      ma_tasks (macrotasks l) ≡ₚ t :: ma_tasks (macrotasks l') /\
      Ready (current_ms (clock l')) t /\
      (forall u, u ∈ ma_tasks (macrotasks l) -> Ready (current_ms (clock l')) u ->
         Macro.task_le t u = true) /\
      if clock_advanced r
      then current_ms (clock l') = scheduled_at t /\
           forall u, u ∈ ma_tasks (macrotasks l) -> scheduled_at t <= scheduled_at u /\
             ~ Ready (current_ms (clock l)) u
      else clock l' = clock l
  end.
Proof.
  intros Hq Hm. pose proof (turn_spec l Hq Hm) as Hs. destruct (Loop.turn l) as [l' r].
  destruct Hs as (H1 & H2 & _ & _ & H3 & H4). done.
Qed.

(** Turns in a row, with the macrotasks they hand out. *)
Fixpoint run_turns (k : nat) (l : EventLoop) : EventLoop * list Macrotask :=
  match k with
  | O => (l, [])
  | S k =>
      let '(l, r) := Loop.turn l in
      let '(l, ts) := run_turns k l in
      (l, match macrotask r with Some t => t :: ts | None => ts end)
  end.

(** Tasks of one source run by time, then by registration. *)
Definition source_order (a b : Macrotask) : Prop := source a = source b -> Macro.task_le a b = true.

Lemma not_ready_later now t u : Ready now t -> ~ Ready now u -> source_order t u.
Proof.
  unfold Ready, source_order, Macro.task_le. intros Ht Hu ->.
  rewrite Z.ltb_irrefl, Z.eqb_refl. simpl. apply orb_true_iff. left. lia.
Qed.

Lemma run_turns_spec k l :
  micro_ok (microtasks l) -> 0 <= max_microtasks_per_turn l ->
  length (ma_tasks (macrotasks l)) = k ->
  (run_turns k l).2 ≡ₚ ma_tasks (macrotasks l) /\ ma_tasks (macrotasks (run_turns k l).1) = [] /\
  StronglySorted source_order (run_turns k l).2.
Proof.
  revert l. induction k as [|k IH]; intros l Hq Hm Hk; simpl.
  { apply nil_length_inv in Hk. rewrite Hk. split; [done|]. split; [done|constructor]. }
  pose proof (turn_spec l Hq Hm) as Hs. destruct (Loop.turn l) as [l1 r].
  destruct Hs as (_ & _ & Hq1 & Hm1 & _ & Ht). destruct (macrotask r) as [t|].
  2: { destruct Ht as [Ht _]. by rewrite Ht in Hk. }
  destruct Ht as (Hperm & Hready & Hleast & _).
  destruct (IH l1 Hq1) as (Hp & He & Hsort); [lia|by rewrite Hperm in Hk; injection Hk|].
  destruct (run_turns k l1) as [l2 ts]. simpl in *. split; [by rewrite Hp, Hperm|]. split; [done|].
  constructor; [done|]. apply Forall_forall. intros u Hu.
  assert (u ∈ ma_tasks (macrotasks l)) as Hin by (rewrite Hperm; right; by rewrite <- Hp).
  destruct (Z.le_gt_cases (scheduled_at u) (current_ms (clock l1))) as [Hle|Hgt].
  - intros _. by apply Hleast.
  - eapply not_ready_later; [done|]. unfold Ready. lia.
Qed.

(** C38. The event loop runs everything. From any state, as many turns as there are
    macrotasks hand out each macrotask exactly once and leave none, and tasks of one
    source are handed out in the order of their times, then of their registration. *)
Theorem event_loop_runs_every_task l :
  micro_ok (microtasks l) -> 0 <= max_microtasks_per_turn l ->
  let '(l', executed) := run_turns (length (ma_tasks (macrotasks l))) l in
  executed ≡ₚ ma_tasks (macrotasks l) /\ Macro.is_empty (macrotasks l') = true /\
  StronglySorted source_order executed.
Proof.
  intros Hq Hm. pose proof (run_turns_spec _ l Hq Hm eq_refl) as Hs.
  destruct (run_turns _ l) as [l' ts]. destruct Hs as (H1 & H2 & H3). simpl in *.
  unfold Macro.is_empty. by rewrite H2.
Qed.

Module Looping.
(** Two timers registered out of order, an I/O completion and a message. *)
Definition l0 : EventLoop := (Loop.set_timeout Loop.new 1 20 LPublic).1.
Definition l1 : EventLoop := (Loop.set_timeout l0 2 10 LPublic).1.
Definition l2 : EventLoop :=
  mkLoop (Micro.enqueue (microtasks l1) (MPromiseReaction None JsNull 0 LPublic))
    (Macro.schedule (Macro.schedule (macrotasks l1) IoCompletion 3 10 LPublic).1
       MessageChannel 4 15 LPublic).1
    (clock l1) (el_witness l1) (max_microtasks_per_turn l1).

Example order_of_tasks : mt_handler <$> (run_turns 4 l2).2 = [2; 3; 4; 1].
Proof. reflexivity. Qed.
End Looping.

Lemma event_loop_turn_progress_witness :
  exists l' r, Loop.turn Looping.l2 = (l', r) /\ microtasks_drained r = 1 /\
    pending (microtasks l') = [] /\ mt_handler <$> macrotask r = Some 2 /\ current_ms (clock l') = 10 /\
    forall u, u ∈ ma_tasks (macrotasks Looping.l2) -> Ready 10 u ->
      exists t, macrotask r = Some t /\ Macro.task_le t u = true.
Proof.
  assert (micro_ok (microtasks Looping.l2)) as Hq by (unfold micro_ok; simpl; lia).
  assert (0 <= max_microtasks_per_turn Looping.l2) as Hm by (simpl; lia).
  pose proof (event_loop_turn_progress Looping.l2 Hq Hm) as Ht.
  destruct (Loop.turn Looping.l2) as [l' r] eqn:Hturn. exists l', r.
  assert (mt_handler <$> macrotask r = Some 2) as Hh by (vm_compute in Hturn; by injection Hturn as <- <-).
  assert (current_ms (clock l') = 10) as Hc by (vm_compute in Hturn; by injection Hturn as <- <-).
  destruct Ht as (H1 & H2 & _ & H4). destruct (macrotask r) as [t|]; [|done].
  destruct H4 as (_ & _ & H5 & _). rewrite Hc in H5. repeat split; [done..|].
  intros u Hu Hr. exists t. split; [done|]. by apply H5.
Defined.

Lemma event_loop_runs_every_task_witness :
  let '(l', executed) := run_turns 4 Looping.l2 in
  executed ≡ₚ ma_tasks (macrotasks Looping.l2) /\ Macro.is_empty (macrotasks l') = true /\
  StronglySorted source_order executed.
Proof.
  apply (event_loop_runs_every_task Looping.l2); [unfold micro_ok; simpl; lia|simpl; lia].
Defined.
