(* ===== verification/PromiseCombinators.v ===== *)
(** * The trackers of the promise combinators

    [Promise.all], [Promise.allSettled] and [Promise.any] count distinct input
    positions: the tracker reports completion exactly when every input has
    been heard of, and hands the values out in input order.  At the end the
    bridge that turns an uncaught exception into the rejection of a promise and
    a witness event, the [Debug] text of a value being a parameter. *)
From stdpp Require Import base numbers list strings gmap sets fin_map_dom.
From S2P Require Import Prelude Bytes FlowLattice ObjectModel PromiseModel.
Open Scope string_scope.
Open Scope list_scope.
Open Scope Z_scope.

(** ** Counting positions *)

Section Counting.
Context {V : Type}.
Implicit Types (m : gmap Z V) (i n total : Z).

Record counted m n total : Prop := {
  ct_size : n = Z.of_nat (size m);
  ct_range : forall i, is_Some (m !! i) -> 0 <= i < total;
  ct_total : total < 2 ^ 32 }.

Lemma counted_dom m n total : counted m n total -> dom m ⊆ (list_to_set (seqZ 0 total) : gset Z).
Proof.
  intros [_ Hr _] i Hi%elem_of_dom. apply elem_of_list_to_set, elem_of_seqZ.
  specialize (Hr i Hi). lia.
Qed.

Lemma size_positions total : Z.of_nat (size (list_to_set (seqZ 0 total) : gset Z)) = Z.max 0 total.
Proof. rewrite size_list_to_set by apply NoDup_seqZ. rewrite length_seqZ. lia. Qed.

Lemma counted_le m n total : 0 <= total -> counted m n total -> n <= total.
Proof.
  intros H0 Hc. pose proof (subseteq_size _ _ (counted_dom _ _ _ Hc)) as Hs.
  rewrite size_dom in Hs. pose proof (size_positions total). destruct Hc as [-> _ _]. lia.
Qed.

Lemma positions_insert m n total i v :
  0 <= i < total -> counted m n total -> counted (<[i := v]> m) (count_new m i n) total.
Proof.
  intros Hi Hc. assert (0 <= total) as H0 by lia.
  assert (forall j, is_Some (<[i := v]> m !! j) -> 0 <= j < total) as Hrange.
  { intros j Hj. destruct (decide (i = j)) as [<-|Hne]; [done|].
    rewrite lookup_insert_ne in Hj by done. by apply (ct_range _ _ _ Hc). }
  unfold count_new. destruct (m !! i) as [w|] eqn:Hm.
  - split; [|done|apply Hc]. rewrite (ct_size _ _ _ Hc). by rewrite map_size_insert_Some by (by rewrite Hm).
  - assert (counted (<[i := v]> m) (n + 1) total) as Hnew.
    { split; [|done|apply Hc]. rewrite (ct_size _ _ _ Hc), map_size_insert_None by done. lia. }
    pose proof (counted_le _ _ _ H0 Hnew) as Hle1. pose proof (ct_total _ _ _ Hc).
    unfold wrap_u32. rewrite Z.mod_small; [done|]. rewrite (ct_size _ _ _ Hc) in *. lia.
Qed.

(** The counter reaches the total exactly when every position is present. *)
Lemma counted_complete m n total :
  0 <= total -> counted m n total ->
  (n =? total) = true <-> forall j, 0 <= j < total -> is_Some (m !! j).
Proof.
  intros H0 Hc. rewrite Z.eqb_eq. pose proof (counted_dom _ _ _ Hc) as Hsub. split.
  - intros Hn j Hj. apply elem_of_dom.
    assert (dom m ≡ (list_to_set (seqZ 0 total) : gset Z)) as ->.
    { apply set_subseteq_size_equiv; [done|]. rewrite size_dom.
      pose proof (size_positions total). rewrite (ct_size _ _ _ Hc) in Hn. lia. }
    apply elem_of_list_to_set, elem_of_seqZ. lia.
  - intros Hall. apply Z.le_antisymm; [by eapply counted_le|].
    rewrite (ct_size _ _ _ Hc), <- size_dom.
    assert (size (list_to_set (seqZ 0 total) : gset Z) <= size (dom m))%nat as Hs.
    { apply subseteq_size. intros j Hj%elem_of_list_to_set%elem_of_seqZ.
      apply elem_of_dom, Hall. lia. }
    pose proof (size_positions total). lia.
Qed.

Definition insert_all (inputs : list (Z * V)) (m : gmap Z V) : gmap Z V :=
  fold_left (fun m '(i, v) => <[i := v]> m) inputs m.

Lemma insert_all_dom inputs m j :
  is_Some (insert_all inputs m !! j) <-> is_Some (m !! j) \/ exists w, (j, w) ∈ inputs.
Proof.
  unfold insert_all. revert m. induction inputs as [|[i v] inputs IH]; intros m; simpl.
  { split; [by left|]. by intros [?|[w ?%elem_of_nil]]. }
  rewrite IH, lookup_insert_is_Some'. split.
  - intros [[->|?]|[w ?]]; [right; exists v; by left|by left|right; exists w; by right].
  - intros [?|[w [[= -> ->]|?]%elem_of_cons]]; [left; by right|left; by left|right; by exists w].
Qed.

Lemma insert_all_lookup inputs m j w :
  NoDup inputs.*1 -> (j, w) ∈ inputs -> insert_all inputs m !! j = Some w.
Proof.
  unfold insert_all. revert m. induction inputs as [|[i v] inputs IH]; intros m Hnd Hin.
  { by apply elem_of_nil in Hin. }
  rewrite fmap_cons in Hnd. apply NoDup_cons in Hnd as [Hi Hnd]. simpl in *.
  apply elem_of_cons in Hin as [[= -> ->]|Hin]; [|by apply IH].
  clear IH Hnd. assert (<[i := v]> m !! i = Some v) as Hm by apply lookup_insert_eq.
  revert Hm. generalize (<[i := v]> m) as m'. induction inputs as [|[k u] inputs IH]; intros m' Hm; simpl; [done|].
  apply not_elem_of_cons in Hi as [Hne Hi]. apply IH; [done|]. by rewrite lookup_insert_ne.
Qed.
End Counting.

Lemma collect_lookup (m : gmap Z JsValue) total j w :
  0 <= j < total -> m !! j = Some w -> collect_in_order m total !! Z.to_nat j = Some w.
Proof.
  intros Hj Hm. unfold collect_in_order.
  rewrite list_lookup_fmap, lookup_seqZ_lt by lia. simpl. rewrite Z2Nat.id by lia.
  by rewrite Z.add_0_l, Hm.
Qed.

(** ** The interface the three counting trackers share *)

Class TrackerOps (T V : Type) := {
  tr_map : T -> gmap Z V;
  tr_count : T -> Z;
  tr_total : T -> Z;
  tr_open : T -> bool;
  tr_record : T -> Z -> V -> T * bool }.

Class TrackerLaws (T V : Type) {ops : TrackerOps T V} := {
  tr_record_open : forall t i v, tr_open t = true ->
    let '(t', finished) := tr_record t i v in
    tr_map t' = <[i := v]> (tr_map t) /\ tr_count t' = count_new (tr_map t) i (tr_count t) /\
    tr_total t' = tr_total t /\ tr_open t' = true /\ finished = (tr_count t' =? tr_total t');
  tr_record_closed : forall t i v, tr_open t = false -> tr_record t i v = (t, false) }.

#[export] Instance all_ops : TrackerOps PromiseAllTracker JsValue :=
  { tr_map := all_values; tr_count := all_resolved_count; tr_total := all_total;
    tr_open t := negb (all_settled t); tr_record := All.record_fulfillment }.

#[export] Instance any_ops : TrackerOps PromiseAnyTracker JsValue :=
  { tr_map := any_errors; tr_count := any_rejected_count; tr_total := any_total;
    tr_open t := negb (any_settled t); tr_record := Any.record_rejection }.

#[export] Instance all_settled_ops : TrackerOps PromiseAllSettledTracker SettledOutcome :=
  { tr_map := as_outcomes; tr_count := as_settled_count; tr_total := as_total;
    tr_open _ := true; tr_record := AllSettled.record }.

#[export] Instance all_laws : TrackerLaws PromiseAllTracker JsValue.
Proof.
  split; intros [p m total n st] i v; simpl; destruct st; try done; intros _; simpl; done.
Qed.

#[export] Instance any_laws : TrackerLaws PromiseAnyTracker JsValue.
Proof.
  split; intros [p m total n st] i v; simpl; destruct st; try done; intros _; simpl; done.
Qed.

#[export] Instance all_settled_laws : TrackerLaws PromiseAllSettledTracker SettledOutcome.
Proof. split; intros [p m total n] i v; simpl; [done|done]. Qed.

Section Tracking.
Context {T V : Type} `{TrackerLaws T V}.

Definition record_all (inputs : list (Z * V)) (t : T) : T :=
  fold_left (fun t '(i, v) => (tr_record t i v).1) inputs t.

Definition in_range (total : Z) (inputs : list (Z * V)) : Prop :=
  Forall (fun '(i, _) => 0 <= i < total) inputs.

(** An open tracker that has counted its positions right. *)
Record tracking (t : T) : Prop := {
  tk_open : tr_open t = true;
  tk_counted : counted (tr_map t) (tr_count t) (tr_total t) }.

Lemma record_tracking t i v :
  tracking t -> 0 <= i < tr_total t ->
  tracking (tr_record t i v).1 /\ tr_total (tr_record t i v).1 = tr_total t /\
  tr_map (tr_record t i v).1 = <[i := v]> (tr_map t).
Proof.
  intros [Ho Hc] Hi. pose proof (tr_record_open t i v Ho) as Hr.
  destruct (tr_record t i v) as [t' b]. destruct Hr as (Hm & Hn & Ht & Ho' & _). simpl.
  split; [|done]. split; [done|]. rewrite Hm, Hn, Ht. by apply positions_insert.
Qed.

Lemma record_all_tracking inputs t :
  tracking t -> in_range (tr_total t) inputs ->
  tracking (record_all inputs t) /\ tr_total (record_all inputs t) = tr_total t /\
  tr_map (record_all inputs t) = insert_all inputs (tr_map t).
Proof.
  unfold record_all, insert_all. revert t.
  induction inputs as [|[i v] inputs IH]; intros t Ht Hr; simpl; [done|].
  apply Forall_cons in Hr as [Hi Hr]. destruct (record_tracking t i v Ht Hi) as (Ht' & Htot & Hmap).
  rewrite <- Htot in Hr. destruct (IH _ Ht' Hr) as (H1 & H2 & H3).
  rewrite Hmap in H3. rewrite H2, Htot. done.
Qed.

Lemma tracker_completes t inputs i v :
  tracking t -> tr_map t = ∅ -> in_range (tr_total t) (inputs ++ [(i, v)]) ->
  let '(t', finished) := tr_record (record_all inputs t) i v in
  (finished = true <-> forall j, 0 <= j < tr_total t -> exists w, (j, w) ∈ inputs ++ [(i, v)]) /\
  tr_total t' = tr_total t /\ tr_map t' = insert_all (inputs ++ [(i, v)]) ∅.
Proof.
  intros Ht He Hr. pose proof Hr as Hr'. apply Forall_app in Hr' as [Hr1 Hi].
  rewrite Forall_singleton in Hi.
  destruct (record_all_tracking _ _ Ht Hr1) as (Htk & Htot & Hmap).
  destruct (record_tracking _ i v Htk) as (Htk' & Htot' & Hmap'); [by rewrite Htot|].
  pose proof (tr_record_open _ i v (tk_open _ Htk)) as Hro.
  destruct (tr_record (record_all inputs t) i v) as [t' b]. simpl in *.
  destruct Hro as (_ & _ & _ & _ & ->).
  assert (tr_map t' = insert_all (inputs ++ [(i, v)]) ∅) as Hm.
  { unfold insert_all in *. by rewrite fold_left_app, Hmap', Hmap, He. }
  split; [|by rewrite Htot', Htot, Hm].
  assert (0 <= tr_total t') as H0 by (rewrite Htot', Htot; lia).
  rewrite (counted_complete _ _ _ H0 (tk_counted _ Htk')).
  rewrite Hm, Htot', Htot. split; intros Hall j Hj.
  - specialize (Hall j Hj). apply insert_all_dom in Hall as [[w Hw]|?]; [|done].
    by rewrite lookup_empty in Hw.
  - apply insert_all_dom. right. by apply Hall.
Qed.
End Tracking.

(** ** The combinators *)

Definition all_new (p : PromiseHandle) (total : Z) : PromiseAllTracker := mkAll p ∅ total 0 false.

Lemma all_new_tracking p total : total < 2 ^ 32 -> tracking (all_new p total).
Proof.
  intros Ht. split; [done|]. split; simpl; [by rewrite map_size_empty| |done].
  intros i [w Hw]. by rewrite lookup_empty in Hw.
Qed.

(** The tracker of Promise.all reports completion exactly when every input position
    has been recorded, however often and in whatever order; the collected vector has one
    entry per input with each value at its position, and a settled tracker ignores further
    results. *)
Theorem promise_all_completes p total inputs i v :
  total < 2 ^ 32 -> in_range total (inputs ++ [(i, v)]) ->
  let '(t, finished) := All.record_fulfillment (record_all inputs (all_new p total)) i v in
  (finished = true <-> forall j, 0 <= j < total -> exists w, (j, w) ∈ inputs ++ [(i, v)]) /\
  (NoDup (inputs ++ [(i, v)]).*1 -> forall j w, (j, w) ∈ inputs ++ [(i, v)] ->
     All.collect_values t !! Z.to_nat j = Some w) /\
  zlen (All.collect_values t) = Z.max 0 total /\
  forall j w, All.record_fulfillment (All.mark_settled t) j w = (All.mark_settled t, false).
Proof.
  intros Ht Hr.
  pose proof (tracker_completes (all_new p total) inputs i v (all_new_tracking p total Ht) eq_refl Hr) as Hc.
  change (tr_record ?t ?i ?v) with (All.record_fulfillment t i v) in Hc.
  destruct (All.record_fulfillment _ i v) as [t b]. destruct Hc as (Hb & Htot & Hm). simpl in Htot, Hm.
  split; [done|]. unfold All.collect_values. rewrite Htot, Hm. split; [|split; [|done]].
  - intros Hnd j w Hin. apply collect_lookup; [|by apply insert_all_lookup].
    exact (proj1 (Forall_forall _ _) Hr _ Hin).
  - unfold collect_in_order, zlen. rewrite length_fmap, length_seqZ. lia.
Qed.

Lemma promise_all_completes_witness :
  let '(t, finished) := All.record_fulfillment
      (record_all [(2, JsInt 30); (0, JsInt 10)] (all_new 9 3)) 1 (JsInt 20) in
  finished = true /\ All.collect_values t !! 2%nat = Some (JsInt 30).
Proof.
  assert (in_range 3 ([(2, JsInt 30); (0, JsInt 10)] ++ [(1, JsInt 20)])) as Hr
    by (repeat (constructor; [lia|]); constructor).
  pose proof (promise_all_completes 9 3 [(2, JsInt 30); (0, JsInt 10)] 1 (JsInt 20) ltac:(lia) Hr) as Hc.
  destruct (All.record_fulfillment _ 1 (JsInt 20)) as [t b]. destruct Hc as (Hb & Hl & _ & _). split.
  - apply Hb. intros j Hj. assert (j = 0 \/ j = 1 \/ j = 2) as [->|[->| ->]] by lia;
      [exists (JsInt 10)|exists (JsInt 20)|exists (JsInt 30)]; set_solver.
  - apply (Hl ltac:(apply (bool_decide_unpack _); vm_compute; exact I) 2). set_solver.
Defined.

(** [Promise.allSettled] and [Promise.any] complete likewise. *)
Lemma all_settled_completes p total inputs i o :
  total < 2 ^ 32 -> in_range total (inputs ++ [(i, o)]) ->
  let '(t, finished) := AllSettled.record (record_all inputs (mkAllSettled p ∅ total 0)) i o in
  (finished = true <-> forall j, 0 <= j < total -> exists w, (j, w) ∈ inputs ++ [(i, o)]) /\
  as_outcomes t = insert_all (inputs ++ [(i, o)]) ∅.
Proof.
  intros Ht Hr. assert (tracking (mkAllSettled p ∅ total 0)) as Hk.
  { split; [done|]. split; simpl; [by rewrite map_size_empty| |done].
    intros j [w Hw]. by rewrite lookup_empty in Hw. }
  pose proof (tracker_completes _ inputs i o Hk eq_refl Hr) as Hc.
  change (tr_record ?t ?i ?v) with (AllSettled.record t i v) in Hc.
  destruct (AllSettled.record _ i o) as [t b]. destruct Hc as (Hb & _ & Hm). done.
Qed.

Lemma any_completes p total inputs i v :
  total < 2 ^ 32 -> in_range total (inputs ++ [(i, v)]) ->
  let '(t, finished) := Any.record_rejection (record_all inputs (mkAny p ∅ total 0 false)) i v in
  (finished = true <-> forall j, 0 <= j < total -> exists w, (j, w) ∈ inputs ++ [(i, v)]) /\
  any_errors t = insert_all (inputs ++ [(i, v)]) ∅.
Proof.
  intros Ht Hr. assert (tracking (mkAny p ∅ total 0 false)) as Hk.
  { split; [done|]. split; simpl; [by rewrite map_size_empty| |done].
    intros j [w Hw]. by rewrite lookup_empty in Hw. }
  pose proof (tracker_completes _ inputs i v Hk eq_refl Hr) as Hc.
  change (tr_record ?t ?i ?v) with (Any.record_rejection t i v) in Hc.
  destruct (Any.record_rejection _ i v) as [t b]. destruct Hc as (Hb & _ & Hm). done.
Qed.

(** ** From exceptions to rejections *)

Record ExceptionRejectionOutcome := mkRejection {
  rejected_promise : option PromiseHandle;
  rejection_reason : JsValue;
  reason_description : string;
  ro_module : option string;
  propagated : bool;
  affected_module_count : Z }.

Inductive ExceptionBoundaryKind := AsyncFunctionBody | ModuleEvaluation | HostcallBoundary | MicrotaskReaction.

Record ExceptionRejectionWitnessEvent := mkRejectionEvent {
  boundary : ExceptionBoundaryKind;
  rw_promise : option PromiseHandle;
  exception_description : string;
  rw_module : option string;
  rw_seq : Z }.

Record ExceptionToRejectionBridge := mkBridge { eb_next_seq : Z; eb_witness : list ExceptionRejectionWitnessEvent }.

Module Bridge.
Definition new : ExceptionToRejectionBridge := mkBridge 0 [].

Section bridge.
Context (debug : JsValue -> string).

(** The rejection of the promise, when there is one. *)
Definition reject_promise (p : option PromiseHandle) (v : JsValue) (s : PromiseStore) (q : MicrotaskQueue) :
    result PromiseError (PromiseStore * MicrotaskQueue) :=
  match p with Some h => Store.reject s h v LInternal q | None => Ok (s, q) end.

(** What the four methods share.  An error leaves everything as it was. *)
Definition bridge (kind : ExceptionBoundaryKind) (module : option string) (b : ExceptionToRejectionBridge)
    (v : JsValue) (p : option PromiseHandle) (s : PromiseStore) (q : MicrotaskQueue) :
    result PromiseError (ExceptionToRejectionBridge * PromiseStore * MicrotaskQueue * ExceptionRejectionOutcome) :=
  let description := debug v in
  '(s, q) ← reject_promise p v s q;
  let seq := eb_next_seq b in
  Ok (mkBridge (wrap_u64 (seq + 1)) (eb_witness b ++ [mkRejectionEvent kind p description module seq]), s, q,
      mkRejection p v description module false 0).

Definition bridge_async_exception b v (h : PromiseHandle) s q := bridge AsyncFunctionBody None b v (Some h) s q.
Definition bridge_module_exception b v (specifier : string) p s q := bridge ModuleEvaluation (Some specifier) b v p s q.
Definition bridge_hostcall_exception b v p s q := bridge HostcallBoundary None b v p s q.
Definition bridge_microtask_exception b v p s q := bridge MicrotaskReaction None b v p s q.

Definition transition_count (b : ExceptionToRejectionBridge) : Z := eb_next_seq b.

(** ** Properties *)

(** A call of the bridge. *)
Inductive call :=
  | CAsync (v : JsValue) (h : PromiseHandle)
  | CModule (v : JsValue) (specifier : string) (p : option PromiseHandle)
  | CHostcall (v : JsValue) (p : option PromiseHandle)
  | CMicrotask (v : JsValue) (p : option PromiseHandle).

Definition call_value (c : call) : JsValue :=
  match c with CAsync v _ | CModule v _ _ | CHostcall v _ | CMicrotask v _ => v end.
Definition call_promise (c : call) : option PromiseHandle :=
  match c with CAsync _ h => Some h | CModule _ _ p | CHostcall _ p | CMicrotask _ p => p end.

Definition run_call (c : call) b s q :=
  match c with
  | CAsync v h => bridge_async_exception b v h s q
  | CModule v sp p => bridge_module_exception b v sp p s q
  | CHostcall v p => bridge_hostcall_exception b v p s q
  | CMicrotask v p => bridge_microtask_exception b v p s q
  end.

(** A successful call has rejected the promise with the thrown value, and fails
    exactly when the promise is unknown or settled already. *)
Theorem bridge_rejects (c : call) b s q :
  match run_call c b s q with
  | Ok (b', s', q', o) =>
      rejection_reason o = call_value c /\ rejected_promise o = call_promise c /\
      reason_description o = debug (call_value c) /\
      eb_witness b' = eb_witness b ++ [mkRejectionEvent
        (match c with CAsync _ _ => AsyncFunctionBody | CModule _ _ _ => ModuleEvaluation
                    | CHostcall _ _ => HostcallBoundary | CMicrotask _ _ => MicrotaskReaction end)
        (call_promise c) (debug (call_value c)) (ro_module o) (eb_next_seq b)] /\
      match call_promise c with
      | Some h => exists r r', Store.get s h = Ok r /\ is_settled (state r) = false /\
                    Store.get s' h = Ok r' /\ state r' = Rejected (call_value c) /\
                    (mq_tasks q' = mq_tasks q ++ (Store.reaction_task RReject (call_value c) LInternal <$> reactions r))
      | None => s' = s /\ q' = q
      end
  | Err e =>
      exists h, call_promise c = Some h /\
        ((Store.get s h = Err e) \/ exists r, Store.get s h = Ok r /\ is_settled (state r) = true /\ e = AlreadySettled h)
  end.
Proof.
  assert (Hq : forall rs q, mq_tasks (Store.enqueue_reactions RReject (call_value c) LInternal rs q) =
                 mq_tasks q ++ (Store.reaction_task RReject (call_value c) LInternal <$> rs)).
  { intros rs. unfold Store.enqueue_reactions. induction rs as [|r rs IH]; intros q0; cbn; [by rewrite app_nil_r|].
    rewrite IH. cbn. by rewrite <- app_assoc. }
  assert (Hr : forall h, call_promise c = Some h ->
    match Store.reject s h (call_value c) LInternal q with
    | Ok (s', q') => exists r r', Store.get s h = Ok r /\ is_settled (state r) = false /\
                    Store.get s' h = Ok r' /\ state r' = Rejected (call_value c) /\
                    (mq_tasks q' = mq_tasks q ++ (Store.reaction_task RReject (call_value c) LInternal <$> reactions r))
    | Err e => (Store.get s h = Err e) \/ exists r, Store.get s h = Ok r /\ is_settled (state r) = true /\ e = AlreadySettled h
    end).
  { intros h _. unfold Store.reject. destruct (Store.get s h) as [r|e] eqn:Hg; cbn; [|by left].
    destruct (is_settled (state r)) eqn:Hs; [right; eauto|]. exists r.
    exists (mkPromise (handle r) (Rejected (call_value c)) [] LInternal (creation_seq r) (Store.has_reject_handler (reactions r))).
    split; [done|]. split; [done|].
    split; [|split; [reflexivity|apply Hq]]. unfold Store.get, Store.log, Store.update in *. cbn [promises].
    destruct (h <? 0); [done|]. apply ok_or_Ok in Hg. rewrite list_lookup_insert_eq by (by eapply lookup_lt_Some). done. }
  destruct c as [v h|v sp p|v p|v p]; cbn [run_call call_value call_promise] in *;
    [specialize (Hr h eq_refl)|destruct p as [h|]; [specialize (Hr h eq_refl)|clear Hr]..];
    unfold bridge_async_exception, bridge_module_exception, bridge_hostcall_exception, bridge_microtask_exception, bridge;
    cbn [reject_promise];
    try (destruct (Store.reject s h v LInternal q) as [[s' q']|e]; cbn; [by repeat (split; [done|])|by exists h]);
    cbn; done.
Qed.

(** A module's exception is not propagated to the modules that depend on it: the
    outcome says so, and no promise but the given one changes. *)
Theorem module_rejection_stays_local b v specifier p s q b' s' q' o :
  bridge_module_exception b v specifier p s q = Ok (b', s', q', o) ->
  propagated o = false /\ affected_module_count o = 0 /\
  forall h, Some h <> p -> 0 <= h -> Store.get s' h = Store.get s h.
Proof.
  intros ([s1 q1] & Hr & [= <- <- <- <-])%bind_Ok. do 2 (split; [done|]). intros h Hp Hh.
  destruct p as [h'|]; cbn in Hr; [|by injection Hr as <- <-]. unfold Store.reject in Hr.
  apply bind_Ok in Hr as (r & Hg & Hr). destruct (is_settled _); [done|]. injection Hr as <- <-.
  unfold Store.get, Store.log, Store.update in *. cbn [promises]. destruct (Z.ltb_spec h' 0); [done|].
  destruct (Z.ltb_spec h 0); [lia|]. rewrite list_lookup_insert_ne; [done|]. intros E. apply Hp. f_equal. lia.
Qed.

(** The witness log numbers the transitions. *)
Theorem bridge_log_numbered (l : list call) :
  forall b s q, eb_next_seq b = zlen (eb_witness b) -> rw_seq <$> eb_witness b = seqZ 0 (zlen (eb_witness b)) ->
  zlen (eb_witness b) + zlen l <= u64_max ->
  let '(b', _, _) := fold_left (fun st c => match run_call c st.1.1 st.1.2 st.2 with
                                            | Ok (b, s, q, _) => (b, s, q) | Err _ => st end) l (b, s, q) in
  transition_count b' = zlen (eb_witness b') /\ rw_seq <$> eb_witness b' = seqZ 0 (zlen (eb_witness b')).
Proof.
  induction l as [|c l IH]; intros b s q Hn Hs Hb; [done|]. cbn [fold_left fst snd]. rewrite zlen_cons in Hb.
  pose proof (zlen_nonneg l). pose proof (zlen_nonneg (eb_witness b)).
  assert (Hcase : forall b' s' q' o, run_call c b s q = Ok (b', s', q', o) ->
            exists e, b' = mkBridge (wrap_u64 (eb_next_seq b + 1)) (eb_witness b ++ [e]) /\ rw_seq e = eb_next_seq b).
  { intros b' s' q' o. destruct c; cbn; unfold bridge_async_exception, bridge_module_exception, bridge_hostcall_exception, bridge_microtask_exception, bridge;
      (intros ([s1 q1] & _ & [= <- _ _ _])%bind_Ok); by eexists. }
  destruct (run_call c b s q) as [[[[b' s'] q'] o]|e]; [|apply IH; try done; lia].
  destruct (Hcase b' s' q' o eq_refl) as (e & -> & He). apply IH; cbn [eb_next_seq eb_witness].
  - rewrite zlen_app, Hn. change (zlen [e]) with 1. apply wrap_u64_small. mlia.
  - rewrite fmap_app, Hs, zlen_app. change (zlen [e]) with 1. rewrite seqZ_app by lia. cbn. by rewrite He, Hn.
  - rewrite zlen_app. change (zlen [e]) with 1. lia.
Qed.
End bridge.
End Bridge.
