(* ===== verification/EngineObjectId.v ===== *)
(** * Object identifiers (crates/franken-engine/src/engine_object_id.rs)

    Domain-separated identifiers of security-critical objects: the preimage of
    an identifier, its hash, the check of an identifier and its hexadecimal
    form.  The domains and their tags are in SignaturePreimage.v.  The theorems
    say that an identifier binds domain, zone, schema and contents up to a
    collision of the hash, and that the hexadecimal form is read back. *)
From stdpp Require Import base numbers list strings.
From Stdlib Require Import Strings.Byte.
From S2P Require Import Prelude Bytes Text HashTiers DetSerde IrContract SignaturePreimage.
From S2P Require Import MarkerCorrect.
Open Scope string_scope.
Open Scope list_scope.
Open Scope Z_scope.

Definition OBJECT_ID_LEN : nat := 32.

Definition SchemaId : Type := list byte.
Definition EngineObjectId : Type := list byte.

Inductive IdError :=
  | EmptyCanonicalBytes
  | IdMismatch (expected computed : EngineObjectId)
  | NonCanonicalInput (reason : string)
  | InvalidHexLength (expected actual : Z)
  | InvalidHexChar (position : Z).

(** [Display] *)
Definition id_error_string (e : IdError) : string :=
  match e with
  | EmptyCanonicalBytes => "canonical bytes are empty"
  | IdMismatch expected computed =>
      "ID mismatch: expected " +:+ hex_encode expected +:+ ", computed " +:+ hex_encode computed
  | NonCanonicalInput reason => "non-canonical input: " +:+ reason
  | InvalidHexLength expected actual =>
      "hex length: expected " +:+ int_to_string expected +:+ ", got " +:+ int_to_string actual
  | InvalidHexChar position => "invalid hex char at position " +:+ int_to_string position
  end.

(** ** The hash *)

Definition deterministic_hash (input : list byte) : list byte :=
  let st := xor0 sip_init (wrap_u64 (zlen input)) in
  let st := fold_left (fun st word => xor0 (sip_round (sip_round (xor3 st word))) word)
              (chunk_words input) st in
  let st := sip_rounds 4 (xor2 st 0xff) in
  let hash1 := fold_state st in
  let st := sip_rounds 4 (xor1 st 0xee) in
  let hash2 := fold_state st in
  let st := sip_rounds 4 (xor0 st 0xdd) in
  let hash3 := fold_state st in
  let st := sip_rounds 4 (xor3 st 0xcc) in
  let hash4 := fold_state st in
  le_bytes 8 hash1 ++ le_bytes 8 hash2 ++ le_bytes 8 hash3 ++ le_bytes 8 hash4.

Definition SchemaId_from_definition (definition : list byte) : SchemaId := deterministic_hash definition.

(** ** Identifiers *)

Definition build_id_preimage (domain : ObjectDomain) (zone : string) (schema_id : SchemaId)
    (canonical_bytes : list byte) : list byte :=
  be_bytes 4 (zlen (tag domain)) ++ tag domain ++
  be_bytes 4 (zlen (str_bytes zone)) ++ str_bytes zone ++ schema_id ++ canonical_bytes.

Definition derive_id (domain : ObjectDomain) (zone : string) (schema_id : SchemaId)
    (canonical_bytes : list byte) : result IdError EngineObjectId :=
  match canonical_bytes with
  | [] => Err EmptyCanonicalBytes
  | _ => Ok (deterministic_hash (build_id_preimage domain zone schema_id canonical_bytes))
  end.

Definition verify_id (expected : EngineObjectId) (domain : ObjectDomain) (zone : string)
    (schema_id : SchemaId) (canonical_bytes : list byte) : result IdError unit :=
  computed ← derive_id domain zone schema_id canonical_bytes;
  if constant_time_eq expected computed then Ok tt else Err (IdMismatch expected computed).

(** ** Hexadecimal form *)

Definition id_to_hex (id : EngineObjectId) : string := hex_encode id.

Definition hex_value (c : byte) : option Z :=
  if in_range 0x30 0x39 c then Some (byteZ c - 0x30)
  else if in_range 0x61 0x66 c then Some (byteZ c - 0x61 + 10)
  else if in_range 0x41 0x46 c then Some (byteZ c - 0x41 + 10)
  else None.

(** The loop over [hex.as_bytes().chunks(2)], at index [i]. *)
Fixpoint decode_pairs (i : Z) (l : list byte) : result IdError (list byte) :=
  match l with
  | hi :: lo :: l =>
      hi ← ok_or (InvalidHexChar (i * 2)) (hex_value hi);
      lo ← ok_or (InvalidHexChar (i * 2 + 1)) (hex_value lo);
      rest ← decode_pairs (i + 1) l;
      Ok (Zbyte (Z.lor (Z.shiftl hi 4) lo) :: rest)
  | _ => Ok []
  end.

Definition from_hex (hex : string) : result IdError EngineObjectId :=
  if negb (zlen (str_bytes hex) =? 64) then Err (InvalidHexLength 64 (zlen (str_bytes hex)))
  else decode_pairs 0 (str_bytes hex).

(** ** Properties *)

(** The hash is the content hash of hash_tiers.rs, written a second time. *)
Lemma deterministic_hash_content input : deterministic_hash input = ContentHash_compute input.
Proof. reflexivity. Qed.

Lemma deterministic_hash_wf input : hash_wf (deterministic_hash input).
Proof. rewrite deterministic_hash_content. apply ContentHash_wf. Qed.

#[local] Opaque deterministic_hash.

Lemma tag_short d : zlen (tag d) <= u32_max.
Proof. destruct d; vm_compute; discriminate. Qed.

Lemma id_preimage_inj d1 d2 z1 z2 s1 s2 c1 c2 :
  str_short z1 -> str_short z2 -> hash_wf s1 -> hash_wf s2 ->
  build_id_preimage d1 z1 s1 c1 = build_id_preimage d2 z2 s2 c2 ->
  d1 = d2 /\ z1 = z2 /\ s1 = s2 /\ c1 = c2.
Proof.
  intros Hz1 Hz2 Hs1 Hs2 He. unfold build_id_preimage in He.
  apply app_inj_1 in He as [_ He]; [|by rewrite !length_be_bytes].
  apply tag_prefix_free in He as [-> He].
  rewrite !(assoc_L (++) (be_bytes 4 _)) in He. fold (MarkerStream.length_prefixed z1) in He.
  fold (MarkerStream.length_prefixed z2) in He.
  apply (prefix_free (enc := MarkerStream.length_prefixed)) in He as [-> He]; [|done..].
  apply hash_front in He as [-> ->]; done.
Qed.

(** A different object with the same identifier. *)
Definition id_collision (p1 p2 : list byte) : Prop :=
  p1 <> p2 /\ deterministic_hash p1 = deterministic_hash p2.

Lemma derive_id_Ok d z s c id :
  derive_id d z s c = Ok id <-> c <> [] /\ id = deterministic_hash (build_id_preimage d z s c).
Proof. unfold derive_id. destruct c; naive_solver. Qed.

Lemma derive_id_total d z s c : c <> [] -> exists id, derive_id d z s c = Ok id.
Proof. destruct c; [done|]. simpl. eauto. Qed.

(** An identifier accepted for an object was derived from the same domain, zone,
    schema and bytes, or the identifier hash collides on the two inputs. *)
Theorem object_id_binds d1 d2 z1 z2 s1 s2 c1 c2 id :
  str_short z1 -> str_short z2 -> hash_wf s1 -> hash_wf s2 ->
  derive_id d1 z1 s1 c1 = Ok id -> verify_id id d2 z2 s2 c2 = Ok tt ->
  (d1 = d2 /\ z1 = z2 /\ s1 = s2 /\ c1 = c2) \/
  id_collision (build_id_preimage d1 z1 s1 c1) (build_id_preimage d2 z2 s2 c2).
Proof.
  intros Hz1 Hz2 Hs1 Hs2 [_ H1]%derive_id_Ok H2. unfold verify_id in H2.
  apply bind_Ok in H2 as (computed & [_ Hc]%derive_id_Ok & H2).
  destruct (constant_time_eq id computed) eqn:He; [|done].
  apply hash_constant_time_eq_correct in He; [|subst; apply deterministic_hash_wf..].
  destruct (decide (build_id_preimage d1 z1 s1 c1 = build_id_preimage d2 z2 s2 c2)) as [Hp|Hp].
  - left. by apply id_preimage_inj.
  - right. split; [done|congruence].
Qed.

(** An identifier that is not the one derived is refused, and the refusal
    names both; the empty object has no identifier. *)
Theorem verify_id_decides expected d z s c :
  hash_wf expected ->
  verify_id expected d z s c =
    match c with
    | [] => Err EmptyCanonicalBytes
    | _ => let computed := deterministic_hash (build_id_preimage d z s c) in
           if decide (expected = computed) then Ok tt else Err (IdMismatch expected computed)
    end.
Proof.
  intros Hw. unfold verify_id, derive_id. destruct c as [|b c]; [done|]. cbn [mbind result_bind].
  set (computed := deterministic_hash _).
  assert (Hc : hash_wf computed) by apply deterministic_hash_wf.
  pose proof (hash_constant_time_eq_correct expected computed Hw Hc) as Heq.
  cbv zeta. clearbody computed. destruct (constant_time_eq expected computed).
  - by rewrite decide_True by (by apply Heq).
  - rewrite decide_False; [done|]. intros H. by apply Heq in H.
Qed.

(** ** The hexadecimal form *)

Lemma hex_pair b :
  exists h l, str_bytes (hex_digit (byteZ b / 16) +:+ hex_digit (byteZ b mod 16)) = [h; l] /\
    hex_value h = Some (byteZ b / 16) /\ hex_value l = Some (byteZ b mod 16) /\
    Zbyte (Z.lor (Z.shiftl (byteZ b / 16) 4) (byteZ b mod 16)) = b.
Proof. destruct b; do 2 eexists; (split; [reflexivity|]); (split; [|split]); vm_compute; reflexivity. Qed.

Lemma hex_encode_cons b l :
  str_bytes (hex_encode (b :: l)) =
  str_bytes (hex_digit (byteZ b / 16) +:+ hex_digit (byteZ b mod 16)) ++ str_bytes (hex_encode l).
Proof. cbn [hex_encode fold_right]. rewrite !str_bytes_app. by rewrite (assoc_L (++)). Qed.

Lemma hex_encode_length l : zlen (str_bytes (hex_encode l)) = 2 * zlen l.
Proof.
  induction l as [|b l IH]; [done|]. rewrite hex_encode_cons. destruct (hex_pair b) as (h & lo & -> & _).
  unfold zlen in *. rewrite length_app. cbn [length]. lia.
Qed.

Lemma decode_pairs_encode i l : decode_pairs i (str_bytes (hex_encode l)) = Ok l.
Proof.
  revert i. induction l as [|b l IH]; intros i; [done|]. rewrite hex_encode_cons.
  destruct (hex_pair b) as (h & lo & -> & Hh & Hl & Hb). cbn [app decode_pairs].
  rewrite Hh, Hl. cbn [ok_or mbind result_bind]. rewrite IH. cbn [mbind result_bind]. by rewrite Hb.
Qed.

Lemma decode_pairs_length i l id :
  decode_pairs i l = Ok id -> Nat.Even (length l) -> length l = (2 * length id)%nat.
Proof.
  revert i l. induction id as [|b id IH]; intros i l H He.
  - destruct l as [|x [|y l]]; [done|by destruct He; simpl in *; lia|]. cbn [decode_pairs] in H.
    apply bind_Ok in H as (h & _ & H). apply bind_Ok in H as (lo & _ & H).
    apply bind_Ok in H as (r & _ & H). done.
  - destruct l as [|x [|y l]]; [done..|]. cbn [decode_pairs] in H.
    apply bind_Ok in H as (h & _ & H). apply bind_Ok in H as (lo & _ & H).
    apply bind_Ok in H as (r & Hr & H). assert (r = id) as -> by congruence.
    assert (Hl : Nat.Even (length l)) by (destruct He as [k Hk]; exists (k - 1)%nat; simpl in Hk; lia).
    specialize (IH _ _ Hr Hl). simpl. lia.
Qed.

(** Printing and reading an identifier returns it, and whatever is read is an
    identifier of 32 bytes. *)
Theorem id_hex_roundtrip (id : EngineObjectId) :
  (hash_wf id <-> from_hex (id_to_hex id) = Ok id) /\
  (forall hex, from_hex hex = Ok id -> hash_wf id).
Proof.
  assert (Hlen : forall hex, from_hex hex = Ok id -> hash_wf id).
  { unfold from_hex, hash_wf. intros hex H. destruct (zlen (str_bytes hex) =? 64) eqn:He; [|done].
    apply Z.eqb_eq in He. unfold zlen in He. cbn [negb] in H. apply decode_pairs_length in H; [lia|].
    exists 32%nat. lia. }
  split; [split; [|apply Hlen]|exact Hlen]. intros Hw. unfold from_hex, id_to_hex, hash_wf in *.
  rewrite hex_encode_length. unfold zlen. rewrite Hw. apply decode_pairs_encode.
Qed.

(** ** Examples *)

#[local] Transparent deterministic_hash.

Definition sample_schema : SchemaId := SchemaId_from_definition (str_bytes "test-schema-v1").
Definition sample_id : EngineObjectId :=
  deterministic_hash (build_id_preimage CapabilityToken "zone-a" sample_schema [x01; x02]).

Lemma object_id_binds_witness :
  derive_id CapabilityToken "zone-a" sample_schema [x01; x02] = Ok sample_id /\
  ~ (verify_id sample_id Revocation "zone-a" sample_schema [x01; x02] = Ok tt).
Proof.
  split; [reflexivity|]. intros H.
  destruct (object_id_binds CapabilityToken Revocation "zone-a" "zone-a" sample_schema sample_schema
    [x01; x02] [x01; x02] sample_id) as [(Hd & _)|[_ Hc]];
    [vm_compute; discriminate..|apply deterministic_hash_wf|apply deterministic_hash_wf
    |reflexivity|exact H|discriminate Hd|vm_compute in Hc; discriminate Hc].
Defined.

(** An upper-case digit is read, another character is reported. *)
Example from_hex_cases :
  from_hex "" = Err (InvalidHexLength 64 0) /\
  from_hex (hex_encode (replicate 31 x00) +:+ "0G") = Err (InvalidHexChar 63) /\
  from_hex (hex_encode (replicate 31 x00) +:+ "Fa") = Ok (replicate 31 x00 ++ [xfa]).
Proof. vm_compute. auto. Qed.
