(* ===== verification/SortedMultisig.v ===== *)
(** * Sorted multi-signature arrays (crates/franken-engine/src/sorted_multisig.rs)

    Arrays of signatures kept in strictly increasing order of the signers'
    keys, the quorum check over them and the context that records events.  The
    theorems say that an array depends on the set of its entries only, that
    the binary search finds exactly the signers present, and that a quorum
    counts distinct authorized signers with valid signatures.

    [slice::sort] is [merge_sort] and [slice::binary_search_by] is written out.
    The closure [verify_fn] is a pure function, as all its callers' are. *)
From stdpp Require Import base numbers list strings gmap sorting.
From Stdlib Require Import Strings.Byte.
From S2P Require Import Prelude Bytes Text HashTiers DetSerde IrContract SignaturePreimage.
Open Scope string_scope.
Open Scope list_scope.
Open Scope Z_scope.

(** ** Keys in the order of their bytes *)

(** [Ord::cmp] of byte arrays *)
Fixpoint bytes_cmp (a b : list byte) : comparison :=
  match a, b with
  | [], [] => Eq
  | [], _ :: _ => Lt
  | _ :: _, [] => Gt
  | x :: a, y :: b =>
      match Z.compare (byteZ x) (byteZ y) with Eq => bytes_cmp a b | c => c end
  end.

Definition bytes_lt (a b : list byte) : Prop := bytes_cmp a b = Lt.
Definition bytes_le (a b : list byte) : Prop := bytes_cmp a b <> Gt.

#[export] Instance bytes_lt_dec : RelDecision bytes_lt.
Proof. intros a b. unfold bytes_lt, Decision. decide equality. Defined.
#[export] Instance bytes_le_dec : RelDecision bytes_le.
Proof. intros a b. unfold bytes_le, Decision. destruct (bytes_cmp a b); [left|left|right]; congruence. Defined.

(** ** Entries and errors *)

Record SignerSignature := mkSigner { signer : VerificationKey; signature : Signature }.

#[export] Instance Signature_eq_dec : EqDecision Signature.
Proof. solve_decision. Defined.
#[export] Instance SignerSignature_eq_dec : EqDecision SignerSignature.
Proof. solve_decision. Defined.

(** [Ord for SignerSignature]: by the key alone. *)
Definition entry_key_le (a b : SignerSignature) : Prop := bytes_le (signer a) (signer b).
Definition entry_key_lt (a b : SignerSignature) : Prop := bytes_lt (signer a) (signer b).

#[export] Instance entry_key_le_dec : RelDecision entry_key_le.
Proof. intros a b. apply bytes_le_dec. Defined.

Inductive MultiSigError :=
  | UnsortedSignatureArray (position : Z) (prev_key_hex current_key_hex : string)
  | DuplicateSignerKey (key_hex : string) (positions : Z * Z)
  | QuorumNotMet (required valid total : Z)
  | EmptyArray
  | ZeroQuorumThreshold
  | ThresholdExceedsSignerCount (threshold signer_count : Z)
  | SignatureErr (detail : string).

#[export] Instance MultiSigError_eq_dec : EqDecision MultiSigError.
Proof. solve_decision. Defined.

(** [Display] *)
Definition multisig_error_string (e : MultiSigError) : string :=
  let int := int_to_string in
  match e with
  | UnsortedSignatureArray position prev current =>
      "unsorted at position " +:+ int position +:+ ": " +:+ prev +:+ " >= " +:+ current
  | DuplicateSignerKey key_hex (a, b) =>
      "duplicate signer key " +:+ key_hex +:+ " at positions " +:+ int a +:+ " and " +:+ int b
  | QuorumNotMet required valid total =>
      "quorum not met: " +:+ int valid +:+ "/" +:+ int total +:+ " valid, " +:+
      int required +:+ " required"
  | EmptyArray => "empty signature array"
  | ZeroQuorumThreshold => "quorum threshold is zero"
  | ThresholdExceedsSignerCount threshold signer_count =>
      "threshold " +:+ int threshold +:+ " exceeds signer count " +:+ int signer_count
  | SignatureErr detail => "signature error: " +:+ detail
  end.

Record QuorumResult := mkQuorum {
  quorum_met : bool;
  valid_count : Z;
  invalid_count : Z;
  unauthorized_count : Z;
  total : Z;
  threshold : Z;
  invalid_signers : list (VerificationKey * string);
  unauthorized_signers : list VerificationKey }.

(** ** The array *)

Definition SortedSignatureArray : Type := list SignerSignature.

(** [for i in 1..entries.len()], with [prev] the entry at [i - 1]. *)
Fixpoint verify_from (i : Z) (prev : SignerSignature) (l : list SignerSignature) :
    result MultiSigError unit :=
  match l with
  | [] => Ok tt
  | curr :: l =>
      match bytes_cmp (signer prev) (signer curr) with
      | Lt => verify_from (i + 1) curr l
      | Eq => Err (DuplicateSignerKey (to_hex (signer curr)) (i - 1, i))
      | Gt => Err (UnsortedSignatureArray i (to_hex (signer prev)) (to_hex (signer curr)))
      end
  end.

Definition verify_sorted_no_duplicates (entries : list SignerSignature) :
    result MultiSigError unit :=
  match entries with [] => Ok tt | e :: l => verify_from 1 e l end.

Definition is_sorted (entries : list SignerSignature) : result MultiSigError unit :=
  match entries with [] => Err EmptyArray | _ => verify_sorted_no_duplicates entries end.

(** The loop of [from_unsorted] over adjacent entries. *)
Fixpoint adjacent_from (i : Z) (prev : SignerSignature) (l : list SignerSignature) :
    result MultiSigError unit :=
  match l with
  | [] => Ok tt
  | curr :: l =>
      if decide (signer curr = signer prev) then
        Err (DuplicateSignerKey (to_hex (signer curr)) (i - 1, i))
      else adjacent_from (i + 1) curr l
  end.

(** [slice::binary_search_by] on the keys: [base] and [size] as in the loop of
    the standard library; [inl] is [Ok] and [inr] the insertion point. *)
Fixpoint search_loop (fuel : nat) (cmp : Z -> comparison) (base size : Z) : Z :=
  match fuel with
  | O => base
  | S fuel =>
      if size <=? 1 then base
      else
        let half := size / 2 in
        let mid := base + half in
        search_loop fuel cmp (match cmp mid with Gt => base | _ => mid end) (size - half)
  end.

Definition binary_search_by (entries : list SignerSignature) (key : VerificationKey) : Z + Z :=
  let cmp i := match entries !! Z.to_nat i with
               | Some e => bytes_cmp (signer e) key | None => Gt end in
  let size := zlen entries in
  if size =? 0 then inr 0
  else
    let base := search_loop (length entries) cmp 0 size in
    match cmp base with
    | Eq => inl base
    | Lt => inr (base + 1)
    | Gt => inr base
    end.

Module Arr.
Definition new (entries : list SignerSignature) : result MultiSigError SortedSignatureArray :=
  match entries with
  | [] => Err EmptyArray
  | _ => _ ← verify_sorted_no_duplicates entries; Ok entries
  end.

Definition from_unsorted (entries : list SignerSignature) :
    result MultiSigError SortedSignatureArray :=
  match entries with
  | [] => Err EmptyArray
  | _ =>
      let entries := merge_sort entry_key_le entries in
      match entries with
      | [] => Ok entries
      | e :: l => _ ← adjacent_from 1 e l; Ok entries
      end
  end.

(** [iter().position(|e| e.signer == key)] *)
Fixpoint position (key : VerificationKey) (i : Z) (l : list SignerSignature) : option Z :=
  match l with
  | [] => None
  | e :: l => if decide (signer e = key) then Some i else position key (i + 1) l
  end.

Definition insert (arr : SortedSignatureArray) (entry : SignerSignature) :
    SortedSignatureArray * result MultiSigError unit :=
  match position (signer entry) 0 arr with
  | Some pos => (arr, Err (DuplicateSignerKey (to_hex (signer entry)) (pos, zlen arr)))
  | None =>
      let pos := match binary_search_by arr (signer entry) with inl p => p | inr p => p end in
      (take (Z.to_nat pos) arr ++ entry :: drop (Z.to_nat pos) arr, Ok tt)
  end.

Definition signer_keys (arr : SortedSignatureArray) : list VerificationKey := signer <$> arr.

Definition contains_signer (arr : SortedSignatureArray) (key : VerificationKey) : bool :=
  match binary_search_by arr key with inl _ => true | inr _ => false end.

(** One turn of the loop of [verify_quorum], on the valid count and the two
    lists. *)
Definition quorum_step (authorized : list VerificationKey)
    (verify_fn : VerificationKey -> Signature -> result SignatureError unit)
    (acc : Z * list (VerificationKey * string) * list VerificationKey) (entry : SignerSignature) :
    Z * list (VerificationKey * string) * list VerificationKey :=
  let '(valid, invalid, unauthorized) := acc in
  if negb (existsb (fun k => bool_decide (k = signer entry)) authorized) then
    (valid, invalid, unauthorized ++ [signer entry])
  else
    match verify_fn (signer entry) (signature entry) with
    | Ok _ => (valid + 1, invalid, unauthorized)
    | Err e => (valid, invalid ++ [(signer entry, signature_error_string e)], unauthorized)
    end.

Definition verify_quorum (arr : SortedSignatureArray) (threshold : Z)
    (authorized : list VerificationKey)
    (verify_fn : VerificationKey -> Signature -> result SignatureError unit) :
    result MultiSigError QuorumResult :=
  if threshold =? 0 then Err ZeroQuorumThreshold
  else
    let '(valid, invalid, unauthorized) :=
      fold_left (quorum_step authorized verify_fn) arr (0, [], []) in
    let quorum_met := threshold <=? valid in
    let result := mkQuorum quorum_met valid (zlen invalid) (zlen unauthorized) (zlen arr)
                    threshold invalid unauthorized in
    if quorum_met then Ok result else Err (QuorumNotMet threshold valid (zlen arr)).
End Arr.

(** ** The context with audit events *)

Inductive MultiSigEventType :=
  | ArrayCreated (signer_count : Z)
  | SignatureInserted (signer_hex : string)
  | QuorumVerified (valid threshold total : Z)
  | QuorumFailed (valid threshold total : Z)
  | SortingViolation (detail : string)
  | DuplicateSigner (key_hex : string).

Record MultiSigEvent := mkMsEvent { ms_type : MultiSigEventType; ms_trace : string }.

Definition MultiSigContext : Type := list MultiSigEvent.

Module MsCtx.
Definition create_sorted (c : MultiSigContext) (entries : list SignerSignature) (trace_id : string) :
    MultiSigContext * result MultiSigError SortedSignatureArray :=
  match Arr.from_unsorted entries with
  | Ok arr => (c ++ [mkMsEvent (ArrayCreated (zlen arr)) trace_id], Ok arr)
  | Err e =>
      let event_type := match e with
        | DuplicateSignerKey key_hex _ => DuplicateSigner key_hex
        | other => SortingViolation (multisig_error_string other)
        end in
      (c ++ [mkMsEvent event_type trace_id], Err e)
  end.

Definition verify_quorum (c : MultiSigContext) (arr : SortedSignatureArray) (threshold_ : Z)
    (authorized : list VerificationKey)
    (verify_fn : VerificationKey -> Signature -> result SignatureError unit) (trace_id : string) :
    MultiSigContext * result MultiSigError QuorumResult :=
  match Arr.verify_quorum arr threshold_ authorized verify_fn with
  | Ok r => (c ++ [mkMsEvent (QuorumVerified (valid_count r) (threshold r) (total r)) trace_id], Ok r)
  | Err e =>
      (match e with
       | QuorumNotMet required valid total =>
           c ++ [mkMsEvent (QuorumFailed valid required total) trace_id]
       | _ => c
       end, Err e)
  end.

Definition drain_events (c : MultiSigContext) : MultiSigContext * list MultiSigEvent := ([], c).

Definition event_key (e : MultiSigEvent) : string :=
  match ms_type e with
  | ArrayCreated _ => "array_created"
  | SignatureInserted _ => "signature_inserted"
  | QuorumVerified _ _ _ => "quorum_verified"
  | QuorumFailed _ _ _ => "quorum_failed"
  | SortingViolation _ => "sorting_violation"
  | DuplicateSigner _ => "duplicate_signer"
  end.

Definition event_counts (c : MultiSigContext) : gmap string Z :=
  fold_left (fun counts e => <[event_key e := default 0 (counts !! event_key e) + 1]> counts) c ∅.
End MsCtx.

(** ** The order of keys *)

Lemma bytes_cmp_refl a : bytes_cmp a a = Eq.
Proof. induction a as [|x a IH]; [done|]. cbn [bytes_cmp]. by rewrite Z.compare_refl. Qed.

Lemma bytes_cmp_eq a b : bytes_cmp a b = Eq <-> a = b.
Proof.
  split; [|intros ->; apply bytes_cmp_refl]. revert b.
  induction a as [|x a IH]; intros [|y b] H; try done. cbn [bytes_cmp] in H.
  destruct (Z.compare_spec (byteZ x) (byteZ y)) as [He| |]; try done.
  apply byteZ_inj in He as ->. f_equal. by apply IH.
Qed.

Lemma bytes_cmp_antisym a b : bytes_cmp b a = CompOpp (bytes_cmp a b).
Proof.
  revert b. induction a as [|x a IH]; intros [|y b]; try done. cbn [bytes_cmp].
  rewrite (Z.compare_antisym (byteZ x) (byteZ y)). destruct (byteZ x ?= byteZ y); simpl; auto.
Qed.

Lemma bytes_cmp_gt a b : bytes_cmp a b = Gt <-> bytes_lt b a.
Proof. unfold bytes_lt. rewrite (bytes_cmp_antisym a b). by destruct (bytes_cmp a b). Qed.

#[export] Instance bytes_lt_trans : Transitive bytes_lt.
Proof.
  intros a. induction a as [|x a IH]; intros [|y b] [|z c] H1 H2; try done.
  unfold bytes_lt in *. cbn [bytes_cmp] in *.
  destruct (Z.compare_spec (byteZ x) (byteZ y)) as [E1|E1|E1]; try done;
    destruct (Z.compare_spec (byteZ y) (byteZ z)) as [E2|E2|E2]; try done;
    destruct (Z.compare_spec (byteZ x) (byteZ z)) as [E3|E3|E3]; try done; try lia.
  by eapply IH.
Qed.

Lemma bytes_lt_irrefl a : ~ bytes_lt a a.
Proof. unfold bytes_lt. by rewrite bytes_cmp_refl. Qed.

Lemma bytes_le_lteq a b : bytes_le a b <-> bytes_lt a b \/ a = b.
Proof.
  unfold bytes_le, bytes_lt. rewrite <- bytes_cmp_eq. destruct (bytes_cmp a b); naive_solver.
Qed.

#[export] Instance bytes_le_trans : Transitive bytes_le.
Proof.
  intros a b c. rewrite !bytes_le_lteq. intros [H1| ->] [H2| ->]; auto. left. by etrans.
Qed.

#[export] Instance entry_key_le_total : Total entry_key_le.
Proof.
  intros a b. unfold entry_key_le, bytes_le. rewrite (bytes_cmp_antisym (signer a) (signer b)).
  destruct (bytes_cmp _ _); auto.
Qed.

#[export] Instance entry_key_le_trans : Transitive entry_key_le.
Proof. intros a b c. apply bytes_le_trans. Qed.

#[export] Instance entry_key_lt_trans : Transitive entry_key_lt.
Proof. intros a b c. apply bytes_lt_trans. Qed.

(** ** The invariant of arrays *)

Definition arr_sorted (arr : SortedSignatureArray) : Prop := StronglySorted entry_key_lt arr.

Lemma verify_from_Ok i prev l :
  verify_from i prev l = Ok tt <-> Sorted entry_key_lt (prev :: l).
Proof.
  revert i prev. induction l as [|c l IH]; intros i prev; cbn [verify_from].
  - split; [repeat constructor|done].
  - assert (Hs : Sorted entry_key_lt (prev :: c :: l) <->
        entry_key_lt prev c /\ Sorted entry_key_lt (c :: l)).
    { split; [|intros [H1 H2]; constructor; [done|by constructor]]. intros H. inversion H as [|? ? H1 H2]; subst.
      inversion H2; subst. done. }
    rewrite Hs. unfold entry_key_lt at 1, bytes_lt.
    destruct (bytes_cmp (signer prev) (signer c)); [naive_solver|rewrite IH; naive_solver|naive_solver].
Qed.

Lemma adjacent_from_Ok i prev l :
  Sorted entry_key_le (prev :: l) ->
  adjacent_from i prev l = Ok tt <-> Sorted entry_key_lt (prev :: l).
Proof.
  revert i prev. induction l as [|c l IH]; intros i prev Hs; cbn [adjacent_from].
  - split; [repeat constructor|done].
  - inversion Hs as [|? ? Hs' Hh]; subst. inversion Hh as [|? ? Hle]; subst.
    unfold entry_key_le in Hle. rewrite bytes_le_lteq in Hle. split.
    + case_decide as Hne; [done|]. intros H. apply IH in H; [|done]. constructor; [done|]. constructor.
      destruct Hle as [|E]; [done|]. congruence.
    + intros H. inversion H as [|? ? H1 H2]; subst. inversion H2 as [|? ? Hlt]; subst.
      case_decide as E; [|by apply IH].
      unfold entry_key_lt in Hlt. rewrite E in Hlt. by apply bytes_lt_irrefl in Hlt.
Qed.

Lemma sorted_strong l : Sorted entry_key_lt l <-> arr_sorted l.
Proof. split; [apply Sorted_StronglySorted; apply _|apply StronglySorted_Sorted]. Qed.

Lemma new_Ok l arr : Arr.new l = Ok arr <-> l <> [] /\ arr = l /\ arr_sorted l.
Proof.
  unfold Arr.new, verify_sorted_no_duplicates. destruct l as [|e l]; [naive_solver|].
  rewrite <- sorted_strong, <- (verify_from_Ok 1). destruct (verify_from 1 e l) as [[]|]; naive_solver.
Qed.

Lemma sorted_keys_nodup arr : arr_sorted arr -> NoDup (signer <$> arr).
Proof.
  induction 1 as [|e l H IH Hf]; [constructor|]. rewrite fmap_cons. apply NoDup_cons. split; [|done].
  rewrite list_elem_of_fmap.
  intros (e' & He & Hin). rewrite Forall_forall in Hf. specialize (Hf e' Hin).
  unfold entry_key_lt in Hf. rewrite He in Hf. by apply bytes_lt_irrefl in Hf.
Qed.

Lemma sorted_unique a b : arr_sorted a -> arr_sorted b -> a ≡ₚ b -> a = b.
Proof.
  intros Ha Hb Hp.
  assert (Hanti : forall x y, entry_key_lt x y -> entry_key_lt y x -> x = y).
  { intros x y H1 H2. exfalso. apply (bytes_lt_irrefl (signer x)). by etrans. }
  revert b Hb Hp. induction Ha as [|x l Hl IH Hx]; intros b Hb Hp.
  - by apply Permutation_nil_l in Hp.
  - destruct Hb as [|y b Hb Hy]; [by apply Permutation_nil_r in Hp|].
    assert (x = y) as ->.
    { assert (H1 : x ∈ y :: b) by (rewrite <- Hp; left). assert (H2 : y ∈ x :: l) by (rewrite Hp; left).
      apply elem_of_cons in H1 as [|H1]; [done|]. apply elem_of_cons in H2 as [|H2]; [done|].
      rewrite Forall_forall in Hx, Hy. auto. }
    f_equal. apply IH; [done|]. by apply Permutation_cons_inv in Hp.
Qed.

Lemma nodup_sorted_strict l :
  NoDup (signer <$> l) -> Sorted entry_key_le l -> Sorted entry_key_lt l.
Proof.
  intros Hn Hs. apply Sorted_StronglySorted in Hs; [|apply _]. apply StronglySorted_Sorted.
  induction Hs as [|e l Hs IH Hf]; [constructor|]. rewrite fmap_cons in Hn. apply NoDup_cons in Hn as [Hn Hd].
  constructor; [auto|]. rewrite Forall_forall in Hf |- *. intros x Hx. specialize (Hf x Hx).
  unfold entry_key_le in Hf. rewrite bytes_le_lteq in Hf. destruct Hf as [|E]; [done|].
  destruct Hn. rewrite E. apply list_elem_of_fmap. eauto.
Qed.

Lemma from_unsorted_Ok l arr :
  Arr.from_unsorted l = Ok arr <->
  l <> [] /\ NoDup (signer <$> l) /\ arr_sorted arr /\ arr ≡ₚ l.
Proof.
  set (m := merge_sort entry_key_le l).
  assert (Hm : m ≡ₚ l) by apply merge_sort_Permutation.
  assert (Hs : Sorted entry_key_le m) by (apply Sorted_merge_sort; apply _).
  assert (Heq : Arr.from_unsorted l = match l with [] => Err EmptyArray | _ => match m with
      | [] => Ok m | e :: l => _ ← adjacent_from 1 e l; Ok m end end) by (by destruct l).
  rewrite Heq. clear Heq. destruct l as [|e0 l0] eqn:El; [naive_solver|]. rewrite <- El in *.
  clearbody m. destruct m as [|e m]; [by apply Permutation_nil_l in Hm; subst|].
  pose proof (adjacent_from_Ok 1 e m Hs) as Ha. split.
  - intros H. apply bind_Ok in H as ([] & H & E). apply Ha, sorted_strong in H.
    assert (arr = e :: m) as -> by congruence. split; [by subst|]. rewrite <- Hm. auto using sorted_keys_nodup.
  - intros (_ & Hn & Ho & Hp). assert (arr = e :: m) as ->.
    { apply sorted_unique; [done| |by rewrite Hp]. apply sorted_strong, nodup_sorted_strict; [|done].
      by rewrite Hm. }
    apply sorted_strong, Ha in Ho. by rewrite Ho.
Qed.

Lemma from_unsorted_succeeds l :
  l <> [] -> NoDup (signer <$> l) -> Arr.from_unsorted l = Ok (merge_sort entry_key_le l).
Proof.
  intros Hne Hn. apply from_unsorted_Ok. pose proof (merge_sort_Permutation entry_key_le l) as Hp.
  split; [done|]. split; [done|]. split; [|done].
  apply sorted_strong, nodup_sorted_strict; [by rewrite Hp|]. apply Sorted_merge_sort; apply _.
Qed.

(** ** The binary search *)

Section search.
Context (cmp : Z -> comparison) (len : Z).
(** At or below an index that is not too large, everything is smaller. *)
Context (Hmono : forall i j, 0 <= i < j -> j < len -> cmp j <> Gt -> cmp i = Lt).

Lemma search_loop_spec fuel base size :
  0 <= base -> 1 <= size -> base + size <= len -> size <= Z.of_nat fuel ->
  (base = 0 \/ cmp base <> Gt) -> (forall j, base + size <= j < len -> cmp j = Gt) ->
  let b := search_loop fuel cmp base size in
  0 <= b < len /\ (b = 0 \/ cmp b <> Gt) /\ (forall j, b < j < len -> cmp j = Gt).
Proof.
  revert base size. induction fuel as [|fuel IH]; intros base size H0 H1 Hl Hf Hb Hg; [lia|].
  cbn [search_loop]. destruct (Z.leb_spec size 1) as [Hle|Hgt].
  - cbv zeta. split; [lia|]. split; [done|]. intros j Hj. apply Hg. lia.
  - pose proof (Z.div_lt size 2 ltac:(lia) ltac:(lia)). pose proof (Z.div_le_lower_bound size 2 1 ltac:(lia) ltac:(lia)).
    pose proof (Z.mul_div_le size 2 ltac:(lia)).
    destruct (cmp (base + size / 2)) eqn:Hc; apply IH; try lia; try (right; congruence); try done.
    + intros j Hj. apply Hg. lia.
    + intros j Hj. apply Hg. lia.
    + intros j Hj. destruct (decide (cmp j = Gt)) as [|Hn]; [done|].
      destruct (decide (j = base + size / 2)) as [->|]; [done|].
      destruct (decide (base + size <= j)); [by apply Hg; lia|].
      rewrite (Hmono (base + size / 2) j) in Hc; [done|lia|lia|done].
Qed.
End search.

Lemma sorted_lookup_lt (arr : list SignerSignature) i j a b :
  arr_sorted arr -> arr !! i = Some a -> arr !! j = Some b -> (i < j)%nat -> entry_key_lt a b.
Proof.
  intros H. revert i j. induction H as [|e l H IH Hf]; intros i j Ha Hb Hij; [done|].
  destruct j as [|j]; [lia|]. simpl in Hb. destruct i as [|i]; simpl in Ha.
  - injection Ha as ->. rewrite Forall_forall in Hf. apply Hf. by eapply list_elem_of_lookup_2.
  - eapply IH; [done|done|lia].
Qed.

(** What the search returns: the index of the key, or the point that splits
    smaller from larger keys. *)
Lemma binary_search_spec (arr : list SignerSignature) key :
  arr_sorted arr ->
  match binary_search_by arr key with
  | inl i => exists e, arr !! Z.to_nat i = Some e /\ signer e = key
  | inr p => 0 <= p <= zlen arr /\
      (forall i e, arr !! i = Some e -> if decide (Z.of_nat i < p) then bytes_lt (signer e) key
                                        else bytes_lt key (signer e))
  end.
Proof.
  intros Hs. unfold binary_search_by.
  set (cmp := fun i => match arr !! Z.to_nat i with
    | Some e => bytes_cmp (signer e) key | None => Gt end).
  destruct (Z.eqb_spec (zlen arr) 0) as [H0|H0].
  { split; [lia|]. intros i e He. apply lookup_lt_Some in He. unfold zlen in H0. lia. }
  assert (Hmono : forall i j, 0 <= i < j -> j < zlen arr -> cmp j <> Gt -> cmp i = Lt).
  { intros i j Hi Hj Hc. unfold cmp in *.
    destruct (lookup_lt_is_Some_2 arr (Z.to_nat i)) as [a Ha]; [unfold zlen in Hj; lia|].
    destruct (lookup_lt_is_Some_2 arr (Z.to_nat j)) as [b Hb]; [unfold zlen in Hj; lia|].
    rewrite Ha. rewrite Hb in Hc. pose proof (sorted_lookup_lt _ _ _ _ _ Hs Ha Hb ltac:(lia)) as Hlt.
    apply bytes_le_lteq in Hc as [Hc|<-]; [|done]. by apply (bytes_lt_trans _ (signer b)). }
  pose proof (zlen_nonneg arr).
  destruct (search_loop_spec cmp (zlen arr) Hmono (length arr) 0 (zlen arr)) as (Hb & Hz & Hg);
    [lia|lia|lia|unfold zlen; lia|by left|lia|].
  set (base := search_loop _ _ _ _) in *. clearbody base.
  destruct (lookup_lt_is_Some_2 arr (Z.to_nat base)) as [e He]; [unfold zlen in *; lia|].
  assert (Hat : forall i x, arr !! i = Some x -> cmp (Z.of_nat i) = bytes_cmp (signer x) key).
  { intros i x Hx. unfold cmp. by rewrite Nat2Z.id, Hx. }
  fold (cmp base). destruct (cmp base) eqn:Hc.
  - exists e. split; [done|]. unfold cmp in Hc. rewrite He in Hc. by apply bytes_cmp_eq.
  - split; [lia|]. intros i x Hx. pose proof (Hat _ _ Hx) as Hi.
    pose proof (lookup_lt_Some _ _ _ Hx). case_decide as Hd.
    + destruct (decide (Z.of_nat i = base)) as [E|]; [unfold bytes_lt; congruence|].
      unfold bytes_lt. rewrite <- Hi. apply (Hmono _ base); [lia|lia|congruence].
    + apply bytes_cmp_gt. rewrite <- Hi. apply Hg. unfold zlen. lia.
  - destruct Hz as [->|]; [|done]. split; [lia|]. intros i x Hx. pose proof (Hat _ _ Hx) as Hi.
    pose proof (lookup_lt_Some _ _ _ Hx). case_decide as Hd; [lia|]. apply bytes_cmp_gt. rewrite <- Hi.
    destruct (decide (Z.of_nat i = 0)) as [->|]; [done|]. apply Hg. unfold zlen. lia.
Qed.

Lemma contains_signer_iff (arr : list SignerSignature) key :
  arr_sorted arr -> Arr.contains_signer arr key = true <-> key ∈ Arr.signer_keys arr.
Proof.
  intros Hs. unfold Arr.contains_signer, Arr.signer_keys. rewrite list_elem_of_fmap.
  pose proof (binary_search_spec arr key Hs) as H. destruct (binary_search_by arr key) as [i|p].
  - destruct H as (e & He & Hk). split; [|done]. intros _. exists e. split; [done|].
    by eapply list_elem_of_lookup_2.
  - split; [done|]. intros (e & -> & [i Hi]%list_elem_of_lookup). destruct H as [_ H].
    specialize (H i e Hi). case_decide; by apply bytes_lt_irrefl in H.
Qed.

Lemma position_None key i l : Arr.position key i l = None <-> key ∉ (signer <$> l).
Proof.
  revert i. induction l as [|e l IH]; intros i; cbn [Arr.position]; [set_solver|].
  rewrite fmap_cons, not_elem_of_cons. case_decide; [naive_solver|]. rewrite IH. naive_solver.
Qed.

Lemma forall_take {A} (P : A -> Prop) n (l : list A) :
  (forall i x, l !! i = Some x -> (i < n)%nat -> P x) -> Forall P (take n l).
Proof.
  intros H. apply Forall_lookup. intros i x Hx. apply lookup_take_Some in Hx as [Hx Hi]. eauto.
Qed.

Lemma forall_drop {A} (P : A -> Prop) n (l : list A) :
  (forall i x, l !! i = Some x -> (n <= i)%nat -> P x) -> Forall P (drop n l).
Proof. intros H. apply Forall_lookup. intros i x Hx. rewrite lookup_drop in Hx. eapply H; [done|lia]. Qed.

Lemma insert_sorted (arr : list SignerSignature) entry arr' :
  arr_sorted arr -> Arr.insert arr entry = (arr', Ok tt) ->
  arr_sorted arr' /\ arr' ≡ₚ entry :: arr /\ signer entry ∉ Arr.signer_keys arr.
Proof.
  intros Hs H. unfold Arr.insert in H. destruct (Arr.position _ _ _) eqn:Hp; [done|].
  apply position_None in Hp. pose proof (binary_search_spec arr (signer entry) Hs) as Hb.
  destruct (binary_search_by arr (signer entry)) as [i|p].
  { destruct Hb as (e & He & Hk). destruct Hp. rewrite <- Hk. apply list_elem_of_fmap. exists e.
    split; [done|]. by eapply list_elem_of_lookup_2. }
  destruct Hb as [Hr Hb]. assert (arr' = take (Z.to_nat p) arr ++ entry :: drop (Z.to_nat p) arr) as -> by congruence.
  split; [|split; [|done]].
  - unfold arr_sorted in *. rewrite <- (take_drop (Z.to_nat p) arr) in Hs.
    apply StronglySorted_app in Hs as (Hlr & Hl & Hd).
    apply StronglySorted_app. split; [|split; [done|]].
    + intros a b Ha [->|Hin]%elem_of_cons; [|by apply Hlr].
      revert a Ha. apply Forall_forall, forall_take. intros i x Hx Hi. specialize (Hb i x Hx).
      by rewrite decide_True in Hb by lia.
    + constructor; [done|]. apply forall_drop. intros i x Hx Hi. specialize (Hb i x Hx).
      by rewrite decide_False in Hb by lia.
  - rewrite <- Permutation_middle, take_drop. done.
Qed.

(** The arrays a caller can hold. *)
Inductive arr_built : SortedSignatureArray -> Prop :=
  | built_new l arr : Arr.new l = Ok arr -> arr_built arr
  | built_unsorted l arr : Arr.from_unsorted l = Ok arr -> arr_built arr
  | built_insert arr entry arr' :
      arr_built arr -> Arr.insert arr entry = (arr', Ok tt) -> arr_built arr'.

Lemma arr_built_sorted arr : arr_built arr -> arr_sorted arr.
Proof.
  induction 1 as [l arr H|l arr H|arr entry arr' _ IH H].
  - apply new_Ok in H as (_ & -> & H). done.
  - apply from_unsorted_Ok in H as (_ & _ & H & _). done.
  - by eapply insert_sorted.
Qed.

(** A sorted array is determined by the set of its entries, however it was
    built; sorting succeeds exactly when there are entries and no two share a
    key; the binary search finds exactly the signers present. *)
Theorem multisig_array_canonical (l : list SignerSignature) (a b : SortedSignatureArray) :
  arr_built a -> arr_built b ->
  ((forall e, e ∈ a <-> e ∈ b) -> a = b) /\
  (is_ok (Arr.from_unsorted l) = true <-> l <> [] /\ NoDup (signer <$> l)) /\
  (forall l', l ≡ₚ l' -> Arr.from_unsorted l = Ok a -> Arr.from_unsorted l' = Ok a) /\
  (forall key, Arr.contains_signer a key = true <-> key ∈ Arr.signer_keys a).
Proof.
  intros Ha%arr_built_sorted Hb%arr_built_sorted. split; [|split; [|split]].
  - intros He. apply sorted_unique; [done..|].
    apply NoDup_Permutation; [apply (NoDup_fmap_1 signer), sorted_keys_nodup; done..|exact He].
  - split.
    + destruct (Arr.from_unsorted l) eqn:H; [|done]. apply from_unsorted_Ok in H as (? & ? & _). done.
    + intros [Hne Hn]. by rewrite from_unsorted_succeeds.
  - intros l' Hp. rewrite !from_unsorted_Ok. intros (Hne & Hn & Hs & Hl).
    split; [intros ->; by apply Permutation_nil_r in Hp|]. rewrite <- Hp. done.
  - intros key. by apply contains_signer_iff.
Qed.

(** ** Quorums *)

Section quorum.
Context (authorized : list VerificationKey)
  (verify_fn : VerificationKey -> Signature -> result SignatureError unit).

Definition counts (e : SignerSignature) : Prop :=
  signer e ∈ authorized /\ verify_fn (signer e) (signature e) = Ok tt.

#[export] Instance counts_dec e : Decision (counts e).
Proof. unfold counts. apply _. Defined.

Lemma authorized_existsb e :
  existsb (fun k => bool_decide (k = signer e)) authorized = bool_decide (signer e ∈ authorized).
Proof.
  apply Bool.eq_true_iff_eq. rewrite existsb_exists, bool_decide_eq_true. split.
  - intros (k & Hk & He%bool_decide_eq_true). subst. by apply list_elem_of_In.
  - intros H. exists (signer e). split; [by apply list_elem_of_In|by apply bool_decide_eq_true].
Qed.

Lemma quorum_fold l n inv una :
  let '(n', inv', una') := fold_left (Arr.quorum_step authorized verify_fn) l (n, inv, una) in
  n' = n + zlen (filter counts l) /\ n' + zlen inv' + zlen una' = n + zlen inv + zlen una + zlen l.
Proof.
  revert n inv una. induction l as [|e l IH]; intros n inv una; [unfold zlen; simpl; lia|].
  cbn [fold_left]. unfold Arr.quorum_step at 2. rewrite authorized_existsb.
  rewrite filter_cons.
  destruct (bool_decide_reflect (signer e ∈ authorized)) as [Ha|Ha]; cbn [negb].
  - destruct (verify_fn (signer e) (signature e)) as [[]|err] eqn:Hv.
    + rewrite decide_True by done. specialize (IH (n + 1) inv una).
      destruct (fold_left _ _ _) as [[n' inv'] una']. unfold zlen in *. cbn [length]. lia.
    + rewrite decide_False by (intros [_ ?]; congruence). specialize (IH n (inv ++ [(signer e, signature_error_string err)]) una).
      destruct (fold_left _ _ _) as [[n' inv'] una']. unfold zlen in *. rewrite length_app in IH. cbn [length] in *. lia.
  - rewrite decide_False by (by intros [? _]). specialize (IH n inv (una ++ [signer e])).
    destruct (fold_left _ _ _) as [[n' inv'] una']. unfold zlen in *. rewrite length_app in IH. cbn [length] in *. lia.
Qed.

Lemma verify_quorum_eq arr t :
  exists r, valid_count r = zlen (filter counts arr) /\ quorum_met r = true /\ threshold r = t /\
    total r = zlen arr /\ valid_count r + invalid_count r + unauthorized_count r = total r /\
    Arr.verify_quorum arr t authorized verify_fn =
      if t =? 0 then Err ZeroQuorumThreshold
      else if t <=? zlen (filter counts arr) then Ok r
      else Err (QuorumNotMet t (zlen (filter counts arr)) (zlen arr)).
Proof.
  unfold Arr.verify_quorum. pose proof (quorum_fold arr 0 [] []) as H.
  destruct (fold_left _ _ _) as [[n inv] una]. destruct H as [Hn Ht].
  assert (n = zlen (filter counts arr)) as -> by lia.
  exists (mkQuorum true (zlen (filter counts arr)) (zlen inv) (zlen una) (zlen arr) t inv una).
  do 4 (split; [done|]). split; [simpl; unfold zlen in *; simpl in *; lia|].
  by destruct (t =? 0), (t <=? zlen (filter counts arr)).
Qed.
End quorum.

Lemma counts_keys_sublist au vf arr :
  arr_sorted arr -> NoDup (signer <$> filter (counts au vf) arr).
Proof.
  intros H. eapply sublist_NoDup; [by apply sorted_keys_nodup|].
  apply fmap_sublist, sublist_filter.
Qed.

(** A quorum is made of distinct authorized signers. For every array that the
    constructors and insertions can build, the quorum check with a positive threshold
    succeeds exactly when that many different authorized keys each have a valid signature
    in the array; its counts of valid, invalid and unauthorized signatures add up to the
    total. *)
Theorem quorum_counts_distinct_signers (arr : list SignerSignature) (t : Z)
    (authorized : list VerificationKey)
    (verify_fn : VerificationKey -> Signature -> result SignatureError unit) :
  arr_built arr -> 0 < t ->
  ((exists r, Arr.verify_quorum arr t authorized verify_fn = Ok r) <->
   (exists keys, NoDup keys /\ zlen keys = t /\
      Forall (fun k => k ∈ authorized /\
        exists s, mkSigner k s ∈ arr /\ verify_fn k s = Ok tt) keys)) /\
  (forall r, Arr.verify_quorum arr t authorized verify_fn = Ok r ->
     quorum_met r = true /\ t <= valid_count r /\ total r = zlen arr /\
     valid_count r + invalid_count r + unauthorized_count r = total r).
Proof.
  intros Hs%arr_built_sorted Ht.
  destruct (verify_quorum_eq authorized verify_fn arr t) as (r & Hv & Hq & _ & Hto & Hsum & ->).
  replace (t =? 0) with false by lia. set (good := filter (counts authorized verify_fn) arr) in *.
  pose proof (counts_keys_sublist authorized verify_fn arr Hs) as Hn. fold good in Hn.
  assert (Hin : forall k, k ∈ (signer <$> good) <->
    k ∈ authorized /\ exists s, mkSigner k s ∈ arr /\ verify_fn k s = Ok tt).
  { intros k. rewrite list_elem_of_fmap. split.
    - intros ([k' s] & -> & [[Ha Hok] Hin]%list_elem_of_filter). eauto.
    - intros (Ha & s & Hs' & Hok). exists (mkSigner k s). split; [done|]. by apply list_elem_of_filter. }
  split.
  - destruct (Z.leb_spec t (zlen good)) as [Hle|Hgt].
    + split; [intros _|eauto]. exists (take (Z.to_nat t) (signer <$> good)). unfold zlen in *.
      split; [eapply sublist_NoDup; [done|apply sublist_take]|].
      split; [rewrite length_take, length_fmap; lia|]. apply Forall_take, Forall_forall. intros k. apply Hin.
    + split; [by intros [? ?]|]. intros (keys & Hk & Hl & Hf). exfalso.
      assert (Hsub : (length keys <= length (signer <$> good))%nat).
      { apply submseteq_length, NoDup_submseteq; [done|]. intros k Hkin. apply Hin.
        by rewrite Forall_forall in Hf; apply Hf. }
      rewrite length_fmap in Hsub. unfold zlen in *. lia.
  - intros r' H. destruct (Z.leb_spec t (zlen good)); [|done]. injection H as <-. split; [done|]. lia.
Qed.

(** ** Examples *)

Definition key_n (b : byte) : VerificationKey := replicate 32 b.
Definition sig_n (b : byte) : Signature := mkSignature (replicate 32 b) (replicate 32 b).
Definition entry_n (b : byte) : SignerSignature := mkSigner (key_n b) (sig_n b).

(** A check that accepts the signature of the signer's own byte. *)
Definition echo_fn (k : VerificationKey) (s : Signature) : result SignatureError unit :=
  if decide (k = lower s) then Ok tt else Err InvalidVerificationKey.

Lemma multisig_array_canonical_witness :
  Arr.from_unsorted [entry_n x02; entry_n x01] = Ok [entry_n x01; entry_n x02] /\
  Arr.contains_signer [entry_n x01; entry_n x02] (key_n x02) = true.
Proof.
  assert (Hb : arr_built [entry_n x01; entry_n x02])
    by (apply (built_unsorted [entry_n x01; entry_n x02]); vm_compute; reflexivity).
  destruct (multisig_array_canonical [entry_n x01; entry_n x02] _ _ Hb Hb) as (_ & _ & Hp & Hc). split.
  - apply Hp; [apply Permutation_swap|vm_compute; reflexivity].
  - apply Hc. right. left.
Defined.

Lemma quorum_counts_distinct_signers_witness :
  exists r, Arr.verify_quorum [entry_n x01; entry_n x02] 2 [key_n x02; key_n x01] echo_fn = Ok r /\
    quorum_met r = true.
Proof.
  assert (Hb : arr_built [entry_n x01; entry_n x02])
    by (apply (built_new [entry_n x01; entry_n x02]); vm_compute; reflexivity).
  destruct (quorum_counts_distinct_signers _ 2 [key_n x02; key_n x01] echo_fn Hb ltac:(lia)) as [He Hr].
  destruct (proj2 He) as [r Hok]; [|exists r; split; [exact Hok|apply (Hr r Hok)]].
  exists [key_n x01; key_n x02]. split; [|split; [done|]].
  - apply NoDup_cons. split; [|apply NoDup_singleton]. intros H%list_elem_of_singleton. vm_compute in H. discriminate H.
  - repeat constructor; try (apply (bool_decide_unpack _); vm_compute; exact I).
    + exists (sig_n x01). split; [left|vm_compute; reflexivity].
    + exists (sig_n x02). split; [right; left|vm_compute; reflexivity].
Defined.

(** The same key twice is refused, and an unauthorized signer does not count. *)
Example multisig_refusals :
  is_ok (Arr.from_unsorted [entry_n x01; entry_n x01]) = false /\
  Arr.verify_quorum [entry_n x01; entry_n x02] 2 [key_n x01] echo_fn = Err (QuorumNotMet 2 1 2).
Proof. vm_compute. auto. Qed.
