(* ===== verification/PolicyCheckpoint.v ===== *)
(** * Policy checkpoints (crates/franken-engine/src/policy_checkpoint.rs)

    Quorum-signed checkpoints of the active policies: the unsigned view, the
    builder with its validation, the check of the link between two checkpoints
    and the check of a checkpoint's quorum.  The theorems say that a built
    checkpoint passes both checks and that its identifier determines zone and
    contents up to a collision of the hash.

    [signature_schema] of a checkpoint is never reached in the source, which
    overrides [preimage_bytes]; [preimage_bytes] here is that override. *)
From stdpp Require Import base numbers list strings gmap sorting.
From Stdlib Require Import Strings.Byte.
From S2P Require Import Prelude Bytes Text HashTiers DetSerde DetSerdeCorrect.
From S2P Require Import IrContract IrContractCorrect SignaturePreimage.
From S2P Require Import MarkerCorrect SecurityEpoch EngineObjectId SortedMultisig.
Open Scope string_scope.
Open Scope list_scope.
Open Scope Z_scope.

Definition CHECKPOINT_SCHEMA_DEF : list byte := str_bytes "FrankenEngine.PolicyCheckpoint.v1".
Definition checkpoint_schema : SchemaHash := from_definition CHECKPOINT_SCHEMA_DEF.
Definition checkpoint_schema_id : SchemaId := SchemaId_from_definition CHECKPOINT_SCHEMA_DEF.

Inductive PolicyType :=
  | RuntimeExecution | CapabilityLattice | ExtensionTrust | EvidenceRetention
  | RevocationGovernance.

#[export] Instance PolicyType_eq_dec : EqDecision PolicyType.
Proof. solve_decision. Defined.

Definition policy_type_string (t : PolicyType) : string :=
  match t with
  | RuntimeExecution => "runtime_execution"
  | CapabilityLattice => "capability_lattice"
  | ExtensionTrust => "extension_trust"
  | EvidenceRetention => "evidence_retention"
  | RevocationGovernance => "revocation_governance"
  end.

(** The derived order: the order of declaration. *)
Definition policy_type_rank (t : PolicyType) : Z :=
  match t with
  | RuntimeExecution => 0 | CapabilityLattice => 1 | ExtensionTrust => 2
  | EvidenceRetention => 3 | RevocationGovernance => 4
  end.

Record PolicyHead := mkHead {
  policy_type : PolicyType; policy_hash : ContentHash; policy_version : Z }.

#[export] Instance PolicyHead_eq_dec : EqDecision PolicyHead.
Proof. solve_decision. Defined.

Definition head_le (a b : PolicyHead) : Prop :=
  policy_type_rank (policy_type a) <= policy_type_rank (policy_type b).
#[export] Instance head_le_dec : RelDecision head_le.
Proof. intros a b. unfold head_le. apply _. Defined.

Definition epoch_string (e : SecurityEpoch) : string := "epoch:" +:+ int_to_string e.

Inductive CheckpointError :=
  | GenesisMustHaveNoPredecessor
  | MissingPredecessor
  | NonMonotonicSequence (prev_seq current_seq : Z)
  | GenesisSequenceNotZero (actual : Z)
  | ChainLinkageBroken (expected actual : EngineObjectId)
  | EmptyPolicyHeads
  | CheckpointQuorumNotMet (required provided : Z)
  | DuplicatePolicyType (policy_type : PolicyType)
  | IdDerivationFailed (detail : string)
  | SignatureInvalid (detail : string)
  | EpochRegression (prev_epoch current_epoch : SecurityEpoch).

(** [Display] *)
Definition checkpoint_error_string (e : CheckpointError) : string :=
  let int := int_to_string in
  match e with
  | GenesisMustHaveNoPredecessor => "genesis checkpoint must have no predecessor"
  | MissingPredecessor => "non-genesis checkpoint must have a predecessor"
  | NonMonotonicSequence prev cur =>
      "non-monotonic sequence: prev=" +:+ int prev +:+ ", current=" +:+ int cur
  | GenesisSequenceNotZero actual => "genesis sequence must be 0, got " +:+ int actual
  | ChainLinkageBroken expected actual =>
      "chain linkage: expected " +:+ id_to_hex expected +:+ ", got " +:+ id_to_hex actual
  | EmptyPolicyHeads => "policy heads must not be empty"
  | CheckpointQuorumNotMet required provided =>
      "quorum not met: " +:+ int provided +:+ "/" +:+ int required
  | DuplicatePolicyType t => "duplicate policy type: " +:+ policy_type_string t
  | IdDerivationFailed detail => "ID derivation failed: " +:+ detail
  | SignatureInvalid detail => "signature invalid: " +:+ detail
  | EpochRegression prev cur =>
      "epoch regression: prev=" +:+ epoch_string prev +:+ ", current=" +:+ epoch_string cur
  end.

Record PolicyCheckpoint := mkCheckpoint {
  checkpoint_id : EngineObjectId;
  prev_checkpoint : option EngineObjectId;
  checkpoint_seq : Z;
  cp_epoch : SecurityEpoch;
  policy_heads : list PolicyHead;
  quorum_signatures : SortedSignatureArray;
  created_at : Z }.

(** ** The unsigned view *)

Definition head_value (h : PolicyHead) : CanonicalValue :=
  map_of [("policy_hash", VBytes (policy_hash h));
          ("policy_type", VString (policy_type_string (policy_type h)));
          ("policy_version", VU64 (policy_version h))].

Definition build_unsigned_view (prev : option EngineObjectId) (seq : Z) (epoch : SecurityEpoch)
    (heads : list PolicyHead) (created : Z) : CanonicalValue :=
  map_of [("checkpoint_seq", VU64 seq);
          ("created_at", VU64 created);
          ("epoch_id", VU64 epoch);
          ("policy_heads", VArray (head_value <$> heads));
          ("prev_checkpoint", match prev with Some id => VBytes id | None => VNull end);
          ("quorum_signatures", VBytes SIGNATURE_SENTINEL)].

Definition checkpoint_view (c : PolicyCheckpoint) : CanonicalValue :=
  build_unsigned_view (prev_checkpoint c) (checkpoint_seq c) (cp_epoch c) (policy_heads c)
    (created_at c).

Definition preimage_bytes (c : PolicyCheckpoint) : list byte :=
  tag CheckpointArtifact ++ checkpoint_schema ++ encode_value (checkpoint_view c).

(** ** The builder *)

Record CheckpointBuilder := mkBuilder {
  b_prev_checkpoint : option EngineObjectId;
  b_prev_seq : option Z;
  b_prev_epoch : option SecurityEpoch;
  b_seq : Z;
  b_epoch : SecurityEpoch;
  b_heads : list PolicyHead;
  b_created_at : Z;
  b_zone : string }.

Module Builder.
Definition genesis (epoch : SecurityEpoch) (created : Z) (zone : string) : CheckpointBuilder :=
  mkBuilder None None None 0 epoch [] created zone.

Definition after (prev : PolicyCheckpoint) (seq : Z) (epoch : SecurityEpoch) (created : Z)
    (zone : string) : CheckpointBuilder :=
  mkBuilder (Some (checkpoint_id prev)) (Some (checkpoint_seq prev)) (Some (cp_epoch prev))
    seq epoch [] created zone.

Definition add_policy_head (b : CheckpointBuilder) (h : PolicyHead) : CheckpointBuilder :=
  mkBuilder (b_prev_checkpoint b) (b_prev_seq b) (b_prev_epoch b) (b_seq b) (b_epoch b)
    (b_heads b ++ [h]) (b_created_at b) (b_zone b).

(** The loop over the heads with the set [seen] of type names. *)
Fixpoint check_types (seen : gset string) (heads : list PolicyHead) : result CheckpointError unit :=
  match heads with
  | [] => Ok tt
  | h :: heads =>
      let name := policy_type_string (policy_type h) in
      if decide (name ∈ seen) then Err (DuplicatePolicyType (policy_type h))
      else check_types ({[name]} ∪ seen) heads
  end.

Definition validate (b : CheckpointBuilder) : result CheckpointError unit :=
  _ ← (match b_prev_checkpoint b with
       | None =>
           if negb (b_seq b =? 0) then Err (GenesisSequenceNotZero (b_seq b)) else Ok tt
       | Some _ =>
           _ ← match b_prev_seq b with
               | Some prev_seq =>
                   if b_seq b <=? prev_seq then Err (NonMonotonicSequence prev_seq (b_seq b))
                   else Ok tt
               | None => Ok tt
               end;
           match b_prev_epoch b with
           | Some prev_epoch =>
               if b_epoch b <? prev_epoch then Err (EpochRegression prev_epoch (b_epoch b))
               else Ok tt
           | None => Ok tt
           end
       end);
  if decide (b_heads b = []) then Err EmptyPolicyHeads
  else check_types ∅ (b_heads b).

(** The loop that signs the preimage with each key. *)
Fixpoint sign_all (preimage : list byte) (keys : list SigningKey) :
    result CheckpointError (list SignerSignature) :=
  match keys with
  | [] => Ok []
  | sk :: keys =>
      let vk := verification_key sk in
      sig ← map_err (fun e => SignatureInvalid ("signing failed: " +:+ signature_error_string e))
              (sign_preimage sk preimage);
      entries ← sign_all preimage keys;
      Ok (mkSigner vk sig :: entries)
  end.

Definition build (b : CheckpointBuilder) (signing_keys : list SigningKey) :
    result CheckpointError PolicyCheckpoint :=
  _ ← validate b;
  let heads := merge_sort head_le (b_heads b) in
  let view := build_unsigned_view (b_prev_checkpoint b) (b_seq b) (b_epoch b) heads (b_created_at b) in
  let canonical_bytes := encode_value view in
  id ← map_err (fun e => IdDerivationFailed (id_error_string e))
         (derive_id CheckpointArtifact (b_zone b) checkpoint_schema_id canonical_bytes);
  let preimage := tag CheckpointArtifact ++ checkpoint_schema ++ encode_value view in
  entries ← sign_all preimage signing_keys;
  signatures ← map_err (fun e => SignatureInvalid ("multi-sig construction failed: " +:+
                                   multisig_error_string e))
                 (Arr.from_unsorted entries);
  Ok (mkCheckpoint id (b_prev_checkpoint b) (b_seq b) (b_epoch b) heads signatures (b_created_at b)).
End Builder.

(** ** Checks *)

Definition verify_chain_linkage (prev current : PolicyCheckpoint) : result CheckpointError unit :=
  _ ← match prev_checkpoint current with
      | None => Err MissingPredecessor
      | Some prev_id =>
          if decide (prev_id = checkpoint_id prev) then Ok tt
          else Err (ChainLinkageBroken (checkpoint_id prev) prev_id)
      end;
  if checkpoint_seq current <=? checkpoint_seq prev then
    Err (NonMonotonicSequence (checkpoint_seq prev) (checkpoint_seq current))
  else if cp_epoch current <? cp_epoch prev then
    Err (EpochRegression (cp_epoch prev) (cp_epoch current))
  else Ok tt.

Definition verify_checkpoint_quorum (c : PolicyCheckpoint) (quorum_threshold : Z)
    (authorized_signers : list VerificationKey) : result CheckpointError unit :=
  let preimage := preimage_bytes c in
  match Arr.verify_quorum (quorum_signatures c) quorum_threshold authorized_signers
          (fun vk sig => verify_signature vk preimage sig) with
  | Ok _ => Ok tt
  | Err (QuorumNotMet required valid _) => Err (CheckpointQuorumNotMet required valid)
  | Err e => Err (SignatureInvalid ("quorum verification error: " +:+ multisig_error_string e))
  end.

(** ** Building *)

Lemma map_err_Ok {E F A} (f : E -> F) (r : result E A) a : map_err f r = Ok a <-> r = Ok a.
Proof. destruct r; naive_solver. Qed.

Definition signed_by (preimage : list byte) (sk : SigningKey) : SignerSignature :=
  mkSigner (verification_key sk)
    (Signature_from_bytes (compute_verification_hash (verification_key sk) preimage)).

Lemma sign_all_Ok preimage keys entries :
  Builder.sign_all preimage keys = Ok entries <->
  Forall (fun sk => all_zero sk = false) keys /\ entries = signed_by preimage <$> keys.
Proof.
  revert entries. induction keys as [|sk keys IH]; intros entries; cbn [Builder.sign_all].
  - split; [intros [= <-]; done|]. by intros [_ ->].
  - rewrite bind_Ok. rewrite Forall_cons, fmap_cons. unfold sign_preimage.
    destruct (all_zero sk) eqn:Hz; cbn [map_err].
    + split; [by intros (? & ? & _)|]. by intros [[? _] _].
    + split.
      * intros (s & Hs & H). injection Hs as <-. apply bind_Ok in H as (es & [Hf ->]%IH & H).
        injection H as <-. auto.
      * intros [[_ Hf] ->]. eexists. split; [reflexivity|]. apply bind_Ok.
        eexists. split; [by apply IH|]. reflexivity.
Qed.

Lemma check_types_Ok seen heads :
  Builder.check_types seen heads = Ok tt <->
  NoDup (policy_type_string ∘ policy_type <$> heads) /\
  Forall (fun h => policy_type_string (policy_type h) ∉ seen) heads.
Proof.
  revert seen. induction heads as [|h heads IH]; intros seen; cbn [Builder.check_types].
  - split; [intros _; split; constructor|done].
  - rewrite fmap_cons, NoDup_cons, Forall_cons, list_elem_of_fmap. case_decide as Hd.
    { split; [done|]. by intros [_ [? _]]. }
    rewrite IH, !Forall_forall. split.
    + intros [Hn Hf]. split; [split; [|done]|split; [done|]].
      * intros (h' & He & Hin). specialize (Hf h' Hin). simpl in He. set_solver.
      * intros h' Hin. specialize (Hf h' Hin). set_solver.
    + intros [[Hne Hn] [_ Hf]]. split; [done|]. intros h' Hin Hc. apply elem_of_union in Hc as [Hc|Hc].
      * apply Hne. exists h'. split; [|done]. simpl. by apply elem_of_singleton in Hc.
      * by eapply Hf.
Qed.

Lemma policy_type_string_inj a b : policy_type_string a = policy_type_string b -> a = b.
Proof. by destruct a, b. Qed.

(** What the builder demands. *)
Definition builder_valid (b : CheckpointBuilder) : Prop :=
  match b_prev_checkpoint b with
  | None => b_seq b = 0
  | Some _ => (forall n, b_prev_seq b = Some n -> n < b_seq b) /\
              (forall e, b_prev_epoch b = Some e -> e <= b_epoch b)
  end /\ b_heads b <> [] /\ NoDup (policy_type <$> b_heads b).

Lemma nodup_types heads :
  NoDup (policy_type_string ∘ policy_type <$> heads) <-> NoDup (policy_type <$> heads).
Proof.
  rewrite list_fmap_compose. split; [apply NoDup_fmap_1|].
  apply NoDup_fmap_2. intros a b. apply policy_type_string_inj.
Qed.

Lemma validate_Ok b : Builder.validate b = Ok tt <-> builder_valid b.
Proof.
  assert (Htail : (if decide (b_heads b = []) then Err EmptyPolicyHeads
                   else Builder.check_types ∅ (b_heads b)) = Ok tt <->
                  b_heads b <> [] /\ NoDup (policy_type <$> b_heads b)).
  { case_decide; [naive_solver|]. rewrite check_types_Ok, nodup_types, Forall_forall. set_solver. }
  unfold Builder.validate, builder_valid. rewrite bind_Ok, <- Htail. clear Htail.
  set (tail := if decide (b_heads b = []) then _ else _). clearbody tail.
  assert (Hu : forall (r : result CheckpointError unit) Q, (r = Ok tt <-> Q) ->
    ((exists a, r = Ok a /\ tail = Ok tt) <-> Q /\ tail = Ok tt)).
  { intros r Q Hr. rewrite <- Hr. split; [intros ([] & H); exact H|]. intros H. by exists tt. }
  apply Hu. clear Hu. destruct (b_prev_checkpoint b) as [id|].
  - rewrite bind_Ok. destruct (b_prev_seq b) as [n|], (b_prev_epoch b) as [e|];
      [destruct (Z.leb_spec (b_seq b) n), (Z.ltb_spec (b_epoch b) e)
      |destruct (Z.leb_spec (b_seq b) n)|destruct (Z.ltb_spec (b_epoch b) e)|];
      (split; [intros ([] & ? & ?)|intros [H1 H2]]); try done;
      try (exfalso; specialize (H1 _ eq_refl); lia); try (exfalso; specialize (H2 _ eq_refl); lia);
      try (by exists tt); (split; intros ? [= <-]; lia).
  - destruct (Z.eqb_spec (b_seq b) 0); simpl; naive_solver.
Qed.

(** The checkpoint that [b] describes, but for its signatures. *)
Definition b_view (b : CheckpointBuilder) : CanonicalValue :=
  build_unsigned_view (b_prev_checkpoint b) (b_seq b) (b_epoch b) (merge_sort head_le (b_heads b))
    (b_created_at b).

Definition b_preimage (b : CheckpointBuilder) : list byte :=
  build_preimage CheckpointArtifact checkpoint_schema (b_view b).

Lemma encode_map_nonempty l : encode_value (map_of l) <> [].
Proof. unfold map_of. by rewrite encode_map. Qed.

#[local] Opaque encode_value deterministic_hash ContentHash_compute.

Lemma build_Ok b keys c :
  Builder.build b keys = Ok c <->
  builder_valid b /\ Forall (fun sk => all_zero sk = false) keys /\
  exists id sigs,
    derive_id CheckpointArtifact (b_zone b) checkpoint_schema_id (encode_value (b_view b)) = Ok id /\
    Arr.from_unsorted (signed_by (b_preimage b) <$> keys) = Ok sigs /\
    c = mkCheckpoint id (b_prev_checkpoint b) (b_seq b) (b_epoch b)
          (merge_sort head_le (b_heads b)) sigs (b_created_at b).
Proof.
  unfold Builder.build. fold (b_view b). change (tag CheckpointArtifact ++ checkpoint_schema ++ encode_value (b_view b))
    with (b_preimage b). split.
  - intros H. apply bind_Ok in H as ([] & Hv%validate_Ok & H). apply bind_Ok in H as (id & Hi%map_err_Ok & H).
    apply bind_Ok in H as (es & [Hf ->]%sign_all_Ok & H). apply bind_Ok in H as (sigs & Hs%map_err_Ok & H).
    split; [done|]. split; [done|]. exists id, sigs. split; [done|]. split; [done|]. congruence.
  - intros (Hv & Hf & id & sigs & Hi & Hs & ->). apply bind_Ok. exists tt. split; [by apply validate_Ok|].
    apply bind_Ok. exists id. split; [by apply map_err_Ok|]. apply bind_Ok.
    exists (signed_by (b_preimage b) <$> keys). split; [by apply sign_all_Ok|]. apply bind_Ok. exists sigs.
    split; [by apply map_err_Ok|done].
Qed.

Lemma derive_checkpoint_id b :
  derive_id CheckpointArtifact (b_zone b) checkpoint_schema_id (encode_value (b_view b)) =
  Ok (deterministic_hash (build_id_preimage CheckpointArtifact (b_zone b) checkpoint_schema_id
        (encode_value (b_view b)))).
Proof. apply derive_id_Ok. split; [apply encode_map_nonempty|done]. Qed.

Lemma merge_heads_view b c keys :
  Builder.build b keys = Ok c ->
  checkpoint_view c = b_view b /\ preimage_bytes c = b_preimage b.
Proof. intros (_ & _ & id & sigs & _ & _ & ->)%build_Ok. done. Qed.

(** [b] builds on [prev]. *)
Definition builds_on (b : CheckpointBuilder) (prev : PolicyCheckpoint) : Prop :=
  exists seq epoch created zone heads,
    b = fold_left Builder.add_policy_head heads (Builder.after prev seq epoch created zone).

Lemma add_heads_prev heads b :
  let b' := fold_left Builder.add_policy_head heads b in
  b_prev_checkpoint b' = b_prev_checkpoint b /\ b_prev_seq b' = b_prev_seq b /\
  b_prev_epoch b' = b_prev_epoch b.
Proof. revert b. induction heads as [|h heads IH]; intros b; [done|]. apply (IH (Builder.add_policy_head b h)). Qed.

Lemma builds_on_prev b prev :
  builds_on b prev ->
  b_prev_checkpoint b = Some (checkpoint_id prev) /\ b_prev_seq b = Some (checkpoint_seq prev) /\
  b_prev_epoch b = Some (cp_epoch prev).
Proof. intros (seq & epoch & created & zone & heads & ->). apply add_heads_prev. Qed.

Lemma linkage_Ok prev c :
  verify_chain_linkage prev c = Ok tt <->
  prev_checkpoint c = Some (checkpoint_id prev) /\ checkpoint_seq prev < checkpoint_seq c /\
  cp_epoch prev <= cp_epoch c.
Proof.
  unfold verify_chain_linkage. rewrite bind_Ok.
  destruct (prev_checkpoint c) as [id|]; [|naive_solver]. case_decide as Hd.
  - subst id. destruct (Z.leb_spec (checkpoint_seq c) (checkpoint_seq prev)),
      (Z.ltb_spec (cp_epoch c) (cp_epoch prev)); (split; [intros ([] & _ & ?)|intros (_ & ? & ?)]);
      try done; try lia; by exists tt.
  - split; [by intros ([] & ? & _)|]. intros ([= ->] & _). done.
Qed.

Lemma signed_entry_verifies pre sk :
  all_zero (verification_key sk) = false ->
  verify_signature (signer (signed_by pre sk)) pre (signature (signed_by pre sk)) = Ok tt.
Proof.
  intros Hz. unfold verify_signature, signed_by. cbn [signer signature]. rewrite Hz, signature_bytes_roundtrip.
  rewrite (proj2 (constant_time_eq_64_correct _ _ (compute_verification_hash_length _ _)
    (compute_verification_hash_length _ _)) eq_refl). done.
Qed.

(** All signatures of a built array are valid. *)
Lemma built_quorum pre keys sigs t authorized :
  Arr.from_unsorted (signed_by pre <$> keys) = Ok sigs ->
  Forall (fun sk => all_zero (verification_key sk) = false) keys ->
  Forall (fun sk => verification_key sk ∈ authorized) keys ->
  0 < t <= zlen keys ->
  is_ok (Arr.verify_quorum sigs t authorized (fun vk sig => verify_signature vk pre sig)) = true.
Proof.
  intros Hs Hz Ha Ht. apply from_unsorted_Ok in Hs as (_ & _ & _ & Hp).
  destruct (verify_quorum_eq authorized (fun vk sig => verify_signature vk pre sig) sigs t)
    as (r & _ & _ & _ & _ & _ & ->). replace (t =? 0) with false by lia.
  rewrite filter_all.
  2: { apply Forall_forall. rewrite Hp. apply Forall_fmap. rewrite Forall_forall in *. intros sk Hin.
    split; [by apply Ha|]. apply signed_entry_verifies. by apply Hz. }
  replace (t <=? zlen sigs) with true; [done|]. symmetry. apply Z.leb_le. unfold zlen in *.
  rewrite Hp, length_fmap. lia.
Qed.

(** Checkpoint building is exact and its results pass every check. With keys whose
    verification keys are usable, the builder succeeds exactly on valid input (genesis at
    sequence 0, a successor above its predecessor and not of an older epoch, at least one
    policy head and no policy type twice) with a non-empty list of non-zero, distinct
    signing keys. A built checkpoint has a quorum for every threshold up to the number of
    keys, its identifier verifies in its zone, and it links to the checkpoint it was built
    on. *)
Theorem checkpoint_build_verifies (b : CheckpointBuilder) (keys : list SigningKey) :
  Forall (fun sk => all_zero (verification_key sk) = false) keys ->
  (is_ok (Builder.build b keys) = true <->
   builder_valid b /\ keys <> [] /\ Forall (fun sk => all_zero sk = false) keys /\
   NoDup (verification_key <$> keys)) /\
  (forall c, Builder.build b keys = Ok c ->
     (forall t authorized, 0 < t <= zlen keys ->
        Forall (fun sk => verification_key sk ∈ authorized) keys ->
        verify_checkpoint_quorum c t authorized = Ok tt) /\
     verify_id (checkpoint_id c) CheckpointArtifact (b_zone b) checkpoint_schema_id
       (encode_value (checkpoint_view c)) = Ok tt /\
     (forall prev, builds_on b prev -> verify_chain_linkage prev c = Ok tt) /\
     (b_prev_checkpoint b = None -> checkpoint_seq c = 0)).
Proof.
  intros Hz. split.
  - split.
    + destruct (Builder.build b keys) as [c|] eqn:H; [intros _|done].
      apply build_Ok in H as (Hv & Hf & id & sigs & _ & Hs & _).
      apply from_unsorted_Ok in Hs as (Hne & Hn & _). split; [done|].
      split; [by intros ->|]. split; [done|]. by rewrite <- list_fmap_compose in Hn.
    + intros (Hv & Hne & Hf & Hn). set (es := signed_by (b_preimage b) <$> keys).
      assert (Hes : Arr.from_unsorted es = Ok (merge_sort entry_key_le es)).
      { apply from_unsorted_succeeds; [by destruct keys|]. unfold es. rewrite <- list_fmap_compose. exact Hn. }
      assert (Hb : exists c, Builder.build b keys = Ok c); [|destruct Hb as [c ->]; done].
      eexists. apply build_Ok. split; [done|]. split; [done|].
      eexists _, _. split; [apply derive_checkpoint_id|]. split; [exact Hes|reflexivity].
  - intros c H. destruct (merge_heads_view _ _ _ H) as [Hview Hpre].
    apply build_Ok in H as ((Hval & _) & _ & id & sigs & Hi & Hs & ->). split; [|split; [|split]].
    + intros t au Ht Ha. unfold verify_checkpoint_quorum. rewrite Hpre. cbn [quorum_signatures].
      pose proof (built_quorum _ _ _ t au Hs Hz Ha Ht) as Hq. by destruct (Arr.verify_quorum _ _ _ _).
    + rewrite Hview. unfold verify_id. cbn [checkpoint_id]. rewrite Hi. cbn [mbind result_bind].
      rewrite derive_checkpoint_id in Hi. injection Hi as <-.
      by rewrite (proj2 (hash_constant_time_eq_correct _ _ (deterministic_hash_wf _) (deterministic_hash_wf _)) eq_refl).
    + intros prev (H1 & H2 & H3)%builds_on_prev. apply linkage_Ok. simpl. rewrite H1 in Hval.
      destruct Hval as [Hv1 Hv2]. split; [done|]. split; [by apply Hv1|by apply Hv2].
    + intros Hn. rewrite Hn in Hval. exact Hval.
Qed.

(** ** What an identifier determines *)

Definition read_head (v : CanonicalValue) : option PolicyHead :=
  h ← get "policy_hash" v ≫= as_bytes;
  t ← get_str "policy_type" v ≫= of_name policy_type_string
        [RuntimeExecution; CapabilityLattice; ExtensionTrust; EvidenceRetention; RevocationGovernance];
  n ← get_u64 "policy_version" v;
  Some (mkHead t h n).

Definition contents : Type := option EngineObjectId * Z * SecurityEpoch * list PolicyHead * Z.

Definition read_view (v : CanonicalValue) : option contents :=
  prev ← get "prev_checkpoint" v ≫= as_option as_bytes;
  seq ← get_u64 "checkpoint_seq" v;
  epoch ← get_u64 "epoch_id" v;
  heads ← get "policy_heads" v ≫= as_list read_head;
  created ← get_u64 "created_at" v;
  Some (prev, seq, epoch, heads, created).

Lemma read_head_value h : read_head (head_value h) = Some h.
Proof. by destruct h as [[] hash n]. Qed.

Lemma read_view_built prev seq epoch heads created :
  read_view (build_unsigned_view prev seq epoch heads created) = Some (prev, seq, epoch, heads, created).
Proof.
  unfold read_view, build_unsigned_view.
  set (pv := match prev with Some id => VBytes id | None => VNull end).
  change (get "prev_checkpoint" _) with (Some pv). change (get "policy_heads" _) with (Some (VArray (head_value <$> heads))).
  cbn [mbind option_bind]. rewrite as_list_canonical by apply read_head_value. by destruct prev.
Qed.

Definition head_wf (h : PolicyHead) : Prop := hash_wf (policy_hash h) /\ is_u64 (policy_version h).

(** The fields fit their machine types. *)
Record fits (prev : option EngineObjectId) (seq : Z) (epoch : SecurityEpoch) (heads : list PolicyHead)
    (created : Z) : Prop := {
  f_prev : opt_all hash_wf prev;
  f_seq : is_u64 seq;
  f_epoch : is_u64 epoch;
  f_heads : zlen heads <= u32_max /\ Forall head_wf heads;
  f_created : is_u64 created;
  f_len : zlen (encode_value (build_unsigned_view prev seq epoch heads created)) <= usize_max }.

Lemma head_value_ok h : head_wf h -> val_ok 2 (head_value h).
Proof.
  intros [? ?]. unfold head_value. map_ok. destruct (policy_type h); cbn [policy_type_string]; auto with val_ok.
Qed.

Lemma view_val_ok prev seq epoch heads created :
  fits prev seq epoch heads created -> val_ok 4 (build_unsigned_view prev seq epoch heads created).
Proof.
  intros [Hp ? ? [Hh1 Hh2] ? _]. unfold build_unsigned_view. map_ok.
  - by eapply array_ok; [exact head_value_ok|..].
  - destruct prev; auto with val_ok.
  - apply bytes_ok_val. vm_compute. congruence.
Qed.

Lemma view_inj p1 s1 e1 h1 c1 p2 s2 e2 h2 c2 :
  fits p1 s1 e1 h1 c1 -> fits p2 s2 e2 h2 c2 ->
  encode_value (build_unsigned_view p1 s1 e1 h1 c1) = encode_value (build_unsigned_view p2 s2 e2 h2 c2) ->
  (p1, s1, e1, h1, c1) = (p2, s2, e2, h2, c2).
Proof.
  intros F1 F2 He. apply (encode_injective 4) in He;
    [|by apply view_val_ok..|unfold depth_levels; lia|apply F1].
  pose proof (read_view_built p1 s1 e1 h1 c1) as Hr. rewrite He, read_view_built in Hr. by injection Hr as -> -> -> -> ->.
Qed.

Definition contents_of (c : PolicyCheckpoint) : contents :=
  (prev_checkpoint c, checkpoint_seq c, cp_epoch c, policy_heads c, created_at c).

Definition checkpoint_fits (c : PolicyCheckpoint) : Prop :=
  fits (prev_checkpoint c) (checkpoint_seq c) (cp_epoch c) (policy_heads c) (created_at c).

Definition id_input (zone : string) (c : PolicyCheckpoint) : list byte :=
  build_id_preimage CheckpointArtifact zone checkpoint_schema_id (encode_value (checkpoint_view c)).

Lemma schema_id_wf : hash_wf checkpoint_schema_id.
Proof. apply deterministic_hash_wf. Qed.

(** A link to a built checkpoint names one zone and one set of contents: two
    built checkpoints with the same identifier agree on both, or the
    identifier hash collides on their inputs. *)
Theorem checkpoint_id_determines (b1 b2 : CheckpointBuilder) (k1 k2 : list SigningKey)
    (c1 c2 : PolicyCheckpoint) :
  Builder.build b1 k1 = Ok c1 -> Builder.build b2 k2 = Ok c2 ->
  checkpoint_fits c1 -> checkpoint_fits c2 -> str_short (b_zone b1) -> str_short (b_zone b2) ->
  checkpoint_id c1 = checkpoint_id c2 ->
  (b_zone b1 = b_zone b2 /\ contents_of c1 = contents_of c2) \/
  id_collision (id_input (b_zone b1) c1) (id_input (b_zone b2) c2).
Proof.
  intros H1 H2 F1 F2 Z1 Z2 He. destruct (merge_heads_view _ _ _ H1) as [V1 _].
  destruct (merge_heads_view _ _ _ H2) as [V2 _].
  apply build_Ok in H1 as (_ & _ & i1 & s1 & I1 & _ & E1). apply build_Ok in H2 as (_ & _ & i2 & s2 & I2 & _ & E2).
  rewrite derive_checkpoint_id in I1, I2. injection I1 as I1. injection I2 as I2.
  assert (Hi : deterministic_hash (id_input (b_zone b1) c1) = deterministic_hash (id_input (b_zone b2) c2)).
  { unfold id_input. rewrite V1, V2, I1, I2. subst. exact He. }
  destruct (decide (id_input (b_zone b1) c1 = id_input (b_zone b2) c2)) as [Hp|Hp];
    [left|right; split; [exact Hp|exact Hi]].
  unfold id_input in Hp.
  destruct (id_preimage_inj _ _ _ _ _ _ _ _ Z1 Z2 schema_id_wf schema_id_wf Hp) as (_ & Hz & _ & Hv).
  split; [exact Hz|]. exact (view_inj _ _ _ _ _ _ _ _ _ _ F1 F2 Hv).
Qed.

(** The signatures of a checkpoint bind its contents: a signature valid for two
    checkpoints is over the same contents, or the inner hash collides. *)
Theorem checkpoint_signature_binds (c1 c2 : PolicyCheckpoint) (vk : VerificationKey) (s : Signature) :
  checkpoint_fits c1 -> checkpoint_fits c2 -> signature_wf s ->
  verify_signature vk (preimage_bytes c1) s = Ok tt ->
  verify_signature vk (preimage_bytes c2) s = Ok tt ->
  contents_of c1 = contents_of c2 \/
  (inner_input vk (preimage_bytes c1) <> inner_input vk (preimage_bytes c2) /\
   ContentHash_compute (inner_input vk (preimage_bytes c1)) =
   ContentHash_compute (inner_input vk (preimage_bytes c2))).
Proof.
  intros F1 F2 Hs H1 H2. apply verify_signature_iff in H1 as [_ H1]; [|done].
  apply verify_signature_iff in H2 as [_ H2]; [|done]. rewrite H1 in H2. unfold compute_verification_hash in H2.
  apply app_inj_1 in H2 as [Hin _]; [|by rewrite !ContentHash_wf].
  destruct (decide (preimage_bytes c1 = preimage_bytes c2)) as [He|Hne].
  - left. unfold preimage_bytes in He. apply app_inv_head, app_inv_head in He.
    exact (view_inj _ _ _ _ _ _ _ _ _ _ F1 F2 He).
  - right. split; [|exact Hin]. intros He. apply Hne. exact (app_inv_head _ _ _ He).
Qed.

(** ** Examples *)

#[local] Transparent encode_value deterministic_hash ContentHash_compute.

Definition sample_head : PolicyHead := mkHead RuntimeExecution (replicate 32 x01) 1.
Definition sk_n (b : byte) : SigningKey := replicate 32 b.
Definition genesis_builder (zone : string) : CheckpointBuilder :=
  Builder.add_policy_head (Builder.genesis 1 100 zone) sample_head.

(** The checkpoint that a builder yields, for examples. *)
Definition built (b : CheckpointBuilder) (keys : list SigningKey) : PolicyCheckpoint :=
  match Builder.build b keys with
  | Ok c => c
  | Err _ => mkCheckpoint [] None 0 0 [] [] 0
  end.

Definition sample_checkpoint (zone : string) : PolicyCheckpoint := built (genesis_builder zone) [sk_n x01; sk_n x02].

Lemma sample_built zone :
  zone = "za" \/ zone = "zb" ->
  Builder.build (genesis_builder zone) [sk_n x01; sk_n x02] = Ok (sample_checkpoint zone).
Proof. intros [->| ->]; vm_compute; reflexivity. Qed.

Lemma sample_fits zone : zone = "za" \/ zone = "zb" -> checkpoint_fits (sample_checkpoint zone).
Proof.
  intros H. assert (Hc : contents_of (sample_checkpoint zone) = (None, 0, 1, [sample_head], 100))
    by (destruct H as [->| ->]; vm_compute; reflexivity).
  unfold checkpoint_fits. set (c := sample_checkpoint zone) in *. clearbody c.
  unfold contents_of in Hc. injection Hc as -> -> -> -> ->.
  split; [exact I|by split..|split; [vm_compute; discriminate|]|by split|vm_compute; discriminate].
  apply Forall_singleton. split; [reflexivity|by split].
Qed.

Lemma checkpoint_build_verifies_witness :
  verify_checkpoint_quorum (sample_checkpoint "za") 2 [verification_key (sk_n x01); verification_key (sk_n x02)] = Ok tt.
Proof.
  assert (Hz : Forall (fun sk => all_zero (verification_key sk) = false) [sk_n x01; sk_n x02])
    by (repeat constructor; vm_compute; reflexivity).
  destruct (checkpoint_build_verifies (genesis_builder "za") [sk_n x01; sk_n x02] Hz) as [_ H].
  destruct (H _ (sample_built "za" ltac:(by left))) as [Hq _].
  refine (Hq 2 _ _ _); [split; [lia|vm_compute; discriminate]|].
  constructor; [left|]. constructor; [right; left|constructor].
Defined.

Lemma samples_do_not_collide :
  ~ id_collision (id_input "za" (sample_checkpoint "za")) (id_input "zb" (sample_checkpoint "zb")).
Proof. intros [_ H]. revert H. apply (bool_decide_unpack _). vm_compute. exact I. Qed.

(** The same contents have different identifiers in different zones. *)
Lemma checkpoint_id_determines_witness :
  checkpoint_id (sample_checkpoint "za") <> checkpoint_id (sample_checkpoint "zb").
Proof.
  intros He.
  destruct (checkpoint_id_determines _ _ _ _ _ _ (sample_built "za" ltac:(by left)) (sample_built "zb" ltac:(by right))
    (sample_fits "za" ltac:(by left)) (sample_fits "zb" ltac:(by right))) as [[Hz _]|Hc];
    [vm_compute; discriminate..|exact He|discriminate Hz|exact (samples_do_not_collide Hc)].
Defined.
