(* ===== verification/CheckpointFrontier.v ===== *)
(** * The checkpoint frontier (crates/franken-engine/src/checkpoint_frontier.rs)

    Per zone, the highest accepted checkpoint, kept in memory and in a
    persistence backend.  The trait [PersistenceBackend] is a class; what its
    documentation demands of an implementation (an update is atomic, a loaded
    state is the persisted one) is the class [BackendLaws], against which the
    theorems are proved, and [InMemoryBackend] is an instance.  The theorems
    say that the frontier is a ratchet: over any sequence of calls and
    restarts the checkpoints accepted in a zone have increasing sequence
    numbers and epochs that do not regress, and each carried a quorum. *)
From stdpp Require Import base numbers list strings gmap sorting.
From Stdlib Require Import Strings.Byte.
From S2P Require Import Prelude Bytes Text HashTiers DetSerde SignaturePreimage.
From S2P Require Import SecurityEpoch EngineObjectId SortedMultisig PolicyCheckpoint.
Open Scope string_scope.
Open Scope list_scope.
Open Scope Z_scope.

Inductive FrontierError :=
  | RollbackRejected (zone : string) (frontier_seq attempted_seq : Z)
  | DuplicateCheckpoint (zone : string) (checkpoint_seq : Z)
  | ChainLinkageFailure (zone detail : string)
  | QuorumFailure (zone detail : string)
  | UnknownZone (zone : string)
  | FrontierEpochRegression (zone : string) (frontier_epoch attempted_epoch : SecurityEpoch)
  | PersistenceFailed (zone detail : string).

Record FrontierEntry := mkFEntry {
  fe_seq : Z; fe_id : EngineObjectId; fe_epoch : SecurityEpoch }.

Record FrontierState := mkFState {
  zone : string;
  frontier_seq : Z;
  frontier_checkpoint_id : EngineObjectId;
  frontier_epoch : SecurityEpoch;
  accept_count : Z;
  recent_ids : list FrontierEntry }.

Definition MAX_RECENT_ENTRIES : nat := 32.

Definition entry_of (c : PolicyCheckpoint) : FrontierEntry :=
  mkFEntry (checkpoint_seq c) (checkpoint_id c) (cp_epoch c).

Definition from_genesis (zone : string) (c : PolicyCheckpoint) : FrontierState :=
  mkFState zone (checkpoint_seq c) (checkpoint_id c) (cp_epoch c) 1 [entry_of c].

(** [advance], with [drain(..excess)] when the window is full. *)
Definition advance (s : FrontierState) (c : PolicyCheckpoint) : FrontierState :=
  let recent := recent_ids s ++ [entry_of c] in
  let recent := if decide (MAX_RECENT_ENTRIES < length recent)%nat
                then drop (length recent - MAX_RECENT_ENTRIES) recent else recent in
  mkFState (zone s) (checkpoint_seq c) (checkpoint_id c) (cp_epoch c)
    (sat_add64 (accept_count s) 1) recent.

Inductive FrontierEventType :=
  | ZoneInitialized (zone : string) (genesis_seq : Z)
  | CheckpointAccepted (zone : string) (prev_seq new_seq : Z)
  | EvRollbackRejected (zone : string) (frontier_seq attempted_seq : Z)
  | DuplicateRejected (zone : string) (checkpoint_seq : Z)
  | EpochRegressionRejected (zone : string) (frontier_epoch attempted_epoch : SecurityEpoch)
  | FrontierLoaded (zone : string) (frontier_seq : Z).

Record FrontierEvent := mkFEvent { fr_type : FrontierEventType; fr_trace : string }.

(** ** Persistence *)

Class PersistenceBackend (B : Type) := {
  persist : B -> FrontierState -> B * result string unit;
  load : B -> string -> result string (option FrontierState);
  load_all : B -> result string (list FrontierState) }.

(** The documented contract, on the map from zones to states that the backend
    holds: an update takes place as a whole or not at all, and loading returns
    what was persisted. *)
Class BackendLaws (B : Type) `{!PersistenceBackend B} := {
  stored : B -> gmap string FrontierState;
  persist_ok b s b' : persist b s = (b', Ok tt) -> stored b' = <[zone s := s]> (stored b);
  persist_err b s b' e : persist b s = (b', Err e) -> stored b' = stored b;
  load_ok b z o : load b z = Ok o -> o = stored b !! z;
  load_all_ok b l : load_all b = Ok l -> l ≡ₚ (map_to_list (stored b)).*2 }.

Record InMemoryBackend := mkMem {
  mem_zones : gmap string FrontierState; fail_on_persist : bool; persist_count : Z }.

Definition mem_new : InMemoryBackend := mkMem ∅ false 0.

Definition mem_persist (b : InMemoryBackend) (s : FrontierState) :
    InMemoryBackend * result string unit :=
  if fail_on_persist b then (b, Err "simulated persistence failure")
  else (mkMem (<[zone s := s]> (mem_zones b)) (fail_on_persist b) (wrap_u64 (persist_count b + 1)), Ok tt).

Definition mem_load (b : InMemoryBackend) (z : string) : result string (option FrontierState) :=
  Ok (mem_zones b !! z).

Definition mem_load_all (b : InMemoryBackend) : result string (list FrontierState) :=
  Ok (sorted_values (mem_zones b)).

#[export] Instance mem_backend : PersistenceBackend InMemoryBackend := {
  persist := mem_persist; load := mem_load; load_all := mem_load_all }.

(** ** The manager *)

Section manager.
Context `{!PersistenceBackend B}.

Record CheckpointFrontierManager := mkManager {
  zones : gmap string FrontierState; backend : B; fr_events : list FrontierEvent }.

Definition manager_new (b : B) : CheckpointFrontierManager := mkManager ∅ b [].

Definition emit (m : CheckpointFrontierManager) (t : FrontierEventType) (trace : string) :
    CheckpointFrontierManager :=
  mkManager (zones m) (backend m) (fr_events m ++ [mkFEvent t trace]).

(** One turn of the loop of [recover]. *)
Definition load_state (trace : string) (m : CheckpointFrontierManager) (s : FrontierState) :
    CheckpointFrontierManager :=
  let m := emit m (FrontierLoaded (zone s) (frontier_seq s)) trace in
  mkManager (<[zone s := s]> (zones m)) (backend m) (fr_events m).

Definition recover (m : CheckpointFrontierManager) (trace : string) :
    CheckpointFrontierManager * result FrontierError Z :=
  match load_all (backend m) with
  | Err e => (m, Err (PersistenceFailed "(all)" e))
  | Ok states => (fold_left (load_state trace) states m, Ok (zlen states))
  end.

Definition get_frontier (m : CheckpointFrontierManager) (z : string) : option FrontierState :=
  zones m !! z.

Definition zone_names (m : CheckpointFrontierManager) : list string := sorted_keys (zones m).

(** Persist [s], then store it and record [ev]. *)
Definition commit (m : CheckpointFrontierManager) (z : string) (s : FrontierState)
    (ev : FrontierEventType) (trace : string) : CheckpointFrontierManager * result FrontierError unit :=
  match persist (backend m) s with
  | (b, Err e) => (mkManager (zones m) b (fr_events m), Err (PersistenceFailed z e))
  | (b, Ok _) => (emit (mkManager (<[z := s]> (zones m)) b (fr_events m)) ev trace, Ok tt)
  end.

Definition accept_genesis (m : CheckpointFrontierManager) (z : string) (c : PolicyCheckpoint)
    (quorum_threshold : Z) (authorized : list VerificationKey) (trace : string) :
    CheckpointFrontierManager * result FrontierError unit :=
  match verify_checkpoint_quorum c quorum_threshold authorized with
  | Err e => (m, Err (QuorumFailure z (checkpoint_error_string e)))
  | Ok _ => commit m z (from_genesis z c) (ZoneInitialized z (checkpoint_seq c)) trace
  end.

Definition accept_checkpoint (m : CheckpointFrontierManager) (z : string) (c : PolicyCheckpoint)
    (quorum_threshold : Z) (authorized : list VerificationKey) (trace : string) :
    CheckpointFrontierManager * result FrontierError unit :=
  match zones m !! z with
  | None => accept_genesis m z c quorum_threshold authorized trace
  | Some frontier =>
      if checkpoint_seq c <=? frontier_seq frontier then
        if checkpoint_seq c =? frontier_seq frontier then
          (emit m (DuplicateRejected z (checkpoint_seq c)) trace,
           Err (DuplicateCheckpoint z (checkpoint_seq c)))
        else
          (emit m (EvRollbackRejected z (frontier_seq frontier) (checkpoint_seq c)) trace,
           Err (RollbackRejected z (frontier_seq frontier) (checkpoint_seq c)))
      else if cp_epoch c <? frontier_epoch frontier then
        (emit m (EpochRegressionRejected z (frontier_epoch frontier) (cp_epoch c)) trace,
         Err (FrontierEpochRegression z (frontier_epoch frontier) (cp_epoch c)))
      else
        match verify_checkpoint_quorum c quorum_threshold authorized with
        | Err e => (m, Err (QuorumFailure z (checkpoint_error_string e)))
        | Ok _ =>
            commit m z (advance frontier c)
              (CheckpointAccepted z (frontier_seq frontier) (checkpoint_seq c)) trace
        end
  end.

Definition verify_linkage_against_frontier (m : CheckpointFrontierManager) (z : string)
    (prev new_checkpoint : PolicyCheckpoint) : result FrontierError unit :=
  frontier ← ok_or (UnknownZone z) (zones m !! z);
  if decide (checkpoint_id prev = frontier_checkpoint_id frontier) then
    map_err (fun e => ChainLinkageFailure z (checkpoint_error_string e))
      (verify_chain_linkage prev new_checkpoint)
  else
    Err (ChainLinkageFailure z ("prev checkpoint " +:+ id_to_hex (checkpoint_id prev) +:+
      " does not match frontier " +:+ id_to_hex (frontier_checkpoint_id frontier))).

Definition drain_events (m : CheckpointFrontierManager) :
    CheckpointFrontierManager * list FrontierEvent :=
  (mkManager (zones m) (backend m) [], fr_events m).

Definition event_key (e : FrontierEvent) : string :=
  match fr_type e with
  | ZoneInitialized _ _ => "zone_initialized"
  | CheckpointAccepted _ _ _ => "checkpoint_accepted"
  | EvRollbackRejected _ _ _ => "rollback_rejected"
  | DuplicateRejected _ _ => "duplicate_rejected"
  | EpochRegressionRejected _ _ _ => "epoch_regression_rejected"
  | FrontierLoaded _ _ => "frontier_loaded"
  end.

Definition event_counts (m : CheckpointFrontierManager) : gmap string Z :=
  fold_left (fun counts e => <[event_key e := default 0 (counts !! event_key e) + 1]> counts)
    (fr_events m) ∅.
End manager.
Arguments CheckpointFrontierManager B : clear implicits.

#[export] Instance mem_laws : BackendLaws InMemoryBackend.
Proof.
  refine {| stored := mem_zones |}.
  - intros [zs f n] s b'. simpl. unfold mem_persist. simpl. destruct f; [done|]. by intros [= <-].
  - intros [zs f n] s b' e. simpl. unfold mem_persist. simpl. destruct f; [|done]. by intros [= <- _].
  - intros b z o. simpl. unfold mem_load. by intros [= <-].
  - intros b l. simpl. unfold mem_load_all, sorted_values. intros [= <-]. by rewrite sorted_entries_perm.
Defined.

(** ** What the frontier is of the accepted checkpoints *)

Record Accepted := mkAccepted {
  a_zone : string; a_checkpoint : PolicyCheckpoint; a_threshold : Z; a_signers : list VerificationKey }.

(** The checkpoints accepted in a zone, in order. *)
Definition accepted_in (z : string) (log : list Accepted) : list PolicyCheckpoint :=
  a_checkpoint <$> filter (fun a => a_zone a = z) log.

(** The last entries of a list, at most [n]. *)
Definition window {A} (n : nat) (l : list A) : list A := drop (length l - n) l.

(** The specification: the frontier is a function of the accepted checkpoints. *)
Definition frontier_of (z : string) (cs : list PolicyCheckpoint) : option FrontierState :=
  match last cs with
  | None => None
  | Some c =>
      Some (mkFState z (checkpoint_seq c) (checkpoint_id c) (cp_epoch c)
              (Z.min (zlen cs) u64_max) (window MAX_RECENT_ENTRIES (entry_of <$> cs)))
  end.

Definition follows (c d : PolicyCheckpoint) : Prop :=
  checkpoint_seq c < checkpoint_seq d /\ cp_epoch c <= cp_epoch d.

Lemma window_app {A} n (l : list A) x :
  (0 < n)%nat -> window n (window n l ++ [x]) = window n (l ++ [x]).
Proof.
  intros Hn. unfold window. rewrite !length_app, length_drop. cbn [length].
  destruct (decide (length l <= n)%nat) as [Hle|Hgt].
  - replace (length l - n)%nat with 0%nat by lia. cbn [drop]. f_equal. lia.
  - rewrite !drop_app_le by (rewrite ?length_drop; lia). rewrite drop_drop. f_equal. f_equal. lia.
Qed.

Lemma window_id {A} n (l : list A) : (length l <= n)%nat -> window n l = l.
Proof. intros H. unfold window. by replace (length l - n)%nat with 0%nat by lia. Qed.

Lemma advance_eq s c :
  advance s c =
    mkFState (zone s) (checkpoint_seq c) (checkpoint_id c) (cp_epoch c) (sat_add64 (accept_count s) 1)
      (window MAX_RECENT_ENTRIES (recent_ids s ++ [entry_of c])).
Proof.
  unfold advance. case_decide as Hd; [done|]. rewrite window_id; [done|lia].
Qed.

Lemma frontier_of_snoc z cs c :
  frontier_of z (cs ++ [c]) =
    Some match frontier_of z cs with None => from_genesis z c | Some s => advance s c end.
Proof.
  unfold frontier_of at 1. rewrite last_snoc. unfold frontier_of.
  destruct (last cs) as [d|] eqn:Hl.
  - rewrite advance_eq. cbn [zone recent_ids accept_count].
    rewrite window_app by (unfold MAX_RECENT_ENTRIES; lia). rewrite fmap_app. do 2 f_equal.
    unfold zlen. rewrite length_app. cbn [length]. unfold sat_add64. mlia.
  - apply last_None in Hl as ->. reflexivity.
Qed.

Section ratchet.
Context `{!PersistenceBackend B, !BackendLaws B}.
Implicit Types m : CheckpointFrontierManager B.

(** Sequences of calls, failed ones included, and restarts: a new manager over
    the same backend, after [recover].  The log holds the accepted checkpoints. *)
Inductive run : CheckpointFrontierManager B -> list Accepted -> Prop :=
  | run_new b : stored b = ∅ -> run (manager_new b) []
  | run_accept m log z c t au trace m' :
      run m log -> accept_checkpoint m z c t au trace = (m', Ok tt) ->
      run m' (log ++ [mkAccepted z c t au])
  | run_reject m log z c t au trace m' e :
      run m log -> accept_checkpoint m z c t au trace = (m', Err e) -> run m' log
  | run_drain m log : run m log -> run (drain_events m).1 log
  | run_restart m log trace m' n :
      run m log -> recover (manager_new (backend m)) trace = (m', Ok n) -> run m' log.

Definition mirrors m : Prop :=
  zones m = stored (backend m) /\ forall z s, zones m !! z = Some s -> zone s = z.

Lemma commit_cases m z s ev trace m' r :
  mirrors m -> zone s = z -> commit m z s ev trace = (m', r) ->
  mirrors m' /\
  match r with Ok _ => zones m' = <[z := s]> (zones m) | Err _ => zones m' = zones m end.
Proof.
  intros [Hm Hz] Hs H. unfold commit in H. destruct (persist (backend m) s) as [b [[]|e]] eqn:Hp.
  - apply persist_ok in Hp. injection H as <- <-. unfold mirrors. cbn. rewrite Hp, Hs, Hm.
    split; [|done]. split; [done|]. intros z' s' [[<- <-]|[_ Hl]]%lookup_insert_Some; [done|].
    apply Hz. by rewrite Hm.
  - apply persist_err in Hp. injection H as <- <-. unfold mirrors. cbn. rewrite Hp. done.
Qed.

(** Every outcome of [accept_checkpoint]: on success the frontier was behind
    and the quorum holds; on failure no zone changes. *)
Lemma accept_cases m z c t au trace m' r :
  mirrors m -> accept_checkpoint m z c t au trace = (m', r) ->
  mirrors m' /\
  match r with
  | Ok _ =>
      verify_checkpoint_quorum c t au = Ok tt /\
      match zones m !! z with
      | None => zones m' = <[z := from_genesis z c]> (zones m)
      | Some s => frontier_seq s < checkpoint_seq c /\ frontier_epoch s <= cp_epoch c /\
                  zones m' = <[z := advance s c]> (zones m)
      end
  | Err _ => zones m' = zones m
  end.
Proof.
  intros Hm H. unfold accept_checkpoint in H. destruct (zones m !! z) as [s|] eqn:Hs.
  - destruct (Z.leb_spec (checkpoint_seq c) (frontier_seq s)) as [Hle|Hgt].
    { destruct (_ =? _); injection H as <- <-; done. }
    destruct (Z.ltb_spec (cp_epoch c) (frontier_epoch s)) as [He|He]; [by injection H as <- <-|].
    destruct (verify_checkpoint_quorum c t au) as [[]|e] eqn:Hq; [|by injection H as <- <-].
    apply commit_cases in H as [Hm' Hz]; [|done|exact (proj2 Hm z s Hs)]. split; [done|]. by destruct r as [[]|].
  - unfold accept_genesis in H.
    destruct (verify_checkpoint_quorum c t au) as [[]|e] eqn:Hq; [|by injection H as <- <-].
    apply commit_cases in H as [Hm' Hz]; [|done|done]. split; [done|]. by destruct r as [[]|].
Qed.

(** The states loaded by [recover], by zone. *)
Lemma recover_fold l m0 trace m' :
  m' = fold_left (load_state trace) l m0 ->
  backend m' = backend m0 /\
  forall z, (exists s, s ∈ l /\ zone s = z /\ zones m' !! z = Some s) \/
            ((forall s, s ∈ l -> zone s <> z) /\ zones m' !! z = zones m0 !! z).
Proof.
  revert m0. induction l as [|s l IH]; intros m0 Hm; cbn [fold_left] in Hm.
  { subst. split; [done|]. intros z. right. split; [set_solver|done]. }
  destruct (IH _ Hm) as [Hb Hz]. split; [done|]. intros z.
  destruct (Hz z) as [(s' & Hin & H1 & H2)|[Hno H2]].
  - left. exists s'. split; [by right|]. done.
  - rewrite H2. cbn [zones load_state emit]. destruct (decide (zone s = z)) as [<-|Hne].
    + left. exists s. split; [left|]. split; [done|]. apply lookup_insert_eq.
    + right. rewrite lookup_insert_ne by done. split; [|done].
      intros s' [->|Hin]%elem_of_cons; [done|by apply Hno].
Qed.

Lemma recover_mirrors b trace m' n :
  (forall z s, stored b !! z = Some s -> zone s = z) ->
  recover (manager_new b) trace = (m', Ok n) -> mirrors m' /\ backend m' = b.
Proof.
  intros Hz H. unfold recover in H. destruct (load_all _) as [l|] eqn:Hl; [|done].
  apply load_all_ok in Hl. cbn [backend manager_new] in Hl. injection H as H _.
  symmetry in H. apply recover_fold in H as [Hb Hf]. cbn [backend zones manager_new] in *.
  assert (Hin : forall s, s ∈ l <-> stored b !! zone s = Some s).
  { intros s. rewrite Hl, list_elem_of_fmap. split.
    - intros ([z s'] & -> & Hs%elem_of_map_to_list). cbn. by rewrite (Hz _ _ Hs).
    - intros Hs. exists (zone s, s). split; [done|]. by apply elem_of_map_to_list. }
  assert (Heq : zones m' = stored b).
  { apply map_eq. intros z. destruct (Hf z) as [(s & Hs & <- & ->)|[Hno ->]].
    - apply Hin in Hs. by rewrite Hs.
    - rewrite lookup_empty. destruct (stored b !! z) as [s|] eqn:Hs; [|done].
      exfalso. eapply (Hno s); [|by apply Hz]. apply Hin. by rewrite (Hz _ _ Hs). }
  split; [|done]. split; [by rewrite Hb|]. intros z s Hs. apply Hz. by rewrite <- Heq.
Qed.

Lemma accepted_in_snoc z log a :
  accepted_in z (log ++ [a]) =
    if decide (a_zone a = z) then accepted_in z log ++ [a_checkpoint a] else accepted_in z log.
Proof.
  unfold accepted_in. rewrite filter_app, fmap_app, filter_cons, filter_nil.
  case_decide; cbn; [done|]. by rewrite app_nil_r.
Qed.

Lemma follows_snoc cs c :
  StronglySorted follows cs -> (forall d, last cs = Some d -> follows d c) ->
  StronglySorted follows (cs ++ [c]).
Proof.
  intros Hs Hl. apply StronglySorted_app. split; [|split; [done|repeat constructor]].
  intros a b Ha ->%list_elem_of_singleton.
  destruct (last cs) as [d|] eqn:Hd; [|apply last_None in Hd as ->; set_solver].
  specialize (Hl d eq_refl). apply last_Some in Hd as [l ->]. apply elem_of_app in Ha as [Ha| ->%list_elem_of_singleton]; [|done].
  apply StronglySorted_app in Hs as (Hs & _ & _).
  destruct (Hs a d Ha ltac:(left)) as [? ?]. destruct Hl. split; lia.
Qed.

Definition quorum_ok (a : Accepted) : Prop :=
  verify_checkpoint_quorum (a_checkpoint a) (a_threshold a) (a_signers a) = Ok tt.

Record run_inv m (log : list Accepted) : Prop := {
  ri_mirrors : mirrors m;
  ri_frontier z : zones m !! z = frontier_of z (accepted_in z log);
  ri_sorted z : StronglySorted follows (accepted_in z log);
  ri_quorum : Forall quorum_ok log }.

Lemma run_inv_accept m log z c t au trace m' :
  run_inv m log -> accept_checkpoint m z c t au trace = (m', Ok tt) ->
  run_inv m' (log ++ [mkAccepted z c t au]).
Proof.
  intros [Hm Hf Hs Hq] H. apply accept_cases in H as (Hm' & Hok & Hz); [|done].
  assert (Hz' : zones m' !! z = frontier_of z (accepted_in z log ++ [c]) /\
    (forall z', z' <> z -> zones m' !! z' = zones m !! z') /\
    (forall d, last (accepted_in z log) = Some d -> follows d c)).
  { rewrite frontier_of_snoc, <- Hf. destruct (zones m !! z) as [s|] eqn:Hs'.
    - destruct Hz as (H1 & H2 & ->). split; [by rewrite lookup_insert_eq|].
      split; [intros z' Hne; by rewrite lookup_insert_ne|]. intros d Hd. rewrite Hf in Hs'. unfold frontier_of in Hs'.
      rewrite Hd in Hs'. injection Hs' as <-. done.
    - rewrite Hz. split; [by rewrite lookup_insert_eq|].
      split; [intros z' Hne; by rewrite lookup_insert_ne|]. intros d Hd. rewrite Hf in Hs'. unfold frontier_of in Hs'.
      by rewrite Hd in Hs'. }
  destruct Hz' as (H1 & H2 & H3). split; [done| | |by apply Forall_app; split; [|apply Forall_singleton]].
  - intros z'. rewrite accepted_in_snoc. cbn [a_zone a_checkpoint]. case_decide as Hd; [by subst|].
    rewrite H2 by done. apply Hf.
  - intros z'. rewrite accepted_in_snoc. cbn [a_zone a_checkpoint]. case_decide as Hd; [|apply Hs].
    subst. by apply follows_snoc.
Qed.

Lemma run_invariant m log : run m log -> run_inv m log.
Proof.
  induction 1 as [b Hb|m log z c t au trace m' Hr IH H|m log z c t au trace m' e Hr IH H|m log Hr IH
    |m log trace m' n Hr IH H].
  - split; [split; [by symmetry|done]|done|constructor|constructor].
  - by eapply run_inv_accept.
  - destruct IH as [Hm Hf Hs Hq]. apply accept_cases in H as [Hm' Hz]; [|done].
    split; [done| |done|done]. intros z'. by rewrite Hz.
  - destruct IH as [Hm Hf Hs Hq]. by split.
  - destruct IH as [[Hm Hzone] Hf Hs Hq]. apply recover_mirrors in H as [Hm' Hb];
      [|intros z s; rewrite <- Hm; apply Hzone].
    split; [done| |done|done]. intros z. by rewrite (proj1 Hm'), Hb, <- Hm.
Qed.

(** C17. The checkpoint frontier is a ratchet that survives restarts. Over any persistence
    backend that keeps the documented contract (an update is atomic, loading returns what
    was persisted), and for every sequence of accepted and refused checkpoints, drained
    events and restarts with recovery: the frontier of a zone is the specified function of
    the checkpoints accepted there (sequence, identifier and epoch of the last, saturating
    count, the last 32 entries), these have strictly increasing sequence numbers and
    epochs that never regress, each carried a quorum, memory mirrors the store, and no
    checkpoint at or below an accepted sequence number, or of an older epoch, is accepted
    again. *)
Theorem frontier_ratchet (m : CheckpointFrontierManager B) (log : list Accepted) :
  run m log ->
  (forall z, get_frontier m z = frontier_of z (accepted_in z log)) /\
  (forall z, StronglySorted follows (accepted_in z log)) /\
  Forall quorum_ok log /\
  zones m = stored (backend m) /\
  (forall z c t au trace m' d,
     d ∈ accepted_in z log -> checkpoint_seq c <= checkpoint_seq d \/ cp_epoch c < cp_epoch d ->
     accept_checkpoint m z c t au trace <> (m', Ok tt)).
Proof.
  intros H. pose proof (run_invariant m log H) as [Hm Hf Hs Hq].
  split; [exact Hf|]. split; [exact Hs|]. split; [exact Hq|]. split; [apply Hm|].
  intros z c t au trace m' d Hd Hle Ha.
  pose proof (run_inv_accept _ _ _ _ _ _ _ _ (run_invariant m log H) Ha) as [_ _ Hs' _].
  specialize (Hs' z). rewrite accepted_in_snoc, decide_True in Hs' by done.
  apply StronglySorted_app in Hs' as (Hlt & _ & _). destruct (Hlt d c Hd ltac:(left)). lia.
Qed.
End ratchet.

(** ** Examples *)

(** Genesis and one successor on a fresh in-memory backend, then a restart;
    evaluated once, so that the examples below start from values. *)
Definition keys2 : list SigningKey := [sk_n x01; sk_n x02].
Definition signers2 : list VerificationKey := Eval vm_compute in verification_key <$> keys2.
Definition cp0 : PolicyCheckpoint := Eval vm_compute in sample_checkpoint "za".
Definition cp1 : PolicyCheckpoint :=
  Eval vm_compute in built (Builder.add_policy_head (Builder.after cp0 5 1 200 "za") sample_head) keys2.
Definition m0 : CheckpointFrontierManager InMemoryBackend := manager_new mem_new.
Definition m1 := Eval vm_compute in (accept_checkpoint m0 "za" cp0 2 signers2 "t").1.
Definition m2 := Eval vm_compute in (accept_checkpoint m1 "za" cp1 2 signers2 "t").1.
Definition m3 := Eval vm_compute in (recover (manager_new (backend m2)) "t").1.

Lemma sample_run : run m3 [mkAccepted "za" cp0 2 signers2; mkAccepted "za" cp1 2 signers2].
Proof.
  eapply (run_restart m2 _ "t" m3 1); [|vm_compute; reflexivity].
  apply (run_accept m1 [mkAccepted "za" cp0 2 signers2] "za" cp1 2 signers2 "t"); [|vm_compute; reflexivity].
  apply (run_accept m0 [] "za" cp0 2 signers2 "t"); [|vm_compute; reflexivity].
  by apply run_new.
Qed.

(** After the restart the first checkpoint is refused although its signatures
    are valid. *)
Lemma frontier_ratchet_witness :
  verify_checkpoint_quorum cp0 2 signers2 = Ok tt /\
  forall m', accept_checkpoint m3 "za" cp0 2 signers2 "t" <> (m', Ok tt).
Proof.
  split; [vm_compute; reflexivity|]. intros m'.
  destruct (frontier_ratchet m3 _ sample_run) as (_ & _ & _ & _ & H).
  apply (H "za" cp0 2 signers2 "t" m' cp1); [right; left|left; vm_compute; discriminate].
Defined.

(** The frontier does not ask for linkage: a second genesis-like checkpoint
    that does not name its predecessor advances it, as [verify_chain_linkage]
    would have refused. *)
Definition stray : PolicyCheckpoint :=
  Eval vm_compute in mkCheckpoint (checkpoint_id cp1) (Some (replicate 32 x09)) (checkpoint_seq cp1) (cp_epoch cp1)
    (policy_heads cp1)
    (match Arr.from_unsorted (signed_by (PolicyCheckpoint.preimage_bytes
       (mkCheckpoint [] (Some (replicate 32 x09)) (checkpoint_seq cp1) (cp_epoch cp1) (policy_heads cp1) []
          (created_at cp1))) <$> keys2) with Ok a => a | Err _ => [] end)
    (created_at cp1).

Lemma frontier_skips_linkage :
  (accept_checkpoint m1 "za" stray 2 signers2 "t").2 = Ok tt /\
  is_ok (verify_chain_linkage cp0 stray) = false.
Proof. split; vm_compute; reflexivity. Qed.

(** Neither the zone nor the identifier is signed: a checkpoint built for one
    zone, under any identifier, is accepted in another. *)
Definition renamed (c : PolicyCheckpoint) (id : EngineObjectId) : PolicyCheckpoint :=
  mkCheckpoint id (prev_checkpoint c) (checkpoint_seq c) (cp_epoch c) (policy_heads c)
    (quorum_signatures c) (created_at c).

Lemma frontier_accepts_other_zone :
  (accept_checkpoint m0 "zb" (renamed cp0 (replicate 32 xff)) 2 signers2 "t").2 = Ok tt /\
  is_ok (verify_id (replicate 32 xff) CheckpointArtifact "zb" checkpoint_schema_id
    (encode_value (checkpoint_view cp0))) = false.
Proof. split; vm_compute; reflexivity. Qed.
