(* ===== verification/Capability.v ===== *)
(** * Capability profiles (crates/franken-engine/src/capability.rs)

    The runtime capabilities, the five standard profiles, and the checks that a
    profile grants what an operation requires.  A [BTreeSet] is a [gset] that
    iterates in the order of its keys ([set_iter]).  The theorems say that
    intersection is the meet of profiles under inclusion and that the checks
    report exactly the missing capabilities. *)
From stdpp Require Import base numbers list strings gmap sorting.
From S2P Require Import Prelude Text.
Open Scope string_scope.
Open Scope list_scope.
Open Scope Z_scope.

Inductive RuntimeCapability :=
  | VmDispatch | GcInvoke | IrLowering | PolicyRead | PolicyWrite | EvidenceEmit
  | DecisionInvoke | NetworkEgress | LeaseManagement | IdempotencyDerive
  | ExtensionLifecycle | HeapAllocate | EnvRead | ProcessSpawn | FsRead | FsWrite.

#[export] Instance RuntimeCapability_eq_dec : EqDecision RuntimeCapability.
Proof. solve_decision. Defined.

(** The declared order, which the derived [Ord] follows. *)
Definition all_capabilities : list RuntimeCapability :=
  [VmDispatch; GcInvoke; IrLowering; PolicyRead; PolicyWrite; EvidenceEmit; DecisionInvoke;
   NetworkEgress; LeaseManagement; IdempotencyDerive; ExtensionLifecycle; HeapAllocate; EnvRead;
   ProcessSpawn; FsRead; FsWrite].

Definition cap_rank (c : RuntimeCapability) : Z :=
  match c with
  | VmDispatch => 0 | GcInvoke => 1 | IrLowering => 2 | PolicyRead => 3 | PolicyWrite => 4
  | EvidenceEmit => 5 | DecisionInvoke => 6 | NetworkEgress => 7 | LeaseManagement => 8
  | IdempotencyDerive => 9 | ExtensionLifecycle => 10 | HeapAllocate => 11 | EnvRead => 12
  | ProcessSpawn => 13 | FsRead => 14 | FsWrite => 15
  end.

Definition cap_of_rank (z : Z) : RuntimeCapability :=
  default VmDispatch (all_capabilities !! Z.to_nat z).

Lemma cap_of_rank_rank c : cap_of_rank (cap_rank c) = c.
Proof. by destruct c. Qed.

#[export] Instance RuntimeCapability_countable : Countable RuntimeCapability :=
  inj_countable' cap_rank cap_of_rank cap_of_rank_rank.

#[export] Instance RuntimeCapability_key : BTreeKey RuntimeCapability.
Proof.
  refine {| key_le := fun a b => cap_rank a <= cap_rank b |}.
  - intros a b. apply _.
  - intros a b. lia.
  - intros a b c. lia.
Defined.

Definition cap_string (c : RuntimeCapability) : string :=
  match c with
  | VmDispatch => "vm_dispatch"
  | GcInvoke => "gc_invoke"
  | IrLowering => "ir_lowering"
  | PolicyRead => "policy_read"
  | PolicyWrite => "policy_write"
  | EvidenceEmit => "evidence_emit"
  | DecisionInvoke => "decision_invoke"
  | NetworkEgress => "network_egress"
  | LeaseManagement => "lease_management"
  | IdempotencyDerive => "idempotency_derive"
  | ExtensionLifecycle => "extension_lifecycle"
  | HeapAllocate => "heap_allocate"
  | EnvRead => "env_read"
  | ProcessSpawn => "process_spawn"
  | FsRead => "fs_read"
  | FsWrite => "fs_write"
  end.

(** ** Profiles *)

Inductive ProfileKind := Full | EngineCore | Policy | Remote | ComputeOnly.

#[export] Instance ProfileKind_eq_dec : EqDecision ProfileKind.
Proof. solve_decision. Defined.

Definition profile_string (k : ProfileKind) : string :=
  match k with
  | Full => "FullCaps"
  | EngineCore => "EngineCoreCaps"
  | Policy => "PolicyCaps"
  | Remote => "RemoteCaps"
  | ComputeOnly => "ComputeOnlyCaps"
  end.

Record CapabilityProfile := mkProfile {
  pr_kind : ProfileKind; pr_capabilities : gset RuntimeCapability }.

Definition full : CapabilityProfile :=
  mkProfile Full (list_to_set
    [VmDispatch; GcInvoke; IrLowering; PolicyRead; PolicyWrite; EvidenceEmit; DecisionInvoke;
     NetworkEgress; LeaseManagement; IdempotencyDerive; ExtensionLifecycle; HeapAllocate; EnvRead;
     ProcessSpawn; FsRead; FsWrite]).
Definition engine_core : CapabilityProfile :=
  mkProfile EngineCore (list_to_set [VmDispatch; GcInvoke; IrLowering; HeapAllocate]).
Definition policy : CapabilityProfile :=
  mkProfile Policy (list_to_set [PolicyRead; PolicyWrite; EvidenceEmit; DecisionInvoke]).
Definition remote : CapabilityProfile :=
  mkProfile Remote (list_to_set [NetworkEgress; LeaseManagement; IdempotencyDerive]).
Definition compute_only : CapabilityProfile := mkProfile ComputeOnly ∅.

Definition has (p : CapabilityProfile) (c : RuntimeCapability) : bool :=
  bool_decide (c ∈ pr_capabilities p).
Definition subsumes (p other : CapabilityProfile) : bool :=
  bool_decide (pr_capabilities other ⊆ pr_capabilities p).
Definition intersect (p other : CapabilityProfile) : CapabilityProfile :=
  mkProfile ComputeOnly (pr_capabilities p ∩ pr_capabilities other).
Definition profile_len (p : CapabilityProfile) : Z := Z.of_nat (size (pr_capabilities p)).

Record CapabilityDenied := mkDenied {
  required : RuntimeCapability; held_profile : ProfileKind; component : string }.

Definition require_capability (p : CapabilityProfile) (c : RuntimeCapability) (component : string) :
    result CapabilityDenied unit :=
  if has p c then Ok tt else Err (mkDenied c (pr_kind p) component).

Definition require_all (p : CapabilityProfile) (cs : list RuntimeCapability) (component : string) :
    result (list CapabilityDenied) unit :=
  let denials := (fun c => mkDenied c (pr_kind p) component) <$>
                   List.filter (fun c => negb (has p c)) cs in
  match denials with [] => Ok tt | _ => Err denials end.

(** ** Properties *)

Lemma has_true p c : has p c = true <-> c ∈ pr_capabilities p.
Proof. apply bool_decide_eq_true. Qed.

Lemma subsumes_true p q : subsumes p q = true <-> pr_capabilities q ⊆ pr_capabilities p.
Proof. apply bool_decide_eq_true. Qed.

(** [intersect] is the greatest profile below both: narrowing never grants. *)
Theorem intersect_is_meet (p q r : CapabilityProfile) :
  subsumes p (intersect p q) = true /\ subsumes q (intersect p q) = true /\
  (subsumes (intersect p q) r = true <-> subsumes p r = true /\ subsumes q r = true) /\
  (forall c, has (intersect p q) c = has p c && has q c).
Proof.
  rewrite !subsumes_true. simpl. split; [set_solver|]. split; [set_solver|]. split; [set_solver|].
  intros c. apply Bool.eq_true_iff_eq. rewrite andb_true_iff, !has_true. simpl. set_solver.
Qed.

(** The check of a list is the check of each: it succeeds exactly when every
    capability is granted, and otherwise reports exactly the missing ones, in
    order and with repetitions; the standard profiles lie below the full one
    and the three working ones share nothing. *)
Theorem require_all_exact (p : CapabilityProfile) (cs : list RuntimeCapability) (component : string) :
  (require_all p cs component = Ok tt <->
   Forall (fun c => require_capability p c component = Ok tt) cs) /\
  (forall ds, require_all p cs component = Err ds ->
     required <$> ds = List.filter (fun c => negb (has p c)) cs /\
     Forall (fun d => require_capability p (required d) component = Err d) ds) /\
  (forall q, q ∈ [full; engine_core; policy; remote; compute_only] -> subsumes full q = true) /\
  (forall c, Forall (fun '(a, b) => has a c && has b c = false)
     [(engine_core, policy); (engine_core, remote); (policy, remote)]).
Proof.
  assert (Hreq : forall c, require_capability p c component = Ok tt <-> has p c = true).
  { intros c. unfold require_capability. destruct (has p c); naive_solver. }
  split; [|split; [|split]].
  - transitivity (List.filter (fun c => negb (has p c)) cs = []).
    { unfold require_all. by destruct (List.filter _ cs). }
    induction cs as [|c cs IH]; [done|]. rewrite Forall_cons, Hreq. simpl.
    destruct (has p c); simpl; naive_solver.
  - unfold require_all. intros ds H.
    assert (ds = (fun c => mkDenied c (pr_kind p) component) <$> List.filter (fun c => negb (has p c)) cs) as ->
      by (destruct (List.filter _ cs); naive_solver).
    split; [rewrite <- list_fmap_compose; apply list_fmap_id|]. apply Forall_fmap, Forall_forall.
    intros c Hc%list_elem_of_In%filter_In. destruct Hc as [_ Hc]. unfold require_capability. simpl.
    by destruct (has p c).
  - intros q Hq. apply subsumes_true. intros c _. by destruct c; vm_compute.
  - intros c. destruct c; repeat constructor; vm_compute; reflexivity.
Qed.
