(* ===== verification/CapabilityToken.v ===== *)
(** * Capability tokens (crates/franken-engine/src/capability_token.rs)

    Signed, audience-bound and time-bound grants of capabilities: the unsigned
    view, the builder and the verification.  The theorems say exactly which
    tokens verify, that a built token verifies for its audience inside its
    window, that a signature binds every field of a token up to a collision of
    the hash, and, with the checkpoint frontier, that a checkpoint binding once
    met stays met.

    [signature_schema] is never reached in the source; [preimage_bytes] is the
    source's override. *)
From stdpp Require Import base numbers list strings gmap sorting.
From Stdlib Require Import Strings.Byte.
From S2P Require Import Prelude Bytes Text HashTiers DetSerde DetSerdeCorrect.
From S2P Require Import IrContract IrContractCorrect SignaturePreimage.
From S2P Require Import MarkerCorrect SecurityEpoch EngineObjectId SortedMultisig PolicyCheckpoint.
From S2P Require Import CheckpointFrontier Capability.
Open Scope string_scope.
Open Scope list_scope.
Open Scope Z_scope.

Definition TOKEN_SCHEMA_DEF : list byte := str_bytes "FrankenEngine.CapabilityToken.v2".
Definition token_schema : SchemaHash := from_definition TOKEN_SCHEMA_DEF.
Definition token_schema_id : SchemaId := SchemaId_from_definition TOKEN_SCHEMA_DEF.

Definition PrincipalId : Type := list byte.
Definition from_verification_key (vk : VerificationKey) : PrincipalId := ContentHash_compute vk.

#[export] Instance bytes_key : BTreeKey (list byte).
Proof.
  refine {| key_le := bytes_le |}.
  - intros a b. unfold bytes_le. rewrite (bytes_cmp_antisym a b). destruct (bytes_cmp a b); auto.
Defined.

Record CheckpointRef := mkCpRef { min_checkpoint_seq : Z; cr_checkpoint_id : EngineObjectId }.
Record RevocationFreshnessRef := mkRevRef {
  min_revocation_seq : Z; revocation_head_hash : ContentHash }.

Inductive TokenVersion := V2.
Definition version_string (v : TokenVersion) : string := match v with V2 => "v2" end.

Inductive TokenError :=
  | TokenSignatureInvalid (detail : string)
  | NonCanonical (detail : string)
  | AudienceRejected (presenter : PrincipalId) (audience_size : Z)
  | TokenNotYetValid (current_tick not_before : Z)
  | TokenExpired (current_tick expiry : Z)
  | CheckpointBindingFailed (required_seq verifier_seq : Z)
  | RevocationFreshnessStale (required_seq verifier_seq : Z)
  | UnsupportedVersion (version : string)
  | TokenIdDerivationFailed (detail : string)
  | InvertedTemporalWindow (not_before expiry : Z)
  | EmptyCapabilities
  | EmptyAudience.

Record CapabilityToken := mkToken {
  version : TokenVersion;
  jti : EngineObjectId;
  issuer : VerificationKey;
  audience : gset PrincipalId;
  capabilities : gset RuntimeCapability;
  nbf : Z;
  expiry : Z;
  epoch : SecurityEpoch;
  checkpoint_binding : option CheckpointRef;
  revocation_freshness : option RevocationFreshnessRef;
  tk_signature : Signature;
  tk_zone : string }.

(** ** The unsigned view *)

Definition binding_value (b : option CheckpointRef) : CanonicalValue :=
  match b with
  | Some b => map_of [("checkpoint_id", VBytes (cr_checkpoint_id b));
                      ("min_checkpoint_seq", VU64 (min_checkpoint_seq b))]
  | None => VNull
  end.

Definition freshness_value (r : option RevocationFreshnessRef) : CanonicalValue :=
  match r with
  | Some r => map_of [("min_revocation_seq", VU64 (min_revocation_seq r));
                      ("revocation_head_hash", VBytes (revocation_head_hash r))]
  | None => VNull
  end.

Definition build_unsigned_view (t : CapabilityToken) : CanonicalValue :=
  map_of [("audience", VArray (VBytes <$> set_iter (audience t)));
          ("capabilities", VArray ((VString ∘ cap_string) <$> set_iter (capabilities t)));
          ("checkpoint_binding", binding_value (checkpoint_binding t));
          ("epoch", VU64 (epoch t));
          ("expiry", VU64 (expiry t));
          ("issuer", VBytes (issuer t));
          ("jti", VBytes (jti t));
          ("nbf", VU64 (nbf t));
          ("revocation_freshness", freshness_value (revocation_freshness t));
          ("signature", VBytes SIGNATURE_SENTINEL);
          ("version", VString (version_string (version t)));
          ("zone", VString (tk_zone t))].

Definition token_preimage_bytes (t : CapabilityToken) : list byte :=
  tag SignaturePreimage.CapabilityToken ++ token_schema ++ encode_value (build_unsigned_view t).

(** ** The builder *)

Record TokenBuilder := mkTB {
  tb_issuer_sk : SigningKey;
  tb_audience : gset PrincipalId;
  tb_capabilities : gset RuntimeCapability;
  tb_nbf : Z;
  tb_expiry : Z;
  tb_epoch : SecurityEpoch;
  tb_checkpoint_binding : option CheckpointRef;
  tb_revocation_freshness : option RevocationFreshnessRef;
  tb_zone : string }.

Module TB.
Definition new (sk : SigningKey) (nbf expiry : Z) (epoch : SecurityEpoch) (zone : string) : TokenBuilder :=
  mkTB sk ∅ ∅ nbf expiry epoch None None zone.

Definition add_audience (b : TokenBuilder) (p : PrincipalId) : TokenBuilder :=
  mkTB (tb_issuer_sk b) ({[p]} ∪ tb_audience b) (tb_capabilities b) (tb_nbf b) (tb_expiry b)
    (tb_epoch b) (tb_checkpoint_binding b) (tb_revocation_freshness b) (tb_zone b).

Definition add_capability (b : TokenBuilder) (c : RuntimeCapability) : TokenBuilder :=
  mkTB (tb_issuer_sk b) (tb_audience b) ({[c]} ∪ tb_capabilities b) (tb_nbf b) (tb_expiry b)
    (tb_epoch b) (tb_checkpoint_binding b) (tb_revocation_freshness b) (tb_zone b).

Definition add_capabilities (b : TokenBuilder) (cs : list RuntimeCapability) : TokenBuilder :=
  mkTB (tb_issuer_sk b) (tb_audience b) (list_to_set cs ∪ tb_capabilities b) (tb_nbf b) (tb_expiry b)
    (tb_epoch b) (tb_checkpoint_binding b) (tb_revocation_freshness b) (tb_zone b).

Definition bind_checkpoint (b : TokenBuilder) (r : CheckpointRef) : TokenBuilder :=
  mkTB (tb_issuer_sk b) (tb_audience b) (tb_capabilities b) (tb_nbf b) (tb_expiry b)
    (tb_epoch b) (Some r) (tb_revocation_freshness b) (tb_zone b).

Definition bind_revocation_freshness (b : TokenBuilder) (r : RevocationFreshnessRef) : TokenBuilder :=
  mkTB (tb_issuer_sk b) (tb_audience b) (tb_capabilities b) (tb_nbf b) (tb_expiry b)
    (tb_epoch b) (tb_checkpoint_binding b) (Some r) (tb_zone b).

(** The token of the builder's fields, with an identifier and a signature. *)
Definition token_of (b : TokenBuilder) (id : EngineObjectId) (s : Signature) : CapabilityToken :=
  mkToken V2 id (verification_key (tb_issuer_sk b)) (tb_audience b) (tb_capabilities b)
    (tb_nbf b) (tb_expiry b) (tb_epoch b) (tb_checkpoint_binding b) (tb_revocation_freshness b) s
    (tb_zone b).

Definition build (b : TokenBuilder) : result TokenError CapabilityToken :=
  if decide (tb_capabilities b = ∅) then Err EmptyCapabilities
  else if tb_expiry b <? tb_nbf b then Err (InvertedTemporalWindow (tb_nbf b) (tb_expiry b))
  else
    let sentinel := Signature_from_bytes SIGNATURE_SENTINEL in
    let placeholder := token_of b (replicate OBJECT_ID_LEN x00) sentinel in
    let canonical_bytes := encode_value (build_unsigned_view placeholder) in
    id ← map_err (fun e => TokenIdDerivationFailed (id_error_string e))
           (derive_id SignaturePreimage.CapabilityToken (tk_zone placeholder) token_schema_id
              canonical_bytes);
    let token := token_of b id sentinel in
    let preimage := token_preimage_bytes token in
    sig ← map_err (fun e => TokenSignatureInvalid ("signing failed: " +:+ signature_error_string e))
            (sign_preimage (tb_issuer_sk b) preimage);
    Ok (token_of b id sig).
End TB.

(** ** Verification *)

Record VerificationContext := mkVerCtx {
  current_tick : Z; verifier_checkpoint_seq : Z; verifier_revocation_seq : Z }.

Definition verify_token (t : CapabilityToken) (presenter : PrincipalId) (ctx : VerificationContext) :
    result TokenError unit :=
  _ ← map_err (fun e => TokenSignatureInvalid (signature_error_string e))
        (verify_signature (issuer t) (token_preimage_bytes t) (tk_signature t));
  if negb (bool_decide (audience t = ∅)) && negb (bool_decide (presenter ∈ audience t)) then
    Err (AudienceRejected presenter (Z.of_nat (size (audience t))))
  else if current_tick ctx <? nbf t then Err (TokenNotYetValid (current_tick ctx) (nbf t))
  else if expiry t <? current_tick ctx then Err (TokenExpired (current_tick ctx) (expiry t))
  else
    _ ← match checkpoint_binding t with
        | Some b =>
            if verifier_checkpoint_seq ctx <? min_checkpoint_seq b then
              Err (CheckpointBindingFailed (min_checkpoint_seq b) (verifier_checkpoint_seq ctx))
            else Ok tt
        | None => Ok tt
        end;
    match revocation_freshness t with
    | Some r =>
        if verifier_revocation_seq ctx <? min_revocation_seq r then
          Err (RevocationFreshnessStale (min_revocation_seq r) (verifier_revocation_seq ctx))
        else Ok tt
    | None => Ok tt
    end.

(** ** Which tokens verify *)

#[local] Opaque encode_value deterministic_hash ContentHash_compute.

(** The conditions beside the signature. *)
Definition admits (t : CapabilityToken) (presenter : PrincipalId) (ctx : VerificationContext) : Prop :=
  (audience t = ∅ \/ presenter ∈ audience t) /\
  nbf t <= current_tick ctx <= expiry t /\
  (forall b, checkpoint_binding t = Some b -> min_checkpoint_seq b <= verifier_checkpoint_seq ctx) /\
  (forall r, revocation_freshness t = Some r -> min_revocation_seq r <= verifier_revocation_seq ctx).

Lemma verify_token_Ok t p ctx :
  verify_token t p ctx = Ok tt <->
  verify_signature (issuer t) (token_preimage_bytes t) (tk_signature t) = Ok tt /\ admits t p ctx.
Proof.
  unfold verify_token, admits. rewrite bind_Ok.
  assert (Hau : negb (bool_decide (audience t = ∅)) && negb (bool_decide (p ∈ audience t)) = false <->
    (audience t = ∅ \/ p ∈ audience t)).
  { destruct (bool_decide_reflect (audience t = ∅)), (bool_decide_reflect (p ∈ audience t)); simpl; naive_solver. }
  split.
  - intros ([] & Hs%map_err_Ok & H). split; [done|]. destruct (_ && _) eqn:Ha; [done|].
    pose proof (proj1 Hau eq_refl) as Ha'.
    destruct (Z.ltb_spec (current_tick ctx) (nbf t)); [done|].
    destruct (Z.ltb_spec (expiry t) (current_tick ctx)); [done|].
    apply bind_Ok in H as ([] & Hc & Hr). split; [done|]. split; [lia|]. split.
    + intros b Hb. rewrite Hb in Hc. destruct (Z.ltb_spec (verifier_checkpoint_seq ctx) (min_checkpoint_seq b)); [done|lia].
    + intros r Hb. rewrite Hb in Hr. destruct (Z.ltb_spec (verifier_revocation_seq ctx) (min_revocation_seq r)); [done|lia].
  - intros (Hs & Ha & Ht & Hc & Hr). exists tt. split; [by apply map_err_Ok|].
    apply Hau in Ha. rewrite Ha.
    replace (current_tick ctx <? nbf t) with false by lia. replace (expiry t <? current_tick ctx) with false by lia.
    apply bind_Ok. exists tt. split.
    + destruct (checkpoint_binding t) as [b|]; [|done]. specialize (Hc b eq_refl).
      by replace (verifier_checkpoint_seq ctx <? min_checkpoint_seq b) with false by lia.
    + destruct (revocation_freshness t) as [r|]; [|done]. specialize (Hr r eq_refl).
      by replace (verifier_revocation_seq ctx <? min_revocation_seq r) with false by lia.
Qed.

(** The identifier that the builder derives. *)
Definition derived_jti (b : TokenBuilder) : EngineObjectId :=
  deterministic_hash (build_id_preimage SignaturePreimage.CapabilityToken (tb_zone b) token_schema_id
    (encode_value (build_unsigned_view
       (TB.token_of b (replicate OBJECT_ID_LEN x00) (Signature_from_bytes SIGNATURE_SENTINEL))))).

(** The signature is not part of the view. *)
Lemma preimage_ignores_signature b id s s' :
  token_preimage_bytes (TB.token_of b id s) = token_preimage_bytes (TB.token_of b id s').
Proof. done. Qed.

Lemma token_build_Ok b t :
  TB.build b = Ok t <->
  tb_capabilities b <> ∅ /\ tb_nbf b <= tb_expiry b /\ all_zero (tb_issuer_sk b) = false /\
  t = TB.token_of b (derived_jti b)
        (signature (signed_by (token_preimage_bytes (TB.token_of b (derived_jti b)
           (Signature_from_bytes SIGNATURE_SENTINEL))) (tb_issuer_sk b))).
Proof.
  unfold TB.build. set (sentinel := Signature_from_bytes SIGNATURE_SENTINEL).
  case_decide; [naive_solver|]. destruct (Z.ltb_spec (tb_expiry b) (tb_nbf b)).
  { split; [done|]. intros (_ & ? & _). lia. }
  assert (Hd : derive_id SignaturePreimage.CapabilityToken (tk_zone (TB.token_of b (replicate OBJECT_ID_LEN x00) sentinel))
    token_schema_id (encode_value (build_unsigned_view (TB.token_of b (replicate OBJECT_ID_LEN x00) sentinel)))
    = Ok (derived_jti b)).
  { apply derive_id_Ok. split; [apply encode_map_nonempty|reflexivity]. }
  cbv zeta. rewrite Hd. cbn [map_err mbind result_bind]. unfold sign_preimage.
  destruct (all_zero (tb_issuer_sk b)); cbn [map_err mbind result_bind]; [naive_solver|].
  split; [|by intros (_ & _ & _ & ->)]. intros H1. split; [done|]. split; [lia|]. split; [done|].
  injection H1 as <-. reflexivity.
Qed.

Lemma signed_by_wf pre sk : signature_wf (signature (signed_by pre sk)).
Proof.
  pose proof (compute_verification_hash_length (verification_key sk) pre) as Hl.
  unfold signed_by, signature_wf. cbn [signature Signature_from_bytes lower upper].
  rewrite length_take, length_drop, Hl. done.
Qed.

(** A token can be built exactly when it grants something, its window is not inverted
    and the issuer's key is not zero, and a built token verifies exactly for the
    presenters and contexts it admits: an audience member (anyone, if the audience is
    empty), inside the window with both ends included, against a frontier and a revocation
    head at least as far as its bindings. With any other signature it never verifies. *)
Theorem token_build_verifies (b : TokenBuilder) :
  all_zero (verification_key (tb_issuer_sk b)) = false ->
  (is_ok (TB.build b) = true <->
   tb_capabilities b <> ∅ /\ tb_nbf b <= tb_expiry b /\ all_zero (tb_issuer_sk b) = false) /\
  (forall t, TB.build b = Ok t ->
     capabilities t = tb_capabilities b /\ audience t = tb_audience b /\
     (forall p ctx, verify_token t p ctx = Ok tt <-> admits t p ctx) /\
     (forall p ctx s, signature_wf s -> s <> tk_signature t ->
        let t' := mkToken (version t) (jti t) (issuer t) (audience t) (capabilities t) (nbf t) (expiry t)
                    (epoch t) (checkpoint_binding t) (revocation_freshness t) s (tk_zone t) in
        verify_token t' p ctx <> Ok tt)).
Proof.
  intros Hz. split.
  - split.
    + destruct (TB.build b) eqn:H; [|done]. apply token_build_Ok in H. tauto.
    + intros H. destruct (TB.build b) eqn:E; [done|].
      assert (Hx : exists t, TB.build b = Ok t); [|destruct Hx as [? Hx]; by rewrite E in Hx].
      eexists. apply token_build_Ok. split; [apply H|]. split; [apply H|]. split; [apply H|reflexivity].
  - intros t (_ & _ & _ & Ht)%token_build_Ok. split; [by rewrite Ht|]. split; [by rewrite Ht|].
    set (pre := token_preimage_bytes (TB.token_of b (derived_jti b) (Signature_from_bytes SIGNATURE_SENTINEL))) in *.
    assert (Hp : token_preimage_bytes t = pre) by (rewrite Ht; apply preimage_ignores_signature).
    assert (Hs : verify_signature (issuer t) pre (tk_signature t) = Ok tt)
      by (rewrite Ht; exact (signed_entry_verifies pre (tb_issuer_sk b) Hz)).
    assert (Hw' : signature_wf (tk_signature t)) by (rewrite Ht; apply signed_by_wf).
    clearbody pre. clear Ht. split.
    { intros p ctx. rewrite verify_token_Ok, Hp. split; [intros [_ H]; exact H|intros H; split; [exact Hs|exact H]]. }
    intros p ctx s Hw Hne t' [Hv _]%verify_token_Ok. cbn [issuer tk_signature t'] in Hv.
    change (token_preimage_bytes t') with (token_preimage_bytes t) in Hv. rewrite Hp in Hv.
    apply verify_signature_iff in Hv as [_ Hv]; [|done]. apply verify_signature_iff in Hs as [_ Hs]; [|done].
    apply Hne. rewrite <- (signature_from_to s), <- (signature_from_to (tk_signature t)) by done. congruence.
Qed.

(** ** What a token's signature binds *)

Definition read_binding (v : CanonicalValue) : option CheckpointRef :=
  i ← get "checkpoint_id" v ≫= as_bytes; n ← get_u64 "min_checkpoint_seq" v; Some (mkCpRef n i).

Definition read_freshness (v : CanonicalValue) : option RevocationFreshnessRef :=
  n ← get_u64 "min_revocation_seq" v; h ← get "revocation_head_hash" v ≫= as_bytes;
  Some (mkRevRef n h).

Definition read_cap (v : CanonicalValue) : option RuntimeCapability :=
  as_str v ≫= of_name cap_string all_capabilities.

(** Everything but the signature. *)
Definition token_fields : Type :=
  EngineObjectId * VerificationKey * gset PrincipalId * gset RuntimeCapability * Z * Z * SecurityEpoch *
  option CheckpointRef * option RevocationFreshnessRef * string.

Definition fields_of (t : CapabilityToken) : token_fields :=
  (jti t, issuer t, audience t, capabilities t, nbf t, expiry t, epoch t, checkpoint_binding t,
   revocation_freshness t, tk_zone t).

Definition read_token (v : CanonicalValue) : option token_fields :=
  i ← get "jti" v ≫= as_bytes;
  k ← get "issuer" v ≫= as_bytes;
  au ← get "audience" v ≫= as_list as_bytes;
  cs ← get "capabilities" v ≫= as_list read_cap;
  n ← get_u64 "nbf" v;
  x ← get_u64 "expiry" v;
  e ← get_u64 "epoch" v;
  b ← get "checkpoint_binding" v ≫= as_option read_binding;
  r ← get "revocation_freshness" v ≫= as_option read_freshness;
  z ← get_str "zone" v;
  Some (i, k, list_to_set au, list_to_set cs, n, x, e, b, r, z).

Lemma read_token_view t : read_token (build_unsigned_view t) = Some (fields_of t).
Proof.
  unfold read_token, fields_of.
  change (get "audience" (build_unsigned_view t)) with (Some (VArray (VBytes <$> set_iter (audience t)))).
  change (get "capabilities" (build_unsigned_view t))
    with (Some (VArray ((VString ∘ cap_string) <$> set_iter (capabilities t)))).
  change (get "checkpoint_binding" (build_unsigned_view t)) with (Some (binding_value (checkpoint_binding t))).
  change (get "revocation_freshness" (build_unsigned_view t)) with (Some (freshness_value (revocation_freshness t))).
  change (get "jti" (build_unsigned_view t)) with (Some (VBytes (jti t))).
  change (get "issuer" (build_unsigned_view t)) with (Some (VBytes (issuer t))).
  cbn [mbind option_bind as_bytes].
  rewrite !as_list_canonical by (done || by intros []). cbn [mbind option_bind].
  change (get_u64 "nbf" (build_unsigned_view t)) with (Some (nbf t)).
  change (get_u64 "expiry" (build_unsigned_view t)) with (Some (expiry t)).
  change (get_u64 "epoch" (build_unsigned_view t)) with (Some (epoch t)).
  change (get_str "zone" (build_unsigned_view t)) with (Some (tk_zone t)). cbn [mbind option_bind].
  replace (as_option read_binding (binding_value (checkpoint_binding t))) with (Some (checkpoint_binding t))
    by (by destruct (checkpoint_binding t) as [[]|]).
  replace (as_option read_freshness (freshness_value (revocation_freshness t))) with (Some (revocation_freshness t))
    by (by destruct (revocation_freshness t) as [[]|]).
  cbn [mbind option_bind]. by rewrite !set_iter_set.
Qed.

Definition binding_fits (b : CheckpointRef) : Prop := hash_wf (cr_checkpoint_id b) /\ is_u64 (min_checkpoint_seq b).
Definition freshness_fits (r : RevocationFreshnessRef) : Prop :=
  hash_wf (revocation_head_hash r) /\ is_u64 (min_revocation_seq r).

(** The fields fit their machine types. *)
Record token_fits (t : CapabilityToken) : Prop := {
  tf_jti : hash_wf (jti t);
  tf_issuer : hash_wf (issuer t);
  tf_audience : Z.of_nat (size (audience t)) <= u32_max /\ forall p, p ∈ audience t -> hash_wf p;
  tf_times : is_u64 (nbf t) /\ is_u64 (expiry t) /\ is_u64 (epoch t);
  tf_binding : opt_all binding_fits (checkpoint_binding t);
  tf_freshness : opt_all freshness_fits (revocation_freshness t);
  tf_zone : str_ok (tk_zone t);
  tf_len : zlen (encode_value (build_unsigned_view t)) <= usize_max }.

Lemma cap_string_ok c : str_ok (cap_string c).
Proof. destruct c; apply str_okb_ok; vm_compute; reflexivity. Qed.

Lemma capability_count (s : gset RuntimeCapability) : zlen (set_iter s) <= u32_max.
Proof.
  assert (Hle : (size s <= size (list_to_set all_capabilities : gset RuntimeCapability))%nat)
    by (apply subseteq_size; intros c _; by destruct c; vm_compute).
  unfold zlen. rewrite set_iter_perm. change (length (elements s)) with (size s).
  vm_compute (size (list_to_set _)) in Hle. mlia.
Qed.

Lemma token_view_ok t : token_fits t -> val_ok 3 (build_unsigned_view t).
Proof.
  intros [Hj Hi [Ha1 Ha2] (Hn & Hx & He) Hb Hr Hz _]. unfold build_unsigned_view. map_ok.
  - apply (array_ok 1 VBytes hash_wf); [auto with val_ok|unfold zlen; by rewrite set_iter_perm|].
    rewrite set_iter_perm. apply Forall_forall. intros p Hp%elem_of_elements. by apply Ha2.
  - apply (array_ok 1 (VString ∘ cap_string) (fun _ => True));
      [intros c _; apply str_ok_val, cap_string_ok|apply capability_count|by apply Forall_true].
  - destruct (checkpoint_binding t) as [[n i]|]; cbn [binding_value]; [|auto with val_ok].
    destruct Hb. eapply (val_ok_mono 2); [lia|]. map_ok.
  - destruct (revocation_freshness t) as [[n h]|]; cbn [freshness_value]; [|auto with val_ok].
    destruct Hr. eapply (val_ok_mono 2); [lia|]. map_ok.
  - apply bytes_ok_val. vm_compute. congruence.
  - destruct (version t); cbn [version_string]; auto with val_ok.
Qed.

Lemma token_preimage_inj t1 t2 :
  token_fits t1 -> token_fits t2 -> token_preimage_bytes t1 = token_preimage_bytes t2 ->
  fields_of t1 = fields_of t2.
Proof.
  intros F1 F2 He. unfold token_preimage_bytes in He. apply app_inv_head, app_inv_head in He.
  apply (encode_injective 3) in He; [|by apply token_view_ok..|unfold depth_levels; lia|apply F1].
  pose proof (read_token_view t1) as Hr. rewrite He, read_token_view in Hr. congruence.
Qed.

(** A token's signature binds every other field. If two tokens of one issuer carry
    the same signature and both verify, for whatever presenters and contexts, then
    identifier, audience, capabilities, window, epoch, zone and both bindings agree, or
    the inner hash of the keyed hash collides on the two preimages. The fields fit their
    machine types. *)
Theorem token_signature_binds (t1 t2 : CapabilityToken) (p1 p2 : PrincipalId) (c1 c2 : VerificationContext) :
  token_fits t1 -> token_fits t2 -> signature_wf (tk_signature t1) ->
  issuer t1 = issuer t2 -> tk_signature t1 = tk_signature t2 ->
  verify_token t1 p1 c1 = Ok tt -> verify_token t2 p2 c2 = Ok tt ->
  fields_of t1 = fields_of t2 \/
  (inner_input (issuer t1) (token_preimage_bytes t1) <> inner_input (issuer t1) (token_preimage_bytes t2) /\
   ContentHash_compute (inner_input (issuer t1) (token_preimage_bytes t1)) =
   ContentHash_compute (inner_input (issuer t1) (token_preimage_bytes t2))).
Proof.
  intros F1 F2 Hs Hi Hsig [H1 _]%verify_token_Ok [H2 _]%verify_token_Ok.
  rewrite <- Hi, <- Hsig in H2. apply verify_signature_iff in H1 as [_ H1]; [|done].
  apply verify_signature_iff in H2 as [_ H2]; [|done]. rewrite H1 in H2. unfold compute_verification_hash in H2.
  apply app_inj_1 in H2 as [Hin _]; [|by rewrite !ContentHash_wf].
  destruct (decide (token_preimage_bytes t1 = token_preimage_bytes t2)) as [He|Hne].
  - left. by apply token_preimage_inj.
  - right. split; [|exact Hin]. intros He. apply Hne. exact (app_inv_head _ _ _ He).
Qed.

(** ** Tokens against the checkpoint frontier *)

Section frontier.
Context `{!PersistenceBackend B, !BackendLaws B}.

(** The sequence number a verifier takes from the frontier of a zone. *)
Definition frontier_position (m : CheckpointFrontierManager B) (z : string) : Z :=
  match get_frontier m z with Some s => frontier_seq s | None => 0 end.

Lemma frontier_position_mono m log m' more z :
  run m log -> run m' (log ++ more) -> get_frontier m z <> None ->
  frontier_position m z <= frontier_position m' z.
Proof.
  intros H H' Hne. apply run_invariant in H as [_ Hf _ _]. apply run_invariant in H' as [_ Hf' Hs' _].
  unfold frontier_position, get_frontier in *. rewrite Hf in *. rewrite Hf'. specialize (Hs' z).
  unfold accepted_in in *. rewrite filter_app, fmap_app in *.
  set (l := a_checkpoint <$> _) in *. set (k := a_checkpoint <$> filter _ more) in *. clearbody l k.
  unfold frontier_of in *. rewrite last_app.
  destruct (last l) as [c|] eqn:Hl; [|done]. destruct (last k) as [d|] eqn:Hk; [|done]. cbn.
  apply StronglySorted_app in Hs' as (Hlt & _ & _). apply last_Some in Hl as [l' ->]. apply last_Some in Hk as [k' ->].
  destruct (Hlt c d) as [? _]; [set_solver..|lia].
Qed.

(** A token admitted against the frontier of its zone is admitted for as long
    as its window and the revocation head allow: advancing the frontier, failed
    calls and restarts included, never invalidates a checkpoint binding. *)
Theorem token_checkpoint_binding_stable (m m' : CheckpointFrontierManager B) (log more : list Accepted)
    (t : CapabilityToken) (p : PrincipalId) (tick tick' rev rev' : Z) :
  run m log -> run m' (log ++ more) -> get_frontier m (tk_zone t) <> None ->
  verify_token t p (mkVerCtx tick (frontier_position m (tk_zone t)) rev) = Ok tt ->
  tick <= tick' <= expiry t -> rev <= rev' ->
  verify_token t p (mkVerCtx tick' (frontier_position m' (tk_zone t)) rev') = Ok tt.
Proof.
  intros Hm Hm' Hne Hv Ht Hr. pose proof (frontier_position_mono _ _ _ _ _ Hm Hm' Hne) as Hpos.
  apply verify_token_Ok in Hv as (Hs & Ha & Hw & Hc & Hf). apply verify_token_Ok. split; [exact Hs|].
  unfold admits in *. cbn [current_tick verifier_checkpoint_seq verifier_revocation_seq] in *.
  split; [exact Ha|]. split; [lia|]. split.
  - intros b Hb. specialize (Hc b Hb). lia.
  - intros r Hb. specialize (Hf r Hb). lia.
Qed.
End frontier.

(** ** Examples *)

#[local] Transparent encode_value deterministic_hash ContentHash_compute.

Definition alice : PrincipalId := replicate 32 x0a.
Definition mallory : PrincipalId := replicate 32 x0b.

Definition sample_tb : TokenBuilder :=
  TB.bind_checkpoint (TB.add_audience (TB.add_capability (TB.new (sk_n x07) 10 20 1 "za") FsRead) alice)
    (mkCpRef 5 (replicate 32 x01)).

Definition built_token (b : TokenBuilder) : CapabilityToken :=
  match TB.build b with Ok t => t | Err _ => TB.token_of b [] (mkSignature [] []) end.

(** Stored as a value, so that the examples do not sign it again. *)
Definition sample_token : CapabilityToken := Eval vm_compute in built_token sample_tb.

Lemma sample_token_built : TB.build sample_tb = Ok sample_token.
Proof. vm_compute. reflexivity. Qed.

Lemma sample_tb_key : all_zero (verification_key (tb_issuer_sk sample_tb)) = false.
Proof. vm_compute. reflexivity. Qed.

Lemma sample_token_fields :
  issuer sample_token = verification_key (sk_n x07) /\ audience sample_token = {[alice]} /\
  (nbf sample_token, expiry sample_token, epoch sample_token, tk_zone sample_token) = (10, 20, 1, "za") /\
  checkpoint_binding sample_token = Some (mkCpRef 5 (replicate 32 x01)) /\
  revocation_freshness sample_token = None /\ jti sample_token = derived_jti sample_tb.
Proof.
  pose proof sample_token_built as H. apply token_build_Ok in H as (_ & _ & _ & ->).
  split; [done|]. split; [|done]. set_solver.
Qed.

Lemma sample_admits : admits sample_token alice (mkVerCtx 15 5 0) /\ ~ admits sample_token mallory (mkVerCtx 15 5 0).
Proof.
  destruct sample_token_fields as (_ & Ha & Ht & Hb & Hr & _). unfold admits.
  set (t := sample_token) in *. clearbody t. injection Ht as -> -> _ _. rewrite Ha, Hb, Hr. split.
  - split; [right; set_solver|]. split; [simpl; lia|]. split; [|done]. intros b [= <-]. simpl. lia.
  - intros [[H|H] _]; [set_solver|]. apply elem_of_singleton in H. vm_compute in H. discriminate.
Qed.

Lemma token_build_verifies_witness :
  verify_token sample_token alice (mkVerCtx 15 5 0) = Ok tt /\
  verify_token sample_token mallory (mkVerCtx 15 5 0) <> Ok tt.
Proof.
  destruct (token_build_verifies sample_tb sample_tb_key) as [_ H].
  destruct (H _ sample_token_built) as (_ & _ & Hv & _). destruct sample_admits as [Hy Hn]. split.
  - exact (proj2 (Hv _ _) Hy).
  - intros Hc. exact (Hn (proj1 (Hv _ _) Hc)).
Defined.

Lemma sample_token_fits : token_fits sample_token.
Proof.
  assert (Hlen : zlen (encode_value (build_unsigned_view sample_token)) <= usize_max)
    by (vm_compute; discriminate).
  destruct sample_token_fields as (Hi & Ha & Ht & Hb & Hr & Hj).
  set (t := sample_token) in *. clearbody t. injection Ht as Hn Hx He Hz. split; [| | | | | | |exact Hlen].
  - rewrite Hj. apply deterministic_hash_wf.
  - rewrite Hi. apply ContentHash_wf.
  - rewrite Ha, size_singleton. split; [vm_compute; discriminate|].
    intros p Hp%elem_of_singleton. rewrite Hp. reflexivity.
  - rewrite Hn, Hx, He. repeat split; vm_compute; discriminate.
  - rewrite Hb. repeat split; vm_compute; discriminate.
  - rewrite Hr. exact I.
  - rewrite Hz. apply str_okb_ok. reflexivity.
Qed.

(** A token with the expiry moved and the old signature does not verify. *)
Definition extended_token : CapabilityToken :=
  mkToken V2 (jti sample_token) (issuer sample_token) (audience sample_token) (capabilities sample_token)
    (nbf sample_token) 1000 (epoch sample_token) (checkpoint_binding sample_token)
    (revocation_freshness sample_token) (tk_signature sample_token) (tk_zone sample_token).

Lemma extended_token_fits : token_fits extended_token.
Proof.
  assert (Hlen : zlen (encode_value (build_unsigned_view extended_token)) <= usize_max)
    by (vm_compute; discriminate).
  destruct sample_token_fits as [? ? ? (? & _ & ?) ? ? ? _]. unfold extended_token in *.
  set (t := sample_token) in *. clearbody t. split; try assumption. split; [assumption|]. split; [by split|assumption].
Qed.

Lemma tokens_do_not_collide :
  ContentHash_compute (inner_input (issuer sample_token) (token_preimage_bytes sample_token)) <>
  ContentHash_compute (inner_input (issuer sample_token) (token_preimage_bytes extended_token)).
Proof. apply (bool_decide_unpack _). vm_compute. exact I. Qed.

Lemma token_signature_binds_witness :
  verify_token sample_token alice (mkVerCtx 15 5 0) = Ok tt /\
  verify_token extended_token alice (mkVerCtx 500 5 0) <> Ok tt.
Proof.
  assert (H1 : verify_token sample_token alice (mkVerCtx 15 5 0) = Ok tt) by (vm_compute; reflexivity).
  split; [exact H1|]. intros H2.
  assert (Hw : signature_wf (tk_signature sample_token)) by (vm_compute; split; reflexivity).
  destruct (token_signature_binds sample_token extended_token alice alice _ _ sample_token_fits
    extended_token_fits Hw eq_refl eq_refl H1 H2) as [He|[_ Hc]]; [|exact (tokens_do_not_collide Hc)].
  assert (Hx : expiry sample_token = expiry extended_token).
  { exact (f_equal (fun f : token_fields => f.1.1.1.1.2) He). }
  revert Hx. vm_compute. discriminate.
Defined.

Lemma token_checkpoint_binding_stable_witness :
  verify_token sample_token alice (mkVerCtx 20 (frontier_position m3 "za") 3) = Ok tt.
Proof.
  assert (Hz : tk_zone sample_token = "za") by (vm_compute; reflexivity).
  pose proof (token_checkpoint_binding_stable m3 m3 _ [] sample_token alice 15 20 0 3 sample_run) as H.
  rewrite Hz, app_nil_r in H. apply H.
  - exact sample_run.
  - vm_compute. discriminate.
  - vm_compute. reflexivity.
  - vm_compute. split; discriminate.
  - lia.
Defined.

(** A token without audience can be built and anyone can present it. *)
Definition bearer_tb : TokenBuilder := TB.add_capability (TB.new (sk_n x07) 10 20 1 "za") FsWrite.
Definition bearer_token : CapabilityToken := Eval vm_compute in built_token bearer_tb.

Lemma empty_audience_admits_anyone :
  TB.build bearer_tb = Ok bearer_token /\
  verify_token bearer_token mallory (mkVerCtx 15 0 0) = Ok tt.
Proof. split; vm_compute; reflexivity. Qed.
