(* ===== verification/RevocationChain.v ===== *)
(** * Revocation chains (crates/franken-engine/src/revocation_chain.rs)

    An append-only, hash-linked history of revocations with a signed head, an
    index of revoked targets and a rolling hash.  RevocationCorrect.v holds the
    proofs.  [signature_schema] is never reached in the source; the
    [preimage_bytes] are the source's overrides. *)
From stdpp Require Import base numbers list strings gmap.
From Stdlib Require Import Strings.Byte.
From S2P Require Import Prelude Bytes Text HashTiers DetSerde IrContract SignaturePreimage.
From S2P Require Import EngineObjectId CapabilityToken.
Open Scope string_scope.
Open Scope list_scope.
Open Scope Z_scope.

Definition REVOCATION_SCHEMA_DEF : list byte := str_bytes "FrankenEngine.Revocation.v1".
Definition REVOCATION_EVENT_SCHEMA_DEF : list byte := str_bytes "FrankenEngine.RevocationEvent.v1".
Definition REVOCATION_HEAD_SCHEMA_DEF : list byte := str_bytes "FrankenEngine.RevocationHead.v1".

Definition revocation_schema : SchemaHash := from_definition REVOCATION_SCHEMA_DEF.
Definition revocation_event_schema_id : SchemaId := SchemaId_from_definition REVOCATION_EVENT_SCHEMA_DEF.
Definition revocation_head_schema : SchemaHash := from_definition REVOCATION_HEAD_SCHEMA_DEF.
Definition revocation_head_schema_id : SchemaId := SchemaId_from_definition REVOCATION_HEAD_SCHEMA_DEF.

Inductive RevocationTargetType :=
  | TgKey | TgToken | TgAttestation | TgExtension | TgCheckpoint.

Definition target_type_string (t : RevocationTargetType) : string :=
  match t with
  | TgKey => "key"
  | TgToken => "token"
  | TgAttestation => "attestation"
  | TgExtension => "extension"
  | TgCheckpoint => "checkpoint"
  end.

Inductive RevocationReason := Compromised | RsExpired | Superseded | PolicyViolation | Administrative.

Definition reason_string (r : RevocationReason) : string :=
  match r with
  | Compromised => "compromised"
  | RsExpired => "expired"
  | Superseded => "superseded"
  | PolicyViolation => "policy_violation"
  | Administrative => "administrative"
  end.

(** ** Revocations, events and heads *)

Record Revocation := mkRevocation {
  revocation_id : EngineObjectId;
  target_type : RevocationTargetType;
  target_id : EngineObjectId;
  rv_reason : RevocationReason;
  issued_by : PrincipalId;
  issued_at : Z;
  rv_zone : string;
  rv_signature : Signature }.

Definition revocation_view (r : Revocation) : CanonicalValue :=
  map_of [("issued_at", VU64 (issued_at r));
          ("issued_by", VBytes (issued_by r));
          ("reason", VString (reason_string (rv_reason r)));
          ("revocation_id", VBytes (revocation_id r));
          ("signature", VBytes SIGNATURE_SENTINEL);
          ("target_id", VBytes (target_id r));
          ("target_type", VString (target_type_string (target_type r)));
          ("zone", VString (rv_zone r))].

Definition revocation_preimage (r : Revocation) : list byte :=
  tag SignaturePreimage.Revocation ++ revocation_schema ++ encode_value (revocation_view r).

Record RevocationEvent := mkREvent {
  event_id : EngineObjectId;
  revocation : Revocation;
  prev_event : option EngineObjectId;
  event_seq : Z }.

Definition event_value (e : RevocationEvent) : CanonicalValue :=
  let rev := revocation e in
  map_of [("event_id", VBytes (event_id e));
          ("event_seq", VU64 (event_seq e));
          ("prev_event", match prev_event e with Some id => VBytes id | None => VNull end);
          ("revocation_id", VBytes (revocation_id rev));
          ("target_type", VString (target_type_string (target_type rev)));
          ("target_id", VBytes (target_id rev));
          ("reason", VString (reason_string (rv_reason rev)));
          ("issued_by", VBytes (issued_by rev));
          ("issued_at", VU64 (issued_at rev));
          ("zone", VString (rv_zone rev));
          ("signature", VBytes (lower (rv_signature rev) ++ upper (rv_signature rev)))].

Definition canonical_bytes (e : RevocationEvent) : list byte := encode_value (event_value e).
Definition content_hash (e : RevocationEvent) : ContentHash := ContentHash_compute (canonical_bytes e).

Record RevocationHead := mkRHead {
  head_id : EngineObjectId;
  latest_event : EngineObjectId;
  head_seq : Z;
  hd_chain_hash : ContentHash;
  hd_zone : string;
  hd_signature : Signature }.

Definition head_view (h : RevocationHead) : CanonicalValue :=
  map_of [("chain_hash", VBytes (hd_chain_hash h));
          ("head_id", VBytes (head_id h));
          ("head_seq", VU64 (head_seq h));
          ("latest_event", VBytes (latest_event h));
          ("signature", VBytes SIGNATURE_SENTINEL);
          ("zone", VString (hd_zone h))].

Definition head_preimage (h : RevocationHead) : list byte :=
  tag SignaturePreimage.Revocation ++ revocation_head_schema ++ encode_value (head_view h).

Inductive ChainError :=
  | HeadSequenceRegression (current_seq attempted_seq : Z)
  | HashLinkMismatch (event_seq : Z) (expected_prev actual_prev : option EngineObjectId)
  | SequenceDiscontinuity (expected_seq actual_seq : Z)
  | InvalidGenesis (detail : string)
  | ChainIntegrity (detail : string)
  | ChainSignatureInvalid (detail : string)
  | DuplicateTarget (target_id : EngineObjectId)
  | MutationRejected (event_seq : Z)
  | EmptyChain.

Inductive ChainEventType :=
  | RevocationAppended (event_seq : Z) (target_id : EngineObjectId) (target_type : RevocationTargetType)
  | HeadAdvanced (old_seq new_seq : Z)
  | ChainVerified (chain_length : Z)
  | RevocationLookup (target_id : EngineObjectId) (is_revoked : bool)
  | AppendRejected (reason : string).

Record ChainEvent := mkCEvent { ce_type : ChainEventType; ce_zone : string; ce_trace : string }.

(** ** The chain *)

Record RevocationChain := mkChain {
  rc_zone : string;
  rc_events : list RevocationEvent;
  rc_head : option RevocationHead;
  rc_index : gmap (list byte) Z;
  rc_chain_hash : ContentHash;
  rc_audit : list ChainEvent }.

Definition GENESIS_HASH : ContentHash := ContentHash_compute (str_bytes "revocation-chain-genesis").

(** The hash input of a link, and the rolling hash after an event. *)
Definition roll_input (hash : ContentHash) (e : RevocationEvent) : list byte := hash ++ content_hash e.
Definition roll (hash : ContentHash) (e : RevocationEvent) : ContentHash :=
  ContentHash_compute (roll_input hash e).

(** [expect] on the result of [derive_id], whose input is not empty. *)
Definition expect_id (r : result IdError EngineObjectId) : EngineObjectId :=
  match r with Ok id => id | Err _ => [] end.

Module Chain.
Definition new (zone : string) : RevocationChain := mkChain zone [] None ∅ GENESIS_HASH [].

Definition len (c : RevocationChain) : Z := zlen (rc_events c).
Definition is_revoked (c : RevocationChain) (id : EngineObjectId) : bool :=
  bool_decide (is_Some (rc_index c !! id)).

Definition get_event (c : RevocationChain) (seq : Z) : option RevocationEvent :=
  rc_events c !! Z.to_nat seq.

Definition lookup_revocation (c : RevocationChain) (id : EngineObjectId) : option Revocation :=
  seq ← rc_index c !! id; revocation <$> rc_events c !! Z.to_nat seq.

Definition audit (c : RevocationChain) (t : ChainEventType) (trace : string) : RevocationChain :=
  mkChain (rc_zone c) (rc_events c) (rc_head c) (rc_index c) (rc_chain_hash c)
    (rc_audit c ++ [mkCEvent t (rc_zone c) trace]).

Definition emit_reject (c : RevocationChain) (trace : string) (reason : string) : RevocationChain :=
  audit c (AppendRejected reason) trace.

Definition derive_event_id (c : RevocationChain) (r : Revocation) (seq : Z)
    (prev : option EngineObjectId) : EngineObjectId :=
  let canonical := revocation_id r ++ be_bytes 8 seq ++ match prev with Some p => p | None => [] end in
  expect_id (derive_id SignaturePreimage.Revocation (rc_zone c) revocation_event_schema_id canonical).

Definition derive_head_id (c : RevocationChain) (seq : Z) (latest : EngineObjectId) : EngineObjectId :=
  let canonical := be_bytes 8 seq ++ latest ++ rc_chain_hash c in
  expect_id (derive_id SignaturePreimage.Revocation (rc_zone c) revocation_head_schema_id canonical).

(** [append]: the rolling hash of the chain is replaced before the new head is
    signed, as in the source. *)
Definition append (c : RevocationChain) (r : Revocation) (sk : SigningKey) (trace : string) :
    RevocationChain * result ChainError Z :=
  if negb (bool_decide (rv_zone r = rc_zone c)) then
    let detail := "zone mismatch: chain=" +:+ rc_zone c +:+ ", revocation=" +:+ rv_zone r in
    (emit_reject c trace detail, Err (ChainIntegrity detail))
  else if bool_decide (is_Some (rc_index c !! target_id r)) then
    (emit_reject c trace ("duplicate target: " +:+ id_to_hex (target_id r)),
     Err (DuplicateTarget (target_id r)))
  else
    let seq := zlen (rc_events c) in
    let prev := event_id <$> last (rc_events c) in
    let id := derive_event_id c r seq prev in
    let event := mkREvent id r prev seq in
    let c := mkChain (rc_zone c) (rc_events c) (rc_head c) (rc_index c)
               (roll (rc_chain_hash c) event) (rc_audit c) in
    let new_head := mkRHead (derive_head_id c seq id) id seq (rc_chain_hash c) (rc_zone c)
                      (Signature_from_bytes SIGNATURE_SENTINEL) in
    match sign_preimage sk (head_preimage new_head) with
    | Err e => (c, Err (ChainSignatureInvalid (signature_error_string e)))
    | Ok sig =>
        let new_head := mkRHead (head_id new_head) (latest_event new_head) (head_seq new_head)
                          (hd_chain_hash new_head) (hd_zone new_head) sig in
        let c := mkChain (rc_zone c) (rc_events c ++ [event]) (Some new_head)
                   (<[target_id r := seq]> (rc_index c)) (rc_chain_hash c) (rc_audit c) in
        let c := audit c (RevocationAppended seq (target_id r) (target_type r)) trace in
        let c := if 0 <? seq then audit c (HeadAdvanced (seq - 1) seq) trace else c in
        (c, Ok seq)
    end.

Definition verify_append (c : RevocationChain) (e : RevocationEvent) : result ChainError unit :=
  let expected_seq := zlen (rc_events c) in
  if negb (event_seq e =? expected_seq) then Err (SequenceDiscontinuity expected_seq (event_seq e))
  else
    let expected_prev := event_id <$> last (rc_events c) in
    if negb (bool_decide (prev_event e = expected_prev)) then
      Err (HashLinkMismatch (event_seq e) expected_prev (prev_event e))
    else if (event_seq e =? 0) && negb (bool_decide (prev_event e = None)) then
      Err (InvalidGenesis "genesis event must have prev_event = None")
    else Ok tt.

(** The walk of [verify_chain] at index [i], [prev] being the event before. *)
Fixpoint walk (i : Z) (prev : option RevocationEvent) (hash : ContentHash) (l : list RevocationEvent) :
    result ChainError ContentHash :=
  match l with
  | [] => Ok hash
  | e :: l =>
      if negb (event_seq e =? i) then Err (SequenceDiscontinuity i (event_seq e))
      else
        match prev with
        | None =>
            if negb (bool_decide (prev_event e = None)) then Err (HashLinkMismatch 0 None (prev_event e))
            else walk (i + 1) (Some e) (roll hash e) l
        | Some p =>
            if negb (bool_decide (prev_event e = Some (event_id p))) then
              Err (HashLinkMismatch i (Some (event_id p)) (prev_event e))
            else walk (i + 1) (Some e) (roll hash e) l
        end
  end.

Definition verify_chain (c : RevocationChain) : result ChainError unit :=
  match rc_events c with
  | [] =>
      match rc_head c with
      | Some _ => Err (ChainIntegrity "empty chain must not have a head")
      | None => Ok tt
      end
  | genesis :: _ =>
      if negb (event_seq genesis =? 0) then
        Err (InvalidGenesis ("genesis seq must be 0, got " +:+ int_to_string (event_seq genesis)))
      else if negb (bool_decide (prev_event genesis = None)) then
        Err (InvalidGenesis "genesis must have prev_event = None")
      else
        rolling ← walk 0 None GENESIS_HASH (rc_events c);
        match rc_head c with
        | None => Ok tt
        | Some head =>
            if negb (bool_decide (rolling = hd_chain_hash head)) then
              Err (ChainIntegrity "rolling chain hash does not match head")
            else
              let last_seq := sat_sub64 (zlen (rc_events c)) 1 in
              if negb (head_seq head =? last_seq) then
                Err (ChainIntegrity ("head seq " +:+ int_to_string (head_seq head) +:+
                  " does not match last event seq " +:+ int_to_string last_seq))
              else Ok tt
        end
  end.

Definition verify_chain_mut (c : RevocationChain) (trace : string) :
    RevocationChain * result ChainError unit :=
  let result := verify_chain c in
  (if is_ok result then audit c (ChainVerified (zlen (rc_events c))) trace else c, result).

Definition verify_head_signature (c : RevocationChain) (vk : VerificationKey) : result ChainError unit :=
  head ← ok_or EmptyChain (rc_head c);
  map_err (fun e => ChainSignatureInvalid (signature_error_string e))
    (verify_signature vk (head_preimage head) (hd_signature head)).

Definition drain_events (c : RevocationChain) : RevocationChain * list ChainEvent :=
  (mkChain (rc_zone c) (rc_events c) (rc_head c) (rc_index c) (rc_chain_hash c) [], rc_audit c).

Definition event_key (e : ChainEvent) : string :=
  match ce_type e with
  | RevocationAppended _ _ _ => "revocation_appended"
  | HeadAdvanced _ _ => "head_advanced"
  | ChainVerified _ => "chain_verified"
  | RevocationLookup _ _ => "revocation_lookup"
  | AppendRejected _ => "append_rejected"
  end.

Definition event_counts (c : RevocationChain) : gmap string Z :=
  fold_left (fun counts e => <[event_key e := default 0 (counts !! event_key e) + 1]> counts)
    (rc_audit c) ∅.

Definition is_revoked_audited (c : RevocationChain) (id : EngineObjectId) (trace : string) :
    RevocationChain * bool :=
  let result := bool_decide (is_Some (rc_index c !! id)) in
  (audit c (RevocationLookup id result) trace, result).

(** The loop of [rebuild_from_events] at index [i], on the rolling hash and the
    index of the chain under construction. *)
Fixpoint rebuild_walk (i : Z) (prev : option RevocationEvent) (hash : ContentHash)
    (index : gmap (list byte) Z) (l : list RevocationEvent) :
    result ChainError (ContentHash * gmap (list byte) Z) :=
  match l with
  | [] => Ok (hash, index)
  | e :: l =>
      if negb (event_seq e =? i) then Err (SequenceDiscontinuity i (event_seq e))
      else
        _ ← match prev with
            | None =>
                if negb (bool_decide (prev_event e = None)) then
                  Err (InvalidGenesis "genesis must have prev_event = None")
                else Ok tt
            | Some p =>
                if negb (bool_decide (prev_event e = Some (event_id p))) then
                  Err (HashLinkMismatch (event_seq e) (Some (event_id p)) (prev_event e))
                else Ok tt
            end;
        if bool_decide (is_Some (index !! target_id (revocation e))) then
          Err (DuplicateTarget (target_id (revocation e)))
        else
          rebuild_walk (i + 1) (Some e) (roll hash e)
            (<[target_id (revocation e) := event_seq e]> index) l
  end.

Definition rebuild_from_events (zone : string) (events : list RevocationEvent)
    (head : option RevocationHead) : result ChainError RevocationChain :=
  '(hash, index) ← rebuild_walk 0 None GENESIS_HASH ∅ events;
  _ ← match head with
      | None => Ok tt
      | Some h =>
          if bool_decide (events = []) then Err (ChainIntegrity "empty chain must not have a head")
          else
            let last_seq := sat_sub64 (zlen events) 1 in
            if negb (head_seq h =? last_seq) then
              Err (ChainIntegrity ("head seq " +:+ int_to_string (head_seq h) +:+
                " does not match last event seq " +:+ int_to_string last_seq))
            else if negb (bool_decide (hd_chain_hash h = hash)) then
              Err (ChainIntegrity "head chain_hash does not match computed hash")
            else Ok tt
      end;
  Ok (mkChain zone events head index hash []).
End Chain.
