(* ===== verification/RevocationCorrect.v ===== *)
(** * What a revocation chain establishes

    A chain that was only appended to verifies, its index is exact, revocations
    are permanent and the chain is rebuilt from its stored events; two verified
    chains with the same head hash hold the same events, up to a collision of
    the content hash.  The file ends with the failure that breaks a chain. *)
From stdpp Require Import base numbers list strings gmap sorting relations.
From Stdlib Require Import Strings.Byte.
From S2P Require Import Prelude Bytes Text HashTiers DetSerde DetSerdeCorrect.
From S2P Require Import IrContract IrContractCorrect SignaturePreimage.
From S2P Require Import MarkerCorrect EngineObjectId SortedMultisig PolicyCheckpoint.
From S2P Require Import CapabilityToken RevocationChain.
Open Scope string_scope.
Open Scope list_scope.
Open Scope Z_scope.

#[local] Opaque encode_value deterministic_hash ContentHash_compute.

(** ** Linked events *)

Fixpoint linked (i : Z) (prev : option EngineObjectId) (l : list RevocationEvent) : Prop :=
  match l with
  | [] => True
  | e :: l => event_seq e = i /\ prev_event e = prev /\ linked (i + 1) (Some (event_id e)) l
  end.

Definition last_id (prev : option EngineObjectId) (l : list RevocationEvent) : option EngineObjectId :=
  match last l with Some e => Some (event_id e) | None => prev end.

Lemma last_id_cons prev e l : last_id prev (e :: l) = last_id (Some (event_id e)) l.
Proof. unfold last_id. rewrite last_cons. by destruct (last l). Qed.

Lemma linked_snoc i prev l e :
  linked i prev (l ++ [e]) <->
  linked i prev l /\ event_seq e = i + zlen l /\ prev_event e = last_id prev l.
Proof.
  revert i prev. induction l as [|x l IH]; intros i prev; cbn [linked app].
  - unfold last_id, zlen. cbn. rewrite Z.add_0_r. tauto.
  - rewrite IH, last_id_cons. unfold zlen. cbn [length]. rewrite Nat2Z.inj_succ.
    replace (i + Z.succ (Z.of_nat (length l))) with (i + 1 + Z.of_nat (length l)) by lia. tauto.
Qed.

Lemma linked_lookup i prev l k e : linked i prev l -> l !! k = Some e -> event_seq e = i + Z.of_nat k.
Proof.
  revert i prev k. induction l as [|x l IH]; intros i prev k H Hk; [done|]. destruct H as (Hi & _ & H).
  destruct k as [|k]; [cbn in Hk; injection Hk as <-; lia|]. cbn in Hk. rewrite (IH _ _ _ H Hk). lia.
Qed.

Definition rolling (l : list RevocationEvent) : ContentHash := fold_left roll l GENESIS_HASH.

(** Both walks check exactly the links, and compute the rolling hash. *)
Lemma walk_Ok i prev hash l h :
  Chain.walk i prev hash l = Ok h <-> linked i (event_id <$> prev) l /\ h = fold_left roll l hash.
Proof.
  revert i prev hash. induction l as [|e l IH]; intros i prev hash; cbn [Chain.walk linked fold_left].
  { split; [intros [= <-]; done|]. by intros [_ ->]. }
  destruct (Z.eqb_spec (event_seq e) i) as [Hi|Hi]; cbn [negb]; [|split; [done|]; by intros [[? _] _]].
  destruct prev as [p|]; cbn [fmap option_fmap option_map];
    (case_bool_decide as Hp; cbn [negb];
     [rewrite IH; cbn [fmap option_fmap option_map]; tauto|split; [done|]; by intros [(_ & ? & _) _]]).
Qed.

Definition target (e : RevocationEvent) : EngineObjectId := target_id (revocation e).

Definition add_index (m : gmap (list byte) Z) (e : RevocationEvent) : gmap (list byte) Z :=
  <[target e := event_seq e]> m.
Definition index_of (l : list RevocationEvent) : gmap (list byte) Z := fold_left add_index l ∅.

Lemma rebuild_walk_Ok i prev hash index l h m :
  Chain.rebuild_walk i prev hash index l = Ok (h, m) <->
  linked i (event_id <$> prev) l /\ h = fold_left roll l hash /\ m = fold_left add_index l index /\
  NoDup (target <$> l) /\ Forall (fun e => index !! target e = None) l.
Proof.
  revert i prev hash index. induction l as [|e l IH]; intros i prev hash index;
    cbn [Chain.rebuild_walk linked fold_left].
  { split; [intros [= <- <-]; repeat split; constructor|]. by intros (_ & -> & -> & _). }
  destruct (Z.eqb_spec (event_seq e) i) as [Hi|Hi]; cbn [negb]; [|split; [done|]; by intros [[? _] _]].
  rewrite bind_Ok, fmap_cons, NoDup_cons, Forall_cons.
  assert (Hlink : forall r : result ChainError unit,
    r = match prev with
        | None => if negb (bool_decide (prev_event e = None)) then
                    Err (InvalidGenesis "genesis must have prev_event = None") else Ok tt
        | Some p => if negb (bool_decide (prev_event e = Some (event_id p))) then
                      Err (HashLinkMismatch (event_seq e) (Some (event_id p)) (prev_event e)) else Ok tt
        end -> forall a, r = Ok a <-> prev_event e = event_id <$> prev).
  { intros r -> []. destruct prev as [p|]; cbn [fmap option_fmap option_map]; case_bool_decide; cbn [negb]; naive_solver. }
  specialize (Hlink _ eq_refl). fold (target e). split.
  - intros (a & Ha & H). apply Hlink in Ha. case_bool_decide as Hs; [done|].
    apply eq_None_not_Some in Hs. apply IH in H as (Hl & -> & -> & Hn & Hf).
    cbn [fmap option_fmap option_map] in Hl. rewrite Forall_forall in Hf. repeat split; try done.
    + rewrite list_elem_of_fmap. intros (e' & He & Hin). specialize (Hf e' Hin).
      rewrite <- He in Hf. unfold add_index in Hf. by rewrite lookup_insert_eq in Hf.
    + apply Forall_forall. intros e' Hin. specialize (Hf e' Hin). apply lookup_insert_None in Hf as [? _]. done.
  - intros ((_ & Hp & Hl) & -> & -> & [Hne Hn] & [Hs Hf]). exists tt. split; [by apply Hlink|].
    rewrite bool_decide_eq_false_2 by (rewrite Hs; apply is_Some_None). apply IH.
    cbn [fmap option_fmap option_map]. repeat split; try done.
    rewrite Forall_forall in Hf |- *. intros e' Hin. apply lookup_insert_None. split; [by apply Hf|].
    intros He. apply Hne. rewrite He. apply list_elem_of_fmap. eauto.
Qed.

Lemma index_of_snoc l e : index_of (l ++ [e]) = <[target e := event_seq e]> (index_of l).
Proof. unfold index_of. by rewrite fold_left_app. Qed.

(** The index holds the targets of the events, each with its sequence number. *)
Lemma index_of_lookup l id seq :
  NoDup (target <$> l) -> index_of l !! id = Some seq <-> exists e, e ∈ l /\ target e = id /\ event_seq e = seq.
Proof.
  induction l as [|e l IH] using rev_ind; intros Hn.
  - unfold index_of. cbn. rewrite lookup_empty. split; [done|]. set_solver.
  - rewrite index_of_snoc. rewrite fmap_app in Hn. apply NoDup_app in Hn as (Hn & Hd & _). specialize (IH Hn).
    assert (Hfresh : forall e', e' ∈ l -> target e' <> target e).
    { intros e' Hin He. apply (Hd (target e')); [apply list_elem_of_fmap; eauto|]. rewrite He. left. }
    rewrite lookup_insert_Some, IH. split.
    + intros [[<- <-]|[Hne (e' & Hin & H)]]; [exists e|exists e']; set_solver.
    + intros (e' & [Hin| ->%list_elem_of_singleton]%elem_of_app & <- & <-); [right|by left].
      split; [|eauto]. intros He. by apply (Hfresh e' Hin).
Qed.

(** ** The invariant *)

Definition head_ok (c : RevocationChain) (h : RevocationHead) : Prop :=
  head_seq h = zlen (rc_events c) - 1 /\ hd_chain_hash h = rc_chain_hash c /\
  Some (latest_event h) = last_id None (rc_events c) /\ hd_zone h = rc_zone c.

Record chain_inv (c : RevocationChain) : Prop := {
  ci_linked : linked 0 None (rc_events c);
  ci_hash : rc_chain_hash c = rolling (rc_events c);
  ci_nodup : NoDup (target <$> rc_events c);
  ci_index : rc_index c = index_of (rc_events c);
  ci_zone : Forall (fun e => rv_zone (revocation e) = rc_zone c) (rc_events c);
  ci_head : match rc_head c with
            | Some h => rc_events c <> [] /\ head_ok c h
            | None => rc_events c = []
            end }.

Lemma chain_new_inv zone : chain_inv (Chain.new zone).
Proof. by split; try constructor. Qed.

(** Only the audit trail differs. *)
Definition same_chain (c c' : RevocationChain) : Prop :=
  rc_zone c = rc_zone c' /\ rc_events c = rc_events c' /\ rc_head c = rc_head c' /\
  rc_index c = rc_index c' /\ rc_chain_hash c = rc_chain_hash c'.

Lemma same_chain_inv c c' : same_chain c c' -> chain_inv c -> chain_inv c'.
Proof.
  intros (Hz & He & Hh & Hi & Hc) [H1 H2 H3 H4 H5 H6]. unfold head_ok in H6.
  rewrite Hz, He, Hh, Hi, Hc in *. by split.
Qed.

Definition appended_event (c : RevocationChain) (r : Revocation) : RevocationEvent :=
  mkREvent (Chain.derive_event_id c r (zlen (rc_events c)) (event_id <$> last (rc_events c))) r
    (event_id <$> last (rc_events c)) (zlen (rc_events c)).

Lemma append_cases c r sk trace c' res :
  all_zero sk = false -> Chain.append c r sk trace = (c', res) ->
  match res with
  | Ok seq =>
      seq = zlen (rc_events c) /\ rv_zone r = rc_zone c /\ rc_index c !! target_id r = None /\
      rc_zone c' = rc_zone c /\ rc_events c' = rc_events c ++ [appended_event c r] /\
      rc_index c' = <[target_id r := seq]> (rc_index c) /\
      rc_chain_hash c' = roll (rc_chain_hash c) (appended_event c r) /\
      exists h, rc_head c' = Some h /\ head_seq h = seq /\ hd_chain_hash h = rc_chain_hash c' /\
        latest_event h = event_id (appended_event c r) /\ hd_zone h = rc_zone c /\
        (all_zero (verification_key sk) = false ->
         verify_signature (verification_key sk) (head_preimage h) (hd_signature h) = Ok tt)
  | Err (ChainIntegrity _) => rv_zone r <> rc_zone c /\ same_chain c c'
  | Err (DuplicateTarget id) => id = target_id r /\ is_Some (rc_index c !! id) /\ same_chain c c'
  | Err _ => False
  end.
Proof.
  intros Hz H. unfold Chain.append in H. case_bool_decide as Hzone; cbn [negb] in H.
  2: { injection H as <- <-. done. }
  case_bool_decide as Hdup; [injection H as <- <-; done|]. apply eq_None_not_Some in Hdup.
  unfold sign_preimage in H. rewrite Hz in H. injection H as <- <-.
  split; [done|]. split; [done|]. split; [done|].
  split; [by destruct (0 <? _)|]. split; [by destruct (0 <? _)|]. split; [by destruct (0 <? _)|].
  split; [by destruct (0 <? _)|].
  eexists. split; [by destruct (0 <? _)|]. split; [done|]. split; [by destruct (0 <? _)|]. split; [done|]. split; [done|].
  intros Hvk. cbn [hd_signature].
  match goal with |- verify_signature _ ?pre _ = _ => exact (signed_entry_verifies pre sk Hvk) end.
Qed.

Lemma chain_append_inv c r sk trace c' seq :
  all_zero sk = false -> Chain.append c r sk trace = (c', Ok seq) -> chain_inv c -> chain_inv c'.
Proof.
  intros Hz H [H1 H2 H3 H4 H5 H6]. apply append_cases in H as (-> & Hzone & Hdup & Ez & Ee & Ei & Ec & h & Eh & Hs & Hh & Hl & Hhz & _);
    [|done].
  assert (Hlast : event_id <$> last (rc_events c) = last_id None (rc_events c))
    by (unfold last_id; by destruct (last (rc_events c))).
  split; rewrite ?Ez, ?Ee.
  - apply linked_snoc. split; [done|]. cbn. split; [done|exact Hlast].
  - rewrite Ec, H2. unfold rolling. by rewrite fold_left_app.
  - rewrite fmap_app. apply NoDup_app. split; [done|]. split; [|apply NoDup_singleton].
    intros id Hin%list_elem_of_fmap ->%list_elem_of_singleton. destruct Hin as (e & He & Hin).
    rewrite H4 in Hdup. assert (Hs' : index_of (rc_events c) !! target_id r = Some (event_seq e)).
    { apply index_of_lookup; [done|]. exists e. split; [done|]. split; [|done]. by symmetry. }
    congruence.
  - rewrite Ei, H4, index_of_snoc. done.
  - apply Forall_app. split; [done|]. by apply Forall_singleton.
  - rewrite Eh. split; [by destruct (rc_events c)|]. unfold head_ok. rewrite Ee, Ez, Hs, Hl, Hhz, Hh.
    split; [unfold zlen; rewrite length_app; cbn [length]; lia|]. split; [done|].
    split; [|done]. unfold last_id. by rewrite last_snoc.
Qed.

(** ** Operations *)

(** One call on a chain, with a usable head key. *)
Inductive chain_step : RevocationChain -> RevocationChain -> Prop :=
  | step_append c r sk trace c' res :
      all_zero sk = false -> Chain.append c r sk trace = (c', res) -> chain_step c c'
  | step_verify c trace : chain_step c (Chain.verify_chain_mut c trace).1
  | step_lookup c id trace : chain_step c (Chain.is_revoked_audited c id trace).1
  | step_drain c : chain_step c (Chain.drain_events c).1.

Lemma chain_step_inv c c' :
  chain_step c c' -> chain_inv c -> chain_inv c' /\ rc_zone c' = rc_zone c /\ rc_events c `prefix_of` rc_events c'.
Proof.
  intros H Hc. destruct H as [c r sk trace c' res Hz H|c trace|c id trace|c].
  - pose proof (append_cases _ _ _ _ _ _ Hz H) as Hcase. destruct res as [seq|e].
    + destruct Hcase as (_ & _ & _ & Ez & Ee & _). split; [by eapply chain_append_inv|]. split; [done|].
      rewrite Ee. by apply prefix_app_r.
    + assert (Hsame : same_chain c c') by (destruct e; tauto). split; [by eapply same_chain_inv|].
      destruct Hsame as (-> & -> & _). done.
  - unfold Chain.verify_chain_mut. cbn [fst]. destruct (is_ok _); [|done].
    split; [|done]. eapply same_chain_inv; [|exact Hc]. done.
  - split; [|done]. eapply same_chain_inv; [|exact Hc]. done.
  - split; [|done]. eapply same_chain_inv; [|exact Hc]. done.
Qed.

Lemma chain_run_inv c c' :
  rtc chain_step c c' -> chain_inv c ->
  chain_inv c' /\ rc_zone c' = rc_zone c /\ rc_events c `prefix_of` rc_events c'.
Proof.
  induction 1 as [c|c d c' Hs Hr IH]; intros Hc; [done|].
  destruct (chain_step_inv _ _ Hs Hc) as (Hd & Hz & Hp). destruct (IH Hd) as (Hc' & Hz' & Hp').
  split; [done|]. split; [congruence|by etrans].
Qed.

(** ** What the invariant gives *)

Lemma inv_verifies c : chain_inv c -> Chain.verify_chain c = Ok tt.
Proof.
  intros [Hl Hh _ _ _ Hd]. unfold Chain.verify_chain. destruct (rc_events c) as [|g l] eqn:He.
  - destruct (rc_head c); [by destruct Hd|done].
  - destruct Hl as (Hg & Hp & Hl). replace (event_seq g =? 0) with true by lia.
    rewrite bool_decide_eq_true_2 by done. cbn [negb]. apply bind_Ok. exists (rolling (g :: l)).
    split; [apply walk_Ok; split; [|done]; cbn; done|].
    destruct (rc_head c) as [h|]; [|done]. destruct Hd as (_ & Hs & Hc & _). rewrite He in Hs.
    rewrite bool_decide_eq_true_2 by congruence. cbn [negb].
    replace (head_seq h =? _) with true; [done|]. symmetry. apply Z.eqb_eq. rewrite Hs.
    unfold zlen, sat_sub64. cbn [length]. lia.
Qed.

Lemma inv_revoked c id :
  chain_inv c -> Chain.is_revoked c id = true <-> exists e, e ∈ rc_events c /\ target e = id.
Proof.
  intros Hc. unfold Chain.is_revoked. rewrite bool_decide_eq_true, (ci_index c Hc). split.
  - intros [seq Hs]. apply index_of_lookup in Hs as (e & Hin & He & _); [eauto|apply Hc].
  - intros (e & Hin & He). exists (event_seq e). apply index_of_lookup; [apply Hc|eauto].
Qed.

Lemma inv_lookup c e :
  chain_inv c -> e ∈ rc_events c -> Chain.lookup_revocation c (target e) = Some (revocation e).
Proof.
  intros Hc Hin. unfold Chain.lookup_revocation. rewrite (ci_index c Hc).
  assert (Hl : index_of (rc_events c) !! target e = Some (event_seq e)).
  { apply index_of_lookup; [apply Hc|eauto]. }
  rewrite Hl. cbn [mbind option_bind]. apply list_elem_of_lookup in Hin as [k Hk].
  rewrite (linked_lookup _ _ _ _ _ (ci_linked c Hc) Hk), Z.add_0_l, Nat2Z.id, Hk. done.
Qed.

Lemma inv_rebuild c :
  chain_inv c -> Chain.rebuild_from_events (rc_zone c) (rc_events c) (rc_head c) = Ok (Chain.drain_events c).1.
Proof.
  intros [Hl Hh Hn Hi _ Hd]. unfold Chain.rebuild_from_events. apply bind_Ok.
  exists (rc_chain_hash c, rc_index c). split.
  { apply rebuild_walk_Ok. repeat split; try done. apply Forall_true. intros e. apply lookup_empty. }
  apply bind_Ok. exists tt. split; [|done]. destruct (rc_head c) as [h|]; [|done].
  destruct Hd as (Hne & Hs & Hc & _). rewrite bool_decide_eq_false_2 by done.
  replace (head_seq h =? _) with true.
  2: { symmetry. apply Z.eqb_eq. rewrite Hs. unfold sat_sub64. destruct (rc_events c); [done|]. unfold zlen. cbn [length]. lia. }
  cbn [negb]. by rewrite bool_decide_eq_true_2.
Qed.

Lemma inv_lookup_inv c id r :
  chain_inv c -> Chain.lookup_revocation c id = Some r ->
  exists e, e ∈ rc_events c /\ target e = id /\ revocation e = r.
Proof.
  intros Hc H. unfold Chain.lookup_revocation in H. rewrite (ci_index c Hc) in H.
  destruct (index_of (rc_events c) !! id) as [seq|] eqn:Hs; [|done].
  apply index_of_lookup in Hs as (e & Hin & <- & <-); [|apply Hc]. exists e. split; [done|]. split; [done|].
  apply list_elem_of_lookup in Hin as [k Hk]. cbn [mbind option_bind] in H.
  rewrite (linked_lookup _ _ _ _ _ (ci_linked c Hc) Hk), Z.add_0_l, Nat2Z.id, Hk in H. by injection H.
Qed.

Lemma append_succeeds c r sk trace :
  all_zero sk = false ->
  is_ok (Chain.append c r sk trace).2 = true <->
  rv_zone r = rc_zone c /\ Chain.is_revoked c (target_id r) = false.
Proof.
  intros Hz. destruct (Chain.append c r sk trace) as [c' res] eqn:H. apply append_cases in H; [|done].
  unfold Chain.is_revoked. rewrite bool_decide_eq_false, <- eq_None_not_Some. cbn [snd].
  destruct res as [seq|e]; cbn [is_ok].
  - destruct H as (_ & ? & ? & _). tauto.
  - split; [done|]. intros [Hzone Hn]. destruct e; try done.
    + by destruct H.
    + destruct H as (-> & Hs & _). rewrite Hn in Hs. by destruct Hs.
Qed.

(** C18. Revocations are recorded exactly and for good. For every chain that results from
    appends with a usable head key (refused ones included), audited lookups, verifications
    and drained events: the chain verifies, a target is revoked exactly when an event
    names it and lookup returns that event's revocation, an append succeeds exactly when
    the zone matches and the target is not revoked yet, and all later states keep the
    events as a prefix and every lookup. *)
Theorem revocation_chain_sound (zone : string) (c : RevocationChain) :
  rtc chain_step (Chain.new zone) c ->
  Chain.verify_chain c = Ok tt /\
  (forall id, Chain.is_revoked c id = true <-> exists e, e ∈ rc_events c /\ target e = id) /\
  (forall e, e ∈ rc_events c -> Chain.lookup_revocation c (target e) = Some (revocation e)) /\
  (forall r sk trace, all_zero sk = false ->
     is_ok (Chain.append c r sk trace).2 = true <->
     rv_zone r = zone /\ Chain.is_revoked c (target_id r) = false) /\
  (forall c', rtc chain_step c c' ->
     rc_events c `prefix_of` rc_events c' /\
     forall id r, Chain.lookup_revocation c id = Some r -> Chain.lookup_revocation c' id = Some r).
Proof.
  intros H. destruct (chain_run_inv _ _ H (chain_new_inv zone)) as (Hc & Hz & _). cbn in Hz.
  split; [by apply inv_verifies|]. split; [intros id; by apply inv_revoked|].
  split; [intros e; by apply inv_lookup|]. split; [intros r sk trace; rewrite <- Hz; apply append_succeeds|].
  intros c' Hr. destruct (chain_run_inv _ _ Hr Hc) as (Hc' & _ & Hp). split; [done|].
  intros id r (e & Hin & <- & <-)%inv_lookup_inv; [|done]. apply inv_lookup; [done|].
  destruct Hp as [l ->]. apply elem_of_app. by left.
Qed.

(** Storing and loading a revocation chain returns it. Rebuilding from the events and
    the head of a chain that was only appended to yields the chain itself, with index,
    rolling hash and head, and an empty audit trail; and whatever events and head are
    accepted by the reconstruction, the result holds them, has no target twice and
    verifies. *)
Theorem revocation_rebuild_roundtrip (zone : string) (c : RevocationChain) :
  rtc chain_step (Chain.new zone) c ->
  Chain.rebuild_from_events zone (rc_events c) (rc_head c) = Ok (Chain.drain_events c).1 /\
  (forall events head c', Chain.rebuild_from_events zone events head = Ok c' ->
     rc_events c' = events /\ rc_head c' = head /\ rc_chain_hash c' = rolling events /\
     NoDup (target <$> events) /\ Chain.verify_chain c' = Ok tt).
Proof.
  intros H. destruct (chain_run_inv _ _ H (chain_new_inv zone)) as (Hc & Hz & _). cbn in Hz.
  split; [rewrite <- Hz; by apply inv_rebuild|]. clear. intros events head c' H.
  unfold Chain.rebuild_from_events in H. apply bind_Ok in H as ([hash index] & Hw & H).
  apply bind_Ok in H as ([] & Hh & H). injection H as <-.
  apply rebuild_walk_Ok in Hw as (Hl & -> & -> & Hn & _). repeat split; [done|]. cbn in *.
  unfold Chain.verify_chain. cbn [rc_events rc_head]. destruct events as [|g l].
  - destruct head; [|done]. by rewrite bool_decide_eq_true_2 in Hh.
  - destruct Hl as (Hg & Hp & Hl). replace (event_seq g =? 0) with true by lia.
    rewrite bool_decide_eq_true_2 by done. cbn [negb]. apply bind_Ok. exists (rolling (g :: l)).
    split; [apply walk_Ok; split; [|done]; cbn; done|]. destruct head as [h|]; [|done].
    rewrite bool_decide_eq_false_2 in Hh by done. destruct (head_seq h =? _); [|done]. cbn [negb] in Hh |- *.
    case_bool_decide as Hc; [|done]. by rewrite bool_decide_eq_true_2.
Qed.

(** ** Tamper evidence *)

Definition all_targets : list RevocationTargetType := [TgKey; TgToken; TgAttestation; TgExtension; TgCheckpoint].
Definition all_reasons : list RevocationReason :=
  [Compromised; RsExpired; Superseded; PolicyViolation; Administrative].

Definition read_event (v : CanonicalValue) : option RevocationEvent :=
  id ← get "event_id" v ≫= as_bytes;
  seq ← get_u64 "event_seq" v;
  prev ← get "prev_event" v ≫= as_option as_bytes;
  rid ← get "revocation_id" v ≫= as_bytes;
  tt ← get_str "target_type" v ≫= of_name target_type_string all_targets;
  tid ← get "target_id" v ≫= as_bytes;
  rs ← get_str "reason" v ≫= of_name reason_string all_reasons;
  by_ ← get "issued_by" v ≫= as_bytes;
  at_ ← get_u64 "issued_at" v;
  z ← get_str "zone" v;
  sig ← get "signature" v ≫= as_bytes;
  Some (mkREvent id (mkRevocation rid tt tid rs by_ at_ z (Signature_from_bytes sig)) prev seq).

(** The fields fit their machine types. *)
Record event_fits (e : RevocationEvent) : Prop := {
  ef_ids : hash_wf (event_id e) /\ hash_wf (revocation_id (revocation e)) /\
           hash_wf (target_id (revocation e)) /\ hash_wf (issued_by (revocation e));
  ef_prev : opt_all hash_wf (prev_event e);
  ef_nums : is_u64 (event_seq e) /\ is_u64 (issued_at (revocation e));
  ef_zone : str_ok (rv_zone (revocation e));
  ef_sig : signature_wf (rv_signature (revocation e));
  ef_len : zlen (canonical_bytes e) <= usize_max }.

Lemma read_event_value e : signature_wf (rv_signature (revocation e)) -> read_event (event_value e) = Some e.
Proof.
  intros Hs. pose proof (signature_from_to _ Hs) as Hr. destruct e as [id [rid t tid rs b a z s] prev seq].
  cbn in Hr. unfold read_event.
  change (get "signature" (event_value _)) with (Some (VBytes (Signature_to_bytes s))).
  change (get "prev_event" (event_value _)) with (Some match prev with Some id => VBytes id | None => VNull end).
  transitivity (Some (mkREvent id (mkRevocation rid t tid rs b a z
    (Signature_from_bytes (Signature_to_bytes s))) prev seq)); [|by rewrite Hr].
  by destruct t, rs, prev.
Qed.

Lemma event_value_ok e : event_fits e -> val_ok 2 (event_value e).
Proof.
  intros [(? & ? & ? & ?) Hp [? ?] ? Hs _]. unfold event_value. map_ok.
  - destruct (prev_event e); auto with val_ok.
  - destruct (target_type (revocation e)); cbn [target_type_string]; auto with val_ok.
  - destruct (rv_reason (revocation e)); cbn [reason_string]; auto with val_ok.
  - apply bytes_ok_val. pose proof (signature_to_bytes_length _ Hs) as Hl. unfold Signature_to_bytes in Hl.
    unfold zlen. rewrite Hl. vm_compute. discriminate.
Qed.

Lemma event_bytes_inj e1 e2 :
  event_fits e1 -> event_fits e2 -> canonical_bytes e1 = canonical_bytes e2 -> e1 = e2.
Proof.
  intros F1 F2 He. apply (encode_injective 2) in He;
    [|by apply event_value_ok..|unfold depth_levels; lia|apply F1].
  pose proof (read_event_value e1 (ef_sig _ F1)) as Hr. rewrite He, read_event_value in Hr by apply F2. congruence.
Qed.

(** What is hashed to compute the rolling hash. *)
Definition GENESIS_INPUT : list byte := str_bytes "revocation-chain-genesis".

Fixpoint hashed (hash : ContentHash) (l : list RevocationEvent) : list (list byte) :=
  match l with
  | [] => []
  | e :: l => canonical_bytes e :: roll_input hash e :: hashed (roll hash e) l
  end.

(** Two different inputs with one hash, among those of the two chains. *)
Definition chain_collision (l1 l2 : list RevocationEvent) : Prop :=
  exists x y, x ∈ GENESIS_INPUT :: hashed GENESIS_HASH l1 /\ y ∈ GENESIS_INPUT :: hashed GENESIS_HASH l2 /\
    x <> y /\ ContentHash_compute x = ContentHash_compute y.

Lemma hashed_snoc hash l e :
  hashed hash (l ++ [e]) = hashed hash l ++ [canonical_bytes e; roll_input (fold_left roll l hash) e].
Proof. revert hash. induction l as [|x l IH]; intros hash; [done|]. cbn [hashed app fold_left]. by rewrite IH. Qed.

Lemma chain_collision_mono l1 l2 e1 e2 :
  chain_collision l1 l2 -> chain_collision (l1 ++ [e1]) (l2 ++ [e2]).
Proof.
  intros (x & y & Hx & Hy & H). exists x, y. rewrite !hashed_snoc.
  split; [|split; [|done]]; (apply elem_of_cons in Hx as [Hx|Hx], Hy as [Hy|Hy]);
    apply elem_of_cons; (by left) || (right; apply elem_of_app; by left).
Qed.

Lemma chain_collision_sym l1 l2 : chain_collision l1 l2 -> chain_collision l2 l1.
Proof. intros (x & y & Hx & Hy & Hne & H). exists y, x. split; [done|]. split; [done|]. split; [congruence|done]. Qed.

Lemma genesis_vs_roll l e : rolling (l ++ [e]) = GENESIS_HASH -> chain_collision (l ++ [e]) [].
Proof.
  intros H. unfold rolling in H. rewrite fold_left_app in H. cbn [fold_left] in H.
  exists (roll_input (fold_left roll l GENESIS_HASH) e), GENESIS_INPUT. rewrite hashed_snoc.
  split; [right; apply elem_of_app; right; right; left|]. split; [left|]. split; [|exact H]. intros He. apply (f_equal length) in He. unfold roll_input in He.
  assert (Hg : length GENESIS_INPUT = 24%nat) by reflexivity. rewrite length_app, Hg in He.
  pose proof (ContentHash_wf (canonical_bytes e)) as Hw. unfold hash_wf, content_hash in *. lia.
Qed.

Lemma rolling_wf l : hash_wf (rolling l).
Proof.
  unfold rolling. destruct l as [|e l _] using rev_ind; [apply ContentHash_wf|].
  rewrite fold_left_app. apply ContentHash_wf.
Qed.

(** The rolling hash determines the events. *)
Lemma rolling_determines l1 l2 :
  Forall event_fits l1 -> Forall event_fits l2 -> rolling l1 = rolling l2 ->
  l1 = l2 \/ chain_collision l1 l2.
Proof.
  revert l2. induction l1 as [|e1 l1 IH] using rev_ind; intros l2 F1 F2 Hr.
  - destruct l2 as [|e2 l2 _] using rev_ind; [by left|]. right. apply chain_collision_sym, genesis_vs_roll. by symmetry.
  - destruct l2 as [|e2 l2 _] using rev_ind; [right; by apply genesis_vs_roll|].
    apply Forall_app in F1 as [F1 E1]. apply Forall_app in F2 as [F2 E2].
    rewrite Forall_singleton in E1, E2.
    pose proof (rolling_wf l1) as W1. pose proof (rolling_wf l2) as W2.
    unfold rolling in Hr, W1, W2. rewrite !fold_left_app in Hr. cbn [fold_left] in Hr. unfold roll at 1 3 in Hr.
    destruct (decide (roll_input (fold_left roll l1 GENESIS_HASH) e1 =
                      roll_input (fold_left roll l2 GENESIS_HASH) e2)) as [Hi|Hi].
    2: { right. eexists _, _. rewrite !hashed_snoc. split; [|split; [|split; [exact Hi|exact Hr]]];
           right; apply elem_of_app; right; right; left. }
    unfold roll_input in Hi. apply hash_front in Hi as [Hroll Hc]; [|done..]. unfold content_hash in Hc.
    destruct (decide (canonical_bytes e1 = canonical_bytes e2)) as [He|He].
    2: { right. eexists _, _. rewrite !hashed_snoc. split; [|split; [|split; [exact He|exact Hc]]];
           right; apply elem_of_app; right; left. }
    rewrite (event_bytes_inj e1 e2 E1 E2 He).
    destruct (IH l2 F1 F2 Hroll) as [->|Hcol]; [by left|]. right. by apply chain_collision_mono.
Qed.

Lemma verified_head_hash c h :
  Chain.verify_chain c = Ok tt -> rc_head c = Some h ->
  hd_chain_hash h = rolling (rc_events c) /\ head_seq h = zlen (rc_events c) - 1.
Proof.
  unfold Chain.verify_chain. intros H Hh. rewrite Hh in H. destruct (rc_events c) as [|g l]; [done|].
  destruct (event_seq g =? 0); [|done]. cbn [negb] in H. case_bool_decide; [|done]. cbn [negb] in H.
  apply bind_Ok in H as (r & [_ ->]%walk_Ok & H). case_bool_decide as Hr; [|done]. cbn [negb] in H.
  destruct (Z.eqb_spec (head_seq h) (sat_sub64 (zlen (g :: l)) 1)) as [Hs|]; [|done].
  split; [done|]. rewrite Hs. unfold sat_sub64, zlen. cbn [length]. lia.
Qed.

(** The head of a revocation chain determines its history. Two chains that pass
    verify_chain and whose heads carry the same chain hash hold the same events, in number
    and in every field, or two inputs hashed on the way to that hash collide. The fields
    of the events fit their machine types. *)
Theorem revocation_chain_tamper_evident (c1 c2 : RevocationChain) (h1 h2 : RevocationHead) :
  Chain.verify_chain c1 = Ok tt -> Chain.verify_chain c2 = Ok tt ->
  rc_head c1 = Some h1 -> rc_head c2 = Some h2 ->
  Forall event_fits (rc_events c1) -> Forall event_fits (rc_events c2) ->
  hd_chain_hash h1 = hd_chain_hash h2 ->
  (rc_events c1 = rc_events c2 /\ head_seq h1 = head_seq h2) \/
  chain_collision (rc_events c1) (rc_events c2).
Proof.
  intros V1 V2 H1 H2 F1 F2 He. destruct (verified_head_hash _ _ V1 H1) as [R1 S1].
  destruct (verified_head_hash _ _ V2 H2) as [R2 S2].
  destruct (rolling_determines _ _ F1 F2) as [Hl|Hc]; [congruence| |by right].
  left. split; [done|]. rewrite S1, S2. by rewrite Hl.
Qed.

(** ** Examples *)

#[local] Transparent encode_value deterministic_hash ContentHash_compute.

Definition revoke_n (b : byte) : Revocation :=
  mkRevocation (replicate 32 b) TgToken (replicate 32 b) Compromised (replicate 32 x05) 7 "za"
    (mkSignature (replicate 32 x01) (replicate 32 x02)).

Definition ch0 : RevocationChain := Chain.new "za".
Definition ch1 : RevocationChain := Eval vm_compute in (Chain.append ch0 (revoke_n x11) (sk_n x01) "t").1.
Definition ch2 : RevocationChain := Eval vm_compute in (Chain.append ch1 (revoke_n x12) (sk_n x01) "t").1.

Lemma sample_chain_run : rtc chain_step ch0 ch2.
Proof.
  eapply rtc_l; [apply (step_append ch0 (revoke_n x11) (sk_n x01) "t" ch1 (Ok 0)); vm_compute; reflexivity|].
  eapply rtc_l; [apply (step_append ch1 (revoke_n x12) (sk_n x01) "t" ch2 (Ok 1)); vm_compute; reflexivity|].
  apply rtc_refl.
Qed.

Lemma revocation_chain_sound_witness :
  Chain.verify_chain ch2 = Ok tt /\ Chain.is_revoked ch2 (replicate 32 x11) = true /\
  is_ok (Chain.append ch2 (revoke_n x11) (sk_n x01) "t").2 = false.
Proof.
  destruct (revocation_chain_sound "za" ch2 sample_chain_run) as (Hv & _ & _ & Ha & _).
  assert (Hr : Chain.is_revoked ch2 (replicate 32 x11) = true) by (vm_compute; reflexivity).
  split; [exact Hv|]. split; [exact Hr|].
  destruct (is_ok (Chain.append ch2 (revoke_n x11) (sk_n x01) "t").2) eqn:He; [|reflexivity].
  apply (proj1 (Ha (revoke_n x11) (sk_n x01) "t" eq_refl)) in He. destruct He as [_ He].
  change (target_id (revoke_n x11)) with (replicate 32 x11) in He. congruence.
Defined.

Lemma revocation_rebuild_roundtrip_witness :
  Chain.rebuild_from_events "za" (rc_events ch2) (rc_head ch2) = Ok (Chain.drain_events ch2).1.
Proof. exact (proj1 (revocation_rebuild_roundtrip "za" ch2 sample_chain_run)). Defined.

(** A signing failure leaves the rolling hash of the rejected event behind: the
    next revocation is accepted, and the chain no longer verifies. *)
Definition ch_failed : RevocationChain := Eval vm_compute in (Chain.append ch1 (revoke_n x12) (sk_n x00) "t").1.
Definition ch_broken : RevocationChain := Eval vm_compute in (Chain.append ch_failed (revoke_n x12) (sk_n x01) "t").1.

Lemma failed_append_breaks_chain :
  is_ok (Chain.append ch1 (revoke_n x12) (sk_n x00) "t").2 = false /\
  rc_events ch_failed = rc_events ch1 /\
  (Chain.append ch_failed (revoke_n x12) (sk_n x01) "t").2 = Ok 1 /\
  Chain.verify_chain ch_broken = Err (ChainIntegrity "rolling chain hash does not match head").
Proof. vm_compute. auto. Qed.

(** The second event with its reason altered, under the same head. *)
Definition altered_event (e : RevocationEvent) : RevocationEvent :=
  let r := revocation e in
  mkREvent (event_id e)
    (mkRevocation (revocation_id r) (target_type r) (target_id r) Superseded (issued_by r) (issued_at r)
       (rv_zone r) (rv_signature r)) (prev_event e) (event_seq e).

Definition altered : RevocationChain :=
  Eval vm_compute in mkChain "za" (alter altered_event 1%nat (rc_events ch2)) (rc_head ch2) (rc_index ch2) (rc_chain_hash ch2) [].

(** An input with its hash, each computed once. *)
Definition with_hash (l : list RevocationEvent) : list (list byte * ContentHash) :=
  (fun x => (x, ContentHash_compute x)) <$> GENESIS_INPUT :: hashed GENESIS_HASH l.

Definition no_collisionb (l1 l2 : list RevocationEvent) : bool :=
  let h1 := with_hash l1 in
  let h2 := with_hash l2 in
  forallb (fun x => forallb (fun y => bool_decide (x.1 = y.1) || negb (bool_decide (x.2 = y.2))) h2) h1.

#[local] Opaque ContentHash_compute.

Lemma no_collisionb_sound l1 l2 : no_collisionb l1 l2 = true -> ~ chain_collision l1 l2.
Proof.
  unfold no_collisionb. cbv zeta. rewrite forallb_forall. intros H (x & y & Hx & Hy & Hne & Hh).
  specialize (H (x, ContentHash_compute x)). rewrite forallb_forall in H.
  specialize (H ltac:(apply list_elem_of_In, list_elem_of_fmap; eauto) (y, ContentHash_compute y)
    ltac:(apply list_elem_of_In, list_elem_of_fmap; eauto)).
  cbn [fst snd] in H. rewrite (bool_decide_eq_false_2 _ Hne), (bool_decide_eq_true_2 _ Hh) in H. discriminate H.
Qed.

#[local] Transparent ContentHash_compute.

Definition event_fitsb (e : RevocationEvent) : bool :=
  let r := revocation e in
  let h (l : list byte) := (length l =? 32)%nat in
  let u z := (0 <=? z) && (z <=? u64_max) in
  h (event_id e) && h (revocation_id r) && h (target_id r) && h (issued_by r) &&
  match prev_event e with Some p => h p | None => true end && u (event_seq e) && u (issued_at r) &&
  str_okb (rv_zone r) && h (lower (rv_signature r)) && h (upper (rv_signature r)) &&
  (zlen (canonical_bytes e) <=? usize_max).

Lemma event_fitsb_sound e : event_fitsb e = true -> event_fits e.
Proof.
  unfold event_fitsb. rewrite !andb_true_iff, !Nat.eqb_eq, !Z.leb_le.
  intros ((((((((((H1 & H2) & H3) & H4) & H5) & H6) & H7) & H8) & H9) & H10) & H11).
  split; [done| |done|by apply str_okb_ok|done|done].
  destruct (prev_event e); [|done]. by apply Nat.eqb_eq in H5.
Qed.

Lemma events_fit l : forallb event_fitsb l = true -> Forall event_fits l.
Proof.
  rewrite forallb_forall. intros H. apply Forall_forall. intros e He%list_elem_of_In.
  by apply event_fitsb_sound, H.
Qed.

Lemma sample_heads : exists h, rc_head ch2 = Some h /\ rc_head altered = Some h.
Proof. eexists. split; vm_compute; reflexivity. Qed.

Lemma altered_no_collision : ~ chain_collision (rc_events ch2) (rc_events altered).
Proof. apply no_collisionb_sound. vm_compute. reflexivity. Qed.

Lemma altered_differs : rc_events ch2 <> rc_events altered.
Proof.
  intros H. apply (f_equal (fun l => (fun e => reason_string (rv_reason (revocation e))) <$> (l !! 1%nat))) in H.
  revert H. vm_compute. discriminate.
Qed.

Lemma revocation_chain_tamper_evident_witness : Chain.verify_chain altered <> Ok tt.
Proof.
  intros Hv. destruct sample_heads as (h & H1 & H2).
  assert (Hc : Chain.verify_chain ch2 = Ok tt) by (vm_compute; reflexivity).
  destruct (revocation_chain_tamper_evident ch2 altered h h Hc Hv H1 H2) as [[He _]|He].
  - apply events_fit. vm_compute. reflexivity.
  - apply events_fit. vm_compute. reflexivity.
  - reflexivity.
  - exact (altered_differs He).
  - exact (altered_no_collision He).
Defined.
