(* ===== verification/ClosureModel.v ===== *)
(** * Lexical scopes and closures (crates/franken-engine/src/closure_model.rs)

    Environment records, the scope chain with its declarations, reads and
    writes, closure captures and the closure store; labels are those of
    ifc_artifacts.rs and scope identifiers those of ir_contract.rs.
    ClosureCorrect.v holds the proofs.

    The chain is a stack and grows at the head of a list.  No operation changes
    a chain before it fails, so a fallible operation returns the new chain or an
    error. *)
From stdpp Require Import base numbers list strings gmap.
From S2P Require Import Prelude Bytes FlowLattice.
Open Scope string_scope.
Open Scope list_scope.
Open Scope Z_scope.

(** ** Labels *)

(** [Ord for Label]: by level, named labels before custom ones, custom ones by
    name. *)
Definition label_cmp (a b : Label) : comparison :=
  match Z.compare (Label_level a) (Label_level b) with
  | Eq =>
      match a, b with
      | LCustom n _, LCustom m _ => String.compare n m
      | LCustom _ _, _ => Gt
      | _, LCustom _ _ => Lt
      | _, _ => Eq
      end
  | c => c
  end.

Definition label_gtb (a b : Label) : bool := match label_cmp a b with Gt => true | _ => false end.

(** [iter().max()]: of equal labels the last. *)
Definition label_max (l : list Label) : option Label :=
  match l with
  | [] => None
  | x :: l => Some (fold_left (fun m y => if label_gtb m y then m else y) l x)
  end.

(** ** Scopes and bindings *)

Record ScopeId := mkScopeId { depth : Z; index : Z }.

Inductive ScopeKind := SkGlobal | SkModule | SkFunction | SkBlock | SkCatch.
Inductive BindingKind := BkLet | BkConst | BkVar | BkParameter | BkImport | BkFunctionDecl.

#[export] Instance ScopeKind_eq_dec : EqDecision ScopeKind.
Proof. solve_decision. Defined.
#[export] Instance BindingKind_eq_dec : EqDecision BindingKind.
Proof. solve_decision. Defined.

Inductive EnvValue :=
  | Undefined
  | Null
  | EBool (b : bool)
  | Number (n : Z)
  | EStr (s : string)
  | ObjectRef (id : Z)
  | ClosureRef (handle : Z)
  | Tdz.

#[export] Instance EnvValue_eq_dec : EqDecision EnvValue.
Proof. solve_decision. Defined.

Record BindingSlot := mkSlot {
  sl_name : string;
  binding_id : Z;
  sl_kind : BindingKind;
  sl_value : EnvValue;
  initialized : bool;
  mutable : bool;
  sl_label : Label }.

Definition new_lexical (name : string) (id : Z) (kind : BindingKind) : BindingSlot :=
  mkSlot name id kind Tdz false (negb (bool_decide (kind = BkConst))) LPublic.
Definition new_hoisted (name : string) (id : Z) (kind : BindingKind) : BindingSlot :=
  mkSlot name id kind Undefined true true LPublic.
Definition new_parameter (name : string) (id : Z) (value : EnvValue) (label : Label) : BindingSlot :=
  mkSlot name id BkParameter value true true label.

Inductive EnvironmentKind := EkDeclarative | EkObject | EkGlobal | EkModule | EkFunction.

Record EnvironmentRecord := mkEnv {
  handle : Z;
  scope_id : ScopeId;
  scope_kind : ScopeKind;
  env_kind : EnvironmentKind;
  bindings : gmap string BindingSlot;
  this_binding : option EnvValue;
  arguments_handle : option Z;
  max_label : Label }.

Module Env.
Definition new (h : Z) (sid : ScopeId) (sk : ScopeKind) (ek : EnvironmentKind) : EnvironmentRecord :=
  mkEnv h sid sk ek ∅ None None LPublic.

(** The update of the bindings and of the maximal label that several
    operations share. *)
Definition with_bindings (e : EnvironmentRecord) (b : gmap string BindingSlot) (l : Label) :
    EnvironmentRecord :=
  mkEnv (handle e) (scope_id e) (scope_kind e) (env_kind e) b (this_binding e) (arguments_handle e)
    (if label_gtb l (max_label e) then l else max_label e).

Definition add_binding (e : EnvironmentRecord) (s : BindingSlot) : EnvironmentRecord :=
  with_bindings e (<[sl_name s := s]> (bindings e)) (sl_label s).

Definition get_binding (e : EnvironmentRecord) (name : string) : option BindingSlot := bindings e !! name.

Definition contains (e : EnvironmentRecord) (name : string) : bool :=
  bool_decide (is_Some (bindings e !! name)).

Definition is_var_scope (e : EnvironmentRecord) : bool :=
  match scope_kind e with SkFunction | SkGlobal | SkModule => true | _ => false end.
End Env.

Inductive ScopeError :=
  | TemporalDeadZone (name : string)
  | ConstAssignment (name : string)
  | UndeclaredVariable (name : string)
  | EmptyScopeChain
  | LabelViolation (name : string) (value_label scope_max : Label)
  | DuplicateBinding (name : string)
  | InvalidEnvironment (handle : Z).

(** ** The scope chain *)

Record ScopeChain := mkScopes {
  environments : list EnvironmentRecord;
  chain : list Z;
  next_handle : Z }.

Module Scopes.
Definition new : ScopeChain :=
  mkScopes [Env.new 0 (mkScopeId 0 0) SkGlobal EkGlobal] [0] 1.

Definition env_kind_of (k : ScopeKind) : EnvironmentKind :=
  match k with
  | SkGlobal => EkGlobal
  | SkModule => EkModule
  | SkFunction => EkFunction
  | SkBlock | SkCatch => EkDeclarative
  end.

Definition push_scope (c : ScopeChain) (sid : ScopeId) (k : ScopeKind) : ScopeChain * Z :=
  let h := next_handle c in
  (mkScopes (environments c ++ [Env.new h sid k (env_kind_of k)]) (h :: chain c)
     (Z.min (h + 1) u32_max), h).

Definition pop_scope (c : ScopeChain) : result ScopeError (ScopeChain * Z) :=
  match chain c with
  | h :: ((_ :: _) as outer) => Ok (mkScopes (environments c) outer (next_handle c), h)
  | _ => Err EmptyScopeChain
  end.

Definition current_handle (c : ScopeChain) : result ScopeError Z :=
  ok_or EmptyScopeChain (head (chain c)).

Definition get_env (c : ScopeChain) (h : Z) : result ScopeError EnvironmentRecord :=
  ok_or (InvalidEnvironment h) (environments c !! Z.to_nat h).

(** Writing through [get_env_mut]. *)
Definition set_env (c : ScopeChain) (h : Z) (e : EnvironmentRecord) : ScopeChain :=
  mkScopes (<[Z.to_nat h := e]> (environments c)) (chain c) (next_handle c).

(** The loop of [find_var_scope]. *)
Fixpoint find_var_in (c : ScopeChain) (hs : list Z) : result ScopeError Z :=
  match hs with
  | [] => Err EmptyScopeChain
  | h :: hs =>
      env ← get_env c h;
      if Env.is_var_scope env then Ok h else find_var_in c hs
  end.
Definition find_var_scope (c : ScopeChain) : result ScopeError Z := find_var_in c (chain c).

(** The loop of [resolve_binding]. *)
Fixpoint resolve_in (c : ScopeChain) (name : string) (hs : list Z) : result ScopeError (Z * ScopeId) :=
  match hs with
  | [] => Err (UndeclaredVariable name)
  | h :: hs =>
      env ← get_env c h;
      if Env.contains env name then Ok (h, scope_id env) else resolve_in c name hs
  end.
Definition resolve_binding (c : ScopeChain) (name : string) : result ScopeError (Z * ScopeId) :=
  resolve_in c name (chain c).

Definition declare_var (c : ScopeChain) (name : string) (id : Z) : result ScopeError ScopeChain :=
  h ← find_var_scope c;
  env ← get_env c h;
  if Env.contains env name then Ok c
  else Ok (set_env c h (Env.add_binding env (new_hoisted name id BkVar))).

Definition declare_let (c : ScopeChain) (name : string) (id : Z) : result ScopeError ScopeChain :=
  h ← current_handle c;
  env ← get_env c h;
  if Env.contains env name then Err (DuplicateBinding name)
  else Ok (set_env c h (Env.add_binding env (new_lexical name id BkLet))).

Definition declare_const (c : ScopeChain) (name : string) (id : Z) : result ScopeError ScopeChain :=
  h ← current_handle c;
  env ← get_env c h;
  if Env.contains env name then Err (DuplicateBinding name)
  else Ok (set_env c h (Env.add_binding env (new_lexical name id BkConst))).

Definition declare_function (c : ScopeChain) (name : string) (id : Z) (value : EnvValue) :
    result ScopeError ScopeChain :=
  h ← find_var_scope c;
  env ← get_env c h;
  let slot := new_hoisted name id BkFunctionDecl in
  let slot := mkSlot (sl_name slot) (binding_id slot) (sl_kind slot) value (initialized slot)
                (mutable slot) (sl_label slot) in
  Ok (set_env c h (Env.add_binding env slot)).

Definition declare_parameter (c : ScopeChain) (name : string) (id : Z) (value : EnvValue) (label : Label) :
    result ScopeError ScopeChain :=
  h ← current_handle c;
  env ← get_env c h;
  Ok (set_env c h (Env.add_binding env (new_parameter name id value label))).

(** A slot with a new value and label, initialized. *)
Definition written (s : BindingSlot) (value : EnvValue) (label : Label) : BindingSlot :=
  mkSlot (sl_name s) (binding_id s) (sl_kind s) value true (mutable s) label.

Definition initialize_binding (c : ScopeChain) (name : string) (value : EnvValue) (label : Label) :
    result ScopeError ScopeChain :=
  '(h, _) ← resolve_binding c name;
  env ← get_env c h;
  slot ← ok_or (UndeclaredVariable name) (Env.get_binding env name);
  Ok (set_env c h (Env.with_bindings env (<[name := written slot value label]> (bindings env)) label)).

Definition get_value (c : ScopeChain) (name : string) : result ScopeError EnvValue :=
  '(h, _) ← resolve_binding c name;
  env ← get_env c h;
  slot ← ok_or (UndeclaredVariable name) (Env.get_binding env name);
  if initialized slot then Ok (sl_value slot) else Err (TemporalDeadZone name).

Definition set_value (c : ScopeChain) (name : string) (value : EnvValue) (label : Label) :
    result ScopeError ScopeChain :=
  '(h, _) ← resolve_binding c name;
  env ← get_env c h;
  slot ← ok_or (UndeclaredVariable name) (Env.get_binding env name);
  if negb (initialized slot) then Err (TemporalDeadZone name)
  else if negb (mutable slot) then Err (ConstAssignment name)
  else Ok (set_env c h (Env.with_bindings env (<[name := written slot value label]> (bindings env)) label)).

(** ** Captures *)

Record ClosureCapture := mkCapture {
  cap_name : string; cap_binding_id : Z; source_scope : ScopeId; cap_label : Label }.

Fixpoint compute_captures (c : ScopeChain) (free_vars : list string) :
    result ScopeError (list ClosureCapture) :=
  match free_vars with
  | [] => Ok []
  | name :: names =>
      '(h, sid) ← resolve_binding c name;
      env ← get_env c h;
      slot ← ok_or (UndeclaredVariable name) (Env.get_binding env name);
      rest ← compute_captures c names;
      Ok (mkCapture name (binding_id slot) sid (sl_label slot) :: rest)
  end.
End Scopes.

(** ** Closures *)

Record Closure := mkClosure {
  cl_handle : Z;
  cl_name : string;
  arity : Z;
  strict : bool;
  captures : list Scopes.ClosureCapture;
  max_capture_label : Label;
  creation_env : Z }.

Definition ClosureStore : Type := list Closure.

Module Closures.
Definition create_closure (s : ClosureStore) (name : string) (arity : Z) (strict : bool)
    (captures : list Scopes.ClosureCapture) (creation_env : Z) : ClosureStore * Z :=
  let h := u32_sat (zlen s) in
  let max_capture_label := default LPublic (label_max (Scopes.cap_label <$> captures)) in
  (s ++ [mkClosure h name arity strict captures max_capture_label creation_env], h).

Definition get (s : ClosureStore) (h : Z) : option Closure := s !! Z.to_nat h.
End Closures.
