(* ===== verification/ClosureCorrect.v ===== *)
(** * What the scope chain computes

    The scope chain, an arena of environment records with a stack of handles
    into it, refines nested environments ([Ref.*]): a list of records,
    innermost first, that is searched and updated in place.  Every record keeps
    the invariant [env_ok], and an initialized constant keeps its value under
    assignment and further declarations. *)
From stdpp Require Import base numbers list strings gmap.
From S2P Require Import Prelude Bytes FlowLattice ClosureModel.
Open Scope string_scope.
Open Scope list_scope.
Open Scope Z_scope.

(** ** The operations as data *)

Inductive Op :=
  | Push (sid : ScopeId) (k : ScopeKind)
  | Pop
  | DeclVar (name : string) (id : Z)
  | DeclLet (name : string) (id : Z)
  | DeclConst (name : string) (id : Z)
  | DeclFunction (name : string) (id : Z) (value : EnvValue)
  | DeclParameter (name : string) (id : Z) (value : EnvValue) (label : Label)
  | Init (name : string) (value : EnvValue) (label : Label)
  | SetV (name : string) (value : EnvValue) (label : Label)
  | GetV (name : string)
  | Captures (names : list string).

Inductive Out :=
  | OUnit
  | OHandle (h : Z)
  | OValue (v : EnvValue)
  | OCaptures (l : list Scopes.ClosureCapture).

(** A fallible update: the new state, or the old one and the error. *)
Definition updated {S} (s : S) (r : result ScopeError S) : S * result ScopeError Out :=
  match r with Ok s' => (s', Ok OUnit) | Err e => (s, Err e) end.

Definition exec (c : ScopeChain) (o : Op) : ScopeChain * result ScopeError Out :=
  match o with
  | Push sid k => let '(c', h) := Scopes.push_scope c sid k in (c', Ok (OHandle h))
  | Pop => match Scopes.pop_scope c with Ok (c', h) => (c', Ok (OHandle h)) | Err e => (c, Err e) end
  | DeclVar n i => updated c (Scopes.declare_var c n i)
  | DeclLet n i => updated c (Scopes.declare_let c n i)
  | DeclConst n i => updated c (Scopes.declare_const c n i)
  | DeclFunction n i v => updated c (Scopes.declare_function c n i v)
  | DeclParameter n i v l => updated c (Scopes.declare_parameter c n i v l)
  | Init n v l => updated c (Scopes.initialize_binding c n v l)
  | SetV n v l => updated c (Scopes.set_value c n v l)
  | GetV n => (c, OValue <$> Scopes.get_value c n)
  | Captures ns => (c, OCaptures <$> Scopes.compute_captures c ns)
  end.

(** ** Nested environments *)

Module Ref.
(** The enclosing records, innermost first, and the number of records made. *)
Record t := mk { scopes : list EnvironmentRecord; made : Z }.

Definition new : t := mk [Env.new 0 (mkScopeId 0 0) SkGlobal EkGlobal] 1.

(** Update the innermost record that satisfies [p]. *)
Fixpoint update (p : EnvironmentRecord -> bool)
    (f : EnvironmentRecord -> result ScopeError EnvironmentRecord) (none : ScopeError)
    (l : list EnvironmentRecord) : result ScopeError (list EnvironmentRecord) :=
  match l with
  | [] => Err none
  | e :: l =>
      if p e then e' ← f e; Ok (e' :: l)
      else l' ← update p f none l; Ok (e :: l')
  end.

Definition on (s : t) p f none : result ScopeError t :=
  l ← update p f none (scopes s); Ok (mk l (made s)).

Definition innermost (_ : EnvironmentRecord) : bool := true.

(** The slot that a name denotes: the one of the innermost record that has it. *)
Definition lookup (s : t) (name : string) : option (EnvironmentRecord * BindingSlot) :=
  e ← List.find (fun e => Env.contains e name) (scopes s);
  slot ← bindings e !! name;
  Some (e, slot).

Definition declare (name : string) (slot : BindingSlot) (e : EnvironmentRecord) :
    result ScopeError EnvironmentRecord :=
  if Env.contains e name then Err (DuplicateBinding name) else Ok (Env.add_binding e slot).

Definition write (name : string) (v : EnvValue) (l : Label) (e : EnvironmentRecord) :
    result ScopeError EnvironmentRecord :=
  slot ← ok_or (UndeclaredVariable name) (bindings e !! name);
  Ok (Env.with_bindings e (<[name := Scopes.written slot v l]> (bindings e)) l).

Definition assign (name : string) (v : EnvValue) (l : Label) (e : EnvironmentRecord) :
    result ScopeError EnvironmentRecord :=
  slot ← ok_or (UndeclaredVariable name) (bindings e !! name);
  if negb (initialized slot) then Err (TemporalDeadZone name)
  else if negb (mutable slot) then Err (ConstAssignment name)
  else write name v l e.

Definition read (s : t) (name : string) : result ScopeError EnvValue :=
  match lookup s name with
  | None => Err (UndeclaredVariable name)
  | Some (_, slot) => if initialized slot then Ok (sl_value slot) else Err (TemporalDeadZone name)
  end.

Fixpoint capture (s : t) (names : list string) : result ScopeError (list Scopes.ClosureCapture) :=
  match names with
  | [] => Ok []
  | name :: names =>
      match lookup s name with
      | None => Err (UndeclaredVariable name)
      | Some (e, slot) =>
          rest ← capture s names;
          Ok (Scopes.mkCapture name (binding_id slot) (scope_id e) (sl_label slot) :: rest)
      end
  end.

Definition exec (s : t) (o : Op) : t * result ScopeError Out :=
  match o with
  | Push sid k =>
      (mk (Env.new (made s) sid k (Scopes.env_kind_of k) :: scopes s) (made s + 1), Ok (OHandle (made s)))
  | Pop =>
      match scopes s with
      | e :: ((_ :: _) as outer) => (mk outer (made s), Ok (OHandle (handle e)))
      | _ => (s, Err EmptyScopeChain)
      end
  | DeclVar n i =>
      updated s (on s Env.is_var_scope
        (fun e => Ok (if Env.contains e n then e else Env.add_binding e (new_hoisted n i BkVar))) EmptyScopeChain)
  | DeclLet n i => updated s (on s innermost (declare n (new_lexical n i BkLet)) EmptyScopeChain)
  | DeclConst n i => updated s (on s innermost (declare n (new_lexical n i BkConst)) EmptyScopeChain)
  | DeclFunction n i v =>
      updated s (on s Env.is_var_scope
        (fun e => Ok (Env.add_binding e (mkSlot n i BkFunctionDecl v true true LPublic))) EmptyScopeChain)
  | DeclParameter n i v l =>
      updated s (on s innermost (fun e => Ok (Env.add_binding e (new_parameter n i v l))) EmptyScopeChain)
  | Init n v l => updated s (on s (fun e => Env.contains e n) (write n v l) (UndeclaredVariable n))
  | SetV n v l => updated s (on s (fun e => Env.contains e n) (assign n v l) (UndeclaredVariable n))
  | GetV n => (s, OValue <$> read s n)
  | Captures ns => (s, OCaptures <$> capture s ns)
  end.
End Ref.

(** Run a list of operations and collect the results. *)
Definition run_ops {S} (step : S -> Op -> S * result ScopeError Out) (s : S) (ops : list Op) :
    S * list (result ScopeError Out) :=
  fold_left (fun '(s, outs) o => let '(s', r) := step s o in (s', outs ++ [r])) ops (s, []).

(** ** The representation *)

Record scopes_wf (c : ScopeChain) : Prop := {
  sw_valid : Forall (fun h => 0 <= h < zlen (environments c)) (chain c);
  sw_nodup : NoDup (chain c);
  sw_nonempty : chain c <> [];
  sw_next : next_handle c = zlen (environments c);
  sw_handles : forall i e, environments c !! i = Some e -> handle e = Z.of_nat i }.

Definition visible (c : ScopeChain) (hs : list Z) : list EnvironmentRecord :=
  omap (fun h => environments c !! Z.to_nat h) hs.

Definition abs (c : ScopeChain) : Ref.t := Ref.mk (visible c (chain c)) (next_handle c).

(** The innermost handle whose record satisfies [p]. *)
Fixpoint first (c : ScopeChain) (p : EnvironmentRecord -> bool) (none : ScopeError) (hs : list Z) :
    result ScopeError Z :=
  match hs with
  | [] => Err none
  | h :: hs => env ← Scopes.get_env c h; if p env then Ok h else first c p none hs
  end.

Definition at_first (c : ScopeChain) (p : EnvironmentRecord -> bool) (none : ScopeError)
    (f : EnvironmentRecord -> result ScopeError EnvironmentRecord) (hs : list Z) : result ScopeError ScopeChain :=
  h ← first c p none hs; env ← Scopes.get_env c h; env' ← f env; Ok (Scopes.set_env c h env').

Lemma visible_cons c h hs :
  0 <= h < zlen (environments c) ->
  exists e, environments c !! Z.to_nat h = Some e /\ visible c (h :: hs) = e :: visible c hs.
Proof.
  intros Hh. destruct (lookup_lt_is_Some_2 (environments c) (Z.to_nat h)) as [e He]; [unfold zlen in Hh; lia|].
  exists e. split; [done|]. unfold visible. cbn. by rewrite He.
Qed.

Lemma visible_insert c h e hs :
  Forall (fun x => 0 <= x) hs -> 0 <= h -> h ∉ hs -> visible (Scopes.set_env c h e) hs = visible c hs.
Proof.
  intros Hs Hh. induction Hs as [|x hs Hx Hs IH]; intros Hn; [done|].
  rewrite not_elem_of_cons in Hn. destruct Hn as [Hne Hn]. specialize (IH Hn). unfold visible in *.
  cbn in *. rewrite IH, list_lookup_insert_ne by lia. done.
Qed.

(** Updating the arena through the innermost handle is updating the list. *)
Lemma at_first_update c p none f hs :
  Forall (fun h => 0 <= h < zlen (environments c)) hs -> NoDup hs ->
  match at_first c p none f hs with
  | Ok c' => Ref.update p f none (visible c hs) = Ok (visible c' hs) /\
             exists h e e', environments c !! Z.to_nat h = Some e /\ h ∈ hs /\ p e = true /\ f e = Ok e' /\
               c' = Scopes.set_env c h e'
  | Err err => Ref.update p f none (visible c hs) = Err err
  end.
Proof.
  intros Hv Hn. unfold at_first. induction Hv as [|h hs Hh Hv IH]; [done|].
  apply NoDup_cons in Hn as [Hnin Hn]. destruct (visible_cons c h hs Hh) as (e & He & Hvis).
  assert (Hget : Scopes.get_env c h = Ok e) by (unfold Scopes.get_env; by rewrite He).
  rewrite Hvis. cbn [first Ref.update]. rewrite Hget. cbn [mbind result_bind]. destruct (p e) eqn:Hp.
  - cbn [mbind result_bind]. rewrite Hget. cbn [mbind result_bind].
    destruct (f e) as [e'|] eqn:Hf; [|done]. cbn [mbind result_bind]. split.
    + f_equal. unfold visible at 2. cbn. rewrite list_lookup_insert_eq by (unfold zlen in Hh; lia).
      f_equal. symmetry. apply visible_insert; [|lia|done]. eapply Forall_impl; [exact Hv|]. intros x Hx. cbn in Hx. lia.
    + exists h, e, e'. repeat split; try done. left.
  - specialize (IH Hn). destruct (first c p none hs ≫= _) as [c'|err].
    + destruct IH as [Hu (h' & e1 & e2 & H1 & H2 & H3 & H4 & ->)]. rewrite Hu. cbn [mbind result_bind]. split.
      * f_equal. unfold visible at 2. cbn. rewrite list_lookup_insert_ne.
        -- rewrite He. done.
        -- intros Heq. assert (h = h'); [|by subst].
           rewrite Forall_forall in Hv. specialize (Hv _ H2). cbn in Hv. lia.
      * exists h', e1, e2. repeat split; try done. by right.
    + by rewrite IH.
Qed.

Lemma update_env_wf c h e e' :
  scopes_wf c -> environments c !! Z.to_nat h = Some e -> handle e' = handle e ->
  scopes_wf (Scopes.set_env c h e').
Proof.
  intros [H1 H2 H3 H4 H5] He Hh. split; cbn; try done.
  - unfold zlen in *. by rewrite length_insert.
  - unfold zlen in *. by rewrite length_insert.
  - intros i x Hx. destruct (decide (i = Z.to_nat h)) as [->|Hne].
    + rewrite list_lookup_insert_eq in Hx by (by eapply lookup_lt_Some). injection Hx as <-. rewrite Hh. by apply H5.
    + rewrite list_lookup_insert_ne in Hx by done. by apply H5.
Qed.

(** ** Each operation refines its counterpart *)

Lemma find_var_first c hs : Scopes.find_var_in c hs = first c Env.is_var_scope EmptyScopeChain hs.
Proof.
  induction hs as [|h hs IH]; [done|]. cbn [Scopes.find_var_in first].
  destruct (Scopes.get_env c h); [|done]. cbn [mbind result_bind]. by rewrite IH.
Qed.

Lemma resolve_first c name hs :
  Scopes.resolve_in c name hs =
    (h ← first c (fun e => Env.contains e name) (UndeclaredVariable name) hs;
     env ← Scopes.get_env c h; Ok (h, scope_id env)).
Proof.
  induction hs as [|h hs IH]; [done|]. cbn [Scopes.resolve_in first].
  destruct (Scopes.get_env c h) as [e|] eqn:He; [|done]. cbn [mbind result_bind].
  destruct (Env.contains e name); [|exact IH]. cbn [mbind result_bind]. by rewrite He.
Qed.

Lemma current_first c :
  scopes_wf c -> Scopes.current_handle c = first c Ref.innermost EmptyScopeChain (chain c).
Proof.
  intros [Hv _ Hne _ _]. unfold Scopes.current_handle. destruct (chain c) as [|h hs]; [done|].
  apply Forall_cons in Hv as [Hh _]. destruct (visible_cons c h hs Hh) as (e & He & _).
  cbn. unfold Scopes.get_env. by rewrite He.
Qed.

Lemma get_env_lookup c h e : Scopes.get_env c h = Ok e <-> environments c !! Z.to_nat h = Some e.
Proof. apply ok_or_Ok. Qed.

Lemma set_env_id c h e : Scopes.get_env c h = Ok e -> Scopes.set_env c h e = c.
Proof.
  intros He%get_env_lookup. unfold Scopes.set_env. rewrite list_insert_id by done. by destruct c.
Qed.

Lemma first_find c p none hs :
  Forall (fun h => 0 <= h < zlen (environments c)) hs ->
  match List.find p (visible c hs) with
  | Some e => exists h, first c p none hs = Ok h /\ Scopes.get_env c h = Ok e
  | None => first c p none hs = Err none
  end.
Proof.
  induction 1 as [|h hs Hh Hv IH]; [done|]. destruct (visible_cons c h hs Hh) as (e & He & ->).
  assert (Hget : Scopes.get_env c h = Ok e) by (by apply get_env_lookup).
  cbn [List.find first]. rewrite Hget. cbn [mbind result_bind]. destruct (p e); [eauto|exact IH].
Qed.

(** The written forms of the operations. *)
Lemma declare_var_at c n i :
  Scopes.declare_var c n i = at_first c Env.is_var_scope EmptyScopeChain
    (fun e => Ok (if Env.contains e n then e else Env.add_binding e (new_hoisted n i BkVar))) (chain c).
Proof.
  unfold Scopes.declare_var, at_first, Scopes.find_var_scope. rewrite find_var_first.
  destruct (first _ _ _ _) as [h|]; [|done]. cbn [mbind result_bind].
  destruct (Scopes.get_env c h) as [e|] eqn:He; [|done]. cbn [mbind result_bind].
  destruct (Env.contains e n); [|done]. by rewrite set_env_id.
Qed.

Lemma declare_lexical_at c n i k :
  scopes_wf c -> k = BkLet \/ k = BkConst ->
  (if decide (k = BkLet) then Scopes.declare_let c n i else Scopes.declare_const c n i) =
    at_first c Ref.innermost EmptyScopeChain (Ref.declare n (new_lexical n i k)) (chain c).
Proof.
  intros Hc Hk. unfold Scopes.declare_let, Scopes.declare_const, at_first. rewrite (current_first c Hc).
  destruct (first _ _ _ _) as [h|]; [|by case_decide]. cbn [mbind result_bind].
  destruct (Scopes.get_env c h) as [e|]; [|by case_decide]. cbn [mbind result_bind]. unfold Ref.declare.
  destruct (Env.contains e n), Hk as [->| ->]; done.
Qed.

Lemma declare_function_at c n i v :
  Scopes.declare_function c n i v = at_first c Env.is_var_scope EmptyScopeChain
    (fun e => Ok (Env.add_binding e (mkSlot n i BkFunctionDecl v true true LPublic))) (chain c).
Proof. unfold Scopes.declare_function, at_first, Scopes.find_var_scope. by rewrite find_var_first. Qed.

Lemma declare_parameter_at c n i v l :
  scopes_wf c ->
  Scopes.declare_parameter c n i v l = at_first c Ref.innermost EmptyScopeChain
    (fun e => Ok (Env.add_binding e (new_parameter n i v l))) (chain c).
Proof. intros Hc. unfold Scopes.declare_parameter, at_first. by rewrite (current_first c Hc). Qed.

Lemma initialize_at c n v l :
  Scopes.initialize_binding c n v l =
    at_first c (fun e => Env.contains e n) (UndeclaredVariable n) (Ref.write n v l) (chain c).
Proof.
  unfold Scopes.initialize_binding, at_first, Scopes.resolve_binding. rewrite resolve_first.
  destruct (first _ _ _ _) as [h|]; [|done]. cbn [mbind result_bind].
  destruct (Scopes.get_env c h) as [e|] eqn:He; [|done]. cbn [mbind result_bind]. rewrite He.
  cbn [mbind result_bind]. unfold Ref.write, Env.get_binding. by destruct (bindings e !! n).
Qed.

Lemma set_value_at c n v l :
  Scopes.set_value c n v l =
    at_first c (fun e => Env.contains e n) (UndeclaredVariable n) (Ref.assign n v l) (chain c).
Proof.
  unfold Scopes.set_value, at_first, Scopes.resolve_binding. rewrite resolve_first.
  destruct (first _ _ _ _) as [h|]; [|done]. cbn [mbind result_bind].
  destruct (Scopes.get_env c h) as [e|] eqn:He; [|done]. cbn [mbind result_bind]. rewrite He.
  cbn [mbind result_bind]. unfold Ref.assign, Ref.write, Env.get_binding.
  destruct (bindings e !! n) as [slot|]; [|done]. cbn [ok_or mbind result_bind].
  by destruct (initialized slot), (mutable slot).
Qed.

Lemma find_contains c name l e :
  List.find (fun e => Env.contains e name) (visible c l) = Some e -> is_Some (bindings e !! name).
Proof. intros [_ H]%find_some. by apply bool_decide_eq_true in H. Qed.

Lemma get_value_ref c n : scopes_wf c -> Scopes.get_value c n = Ref.read (abs c) n.
Proof.
  intros Hc. unfold Scopes.get_value, Scopes.resolve_binding, Ref.read, Ref.lookup. rewrite resolve_first.
  pose proof (first_find c (fun e => Env.contains e n) (UndeclaredVariable n) _ (sw_valid c Hc)) as H.
  cbn [abs Ref.scopes]. destruct (List.find _ _) as [e|] eqn:Hf.
  - destruct H as (h & -> & Hg). cbn [mbind result_bind]. rewrite Hg. cbn [mbind result_bind]. rewrite Hg.
    apply find_contains in Hf as [slot Hs]. cbn [mbind result_bind option_bind]. unfold Env.get_binding.
    rewrite Hs. done.
  - by rewrite H.
Qed.

Lemma captures_ref c ns : scopes_wf c -> Scopes.compute_captures c ns = Ref.capture (abs c) ns.
Proof.
  intros Hc. induction ns as [|n ns IH]; [done|]. cbn [Scopes.compute_captures Ref.capture].
  unfold Scopes.resolve_binding, Ref.lookup. rewrite resolve_first.
  pose proof (first_find c (fun e => Env.contains e n) (UndeclaredVariable n) _ (sw_valid c Hc)) as H.
  cbn [abs Ref.scopes]. destruct (List.find _ _) as [e|] eqn:Hf.
  - destruct H as (h & -> & Hg). cbn [mbind result_bind]. rewrite Hg. cbn [mbind result_bind]. rewrite Hg.
    apply find_contains in Hf as [slot Hs]. cbn [mbind result_bind option_bind]. unfold Env.get_binding.
    rewrite Hs. cbn [ok_or mbind result_bind option_bind]. by rewrite IH.
  - by rewrite H.
Qed.

(** The record an operation edits, how, and the error when there is none. *)
Definition editor (o : Op) : option ((EnvironmentRecord -> bool) *
    (EnvironmentRecord -> result ScopeError EnvironmentRecord) * ScopeError) :=
  match o with
  | DeclVar n i =>
      Some (Env.is_var_scope,
        (fun e => Ok (if Env.contains e n then e else Env.add_binding e (new_hoisted n i BkVar))), EmptyScopeChain)
  | DeclLet n i => Some (Ref.innermost, Ref.declare n (new_lexical n i BkLet), EmptyScopeChain)
  | DeclConst n i => Some (Ref.innermost, Ref.declare n (new_lexical n i BkConst), EmptyScopeChain)
  | DeclFunction n i v =>
      Some (Env.is_var_scope,
        (fun e => Ok (Env.add_binding e (mkSlot n i BkFunctionDecl v true true LPublic))), EmptyScopeChain)
  | DeclParameter n i v l =>
      Some (Ref.innermost, (fun e => Ok (Env.add_binding e (new_parameter n i v l))), EmptyScopeChain)
  | Init n v l => Some ((fun e => Env.contains e n), Ref.write n v l, UndeclaredVariable n)
  | SetV n v l => Some ((fun e => Env.contains e n), Ref.assign n v l, UndeclaredVariable n)
  | _ => None
  end.

Lemma exec_editor c o p f none :
  scopes_wf c -> editor o = Some (p, f, none) ->
  exec c o = updated c (at_first c p none f (chain c)) /\
  Ref.exec (abs c) o = updated (abs c) (Ref.on (abs c) p f none).
Proof.
  intros Hc H. destruct o; try discriminate H; injection H as <- <- <-; (split; [|reflexivity]); cbn [exec]; f_equal.
  - apply declare_var_at.
  - by rewrite <- (declare_lexical_at c name id BkLet Hc (or_introl eq_refl)).
  - by rewrite <- (declare_lexical_at c name id BkConst Hc (or_intror eq_refl)).
  - apply declare_function_at.
  - by apply declare_parameter_at.
  - apply initialize_at.
  - apply set_value_at.
Qed.

(** Each edit is the insertion of one slot, or nothing. *)
Lemma editor_inserts o p f none e e' :
  editor o = Some (p, f, none) -> f e = Ok e' ->
  e' = e \/ exists n s, e' = Env.with_bindings e (<[n := s]> (bindings e)) (sl_label s).
Proof.
  intros H Hf. destruct o; try discriminate H; injection H as <- <- <-.
  - injection Hf as <-. destruct (Env.contains e name); [by left|right]. eexists _, _. reflexivity.
  - unfold Ref.declare in Hf. destruct (Env.contains e name); [done|]. injection Hf as <-. right. eexists _, _. reflexivity.
  - unfold Ref.declare in Hf. destruct (Env.contains e name); [done|]. injection Hf as <-. right. eexists _, _. reflexivity.
  - injection Hf as <-. right. by eexists _, (mkSlot _ _ _ _ _ _ _).
  - injection Hf as <-. right. eexists _, _. reflexivity.
  - unfold Ref.write in Hf. destruct (bindings e !! name) as [slot|]; [|done]. injection Hf as <-. right.
    by exists name, (Scopes.written slot value label).
  - unfold Ref.assign, Ref.write in Hf. destruct (bindings e !! name) as [slot|]; [|done]. cbn [ok_or mbind result_bind] in Hf.
    destruct (initialized slot), (mutable slot); try done. injection Hf as <-. right.
    by exists name, (Scopes.written slot value label).
Qed.

Lemma editor_handle o p f none e e' :
  editor o = Some (p, f, none) -> f e = Ok e' -> handle e' = handle e.
Proof. intros H Hf. by destruct (editor_inserts _ _ _ _ _ _ H Hf) as [->|(n & s & ->)]. Qed.

Lemma push_wf c sid k :
  scopes_wf c -> zlen (environments c) < u32_max ->
  let c' := (Scopes.push_scope c sid k).1 in
  scopes_wf c' /\ abs c' = Ref.mk (Env.new (next_handle c) sid k (Scopes.env_kind_of k) :: visible c (chain c)) (next_handle c + 1).
Proof.
  intros [Hv Hn Hne Hnext Hh] Hlt. unfold Scopes.push_scope. cbn [fst].
  assert (Hzl : zlen (environments c ++ [Env.new (next_handle c) sid k (Scopes.env_kind_of k)]) = zlen (environments c) + 1)
    by (unfold zlen; rewrite length_app; cbn [length]; lia).
  assert (Hpos : 0 <= next_handle c) by (rewrite Hnext; apply zlen_nonneg).
  split; [split; cbn [environments chain next_handle]|].
  - rewrite Hzl. constructor; [lia|]. eapply Forall_impl; [exact Hv|]. intros x Hx. cbn in *. lia.
  - apply NoDup_cons. split; [|done]. intros Hin. rewrite Forall_forall in Hv. specialize (Hv _ Hin). cbn in Hv. lia.
  - done.
  - rewrite Hzl. lia.
  - intros i e Hi. apply lookup_app_Some in Hi as [Hi|[Hi Hs]]; [by apply Hh|].
    apply list_lookup_singleton_Some in Hs as [Hs <-]. cbn [handle Env.new]. rewrite Hnext. unfold zlen. lia.
  - unfold abs. cbn [chain next_handle]. f_equal; [|lia]. unfold visible. cbn [omap list_omap environments].
    rewrite lookup_app_r by (rewrite Hnext; unfold zlen; lia).
    replace (Z.to_nat (next_handle c) - length (environments c))%nat with 0%nat by (rewrite Hnext; unfold zlen; lia).
    cbn. f_equal. rewrite Forall_forall in Hv. clear -Hv. induction (chain c) as [|h hs IH]; [done|]. cbn.
    assert (Hlt : 0 <= h < zlen (environments c)) by (apply Hv; left).
    rewrite lookup_app_l by (unfold zlen in Hlt; lia). rewrite IH; [done|]. intros x Hx. apply Hv. by right.
Qed.

Lemma pop_refines c :
  scopes_wf c ->
  scopes_wf (exec c Pop).1 /\ abs (exec c Pop).1 = (Ref.exec (abs c) Pop).1 /\
  (exec c Pop).2 = (Ref.exec (abs c) Pop).2 /\ environments (exec c Pop).1 = environments c.
Proof.
  intros Hc. pose proof Hc as [Hv Hn Hne Hnext Hh]. cbn [exec Ref.exec]. unfold Scopes.pop_scope, abs. cbn [Ref.scopes Ref.made].
  destruct (chain c) as [|h [|h' hs]] eqn:Hch; [done| |].
  - apply Forall_cons in Hv as [H1 _]. destruct (visible_cons c h [] H1) as (e & _ & Hvis).
    rewrite Hvis. cbn. rewrite Hch, Hvis. done.
  - apply Forall_cons in Hv as [H1 Hv']. pose proof Hv' as Hv2. apply Forall_cons in Hv2 as [H2 _].
    destruct (visible_cons c h (h' :: hs) H1) as (e & He & ->). destruct (visible_cons c h' hs H2) as (e' & He' & Hvis).
    rewrite Hvis. cbn [fst snd tail]. split; [|split; [|split; [|done]]].
    + apply NoDup_cons in Hn as [_ Hn]. by split.
    + cbn [chain next_handle]. f_equal. exact Hvis.
    + rewrite (Hh _ _ He), Z2Nat.id by lia. done.
Qed.

Lemma exec_refines c o :
  scopes_wf c -> zlen (environments c) < u32_max ->
  scopes_wf (exec c o).1 /\ abs (exec c o).1 = (Ref.exec (abs c) o).1 /\
  (exec c o).2 = (Ref.exec (abs c) o).2 /\
  zlen (environments (exec c o).1) <= zlen (environments c) + 1.
Proof.
  intros Hc Hlt. destruct (editor o) as [[[p f] none]|] eqn:He.
  - destruct (exec_editor c o p f none Hc He) as [-> ->].
    pose proof (at_first_update c p none f (chain c) (sw_valid c Hc) (sw_nodup c Hc)) as H.
    unfold Ref.on. cbn [abs Ref.scopes Ref.made]. destruct (at_first c p none f (chain c)) as [c'|err].
    + destruct H as [Hu (h & e & e' & Hl & _ & _ & Hf & ->)]. rewrite Hu. cbn.
      split; [eapply update_env_wf; [done|done|by eapply editor_handle]|]. split; [done|]. split; [done|].
      unfold zlen. rewrite length_insert. lia.
    + rewrite H. cbn. repeat split; try done; try apply Hc. lia.
  - destruct o; try discriminate He; cbn [exec].
    + destruct (push_wf c sid k Hc Hlt) as [Hw Ha]. cbn in *. split; [done|]. split; [exact Ha|]. split; [done|].
      unfold zlen. rewrite length_app. cbn. lia.
    + destruct (pop_refines c Hc) as (H1 & H2 & H3 & H4). cbn [exec] in *. rewrite H4. repeat split; try apply H1; try done. lia.
    + cbn. rewrite (get_value_ref c name Hc). repeat split; try apply Hc; try done. lia.
    + cbn. rewrite (captures_ref c names Hc). repeat split; try apply Hc; try done. lia.
Qed.

Lemma scopes_new_wf : scopes_wf Scopes.new.
Proof.
  split; cbn.
  - repeat constructor; vm_compute; done.
  - apply NoDup_singleton.
  - done.
  - done.
  - intros [|i] e H; [by injection H as <-|done].
Qed.

Lemma run_snoc {S} (step : S -> Op -> S * result ScopeError Out) s ops o :
  run_ops step s (ops ++ [o]) =
    ((step (run_ops step s ops).1 o).1, (run_ops step s ops).2 ++ [(step (run_ops step s ops).1 o).2]).
Proof.
  unfold run_ops. rewrite fold_left_app. cbn [fold_left]. destruct (fold_left _ ops _) as [s' outs].
  cbn. by destruct (step s' o).
Qed.

Lemma scopes_run_refines ops :
  zlen ops + 1 <= u32_max ->
  let c := (run_ops exec Scopes.new ops).1 in
  scopes_wf c /\ zlen (environments c) <= zlen ops + 1 /\
  abs c = (run_ops Ref.exec Ref.new ops).1 /\
  (run_ops exec Scopes.new ops).2 = (run_ops Ref.exec Ref.new ops).2.
Proof.
  induction ops as [|o ops IH] using rev_ind; intros Hlen.
  { repeat split; try apply scopes_new_wf. vm_compute. discriminate. }
  assert (Hz : zlen (ops ++ [o]) = zlen ops + 1) by (unfold zlen; rewrite length_app; cbn [length]; lia).
  rewrite Hz in Hlen |- *. specialize (IH ltac:(lia)). cbv zeta in IH.
  rewrite !run_snoc. cbv zeta. cbn [fst snd].
  set (c := (run_ops exec Scopes.new ops).1) in *. destruct IH as (Hw & Hn & Ha & Ho).
  destruct (exec_refines c o Hw ltac:(lia)) as (H1 & H2 & H3 & H4). rewrite <- Ha.
  split; [done|]. split; [lia|]. split; [done|]. by rewrite Ho, H3.
Qed.

(** C19. The scope chain implements lexical nesting. For every sequence of fewer than 2^32
    - 1 operations from a fresh chain, the arena of environment records with its stack of
    handles gives the same results, errors included, as plain nested environments that are
    searched from the innermost one and updated in place, and ends in the state that
    represents them; a read yields the slot of the innermost scope that declares the name,
    or the dead-zone or undeclared error. *)
Theorem scope_chain_refines_nesting (ops : list Op) :
  zlen ops + 1 <= u32_max ->
  (run_ops exec Scopes.new ops).2 = (run_ops Ref.exec Ref.new ops).2 /\
  abs (run_ops exec Scopes.new ops).1 = (run_ops Ref.exec Ref.new ops).1 /\
  (forall name, Scopes.get_value (run_ops exec Scopes.new ops).1 name =
     match Ref.lookup (run_ops Ref.exec Ref.new ops).1 name with
     | None => Err (UndeclaredVariable name)
     | Some (_, slot) => if initialized slot then Ok (sl_value slot) else Err (TemporalDeadZone name)
     end).
Proof.
  intros H. destruct (scopes_run_refines ops H) as (Hw & _ & Ha & Ho). split; [exact Ho|]. split; [exact Ha|].
  intros name. rewrite (get_value_ref _ _ Hw), Ha. reflexivity.
Qed.

(** ** The invariant of records *)

Definition label_le (a b : Label) : Prop := label_cmp a b <> Gt.

Lemma label_le_refl a : label_le a a.
Proof.
  unfold label_le, label_cmp. rewrite Z.compare_refl. destruct a; try done.
  by rewrite str_compare_refl.
Qed.

#[export] Instance label_le_trans : Transitive label_le.
Proof.
  intros a b c. unfold label_le, label_cmp.
  destruct (Z.compare_spec (Label_level a) (Label_level b)) as [E1|E1|E1]; [| |done];
  destruct (Z.compare_spec (Label_level b) (Label_level c)) as [E2|E2|E2]; try done;
  destruct (Z.compare_spec (Label_level a) (Label_level c)) as [E3|E3|E3]; try done; try lia.
  destruct a as [| | | | |n1 l1], b as [| | | | |n2 l2], c as [| | | | |n3 l3]; try done.
  destruct (String.compare n1 n2) eqn:C1; [| |done]; destruct (String.compare n2 n3) eqn:C2; try done;
    try apply String.compare_eq_iff in C1; try apply String.compare_eq_iff in C2; subst; intros _ _.
  - by rewrite str_compare_refl.
  - by rewrite C2.
  - by rewrite C1.
  - by rewrite (str_lt_trans _ _ _ C1 C2).
Qed.

Lemma label_gtb_le a b : label_gtb a b = true -> label_le b a.
Proof.
  unfold label_gtb, label_le, label_cmp. rewrite (Z.compare_antisym (Label_level a) (Label_level b)).
  destruct (Label_level a ?= Label_level b); try done.
  destruct a as [| | | | |n1 l1], b as [| | | | |n2 l2]; try done. cbn.
  destruct (String.compare n1 n2) eqn:C; try done. intros _. apply str_compare_gt in C. unfold str_lt in C. by rewrite C.
Qed.

Record slot_ok (bound : Label) (name : string) (s : BindingSlot) : Prop := {
  so_name : sl_name s = name;
  so_label : label_le (sl_label s) bound;
  so_tdz : initialized s = false -> sl_value s = Tdz /\ (sl_kind s = BkLet \/ sl_kind s = BkConst);
  so_const : mutable s = false <-> sl_kind s = BkConst }.

Definition env_ok (e : EnvironmentRecord) : Prop :=
  forall name s, bindings e !! name = Some s -> slot_ok (max_label e) name s.

Lemma with_bindings_ok e name s :
  env_ok e -> (forall bound, label_le (sl_label s) bound -> slot_ok bound name s) ->
  env_ok (Env.with_bindings e (<[name := s]> (bindings e)) (sl_label s)).
Proof.
  intros He Hs n x. cbn [bindings max_label Env.with_bindings].
  assert (Hmax : label_le (sl_label s) (if label_gtb (sl_label s) (max_label e) then sl_label s else max_label e) /\
                 label_le (max_label e) (if label_gtb (sl_label s) (max_label e) then sl_label s else max_label e)).
  { destruct (label_gtb _ _) eqn:Hg; (split; [|try apply label_le_refl]).
    - apply label_le_refl.
    - by apply label_gtb_le.
    - unfold label_gtb in Hg. unfold label_le. by destruct (label_cmp _ _). }
  destruct Hmax as [H1 H2]. intros [[<- <-]|[_ Hx]]%lookup_insert_Some; [by apply Hs|].
  destruct (He _ _ Hx) as [? ? ? ?]. split; try done. by etrans.
Qed.

Lemma editor_ok o p f none e e' :
  editor o = Some (p, f, none) -> f e = Ok e' -> env_ok e -> env_ok e'.
Proof.
  intros H Hf Hok. destruct o; try discriminate H; injection H as <- <- <-.
  - injection Hf as <-. destruct (Env.contains e name); [done|]. apply with_bindings_ok; [done|]. by split.
  - unfold Ref.declare in Hf. destruct (Env.contains e name); [done|]. injection Hf as <-.
    apply with_bindings_ok; [done|]. split; [done|done|intros _; split; [done|by left]|by split].
  - unfold Ref.declare in Hf. destruct (Env.contains e name); [done|]. injection Hf as <-.
    apply with_bindings_ok; [done|]. split; [done|done|intros _; split; [done|by right]|by split].
  - injection Hf as <-. apply with_bindings_ok; [done|]. by split.
  - injection Hf as <-. apply with_bindings_ok; [done|]. by split.
  - unfold Ref.write in Hf. destruct (bindings e !! name) as [slot|] eqn:Hs; [|done]. injection Hf as <-.
    destruct (Hok _ _ Hs) as [? _ _ ?]. apply (with_bindings_ok e name (Scopes.written slot value label)); [done|]. by split.
  - unfold Ref.assign, Ref.write in Hf. destruct (bindings e !! name) as [slot|] eqn:Hs; [|done]. cbn [ok_or mbind result_bind] in Hf.
    destruct (initialized slot), (mutable slot) eqn:Hm; try done. injection Hf as <-.
    destruct (Hok _ _ Hs) as [? _ _ ?]. apply (with_bindings_ok e name (Scopes.written slot value label)); [done|].
    by split.
Qed.

(** Operations that may replace a constant: initialization, which does not ask
    whether the binding is initialized already, and the two declarations that
    overwrite. *)
Definition may_replace (o : Op) : bool :=
  match o with Init _ _ _ | DeclFunction _ _ _ | DeclParameter _ _ _ _ => true | _ => false end.

Lemma editor_const o p f none e e' name s :
  editor o = Some (p, f, none) -> may_replace o = false -> f e = Ok e' ->
  bindings e !! name = Some s -> mutable s = false -> bindings e' !! name = Some s.
Proof.
  intros H Ho Hf Hs Hm. destruct o as [| |n i|n i|n i| | | |n v l| |]; try discriminate H; try discriminate Ho;
    injection H as <- <- <-.
  - injection Hf as <-. unfold Env.contains. case_bool_decide as Hc; [done|]. cbn.
    rewrite lookup_insert_ne; [done|]. intros ->. apply Hc. by rewrite Hs.
  - unfold Ref.declare, Env.contains in Hf. case_bool_decide as Hc; [done|]. injection Hf as <-. cbn.
    rewrite lookup_insert_ne; [done|]. intros ->. apply Hc. by rewrite Hs.
  - unfold Ref.declare, Env.contains in Hf. case_bool_decide as Hc; [done|]. injection Hf as <-. cbn.
    rewrite lookup_insert_ne; [done|]. intros ->. apply Hc. by rewrite Hs.
  - unfold Ref.assign, Ref.write in Hf. destruct (bindings e !! n) as [slot|] eqn:Hsl; [|done]. cbn [ok_or mbind result_bind] in Hf.
    destruct (initialized slot), (mutable slot) eqn:Hms; try done. injection Hf as <-. cbn.
    rewrite lookup_insert_ne; [done|]. intros ->. congruence.
Qed.

(** What one operation does to the arena of records. *)
Lemma exec_effect c o :
  scopes_wf c ->
  environments (exec c o).1 = environments c \/
  (exists h sid k ek, environments (exec c o).1 = environments c ++ [Env.new h sid k ek]) \/
  (exists p f none h e e', editor o = Some (p, f, none) /\ environments c !! h = Some e /\ f e = Ok e' /\
     environments (exec c o).1 = <[h := e']> (environments c)).
Proof.
  intros Hc. destruct (editor o) as [[[p f] none]|] eqn:He.
  - destruct (exec_editor c o p f none Hc He) as [-> _].
    pose proof (at_first_update c p none f (chain c) (sw_valid c Hc) (sw_nodup c Hc)) as H.
    destruct (at_first c p none f (chain c)) as [c'|err]; [|by left].
    destruct H as [_ (h & e & e' & Hl & _ & _ & Hf & ->)]. right. right. by exists p, f, none, (Z.to_nat h), e, e'.
  - destruct o; try discriminate He.
    + right. left. by eexists _, _, _, _.
    + left. by destruct (pop_refines c Hc) as (_ & _ & _ & ->).
    + by left.
    + by left.
Qed.

Lemma exec_env_ok c o : scopes_wf c -> Forall env_ok (environments c) -> Forall env_ok (environments (exec c o).1).
Proof.
  intros Hc Hok. destruct (exec_effect c o Hc) as [->|[(h & sid & k & ek & ->)|(p & f & none & h & e & e' & He & Hl & Hf & ->)]].
  - done.
  - apply Forall_app. split; [done|]. apply Forall_singleton. intros n s Hs. cbn in Hs. by rewrite lookup_empty in Hs.
  - apply Forall_insert; [done|]. eapply editor_ok; [done|done|]. rewrite Forall_lookup in Hok. by eapply Hok.
Qed.

(** In every reachable scope chain each environment record is found under its handle,
    its bindings are keyed by their names and labelled at most with its maximal label,
    uninitialized ones are let or const bindings that hold the dead-zone value, and
    exactly the const bindings are immutable. An operation other than an initialization or
    a function or parameter declaration leaves every const binding as it is, in active and
    in popped scopes. *)
Theorem scope_bindings_invariant (ops : list Op) (o : Op) :
  zlen ops + 1 <= u32_max ->
  let c := (run_ops exec Scopes.new ops).1 in
  (forall h e, environments c !! h = Some e -> handle e = Z.of_nat h /\ env_ok e) /\
  (may_replace o = false ->
   forall h e name s, environments c !! h = Some e -> bindings e !! name = Some s -> mutable s = false ->
     exists e', environments (exec c o).1 !! h = Some e' /\ bindings e' !! name = Some s).
Proof.
  intros Hlen c. destruct (scopes_run_refines ops Hlen) as (Hw & _). fold c in Hw.
  assert (Hok : Forall env_ok (environments c)).
  { clear o Hw. subst c. induction ops as [|o ops IH] using rev_ind.
    - apply Forall_singleton. intros n s Hs. cbn in Hs. by rewrite lookup_empty in Hs.
    - rewrite run_snoc. cbn [fst].
      assert (Hlen' : zlen ops + 1 <= u32_max) by (unfold zlen in *; rewrite length_app in Hlen; cbn [length] in Hlen; lia).
      apply exec_env_ok; [apply (scopes_run_refines ops Hlen')|auto]. }
  split.
  - intros h e He. split; [by apply (sw_handles c Hw)|]. rewrite Forall_lookup in Hok. by eapply Hok.
  - intros Ho h e name s He Hs Hm.
    destruct (exec_effect c o Hw) as [->|[(h' & sid & k & ek & ->)|(p & f & none & h' & x & x' & Hed & Hl & Hf & ->)]].
    + eauto.
    + exists e. split; [|done]. apply lookup_app_l_Some. done.
    + destruct (decide (h = h')) as [<-|Hne].
      * assert (x = e) as -> by congruence. exists x'. split; [apply list_lookup_insert_eq; by eapply lookup_lt_Some|].
        by eapply editor_const.
      * exists e. by rewrite list_lookup_insert_ne.
Qed.

(** ** Closures *)

Lemma label_max_bound l m : label_max l = Some m -> Forall (fun x => label_le x m) l /\ m ∈ l.
Proof.
  destruct l as [|x l]; [done|]. cbn [label_max]. intros [= <-].
  assert (Hgen : forall l m0, Forall (fun y => label_le y (fold_left (fun m y => if label_gtb m y then m else y) l m0)) (m0 :: l) /\
    fold_left (fun m y => if label_gtb m y then m else y) l m0 ∈ m0 :: l).
  { clear. induction l as [|y l IH]; intros m0; cbn [fold_left].
    - split; [|left]. apply Forall_singleton, label_le_refl.
    - destruct (IH (if label_gtb m0 y then m0 else y)) as [Hf Hin]. apply Forall_cons in Hf as [H1 H2].
      set (r := fold_left _ l _) in *. split.
      + destruct (label_gtb m0 y) eqn:Hg.
        * repeat constructor; try done. etrans; [by apply label_gtb_le|done].
        * repeat constructor; try done. etrans; [|exact H1]. unfold label_gtb in Hg. unfold label_le. by destruct (label_cmp m0 y).
      + destruct (label_gtb m0 y); set_solver. }
  apply Hgen.
Qed.

(** A closure is found under its handle, earlier ones stay, and its label is the
    least upper bound of the labels it captured. *)
Theorem closure_store_grows (s : ClosureStore) (name : string) (ar : Z) (strict_ : bool)
    (caps : list Scopes.ClosureCapture) (env : Z) :
  zlen s <= u32_max ->
  let '(s', h) := Closures.create_closure s name ar strict_ caps env in
  (exists cl, Closures.get s' h = Some cl /\ cl_handle cl = h /\ captures cl = caps /\ creation_env cl = env /\
     Forall (fun c => label_le (Scopes.cap_label c) (max_capture_label cl)) caps /\
     (caps = [] /\ max_capture_label cl = LPublic \/ max_capture_label cl ∈ Scopes.cap_label <$> caps)) /\
  (forall h' cl, 0 <= h' -> Closures.get s h' = Some cl -> Closures.get s' h' = Some cl).
Proof.
  intros Hlen. unfold Closures.create_closure. replace (u32_sat (zlen s)) with (zlen s).
  2: { unfold u32_sat. by replace (zlen s <=? u32_max) with true by lia. }
  split.
  - eexists. split.
    { unfold Closures.get, ClosureStore. rewrite lookup_app_r by (unfold zlen; lia).
      replace (Z.to_nat (zlen s) - length s)%nat with 0%nat by (unfold zlen; lia). reflexivity. }
    cbn [cl_handle captures creation_env max_capture_label]. repeat split; try done.
    + destruct (label_max (Scopes.cap_label <$> caps)) as [m|] eqn:Hm.
      * apply label_max_bound in Hm as [Hf _]. rewrite Forall_fmap in Hf. exact Hf.
      * destruct caps; [constructor|done].
    + destruct (label_max (Scopes.cap_label <$> caps)) as [m|] eqn:Hm.
      * apply label_max_bound in Hm as [_ Hin]. by right.
      * destruct caps; [by left|done].
  - intros h' cl Hh Hg. unfold Closures.get, ClosureStore in *. by apply lookup_app_l_Some.
Qed.

(** ** Examples *)

(** A block that shadows a constant and hoists a variable. *)
Definition sample_ops : list Op :=
  [DeclConst "x" 1; Init "x" (Number 1) LSecret; Push (mkScopeId 1 0) SkBlock; DeclLet "x" 2; GetV "x";
   Init "x" (Number 2) LPublic; DeclVar "v" 3; GetV "x"; Pop; GetV "x"; GetV "v"; SetV "x" (Number 9) LPublic].

Lemma scope_chain_refines_nesting_witness :
  (run_ops exec Scopes.new sample_ops).2 =
    [Ok OUnit; Ok OUnit; Ok (OHandle 1); Ok OUnit; Err (TemporalDeadZone "x"); Ok OUnit; Ok OUnit;
     Ok (OValue (Number 2)); Ok (OHandle 1); Ok (OValue (Number 1)); Ok (OValue Undefined);
     Err (ConstAssignment "x")].
Proof.
  destruct (scope_chain_refines_nesting sample_ops ltac:(vm_compute; discriminate)) as [-> _].
  vm_compute. reflexivity.
Defined.

Lemma scope_bindings_invariant_witness :
  exists e', environments (exec (run_ops exec Scopes.new sample_ops).1 (SetV "x" (Number 9) LPublic)).1 !! 0%nat = Some e' /\
    bindings e' !! "x" = Some (mkSlot "x" 1 BkConst (Number 1) true false LSecret).
Proof.
  destruct (scope_bindings_invariant sample_ops (SetV "x" (Number 9) LPublic) ltac:(vm_compute; discriminate)) as [_ H].
  eapply (H eq_refl 0%nat); [vm_compute; reflexivity|vm_compute; reflexivity|reflexivity].
Defined.

(** Initialization replaces a constant that has its value already. *)
Lemma const_reinitialized :
  (run_ops exec Scopes.new [DeclConst "x" 1; Init "x" (Number 1) LPublic; Init "x" (Number 2) LPublic; GetV "x"]).2 =
  [Ok OUnit; Ok OUnit; Ok OUnit; Ok (OValue (Number 2))].
Proof. vm_compute. reflexivity. Qed.

(** A function declaration replaces a constant of its scope. *)
Lemma function_replaces_const :
  (run_ops exec Scopes.new [DeclConst "x" 1; Init "x" (Number 1) LPublic; DeclFunction "x" 2 (ClosureRef 0); GetV "x"]).2 =
  [Ok OUnit; Ok OUnit; Ok OUnit; Ok (OValue (ClosureRef 0))].
Proof. vm_compute. reflexivity. Qed.

(** A public scope accepts a top-secret value: no write is refused for its label. *)
Lemma writes_ignore_labels :
  (run_ops exec Scopes.new [DeclLet "x" 1; Init "x" Null LPublic; SetV "x" (Number 1) LTopSecret]).2 =
  [Ok OUnit; Ok OUnit; Ok OUnit].
Proof. vm_compute. reflexivity. Qed.
