(* ===== verification/DelegationChain.v ===== *)
(** * Delegation chains (crates/franken-engine/src/delegation_chain.rs)

    A chain of capability tokens from a root grant to a leaf, each link naming
    the issuer of the next as its delegate and passing on a subset of its
    capabilities.  The revocation lookup is the class [RevocationOracle], as the
    trait of the source.  The theorems say exactly which chains verify, with
    which proof, and that whatever a chain authorizes is granted by every link
    of it. *)
From stdpp Require Import base numbers list strings gmap sorting.
From Stdlib Require Import Strings.Byte.
From S2P Require Import Prelude Bytes Text HashTiers SignaturePreimage EngineObjectId.
From S2P Require Import PolicyCheckpoint Capability CapabilityToken.
Open Scope string_scope.
Open Scope list_scope.
Open Scope Z_scope.

Definition DEFAULT_MAX_CHAIN_DEPTH : Z := 8.

Record DelegationChain := mkDChain { links : list CapabilityToken }.

Record DelegationVerificationContext := mkDCtx {
  dc_current_tick : Z;
  dc_checkpoint_seq : Z;
  dc_revocation_seq : Z;
  max_chain_depth : Z;
  authorized_roots : gset VerificationKey;
  required_zone : option string }.

Definition default_context : DelegationVerificationContext :=
  mkDCtx 0 0 0 DEFAULT_MAX_CHAIN_DEPTH ∅ None.

Definition with_authorized_root (root : VerificationKey) : DelegationVerificationContext :=
  mkDCtx (dc_current_tick default_context) (dc_checkpoint_seq default_context)
    (dc_revocation_seq default_context) (max_chain_depth default_context) {[root]}
    (required_zone default_context).

Definition as_token_context (c : DelegationVerificationContext) : VerificationContext :=
  mkVerCtx (dc_current_tick c) (dc_checkpoint_seq c) (dc_revocation_seq c).

Inductive ChainError :=
  | EmptyChain
  | DepthExceeded (max_depth actual_depth : Z)
  | UnauthorizedRoot (root_issuer : VerificationKey)
  | MissingCheckpointBinding (index : Z)
  | MissingRevocationFreshnessBinding (index : Z)
  | TokenVerificationFailed (index : Z) (error : TokenError)
  | AttenuationViolation (index parent_capability_count child_capability_count : Z)
      (amplified_capabilities : gset RuntimeCapability)
  | ZoneMismatch (index : Z) (expected_zone actual_zone : string)
  | RevokedLink (index : Z) (token_id : EngineObjectId)
  | MissingCapabilityAtLeaf (required : RuntimeCapability) (leaf_capabilities : gset RuntimeCapability).

(** [trait RevocationOracle] *)
Class RevocationOracle (R : Type) := is_revoked : R -> EngineObjectId -> bool.

Inductive NoRevocationOracle := mkNoRevocationOracle.
#[export] Instance no_revocation_oracle : RevocationOracle NoRevocationOracle := fun _ _ => false.

Record DelegationLinkSummary := mkSummary {
  ls_index : Z;
  ls_token_id : EngineObjectId;
  ls_issuer : PrincipalId;
  ls_delegate : PrincipalId;
  capability_count : Z;
  ls_zone : string;
  not_before_tick : Z;
  expiry_tick : Z }.

Record AuthorizationProof := mkProof {
  ap_chain_hash : ContentHash;
  authorized_capability : RuntimeCapability;
  ap_root_issuer : PrincipalId;
  ap_leaf_delegate : PrincipalId;
  verified_at_tick : Z;
  chain_summary : list DelegationLinkSummary }.

Definition principal_id_from_verification_key (vk : VerificationKey) : PrincipalId :=
  from_verification_key vk.

Definition set_len {K} `{Countable K} (s : gset K) : Z := Z.of_nat (size s).

Definition link_material (t : CapabilityToken) : list byte :=
  jti t ++ issuer t ++ str_bytes (tk_zone t) ++ [xff] ++
  concat ((fun c => str_bytes (cap_string c) ++ [x1f]) <$> set_iter (capabilities t)).

Definition chain_hash (l : list CapabilityToken) (leaf_delegate : PrincipalId) : ContentHash :=
  ContentHash_compute (concat (link_material <$> l) ++ leaf_delegate).

Section oracle.
Context `{!RevocationOracle R}.

(** The delegate of a link: the issuer of the next one, or the leaf delegate. *)
Definition delegate_of (leaf_delegate : PrincipalId) (rest : list CapabilityToken) : PrincipalId :=
  match rest with
  | child :: _ => principal_id_from_verification_key (issuer child)
  | [] => leaf_delegate
  end.

Definition summary_of (leaf_delegate : PrincipalId) (index : Z) (t : CapabilityToken)
    (rest : list CapabilityToken) : DelegationLinkSummary :=
  mkSummary index (jti t) (principal_id_from_verification_key (issuer t))
    (delegate_of leaf_delegate rest) (set_len (capabilities t)) (tk_zone t) (nbf t) (expiry t).

(** The body of the loop over the links; [rest] is what follows the link. *)
Definition check_link (oracle : R) (ctx : DelegationVerificationContext) (expected_zone : string)
    (leaf_delegate : PrincipalId) (index : Z) (t : CapabilityToken) (rest : list CapabilityToken) :
    result ChainError DelegationLinkSummary :=
  if negb (bool_decide (tk_zone t = expected_zone)) then
    Err (ZoneMismatch index expected_zone (tk_zone t))
  else if negb (bool_decide (is_Some (checkpoint_binding t))) then Err (MissingCheckpointBinding index)
  else if negb (bool_decide (is_Some (revocation_freshness t))) then
    Err (MissingRevocationFreshnessBinding index)
  else if is_revoked oracle (jti t) then Err (RevokedLink index (jti t))
  else
    _ ← map_err (TokenVerificationFailed index)
          (verify_token t (delegate_of leaf_delegate rest) (as_token_context ctx));
    _ ← match rest with
        | child :: _ =>
            if negb (bool_decide (capabilities child ⊆ capabilities t)) then
              Err (AttenuationViolation (index + 1) (set_len (capabilities t))
                     (set_len (capabilities child)) (capabilities child ∖ capabilities t))
            else Ok tt
        | [] => Ok tt
        end;
    Ok (summary_of leaf_delegate index t rest).

Fixpoint check_links (oracle : R) (ctx : DelegationVerificationContext) (expected_zone : string)
    (leaf_delegate : PrincipalId) (index : Z) (l : list CapabilityToken) :
    result ChainError (list DelegationLinkSummary) :=
  match l with
  | [] => Ok []
  | t :: rest =>
      s ← check_link oracle ctx expected_zone leaf_delegate index t rest;
      ss ← check_links oracle ctx expected_zone leaf_delegate (index + 1) rest;
      Ok (s :: ss)
  end.

Definition verify_chain (chain : DelegationChain) (required_capability : RuntimeCapability)
    (leaf_delegate : PrincipalId) (ctx : DelegationVerificationContext) (oracle : R) :
    result ChainError AuthorizationProof :=
  match links chain with
  | [] => Err EmptyChain
  | root :: rest =>
      let n := zlen (links chain) in
      if max_chain_depth ctx <? n then Err (DepthExceeded (max_chain_depth ctx) n)
      else if negb (bool_decide (issuer root ∈ authorized_roots ctx)) then
        Err (UnauthorizedRoot (issuer root))
      else
        let expected_zone := default (tk_zone root) (required_zone ctx) in
        summary ← check_links oracle ctx expected_zone leaf_delegate 0 (links chain);
        let leaf := List.last (links chain) root in
        if negb (bool_decide (required_capability ∈ capabilities leaf)) then
          Err (MissingCapabilityAtLeaf required_capability (capabilities leaf))
        else
          Ok (mkProof (chain_hash (links chain) leaf_delegate) required_capability
                (principal_id_from_verification_key (issuer root)) leaf_delegate
                (dc_current_tick ctx) summary)
  end.

(** ** Which chains verify *)

(** What the loop requires of a link. *)
Record link_ok (oracle : R) (ctx : DelegationVerificationContext) (zone : string)
    (leaf_delegate : PrincipalId) (t : CapabilityToken) (rest : list CapabilityToken) : Prop := {
  lo_zone : tk_zone t = zone;
  lo_checkpoint : is_Some (checkpoint_binding t);
  lo_freshness : is_Some (revocation_freshness t);
  lo_live : is_revoked oracle (jti t) = false;
  lo_token : verify_token t (delegate_of leaf_delegate rest) (as_token_context ctx) = Ok tt;
  lo_narrows : forall child, head rest = Some child -> capabilities child ⊆ capabilities t }.

Fixpoint links_ok (oracle : R) ctx zone leaf (l : list CapabilityToken) : Prop :=
  match l with
  | [] => True
  | t :: rest => link_ok oracle ctx zone leaf t rest /\ links_ok oracle ctx zone leaf rest
  end.

Fixpoint summaries (leaf : PrincipalId) (index : Z) (l : list CapabilityToken) :
    list DelegationLinkSummary :=
  match l with
  | [] => []
  | t :: rest => summary_of leaf index t rest :: summaries leaf (index + 1) rest
  end.

#[local] Opaque verify_token chain_hash.

Lemma check_link_Ok oracle ctx zone leaf i t rest s :
  check_link oracle ctx zone leaf i t rest = Ok s <->
  link_ok oracle ctx zone leaf t rest /\ s = summary_of leaf i t rest.
Proof.
  unfold check_link.
  assert (Hd : link_ok oracle ctx zone leaf t rest <->
    tk_zone t = zone /\ is_Some (checkpoint_binding t) /\ is_Some (revocation_freshness t) /\
    is_revoked oracle (jti t) = false /\
    verify_token t (delegate_of leaf rest) (as_token_context ctx) = Ok tt /\
    (forall child, head rest = Some child -> capabilities child ⊆ capabilities t))
    by (split; [intros []; tauto|intros (? & ? & ? & ? & ? & ?); by split]).
  rewrite Hd. clear Hd. set (sm := summary_of leaf i t rest). clearbody sm.
  case_bool_decide as Hz; cbn [negb]; [|naive_solver].
  case_bool_decide as Hc; cbn [negb]; [|naive_solver].
  case_bool_decide as Hf; cbn [negb]; [|naive_solver].
  destruct (is_revoked oracle (jti t)); [naive_solver|].
  rewrite bind_Ok. destruct (verify_token t _ _) as [[]|e]; cbn [map_err].
  2: { split; [by intros ([] & ? & _)|naive_solver]. }
  destruct rest as [|child rest]; cbn [head].
  - cbn. naive_solver.
  - case_bool_decide as Hs; cbn; naive_solver.
Qed.

Lemma check_links_Ok oracle ctx zone leaf i l ss :
  check_links oracle ctx zone leaf i l = Ok ss <->
  links_ok oracle ctx zone leaf l /\ ss = summaries leaf i l.
Proof.
  revert i ss. induction l as [|t rest IH]; intros i ss; cbn [check_links links_ok summaries].
  { split; [by intros [= <-]|by intros [_ ->]]. }
  rewrite bind_Ok. setoid_rewrite check_link_Ok. setoid_rewrite bind_Ok. setoid_rewrite IH. split.
  - intros (s & [Hl ->] & ss' & [Hr ->] & [= <-]). done.
  - intros [[Hl Hr] ->]. eauto 10.
Qed.

(** A failing walk reports the first link that fails. *)
Lemma check_links_Err oracle ctx zone leaf i l e :
  check_links oracle ctx zone leaf i l = Err e ->
  exists pre t rest, l = pre ++ t :: rest /\
    check_link oracle ctx zone leaf (i + zlen pre) t rest = Err e /\
    forall p q u, pre = p ++ u :: q -> link_ok oracle ctx zone leaf u (q ++ t :: rest).
Proof.
  revert i. induction l as [|x l IH]; intros i; cbn [check_links]; [done|].
  destruct (check_link oracle ctx zone leaf i x l) as [s|e'] eqn:Hx; cbn [mbind result_bind].
  - destruct (check_links oracle ctx zone leaf (i + 1) l) as [ss|e''] eqn:Hl; cbn [mbind result_bind]; [done|].
    intros [= ->]. destruct (IH _ Hl) as (pre & t & rest & -> & Hc & Hp).
    apply check_link_Ok in Hx as [Hx _]. exists (x :: pre), t, rest. split; [done|]. split.
    { replace (i + zlen (x :: pre)) with (i + 1 + zlen pre); [done|]. unfold zlen. cbn [length]. lia. }
    intros [|y p] q u [= -> Hq]; [by subst|]. by apply (Hp p q u).
  - intros [= ->]. exists [], x, l. split; [done|]. split; [|by intros []].
    by replace (i + zlen []) with i by (unfold zlen; cbn; lia).
Qed.

Lemma links_ok_lookup oracle ctx zone leaf l k t :
  links_ok oracle ctx zone leaf l -> l !! k = Some t -> link_ok oracle ctx zone leaf t (drop (S k) l).
Proof.
  revert k. induction l as [|x l IH]; intros k H Hk; [done|]. destruct H as [Hx H].
  destruct k as [|k]; [cbn in Hk; injection Hk as <-; done|]. by apply IH.
Qed.

(** Capabilities shrink along the chain. *)
Lemma links_ok_narrow oracle ctx zone leaf l j k t u :
  links_ok oracle ctx zone leaf l -> l !! j = Some t -> l !! k = Some u -> (j <= k)%nat ->
  capabilities u ⊆ capabilities t.
Proof.
  intros H Hj. revert u. induction k as [|k IH]; intros u Hk Hle.
  { replace j with 0%nat in Hj by lia. by simplify_eq. }
  destruct (decide (j = S k)) as [->|]; [by simplify_eq|].
  destruct (lookup_lt_is_Some_2 l k) as [w Hw]; [apply lookup_lt_Some in Hk; lia|].
  transitivity (capabilities w); [|apply IH; [done|lia]].
  apply (lo_narrows _ _ _ _ _ _ (links_ok_lookup _ _ _ _ _ _ _ H Hw)).
  by rewrite head_lookup, lookup_drop, Nat.add_0_r.
Qed.

Lemma list_last_Some {A} (x d : A) l : last (x :: l) = Some (List.last (x :: l) d).
Proof. revert x. induction l as [|y l IH]; intros x; [done|]. exact (IH y). Qed.

(** A chain verifies exactly when it is not empty nor too deep, its root is
    authorized, every link passes and the leaf grants the capability; the proof
    records the chain. *)
Lemma delegation_chain_exact_iff (chain : DelegationChain) (cap : RuntimeCapability) (leaf : PrincipalId)
    (ctx : DelegationVerificationContext) (oracle : R) (p : AuthorizationProof) :
  verify_chain chain cap leaf ctx oracle = Ok p <->
  exists root last_link,
    head (links chain) = Some root /\ last (links chain) = Some last_link /\
    zlen (links chain) <= max_chain_depth ctx /\ issuer root ∈ authorized_roots ctx /\
    links_ok oracle ctx (default (tk_zone root) (required_zone ctx)) leaf (links chain) /\
    cap ∈ capabilities last_link /\
    p = mkProof (chain_hash (links chain) leaf) cap (principal_id_from_verification_key (issuer root)) leaf
          (dc_current_tick ctx) (summaries leaf 0 (links chain)).
Proof.
  unfold verify_chain. destruct (links chain) as [|root rest] eqn:Hl; [naive_solver|].
  pose proof (list_last_Some root root rest) as Hlast. revert Hlast.
  generalize (List.last (root :: rest) root). intros lf Hlast. rewrite Hlast. cbn [head].
  destruct (Z.ltb_spec (max_chain_depth ctx) (zlen (root :: rest))).
  { split; [done|]. intros (? & ? & _ & _ & ? & _). lia. }
  case_bool_decide as Hr; cbn [negb]; [|naive_solver].
  rewrite bind_Ok. setoid_rewrite check_links_Ok. split.
  - intros (ss & [Hok ->] & H1). case_bool_decide as Hc; cbn [negb] in H1; [|done].
    injection H1 as <-. exists root, lf. split_and!; try done; lia.
  - intros (r & lf' & [= <-] & [= <-] & _ & _ & Hok & Hc & ->). exists (summaries leaf 0 (root :: rest)).
    split; [done|]. by rewrite bool_decide_eq_true_2.
Qed.

(** C16. No amplification along a delegation chain. If verify_chain authorizes a
    capability, the root was issued by an authorized root, the chain is not empty nor
    deeper than the limit, and every link grants the capability, is signed, inside its
    window, not revoked and, unless its audience is empty, addressed to the issuer of the
    next link (the leaf to the leaf delegate); capabilities only shrink from link to link
    and all links are of one zone. *)
Theorem delegation_authority_confined (chain : DelegationChain) (cap : RuntimeCapability)
    (leaf : PrincipalId) (ctx : DelegationVerificationContext) (oracle : R) (p : AuthorizationProof) :
  verify_chain chain cap leaf ctx oracle = Ok p ->
  (exists root, head (links chain) = Some root /\ issuer root ∈ authorized_roots ctx) /\
  0 < zlen (links chain) <= max_chain_depth ctx /\
  (forall k t, links chain !! k = Some t ->
     cap ∈ capabilities t /\
     nbf t <= dc_current_tick ctx <= expiry t /\
     is_revoked oracle (jti t) = false /\
     verify_signature (issuer t) (token_preimage_bytes t) (tk_signature t) = Ok tt /\
     (audience t = ∅ \/
      (match links chain !! S k with
       | Some child => principal_id_from_verification_key (issuer child)
       | None => leaf end) ∈ audience t)) /\
  (forall j k t u, links chain !! j = Some t -> links chain !! k = Some u -> (j <= k)%nat ->
     capabilities u ⊆ capabilities t /\ tk_zone u = tk_zone t).
Proof.
  intros (root & lf & Hh & Hlast & Hd & Hr & Hok & Hc & _)%delegation_chain_exact_iff.
  split; [eauto|]. split; [destruct (links chain); [done|]; unfold zlen in *; cbn [length] in *; lia|].
  rewrite last_lookup in Hlast. split.
  - intros k t Hk. pose proof (links_ok_lookup _ _ _ _ _ _ _ Hok Hk) as [_ _ _ Hl Hv _].
    apply verify_token_Ok in Hv as (Hs & Ha & Hw & _). split.
    { apply (links_ok_narrow _ _ _ _ _ _ _ _ _ Hok Hk Hlast); [|done]. apply lookup_lt_Some in Hk. lia. }
    split; [exact Hw|]. split; [done|]. split; [done|].
    rewrite <- (Nat.add_0_r (S k)), <- lookup_drop, <- head_lookup.
    destruct (drop (S k) (links chain)); exact Ha.
  - intros j k t u Hj Hk Hle. split; [exact (links_ok_narrow _ _ _ _ _ _ _ _ _ Hok Hj Hk Hle)|].
    apply links_ok_lookup with (1 := Hok) in Hj as [-> _ _ _ _ _].
    by apply links_ok_lookup with (1 := Hok) in Hk as [-> _ _ _ _ _].
Qed.
End oracle.

(** Revoking more never authorizes more: a chain accepted under the stricter
    oracle is accepted under the laxer one, with the same proof. *)
Lemma revocation_only_narrows {R1 R2} `{!RevocationOracle R1, !RevocationOracle R2} (o1 : R1) (o2 : R2)
    chain cap leaf ctx p :
  (forall id, is_revoked o1 id = true -> is_revoked o2 id = true) ->
  verify_chain chain cap leaf ctx o2 = Ok p -> verify_chain chain cap leaf ctx o1 = Ok p.
Proof.
  rewrite !delegation_chain_exact_iff. intros Hle (root & lf & Hh & Hl & Hd & Hr & Hok & Hc & Hp).
  exists root, lf. split_and!; try done. clear -Hle Hok. induction (links chain) as [|t rest IH]; [done|].
  destruct Hok as [[? ? ? Hlive ? ?] Hok]. split; [|by apply IH]. split; try done.
  destruct (is_revoked o1 (jti t)) eqn:H1; [|done]. apply Hle in H1. congruence.
Qed.

(** ** Examples *)

#[local] Transparent verify_token chain_hash.

Definition bound (b : TokenBuilder) : TokenBuilder :=
  TB.bind_revocation_freshness (TB.bind_checkpoint b (mkCpRef 5 (replicate 32 x07))) (mkRevRef 3 (replicate 32 x09)).

Definition grant (sk : SigningKey) (to : PrincipalId) (caps : list RuntimeCapability) : CapabilityToken :=
  built_token (bound (TB.add_audience (TB.add_capabilities (TB.new sk 100 1000 0 "zone-a") caps) to)).

Definition principal_of (sk : SigningKey) : PrincipalId :=
  principal_id_from_verification_key (verification_key sk).

Definition three_links : DelegationChain :=
  Eval vm_compute in mkDChain [grant (sk_n x01) (principal_of (sk_n x02)) [VmDispatch; NetworkEgress];
            grant (sk_n x02) (principal_of (sk_n x03)) [VmDispatch];
            grant (sk_n x03) alice [VmDispatch]].

Definition zone_a_ctx : DelegationVerificationContext :=
  Eval vm_compute in mkDCtx 500 10 10 DEFAULT_MAX_CHAIN_DEPTH {[verification_key (sk_n x01)]} (Some "zone-a").

Definition verdict (c : DelegationChain) (cap : RuntimeCapability) (leaf : PrincipalId) : bool :=
  is_ok (verify_chain c cap leaf zone_a_ctx mkNoRevocationOracle).

(** The chain authorizes the capability that reaches the leaf, and nothing that
    a link withholds. *)
Lemma three_links_verdicts :
  verdict three_links VmDispatch alice = true /\ verdict three_links NetworkEgress alice = false /\
  verdict three_links VmDispatch mallory = false.
Proof. vm_compute. done. Qed.

Lemma three_links_accepted : exists p, verify_chain three_links VmDispatch alice zone_a_ctx mkNoRevocationOracle = Ok p.
Proof. eexists. vm_compute. reflexivity. Qed.

Lemma delegation_authority_confined_witness :
  Forall (fun t => VmDispatch ∈ capabilities t) (links three_links).
Proof.
  destruct three_links_accepted as [p H].
  destruct (delegation_authority_confined _ _ _ _ _ _ H) as (_ & _ & Hall & _).
  apply Forall_forall. intros t [k Hk]%list_elem_of_lookup. exact (proj1 (Hall k t Hk)).
Defined.

(** A link without audience lets any key extend the chain. *)
Definition bearer_grant : CapabilityToken :=
  Eval vm_compute in built_token (bound (TB.add_capability (TB.new (sk_n x01) 100 1000 0 "zone-a") FsWrite)).

Definition mallory_grant : CapabilityToken := Eval vm_compute in grant (sk_n x66) mallory [FsWrite].

Lemma bearer_link_extends_to_anyone :
  verdict (mkDChain [bearer_grant; mallory_grant]) FsWrite mallory = true.
Proof. vm_compute. reflexivity. Qed.
