(* ===== verification/RevocationEnforcement.v ===== *)
(** * Revocation enforcement (crates/franken-engine/src/revocation_enforcement.rs)

    The three interceptors that consult the revocation chain before a token is
    accepted, a high-risk operation runs or an extension is activated, with
    their audit log and statistics.  The counters wrap at 64 bits.  The theorems
    say that an interceptor clears exactly what no event of the chain revokes,
    directly or through the key, that a denial is final whatever happens to the
    enforcer and its chain afterwards, and that the log and the statistics
    account for every call. *)
From stdpp Require Import base numbers list strings gmap.
From Stdlib Require Import Strings.Byte.
From S2P Require Import Prelude Bytes HashTiers SignaturePreimage EngineObjectId CapabilityToken.
From S2P Require Import RevocationChain RevocationCorrect DelegationChain.
Open Scope string_scope.
Open Scope list_scope.
Open Scope Z_scope.

Inductive EnforcementPoint := TokenAcceptance | HighRiskOperation | ExtensionActivation.

#[export] Instance EnforcementPoint_eq_dec : EqDecision EnforcementPoint.
Proof. solve_decision. Defined.

Definition point_code (p : EnforcementPoint) : Z :=
  match p with TokenAcceptance => 0 | HighRiskOperation => 1 | ExtensionActivation => 2 end.
Definition point_of_code (z : Z) : EnforcementPoint :=
  if z =? 0 then TokenAcceptance else if z =? 1 then HighRiskOperation else ExtensionActivation.

#[export] Instance EnforcementPoint_countable : Countable EnforcementPoint.
Proof. refine (inj_countable' point_code point_of_code _). by intros []. Defined.

Record RevocationDenial := mkDenial {
  dn_target_type : RevocationTargetType;
  dn_target_id : EngineObjectId;
  dn_transitive : bool;
  transitive_root : option EngineObjectId;
  dn_point : EnforcementPoint }.

Inductive HighRiskCategory :=
  | PolicyChange | KeyOperation | DataExport | CrossZoneAction | ExtensionLifecycleChange.

Record RevocationCheckEvent := mkCheck {
  ck_point : EnforcementPoint;
  ck_target_id : EngineObjectId;
  ck_target_type : RevocationTargetType;
  ck_is_revoked : bool;
  ck_transitive : bool;
  ck_trace : string;
  checked_at : Z }.

Inductive EnforcementResult :=
  | Cleared (enforcement_point : EnforcementPoint) (checks_performed : Z)
  | Denied (d : RevocationDenial).

Definition into_result (r : EnforcementResult) : result RevocationDenial unit :=
  match r with Cleared _ _ => Ok tt | Denied d => Err d end.

Definition is_cleared (r : EnforcementResult) : bool :=
  match r with Cleared _ _ => true | Denied _ => false end.

Definition key_id_from_verification_key (vk : VerificationKey) : EngineObjectId := ContentHash_compute vk.

Record EnforcementStats := mkStats {
  st_checks : Z; st_cleared : Z; st_denied : Z; transitive_denials : Z }.

Record RevocationEnforcer := mkEnf {
  en_chain : RevocationChain;
  audit_log : list RevocationCheckEvent;
  en_stats : gmap EnforcementPoint EnforcementStats;
  en_tick : Z }.

Module Enf.
Definition new (chain : RevocationChain) (current_tick : Z) : RevocationEnforcer :=
  mkEnf chain [] ∅ current_tick.

Definition set_tick (e : RevocationEnforcer) (tick : Z) : RevocationEnforcer :=
  mkEnf (en_chain e) (audit_log e) (en_stats e) tick.

Definition drain_audit_log (e : RevocationEnforcer) : RevocationEnforcer * list RevocationCheckEvent :=
  (mkEnf (en_chain e) [] (en_stats e) (en_tick e), audit_log e).

Definition emit_audit (e : RevocationEnforcer) (point : EnforcementPoint) (id : EngineObjectId)
    (ty : RevocationTargetType) (revoked transitive : bool) (trace : string) : RevocationEnforcer :=
  mkEnf (en_chain e) (audit_log e ++ [mkCheck point id ty revoked transitive trace (en_tick e)])
    (en_stats e) (en_tick e).

Definition stats_at (e : RevocationEnforcer) (point : EnforcementPoint) : EnforcementStats :=
  default (mkStats 0 0 0 0) (en_stats e !! point).

Definition record_denial (e : RevocationEnforcer) (point : EnforcementPoint) (transitive : bool) :
    RevocationEnforcer :=
  let s := stats_at e point in
  mkEnf (en_chain e) (audit_log e)
    (<[point := mkStats (wrap_u64 (st_checks s + 1)) (st_cleared s) (wrap_u64 (st_denied s + 1))
                  (if transitive then wrap_u64 (transitive_denials s + 1) else transitive_denials s)]>
       (en_stats e)) (en_tick e).

Definition record_cleared (e : RevocationEnforcer) (point : EnforcementPoint) : RevocationEnforcer :=
  let s := stats_at e point in
  mkEnf (en_chain e) (audit_log e)
    (<[point := mkStats (wrap_u64 (st_checks s + 1)) (wrap_u64 (st_cleared s + 1)) (st_denied s)
                  (transitive_denials s)]> (en_stats e)) (en_tick e).

(** The body that the three interceptors share: the object, then the key. *)
Definition check_object_and_key (e : RevocationEnforcer) (point : EnforcementPoint)
    (ty : RevocationTargetType) (id : EngineObjectId) (key : VerificationKey) (trace : string) :
    RevocationEnforcer * EnforcementResult :=
  let revoked := Chain.is_revoked (en_chain e) id in
  let e := emit_audit e point id ty revoked false trace in
  if revoked then (record_denial e point false, Denied (mkDenial ty id false None point))
  else
    let key_id := key_id_from_verification_key key in
    let key_revoked := Chain.is_revoked (en_chain e) key_id in
    let e := emit_audit e point key_id TgKey key_revoked true trace in
    if key_revoked then (record_denial e point true, Denied (mkDenial ty id true (Some key_id) point))
    else (record_cleared e point, Cleared point 2).

Definition check_token_acceptance (e : RevocationEnforcer) (token_jti : EngineObjectId)
    (issuer_key : VerificationKey) (trace : string) : RevocationEnforcer * EnforcementResult :=
  check_object_and_key e TokenAcceptance TgToken token_jti issuer_key trace.

Definition check_high_risk_operation (e : RevocationEnforcer) (attestation_id : EngineObjectId)
    (principal_key : VerificationKey) (category : HighRiskCategory) (trace : string) :
    RevocationEnforcer * EnforcementResult :=
  check_object_and_key e HighRiskOperation TgAttestation attestation_id principal_key trace.

Definition check_extension_activation (e : RevocationEnforcer) (extension_id : EngineObjectId)
    (signing_key : VerificationKey) (trace : string) : RevocationEnforcer * EnforcementResult :=
  check_object_and_key e ExtensionActivation TgExtension extension_id signing_key trace.

(** The loop of [check_token_batch]: the first denial, if there is one. *)
Fixpoint batch_loop (e : RevocationEnforcer) (tokens : list (EngineObjectId * VerificationKey))
    (trace : string) : RevocationEnforcer * option RevocationDenial :=
  match tokens with
  | [] => (e, None)
  | (jti, key) :: rest =>
      match check_token_acceptance e jti key trace with
      | (e, Denied d) => (e, Some d)
      | (e, Cleared _ _) => batch_loop e rest trace
      end
  end.

Definition check_token_batch (e : RevocationEnforcer) (tokens : list (EngineObjectId * VerificationKey))
    (trace : string) : RevocationEnforcer * EnforcementResult :=
  match batch_loop e tokens trace with
  | (e, Some d) => (e, Denied d)
  | (e, None) => (e, Cleared TokenAcceptance (wrap_u32 (wrap_u32 (zlen tokens) * 2)))
  end.
End Enf.

(** ** What the interceptors decide *)

#[local] Opaque ContentHash_compute.

(** The object or the key is revoked in the chain. *)
Definition barred (c : RevocationChain) (id : EngineObjectId) (key : VerificationKey) : bool :=
  Chain.is_revoked c id || Chain.is_revoked c (key_id_from_verification_key key).

(** The denial for a barred object. *)
Definition denial_for (c : RevocationChain) (point : EnforcementPoint) (ty : RevocationTargetType)
    (id : EngineObjectId) (key : VerificationKey) : RevocationDenial :=
  if Chain.is_revoked c id then mkDenial ty id false None point
  else mkDenial ty id true (Some (key_id_from_verification_key key)) point.

Definition decision (c : RevocationChain) (point : EnforcementPoint) (ty : RevocationTargetType)
    (id : EngineObjectId) (key : VerificationKey) : EnforcementResult :=
  if barred c id key then Denied (denial_for c point ty id key) else Cleared point 2.

Lemma check_decides e point ty id key trace :
  (Enf.check_object_and_key e point ty id key trace).2 = decision (en_chain e) point ty id key /\
  en_chain (Enf.check_object_and_key e point ty id key trace).1 = en_chain e.
Proof.
  unfold Enf.check_object_and_key, decision, barred, denial_for. cbn [Enf.emit_audit en_chain].
  destruct (Chain.is_revoked (en_chain e) id); cbn [orb]; [done|].
  by destruct (Chain.is_revoked (en_chain e) (key_id_from_verification_key key)).
Qed.

Lemma batch_decides e tokens trace :
  en_chain (Enf.check_token_batch e tokens trace).1 = en_chain e /\
  (is_cleared (Enf.check_token_batch e tokens trace).2 = true <->
   Forall (fun t => barred (en_chain e) t.1 t.2 = false) tokens) /\
  (forall d, (Enf.check_token_batch e tokens trace).2 = Denied d ->
     exists pre id key post, tokens = pre ++ (id, key) :: post /\
       Forall (fun t => barred (en_chain e) t.1 t.2 = false) pre /\
       barred (en_chain e) id key = true /\ d = denial_for (en_chain e) TokenAcceptance TgToken id key).
Proof.
  assert (H : en_chain (Enf.batch_loop e tokens trace).1 = en_chain e /\
    match (Enf.batch_loop e tokens trace).2 with
    | None => Forall (fun t => barred (en_chain e) t.1 t.2 = false) tokens
    | Some d => exists pre id key post, tokens = pre ++ (id, key) :: post /\
       Forall (fun t => barred (en_chain e) t.1 t.2 = false) pre /\
       barred (en_chain e) id key = true /\ d = denial_for (en_chain e) TokenAcceptance TgToken id key
    end).
  { revert e. induction tokens as [|[id key] rest IH]; intros e; [by split; [|constructor]|].
    cbn [Enf.batch_loop]. unfold Enf.check_token_acceptance.
    destruct (check_decides e TokenAcceptance TgToken id key trace) as [Hd Hc].
    destruct (Enf.check_object_and_key _ _ _ _ _ _) as [e' r]. cbn [fst snd] in *. subst r. unfold decision.
    destruct (barred (en_chain e) id key) eqn:Hb; cbn [fst snd].
    - split; [done|]. exists [], id, key, rest. done.
    - destruct (IH e') as [Hc' Hr]. rewrite Hc in *. split; [done|].
      destruct (Enf.batch_loop e' rest trace).2 as [d|]; [|by constructor].
      destruct Hr as (pre & i & k & post & -> & Hp & Hr). exists ((id, key) :: pre), i, k, post.
      split; [done|]. split; [by constructor|done]. }
  unfold Enf.check_token_batch. destruct (Enf.batch_loop e tokens trace) as [e' [d|]]; cbn [fst snd is_cleared] in *.
  - destruct H as [Hc H]. split; [done|]. split; [|by intros ? [= <-]].
    split; [done|]. intros Hall. destruct H as (pre & i & k & post & -> & _ & Hb & _).
    apply Forall_app in Hall as [_ Hall]. apply Forall_cons in Hall as [Hall _]. cbn in Hall. congruence.
  - destruct H as [Hc H]. done.
Qed.

(** ** Runs of the enforcer *)

(** One call on an enforcer, or one on its chain through [chain_mut]. *)
Inductive enf_step : RevocationEnforcer -> RevocationEnforcer -> Prop :=
  | es_token e id key trace : enf_step e (Enf.check_token_acceptance e id key trace).1
  | es_high_risk e id key cat trace : enf_step e (Enf.check_high_risk_operation e id key cat trace).1
  | es_extension e id key trace : enf_step e (Enf.check_extension_activation e id key trace).1
  | es_batch e tokens trace : enf_step e (Enf.check_token_batch e tokens trace).1
  | es_tick e tick : enf_step e (Enf.set_tick e tick)
  | es_drain e : enf_step e (Enf.drain_audit_log e).1
  | es_chain e c : chain_step (en_chain e) c -> enf_step e (mkEnf c (audit_log e) (en_stats e) (en_tick e)).

Lemma enf_step_chain e e' : enf_step e e' -> en_chain e' = en_chain e \/ chain_step (en_chain e) (en_chain e').
Proof.
  intros H. destruct H; [left; apply check_decides..|left; apply batch_decides|by left|by left|by right].
Qed.

Lemma enf_run_chain e e' : rtc enf_step e e' -> rtc chain_step (en_chain e) (en_chain e').
Proof.
  induction 1 as [|e d e' Hs _ IH]; [done|]. apply enf_step_chain in Hs as [Heq|Hs]; [by rewrite <- Heq|].
  by eapply rtc_l.
Qed.

(** Revocation is final. *)
Lemma revoked_stays c c' id :
  chain_inv c -> rtc chain_step c c' -> Chain.is_revoked c id = true -> Chain.is_revoked c' id = true.
Proof.
  intros Hc Hr. destruct (chain_run_inv _ _ Hr Hc) as (Hc' & _ & [l Hp]).
  rewrite !inv_revoked by done. intros (ev & Hin & He). exists ev. split; [|done].
  rewrite Hp. apply elem_of_app. by left.
Qed.

Lemma barred_stays c c' id key :
  chain_inv c -> rtc chain_step c c' -> barred c id key = true -> barred c' id key = true.
Proof.
  unfold barred. rewrite !orb_true_iff. intros Hc Hr [H|H]; [left|right]; by eapply revoked_stays.
Qed.

Lemma barred_iff c id key :
  chain_inv c ->
  barred c id key = false <->
  forall ev, ev ∈ rc_events c -> target ev <> id /\ target ev <> key_id_from_verification_key key.
Proof.
  intros Hc. unfold barred. rewrite orb_false_iff, <- !not_true_iff_false, !inv_revoked by done. split.
  - intros [H1 H2] ev Hin. split; intros He; [apply H1|apply H2]; eauto.
  - intros H. split; intros (ev & Hin & He); by destruct (H ev Hin).
Qed.

(** *** The account of the calls *)

Definition stats_balanced (s : EnforcementStats) : Prop :=
  st_checks s = wrap_u64 (st_cleared s + st_denied s).
Definition balanced (e : RevocationEnforcer) : Prop := forall p, stats_balanced (Enf.stats_at e p).

Lemma wrap_add_l a b : wrap_u64 (wrap_u64 a + b) = wrap_u64 (a + b).
Proof. unfold wrap_u64. by rewrite Zplus_mod_idemp_l. Qed.

Lemma wrap_add_r a b : wrap_u64 (a + wrap_u64 b) = wrap_u64 (a + b).
Proof. unfold wrap_u64. by rewrite Zplus_mod_idemp_r. Qed.

Lemma balanced_update e point s log :
  balanced e -> stats_balanced s ->
  balanced (mkEnf (en_chain e) log (<[point := s]> (en_stats e)) (en_tick e)).
Proof.
  intros He Hs p. unfold Enf.stats_at. cbn [en_stats]. destruct (decide (p = point)) as [->|Hne].
  - by rewrite lookup_insert_eq.
  - rewrite lookup_insert_ne by done. apply He.
Qed.

Lemma check_balanced e point ty id key trace :
  balanced e -> balanced (Enf.check_object_and_key e point ty id key trace).1.
Proof.
  intros He. pose proof (He point) as Hs. unfold stats_balanced in Hs.
  assert (Hden : forall t, stats_balanced (mkStats (wrap_u64 (st_checks (Enf.stats_at e point) + 1))
    (st_cleared (Enf.stats_at e point)) (wrap_u64 (st_denied (Enf.stats_at e point) + 1)) t)).
  { intros t. unfold stats_balanced. cbn [st_checks st_cleared st_denied].
    rewrite Hs, wrap_add_l, wrap_add_r. f_equal. lia. }
  assert (Hclr : forall t, stats_balanced (mkStats (wrap_u64 (st_checks (Enf.stats_at e point) + 1))
    (wrap_u64 (st_cleared (Enf.stats_at e point) + 1)) (st_denied (Enf.stats_at e point)) t)).
  { intros t. unfold stats_balanced. cbn [st_checks st_cleared st_denied].
    rewrite Hs, !wrap_add_l. f_equal. lia. }
  unfold Enf.check_object_and_key. cbv zeta. cbn [Enf.emit_audit en_chain].
  destruct (Chain.is_revoked (en_chain e) id); cbn [fst]; [by apply (balanced_update e)|].
  destruct (Chain.is_revoked _ _); cbn [fst]; by apply (balanced_update e).
Qed.

Lemma batch_balanced e tokens trace : balanced e -> balanced (Enf.check_token_batch e tokens trace).1.
Proof.
  intros He. assert (H : balanced (Enf.batch_loop e tokens trace).1).
  { revert e He. induction tokens as [|[id key] rest IH]; intros e He; [done|]. cbn [Enf.batch_loop].
    unfold Enf.check_token_acceptance. pose proof (check_balanced e TokenAcceptance TgToken id key trace He) as Hb.
    destruct (Enf.check_object_and_key _ _ _ _ _ _) as [e' [|d]]; [by apply IH|done]. }
  unfold Enf.check_token_batch. by destruct (Enf.batch_loop e tokens trace) as [e' [d|]].
Qed.

Lemma enf_run_balanced e e' : rtc enf_step e e' -> balanced e -> balanced e'.
Proof.
  induction 1 as [|e d e' Hs _ IH]; [done|]. intros He. apply IH.
  destruct Hs; try exact He; [by apply check_balanced..|by apply batch_balanced].
Qed.

(** The entries that a call adds to the log. *)
Definition entries_for (e : RevocationEnforcer) point ty id key trace : list RevocationCheckEvent :=
  let c := en_chain e in
  let key_id := key_id_from_verification_key key in
  mkCheck point id ty (Chain.is_revoked c id) false trace (en_tick e) ::
  if Chain.is_revoked c id then []
  else [mkCheck point key_id TgKey (Chain.is_revoked c key_id) true trace (en_tick e)].

Lemma check_logs e point ty id key trace :
  audit_log (Enf.check_object_and_key e point ty id key trace).1 =
  audit_log e ++ entries_for e point ty id key trace.
Proof.
  unfold Enf.check_object_and_key, entries_for. cbv zeta. cbn [Enf.emit_audit en_chain audit_log en_tick].
  destruct (Chain.is_revoked (en_chain e) id); [done|].
  destruct (Chain.is_revoked _ _); symmetry; exact (app_assoc (audit_log e) [_] [_]).
Qed.

(** What an interceptor promises in a state of the enforcer. *)
Definition interceptor_exact (e : RevocationEnforcer) (point : EnforcementPoint) (ty : RevocationTargetType)
    (check : EngineObjectId -> VerificationKey -> string -> RevocationEnforcer * EnforcementResult) : Prop :=
  forall id key trace,
    (is_cleared (check id key trace).2 = true <->
     forall ev, ev ∈ rc_events (en_chain e) -> target ev <> id /\ target ev <> key_id_from_verification_key key) /\
    (check id key trace).2 = decision (en_chain e) point ty id key /\
    audit_log (check id key trace).1 = audit_log e ++ entries_for e point ty id key trace /\
    en_chain (check id key trace).1 = en_chain e.

Lemma shared_body_exact e point ty :
  chain_inv (en_chain e) -> interceptor_exact e point ty (Enf.check_object_and_key e point ty).
Proof.
  intros Hc id key trace. destruct (check_decides e point ty id key trace) as [Hd He].
  split; [|split; [done|split; [apply check_logs|done]]].
  rewrite Hd, <- barred_iff by done. unfold decision. by destruct (barred _ _ _).
Qed.

(** C20. In every state the enforcer can reach, with its revocation chain growing in
    between, each of the three interceptors clears an object exactly when no event of the
    chain targets it or its key, reports the denial it should (direct, or transitive with
    the key as root), logs its one or two checks and leaves the chain alone. A denial is
    final: after any further calls the object is denied at all three points. The
    statistics balance modulo 2^64. *)
Theorem revocation_enforced (zone : string) (tick : Z) (e : RevocationEnforcer) :
  rtc enf_step (Enf.new (Chain.new zone) tick) e ->
  interceptor_exact e TokenAcceptance TgToken (Enf.check_token_acceptance e) /\
  (forall cat, interceptor_exact e HighRiskOperation TgAttestation
     (fun id key => Enf.check_high_risk_operation e id key cat)) /\
  interceptor_exact e ExtensionActivation TgExtension (Enf.check_extension_activation e) /\
  (forall e' id key trace trace', rtc enf_step e e' ->
     is_cleared (Enf.check_token_acceptance e id key trace).2 = false ->
     is_cleared (Enf.check_token_acceptance e' id key trace').2 = false /\
     (forall cat, is_cleared (Enf.check_high_risk_operation e' id key cat trace').2 = false) /\
     is_cleared (Enf.check_extension_activation e' id key trace').2 = false) /\
  (forall p, st_checks (Enf.stats_at e p) =
             wrap_u64 (st_cleared (Enf.stats_at e p) + st_denied (Enf.stats_at e p))).
Proof.
  intros Hr. assert (Hc : chain_inv (en_chain e)).
  { apply enf_run_chain in Hr. cbn [Enf.new en_chain] in Hr. apply (chain_run_inv _ _ Hr), chain_new_inv. }
  split; [by apply shared_body_exact|]. split; [intros cat; by apply shared_body_exact|].
  split; [by apply shared_body_exact|]. split; [|by apply (enf_run_balanced _ _ Hr)].
  intros e' id key trace trace' Hrun H. apply enf_run_chain in Hrun.
  unfold Enf.check_token_acceptance, Enf.check_high_risk_operation, Enf.check_extension_activation in *.
  assert (Hb : barred (en_chain e') id key = true).
  { apply (barred_stays _ _ _ _ Hc Hrun). rewrite (proj1 (check_decides _ _ _ _ _ _)) in H. unfold decision in H.
    by destruct (barred _ _ _). }
  split; [|split; [intros cat|]]; rewrite (proj1 (check_decides _ _ _ _ _ _)); unfold decision; by rewrite Hb.
Qed.

(** ** The chain as the oracle of delegation *)

#[export] Instance chain_oracle : RevocationOracle RevocationChain := Chain.is_revoked.

(** Once a link is revoked, no delegation chain through it verifies again. *)
Theorem revoked_link_ends_delegation (zone : string) (c c' : RevocationChain) (d : DelegationChain) k t
    cap leaf ctx :
  rtc chain_step (Chain.new zone) c -> rtc chain_step c c' ->
  links d !! k = Some t -> Chain.is_revoked c (jti t) = true ->
  is_ok (verify_chain d cap leaf ctx c') = false.
Proof.
  intros Hr Hr' Hk Hrev. destruct (chain_run_inv _ _ Hr (chain_new_inv zone)) as (Hc & _).
  destruct (verify_chain d cap leaf ctx c') as [p|] eqn:H; [|done]. exfalso.
  apply delegation_chain_exact_iff in H as (root & lf & _ & _ & _ & _ & Hok & _).
  apply links_ok_lookup with (1 := Hok) in Hk as [_ _ _ Hl _ _].
  apply (revoked_stays _ _ _ Hc Hr') in Hrev. unfold is_revoked, chain_oracle in Hl. congruence.
Qed.

(** ** Examples *)

#[local] Transparent ContentHash_compute.

Definition enf0 : RevocationEnforcer := Enf.new (Chain.new "zr") 7.

(** A key is revoked, and with it every token of its issuer. *)
Definition key_revocation (vk : VerificationKey) : Revocation :=
  mkRevocation (replicate 32 x21) TgKey (key_id_from_verification_key vk) Compromised (replicate 32 x22) 5 "zr"
    (mkSignature (replicate 32 x23) (replicate 32 x24)).

Definition bad_key : VerificationKey := replicate 32 x31.
Definition good_key : VerificationKey := replicate 32 x32.
Definition some_token : EngineObjectId := replicate 32 x33.

Definition enf1 : RevocationEnforcer :=
  mkEnf (Chain.append (en_chain enf0) (key_revocation bad_key) (replicate 32 x41) "t").1
    (audit_log enf0) (en_stats enf0) (en_tick enf0).

Lemma enf1_run : rtc enf_step enf0 enf1.
Proof.
  apply rtc_once, es_chain. destruct (Chain.append (en_chain enf0) _ _ _) as [c r] eqn:H.
  eapply step_append; [|exact H]. reflexivity.
Qed.

Lemma revocation_enforced_witness :
  is_cleared (Enf.check_token_acceptance enf1 some_token good_key "t").2 = true /\
  is_cleared (Enf.check_token_acceptance enf1 some_token bad_key "t").2 = false /\
  is_cleared (Enf.check_extension_activation
    (Enf.check_token_acceptance enf1 some_token good_key "t").1 some_token bad_key "u").2 = false.
Proof.
  assert (Hgood : is_cleared (Enf.check_token_acceptance enf1 some_token good_key "t").2 = true)
    by (vm_compute; reflexivity).
  assert (Hbad : is_cleared (Enf.check_token_acceptance enf1 some_token bad_key "t").2 = false)
    by (vm_compute; reflexivity).
  destruct (revocation_enforced "zr" 7 enf1 enf1_run) as (_ & _ & _ & Hfinal & _).
  split; [exact Hgood|]. split; [exact Hbad|].
  refine (proj2 (proj2 (Hfinal _ some_token bad_key "t" "u" _ Hbad))).
  apply rtc_once, es_token.
Defined.
