(* ===== verification/RevocationFreshness.v ===== *)
(** * Revocation freshness (crates/franken-engine/src/revocation_freshness.rs)

    The controller that compares the local revocation head with the expected
    one, moves between fresh, stale, degraded and recovering, and denies
    revocation-dependent operations in the last two states, except against a
    signed override.  [reevaluate_state] loops until the state is stable; it
    runs on [reevaluate_fuel] iterations here, which the theorems show are
    always enough.  [start + holdoff_ticks] wraps at 64 bits, as unchecked
    arithmetic does in release builds.  [create] panics where signing fails,
    which is [None] here. *)
From stdpp Require Import base numbers list strings gmap.
From Stdlib Require Import Strings.Byte.
From S2P Require Import Prelude Bytes Text HashTiers DetSerde IrContract SignaturePreimage.
From S2P Require Import EngineObjectId SortedMultisig PolicyCheckpoint.
Open Scope string_scope.
Open Scope list_scope.
Open Scope Z_scope.

Definition OVERRIDE_SCHEMA_DEF : list byte := str_bytes "FrankenEngine.DegradedModeOverride.v1".
Definition override_schema_id : SchemaId := SchemaId_from_definition OVERRIDE_SCHEMA_DEF.

Inductive FreshnessState := Fresh | Stale | Degraded | Recovering.

#[export] Instance FreshnessState_eq_dec : EqDecision FreshnessState.
Proof. solve_decision. Defined.

Inductive OperationType :=
  | SafeOperation | OpTokenAcceptance | OpExtensionActivation | OpHighRiskOperation | HealthCheck.

#[export] Instance OperationType_eq_dec : EqDecision OperationType.
Proof. solve_decision. Defined.

Definition operation_code (o : OperationType) : Z :=
  match o with
  | SafeOperation => 0 | OpTokenAcceptance => 1 | OpExtensionActivation => 2
  | OpHighRiskOperation => 3 | HealthCheck => 4
  end.
Definition operation_of_code (z : Z) : OperationType :=
  default HealthCheck ([SafeOperation; OpTokenAcceptance; OpExtensionActivation; OpHighRiskOperation] !! Z.to_nat z).

#[export] Instance OperationType_countable : Countable OperationType.
Proof. refine (inj_countable' operation_code operation_of_code _). by intros []. Defined.

Definition operation_string (o : OperationType) : string :=
  match o with
  | SafeOperation => "safe_operation"
  | OpTokenAcceptance => "token_acceptance"
  | OpExtensionActivation => "extension_activation"
  | OpHighRiskOperation => "high_risk_operation"
  | HealthCheck => "health_check"
  end.

Record DegradedDenial := mkDegraded {
  dd_operation_type : OperationType;
  dd_local_head_seq : Z;
  dd_expected_head_seq : Z;
  dd_staleness_gap : Z }.

Inductive FreshnessDecision :=
  | Proceed
  | FreshnessDenied (d : DegradedDenial)
  | OverrideGranted (override_id : EngineObjectId) (operator_id : string).

Inductive OverrideError :=
  | OverrideExpired (expiry current : Z)
  | OperationMismatch (requested override_type : OperationType)
  | OverrideSignatureInvalid (detail : string)
  | UnauthorizedOperator (operator_id : string)
  | NotDegraded (current_state : FreshnessState).

(** ** Overrides *)

Record DegradedModeOverride := mkOverride {
  override_id : EngineObjectId;
  ov_operation_type : OperationType;
  operator_id : string;
  justification : string;
  ov_expiry : Z;
  ov_zone : string;
  ov_signature : Signature }.

Definition build_canonical (op : OperationType) (operator_id : string) (expiry : Z) (zone : string) :
    list byte :=
  str_bytes (operation_string op) ++ str_bytes operator_id ++ be_bytes 8 expiry ++ str_bytes zone.

Definition override_view (o : DegradedModeOverride) : CanonicalValue :=
  map_of [("expiry", VU64 (ov_expiry o));
          ("operation_type", VString (operation_string (ov_operation_type o)));
          ("operator_id", VString (operator_id o));
          ("override_id", VBytes (override_id o));
          ("signature", VBytes SIGNATURE_SENTINEL);
          ("zone", VString (ov_zone o))].

Definition override_preimage (o : DegradedModeOverride) : list byte :=
  tag PolicyObject ++ from_definition OVERRIDE_SCHEMA_DEF ++ encode_value (override_view o).

Definition create (op : OperationType) (operator_id justification : string) (expiry : Z) (zone : string)
    (sk : SigningKey) : option DegradedModeOverride :=
  match derive_id PolicyObject zone override_schema_id (build_canonical op operator_id expiry zone) with
  | Err _ => None
  | Ok id =>
      let token := mkOverride id op operator_id justification expiry zone (Signature_from_bytes SIGNATURE_SENTINEL) in
      match sign_preimage sk (override_preimage token) with
      | Err _ => None
      | Ok sig => Some (mkOverride id op operator_id justification expiry zone sig)
      end
  end.

(** ** The controller *)

Record FreshnessStateChangeEvent := mkStateChange {
  from_state : FreshnessState;
  to_state : FreshnessState;
  sc_local_head_seq : Z;
  sc_expected_head_seq : Z;
  sc_staleness_gap : Z;
  threshold : Z;
  sc_trace : string;
  sc_timestamp : Z }.

Record DegradedModeDecisionEvent := mkDecision {
  de_operation_type : OperationType;
  de_outcome : string;
  de_local_head_seq : Z;
  de_expected_head_seq : Z;
  de_override_id : option EngineObjectId;
  de_operator_id : option string;
  de_trace : string;
  de_timestamp : Z }.

Record FreshnessConfig := mkFConfig {
  staleness_threshold : Z;
  holdoff_ticks : Z;
  override_eligible : gset OperationType;
  authorized_operators : gset string }.

Definition default_config : FreshnessConfig := mkFConfig 5 10 {[OpExtensionActivation]} ∅.

Record RevocationFreshnessController := mkCtl {
  config : FreshnessConfig;
  fstate : FreshnessState;
  local_head_seq : Z;
  expected_head_seq : Z;
  fc_tick : Z;
  recovery_start_tick : option Z;
  state_events : list FreshnessStateChangeEvent;
  decision_events : list DegradedModeDecisionEvent;
  outcome_counts : gmap string Z;
  fc_zone : string }.

Module Ctl.
Definition new (config : FreshnessConfig) (zone : string) : RevocationFreshnessController :=
  mkCtl config Fresh 0 0 0 None [] [] ∅ zone.

Definition is_degraded (c : RevocationFreshnessController) : bool := bool_decide (fstate c = Degraded).
Definition is_fresh (c : RevocationFreshnessController) : bool := bool_decide (fstate c = Fresh).

Definition staleness_gap (c : RevocationFreshnessController) : Z :=
  sat_sub64 (expected_head_seq c) (local_head_seq c).

(** The [match] of [reevaluate_state]: the next state and recovery start. *)
Definition next_state (c : RevocationFreshnessController) : FreshnessState * option Z :=
  let gap := staleness_gap c in
  let limit := staleness_threshold (config c) in
  let start := recovery_start_tick c in
  match fstate c with
  | Fresh => (if 0 <? gap then Stale else Fresh, start)
  | Stale =>
      (if limit <? gap then Degraded else if gap =? 0 then Fresh else Stale, start)
  | Degraded =>
      if gap <=? limit then (Recovering, Some (fc_tick c)) else (Degraded, start)
  | Recovering =>
      if limit <? gap then (Degraded, None)
      else match start with
           | Some s =>
               if wrap_u64 (s + holdoff_ticks (config c)) <=? fc_tick c then (Fresh, None)
               else (Recovering, start)
           | None => (Recovering, Some (fc_tick c))
           end
  end.

Definition state_change (c : RevocationFreshnessController) (to : FreshnessState) (trace : string) :
    FreshnessStateChangeEvent :=
  mkStateChange (fstate c) to (local_head_seq c) (expected_head_seq c) (staleness_gap c)
    (staleness_threshold (config c)) trace (fc_tick c).

Fixpoint reevaluate_loop (fuel : nat) (c : RevocationFreshnessController) (trace : string) :
    option RevocationFreshnessController :=
  match fuel with
  | O => None
  | S fuel =>
      let (to, start) := next_state c in
      if decide (to = fstate c) then
        Some (mkCtl (config c) (fstate c) (local_head_seq c) (expected_head_seq c) (fc_tick c) start
                (state_events c) (decision_events c) (outcome_counts c) (fc_zone c))
      else
        reevaluate_loop fuel
          (mkCtl (config c) to (local_head_seq c) (expected_head_seq c) (fc_tick c) start
             (state_events c ++ [state_change c to trace]) (decision_events c) (outcome_counts c)
             (fc_zone c)) trace
  end.

Definition reevaluate_fuel : nat := 4.

Definition reevaluate_state (c : RevocationFreshnessController) (trace : string) :
    option RevocationFreshnessController := reevaluate_loop reevaluate_fuel c trace.

Definition set_tick (c : RevocationFreshnessController) (tick : Z) : RevocationFreshnessController :=
  mkCtl (config c) (fstate c) (local_head_seq c) (expected_head_seq c) tick (recovery_start_tick c)
    (state_events c) (decision_events c) (outcome_counts c) (fc_zone c).

Definition update_local_head (c : RevocationFreshnessController) (seq : Z) (trace : string) :
    option RevocationFreshnessController :=
  reevaluate_state
    (mkCtl (config c) (fstate c) seq (expected_head_seq c) (fc_tick c) (recovery_start_tick c)
       (state_events c) (decision_events c) (outcome_counts c) (fc_zone c)) trace.

Definition update_expected_head (c : RevocationFreshnessController) (seq : Z) (trace : string) :
    option RevocationFreshnessController :=
  reevaluate_state
    (mkCtl (config c) (fstate c) (local_head_seq c) seq (fc_tick c) (recovery_start_tick c)
       (state_events c) (decision_events c) (outcome_counts c) (fc_zone c)) trace.

Definition check_freshness (c : RevocationFreshnessController) (trace : string) :
    option (RevocationFreshnessController * FreshnessState) :=
  c ← reevaluate_state c trace; Some (c, fstate c).

Definition emit_decision (c : RevocationFreshnessController) (op : OperationType) (outcome : string)
    (override_id : option EngineObjectId) (operator_id : option string) (trace : string) :
    RevocationFreshnessController :=
  mkCtl (config c) (fstate c) (local_head_seq c) (expected_head_seq c) (fc_tick c)
    (recovery_start_tick c) (state_events c)
    (decision_events c ++ [mkDecision op outcome (local_head_seq c) (expected_head_seq c) override_id
                             operator_id trace (fc_tick c)])
    (outcome_counts c) (fc_zone c).

Definition count_outcome (c : RevocationFreshnessController) (outcome : string) :
    RevocationFreshnessController :=
  mkCtl (config c) (fstate c) (local_head_seq c) (expected_head_seq c) (fc_tick c)
    (recovery_start_tick c) (state_events c) (decision_events c)
    (<[outcome := wrap_u64 (default 0 (outcome_counts c !! outcome) + 1)]> (outcome_counts c)) (fc_zone c).

Definition evaluate (c : RevocationFreshnessController) (op : OperationType) (trace : string) :
    RevocationFreshnessController * result DegradedDenial FreshnessDecision :=
  if bool_decide (op = SafeOperation) || bool_decide (op = HealthCheck) then
    (emit_decision c op "safe_proceed" None None trace, Ok Proceed)
  else if bool_decide (fstate c = Fresh) then (emit_decision c op "proceed" None None trace, Ok Proceed)
  else if bool_decide (fstate c = Stale) then
    (emit_decision c op "proceed_stale" None None trace, Ok Proceed)
  else
    (count_outcome (emit_decision c op "denied" None None trace) "denied",
     Err (mkDegraded op (local_head_seq c) (expected_head_seq c) (staleness_gap c))).

Definition evaluate_with_override (c : RevocationFreshnessController) (op : OperationType)
    (token : DegradedModeOverride) (operator_key : VerificationKey) (trace : string) :
    RevocationFreshnessController * result OverrideError FreshnessDecision :=
  if negb (bool_decide (fstate c = Degraded)) then (c, Err (NotDegraded (fstate c)))
  else if negb (bool_decide (ov_operation_type token = op)) then
    (c, Err (OperationMismatch op (ov_operation_type token)))
  else if ov_expiry token <=? fc_tick c then (c, Err (OverrideExpired (ov_expiry token) (fc_tick c)))
  else if negb (bool_decide (operator_id token ∈ authorized_operators (config c))) then
    (c, Err (UnauthorizedOperator (operator_id token)))
  else if negb (bool_decide (op ∈ override_eligible (config c))) then
    (c, Err (OperationMismatch op (ov_operation_type token)))
  else
    match verify_signature operator_key (override_preimage token) (ov_signature token) with
    | Err e => (c, Err (OverrideSignatureInvalid (signature_error_string e)))
    | Ok _ =>
        (count_outcome
           (emit_decision c op "override_granted" (Some (override_id token)) (Some (operator_id token)) trace)
           "override_granted",
         Ok (OverrideGranted (override_id token) (operator_id token)))
    end.

Definition drain_state_events (c : RevocationFreshnessController) :
    RevocationFreshnessController * list FreshnessStateChangeEvent :=
  (mkCtl (config c) (fstate c) (local_head_seq c) (expected_head_seq c) (fc_tick c)
     (recovery_start_tick c) [] (decision_events c) (outcome_counts c) (fc_zone c), state_events c).

Definition drain_decision_events (c : RevocationFreshnessController) :
    RevocationFreshnessController * list DegradedModeDecisionEvent :=
  (mkCtl (config c) (fstate c) (local_head_seq c) (expected_head_seq c) (fc_tick c)
     (recovery_start_tick c) (state_events c) [] (outcome_counts c) (fc_zone c), decision_events c).
End Ctl.

(** ** The state machine settles *)

#[local] Opaque encode_value deterministic_hash ContentHash_compute verify_signature.

(** The transitions of the machine. *)
Definition edge (a b : FreshnessState) : bool :=
  match a, b with
  | Fresh, Stale | Stale, Degraded | Stale, Fresh | Degraded, Recovering
  | Recovering, Degraded | Recovering, Fresh => true
  | _, _ => false
  end.

(** The events lead from one state to another along transitions. *)
Fixpoint trail (s : FreshnessState) (l : list FreshnessStateChangeEvent) (t : FreshnessState) : Prop :=
  match l with
  | [] => s = t
  | e :: l => from_state e = s /\ edge s (to_state e) = true /\ trail (to_state e) l t
  end.

Lemma trail_snoc s l t e :
  trail s l t -> from_state e = t -> edge t (to_state e) = true -> trail s (l ++ [e]) (to_state e).
Proof.
  revert s. induction l as [|x l IH]; intros s H Hf He; cbn [trail app] in *; [by subst|].
  destruct H as (H1 & H2 & H3). split; [done|]. split; [done|]. by apply IH.
Qed.

(** The state agrees with the gap, and the recovery start with the state. *)
Definition settled (c : RevocationFreshnessController) : Prop :=
  let gap := Ctl.staleness_gap c in
  let limit := staleness_threshold (config c) in
  match fstate c with
  | Fresh => gap = 0 /\ recovery_start_tick c = None
  | Stale => 0 < gap <= limit /\ recovery_start_tick c = None
  | Degraded => limit < gap /\ recovery_start_tick c = None
  | Recovering => gap <= limit /\ is_Some (recovery_start_tick c)
  end.

Definition start_matches (c : RevocationFreshnessController) : Prop :=
  is_Some (recovery_start_tick c) <-> fstate c = Recovering.

Lemma settled_start c : settled c -> start_matches c.
Proof.
  unfold settled, start_matches. destruct (fstate c); intros [_ H]; rewrite ?H; split; intros Hx;
    first [done | by apply is_Some_None in Hx].
Qed.

(** The settled controller differs from the first in state, recovery start and
    state events only. *)
Definition same_inputs (c c' : RevocationFreshnessController) : Prop :=
  config c' = config c /\ local_head_seq c' = local_head_seq c /\
  expected_head_seq c' = expected_head_seq c /\ fc_tick c' = fc_tick c /\
  decision_events c' = decision_events c /\ outcome_counts c' = outcome_counts c /\ fc_zone c' = fc_zone c.

Lemma reevaluate_step fuel c trace :
  let c' := mkCtl (config c) (Ctl.next_state c).1 (local_head_seq c) (expected_head_seq c) (fc_tick c)
              (Ctl.next_state c).2 (state_events c ++ [Ctl.state_change c (Ctl.next_state c).1 trace])
              (decision_events c) (outcome_counts c) (fc_zone c) in
  Ctl.reevaluate_loop (S fuel) c trace =
  if decide ((Ctl.next_state c).1 = fstate c) then
    Some (mkCtl (config c) (fstate c) (local_head_seq c) (expected_head_seq c) (fc_tick c)
            (Ctl.next_state c).2 (state_events c) (decision_events c) (outcome_counts c) (fc_zone c))
  else Ctl.reevaluate_loop fuel c' trace.
Proof. cbn [Ctl.reevaluate_loop]. by destruct (Ctl.next_state c). Qed.

(** How many transitions can still follow. *)
Definition distance (c : RevocationFreshnessController) : nat :=
  let gap := Ctl.staleness_gap c in
  let limit := staleness_threshold (config c) in
  match fstate c with
  | Fresh => if gap =? 0 then 0%nat else if gap <=? limit then 1%nat else 2%nat
  | Stale => if gap =? 0 then 1%nat else if gap <=? limit then 0%nat else 1%nat
  | Degraded => if gap <=? limit then 3%nat else 0%nat
  | Recovering => if gap <=? limit then 2%nat else 1%nat
  end.

Lemma gap_nonneg c : 0 <= Ctl.staleness_gap c.
Proof. unfold Ctl.staleness_gap. mlia. Qed.

Ltac freshness_cases :=
  repeat match goal with
  | |- context [Z.ltb ?a ?b] => destruct (Z.ltb_spec a b)
  | |- context [Z.leb ?a ?b] => destruct (Z.leb_spec a b)
  | |- context [Z.eqb ?a ?b] => destruct (Z.eqb_spec a b)
  end.

Ltac start_tac := split; intros Hx; first [done | by eauto | by destruct Hx].

(** One transition follows an edge, comes closer to rest and keeps the recovery
    start; where there is none the state is settled. *)
Lemma next_state_cases c :
  0 <= staleness_threshold (config c) -> start_matches c ->
  let n := Ctl.next_state c in
  (n.1 = fstate c ->
   settled (mkCtl (config c) (fstate c) (local_head_seq c) (expected_head_seq c) (fc_tick c) n.2
              (state_events c) (decision_events c) (outcome_counts c) (fc_zone c))) /\
  (n.1 <> fstate c ->
   edge (fstate c) n.1 = true /\
   forall evs, let c' := mkCtl (config c) n.1 (local_head_seq c) (expected_head_seq c) (fc_tick c) n.2 evs
                           (decision_events c) (outcome_counts c) (fc_zone c) in
     start_matches c' /\ (distance c' < distance c)%nat).
Proof.
  intros Hl Hs. destruct c as [cf st l e t rs se de oc z]. cbv zeta.
  pose proof (gap_nonneg (mkCtl cf st l e t rs se de oc z)) as Hg.
  unfold start_matches, settled, distance, Ctl.next_state, Ctl.staleness_gap in *.
  cbn [config fstate local_head_seq expected_head_seq fc_tick recovery_start_tick] in *.
  generalize dependent (sat_sub64 e l). intros g Hg.
  assert (Hnone : st <> Recovering -> rs = None)
    by (intros Hne; apply eq_None_not_Some; tauto).
  destruct st; try (rewrite (Hnone ltac:(done)) in *; clear Hnone).
  all: try (destruct rs as [s|]; [|destruct (proj2 Hs eq_refl) as [? [=]]]).
  all: freshness_cases; cbn; (split; [intros ?; try done; split; first [lia | done | by eauto]|]).
  all: intros ?; try done; (split; [done|]); intros evs; (split; [start_tac|lia]).
Qed.

(** What one re-evaluation does. *)
Definition reevaluated (c c' : RevocationFreshnessController) : Prop :=
  settled c' /\ same_inputs c c' /\
  (forall s0, trail s0 (state_events c) (fstate c) -> trail s0 (state_events c') (fstate c')).

Lemma reevaluate_loop_settles fuel c trace :
  0 <= staleness_threshold (config c) -> start_matches c -> (distance c < fuel)%nat ->
  exists c', Ctl.reevaluate_loop fuel c trace = Some c' /\ reevaluated c c'.
Proof.
  revert c. induction fuel as [|fuel IH]; intros c Hl Hs Hd; [lia|]. rewrite reevaluate_step.
  destruct (next_state_cases c Hl Hs) as [Hstay Hmove]. case_decide as He.
  - eexists. split; [done|]. split; [by apply Hstay|]. split; [by split_and!|done].
  - destruct (Hmove He) as [Hedge Hc']. destruct (Hc' (state_events c ++ [Ctl.state_change c (Ctl.next_state c).1 trace]))
      as [Hs' Hd'].
    match goal with |- exists _, Ctl.reevaluate_loop _ ?d _ = _ /\ _ =>
      destruct (IH d Hl Hs' ltac:(lia)) as (c' & -> & Hset & Hsame & Htr) end. exists c'. split; [done|].
    split; [done|]. split; [exact Hsame|]. intros s0 Ht. apply Htr. cbn [state_events fstate].
    apply (trail_snoc s0 (state_events c) (fstate c) (Ctl.state_change c (Ctl.next_state c).1 trace)); done.
Qed.

Lemma reevaluate_settles c trace :
  0 <= staleness_threshold (config c) -> start_matches c ->
  exists c', Ctl.reevaluate_state c trace = Some c' /\ reevaluated c c'.
Proof.
  intros Hl Hs. apply reevaluate_loop_settles; [done..|]. unfold distance, Ctl.reevaluate_fuel.
  destruct (fstate c); freshness_cases; lia.
Qed.

(** ** Runs of the controller *)

Inductive ctl_step : RevocationFreshnessController -> RevocationFreshnessController -> Prop :=
  | cs_tick c tick : ctl_step c (Ctl.set_tick c tick)
  | cs_local c seq trace c' : Ctl.update_local_head c seq trace = Some c' -> ctl_step c c'
  | cs_expected c seq trace c' : Ctl.update_expected_head c seq trace = Some c' -> ctl_step c c'
  | cs_check c trace c' s : Ctl.check_freshness c trace = Some (c', s) -> ctl_step c c'
  | cs_evaluate c op trace : ctl_step c (Ctl.evaluate c op trace).1
  | cs_override c op token key trace : ctl_step c (Ctl.evaluate_with_override c op token key trace).1
  | cs_drain_state c : ctl_step c (Ctl.drain_state_events c).1
  | cs_drain_decisions c : ctl_step c (Ctl.drain_decision_events c).1.

(** The machine's part of the state. *)
Definition same_machine (c c' : RevocationFreshnessController) : Prop :=
  config c' = config c /\ fstate c' = fstate c /\ local_head_seq c' = local_head_seq c /\
  expected_head_seq c' = expected_head_seq c /\ recovery_start_tick c' = recovery_start_tick c.

Lemma same_machine_settled c c' : same_machine c c' -> settled c -> settled c'.
Proof.
  intros (H1 & H2 & H3 & H4 & H5). unfold settled, Ctl.staleness_gap. by rewrite H1, H2, H3, H4, H5.
Qed.

Lemma evaluate_same c op trace :
  same_machine c (Ctl.evaluate c op trace).1 /\ fc_tick (Ctl.evaluate c op trace).1 = fc_tick c /\
  state_events (Ctl.evaluate c op trace).1 = state_events c.
Proof. unfold Ctl.evaluate. by destruct (_ || _); [|destruct (bool_decide _); [|destruct (bool_decide _)]]. Qed.

Lemma override_same c op token key trace :
  same_machine c (Ctl.evaluate_with_override c op token key trace).1 /\
  fc_tick (Ctl.evaluate_with_override c op token key trace).1 = fc_tick c /\
  state_events (Ctl.evaluate_with_override c op token key trace).1 = state_events c.
Proof.
  unfold Ctl.evaluate_with_override. by repeat (case_match; [done|]).
Qed.

(** A step leaves the machine alone, or re-evaluates it, perhaps on new heads. *)
Lemma ctl_step_cases c c' :
  ctl_step c c' ->
  (same_machine c c' /\ (state_events c' = state_events c \/ state_events c' = [])) \/
  exists c1 trace, Ctl.reevaluate_state c1 trace = Some c' /\ config c1 = config c /\ fstate c1 = fstate c /\
    fc_tick c1 = fc_tick c /\ recovery_start_tick c1 = recovery_start_tick c /\ state_events c1 = state_events c.
Proof.
  intros H. destruct H as [c tick|c seq trace c' H|c seq trace c' H|c trace c' s H|c op trace|c op token key trace|c|c].
  - left. by split; [|left].
  - right. eexists _, trace. split; [exact H|]. done.
  - right. eexists _, trace. split; [exact H|]. done.
  - right. apply bind_Some in H as (d & Hd & [= <- _]). by exists c, trace.
  - left. split; [|left]; apply evaluate_same.
  - left. split; [|left]; apply override_same.
  - left. by split; [|right].
  - left. by split; [|left].
Qed.

Definition freshness_inv (c : RevocationFreshnessController) : Prop :=
  0 <= staleness_threshold (config c) /\ settled c /\ exists s0, trail s0 (state_events c) (fstate c).

Lemma ctl_step_inv c c' : ctl_step c c' -> freshness_inv c -> freshness_inv c'.
Proof.
  intros H%ctl_step_cases (Hl & Hs & s0 & Ht). destruct H as [[Hm He]|(c1 & trace & H & H1 & H2 & _ & H4 & H5)].
  - pose proof (same_machine_settled _ _ Hm Hs) as Hs'. destruct Hm as (E1 & E2 & _).
    split; [by rewrite E1|]. split; [done|]. rewrite E2. destruct He as [->| ->]; [by exists s0|by exists (fstate c)].
  - destruct (reevaluate_settles c1 trace) as (d & Hd & Hset & Hsame & Htr); [by rewrite H1| |].
    { unfold start_matches. rewrite H2, H4. by apply settled_start. }
    rewrite H in Hd. injection Hd as <-. split; [destruct Hsame as (-> & _); by rewrite H1|]. split; [done|].
    exists s0. apply Htr. by rewrite H2, H5.
Qed.

Lemma ctl_run_inv c c' : rtc ctl_step c c' -> freshness_inv c -> freshness_inv c'.
Proof. induction 1; eauto using ctl_step_inv. Qed.

Lemma new_freshness_inv cf zone : 0 <= staleness_threshold cf -> freshness_inv (Ctl.new cf zone).
Proof. intros H. split; [done|]. split; [done|]. by exists Fresh. Qed.

Definition dependent (op : OperationType) : bool :=
  match op with SafeOperation | HealthCheck => false | _ => true end.

Lemma evaluate_decides c op trace :
  (Ctl.evaluate c op trace).2 =
  if dependent op && (bool_decide (fstate c = Degraded) || bool_decide (fstate c = Recovering)) then
    Err (mkDegraded op (local_head_seq c) (expected_head_seq c) (Ctl.staleness_gap c))
  else Ok Proceed.
Proof. unfold Ctl.evaluate. by destruct op, (fstate c). Qed.

(** C21. In every reachable state of the freshness controller the state agrees with the
    gap between the expected and the local head (fresh: none, stale: within the threshold,
    degraded: beyond it, recovering: within it, with a start tick), the recorded
    transitions form a path that ends in it, and the loop that re-evaluates the state
    ends. Safe operations always proceed; a revocation-dependent operation proceeds
    exactly when fresh or stale, hence only within the threshold, and otherwise the denial
    carries the two heads and the gap. *)
Theorem freshness_gate (cf : FreshnessConfig) (zone : string) (c : RevocationFreshnessController) :
  0 <= staleness_threshold cf -> rtc ctl_step (Ctl.new cf zone) c ->
  settled c /\ (exists s0, trail s0 (state_events c) (fstate c)) /\
  (forall seq trace, exists c', Ctl.update_local_head c seq trace = Some c') /\
  (forall seq trace, exists c', Ctl.update_expected_head c seq trace = Some c') /\
  (forall trace, exists c', Ctl.check_freshness c trace = Some (c', fstate c')) /\
  (forall op trace, dependent op = false -> (Ctl.evaluate c op trace).2 = Ok Proceed) /\
  (forall op trace, dependent op = true ->
     ((Ctl.evaluate c op trace).2 = Ok Proceed <-> fstate c = Fresh \/ fstate c = Stale) /\
     ((Ctl.evaluate c op trace).2 = Ok Proceed ->
      Ctl.staleness_gap c <= staleness_threshold (config c)) /\
     ((Ctl.evaluate c op trace).2 <> Ok Proceed ->
      (Ctl.evaluate c op trace).2 =
        Err (mkDegraded op (local_head_seq c) (expected_head_seq c) (Ctl.staleness_gap c)))).
Proof.
  intros Hl Hr. destruct (ctl_run_inv _ _ Hr (new_freshness_inv cf zone Hl)) as (Hl' & Hs & Ht).
  pose proof (settled_start c Hs) as Hst. split; [done|]. split; [done|].
  split; [|split; [|split; [|split]]].
  - intros seq trace. edestruct (reevaluate_settles) as (c' & Hc & _); [| |exists c'; exact Hc]; done.
  - intros seq trace. edestruct (reevaluate_settles) as (c' & Hc & _); [| |exists c'; exact Hc]; done.
  - intros trace. destruct (reevaluate_settles c trace Hl' Hst) as (c' & Hc & _). exists c'.
    unfold Ctl.check_freshness. by rewrite Hc.
  - intros op trace Hd. by rewrite evaluate_decides, Hd.
  - intros op trace Hd. rewrite evaluate_decides, Hd. unfold settled in Hs. pose proof (gap_nonneg c).
    destruct (fstate c); cbn [andb bool_decide decide]; (split; [naive_solver|]); (split; [|naive_solver]);
      intros; first [lia|done].
Qed.

(** ** The holdoff *)

(** A step that does not turn the clock back nor close to its end. *)
Definition clocked_step (c c' : RevocationFreshnessController) : Prop :=
  ctl_step c c' /\ fc_tick c <= fc_tick c' /\ fc_tick c' + holdoff_ticks (config c') <= u64_max.

(** Since [t0], the controller has denied unless the holdoff is over. *)
Definition holding (t0 : Z) (c : RevocationFreshnessController) : Prop :=
  t0 <= fc_tick c /\
  (fc_tick c < t0 + holdoff_ticks (config c) ->
   fstate c = Degraded \/
   fstate c = Recovering /\ exists s, recovery_start_tick c = Some s /\ t0 <= s <= fc_tick c).

Lemma next_state_holding t0 c evs :
  0 <= t0 -> 0 <= holdoff_ticks (config c) -> fc_tick c + holdoff_ticks (config c) <= u64_max ->
  holding t0 c ->
  holding t0 (mkCtl (config c) (Ctl.next_state c).1 (local_head_seq c) (expected_head_seq c) (fc_tick c)
                (Ctl.next_state c).2 evs (decision_events c) (outcome_counts c) (fc_zone c)).
Proof.
  intros H0 Hh Hu [Ht H]. split; [done|]. cbn [fc_tick config fstate recovery_start_tick]. intros Hlt.
  unfold Ctl.next_state. destruct (H Hlt) as [->|(-> & s & -> & Hs)].
  - destruct (_ <=? _); [|by left]. right. split; [done|]. exists (fc_tick c). split; [done|]. lia.
  - destruct (_ <? _); [by left|]. rewrite wrap_u64_small by mlia.
    replace (s + holdoff_ticks (config c) <=? fc_tick c) with false by lia. right. eauto.
Qed.

Lemma reevaluate_keeps fuel c trace c' :
  Ctl.reevaluate_loop fuel c trace = Some c' -> fc_tick c' = fc_tick c /\ config c' = config c.
Proof.
  revert c. induction fuel as [|fuel IH]; intros c H; [done|]. rewrite reevaluate_step in H.
  case_decide; [by injection H as <-|]. exact (IH _ H).
Qed.

Lemma reevaluate_holding t0 fuel c trace c' :
  0 <= t0 -> 0 <= holdoff_ticks (config c) -> fc_tick c + holdoff_ticks (config c) <= u64_max ->
  holding t0 c -> Ctl.reevaluate_loop fuel c trace = Some c' ->
  holding t0 c'.
Proof.
  intros H0. revert c. induction fuel as [|fuel IH]; intros c Hh Hu Hold Hc; [done|].
  rewrite reevaluate_step in Hc. case_decide as He.
  - injection Hc as <-. rewrite <- He. by apply next_state_holding.
  - apply IH in Hc; [exact Hc|done..|by apply next_state_holding].
Qed.

Lemma clocked_step_holding t0 c c' :
  0 <= t0 -> 0 <= holdoff_ticks (config c) -> clocked_step c c' -> holding t0 c ->
  holding t0 c' /\ config c' = config c.
Proof.
  intros H0 Hh (Hs & Hle & Hu) Hold.
  destruct (ctl_step_cases _ _ Hs) as [[Hm _]|(c1 & trace & Hc & H1 & H2 & H3 & H4 & _)].
  - destruct Hm as (E1 & E2 & _ & _ & E5). split; [|done]. destruct Hold as [Ht H]. split; [lia|].
    rewrite E1, E2, E5. intros Hlt. destruct (H ltac:(lia)) as [?|(? & s & ? & ?)]; [by left|right].
    split; [done|]. exists s. split; [done|lia].
  - assert (Hold1 : holding t0 c1) by (unfold holding; by rewrite H1, H2, H3, H4).
    destruct (reevaluate_keeps _ _ _ _ Hc) as [E1 E2].
    apply (reevaluate_holding t0) in Hc; [|done|by rewrite H1| |done].
    + split; [done|congruence].
    + rewrite <- E1, <- E2. done.
Qed.

Lemma clocked_run_holding t0 c c' :
  0 <= t0 -> 0 <= holdoff_ticks (config c) -> rtc clocked_step c c' -> holding t0 c ->
  holding t0 c' /\ config c' = config c.
Proof.
  intros H0 Hh Hr. revert Hh. induction Hr as [c|a b c Hs _ IH]; intros Hh Hold; [done|].
  destruct (clocked_step_holding t0 _ _ H0 Hh Hs Hold) as [Hb Hc]. rewrite Hc in IH. by apply IH.
Qed.

(** After the controller was degraded at some tick, no revocation-dependent operation
    proceeds before the holdoff has passed since, whatever calls are made in between: the
    recovery start is never earlier and a relapse starts anew. The clock does not run
    backwards and stays a holdoff below its maximum. *)
Theorem freshness_holdoff (c0 c : RevocationFreshnessController) (op : OperationType) (trace : string) :
  fstate c0 = Degraded -> 0 <= fc_tick c0 -> 0 <= holdoff_ticks (config c0) ->
  rtc clocked_step c0 c -> dependent op = true -> (Ctl.evaluate c op trace).2 = Ok Proceed ->
  fc_tick c0 + holdoff_ticks (config c0) <= fc_tick c.
Proof.
  intros Hd H0 Hh Hr Hop Hev. destruct (clocked_run_holding (fc_tick c0) c0 c H0 Hh Hr) as [[_ H] Hc].
  { split; [lia|by left]. }
  rewrite evaluate_decides, Hop in Hev. rewrite Hc in H.
  destruct (Z.lt_ge_cases (fc_tick c) (fc_tick c0 + holdoff_ticks (config c0))) as [Hlt|]; [|done].
  destruct (H Hlt) as [Hs|[Hs _]]; rewrite Hs in Hev; discriminate Hev.
Qed.

(** ** Overrides *)

(** An override is granted exactly in degraded mode, for its own operation if
    that is eligible, before its expiry, to an authorized operator, under a
    signature of the key that the caller supplies; a refusal changes nothing. *)
Theorem override_granted_exactly (c : RevocationFreshnessController) (op : OperationType)
    (token : DegradedModeOverride) (key : VerificationKey) (trace : string) :
  let r := Ctl.evaluate_with_override c op token key trace in
  (is_ok r.2 = true <->
   fstate c = Degraded /\ ov_operation_type token = op /\ fc_tick c < ov_expiry token /\
   operator_id token ∈ authorized_operators (config c) /\ op ∈ override_eligible (config c) /\
   verify_signature key (override_preimage token) (ov_signature token) = Ok tt) /\
  (is_ok r.2 = true -> r.2 = Ok (OverrideGranted (override_id token) (operator_id token))) /\
  (is_ok r.2 = false -> r.1 = c).
Proof.
  unfold Ctl.evaluate_with_override. cbv zeta.
  case_bool_decide; cbn [negb]; [|cbn; naive_solver]. case_bool_decide; cbn [negb]; [|cbn; naive_solver].
  destruct (Z.leb_spec (ov_expiry token) (fc_tick c)); [cbn; split; [split; [done|lia]|done]|].
  case_bool_decide; cbn [negb]; [|cbn; naive_solver]. case_bool_decide; cbn [negb]; [|cbn; naive_solver].
  destruct (verify_signature key _ _) as [[]|e]; cbn; naive_solver.
Qed.

(** A created override carries a valid signature of its operator's key. *)
Lemma created_override_signed op operator just expiry zone sk token :
  all_zero (verification_key sk) = false ->
  create op operator just expiry zone sk = Some token ->
  ov_operation_type token = op /\ operator_id token = operator /\ ov_expiry token = expiry /\
  verify_signature (verification_key sk) (override_preimage token) (ov_signature token) = Ok tt.
Proof.
  intros Hz H. unfold create in H. destruct (derive_id _ _ _ _) as [id|]; [|done]. cbv zeta in H.
  unfold sign_preimage in H. destruct (all_zero sk); [done|].
  injection H as <-. split; [done|]. split; [done|]. split; [done|].
  match goal with |- verify_signature _ ?pre _ = _ => exact (signed_entry_verifies pre sk Hz) end.
Qed.

(** Neither the zone of the controller nor the stated justification is part of
    the decision: an override is granted whatever they are. *)
Lemma override_ignores_zone_and_justification c zone just op token key trace :
  is_ok (Ctl.evaluate_with_override
           (mkCtl (config c) (fstate c) (local_head_seq c) (expected_head_seq c) (fc_tick c) (recovery_start_tick c)
              (state_events c) (decision_events c) (outcome_counts c) zone) op
           (mkOverride (override_id token) (ov_operation_type token) (operator_id token) just (ov_expiry token)
              (ov_zone token) (ov_signature token)) key trace).2 =
  is_ok (Ctl.evaluate_with_override c op token key trace).2.
Proof.
  unfold Ctl.evaluate_with_override. cbn [config fstate fc_tick ov_operation_type ov_expiry operator_id ov_signature].
  change (override_preimage (mkOverride (override_id token) (ov_operation_type token) (operator_id token) just
    (ov_expiry token) (ov_zone token) (ov_signature token))) with (override_preimage token).
  do 5 (case_match; [done|]). by case_match.
Qed.

(** ** Examples *)

#[local] Transparent encode_value deterministic_hash ContentHash_compute verify_signature.

Definition or_same (c : RevocationFreshnessController) (o : option RevocationFreshnessController) :=
  default c o.

Definition fc0 : RevocationFreshnessController := Ctl.new default_config "za".
Definition fc1 := Ctl.set_tick (or_same fc0 (Ctl.update_expected_head fc0 10 "a")) 20.
Definition fc2 := or_same fc1 (Ctl.update_local_head fc1 8 "b").
Definition fc3 := Ctl.set_tick fc2 30.
Definition fc4 := or_same fc3 (Ctl.update_local_head fc3 9 "c").

Lemma freshness_walk :
  (fstate fc1, fstate fc2, fstate fc4) = (Degraded, Recovering, Stale) /\
  (to_state <$> state_events fc4) = [Stale; Degraded; Recovering; Fresh; Stale].
Proof. vm_compute. done. Qed.

Lemma fc_runs : rtc ctl_step fc0 fc1 /\ rtc clocked_step fc1 fc4.
Proof.
  split.
  - eapply rtc_l; [|apply rtc_once, cs_tick]. eapply (cs_expected _ 10 "a"). vm_compute. reflexivity.
  - eapply rtc_l; [|eapply rtc_l; [|apply rtc_once]].
    + split; [eapply (cs_local _ 8 "b"); vm_compute; reflexivity|]. split; vm_compute; discriminate.
    + split; [apply (cs_tick _ 30)|]. split; vm_compute; discriminate.
    + split; [eapply (cs_local _ 9 "c"); vm_compute; reflexivity|]. split; vm_compute; discriminate.
Qed.

Lemma freshness_gate_witness : Ctl.staleness_gap fc1 = 10 /\ (Ctl.evaluate fc1 OpTokenAcceptance "t").2 <> Ok Proceed.
Proof.
  split; [reflexivity|]. intros H.
  destruct (freshness_gate default_config "za" fc1 ltac:(vm_compute; discriminate) (proj1 fc_runs))
    as (_ & _ & _ & _ & _ & _ & Hop).
  destruct (Hop OpTokenAcceptance "t" eq_refl) as (_ & Hgap & _). specialize (Hgap H).
  revert Hgap. vm_compute. intros Hgap. by apply Hgap.
Defined.

Lemma freshness_holdoff_witness :
  (Ctl.evaluate fc4 OpTokenAcceptance "t").2 = Ok Proceed /\ fc_tick fc1 + 10 <= fc_tick fc4.
Proof.
  assert (H : (Ctl.evaluate fc4 OpTokenAcceptance "t").2 = Ok Proceed) by (vm_compute; reflexivity).
  split; [exact H|].
  refine (freshness_holdoff fc1 fc4 OpTokenAcceptance "t" _ _ _ (proj2 fc_runs) eq_refl H);
    vm_compute; first [reflexivity | discriminate].
Defined.

(** A holdoff near the top of the clock wraps around and is skipped. *)
Definition long_holdoff : FreshnessConfig := mkFConfig 5 u64_max ∅ ∅.

Lemma long_holdoff_is_skipped :
  let c := Ctl.set_tick (Ctl.new long_holdoff "za") 1 in
  let d := or_same c (Ctl.update_expected_head c 10 "a") in
  fstate d = Degraded /\ (fstate <$> Ctl.update_local_head d 10 "b") = Some Fresh.
Proof. vm_compute. done. Qed.

(** An override issued for one zone is granted in another. *)
Definition ops_config : FreshnessConfig := mkFConfig 5 10 {[OpExtensionActivation]} {["op"]}.
Definition ops_degraded : RevocationFreshnessController :=
  let c := Ctl.new ops_config "za" in or_same c (Ctl.update_expected_head c 10 "a").

Lemma foreign_zone_override_granted :
  exists token, create OpExtensionActivation "op" "maintenance" 50 "zb" (sk_n x05) = Some token /\
    fc_zone ops_degraded = "za" /\ ov_zone token = "zb" /\
    is_ok (Ctl.evaluate_with_override ops_degraded OpExtensionActivation token
             (verification_key (sk_n x05)) "t").2 = true.
Proof.
  destruct (create OpExtensionActivation "op" "maintenance" 50 "zb" (sk_n x05)) as [token|] eqn:H.
  - exists token. split; [done|]. split; [done|]. split.
    + unfold create in H. destruct (derive_id _ _ _ _); [|discriminate H].
      destruct (sign_preimage _ _); [|discriminate H]. by injection H as <-.
    + destruct (created_override_signed _ _ _ _ _ _ _ (eq_refl : all_zero (verification_key (sk_n x05)) = false) H)
        as (H1 & H2 & H3 & H4).
      apply override_granted_exactly. rewrite H1, H2, H3. split; [vm_compute; reflexivity|]. split; [done|].
      split; [vm_compute; reflexivity|]. split; [apply (bool_decide_unpack _); vm_compute; exact I|].
      split; [apply (bool_decide_unpack _); vm_compute; exact I|]. exact H4.
  - exfalso. revert H. vm_compute. discriminate.
Qed.
