(* ===== verification/EpochBarrier.v ===== *)
(** * The epoch barrier (crates/franken-engine/src/epoch_barrier.rs)

    Critical operations hold guards of the current epoch; a transition stops new
    guards, drains or cancels the held ones and then advances the epoch.  The
    methods return the barrier with their [Result]; [complete_transition]
    panics, which is [None] here, if a draining barrier has nothing pending.

    The steps of the clients are interleaved in any order ([barrier_step]) over
    the barrier and a record of which guards are held and which were cancelled.
    The theorems say that no held guard is ever of another epoch than the
    barrier's, that the count is the number of held guards, that transitions
    never panic and can always be completed, and that the evidence is the exact
    history of epochs.  Releasing a guard twice, which the barrier cannot tell
    apart, breaks this. *)
From stdpp Require Import base numbers list strings gmap.
From S2P Require Import Prelude Bytes SecurityEpoch.
Open Scope string_scope.
Open Scope list_scope.
Open Scope Z_scope.

Inductive BarrierState := BOpen | Draining | Finalizing.

#[export] Instance BarrierState_eq_dec : EqDecision BarrierState.
Proof. solve_decision. Defined.

Inductive BarrierError :=
  | EpochTransitioning (current_epoch : SecurityEpoch) (state : BarrierState)
  | TransitionAlreadyInProgress (current_epoch : SecurityEpoch)
  | DrainTimeout (epoch : SecurityEpoch) (remaining_guards timeout_ms : Z)
  | NoTransitionInProgress
  | NonMonotonicTransition (current attempted : SecurityEpoch).

Inductive CriticalOpKind :=
  | DecisionEval | EvidenceEmission | KeyDerivation | CapabilityCheck | RevocationCheck
  | RemoteOperation.

#[export] Instance CriticalOpKind_eq_dec : EqDecision CriticalOpKind.
Proof. solve_decision. Defined.

Record EpochGuard := mkGuard {
  guard_id : Z; g_epoch : SecurityEpoch; op_kind : CriticalOpKind; g_trace : string }.

#[export] Instance EpochGuard_eq_dec : EqDecision EpochGuard.
Proof. solve_decision. Defined.

Record TransitionEvidence := mkEvidence {
  old_epoch : SecurityEpoch;
  new_epoch : SecurityEpoch;
  te_reason : TransitionReason;
  in_flight_at_start : Z;
  in_flight_at_complete : Z;
  te_forced_cancellations : Z;
  duration_ms : Z;
  te_trace : string }.

Record BarrierConfig := mkBConfig { drain_timeout_ms : Z; deterministic : bool }.
Definition default_barrier_config : BarrierConfig := mkBConfig 5000 false.
Definition deterministic_config : BarrierConfig := mkBConfig 0 true.

Record EpochBarrier := mkBarrier {
  bconfig : BarrierConfig;
  b_epoch : SecurityEpoch;
  bstate : BarrierState;
  in_flight_count : Z;
  next_guard_id : Z;
  pending_new_epoch : option SecurityEpoch;
  pending_reason : option TransitionReason;
  pending_trace_id : option string;
  in_flight_at_transition_start : Z;
  forced_cancellations : Z;
  b_evidence : list TransitionEvidence }.

Module Bar.
Definition new (epoch : SecurityEpoch) (config : BarrierConfig) : EpochBarrier :=
  mkBarrier config epoch BOpen 0 1 None None None 0 0 [].

Definition enter_critical (b : EpochBarrier) (kind : CriticalOpKind) (trace : string) :
    EpochBarrier * result BarrierError EpochGuard :=
  if negb (bool_decide (bstate b = BOpen)) then (b, Err (EpochTransitioning (b_epoch b) (bstate b)))
  else
    (mkBarrier (bconfig b) (b_epoch b) (bstate b) (sat_add64 (in_flight_count b) 1)
       (sat_add64 (next_guard_id b) 1) (pending_new_epoch b) (pending_reason b) (pending_trace_id b)
       (in_flight_at_transition_start b) (forced_cancellations b) (b_evidence b),
     Ok (mkGuard (next_guard_id b) (b_epoch b) kind trace)).

Definition set_in_flight (b : EpochBarrier) (n forced : Z) : EpochBarrier :=
  mkBarrier (bconfig b) (b_epoch b) (bstate b) n (next_guard_id b) (pending_new_epoch b)
    (pending_reason b) (pending_trace_id b) (in_flight_at_transition_start b) forced (b_evidence b).

Definition release_guard (b : EpochBarrier) (g : EpochGuard) : EpochBarrier * bool :=
  if negb (g_epoch g =? b_epoch b) then (b, false)
  else if in_flight_count b =? 0 then (b, false)
  else (set_in_flight b (in_flight_count b - 1) (forced_cancellations b), true).

Definition begin_transition (b : EpochBarrier) (epoch : SecurityEpoch) (reason : TransitionReason)
    (trace : string) : EpochBarrier * result BarrierError Z :=
  if negb (bool_decide (bstate b = BOpen)) then (b, Err (TransitionAlreadyInProgress (b_epoch b)))
  else if epoch <=? b_epoch b then (b, Err (NonMonotonicTransition (b_epoch b) epoch))
  else
    (mkBarrier (bconfig b) (b_epoch b) Draining (in_flight_count b) (next_guard_id b) (Some epoch)
       (Some reason) (Some trace) (in_flight_count b) 0 (b_evidence b),
     Ok (in_flight_count b)).

Definition force_cancel_remaining (b : EpochBarrier) : EpochBarrier * result BarrierError Z :=
  if negb (bool_decide (bstate b = Draining)) then (b, Err NoTransitionInProgress)
  else
    let cancelled := in_flight_count b in
    (set_in_flight b 0 (sat_add64 (forced_cancellations b) cancelled), Ok cancelled).

Definition can_complete (b : EpochBarrier) : bool :=
  bool_decide (bstate b = Draining) && (in_flight_count b =? 0).

Definition complete_transition (b : EpochBarrier) :
    option (EpochBarrier * result BarrierError TransitionEvidence) :=
  if negb (bool_decide (bstate b = Draining)) then Some (b, Err NoTransitionInProgress)
  else if 0 <? in_flight_count b then
    Some (b, Err (DrainTimeout (b_epoch b) (in_flight_count b) (drain_timeout_ms (bconfig b))))
  else
    epoch ← pending_new_epoch b;
    reason ← pending_reason b;
    trace ← pending_trace_id b;
    let evidence := mkEvidence (b_epoch b) epoch reason (in_flight_at_transition_start b) 0
                      (forced_cancellations b) 0 trace in
    Some (mkBarrier (bconfig b) epoch BOpen (in_flight_count b) (next_guard_id b) None None None 0 0
            (b_evidence b ++ [evidence]), Ok evidence).

Definition transition_now (b : EpochBarrier) (epoch : SecurityEpoch) (reason : TransitionReason)
    (trace : string) : option (EpochBarrier * result BarrierError TransitionEvidence) :=
  match begin_transition b epoch reason trace with
  | (b, Err e) => Some (b, Err e)
  | (b, Ok _) =>
      match (if 0 <? in_flight_count b then force_cancel_remaining b else (b, Ok 0)) with
      | (b, Err e) => Some (b, Err e)
      | (b, Ok _) => complete_transition b
      end
  end.
End Bar.

(** ** Clients *)

(** The barrier with the guards that are held and those that a transition
    cancelled under their holders. *)
Record World := mkWorld { barrier : EpochBarrier; held : list EpochGuard; cancelled : list EpochGuard }.

(** One client call.  A holder releases its guard once; a cancelled guard may be
    released at any time, also more than once.  Fewer than [2 ^ 64] guards are
    handed out. *)
Inductive barrier_step : World -> World -> Prop :=
  | bs_enter b h c kind trace b' g :
      next_guard_id b < u64_max -> Bar.enter_critical b kind trace = (b', Ok g) ->
      barrier_step (mkWorld b h c) (mkWorld b' (g :: h) c)
  | bs_enter_refused b h c kind trace b' e :
      Bar.enter_critical b kind trace = (b', Err e) -> barrier_step (mkWorld b h c) (mkWorld b' h c)
  | bs_release b h1 g h2 c :
      barrier_step (mkWorld b (h1 ++ g :: h2) c) (mkWorld (Bar.release_guard b g).1 (h1 ++ h2) c)
  | bs_release_cancelled b h c g :
      g ∈ c -> barrier_step (mkWorld b h c) (mkWorld (Bar.release_guard b g).1 h c)
  | bs_begin b h c epoch reason trace :
      barrier_step (mkWorld b h c) (mkWorld (Bar.begin_transition b epoch reason trace).1 h c)
  | bs_cancel b h c b' n :
      Bar.force_cancel_remaining b = (b', Ok n) -> barrier_step (mkWorld b h c) (mkWorld b' [] (h ++ c))
  | bs_cancel_refused b h c b' e :
      Bar.force_cancel_remaining b = (b', Err e) -> barrier_step (mkWorld b h c) (mkWorld b' h c)
  | bs_complete b h c b' r :
      Bar.complete_transition b = Some (b', r) -> barrier_step (mkWorld b h c) (mkWorld b' h c)
  | bs_now b h c epoch reason trace b' ev :
      Bar.transition_now b epoch reason trace = Some (b', Ok ev) ->
      barrier_step (mkWorld b h c) (mkWorld b' [] (h ++ c))
  | bs_now_refused b h c epoch reason trace b' e :
      Bar.transition_now b epoch reason trace = Some (b', Err e) ->
      barrier_step (mkWorld b h c) (mkWorld b' h c).

(** ** The invariant *)

(** The evidence leads from one epoch to another, strictly upwards. *)
Fixpoint history (from : SecurityEpoch) (l : list TransitionEvidence) (to : SecurityEpoch) : Prop :=
  match l with
  | [] => from = to
  | e :: l => old_epoch e = from /\ from < new_epoch e /\ history (new_epoch e) l to
  end.

Lemma barrier_history_snoc a l b e :
  history a l b -> old_epoch e = b -> b < new_epoch e -> history a (l ++ [e]) (new_epoch e).
Proof.
  revert a. induction l as [|x l IH]; intros a H Ho Hn; cbn [history app] in *; [by subst|].
  destruct H as (H1 & H2 & H3). split; [done|]. split; [done|]. by apply IH.
Qed.

Definition is_draining (b : EpochBarrier) : Prop :=
  bstate b = Draining /\ exists e r t, pending_new_epoch b = Some e /\ pending_reason b = Some r /\
    pending_trace_id b = Some t /\ b_epoch b < e.

Record world_inv (e0 : SecurityEpoch) (w : World) : Prop := {
  wi_state : bstate (barrier w) = BOpen \/ is_draining (barrier w);
  wi_count : in_flight_count (barrier w) = zlen (held w);
  wi_bound : zlen (held w) < next_guard_id (barrier w) <= u64_max;
  wi_ids : NoDup (guard_id <$> held w);
  wi_fresh : Forall (fun g => guard_id g < next_guard_id (barrier w)) (held w);
  wi_epoch : Forall (fun g => g_epoch g = b_epoch (barrier w)) (held w);
  wi_cancelled : Forall (fun g => g_epoch g < b_epoch (barrier w) \/
                   (g_epoch g = b_epoch (barrier w) /\ bstate (barrier w) = Draining /\ held w = [])) (cancelled w);
  wi_history : history e0 (b_evidence (barrier w)) (b_epoch (barrier w)) }.

Lemma new_world_inv e0 config : world_inv e0 (mkWorld (Bar.new e0 config) [] []).
Proof. by split; cbn; try constructor. Qed.

Lemma enter_inv e0 b h c kind trace b' g :
  world_inv e0 (mkWorld b h c) -> next_guard_id b < u64_max ->
  Bar.enter_critical b kind trace = (b', Ok g) -> world_inv e0 (mkWorld b' (g :: h) c).
Proof.
  intros [Hs Hc Hb Hi Hf He Hk Hh] Hlt H. cbn [barrier held cancelled] in *. unfold Bar.enter_critical in H.
  case_bool_decide as Ho; cbn [negb] in H; [|done]. injection H as <- <-.
  assert (Hlen : zlen (mkGuard (next_guard_id b) (b_epoch b) kind trace :: h) = zlen h + 1)
    by (unfold zlen; cbn [length]; lia).
  split; cbn [barrier held cancelled bstate in_flight_count next_guard_id b_epoch b_evidence].
  - by left.
  - rewrite Hlen, Hc. assert (0 <= zlen h) by (unfold zlen; lia). mlia.
  - rewrite Hlen. mlia.
  - cbn [fmap list_fmap guard_id]. constructor; [|done]. rewrite list_elem_of_fmap. intros (x & Hx & Hin).
    rewrite Forall_forall in Hf. specialize (Hf x Hin). lia.
  - constructor; [cbn; mlia|]. eapply Forall_impl; [exact Hf|]. intros x Hx. cbn beta in *. mlia.
  - by constructor.
  - eapply Forall_impl; [exact Hk|]. intros x [?|(_ & Hd & _)]; [by left|congruence].
  - done.
Qed.

Lemma release_held b g : g_epoch g = b_epoch b -> 0 < in_flight_count b ->
  Bar.release_guard b g = (Bar.set_in_flight b (in_flight_count b - 1) (forced_cancellations b), true).
Proof.
  intros He Hn. unfold Bar.release_guard. rewrite He, Z.eqb_refl. cbn [negb].
  by replace (in_flight_count b =? 0) with false by lia.
Qed.

Lemma release_inv e0 b h1 g h2 c :
  world_inv e0 (mkWorld b (h1 ++ g :: h2) c) ->
  (Bar.release_guard b g).2 = true /\ world_inv e0 (mkWorld (Bar.release_guard b g).1 (h1 ++ h2) c).
Proof.
  intros [Hs Hc Hb Hi Hf He Hk Hh]. cbn [barrier held cancelled] in *.
  assert (Hlen : zlen (h1 ++ g :: h2) = zlen (h1 ++ h2) + 1) by (unfold zlen; rewrite !length_app; cbn [length]; lia).
  assert (0 <= zlen (h1 ++ h2)) by (unfold zlen; lia).
  rewrite Hlen in Hc, Hb. apply Forall_app in Hf as [Hf1 [_ Hf2]%Forall_cons].
  apply Forall_app in He as [He1 [Heg He2]%Forall_cons]. rewrite release_held by (done || lia).
  split; [done|]. split; cbn [fst barrier held cancelled Bar.set_in_flight bstate in_flight_count next_guard_id b_epoch b_evidence].
  - exact Hs.
  - lia.
  - lia.
  - rewrite fmap_app in Hi |- *. cbn [fmap list_fmap] in Hi. by apply NoDup_app in Hi as (? & Hd & [_ ?]%NoDup_cons);
      apply NoDup_app; split_and!; [done|intros x Hx Hx2; apply (Hd x Hx); by right|].
  - by apply Forall_app.
  - by apply Forall_app.
  - eapply Forall_impl; [exact Hk|]. intros x [?|(_ & _ & Hnil)]; [by left|].
    by destruct h1.
  - done.
Qed.

(** Releasing a cancelled guard has no effect. *)
Lemma release_cancelled e0 b h c g :
  world_inv e0 (mkWorld b h c) -> g ∈ c -> Bar.release_guard b g = (b, false).
Proof.
  intros [_ Hc _ _ _ _ Hk _] Hin. cbn [barrier held cancelled] in *. rewrite Forall_forall in Hk.
  unfold Bar.release_guard. destruct (Hk g Hin) as [Hlt|(He & _ & ->)].
  - by replace (g_epoch g =? b_epoch b) with false by lia.
  - rewrite He, Z.eqb_refl, Hc. done.
Qed.

Lemma begin_inv e0 b h c epoch reason trace :
  world_inv e0 (mkWorld b h c) -> world_inv e0 (mkWorld (Bar.begin_transition b epoch reason trace).1 h c).
Proof.
  intros Hw. unfold Bar.begin_transition. case_bool_decide as Ho; cbn [negb fst]; [|done].
  destruct (Z.leb_spec epoch (b_epoch b)); [done|]. destruct Hw as [Hs Hc Hb Hi Hf He Hk Hh].
  split; cbn [fst barrier held cancelled bstate in_flight_count next_guard_id b_epoch b_evidence] in *; try done.
  - right. split; [done|]. by eexists _, _, _.
  - eapply Forall_impl; [exact Hk|]. intros x [?|(_ & Hd & _)]; [by left|congruence].
Qed.

Lemma cancel_inv e0 b h c b' n :
  world_inv e0 (mkWorld b h c) -> Bar.force_cancel_remaining b = (b', Ok n) ->
  world_inv e0 (mkWorld b' [] (h ++ c)) /\ bstate b' = Draining /\ n = zlen h.
Proof.
  intros [Hs Hc Hb Hi Hf He Hk Hh] H. unfold Bar.force_cancel_remaining in H.
  case_bool_decide as Hd; cbn [negb] in H; [|done]. injection H as <- <-.
  split; [|done]. assert (0 <= zlen h) by (unfold zlen; lia).
  split; cbn [barrier held cancelled Bar.set_in_flight bstate in_flight_count next_guard_id b_epoch b_evidence] in *;
    try done; try constructor.
  - unfold zlen in *. cbn [length]. lia.
  - lia.
  - apply Forall_app. split.
    + eapply Forall_impl; [exact He|]. intros x Hx. by right.
    + eapply Forall_impl; [exact Hk|]. intros x [?|(? & _ & _)]; [by left|by right].
Qed.

(** A transition completes exactly when nothing is held, and never panics. *)
Lemma complete_cases e0 b h c :
  world_inv e0 (mkWorld b h c) ->
  (bstate b = BOpen /\ Bar.complete_transition b = Some (b, Err NoTransitionInProgress)) \/
  (is_draining b /\ h <> [] /\
   Bar.complete_transition b =
     Some (b, Err (DrainTimeout (b_epoch b) (zlen h) (drain_timeout_ms (bconfig b))))) \/
  (is_draining b /\ h = [] /\ exists b' ev, Bar.complete_transition b = Some (b', Ok ev) /\
     world_inv e0 (mkWorld b' [] c) /\ bstate b' = BOpen /\ b_epoch b < b_epoch b' /\
     old_epoch ev = b_epoch b /\ Some (new_epoch ev) = pending_new_epoch b /\ b_epoch b' = new_epoch ev /\
     b_evidence b' = b_evidence b ++ [ev]).
Proof.
  intros [Hs Hc Hb Hi Hf He Hk Hh]. cbn [barrier held cancelled] in *. unfold Bar.complete_transition.
  destruct Hs as [Ho|Hd]; [left; by rewrite Ho|right]. pose proof Hd as (Hst & e & r & t & Ee & Er & Et & Hlt).
  rewrite Hst, Hc. cbn [bool_decide decide negb]. destruct h as [|g h].
  - right. split; [done|]. split; [done|]. rewrite Ee, Er, Et. eexists _, _. split; [reflexivity|].
    split; [|by split_and!].
    split; cbn [barrier held cancelled bstate in_flight_count next_guard_id b_epoch b_evidence]; try done; try constructor; try done.
    + eapply Forall_impl; [exact Hk|]. intros x [?|(? & _ & _)]; left; lia.
    + eapply barrier_history_snoc; [exact Hh|done|done].
  - left. split; [done|]. split; [done|]. destruct (Z.ltb_spec 0 (zlen (g :: h))) as [|Hle]; [done|].
    unfold zlen in Hle. cbn [length] in Hle. lia.
Qed.

Lemma now_cases e0 b h c epoch reason trace :
  world_inv e0 (mkWorld b h c) ->
  (exists b' ev, Bar.transition_now b epoch reason trace = Some (b', Ok ev) /\
     world_inv e0 (mkWorld b' [] (h ++ c)) /\ bstate b' = BOpen /\ b_epoch b' = epoch /\
     b_epoch b < epoch /\ bstate b = BOpen) \/
  (exists e, Bar.transition_now b epoch reason trace = Some (b, Err e) /\
     (bstate b <> BOpen \/ epoch <= b_epoch b)).
Proof.
  intros Hw. pose proof (begin_inv _ _ _ _ epoch reason trace Hw) as Hw1. unfold Bar.transition_now.
  unfold Bar.begin_transition in *. case_bool_decide as Ho; cbn [negb fst] in *; [|right; eauto].
  destruct (Z.leb_spec epoch (b_epoch b)) as [Hle|Hlt]; cbn [fst] in *; [right; eauto|left].
  set (b1 := mkBarrier _ _ Draining _ _ _ _ _ _ _ _) in *.
  assert (Hcan : exists b2, (if 0 <? in_flight_count b1 then Bar.force_cancel_remaining b1 else (b1, Ok 0)) = (b2, Ok (in_flight_count b)) /\
    world_inv e0 (mkWorld b2 [] (h ++ c)) /\ bstate b2 = Draining /\ pending_new_epoch b2 = Some epoch).
  { change (in_flight_count b1) with (in_flight_count b).
    pose proof (wi_count _ _ Hw) as Hc. cbn [barrier held] in Hc. rewrite Hc. destruct h as [|g h].
    - exists b1. done.
    - destruct (Z.ltb_spec 0 (zlen (g :: h))) as [|Hle]; [|unfold zlen in Hle; cbn [length] in Hle; lia].
      destruct (cancel_inv _ _ _ _ (Bar.force_cancel_remaining b1).1 (in_flight_count b) Hw1 eq_refl) as (Hw2 & Hd & _).
      exists (Bar.force_cancel_remaining b1).1. split; [rewrite <- Hc; reflexivity|]. done. }
  destruct Hcan as (b2 & -> & Hw2 & Hd & Hp).
  destruct (complete_cases _ _ _ _ Hw2) as [[? _]|[(_ & ? & _)|(_ & _ & b' & ev & -> & Hw3 & Ho3 & _ & _ & Hn & He & _)]];
    [congruence|done|].
  exists b', ev. split; [done|]. split; [done|]. split; [done|]. rewrite Hp in Hn. injection Hn as <-. done.
Qed.

(** A step keeps the epoch, or advances it with no guard held. *)
Definition advances (w w' : World) : Prop :=
  b_epoch (barrier w') = b_epoch (barrier w) \/
  (b_epoch (barrier w) < b_epoch (barrier w') /\ held w' = []).

Lemma barrier_step_inv e0 w w' : barrier_step w w' -> world_inv e0 w -> world_inv e0 w' /\ advances w w'.
Proof.
  intros H Hw. unfold advances.
  destruct H as [b h c kind trace b' g Hlt H|b h c kind trace b' e H|b h1 g h2 c|b h c g Hin
    |b h c epoch reason trace|b h c b' n H|b h c b' e H|b h c b' r H|b h c epoch reason trace b' ev H
    |b h c epoch reason trace b' e H]; cbn [barrier held].
  - split; [by eapply enter_inv|left]. unfold Bar.enter_critical in H. destruct (negb _); [done|]. by injection H as <- _.
  - unfold Bar.enter_critical in H. destruct (negb _); [|done]. injection H as <- _. by split; [|left].
  - split; [by apply release_inv|left]. unfold Bar.release_guard. by destruct (negb _); [|destruct (_ =? 0)].
  - rewrite (release_cancelled _ _ _ _ _ Hw Hin). by split; [|left].
  - split; [by apply begin_inv|left]. unfold Bar.begin_transition. by destruct (negb _); [|destruct (_ <=? _)].
  - split; [by eapply cancel_inv|left]. unfold Bar.force_cancel_remaining in H. destruct (negb _); [done|].
    by injection H as <- _.
  - unfold Bar.force_cancel_remaining in H. destruct (negb _); [|done]. injection H as <- _. by split; [|left].
  - destruct (complete_cases _ _ _ _ Hw) as [[_ Hc]|[(_ & _ & Hc)|(_ & -> & d & ev & Hc & Hd & _ & Hlt & _)]];
      rewrite Hc in H; injection H as <- _; [by split; [|left]..|]. by split; [|right].
  - destruct (now_cases _ _ _ _ epoch reason trace Hw) as [(d & ev' & Hc & Hd & _ & He & Hlt & _)|(e & Hc & _)];
      rewrite Hc in H; [injection H as <- _|done]. split; [done|right]. by rewrite He.
  - destruct (now_cases _ _ _ _ epoch reason trace Hw) as [(d & ev' & Hc & _)|(e' & Hc & _)];
      rewrite Hc in H; [done|]. injection H as <- _. by split; [|left].
Qed.

Lemma barrier_run_inv e0 config w :
  rtc barrier_step (mkWorld (Bar.new e0 config) [] []) w -> world_inv e0 w.
Proof.
  generalize (new_world_inv e0 config). generalize (mkWorld (Bar.new e0 config) [] []).
  intros v Hv Hr. induction Hr as [|a b c Hs _ IH]; [done|]. apply IH. by apply (barrier_step_inv _ _ _ Hs).
Qed.

(** C15. No critical operation straddles an epoch boundary. Under every interleaving of
    clients that release their guards once, all held guards are of the current epoch and
    have distinct identifiers, the count is their number, and a step that changes the
    epoch raises it and leaves no guard held. Releasing a held guard succeeds, releasing
    one that was cancelled has no effect, and the evidence is the exact upward history of
    epochs. *)
Theorem barrier_no_straddling (e0 : SecurityEpoch) (config : BarrierConfig) (w : World) :
  rtc barrier_step (mkWorld (Bar.new e0 config) [] []) w ->
  Forall (fun g => g_epoch g = b_epoch (barrier w)) (held w) /\
  NoDup (guard_id <$> held w) /\ in_flight_count (barrier w) = zlen (held w) /\
  history e0 (b_evidence (barrier w)) (b_epoch (barrier w)) /\
  (forall w', barrier_step w w' -> advances w w') /\
  (forall g, g ∈ held w -> (Bar.release_guard (barrier w) g).2 = true) /\
  (forall g, g ∈ cancelled w -> Bar.release_guard (barrier w) g = (barrier w, false)).
Proof.
  intros Hr. pose proof (barrier_run_inv _ _ _ Hr) as Hw. destruct w as [b h c].
  split; [apply Hw|]. split; [apply Hw|]. split; [apply Hw|]. split; [apply Hw|]. split; [|split].
  - intros w' Hs. by apply (barrier_step_inv e0).
  - intros g (h1 & h2 & Hh)%list_elem_of_split. cbn [held barrier] in *. subst h. by apply (release_inv e0) in Hw as [? _].
  - intros g Hg. by apply (release_cancelled e0 b h c).
Qed.

(** Transitions of a reachable barrier never panic and can always be finished: from a
    draining barrier, cancelling the remaining guards reports their number and completing
    then reopens it at the pending epoch; completing with guards held fails with their
    number and changes nothing; transition_now succeeds exactly on an open barrier and a
    later epoch. *)
Theorem barrier_transitions_complete (e0 : SecurityEpoch) (config : BarrierConfig) (w : World) :
  rtc barrier_step (mkWorld (Bar.new e0 config) [] []) w ->
  let b := barrier w in
  Bar.complete_transition b <> None /\
  (bstate b = BOpen \/ bstate b = Draining) /\
  (bstate b = Draining ->
   exists b1 b2 ev, Bar.force_cancel_remaining b = (b1, Ok (zlen (held w))) /\
     Bar.complete_transition b1 = Some (b2, Ok ev) /\ bstate b2 = BOpen /\
     Some (b_epoch b2) = pending_new_epoch b /\ b_epoch b < b_epoch b2) /\
  (bstate b = Draining -> held w <> [] ->
   Bar.complete_transition b =
     Some (b, Err (DrainTimeout (b_epoch b) (zlen (held w)) (drain_timeout_ms (bconfig b))))) /\
  (forall epoch reason trace,
     (exists b' ev, Bar.transition_now b epoch reason trace = Some (b', Ok ev) /\ b_epoch b' = epoch) <->
     bstate b = BOpen /\ b_epoch b < epoch).
Proof.
  intros Hr b. pose proof (barrier_run_inv _ _ _ Hr) as Hw. destruct w as [b0 h c]. cbn [barrier held] in *. subst b.
  pose proof (complete_cases _ _ _ _ Hw) as Hcases. split; [|split; [|split; [|split]]].
  - destruct Hcases as [[_ ->]|[(_ & _ & ->)|(_ & _ & ? & ? & -> & _)]]; done.
  - destruct (wi_state _ _ Hw) as [?|[? _]]; [by left|by right].
  - intros Hd. assert (Hf : Bar.force_cancel_remaining b0 =
      (Bar.set_in_flight b0 0 (sat_add64 (forced_cancellations b0) (in_flight_count b0)), Ok (in_flight_count b0)))
      by (unfold Bar.force_cancel_remaining; by rewrite Hd).
    destruct (cancel_inv _ _ _ _ _ _ Hw Hf) as (Hw1 & Hd1 & Hn). rewrite Hn in Hw1, Hf, Hd1.
    destruct (complete_cases _ _ _ _ Hw1) as [[? _]|[(_ & ? & _)|(_ & _ & b2 & ev & Hc & _ & Ho & Hlt & _ & Hp & He & _)]];
      [congruence|done|]. eexists _, b2, ev. split; [exact Hf|]. split; [exact Hc|]. split; [done|].
    split; [by rewrite He|exact Hlt].
  - intros Hd Hne. destruct Hcases as [[? _]|[(_ & _ & ->)|(_ & ? & _)]]; [congruence|done|done].
  - intros epoch reason trace. split.
    + intros (b' & ev & H & He). destruct (now_cases _ _ _ _ epoch reason trace Hw) as [(? & ? & _ & _ & _ & _ & ? & ?)|(e & H' & _)];
        [done|congruence].
    + intros [Ho Hlt]. destruct (now_cases _ _ _ _ epoch reason trace Hw) as [(b' & ev & H & _ & _ & He & _)|(e & _ & [?|?])];
        [by eauto|done|lia].
Qed.

(** ** Examples *)

Definition enter_or (b : EpochBarrier) (kind : CriticalOpKind) (trace : string) : EpochBarrier * EpochGuard :=
  match Bar.enter_critical b kind trace with
  | (b', Ok g) => (b', g)
  | (b', Err _) => (b', mkGuard 0 0 kind trace)
  end.

Definition eb0 : EpochBarrier := Bar.new 1 default_barrier_config.
Definition eb1 := enter_or eb0 KeyDerivation "a".
Definition eb2 := enter_or eb1.1 RevocationCheck "b".
Definition eb3 := (Bar.begin_transition eb2.1 2 OperatorManualBump "t").1.

Definition world3 : World := mkWorld eb3 [eb2.2; eb1.2] [].

Lemma world3_run : rtc barrier_step (mkWorld (Bar.new 1 default_barrier_config) [] []) world3.
Proof.
  eapply rtc_l; [|eapply rtc_l; [|apply rtc_once]].
  - eapply (bs_enter eb0 [] [] KeyDerivation "a" eb1.1 eb1.2); reflexivity.
  - eapply (bs_enter eb1.1 [eb1.2] [] RevocationCheck "b" eb2.1 eb2.2); reflexivity.
  - apply bs_begin.
Qed.

Lemma barrier_no_straddling_witness :
  in_flight_count (barrier world3) = 2 /\ (Bar.release_guard (barrier world3) eb1.2).2 = true.
Proof.
  destruct (barrier_no_straddling 1 default_barrier_config world3 world3_run) as (_ & _ & Hn & _ & _ & Hrel & _).
  split; [rewrite Hn; reflexivity|]. apply Hrel. right. left.
Defined.

Lemma barrier_transitions_complete_witness :
  exists b1 b2 ev, Bar.force_cancel_remaining eb3 = (b1, Ok 2) /\ Bar.complete_transition b1 = Some (b2, Ok ev) /\
    Some (b_epoch b2) = Some 2.
Proof.
  destruct (barrier_transitions_complete 1 default_barrier_config world3 world3_run) as (_ & _ & H & _).
  destruct (H eq_refl) as (b1 & b2 & ev & H1 & H2 & _ & H3 & _). exists b1, b2, ev.
  split; [exact H1|]. split; [exact H2|exact H3].
Defined.

(** The barrier counts releases, not guards: releasing one guard twice lets the
    epoch advance while the other is held. *)
Lemma double_release_straddles :
  let b4 := (Bar.release_guard eb3 eb1.2).1 in
  let b5 := (Bar.release_guard b4 eb1.2).1 in
  (Bar.release_guard b4 eb1.2).2 = true /\ Bar.can_complete b5 = true /\
  exists b6 ev, Bar.complete_transition b5 = Some (b6, Ok ev) /\ g_epoch eb2.2 < b_epoch b6.
Proof. vm_compute. split; [done|]. split; [done|]. eexists _, _. by split. Qed.
