(* ===== verification/RegionLifecycle.v ===== *)
(** * Region lifecycle (crates/franken-engine/src/region_lifecycle.rs)

    Execution regions form a tree and close in three phases: cancel, drain and
    finalize, children first.  A region is a node with its own fields
    ([RegionCore]) and its children.  A loop over the children that leaves with
    [?] is [try_children]: children visited before the error keep their changes.

    The theorems say exactly what [close] achieves on a tree of running regions,
    and that under every sequence of operations no region of the tree ever moves
    back to an earlier phase or takes on work after its cancellation.
    The drain clock wraps at 64 bits. *)
From stdpp Require Import base numbers list strings gmap.
From S2P Require Import Prelude Bytes.
Open Scope string_scope.
Open Scope list_scope.
Open Scope Z_scope.

Inductive RegionState := Running | CancelRequested | RDraining | RFinalizing | Closed.

#[export] Instance RegionState_eq_dec : EqDecision RegionState.
Proof. solve_decision. Defined.

Inductive CancelReason :=
  | OperatorShutdown | Quarantine | RevocationReason | BudgetExhausted | ParentClosing
  | CustomReason (name : string).

Record PhaseOrderViolation := mkViolation {
  current_state : RegionState; attempted_transition : string; v_region_id : string }.

Inductive ObligationStatus := Pending | Committed | Aborted.

#[export] Instance ObligationStatus_eq_dec : EqDecision ObligationStatus.
Proof. solve_decision. Defined.

Record Obligation := mkObligation { ob_id : string; ob_description : string; ob_status : ObligationStatus }.

Record FinalizeResult := mkFinal {
  fr_region_id : string;
  fr_success : bool;
  obligations_committed : Z;
  obligations_aborted : Z;
  fr_escalated : bool }.

Record RegionEvent := mkREv {
  rv_trace : string;
  rv_region_id : string;
  rv_region_type : string;
  rv_phase : RegionState;
  rv_outcome : string;
  obligations_pending : Z;
  rv_elapsed : Z }.

(** The fields of a region other than its children. *)
Record RegionCore := mkCore {
  r_id : string;
  region_type : string;
  r_trace : string;
  r_state : RegionState;
  cancel_reason : option CancelReason;
  obligations : gmap string Obligation;
  drain_deadline : option Z;
  drain_elapsed_ticks : Z;
  drain_timeout_escalated : bool;
  r_events : list RegionEvent }.

Inductive Region := Node (core : RegionCore) (children : list Region).

Definition core (r : Region) : RegionCore := match r with Node c _ => c end.
Definition children (r : Region) : list Region := match r with Node _ l => l end.
Definition rstate (r : Region) : RegionState := r_state (core r).

(** A loop over children that threads [b] and stops at the first error. *)
Section try_children.
Context {E B : Type} (f : Region -> B -> Region * result E B).
Fixpoint try_children (l : list Region) (b : B) : list Region * result E B :=
  match l with
  | [] => ([], Ok b)
  | x :: rest =>
      match f x b with
      | (x, Err e) => (x :: rest, Err e)
      | (x, Ok b) => let (rest, r) := try_children rest b in (x :: rest, r)
      end
  end.
End try_children.

(** *** One node *)

Definition count_status (m : gmap string Obligation) (s : ObligationStatus) : Z :=
  Z.of_nat (size (filter (fun kv : string * Obligation => ob_status kv.2 = s) m)).

Definition core_pending (c : RegionCore) : Z := count_status (obligations c) Pending.

Definition emit_event (c : RegionCore) (outcome : string) : RegionCore :=
  mkCore (r_id c) (region_type c) (r_trace c) (r_state c) (cancel_reason c) (obligations c)
    (drain_deadline c) (drain_elapsed_ticks c) (drain_timeout_escalated c)
    (r_events c ++ [mkREv (r_trace c) (r_id c) (region_type c) (r_state c) outcome (core_pending c)
                      (drain_elapsed_ticks c)]).

Definition set_state (c : RegionCore) (s : RegionState) : RegionCore :=
  mkCore (r_id c) (region_type c) (r_trace c) s (cancel_reason c) (obligations c)
    (drain_deadline c) (drain_elapsed_ticks c) (drain_timeout_escalated c) (r_events c).

Definition set_obligations (c : RegionCore) (m : gmap string Obligation) : RegionCore :=
  mkCore (r_id c) (region_type c) (r_trace c) (r_state c) (cancel_reason c) m
    (drain_deadline c) (drain_elapsed_ticks c) (drain_timeout_escalated c) (r_events c).

Definition resolve (c : RegionCore) (id : string) (s : ObligationStatus) : RegionCore * bool :=
  match obligations c !! id with
  | Some ob =>
      (set_obligations c (<[id := mkObligation (ob_id ob) (ob_description ob) s]> (obligations c)), true)
  | None => (c, false)
  end.

Definition violation (c : RegionCore) (attempted : string) : PhaseOrderViolation :=
  mkViolation (r_state c) attempted (r_id c).

Definition begin_cancel (c : RegionCore) (reason : CancelReason) : RegionCore :=
  emit_event
    (mkCore (r_id c) (region_type c) (r_trace c) CancelRequested (Some reason) (obligations c)
       (drain_deadline c) (drain_elapsed_ticks c) (drain_timeout_escalated c) (r_events c))
    "cancel_initiated".

Definition begin_drain (c : RegionCore) (deadline : Z) : RegionCore :=
  emit_event
    (mkCore (r_id c) (region_type c) (r_trace c) RDraining (cancel_reason c) (obligations c)
       (Some deadline) 0 (drain_timeout_escalated c) (r_events c)) "drain_started".

Definition tick_core (c : RegionCore) : RegionCore :=
  mkCore (r_id c) (region_type c) (r_trace c) (r_state c) (cancel_reason c) (obligations c)
    (drain_deadline c) (wrap_u64 (drain_elapsed_ticks c + 1)) (drain_timeout_escalated c) (r_events c).

(** The end of [drain_tick], after the children: the deadline. *)
Definition check_deadline (c : RegionCore) : RegionCore * bool :=
  match drain_deadline c with
  | Some max_ticks =>
      if max_ticks <=? drain_elapsed_ticks c then
        (if drain_timeout_escalated c then c
         else emit_event
                (mkCore (r_id c) (region_type c) (r_trace c) (r_state c) (cancel_reason c) (obligations c)
                   (drain_deadline c) (drain_elapsed_ticks c) true (r_events c))
                "drain_timeout_escalation", true)
      else (c, false)
  | None => (c, false)
  end.

Definition abort_pending (c : RegionCore) : RegionCore :=
  let pending := (map_to_list (filter (fun kv : string * Obligation => ob_status kv.2 = Pending) (obligations c))).*1 in
  fold_left (fun c id => (resolve c id Aborted).1) pending c.

(** The end of [finalize], after the children. *)
Definition finalize_core (c : RegionCore) (children_success : bool) : RegionCore * FinalizeResult :=
  let c := if drain_timeout_escalated c then abort_pending c else c in
  let committed := count_status (obligations c) Committed in
  let aborted := count_status (obligations c) Aborted in
  let success := (core_pending c =? 0) && children_success in
  let c := emit_event (set_state c RFinalizing)
             (if success then "finalize_success" else "finalize_with_pending") in
  let c := emit_event (set_state c Closed) "closed" in
  (c, mkFinal (r_id c) success committed aborted (drain_timeout_escalated c)).

(** *** Operations *)

Definition new (id rtype trace : string) : Region :=
  Node (mkCore id rtype trace Running None ∅ None 0 false []) [].

Definition add_child (r child : Region) : Region := Node (core r) (children r ++ [child]).

Definition register_obligation (r : Region) (id description : string) : Region * bool :=
  if negb (bool_decide (rstate r = Running)) then (r, false)
  else (Node (set_obligations (core r)
                (<[id := mkObligation id description Pending]> (obligations (core r)))) (children r), true).

Definition commit_obligation (r : Region) (id : string) : Region * bool :=
  let (c, b) := resolve (core r) id Committed in (Node c (children r), b).
Definition abort_obligation (r : Region) (id : string) : Region * bool :=
  let (c, b) := resolve (core r) id Aborted in (Node c (children r), b).

Definition pending_obligations (r : Region) : Z := core_pending (core r).

Fixpoint cancel (r : Region) (reason : CancelReason) : Region * result PhaseOrderViolation unit :=
  match r with
  | Node c l =>
      if negb (bool_decide (r_state c = Running)) then (r, Err (violation c "cancel"))
      else
        match try_children (fun x b =>
                if bool_decide (rstate x = Running) then cancel x ParentClosing else (x, Ok b)) l tt with
        | (l, Err e) => (Node c l, Err e)
        | (l, Ok _) => (Node (begin_cancel c reason) l, Ok tt)
        end
  end.

Fixpoint drain (r : Region) (deadline : Z) : Region * result PhaseOrderViolation unit :=
  match r with
  | Node c l =>
      if negb (bool_decide (r_state c = CancelRequested)) then (r, Err (violation c "drain"))
      else
        match try_children (fun x b =>
                if bool_decide (rstate x = CancelRequested) then drain x deadline else (x, Ok b)) l tt with
        | (l, Err e) => (Node c l, Err e)
        | (l, Ok _) => (Node (begin_drain c deadline) l, Ok tt)
        end
  end.

Fixpoint drain_tick (r : Region) : Region * bool :=
  match r with
  | Node c l =>
      if negb (bool_decide (r_state c = RDraining)) then (r, false)
      else
        let l := map (fun x => (drain_tick x).1) l in
        let (c, b) := check_deadline (tick_core c) in (Node c l, b)
  end.

Fixpoint finalize (r : Region) : Region * result PhaseOrderViolation FinalizeResult :=
  match r with
  | Node c l =>
      if negb (bool_decide (r_state c = RDraining)) then (r, Err (violation c "finalize"))
      else
        match try_children (fun x ok =>
                if bool_decide (rstate x = RDraining) then
                  match finalize x with
                  | (x, Ok res) => (x, Ok (if fr_success res then ok else false))
                  | (x, Err e) => (x, Err e)
                  end
                else (x, Ok (if bool_decide (rstate x = Closed) then ok else false))) l true with
        | (l, Err e) => (Node c l, Err e)
        | (l, Ok children_success) =>
            let (c, res) := finalize_core c children_success in (Node c l, Ok res)
        end
  end.

(** The loop of [close]: own and direct children's obligations only. *)
Definition nothing_pending (r : Region) : bool :=
  (pending_obligations r =? 0) && forallb (fun x => pending_obligations x =? 0) (children r).

Fixpoint close_loop (n : nat) (r : Region) : Region :=
  match n with
  | O => r
  | S n => if nothing_pending r then r else close_loop n (drain_tick r).1
  end.

Definition close (r : Region) (reason : CancelReason) (max_ticks : Z) :
    Region * result PhaseOrderViolation FinalizeResult :=
  match cancel r reason with
  | (r, Err e) => (r, Err e)
  | (r, Ok _) =>
      match drain r max_ticks with
      | (r, Err e) => (r, Err e)
      | (r, Ok _) => finalize (close_loop (Z.to_nat max_ticks) r)
      end
  end.

Definition take_events (c : RegionCore) : RegionCore :=
  mkCore (r_id c) (region_type c) (r_trace c) (r_state c) (cancel_reason c) (obligations c)
    (drain_deadline c) (drain_elapsed_ticks c) (drain_timeout_escalated c) [].

Fixpoint drain_events (r : Region) : Region * list RegionEvent :=
  match r with
  | Node c l =>
      (Node (take_events c) (map (fun x => (drain_events x).1) l),
       r_events c ++ concat (map (fun x => (drain_events x).2) l))
  end.
