(* ===== verification/RegionCorrect.v ===== *)
(** * Region lifecycle: proofs

    [region_close_exact] says what [close] does on a tree of running regions;
    [region_phases_forward] that phases only move forward under any operations. *)
From stdpp Require Import base numbers list strings gmap.
From S2P Require Import Prelude Bytes RegionLifecycle.
Open Scope string_scope.
Open Scope list_scope.
Open Scope Z_scope.

(** ** Trees *)

Fixpoint region_tree_ind (P : Region -> Prop) (H : forall c l, Forall P l -> P (Node c l)) (r : Region) : P r :=
  match r with
  | Node c l =>
      H c l ((fix go l : Forall P l :=
                match l with
                | [] => Forall_nil_2 P
                | x :: l => Forall_cons_2 P x l (region_tree_ind P H x) (go l)
                end) l)
  end.

(** Every node satisfies [P]. *)
Inductive tree_all (P : RegionCore -> Prop) : Region -> Prop :=
  | ta_node c l : P c -> Forall (tree_all P) l -> tree_all P (Node c l).

(** The same shape, with related nodes. *)
Inductive tree_rel (R : RegionCore -> RegionCore -> Prop) : Region -> Region -> Prop :=
  | tr_node c l c' l' : R c c' -> Forall2 (tree_rel R) l l' -> tree_rel R (Node c l) (Node c' l').

Lemma tree_all_inv P c l : tree_all P (Node c l) -> P c /\ Forall (tree_all P) l.
Proof. intros H. inversion H. done. Qed.

Lemma tree_rel_inv R c l r' :
  tree_rel R (Node c l) r' -> exists c' l', r' = Node c' l' /\ R c c' /\ Forall2 (tree_rel R) l l'.
Proof. intros H. inversion H. eauto. Qed.

Lemma tree_rel_refl (R : RegionCore -> RegionCore -> Prop) r :
  tree_all (fun c => R c c) r -> tree_rel R r r.
Proof.
  induction r as [c l IH] using region_tree_ind. intros [Hc Hl]%tree_all_inv. constructor; [done|].
  induction IH as [|x l Hx _ IHl]; [constructor|]. apply Forall_cons in Hl as [? ?]. constructor; auto.
Qed.

(** Related trees compose. *)
Lemma tree_rel_trans R S a b c :
  tree_rel R a b -> tree_rel S b c -> tree_rel (fun x z => exists y, R x y /\ S y z) a c.
Proof.
  revert b c. induction a as [ca l IH] using region_tree_ind. intros b c H1 H2.
  apply tree_rel_inv in H1 as (cb & lb & -> & HR & F1). apply tree_rel_inv in H2 as (cc & lc & -> & HS & F2).
  constructor; [eauto|]. revert lb lc F1 F2. induction IH as [|x l Hx _ IHl]; intros lb lc F1 F2.
  - apply Forall2_nil_inv_l in F1 as ->. by apply Forall2_nil_inv_l in F2 as ->.
  - apply Forall2_cons_inv_l in F1 as (y & lb' & Hxy & F1 & ->).
    apply Forall2_cons_inv_l in F2 as (z & lc' & Hyz & F2 & ->). constructor; eauto.
Qed.

Lemma tree_rel_mono (R S : RegionCore -> RegionCore -> Prop) a b :
  (forall x y, R x y -> S x y) -> tree_rel R a b -> tree_rel S a b.
Proof.
  intros HRS. revert b. induction a as [ca l IH] using region_tree_ind. intros b H.
  apply tree_rel_inv in H as (cb & lb & -> & HR & F). constructor; [auto|]. revert lb F.
  induction IH as [|x l Hx _ IHl]; intros lb F.
  - by apply Forall2_nil_inv_l in F as ->.
  - apply Forall2_cons_inv_l in F as (y & lb' & Hxy & F & ->). constructor; auto.
Qed.

(** A property of the related node holds in the whole tree. *)
Lemma tree_rel_all (R : RegionCore -> RegionCore -> Prop) (P Q : RegionCore -> Prop) a b :
  (forall x y, P x -> R x y -> Q y) -> tree_all P a -> tree_rel R a b -> tree_all Q b.
Proof.
  intros HPQ. revert b. induction a as [ca l IH] using region_tree_ind. intros b [Hc Hl]%tree_all_inv H.
  apply tree_rel_inv in H as (cb & lb & -> & HR & F). constructor; [eauto|]. revert lb F.
  induction IH as [|x l Hx _ IHl]; intros lb F.
  - by apply Forall2_nil_inv_l in F as ->.
  - apply Forall_cons in Hl as [? ?]. apply Forall2_cons_inv_l in F as (y & lb' & Hxy & F & ->). constructor; auto.
Qed.

Lemma tree_rel_with (P : RegionCore -> Prop) R a b :
  tree_all P a -> tree_rel R a b -> tree_rel (fun x y => P x /\ R x y) a b.
Proof.
  revert b. induction a as [ca l IH] using region_tree_ind. intros b [Hc Hl]%tree_all_inv H.
  apply tree_rel_inv in H as (cb & lb & -> & HR & F). constructor; [done|]. clear Hc. revert lb F.
  induction IH as [|x l Hx _ IHl]; intros lb F.
  - by apply Forall2_nil_inv_l in F as ->.
  - apply Forall_cons in Hl as [? ?]. apply Forall2_cons_inv_l in F as (y & lb' & Hxy & F & ->). constructor; auto.
Qed.

Lemma tree_all_mono (P Q : RegionCore -> Prop) r : (forall c, P c -> Q c) -> tree_all P r -> tree_all Q r.
Proof.
  intros HPQ. induction r as [c l IH] using region_tree_ind. intros [Hc Hl]%tree_all_inv. constructor; [auto|].
  clear Hc. induction IH as [|x l Hx _ IHl]; [constructor|]. apply Forall_cons in Hl as [? ?]. constructor; auto.
Qed.

Lemma tree_all_true r : tree_all (fun _ => True) r.
Proof. induction r as [c l IH] using region_tree_ind. by constructor. Qed.

(** ** The loops over children *)

Lemma try_children_ok {E B} (f : Region -> B -> Region * result E B) (R : Region -> Region -> Prop)
    (h : Region -> B -> B) l :
  Forall (fun x => exists x', (forall b, f x b = (x', Ok (h x' b))) /\ R x x') l ->
  exists l', (forall b, try_children f l b = (l', Ok (fold_left (fun b x => h x b) l' b))) /\ Forall2 R l l'.
Proof.
  induction 1 as [|x l (x' & Hx & HR) _ (l' & Hl & HF)]; [by exists []|].
  exists (x' :: l'). split; [|by constructor]. intros b. cbn [try_children fold_left]. by rewrite Hx, Hl.
Qed.

Lemma try_children_rel {E B} (f : Region -> B -> Region * result E B) (R : Region -> Region -> Prop) l b :
  (forall x, R x x) -> Forall (fun x => forall b, R x (f x b).1) l -> Forall2 R l (try_children f l b).1.
Proof.
  intros Hrefl H. revert b. induction H as [|x l Hx Hl IH]; intros b; [constructor|]. cbn [try_children].
  specialize (Hx b). destruct (f x b) as [x' [b'|e]]; cbn [fst] in *.
  - specialize (IH b'). destruct (try_children f l b') as [l' r]. by constructor.
  - constructor; [done|]. clear -Hrefl. induction l; by constructor.
Qed.

(** ** Cancel, drain and finalize on uniform trees *)

Definition in_state (s : RegionState) (c : RegionCore) : Prop := r_state c = s.

Lemma cancel_running r reason :
  tree_all (in_state Running) r ->
  exists r', cancel r reason = (r', Ok tt) /\
    tree_rel (fun c c' => exists reason, c' = begin_cancel c reason) r r'.
Proof.
  revert reason. induction r as [c l IH] using region_tree_ind. intros reason [Hc Hl]%tree_all_inv.
  cbn [cancel]. unfold in_state in Hc. rewrite Hc. cbn [bool_decide decide negb].
  destruct (try_children_ok (fun x b => if bool_decide (rstate x = Running) then cancel x ParentClosing else (x, Ok b))
    (tree_rel (fun c c' => exists reason, c' = begin_cancel c reason)) (fun _ _ => tt) l) as (l' & Hl' & HF).
  - induction IH as [|x l Hx _ IHl]; [constructor|]. apply Forall_cons in Hl as [Hx' Hl]. constructor; [|by apply IHl].
    destruct (Hx ParentClosing Hx') as (x' & He & HR). exists x'. split; [|done]. intros [].
    destruct x as [cx lx]. apply tree_all_inv in Hx' as [Hs _]. unfold rstate, core. rewrite Hs. done.
  - specialize (Hl' tt). unfold core in Hl'. rewrite Hl'. eexists. split; [reflexivity|]. constructor; eauto.
Qed.

Lemma drain_cancelled r D :
  tree_all (in_state CancelRequested) r ->
  exists r', drain r D = (r', Ok tt) /\ tree_rel (fun c c' => c' = begin_drain c D) r r'.
Proof.
  induction r as [c l IH] using region_tree_ind. intros [Hc Hl]%tree_all_inv.
  cbn [drain]. unfold in_state in Hc. rewrite Hc. cbn [bool_decide decide negb].
  destruct (try_children_ok (fun x b => if bool_decide (rstate x = CancelRequested) then drain x D else (x, Ok b))
    (tree_rel (fun c c' => c' = begin_drain c D)) (fun _ _ => tt) l) as (l' & Hl' & HF).
  - induction IH as [|x l Hx _ IHl]; [constructor|]. apply Forall_cons in Hl as [Hx' Hl]. constructor; [|by apply IHl].
    destruct (Hx Hx') as (x' & He & HR). exists x'. split; [|done]. intros [].
    destruct x as [cx lx]. apply tree_all_inv in Hx' as [Hs _]. unfold rstate, core. rewrite Hs. done.
  - specialize (Hl' tt). unfold core in Hl'. rewrite Hl'. eexists. split; [reflexivity|]. by constructor.
Qed.

(** Nothing is pending in the whole tree. *)
Fixpoint settled_tree (r : Region) : bool :=
  match r with Node c l => (core_pending c =? 0) && forallb settled_tree l end.

Lemma fold_success l b : fold_left (fun b x => if settled_tree x then b else false) l b = forallb settled_tree l && b.
Proof.
  revert b. induction l as [|x l IH]; intros b; [done|]. cbn [fold_left forallb]. rewrite IH.
  destruct (settled_tree x), (forallb settled_tree l), b; done.
Qed.

Lemma finalize_draining r :
  tree_all (in_state RDraining) r ->
  exists r' res, finalize r = (r', Ok res) /\ fr_success res = settled_tree r' /\
    tree_rel (fun c c' => exists ok, c' = (finalize_core c ok).1) r r'.
Proof.
  induction r as [c l IH] using region_tree_ind. intros [Hc Hl]%tree_all_inv.
  cbn [finalize]. unfold in_state in Hc. rewrite Hc. cbn [bool_decide decide negb].
  match goal with |- context [try_children ?f l true] =>
    destruct (try_children_ok f (tree_rel (fun c c' => exists ok, c' = (finalize_core c ok).1))
      (fun x b => if settled_tree x then b else false) l) as (l' & Hl' & HF) end.
  - induction IH as [|x l Hx _ IHl]; [constructor|]. apply Forall_cons in Hl as [Hx' Hl]. constructor; [|by apply IHl].
    destruct (Hx Hx') as (x' & res & He & Hs & HR). exists x'. split; [|done]. intros b.
    destruct x as [cx lx]. apply tree_all_inv in Hx' as [Hst _]. unfold rstate, core. rewrite Hst.
    cbn [bool_decide decide]. by rewrite He, Hs.
  - rewrite Hl', fold_success, andb_true_r. eexists _, _. split; [reflexivity|]. split; [|constructor; [eauto|done]].
    by cbn.
Qed.

(** ** Obligations *)

Definition abort_if_pending (ob : Obligation) : Obligation :=
  if decide (ob_status ob = Pending) then mkObligation (ob_id ob) (ob_description ob) Aborted else ob.

Lemma resolve_lookup c id s k :
  obligations (resolve c id s).1 !! k =
  if decide (k = id) then (fun ob => mkObligation (ob_id ob) (ob_description ob) s) <$> obligations c !! id
  else obligations c !! k.
Proof.
  unfold resolve. destruct (obligations c !! id) as [ob|] eqn:H; cbn [fst set_obligations obligations]; case_decide as Hk.
  - subst. by rewrite lookup_insert_eq.
  - by rewrite lookup_insert_ne.
  - by subst.
  - done.
Qed.

Lemma resolve_keeps c id s :
  set_obligations c (obligations (resolve c id s).1) = (resolve c id s).1.
Proof. unfold resolve. by destruct c; destruct (_ !! id). Qed.

Lemma abort_fold ids c k :
  obligations (fold_left (fun c id => (resolve c id Aborted).1) ids c) !! k =
  if decide (k ∈ ids) then (fun ob => mkObligation (ob_id ob) (ob_description ob) Aborted) <$> obligations c !! k
  else obligations c !! k.
Proof.
  revert c. induction ids as [|id ids IH]; intros c; cbn [fold_left].
  { case_decide as H; [|done]. by apply elem_of_nil in H. }
  rewrite IH, !resolve_lookup. destruct (decide (k = id)) as [->|Hne].
  - rewrite (decide_True (P := id ∈ id :: ids)) by left. case_decide; [|done]. by destruct (_ !! id).
  - destruct (decide (k ∈ ids)) as [Hin|Hin].
    + by rewrite decide_True by (by right).
    + rewrite decide_False; [done|]. by intros [?|?]%elem_of_cons.
Qed.

Lemma abort_fold_keeps ids c :
  set_obligations c (obligations (fold_left (fun c id => (resolve c id Aborted).1) ids c)) =
  fold_left (fun c id => (resolve c id Aborted).1) ids c.
Proof.
  revert c. induction ids as [|id ids IH]; intros c; cbn [fold_left]; [by destruct c|].
  rewrite <- (IH (resolve c id Aborted).1) at 2. rewrite <- (resolve_keeps c id Aborted) at 2. done.
Qed.

(** The loop over the pending identifiers aborts exactly what is pending. *)
Lemma abort_pending_eq c : abort_pending c = set_obligations c (abort_if_pending <$> obligations c).
Proof.
  unfold abort_pending. set (ids := _.*1). rewrite <- abort_fold_keeps. f_equal. apply map_eq. intros k.
  rewrite abort_fold, lookup_fmap.
  assert (Hin : k ∈ ids <-> exists ob, obligations c !! k = Some ob /\ ob_status ob = Pending).
  { unfold ids. rewrite list_elem_of_fmap. split.
    - intros ([k' ob] & -> & H). apply elem_of_map_to_list, map_lookup_filter_Some in H as [? ?]. eauto.
    - intros (ob & H1 & H2). exists (k, ob). split; [done|]. by apply elem_of_map_to_list, map_lookup_filter_Some. }
  case_decide as Hk.
  - apply Hin in Hk as (ob & -> & Hp). cbn. unfold abort_if_pending. by rewrite decide_True.
  - destruct (obligations c !! k) as [ob|] eqn:Ho; [|done]. cbn. unfold abort_if_pending.
    rewrite decide_False; [done|]. intros Hp. apply Hk, Hin. eauto.
Qed.

Lemma count_zero m s : count_status m s = 0 <-> forall k ob, m !! k = Some ob -> ob_status ob <> s.
Proof.
  unfold count_status. split.
  - intros H k ob Hk Hs. assert (Hz : size (filter (fun kv : string * Obligation => ob_status kv.2 = s) m) = 0%nat) by lia.
    apply map_size_empty_iff in Hz. assert (Hl : filter (fun kv : string * Obligation => ob_status kv.2 = s) m !! k = Some ob)
      by (by apply map_lookup_filter_Some). rewrite Hz, lookup_empty in Hl. done.
  - intros H. replace (filter _ m) with (∅ : gmap string Obligation); [by rewrite map_size_empty|].
    symmetry. apply map_empty. intros k. apply map_lookup_filter_None. right. intros ob Hk. by apply (H k).
Qed.

Lemma aborted_none_pending m : count_status (abort_if_pending <$> m) Pending = 0.
Proof.
  apply count_zero. intros k ob Hk. rewrite lookup_fmap in Hk.
  apply fmap_Some in Hk as (ob' & _ & ->). unfold abort_if_pending. by case_decide.
Qed.

(** ** Draining *)

(** [k] ticks after the start of a drain with deadline [D] the node [c0] has
    become [c]. *)
Definition drained (D k : Z) (c0 c : RegionCore) : Prop :=
  r_state c = RDraining /\ obligations c = obligations c0 /\ drain_deadline c = Some D /\
  drain_elapsed_ticks c = k /\ drain_timeout_escalated c = (D <=? k).

Lemma tick_drained D k c0 c :
  0 <= k -> k + 1 <= D <= u64_max -> drained D k c0 c -> drained D (k + 1) c0 (check_deadline (tick_core c)).1.
Proof.
  intros H0 Hk (Hs & Ho & Hd & He & Hesc).
  assert (Hw : wrap_u64 (drain_elapsed_ticks c + 1) = k + 1) by (rewrite He; apply wrap_u64_small; mlia).
  replace (D <=? k) with false in Hesc by lia.
  unfold check_deadline. cbn [tick_core drain_deadline drain_elapsed_ticks drain_timeout_escalated]. rewrite Hd, Hw, Hesc.
  unfold drained. destruct (Z.leb_spec D (k + 1)); cbn; rewrite ?Hw, ?Hd; done.
Qed.

Lemma drain_tick_rel D k r0 r :
  0 <= k -> k + 1 <= D <= u64_max -> tree_rel (drained D k) r0 r -> tree_rel (drained D (k + 1)) r0 (drain_tick r).1.
Proof.
  intros H0 Hk. revert r. induction r0 as [c0 l0 IH] using region_tree_ind. intros r H.
  apply tree_rel_inv in H as (c & l & -> & Hc & F). cbn [drain_tick].
  rewrite (proj1 Hc). cbn [bool_decide decide negb]. pose proof (tick_drained _ _ _ _ H0 Hk Hc) as Hc'.
  destruct (check_deadline (tick_core c)) as [c' b]. cbn [fst] in *. constructor; [done|].
  clear Hc Hc'. revert l F. induction IH as [|x l0 Hx _ IHl]; intros l F.
  - by apply Forall2_nil_inv_l in F as ->.
  - apply Forall2_cons_inv_l in F as (y & l' & Hxy & F & ->). cbn [map]. constructor; auto.
Qed.

(** The loop looks at obligations only. *)
Lemma nothing_pending_rel (R : RegionCore -> RegionCore -> Prop) r0 r :
  (forall c c', R c c' -> obligations c' = obligations c) -> tree_rel R r0 r -> nothing_pending r = nothing_pending r0.
Proof.
  intros HR H. destruct r0 as [c0 l0]. apply tree_rel_inv in H as (c & l & -> & Hc & F).
  unfold nothing_pending, pending_obligations, core_pending. cbn [core children].
  rewrite (HR _ _ Hc). f_equal. induction F as [|x y l0 l Hxy _ IH]; [done|]. cbn [forallb]. rewrite IH.
  destruct x as [cx lx]. apply tree_rel_inv in Hxy as (cy & ly & -> & Hxy & _). cbn [core].
  by rewrite (HR _ _ Hxy).
Qed.

Lemma close_loop_rel n D k r0 r :
  nothing_pending r0 = false -> 0 <= k -> k + Z.of_nat n <= D <= u64_max ->
  tree_rel (drained D k) r0 r -> tree_rel (drained D (k + Z.of_nat n)) r0 (close_loop n r).
Proof.
  intros Hp. revert k r. induction n as [|n IH]; intros k r H0 Hk H; cbn [close_loop].
  - by rewrite Z.add_0_r.
  - rewrite (nothing_pending_rel (drained D k) r0 r), Hp; [|by intros ? ? (_ & ? & _)|done].
    replace (k + Z.of_nat (S n)) with (k + 1 + Z.of_nat n) by lia. apply IH; [lia|lia|].
    apply drain_tick_rel; [lia|lia|done].
Qed.

(** ** Closing *)

(** A region that has not begun to close. *)
Definition idle (c : RegionCore) : Prop := r_state c = Running /\ drain_timeout_escalated c = false.

(** What closing makes of a node: closed, and with what was pending aborted if
    the drain timed out. *)
Definition closed_as (timed_out : bool) (c c' : RegionCore) : Prop :=
  r_state c' = Closed /\
  obligations c' = if timed_out then abort_if_pending <$> obligations c else obligations c.

Definition resolved (c : RegionCore) : Prop := core_pending c = 0.

Lemma settled_tree_iff r : settled_tree r = true <-> tree_all resolved r.
Proof.
  induction r as [c l IH] using region_tree_ind. cbn [settled_tree]. rewrite andb_true_iff, Z.eqb_eq. split.
  - intros [Hc Hl]. constructor; [done|]. clear Hc. induction IH as [|x l Hx _ IHl]; [constructor|].
    cbn [forallb] in Hl. apply andb_true_iff in Hl as [H1 H2]. constructor; [by apply Hx|auto].
  - intros [Hc Hl]%tree_all_inv. split; [done|]. clear Hc. induction IH as [|x l Hx _ IHl]; [done|].
    apply Forall_cons in Hl as [H1 H2]. cbn [forallb]. apply andb_true_iff. split; [by apply Hx|auto].
Qed.

Lemma finalize_core_closed D k c0 c ok :
  drained D k c0 c -> closed_as (D <=? k) c0 (finalize_core c ok).1.
Proof.
  intros (_ & Ho & _ & _ & He). unfold finalize_core, closed_as. cbv zeta. cbn [fst]. split; [done|].
  cbn [emit_event set_state obligations]. rewrite He. destruct (D <=? k); [|done].
  rewrite abort_pending_eq. cbn [set_obligations obligations]. by rewrite Ho.
Qed.

Lemma closed_as_resolved r r' timed_out :
  tree_rel (closed_as timed_out) r r' ->
  (tree_all resolved r' <-> timed_out = true \/ tree_all resolved r).
Proof.
  intros H. destruct timed_out.
  - split; [by left|]. intros _. eapply tree_rel_all; [|apply tree_all_true|exact H].
    intros x y _ [_ Ho]. unfold resolved, core_pending. rewrite Ho. apply aborted_none_pending.
  - split.
    + intros Hr. right. revert r' H Hr. induction r as [c l IH] using region_tree_ind. intros r' H Hr.
      apply tree_rel_inv in H as (c' & l' & -> & [_ Ho] & F). apply tree_all_inv in Hr as [Hc Hl].
      constructor; [unfold resolved, core_pending in *; by rewrite <- Ho|]. clear Hc Ho. revert l' F Hl.
      induction IH as [|x l Hx _ IHl]; intros l' F Hl; [constructor|].
      apply Forall2_cons_inv_l in F as (y & l'' & Hxy & F & ->). apply Forall_cons in Hl as [? ?]. constructor; eauto.
    + intros [?|Hr]; [done|]. eapply tree_rel_all; [|exact Hr|exact H].
      intros x y Hx [_ Ho]. unfold resolved, core_pending in *. by rewrite Ho.
Qed.

(** C23. What closing a tree of running regions achieves, for every deadline of at least
    one tick. close returns Ok with all regions of the tree closed. If the region or one
    of its children has something pending, the drain runs into its deadline and everything
    pending in the whole tree is aborted; otherwise nothing is touched. It reports success
    exactly when nothing is left pending in the tree, which fails when only deeper
    descendants have pending obligations. *)
Theorem region_close_exact (r : Region) (reason : CancelReason) (max_ticks : Z) :
  tree_all idle r -> 1 <= max_ticks <= u64_max ->
  exists r' res, close r reason max_ticks = (r', Ok res) /\
    tree_rel (closed_as (negb (nothing_pending r))) r r' /\
    (fr_success res = true <-> tree_all resolved r') /\
    (fr_success res = true <-> nothing_pending r = false \/ tree_all resolved r).
Proof.
  intros Hidle HD. unfold close.
  destruct (cancel_running r reason) as (r1 & -> & H1); [by eapply tree_all_mono; [|exact Hidle]; intros c []|].
  destruct (drain_cancelled r1 max_ticks) as (r2 & -> & H2).
  { eapply tree_rel_all; [|apply tree_all_true|exact H1]. by intros x y _ [? ->]. }
  assert (H0 : tree_rel (drained max_ticks 0) r r2).
  { eapply tree_rel_mono; [|exact (tree_rel_trans _ _ _ _ _ (tree_rel_with _ _ _ _ Hidle H1) H2)].
    intros x z (y & [[_ He] [? ->]] & ->). unfold drained. cbn. rewrite He.
    replace (max_ticks <=? 0) with false by lia. done. }
  clear H1 H2.
  assert (H3 : exists k, tree_rel (drained max_ticks k) r (close_loop (Z.to_nat max_ticks) r2) /\
                 (max_ticks <=? k) = negb (nothing_pending r)).
  { destruct (nothing_pending r) eqn:Hp.
    - exists 0. split; [|lia]. destruct (Z.to_nat max_ticks); cbn [close_loop]; [done|].
      rewrite (nothing_pending_rel (drained max_ticks 0) r r2), Hp; [done| |done]. by intros ? ? (_ & ? & _).
    - exists max_ticks. split; [|cbn [negb]; lia].
      assert (He : 0 + Z.of_nat (Z.to_nat max_ticks) = max_ticks) by lia.
      rewrite <- He at 2. by apply close_loop_rel; try lia. }
  destruct H3 as (k & H3 & Hk). clear H0.
  destruct (finalize_draining (close_loop (Z.to_nat max_ticks) r2)) as (r' & res & -> & Hres & H4).
  { eapply tree_rel_all; [|apply tree_all_true|exact H3]. by intros x y _ (? & _). }
  assert (H5 : tree_rel (closed_as (negb (nothing_pending r))) r r').
  { eapply tree_rel_mono; [|exact (tree_rel_trans _ _ _ _ _ H3 H4)]. intros x z (y & Hy & ok & ->).
    rewrite <- Hk. by eapply finalize_core_closed. }
  exists r', res. split; [done|]. split; [done|]. rewrite Hres, settled_tree_iff. split; [done|].
  rewrite (closed_as_resolved _ _ _ H5). destruct (nothing_pending r); cbn [negb]; naive_solver.
Qed.

(** ** Phases only move forward *)

Definition rank (s : RegionState) : Z :=
  match s with Running => 0 | CancelRequested => 1 | RDraining => 2 | RFinalizing => 3 | Closed => 4 end.

Definition core_le (c c' : RegionCore) : Prop :=
  rank (r_state c) <= rank (r_state c') /\ dom (obligations c) ⊆ dom (obligations c') /\
  (r_state c <> Running -> dom (obligations c') = dom (obligations c) /\ cancel_reason c' = cancel_reason c) /\
  (drain_timeout_escalated c = true -> drain_timeout_escalated c' = true).

(** The later tree has the nodes of the earlier one, each not before its phase,
    and perhaps more children. *)
Inductive tree_le : Region -> Region -> Prop :=
  | tl_node c l c' l' more : core_le c c' -> Forall2 tree_le l l' -> tree_le (Node c l) (Node c' (l' ++ more)).

Lemma core_le_refl c : core_le c c.
Proof. unfold core_le. split; [lia|]. done. Qed.

Lemma core_le_trans a b c : core_le a b -> core_le b c -> core_le a c.
Proof.
  intros (R1 & D1 & K1 & E1) (R2 & D2 & K2 & E2). split; [lia|]. split; [set_solver|]. split; [|tauto].
  intros Ha. destruct (K1 Ha) as [Kd Kr].
  assert (Hb : r_state b <> Running) by (intros Hb; rewrite Hb in R1; destruct (r_state a); cbn in R1; [done|lia..]).
  destruct (K2 Hb) as [-> ->]. done.
Qed.

Lemma tree_le_inv c l r' :
  tree_le (Node c l) r' -> exists c' l' more, r' = Node c' (l' ++ more) /\ core_le c c' /\ Forall2 tree_le l l'.
Proof. intros H. inversion H. eauto 10. Qed.

Lemma tree_le_refl r : tree_le r r.
Proof.
  induction r as [c l IH] using region_tree_ind. rewrite <- (app_nil_r l) at 2. constructor; [apply core_le_refl|].
  induction IH; by constructor.
Qed.

Lemma tree_le_trans a b c : tree_le a b -> tree_le b c -> tree_le a c.
Proof.
  revert b c. induction a as [ca l IH] using region_tree_ind. intros b c H1 H2.
  apply tree_le_inv in H1 as (cb & lb & mb & -> & H1 & F1). apply tree_le_inv in H2 as (cc & lc & mc & -> & H2 & F2).
  apply Forall2_app_inv_l in F2 as (lc1 & lc2 & F2 & _ & ->). rewrite <- app_assoc.
  constructor; [by eapply core_le_trans|]. clear H1 H2. revert lb lc1 F1 F2.
  induction IH as [|x l Hx _ IHl]; intros lb lc1 F1 F2.
  - apply Forall2_nil_inv_l in F1 as ->. by apply Forall2_nil_inv_l in F2 as ->.
  - apply Forall2_cons_inv_l in F1 as (y & lb' & Hxy & F1 & ->).
    apply Forall2_cons_inv_l in F2 as (z & lc' & Hyz & F2 & ->). constructor; eauto.
Qed.

Lemma tree_le_node c l c' l' : core_le c c' -> Forall2 tree_le l l' -> tree_le (Node c l) (Node c' l').
Proof. intros Hc Hl. rewrite <- (app_nil_r l'). by constructor. Qed.

Lemma core_le_node c l c' : core_le c c' -> tree_le (Node c l) (Node c' l).
Proof. intros H. apply tree_le_node; [done|]. induction l; constructor; auto using tree_le_refl. Qed.

Lemma resolve_le c id s : core_le c (resolve c id s).1.
Proof.
  unfold resolve. destruct (obligations c !! id) as [ob|] eqn:H; [|apply core_le_refl].
  assert (Hd : dom (<[id := mkObligation (ob_id ob) (ob_description ob) s]> (obligations c)) = dom (obligations c)).
  { rewrite dom_insert_L. apply elem_of_dom_2 in H. set_solver. }
  unfold core_le. cbn [fst set_obligations obligations r_state cancel_reason drain_timeout_escalated]. rewrite Hd. split; [lia|]. done.
Qed.

(** A node that only gains phase, reason at cancellation, clock or events. *)
Lemma forward_le c c' :
  rank (r_state c) <= rank (r_state c') -> obligations c' = obligations c ->
  (r_state c <> Running -> cancel_reason c' = cancel_reason c) ->
  (drain_timeout_escalated c = true -> drain_timeout_escalated c' = true) -> core_le c c'.
Proof. intros Hr Ho Hc He. unfold core_le. rewrite Ho. split; [done|]. split; [done|]. split; [|done]. intros H. split; [done|auto]. Qed.

Lemma finalize_core_le c ok : r_state c = RDraining -> core_le c (finalize_core c ok).1.
Proof.
  intros Hs. unfold finalize_core. cbv zeta. cbn [fst].
  set (d := if drain_timeout_escalated c then abort_pending c else c).
  assert (Hd : core_le c d /\ r_state d = RDraining).
  { unfold d. destruct (drain_timeout_escalated c) eqn:He; [|split; [apply core_le_refl|done]].
    rewrite abort_pending_eq. split; [|done]. unfold core_le.
    cbn [set_obligations obligations r_state cancel_reason drain_timeout_escalated]. rewrite dom_fmap_L. split; [lia|]. done. }
  clearbody d. destruct Hd as [Hd Hds]. eapply core_le_trans; [exact Hd|]. by apply forward_le; cbn; rewrite ?Hds; try lia.
Qed.

Lemma check_deadline_le c : core_le c (check_deadline (tick_core c)).1.
Proof.
  unfold check_deadline. destruct (drain_deadline _); [|by apply forward_le; cbn; try lia].
  destruct (_ <=? _); [|by apply forward_le; cbn; try lia].
  destruct (drain_timeout_escalated _); by apply forward_le; cbn; try lia.
Qed.

Lemma cancel_le r reason : tree_le r (cancel r reason).1.
Proof.
  revert reason. induction r as [c l IH] using region_tree_ind. intros reason. cbn [cancel].
  destruct (bool_decide_reflect (r_state c = Running)) as [Hs|]; cbn [negb fst]; [|apply tree_le_refl].
  match goal with |- context [try_children ?f l tt] => pose proof (try_children_rel f tree_le l tt tree_le_refl) as H end.
  destruct (try_children _ l tt) as [l' [b|e]]; cbn [fst] in *.
  - apply tree_le_node; [apply forward_le; cbn; rewrite ?Hs; cbn; try done; lia|]. apply H.
    eapply Forall_impl; [exact IH|]. intros x Hx b0. destruct (bool_decide _); [apply Hx|apply tree_le_refl].
  - apply tree_le_node; [apply core_le_refl|]. apply H.
    eapply Forall_impl; [exact IH|]. intros x Hx b0. destruct (bool_decide _); [apply Hx|apply tree_le_refl].
Qed.

Lemma drain_le r D : tree_le r (drain r D).1.
Proof.
  induction r as [c l IH] using region_tree_ind. cbn [drain].
  destruct (bool_decide_reflect (r_state c = CancelRequested)) as [Hs|]; cbn [negb fst]; [|apply tree_le_refl].
  match goal with |- context [try_children ?f l tt] => pose proof (try_children_rel f tree_le l tt tree_le_refl) as H end.
  destruct (try_children _ l tt) as [l' [b|e]]; cbn [fst] in *.
  - apply tree_le_node; [apply forward_le; cbn; rewrite ?Hs; cbn; try done; lia|]. apply H.
    eapply Forall_impl; [exact IH|]. intros x Hx b0. destruct (bool_decide _); [apply Hx|apply tree_le_refl].
  - apply tree_le_node; [apply core_le_refl|]. apply H.
    eapply Forall_impl; [exact IH|]. intros x Hx b0. destruct (bool_decide _); [apply Hx|apply tree_le_refl].
Qed.

Lemma map_le (f : Region -> Region) l : Forall (fun x => tree_le x (f x)) l -> Forall2 tree_le l (map f l).
Proof. induction 1; constructor; auto. Qed.

Lemma drain_tick_le r : tree_le r (drain_tick r).1.
Proof.
  induction r as [c l IH] using region_tree_ind. cbn [drain_tick].
  destruct (bool_decide_reflect (r_state c = RDraining)) as [Hs|]; cbn [negb fst]; [|apply tree_le_refl].
  pose proof (check_deadline_le c) as Hc. destruct (check_deadline (tick_core c)) as [c' b]. cbn [fst] in *.
  apply tree_le_node; [done|]. by apply map_le.
Qed.

Lemma finalize_le r : tree_le r (finalize r).1.
Proof.
  induction r as [c l IH] using region_tree_ind. cbn [finalize].
  destruct (bool_decide_reflect (r_state c = RDraining)) as [Hs|]; cbn [negb fst]; [|apply tree_le_refl].
  match goal with |- context [try_children ?f l true] => pose proof (try_children_rel f tree_le l true tree_le_refl) as H;
    assert (Hall : Forall (fun x => forall b, tree_le x (f x b).1) l) end.
  { eapply Forall_impl; [exact IH|]. intros x Hx b0. destruct (bool_decide _); [|apply tree_le_refl].
    cbn beta in Hx. by destruct (finalize x) as [x' [res|e]]. }
  specialize (H Hall). destruct (try_children _ l true) as [l' [b|e]]; cbn [fst] in *.
  - pose proof (finalize_core_le c b Hs) as Hc. destruct (finalize_core c b) as [c' res]. by apply tree_le_node.
  - apply tree_le_node; [apply core_le_refl|done].
Qed.

Lemma close_loop_le n r : tree_le r (close_loop n r).
Proof.
  revert r. induction n as [|n IH]; intros r; cbn [close_loop]; [apply tree_le_refl|].
  destruct (nothing_pending r); [apply tree_le_refl|]. eapply tree_le_trans; [apply drain_tick_le|apply IH].
Qed.

Lemma close_le r reason D : tree_le r (close r reason D).1.
Proof.
  unfold close. pose proof (cancel_le r reason) as H1. destruct (cancel r reason) as [r1 [[]|e]]; cbn [fst] in *; [|done].
  pose proof (drain_le r1 D) as H2. destruct (drain r1 D) as [r2 [[]|e]]; cbn [fst] in *; [|by eapply tree_le_trans].
  eapply tree_le_trans; [exact H1|]. eapply tree_le_trans; [exact H2|]. eapply tree_le_trans; [apply close_loop_le|apply finalize_le].
Qed.

Lemma drain_events_le r : tree_le r (drain_events r).1.
Proof.
  induction r as [c l IH] using region_tree_ind. cbn [drain_events fst].
  apply tree_le_node; [by apply forward_le; cbn; try lia|]. by apply map_le.
Qed.

(** One call on the root of a tree. *)
Inductive region_step : Region -> Region -> Prop :=
  | rs_add_child r child : region_step r (add_child r child)
  | rs_register r id description : region_step r (register_obligation r id description).1
  | rs_commit r id : region_step r (commit_obligation r id).1
  | rs_abort r id : region_step r (abort_obligation r id).1
  | rs_cancel r reason : region_step r (cancel r reason).1
  | rs_drain r D : region_step r (drain r D).1
  | rs_tick r : region_step r (drain_tick r).1
  | rs_finalize r : region_step r (finalize r).1
  | rs_close r reason D : region_step r (close r reason D).1
  | rs_events r : region_step r (drain_events r).1.

Lemma region_step_le r r' : region_step r r' -> tree_le r r'.
Proof.
  intros H. destruct H as [[c l] child|[c l] id description|[c l] id|[c l] id|r reason|r D|r|r|r reason D|r].
  - unfold add_child. cbn [core children]. constructor; [apply core_le_refl|].
    induction l; constructor; auto using tree_le_refl.
  - unfold register_obligation. destruct (bool_decide_reflect (rstate (Node c l) = Running)) as [Hs|]; cbn [negb fst];
      [|apply tree_le_refl]. apply core_le_node. unfold rstate, core in *.
    unfold core_le. cbn [set_obligations obligations r_state cancel_reason drain_timeout_escalated]. rewrite dom_insert_L.
    split; [lia|]. split; [set_solver|]. done.
  - unfold commit_obligation. pose proof (resolve_le c id Committed) as Hc. cbn [core children].
    destruct (resolve c id Committed). by apply core_le_node.
  - unfold abort_obligation. pose proof (resolve_le c id Aborted) as Hc. cbn [core children].
    destruct (resolve c id Aborted). by apply core_le_node.
  - apply cancel_le.
  - apply drain_le.
  - apply drain_tick_le.
  - apply finalize_le.
  - apply close_le.
  - apply drain_events_le.
Qed.

(** Under every sequence of operations on a region, no region of its tree returns to
    an earlier phase, loses children or forgets a timeout, and one that is past running
    takes no new obligation and keeps its cancel reason; closed stays closed. *)
Theorem region_phases_forward (r r' : Region) :
  rtc region_step r r' ->
  tree_le r r' /\
  (forall id description, rstate r <> Running -> register_obligation r' id description = (r', false)) /\
  (rstate r = Closed -> rstate r' = Closed).
Proof.
  intros Hr. assert (Hle : tree_le r r').
  { induction Hr as [|a b c Hs _ IH]; [apply tree_le_refl|]. eapply tree_le_trans; [by apply region_step_le|exact IH]. }
  split; [exact Hle|]. destruct r as [c l]. apply tree_le_inv in Hle as (c' & l' & more & -> & (Hrank & _) & _).
  unfold rstate, register_obligation. cbn [core]. unfold rstate. cbn [core]. split.
  - intros id description Hne. destruct (bool_decide_reflect (r_state c' = Running)) as [Hs|]; [|done]. exfalso.
    rewrite Hs in Hrank. destruct (r_state c); cbn in Hrank; [done|lia..].
  - intros Hs. rewrite Hs in Hrank. destruct (r_state c'); cbn in Hrank; [lia..|done].
Qed.

(** ** Examples *)

Definition leaf_with (id : string) (obs : list string) : Region :=
  fold_left (fun r o => (register_obligation r o "work").1) obs (new id "cell" "t").

Definition shallow : Region := add_child (leaf_with "root" ["a"]) (leaf_with "child" ["b"; "c"]).
Definition deep : Region := add_child (leaf_with "root" []) (add_child (leaf_with "child" []) (leaf_with "grandchild" ["d"])).

Lemma shallow_idle : tree_all idle shallow.
Proof. repeat constructor. Qed.

Lemma region_close_exact_witness :
  exists r' res, close shallow OperatorShutdown 3 = (r', Ok res) /\ fr_success res = true /\ tree_all resolved r'.
Proof.
  destruct (region_close_exact shallow OperatorShutdown 3 shallow_idle ltac:(vm_compute; split; discriminate))
    as (r' & res & Hc & _ & Hres & Hiff). exists r', res. split; [exact Hc|].
  assert (Hs : fr_success res = true) by (apply Hiff; left; vm_compute; reflexivity).
  split; [exact Hs|]. exact (proj1 Hres Hs).
Defined.

Lemma region_phases_forward_witness :
  register_obligation (finalize (drain (cancel shallow Quarantine).1 5).1).1 "late" "work" =
  ((finalize (drain (cancel shallow Quarantine).1 5).1).1, false).
Proof.
  refine (proj1 (proj2 (region_phases_forward (cancel shallow Quarantine).1 _ _)) "late" "work" _).
  - eapply rtc_l; [apply (rs_drain _ 5)|apply rtc_once, rs_finalize].
  - vm_compute. discriminate.
Defined.

(** [close] looks at its own obligations and those of its children.  What only a
    grandchild has pending is neither waited for nor aborted. *)
Lemma grandchild_left_pending :
  match close deep OperatorShutdown 100 with
  | (r', Ok res) => fr_success res = false /\ fr_escalated res = false /\ rstate r' = Closed /\ settled_tree r' = false
  | _ => False
  end.
Proof. vm_compute. done. Qed.

(** A resolved obligation can be resolved again, the other way and after the
    region has closed. *)
Lemma resolution_not_final :
  let r := (close (commit_obligation (leaf_with "root" ["a"]) "a").1 OperatorShutdown 3).1 in
  rstate r = Closed /\ (ob_status <$> obligations (core r) !! "a") = Some Committed /\
  (ob_status <$> obligations (core (abort_obligation r "a").1) !! "a") = Some Aborted.
Proof. vm_compute. done. Qed.
