(* ===== verification/ObligationChannel.v ===== *)
(** * Obligation channels (crates/franken-engine/src/obligation_channel.rs)

    Every message sent creates an obligation that is pending until it is
    committed, aborted or found leaked.  The theorems say that the registry holds
    exactly the obligations handed out, never more than the configured number of
    them pending, that a resolution is final, and that the events account for
    every obligation with one creation and at most one resolution. *)
From stdpp Require Import base numbers list strings gmap sorting.
From S2P Require Import Prelude Bytes.
Open Scope string_scope.
Open Scope list_scope.
Open Scope Z_scope.

Inductive ObligationState := OPending | OCommitted | OAborted | OLeaked.

#[export] Instance ObligationState_eq_dec : EqDecision ObligationState.
Proof. solve_decision. Defined.

Inductive AbortReason :=
  | DrainTimeout | UpstreamFailure | PolicyViolation | OperatorAbort | CustomAbort (s : string).

Inductive ObligationError :=
  | NotFound (obligation_id : Z)
  | AlreadyResolved (obligation_id : Z)
  | Backpressure (max_pending : Z)
  | Leaked (obligation_id : Z).

Record ObligationRecord := mkRecord {
  obligation_id : Z;
  created_at_tick : Z;
  creator_trace_id : string;
  o_state : ObligationState;
  resolution_evidence_hash : option string }.

Record ObligationEvent := mkOEvent {
  oe_trace : string;
  oe_channel : string;
  oe_obligation_id : Z;
  oe_state : ObligationState;
  resolution_type : option string;
  oe_evidence : option string }.

Record ChannelConfig := mkChanConfig { max_pending : Z; lab_mode : bool }.
Definition default_channel_config : ChannelConfig := mkChanConfig 256 false.

Record ObligationChannel := mkChannel {
  channel_id : string;
  ch_config : ChannelConfig;
  ch_trace : string;
  registry : gmap Z ObligationRecord;
  next_obligation_id : Z;
  ch_tick : Z;
  ch_events : list ObligationEvent;
  leak_count : Z }.

Definition is_pending (kv : Z * ObligationRecord) : Prop := o_state kv.2 = OPending.
#[export] Instance is_pending_dec kv : Decision (is_pending kv).
Proof. unfold is_pending. apply _. Defined.

Module Ob.
Definition new (channel_id trace : string) (config : ChannelConfig) : ObligationChannel :=
  mkChannel channel_id config trace ∅ 1 0 [] 0.

Definition set_tick (c : ObligationChannel) (tick : Z) : ObligationChannel :=
  mkChannel (channel_id c) (ch_config c) (ch_trace c) (registry c) (next_obligation_id c) tick
    (ch_events c) (leak_count c).

Definition emit_event (c : ObligationChannel) (id : Z) (s : ObligationState)
    (resolution evidence : option string) : ObligationChannel :=
  mkChannel (channel_id c) (ch_config c) (ch_trace c) (registry c) (next_obligation_id c) (ch_tick c)
    (ch_events c ++ [mkOEvent (ch_trace c) (channel_id c) id s resolution evidence]) (leak_count c).

Definition pending_count (c : ObligationChannel) : Z := Z.of_nat (size (filter is_pending (registry c))).
Definition total_count (c : ObligationChannel) : Z := Z.of_nat (size (registry c)).
Definition is_lab_mode (c : ObligationChannel) : bool := lab_mode (ch_config c).
Definition drain_check (c : ObligationChannel) : bool := pending_count c =? 0.

Definition send (c : ObligationChannel) (creator : string) : ObligationChannel * result ObligationError Z :=
  if max_pending (ch_config c) <=? pending_count c then (c, Err (Backpressure (max_pending (ch_config c))))
  else
    let id := next_obligation_id c in
    (emit_event
       (mkChannel (channel_id c) (ch_config c) (ch_trace c)
          (<[id := mkRecord id (ch_tick c) creator OPending None]> (registry c))
          (wrap_u64 (next_obligation_id c + 1)) (ch_tick c) (ch_events c) (leak_count c))
       id OPending None None,
     Ok id).

(** The lookup and the guard that the three resolutions share. *)
Definition resolve_with (c : ObligationChannel) (id : Z)
    (f : ObligationRecord -> ObligationChannel) : ObligationChannel * result ObligationError unit :=
  match registry c !! id with
  | None => (c, Err (NotFound id))
  | Some r =>
      if negb (bool_decide (o_state r = OPending)) then (c, Err (AlreadyResolved id)) else (f r, Ok tt)
  end.

Definition set_record (c : ObligationChannel) (id : Z) (r : ObligationRecord) (s : ObligationState)
    (evidence : option string) (leaks : Z) : ObligationChannel :=
  mkChannel (channel_id c) (ch_config c) (ch_trace c)
    (<[id := mkRecord (obligation_id r) (created_at_tick r) (creator_trace_id r) s evidence]> (registry c))
    (next_obligation_id c) (ch_tick c) (ch_events c) leaks.

Definition commit (c : ObligationChannel) (id : Z) (evidence : string) :
    ObligationChannel * result ObligationError unit :=
  resolve_with c id (fun r =>
    emit_event (set_record c id r OCommitted (Some evidence) (leak_count c)) id OCommitted
      (Some "commit") (Some evidence)).

Definition abort (c : ObligationChannel) (id : Z) (reason : AbortReason) (evidence : string) :
    ObligationChannel * result ObligationError unit :=
  resolve_with c id (fun r =>
    emit_event (set_record c id r OAborted (Some evidence) (leak_count c)) id OAborted
      (Some "abort") (Some evidence)).

Definition mark_leaked (c : ObligationChannel) (id : Z) : ObligationChannel * result ObligationError unit :=
  resolve_with c id (fun r =>
    emit_event (set_record c id r OLeaked (resolution_evidence_hash r) (wrap_u64 (leak_count c + 1))) id OLeaked
      (Some "leak") None).

Definition pending_ids (c : ObligationChannel) : list Z := sorted_keys (filter is_pending (registry c)).

Definition force_abort_all_pending (c : ObligationChannel) (evidence : string) : ObligationChannel * Z :=
  let ids := pending_ids c in
  (fold_left (fun c id => (abort c id DrainTimeout evidence).1) ids c, zlen ids).

(** [min_by_key] keeps the first of equal minima, in the order of the map. *)
Definition older (best : option ObligationRecord) (r : ObligationRecord) : option ObligationRecord :=
  match best with
  | Some b => if created_at_tick r <? created_at_tick b then Some r else best
  | None => Some r
  end.

Definition oldest_pending (c : ObligationChannel) : option ObligationRecord :=
  fold_left older (sorted_values (filter is_pending (registry c))) None.

Definition drain_events (c : ObligationChannel) : ObligationChannel * list ObligationEvent :=
  (mkChannel (channel_id c) (ch_config c) (ch_trace c) (registry c) (next_obligation_id c) (ch_tick c)
     [] (leak_count c), ch_events c).
End Ob.

(** ** The account of the registry *)

(** One for a record in state [s]. *)
Definition in_o_state (s : ObligationState) (r : ObligationRecord) : Z :=
  if decide (o_state r = s) then 1 else 0.

Lemma pending_count_sum c : Ob.pending_count c = map_sum (in_o_state OPending) (registry c).
Proof.
  unfold Ob.pending_count. induction (registry c) as [|k r m Hk IH] using map_ind.
  - by rewrite map_filter_empty, map_sum_empty, map_size_empty.
  - rewrite map_sum_insert by done. unfold in_o_state at 1. case_decide as Hs.
    + rewrite map_filter_insert_True by done. rewrite map_size_insert_None; [lia|].
      apply map_lookup_filter_None. by left.
    + rewrite map_filter_insert_not' by (naive_solver || done). lia.
Qed.

(** The states that the events give an obligation, in order. *)
Definition log_states (log : list ObligationEvent) (id : Z) : list ObligationState :=
  oe_state <$> filter (fun e => oe_obligation_id e = id) log.

(** The states that a registry entry has gone through. *)
Definition record_states (o : option ObligationRecord) : list ObligationState :=
  match o with
  | None => []
  | Some r => OPending :: if decide (o_state r = OPending) then [] else [o_state r]
  end.

Lemma log_states_snoc log e id :
  log_states (log ++ [e]) id =
  log_states log id ++ if decide (oe_obligation_id e = id) then [oe_state e] else [].
Proof.
  unfold log_states. rewrite filter_app, fmap_app. f_equal. rewrite filter_cons. by case_decide.
Qed.

(** [log] are the events of the channel, drained ones first. *)
Record channel_inv (c : ObligationChannel) (log : list ObligationEvent) : Prop := {
  oi_next : 1 <= next_obligation_id c <= u64_max;
  oi_keys : forall id, is_Some (registry c !! id) <-> 1 <= id < next_obligation_id c;
  oi_ids : forall id r, registry c !! id = Some r -> obligation_id r = id;
  oi_limit : Ob.pending_count c <= Z.max 0 (max_pending (ch_config c));
  oi_leaks : leak_count c = map_sum (in_o_state OLeaked) (registry c);
  oi_log : forall id, log_states log id = record_states (registry c !! id) }.

Lemma leaks_bounded c log : channel_inv c log -> 0 <= leak_count c < u64_max.
Proof.
  intros [Hn Hk _ _ -> _].
  assert (Hsz : map_sum (in_o_state OLeaked) (registry c) <= Z.of_nat (size (registry c)) /\
    0 <= map_sum (in_o_state OLeaked) (registry c)).
  { clear. induction (registry c) as [|k r m Hk IH] using map_ind; [by rewrite map_sum_empty|].
    rewrite map_sum_insert, map_size_insert_None by done. unfold in_o_state at 1 3. case_decide; lia. }
  assert (Hle : (size (registry c) <= Z.to_nat (next_obligation_id c - 1))%nat).
  { rewrite <- (size_dom (registry c)). transitivity (size (list_to_set (seqZ 1 (next_obligation_id c - 1)) : gset Z)).
    - apply subseteq_size. intros id Hid%elem_of_dom. apply Hk in Hid. apply elem_of_list_to_set, elem_of_seqZ. lia.
    - rewrite size_list_to_set by apply NoDup_seqZ. by rewrite length_seqZ. }
  lia.
Qed.

Lemma new_channel_inv id trace config : channel_inv (Ob.new id trace config) [].
Proof.
  split; cbn [Ob.new next_obligation_id registry ch_config leak_count]; try done.
  - intros k. rewrite lookup_empty. split; [by intros []%is_Some_None|lia].
  - unfold Ob.pending_count. cbn [Ob.new registry]. rewrite map_filter_empty, map_size_empty. lia.
Qed.

Lemma send_inv c log creator c' id :
  channel_inv c (log ++ ch_events c) -> next_obligation_id c < u64_max ->
  Ob.send c creator = (c', Ok id) -> channel_inv c' (log ++ ch_events c') /\ id = next_obligation_id c.
Proof.
  intros [Hn Hk Hi Hl Hlk Hlog] Hlt H. unfold Ob.send in H.
  destruct (Z.leb_spec (max_pending (ch_config c)) (Ob.pending_count c)) as [|Hroom]; [done|]. injection H as <- <-.
  split; [|done]. set (id := next_obligation_id c) in *. set (rec := mkRecord id (ch_tick c) creator OPending None).
  assert (Hnone : registry c !! id = None) by (apply eq_None_not_Some; rewrite Hk; lia).
  split; cbn [Ob.emit_event next_obligation_id registry ch_config ch_events leak_count].
  - rewrite wrap_u64_small; mlia.
  - intros k. rewrite wrap_u64_small by mlia. destruct (decide (k = id)) as [->|Hne].
    + rewrite lookup_insert_eq. split; [lia|eauto].
    + rewrite lookup_insert_ne, Hk by done. lia.
  - intros k r. rewrite lookup_insert_Some. intros [[<- <-]|[_ Hr]]; [done|by apply Hi].
  - rewrite !pending_count_sum in *. cbn [Ob.emit_event registry]. rewrite map_sum_insert by done. change (in_o_state OPending rec) with 1. lia.
  - rewrite map_sum_insert by done. change (in_o_state OLeaked rec) with 0. lia.
  - intros k. rewrite app_assoc, log_states_snoc, Hlog. cbn [oe_obligation_id oe_state]. destruct (decide (id = k)) as [<-|Hne].
    + by rewrite lookup_insert_eq, Hnone.
    + by rewrite lookup_insert_ne, app_nil_r.
Qed.

(** The three resolutions. *)
Lemma resolve_inv c log id r s ev leaks rt ee :
  channel_inv c (log ++ ch_events c) -> registry c !! id = Some r -> o_state r = OPending -> s <> OPending ->
  leaks = leak_count c + (if decide (s = OLeaked) then 1 else 0) ->
  let c' := Ob.emit_event (Ob.set_record c id r s ev leaks) id s rt ee in channel_inv c' (log ++ ch_events c').
Proof.
  intros [Hn Hk Hi Hl Hlk Hlog] Hr Hp Hs Hleaks. cbv zeta. set (rec := mkRecord (obligation_id r) (created_at_tick r) (creator_trace_id r) s ev).
  split; cbn [Ob.emit_event Ob.set_record next_obligation_id registry ch_config ch_events leak_count]; fold rec.
  - done.
  - intros k. rewrite lookup_insert_is_Some, <- Hk. split; [intros [<-|[_ ?]]; [by exists r|done]|].
    intros ?. destruct (decide (id = k)); [by left|by right].
  - intros k r'. rewrite lookup_insert_Some. intros [[<- <-]|[_ Hr']]; [exact (Hi _ _ Hr)|by apply Hi].
  - rewrite !pending_count_sum in *. cbn [Ob.emit_event Ob.set_record registry]. fold rec. rewrite (map_sum_update _ _ _ r) by done.
    unfold in_o_state at 2 3. rewrite Hp. cbn [rec o_state]. rewrite decide_True, decide_False by done. lia.
  - rewrite (map_sum_update _ _ _ r) by done. rewrite Hleaks, Hlk. unfold in_o_state at 3 4. rewrite Hp. cbn [rec o_state].
    rewrite (decide_False (P := OPending = OLeaked)) by done. case_decide; lia.
  - intros k. rewrite app_assoc, log_states_snoc, Hlog. cbn [oe_obligation_id oe_state]. destruct (decide (id = k)) as [<-|Hne].
    + rewrite lookup_insert_eq, Hr. cbn [record_states rec o_state]. by rewrite Hp, decide_True, decide_False by done.
    + by rewrite lookup_insert_ne, app_nil_r.
Qed.

(** ** Runs *)

(** A channel with the events drained from it so far.  Fewer than [2 ^ 64]
    messages are sent. *)
Inductive channel_step : ObligationChannel * list ObligationEvent -> ObligationChannel * list ObligationEvent -> Prop :=
  | os_send c log creator :
      next_obligation_id c < u64_max -> channel_step (c, log) ((Ob.send c creator).1, log)
  | os_commit c log id ev : channel_step (c, log) ((Ob.commit c id ev).1, log)
  | os_abort c log id reason ev : channel_step (c, log) ((Ob.abort c id reason ev).1, log)
  | os_leak c log id : channel_step (c, log) ((Ob.mark_leaked c id).1, log)
  | os_force c log ev : channel_step (c, log) ((Ob.force_abort_all_pending c ev).1, log)
  | os_tick c log tick : channel_step (c, log) (Ob.set_tick c tick, log)
  | os_drain c log : channel_step (c, log) ((Ob.drain_events c).1, log ++ (Ob.drain_events c).2).

(** Resolved records stay, and the configuration too. *)
Definition keeps (c c' : ObligationChannel) : Prop :=
  ch_config c' = ch_config c /\
  forall id r, registry c !! id = Some r ->
    exists r', registry c' !! id = Some r' /\ (o_state r <> OPending -> r' = r).

Lemma keeps_refl c : keeps c c.
Proof. split; [done|]. eauto. Qed.

Lemma keeps_trans a b c : keeps a b -> keeps b c -> keeps a c.
Proof.
  intros [E1 K1] [E2 K2]. split; [congruence|]. intros id r Hr. destruct (K1 id r Hr) as (r1 & H1 & F1).
  destruct (K2 id r1 H1) as (r2 & H2 & F2). exists r2. split; [done|]. intros Hs. specialize (F1 Hs). subst. auto.
Qed.

Lemma insert_keeps c c' id r rec :
  registry c !! id = Some r -> o_state r = OPending -> registry c' = <[id := rec]> (registry c) ->
  ch_config c' = ch_config c -> keeps c c'.
Proof.
  intros Hr Hp He Hc. split; [done|]. intros k r0 H0. rewrite He. destruct (decide (id = k)) as [<-|Hne].
  - rewrite lookup_insert_eq. exists rec. split; [done|]. congruence.
  - rewrite lookup_insert_ne by done. eauto.
Qed.

Lemma resolution_step c log (f : ObligationChannel * result ObligationError unit) id s ev leaks rt ee :
  channel_inv c (log ++ ch_events c) -> s <> OPending ->
  (registry c !! id <> None -> leaks = leak_count c + (if decide (s = OLeaked) then 1 else 0)) ->
  f = Ob.resolve_with c id (fun r => Ob.emit_event (Ob.set_record c id r s (ev r) leaks) id s rt ee) ->
  channel_inv f.1 (log ++ ch_events f.1) /\ keeps c f.1.
Proof.
  intros Hinv Hs Hl ->. unfold Ob.resolve_with. destruct (registry c !! id) as [r|] eqn:Hr; [|split; [done|apply keeps_refl]].
  case_bool_decide as Hp; cbn [negb fst]; [|split; [done|apply keeps_refl]]. split.
  - apply (resolve_inv c log id r s (ev r) leaks rt ee); try done. by apply Hl.
  - eapply insert_keeps; [exact Hr|exact Hp|reflexivity|reflexivity].
Qed.

Lemma abort_step c log id reason ev :
  channel_inv c (log ++ ch_events c) ->
  channel_inv (Ob.abort c id reason ev).1 (log ++ ch_events (Ob.abort c id reason ev).1) /\
  keeps c (Ob.abort c id reason ev).1.
Proof.
  intros H. eapply (resolution_step c log _ id OAborted (fun _ => Some ev) (leak_count c)); [done|done| |reflexivity].
  intros _. rewrite decide_False by done. lia.
Qed.

Lemma abort_all_step ids c log ev :
  channel_inv c (log ++ ch_events c) ->
  let c' := fold_left (fun c id => (Ob.abort c id DrainTimeout ev).1) ids c in
  channel_inv c' (log ++ ch_events c') /\ keeps c c'.
Proof.
  revert c. induction ids as [|id ids IH]; intros c H; cbn [fold_left]; [split; [done|apply keeps_refl]|].
  destruct (abort_step c log id DrainTimeout ev H) as [H1 K1]. destruct (IH _ H1) as [H2 K2].
  split; [done|]. by eapply keeps_trans.
Qed.

Lemma channel_step_inv c log c' log' :
  channel_step (c, log) (c', log') -> channel_inv c (log ++ ch_events c) ->
  channel_inv c' (log' ++ ch_events c') /\ keeps c c'.
Proof.
  intros H Hinv. remember (c, log) as p eqn:Hp. remember (c', log') as q eqn:Hq.
  destruct H as [d l creator Hlt|d l id ev|d l id reason ev|d l id|d l ev|d l tick|d l];
    injection Hp as -> ->; injection Hq as <- <-.
  - destruct (Ob.send c creator) as [c1 [id|e]] eqn:Hs; cbn [fst].
    + destruct (send_inv _ _ _ _ _ Hinv Hlt Hs) as [H1 ->]. split; [done|].
      unfold Ob.send in Hs. destruct (_ <=? _); [done|]. injection Hs as <-. split; [done|]. intros k r Hr.
      exists r. split; [|done]. cbn [Ob.emit_event registry]. rewrite lookup_insert_ne; [done|].
      intros <-. pose proof (proj1 (oi_keys _ _ Hinv _) (mk_is_Some _ _ Hr)). lia.
    + unfold Ob.send in Hs. destruct (_ <=? _); [|done]. injection Hs as <- _. split; [done|apply keeps_refl].
  - eapply (resolution_step c log _ id OCommitted (fun _ => Some ev) (leak_count c)); [done|done| |reflexivity].
    intros _. rewrite decide_False by done. lia.
  - by apply abort_step.
  - pose proof (leaks_bounded _ _ Hinv) as Hb.
    eapply (resolution_step c log _ id OLeaked resolution_evidence_hash (wrap_u64 (leak_count c + 1))); [done|done| |reflexivity].
    intros _. rewrite wrap_u64_small by mlia. done.
  - by apply abort_all_step.
  - split; [|split; [done|eauto]]. destruct Hinv as [? ? ? Hl ? ?]. split; try done.
  - split; [|split; [done|eauto]]. cbn [Ob.drain_events fst snd ch_events]. rewrite app_nil_r. destruct Hinv. by split.
Qed.

Lemma channel_run_inv p q :
  rtc channel_step p q -> channel_inv p.1 (p.2 ++ ch_events p.1) ->
  channel_inv q.1 (q.2 ++ ch_events q.1) /\ keeps p.1 q.1.
Proof.
  induction 1 as [p|[c1 l1] [c2 l2] q Hs _ IH]; intros Hinv; [split; [done|apply keeps_refl]|].
  destruct (channel_step_inv _ _ _ _ Hs Hinv) as [H2 K2]. destruct (IH H2) as [H3 K3].
  split; [done|]. by eapply keeps_trans.
Qed.

(** Aborting the pending obligations one by one leaves none. *)
Lemma abort_lookup c id k reason ev :
  registry (Ob.abort c id reason ev).1 !! k =
  match registry c !! id with
  | Some r => if decide (o_state r = OPending /\ id = k) then
                Some (mkRecord (obligation_id r) (created_at_tick r) (creator_trace_id r) OAborted (Some ev))
              else registry c !! k
  | None => registry c !! k
  end.
Proof.
  unfold Ob.abort, Ob.resolve_with. destruct (registry c !! id) as [r|] eqn:Hr; [|done].
  case_bool_decide as Hp; cbn [negb fst Ob.emit_event Ob.set_record registry]; case_decide as Hd.
  - destruct Hd as [_ <-]. by rewrite lookup_insert_eq.
  - rewrite lookup_insert_ne; [done|]. intros <-. by apply Hd.
  - by destruct Hd.
  - done.
Qed.

Lemma abort_all_lookup ids c ev k r :
  registry (fold_left (fun c id => (Ob.abort c id DrainTimeout ev).1) ids c) !! k = Some r ->
  o_state r = OPending -> (k ∉ ids) /\ registry c !! k = Some r.
Proof.
  revert c. induction ids as [|id ids IH]; intros c H Hp; cbn [fold_left] in H; [split; [apply not_elem_of_nil|done]|].
  destruct (IH _ H Hp) as [Hn Hl]. rewrite abort_lookup in Hl.
  destruct (registry c !! id) as [r0|] eqn:H0.
  - case_decide as Hd; [injection Hl as <-; done|]. split; [|done]. apply not_elem_of_cons. split; [|done].
    intros ->. rewrite H0 in Hl. injection Hl as ->. by apply Hd.
  - split; [|done]. apply not_elem_of_cons. split; [|done]. intros ->. congruence.
Qed.

Lemma force_abort_drains c ev :
  Ob.drain_check (Ob.force_abort_all_pending c ev).1 = true /\
  (Ob.force_abort_all_pending c ev).2 = Ob.pending_count c.
Proof.
  split.
  - unfold Ob.drain_check, Ob.force_abort_all_pending, Ob.pending_count. cbn [fst]. apply Z.eqb_eq.
    replace (filter is_pending _) with (∅ : gmap Z ObligationRecord); [by rewrite map_size_empty|].
    symmetry. apply map_empty. intros k. apply map_lookup_filter_None. right. intros r Hr Hp.
    apply abort_all_lookup in Hr as [Hn Hr]; [|done]. apply Hn. unfold Ob.pending_ids. apply elem_of_sorted_keys.
    exists r. by apply map_lookup_filter_Some.
  - unfold Ob.force_abort_all_pending, Ob.pending_count, Ob.pending_ids, sorted_keys, zlen. cbn [snd].
    rewrite length_fmap, sorted_entries_perm. by rewrite length_map_to_list.
Qed.

(** In every reachable obligation channel the registry holds exactly the identifiers
    handed out, at most the configured number of obligations are pending, and the events,
    drained ones included, show for each obligation its creation followed by the one
    resolution it has, if any. A resolution is final under all later calls, the leak
    counter is the number of leaked obligations, and the forced abort leaves nothing
    pending and returns how many there were. *)
Theorem obligations_resolved_once (id trace : string) (config : ChannelConfig) (c : ObligationChannel)
    (drained : list ObligationEvent) :
  rtc channel_step (Ob.new id trace config, []) (c, drained) ->
  (forall k, is_Some (registry c !! k) <-> 1 <= k < next_obligation_id c) /\
  Ob.pending_count c <= Z.max 0 (max_pending config) /\
  (forall k, log_states (drained ++ ch_events c) k = record_states (registry c !! k)) /\
  leak_count c = map_sum (in_o_state OLeaked) (registry c) /\
  (forall c' drained' k r, rtc channel_step (c, drained) (c', drained') ->
     registry c !! k = Some r -> o_state r <> OPending -> registry c' !! k = Some r) /\
  (forall ev, Ob.drain_check (Ob.force_abort_all_pending c ev).1 = true /\
              (Ob.force_abort_all_pending c ev).2 = Ob.pending_count c).
Proof.
  intros Hr. destruct (channel_run_inv _ _ Hr (new_channel_inv id trace config)) as [Hinv [Hcfg _]].
  cbn [fst snd Ob.new ch_config] in *. pose proof Hinv as [_ Hk _ Hl Hlk Hlog]. rewrite Hcfg in Hl.
  split; [done|]. split; [done|]. split; [done|]. split; [done|]. split; [|intros ev; apply force_abort_drains].
  intros c' drained' k r Hr' Hk' Hs. destruct (channel_run_inv _ _ Hr' Hinv) as [_ [_ K]].
  destruct (K k r Hk') as (r' & H1 & H2). by rewrite <- (H2 Hs).
Qed.

(** ** Examples *)

Definition oc0 : ObligationChannel := Ob.new "ch" "t" (mkChanConfig 2 true).
Definition oc1 := (Ob.send oc0 "a").1.
Definition oc2 := (Ob.send oc1 "b").1.
Definition oc3 := (Ob.commit oc2 1 "h").1.
Definition oc4 := (Ob.mark_leaked oc3 2).1.

Lemma oc_run : rtc channel_step (oc0, []) (oc3, []).
Proof.
  eapply rtc_l; [apply (os_send _ _ "a"); reflexivity|]. eapply rtc_l; [apply (os_send _ _ "b"); reflexivity|].
  apply rtc_once, (os_commit _ _ 1 "h").
Qed.

Lemma obligations_resolved_once_witness :
  (o_state <$> registry oc4 !! 1) = Some OCommitted /\ log_states (ch_events oc3) 1 = [OPending; OCommitted].
Proof.
  destruct (obligations_resolved_once "ch" "t" (mkChanConfig 2 true) oc3 [] oc_run) as (_ & _ & Hlog & _ & Hfinal & _).
  split.
  - rewrite (Hfinal oc4 [] 1 (mkRecord 1 0 "a" OCommitted (Some "h"))); [reflexivity| | |].
    + apply rtc_once, (os_leak _ _ 2).
    + vm_compute. reflexivity.
    + discriminate.
  - etransitivity; [exact (Hlog 1)|]. vm_compute. reflexivity.
Defined.

(** The third message meets back-pressure; the leak in lab mode is counted and
    the channel goes on. *)
Lemma channel_examples :
  (Ob.send oc2 "c").2 = Err (Backpressure 2) /\ Ob.is_lab_mode oc4 = true /\ leak_count oc4 = 1 /\
  is_ok (Ob.send oc4 "c").2 = true /\ (obligation_id <$> Ob.oldest_pending oc2) = Some 1.
Proof. vm_compute. done. Qed.
