(* ===== verification/SessionChannel.v ===== *)
(** * Session-authenticated hostcall channels
      (crates/franken-engine/src/session_hostcall_channel.rs)

    A handshake derives a session key; envelopes carry a MAC under it and a
    sequence number, queue up in the session and are checked when received.
    Methods return the channel with their [Result]: a session keeps what was
    changed before an error (an expired state, a popped envelope).  A
    [SessionHandle] is the name of its session.  [send] and
    [send_shared_buffer] share [enqueue].  SessionCorrect.v holds the proofs. *)
From stdpp Require Import base numbers list strings gmap.
From Stdlib Require Import Strings.Byte.
From S2P Require Import Prelude Bytes HashTiers SignaturePreimage.
Open Scope string_scope.
Open Scope list_scope.
Open Scope Z_scope.

Inductive SessionState := SInit | Established | SExpired | SClosed.

#[export] Instance SessionState_eq_dec : EqDecision SessionState.
Proof. solve_decision. Defined.

Inductive SequencePolicy := Strict | Monotonic.

#[export] Instance SequencePolicy_eq_dec : EqDecision SequencePolicy.
Proof. solve_decision. Defined.

Record SessionConfig := mkSConfig {
  max_lifetime_ticks : Z;
  cfg_max_messages : Z;
  cfg_max_buffered : Z;
  cfg_sequence_policy : SequencePolicy;
  cfg_drop_threshold : Z;
  cfg_drop_window : Z }.

Definition default_session_config : SessionConfig := mkSConfig 10000 10000 256 Monotonic 8 1000.

Record SessionHandshake := mkHandshake {
  hs_session_id : string;
  hs_extension_id : string;
  hs_host_id : string;
  hs_extension_nonce : Z;
  hs_host_nonce : Z;
  hs_timestamp : Z;
  hs_trace : string }.

Record HandshakeRequest := mkRequest {
  rq_session_id : string;
  rq_extension_id : string;
  rq_host_id : string;
  rq_extension_nonce : Z;
  rq_timestamp : Z;
  rq_extension_key : VerificationKey;
  rq_signature : Signature }.

Record HandshakeResponse := mkResponse {
  rp_session_id : string;
  rp_extension_nonce : Z;
  rp_host_nonce : Z;
  rp_host_key : VerificationKey;
  rp_signature : Signature }.

Record SharedPayloadDescriptor := mkShared { region_id : Z; payload_len : Z; sp_payload_hash : ContentHash }.
Record BackpressureSignal := mkSignal { pending_messages : Z; bp_limit : Z }.

Inductive ChannelPayload :=
  | Inline (bytes : list byte)
  | Shared (d : SharedPayloadDescriptor)
  | BackpressureP (s : BackpressureSignal).

Inductive AeadAlgorithm := ChaCha20Poly1305 | Aes256Gcm | XChaCha20Poly1305.

Definition nonce_len (a : AeadAlgorithm) : Z :=
  match a with ChaCha20Poly1305 | Aes256Gcm => 12 | XChaCha20Poly1305 => 24 end.
Definition max_messages_per_key (a : AeadAlgorithm) : Z :=
  match a with Aes256Gcm => Z.shiftl 1 32 | _ => u64_max end.
Definition as_tag (a : AeadAlgorithm) : byte :=
  match a with ChaCha20Poly1305 => x01 | Aes256Gcm => x02 | XChaCha20Poly1305 => x03 end.

Inductive DataPlaneDirection := HostToExtension | ExtensionToHost.
Definition as_byte (d : DataPlaneDirection) : byte :=
  match d with HostToExtension => x00 | ExtensionToHost => x01 end.

Record HostcallEnvelope := mkEnvelope {
  ev_session_id : string;
  ev_extension_id : string;
  ev_host_id : string;
  ev_sequence : Z;
  ev_payload : ChannelPayload;
  ev_mac : AuthenticityHash;
  ev_trace : string;
  sent_at_tick : Z }.

Inductive SessionChannelError :=
  | InvalidIdentity (field : string)
  | InvalidHandshake (detail : string)
  | SignatureFailure (e : SignatureError)
  | SessionAlreadyExists (session_id : string)
  | SessionNotFound (session_id : string)
  | SessionNotEstablished (session_id : string) (state : SessionState)
  | SessionExpired (session_id reason : string)
  | Backpressure (session_id : string) (pending limit : Z)
  | NoMessageAvailable (session_id : string)
  | SessionBindingMismatch (expected_session_id actual_session_id : string)
  | MacMismatch (session_id : string) (sequence : Z)
  | ReplayDetected (session_id : string) (sequence last_seen : Z)
  | OutOfOrderDetected (session_id : string) (sequence expected_min : Z)
  | NonceExhausted (sequence limit : Z) (algorithm : AeadAlgorithm).

Record SessionChannelEvent := mkSEvent {
  se_trace : string;
  se_decision_id : option string;
  se_policy_id : option string;
  se_component : string;
  se_event : string;
  se_outcome : string;
  se_error_code : option string;
  se_session_id : string;
  se_extension_id : string;
  se_host_id : string;
  se_sequence : option Z;
  se_expected_min : option Z;
  se_received_seq : option Z;
  se_drop_reason : option string;
  se_source_principal : option string;
  se_timestamp : Z }.

Inductive ReplayDropReason := Replay | Duplicate | OutOfOrder.
Definition drop_string (r : ReplayDropReason) : string :=
  match r with Replay => "replay" | Duplicate => "duplicate" | OutOfOrder => "out_of_order" end.
Definition drop_code (r : ReplayDropReason) : string :=
  match r with Replay => "FE-5003" | Duplicate => "FE-5004" | OutOfOrder => "FE-5005" end.

Record SessionRecord := mkSession {
  session_id : string;
  extension_id : string;
  host_id : string;
  s_state : SessionState;
  session_key : list byte;
  expires_at_tick : Z;
  max_messages : Z;
  sent_messages : Z;
  received_messages : Z;
  next_sequence : Z;
  last_received_sequence : Z;
  sequence_policy : SequencePolicy;
  replay_drop_threshold : Z;
  replay_drop_window_ticks : Z;
  replay_drop_count_in_window : Z;
  replay_drop_window_start_tick : Z;
  max_buffered_messages : Z;
  inbound : list HostcallEnvelope }.

Record SessionHostcallChannel := mkSChan {
  sessions : gmap string SessionRecord; sc_events : list SessionChannelEvent }.

(** ** Preimages, keys and MACs *)

Definition append_str (value : string) : list byte :=
  be_bytes 4 (zlen (str_bytes value)) ++ str_bytes value.

Definition append_payload (p : ChannelPayload) : list byte :=
  match p with
  | Inline bytes => x01 :: be_bytes 8 (zlen bytes) ++ bytes
  | Shared d => x02 :: be_bytes 8 (region_id d) ++ be_bytes 8 (payload_len d) ++ sp_payload_hash d
  | BackpressureP s => x03 :: be_bytes 8 (pending_messages s) ++ be_bytes 8 (bp_limit s)
  end.

Definition mac_preimage (e : HostcallEnvelope) : list byte :=
  append_str (ev_session_id e) ++ append_str (ev_extension_id e) ++ append_str (ev_host_id e) ++
  be_bytes 8 (ev_sequence e) ++ be_bytes 8 (sent_at_tick e) ++ append_str (ev_trace e) ++
  append_payload (ev_payload e).

Definition compute_envelope_mac (key : list byte) (e : HostcallEnvelope) : AuthenticityHash :=
  AuthenticityHash_compute_keyed key (mac_preimage e).

Definition handshake_request_preimage (h : SessionHandshake) (extension_key : VerificationKey) : list byte :=
  str_bytes "fe::hostcall::handshake::request" ++ append_str (hs_session_id h) ++
  append_str (hs_extension_id h) ++ append_str (hs_host_id h) ++ be_bytes 8 (hs_extension_nonce h) ++
  be_bytes 8 (hs_timestamp h) ++ extension_key.

Definition handshake_response_preimage (r : HandshakeRequest) (host_nonce : Z) (host_key : VerificationKey) :
    list byte :=
  str_bytes "fe::hostcall::handshake::response" ++ append_str (rq_session_id r) ++
  append_str (rq_extension_id r) ++ append_str (rq_host_id r) ++ be_bytes 8 (rq_extension_nonce r) ++
  be_bytes 8 host_nonce ++ host_key ++ Signature_to_bytes (rq_signature r).

Definition hkdf_extract (salt ikm : list byte) : list byte := AuthenticityHash_compute_keyed salt ikm.

(** The loop of [hkdf_expand] at [counter], which ends at 255 at the latest. *)
Fixpoint hkdf_loop (fuel : nat) (prk info : list byte) (out_len counter : Z) (previous okm : list byte) :
    list byte :=
  match fuel with
  | O => okm
  | S fuel =>
      if zlen okm <? out_len then
        let block := AuthenticityHash_compute_keyed prk (previous ++ info ++ be_bytes 1 counter) in
        let okm := okm ++ block in
        if counter =? u8_max then okm
        else hkdf_loop fuel prk info out_len (Z.min (counter + 1) u8_max) block okm
      else okm
  end.

Definition hkdf_expand (prk info : list byte) (out_len : Z) : list byte :=
  if out_len =? 0 then []
  else take (Z.to_nat out_len) (hkdf_loop 255 prk info out_len 1 [] []).

Definition hkdf_expand_32 (prk info : list byte) : list byte := hkdf_expand prk info 32.

Definition derive_session_key (request_preimage response_preimage : list byte) (request : HandshakeRequest)
    (response : HandshakeResponse) : list byte :=
  let transcript := request_preimage ++ Signature_to_bytes (rq_signature request) ++ response_preimage ++
                    Signature_to_bytes (rp_signature response) in
  let transcript_hash := ContentHash_compute transcript in
  let ikm := Signature_to_bytes (rq_signature request) ++ Signature_to_bytes (rp_signature response) ++
             rq_extension_key request ++ rp_host_key response ++ request_preimage ++ response_preimage in
  let context := append_str (rq_session_id request) ++ append_str (rq_extension_id request) ++
                 append_str (rq_host_id request) ++ be_bytes 8 (rq_timestamp request) ++
                 be_bytes 8 (rq_extension_nonce request) ++ be_bytes 8 (rp_host_nonce response) ++
                 transcript_hash in
  let prk := hkdf_extract (str_bytes "fe::hostcall::hkdf::salt" ++ context) ikm in
  hkdf_expand_32 prk (str_bytes "fe::hostcall::hkdf::session-mac-key" ++ context).

Definition enforce_nonce_budget (sequence : Z) (a : AeadAlgorithm) : result SessionChannelError unit :=
  let limit := max_messages_per_key a in
  if limit <=? sequence then Err (NonceExhausted sequence limit a) else Ok tt.

Definition derive_deterministic_aead_nonce (key : list byte) (d : DataPlaneDirection) (sequence : Z)
    (a : AeadAlgorithm) : result SessionChannelError (list byte) :=
  _ ← enforce_nonce_budget sequence a;
  Ok (hkdf_expand key
        (str_bytes "fe::hostcall::aead-nonce" ++ [as_byte d; as_tag a] ++ be_bytes 8 sequence) (nonce_len a)).

Definition build_aead_associated_data (session_id message_type : string) (flags : Z) : list byte :=
  str_bytes "fe::hostcall::aead-ad" ++ append_str session_id ++ append_str message_type ++ be_bytes 4 flags.

(** ** Sessions *)

Definition validate_identity_field (field value : string) : result SessionChannelError unit :=
  if zlen (str_bytes value) =? 0 then Err (InvalidIdentity field)
  else if 128 <? zlen (str_bytes value) then Err (InvalidIdentity field)
  else Ok tt.

Module Sess.
Definition set_state (s : SessionRecord) (st : SessionState) : SessionRecord :=
  mkSession (session_id s) (extension_id s) (host_id s) st (session_key s) (expires_at_tick s)
    (max_messages s) (sent_messages s) (received_messages s) (next_sequence s) (last_received_sequence s)
    (sequence_policy s) (replay_drop_threshold s) (replay_drop_window_ticks s)
    (replay_drop_count_in_window s) (replay_drop_window_start_tick s) (max_buffered_messages s) (inbound s).

Definition set_inbound (s : SessionRecord) (l : list HostcallEnvelope) : SessionRecord :=
  mkSession (session_id s) (extension_id s) (host_id s) (s_state s) (session_key s) (expires_at_tick s)
    (max_messages s) (sent_messages s) (received_messages s) (next_sequence s) (last_received_sequence s)
    (sequence_policy s) (replay_drop_threshold s) (replay_drop_window_ticks s)
    (replay_drop_count_in_window s) (replay_drop_window_start_tick s) (max_buffered_messages s) l.

Definition set_window (s : SessionRecord) (count start : Z) : SessionRecord :=
  mkSession (session_id s) (extension_id s) (host_id s) (s_state s) (session_key s) (expires_at_tick s)
    (max_messages s) (sent_messages s) (received_messages s) (next_sequence s) (last_received_sequence s)
    (sequence_policy s) (replay_drop_threshold s) (replay_drop_window_ticks s)
    count start (max_buffered_messages s) (inbound s).

Definition note_sent (s : SessionRecord) (e : HostcallEnvelope) : SessionRecord :=
  mkSession (session_id s) (extension_id s) (host_id s) (s_state s) (session_key s) (expires_at_tick s)
    (max_messages s) (sat_add64 (sent_messages s) 1) (received_messages s) (wrap_u64 (next_sequence s + 1))
    (last_received_sequence s) (sequence_policy s) (replay_drop_threshold s) (replay_drop_window_ticks s)
    (replay_drop_count_in_window s) (replay_drop_window_start_tick s) (max_buffered_messages s)
    (inbound s ++ [e]).

Definition note_received (s : SessionRecord) (sequence : Z) : SessionRecord :=
  mkSession (session_id s) (extension_id s) (host_id s) (s_state s) (session_key s) (expires_at_tick s)
    (max_messages s) (sent_messages s) (sat_add64 (received_messages s) 1) (next_sequence s) sequence
    (sequence_policy s) (replay_drop_threshold s) (replay_drop_window_ticks s)
    (replay_drop_count_in_window s) (replay_drop_window_start_tick s) (max_buffered_messages s) (inbound s).

Definition ensure_session_active (s : SessionRecord) (now : Z) :
    SessionRecord * result SessionChannelError unit :=
  if negb (bool_decide (s_state s = Established)) then
    (s, Err (SessionNotEstablished (session_id s) (s_state s)))
  else if expires_at_tick s <=? now then
    (set_state s SExpired, Err (SessionExpired (session_id s) "lifetime_exceeded"))
  else if max_messages s <=? sat_add64 (sent_messages s) (received_messages s) then
    (set_state s SExpired, Err (SessionExpired (session_id s) "message_budget_exceeded"))
  else (s, Ok tt).

Definition register_replay_drop (s : SessionRecord) (now : Z) : SessionRecord * bool :=
  if (replay_drop_threshold s =? 0) || (replay_drop_window_ticks s =? 0) then (s, false)
  else
    let elapsed := sat_sub64 now (replay_drop_window_start_tick s) in
    let s := if replay_drop_window_ticks s <=? elapsed then set_window s 0 now else s in
    let s := set_window s (sat_add64 (replay_drop_count_in_window s) 1) (replay_drop_window_start_tick s) in
    (s, replay_drop_threshold s <? replay_drop_count_in_window s).

(** The envelope of [payload] under the session's key. *)
Definition seal (s : SessionRecord) (payload : ChannelPayload) (trace : string) (now : Z) : HostcallEnvelope :=
  let e := mkEnvelope (session_id s) (extension_id s) (host_id s) (next_sequence s) payload
             (replicate 32 x00) trace now in
  mkEnvelope (session_id s) (extension_id s) (host_id s) (next_sequence s) payload
    (compute_envelope_mac (session_key s) e) trace now.

(** The part of [send] and [send_shared_buffer] on the session. *)
Definition push (s : SessionRecord) (payload : ChannelPayload) (trace : string) (now : Z) :
    SessionRecord * result SessionChannelError Z :=
  match ensure_session_active s now with
  | (s, Err e) => (s, Err e)
  | (s, Ok _) =>
      if max_buffered_messages s <=? zlen (inbound s) then
        (s, Err (Backpressure (session_id s) (zlen (inbound s)) (max_buffered_messages s)))
      else if next_sequence s =? u64_max then
        (set_state s SExpired, Err (SessionExpired (session_id s) "sequence_exhausted"))
      else (note_sent s (seal s payload trace now), Ok (next_sequence s))
  end.

(** Why an envelope with this sequence number is dropped, if it is. *)
Definition drop_reason (s : SessionRecord) (sequence : Z) : option ReplayDropReason :=
  if sequence =? last_received_sequence s then Some Duplicate
  else if sequence <? last_received_sequence s then Some Replay
  else if bool_decide (sequence_policy s = Strict) &&
          negb (sequence =? sat_add64 (last_received_sequence s) 1) then Some OutOfOrder
  else None.

(** What [receive] does with the session: a delivered envelope, an error, and
    the reason and whether the session expired for an envelope that is dropped. *)
Inductive pop_result :=
  | Popped (e : HostcallEnvelope)
  | Dropped (e : HostcallEnvelope) (reason : ReplayDropReason) (expected_min : Z) (escalated : bool)
            (err : SessionChannelError)
  | Refused (err : SessionChannelError).

Definition pop (s : SessionRecord) (now : Z) : SessionRecord * pop_result :=
  match ensure_session_active s now with
  | (s, Err e) => (s, Refused e)
  | (s, Ok _) =>
      match inbound s with
      | [] => (s, Refused (NoMessageAvailable (session_id s)))
      | e :: rest =>
          let s := set_inbound s rest in
          if negb (bool_decide (ev_session_id e = session_id s)) then
            (s, Refused (SessionBindingMismatch (session_id s) (ev_session_id e)))
          else if negb (bool_decide (ev_extension_id e = extension_id s)) ||
                  negb (bool_decide (ev_host_id e = host_id s)) then
            (s, Refused (SessionBindingMismatch (session_id s) (ev_session_id e)))
          else if negb (constant_time_eq (compute_envelope_mac (session_key s) e) (ev_mac e)) then
            (s, Refused (MacMismatch (session_id s) (ev_sequence e)))
          else
            let expected_min := sat_add64 (last_received_sequence s) 1 in
            match drop_reason s (ev_sequence e) with
            | Some reason =>
                let error :=
                  match reason with
                  | OutOfOrder => OutOfOrderDetected (session_id s) (ev_sequence e) expected_min
                  | _ => ReplayDetected (session_id s) (ev_sequence e) (last_received_sequence s)
                  end in
                match register_replay_drop s now with
                | (s, true) =>
                    (set_state s SExpired,
                     Dropped e reason expected_min true
                       (SessionExpired (session_id s) "replay_drop_threshold_exceeded"))
                | (s, false) => (s, Dropped e reason expected_min false error)
                end
            | None => (note_received s (ev_sequence e), Popped e)
            end
      end
  end.
End Sess.

(** ** The channel *)

Module SChan.
Definition new : SessionHostcallChannel := mkSChan ∅ [].

Definition put (ch : SessionHostcallChannel) (id : string) (s : SessionRecord) : SessionHostcallChannel :=
  mkSChan (<[id := s]> (sessions ch)) (sc_events ch).

Definition emit_event (ch : SessionHostcallChannel) (e : SessionChannelEvent) : SessionHostcallChannel :=
  mkSChan (sessions ch) (sc_events ch ++ [e]).

(** An event of a session with no drop to report. *)
Definition session_event (s : SessionRecord) (trace : string) (decision policy : option string)
    (event : string) (sequence : option Z) (now : Z) : SessionChannelEvent :=
  mkSEvent trace decision policy "session_hostcall_channel" event "ok" None (session_id s) (extension_id s)
    (host_id s) sequence None None None None now.

(** The events of a dropped envelope. *)
Definition drop_event (s : SessionRecord) (trace : string) (decision policy : option string)
    (event outcome code : string) (e : HostcallEnvelope) (reason : ReplayDropReason) (expected_min now : Z) :
    SessionChannelEvent :=
  mkSEvent trace decision policy "session_hostcall_channel" event outcome (Some code) (session_id s)
    (extension_id s) (host_id s) (Some (ev_sequence e)) (Some expected_min) (Some (ev_sequence e))
    (Some (drop_string reason)) (Some (ev_extension_id e)) now.

(** The checks of [create_session] before the handshake, in order. *)
Definition check_handshake (ch : SessionHostcallChannel) (h : SessionHandshake) (c : SessionConfig) :
    result SessionChannelError unit :=
  _ ← validate_identity_field "session_id" (hs_session_id h);
  _ ← validate_identity_field "extension_id" (hs_extension_id h);
  _ ← validate_identity_field "host_id" (hs_host_id h);
  if bool_decide (hs_extension_id h = hs_host_id h) then
    Err (InvalidHandshake "extension_id and host_id must differ")
  else if bool_decide (is_Some (sessions ch !! hs_session_id h)) then
    Err (SessionAlreadyExists (hs_session_id h))
  else if cfg_max_messages c =? 0 then Err (InvalidHandshake "max_messages must be > 0")
  else if max_lifetime_ticks c =? 0 then Err (InvalidHandshake "max_lifetime_ticks must be > 0")
  else if cfg_max_buffered c =? 0 then Err (InvalidHandshake "max_buffered_messages must be > 0")
  else if (0 <? cfg_drop_threshold c) && (cfg_drop_window c =? 0) then
    Err (InvalidHandshake "replay_drop_window_ticks must be > 0 when replay_drop_threshold > 0")
  else Ok tt.

(** The mutually signed handshake; its result is the session key. *)
Definition run_handshake (h : SessionHandshake) (extension_sk host_sk : SigningKey) :
    result SessionChannelError (list byte) :=
  let extension_key := verification_key extension_sk in
  let host_key := verification_key host_sk in
  let request_preimage := handshake_request_preimage h extension_key in
  request_sig ← map_err SignatureFailure (sign_preimage extension_sk request_preimage);
  _ ← map_err SignatureFailure (verify_signature extension_key request_preimage request_sig);
  let request := mkRequest (hs_session_id h) (hs_extension_id h) (hs_host_id h) (hs_extension_nonce h)
                   (hs_timestamp h) extension_key request_sig in
  let response_preimage := handshake_response_preimage request (hs_host_nonce h) host_key in
  response_sig ← map_err SignatureFailure (sign_preimage host_sk response_preimage);
  _ ← map_err SignatureFailure (verify_signature host_key response_preimage response_sig);
  let response := mkResponse (hs_session_id h) (hs_extension_nonce h) (hs_host_nonce h) host_key response_sig in
  Ok (derive_session_key request_preimage response_preimage request response).

Definition established (h : SessionHandshake) (c : SessionConfig) (key : list byte) : SessionRecord :=
  mkSession (hs_session_id h) (hs_extension_id h) (hs_host_id h) Established key
    (sat_add64 (hs_timestamp h) (max_lifetime_ticks c)) (cfg_max_messages c) 0 0 1 0 (cfg_sequence_policy c)
    (cfg_drop_threshold c) (cfg_drop_window c) 0 (hs_timestamp h) (cfg_max_buffered c) [].

Definition create_session (ch : SessionHostcallChannel) (h : SessionHandshake) (extension_sk host_sk : SigningKey)
    (c : SessionConfig) : SessionHostcallChannel * result SessionChannelError string :=
  match check_handshake ch h c ≫= fun _ => run_handshake h extension_sk host_sk with
  | Err e => (ch, Err e)
  | Ok key =>
      let s := established h c key in
      (emit_event (put ch (hs_session_id h) s)
         (session_event s (hs_trace h) None None "session_created" None (hs_timestamp h)),
       Ok (hs_session_id h))
  end.

Definition enqueue (ch : SessionHostcallChannel) (handle : string) (payload : ChannelPayload)
    (event trace : string) (now : Z) (decision policy : option string) :
    SessionHostcallChannel * result SessionChannelError Z :=
  match sessions ch !! handle with
  | None => (ch, Err (SessionNotFound handle))
  | Some s =>
      match Sess.push s payload trace now with
      | (s, Err e) => (put ch handle s, Err e)
      | (s, Ok sequence) =>
          (emit_event (put ch handle s) (session_event s trace decision policy event (Some sequence) now),
           Ok sequence)
      end
  end.

Definition send (ch : SessionHostcallChannel) (handle : string) (payload : list byte) (trace : string)
    (now : Z) (decision policy : option string) : SessionHostcallChannel * result SessionChannelError Z :=
  enqueue ch handle (Inline payload) "message_sent" trace now decision policy.

Definition send_shared_buffer (ch : SessionHostcallChannel) (handle : string) (region : Z)
    (payload : list byte) (trace : string) (now : Z) (decision policy : option string) :
    SessionHostcallChannel * result SessionChannelError Z :=
  enqueue ch handle (Shared (mkShared region (zlen payload) (ContentHash_compute payload)))
    "shared_payload_sent" trace now decision policy.

Definition receive (ch : SessionHostcallChannel) (handle : string) (trace : string) (now : Z)
    (decision policy : option string) : SessionHostcallChannel * result SessionChannelError ChannelPayload :=
  match sessions ch !! handle with
  | None => (ch, Err (SessionNotFound handle))
  | Some s =>
      match Sess.pop s now with
      | (s, Sess.Refused e) => (put ch handle s, Err e)
      | (s, Sess.Dropped e reason expected_min escalated err) =>
          let ch := emit_event (put ch handle s)
                      (drop_event s trace decision policy "message_dropped" "drop" (drop_code reason) e reason
                         expected_min now) in
          ((if escalated then
              emit_event ch (drop_event s trace decision policy "replay_drop_threshold_exceeded" "escalated"
                               "FE-5009" e reason expected_min now)
            else ch), Err err)
      | (s, Sess.Popped e) =>
          (emit_event (put ch handle s)
             (session_event s trace decision policy "message_received" (Some (ev_sequence e)) now),
           Ok (ev_payload e))
      end
  end.

Definition close_session (ch : SessionHostcallChannel) (handle : string) (trace : string) (now : Z)
    (decision policy : option string) : SessionHostcallChannel * result SessionChannelError unit :=
  match sessions ch !! handle with
  | None => (ch, Err (SessionNotFound handle))
  | Some s =>
      if bool_decide (s_state s = SClosed) then (ch, Err (SessionNotEstablished (session_id s) (s_state s)))
      else
        let s := Sess.set_state s SClosed in
        (emit_event (put ch handle s) (session_event s trace decision policy "session_closed" None now), Ok tt)
  end.

Definition authenticated_backpressure_signal (ch : SessionHostcallChannel) (handle : string)
    (pending limit : Z) (trace : string) (now : Z) : result SessionChannelError HostcallEnvelope :=
  match sessions ch !! handle with
  | None => Err (SessionNotFound handle)
  | Some s =>
      if negb (bool_decide (s_state s = Established)) then
        Err (SessionNotEstablished (session_id s) (s_state s))
      else Ok (Sess.seal s (BackpressureP (mkSignal pending limit)) trace now)
  end.

Definition verify_authenticated_signal (ch : SessionHostcallChannel) (handle : string)
    (e : HostcallEnvelope) : result SessionChannelError unit :=
  match sessions ch !! handle with
  | None => Err (SessionNotFound handle)
  | Some s =>
      if negb (bool_decide (ev_session_id e = session_id s)) then
        Err (SessionBindingMismatch (session_id s) (ev_session_id e))
      else if constant_time_eq (compute_envelope_mac (session_key s) e) (ev_mac e) then Ok tt
      else Err (MacMismatch (session_id s) (ev_sequence e))
  end.

Definition queue_len (ch : SessionHostcallChannel) (handle : string) : option Z :=
  (fun s => zlen (inbound s)) <$> sessions ch !! handle.
Definition session_state (ch : SessionHostcallChannel) (handle : string) : option SessionState :=
  s_state <$> sessions ch !! handle.

Definition drain_events (ch : SessionHostcallChannel) : SessionHostcallChannel * list SessionChannelEvent :=
  (mkSChan (sessions ch) [], sc_events ch).
End SChan.
