(* ===== verification/SessionCorrect.v ===== *)
(** * Session channels: proofs

    [session_delivery_fifo]: over the channel's own methods every session is a
    bounded FIFO queue.  [session_replay_protection]: whatever an adversary makes
    of the queues, what is delivered is authentic, bound to the session and
    strictly increasing in sequence.  [session_mac_binds]: equal MACs mean equal
    envelopes, up to a collision of the keyed hash. *)
From stdpp Require Import base numbers list strings gmap sorting.
From Stdlib Require Import Strings.Byte.
From S2P Require Import Prelude Bytes HashTiers SignaturePreimage MarkerCorrect SessionChannel.
Open Scope string_scope.
Open Scope list_scope.
Open Scope Z_scope.

#[local] Opaque AuthenticityHash_compute_keyed ContentHash_compute be_bytes constant_time_eq compute_envelope_mac.

(** ** What a delivery checks *)

Lemma active_cases s now :
  match Sess.ensure_session_active s now with
  | (s', Ok _) => s' = s /\ s_state s = Established /\ now < expires_at_tick s /\
      sat_add64 (sent_messages s) (received_messages s) < max_messages s
  | (s', Err _) => s' = s /\ s_state s <> Established \/ s' = Sess.set_state s SExpired /\ s_state s = Established
  end.
Proof.
  unfold Sess.ensure_session_active. case_bool_decide as Hs; cbn [negb]; [|by left].
  destruct (Z.leb_spec (expires_at_tick s) now); [by right|].
  destruct (Z.leb_spec (max_messages s) (sat_add64 (sent_messages s) (received_messages s))); [by right|]. done.
Qed.

Lemma drop_reason_None s q :
  Sess.drop_reason s q = None <->
  last_received_sequence s < q /\ (sequence_policy s = Strict -> q = sat_add64 (last_received_sequence s) 1).
Proof.
  unfold Sess.drop_reason. destruct (Z.eqb_spec q (last_received_sequence s)); [split; [done|lia]|].
  destruct (Z.ltb_spec q (last_received_sequence s)); [split; [done|lia]|].
  case_bool_decide as Hp; cbn [andb].
  - destruct (Z.eqb_spec q (sat_add64 (last_received_sequence s) 1)); cbn [negb]; split; try done; [|naive_solver].
    intros _. split; [lia|done].
  - split; [|done]. intros _. split; [lia|done].
Qed.

Lemma ct_eq_refl h : hash_wf h -> constant_time_eq h h = true.
Proof. intros H. by apply hash_constant_time_eq_correct. Qed.

(** The fields that [pop] and [push] leave alone. *)
Definition same_session (s s' : SessionRecord) : Prop :=
  session_id s' = session_id s /\ extension_id s' = extension_id s /\ host_id s' = host_id s /\
  session_key s' = session_key s /\ expires_at_tick s' = expires_at_tick s /\ max_messages s' = max_messages s /\
  sequence_policy s' = sequence_policy s /\ max_buffered_messages s' = max_buffered_messages s.

(** A delivered envelope is the first of the queue, of this session, with a MAC
    under its key and a sequence number that moves on. *)
Lemma pop_delivers s now s' e :
  Forall (fun e => hash_wf (ev_mac e)) (inbound s) ->
  Sess.pop s now = (s', Sess.Popped e) ->
  exists rest, inbound s = e :: rest /\ s' = Sess.note_received (Sess.set_inbound s rest) (ev_sequence e) /\
    s_state s = Established /\ now < expires_at_tick s /\
    sat_add64 (sent_messages s) (received_messages s) < max_messages s /\
    ev_session_id e = session_id s /\ ev_extension_id e = extension_id s /\ ev_host_id e = host_id s /\
    ev_mac e = compute_envelope_mac (session_key s) e /\
    last_received_sequence s < ev_sequence e /\
    (sequence_policy s = Strict -> ev_sequence e = sat_add64 (last_received_sequence s) 1).
Proof.
  intros Hw H. unfold Sess.pop in H. pose proof (active_cases s now) as Ha.
  destruct (Sess.ensure_session_active s now) as [s0 [[]|err]]; [|done]. destruct Ha as (-> & Hs & Hx & Hm).
  destruct (inbound s) as [|e0 rest] eqn:Hin; [done|]. apply Forall_cons in Hw as [Hw _].
  cbn [Sess.set_inbound session_id extension_id host_id session_key last_received_sequence] in H.
  case_bool_decide as H1; cbn [negb] in H; [|done].
  case_bool_decide as H2; cbn [negb orb] in H; [|done]. case_bool_decide as H3; cbn [negb] in H; [|done].
  destruct (constant_time_eq _ _) eqn:Hmac; cbn [negb] in H; [|done].
  destruct (Sess.drop_reason _ _) as [r|] eqn:Hd; [by destruct (Sess.register_replay_drop _ _) as [? []]|].
  injection H as <- <-. apply hash_constant_time_eq_correct in Hmac; [|apply AuthenticityHash_wf|done].
  apply drop_reason_None in Hd as [Hlt Hst]. cbn in Hlt, Hst. exists rest. by split_and!.
Qed.

Lemma replay_drop_same s now :
  same_session s (Sess.register_replay_drop s now).1 /\
  s_state (Sess.register_replay_drop s now).1 = s_state s /\
  last_received_sequence (Sess.register_replay_drop s now).1 = last_received_sequence s.
Proof. unfold Sess.register_replay_drop. destruct (_ || _); [done|]. cbv zeta. by destruct (_ <=? _). Qed.

(** Without a delivery the last sequence number stays, and the state stays or
    becomes expired. *)
Lemma pop_keeps s now s' r :
  Sess.pop s now = (s', r) ->
  same_session s s' /\ (s_state s <> Established -> s_state s' = s_state s) /\
  (s_state s' = s_state s \/ s_state s' = SExpired) /\
  match r with
  | Sess.Popped e => last_received_sequence s' = ev_sequence e
  | _ => last_received_sequence s' = last_received_sequence s
  end.
Proof.
  unfold Sess.pop. pose proof (active_cases s now) as Ha.
  destruct (Sess.ensure_session_active s now) as [s0 [[]|err]].
  2: { intros [= <- <-]. destruct Ha as [[-> Hs]|[-> Hs]]; split_and!; try done; [by left|by right]. }
  destruct Ha as (-> & Hs & _). destruct (inbound s) as [|e rest]; [intros [= <- <-]; split_and!; try done; by left|].
  set (s1 := Sess.set_inbound s rest). assert (H1 : same_session s s1 /\ s_state s1 = s_state s /\
    last_received_sequence s1 = last_received_sequence s) by done. clearbody s1. destruct H1 as (Hsame & Hst & Hlast).
  destruct (negb _); [intros [= <- <-]; split_and!; try done; by left|].
  destruct (_ || _); [intros [= <- <-]; split_and!; try done; by left|].
  destruct (negb _); [intros [= <- <-]; split_and!; try done; by left|].
  destruct (Sess.drop_reason _ _) as [reason|].
  - pose proof (replay_drop_same s1 now) as (Hrs & Hrst & Hrl). destruct (Sess.register_replay_drop s1 now) as [s2 []].
    + intros [= <- <-]. cbn [fst] in *. split.
      { unfold same_session in *. cbn. naive_solver congruence. }
      split; [by intros []|]. split; [by right|]. cbn. congruence.
    + intros [= <- <-]. cbn [fst] in *. split; [unfold same_session in *; naive_solver congruence|].
      split; [intros; congruence|]. split; [left; congruence|congruence].
  - intros [= <- <-]. split_and!; try done. by left.
Qed.

(** ** Runs *)

Inductive label :=
  | Sent (sid : string) (p : ChannelPayload)
  | Delivered (sid : string) (e : HostcallEnvelope).

Definition sent_label (sid : string) (p : ChannelPayload) (r : result SessionChannelError Z) : list label :=
  match r with Ok _ => [Sent sid p] | Err _ => [] end.

(** A successful [receive] delivers the first envelope of the queue. *)
Definition delivered_label (ch : SessionHostcallChannel) (sid : string)
    (r : result SessionChannelError ChannelPayload) : list label :=
  match r, sessions ch !! sid ≫= fun s => head (inbound s) with
  | Ok _, Some e => [Delivered sid e]
  | _, _ => []
  end.

Definition config_fits (c : SessionConfig) : Prop :=
  is_u64 (cfg_max_messages c) /\ is_u64 (cfg_max_buffered c).

(** One call, or, if [adv], an adversary who rewrites the queue of a session. *)
Inductive chan_step (adv : bool) (ch : SessionHostcallChannel) : list label -> SessionHostcallChannel -> Prop :=
  | st_create h xk hk c : config_fits c -> chan_step adv ch [] (SChan.create_session ch h xk hk c).1
  | st_send sid bytes trace now d p :
      chan_step adv ch (sent_label sid (Inline bytes) (SChan.send ch sid bytes trace now d p).2)
        (SChan.send ch sid bytes trace now d p).1
  | st_send_shared sid region bytes trace now d p :
      chan_step adv ch
        (sent_label sid (Shared (mkShared region (zlen bytes) (ContentHash_compute bytes)))
           (SChan.send_shared_buffer ch sid region bytes trace now d p).2)
        (SChan.send_shared_buffer ch sid region bytes trace now d p).1
  | st_receive sid trace now d p :
      chan_step adv ch (delivered_label ch sid (SChan.receive ch sid trace now d p).2)
        (SChan.receive ch sid trace now d p).1
  | st_close sid trace now d p : chan_step adv ch [] (SChan.close_session ch sid trace now d p).1
  | st_drain : chan_step adv ch [] (SChan.drain_events ch).1
  | st_tamper sid s queue :
      adv = true -> sessions ch !! sid = Some s -> Forall (fun e => hash_wf (ev_mac e)) queue ->
      chan_step adv ch [] (SChan.put ch sid (Sess.set_inbound s queue)).

Inductive chan_run (adv : bool) : list label -> SessionHostcallChannel -> Prop :=
  | cr_new : chan_run adv [] SChan.new
  | cr_step tr ch l ch' : chan_run adv tr ch -> chan_step adv ch l ch' -> chan_run adv (tr ++ l) ch'.

Definition sent_in (sid : string) (tr : list label) : list ChannelPayload :=
  omap (fun l => match l with Sent i p => if decide (i = sid) then Some p else None | _ => None end) tr.
Definition delivered_in (sid : string) (tr : list label) : list HostcallEnvelope :=
  omap (fun l => match l with Delivered i e => if decide (i = sid) then Some e else None | _ => None end) tr.

(** The four ways in which a step changes one session: it appears, it takes a
    payload, its queue is popped, it is closed; or the adversary strikes. *)
Inductive session_change (adv : bool) (sid : string) : option SessionRecord -> list label -> SessionRecord -> Prop :=
  | sc_created h c key : hs_session_id h = sid -> config_fits c -> session_change adv sid None [] (SChan.established h c key)
  | sc_pushed s p trace now s' r : Sess.push s p trace now = (s', r) -> session_change adv sid (Some s) (sent_label sid p r) s'
  | sc_popped s now s' e : Sess.pop s now = (s', Sess.Popped e) -> session_change adv sid (Some s) [Delivered sid e] s'
  | sc_refused s now s' r : Sess.pop s now = (s', r) -> (forall e, r <> Sess.Popped e) -> session_change adv sid (Some s) [] s'
  | sc_closed s : session_change adv sid (Some s) [] (Sess.set_state s SClosed)
  | sc_tampered s queue : adv = true -> Forall (fun e => hash_wf (ev_mac e)) queue ->
      session_change adv sid (Some s) [] (Sess.set_inbound s queue).

Lemma enqueue_change adv ch (sid : string) p event trace now d q :
  sessions (SChan.enqueue ch sid p event trace now d q).1 = sessions ch /\
    sent_label sid p (SChan.enqueue ch sid p event trace now d q).2 = [] \/
  exists s s', sessions ch !! sid = Some s /\
    sessions (SChan.enqueue ch sid p event trace now d q).1 = <[sid := s']> (sessions ch) /\
    session_change adv sid (Some s) (sent_label sid p (SChan.enqueue ch sid p event trace now d q).2) s'.
Proof.
  unfold SChan.enqueue. destruct (sessions ch !! sid) as [s|] eqn:Hs; [right|by left].
  destruct (Sess.push s p trace now) as [s' [seq|e]] eqn:Hp; exists s, s'; split_and!; try done;
    by apply (sc_pushed adv sid s p trace now s' _ Hp).
Qed.

Lemma step_change adv ch l ch' :
  chan_step adv ch l ch' ->
  (sessions ch' = sessions ch /\ l = []) \/
  exists sid s', sessions ch' = <[sid := s']> (sessions ch) /\ session_change adv sid (sessions ch !! sid) l s'.
Proof.
  intros H. destruct H as [h xk hk c Hc|sid bytes trace now d p|sid region bytes trace now d p|sid trace now d p
    |sid trace now d p| |sid s queue Ha Hs Hw].
  - unfold SChan.create_session. destruct (_ ≫= _) as [key|e] eqn:H; [right|by left].
    exists (hs_session_id h), (SChan.established h c key). split; [done|].
    apply bind_Ok in H as ([] & H & _). replace (sessions ch !! hs_session_id h) with (@None SessionRecord); [by constructor|].
    symmetry. apply eq_None_not_Some. intros Hin. unfold SChan.check_handshake in H.
    do 3 (apply bind_Ok in H as ([] & _ & H)). case_bool_decide; [done|]. by rewrite bool_decide_eq_true_2 in H.
  - destruct (enqueue_change adv ch sid (Inline bytes) "message_sent" trace now d p) as [[? ?]|(s & s' & Hs & He & Hc)];
      [by left|right]. exists sid, s'. rewrite Hs. done.
  - destruct (enqueue_change adv ch sid (Shared (mkShared region (zlen bytes) (ContentHash_compute bytes)))
      "shared_payload_sent" trace now d p) as [[? ?]|(s & s' & Hs & He & Hc)]; [by left|right].
    exists sid, s'. rewrite Hs. done.
  - unfold SChan.receive, delivered_label. destruct (sessions ch !! sid) as [s|] eqn:Hs; [right|by left].
    destruct (Sess.pop s now) as [s' r] eqn:Hp. exists sid, s'. rewrite Hs. cbn [mbind option_bind].
    destruct r as [e|e reason m esc err|err]; cbn [fst snd].
    + split; [done|]. assert (Hh : head (inbound s) = Some e); [|rewrite Hh; by eapply sc_popped].
      unfold Sess.pop in Hp. pose proof (active_cases s now) as Hact.
      destruct (Sess.ensure_session_active s now) as [s0 [[]|err]]; [destruct Hact as (-> & _)|done].
      destruct (inbound s) as [|e0 rest]; [done|]. cbn [head]. f_equal.
      do 3 (match type of Hp with (if ?b then _ else _) = _ => destruct b; [done|] end).
      destruct (Sess.drop_reason _ _); [by destruct (Sess.register_replay_drop _ _) as [? []]|]. by injection Hp as _ ->.
    + split; [by destruct esc|]. by eapply sc_refused.
    + split; [done|]. by eapply sc_refused.
  - unfold SChan.close_session. destruct (sessions ch !! sid) as [s|] eqn:Hs; [|by left].
    case_bool_decide; [by left|right]. exists sid, (Sess.set_state s SClosed). rewrite Hs. split; [done|constructor].
  - by left.
  - right. exists sid, (Sess.set_inbound s queue). rewrite Hs. split; [done|]. by constructor.
Qed.

(** ** Invariants of sessions, run by run *)

Lemma label_other adv sid o l s' other :
  session_change adv sid o l s' -> other <> sid -> sent_in other l = [] /\ delivered_in other l = [].
Proof.
  intros H Hne. destruct H as [| s p trace now s' [q|e]| | | |]; unfold sent_in, delivered_in; cbn; try done.
  - by rewrite decide_False.
  - by rewrite decide_False.
Qed.

Section session_invariant.
Context (adv : bool).
Context (Inv : string -> SessionRecord -> list ChannelPayload -> list HostcallEnvelope -> Prop).
Context (Inv_new : forall sid l s', session_change adv sid None l s' -> Inv sid s' (sent_in sid l) (delivered_in sid l)).
Context (Inv_step : forall sid s l s' sent dlv,
  session_change adv sid (Some s) l s' -> Inv sid s sent dlv ->
  Inv sid s' (sent ++ sent_in sid l) (dlv ++ delivered_in sid l)).

Lemma run_session_inv tr ch :
  chan_run adv tr ch -> forall sid,
  match sessions ch !! sid with
  | Some s => Inv sid s (sent_in sid tr) (delivered_in sid tr)
  | None => sent_in sid tr = [] /\ delivered_in sid tr = []
  end.
Proof.
  induction 1 as [|tr ch l ch' _ IH Hs]; intros other; [cbn [SChan.new sessions]; by rewrite lookup_empty|].
  assert (Happ : sent_in other (tr ++ l) = sent_in other tr ++ sent_in other l /\
                 delivered_in other (tr ++ l) = delivered_in other tr ++ delivered_in other l)
    by (split; apply omap_app). destruct Happ as [-> ->].
  apply step_change in Hs as [[-> ->]|(sid & s' & -> & Hc)].
  - unfold sent_in at 2 4, delivered_in at 2 4. cbn. rewrite !app_nil_r. apply IH.
  - destruct (decide (other = sid)) as [->|Hne].
    + rewrite lookup_insert_eq. specialize (IH sid). destruct (sessions ch !! sid) as [s|].
      * by apply (Inv_step sid s l s').
      * destruct IH as [-> ->]. by apply Inv_new.
    + rewrite lookup_insert_ne by done. destruct (label_other _ _ _ _ _ other Hc Hne) as [-> ->]. rewrite !app_nil_r. apply IH.
Qed.
End session_invariant.

(** ** Against an adversary *)

(** The envelope is of this session and carries its MAC. *)
Definition authentic (s : SessionRecord) (e : HostcallEnvelope) : Prop :=
  ev_session_id e = session_id s /\ ev_extension_id e = extension_id s /\ ev_host_id e = host_id s /\
  ev_mac e = compute_envelope_mac (session_key s) e.

Record guarded (sid : string) (s : SessionRecord) (sent : list ChannelPayload) (dlv : list HostcallEnvelope) : Prop := {
  gi_id : session_id s = sid;
  gi_macs : Forall (fun e => hash_wf (ev_mac e)) (inbound s);
  gi_authentic : Forall (authentic s) dlv;
  gi_order : StronglySorted (fun a b => ev_sequence a < ev_sequence b) dlv;
  gi_last : Forall (fun e => 0 < ev_sequence e <= last_received_sequence s) dlv;
  gi_nonneg : 0 <= last_received_sequence s;
  gi_strict : sequence_policy s = Strict ->
    last_received_sequence s = zlen dlv /\ (ev_sequence <$> dlv) = seqZ 1 (zlen dlv) }.

Lemma guarded_keeps sid s s' sent sent' dlv :
  same_session s s' -> last_received_sequence s' = last_received_sequence s ->
  Forall (fun e => hash_wf (ev_mac e)) (inbound s') -> guarded sid s sent dlv -> guarded sid s' sent' dlv.
Proof.
  intros (E1 & E2 & E3 & E4 & _ & _ & E7 & _) El Hw [H1 H2 H3 H4 H5 H6 H7]. split; rewrite ?E1, ?El, ?E7; try done.
  eapply Forall_impl; [exact H3|]. unfold authentic. intros e (? & ? & ? & ?). by rewrite E1, E2, E3, E4.
Qed.

Lemma seal_mac_wf s p trace now : hash_wf (ev_mac (Sess.seal s p trace now)).
Proof. apply AuthenticityHash_wf. Qed.

Lemma push_cases s p trace now s' r :
  Sess.push s p trace now = (s', r) ->
  match r with
  | Ok q => s' = Sess.note_sent s (Sess.seal s p trace now) /\ q = next_sequence s /\ s_state s = Established /\
      zlen (inbound s) < max_buffered_messages s /\ next_sequence s <> u64_max /\
      sat_add64 (sent_messages s) (received_messages s) < max_messages s
  | Err _ => s' = s \/ s' = Sess.set_state s SExpired
  end.
Proof.
  unfold Sess.push. pose proof (active_cases s now) as Ha. destruct (Sess.ensure_session_active s now) as [s0 [[]|e]].
  2: { intros [= <- <-]. destruct Ha as [[-> _]|[-> _]]; [by left|by right]. }
  destruct Ha as (-> & Hs & _ & Hm). destruct (Z.leb_spec (max_buffered_messages s) (zlen (inbound s))); [intros [= <- <-]; by left|].
  destruct (Z.eqb_spec (next_sequence s) u64_max); intros [= <- <-]; [by right|]. by split_and!.
Qed.

Lemma pop_inbound s now s' r :
  Sess.pop s now = (s', r) -> inbound s' = inbound s \/ exists e, inbound s = e :: inbound s'.
Proof.
  unfold Sess.pop. pose proof (active_cases s now) as Ha. destruct (Sess.ensure_session_active s now) as [s0 [[]|err]].
  2: { intros [= <- _]. destruct Ha as [[-> _]|[-> _]]; by left. }
  destruct Ha as (-> & _). destruct (inbound s) as [|e rest] eqn:Hin; [intros [= <- _]; by left|].
  intros H. right. exists e. f_equal. revert H.
  do 3 (match goal with |- (if ?b then _ else _) = _ -> _ => destruct b; [by intros [= <- _]|] end).
  destruct (Sess.drop_reason _ _); [|by intros [= <- _]]. unfold Sess.register_replay_drop.
  destruct (_ || _); [by intros [= <- _]|]. cbv zeta. destruct (_ <=? _); destruct (_ <? _); by intros [= <- _].
Qed.

Lemma guarded_new adv sid l s' :
  session_change adv sid None l s' -> guarded sid s' (sent_in sid l) (delivered_in sid l).
Proof. intros H. inversion H. subst. by split; try constructor. Qed.

Lemma guarded_step adv sid s l s' sent dlv :
  session_change adv sid (Some s) l s' -> guarded sid s sent dlv ->
  guarded sid s' (sent ++ sent_in sid l) (dlv ++ delivered_in sid l).
Proof.
  intros H Hg. remember (Some s) as o eqn:Ho.
  destruct H as [|s0 p trace now s' r H|s0 now s' e H|s0 now s' r H Hr|s0|s0 queue Ha Hw]; [done|injection Ho as ->..].
  - replace (delivered_in sid (sent_label sid p r)) with (@nil HostcallEnvelope) by (by destruct r). rewrite app_nil_r.
    apply push_cases in H. destruct r as [q|e].
    + destruct H as (-> & _). eapply (guarded_keeps sid s _ sent); [|done| |exact Hg]; [done|].
      apply Forall_app. split; [apply Hg|]. apply Forall_singleton, seal_mac_wf.
    + destruct H as [->| ->]; (eapply (guarded_keeps sid s _ sent); [|done| |exact Hg]; [done|apply Hg]).
  - apply pop_delivers in H as (rest & Hin & -> & _ & _ & _ & A1 & A2 & A3 & A4 & Hlt & Hst); [|apply Hg].
    unfold delivered_in. cbn. rewrite decide_True by done. destruct Hg as [H1 H2 H3 H4 H5 H6 H7].
    rewrite Hin in H2. apply Forall_cons in H2 as [_ H2]. split; cbn; try done; try lia.
    + apply Forall_app. split; [exact H3|]. by apply Forall_singleton.
    + apply StronglySorted_app. split; [|split; [done|repeat constructor]].
      intros x y Hx ->%list_elem_of_singleton. rewrite Forall_forall in H5. specialize (H5 x Hx). lia.
    + apply Forall_app. split; [|apply Forall_singleton; lia]. eapply Forall_impl; [exact H5|]. intros x Hx. cbn in *. lia.
    + intros Hs. destruct (H7 Hs) as [Hl Hq]. specialize (Hst Hs). rewrite Hst.
      assert (Hnext : sat_add64 (last_received_sequence s) 1 = last_received_sequence s + 1).
      { revert Hlt. rewrite Hst. unfold sat_add64. lia. }
      unfold zlen in *. rewrite length_app. cbn [length]. rewrite Hnext, Hl. split; [lia|].
      rewrite fmap_app, Hq. cbn [fmap list_fmap]. rewrite Hst, Hnext, Hl.
      replace (Z.of_nat (length dlv + 1)) with (Z.of_nat (length dlv) + 1) by lia.
      rewrite seqZ_app by lia. f_equal. rewrite seqZ_cons by lia. rewrite seqZ_nil by lia. f_equal. lia.
  - cbn. rewrite !app_nil_r. pose proof (pop_keeps _ _ _ _ H) as (Hsame & _ & _ & Hlast).
    eapply (guarded_keeps sid s _ sent); [exact Hsame| | |exact Hg].
    + destruct r; [by destruct (Hr e)|done|done].
    + destruct (pop_inbound _ _ _ _ H) as [->|[e He]]; [apply Hg|]. pose proof (gi_macs _ _ _ _ Hg) as Hm. rewrite He in Hm.
      by apply Forall_cons in Hm as [_ Hm].
  - cbn. rewrite !app_nil_r. eapply (guarded_keeps sid s _ sent); [|done| |exact Hg]; [done|apply Hg].
  - cbn. rewrite !app_nil_r. eapply (guarded_keeps sid s _ sent); [|done| |exact Hg]; done.
Qed.

(** A session that is not established stays so. *)
Lemma change_ends adv sid s l s' :
  session_change adv sid (Some s) l s' -> s_state s <> Established -> s_state s' <> Established /\ l = [].
Proof.
  intros H Hs. remember (Some s) as o eqn:Ho.
  destruct H as [|s0 p trace now s' r H|s0 now s' e H|s0 now s' r H Hr|s0|s0 queue Ha Hw]; [done|injection Ho as ->..].
  - apply push_cases in H. destruct r as [q|e]; [by destruct H as (_ & _ & ? & _)|]. destruct H as [->| ->]; done.
  - unfold Sess.pop in H. pose proof (active_cases s now) as Ha.
    destruct (Sess.ensure_session_active s now) as [s0 [[]|err]]; [by destruct Ha as (_ & ? & _)|done].
  - apply pop_keeps in H as (_ & Hk & _). by rewrite Hk.
  - done.
  - done.
Qed.

Lemma step_ends adv ch l ch' sid s :
  chan_step adv ch l ch' -> sessions ch !! sid = Some s -> s_state s <> Established ->
  delivered_in sid l = [] /\ sent_in sid l = [] /\ exists s', sessions ch' !! sid = Some s' /\ s_state s' <> Established.
Proof.
  intros Hs Hl Hst. apply step_change in Hs as [[-> ->]|(other & s' & -> & Hc)]; [by eauto|].
  destruct (decide (sid = other)) as [->|Hne].
  - rewrite Hl in Hc. apply change_ends in Hc as [? ->]; [|done]. rewrite lookup_insert_eq. eauto.
  - rewrite lookup_insert_ne by done. destruct (label_other _ _ _ _ _ sid Hc Hne) as [-> ->]. eauto.
Qed.

(** C12. Against an adversary who rewrites the queues of sessions between calls. The
    envelopes delivered on a session have strictly increasing sequence numbers
    (consecutive from 1 under the strict policy), carry the session's identities and a MAC
    under its key; a message is delivered only on an established session before its expiry
    and with a sequence number above all delivered ones; and a session that has expired or
    been closed never sends, delivers or becomes established again. *)
Theorem session_replay_protection (tr : list label) (ch : SessionHostcallChannel) (sid : string) :
  chan_run true tr ch ->
  StronglySorted (fun a b => ev_sequence a < ev_sequence b) (delivered_in sid tr) /\
  (forall s, sessions ch !! sid = Some s ->
     Forall (authentic s) (delivered_in sid tr) /\
     (sequence_policy s = Strict ->
      (ev_sequence <$> delivered_in sid tr) = seqZ 1 (zlen (delivered_in sid tr))) /\
     (s_state s <> Established -> forall l ch', chan_step true ch l ch' ->
        delivered_in sid l = [] /\ sent_in sid l = [] /\
        exists s', sessions ch' !! sid = Some s' /\ s_state s' <> Established)) /\
  (forall trace now d p payload ch', SChan.receive ch sid trace now d p = (ch', Ok payload) ->
     exists s e, sessions ch !! sid = Some s /\ head (inbound s) = Some e /\ payload = ev_payload e /\
       s_state s = Established /\ now < expires_at_tick s /\ authentic s e /\
       Forall (fun e' => ev_sequence e' < ev_sequence e) (delivered_in sid tr)).
Proof.
  intros Hr. pose proof (run_session_inv true guarded (guarded_new true) (guarded_step true) tr ch Hr sid) as Hinv.
  split; [|split].
  - destruct (sessions ch !! sid) as [s|]; [apply Hinv|]. destruct Hinv as [_ ->]. constructor.
  - intros s Hs. rewrite Hs in Hinv. split; [apply Hinv|]. split; [intros Hp; by apply (gi_strict _ _ _ _ Hinv)|].
    intros Hst l ch' Hstep. by eapply step_ends.
  - intros trace now d p payload ch' H. unfold SChan.receive in H. destruct (sessions ch !! sid) as [s|]; [|done].
    destruct (Sess.pop s now) as [s' [e|e r m esc err|err]] eqn:Hp; [|done|done]. injection H as _ <-.
    apply pop_delivers in Hp as (rest & Hin & _ & Hst & Hx & _ & A1 & A2 & A3 & A4 & Hlt & _); [|apply Hinv].
    exists s, e. rewrite Hin. split_and!; try done. eapply Forall_impl; [exact (gi_last _ _ _ _ Hinv)|]. intros x Hx'. cbn in Hx'. lia.
Qed.

(** ** Without an adversary: a FIFO queue *)

Record fifo (sid : string) (s : SessionRecord) (sent : list ChannelPayload) (dlv : list HostcallEnvelope) : Prop := {
  fi_payloads : sent = (ev_payload <$> dlv) ++ (ev_payload <$> inbound s);
  fi_authentic : Forall (authentic s) (inbound s);
  fi_sequences : (ev_sequence <$> inbound s) = seqZ (last_received_sequence s + 1) (zlen (inbound s));
  fi_next : next_sequence s = last_received_sequence s + 1 + zlen (inbound s) /\ next_sequence s <= u64_max;
  fi_counts : sent_messages s = next_sequence s - 1 /\ received_messages s = last_received_sequence s /\
              0 <= last_received_sequence s;
  fi_delivered : zlen dlv = received_messages s;
  fi_budget : sent_messages s + received_messages s <= max_messages s <= u64_max;
  fi_buffer : zlen (inbound s) <= max_buffered_messages s;
  fi_state : s_state s <> SInit }.

Lemma fifo_keeps sid s s' sent dlv :
  same_session s s' -> inbound s' = inbound s -> last_received_sequence s' = last_received_sequence s ->
  next_sequence s' = next_sequence s -> sent_messages s' = sent_messages s ->
  received_messages s' = received_messages s -> s_state s' <> SInit -> fifo sid s sent dlv -> fifo sid s' sent dlv.
Proof.
  intros (E1 & E2 & E3 & E4 & _ & E6 & _ & E8) Ei El En Es Er Hst [H1 H2 H3 H4 H5 H6 H7 H8 H9].
  split; rewrite ?Ei, ?El, ?En, ?Es, ?Er, ?E6, ?E8; try done.
  eapply Forall_impl; [exact H2|]. unfold authentic. intros e (? & ? & ? & ?). by rewrite E1, E2, E3, E4.
Qed.

Lemma fifo_new sid l s' :
  session_change false sid None l s' -> fifo sid s' (sent_in sid l) (delivered_in sid l).
Proof.
  intros H. inversion H as [h c key Hid [[Hm1 Hm2] [Hb1 Hb2]]| | | | |]. subst.
  split; cbn; try done; try constructor; try done; try (unfold zlen; cbn; lia).
Qed.

(** The first envelope of a well-formed queue is always accepted. *)
Lemma fifo_pop sid s sent dlv now :
  fifo sid s sent dlv ->
  match Sess.ensure_session_active s now with
  | (s', Err e) => Sess.pop s now = (s', Sess.Refused e)
  | (_, Ok _) =>
      match inbound s with
      | [] => Sess.pop s now = (s, Sess.Refused (NoMessageAvailable (session_id s)))
      | e :: rest => Sess.pop s now = (Sess.note_received (Sess.set_inbound s rest) (ev_sequence e), Sess.Popped e) /\
                     ev_sequence e = last_received_sequence s + 1
      end
  end.
Proof.
  intros [H1 H2 H3 H4 H5 H6 H7 H8 H9]. unfold Sess.pop. pose proof (active_cases s now) as Ha.
  destruct (Sess.ensure_session_active s now) as [s0 [[]|err]]; [|done]. destruct Ha as (-> & _).
  destruct (inbound s) as [|e rest] eqn:Hin; [done|]. apply Forall_cons in H2 as [(A1 & A2 & A3 & A4) _].
  assert (Hq : ev_sequence e = last_received_sequence s + 1).
  { rewrite seqZ_cons in H3 by (unfold zlen; cbn [length]; lia). by injection H3. }
  split; [|done]. cbn [Sess.set_inbound session_id extension_id host_id session_key last_received_sequence].
  rewrite A1, A2, A3, !bool_decide_eq_true_2 by done. cbn [negb orb].
  rewrite <- A4, ct_eq_refl by (rewrite A4; apply AuthenticityHash_wf). cbn [negb].
  rewrite (proj2 (drop_reason_None _ _)); [done|]. cbn. split; [lia|]. intros _. rewrite Hq. unfold zlen in *. cbn [length] in *. mlia.
Qed.

Lemma fifo_step sid s l s' sent dlv :
  session_change false sid (Some s) l s' -> fifo sid s sent dlv ->
  fifo sid s' (sent ++ sent_in sid l) (dlv ++ delivered_in sid l).
Proof.
  intros H Hf. remember (Some s) as o eqn:Ho.
  destruct H as [|s0 p trace now s' r H|s0 now s' e H|s0 now s' r H Hr|s0|s0 queue Ha Hw]; [done|injection Ho as ->..|done].
  - replace (delivered_in sid (sent_label sid p r)) with (@nil HostcallEnvelope) by (by destruct r). rewrite app_nil_r.
    apply push_cases in H. destruct r as [q|e].
    + destruct H as (-> & _ & Hst & Hb & Hn & Hm). unfold sent_in. cbn. rewrite decide_True by done.
      destruct Hf as [H1 H2 H3 [H4 H4'] (H5 & H5' & H5'') H6 H7 H8 H9].
      assert (Hlen : zlen (inbound s ++ [Sess.seal s p trace now]) = zlen (inbound s) + 1)
        by (unfold zlen; rewrite length_app; cbn [length]; lia).
      assert (0 <= zlen (inbound s)) by (unfold zlen; lia).
      split; cbn [Sess.note_sent inbound last_received_sequence next_sequence sent_messages received_messages max_messages max_buffered_messages s_state];
        rewrite ?Hlen; rewrite ?wrap_u64_small by mlia; try (unfold sat_add64 in *; lia); try done.
      * rewrite H1, fmap_app. cbn. by rewrite <- app_assoc.
      * apply Forall_app. split; [exact H2|]. by apply Forall_singleton.
      * rewrite fmap_app, H3. cbn. rewrite seqZ_app by lia. f_equal. rewrite seqZ_cons, seqZ_nil by lia. f_equal. lia.
    + replace (sent_in sid (sent_label sid p (Err e))) with (@nil ChannelPayload) by done. rewrite app_nil_r.
      destruct H as [->| ->]; [done|]. by eapply (fifo_keeps sid s).
  - pose proof (fifo_pop _ _ _ _ now Hf) as Hpop. pose proof (active_cases s now) as Hact.
    destruct (Sess.ensure_session_active s now) as [s0 [[]|err]]; [|congruence].
    destruct (inbound s) as [|e0 rest] eqn:Hin; [congruence|]. destruct Hpop as [Hpop Hq]. rewrite H in Hpop.
    injection Hpop as -> <-. unfold delivered_in. cbn. rewrite decide_True, app_nil_r by done.
    destruct Hact as (_ & _ & _ & Hm). destruct Hf as [H1 H2 H3 [H4 H4'] (H5 & H5' & H5'') H6 H7 H8 H9]. rewrite Hin in *.
    assert (Hlen : zlen (e :: rest) = zlen rest + 1) by (unfold zlen; cbn [length]; lia). rewrite Hlen in *.
    assert (0 <= zlen rest) by (unfold zlen; lia). apply Forall_cons in H2 as [_ H2].
    split; cbn [Sess.note_received Sess.set_inbound inbound last_received_sequence next_sequence sent_messages received_messages max_messages max_buffered_messages s_state];
      try (unfold sat_add64 in *; lia); try done.
    + rewrite H1, fmap_app. cbn. by rewrite <- app_assoc.
    + cbn [fmap list_fmap] in H3. rewrite seqZ_cons in H3 by lia. injection H3 as _ H3. rewrite H3, Hq. f_equal; lia.
    + unfold zlen in *. rewrite length_app. cbn [length]. unfold sat_add64. mlia.
  - cbn. rewrite !app_nil_r. pose proof (fifo_pop _ _ _ _ now Hf) as Hpop. pose proof (active_cases s now) as Hact.
    destruct (Sess.ensure_session_active s now) as [s0 [[]|err]].
    + destruct (inbound s) as [|e0 rest] eqn:Hin; [|destruct Hpop as [Hpop _]; rewrite H in Hpop; injection Hpop as _ ->; by destruct (Hr e0)].
      rewrite H in Hpop. by injection Hpop as -> _.
    + rewrite H in Hpop. injection Hpop as -> _. destruct Hact as [[-> _]|[-> _]]; [done|]. by eapply (fifo_keeps sid s).
  - cbn. rewrite !app_nil_r. by eapply (fifo_keeps sid s).
Qed.

(** C29. Over the methods of the channel every session is a bounded FIFO queue with
    exactly-once delivery: what was sent on it is what was received followed by what is
    queued, the queue stays within its limit and sent and received messages within the
    message budget, and receive returns the first queued payload whenever the session is
    active, so that MAC, binding and replay errors cannot occur. *)
Theorem session_delivery_fifo (tr : list label) (ch : SessionHostcallChannel) (sid : string) (s : SessionRecord) :
  chan_run false tr ch -> sessions ch !! sid = Some s ->
  sent_in sid tr = (ev_payload <$> delivered_in sid tr) ++ (ev_payload <$> inbound s) /\
  zlen (inbound s) <= max_buffered_messages s /\
  zlen (sent_in sid tr) + zlen (delivered_in sid tr) <= max_messages s /\
  (forall trace now d p,
     (SChan.receive ch sid trace now d p).2 =
     match (Sess.ensure_session_active s now).2, inbound s with
     | Err e, _ => Err e
     | Ok _, [] => Err (NoMessageAvailable (session_id s))
     | Ok _, e :: _ => Ok (ev_payload e)
     end).
Proof.
  intros Hr Hs. pose proof (run_session_inv false fifo fifo_new fifo_step tr ch Hr sid) as Hf. rewrite Hs in Hf.
  pose proof Hf as [H1 _ _ [H4 _] (H5 & H5' & _) H6 H7 H8 _]. split; [exact H1|]. split; [exact H8|]. split.
  { rewrite H1. unfold zlen in *. rewrite length_app, !length_fmap. lia. }
  intros trace now d p. unfold SChan.receive. rewrite Hs. pose proof (fifo_pop _ _ _ _ now Hf) as Hp.
  destruct (Sess.ensure_session_active s now) as [s0 [[]|err]]; cbn [snd]; [|by rewrite Hp].
  destruct (inbound s) as [|e rest]; [by rewrite Hp|]. destruct Hp as [-> _]. done.
Qed.

(** ** What a MAC binds *)

#[export] Instance prefix_append_str : PrefixFree str_short append_str.
Proof. exact prefix_string. Qed.

#[local] Opaque append_str.

Definition payload_fits (p : ChannelPayload) : Prop :=
  match p with
  | Inline bytes => zlen bytes <= u64_max
  | Shared d => is_u64 (region_id d) /\ is_u64 (payload_len d) /\ hash_wf (sp_payload_hash d)
  | BackpressureP s => is_u64 (pending_messages s) /\ is_u64 (bp_limit s)
  end.

Lemma append_payload_inj p q : payload_fits p -> payload_fits q -> append_payload p = append_payload q -> p = q.
Proof.
  intros Hp Hq He. destruct p as [a|[r1 l1 h1]|[n1 m1]], q as [b|[r2 l2 h2]|[n2 m2]]; cbn in *; try discriminate He;
    apply cons_tail in He.
  - apply app_inj_1 in He as [_ He]; [by f_equal|by rewrite !length_be_bytes].
  - destruct Hp as (? & ? & ?), Hq as (? & ? & ?). apply (prefix_free (enc := be_bytes 8)) in He as [-> He]; [|done..].
    apply (prefix_free (enc := be_bytes 8)) in He as [-> ->]; done.
  - destruct Hp as [? ?], Hq as [? ?]. apply (prefix_free (enc := be_bytes 8)) in He as [-> He]; [|done..].
    rewrite <- (app_nil_r (be_bytes 8 m1)), <- (app_nil_r (be_bytes 8 m2)) in He.
    apply (prefix_free (enc := be_bytes 8)) in He as [-> _]; done.
Qed.

(** Everything but the MAC. *)
Definition envelope_content (e : HostcallEnvelope) :=
  (ev_session_id e, ev_extension_id e, ev_host_id e, ev_sequence e, ev_payload e, ev_trace e, sent_at_tick e).

Record envelope_fits (e : HostcallEnvelope) : Prop := {
  ef_ids : str_short (ev_session_id e) /\ str_short (ev_extension_id e) /\ str_short (ev_host_id e);
  ef_trace : str_short (ev_trace e);
  ef_numbers : is_u64 (ev_sequence e) /\ is_u64 (sent_at_tick e);
  ef_payload : payload_fits (ev_payload e) }.

Lemma mac_preimage_inj a b :
  envelope_fits a -> envelope_fits b -> mac_preimage a = mac_preimage b -> envelope_content a = envelope_content b.
Proof.
  intros [(? & ? & ?) ? [? ?] ?] [(? & ? & ?) ? [? ?] ?] He. unfold mac_preimage in He. unfold envelope_content.
  do 3 (apply (prefix_free (enc := append_str)) in He as [-> He]; [|done..]).
  do 2 (apply (prefix_free (enc := be_bytes 8)) in He as [-> He]; [|done..]).
  apply (prefix_free (enc := append_str)) in He as [-> He]; [|done..].
  apply append_payload_inj in He as ->; done.
Qed.

#[local] Transparent compute_envelope_mac.

(** The MAC of an envelope binds its fields: two envelopes with the same valid tag under one
    key carry the same contents, or their preimages are a collision of the keyed hash. *)
Theorem session_mac_binds (s : SessionRecord) (a b : HostcallEnvelope) :
  envelope_fits a -> envelope_fits b -> authentic s a -> authentic s b -> ev_mac a = ev_mac b ->
  envelope_content a = envelope_content b \/
  (mac_preimage a <> mac_preimage b /\
   AuthenticityHash_compute_keyed (session_key s) (mac_preimage a) =
   AuthenticityHash_compute_keyed (session_key s) (mac_preimage b)).
Proof.
  intros Fa Fb (_ & _ & _ & Ha) (_ & _ & _ & Hb) He. unfold compute_envelope_mac in *.
  destruct (decide (mac_preimage a = mac_preimage b)) as [Hp|Hne]; [left; by apply mac_preimage_inj|right].
  split; [done|congruence].
Qed.

(** ** Nonces and associated data *)

Lemma hkdf_first prk info n :
  1 <= n <= 32 ->
  hkdf_expand prk info n = take (Z.to_nat n) (AuthenticityHash_compute_keyed prk (info ++ be_bytes 1 1)).
Proof.
  intros Hn. unfold hkdf_expand. replace (n =? 0) with false by lia. f_equal.
  assert (H32 : zlen (AuthenticityHash_compute_keyed prk (info ++ be_bytes 1 1)) = 32)
    by (unfold zlen; by rewrite (AuthenticityHash_wf prk (info ++ be_bytes 1 1))).
  assert (H : forall fuel, hkdf_loop (S (S fuel)) prk info n 1 [] [] =
    AuthenticityHash_compute_keyed prk (info ++ be_bytes 1 1)); [|exact (H 253%nat)].
  intros fuel. cbn [hkdf_loop]. change (zlen []) with 0. replace (0 <? n) with true by lia. cbn [app].
  change (1 =? u8_max) with false. cbv iota. rewrite H32. by replace (32 <? n) with false by lia.
Qed.

(** A nonce has the length of its algorithm, and is refused exactly when the
    budget of the key is spent. *)
Theorem aead_nonce_exact (key : list byte) (d : DataPlaneDirection) (sequence : Z) (a : AeadAlgorithm) :
  match derive_deterministic_aead_nonce key d sequence a with
  | Ok nonce => sequence < max_messages_per_key a /\ zlen nonce = nonce_len a
  | Err e => max_messages_per_key a <= sequence /\ e = NonceExhausted sequence (max_messages_per_key a) a
  end.
Proof.
  unfold derive_deterministic_aead_nonce, enforce_nonce_budget.
  destruct (Z.leb_spec (max_messages_per_key a) sequence) as [|Hlt]; cbn [mbind result_bind]; [done|]. split; [lia|].
  rewrite hkdf_first by (destruct a; cbn; lia). unfold zlen. rewrite length_take.
  rewrite (AuthenticityHash_wf key). destruct a; cbn; lia.
Qed.

(** The associated data determines session, message type and flags. *)
Theorem associated_data_injective (s1 s2 m1 m2 : string) (f1 f2 : Z) :
  str_short s1 -> str_short s2 -> str_short m1 -> str_short m2 -> is_u32 f1 -> is_u32 f2 ->
  build_aead_associated_data s1 m1 f1 = build_aead_associated_data s2 m2 f2 -> (s1, m1, f1) = (s2, m2, f2).
Proof.
  intros Hs1 Hs2 Hm1 Hm2 Hf1 Hf2 He. unfold build_aead_associated_data in He. apply app_inv_head in He.
  apply (prefix_free (enc := append_str)) in He as [-> He]; [|done..].
  apply (prefix_free (enc := append_str)) in He as [-> He]; [|done..].
  apply (f_equal be_value) in He. rewrite !be_value_bytes, !Z.mod_small in He by mlia. by rewrite He.
Qed.

(** ** Examples *)

#[local] Transparent AuthenticityHash_compute_keyed ContentHash_compute be_bytes constant_time_eq append_str.

Definition demo_handshake : SessionHandshake := mkHandshake "s1" "ext" "host" 11 22 100 "t".
Definition demo_config : SessionConfig := mkSConfig 1000 10 4 Strict 2 50.
(** The states of the run are stored as values, and each call is evaluated once. *)
Definition ch1 : SessionHostcallChannel :=
  Eval vm_compute in
    (SChan.create_session SChan.new demo_handshake (replicate 32 x01) (replicate 32 x02) demo_config).1.
Definition send2 := Eval vm_compute in SChan.send ch1 "s1" [x68; x69] "t" 110 None None.
Definition send3 := Eval vm_compute in SChan.send send2.1 "s1" [x79] "t" 120 None None.
Definition recv4 := Eval vm_compute in SChan.receive send3.1 "s1" "t" 130 None None.

Lemma ch1_eq :
  (SChan.create_session SChan.new demo_handshake (replicate 32 x01) (replicate 32 x02) demo_config).1 = ch1.
Proof. vm_compute. reflexivity. Qed.
Lemma send2_eq : SChan.send ch1 "s1" [x68; x69] "t" 110 None None = send2.
Proof. vm_compute. reflexivity. Qed.
Lemma send3_eq : SChan.send send2.1 "s1" [x79] "t" 120 None None = send3.
Proof. vm_compute. reflexivity. Qed.
Lemma recv4_eq : SChan.receive send3.1 "s1" "t" 130 None None = recv4.
Proof. vm_compute. reflexivity. Qed.

Definition demo_trace : list label :=
  ((([] ++ []) ++ sent_label "s1" (Inline [x68; x69]) send2.2) ++ sent_label "s1" (Inline [x79]) send3.2) ++
  delivered_label send3.1 "s1" recv4.2.

Lemma demo_run adv : chan_run adv demo_trace recv4.1.
Proof.
  unfold demo_trace. eapply (cr_step adv _ send3.1);
    [eapply (cr_step adv _ send2.1); [eapply (cr_step adv _ ch1); [eapply (cr_step adv _ SChan.new); [apply cr_new|]|]|]|].
  - rewrite <- ch1_eq. apply (st_create adv SChan.new demo_handshake (replicate 32 x01) (replicate 32 x02) demo_config).
    unfold config_fits. vm_compute. repeat split; discriminate.
  - rewrite <- send2_eq. apply (st_send adv ch1 "s1" [x68; x69] "t" 110 None None).
  - rewrite <- send3_eq. apply (st_send adv send2.1 "s1" [x79] "t" 120 None None).
  - rewrite <- recv4_eq. apply (st_receive adv send3.1 "s1" "t" 130 None None).
Qed.

Lemma demo_sent : sent_in "s1" demo_trace = [Inline [x68; x69]; Inline [x79]].
Proof. vm_compute. reflexivity. Qed.

Definition demo_session : SessionRecord :=
  Eval vm_compute in default (SChan.established demo_handshake demo_config []) (sessions recv4.1 !! "s1").

Lemma demo_lookup : sessions recv4.1 !! "s1" = Some demo_session.
Proof. vm_compute. reflexivity. Qed.

Lemma session_delivery_fifo_witness :
  (ev_payload <$> delivered_in "s1" demo_trace) ++ (ev_payload <$> inbound demo_session) =
  [Inline [x68; x69]; Inline [x79]].
Proof.
  destruct (session_delivery_fifo demo_trace recv4.1 "s1" demo_session (demo_run false) demo_lookup) as (H & _).
  rewrite <- H. exact demo_sent.
Defined.

(** An adversary puts the delivered envelope back; it is dropped as a duplicate,
    and dropped again until the session expires. *)
Definition replayed : HostcallEnvelope :=
  Eval vm_compute in default (mkEnvelope "" "" "" 0 (Inline []) [] "" 0) (head (delivered_in "s1" demo_trace)).
Definition tampered : SessionHostcallChannel :=
  SChan.put recv4.1 "s1" (Sess.set_inbound demo_session [replayed; replayed; replayed]).

Lemma tampered_run : chan_run true (demo_trace ++ []) tampered.
Proof.
  eapply cr_step; [apply demo_run|]. apply st_tamper; [reflexivity|exact demo_lookup|].
  vm_compute. repeat constructor.
Qed.

Lemma session_replay_protection_witness :
  is_ok (SChan.receive tampered "s1" "t" 140 None None).2 = false.
Proof.
  destruct (SChan.receive tampered "s1" "t" 140 None None) as [ch' [payload|e]] eqn:H; [|reflexivity]. exfalso.
  destruct (session_replay_protection _ tampered "s1" tampered_run) as (_ & _ & Hrecv).
  destruct (Hrecv "t" 140 None None payload ch' H) as (s & e & Hs & He & _ & _ & _ & _ & Hall).
  assert (Hs' : sessions tampered !! "s1" = Some (Sess.set_inbound demo_session [replayed; replayed; replayed]))
    by apply lookup_insert_eq.
  rewrite Hs' in Hs. apply Some_inj in Hs. subst s. change (Some replayed = Some e) in He. apply Some_inj in He. subst e.
  rewrite Forall_forall in Hall.
  apply (Z.lt_irrefl (ev_sequence replayed)). apply Hall. vm_compute. left.
Defined.

Lemma replays_expire_session :
  let r1 := SChan.receive tampered "s1" "t" 140 None None in
  let r2 := SChan.receive r1.1 "s1" "t" 141 None None in
  let r3 := SChan.receive r2.1 "s1" "t" 142 None None in
  r1.2 = Err (ReplayDetected "s1" 1 1) /\ r2.2 = Err (ReplayDetected "s1" 1 1) /\
  r3.2 = Err (SessionExpired "s1" "replay_drop_threshold_exceeded") /\
  SChan.session_state r3.1 "s1" = Some SExpired.
Proof. vm_compute. done. Qed.

(** The same MAC on another payload is no MAC of the session. *)
Definition forged : HostcallEnvelope :=
  mkEnvelope (ev_session_id replayed) (ev_extension_id replayed) (ev_host_id replayed) (ev_sequence replayed)
    (Inline [x6e; x6f]) (ev_mac replayed) (ev_trace replayed) (sent_at_tick replayed).

Lemma demo_no_collision :
  AuthenticityHash_compute_keyed (session_key demo_session) (mac_preimage replayed) <>
  AuthenticityHash_compute_keyed (session_key demo_session) (mac_preimage forged).
Proof. apply (bool_decide_unpack _). vm_compute. exact I. Qed.

Lemma session_mac_binds_witness : authentic demo_session replayed /\ ~ authentic demo_session forged.
Proof.
  assert (Ha : authentic demo_session replayed) by (split_and!; vm_compute; reflexivity).
  split; [exact Ha|]. intros Hb.
  assert (Hf1 : envelope_fits replayed).
  { split; [split; [|split]| |split|]; vm_compute; try discriminate; split; discriminate. }
  assert (Hf2 : envelope_fits forged).
  { split; [split; [|split]| |split|]; vm_compute; try discriminate; split; discriminate. }
  destruct (session_mac_binds demo_session replayed forged Hf1 Hf2 Ha Hb eq_refl) as [H|[_ H]].
  - discriminate H.
  - exact (demo_no_collision H).
Defined.
