(* ===== verification/SagaOrchestrator.v ===== *)
(** * Saga orchestrator (crates/franken-engine/src/saga_orchestrator.rs)

    A saga is a list of steps with forward and compensating actions.  The
    orchestrator hands out the next step, records outcomes under idempotency
    keys and turns to compensation, in reverse order, when a forward step fails.
    Its maps are [gmap]s; [advance_epoch] visits them in key order.  The proofs
    are in SagaCorrect.v. *)
From stdpp Require Import base numbers list strings gmap sorting.
From S2P Require Import Prelude Bytes Text SecurityEpoch.
Open Scope string_scope.
Open Scope list_scope.
Open Scope Z_scope.

Inductive SagaType := Quarantine | Revocation | Eviction | Publish.

Definition SagaType_to_string (t : SagaType) : string :=
  match t with
  | Quarantine => "quarantine"
  | Revocation => "revocation"
  | Eviction => "eviction"
  | Publish => "publish"
  end.

Inductive SagaState :=
  | Pending
  | InProgress (step_index : Z)
  | Compensating (step_index : Z)
  | Completed
  | Failed (diagnostic : string).

Definition SagaState_to_string (s : SagaState) : string :=
  match s with
  | Pending => "pending"
  | InProgress i => "in_progress(step=" +:+ int_to_string i +:+ ")"
  | Compensating i => "compensating(step=" +:+ int_to_string i +:+ ")"
  | Completed => "completed"
  | Failed d => "failed(" +:+ d +:+ ")"
  end.

Inductive StepOutcome :=
  | Success (result : string)
  | Failure (diagnostic : string)
  | Cancelled (reason : string).

Definition StepOutcome_to_string (o : StepOutcome) : string :=
  match o with
  | Success r => "success(" +:+ r +:+ ")"
  | Failure d => "failure(" +:+ d +:+ ")"
  | Cancelled r => "cancelled(" +:+ r +:+ ")"
  end.

Record SagaStep := mkStep {
  step_name : string;
  forward_action : string;
  compensating_action : string;
  timeout_ticks : Z }.

Inductive ActionType := Forward | Compensate.

#[export] Instance ActionType_eq_dec : EqDecision ActionType.
Proof. solve_decision. Defined.

Record StepRecord := mkStepRecord {
  rec_index : Z;
  rec_name : string;
  action_type : ActionType;
  outcome : StepOutcome;
  completed_at : Z;
  idempotency_key_hex : string }.

Record Saga := mkSaga {
  saga_id : string;
  saga_type : SagaType;
  steps : list SagaStep;
  state : SagaState;
  epoch : SecurityEpoch;
  trace_id : string;
  step_records : list StepRecord;
  created_at : Z }.

Definition is_terminal (s : Saga) : bool :=
  match state s with Completed | Failed _ => true | _ => false end.

Definition is_success (o : StepOutcome) : bool :=
  match o with Success _ => true | _ => false end.

Definition last_completed_forward_step (s : Saga) : option Z :=
  let done := rec_index <$> filter (fun r => action_type r = Forward /\ is_success (outcome r)) (step_records s) in
  match done with
  | [] => None
  | i :: l => Some (fold_left Z.max l i)
  end.

Record SagaEvent := mkSagaEvent {
  se_saga_id : string;
  se_saga_type : string;
  se_step_name : string;
  se_step_index : Z;
  se_action : string;
  se_result : string;
  se_trace_id : string;
  se_epoch_id : Z;
  se_event : string }.

Inductive SagaError :=
  | SagaNotFound (saga_id : string)
  | SagaAlreadyTerminal (saga_id state : string)
  | StepIndexOutOfBounds (saga_id : string) (step_index step_count : Z)
  | EpochMismatch (saga_id : string) (saga_epoch current_epoch : SecurityEpoch)
  | EmptySteps
  | InvalidSagaId (reason : string)
  | CompensationFailed (saga_id : string) (step_index : Z) (diagnostic : string)
  | ConcurrencyLimitReached (active_count max_concurrent : Z)
  | SagaAlreadyExists (saga_id : string).

Record SagaOrchestrator := mkOrch {
  current_epoch : SecurityEpoch;
  sagas : gmap string Saga;
  max_concurrent : Z;
  events : list SagaEvent;
  event_counts : gmap string Z }.

(** The updates of single fields that the methods make. *)
Definition with_state (s : Saga) (st : SagaState) : Saga :=
  mkSaga (saga_id s) (saga_type s) (steps s) st (epoch s) (trace_id s) (step_records s) (created_at s).

Definition push_record (s : Saga) (r : StepRecord) : Saga :=
  mkSaga (saga_id s) (saga_type s) (steps s) (state s) (epoch s) (trace_id s)
    (step_records s ++ [r]) (created_at s).

Definition active (kv : string * Saga) : Prop := is_terminal kv.2 = false.
#[export] Instance active_dec kv : Decision (active kv).
Proof. unfold active. apply _. Defined.

Module Orch.
Definition new (e : SecurityEpoch) (max : Z) : SagaOrchestrator := mkOrch e ∅ max [] ∅.

Definition active_count (o : SagaOrchestrator) : Z := Z.of_nat (size (filter active (sagas o))).
Definition total_count (o : SagaOrchestrator) : Z := Z.of_nat (size (sagas o)).

Definition put (o : SagaOrchestrator) (id : string) (s : Saga) : SagaOrchestrator :=
  mkOrch (current_epoch o) (<[id := s]> (sagas o)) (max_concurrent o) (events o) (event_counts o).

Definition emit_event (o : SagaOrchestrator) (e : SagaEvent) : SagaOrchestrator :=
  mkOrch (current_epoch o) (sagas o) (max_concurrent o) (events o ++ [e]) (event_counts o).

Definition record_count (o : SagaOrchestrator) (ty : string) : SagaOrchestrator :=
  mkOrch (current_epoch o) (sagas o) (max_concurrent o) (events o)
    (bump_count ty (event_counts o)).

Definition create_saga (o : SagaOrchestrator) (id : string) (ty : SagaType) (l : list SagaStep)
    (trace : string) (ticks : Z) : SagaOrchestrator * result SagaError string :=
  if bool_decide (id = "") then (o, Err (InvalidSagaId "empty saga ID"))
  else if bool_decide (l = []) then (o, Err EmptySteps)
  else if bool_decide (is_Some (sagas o !! id)) then (o, Err (SagaAlreadyExists id))
  else if max_concurrent o <=? active_count o then
    (o, Err (ConcurrencyLimitReached (active_count o) (max_concurrent o)))
  else
    let o := put o id (mkSaga id ty l Pending (current_epoch o) trace [] ticks) in
    let o := emit_event o (mkSagaEvent id (SagaType_to_string ty) "" 0 "create" "pending" trace
                             (current_epoch o) "saga_created") in
    (record_count o "saga_created", Ok id).

(** Where [begin_step] stands, for the states that it accepts. *)
Definition forward_index (st : SagaState) : option Z :=
  match st with
  | Pending => Some 0
  | InProgress i => Some i
  | Compensating _ | Completed | Failed _ => None
  end.

Definition begin_step (o : SagaOrchestrator) (id : string) :
    SagaOrchestrator * result SagaError (Z * SagaStep) :=
  match sagas o !! id with
  | None => (o, Err (SagaNotFound id))
  | Some s =>
      if is_terminal s then (o, Err (SagaAlreadyTerminal id (SagaState_to_string (state s))))
      else if negb (epoch s =? current_epoch o) then
        (o, Err (EpochMismatch id (epoch s) (current_epoch o)))
      else
        match forward_index (state s) with
        | None => (o, Err (SagaAlreadyTerminal id (SagaState_to_string (state s))))
        | Some i =>
            match steps s !! Z.to_nat i with
            | None => (o, Err (StepIndexOutOfBounds id i (zlen (steps s))))
            | Some step =>
                let o := put o id (with_state s (InProgress i)) in
                let o := emit_event o (mkSagaEvent id (SagaType_to_string (saga_type s)) (step_name step) i
                                         "forward" "begin" (trace_id s) (current_epoch o) "step_begin") in
                (record_count o "step_begin", Ok (i, step))
            end
        end
  end.

(** The idempotency check of the two completions. *)
Definition recorded (s : Saga) (ty : ActionType) (i : Z) (key : string) : bool :=
  existsb (fun r => bool_decide (action_type r = ty) && (rec_index r =? i) &&
                    bool_decide (idempotency_key_hex r = key)) (step_records s).

Definition after_forward (s : Saga) (i : Z) (out : StepOutcome) : SagaState :=
  match out with
  | Success _ => if zlen (steps s) <=? i + 1 then Completed else InProgress (i + 1)
  | Failure _ | Cancelled _ =>
      if i =? 0 then Failed (StepOutcome_to_string out) else Compensating (i - 1)
  end.

Definition complete_step (o : SagaOrchestrator) (id : string) (i : Z) (out : StepOutcome)
    (key : string) (ticks : Z) : SagaOrchestrator * result SagaError SagaState :=
  match sagas o !! id with
  | None => (o, Err (SagaNotFound id))
  | Some s =>
      match steps s !! Z.to_nat i with
      | None => (o, Err (StepIndexOutOfBounds id i (zlen (steps s))))
      | Some step =>
          if recorded s Forward i key then (o, Ok (state s))
          else if match state s with InProgress current => negb (current =? i) | _ => true end then
            (o, Err (SagaAlreadyTerminal id (SagaState_to_string (state s))))
          else
            let s := push_record s (mkStepRecord i (step_name step) Forward out ticks key) in
            let new_state := after_forward s i out in
            let o := put o id (with_state s new_state) in
            let o := emit_event o (mkSagaEvent id (SagaType_to_string (saga_type s)) (step_name step) i
                                     "forward" (StepOutcome_to_string out) (trace_id s)
                                     (current_epoch o) "step_complete") in
            (record_count o "step_complete", Ok new_state)
      end
  end.

(** [None] is the panic of an index out of range. *)
Definition next_compensation_step (o : SagaOrchestrator) (id : string) :
    option (result SagaError (option (Z * SagaStep))) :=
  match sagas o !! id with
  | None => Some (Err (SagaNotFound id))
  | Some s =>
      match state s with
      | Compensating i => step ← steps s !! Z.to_nat i; Some (Ok (Some (i, step)))
      | _ => Some (Ok None)
      end
  end.

Definition after_compensation (i : Z) (out : StepOutcome) : SagaState :=
  match out with
  | Success _ => if i =? 0 then Failed "compensated" else Compensating (i - 1)
  | Failure d => Failed ("compensation_failed at step " +:+ int_to_string i +:+ ": " +:+ d)
  | Cancelled r => Failed ("compensation_cancelled at step " +:+ int_to_string i +:+ ": " +:+ r)
  end.

Definition complete_compensation (o : SagaOrchestrator) (id : string) (i : Z) (out : StepOutcome)
    (key : string) (ticks : Z) : SagaOrchestrator * result SagaError SagaState :=
  match sagas o !! id with
  | None => (o, Err (SagaNotFound id))
  | Some s =>
      match steps s !! Z.to_nat i with
      | None => (o, Err (StepIndexOutOfBounds id i (zlen (steps s))))
      | Some step =>
          if recorded s Compensate i key then (o, Ok (state s))
          else if match state s with Compensating current => negb (current =? i) | _ => true end then
            (o, Err (SagaAlreadyTerminal id (SagaState_to_string (state s))))
          else
            let s := push_record s (mkStepRecord i (step_name step) Compensate out ticks key) in
            let new_state := after_compensation i out in
            let o := put o id (with_state s new_state) in
            let o := emit_event o (mkSagaEvent id (SagaType_to_string (saga_type s)) (step_name step) i
                                     "compensate" (StepOutcome_to_string out) (trace_id s)
                                     (current_epoch o) "compensation_complete") in
            (record_count o "compensation_complete", Ok new_state)
      end
  end.

Definition get (o : SagaOrchestrator) (id : string) : option Saga := sagas o !! id.

(** [SecurityEpoch]'s [Display]. *)
Definition epoch_text (e : SecurityEpoch) : string := "epoch:" +:+ int_to_string e.

Definition stale (new_epoch : SecurityEpoch) (s : Saga) : bool :=
  negb (is_terminal s) && negb (epoch s =? new_epoch).

Definition invalidate (new_epoch : SecurityEpoch) (s : Saga) : Saga :=
  if stale new_epoch s then
    with_state s (Failed ("epoch_invalidated: saga epoch " +:+ epoch_text (epoch s) +:+
                          ", new epoch " +:+ epoch_text new_epoch))
  else s.

Definition advance_epoch (o : SagaOrchestrator) (new_epoch : SecurityEpoch) (trace : string) :
    SagaOrchestrator * list string :=
  let hit := filter (fun kv : string * Saga => stale new_epoch kv.2) (sorted_entries (sagas o)) in
  let o1 := mkOrch (current_epoch o) (invalidate new_epoch <$> sagas o) (max_concurrent o)
              (events o) (event_counts o) in
  let o2 := fold_left (fun o (kv : string * Saga) =>
              record_count
                (emit_event o (mkSagaEvent kv.1 (SagaType_to_string (saga_type kv.2)) "" 0
                                 "epoch_invalidation" "failed" trace new_epoch "saga_epoch_invalidated"))
                "saga_epoch_invalidated") hit o1 in
  (mkOrch (if current_epoch o <? new_epoch then new_epoch else current_epoch o) (sagas o2)
     (max_concurrent o2) (events o2) (event_counts o2), hit.*1).

Definition resumable_sagas (o : SagaOrchestrator) : list Saga :=
  filter (fun s => is_terminal s = false) (sorted_values (sagas o)).

Definition collectable (older_than : Z) (kv : string * Saga) : Prop :=
  is_terminal kv.2 = true /\ created_at kv.2 < older_than.
#[export] Instance collectable_dec t kv : Decision (collectable t kv).
Proof. unfold collectable. apply _. Defined.

Definition gc_terminal (o : SagaOrchestrator) (older_than : Z) : SagaOrchestrator * Z :=
  let to_remove := (filter (collectable older_than) (sorted_entries (sagas o))).*1 in
  (mkOrch (current_epoch o) (fold_left (fun m id => delete id m) to_remove (sagas o)) (max_concurrent o)
     (events o) (event_counts o), zlen to_remove).

Definition drain_events (o : SagaOrchestrator) : SagaOrchestrator * list SagaEvent :=
  (mkOrch (current_epoch o) (sagas o) (max_concurrent o) [] (event_counts o), events o).
End Orch.

(** ** The workflows *)

Definition quarantine_saga_steps (target : string) : list SagaStep :=
  [mkStep ("suspend_" +:+ target) "extension.suspend" "extension.resume" 1000;
   mkStep ("flush_evidence_" +:+ target) "evidence.flush" "evidence.rollback_flush" 2000;
   mkStep ("propagate_quarantine_" +:+ target) "quarantine.propagate" "quarantine.retract" 5000;
   mkStep ("confirm_quarantine_" +:+ target) "quarantine.confirm" "quarantine.unconfirm" 1000].

Definition revocation_saga_steps (target : string) : list SagaStep :=
  [mkStep ("emit_revocation_" +:+ target) "revocation.emit" "revocation.retract" 1000;
   mkStep ("propagate_revocation_" +:+ target) "revocation.propagate" "revocation.retract_propagation" 5000;
   mkStep ("confirm_convergence_" +:+ target) "revocation.confirm_convergence"
     "revocation.rollback_convergence" 3000;
   mkStep ("update_frontier_" +:+ target) "revocation.update_frontier" "revocation.rollback_frontier" 1000].

Definition eviction_saga_steps (target : string) : list SagaStep :=
  [mkStep ("mark_eviction_" +:+ target) "eviction.mark" "eviction.unmark" 500;
   mkStep ("drain_references_" +:+ target) "eviction.drain" "eviction.restore_references" 3000;
   mkStep ("delete_artifacts_" +:+ target) "eviction.delete" "eviction.restore_artifacts" 2000;
   mkStep ("confirm_cleanup_" +:+ target) "eviction.confirm" "eviction.rollback_confirm" 500].

Definition publish_saga_steps (artifact : string) : list SagaStep :=
  [mkStep ("validate_" +:+ artifact) "publish.validate" "publish.invalidate" 1000;
   mkStep ("stage_" +:+ artifact) "publish.stage" "publish.unstage" 2000;
   mkStep ("commit_" +:+ artifact) "publish.commit" "publish.rollback" 1000;
   mkStep ("notify_" +:+ artifact) "publish.notify" "publish.retract_notification" 3000].
