(* ===== verification/SagaCorrect.v ===== *)
(** * Properties of the saga orchestrator

    The records of a saga tell its history: forward steps succeed in order, at
    most one of them fails, and then the completed ones are compensated from the
    last to the first.  [saga_history] is this story as a relation between the
    state and the records; the theorems say that every method keeps it and that
    a client that executes what the orchestrator hands out ends each saga with
    the verdict its outcomes call for. *)
From stdpp Require Import base numbers list strings gmap sorting.
From S2P Require Import Prelude Bytes Text SecurityEpoch SagaOrchestrator.
Open Scope string_scope.
Open Scope list_scope.
Open Scope Z_scope.

(** ** Histories *)

(** A record without names, times and keys. *)
Definition mark (r : StepRecord) : ActionType * Z * bool :=
  (action_type r, rec_index r, is_success (outcome r)).

Definition forwards (k : Z) : list (ActionType * Z * bool) := (fun i => (Forward, i, true)) <$> seqZ 0 k.
(** Compensations of the steps [k - 1] down to [j]. *)
Definition undone (k j : Z) : list (ActionType * Z * bool) :=
  (fun i => (Compensate, i, true)) <$> reverse (seqZ j (k - j)).
(** The forward steps before [k] succeeded and [k] failed. *)
Definition failed_at (k : Z) : list (ActionType * Z * bool) := forwards k ++ [(Forward, k, false)].

Definition is_final (st : SagaState) : bool := match st with Completed | Failed _ => true | _ => false end.

Inductive saga_history (n : Z) : SagaState -> list (ActionType * Z * bool) -> Prop :=
  | history_pending : saga_history n Pending []
  | history_forward k : 0 <= k < n -> saga_history n (InProgress k) (forwards k)
  | history_completed : saga_history n Completed (forwards n)
  | history_failed_first out :
      is_success out = false -> saga_history n (Failed (StepOutcome_to_string out)) (failed_at 0)
  | history_compensating k j :
      0 <= j < k -> k < n -> saga_history n (Compensating j) (failed_at k ++ undone k (j + 1))
  | history_compensated k :
      0 < k < n -> saga_history n (Failed "compensated") (failed_at k ++ undone k 0)
  | history_stuck k j out :
      0 <= j < k -> k < n -> is_success out = false ->
      saga_history n (Orch.after_compensation j out)
        (failed_at k ++ undone k (j + 1) ++ [(Compensate, j, false)])
  | history_epoch st h e e' :
      is_final st = false -> saga_history n st h ->
      saga_history n (Failed ("epoch_invalidated: saga epoch " +:+ Orch.epoch_text e +:+
                              ", new epoch " +:+ Orch.epoch_text e')) h.

Definition history_of (s : Saga) : Prop := saga_history (zlen (steps s)) (state s) (mark <$> step_records s).

Lemma forwards_snoc k : 0 <= k -> forwards (k + 1) = forwards k ++ [(Forward, k, true)].
Proof.
  intros Hk. unfold forwards. rewrite seqZ_app, fmap_app by lia. cbn. by rewrite Z.add_0_l.
Qed.

Lemma undone_snoc k j : j < k -> undone k j = undone k (j + 1) ++ [(Compensate, j, true)].
Proof.
  intros Hk. unfold undone. rewrite (seqZ_cons j) by lia. rewrite reverse_cons, fmap_app. cbn.
  repeat f_equal; lia.
Qed.

Lemma elem_of_undone k j a i b : (a, i, b) ∈ undone k j -> a = Compensate /\ j <= i < k.
Proof.
  unfold undone. intros (x & [= -> -> ->] & Hx)%list_elem_of_fmap.
  apply elem_of_reverse, elem_of_seqZ in Hx. split; [done|lia].
Qed.

Lemma elem_of_forwards k a i b : (a, i, b) ∈ forwards k -> a = Forward /\ 0 <= i < k.
Proof.
  unfold forwards. intros (x & [= -> -> ->] & Hx)%list_elem_of_fmap.
  apply elem_of_seqZ in Hx. split; [done|lia].
Qed.

(** A step that is about to be recorded has no record yet, under any key. *)
Lemma recorded_spec s ty i key :
  Orch.recorded s ty i key = true -> exists b, (ty, i, b) ∈ mark <$> step_records s.
Proof.
  unfold Orch.recorded. rewrite existsb_exists. intros (r & Hr & Hb).
  exists (is_success (outcome r)). apply list_elem_of_fmap. exists r. split; [|by apply list_elem_of_In].
  unfold mark. apply andb_prop in Hb as [Hb _]. apply andb_prop in Hb as [Ha Hi].
  apply bool_decide_eq_true in Ha. apply Z.eqb_eq in Hi. by rewrite Ha, Hi.
Qed.

Lemma history_InProgress n k h : saga_history n (InProgress k) h -> 0 <= k < n /\ h = forwards k.
Proof. inversion 1 as [| | | | | |? ? [] |]; subst; done. Qed.

Lemma history_Compensating n j h :
  saga_history n (Compensating j) h -> exists k, 0 <= j < k /\ k < n /\ h = failed_at k ++ undone k (j + 1).
Proof. inversion 1 as [| | | |k | |? ? [] |]; subst; [by exists k|done..]. Qed.

Lemma history_Pending n h : saga_history n Pending h -> h = [].
Proof. inversion 1 as [| | | | | |? ? [] |]; subst; done. Qed.

Lemma forward_unrecorded s k key : history_of s -> state s = InProgress k -> Orch.recorded s Forward k key = false.
Proof.
  unfold history_of. intros Hh Hs. apply not_true_iff_false. intros [b Hb]%recorded_spec. rewrite Hs in Hh.
  apply history_InProgress in Hh as [Hk Hh]. rewrite Hh in Hb. apply elem_of_forwards in Hb. lia.
Qed.

Lemma compensation_unrecorded s j key :
  history_of s -> state s = Compensating j -> Orch.recorded s Compensate j key = false.
Proof.
  unfold history_of. intros Hh Hs. apply not_true_iff_false. intros [b Hb]%recorded_spec. rewrite Hs in Hh.
  apply history_Compensating in Hh as (k & Hj & Hk & Hh). rewrite Hh in Hb.
  unfold failed_at in Hb. rewrite !elem_of_app in Hb.
  destruct Hb as [[Hb|Hb]|Hb].
  - by apply elem_of_forwards in Hb as [? _].
  - by apply list_elem_of_singleton in Hb.
  - apply elem_of_undone in Hb. lia.
Qed.

(** ** One saga at a time

    The state of a saga after the methods, without the events around it. *)

Definition forward_record (s : Saga) (i : Z) (step : SagaStep) (out : StepOutcome) (key : string) (t : Z) : Saga :=
  let s := push_record s (mkStepRecord i (step_name step) Forward out t key) in
  with_state s (Orch.after_forward s i out).

Definition compensation_record (s : Saga) (i : Z) (step : SagaStep) (out : StepOutcome) (key : string) (t : Z) : Saga :=
  with_state (push_record s (mkStepRecord i (step_name step) Compensate out t key)) (Orch.after_compensation i out).

Lemma begin_history s i :
  steps s <> [] -> history_of s -> Orch.forward_index (state s) = Some i ->
  0 <= i < zlen (steps s) /\ history_of (with_state s (InProgress i)).
Proof.
  unfold history_of. intros Hn Hh Hi. cbn [with_state state steps step_records].
  assert (0 < zlen (steps s)) by (unfold zlen; destruct (steps s); [done|cbn; lia]).
  destruct (state s) as [|k| | |] eqn:Hs; try done; injection Hi as <-.
  - apply history_Pending in Hh as ->. split; [lia|]. change [] with (forwards 0). constructor. lia.
  - apply history_InProgress in Hh as Hh'. split; [lia|done].
Qed.

Lemma forward_history s i step out key t :
  history_of s -> state s = InProgress i -> history_of (forward_record s i step out key t).
Proof.
  unfold history_of, forward_record. intros Hh Hs. cbn [with_state push_record state steps step_records].
  rewrite fmap_app. cbn [fmap list_fmap]. rewrite Hs in Hh. apply history_InProgress in Hh as [Hi ->].
  unfold mark at 1. cbn [action_type rec_index outcome]. unfold Orch.after_forward. cbn [push_record steps].
  assert (Hf : is_success out = false ->
    saga_history (zlen (steps s)) (if i =? 0 then Failed (StepOutcome_to_string out) else Compensating (i - 1))
      (failed_at i)).
  { intros Ho. destruct (Z.eqb_spec i 0) as [->|Hne]; [by constructor|].
    replace (failed_at i) with (failed_at i ++ undone i (i - 1 + 1)); [constructor; lia|].
    unfold undone. rewrite (seqZ_nil _ (i - _)) by lia. apply app_nil_r. }
  destruct out as [r|d|r]; [|by apply Hf..]. cbn [is_success]. rewrite <- forwards_snoc by lia.
  destruct (Z.leb_spec (zlen (steps s)) (i + 1)); [|constructor; lia].
  replace (i + 1) with (zlen (steps s)) by lia. constructor.
Qed.

Lemma compensation_history s i step out key t :
  history_of s -> state s = Compensating i -> history_of (compensation_record s i step out key t).
Proof.
  unfold history_of, compensation_record. intros Hh Hs. cbn [with_state push_record state steps step_records].
  rewrite fmap_app. cbn [fmap list_fmap]. rewrite Hs in Hh. apply history_Compensating in Hh as (k & Hi & Hk & ->).
  unfold mark at 1. cbn [action_type rec_index outcome].
  destruct out as [r|d|r]; cbn [is_success]; rewrite <- app_assoc; [|by apply history_stuck..].
  rewrite <- undone_snoc by lia. cbn [Orch.after_compensation].
  destruct (Z.eqb_spec i 0) as [->|Hne]; [constructor; lia|].
  replace i with (i - 1 + 1) at 2 by lia. constructor; lia.
Qed.

Lemma invalidate_history e s : history_of s -> history_of (Orch.invalidate e s).
Proof.
  unfold history_of, Orch.invalidate. intros Hh. destruct (Orch.stale e s) eqn:Hs; [|done].
  cbn [with_state state steps step_records]. apply andb_prop in Hs as [Hs _].
  eapply history_epoch; [|exact Hh]. by destruct (state s) eqn:He; unfold is_terminal in Hs; rewrite He in Hs.
Qed.

(** ** The orchestrator *)

Inductive orch_step (o : SagaOrchestrator) : SagaOrchestrator -> Prop :=
  | step_create id ty l trace t : orch_step o (Orch.create_saga o id ty l trace t).1
  | step_begin id : orch_step o (Orch.begin_step o id).1
  | step_complete id i out key t : 0 <= i -> orch_step o (Orch.complete_step o id i out key t).1
  | step_compensate id i out key t : 0 <= i -> orch_step o (Orch.complete_compensation o id i out key t).1
  | step_epoch e trace : orch_step o (Orch.advance_epoch o e trace).1
  | step_gc t : orch_step o (Orch.gc_terminal o t).1
  | step_drain : orch_step o (Orch.drain_events o).1.

Record saga_ok (o : SagaOrchestrator) (id : string) (s : Saga) : Prop := {
  ok_id : saga_id s = id;
  ok_steps : steps s <> [];
  ok_history : history_of s;
  ok_epoch : is_terminal s = false -> epoch s = current_epoch o }.

Definition live (s : Saga) : bool := negb (is_terminal s).

Record orch_ok (o : SagaOrchestrator) : Prop := {
  ok_sagas : forall id s, sagas o !! id = Some s -> saga_ok o id s;
  ok_bound : map_sum (indicator live) (sagas o) <= max_concurrent o }.

Lemma active_count_sum o : Orch.active_count o = map_sum (indicator live) (sagas o).
Proof.
  unfold Orch.active_count. apply size_filter_sum. intros k s. unfold active, live. cbn. by destruct (is_terminal s).
Qed.

(** Replacing a saga by one that is not live unless it was. *)
Lemma put_ok o id s s' (f : SagaOrchestrator -> SagaOrchestrator) :
  orch_ok o -> sagas o !! id = Some s -> saga_ok o id s' -> (live s' = true -> live s = true) ->
  (forall o, sagas (f o) = sagas o /\ max_concurrent (f o) = max_concurrent o /\ current_epoch (f o) = current_epoch o) ->
  orch_ok (f (Orch.put o id s')).
Proof.
  intros [Hs Hb] Hl Hs' Hv Hf. destruct (Hf (Orch.put o id s')) as (Hfs & Hfm & Hfe). split.
  - intros id' x Hx. rewrite Hfs in Hx. cbn [Orch.put sagas] in Hx.
    assert (Hok : saga_ok o id' x).
    { destruct (decide (id = id')) as [<-|Hne]; [by rewrite lookup_insert_eq in Hx; injection Hx as <-|].
      rewrite lookup_insert_ne in Hx by done. by apply Hs. }
    destruct Hok. split; [done..|]. rewrite Hfe. done.
  - rewrite Hfs, Hfm. cbn [Orch.put sagas max_concurrent]. rewrite indicator_sum_put, Hl. cbn.
    unfold indicator at 2 3. destruct (live s'), (live s); [lia|by specialize (Hv eq_refl)|lia|lia].
Qed.

Lemma live_state s : live s = true <-> is_final (state s) = false.
Proof. unfold live, is_terminal. by destruct (state s). Qed.

Lemma create_ok o id ty l trace t : orch_ok o -> orch_ok (Orch.create_saga o id ty l trace t).1.
Proof.
  intros Hok. unfold Orch.create_saga. case_bool_decide; [done|]. case_bool_decide; [done|].
  case_bool_decide as Hn; [done|].
  destruct (Z.leb_spec (max_concurrent o) (Orch.active_count o)) as [|Hlt]; [done|].
  rewrite active_count_sum in Hlt. apply eq_None_not_Some in Hn. destruct Hok as [Hs Hb]. split.
  - intros id' x Hx. cbn in Hx. destruct (decide (id = id')) as [<-|Hne].
    + rewrite lookup_insert_eq in Hx. injection Hx as <-. split; try done. constructor.
    + rewrite lookup_insert_ne in Hx by done. by destruct (Hs id' x Hx).
  - cbn. rewrite map_sum_insert by done. unfold indicator at 1. cbn. lia.
Qed.

Lemma begin_ok o id : orch_ok o -> orch_ok (Orch.begin_step o id).1.
Proof.
  intros Hok. unfold Orch.begin_step. destruct (sagas o !! id) as [s|] eqn:Hl; [|done].
  destruct (is_terminal s) eqn:Ht; [done|]. destruct (epoch s =? current_epoch o) eqn:He; [|done]. cbn [negb].
  destruct (Orch.forward_index (state s)) as [i|] eqn:Hi; [|done].
  destruct (steps s !! Z.to_nat i) as [step|]; [|done]. destruct (ok_sagas _ Hok id s Hl) as [H1 H2 H3 H4].
  eapply (put_ok o id s _ (fun o => Orch.record_count (Orch.emit_event o _) _)); [done..| | |done].
  - split; [done..| |]; [by apply (begin_history s i)|]. intros _. by apply Z.eqb_eq.
  - intros _. unfold live. by rewrite Ht.
Qed.

Lemma complete_ok o id i out key t : orch_ok o -> 0 <= i -> orch_ok (Orch.complete_step o id i out key t).1.
Proof.
  intros Hok Hi. unfold Orch.complete_step. destruct (sagas o !! id) as [s|] eqn:Hl; [|done].
  destruct (steps s !! Z.to_nat i) as [step|] eqn:Hst; [|done]. destruct (Orch.recorded s Forward i key); [done|].
  destruct (state s) as [|k| | |] eqn:Hs; try done. destruct (Z.eqb_spec k i) as [->|]; [|done]. cbn [negb].
  destruct (ok_sagas _ Hok id s Hl) as [H1 H2 H3 H4].
  assert (Hlive : live s = true) by (apply live_state; by rewrite Hs).
  eapply (put_ok o id s (forward_record s i step out key t) (fun o => Orch.record_count (Orch.emit_event o _) _));
    [done..| | |done]; [|done].
  split; [done..| |]; [by apply forward_history|]. intros _. apply H4. unfold live in Hlive. by destruct is_terminal.
Qed.

Lemma compensate_ok o id i out key t :
  orch_ok o -> 0 <= i -> orch_ok (Orch.complete_compensation o id i out key t).1.
Proof.
  intros Hok Hi. unfold Orch.complete_compensation. destruct (sagas o !! id) as [s|] eqn:Hl; [|done].
  destruct (steps s !! Z.to_nat i) as [step|] eqn:Hst; [|done]. destruct (Orch.recorded s Compensate i key); [done|].
  destruct (state s) as [| |k| |] eqn:Hs; try done. destruct (Z.eqb_spec k i) as [->|]; [|done]. cbn [negb].
  destruct (ok_sagas _ Hok id s Hl) as [H1 H2 H3 H4].
  assert (Hlive : live s = true) by (apply live_state; by rewrite Hs).
  eapply (put_ok o id s (compensation_record s i step out key t) (fun o => Orch.record_count (Orch.emit_event o _) _));
    [done..| | |done]; [|done].
  split; [done..| |]; [by apply compensation_history|]. intros _. apply H4. unfold live in Hlive. by destruct is_terminal.
Qed.

(** The loop that reports invalidated sagas only writes events. *)
Lemma report_keeps (f : string * Saga -> SagaEvent) ty l o :
  let o' := fold_left (fun o kv => Orch.record_count (Orch.emit_event o (f kv)) ty) l o in
  sagas o' = sagas o /\ max_concurrent o' = max_concurrent o /\ current_epoch o' = current_epoch o.
Proof.
  revert o. induction l as [|kv l IH]; intros o; [done|]. cbn [fold_left].
  destruct (IH (Orch.record_count (Orch.emit_event o (f kv)) ty)) as (-> & -> & ->). done.
Qed.

Lemma invalidate_live e s : live (Orch.invalidate e s) = true -> live s = true /\ epoch s = e.
Proof.
  unfold Orch.invalidate, Orch.stale, live. destruct (is_terminal s) eqn:Ht; cbn [negb andb]; [by rewrite Ht|].
  destruct (Z.eqb_spec (epoch s) e) as [->|]; cbn; by rewrite ?Ht.
Qed.

Lemma epoch_ok o e trace : orch_ok o -> orch_ok (Orch.advance_epoch o e trace).1.
Proof.
  intros [Hs Hb]. unfold Orch.advance_epoch. cbn [fst].
  match goal with |- context [fold_left (fun o kv => Orch.record_count (Orch.emit_event o (@?f kv)) ?ty) ?l ?o0] =>
    destruct (report_keeps f ty l o0) as (-> & -> & _) end.
  split; cbn [sagas max_concurrent current_epoch].
  - intros id x Hx. rewrite lookup_fmap in Hx. apply fmap_Some in Hx as (s & Hl & ->).
    destruct (Hs id s Hl) as [H1 H2 H3 H4].
    assert (Hsame : saga_id (Orch.invalidate e s) = id /\ steps (Orch.invalidate e s) = steps s /\
                    epoch (Orch.invalidate e s) = epoch s) by (unfold Orch.invalidate; by case_match).
    destruct Hsame as (? & Hst & Hep). split; [done|by rewrite Hst|by apply invalidate_history|].
    intros Ht. destruct (invalidate_live e s) as [Hv He]; [unfold live; by rewrite Ht|].
    rewrite Hep, He. specialize (H4 ltac:(unfold live in Hv; by destruct is_terminal)). cbn [current_epoch].
    destruct (Z.ltb_spec (current_epoch o) e); [done|]. by rewrite <- He.
  - etrans; [|exact Hb]. apply indicator_sum_le. intros s Hv. by destruct (invalidate_live e s Hv).
Qed.

Lemma gc_ok o t : orch_ok o -> orch_ok (Orch.gc_terminal o t).1.
Proof.
  intros [Hs Hb]. unfold Orch.gc_terminal. set (l := (filter _ _).*1). cbn [fst].
  assert (Hsub : fold_left (fun m id => delete id m) l (sagas o) ⊆ sagas o).
  { apply map_subseteq_spec. intros id s Hl. rewrite fold_delete_lookup in Hl. by case_decide. }
  split; cbn.
  - intros id s Hl. eapply lookup_weaken in Hl; [|exact Hsub]. by destruct (Hs id s Hl).
  - etrans; [by apply indicator_sum_subseteq|done].
Qed.

Lemma orch_step_ok o o' : orch_ok o -> orch_step o o' -> orch_ok o'.
Proof.
  intros Hok [].
  - by apply create_ok. - by apply begin_ok. - by apply complete_ok. - by apply compensate_ok.
  - by apply epoch_ok. - by apply gc_ok. - destruct Hok as [Hs Hb]. split; [|done].
    intros id s Hl. by destruct (Hs id s Hl).
Qed.

Lemma reachable_ok e max o : 0 <= max -> rtc orch_step (Orch.new e max) o -> orch_ok o.
Proof.
  intros Hm Hr. eapply (rtc_preserves _ _ orch_step_ok); [done|]. split; [done|].
  cbn [Orch.new sagas max_concurrent]. by rewrite map_sum_empty.
Qed.

(** ** What the states mean *)

Lemma history_Completed n h : saga_history n Completed h -> h = forwards n.
Proof. inversion 1 as [| | | | | |? ? [] |]; subst; done. Qed.

Lemma history_compensated_inv n h :
  saga_history n (Failed "compensated") h -> exists k, 0 < k < n /\ h = failed_at k ++ undone k 0.
Proof.
  intros H. remember (Failed "compensated") as st eqn:Hst. destruct H as [| | |[]| |k|? ? []|]; try discriminate Hst; try done.
  by exists k.
Qed.

Lemma compensation_in_range o id s j :
  orch_ok o -> sagas o !! id = Some s -> state s = Compensating j ->
  0 <= j /\ exists step, steps s !! Z.to_nat j = Some step.
Proof.
  intros Hok Hl Hs. destruct (ok_sagas _ Hok id s Hl) as [_ _ Hh _]. unfold history_of in Hh. rewrite Hs in Hh.
  apply history_Compensating in Hh as (k & Hj & Hk & _). split; [lia|]. apply lookup_lt_is_Some. unfold zlen in Hk. lia.
Qed.

(** C24. In every reachable orchestrator the number of active sagas is within its limit,
    live sagas are of the current epoch, and the records of each saga tell the history its
    state calls for: a completed saga ran all its steps forward in order, a compensated
    one failed at some later step and then undid every completed step from the last to the
    first, each once. The next compensation step always exists and is the one the state
    names, so that the indexing never panics. *)
Theorem saga_compensates_in_reverse (e : SecurityEpoch) (max : Z) (o : SagaOrchestrator) :
  0 <= max -> rtc orch_step (Orch.new e max) o ->
  Orch.active_count o <= max_concurrent o /\
  (forall id, exists r, Orch.next_compensation_step o id = Some r) /\
  forall id s, sagas o !! id = Some s ->
    history_of s /\
    (is_terminal s = false -> epoch s = current_epoch o) /\
    (state s = Completed -> mark <$> step_records s = forwards (zlen (steps s))) /\
    (state s = Failed "compensated" ->
     exists k, 0 < k < zlen (steps s) /\ mark <$> step_records s = failed_at k ++ undone k 0) /\
    (forall j, state s = Compensating j -> exists step,
       steps s !! Z.to_nat j = Some step /\ Orch.next_compensation_step o id = Some (Ok (Some (j, step)))).
Proof.
  intros Hm Hr. pose proof (reachable_ok _ _ _ Hm Hr) as Hok. rewrite active_count_sum.
  split; [apply Hok|]. split.
  - intros id. unfold Orch.next_compensation_step. destruct (sagas o !! id) as [s|] eqn:Hl; [|eauto].
    destruct (state s) eqn:Hs; [eauto|eauto| |eauto|eauto].
    destruct (compensation_in_range o id s step_index) as (_ & step & ->); [done..|]. cbn. eauto.
  - intros id s Hl. destruct (ok_sagas _ Hok id s Hl) as [_ _ Hh He]. split; [done|]. split; [done|].
    unfold history_of in Hh. split; [intros Hs; rewrite Hs in Hh; by apply history_Completed|].
    split; [intros Hs; rewrite Hs in Hh; by apply history_compensated_inv|].
    intros j Hs. destruct (compensation_in_range o id s j) as (_ & step & Hst); [done..|]. exists step. split; [done|].
    unfold Orch.next_compensation_step. by rewrite Hl, Hs, Hst.
Qed.

(** ** Driving a saga to its end *)

Lemma begin_step_starts o id s i :
  orch_ok o -> sagas o !! id = Some s -> Orch.forward_index (state s) = Some i ->
  exists step, 0 <= i < zlen (steps s) /\ (Orch.begin_step o id).2 = Ok (i, step) /\
    sagas (Orch.begin_step o id).1 = <[id := with_state s (InProgress i)]> (sagas o).
Proof.
  intros Hok Hl Hi. destruct (ok_sagas _ Hok id s Hl) as [_ Hn Hh He].
  destruct (begin_history s i Hn Hh Hi) as [Hr _].
  assert (Ht : is_terminal s = false) by (unfold is_terminal; by destruct (state s)).
  destruct (lookup_lt_is_Some_2 (steps s) (Z.to_nat i)) as [step Hst]; [unfold zlen in Hr; lia|].
  exists step. split; [done|]. unfold Orch.begin_step. rewrite Hl, Ht, He, Z.eqb_refl, Hi, Hst by done. done.
Qed.

Lemma complete_step_records o id s i out key t :
  orch_ok o -> sagas o !! id = Some s -> state s = InProgress i ->
  exists step, (Orch.complete_step o id i out key t).2 = Ok (Orch.after_forward s i out) /\
    sagas (Orch.complete_step o id i out key t).1 = <[id := forward_record s i step out key t]> (sagas o).
Proof.
  intros Hok Hl Hs. destruct (ok_sagas _ Hok id s Hl) as [_ _ Hh _].
  pose proof (forward_unrecorded s i key Hh Hs) as Hu. unfold history_of in Hh. rewrite Hs in Hh.
  apply history_InProgress in Hh as [Hi _].
  destruct (lookup_lt_is_Some_2 (steps s) (Z.to_nat i)) as [step Hst]; [unfold zlen in Hi; lia|].
  exists step. unfold Orch.complete_step. by rewrite Hl, Hst, Hu, Hs, Z.eqb_refl.
Qed.

Lemma complete_compensation_records o id s j out key t :
  orch_ok o -> sagas o !! id = Some s -> state s = Compensating j ->
  exists step, 0 <= j /\ Orch.next_compensation_step o id = Some (Ok (Some (j, step))) /\
    (Orch.complete_compensation o id j out key t).2 = Ok (Orch.after_compensation j out) /\
    sagas (Orch.complete_compensation o id j out key t).1 = <[id := compensation_record s j step out key t]> (sagas o).
Proof.
  intros Hok Hl Hs. destruct (ok_sagas _ Hok id s Hl) as [_ _ Hh _].
  destruct (compensation_in_range o id s j Hok Hl Hs) as (Hj & step & Hst). exists step. split; [done|].
  unfold Orch.next_compensation_step, Orch.complete_compensation.
  rewrite Hl, Hs, Hst, (compensation_unrecorded s j key Hh Hs), Z.eqb_refl. split; [|split]; reflexivity.
Qed.

Section drive.
Context (f : ActionType -> Z -> StepOutcome) (key : ActionType -> Z -> string) (t : Z).

(** A client that executes the step the orchestrator hands out, with outcome
    [f], and reports it. *)
Definition round (o : SagaOrchestrator) (id : string) : SagaOrchestrator :=
  match state <$> Orch.get o id with
  | Some (Pending | InProgress _) =>
      match Orch.begin_step o id with
      | (o, Ok (i, _)) => (Orch.complete_step o id i (f Forward i) (key Forward i) t).1
      | (o, Err _) => o
      end
  | Some (Compensating _) =>
      match Orch.next_compensation_step o id with
      | Some (Ok (Some (i, _))) => (Orch.complete_compensation o id i (f Compensate i) (key Compensate i) t).1
      | _ => o
      end
  | _ => o
  end.

Definition drive (n : nat) (o : SagaOrchestrator) (id : string) : SagaOrchestrator :=
  Nat.iter n (fun o => round o id) o.

(** The verdict when the steps below [c] are still to be compensated, and when
    [r] steps from [i] on are still to be executed. *)
Fixpoint undo_verdict (c : nat) : SagaState :=
  match c with
  | O => Failed "compensated"
  | S c => let j := Z.of_nat c in
           if is_success (f Compensate j) then undo_verdict c else Orch.after_compensation j (f Compensate j)
  end.

Fixpoint verdict (r : nat) (i : Z) : SagaState :=
  match r with
  | O => Completed
  | S r => if is_success (f Forward i) then verdict r (i + 1)
           else if i =? 0 then Failed (StepOutcome_to_string (f Forward i)) else undo_verdict (Z.to_nat i)
  end.

Definition expected (s : Saga) : SagaState :=
  match state s with
  | Pending => verdict (length (steps s)) 0
  | InProgress k => verdict (length (steps s) - Z.to_nat k) k
  | Compensating j => undo_verdict (S (Z.to_nat j))
  | st => st
  end.

(** Rounds that a saga can still take. *)
Definition rounds_left (s : Saga) : nat :=
  match state s with
  | Pending => 2 * length (steps s)
  | InProgress k => 2 * length (steps s) - Z.to_nat k
  | Compensating j => S (Z.to_nat j)
  | Completed | Failed _ => 0
  end.

Lemma forward_expected s i step :
  0 <= i < zlen (steps s) ->
  let s' := forward_record s i step (f Forward i) (key Forward i) t in
  expected s' = verdict (length (steps s) - Z.to_nat i) i /\
  (rounds_left s' < 2 * length (steps s) - Z.to_nat i)%nat.
Proof.
  unfold zlen. intros Hi. cbv zeta. unfold expected, rounds_left, forward_record, Orch.after_forward, zlen.
  cbn [with_state push_record state steps].
  replace (length (steps s) - Z.to_nat i)%nat with (S (length (steps s) - Z.to_nat (i + 1))) by lia. cbn [verdict].
  destruct (f Forward i) as [r|d|r]; cbn [is_success].
  - destruct (Z.leb_spec (Z.of_nat (length (steps s))) (i + 1)); [|split; [done|lia]].
    replace (length (steps s) - Z.to_nat (i + 1))%nat with O by lia. split; [done|lia].
  - destruct (Z.eqb_spec i 0); [split; [done|lia]|]. replace (S (Z.to_nat (i - 1))) with (Z.to_nat i) by lia.
    split; [done|lia].
  - destruct (Z.eqb_spec i 0); [split; [done|lia]|]. replace (S (Z.to_nat (i - 1))) with (Z.to_nat i) by lia.
    split; [done|lia].
Qed.

Lemma compensation_expected s j step :
  0 <= j ->
  let s' := compensation_record s j step (f Compensate j) (key Compensate j) t in
  expected s' = undo_verdict (S (Z.to_nat j)) /\ (rounds_left s' < S (Z.to_nat j))%nat.
Proof.
  intros Hj. cbv zeta. unfold expected, rounds_left, compensation_record. cbn [with_state push_record state steps undo_verdict].
  cbv zeta. rewrite Z2Nat.id by lia. unfold Orch.after_compensation.
  destruct (f Compensate j) as [r|d|r] eqn:Hf; cbn [is_success]; [|split; [done|lia]..].
  destruct (Z.eqb_spec j 0) as [->|]; [split; [done|lia]|].
  replace (Z.to_nat j) with (S (Z.to_nat (j - 1))) by lia. split; [done|lia].
Qed.

Lemma round_forward o id s i :
  orch_ok o -> sagas o !! id = Some s -> Orch.forward_index (state s) = Some i ->
  exists step, 0 <= i < zlen (steps s) /\
    sagas (round o id) =
    <[id := forward_record (with_state s (InProgress i)) i step (f Forward i) (key Forward i) t]> (sagas o).
Proof.
  intros Hok Hl Hi. destruct (begin_step_starts o id s i Hok Hl Hi) as (step & Hr & Hb & Hsg).
  pose proof (begin_ok o id Hok) as Hok'.
  destruct (complete_step_records (Orch.begin_step o id).1 id (with_state s (InProgress i)) i (f Forward i) (key Forward i) t)
    as (step' & _ & Hc); [done| |done|]. { rewrite Hsg. apply lookup_insert_eq. }
  exists step'. split; [done|]. unfold round, Orch.get. rewrite Hl. cbn [fmap option_fmap option_map].
  destruct (Orch.begin_step o id) as [o' r]. cbn [fst snd] in *. subst r.
  assert (Hfin : sagas (Orch.complete_step o' id i (f Forward i) (key Forward i) t).1 =
    <[id := forward_record (with_state s (InProgress i)) i step' (f Forward i) (key Forward i) t]> (sagas o))
    by (by rewrite Hc, Hsg, insert_insert_eq).
  destruct (state s); try discriminate Hi; exact Hfin.
Qed.

Lemma round_ok o id : orch_ok o -> orch_ok (round o id).
Proof.
  intros Hok. unfold round. destruct (state <$> Orch.get o id) as [[| |j| |]|] eqn:Hg; try done.
  - pose proof (begin_ok o id Hok) as Hb. unfold Orch.get in Hg. apply fmap_Some in Hg as (s & Hl & Hs).
    destruct (begin_step_starts o id s 0) as (step & Hr & He & _); [done..|by rewrite <- Hs|].
    destruct (Orch.begin_step o id) as [o' r]. cbn in *. subst r. apply complete_ok; [done|lia].
  - pose proof (begin_ok o id Hok) as Hb. unfold Orch.get in Hg. apply fmap_Some in Hg as (s & Hl & Hs).
    destruct (begin_step_starts o id s step_index) as (step & Hr & He & _); [done..|by rewrite <- Hs|].
    destruct (Orch.begin_step o id) as [o' r]. cbn in *. subst r. apply complete_ok; [done|lia].
  - unfold Orch.get in Hg. apply fmap_Some in Hg as (s & Hl & Hs).
    destruct (complete_compensation_records o id s j (Success "") "" 0) as (step & Hj & -> & _); [done..|].
    by apply compensate_ok.
Qed.

(** A round of a live saga brings it closer to its verdict. *)
Lemma round_progress o id s :
  orch_ok o -> sagas o !! id = Some s -> is_terminal s = false ->
  exists s', sagas (round o id) = <[id := s']> (sagas o) /\
    expected s' = expected s /\ (rounds_left s' < rounds_left s)%nat.
Proof.
  intros Hok Hl Ht. destruct (state s) as [|k|j| |] eqn:Hs;
    [| | |by unfold is_terminal in Ht; rewrite Hs in Ht..].
  - destruct (round_forward o id s 0) as (step & Hi & Hr); [done..|by rewrite Hs|]. eexists. split; [exact Hr|].
    destruct (forward_expected (with_state s (InProgress 0)) 0 step Hi) as [-> Hlt].
    unfold expected at 1, rounds_left at 2. rewrite Hs. cbn [with_state steps] in *.
    rewrite !Nat.sub_0_r in *. done.
  - destruct (round_forward o id s k) as (step & Hi & Hr); [done..|by rewrite Hs|]. eexists. split; [exact Hr|].
    destruct (forward_expected (with_state s (InProgress k)) k step Hi) as [-> Hlt].
    unfold expected at 1, rounds_left at 2. rewrite Hs. done.
  - destruct (complete_compensation_records o id s j (f Compensate j) (key Compensate j) t)
      as (step & Hj & Hn & _ & Hr); [done..|]. eexists. split.
    { unfold round, Orch.get. rewrite Hl. cbn [fmap option_fmap option_map]. rewrite Hs, Hn. exact Hr. }
    destruct (compensation_expected s j step Hj) as [-> Hlt]. unfold expected at 1, rounds_left at 2. by rewrite Hs.
Qed.

Lemma round_terminal o id s : sagas o !! id = Some s -> is_terminal s = true -> round o id = o.
Proof.
  intros Hl Ht. unfold round, Orch.get. rewrite Hl. unfold is_terminal in Ht. cbn. by destruct (state s).
Qed.

Lemma drive_verdict n o id s :
  orch_ok o -> sagas o !! id = Some s -> (rounds_left s <= n)%nat ->
  exists s', sagas (drive n o id) = <[id := s']> (sagas o) /\ state s' = expected s /\ is_terminal s' = true.
Proof.
  revert o s. induction n as [|n IH]; intros o s Hok Hl Hn.
  - exists s. rewrite insert_id by done. cbn. unfold rounds_left, expected, is_terminal in *.
    destruct (ok_sagas _ Hok id s Hl) as [_ Hne Hh _]. destruct (state s) as [|k| | |] eqn:Hs; try (by split).
    + destruct (steps s); [done|cbn in Hn; lia].
    + unfold history_of in Hh. rewrite Hs in Hh. apply history_InProgress in Hh. unfold zlen in Hh. lia.
    + lia.
  - unfold drive. rewrite Nat.iter_succ_r. destruct (is_terminal s) eqn:Ht.
    + rewrite (round_terminal o id s) by done. apply IH; [done..|].
      unfold rounds_left, is_terminal in *. destruct (state s); try done; lia.
    + destruct (round_progress o id s Hok Hl Ht) as (s1 & Hs1 & He & Hlt).
      destruct (IH (round o id) s1) as (s' & Hs' & Hv & Ht'); [by apply round_ok| | |].
      * rewrite Hs1. apply lookup_insert_eq.
      * lia.
      * exists s'. unfold drive in Hs'. rewrite Hs', Hs1, insert_insert_eq, <- He. done.
Qed.
End drive.

Lemma rounds_left_bound s : history_of s -> (rounds_left s <= 2 * length (steps s))%nat.
Proof.
  unfold history_of, rounds_left, zlen. intros Hh. destruct (state s); try lia.
  apply history_Compensating in Hh as (k & ? & ? & _). lia.
Qed.

Section verdicts.
Context (f : ActionType -> Z -> StepOutcome).

Lemma verdict_completes r i :
  (forall j, i <= j < i + Z.of_nat r -> is_success (f Forward j) = true) -> verdict f r i = Completed.
Proof.
  revert i. induction r as [|r IH]; intros i H; [done|]. cbn [verdict]. rewrite H by lia. apply IH.
  intros j Hj. apply H. lia.
Qed.

Lemma undo_completes c :
  (forall j, 0 <= j < Z.of_nat c -> is_success (f Compensate j) = true) -> undo_verdict f c = Failed "compensated".
Proof.
  induction c as [|c IH]; intros H; [done|]. cbn [undo_verdict]. cbv zeta. rewrite H by lia. apply IH.
  intros j Hj. apply H. lia.
Qed.

Lemma verdict_undoes r i k :
  0 < k -> i <= k < i + Z.of_nat r -> (forall j, i <= j < k -> is_success (f Forward j) = true) ->
  is_success (f Forward k) = false -> verdict f r i = undo_verdict f (Z.to_nat k).
Proof.
  revert i. induction r as [|r IH]; intros i H0 Hk Hok Hf; [lia|]. cbn [verdict].
  destruct (decide (i = k)) as [->|Hne].
  - rewrite Hf. by replace (k =? 0) with false by lia.
  - rewrite Hok by lia. apply IH; [done|lia| |done]. intros j Hj. apply Hok. lia.
Qed.
End verdicts.

(** A client that executes what the orchestrator hands out brings every saga to its
    end, without touching any other: after at most twice as many rounds as there are steps
    the saga is in the terminal state that the outcomes of its steps call for. A pending
    saga whose steps all succeed completes, and one that fails at a step after the first
    and whose compensations succeed ends compensated. *)
Theorem saga_drives_to_verdict (f : ActionType -> Z -> StepOutcome) (key : ActionType -> Z -> string) (t : Z)
    (e : SecurityEpoch) (max : Z) (o : SagaOrchestrator) (id : string) (s : Saga) :
  0 <= max -> rtc orch_step (Orch.new e max) o -> sagas o !! id = Some s ->
  exists s', sagas (drive f key t (2 * length (steps s)) o id) = <[id := s']> (sagas o) /\
    is_terminal s' = true /\ state s' = expected f s /\ history_of s' /\
    (state s = Pending -> (forall i, 0 <= i < zlen (steps s) -> is_success (f Forward i) = true) ->
     state s' = Completed) /\
    (forall k, state s = Pending -> 0 < k < zlen (steps s) ->
     (forall i, 0 <= i < k -> is_success (f Forward i) = true /\ is_success (f Compensate i) = true) ->
     is_success (f Forward k) = false ->
     state s' = Failed "compensated").
Proof.
  intros Hm Hr Hl. pose proof (reachable_ok _ _ _ Hm Hr) as Hok. pose proof (ok_sagas _ Hok id s Hl) as [_ _ Hh _].
  destruct (drive_verdict f key t (2 * length (steps s)) o id s Hok Hl (rounds_left_bound s Hh)) as (s' & Hd & Hv & Ht).
  exists s'. split; [done|]. split; [done|]. split; [done|]. split.
  { assert (Hok' : forall n, orch_ok (drive f key t n o id)) by (induction n; [done|by apply round_ok]).
    destruct (ok_sagas _ (Hok' (2 * length (steps s))%nat) id s') as [_ _ Hh' _]; [|done].
    rewrite Hd. apply lookup_insert_eq. }
  rewrite Hv. unfold expected, zlen. split.
  - intros -> Ha. apply verdict_completes. intros j Hj. apply Ha. lia.
  - intros k -> Hk Ha Hf. rewrite (verdict_undoes f _ 0 k); [|lia|lia| |done].
    + apply undo_completes. intros j Hj. apply Ha. lia.
    + intros j Hj. apply Ha. lia.
Qed.

(** ** Examples *)

Definition orch0 : SagaOrchestrator := Orch.new 1 4.
Definition orch1 : SagaOrchestrator :=
  (Orch.create_saga orch0 "q1" Quarantine (quarantine_saga_steps "ext") "t" 10).1.
Definition third_fails (a : ActionType) (i : Z) : StepOutcome :=
  if bool_decide (a = Forward) && (i =? 2) then Failure "unreachable" else Success "ok".
Definition plain_key (a : ActionType) (i : Z) : string := "key".

(** Two steps succeed, the third fails, the second is compensated. *)
Definition execute (o : SagaOrchestrator) (i : Z) : SagaOrchestrator :=
  (Orch.complete_step (Orch.begin_step o "q1").1 "q1" i (third_fails Forward i) "key" 11).1.
Definition orch2 : SagaOrchestrator :=
  (Orch.complete_compensation (execute (execute (execute orch1 0) 1) 2) "q1" 1 (Success "ok") "key" 12).1.

Lemma execute_run o i : 0 <= i -> rtc orch_step o (execute o i).
Proof. intros Hi. eapply rtc_l; [apply (step_begin _ "q1")|]. apply rtc_once. by apply step_complete. Qed.

Lemma orch1_run : rtc orch_step orch0 orch1.
Proof. apply rtc_once, step_create. Qed.

Lemma orch2_run : rtc orch_step orch0 orch2.
Proof.
  eapply rtc_r; [|by apply step_compensate]. eapply rtc_trans; [|by apply execute_run].
  eapply rtc_trans; [|by apply execute_run]. eapply rtc_trans; [exact orch1_run|by apply execute_run].
Qed.

Lemma saga_compensates_in_reverse_witness :
  Orch.active_count orch2 <= max_concurrent orch2 /\
  (exists s, sagas orch2 !! "q1" = Some s /\ state s = Compensating 0) /\
  (Orch.next_compensation_step orch2 "q1" =
   Some (Ok (Some (0, mkStep "suspend_ext" "extension.suspend" "extension.resume" 1000)))).
Proof.
  destruct (saga_compensates_in_reverse 1 4 orch2 ltac:(lia) orch2_run) as (Hb & _ & Hs). split; [exact Hb|].
  destruct (sagas orch2 !! "q1") as [s|] eqn:Hl; [|by vm_compute in Hl].
  assert (Hst : state s = Compensating 0) by (vm_compute in Hl; by injection Hl as <-).
  split; [by exists s|]. destruct (Hs "q1" s Hl) as (_ & _ & _ & _ & Hn).
  destruct (Hn 0 Hst) as (step & Hstep & ->). vm_compute in Hl. injection Hl as <-. by injection Hstep as <-.
Defined.

Lemma saga_drives_to_verdict_witness :
  exists s s', sagas orch1 !! "q1" = Some s /\
    sagas (drive third_fails plain_key 11 (2 * length (steps s)) orch1 "q1") = <[ "q1" := s' ]> (sagas orch1) /\
    state s' = Failed "compensated".
Proof.
  destruct (sagas orch1 !! "q1") as [s|] eqn:Hl; [|by vm_compute in Hl]. exists s.
  destruct (saga_drives_to_verdict third_fails plain_key 11 1 4 orch1 "q1" s ltac:(lia) orch1_run Hl)
    as (s' & Hd & _ & _ & _ & _ & Hc).
  exists s'. split; [done|]. split; [exact Hd|clear Hd]. vm_compute in Hl. injection Hl as <-.
  apply (Hc 2); [reflexivity|by vm_compute| |reflexivity]. intros i Hi. unfold third_fails. cbn.
  replace (i =? 2) with false by lia. done.
Defined.

(** An epoch that is behind the current one does not move the orchestrator back,
    but it fails the sagas of the current epoch. *)
Theorem stale_epoch_fails_sagas :
  let o := (Orch.advance_epoch orch1 0 "t").1 in
  current_epoch o = 1 /\ (Orch.advance_epoch orch1 0 "t").2 = ["q1"] /\
  state <$> Orch.get o "q1" = Some (Failed "epoch_invalidated: saga epoch epoch:1, new epoch epoch:0").
Proof. vm_compute. done. Qed.

(** An epoch change abandons a compensation half way: the saga is failed with
    the first step still in effect, and no method resumes it. *)
Theorem epoch_change_abandons_compensation :
  let o := (Orch.advance_epoch orch2 2 "t").1 in
  (is_terminal <$> Orch.get o "q1") = Some true /\
  Orch.next_compensation_step o "q1" = Some (Ok None) /\
  (fmap mark ∘ step_records <$> Orch.get o "q1") =
  Some [(Forward, 0, true); (Forward, 1, true); (Forward, 2, false); (Compensate, 1, true)].
Proof. vm_compute. done. Qed.
