(* ===== verification/SchedulerLane.v ===== *)
(** * Scheduler lanes (crates/franken-engine/src/scheduler_lane.rs)

    Three queues of labelled tasks: cancellation work first, then timed tasks
    that are due by deadline, then ready tasks in the order of submission, with
    a minimal throughput of ready tasks in every batch.  The proofs are in
    SchedulerCorrect.v. *)
From stdpp Require Import base numbers list strings gmap sorting.
From S2P Require Import Prelude Bytes.
Open Scope string_scope.
Open Scope list_scope.
Open Scope Z_scope.

Inductive SchedulerLane := Cancel | Timed | Ready.

#[export] Instance SchedulerLane_eq_dec : EqDecision SchedulerLane.
Proof. solve_decision. Defined.

Definition lane_name (l : SchedulerLane) : string :=
  match l with Cancel => "cancel" | Timed => "timed" | Ready => "ready" end.

Inductive TaskType :=
  | CancelCleanup | QuarantineExec | ForcedDrain
  | LeaseRenewal | MonitoringProbe | EvidenceFlush | EpochBarrierTimeout
  | ExtensionDispatch | GcCycle | PolicyIteration | RemoteSync | SagaStepExec.

Definition required_lane (t : TaskType) : SchedulerLane :=
  match t with
  | CancelCleanup | QuarantineExec | ForcedDrain => Cancel
  | LeaseRenewal | MonitoringProbe | EvidenceFlush | EpochBarrierTimeout => Timed
  | ExtensionDispatch | GcCycle | PolicyIteration | RemoteSync | SagaStepExec => Ready
  end.

Definition task_type_name (t : TaskType) : string :=
  match t with
  | CancelCleanup => "cancel_cleanup"
  | QuarantineExec => "quarantine_exec"
  | ForcedDrain => "forced_drain"
  | LeaseRenewal => "lease_renewal"
  | MonitoringProbe => "monitoring_probe"
  | EvidenceFlush => "evidence_flush"
  | EpochBarrierTimeout => "epoch_barrier_timeout"
  | ExtensionDispatch => "extension_dispatch"
  | GcCycle => "gc_cycle"
  | PolicyIteration => "policy_iteration"
  | RemoteSync => "remote_sync"
  | SagaStepExec => "saga_step_exec"
  end.

Record TaskLabel := mkLabel {
  lane : SchedulerLane;
  task_type : TaskType;
  tl_trace : string;
  priority_sub_band : Z }.

Record ScheduledTask := mkTask {
  task_id : Z;
  task_label : TaskLabel;
  deadline_tick : Z;
  submitted_at : Z;
  payload_id : string }.

Record LaneMetrics := mkMetrics {
  m_lane : string;
  queue_depth_metric : Z;
  tasks_submitted : Z;
  tasks_scheduled : Z;
  tasks_completed : Z;
  tasks_timed_out : Z }.

Record LaneConfig := mkLaneConfig {
  cancel_max_depth : Z;
  timed_max_depth : Z;
  ready_max_depth : Z;
  ready_min_throughput : Z }.

Definition default_lane_config : LaneConfig := mkLaneConfig 256 1024 4096 1.

Record SchedulerEvent := mkSchedEvent {
  sv_task_id : Z;
  sv_lane : string;
  sv_task_type : string;
  sv_trace : string;
  queue_position : Z;
  sv_event : string }.

Inductive LaneError :=
  | LaneMismatch (task_type declared_lane required_lane : string)
  | LaneFull (lane : string) (max_depth : Z)
  | TaskNotFound (task_id : Z)
  | EmptyTraceId.

Record LaneScheduler := mkSched {
  sconfig : LaneConfig;
  next_task_id : Z;
  cancel_queue : list ScheduledTask;
  timed_queue : list ScheduledTask;
  ready_queue : list ScheduledTask;
  metrics : gmap string LaneMetrics;
  sevents : list SchedulerEvent;
  sevent_counts : gmap string Z }.

(** Updates of single fields. *)
Definition set_metrics (s : LaneScheduler) (m : gmap string LaneMetrics) : LaneScheduler :=
  mkSched (sconfig s) (next_task_id s) (cancel_queue s) (timed_queue s) (ready_queue s) m (sevents s)
    (sevent_counts s).
Definition set_cancel (s : LaneScheduler) (q : list ScheduledTask) : LaneScheduler :=
  mkSched (sconfig s) (next_task_id s) q (timed_queue s) (ready_queue s) (metrics s) (sevents s) (sevent_counts s).
Definition set_timed (s : LaneScheduler) (q : list ScheduledTask) : LaneScheduler :=
  mkSched (sconfig s) (next_task_id s) (cancel_queue s) q (ready_queue s) (metrics s) (sevents s) (sevent_counts s).
Definition set_ready (s : LaneScheduler) (q : list ScheduledTask) : LaneScheduler :=
  mkSched (sconfig s) (next_task_id s) (cancel_queue s) (timed_queue s) q (metrics s) (sevents s) (sevent_counts s).
Definition set_next_id (s : LaneScheduler) (n : Z) : LaneScheduler :=
  mkSched (sconfig s) n (cancel_queue s) (timed_queue s) (ready_queue s) (metrics s) (sevents s) (sevent_counts s).

Definition with_depth (d : Z) (m : LaneMetrics) : LaneMetrics :=
  mkMetrics (m_lane m) d (tasks_submitted m) (tasks_scheduled m) (tasks_completed m) (tasks_timed_out m).
Definition add_submitted (m : LaneMetrics) : LaneMetrics :=
  mkMetrics (m_lane m) (queue_depth_metric m) (wrap_u64 (tasks_submitted m + 1)) (tasks_scheduled m)
    (tasks_completed m) (tasks_timed_out m).
Definition add_scheduled (m : LaneMetrics) : LaneMetrics :=
  mkMetrics (m_lane m) (queue_depth_metric m) (tasks_submitted m) (wrap_u64 (tasks_scheduled m + 1))
    (tasks_completed m) (tasks_timed_out m).
Definition add_completed (m : LaneMetrics) : LaneMetrics :=
  mkMetrics (m_lane m) (queue_depth_metric m) (tasks_submitted m) (tasks_scheduled m)
    (wrap_u64 (tasks_completed m + 1)) (tasks_timed_out m).
Definition add_timed_out (m : LaneMetrics) : LaneMetrics :=
  mkMetrics (m_lane m) (queue_depth_metric m) (tasks_submitted m) (tasks_scheduled m) (tasks_completed m)
    (wrap_u64 (tasks_timed_out m + 1)).

(** [sort_by_key(|t| t.deadline_tick)], a stable sort. *)
Fixpoint insert_by_deadline (t : ScheduledTask) (l : list ScheduledTask) : list ScheduledTask :=
  match l with
  | [] => [t]
  | x :: r => if deadline_tick t <=? deadline_tick x then t :: l else x :: insert_by_deadline t r
  end.

Definition sort_by_deadline (l : list ScheduledTask) : list ScheduledTask := foldr insert_by_deadline [] l.

Module Sched.
Definition new (c : LaneConfig) : LaneScheduler :=
  mkSched c 1 [] [] []
    (fold_left (fun m lane => <[lane := mkMetrics lane 0 0 0 0 0]> m) ["cancel"; "timed"; "ready"] ∅) [] ∅.

Definition emit_event (s : LaneScheduler) (e : SchedulerEvent) : LaneScheduler :=
  mkSched (sconfig s) (next_task_id s) (cancel_queue s) (timed_queue s) (ready_queue s) (metrics s)
    (sevents s ++ [e]) (sevent_counts s).

Definition record_count (s : LaneScheduler) (ty : string) : LaneScheduler :=
  mkSched (sconfig s) (next_task_id s) (cancel_queue s) (timed_queue s) (ready_queue s) (metrics s)
    (sevents s) (bump_count ty (sevent_counts s)).

(** [if let Some(m) = self.metrics.get_mut(name)] *)
Definition on_metrics (s : LaneScheduler) (name : string) (f : LaneMetrics -> LaneMetrics) : LaneScheduler :=
  set_metrics s (alter f name (metrics s)).

Definition queue_of (s : LaneScheduler) (l : SchedulerLane) : list ScheduledTask :=
  match l with Cancel => cancel_queue s | Timed => timed_queue s | Ready => ready_queue s end.

Definition max_depth (c : LaneConfig) (l : SchedulerLane) : Z :=
  match l with Cancel => cancel_max_depth c | Timed => timed_max_depth c | Ready => ready_max_depth c end.

Definition queue_depth (s : LaneScheduler) (l : SchedulerLane) : Z := zlen (queue_of s l).

Definition total_queue_depth (s : LaneScheduler) : Z :=
  zlen (cancel_queue s) + zlen (timed_queue s) + zlen (ready_queue s).

Definition push_back (s : LaneScheduler) (l : SchedulerLane) (t : ScheduledTask) : LaneScheduler :=
  match l with
  | Cancel => set_cancel s (cancel_queue s ++ [t])
  | Timed => set_timed s (timed_queue s ++ [t])
  | Ready => set_ready s (ready_queue s ++ [t])
  end.

Definition submit (s : LaneScheduler) (label : TaskLabel) (deadline : Z) (payload : string) (ticks : Z) :
    LaneScheduler * result LaneError Z :=
  let required := required_lane (task_type label) in
  if bool_decide (tl_trace label = "") then (s, Err EmptyTraceId)
  else if negb (bool_decide (lane label = required)) then
    (s, Err (LaneMismatch (task_type_name (task_type label)) (lane_name (lane label)) (lane_name required)))
  else if max_depth (sconfig s) (lane label) <=? queue_depth s (lane label) then
    (s, Err (LaneFull (lane_name (lane label)) (max_depth (sconfig s) (lane label))))
  else
    let id := next_task_id s in
    let s := set_next_id s (sat_add64 id 1) in
    let s := push_back s (lane label) (mkTask id label deadline ticks payload) in
    let queue_pos := queue_depth s (lane label) - 1 in
    let s := on_metrics s (lane_name (lane label))
               (fun m => with_depth (queue_depth s (lane label)) (add_submitted m)) in
    let s := emit_event s (mkSchedEvent id (lane_name (lane label)) (task_type_name (task_type label))
                             (tl_trace label) queue_pos "submit") in
    (record_count s "submit", Ok id).

Definition record_schedule (s : LaneScheduler) (t : ScheduledTask) : LaneScheduler :=
  let l := task_label t in
  let s := on_metrics s (lane_name (lane l)) add_scheduled in
  let s := emit_event s (mkSchedEvent (task_id t) (lane_name (lane l)) (task_type_name (task_type l))
                           (tl_trace l) 0 "schedule") in
  record_count s "schedule".

(** 1. The loop over the cancel lane, until the batch is full or the lane empty. *)
Fixpoint cancel_loop (q : list ScheduledTask) (batch_size : Z) (s : LaneScheduler) (batch : list ScheduledTask) :
    LaneScheduler * list ScheduledTask :=
  match q with
  | [] => (set_cancel s [], batch)
  | t :: q' =>
      if zlen batch <? batch_size then cancel_loop q' batch_size (record_schedule s t) (batch ++ [t])
      else (set_cancel s q, batch)
  end.

(** 2. The loop over the timed tasks, sorted by deadline. *)
Fixpoint timed_loop (l : list ScheduledTask) (batch_size ticks : Z) (s : LaneScheduler)
    (batch returned : list ScheduledTask) : LaneScheduler * list ScheduledTask :=
  match l with
  | [] => (set_timed s returned, batch)
  | t :: l =>
      if (zlen batch <? batch_size) && (deadline_tick t <=? ticks) then
        timed_loop l batch_size ticks (record_schedule s t) (batch ++ [t]) returned
      else timed_loop l batch_size ticks s batch (returned ++ [t])
  end.

Definition ready_slots (s : LaneScheduler) (batch_size : Z) (batch : list ScheduledTask) : Z :=
  if batch_size =? 0 then 0
  else if zlen batch <? batch_size then Z.max (batch_size - zlen batch) (ready_min_throughput (sconfig s))
  else ready_min_throughput (sconfig s).

(** 3. [n] tasks from the front of the ready lane. *)
Fixpoint ready_loop (n : nat) (s : LaneScheduler) (batch : list ScheduledTask) :
    LaneScheduler * list ScheduledTask :=
  match n with
  | O => (s, batch)
  | S n =>
      match ready_queue s with
      | t :: q => ready_loop n (record_schedule (set_ready s q) t) (batch ++ [t])
      | [] => ready_loop n s batch
      end
  end.

Definition expired (ticks : Z) (t : ScheduledTask) : bool := (0 <? deadline_tick t) && (deadline_tick t <? ticks).

Definition report_timeout (s : LaneScheduler) (t : ScheduledTask) : LaneScheduler :=
  let s := on_metrics s "timed" add_timed_out in
  let s := emit_event s (mkSchedEvent (task_id t) "timed" (task_type_name (task_type (task_label t)))
                           (tl_trace (task_label t)) 0 "timeout") in
  record_count s "timeout".

Definition update_queue_depths (s : LaneScheduler) : LaneScheduler :=
  let s := on_metrics s "cancel" (with_depth (zlen (cancel_queue s))) in
  let s := on_metrics s "timed" (with_depth (zlen (timed_queue s))) in
  on_metrics s "ready" (with_depth (zlen (ready_queue s))).

Definition schedule_batch (s : LaneScheduler) (batch_size ticks : Z) : LaneScheduler * list ScheduledTask :=
  let (s, batch) := cancel_loop (cancel_queue s) batch_size s [] in
  let (s, batch) :=
    if zlen batch <? batch_size then
      timed_loop (sort_by_deadline (timed_queue s)) batch_size ticks s batch []
    else (s, batch) in
  let ready_to_take := Z.min (ready_slots s batch_size batch) (zlen (ready_queue s)) in
  let (s, batch) := ready_loop (Z.to_nat ready_to_take) s batch in
  let timed_expired := filter (fun t => expired ticks t = true) (timed_queue s) in
  let s := set_timed s (filter (fun t => expired ticks t = false) (timed_queue s)) in
  let s := fold_left report_timeout timed_expired s in
  (update_queue_depths s, batch).

Definition complete_task (s : LaneScheduler) (id : Z) (l : SchedulerLane) : LaneScheduler :=
  let s := on_metrics s (lane_name l) add_completed in
  let s := emit_event s (mkSchedEvent id (lane_name l) "" "" 0 "complete") in
  record_count s "complete".

Definition drain_events (s : LaneScheduler) : LaneScheduler * list SchedulerEvent :=
  (mkSched (sconfig s) (next_task_id s) (cancel_queue s) (timed_queue s) (ready_queue s) (metrics s) []
     (sevent_counts s), sevents s).
End Sched.
