(* ===== verification/SchedulerCorrect.v ===== *)
(** * Properties of the scheduler lanes

    [schedule_batch_exact] gives the batch, the queues and the events after a
    call in closed form.  From it follow the account of all tasks along a run
    and the guarantee that ready tasks are not starved. *)
From stdpp Require Import base numbers list strings gmap sorting.
From S2P Require Import Prelude Bytes SchedulerLane.
Open Scope string_scope.
Open Scope list_scope.
Open Scope Z_scope.

(** ** The stable sort *)

Definition by_deadline (a b : ScheduledTask) : Prop := deadline_tick a <= deadline_tick b.

Lemma insert_by_deadline_perm t l : insert_by_deadline t l ≡ₚ t :: l.
Proof.
  induction l as [|x l IH]; [done|]. cbn. case_match; [done|]. rewrite IH. apply Permutation_swap.
Qed.

Lemma sort_by_deadline_perm l : sort_by_deadline l ≡ₚ l.
Proof. induction l as [|t l IH]; [done|]. cbn. by rewrite insert_by_deadline_perm, IH. Qed.

Lemma insert_by_deadline_sorted t l :
  StronglySorted by_deadline l -> StronglySorted by_deadline (insert_by_deadline t l).
Proof.
  induction 1 as [|x l Hl IH Hx]; cbn; [repeat constructor|].
  destruct (Z.leb_spec (deadline_tick t) (deadline_tick x)).
  - constructor; [by constructor|]. constructor; [done|]. eapply Forall_impl; [exact Hx|].
    unfold by_deadline. intros y ?. lia.
  - constructor; [done|]. rewrite insert_by_deadline_perm. constructor; [unfold by_deadline; lia|done].
Qed.

Lemma sort_by_deadline_sorted l : StronglySorted by_deadline (sort_by_deadline l).
Proof. induction l as [|t l IH]; [constructor|]. by apply insert_by_deadline_sorted. Qed.

(** Tasks with the same deadline keep their order. *)
Lemma sort_by_deadline_stable d l :
  filter (fun t => deadline_tick t = d) (sort_by_deadline l) = filter (fun t => deadline_tick t = d) l.
Proof.
  assert (Hins : forall t l, filter (fun t => deadline_tick t = d) (insert_by_deadline t l) =
                             filter (fun t => deadline_tick t = d) (t :: l)).
  { intros t l'. induction l' as [|x l' IH]; [done|]. cbn [insert_by_deadline].
    destruct (Z.leb_spec (deadline_tick t) (deadline_tick x)); [done|].
    rewrite filter_cons, IH, !filter_cons. repeat case_decide; done || lia. }
  induction l as [|t l IH]; [done|]. cbn [sort_by_deadline foldr]. rewrite Hins, !filter_cons.
  fold (sort_by_deadline l). by rewrite IH.
Qed.

(** ** The loops *)

(** Recording a list of dispatched tasks. *)
Definition dispatch (s : LaneScheduler) (ts : list ScheduledTask) : LaneScheduler :=
  fold_left Sched.record_schedule ts s.

Lemma dispatch_app s l1 l2 : dispatch s (l1 ++ l2) = dispatch (dispatch s l1) l2.
Proof. apply fold_left_app. Qed.

Lemma dispatch_set_cancel s q ts : dispatch (set_cancel s q) ts = set_cancel (dispatch s ts) q.
Proof. revert s. induction ts as [|t ts IH]; intros s; [done|]. exact (IH (Sched.record_schedule s t)). Qed.

Lemma dispatch_set_timed s q ts : dispatch (set_timed s q) ts = set_timed (dispatch s ts) q.
Proof. revert s. induction ts as [|t ts IH]; intros s; [done|]. exact (IH (Sched.record_schedule s t)). Qed.

Lemma dispatch_set_ready s q ts : dispatch (set_ready s q) ts = set_ready (dispatch s ts) q.
Proof. revert s. induction ts as [|t ts IH]; intros s; [done|]. exact (IH (Sched.record_schedule s t)). Qed.

Lemma dispatch_queues s ts :
  cancel_queue (dispatch s ts) = cancel_queue s /\ timed_queue (dispatch s ts) = timed_queue s /\
  ready_queue (dispatch s ts) = ready_queue s /\ sconfig (dispatch s ts) = sconfig s /\
  next_task_id (dispatch s ts) = next_task_id s.
Proof. revert s. induction ts as [|t ts IH]; intros s; [done|]. exact (IH (Sched.record_schedule s t)). Qed.

Lemma cancel_loop_eq q n s batch :
  let k := Z.to_nat (n - zlen batch) in
  Sched.cancel_loop q n s batch = (set_cancel (dispatch s (take k q)) (drop k q), batch ++ take k q).
Proof.
  revert s batch. induction q as [|t q IH]; intros s batch; cbv zeta; cbn [Sched.cancel_loop].
  - by rewrite take_nil, drop_nil, app_nil_r.
  - destruct (Z.ltb_spec (zlen batch) n).
    + rewrite IH. unfold zlen in *. rewrite length_app. cbn [length].
      replace (Z.to_nat (n - Z.of_nat (length batch)))
        with (S (Z.to_nat (n - Z.of_nat (length batch + 1)))) by lia.
      cbn [take drop]. by rewrite <- app_assoc.
    + replace (Z.to_nat (n - zlen batch)) with O by lia. cbn. by rewrite app_nil_r.
Qed.

Definition due (ticks : Z) (t : ScheduledTask) : Prop := deadline_tick t <= ticks.
#[export] Instance due_dec ticks t : Decision (due ticks t).
Proof. unfold due. apply _. Defined.

Lemma timed_loop_none l n ticks s batch returned :
  (n <= zlen batch \/ filter (due ticks) l = []) ->
  Sched.timed_loop l n ticks s batch returned = (set_timed s (returned ++ l), batch).
Proof.
  revert returned. induction l as [|t l IH]; intros returned H; cbn [Sched.timed_loop]; [by rewrite app_nil_r|].
  replace ((zlen batch <? n) && (deadline_tick t <=? ticks)) with false.
  - rewrite IH, <- app_assoc; [done|]. destruct H as [|H]; [by left|right].
    rewrite filter_cons in H. by case_decide.
  - symmetry. apply andb_false_iff. destruct H as [|H]; [left; lia|right]. rewrite filter_cons in H.
    unfold due in H. case_decide; [done|]. lia.
Qed.

Lemma timed_loop_eq l n ticks s batch returned :
  StronglySorted by_deadline l ->
  let k := Nat.min (Z.to_nat (n - zlen batch)) (length (filter (due ticks) l)) in
  Sched.timed_loop l n ticks s batch returned =
  (set_timed (dispatch s (take k l)) (returned ++ drop k l), batch ++ take k l).
Proof.
  revert s batch. induction l as [|t l IH]; intros s batch Hs; cbv zeta.
  { cbn. by rewrite take_nil, drop_nil, !app_nil_r. }
  apply StronglySorted_inv in Hs as [Hl Ht]. cbn [Sched.timed_loop].
  destruct ((zlen batch <? n) && (deadline_tick t <=? ticks)) eqn:E.
  - apply andb_prop in E as [E1 E2]. rewrite IH by done. rewrite filter_cons_True by (unfold due; lia).
    unfold zlen in *. rewrite length_app. cbn [length].
    set (m := length (filter (due ticks) l)).
    replace (Nat.min (Z.to_nat (n - Z.of_nat (length batch))) (S m))
      with (S (Nat.min (Z.to_nat (n - Z.of_nat (length batch + 1))) m)) by lia.
    cbn [take drop]. by rewrite <- app_assoc.
  - apply andb_false_iff in E. assert (Hnone : n <= zlen batch \/ filter (due ticks) (t :: l) = []).
    { destruct E as [E|E]; [left; lia|right]. rewrite filter_cons_False by (unfold due; lia).
      apply filter_none. rewrite Forall_forall in Ht. intros x Hx. specialize (Ht x Hx).
      unfold by_deadline, due in *. lia. }
    assert (Hk : Nat.min (Z.to_nat (n - zlen batch)) (length (filter (due ticks) (t :: l))) = O)
      by (destruct Hnone as [|Hn]; [lia|rewrite Hn; cbn; lia]).
    rewrite Hk, timed_loop_none; [cbn; by rewrite <- app_assoc, app_nil_r|].
    destruct Hnone as [|Hn]; [by left|right]. rewrite filter_cons in Hn. by case_decide.
Qed.

Lemma ready_loop_eq k s batch :
  (k <= length (ready_queue s))%nat ->
  Sched.ready_loop k s batch =
  (set_ready (dispatch s (take k (ready_queue s))) (drop k (ready_queue s)), batch ++ take k (ready_queue s)).
Proof.
  revert s batch. induction k as [|k IH]; intros s batch Hk; cbn [Sched.ready_loop].
  - cbn. rewrite app_nil_r. by destruct s.
  - destruct (ready_queue s) as [|t q] eqn:Hq; [cbn in Hk; lia|]. rewrite IH by (cbn in *; lia).
    cbn [take drop]. rewrite <- app_assoc. f_equal. change (Sched.record_schedule (set_ready s q) t)
      with (set_ready (Sched.record_schedule s t) q). by rewrite dispatch_set_ready.
Qed.

(** ** A batch in closed form *)

(** How many tasks of each lane a batch takes. *)
Definition n_cancel (s : LaneScheduler) (n : Z) : nat := Nat.min (Z.to_nat n) (length (cancel_queue s)).
Definition n_timed (s : LaneScheduler) (n ticks : Z) : nat :=
  Nat.min (Z.to_nat n - n_cancel s n) (length (filter (due ticks) (timed_queue s))).
Definition n_ready (s : LaneScheduler) (n ticks : Z) : nat :=
  if n =? 0 then O
  else Nat.min (Nat.max (Z.to_nat n - n_cancel s n - n_timed s n ticks)
                  (Z.to_nat (ready_min_throughput (sconfig s)))) (length (ready_queue s)).

(** The timed lane, sorted when the batch has room for it. *)
Definition timed_order (s : LaneScheduler) (n : Z) : list ScheduledTask :=
  if Z.of_nat (n_cancel s n) <? n then sort_by_deadline (timed_queue s) else timed_queue s.

Definition batch_of (s : LaneScheduler) (n ticks : Z) : list ScheduledTask :=
  take (n_cancel s n) (cancel_queue s) ++
  take (n_timed s n ticks) (sort_by_deadline (timed_queue s)) ++
  take (n_ready s n ticks) (ready_queue s).

(** The timed tasks left over, and those among them that a batch gives up. *)
Definition timed_left (s : LaneScheduler) (n ticks : Z) : list ScheduledTask :=
  drop (n_timed s n ticks) (timed_order s n).
Definition dropped_by (s : LaneScheduler) (n ticks : Z) : list ScheduledTask :=
  filter (fun t => Sched.expired ticks t = true) (timed_left s n ticks).

Definition with_queues (s : LaneScheduler) (c t r : list ScheduledTask) : LaneScheduler :=
  set_ready (set_timed (set_cancel s c) t) r.

Lemma dispatch_with_queues s c t r ts : dispatch (with_queues s c t r) ts = with_queues (dispatch s ts) c t r.
Proof. unfold with_queues. by rewrite dispatch_set_ready, dispatch_set_timed, dispatch_set_cancel. Qed.

(** The second part of a batch, after the cancel lane. *)
Lemma timed_part s n ticks batch :
  let k := Nat.min (Z.to_nat (n - zlen batch)) (length (filter (due ticks) (timed_queue s))) in
  (if zlen batch <? n then
     Sched.timed_loop (sort_by_deadline (timed_queue s)) n ticks s batch []
   else (s, batch)) =
  (set_timed (dispatch s (take k (sort_by_deadline (timed_queue s))))
     (drop k (if zlen batch <? n then sort_by_deadline (timed_queue s) else timed_queue s)),
   batch ++ take k (sort_by_deadline (timed_queue s))).
Proof.
  cbv zeta. destruct (Z.ltb_spec (zlen batch) n).
  - rewrite timed_loop_eq by apply sort_by_deadline_sorted.
    assert (Hp : length (filter (due ticks) (sort_by_deadline (timed_queue s))) =
                 length (filter (due ticks) (timed_queue s))) by (by rewrite sort_by_deadline_perm).
    by rewrite Hp.
  - replace (Z.to_nat (n - zlen batch)) with O by lia. cbn. rewrite app_nil_r. by destruct s.
Qed.

Lemma schedule_batch_eq s n ticks :
  0 <= n -> 0 <= ready_min_throughput (sconfig s) ->
  Sched.schedule_batch s n ticks =
  (Sched.update_queue_depths
     (fold_left Sched.report_timeout (dropped_by s n ticks)
        (with_queues (dispatch s (batch_of s n ticks))
           (drop (n_cancel s n) (cancel_queue s))
           (filter (fun t => Sched.expired ticks t = false) (timed_left s n ticks))
           (drop (n_ready s n ticks) (ready_queue s)))),
   batch_of s n ticks).
Proof.
  intros Hn Hm. unfold Sched.schedule_batch. rewrite cancel_loop_eq. change (zlen []) with 0. rewrite Z.sub_0_r, app_nil_l.
  set (q := cancel_queue s). assert (Hc : take (Z.to_nat n) q = take (n_cancel s n) q /\
                                         drop (Z.to_nat n) q = drop (n_cancel s n) q).
  { unfold n_cancel. fold q. destruct (Nat.min_spec (Z.to_nat n) (length q)) as [[? ->]|[? ->]]; [done|].
    by rewrite !take_ge, !drop_ge by lia. }
  destruct Hc as [-> ->]. rewrite timed_part.
  assert (Hlen : zlen (take (n_cancel s n) q) = Z.of_nat (n_cancel s n))
    by (unfold zlen; rewrite length_take; unfold n_cancel; fold q; lia).
  cbn [set_cancel timed_queue]. destruct (dispatch_queues s (take (n_cancel s n) q)) as (_ & -> & Hr & Hcf & _).
  rewrite Hlen. replace (Nat.min (Z.to_nat (n - Z.of_nat (n_cancel s n))) (length (filter (due ticks) (timed_queue s))))
    with (n_timed s n ticks) by (unfold n_timed; lia).
  fold (timed_order s n). fold (timed_left s n ticks).
  rewrite dispatch_set_cancel, <- dispatch_app.
  set (pre := take (n_cancel s n) q ++ take (n_timed s n ticks) (sort_by_deadline (timed_queue s))).
  assert (Hpre : zlen pre = Z.of_nat (n_cancel s n + n_timed s n ticks)).
  { unfold pre, zlen in *. rewrite length_app, (length_take (sort_by_deadline _)), sort_by_deadline_perm.
    rewrite Nat2Z.inj_add, Hlen. unfold n_timed. pose proof (length_filter (due ticks) (timed_queue s)). lia. }
  assert (Hle : (n_cancel s n + n_timed s n ticks <= Z.to_nat n)%nat) by (unfold n_timed, n_cancel; lia).
  destruct (dispatch_queues s pre) as (_ & _ & Hr' & Hcf' & _).
  match goal with |- context [Sched.ready_slots ?s0 n pre] => set (s1 := s0) end.
  assert (Hrq : ready_queue s1 = ready_queue s) by done. assert (Hcf1 : sconfig s1 = sconfig s) by done.
  assert (Hk : Z.to_nat (Z.min (Sched.ready_slots s1 n pre) (zlen (ready_queue s1))) = n_ready s n ticks).
  { rewrite Hrq. unfold Sched.ready_slots, n_ready, zlen in *. rewrite Hcf1, Hpre.
    destruct (Z.eqb_spec n 0) as [->|]; [lia|].
    destruct (Z.ltb_spec (Z.of_nat (n_cancel s n + n_timed s n ticks)) n); lia. }
  rewrite Hk, ready_loop_eq; [|rewrite Hrq; unfold n_ready; case_match; lia]. rewrite Hrq.
  unfold s1. rewrite dispatch_set_timed, dispatch_set_cancel, <- dispatch_app. unfold pre. rewrite <- app_assoc.
  fold (batch_of s n ticks). done.
Qed.

(** ** Metrics and events *)

Definition in_lane (l : SchedulerLane) (t : ScheduledTask) : Prop := lane (task_label t) = l.
#[export] Instance in_lane_dec l t : Decision (in_lane l t).
Proof. unfold in_lane. apply _. Defined.

Definition of_lane (l : SchedulerLane) (ts : list ScheduledTask) : list ScheduledTask := filter (in_lane l) ts.

(** Metrics from exact counts; the counters of the code wrap around. *)
Definition metric (l : SchedulerLane) (depth submitted scheduled completed timed_out : Z) : LaneMetrics :=
  mkMetrics (lane_name l) depth (wrap_u64 submitted) (wrap_u64 scheduled) (wrap_u64 completed) (wrap_u64 timed_out).

Lemma wrap_succ a : wrap_u64 (wrap_u64 a + 1) = wrap_u64 (a + 1).
Proof. unfold wrap_u64. apply Zplus_mod_idemp_l. Qed.

Lemma lane_name_inj : Inj (=) (=) lane_name.
Proof. by intros [] []. Qed.

Lemma on_metrics_lookup s l f l' :
  metrics (Sched.on_metrics s (lane_name l) f) !! lane_name l' =
  (if decide (l = l') then f <$> metrics s !! lane_name l' else metrics s !! lane_name l').
Proof.
  cbn [Sched.on_metrics set_metrics metrics]. case_decide as H.
  - subst. apply lookup_alter_eq.
  - apply lookup_alter_ne. intros Heq. by apply lane_name_inj in Heq.
Qed.

Lemma dispatch_metrics s ts l d a b c e :
  metrics s !! lane_name l = Some (metric l d a b c e) ->
  metrics (dispatch s ts) !! lane_name l = Some (metric l d a (b + zlen (of_lane l ts)) c e).
Proof.
  revert s b. induction ts as [|t ts IH]; intros s b Hm; [by rewrite Z.add_0_r|].
  cbn [dispatch fold_left]. fold (dispatch (Sched.record_schedule s t) ts). unfold of_lane. rewrite filter_cons.
  assert (Hs : metrics (Sched.record_schedule s t) !! lane_name l =
    if decide (lane (task_label t) = l) then add_scheduled <$> metrics s !! lane_name l else metrics s !! lane_name l)
    by apply (on_metrics_lookup s (lane (task_label t)) add_scheduled l).
  unfold in_lane. destruct (decide (lane (task_label t) = l)) as [Hl|Hl].
  - rewrite (IH _ (b + 1)); [f_equal; f_equal; unfold zlen, of_lane, in_lane; cbn; lia|].
    rewrite Hs, Hm. cbn. unfold add_scheduled, metric. cbn. by rewrite wrap_succ.
  - apply IH. by rewrite Hs.
Qed.

Lemma timeouts_metrics s ts l d a b c e :
  metrics s !! lane_name l = Some (metric l d a b c e) ->
  metrics (fold_left Sched.report_timeout ts s) !! lane_name l =
  Some (metric l d a b c (e + if decide (l = Timed) then zlen ts else 0)).
Proof.
  revert s e. induction ts as [|t ts IH]; intros s e Hm.
  { cbn [fold_left]. change (zlen []) with 0. case_decide; by rewrite Z.add_0_r. }
  cbn [fold_left].
  assert (Hs : metrics (Sched.report_timeout s t) !! lane_name l =
    if decide (Timed = l) then add_timed_out <$> metrics s !! lane_name l else metrics s !! lane_name l)
    by apply (on_metrics_lookup s Timed add_timed_out l).
  rewrite Hm in Hs. destruct (decide (Timed = l)) as [<-|Hl].
  - rewrite (IH _ (e + 1)); [do 2 f_equal; rewrite !decide_True by done; unfold zlen; cbn [length]; lia|].
    rewrite Hs. cbn. unfold add_timed_out, metric. cbn. by rewrite wrap_succ.
  - rewrite (IH _ e) by done. do 2 f_equal. by rewrite !decide_False by congruence.
Qed.

Lemma timeouts_keep ts s :
  let s' := fold_left Sched.report_timeout ts s in
  (forall l, Sched.queue_of s' l = Sched.queue_of s l) /\ sconfig s' = sconfig s /\ next_task_id s' = next_task_id s.
Proof. revert s. induction ts as [|t ts IH]; intros s; [done|]. exact (IH (Sched.report_timeout s t)). Qed.

Lemma update_depths_metrics s l d a b c e :
  metrics s !! lane_name l = Some (metric l d a b c e) ->
  metrics (Sched.update_queue_depths s) !! lane_name l = Some (metric l (Sched.queue_depth s l) a b c e).
Proof.
  intros Hm. unfold Sched.update_queue_depths. rewrite (on_metrics_lookup _ Ready), (on_metrics_lookup _ Timed), (on_metrics_lookup _ Cancel), Hm.
  by destruct l.
Qed.

Definition schedule_event (t : ScheduledTask) : SchedulerEvent :=
  mkSchedEvent (task_id t) (lane_name (lane (task_label t))) (task_type_name (task_type (task_label t)))
    (tl_trace (task_label t)) 0 "schedule".
Definition timeout_event (t : ScheduledTask) : SchedulerEvent :=
  mkSchedEvent (task_id t) "timed" (task_type_name (task_type (task_label t))) (tl_trace (task_label t)) 0 "timeout".

Lemma dispatch_events ts s : sevents (dispatch s ts) = sevents s ++ (schedule_event <$> ts).
Proof.
  revert s. induction ts as [|t ts IH]; intros s; cbn [dispatch fold_left fmap list_fmap]; [by rewrite app_nil_r|].
  fold (dispatch (Sched.record_schedule s t) ts). rewrite IH. cbn [Sched.record_schedule]. by rewrite (cons_middle (schedule_event t)), app_assoc.
Qed.

Lemma timeouts_events ts s : sevents (fold_left Sched.report_timeout ts s) = sevents s ++ (timeout_event <$> ts).
Proof.
  revert s. induction ts as [|t ts IH]; intros s; cbn [fold_left fmap list_fmap]; [by rewrite app_nil_r|].
  rewrite IH. by rewrite (cons_middle (timeout_event t)), app_assoc.
Qed.

(** The timed tasks of a batch are the due ones with the least deadlines. *)
Lemma sorted_due_prefix ticks l :
  StronglySorted by_deadline l -> filter (due ticks) l = take (length (filter (due ticks) l)) l.
Proof.
  induction 1 as [|t l Hl IH Ht]; [done|]. rewrite filter_cons. case_decide as Hd; [cbn; by rewrite <- IH|].
  rewrite filter_none; [done|]. rewrite Forall_forall in Ht. intros x Hx. specialize (Ht x Hx).
  unfold by_deadline, due in *. lia.
Qed.

Lemma timed_part_due s n ticks :
  take (n_timed s n ticks) (sort_by_deadline (timed_queue s)) =
  take (n_timed s n ticks) (filter (due ticks) (sort_by_deadline (timed_queue s))).
Proof.
  rewrite (sorted_due_prefix ticks (sort_by_deadline _)) by apply sort_by_deadline_sorted.
  rewrite take_take. f_equal. rewrite sort_by_deadline_perm. unfold n_timed. lia.
Qed.

Lemma batch_counts s n ticks :
  (n_cancel s n <= length (cancel_queue s))%nat /\ (n_timed s n ticks <= length (timed_queue s))%nat /\
  (n_cancel s n + n_timed s n ticks <= Z.to_nat n)%nat /\ (n_ready s n ticks <= length (ready_queue s))%nat.
Proof.
  pose proof (length_filter (due ticks) (timed_queue s)). unfold n_ready, n_timed, n_cancel. case_match; lia.
Qed.

Lemma filter_split {A} (b : A -> bool) (l : list A) :
  l ≡ₚ filter (fun x => b x = true) l ++ filter (fun x => b x = false) l.
Proof.
  induction l as [|x l IH]; [done|]. rewrite !filter_cons.
  destruct (b x); repeat case_decide; try done; cbn; rewrite IH at 1; [done|]. apply Permutation_middle.
Qed.

Lemma timed_split s n ticks :
  timed_queue s ≡ₚ take (n_timed s n ticks) (sort_by_deadline (timed_queue s)) ++ dropped_by s n ticks ++
                   filter (fun t => Sched.expired ticks t = false) (timed_left s n ticks).
Proof.
  unfold dropped_by. rewrite <- filter_split. unfold timed_left, timed_order.
  destruct (Z.ltb_spec (Z.of_nat (n_cancel s n)) n).
  - by rewrite take_drop, sort_by_deadline_perm.
  - replace (n_timed s n ticks) with O; [done|]. unfold n_timed. lia.
Qed.

Lemma schedule_batch_state s n ticks :
  0 <= n -> 0 <= ready_min_throughput (sconfig s) ->
  let s' := (Sched.schedule_batch s n ticks).1 in
  cancel_queue s' = drop (n_cancel s n) (cancel_queue s) /\
  timed_queue s' = filter (fun t => Sched.expired ticks t = false) (timed_left s n ticks) /\
  ready_queue s' = drop (n_ready s n ticks) (ready_queue s) /\
  sconfig s' = sconfig s /\ next_task_id s' = next_task_id s /\
  sevents s' = sevents s ++ (schedule_event <$> batch_of s n ticks) ++ (timeout_event <$> dropped_by s n ticks).
Proof.
  intros Hn Hm. rewrite schedule_batch_eq by done. cbv zeta. cbn [fst].
  match goal with |- context [fold_left Sched.report_timeout ?ts ?s0] =>
    destruct (timeouts_keep ts s0) as (Hq & Hcf & Hid); pose proof (timeouts_events ts s0) as He end.
  destruct (dispatch_queues s (batch_of s n ticks)) as (_ & _ & _ & Hcf' & Hid').
  split; [exact (Hq Cancel)|]. split; [exact (Hq Timed)|]. split; [exact (Hq Ready)|].
  split; [etrans; [exact Hcf|exact Hcf']|]. split; [etrans; [exact Hid|exact Hid']|].
  etrans; [exact He|]. cbn [with_queues set_ready set_timed set_cancel sevents]. by rewrite dispatch_events, app_assoc.
Qed.

(** The tasks of a sub-band. *)
Definition in_band (band : Z) (t : ScheduledTask) : Prop := priority_sub_band (task_label t) = band.
#[export] Instance in_band_dec band t : Decision (in_band band t).
Proof. unfold in_band. apply _. Defined.

(** C25. What a batch contains, for every state, size and time: cancel tasks in order of
    submission, then due timed tasks in order of deadline, both within the batch size,
    then as many ready tasks as there is room for, at least the configured minimum unless
    the size is zero or fewer are queued, first in first out within each sub-band. What
    remains is queued, timed tasks past their deadline are dropped and reported, and every
    scheduled or dropped task has its event. *)
Theorem schedule_batch_exact (s : LaneScheduler) (n ticks : Z) :
  0 <= n -> 0 <= ready_min_throughput (sconfig s) ->
  exists c t r,
    c = take (n_cancel s n) (cancel_queue s) /\
    t = take (n_timed s n ticks) (filter (due ticks) (sort_by_deadline (timed_queue s))) /\
    length r = n_ready s n ticks /\
    (Sched.schedule_batch s n ticks).2 = c ++ t ++ r /\
    StronglySorted by_deadline t /\
    zlen c + zlen t <= n /\ zlen (c ++ t ++ r) <= n + ready_min_throughput (sconfig s) /\
    (n = 0 \/ Z.min (ready_min_throughput (sconfig s)) (zlen (ready_queue s)) <= zlen r) /\
    let s' := (Sched.schedule_batch s n ticks).1 in
    cancel_queue s' = drop (n_cancel s n) (cancel_queue s) /\
    timed_queue s ≡ₚ t ++ dropped_by s n ticks ++ timed_queue s' /\
    (forall x, x ∈ timed_queue s' -> Sched.expired ticks x = false) /\
    ready_queue s ≡ₚ r ++ ready_queue s' /\
    (forall band, filter (in_band band) (r ++ ready_queue s') = filter (in_band band) (ready_queue s)) /\
    sevents s' = sevents s ++ (schedule_event <$> c ++ t ++ r) ++ (timeout_event <$> dropped_by s n ticks).
Proof.
  intros Hn Hm. exists (take (n_cancel s n) (cancel_queue s)),
    (take (n_timed s n ticks) (filter (due ticks) (sort_by_deadline (timed_queue s)))), (take (n_ready s n ticks) (ready_queue s)).
  do 2 (split; [reflexivity|]). split; [rewrite length_take; unfold n_ready; case_match; lia|].
  rewrite <- timed_part_due. fold (batch_of s n ticks).
  destruct (batch_counts s n ticks) as (Hc & Ht & Hct & Hr).
  assert (Hlt : length (sort_by_deadline (timed_queue s)) = length (timed_queue s)) by (by rewrite sort_by_deadline_perm).
  split; [by rewrite schedule_batch_eq|]. split.
  { eapply StronglySorted_app_1_l. rewrite take_drop. apply sort_by_deadline_sorted. }
  split; [unfold zlen; rewrite !length_take; lia|]. split.
  { unfold batch_of, zlen, n_ready in *. rewrite !length_app, !length_take. destruct (Z.eqb_spec n 0); lia. }
  split; [unfold n_ready, zlen in *; rewrite length_take; destruct (Z.eqb_spec n 0); [by left|right; lia]|].
  cbv zeta. destruct (schedule_batch_state s n ticks Hn Hm) as (-> & -> & -> & _ & _ & ->).
  split; [done|]. split; [apply timed_split|]. rewrite take_drop. split; [|done].
  intros x Hx. by apply list_elem_of_filter in Hx as [? _].
Qed.

(** ** Runs

    A scheduler with what happened to it: the tasks accepted, dispatched and
    given up, and the lanes of completed tasks. *)
Record World := mkWorld {
  w_sched : LaneScheduler;
  accepted : list ScheduledTask;
  dispatched : list ScheduledTask;
  given_up : list ScheduledTask;
  completed : list SchedulerLane }.

Inductive op :=
  | OSubmit (label : TaskLabel) (deadline : Z) (payload : string) (ticks : Z)
  | OBatch (n ticks : Z)
  | OComplete (id : Z) (l : SchedulerLane)
  | ODrain.

Definition exec (w : World) (o : op) : World :=
  let s := w_sched w in
  match o with
  | OSubmit label d p ticks =>
      match Sched.submit s label d p ticks with
      | (s, Ok id) => mkWorld s (accepted w ++ [mkTask id label d ticks p]) (dispatched w) (given_up w) (completed w)
      | (s, Err _) => mkWorld s (accepted w) (dispatched w) (given_up w) (completed w)
      end
  | OBatch n ticks =>
      mkWorld (Sched.schedule_batch s n ticks).1 (accepted w)
        (dispatched w ++ (Sched.schedule_batch s n ticks).2) (given_up w ++ dropped_by s n ticks) (completed w)
  | OComplete id l =>
      mkWorld (Sched.complete_task s id l) (accepted w) (dispatched w) (given_up w) (completed w ++ [l])
  | ODrain => mkWorld (Sched.drain_events s).1 (accepted w) (dispatched w) (given_up w) (completed w)
  end.

Definition run (ops : list op) (w : World) : World := fold_left exec ops w.

(** Batch sizes are unsigned. *)
Definition op_ok (o : op) : Prop := match o with OBatch n _ => 0 <= n | _ => True end.

Definition config_ok (c : LaneConfig) : Prop :=
  0 <= ready_min_throughput c /\ forall l, 0 <= Sched.max_depth c l.

Definition world0 (c : LaneConfig) : World := mkWorld (Sched.new c) [] [] [] [].

Record world_ok (c : LaneConfig) (w : World) : Prop := {
  wo_config : sconfig (w_sched w) = c;
  wo_lanes : forall l t, t ∈ Sched.queue_of (w_sched w) l -> in_lane l t;
  wo_given_up : forall t, t ∈ given_up w -> in_lane Timed t;
  wo_cancel : of_lane Cancel (accepted w) = of_lane Cancel (dispatched w) ++ cancel_queue (w_sched w);
  wo_timed : of_lane Timed (accepted w) ≡ₚ of_lane Timed (dispatched w) ++ given_up w ++ timed_queue (w_sched w);
  wo_ready : of_lane Ready (accepted w) = of_lane Ready (dispatched w) ++ ready_queue (w_sched w);
  wo_depth : forall l, Sched.queue_depth (w_sched w) l <= Sched.max_depth c l;
  wo_metrics : forall l, metrics (w_sched w) !! lane_name l =
    Some (metric l (Sched.queue_depth (w_sched w) l) (zlen (of_lane l (accepted w))) (zlen (of_lane l (dispatched w)))
            (zlen (filter (fun x => x = l) (completed w))) (if decide (l = Timed) then zlen (given_up w) else 0));
  wo_next : next_task_id (w_sched w) = Z.min (zlen (accepted w) + 1) u64_max;
  wo_ids : zlen (accepted w) < u64_max -> (task_id <$> accepted w) = seqZ 1 (zlen (accepted w)) }.

Lemma of_lane_app l a b : of_lane l (a ++ b) = of_lane l a ++ of_lane l b.
Proof. apply filter_app. Qed.

Lemma of_lane_same l q : (forall t, t ∈ q -> in_lane l t) -> of_lane l q = q.
Proof. apply filter_all. Qed.

Lemma of_lane_other l l' q : l <> l' -> (forall t, t ∈ q -> in_lane l' t) -> of_lane l q = [].
Proof. intros Hne H. apply filter_none. intros t Ht Hl. apply Hne. rewrite <- Hl. by apply H. Qed.

Lemma take_in {A} (P : A -> Prop) k (l : list A) : (forall x, x ∈ l -> P x) -> forall x, x ∈ take k l -> P x.
Proof. intros H x Hx. apply H. rewrite <- (take_drop k l). apply elem_of_app. by left. Qed.

Lemma drop_in {A} (P : A -> Prop) k (l : list A) : (forall x, x ∈ l -> P x) -> forall x, x ∈ drop k l -> P x.
Proof. intros H x Hx. apply H. rewrite <- (take_drop k l). apply elem_of_app. by right. Qed.

(** The lanes of a batch. *)
Lemma batch_of_lane c w n ticks l :
  world_ok c w ->
  of_lane l (batch_of (w_sched w) n ticks) =
  match l with
  | Cancel => take (n_cancel (w_sched w) n) (cancel_queue (w_sched w))
  | Timed => take (n_timed (w_sched w) n ticks) (sort_by_deadline (timed_queue (w_sched w)))
  | Ready => take (n_ready (w_sched w) n ticks) (ready_queue (w_sched w))
  end.
Proof.
  intros Hw. unfold batch_of. rewrite !of_lane_app.
  assert (Hc := take_in (in_lane Cancel) (n_cancel (w_sched w) n) _ (wo_lanes c w Hw Cancel)).
  assert (Hs : forall t, t ∈ sort_by_deadline (timed_queue (w_sched w)) -> in_lane Timed t)
    by (intros t; rewrite sort_by_deadline_perm; exact (wo_lanes c w Hw Timed t)).
  assert (Ht := take_in (in_lane Timed) (n_timed (w_sched w) n ticks) _ Hs).
  assert (Hr := take_in (in_lane Ready) (n_ready (w_sched w) n ticks) _ (wo_lanes c w Hw Ready)).
  cbn [Sched.queue_of] in Hc, Hr. destruct l.
  - by rewrite (of_lane_same Cancel _ Hc), (of_lane_other Cancel Timed _ ltac:(done) Ht),
      (of_lane_other Cancel Ready _ ltac:(done) Hr), !app_nil_r.
  - by rewrite (of_lane_other Timed Cancel _ ltac:(done) Hc), (of_lane_same Timed _ Ht),
      (of_lane_other Timed Ready _ ltac:(done) Hr), app_nil_r.
  - by rewrite (of_lane_other Ready Cancel _ ltac:(done) Hc), (of_lane_other Ready Timed _ ltac:(done) Ht),
      (of_lane_same Ready _ Hr).
Qed.

Lemma new_world_ok c : config_ok c -> world_ok c (world0 c).
Proof.
  intros [_ Hd]. split; cbn; try done; try set_solver.
  - by intros [] t Ht%elem_of_nil.
  - intros l. specialize (Hd l). by destruct l.
  - by intros [].
Qed.

(** An accepted task is put at the end of its lane, and nothing else changes. *)
Lemma submit_cases s label d p ticks :
  let t := mkTask (next_task_id s) label d ticks p in
  let s' := (Sched.submit s label d p ticks).1 in
  (exists e, (Sched.submit s label d p ticks).2 = Err e /\ s' = s) \/
  ((Sched.submit s label d p ticks).2 = Ok (next_task_id s) /\
   Sched.queue_depth s (lane label) < Sched.max_depth (sconfig s) (lane label) /\
   sconfig s' = sconfig s /\ next_task_id s' = sat_add64 (next_task_id s) 1 /\
   (forall l, Sched.queue_of s' l = Sched.queue_of s l ++ (if decide (lane label = l) then [t] else [])) /\
   (forall l, metrics s' !! lane_name l =
      if decide (lane label = l) then with_depth (Sched.queue_depth s' l) ∘ add_submitted <$> metrics s !! lane_name l
      else metrics s !! lane_name l)).
Proof.
  cbv zeta. unfold Sched.submit. case_bool_decide; [left; eauto|].
  destruct (bool_decide_reflect (lane label = required_lane (task_type label))) as [Hl|]; cbn [negb]; [|left; eauto].
  destruct (Z.leb_spec (Sched.max_depth (sconfig s) (lane label)) (Sched.queue_depth s (lane label)));
    [left; eauto|right]. split; [done|]. split; [done|].
  split; [by destruct (lane label)|]. split; [by destruct (lane label)|]. split.
  - intros l. case_decide as Hd; [subst l; by destruct (lane label)|]. rewrite app_nil_r.
    by destruct (lane label), l.
  - intros l. cbn [fst Sched.record_count Sched.emit_event metrics].
    rewrite on_metrics_lookup. case_decide as Hd; [subst l; by destruct (lane label)|].
    by destruct (lane label).
Qed.

Lemma of_lane_one l t : of_lane l [t] = if decide (lane (task_label t) = l) then [t] else [].
Proof. unfold of_lane. rewrite filter_cons. unfold in_lane. by case_decide. Qed.

Lemma zlen_one (P : Prop) `{!Decision P} {A} (x : A) : zlen (if decide P then [x] else []) = if decide P then 1 else 0.
Proof. by case_decide. Qed.

Lemma submit_ok c w label d p ticks : world_ok c w -> world_ok c (exec w (OSubmit label d p ticks)).
Proof.
  intros Hw. cbn [exec]. pose proof (submit_cases (w_sched w) label d p ticks) as Hc. cbv zeta in Hc.
  destruct (Sched.submit (w_sched w) label d p ticks) as [s' r]. cbn [fst snd] in Hc.
  destruct Hc as [(e & -> & ->)|(-> & Hd & Hcf & Hid & Hq & Hm)]; [by destruct Hw|].
  set (t := mkTask (next_task_id (w_sched w)) label d ticks p) in *. destruct Hw as [H1 H2 H3 H4 H5 H6 H7 H8 H9 H10].
  split; cbn [w_sched accepted dispatched given_up completed].
  - by rewrite Hcf.
  - intros l x. rewrite Hq, elem_of_app. intros [Hx|Hx]; [by apply H2|]. case_decide; [|by apply elem_of_nil in Hx].
    by apply list_elem_of_singleton in Hx as ->.
  - done.
  - change (cancel_queue s') with (Sched.queue_of s' Cancel). rewrite of_lane_app, of_lane_one, H4, Hq. cbn [task_label Sched.queue_of t]. by rewrite app_assoc.
  - change (timed_queue s') with (Sched.queue_of s' Timed). rewrite of_lane_app, of_lane_one, H5, Hq. cbn [task_label Sched.queue_of t]. by rewrite <- !app_assoc.
  - change (ready_queue s') with (Sched.queue_of s' Ready). rewrite of_lane_app, of_lane_one, H6, Hq. cbn [task_label Sched.queue_of t]. by rewrite app_assoc.
  - intros l. unfold Sched.queue_depth, zlen in *. rewrite Hq, length_app. specialize (H7 l).
    case_decide; cbn [length]; [subst; lia|lia].
  - intros l. rewrite Hm, H8, of_lane_app, of_lane_one. cbn [task_label t].
    destruct (decide (lane label = l)) as [Hl|Hl]; cbn.
    + unfold with_depth, add_submitted, metric. cbn. rewrite wrap_succ. do 3 f_equal.
      unfold zlen. rewrite length_app. cbn. lia.
    + unfold Sched.queue_depth. by rewrite Hq, (decide_False (P := lane label = l)), !app_nil_r by done.
  - rewrite Hid, H9. unfold zlen. rewrite length_app. cbn [length]. mlia.
  - intros Hn. unfold zlen in Hn. rewrite length_app in Hn. cbn [length] in Hn.
    rewrite fmap_app, H10 by (unfold zlen; lia). unfold zlen. rewrite length_app. cbn [length].
    rewrite Nat.add_1_r, seqZ_S. f_equal. cbn [fmap list_fmap t task_id]. f_equal. rewrite H9. unfold zlen. lia.
Qed.

Lemma batch_ok c w n ticks : config_ok c -> 0 <= n -> world_ok c w -> world_ok c (exec w (OBatch n ticks)).
Proof.
  intros [Hmin _] Hn Hw. pose proof Hw as [H1 H2 H3 H4 H5 H6 H7 H8 H9 H10]. cbn [exec]. rewrite <- H1 in Hmin.
  destruct (schedule_batch_state (w_sched w) n ticks Hn Hmin) as (Sc & St & Sr & Scf & Sid & _).
  pose proof (timed_split (w_sched w) n ticks) as Hsplit. rewrite <- St in Hsplit.
  assert (Hq : forall l t, t ∈ Sched.queue_of (Sched.schedule_batch (w_sched w) n ticks).1 l -> in_lane l t).
  { intros [] t; cbn [Sched.queue_of].
    - rewrite Sc. apply drop_in, (H2 Cancel).
    - intros Ht. apply (H2 Timed). cbn [Sched.queue_of]. rewrite Hsplit. set_solver.
    - rewrite Sr. apply drop_in, (H2 Ready). }
  assert (Hb : (Sched.schedule_batch (w_sched w) n ticks).2 = batch_of (w_sched w) n ticks)
    by (by rewrite schedule_batch_eq).
  split; cbn [w_sched accepted dispatched given_up completed].
  - by rewrite Scf.
  - exact Hq.
  - intros t [Ht|Ht]%elem_of_app; [by apply H3|]. apply (H2 Timed). cbn [Sched.queue_of]. rewrite Hsplit. set_solver.
  - rewrite Hb, of_lane_app, (batch_of_lane c w n ticks Cancel Hw), Sc, <- app_assoc, take_drop. done.
  - rewrite Hb, of_lane_app, (batch_of_lane c w n ticks Timed Hw), H5.
    etrans; [do 2 apply Permutation_app_head; exact Hsplit|]. solve_Permutation.
  - rewrite Hb, of_lane_app, (batch_of_lane c w n ticks Ready Hw), Sr, <- app_assoc, take_drop. done.
  - intros l. specialize (H7 l). unfold Sched.queue_depth, zlen in *. destruct l; cbn [Sched.queue_of] in *.
    + rewrite Sc, length_drop. lia.
    + apply Permutation_length in Hsplit. rewrite !length_app in Hsplit. lia.
    + rewrite Sr, length_drop. lia.
  - intros l. specialize (H8 l). rewrite Hb, of_lane_app. rewrite (schedule_batch_eq _ _ _ Hn Hmin). cbn [fst].
    apply (dispatch_metrics _ (batch_of (w_sched w) n ticks)) in H8.
    match goal with |- context [fold_left Sched.report_timeout ?ts ?s0] =>
      assert (H0 : metrics s0 = metrics (dispatch (w_sched w) (batch_of (w_sched w) n ticks))) by done;
      rewrite <- H0 in H8; apply (timeouts_metrics s0 ts) in H8 end.
    apply update_depths_metrics in H8. rewrite H8. do 2 f_equal.
    + unfold zlen. rewrite length_app. lia.
    + case_decide; [|done]. unfold zlen. rewrite length_app. lia.
  - rewrite Sid. exact H9.
  - exact H10.
Qed.

Lemma complete_task_ok c w id l : world_ok c w -> world_ok c (exec w (OComplete id l)).
Proof.
  intros [H1 H2 H3 H4 H5 H6 H7 H8 H9 H10]. split; try done. intros l'. cbn [exec w_sched accepted dispatched given_up completed].
  unfold Sched.complete_task. cbn [Sched.record_count Sched.emit_event metrics]. rewrite on_metrics_lookup, H8.
  rewrite filter_app, filter_cons, filter_nil. destruct (decide (l = l')) as [->|Hne]; [|by rewrite app_nil_r].
  cbn. unfold add_completed, metric. cbn. rewrite wrap_succ. do 3 f_equal. unfold zlen. rewrite length_app. cbn. lia.
Qed.

Lemma run_ok c ops w : config_ok c -> Forall op_ok ops -> world_ok c w -> world_ok c (run ops w).
Proof.
  intros Hc Hops. revert w. induction Hops as [|o ops Ho Hops IH]; intros w Hw; [done|]. apply IH. destruct o.
  - by apply submit_ok.
  - by apply batch_ok.
  - by apply complete_task_ok.
  - by destruct Hw.
Qed.

(** After every sequence of submissions, batches, completions and event drains each
    accepted task has been dispatched, is queued in its own lane or was a timed task that
    was given up; the cancel and ready lanes are first in, first out. Task identifiers are
    distinct before their counter saturates, queues stay within their limits, and the
    metrics of each lane are the counts of what happened to it. *)
Theorem scheduler_accounts_for_tasks (c : LaneConfig) (ops : list op) :
  config_ok c -> Forall op_ok ops ->
  let w := run ops (world0 c) in
  of_lane Cancel (accepted w) = of_lane Cancel (dispatched w) ++ cancel_queue (w_sched w) /\
  of_lane Ready (accepted w) = of_lane Ready (dispatched w) ++ ready_queue (w_sched w) /\
  of_lane Timed (accepted w) ≡ₚ of_lane Timed (dispatched w) ++ given_up w ++ timed_queue (w_sched w) /\
  (zlen (accepted w) < u64_max -> NoDup (task_id <$> accepted w)) /\
  forall l, Sched.queue_depth (w_sched w) l <= Sched.max_depth c l /\
    metrics (w_sched w) !! lane_name l =
    Some (metric l (Sched.queue_depth (w_sched w) l) (zlen (of_lane l (accepted w))) (zlen (of_lane l (dispatched w)))
            (zlen (filter (fun x => x = l) (completed w))) (if decide (l = Timed) then zlen (given_up w) else 0)).
Proof.
  intros Hc Hops. cbv zeta. destruct (run_ok c ops (world0 c) Hc Hops (new_world_ok c Hc)) as [_ _ _ H4 H5 H6 H7 H8 _ H10].
  do 3 (split; [done|]). split; [|done]. intros Hn. rewrite H10 by done. apply NoDup_seqZ.
Qed.

(** ** Ready tasks are not starved *)

Definition positive_batch (o : op) : nat := match o with OBatch n _ => if 0 <? n then 1 else 0 | _ => 0 end.
Definition batches (ops : list op) : nat := sum_list_with positive_batch ops.

Lemma dispatched_grows ops w t : t ∈ dispatched w -> t ∈ dispatched (run ops w).
Proof.
  revert w. induction ops as [|o ops IH]; intros w Ht; [done|]. apply IH. destruct o; try done.
  - cbn [exec]. by destruct (Sched.submit _ _ _ _ _) as [? []].
  - cbn. set_solver.
Qed.

(** Where the task at position [p] of the ready lane is after one call. *)
Lemma ready_moves c w o p t :
  config_ok c -> op_ok o -> world_ok c w -> ready_queue (w_sched w) !! p = Some t ->
  t ∈ dispatched (exec w o) \/
  exists p', ready_queue (w_sched (exec w o)) !! p' = Some t /\
    (p' + positive_batch o * Z.to_nat (ready_min_throughput c) <= p)%nat.
Proof.
  intros [Hmin _] Ho Hw Hp. destruct o as [label d pl ticks|n ticks|id l|].
  - right. exists p. split; [|cbn; lia]. cbn [exec].
    destruct (submit_cases (w_sched w) label d pl ticks) as [(e & He & Hs)|(He & _ & _ & _ & Hq & _)];
      destruct (Sched.submit (w_sched w) label d pl ticks) as [s' r]; cbn [fst snd] in *; subst; [done|].
    change (ready_queue _) with (Sched.queue_of s' Ready). rewrite Hq. by apply lookup_app_l_Some.
  - pose proof (wo_config c w Hw) as Hcf. rewrite <- Hcf in Hmin |- *. cbn [exec dispatched w_sched].
    destruct (schedule_batch_state (w_sched w) n ticks Ho Hmin) as (_ & _ & -> & _).
    destruct (decide (p < n_ready (w_sched w) n ticks)%nat) as [Hlt|Hge].
    + left. rewrite schedule_batch_eq by done. cbn [snd]. unfold batch_of. rewrite !elem_of_app. do 3 right.
      apply list_elem_of_lookup. exists p. by rewrite lookup_take_lt.
    + right. exists (p - n_ready (w_sched w) n ticks)%nat. rewrite lookup_drop. split.
      { rewrite <- Hp. f_equal. lia. }
      apply lookup_lt_Some in Hp. cbn [positive_batch]. unfold n_ready in *.
      destruct (Z.ltb_spec 0 n); [|lia]. destruct (Z.eqb_spec n 0); lia.
  - right. exists p. split; [done|cbn; lia].
  - right. exists p. split; [done|cbn; lia].
Qed.

(** Ready tasks are not starved: a task at position p of the ready queue has been
    dispatched once so many batches of positive size have been scheduled that their number
    times the configured minimum throughput exceeds p, whatever is submitted to the other
    lanes in between. *)
Theorem ready_tasks_not_starved (c : LaneConfig) (before ops : list op) (p : nat) (t : ScheduledTask) :
  config_ok c -> Forall op_ok before -> Forall op_ok ops ->
  let w := run before (world0 c) in
  ready_queue (w_sched w) !! p = Some t ->
  (p < batches ops * Z.to_nat (ready_min_throughput c))%nat ->
  t ∈ dispatched (run ops w).
Proof.
  intros Hc Hb Ho. cbv zeta. pose proof (run_ok c before (world0 c) Hc Hb (new_world_ok c Hc)) as Hw. revert Hw.
  generalize (run before (world0 c)). revert p. induction Ho as [|o ops Ho Hops IH]; intros p w Hw Hp Hlt; [cbn in Hlt; lia|].
  assert (Hw' : world_ok c (exec w o)) by (apply (run_ok c [o] w Hc); [by constructor|done]).
  destruct (ready_moves c w o p t Hc Ho Hw Hp) as [Hd|(p' & Hp' & Hle)].
  - by apply (dispatched_grows ops (exec w o)).
  - apply (IH p' (exec w o) Hw' Hp'). unfold batches in *. cbn [sum_list_with] in Hlt. lia.
Qed.

(** ** Examples *)

Definition small_config : LaneConfig := mkLaneConfig 4 4 4 1.
Definition label_of (ty : TaskType) (band : Z) : TaskLabel := mkLabel (required_lane ty) ty "t" band.

(** Five tasks: a cleanup, two timed tasks and two ready ones of one sub-band. *)
Definition submissions : list op :=
  [OSubmit (label_of GcCycle 0) 0 "gc" 1; OSubmit (label_of LeaseRenewal 0) 30 "lease" 1;
   OSubmit (label_of EvidenceFlush 0) 20 "flush" 1; OSubmit (label_of RemoteSync 0) 0 "sync" 1;
   OSubmit (label_of CancelCleanup 0) 0 "cleanup" 1].

Definition loaded : World := run submissions (world0 small_config).

Lemma small_config_ok : config_ok small_config.
Proof. split; [done|]. by intros []. Qed.

Lemma submissions_ok : Forall op_ok submissions.
Proof. repeat constructor. Qed.

(** At tick 40 a batch of two holds the cleanup, the timed task with the earlier
    deadline and one ready task; the other timed task is given up. *)
Lemma schedule_batch_exact_witness :
  let s := (Sched.schedule_batch (w_sched loaded) 2 40).1 in
  payload_id <$> (Sched.schedule_batch (w_sched loaded) 2 40).2 = ["cleanup"; "flush"; "gc"] /\
  payload_id <$> ready_queue s = ["sync"] /\
  zlen (Sched.schedule_batch (w_sched loaded) 2 40).2 <= 3 /\
  payload_id <$> dropped_by (w_sched loaded) 2 40 = ["lease"].
Proof.
  destruct (schedule_batch_exact (w_sched loaded) 2 40 ltac:(lia) ltac:(done))
    as (c & t & r & _ & _ & _ & Hb & _ & _ & Hlen & _).
  split; [reflexivity|]. split; [reflexivity|]. split; [rewrite Hb; exact Hlen|reflexivity].
Defined.

Lemma scheduler_accounts_for_tasks_witness :
  let w := run (submissions ++ [OBatch 2 40; OComplete 1 Ready]) (world0 small_config) in
  payload_id <$> ready_queue (w_sched w) = ["sync"] /\ Sched.queue_depth (w_sched w) Ready <= 4 /\
  metrics (w_sched w) !! "timed" = Some (mkMetrics "timed" 0 2 1 0 1).
Proof.
  destruct (scheduler_accounts_for_tasks small_config (submissions ++ [OBatch 2 40; OComplete 1 Ready])
    small_config_ok) as (_ & _ & _ & _ & Hl).
  { apply Forall_app. split; [exact submissions_ok|]. apply Forall_cons. split; [cbn; lia|]. by apply Forall_singleton. }
  cbv zeta in *. split; [reflexivity|]. split; [exact (proj1 (Hl Ready))|]. etrans; [exact (proj2 (Hl Timed))|reflexivity].
Defined.

Lemma ready_tasks_not_starved_witness :
  mkTask 4 (label_of RemoteSync 0) 0 1 "sync" ∈ dispatched (run [OBatch 1 5; OBatch 1 6] loaded).
Proof.
  apply (ready_tasks_not_starved small_config submissions [OBatch 1 5; OBatch 1 6] 1 _ small_config_ok submissions_ok);
    [|reflexivity|cbn; lia].
  apply Forall_cons. split; [cbn; lia|]. apply Forall_singleton. cbn. lia.
Defined.

(** Sub-bands, documented as priorities within a lane, do not matter: of two
    ready tasks the one submitted first leaves first, whatever its sub-band. *)
Theorem sub_bands_ignored (gc_band sync_band : Z) :
  payload_id <$> dispatched (run [OSubmit (label_of GcCycle gc_band) 0 "gc" 1;
                                  OSubmit (label_of RemoteSync sync_band) 0 "sync" 1; OBatch 1 5]
                               (world0 small_config)) = ["gc"].
Proof. reflexivity. Qed.
