(* ===== verification/LeaseTracker.v ===== *)
(** * Lease tracker (crates/franken-engine/src/lease_tracker.rs)

    Leases with a time to live, an index of their expiration ticks, renewal,
    release, scans for expired leases with their escalation, and invalidation by
    epoch.  Both maps are [gmap]s that are visited in key order. *)
From stdpp Require Import base numbers list strings gmap sorting.
From S2P Require Import Prelude Bytes SecurityEpoch.
Open Scope string_scope.
Open Scope list_scope.
Open Scope Z_scope.

Inductive LeaseType := RemoteEndpoint | Operation | Session.

Inductive LeaseStatus := Active | Expired | Released.

#[export] Instance LeaseStatus_eq_dec : EqDecision LeaseStatus.
Proof. solve_decision. Defined.

Inductive EscalationAction :=
  | MarkEndpointUnreachable (holder : string)
  | CancelOperation (holder : string)
  | TerminateSession (holder : string).

#[export] Instance EscalationAction_eq_dec : EqDecision EscalationAction.
Proof. solve_decision. Defined.

Definition action_text (a : EscalationAction) : string :=
  match a with
  | MarkEndpointUnreachable h => "mark_endpoint_unreachable(" +:+ h +:+ ")"
  | CancelOperation h => "cancel_operation(" +:+ h +:+ ")"
  | TerminateSession h => "terminate_session(" +:+ h +:+ ")"
  end.

Record Lease := mkLease {
  lease_id : Z;
  holder : string;
  lease_type : LeaseType;
  granted_at : Z;
  expires_at : Z;
  ttl : Z;
  l_epoch : SecurityEpoch;
  renewal_count : Z;
  status : LeaseStatus }.

Definition is_active_at (l : Lease) (ticks : Z) : bool :=
  bool_decide (status l = Active) && (ticks <? expires_at l).

Definition renewal_due_at (l : Lease) : Z := wrap_u64 (sat_sub64 (expires_at l) (ttl l) + ttl l / 3).

Definition escalation_action (l : Lease) : EscalationAction :=
  match lease_type l with
  | RemoteEndpoint => MarkEndpointUnreachable (holder l)
  | Operation => CancelOperation (holder l)
  | Session => TerminateSession (holder l)
  end.

Definition set_status (l : Lease) (st : LeaseStatus) : Lease :=
  mkLease (lease_id l) (holder l) (lease_type l) (granted_at l) (expires_at l) (ttl l) (l_epoch l)
    (renewal_count l) st.

(** [lease.expires_at = ...; lease.renewal_count = saturating_add(1)] (a [u32]). *)
Definition extend (l : Lease) (ticks : Z) : Lease :=
  mkLease (lease_id l) (holder l) (lease_type l) (granted_at l) (sat_add64 ticks (ttl l)) (ttl l) (l_epoch l)
    (Z.min (renewal_count l + 1) u32_max) (status l).

Record LeaseEvent := mkLeaseEvent {
  le_lease_id : Z;
  le_holder : string;
  le_epoch_id : Z;
  le_ttl : Z;
  le_status : string;
  le_escalation : string;
  le_trace : string;
  le_event : string;
  le_renewals : Z }.

Inductive LeaseError :=
  | LeaseNotFound (lease_id : Z)
  | LeaseExpired (lease_id expired_at : Z)
  | LeaseReleased (lease_id : Z)
  | EpochMismatch (lease_id : Z) (lease_epoch current_epoch : SecurityEpoch)
  | ZeroTtl
  | EmptyHolder.

Record LeaseStore := mkStore {
  current_epoch : SecurityEpoch;
  next_id : Z;
  leases : gmap Z Lease;
  expiration_index : gmap Z (list Z);
  events : list LeaseEvent;
  event_counts : gmap string Z }.

Definition active (kv : Z * Lease) : Prop := status kv.2 = Active.
#[export] Instance active_dec kv : Decision (active kv).
Proof. unfold active. apply _. Defined.

(** [index.entry(t).or_default().push(id)] *)
Definition index_push (t id : Z) (ix : gmap Z (list Z)) : gmap Z (list Z) :=
  <[t := default [] (ix !! t) ++ [id]]> ix.

(** The removal of an id, and of its bucket when it is empty. *)
Definition index_remove (t id : Z) (ix : gmap Z (list Z)) : gmap Z (list Z) :=
  match ix !! t with
  | Some ids =>
      let ids := filter (fun x => x <> id) ids in
      if bool_decide (ids = []) then delete t ix else <[t := ids]> ix
  | None => ix
  end.

Module Leases.
Definition new (e : SecurityEpoch) : LeaseStore := mkStore e 1 ∅ ∅ [] ∅.

Definition emit_event (s : LeaseStore) (e : LeaseEvent) : LeaseStore :=
  mkStore (current_epoch s) (next_id s) (leases s) (expiration_index s) (events s ++ [e]) (event_counts s).
Definition record_count (s : LeaseStore) (ty : string) : LeaseStore :=
  mkStore (current_epoch s) (next_id s) (leases s) (expiration_index s) (events s) (bump_count ty (event_counts s)).
Definition with_leases (s : LeaseStore) (m : gmap Z Lease) (ix : gmap Z (list Z)) : LeaseStore :=
  mkStore (current_epoch s) (next_id s) m ix (events s) (event_counts s).

Definition grant (s : LeaseStore) (h : string) (ty : LeaseType) (t ticks : Z) (trace : string) :
    LeaseStore * result LeaseError Z :=
  if t =? 0 then (s, Err ZeroTtl)
  else if bool_decide (h = "") then (s, Err EmptyHolder)
  else
    let id := next_id s in
    let l := mkLease id h ty ticks (sat_add64 ticks t) t (current_epoch s) 0 Active in
    let s := mkStore (current_epoch s) (wrap_u64 (id + 1)) (leases s)
               (index_push (expires_at l) id (expiration_index s)) (events s) (event_counts s) in
    let s := emit_event s (mkLeaseEvent id h (current_epoch s) t "active" "" trace "grant" 0) in
    let s := with_leases s (<[id := l]> (leases s)) (expiration_index s) in
    (record_count s "grant", Ok id).

Definition renew (s : LeaseStore) (id ticks : Z) (trace : string) : LeaseStore * result LeaseError unit :=
  match leases s !! id with
  | None => (s, Err (LeaseNotFound id))
  | Some l =>
      match status l with
      | Released => (s, Err (LeaseReleased id))
      | Expired => (s, Err (LeaseExpired id (expires_at l)))
      | Active =>
          if expires_at l <=? ticks then
            (with_leases s (<[id := set_status l Expired]> (leases s)) (expiration_index s),
             Err (LeaseExpired id (expires_at l)))
          else if negb (l_epoch l =? current_epoch s) then
            (s, Err (EpochMismatch id (l_epoch l) (current_epoch s)))
          else
            let l' := extend l ticks in
            let ix := index_push (expires_at l') id (index_remove (expires_at l) id (expiration_index s)) in
            let s := with_leases s (<[id := l']> (leases s)) ix in
            let s := emit_event s (mkLeaseEvent id (holder l) (current_epoch s) (ttl l) "active" "" trace "renew"
                                     (renewal_count l')) in
            (record_count s "renew", Ok tt)
      end
  end.

Definition release (s : LeaseStore) (id : Z) (trace : string) : LeaseStore * result LeaseError unit :=
  match leases s !! id with
  | None => (s, Err (LeaseNotFound id))
  | Some l =>
      if bool_decide (status l = Released) then (s, Err (LeaseReleased id))
      else
        let s := with_leases s (<[id := set_status l Released]> (leases s))
                   (index_remove (expires_at l) id (expiration_index s)) in
        let s := emit_event s (mkLeaseEvent id (holder l) (current_epoch s) (ttl l) "released" "" trace "release"
                                 (renewal_count l)) in
        (record_count s "release", Ok tt)
  end.

Definition check (s : LeaseStore) (id ticks : Z) : LeaseStore * result LeaseError LeaseStatus :=
  match leases s !! id with
  | None => (s, Err (LeaseNotFound id))
  | Some l =>
      let l' := if bool_decide (status l = Active) && (expires_at l <=? ticks) then set_status l Expired else l in
      (with_leases s (<[id := l']> (leases s)) (expiration_index s), Ok (status l'))
  end.

Definition get (s : LeaseStore) (id : Z) : option Lease := leases s !! id.

(** [range(..=ticks)] of the index. *)
Definition due_buckets (s : LeaseStore) (ticks : Z) : list (Z * list Z) :=
  filter (fun kv => kv.1 <= ticks) (sorted_entries (expiration_index s)).

(** The loop over the due ids: active leases are marked expired, and each gives
    an event and an action. *)
Fixpoint expire_loop (ids : list Z) (m : gmap Z Lease) : gmap Z Lease * list (Z * Lease) :=
  match ids with
  | [] => (m, [])
  | id :: ids =>
      match m !! id with
      | Some l =>
          if bool_decide (status l = Active) then
            let (m', ls) := expire_loop ids (<[id := set_status l Expired]> m) in (m', (id, l) :: ls)
          else expire_loop ids m
      | None => expire_loop ids m
      end
  end.

(** The second loop of a scan or an epoch change: events, counts and actions. *)
Definition report (ty trace : string) (epoch : SecurityEpoch) (s : LeaseStore) (kv : Z * Lease) : LeaseStore :=
  let l := kv.2 in
  record_count
    (emit_event s (mkLeaseEvent kv.1 (holder l) epoch (ttl l) "expired" (action_text (escalation_action l))
                     trace ty (renewal_count l))) ty.

Definition scan_expired (s : LeaseStore) (ticks : Z) (trace : string) : LeaseStore * list EscalationAction :=
  let ids := concat (due_buckets s ticks).*2 in
  let (m, ls) := expire_loop ids (leases s) in
  let s1 := fold_left (report "expiration" trace (current_epoch s)) ls (with_leases s m (expiration_index s)) in
  (with_leases s1 (leases s1) (fold_left (fun ix k => delete k ix) (due_buckets s ticks).*1 (expiration_index s1)),
   (fun kv => escalation_action kv.2) <$> ls).

Definition stale (new_epoch : SecurityEpoch) (l : Lease) : bool :=
  bool_decide (status l = Active) && negb (l_epoch l =? new_epoch).

Definition advance_epoch (s : LeaseStore) (new_epoch : SecurityEpoch) (trace : string) :
    LeaseStore * list EscalationAction :=
  let hit := filter (fun l => stale new_epoch l = true) (sorted_values (leases s)) in
  let m := (fun l => if stale new_epoch l then set_status l Expired else l) <$> leases s in
  let s1 := fold_left (report "epoch_invalidation" trace new_epoch) ((fun l => (lease_id l, l)) <$> hit) (with_leases s m (expiration_index s)) in
  let ix := fold_left (fun ix (kv : Z * Lease) => index_push (expires_at kv.2) kv.1 ix)
              (filter active (sorted_entries (leases s1))) ∅ in
  (mkStore new_epoch (next_id s1) (leases s1) ix (events s1) (event_counts s1), escalation_action <$> hit).

Definition leases_due_for_renewal (s : LeaseStore) (ticks : Z) : list Z :=
  lease_id <$> filter (fun l => status l = Active /\ renewal_due_at l <= ticks) (sorted_values (leases s)).

Definition active_count (s : LeaseStore) : Z := Z.of_nat (size (filter active (leases s))).
Definition total_count (s : LeaseStore) : Z := Z.of_nat (size (leases s)).

Definition drain_events (s : LeaseStore) : LeaseStore * list LeaseEvent :=
  (mkStore (current_epoch s) (next_id s) (leases s) (expiration_index s) [] (event_counts s), events s).
End Leases.
