(* ===== verification/LeaseCorrect.v ===== *)
(** * Properties of the lease tracker

    The expiration index mirrors the leases; a scan expires and escalates
    exactly the active leases whose time has come, in the order of expiration;
    and the events of every lease follow its life cycle. *)
From stdpp Require Import base numbers list strings gmap sorting.
From S2P Require Import Prelude Bytes SecurityEpoch LeaseTracker.
Open Scope string_scope.
Open Scope list_scope.
Open Scope Z_scope.

#[local] Arguments index_push : simpl never.
#[local] Arguments index_remove : simpl never.
#[local] Arguments wrap_u64 : simpl never.

(** ** The index *)

(** [id] is filed under tick [t]. *)
Definition filed (ix : gmap Z (list Z)) (t id : Z) : Prop := exists ids, ix !! t = Some ids /\ id ∈ ids.

Definition buckets_ok (ix : gmap Z (list Z)) : Prop := forall t ids, ix !! t = Some ids -> NoDup ids /\ ids <> [].

Lemma filed_push ix t id t' id' : filed (index_push t id ix) t' id' <-> filed ix t' id' \/ (t' = t /\ id' = id).
Proof.
  unfold filed, index_push. destruct (decide (t = t')) as [<-|Hne].
  - rewrite lookup_insert_eq. split.
    + intros (ids & [= <-] & [Hin|Hin]%elem_of_app).
      * left. destruct (ix !! t); [by eexists|by apply elem_of_nil in Hin].
      * right. by apply list_elem_of_singleton in Hin.
    + intros [(ids & -> & Hin)|[_ ->]]; eexists; (split; [done|]); set_solver.
  - rewrite lookup_insert_ne by done. naive_solver.
Qed.

Lemma buckets_push ix t id : buckets_ok ix -> ~ filed ix t id -> buckets_ok (index_push t id ix).
Proof.
  intros Hb Hn t' ids. unfold index_push. destruct (decide (t = t')) as [<-|Hne].
  - rewrite lookup_insert_eq. intros [= <-]. split; [|by destruct (default [] (ix !! t))].
    unfold filed in Hn. destruct (ix !! t) as [ids|] eqn:Hx; cbn; [|apply NoDup_singleton].
    apply NoDup_app. split; [by apply (Hb t)|]. split; [|apply NoDup_singleton].
    intros x Hin Hx'. apply list_elem_of_singleton in Hx' as ->. naive_solver.
  - rewrite lookup_insert_ne by done. apply Hb.
Qed.

Lemma filed_remove ix t id t' id' : filed (index_remove t id ix) t' id' <-> filed ix t' id' /\ (t' = t -> id' <> id).
Proof.
  unfold index_remove, filed. destruct (ix !! t) as [ids|] eqn:Hx; [|naive_solver].
  destruct (decide (t' = t)) as [->|Hne].
  - case_bool_decide as He.
    + rewrite lookup_delete_eq, Hx. split; [naive_solver|]. intros ((ids' & [= <-] & Hin) & Hid).
      assert (Hf : id' ∈ filter (fun x => x <> id) ids) by (apply list_elem_of_filter; auto).
      rewrite He in Hf. by apply elem_of_nil in Hf.
    + rewrite lookup_insert_eq, Hx. split.
      * intros (ids' & [= <-] & [? ?]%list_elem_of_filter). naive_solver.
      * intros ((ids' & [= <-] & Hin) & Hid). eexists. split; [done|]. apply list_elem_of_filter. auto.
  - case_bool_decide; [rewrite lookup_delete_ne by done|rewrite lookup_insert_ne by done]; naive_solver.
Qed.

Lemma buckets_remove ix t id : buckets_ok ix -> buckets_ok (index_remove t id ix).
Proof.
  intros Hb t' ids'. unfold index_remove. destruct (ix !! t) as [ids|] eqn:Hx; [|apply Hb].
  case_bool_decide as He.
  - rewrite lookup_delete_Some. intros [_ H]. by apply (Hb t').
  - destruct (decide (t = t')) as [<-|Hne]; [|rewrite lookup_insert_ne by done; apply Hb].
    rewrite lookup_insert_eq. intros [= <-]. split; [|done]. apply NoDup_filter. by apply (Hb t ids).
Qed.

(** ** The invariant *)

Record lease_inv (s : LeaseStore) : Prop := {
  li_ids : forall id l, leases s !! id = Some l -> lease_id l = id /\ id < next_id s;
  li_active : forall id l, leases s !! id = Some l -> status l = Active ->
    filed (expiration_index s) (expires_at l) id /\ l_epoch l = current_epoch s;
  li_filed : forall t id, filed (expiration_index s) t id ->
    exists l, leases s !! id = Some l /\ expires_at l = t /\ status l <> Released;
  li_buckets : buckets_ok (expiration_index s);
  li_next : 0 <= next_id s }.

(** Changing the status of one lease to an inactive one, with its entry kept or
    removed. *)
Lemma inv_deactivate s id l st ix :
  lease_inv s -> leases s !! id = Some l -> st <> Active ->
  (ix = expiration_index s /\ st = Expired /\ status l <> Released \/ ix = index_remove (expires_at l) id (expiration_index s)) ->
  lease_inv (Leases.with_leases s (<[id := set_status l st]> (leases s)) ix).
Proof.
  intros [H1 H2 H3 H4 H5] Hl Hst Hix. split; cbn; [| | | |done].
  - intros id' l'. destruct (decide (id = id')) as [<-|Hne]; [rewrite lookup_insert_eq; intros [= <-]; exact (H1 id l Hl)|].
    rewrite lookup_insert_ne by done. apply H1.
  - intros id' l' Hl' Ha. destruct (decide (id = id')) as [<-|Hne].
    { rewrite lookup_insert_eq in Hl'. injection Hl' as <-. done. }
    rewrite lookup_insert_ne in Hl' by done. destruct (H2 id' l' Hl' Ha) as [Hf He]. split; [|done].
    destruct Hix as [[-> _]| ->]; [done|]. apply filed_remove. split; [done|]. congruence.
  - intros t id' Hf. assert (Hf' : filed (expiration_index s) t id' /\ (id' = id -> ix = expiration_index s)).
    { destruct Hix as [[-> _]| ->]; [done|]. apply filed_remove in Hf as [Hf Hn]. split; [done|]. intros ->.
      destruct (H3 t id Hf) as (l' & Hl' & Ht & _). rewrite Hl in Hl'. injection Hl' as <-. exfalso. by apply Hn. }
    destruct Hf' as [Hf' Hd]. destruct (H3 t id' Hf') as (l' & Hl' & Ht & Hr).
    destruct (decide (id = id')) as [<-|Hne]; [|rewrite lookup_insert_ne by done; eauto].
    rewrite lookup_insert_eq. exists (set_status l st). rewrite Hl in Hl'. injection Hl' as <-. split; [done|].
    split; [done|]. cbn. specialize (Hd eq_refl). destruct Hix as [(_ & -> & _)|Hix]; [done|].
    exfalso. rewrite Hix in Hf. apply filed_remove in Hf as [_ Hn]. by apply Hn.
  - destruct Hix as [[-> _]| ->]; [done|]. by apply buckets_remove.
Qed.

(** Events and counters are no part of the invariant. *)
Lemma inv_events s s' :
  lease_inv s -> current_epoch s' = current_epoch s -> next_id s' = next_id s -> leases s' = leases s ->
  expiration_index s' = expiration_index s -> lease_inv s'.
Proof. intros [H1 H2 H3 H4 H5] He Hn Hl Hi. split; rewrite ?He, ?Hn, ?Hl, ?Hi; done. Qed.

Lemma fresh_id s : lease_inv s -> leases s !! next_id s = None /\ forall t, ~ filed (expiration_index s) t (next_id s).
Proof.
  intros [H1 _ H3 _ _].
  assert (Hfresh : leases s !! next_id s = None).
  { destruct (leases s !! next_id s) as [l|] eqn:Hl; [|done]. apply H1 in Hl. lia. }
  split; [done|]. intros t (l & Hl & _)%H3. congruence.
Qed.

Lemma grant_inv s h ty t ticks trace :
  lease_inv s -> next_id s < u64_max -> lease_inv (Leases.grant s h ty t ticks trace).1.
Proof.
  intros Hinv Hn. unfold Leases.grant. destruct (t =? 0); [done|]. case_bool_decide; [done|].
  destruct (fresh_id s Hinv) as [Hfresh Hnf]. pose proof Hinv as [H1 H2 H3 H4 H5].
  assert (Hw : wrap_u64 (next_id s + 1) = next_id s + 1) by (apply wrap_u64_small; mlia).
  split; cbn; rewrite ?Hw.
  - intros id l. destruct (decide (next_id s = id)) as [<-|Hne].
    + rewrite lookup_insert_eq. intros [= <-]. cbn. lia.
    + rewrite lookup_insert_ne by done. intros Hl. destruct (H1 id l Hl). lia.
  - intros id l. rewrite filed_push. destruct (decide (next_id s = id)) as [<-|Hne].
    + rewrite lookup_insert_eq. intros [= <-] _. auto.
    + rewrite lookup_insert_ne by done. intros Hl Ha. destruct (H2 id l Hl Ha). auto.
  - intros t' id. rewrite filed_push. intros [Hf|[-> ->]].
    + assert (id <> next_id s) by (intros ->; by eapply Hnf). rewrite lookup_insert_ne by done. by apply H3.
    + rewrite lookup_insert_eq. by eexists.
  - apply buckets_push; [done|apply Hnf].
  - lia.
Qed.

Lemma renew_inv s id ticks trace : lease_inv s -> lease_inv (Leases.renew s id ticks trace).1.
Proof.
  intros Hinv. unfold Leases.renew. destruct (leases s !! id) as [l|] eqn:Hl; [|done].
  destruct (status l) eqn:Hs; try done. destruct (expires_at l <=? ticks).
  { apply inv_deactivate with (l := l); [done..|]. left. by rewrite Hs. }
  destruct (Z.eqb_spec (l_epoch l) (current_epoch s)) as [He|]; [|done]. cbn [negb].
  pose proof Hinv as [H1 H2 H3 H4 H5].
  assert (Hnf : forall t, ~ filed (index_remove (expires_at l) id (expiration_index s)) t id).
  { intros t [Hf Hn]%filed_remove. destruct (H3 t id Hf) as (l' & Hl' & <- & _). rewrite Hl in Hl'. injection Hl' as <-.
    by apply Hn. }
  split; cbn.
  - intros id' l'. destruct (decide (id = id')) as [<-|Hne]; [rewrite lookup_insert_eq; intros [= <-]; exact (H1 id l Hl)|].
    rewrite lookup_insert_ne by done. apply H1.
  - intros id' l'. rewrite filed_push, filed_remove. destruct (decide (id = id')) as [<-|Hne].
    + rewrite lookup_insert_eq. intros [= <-] _. auto.
    + rewrite lookup_insert_ne by done. intros Hl' Ha. destruct (H2 id' l' Hl' Ha). split; [left|done].
      split; [done|]. congruence.
  - intros t id'. rewrite filed_push. intros [Hf|[-> ->]].
    + assert (id' <> id) by (intros ->; by eapply Hnf). rewrite lookup_insert_ne by done.
      apply filed_remove in Hf as [Hf _]. by apply H3.
    + rewrite lookup_insert_eq. eexists. split; [done|]. split; [done|]. cbn. by rewrite Hs.
  - apply buckets_push; [by apply buckets_remove|apply Hnf].
  - done.
Qed.

Lemma release_lease_inv s id trace : lease_inv s -> lease_inv (Leases.release s id trace).1.
Proof.
  intros Hinv. unfold Leases.release. destruct (leases s !! id) as [l|] eqn:Hl; [|done]. case_bool_decide; [done|].
  eapply inv_events; [apply (inv_deactivate s id l Released); [done..|by right]|done..].
Qed.

Lemma with_same_leases s id l :
  leases s !! id = Some l -> Leases.with_leases s (<[id := l]> (leases s)) (expiration_index s) = s.
Proof. intros Hl. destruct s. unfold Leases.with_leases. cbn in *. by rewrite insert_id. Qed.

Lemma check_inv s id ticks : lease_inv s -> lease_inv (Leases.check s id ticks).1.
Proof.
  intros Hinv. unfold Leases.check. destruct (leases s !! id) as [l|] eqn:Hl; [|done]. cbn [fst].
  destruct (bool_decide_reflect (status l = Active)) as [Hs|]; cbn [andb]; [|by rewrite with_same_leases].
  destruct (expires_at l <=? ticks); [|by rewrite with_same_leases].
  apply inv_deactivate with (l := l); [done..|]. left. by rewrite Hs.
Qed.

(** ** Scans *)

Definition expire (l : Lease) : Lease := if bool_decide (status l = Active) then set_status l Expired else l.

Lemma expire_loop_spec ids m :
  NoDup ids ->
  let r := Leases.expire_loop ids m in
  (forall id, r.1 !! id = if decide (id ∈ ids) then expire <$> m !! id else m !! id) /\
  sublist r.2.*1 ids /\
  (forall id l, (id, l) ∈ r.2 <-> id ∈ ids /\ m !! id = Some l /\ status l = Active).
Proof.
  intros Hnd. revert m. induction Hnd as [|id ids Hid Hnd IH]; intros m; cbv zeta; cbn [Leases.expire_loop].
  { split; [done|]. split; [constructor|]. set_solver. }
  assert (Hskip : (forall l, m !! id = Some l -> status l <> Active) -> forall r, r = Leases.expire_loop ids m ->
    (forall id', r.1 !! id' = if decide (id' ∈ id :: ids) then expire <$> m !! id' else m !! id') /\
    sublist r.2.*1 (id :: ids) /\
    (forall id' l, (id', l) ∈ r.2 <-> id' ∈ id :: ids /\ m !! id' = Some l /\ status l = Active)).
  { intros Hna r ->. destruct (IH m) as (Hm & Hsub & Hin). split; [|split].
    - intros id'. rewrite Hm. destruct (decide (id' = id)) as [->|Hne].
      + rewrite decide_False, decide_True by set_solver. destruct (m !! id) as [l|] eqn:Hl; [|done]. cbn. unfold expire.
        rewrite bool_decide_eq_false_2; [done|]. by apply Hna.
      + destruct (decide (id' ∈ ids)); [rewrite decide_True by (by right)|
          rewrite decide_False by (intros [?|?]%elem_of_cons; done)]; done.
    - by apply sublist_cons.
    - intros id' l. rewrite Hin. split; [set_solver|]. intros ([->|Hin']%elem_of_cons & Hl & Ha); [by destruct (Hna l Hl)|done]. }
  destruct (m !! id) as [l|] eqn:Hl; [|apply Hskip; done]. case_bool_decide as Ha.
  2: { apply Hskip; [|done]. by intros l' [= <-]. }
  destruct (IH (<[id := set_status l Expired]> m)) as (Hm & Hsub & Hin).
  destruct (Leases.expire_loop ids (<[id := set_status l Expired]> m)) as [m' ls]. cbn [fst snd] in *. split; [|split].
  - intros id'. rewrite Hm. destruct (decide (id' = id)) as [->|Hne].
    + rewrite decide_False, decide_True, lookup_insert_eq, Hl by set_solver. cbn. unfold expire.
      by rewrite bool_decide_eq_true_2.
    + rewrite lookup_insert_ne by done.
      destruct (decide (id' ∈ ids)); [rewrite decide_True by (by right)|
          rewrite decide_False by (intros [?|?]%elem_of_cons; done)]; done.
  - cbn. by apply sublist_skip.
  - intros id' l'. rewrite elem_of_cons, Hin, elem_of_cons. destruct (decide (id' = id)) as [->|Hne].
    + rewrite lookup_insert_eq, Hl. split; [intros [[= ->]|(? & _)]; [by auto|done]|].
      intros (_ & [= <-] & _). by left.
    + rewrite lookup_insert_ne by done. tauto || (split; [intros [[= ->]|H]; tauto|tauto]).
Qed.

(** Buckets one after the other, in key order. *)
Lemma concat_buckets (f : Z -> Z) (l : list (Z * list Z)) :
  NoDup l.*1 -> StronglySorted entry_le l ->
  (forall t ids, (t, ids) ∈ l -> NoDup ids /\ forall id, id ∈ ids -> f id = t) ->
  NoDup (concat l.*2) /\ StronglySorted (fun a b => f a <= f b) (concat l.*2).
Proof.
  induction l as [|[t ids] l IH]; intros Hnd Hs Hb; [by repeat constructor|].
  apply NoDup_cons in Hnd as [Ht Hnd]. apply StronglySorted_inv in Hs as [Hs Hle].
  destruct IH as [IHn IHs]; [done..|intros; apply Hb; by right|].
  destruct (Hb t ids ltac:(left)) as [Hids Hf].
  assert (Hrest : forall id, id ∈ concat l.*2 -> exists t', t' ∈ l.*1 /\ t <= t' /\ f id = t').
  { intros id (ids' & Hin & ([t' ids''] & -> & Hl)%list_elem_of_fmap)%elem_of_concat. cbn in Hin.
    exists t'. destruct (Hb t' ids'' ltac:(by right)) as [_ Hf']. rewrite Forall_forall in Hle.
    split; [apply list_elem_of_fmap; by eexists (t', _)|]. split; [exact (Hle _ Hl)|by apply Hf']. }
  cbn. split.
  - apply NoDup_app. split; [done|]. split; [|done]. intros id Hin (t' & Hk & _ & Hft)%Hrest.
    apply Ht. by rewrite <- (Hf id Hin), Hft.
  - apply StronglySorted_app. split; [|split; [|done]].
    + intros a b Ha (t' & _ & Hle' & ->)%Hrest. by rewrite (Hf a Ha).
    + clear -Hf. induction ids as [|a ids IH]; [constructor|]. constructor.
      * apply IH. intros; apply Hf; by right.
      * apply Forall_forall. intros b Hb. rewrite (Hf a ltac:(left)), (Hf b ltac:(by right)). lia.
Qed.

Definition due_ids (s : LeaseStore) (ticks : Z) : list Z := concat (Leases.due_buckets s ticks).*2.

Lemma elem_of_due_buckets s ticks t ids :
  (t, ids) ∈ Leases.due_buckets s ticks <-> expiration_index s !! t = Some ids /\ t <= ticks.
Proof. unfold Leases.due_buckets. rewrite list_elem_of_filter, elem_of_sorted_entries. cbn. tauto. Qed.

Lemma elem_of_due_ids s ticks id :
  id ∈ due_ids s ticks <-> exists t, filed (expiration_index s) t id /\ t <= ticks.
Proof.
  unfold due_ids. rewrite elem_of_concat. split.
  - intros (ids & Hin & ([t ids'] & -> & Hb)%list_elem_of_fmap). apply elem_of_due_buckets in Hb as [? ?].
    exists t. split; [by exists ids'|done].
  - intros (t & (ids & Hx & Hin) & Hle). exists ids. split; [done|]. apply list_elem_of_fmap. exists (t, ids).
    split; [done|]. by apply elem_of_due_buckets.
Qed.

Definition expiry (s : LeaseStore) (id : Z) : Z := from_option expires_at 0 (leases s !! id).

Lemma due_ids_sorted s ticks :
  lease_inv s -> NoDup (due_ids s ticks) /\ StronglySorted (fun a b => expiry s a <= expiry s b) (due_ids s ticks).
Proof.
  intros [_ _ H3 H4 _]. apply concat_buckets.
  - apply NoDup_fst_filter, NoDup_sorted_keys.
  - apply filter_sorted, sorted_entries_sorted.
  - intros t ids [Hx _]%elem_of_due_buckets. split; [by apply (H4 t)|]. intros id Hin.
    destruct (H3 t id) as (l & Hl & He & _); [by exists ids|]. unfold expiry. by rewrite Hl.
Qed.

Lemma report_keeps_store ty trace e ls s :
  let s' := fold_left (Leases.report ty trace e) ls s in
  current_epoch s' = current_epoch s /\ next_id s' = next_id s /\ leases s' = leases s /\
  expiration_index s' = expiration_index s.
Proof. revert s. induction ls as [|kv ls IH]; intros s; [done|]. exact (IH (Leases.report ty trace e s kv)). Qed.

(** The leases and the index after a scan. *)
Lemma scan_state s ticks trace :
  lease_inv s ->
  let s' := (Leases.scan_expired s ticks trace).1 in
  (forall id, leases s' !! id = (fun l => if expires_at l <=? ticks then expire l else l) <$> leases s !! id) /\
  (forall t, expiration_index s' !! t = if decide (t <= ticks) then None else expiration_index s !! t) /\
  current_epoch s' = current_epoch s /\ next_id s' = next_id s.
Proof.
  intros Hinv. unfold Leases.scan_expired. fold (due_ids s ticks).
  destruct (due_ids_sorted s ticks Hinv) as [Hnd _]. destruct (expire_loop_spec (due_ids s ticks) (leases s) Hnd) as (Hm & _ & _).
  destruct (Leases.expire_loop (due_ids s ticks) (leases s)) as [m ls]. cbn [fst snd] in *.
  match goal with |- context [fold_left (Leases.report ?ty ?tr ?e) ls ?s0] =>
    destruct (report_keeps_store ty tr e ls s0) as (He & Hn & Hl & Hi) end.
  cbv zeta. cbn [fst Leases.with_leases current_epoch next_id leases expiration_index] in *.
  rewrite He, Hn, Hl, Hi. destruct Hinv as [H1 H2 H3 H4 H5]. split; [|split; [|done]].
  - intros id. rewrite Hm. case_decide as Hd.
    + apply elem_of_due_ids in Hd as (t & Hf & Hle). destruct (H3 t id Hf) as (l & -> & <- & _). cbn.
      by replace (expires_at l <=? ticks) with true by lia.
    + destruct (leases s !! id) as [l|] eqn:Hx; [|done]. cbn. destruct (Z.leb_spec (expires_at l) ticks); [|done].
      unfold expire. case_bool_decide as Ha; [|done]. destruct Hd. apply elem_of_due_ids.
      destruct (H2 id l Hx Ha) as [Hf _]. eauto.
  - intros t. rewrite fold_delete_lookup.
    assert (Hk : t ∈ (Leases.due_buckets s ticks).*1 <-> is_Some (expiration_index s !! t) /\ t <= ticks).
    { rewrite list_elem_of_fmap. split.
      - intros ([t' ids] & -> & [? ?]%elem_of_due_buckets). split; [by eexists|done].
      - intros [[ids Hx] Hle]. exists (t, ids). split; [done|]. by apply elem_of_due_buckets. }
    destruct (decide (t ∈ (Leases.due_buckets s ticks).*1)) as [Hin|Hin].
    + apply Hk in Hin as [_ Hle]. by rewrite (decide_True _ _ Hle).
    + case_decide; [|done]. destruct (expiration_index s !! t) eqn:Hx; [|done]. destruct Hin. apply Hk.
      split; [by eexists|done].
Qed.

Lemma scan_inv s ticks trace : lease_inv s -> lease_inv (Leases.scan_expired s ticks trace).1.
Proof.
  intros Hinv. destruct (scan_state s ticks trace Hinv) as (Hl & Hi & He & Hn). destruct Hinv as [H1 H2 H3 H4 H5].
  assert (Hf : forall t id, filed (expiration_index (Leases.scan_expired s ticks trace).1) t id <->
                            filed (expiration_index s) t id /\ ticks < t).
  { intros t id. unfold filed. rewrite Hi. case_decide; split; [naive_solver|naive_solver lia|naive_solver lia|naive_solver]. }
  assert (Hx : forall l, expires_at (if expires_at l <=? ticks then expire l else l) = expires_at l /\
    l_epoch (if expires_at l <=? ticks then expire l else l) = l_epoch l /\
    lease_id (if expires_at l <=? ticks then expire l else l) = lease_id l).
  { intros l. unfold expire. repeat case_match; done. }
  split; rewrite ?Hn, ?He; [| | | |done].
  - intros id l. rewrite Hl. intros (l0 & Hl0 & ->)%fmap_Some. destruct (Hx l0) as (_ & _ & ->). by apply H1.
  - intros id l. rewrite Hl. intros (l0 & Hl0 & ->)%fmap_Some. destruct (Hx l0) as (-> & -> & _).
    destruct (Z.leb_spec (expires_at l0) ticks).
    + unfold expire. case_bool_decide; done.
    + intros Ha. rewrite Hf. destruct (H2 id l0 Hl0 Ha). auto.
  - intros t id [Hf' Ht]%Hf. destruct (H3 t id Hf') as (l & Hl0 & <- & Hr). rewrite Hl, Hl0. cbn.
    replace (expires_at l <=? ticks) with false by lia. eauto.
  - intros t ids. rewrite Hi. case_decide; [done|]. apply H4.
Qed.

(** ** Epochs *)

Lemma rebuild_spec (l : list (Z * Lease)) ix :
  NoDup l.*1 -> buckets_ok ix -> (forall t id, filed ix t id -> id ∉ l.*1) ->
  let ix' := fold_left (fun ix (kv : Z * Lease) => index_push (expires_at kv.2) kv.1 ix) l ix in
  buckets_ok ix' /\ forall t id, filed ix' t id <-> filed ix t id \/ exists x, (id, x) ∈ l /\ expires_at x = t.
Proof.
  revert ix. induction l as [|[id0 x0] l IH]; intros ix Hnd Hb Hf; cbv zeta; cbn [fold_left].
  { split; [done|]. intros. split; [auto|]. intros [?|(? & ?%elem_of_nil & _)]; done. }
  apply NoDup_cons in Hnd as [Hnot Hnd]. cbn [fst snd].
  destruct (IH (index_push (expires_at x0) id0 ix)) as [Hb' Hf']; [done| | |].
  - apply buckets_push; [done|]. intros Hin. apply (Hf _ _ Hin). left.
  - intros t id [Hin|[-> ->]]%filed_push; [|done]. intros Hl. apply (Hf _ _ Hin). by right.
  - split; [done|]. intros t id. rewrite Hf', filed_push. split.
    + intros [[?|[-> ->]]|(x & Hx & <-)]; [by left|right; exists x0; split; [left|done]|right; exists x; split; [by right|done]].
    + intros [?|(x & [[= -> ->]|Hx]%elem_of_cons & <-)]; eauto.
Qed.

Definition invalidate (e : SecurityEpoch) (l : Lease) : Lease := if Leases.stale e l then set_status l Expired else l.

Lemma invalidate_active e l :
  status (invalidate e l) = Active -> invalidate e l = l /\ status l = Active /\ l_epoch l = e.
Proof.
  unfold invalidate, Leases.stale. case_bool_decide as Ha; cbn [andb]; [|done].
  destruct (Z.eqb_spec (l_epoch l) e); done.
Qed.

Lemma epoch_state s e trace :
  let s' := (Leases.advance_epoch s e trace).1 in
  leases s' = invalidate e <$> leases s /\ current_epoch s' = e /\ next_id s' = next_id s /\
  buckets_ok (expiration_index s') /\
  (forall t id, filed (expiration_index s') t id <->
     exists l, leases s' !! id = Some l /\ status l = Active /\ expires_at l = t).
Proof.
  unfold Leases.advance_epoch. cbv zeta. cbn [fst].
  match goal with |- context [fold_left (Leases.report ?ty ?tr ?e) ?ls ?s0] =>
    destruct (report_keeps_store ty tr e ls s0) as (He & Hn & Hl & Hi) end.
  cbn [leases current_epoch next_id expiration_index]. rewrite Hl, Hn. cbn [Leases.with_leases leases next_id].
  split; [done|]. split; [done|]. split; [done|]. fold (invalidate e). set (m := invalidate e <$> leases s).
  destruct (rebuild_spec (filter active (sorted_entries m)) ∅) as [Hb Hf].
  - apply NoDup_fst_filter, NoDup_sorted_keys.
  - done.
  - by intros t id (? & ? & _).
  - split; [exact Hb|]. intros t id. rewrite Hf. split.
    + intros [(? & ? & _)|(l & [Ha Hin]%list_elem_of_filter & <-)]; [done|]. apply elem_of_sorted_entries in Hin. eauto.
    + intros (l & Hin & Ha & <-). right. exists l. split; [|done]. apply list_elem_of_filter. split; [done|].
      by apply elem_of_sorted_entries.
Qed.

Lemma epoch_inv s e trace : lease_inv s -> lease_inv (Leases.advance_epoch s e trace).1.
Proof.
  intros [H1 H2 H3 H4 H5]. destruct (epoch_state s e trace) as (Hl & He & Hn & Hb & Hf).
  split; rewrite ?Hl, ?He, ?Hn; [| | |done|done].
  - intros id l. rewrite lookup_fmap. intros (l0 & Hl0 & ->)%fmap_Some.
    replace (lease_id (invalidate e l0)) with (lease_id l0); [by apply H1|]. unfold invalidate. by case_match.
  - intros id l Hl0 Ha. split; [apply Hf; rewrite Hl; eauto|]. rewrite lookup_fmap in Hl0.
    apply fmap_Some in Hl0 as (l0 & _ & ->). destruct (invalidate_active e l0 Ha) as (-> & _ & ->). done.
  - intros t id (l & Hl0 & Ha & Ht)%Hf. rewrite Hl in Hl0. exists l. split; [done|]. split; [done|]. by rewrite Ha.
Qed.

(** ** Runs *)

(** A store with the events drained so far. *)
Record World := mkWorld { w_store : LeaseStore; drained : list LeaseEvent }.

Definition history (w : World) : list LeaseEvent := drained w ++ events (w_store w).

Inductive lease_step (w : World) : World -> Prop :=
  | step_grant h ty t ticks trace :
      next_id (w_store w) < u64_max ->
      lease_step w (mkWorld (Leases.grant (w_store w) h ty t ticks trace).1 (drained w))
  | step_renew id ticks trace : lease_step w (mkWorld (Leases.renew (w_store w) id ticks trace).1 (drained w))
  | step_release id trace : lease_step w (mkWorld (Leases.release (w_store w) id trace).1 (drained w))
  | step_check id ticks : lease_step w (mkWorld (Leases.check (w_store w) id ticks).1 (drained w))
  | step_scan ticks trace : lease_step w (mkWorld (Leases.scan_expired (w_store w) ticks trace).1 (drained w))
  | step_epoch e trace : lease_step w (mkWorld (Leases.advance_epoch (w_store w) e trace).1 (drained w))
  | step_drain : lease_step w (mkWorld (Leases.drain_events (w_store w)).1 (drained w ++ (Leases.drain_events (w_store w)).2)).

Lemma step_inv w w' : lease_inv (w_store w) -> lease_step w w' -> lease_inv (w_store w').
Proof.
  intros Hinv []; cbn [w_store].
  - by apply grant_inv. - by apply renew_inv. - by apply release_lease_inv. - by apply check_inv.
  - by apply scan_inv. - by apply epoch_inv. - by eapply inv_events.
Qed.

Lemma lease_run_inv e w : rtc lease_step (mkWorld (Leases.new e) []) w -> lease_inv (w_store w).
Proof.
  intros Hr. apply (rtc_preserves _ (fun w => lease_inv (w_store w)) step_inv _ _ Hr).
  split; cbn; try done; by intros t id (? & ? & _).
Qed.

Definition expiry_event (ty trace : string) (e : SecurityEpoch) (kv : Z * Lease) : LeaseEvent :=
  mkLeaseEvent kv.1 (holder kv.2) e (ttl kv.2) "expired" (action_text (escalation_action kv.2)) trace ty
    (renewal_count kv.2).

Lemma report_events ty trace e ls s :
  events (fold_left (Leases.report ty trace e) ls s) = events s ++ (expiry_event ty trace e <$> ls).
Proof.
  revert s. induction ls as [|kv ls IH]; intros s; cbn [fold_left fmap list_fmap]; [by rewrite app_nil_r|].
  rewrite IH. by rewrite (cons_middle (expiry_event ty trace e kv)), app_assoc.
Qed.

Lemma sublist_sorted {A} (R : relation A) (l k : list A) : sublist l k -> StronglySorted R k -> StronglySorted R l.
Proof.
  induction 1 as [|x l k Hs IH|x l k Hs IH]; [done| |]; intros [Hk Hx]%StronglySorted_inv; [|by apply IH].
  constructor; [by apply IH|]. rewrite Forall_forall in Hx |- *. intros y Hy. apply Hx. by eapply elem_of_submseteq, sublist_submseteq.
Qed.

Lemma fmap_omap {A B C} (f : B -> C) (g : A -> option B) (ls : list (A * B)) :
  (forall a b, (a, b) ∈ ls -> g a = Some b) -> ((fun kv => f kv.2) <$> ls) = omap (fun a => f <$> g a) ls.*1.
Proof.
  induction ls as [|[a b] ls IH]; intros H; [done|]. cbn. rewrite (H a b ltac:(left)). cbn. f_equal.
  apply IH. intros a' b' Hin. apply H. by right.
Qed.

(** The leases that a scan finds. *)
Lemma scan_hits s ticks trace :
  lease_inv s ->
  exists ls, (Leases.scan_expired s ticks trace).2 = (fun kv => escalation_action kv.2) <$> ls /\
    NoDup ls.*1 /\ StronglySorted (fun a b => expiry s a <= expiry s b) ls.*1 /\
    (forall id l, (id, l) ∈ ls <-> leases s !! id = Some l /\ status l = Active /\ expires_at l <= ticks) /\
    events (Leases.scan_expired s ticks trace).1 = events s ++ (expiry_event "expiration" trace (current_epoch s) <$> ls).
Proof.
  intros Hinv. unfold Leases.scan_expired. fold (due_ids s ticks).
  destruct (due_ids_sorted s ticks Hinv) as [Hnd Hs].
  destruct (expire_loop_spec (due_ids s ticks) (leases s) Hnd) as (_ & Hsub & Hin).
  destruct (Leases.expire_loop (due_ids s ticks) (leases s)) as [m ls]. cbn [fst snd] in *. exists ls.
  split; [done|]. split; [by eapply sublist_NoDup|]. split; [by eapply sublist_sorted|]. split.
  - intros id l. rewrite Hin, elem_of_due_ids. destruct Hinv as [_ H2 H3 _ _]. split.
    + intros ((t & Hf & Hle) & Hl & Ha). destruct (H3 t id Hf) as (l' & Hl' & <- & _). rewrite Hl in Hl'.
      injection Hl' as <-. done.
    + intros (Hl & Ha & Hle). destruct (H2 id l Hl Ha). eauto.
  - cbn [Leases.with_leases events]. by rewrite report_events.
Qed.

(** C26. In every reachable store a scan escalates exactly the active leases whose time
    has come, each once and in order of expiration, with the action of its type. It marks
    them expired and leaves all other leases as they are, removes from the index exactly
    the entries up to the current tick, and a second scan finds nothing. *)
Theorem lease_scan_exact (e : SecurityEpoch) (w : World) (ticks : Z) (trace : string) :
  rtc lease_step (mkWorld (Leases.new e) []) w ->
  let s := w_store w in
  let s' := (Leases.scan_expired s ticks trace).1 in
  exists ids,
    (Leases.scan_expired s ticks trace).2 = omap (fun id => escalation_action <$> leases s !! id) ids /\
    NoDup ids /\ StronglySorted (fun a b => expiry s a <= expiry s b) ids /\
    (forall id, id ∈ ids <-> exists l, leases s !! id = Some l /\ status l = Active /\ expires_at l <= ticks) /\
    (forall id l, leases s !! id = Some l ->
       leases s' !! id = Some (if bool_decide (id ∈ ids) then set_status l Expired else l)) /\
    (forall t id, filed (expiration_index s') t id <-> filed (expiration_index s) t id /\ ticks < t) /\
    (Leases.scan_expired s' ticks trace).2 = [].
Proof.
  intros Hr. cbv zeta. pose proof (lease_run_inv e w Hr) as Hinv. set (s := w_store w) in *.
  destruct (scan_hits s ticks trace Hinv) as (ls & Ha & Hnd & Hs & Hin & _).
  destruct (scan_state s ticks trace Hinv) as (Hl & Hi & _ & _). exists ls.*1.
  assert (Hids : forall id, id ∈ ls.*1 <-> exists l, leases s !! id = Some l /\ status l = Active /\ expires_at l <= ticks).
  { intros id. rewrite list_elem_of_fmap. split; [intros ([id' l] & -> & H%Hin); eauto|].
    intros (l & H). exists (id, l). split; [done|]. by apply Hin. }
  split; [|split; [done|split; [done|split; [done|split; [|split]]]]].
  - rewrite Ha. apply fmap_omap. intros id l Hx. by apply Hin in Hx as [-> _].
  - intros id l Hx. rewrite Hl, Hx. cbn. f_equal. unfold expire. case_bool_decide as Hd.
    + rewrite (bool_decide_ext _ (expires_at l <= ticks)); [|rewrite Hids; naive_solver].
      destruct (Z.leb_spec (expires_at l) ticks); case_bool_decide; done || lia.
    + rewrite bool_decide_eq_false_2; [by case_match|]. rewrite Hids. naive_solver.
  - intros t id. unfold filed. rewrite Hi. case_decide; split; [naive_solver|naive_solver lia|naive_solver lia|naive_solver].
  - destruct (scan_hits _ ticks trace (scan_inv s ticks trace Hinv)) as ([|[id l] ls'] & -> & _ & _ & Hin' & _); [done|].
    destruct (proj1 (Hin' id l) ltac:(left)) as (Hx & Hact & Hle). rewrite Hl in Hx.
    apply fmap_Some in Hx as (l0 & _ & ->). destruct (Z.leb_spec (expires_at l0) ticks) as [Hle'|Hgt]; [|lia].
    unfold expire in Hact. by case_bool_decide.
Qed.

(** ** Life cycles *)

(** The kinds of the events of one lease, in order. *)
Definition kinds (log : list LeaseEvent) (id : Z) : list string :=
  le_event <$> filter (fun e => le_lease_id e = id) log.

(** A lease is granted, renewed any number of times, expires at most once, with
    or without an escalation, and is released at most once, at the end. *)
Inductive life : LeaseStatus -> list string -> Prop :=
  | life_active n : life Active ("grant" :: replicate n "renew")
  | life_silent k : life Active k -> life Expired k
  | life_escalated k ev : life Active k -> ev ∈ ["expiration"; "epoch_invalidation"] -> life Expired (k ++ [ev])
  | life_released st k : life st k -> st <> Released -> life Released (k ++ ["release"]).

Definition life_of (s : LeaseStore) (log : list LeaseEvent) (id : Z) : Prop :=
  match leases s !! id with Some l => life (status l) (kinds log id) | None => kinds log id = [] end.

Lemma kinds_app a b id : kinds (a ++ b) id = kinds a id ++ kinds b id.
Proof. unfold kinds. by rewrite filter_app, fmap_app. Qed.

Lemma kinds_one e id : kinds [e] id = if decide (le_lease_id e = id) then [le_event e] else [].
Proof. unfold kinds. rewrite filter_cons. by case_decide. Qed.

Lemma kinds_hits ty trace e (ls : list (Z * Lease)) id :
  NoDup ls.*1 -> kinds (expiry_event ty trace e <$> ls) id = if decide (id ∈ ls.*1) then [ty] else [].
Proof.
  induction ls as [|[id0 l] ls IH]; intros Hnd; [done|]. apply NoDup_cons in Hnd as [Hn Hnd].
  change (expiry_event ty trace e <$> (id0, l) :: ls) with ([expiry_event ty trace e (id0, l)] ++ (expiry_event ty trace e <$> ls)).
  rewrite kinds_app, kinds_one, IH by done. cbn [expiry_event le_lease_id le_event fst].
  destruct (decide (id0 = id)) as [->|Hne].
  - rewrite decide_False by done. rewrite decide_True by left. done.
  - destruct (decide (id ∈ ls.*1)); [rewrite decide_True by (by right)|rewrite decide_False by (by intros [?|?]%elem_of_cons)]; done.
Qed.

Lemma life_renew k : life Active k -> life Active (k ++ ["renew"]).
Proof.
  inversion 1 as [n| | |]; subst. rewrite <- app_comm_cons, <- replicate_cons_app. apply (life_active (S n)).
Qed.

(** One lease and its events change together; the others stay. *)
Lemma life_put s log id l' evs s' :
  (forall id, life_of s log id) -> leases s' = <[id := l']> (leases s) ->
  Forall (fun e => le_lease_id e = id) evs -> life (status l') (kinds log id ++ (le_event <$> evs)) ->
  forall id', life_of s' (log ++ evs) id'.
Proof.
  intros Hlife Hl Hev Hnew id'. unfold life_of. rewrite Hl, kinds_app. destruct (decide (id = id')) as [<-|Hne].
  - rewrite lookup_insert_eq. unfold kinds at 2. rewrite filter_all; [done|]. rewrite Forall_forall in Hev. auto.
  - rewrite lookup_insert_ne by done. unfold kinds at 2 4. rewrite filter_none.
    + cbn. rewrite !app_nil_r. apply Hlife.
    + rewrite Forall_forall in Hev. intros e He Hx. apply Hne. by rewrite <- (Hev e He).
Qed.

(** A scan or an epoch change: the leases that are hit expire with one event. *)
Lemma life_hits s log s' ty trace e (ls : list (Z * Lease)) :
  (forall id, life_of s log id) -> NoDup ls.*1 -> ty ∈ ["expiration"; "epoch_invalidation"] ->
  (forall id, leases s !! id = None -> leases s' !! id = None /\ id ∉ ls.*1) ->
  (forall id l, leases s !! id = Some l -> exists l', leases s' !! id = Some l' /\
     (id ∈ ls.*1 /\ status l = Active /\ status l' = Expired \/ id ∉ ls.*1 /\ status l' = status l)) ->
  forall id, life_of s' (log ++ (expiry_event ty trace e <$> ls)) id.
Proof.
  intros Hlife Hnd Hty Hnone Hsome id. specialize (Hlife id). unfold life_of in *. rewrite kinds_app, kinds_hits by done.
  destruct (leases s !! id) as [l|] eqn:Hl.
  - destruct (Hsome id l Hl) as (l' & -> & [(Hin & Ha & ->)|(Hin & ->)]).
    + rewrite decide_True by done. rewrite Ha in Hlife. by apply life_escalated.
    + by rewrite decide_False, app_nil_r.
  - destruct (Hnone id Hl) as [-> Hin]. by rewrite decide_False, Hlife.
Qed.

Lemma grant_life s h ty t ticks trace log :
  lease_inv s -> (forall id, life_of s (log ++ events s) id) ->
  forall id, life_of (Leases.grant s h ty t ticks trace).1 (log ++ events (Leases.grant s h ty t ticks trace).1) id.
Proof.
  intros Hinv Hlife. unfold Leases.grant. destruct (t =? 0); [done|]. case_bool_decide; [done|].
  destruct (fresh_id s Hinv) as [Hf _]. pose proof (Hlife (next_id s)) as Hk. unfold life_of in Hk. rewrite Hf in Hk.
  cbn [fst Leases.record_count Leases.with_leases Leases.emit_event events]. rewrite app_assoc.
  eapply (life_put s); [exact Hlife|done|by apply Forall_singleton|]. rewrite Hk. exact (life_active 0).
Qed.

Lemma renew_life s id ticks trace log :
  (forall id, life_of s (log ++ events s) id) ->
  forall id', life_of (Leases.renew s id ticks trace).1 (log ++ events (Leases.renew s id ticks trace).1) id'.
Proof.
  intros Hlife. unfold Leases.renew. destruct (leases s !! id) as [l|] eqn:Hl; [|done].
  pose proof (Hlife id) as Hk. unfold life_of in Hk. rewrite Hl in Hk.
  destruct (status l) eqn:Hs; try done. destruct (expires_at l <=? ticks).
  - cbn [fst Leases.with_leases events]. rewrite <- (app_nil_r (log ++ events s)).
    eapply (life_put s); [exact Hlife|done|by constructor|]. rewrite app_nil_r. by apply life_silent.
  - destruct (negb _); [done|]. cbn [fst Leases.record_count Leases.with_leases Leases.emit_event events].
    rewrite app_assoc. eapply (life_put s); [exact Hlife|done|by apply Forall_singleton|].
    cbn. rewrite Hs. by apply life_renew.
Qed.

Lemma release_life s id trace log :
  (forall id, life_of s (log ++ events s) id) ->
  forall id', life_of (Leases.release s id trace).1 (log ++ events (Leases.release s id trace).1) id'.
Proof.
  intros Hlife. unfold Leases.release. destruct (leases s !! id) as [l|] eqn:Hl; [|done].
  pose proof (Hlife id) as Hk. unfold life_of in Hk. rewrite Hl in Hk. case_bool_decide; [done|].
  cbn [fst Leases.record_count Leases.with_leases Leases.emit_event events]. rewrite app_assoc.
  eapply (life_put s); [exact Hlife|done|by apply Forall_singleton|]. by apply (life_released (status l)).
Qed.

Lemma check_life s id ticks log :
  (forall id, life_of s (log ++ events s) id) ->
  forall id', life_of (Leases.check s id ticks).1 (log ++ events (Leases.check s id ticks).1) id'.
Proof.
  intros Hlife. unfold Leases.check. destruct (leases s !! id) as [l|] eqn:Hl; [|done].
  pose proof (Hlife id) as Hk. unfold life_of in Hk. rewrite Hl in Hk.
  cbn [fst Leases.with_leases events]. rewrite <- (app_nil_r (log ++ events s)).
  eapply (life_put s); [exact Hlife|done|by constructor|]. rewrite app_nil_r. case_bool_decide as Ha; [|done].
  cbn [andb]. destruct (expires_at l <=? ticks); [|done]. apply life_silent. by rewrite <- Ha.
Qed.

Lemma scan_life s ticks trace log :
  lease_inv s -> (forall id, life_of s (log ++ events s) id) ->
  forall id, life_of (Leases.scan_expired s ticks trace).1 (log ++ events (Leases.scan_expired s ticks trace).1) id.
Proof.
  intros Hinv Hlife. destruct (scan_hits s ticks trace Hinv) as (ls & _ & Hnd & _ & Hin & ->).
  destruct (scan_state s ticks trace Hinv) as (Hl & _). rewrite app_assoc.
  assert (Hids : forall id l, leases s !! id = Some l -> id ∈ ls.*1 -> status l = Active /\ expires_at l <= ticks).
  { intros id l Hx ([id' l'] & -> & Hi)%list_elem_of_fmap. apply Hin in Hi as (Hx' & ? & ?). cbn in *. naive_solver. }
  eapply (life_hits s); [exact Hlife|done|set_solver| |].
  - intros id Hx. rewrite Hl, Hx. split; [done|]. intros ([id' l'] & -> & Hi)%list_elem_of_fmap.
    apply Hin in Hi as (Hx' & _). cbn in *. congruence.
  - intros id l Hx. rewrite Hl, Hx. cbn. eexists. split; [done|].
    destruct (decide (id ∈ ls.*1)) as [Hi|Hi]; [left|right]; (split; [done|]).
    + destruct (Hids id l Hx Hi) as [Ha Hle]. split; [done|]. replace (expires_at l <=? ticks) with true by lia.
      unfold expire. by rewrite bool_decide_eq_true_2.
    + destruct (Z.leb_spec (expires_at l) ticks); [|done]. unfold expire. case_bool_decide; [|done].
      destruct Hi. apply list_elem_of_fmap. exists (id, l). split; [done|]. by apply Hin.
Qed.

(** The pairs that an epoch change reports are entries of the map. *)
Lemma epoch_hits s e :
  lease_inv s ->
  (fun l => (lease_id l, l)) <$> filter (fun l => Leases.stale e l = true) (sorted_values (leases s)) =
  filter (fun kv : Z * Lease => Leases.stale e kv.2 = true) (sorted_entries (leases s)).
Proof.
  intros [H1 _ _ _ _]. unfold sorted_values.
  assert (Hk : forall id l, (id, l) ∈ sorted_entries (leases s) -> lease_id l = id)
    by (intros id l Hin%elem_of_sorted_entries; by apply H1).
  induction (sorted_entries (leases s)) as [|[id l] es IH]; [done|]. cbn [fmap list_fmap snd].
  rewrite !filter_cons. cbn [snd]. fold (snd <$> es). case_decide; [|apply IH; intros; apply Hk; by right].
  cbn [fmap list_fmap]. rewrite (Hk id l ltac:(left)). f_equal. apply IH. intros. apply Hk. by right.
Qed.

Lemma epoch_life s e trace log :
  lease_inv s -> (forall id, life_of s (log ++ events s) id) ->
  forall id, life_of (Leases.advance_epoch s e trace).1 (log ++ events (Leases.advance_epoch s e trace).1) id.
Proof.
  intros Hinv Hlife. destruct (epoch_state s e trace) as (Hl & _).
  set (ls := filter (fun kv : Z * Lease => Leases.stale e kv.2 = true) (sorted_entries (leases s))).
  assert (He : events (Leases.advance_epoch s e trace).1 = events s ++ (expiry_event "epoch_invalidation" trace e <$> ls)).
  { unfold Leases.advance_epoch. cbn [fst events]. by rewrite report_events, epoch_hits. }
  assert (Hin : forall id, id ∈ ls.*1 <-> exists l, leases s !! id = Some l /\ Leases.stale e l = true).
  { intros id. rewrite list_elem_of_fmap. split.
    - intros ([id' l] & -> & [? Hi%elem_of_sorted_entries]%list_elem_of_filter). eauto.
    - intros (l & Hx & Hst). exists (id, l). split; [done|]. apply list_elem_of_filter. split; [done|].
      by apply elem_of_sorted_entries. }
  rewrite He, app_assoc. eapply (life_hits s); [exact Hlife| |set_solver| |].
  - apply NoDup_fst_filter, NoDup_sorted_keys.
  - intros id Hx. rewrite Hl, lookup_fmap, Hx, Hin. split; [done|]. naive_solver.
  - intros id l Hx. rewrite Hl, lookup_fmap, Hx. cbn. eexists. split; [done|]. rewrite Hin. unfold invalidate.
    destruct (Leases.stale e l) eqn:Hst; [left|right; split; [intros (l0 & Hx' & ?); congruence|done]].
    split; [eauto|]. split; [|done].
    apply andb_prop in Hst as [Ha _]. by apply bool_decide_eq_true in Ha.
Qed.

Lemma step_life w w' :
  lease_inv (w_store w) /\ (forall id, life_of (w_store w) (history w) id) -> lease_step w w' ->
  lease_inv (w_store w') /\ (forall id, life_of (w_store w') (history w') id).
Proof.
  intros [Hinv Hlife] Hstep. split; [by eapply step_inv|]. unfold history in *. destruct Hstep; cbn [w_store drained].
  - by apply grant_life. - by apply renew_life. - by apply release_life. - by apply check_life.
  - by apply scan_life. - by apply epoch_life. - intros id. cbn. rewrite app_nil_r. apply Hlife.
Qed.

(** The events recorded for a lease follow its life: granted, renewed any number of
    times, then at most once expired or invalidated and possibly released.  An active
    lease is of the current epoch and filed under its expiration tick. *)
Theorem lease_lifecycle (e : SecurityEpoch) (w : World) :
  rtc lease_step (mkWorld (Leases.new e) []) w ->
  forall id,
    match leases (w_store w) !! id with
    | Some l => life (status l) (kinds (history w) id) /\
                (status l = Active -> l_epoch l = current_epoch (w_store w) /\
                   filed (expiration_index (w_store w)) (expires_at l) id)
    | None => kinds (history w) id = []
    end /\
    (length (filter (fun k => k ∈ ["expiration"; "epoch_invalidation"]) (kinds (history w) id)) <= 1)%nat.
Proof.
  intros Hr id. assert (H : lease_inv (w_store w) /\ forall id, life_of (w_store w) (history w) id).
  { apply (rtc_preserves _ (fun w => lease_inv (w_store w) /\ forall id, life_of (w_store w) (history w) id) step_life _ _ Hr).
    split; [|done]. split; cbn; try done; by intros t id' (? & ? & _). }
  destruct H as [Hinv Hlife]. specialize (Hlife id). unfold life_of in Hlife.
  destruct (leases (w_store w) !! id) as [l|] eqn:Hl; [|rewrite Hlife; split; [done|cbn; lia]].
  split; [split; [done|]; intros Ha; by destruct (li_active _ Hinv id l Hl Ha)|].
  assert (Hz : forall k, life Active k -> filter (fun k => k ∈ ["expiration"; "epoch_invalidation"]) k = []).
  { inversion 1 as [n| | |]; subst. cbn. apply filter_none. intros x [-> _]%elem_of_replicate. set_solver. }
  assert (H1 : forall st k, life st k -> (length (filter (fun k => k ∈ ["expiration"; "epoch_invalidation"]) k) <= 1)%nat).
  { induction 1 as [n|k Hk|k ev Hk Hev|st k Hk IH].
    - rewrite (Hz _ (life_active n)). cbn. lia.
    - rewrite (Hz _ Hk). cbn. lia.
    - rewrite filter_app, (Hz _ Hk), filter_cons. case_decide; cbn; lia.
    - rewrite filter_app, length_app, filter_cons_False by set_solver. cbn. lia. }
  by eapply H1.
Qed.

(** ** Examples *)

Definition granted : LeaseStore :=
  (Leases.grant (Leases.grant (Leases.new 1) "peer" RemoteEndpoint 10 0 "t").1 "op" Operation 5 2 "t").1.
Definition lease_world : World := mkWorld granted [].

Lemma lease_world_run : rtc lease_step (mkWorld (Leases.new 1) []) lease_world.
Proof.
  eapply rtc_l; [by apply (step_grant _ "peer" RemoteEndpoint 10 0 "t")|].
  eapply rtc_l; [by apply (step_grant _ "op" Operation 5 2 "t")|]. apply rtc_refl.
Qed.

(** Both leases have expired at tick 12; the shorter one comes first. *)
Lemma lease_scan_exact_witness :
  (Leases.scan_expired granted 12 "t").2 = [CancelOperation "op"; MarkEndpointUnreachable "peer"] /\
  (Leases.scan_expired (Leases.scan_expired granted 12 "t").1 12 "t").2 = [].
Proof.
  destruct (lease_scan_exact 1 lease_world 12 "t" lease_world_run) as (ids & _ & _ & _ & _ & _ & _ & H).
  split; [vm_compute; reflexivity|exact H].
Defined.

Lemma lease_lifecycle_witness : life Active ["grant"] /\ l_epoch (default (mkLease 0 "" Session 0 0 0 0 0 Active) (leases granted !! 2)) = 1.
Proof.
  destruct (lease_lifecycle 1 lease_world lease_world_run 2) as [H _].
  destruct (leases (w_store lease_world) !! 2) as [l|] eqn:Hl; [|vm_compute in Hl; discriminate Hl].
  destruct H as [H He]. vm_compute in Hl. injection Hl as <-. split; [exact H|]. exact (proj1 (He eq_refl)).
Defined.

(** A lease whose expiration is first noticed by [check] (or by a late [renew])
    is never escalated: the scan that follows skips it. *)
Theorem check_swallows_escalation (e : SecurityEpoch) (w : World) (id ticks ticks' : Z) (trace : string) (l : Lease) :
  rtc lease_step (mkWorld (Leases.new e) []) w ->
  leases (w_store w) !! id = Some l -> status l = Active -> expires_at l <= ticks ->
  let s := (Leases.check (w_store w) id ticks).1 in
  (status <$> leases s !! id) = Some Expired /\
  kinds (events (Leases.scan_expired s ticks' trace).1) id = kinds (events (w_store w)) id.
Proof.
  intros Hr Hl Ha Hle. cbv zeta. pose proof (lease_run_inv e w Hr) as Hinv.
  assert (Hc : leases (Leases.check (w_store w) id ticks).1 !! id = Some (set_status l Expired) /\
    events (Leases.check (w_store w) id ticks).1 = events (w_store w)).
  { unfold Leases.check. rewrite Hl, Ha. replace (expires_at l <=? ticks) with true by lia. cbn.
    by rewrite lookup_insert_eq. }
  destruct Hc as [Hs He]. rewrite Hs. split; [done|].
  destruct (scan_hits _ ticks' trace (check_inv (w_store w) id ticks Hinv)) as (ls & _ & Hnd & _ & Hin & ->).
  rewrite kinds_app, kinds_hits, decide_False, app_nil_r, He; [done| |done].
  intros ([id' l'] & Hid & Hi)%list_elem_of_fmap. cbn in Hid. subst id'. apply Hin in Hi as (Hl' & Ha' & _).
  rewrite Hs in Hl'. injection Hl' as <-. done.
Qed.

Lemma check_swallows_escalation_witness :
  let s := (Leases.check granted 1 20).1 in
  (status <$> leases s !! 1) = Some Expired /\ (Leases.scan_expired s 20 "t").2 = [CancelOperation "op"].
Proof.
  destruct (leases granted !! 1) as [l|] eqn:Hl; [|vm_compute in Hl; discriminate Hl].
  destruct (check_swallows_escalation 1 lease_world 1 20 20 "t" l lease_world_run Hl) as [H _].
  - vm_compute in Hl. by injection Hl as <-.
  - vm_compute in Hl. injection Hl as <-. by vm_compute.
  - split; [exact H|vm_compute; reflexivity].
Defined.

(** The epoch of a lease store can move back. *)
Lemma lease_epoch_regresses : current_epoch (Leases.advance_epoch granted 0 "t").1 = 0.
Proof. reflexivity. Qed.
