(* ===== verification/ExecutionCell.v ===== *)
(** * Execution cells (crates/franken-engine/src/execution_cell.rs)

    A cell wraps a region (RegionLifecycle.v), gates effects by the budget of a
    context and closes in phases; the manager holds cells by id and the host
    binding ties them to extensions and sessions.  The context is the trait
    [ContextAdapter] of control_plane/mod.rs, here a class, with the mock of that
    file (which does not panic on overspending) as an instance; the [Debug] text of
    a string is a parameter.  The proofs
    are in CellCorrect.v. *)
From stdpp Require Import base numbers list strings gmap sorting.
From S2P Require Import Prelude Bytes Text RegionLifecycle.
Open Scope string_scope.
Open Scope list_scope.
Open Scope Z_scope.

Inductive CellKind := Extension | SessionCell | Delegate.

Definition kind_name (k : CellKind) : string :=
  match k with Extension => "extension" | SessionCell => "session" | Delegate => "delegate" end.

Inductive CellError :=
  | InvalidState (cell_id : string) (current : RegionState) (attempted : string)
  | CellBudgetExhausted (cell_id : string) (requested_ms remaining_ms : Z)
  | CxThreading (cell_id error_code message : string)
  | CellNotFound (cell_id : string)
  | SessionRejected (parent_cell_id reason : string)
  | ObligationNotFound (cell_id obligation_id : string).

(** [#[derive(Debug)]] of [RegionState]. *)
Definition state_debug (s : RegionState) : string :=
  match s with
  | Running => "Running"
  | CancelRequested => "CancelRequested"
  | RDraining => "Draining"
  | RFinalizing => "Finalizing"
  | Closed => "Closed"
  end.

(** *** Contexts *)

Inductive ControlPlaneAdapterError :=
  | AdapterBudgetExhausted (requested_ms : Z)
  | DecisionGateway (code : string)
  | EvidenceEmission (code : string).

(** [budget] is used for its [remaining_ms()] only, [trace_id] for its text. *)
Class ContextAdapter (C : Type) := {
  cx_trace_id : C -> string;
  cx_remaining_ms : C -> Z;
  consume_budget : C -> Z -> C * result ControlPlaneAdapterError unit }.

Record MockCx := mkMock { mock_trace : string; mock_remaining : Z; mock_consumed : Z }.

#[export] Instance mock_context : ContextAdapter MockCx := {|
  cx_trace_id := mock_trace;
  cx_remaining_ms := mock_remaining;
  consume_budget cx n :=
    if mock_remaining cx <? n then (cx, Err (AdapterBudgetExhausted n))
    else (mkMock (mock_trace cx) (mock_remaining cx - n) (wrap_u64 (mock_consumed cx + n)), Ok tt) |}.

(** Of cx_threading.rs: the categories of effects and their costs. *)
Inductive EffectCategory := Hostcall | PolicyCheck | LifecycleTransition | TelemetryEmit.

Definition budget_cost_ms (c : EffectCategory) : Z :=
  match c with Hostcall => 1 | PolicyCheck => 2 | LifecycleTransition => 3 | TelemetryEmit => 1 end.

Record CxThreadedEvent := mkCxEvent {
  xe_trace : string;
  xe_category : EffectCategory;
  xe_component : string;
  xe_operation : string;
  xe_outcome : string;
  xe_consumed : Z;
  xe_remaining : Z;
  xe_error : option string }.

(** *** Cells *)

Record CellEvent := mkCellEvent {
  ce_trace : string;
  ce_cell_id : string;
  ce_kind : CellKind;
  ce_decision : string;
  ce_policy : string;
  ce_event : string;
  ce_component : string;
  ce_outcome : string;
  ce_error : option string;
  ce_state : RegionState;
  ce_budget : Z }.

Definition CELL_TRANSITION_BUDGET_MS : Z := 2.

Record ExecutionCell := mkCell {
  cell_id : string;
  kind : CellKind;
  c_trace : string;
  decision_id : string;
  policy_id : string;
  region : Region;
  total_budget : Z;
  c_events : list CellEvent;
  effect_log : list CxThreadedEvent;
  sequence_counter : Z }.

Definition set_region (c : ExecutionCell) (r : Region) : ExecutionCell :=
  mkCell (cell_id c) (kind c) (c_trace c) (decision_id c) (policy_id c) r (total_budget c) (c_events c)
    (effect_log c) (sequence_counter c).
Definition set_total (c : ExecutionCell) (n : Z) : ExecutionCell :=
  mkCell (cell_id c) (kind c) (c_trace c) (decision_id c) (policy_id c) (region c) n (c_events c)
    (effect_log c) (sequence_counter c).
Definition log_effect (c : ExecutionCell) (e : CxThreadedEvent) (seq : Z) : ExecutionCell :=
  mkCell (cell_id c) (kind c) (c_trace c) (decision_id c) (policy_id c) (region c) (total_budget c) (c_events c)
    (effect_log c ++ [e]) seq.

Module Cell.
Definition with_context (id : string) (k : CellKind) (trace decision policy : string) : ExecutionCell :=
  mkCell id k trace decision policy (RegionLifecycle.new id (kind_name k) trace) 0 [] [] 0.

Definition new (id : string) (k : CellKind) (trace : string) : ExecutionCell := with_context id k trace "" "".

Definition state (c : ExecutionCell) : RegionState := rstate (region c).
Definition pending_obligations (c : ExecutionCell) : Z := RegionLifecycle.pending_obligations (region c).
Definition session_count (c : ExecutionCell) : Z := zlen (children (region c)).

Definition emit_event (c : ExecutionCell) (event outcome : string) (budget : Z) : ExecutionCell :=
  mkCell (cell_id c) (kind c) (c_trace c) (decision_id c) (policy_id c) (region c) (total_budget c)
    (c_events c ++ [mkCellEvent (c_trace c) (cell_id c) (kind c) (decision_id c) (policy_id c) event
                      "execution_cell" outcome None (state c) budget])
    (effect_log c) (sequence_counter c).

(** The session gets a copy of the child region. *)
Definition create_session (c : ExecutionCell) (session trace : string) :
    ExecutionCell * result CellError ExecutionCell :=
  if negb (bool_decide (state c = Running)) then
    (c, Err (SessionRejected (cell_id c) ("parent cell is " +:+ state_debug (state c) +:+ ", not Running")))
  else
    let child := RegionLifecycle.new session (kind_name SessionCell) trace in
    (set_region c (add_child (region c) child),
     Ok (mkCell session SessionCell trace (decision_id c) (policy_id c) child 0 [] [] 0)).

Section context.
Context {C : Type} `{!ContextAdapter C}.

Definition execute_effect (c : ExecutionCell) (cx : C) (cat : EffectCategory) (op : string) :
    ExecutionCell * C * result CellError Z :=
  if negb (bool_decide (state c = Running)) then
    (c, cx, Err (InvalidState (cell_id c) (state c) ("execute_effect(" +:+ op +:+ ")")))
  else
    let cost := budget_cost_ms cat in
    match consume_budget cx cost with
    | (cx, Err _) => (c, cx, Err (CellBudgetExhausted (cell_id c) cost (cx_remaining_ms cx)))
    | (cx, Ok _) =>
        let seq := sat_add64 (sequence_counter c) 1 in
        let c := set_total c (sat_add64 (total_budget c) cost) in
        let c := log_effect c (mkCxEvent (cx_trace_id cx) cat ("execution-cell-" +:+ cell_id c) op "ok" cost
                                 (cx_remaining_ms cx) None) seq in
        (emit_event c op "ok" cost, cx, Ok seq)
    end.

Definition initiate_close (c : ExecutionCell) (cx : C) (reason : CancelReason) (deadline : Z) :
    ExecutionCell * C * result CellError unit :=
  match consume_budget cx CELL_TRANSITION_BUDGET_MS with
  | (cx, Err _) => (c, cx, Err (CellBudgetExhausted (cell_id c) CELL_TRANSITION_BUDGET_MS (cx_remaining_ms cx)))
  | (cx, Ok _) =>
      let c := set_total c (sat_add64 (total_budget c) CELL_TRANSITION_BUDGET_MS) in
      match RegionLifecycle.cancel (region c) reason with
      | (r, Err e) => (set_region c r, cx, Err (InvalidState (cell_id c) (current_state e) "cancel"))
      | (r, Ok _) =>
          let c := emit_event (set_region c r) "cancel" "initiated" CELL_TRANSITION_BUDGET_MS in
          match RegionLifecycle.drain (region c) deadline with
          | (r, Err e) => (set_region c r, cx, Err (InvalidState (cell_id c) (current_state e) "drain"))
          | (r, Ok _) => (emit_event (set_region c r) "drain" "started" 0, cx, Ok tt)
          end
      end
  end.
End context.

(** [region.register_obligation] returns a flag that the cell drops. *)
Definition register_obligation (c : ExecutionCell) (id description : string) : ExecutionCell :=
  set_region c (RegionLifecycle.register_obligation (region c) id description).1.

Definition commit_obligation (c : ExecutionCell) (id : string) : ExecutionCell * result CellError unit :=
  let (r, b) := RegionLifecycle.commit_obligation (region c) id in
  (set_region c r, if b then Ok tt else Err (ObligationNotFound (cell_id c) id)).

Definition abort_obligation (c : ExecutionCell) (id : string) : ExecutionCell * result CellError unit :=
  let (r, b) := RegionLifecycle.abort_obligation (region c) id in
  (set_region c r, if b then Ok tt else Err (ObligationNotFound (cell_id c) id)).

Definition drain_tick (c : ExecutionCell) : ExecutionCell * bool :=
  let (r, b) := RegionLifecycle.drain_tick (region c) in (set_region c r, b).

Definition finalize (c : ExecutionCell) : ExecutionCell * result CellError FinalizeResult :=
  match RegionLifecycle.finalize (region c) with
  | (r, Err e) => (set_region c r, Err (InvalidState (cell_id c) (current_state e) "finalize"))
  | (r, Ok res) =>
      (emit_event (set_region c r) "finalize"
         (if fr_success res then "finalize_success" else "finalize_with_pending") 0, Ok res)
  end.

(** [for _ in 0..n { if pending == 0 { break; } drain_tick(); }] *)
Fixpoint tick_loop (n : nat) (c : ExecutionCell) : ExecutionCell :=
  match n with
  | O => c
  | S n => if pending_obligations c =? 0 then c else tick_loop n (drain_tick c).1
  end.

Definition close {C} `{!ContextAdapter C} (c : ExecutionCell) (cx : C) (reason : CancelReason) (deadline : Z) :
    ExecutionCell * C * result CellError FinalizeResult :=
  match initiate_close c cx reason deadline with
  | (c, cx, Err e) => (c, cx, Err e)
  | (c, cx, Ok _) => let (c, r) := finalize (tick_loop (Z.to_nat deadline) c) in (c, cx, r)
  end.

Definition drain_events (c : ExecutionCell) : ExecutionCell * list CellEvent :=
  (mkCell (cell_id c) (kind c) (c_trace c) (decision_id c) (policy_id c) (region c) (total_budget c) []
     (effect_log c) (sequence_counter c), c_events c).

Definition drain_region_events (c : ExecutionCell) : ExecutionCell * list RegionEvent :=
  let (r, es) := RegionLifecycle.drain_events (region c) in (set_region c r, es).
End Cell.

(** *** The manager *)

Record CellManager := mkManager {
  cells : gmap string ExecutionCell;
  closed_cells : list (string * FinalizeResult) }.

Module Mgr.
Definition new : CellManager := mkManager ∅ [].

Definition insert_cell (m : CellManager) (id : string) (c : ExecutionCell) : CellManager :=
  mkManager (<[id := c]> (cells m)) (closed_cells m).
Definition create_extension_cell (m : CellManager) (id trace : string) : CellManager :=
  insert_cell m id (Cell.new id Extension trace).
Definition create_delegate_cell (m : CellManager) (id trace : string) : CellManager :=
  insert_cell m id (Cell.new id Delegate trace).

Definition archive_cell (m : CellManager) (id : string) (r : FinalizeResult) : CellManager :=
  mkManager (delete id (cells m)) (closed_cells m ++ [(id, r)]).

Definition active_count (m : CellManager) : Z := Z.of_nat (size (cells m)).
Definition closed_count (m : CellManager) : Z := zlen (closed_cells m).
Definition active_cell_ids (m : CellManager) : list string := sorted_keys (cells m).

Section context.
Context {C : Type} `{!ContextAdapter C}.

Definition close_cell (m : CellManager) (id : string) (cx : C) (reason : CancelReason) (deadline : Z) :
    CellManager * C * result CellError FinalizeResult :=
  match cells m !! id with
  | None => (m, cx, Err (CellNotFound id))
  | Some c =>
      match Cell.close c cx reason deadline with
      | (c, cx, Err e) => (insert_cell m id c, cx, Err e)
      | (c, cx, Ok r) => (archive_cell (insert_cell m id c) id r, cx, Ok r)
      end
  end.

Fixpoint close_each (ids : list string) (m : CellManager) (cx : C) (reason : CancelReason) (deadline : Z) :
    CellManager * C * list (result CellError FinalizeResult) :=
  match ids with
  | [] => (m, cx, [])
  | id :: ids =>
      match close_cell m id cx reason deadline with
      | (m, cx, r) => match close_each ids m cx reason deadline with (m, cx, rs) => (m, cx, r :: rs) end
      end
  end.

Definition close_all (m : CellManager) (cx : C) (reason : CancelReason) (deadline : Z) :
    CellManager * C * list (result CellError FinalizeResult) :=
  close_each (sorted_keys (cells m)) m cx reason deadline.
End context.
End Mgr.

(** *** The host binding *)

Record LifecycleEvidenceEntry := mkEvidence {
  ev_sequence : Z;
  ev_trace : string;
  ev_decision : string;
  ev_policy : string;
  ev_component : string;
  ev_event : string;
  ev_outcome : string;
  ev_error : option string;
  ev_cell_id : string;
  ev_kind : CellKind;
  ev_state : RegionState;
  ev_budget : Z;
  ev_metadata : gmap string string }.

Record CellCloseReport := mkReport {
  rp_cell_id : string;
  rp_kind : CellKind;
  close_reason : string;
  rp_success : bool;
  rp_committed : Z;
  rp_aborted : Z;
  rp_escalated : bool;
  rp_budget : Z;
  evidence_entries_emitted : Z }.

Record ExtensionHostBinding := mkHost {
  manager : CellManager;
  evidence_log : list LifecycleEvidenceEntry;
  event_sequence : Z;
  default_drain_deadline : Z }.

Definition set_manager (h : ExtensionHostBinding) (m : CellManager) : ExtensionHostBinding :=
  mkHost m (evidence_log h) (event_sequence h) (default_drain_deadline h).

Module Host.
Definition new (deadline : Z) : ExtensionHostBinding := mkHost Mgr.new [] 0 deadline.

Definition emit_evidence (h : ExtensionHostBinding) (trace decision policy event outcome : string)
    (error : option string) (id : string) (k : CellKind) (st : RegionState) (budget : Z) : ExtensionHostBinding :=
  let seq := event_sequence h in
  mkHost (manager h)
    (evidence_log h ++ [mkEvidence seq trace decision policy "extension_host_binding" event outcome error id k st
                          budget ∅])
    (wrap_u64 (seq + 1)) (default_drain_deadline h).

Definition start_session (h : ExtensionHostBinding) (extension session trace : string) :
    ExtensionHostBinding * result CellError string :=
  match cells (manager h) !! extension with
  | None => (h, Err (CellNotFound extension))
  | Some c =>
      match Cell.create_session c session trace with
      | (c, Err e) => (set_manager h (Mgr.insert_cell (manager h) extension c), Err e)
      | (c', Ok s) =>
          let h := set_manager h (Mgr.insert_cell (Mgr.insert_cell (manager h) extension c') session s) in
          (emit_evidence h trace (decision_id c) (policy_id c) "session_start" "ok" None session SessionCell Running 0,
           Ok session)
      end
  end.

Section context.
Context {C : Type} `{!ContextAdapter C} (str_debug : string -> string).

(** [#[derive(Debug)]] of [CancelReason]. *)
Definition reason_debug (r : CancelReason) : string :=
  match r with
  | OperatorShutdown => "OperatorShutdown"
  | Quarantine => "Quarantine"
  | RevocationReason => "Revocation"
  | BudgetExhausted => "BudgetExhausted"
  | ParentClosing => "ParentClosing"
  | CustomReason s => "Custom(" +:+ str_debug s +:+ ")"
  end.

Definition load_extension (h : ExtensionHostBinding) (id : string) (cx : C) (decision policy : string) :
    ExtensionHostBinding * C * result CellError string :=
  let trace := cx_trace_id cx in
  match consume_budget cx CELL_TRANSITION_BUDGET_MS with
  | (cx, Err _) => (h, cx, Err (CellBudgetExhausted id CELL_TRANSITION_BUDGET_MS (cx_remaining_ms cx)))
  | (cx, Ok _) =>
      let h := set_manager h (Mgr.insert_cell (manager h) id (Cell.with_context id Extension trace decision policy)) in
      (emit_evidence h trace decision policy "extension_load" "ok" None id Extension Running
         CELL_TRANSITION_BUDGET_MS, cx, Ok id)
  end.

Definition unload_extension (h : ExtensionHostBinding) (id : string) (cx : C) (reason : CancelReason) :
    ExtensionHostBinding * C * result CellError CellCloseReport :=
  match cells (manager h) !! id with
  | None => (h, cx, Err (CellNotFound id))
  | Some c =>
      match Mgr.close_cell (manager h) id cx reason (default_drain_deadline h) with
      | (m, cx, Err e) => (set_manager h m, cx, Err e)
      | (m, cx, Ok r) =>
          let report := mkReport id (kind c) (reason_debug reason) (fr_success r) (obligations_committed r)
                          (obligations_aborted r) (fr_escalated r)
                          (sat_add64 (total_budget c) CELL_TRANSITION_BUDGET_MS) 1 in
          (emit_evidence (set_manager h m) (c_trace c) (decision_id c) (policy_id c) "extension_unload"
             (if fr_success r then "unload_success" else "unload_with_pending")
             (if fr_escalated r then Some "drain_timeout_escalated" else None) id (kind c) Closed
             CELL_TRANSITION_BUDGET_MS, cx, Ok report)
      end
  end.

Fixpoint unload_each (ids : list string) (h : ExtensionHostBinding) (cx : C) (reason : CancelReason) :
    ExtensionHostBinding * C * list (result CellError CellCloseReport) :=
  match ids with
  | [] => (h, cx, [])
  | id :: ids =>
      match unload_extension h id cx reason with
      | (h, cx, r) => match unload_each ids h cx reason with (h, cx, rs) => (h, cx, r :: rs) end
      end
  end.

Definition unload_all (h : ExtensionHostBinding) (cx : C) (reason : CancelReason) :
    ExtensionHostBinding * C * list (result CellError CellCloseReport) :=
  unload_each (sorted_keys (cells (manager h))) h cx reason.
End context.

Definition evidence_for_event (h : ExtensionHostBinding) (event : string) : list LifecycleEvidenceEntry :=
  filter (fun e => ev_event e = event) (evidence_log h).
Definition active_extension_count (h : ExtensionHostBinding) : Z := Mgr.active_count (manager h).
Definition evidence_count (h : ExtensionHostBinding) : Z := event_sequence h.
End Host.
