(* ===== verification/CancellationLifecycle.v ===== *)
(** * Cancellation lifecycle (crates/franken-engine/src/cancellation_lifecycle.rs)

    The five lifecycle events cancel execution cells (ExecutionCell.v) in three
    phases, with a drain budget per event and a record of the cells already
    cancelled.  The proofs are in CellCorrect.v. *)
From stdpp Require Import base numbers list strings gmap sorting.
From S2P Require Import Prelude Bytes Text RegionLifecycle ExecutionCell.
Open Scope string_scope.
Open Scope list_scope.
Open Scope Z_scope.

Inductive LifecycleEvent := Unload | QuarantineEvent | Suspend | Terminate | RevocationEvent.

#[export] Instance LifecycleEvent_eq_dec : EqDecision LifecycleEvent.
Proof. solve_decision. Defined.

(** The derived order of the enum, as a number. *)
Definition event_rank (e : LifecycleEvent) : nat :=
  match e with Unload => 0 | QuarantineEvent => 1 | Suspend => 2 | Terminate => 3 | RevocationEvent => 4 end.
Definition event_of_rank (n : nat) : option LifecycleEvent :=
  [Unload; QuarantineEvent; Suspend; Terminate; RevocationEvent] !! n.
#[export] Instance LifecycleEvent_countable : Countable LifecycleEvent.
Proof. apply (inj_countable event_rank event_of_rank). by intros []. Defined.

Definition cancel_reason (e : LifecycleEvent) : CancelReason :=
  match e with
  | Unload => OperatorShutdown
  | QuarantineEvent => Quarantine
  | Suspend => CustomReason "suspend"
  | Terminate => CustomReason "terminate"
  | RevocationEvent => RevocationReason
  end.

Definition is_forced (e : LifecycleEvent) : bool := bool_decide (e = Terminate).
Definition is_cooperative (e : LifecycleEvent) : bool := match e with Unload | Suspend => true | _ => false end.

Record CancellationMode := mkMode {
  drain_budget_ticks : Z;
  force_abort_on_timeout : bool;
  propagate_to_children : bool;
  evidence_event_name : string }.

Definition for_event (e : LifecycleEvent) : CancellationMode :=
  match e with
  | Unload => mkMode 10000 true true "cancellation_unload"
  | QuarantineEvent => mkMode 1000 true true "cancellation_quarantine"
  | Suspend => mkMode 5000 false false "cancellation_suspend"
  | Terminate => mkMode 0 true true "cancellation_terminate"
  | RevocationEvent => mkMode 500 true true "cancellation_revocation"
  end.

Record CancellationOutcome := mkOutcome {
  co_cell_id : string;
  co_event : LifecycleEvent;
  co_success : bool;
  finalize_result : FinalizeResult;
  timeout_escalated : bool;
  children_cancelled : Z;
  was_idempotent : bool }.

Inductive CancellationError :=
  | CancelCellNotFound (cell_id : string)
  | CancelBudgetExhausted (cell_id : string) (event : LifecycleEvent)
  | CancelCellError (cell_id error_code message : string).

(** [CellError::error_code] and [Display]. *)
Definition cell_error_code (e : CellError) : string :=
  match e with
  | InvalidState _ _ _ => "cell_invalid_state"
  | CellBudgetExhausted _ _ _ => "cell_budget_exhausted"
  | CxThreading _ _ _ => "cell_cx_threading"
  | CellNotFound _ => "cell_not_found"
  | SessionRejected _ _ => "cell_session_rejected"
  | ObligationNotFound _ _ => "cell_obligation_not_found"
  end.

Definition state_text (s : RegionState) : string :=
  match s with
  | Running => "running"
  | CancelRequested => "cancel_requested"
  | RDraining => "draining"
  | RFinalizing => "finalizing"
  | Closed => "closed"
  end.

Definition cell_error_text (e : CellError) : string :=
  match e with
  | InvalidState id cur att => "cell " +:+ id +:+ ": invalid state " +:+ state_text cur +:+ " for " +:+ att
  | CellBudgetExhausted id req rem =>
      "cell " +:+ id +:+ ": budget exhausted (need " +:+ int_to_string req +:+ "ms, have " +:+
      int_to_string rem +:+ "ms)"
  | CxThreading id code msg => "cell " +:+ id +:+ ": cx error [" +:+ code +:+ "]: " +:+ msg
  | CellNotFound id => "cell not found: " +:+ id
  | SessionRejected id reason => "session rejected in cell " +:+ id +:+ ": " +:+ reason
  | ObligationNotFound id ob => "obligation " +:+ ob +:+ " not found in cell " +:+ id
  end.

(** [impl From<CellError> for CancellationError] *)
Definition from_cell_error (e : CellError) : CancellationError :=
  let id := match e with
            | InvalidState id _ _ | CellBudgetExhausted id _ _ | CxThreading id _ _ | CellNotFound id
            | SessionRejected id _ | ObligationNotFound id _ => id
            end in
  CancelCellError id (cell_error_code e) (cell_error_text e).

Record CancellationEvent := mkCancelEvent {
  cv_trace : string;
  cv_cell_id : string;
  cv_kind : CellKind;
  lifecycle_event : LifecycleEvent;
  cv_phase : string;
  cv_outcome : string;
  cv_component : string;
  cv_pending : Z;
  cv_budget : Z }.

Record CancellationManager := mkCM {
  mode_overrides : gmap LifecycleEvent CancellationMode;
  outcomes : list CancellationOutcome;
  cm_events : list CancellationEvent;
  cancelled_cells : gmap string LifecycleEvent }.

Module CM.
Definition new : CancellationManager := mkCM ∅ [] [] ∅.

Definition set_mode_override (m : CancellationManager) (e : LifecycleEvent) (mode : CancellationMode) :
    CancellationManager :=
  mkCM (<[e := mode]> (mode_overrides m)) (outcomes m) (cm_events m) (cancelled_cells m).

Definition effective_mode (m : CancellationManager) (e : LifecycleEvent) : CancellationMode :=
  default (for_event e) (mode_overrides m !! e).

Definition emit_event (m : CancellationManager) (trace id : string) (k : CellKind) (e : LifecycleEvent)
    (phase outcome : string) (pending budget : Z) : CancellationManager :=
  mkCM (mode_overrides m) (outcomes m)
    (cm_events m ++ [mkCancelEvent trace id k e phase outcome "cancellation_lifecycle" pending budget])
    (cancelled_cells m).

Definition push_outcome (m : CancellationManager) (o : CancellationOutcome) : CancellationManager :=
  mkCM (mode_overrides m) (outcomes m ++ [o]) (cm_events m) (cancelled_cells m).
Definition mark_cancelled (m : CancellationManager) (id : string) (e : LifecycleEvent) : CancellationManager :=
  mkCM (mode_overrides m) (outcomes m) (cm_events m) (<[id := e]> (cancelled_cells m)).

Definition is_cancelled (m : CancellationManager) (id : string) : bool := bool_decide (is_Some (cancelled_cells m !! id)).

(** The outcome of a repeated cancellation. *)
Definition idempotent_outcome (id : string) (e : LifecycleEvent) : CancellationOutcome :=
  mkOutcome id e true (mkFinal id true 0 0 false) false 0 true.

Definition effect_error (id : string) (e : LifecycleEvent) (err : CellError) : CancellationError :=
  match err with CellBudgetExhausted _ _ _ => CancelBudgetExhausted id e | _ => from_cell_error err end.

Section context.
Context {C : Type} `{!ContextAdapter C}.

Definition cancel_cell (m : CancellationManager) (c : ExecutionCell) (cx : C) (e : LifecycleEvent) :
    CancellationManager * ExecutionCell * C * result CancellationError CancellationOutcome :=
  let id := cell_id c in
  if is_cancelled m id || bool_decide (Cell.state c = Closed) then
    let o := idempotent_outcome id e in (push_outcome m o, c, cx, Ok o)
  else
    let mode := effective_mode m e in
    let trace := cx_trace_id cx in
    let m := emit_event m trace id (kind c) e "request" "initiated" (Cell.pending_obligations c) 0 in
    match Cell.execute_effect c cx LifecycleTransition (evidence_event_name mode) with
    | (c, cx, Err err) => (m, c, cx, Err (effect_error id e err))
    | (c, cx, Ok _) =>
        match Cell.initiate_close c cx (cancel_reason e) (drain_budget_ticks mode) with
        | (c, cx, Err err) =>
            (emit_event m trace id (kind c) e "cancel" "failed" (Cell.pending_obligations c) 0, c, cx,
             Err (from_cell_error err))
        | (c, cx, Ok _) =>
            let m := emit_event m trace id (kind c) e "cancel" "completed" (Cell.pending_obligations c) 0 in
            let effective_ticks :=
              if (drain_budget_ticks mode =? 0) && (0 <? Cell.pending_obligations c) then 1
              else drain_budget_ticks mode in
            let c := Cell.tick_loop (Z.to_nat effective_ticks) c in
            let escalated := 0 <? Cell.pending_obligations c in
            let m := emit_event m trace id (kind c) e "drain"
                       (if escalated then "timeout_escalated" else "completed") (Cell.pending_obligations c) 0 in
            match Cell.finalize c with
            | (c, Err err) =>
                (emit_event m trace id (kind c) e "finalize" "failed" (Cell.pending_obligations c) 0, c, cx,
                 Err (from_cell_error err))
            | (c, Ok r) =>
                let m := emit_event m trace id (kind c) e "finalize"
                           (if fr_success r then "success" else "with_pending") 0 0 in
                let m := mark_cancelled m id e in
                let o := mkOutcome id e (fr_success r && negb escalated) r escalated 0 false in
                (push_outcome m o, c, cx, Ok o)
            end
        end
    end.

Definition cancel_managed_cell (m : CancellationManager) (mgr : CellManager) (id : string) (cx : C)
    (e : LifecycleEvent) :
    CancellationManager * CellManager * C * result CancellationError CancellationOutcome :=
  match cells mgr !! id with
  | None => (m, mgr, cx, Err (CancelCellNotFound id))
  | Some c =>
      match cancel_cell m c cx e with
      | (m, c, cx, Err err) => (m, Mgr.insert_cell mgr id c, cx, Err err)
      | (m, c, cx, Ok o) =>
          (m, Mgr.archive_cell (Mgr.insert_cell mgr id c) id (finalize_result o), cx, Ok o)
      end
  end.

Fixpoint cancel_each (ids : list string) (m : CancellationManager) (mgr : CellManager) (cx : C)
    (e : LifecycleEvent) :
    CancellationManager * CellManager * C * list (result CancellationError CancellationOutcome) :=
  match ids with
  | [] => (m, mgr, cx, [])
  | id :: ids =>
      match cancel_managed_cell m mgr id cx e with
      | (m, mgr, cx, r) =>
          match cancel_each ids m mgr cx e with (m, mgr, cx, rs) => (m, mgr, cx, r :: rs) end
      end
  end.

Definition cancel_all (m : CancellationManager) (mgr : CellManager) (cx : C) (e : LifecycleEvent) :
    CancellationManager * CellManager * C * list (result CancellationError CancellationOutcome) :=
  cancel_each (Mgr.active_cell_ids mgr) m mgr cx e.
End context.

Definition drain_events (m : CancellationManager) : CancellationManager * list CancellationEvent :=
  (mkCM (mode_overrides m) (outcomes m) [] (cancelled_cells m), cm_events m).
End CM.
