(* ===== verification/CellCorrect.v ===== *)
(** * Properties of execution cells and their cancellation

    Cancelling a cell closes its region and leaves nothing pending, whatever the
    drain budget; effects are gated by the state and accounted against the budget
    of the context.  The examples show what the cells do not guarantee: a session
    outlives its extension. *)
From stdpp Require Import base numbers list strings gmap sorting.
From S2P Require Import Prelude Bytes RegionLifecycle RegionCorrect ExecutionCell CancellationLifecycle.
Open Scope string_scope.
Open Scope list_scope.
Open Scope Z_scope.

(** ** Regions of cells

    The children of a cell's region are the copies made for its sessions; they
    never hold obligations. *)
Definition no_obligations (c : RegionCore) : Prop := obligations c = ∅.

Record cell_ok (c : ExecutionCell) : Prop := {
  co_idle : tree_all idle (region c);
  co_children : Forall (tree_all no_obligations) (children (region c)) }.

(** A drain that has started: no tick yet. *)
Definition started (D : Z) (c0 c : RegionCore) : Prop :=
  r_state c = RDraining /\ obligations c = obligations c0 /\ drain_deadline c = Some D /\
  drain_elapsed_ticks c = 0 /\ drain_timeout_escalated c = false.

Lemma tick_started D c0 c :
  0 <= D <= u64_max -> started D c0 c -> drained D 1 c0 (check_deadline (tick_core c)).1.
Proof.
  intros HD (Hs & Ho & Hd & He & Hesc).
  unfold check_deadline. cbn [tick_core drain_deadline drain_elapsed_ticks drain_timeout_escalated]. rewrite Hd, He, Hesc.
  unfold drained. change (wrap_u64 (0 + 1)) with 1. destruct (Z.leb_spec D 1); cbn; rewrite ?He, ?Hd; done.
Qed.

Lemma first_tick D r0 r :
  0 <= D <= u64_max -> tree_rel (started D) r0 r -> tree_rel (drained D 1) r0 (RegionLifecycle.drain_tick r).1.
Proof.
  intros HD. revert r. induction r0 as [c0 l0 IH] using region_tree_ind. intros r H.
  apply tree_rel_inv in H as (c & l & -> & Hc & F). cbn [RegionLifecycle.drain_tick].
  rewrite (proj1 Hc). cbn [bool_decide decide negb]. pose proof (tick_started _ _ _ HD Hc) as Hc'.
  destruct (check_deadline (tick_core c)) as [c' b]. cbn [fst] in *. constructor; [done|].
  clear Hc Hc'. revert l F. induction IH as [|x l0 Hx _ IHl]; intros l F.
  - by apply Forall2_nil_inv_l in F as ->.
  - apply Forall2_cons_inv_l in F as (y & l' & Hxy & F & ->). cbn [map]. constructor; auto.
Qed.

Lemma root_pending_rel (R : RegionCore -> RegionCore -> Prop) r0 r :
  (forall c c', R c c' -> obligations c' = obligations c) -> tree_rel R r0 r ->
  RegionLifecycle.pending_obligations r = RegionLifecycle.pending_obligations r0.
Proof.
  intros HR H. destruct r0 as [c0 l0]. apply tree_rel_inv in H as (c & l & -> & Hc & _).
  unfold RegionLifecycle.pending_obligations, core_pending. cbn [core]. by rewrite (HR _ _ Hc).
Qed.

(** Ticks of a cell whose own obligations are pending. *)
Lemma tick_loop_rel n D k c r0 :
  RegionLifecycle.pending_obligations r0 <> 0 -> 0 <= k -> k + Z.of_nat n <= D <= u64_max ->
  tree_rel (drained D k) r0 (region c) -> tree_rel (drained D (k + Z.of_nat n)) r0 (region (Cell.tick_loop n c)).
Proof.
  intros Hp. revert k c. induction n as [|n IH]; intros k c H0 Hk H; cbn [Cell.tick_loop]; [by rewrite Z.add_0_r|].
  unfold Cell.pending_obligations. rewrite (root_pending_rel (drained D k) r0 (region c)); [|by intros ? ? (_ & ? & _)|done].
  destruct (Z.eqb_spec (RegionLifecycle.pending_obligations r0) 0); [done|].
  replace (k + Z.of_nat (S n)) with (k + 1 + Z.of_nat n) by lia. apply IH; [lia|lia|].
  unfold Cell.drain_tick. pose proof (drain_tick_rel D k r0 (region c) ltac:(lia) ltac:(lia) H) as Ht.
  by destruct (RegionLifecycle.drain_tick (region c)).
Qed.

(** The loops of the cell keep everything but the region. *)
Lemma tick_loop_keeps n c :
  let c' := Cell.tick_loop n c in
  cell_id c' = cell_id c /\ kind c' = kind c /\ total_budget c' = total_budget c /\ effect_log c' = effect_log c /\
  sequence_counter c' = sequence_counter c.
Proof.
  revert c. induction n as [|n IH]; intros c; [done|]. cbv zeta. cbn [Cell.tick_loop]. case_match; [done|].
  specialize (IH (Cell.drain_tick c).1). cbv zeta in IH. unfold Cell.drain_tick in *.
  by destruct (RegionLifecycle.drain_tick (region c)).
Qed.

(** After the ticks of a cancellation the drain has run into its deadline, or
    nothing was pending and there was no tick. *)
Lemma ticks_of_cancellation D c r0 :
  0 <= D <= u64_max -> tree_rel (started D) r0 (region c) ->
  let n := if (D =? 0) && (0 <? Cell.pending_obligations c) then 1 else D in
  let c' := Cell.tick_loop (Z.to_nat n) c in
  (0 <? Cell.pending_obligations c') = (0 <? RegionLifecycle.pending_obligations r0) /\
  if 0 <? RegionLifecycle.pending_obligations r0
  then exists k, D <= k /\ tree_rel (drained D k) r0 (region c')
  else tree_rel (started D) r0 (region c').
Proof.
  intros HD H. cbv zeta.
  assert (Hp : Cell.pending_obligations c = RegionLifecycle.pending_obligations r0)
    by (apply (root_pending_rel (started D)); [by intros ? ? (_ & ? & _)|done]).
  rewrite Hp. destruct (Z.ltb_spec 0 (RegionLifecycle.pending_obligations r0)) as [Hlt|Hge].
  - set (n := Z.to_nat (if (D =? 0) && true then 1 else D)).
    assert (Hn : exists n', n = S n' /\ (D = 0 /\ n' = 0%nat \/ D = 1 + Z.of_nat n')).
    { subst n. rewrite andb_true_r. destruct (Z.eqb_spec D 0); [by exists 0%nat; auto|].
      exists (Z.to_nat (D - 1)). split; [lia|right; lia]. }
    destruct Hn as (n' & -> & Hn').
    assert (H1 : tree_rel (drained D 1) r0 (region (Cell.drain_tick c).1)).
    { unfold Cell.drain_tick. pose proof (first_tick D r0 (region c) HD H) as Ht.
      by destruct (RegionLifecycle.drain_tick (region c)). }
    assert (Hend : exists k, D <= k /\ tree_rel (drained D k) r0 (region (Cell.tick_loop (S n') c))).
    { cbn [Cell.tick_loop]. rewrite Hp. destruct (Z.eqb_spec (RegionLifecycle.pending_obligations r0) 0); [lia|].
      destruct Hn' as [[-> ->]|HD']; [exists 1; split; [lia|exact H1]|].
      exists (1 + Z.of_nat n'). split; [lia|]. apply tick_loop_rel; [done|lia|lia|done]. }
    destruct Hend as (k & Hk & Hr). split; [|by exists k].
    unfold Cell.pending_obligations. rewrite (root_pending_rel (drained D k) r0 _); [|by intros ? ? (_ & ? & _)|done]. lia.
  - rewrite andb_false_r.
    assert (He : Cell.tick_loop (Z.to_nat D) c = c).
    { destruct (Z.to_nat D); [done|]. cbn [Cell.tick_loop]. rewrite Hp.
      unfold RegionLifecycle.pending_obligations, core_pending, count_status in *.
      case_match eqn:Hz; [done|]. apply Z.eqb_neq in Hz. lia. }
    rewrite He, Hp. split; [|done]. lia.
Qed.

(** Closing the region of a cell, up to the start of the drain. *)
Lemma close_begins r reason D :
  tree_all idle r ->
  exists r1 r2, RegionLifecycle.cancel r reason = (r1, Ok tt) /\ RegionLifecycle.drain r1 D = (r2, Ok tt) /\ tree_rel (started D) r r2.
Proof.
  intros Hidle.
  destruct (cancel_running r reason) as (r1 & H1 & R1); [by eapply tree_all_mono; [|exact Hidle]; intros c []|].
  destruct (drain_cancelled r1 D) as (r2 & H2 & R2).
  { eapply tree_rel_all; [|apply tree_all_true|exact R1]. by intros x y _ [? ->]. }
  exists r1, r2. do 2 (split; [done|]).
  eapply tree_rel_mono; [|exact (tree_rel_trans _ _ _ _ _ (tree_rel_with _ _ _ _ Hidle R1) R2)].
  intros x z (y & [[_ He] [? ->]] & ->). unfold started. cbn. by rewrite He.
Qed.

(** Finalizing after the ticks of a cancellation. *)
Lemma cancelled_finalizes D r0 r :
  (if 0 <? RegionLifecycle.pending_obligations r0
   then exists k, D <= k /\ tree_rel (drained D k) r0 r
   else tree_rel (started D) r0 r) ->
  exists r' res, RegionLifecycle.finalize r = (r', Ok res) /\ fr_success res = settled_tree r' /\
    tree_rel (closed_as (0 <? RegionLifecycle.pending_obligations r0)) r0 r'.
Proof.
  intros H.
  assert (Hd : tree_all (in_state RDraining) r).
  { case_match; [destruct H as (k & _ & H)|]; (eapply tree_rel_all; [|apply tree_all_true|exact H]);
      by intros x y _ (? & _). }
  destruct (finalize_draining r Hd) as (r' & res & Hf & Hs & R). exists r', res. do 2 (split; [done|]).
  case_match; [destruct H as (k & Hk & H)|];
    (eapply tree_rel_mono; [|exact (tree_rel_trans _ _ _ _ _ H R)]); intros x z (y & Hy & ok & ->).
  - pose proof (finalize_core_closed _ _ _ _ ok Hy) as Hc. by replace (D <=? k) with true in Hc by lia.
  - destruct Hy as (_ & Ho & _ & _ & He). unfold finalize_core, closed_as. cbv zeta. cbn [fst]. split; [done|].
    cbn [emit_event set_state obligations]. by rewrite He.
Qed.

(** Nothing is left pending: only the root had obligations. *)
Lemma cell_resolved c r' :
  cell_ok c -> tree_rel (closed_as (0 <? Cell.pending_obligations c)) (region c) r' -> tree_all resolved r'.
Proof.
  intros [_ Hch] H. apply (closed_as_resolved _ _ _ H).
  destruct (Z.ltb_spec 0 (Cell.pending_obligations c)) as [?|Hge]; [by left|right].
  unfold Cell.pending_obligations, RegionLifecycle.pending_obligations in Hge.
  destruct (region c) as [k l]. cbn [core children] in *. constructor.
  - unfold resolved, core_pending, count_status in *. lia.
  - eapply Forall_impl; [exact Hch|]. intros x Hx. eapply tree_all_mono; [|exact Hx].
    intros y Hy. unfold resolved, core_pending, count_status. rewrite Hy. done.
Qed.

(** A cancelled cell stays as it is. *)
Lemma cancel_again {C} `{!ContextAdapter C} m c (cx : C) e :
  is_Some (cancelled_cells m !! cell_id c) ->
  CM.cancel_cell m c cx e =
    (CM.push_outcome m (CM.idempotent_outcome (cell_id c) e), c, cx, Ok (CM.idempotent_outcome (cell_id c) e)).
Proof. intros H. unfold CM.cancel_cell, CM.is_cancelled. by rewrite bool_decide_true. Qed.

(** An effect leaves the region alone. *)
Lemma execute_running {C} `{!ContextAdapter C} c (cx cx1 : C) cat op :
  Cell.state c = Running -> consume_budget cx (budget_cost_ms cat) = (cx1, Ok tt) ->
  exists c1 n, Cell.execute_effect c cx cat op = (c1, cx1, Ok n) /\ region c1 = region c /\ cell_id c1 = cell_id c.
Proof.
  intros Hs He. unfold Cell.execute_effect. rewrite Hs, He. cbn [bool_decide decide negb].
  eexists _, _. split; [reflexivity|]. done.
Qed.

Lemma initiate_idle {C} `{!ContextAdapter C} c (cx cx1 : C) reason D :
  tree_all idle (region c) -> consume_budget cx CELL_TRANSITION_BUDGET_MS = (cx1, Ok tt) ->
  exists c1, Cell.initiate_close c cx reason D = (c1, cx1, Ok tt) /\ cell_id c1 = cell_id c /\
    tree_rel (started D) (region c) (region c1).
Proof.
  intros Hidle He. unfold Cell.initiate_close. rewrite He.
  destruct (close_begins (region c) reason D Hidle) as (r1 & r2 & Hc & Hd & R2).
  cbn [set_total region]. rewrite Hc. cbn [set_region Cell.emit_event region]. rewrite Hd.
  eexists. split; [reflexivity|]. done.
Qed.

(** The first cancellation, step by step. *)
Lemma cancel_steps {C} `{!ContextAdapter C} m c (cx cx1 cx2 : C) e :
  cell_ok c -> cancelled_cells m !! cell_id c = None ->
  0 <= drain_budget_ticks (CM.effective_mode m e) <= u64_max ->
  consume_budget cx (budget_cost_ms LifecycleTransition) = (cx1, Ok tt) ->
  consume_budget cx1 CELL_TRANSITION_BUDGET_MS = (cx2, Ok tt) ->
  let had := 0 <? Cell.pending_obligations c in
  exists evs c' r, fr_success r = true /\ cell_id c' = cell_id c /\
    tree_rel (closed_as had) (region c) (region c') /\
    let o := mkOutcome (cell_id c) e (negb had) r had 0 false in
    CM.cancel_cell m c cx e =
      (mkCM (mode_overrides m) (outcomes m ++ [o]) evs (<[cell_id c := e]> (cancelled_cells m)), c', cx2, Ok o).
Proof.
  intros Hok Hnew HD E1 E2 had. pose proof (co_idle _ Hok) as Hidle.
  assert (Hrun : Cell.state c = Running).
  { unfold Cell.state, rstate. destruct (region c). by apply tree_all_inv in Hidle as [[? _] _]. }
  unfold CM.cancel_cell, CM.is_cancelled. rewrite Hnew, Hrun, bool_decide_false by (by intros [? ?]).
  set (D := drain_budget_ticks (CM.effective_mode m e)) in *.
  destruct (execute_running c cx cx1 LifecycleTransition (evidence_event_name (CM.effective_mode m e)) Hrun E1)
    as (c1 & n & He & Hr1 & Hi1). rewrite bool_decide_false by done. cbn [orb]. rewrite He.
  destruct (initiate_idle c1 cx1 cx2 (cancel_reason e) D) as (c2 & Hi & Hi2 & R2); [by rewrite Hr1|done|].
  rewrite Hi. rewrite Hr1 in R2. clear He Hi.
  destruct (ticks_of_cancellation D c2 (region c) HD R2) as [Hesc H3].
  destruct (tick_loop_keeps (Z.to_nat (if (D =? 0) && (0 <? Cell.pending_obligations c2) then 1 else D)) c2)
    as (Hid & _).
  destruct (cancelled_finalizes D _ _ H3) as (r' & res & Hf & Hs & R).
  unfold Cell.finalize. rewrite Hf. change (RegionLifecycle.pending_obligations (region c)) with (Cell.pending_obligations c) in *.
  fold had in Hesc, R |- *. rewrite Hesc.
  assert (Hsucc : fr_success res = true) by (rewrite Hs; by apply settled_tree_iff, (cell_resolved c)).
  rewrite Hsucc. eexists _, _, res. split; [done|]. split; [|split; [|reflexivity]]; [cbn; congruence|exact R].
Qed.

(** C22. What the first cancellation of a running cell achieves, when the regions of its
    children hold no obligations, the mode of the event forces aborts and propagates to
    children (as for unload, quarantine, terminate and revocation), with every drain
    budget including zero, and when the context can pay for the two transitions. It
    returns Ok, all regions of the cell are closed and nothing is left pending: whatever
    was pending is aborted, and exactly then the outcome reports the escalated timeout and
    no success. The outcome is recorded, and cancelling the cell again, by any event, only
    records an idempotent outcome. *)
Theorem cancel_cell_exact {C} `{!ContextAdapter C} (m : CancellationManager) (c : ExecutionCell) (cx cx1 cx2 : C)
    (e : LifecycleEvent) :
  cell_ok c -> cancelled_cells m !! cell_id c = None ->
  let mode := CM.effective_mode m e in
  force_abort_on_timeout mode = true -> propagate_to_children mode = true ->
  0 <= drain_budget_ticks mode <= u64_max ->
  consume_budget cx (budget_cost_ms LifecycleTransition) = (cx1, Ok tt) ->
  consume_budget cx1 CELL_TRANSITION_BUDGET_MS = (cx2, Ok tt) ->
  let had_pending := 0 <? Cell.pending_obligations c in
  exists m' c' o, CM.cancel_cell m c cx e = (m', c', cx2, Ok o) /\
    tree_rel (closed_as had_pending) (region c) (region c') /\ tree_all resolved (region c') /\
    fr_success (finalize_result o) = true /\ timeout_escalated o = had_pending /\
    co_success o = negb had_pending /\ was_idempotent o = false /\
    outcomes m' = outcomes m ++ [o] /\ cancelled_cells m' = <[cell_id c := e]> (cancelled_cells m) /\
    forall (cx' : C) e', exists o', was_idempotent o' = true /\
      CM.cancel_cell m' c' cx' e' = (CM.push_outcome m' o', c', cx', Ok o').
Proof.
  intros Hok Hnew mode _ _ HD E1 E2 had.
  destruct (cancel_steps m c cx cx1 cx2 e Hok Hnew HD E1 E2) as (evs & c' & r & Hr & Hid & R & He).
  eexists _, c', _. split; [exact He|]. split; [done|]. split; [by eapply cell_resolved|].
  do 6 (split; [done|]). intros cx' e'. exists (CM.idempotent_outcome (cell_id c') e'). split; [done|].
  apply cancel_again. rewrite Hid. cbn. rewrite lookup_insert_eq. by eexists.
Qed.

(** ** Examples *)

Definition busy_cell : ExecutionCell :=
  Cell.register_obligation (Cell.new "ext" Extension "t") "o1" "write".

Lemma busy_cell_ok : cell_ok busy_cell.
Proof. split; repeat constructor. Qed.

Lemma cancel_cell_exact_witness :
  exists m' c' o, CM.cancel_cell CM.new busy_cell (mkMock "t" 100 0) Terminate = (m', c', mkMock "t" 95 5, Ok o) /\
    tree_all resolved (region c') /\ timeout_escalated o = true /\ co_success o = false.
Proof.
  destruct (cancel_cell_exact CM.new busy_cell (mkMock "t" 100 0) (mkMock "t" 97 3) (mkMock "t" 95 5) Terminate
    busy_cell_ok) as (m' & c' & o & H & _ & Hr & _ & Ht & Hs & _); [reflexivity|reflexivity|reflexivity| |reflexivity|reflexivity|].
  - split; vm_compute; discriminate.
  - assert (E : (0 <? Cell.pending_obligations busy_cell) = true) by reflexivity. rewrite E in Ht, Hs.
    exists m', c', o. exact (conj H (conj Hr (conj Ht Hs))).
Defined.

(** The session cell has a copy of the child region, so that unloading its
    extension does not reach it: the unload succeeds and removes the extension,
    and the session is still running and executes effects. *)
Theorem session_outlives_extension :
  let '(h1, cx1, _) := Host.load_extension (Host.new 10) "ext" (mkMock "t" 100 0) "d" "p" in
  let '(h2, started) := Host.start_session h1 "ext" "sess" "t2" in
  let '(h3, cx3, unloaded) := Host.unload_extension (fun s => s) h2 "ext" cx1 Quarantine in
  started = Ok "sess" /\
  match unloaded with Ok rp => rp_success rp = true | Err _ => False end /\
  cells (manager h3) !! "ext" = None /\
  match cells (manager h3) !! "sess" with
  | Some c => Cell.state c = Running /\ (Cell.execute_effect c cx3 Hostcall "call").2 = Ok 1
  | None => False
  end.
Proof. vm_compute. auto 10. Qed.

(** Only the drain budget and the event name of a mode are used: a mode that
    says not to force aborts and not to propagate behaves like any other. *)
Theorem mode_flags_ignored {C} `{!ContextAdapter C} m c (cx : C) e mode force propagate :
  let run mode := CM.cancel_cell (CM.set_mode_override m e mode) c cx e in
  let other := mkMode (drain_budget_ticks mode) force propagate (evidence_event_name mode) in
  (run mode).2 = (run other).2 /\ (run mode).1.1.2 = (run other).1.1.2 /\
  cm_events (run mode).1.1.1 = cm_events (run other).1.1.1.
Proof.
  cbv zeta. unfold CM.cancel_cell, CM.effective_mode.
  cbn [CM.set_mode_override mode_overrides cancelled_cells CM.is_cancelled outcomes].
  rewrite !lookup_insert_eq. cbn [default from_option id drain_budget_ticks evidence_event_name].
  unfold CM.is_cancelled. cbn [cancelled_cells CM.set_mode_override]. case_match; [done|].
  cbn. repeat case_match; simplify_eq; done.
Qed.

(** Cancellations are remembered by the identifier alone: when an extension is
    loaded again under the identifier of a cancelled one, cancelling the new cell
    reports success and drops it from the manager, whatever is running or pending
    in it, without closing it or using any budget. *)
Theorem reloaded_cell_dropped_running {C} `{!ContextAdapter C} m mgr id c (cx : C) e :
  cells mgr !! id = Some c -> cell_id c = id -> is_Some (cancelled_cells m !! id) ->
  exists m' o, CM.cancel_managed_cell m mgr id cx e = (m', Mgr.archive_cell mgr id (finalize_result o), cx, Ok o) /\
    co_success o = true /\ fr_success (finalize_result o) = true.
Proof.
  intros Hc <- Hm. unfold CM.cancel_managed_cell. rewrite Hc, cancel_again by done.
  exists (CM.push_outcome m (CM.idempotent_outcome (cell_id c) e)), (CM.idempotent_outcome (cell_id c) e).
  split; [|done]. unfold Mgr.insert_cell. rewrite insert_id by done. by destruct mgr.
Qed.
