(* ===== verification/AntiEntropy.v ===== *)
(** * Anti-entropy reconciliation (crates/franken-engine/src/anti_entropy.rs)

    Invertible Bloom lookup tables with their subtraction and peeling, the
    session that reconciles a set with a peer's table, the fallback on full
    lists, and the monitor of its rate.  A key is the list of its 32 bytes, a
    [BTreeSet] of keys a [gset] visited in order.  The loop of [peel] has no
    bound in the source and takes fuel here; a remainder by zero is a panic.  The
    proofs are in AntiEntropyCorrect.v and FallbackCorrect.v. *)
From stdpp Require Import base numbers list strings gmap sorting.
From Stdlib Require Import Strings.Byte.
From S2P Require Import Prelude Bytes Text HashTiers SecurityEpoch SortedMultisig Capability CapabilityToken.
Open Scope string_scope.
Open Scope list_scope.
Open Scope Z_scope.

(** What a call that can panic or loop does, with the fuel given. *)
Inductive outcome (A : Type) := Done (a : A) | Panics | OutOfFuel.
Arguments Done {A} _. Arguments Panics {A}. Arguments OutOfFuel {A}.

Inductive ReconcileObjectType := RevocationEvent | CheckpointMarker | EvidenceEntry.

Definition object_type_name (t : ReconcileObjectType) : string :=
  match t with
  | RevocationEvent => "revocation_event"
  | CheckpointMarker => "checkpoint_marker"
  | EvidenceEntry => "evidence_entry"
  end.

Record ObjectId := mkObjectId {
  o_content_hash : ContentHash;
  object_type : ReconcileObjectType;
  o_epoch : SecurityEpoch }.

(** ** Tables *)

Definition Key : Type := list byte.

Record IbltCell := mkIblt { count : Z; key_hash_xor : Key; checksum_xor : Z }.

Definition zero_key : Key := replicate 32 x00.
Definition empty_cell : IbltCell := mkIblt 0 zero_key 0.

Definition is_zero (c : IbltCell) : bool :=
  (count c =? 0) && bool_decide (key_hash_xor c = zero_key) && (checksum_xor c =? 0).

Record Iblt := mkTable { cells : list IbltCell; num_hashes : Z }.

Definition xor_byte (a b : byte) : byte := Zbyte (Z.lxor (byteZ a) (byteZ b)).
Definition xor_into (dst src : Key) : Key := zip_with xor_byte dst src.

(** [key.chunks(4)], each read as a little-endian [u32]; a short last chunk is
    padded with zeros. *)
Fixpoint chunk_xor (fuel : nat) (key : list byte) (csum : Z) : Z :=
  match fuel, key with
  | O, _ | _, [] => csum
  | S fuel, _ => chunk_xor fuel (drop 4 key) (Z.lxor csum (le_value (take 4 key)))
  end.
Definition compute_checksum (key : Key) : Z := chunk_xor (length key) key 0.

Definition hash_to_index (key : Key) (hash_idx num_cells : Z) : Z :=
  let offset := wrap_u64 (hash_idx * 4) mod 32 in
  let raw := le_value (slice key offset 4) in
  let mixed := wrap_u32 (wrap_u32 (raw + wrap_u32 hash_idx) * 0x9E3779B9) in
  mixed mod num_cells.

(** The effect on a cell of adding [s] times [key]. *)
Definition toggle (s : Z) (key : Key) (checksum : Z) (c : IbltCell) : IbltCell :=
  mkIblt (wrap_i64 (count c + s)) (xor_into (key_hash_xor c) key) (Z.lxor (checksum_xor c) checksum).

Module Table.
Definition new (num_cells hashes : Z) : Iblt := mkTable (replicate (Z.to_nat num_cells) empty_cell) hashes.

Definition num_cells (t : Iblt) : Z := zlen (cells t).

(** [for i in hashes { let idx = hash_to_index(...); cells[idx] ... }] *)
Definition each_hash (s : Z) (key : Key) (hashes : list Z) (cs : list IbltCell) : list IbltCell :=
  fold_left (fun cs i => alter (toggle s key (compute_checksum key)) (Z.to_nat (hash_to_index key i (zlen cs))) cs)
    hashes cs.

Definition add_signed (s : Z) (t : Iblt) (key : Key) : outcome Iblt :=
  if (num_cells t =? 0) && (0 <? num_hashes t) then Panics
  else Done (mkTable (each_hash s key (seqZ 0 (num_hashes t)) (cells t)) (num_hashes t)).

Definition insert (t : Iblt) (key : Key) : outcome Iblt := add_signed 1 t key.
Definition remove (t : Iblt) (key : Key) : outcome Iblt := add_signed (-1) t key.
End Table.

Inductive ReconcileError :=
  | IbltSizeMismatch (local_cells remote_cells : Z)
  | PeelFailed (remaining_cells : Z)
  | EpochMismatch (local_epoch remote_epoch : SecurityEpoch)
  | VerificationFailed (object_hash reason : string)
  | EmptyObjectSet.

Definition SymmetricDiff : Type := list Key * list Key.

Definition sub_cell (c d : IbltCell) : IbltCell :=
  mkIblt (wrap_i64 (count c - count d)) (xor_into (key_hash_xor c) (key_hash_xor d))
    (Z.lxor (checksum_xor c) (checksum_xor d)).

(** [keys.sort()] *)
Definition sort_keys (l : list Key) : list Key := merge_sort key_le l.

Module Peel.
(** The test of a cell: its count and key when it looks like a single key. *)
Definition pure (c : IbltCell) : option (Z * Key) :=
  if ((count c =? 1) || (count c =? -1)) && (compute_checksum (key_hash_xor c) =? checksum_xor c)
  then Some (count c, key_hash_xor c) else None.

(** The state of a pass: the cells and the keys found so far. *)
Record state := mkPeel { work : list IbltCell; positive : list Key; negative : list Key; changed : bool }.

Definition visit (hashes : Z) (st : state) (i : nat) : state :=
  match work st !! i ≫= pure with
  | Some (s, key) =>
      mkPeel (Table.each_hash (- s) key (seqZ 0 hashes) (work st))
        (if s =? 1 then positive st ++ [key] else positive st)
        (if s =? 1 then negative st else negative st ++ [key]) true
  | None => st
  end.

(** One round of the outer loop, from [changed = false]. *)
Definition pass (hashes : Z) (st : state) : state :=
  fold_left (visit hashes) (seq 0 (length (work st))) (mkPeel (work st) (positive st) (negative st) false).

(** [while changed] *)
Fixpoint loop (fuel : nat) (hashes : Z) (st : state) : option state :=
  match fuel with
  | O => None
  | S fuel => let st := pass hashes st in if changed st then loop fuel hashes st else Some st
  end.

Definition finish (st : state) : result ReconcileError SymmetricDiff :=
  if forallb is_zero (work st) then Ok (sort_keys (positive st), sort_keys (negative st))
  else Err (PeelFailed (zlen (filter (fun c => is_zero c = false) (work st)))).

Definition peel (fuel : nat) (t : Iblt) : outcome (result ReconcileError SymmetricDiff) :=
  match loop fuel (num_hashes t) (mkPeel (cells t) [] [] false) with
  | Some st => Done (finish st)
  | None => OutOfFuel
  end.

Definition subtract (t other : Iblt) : result ReconcileError Iblt :=
  if negb (zlen (cells t) =? zlen (cells other)) || negb (num_hashes t =? num_hashes other) then
    Err (IbltSizeMismatch (zlen (cells t)) (zlen (cells other)))
  else Ok (mkTable (zip_with sub_cell (cells t) (cells other)) (num_hashes t)).
End Peel.

(** ** Sessions *)

Record ReconcileResult := mkReconcile {
  objects_to_fetch : list Key;
  objects_to_send : list Key;
  fallback_triggered : bool }.

Record ReconcileEvent := mkREvent {
  reconciliation_id : string;
  re_peer : string;
  objects_sent : Z;
  objects_received : Z;
  objects_conflicting : Z;
  re_epoch_id : Z;
  re_trace : string;
  re_event : string;
  re_fallback : bool }.

Record ReconcileConfig := mkRConfig {
  iblt_cells : Z;
  iblt_hashes : Z;
  max_retries : Z;
  retry_scale_factor : Z }.

Definition default_reconcile_config : ReconcileConfig := mkRConfig 256 3 2 2.

Record ReconcileSession := mkRSession {
  rs_epoch : SecurityEpoch;
  rs_config : ReconcileConfig;
  rs_events : list ReconcileEvent;
  rs_counts : gmap string Z }.

Module Recon.
Definition new (e : SecurityEpoch) (c : ReconcileConfig) : ReconcileSession := mkRSession e c [] ∅.

(** [for hash in set { iblt.insert(hash) }] *)
Fixpoint insert_all (l : list Key) (t : Iblt) : outcome Iblt :=
  match l with
  | [] => Done t
  | k :: l => match Table.insert t k with Done t => insert_all l t | Panics => Panics | OutOfFuel => OutOfFuel end
  end.

Definition build_sized (s : ReconcileSession) (num_cells : Z) (objects : gset Key) : outcome Iblt :=
  insert_all (set_iter objects) (Table.new num_cells (iblt_hashes (rs_config s))).

Definition build_iblt (s : ReconcileSession) (objects : gset Key) : outcome Iblt :=
  build_sized s (iblt_cells (rs_config s)) objects.

Definition emit_event (s : ReconcileSession) (e : ReconcileEvent) : ReconcileSession :=
  mkRSession (rs_epoch s) (rs_config s) (rs_events s ++ [e]) (rs_counts s).
Definition record_count (s : ReconcileSession) (ty : string) : ReconcileSession :=
  mkRSession (rs_epoch s) (rs_config s) (rs_events s) (bump_count ty (rs_counts s)).

Definition fallback_result (s : ReconcileSession) (local : gset Key) (peer trace : string) :
    ReconcileSession * result ReconcileError ReconcileResult :=
  let s := emit_event s (mkREvent (trace +:+ ":" +:+ peer) peer 0 0 (Z.of_nat (size local)) (rs_epoch s) trace
                           "reconcile_fallback" true) in
  (record_count s "reconcile_fallback", Ok (mkReconcile [] [] true)).

Definition success (s : ReconcileSession) (peer trace : string) (d : SymmetricDiff) :
    ReconcileSession * result ReconcileError ReconcileResult :=
  let s := emit_event s (mkREvent (trace +:+ ":" +:+ peer) peer (zlen d.1) (zlen d.2) 0 (rs_epoch s) trace
                           "reconcile_success" false) in
  (record_count s "reconcile_success", Ok (mkReconcile d.2 d.1 false)).

(** One attempt with a local table of the given size: [None] to try again. *)
Definition attempt_once (fuel : nat) (s : ReconcileSession) (local_sketch remote : Iblt) (peer trace : string) :
    outcome (option (ReconcileSession * result ReconcileError ReconcileResult)) :=
  if negb (Table.num_cells local_sketch =? Table.num_cells remote) then Done None
  else
    match Peel.subtract local_sketch remote with
    | Err e => Done (Some (s, Err e))
    | Ok diff =>
        match Peel.peel fuel diff with
        | Done (Ok d) => Done (Some (success s peer trace d))
        | Done (Err (PeelFailed _)) => Done None
        | Done (Err e) => Done (Some (s, Err e))
        | Panics => Panics
        | OutOfFuel => OutOfFuel
        end
    end.

(** The loop, [retries] being what [attempt] still lacks to [max_retries]. *)
Fixpoint attempts (fuel retries : nat) (s : ReconcileSession) (local : gset Key) (local_iblt remote : Iblt)
    (current_cells : Z) (peer trace : string) :
    outcome (ReconcileSession * result ReconcileError ReconcileResult) :=
  let sketch := if current_cells =? iblt_cells (rs_config s) then Done local_iblt
                else build_sized s current_cells local in
  match sketch with
  | Panics => Panics
  | OutOfFuel => OutOfFuel
  | Done sketch =>
      match attempt_once fuel s sketch remote peer trace with
      | Panics => Panics
      | OutOfFuel => OutOfFuel
      | Done (Some r) => Done r
      | Done None =>
          match retries with
          | O => Done (fallback_result s local peer trace)
          | S retries =>
              attempts fuel retries s local local_iblt remote
                (wrap_u64 (current_cells * retry_scale_factor (rs_config s))) peer trace
          end
      end
  end.

Definition reconcile (fuel : nat) (s : ReconcileSession) (local : gset Key) (remote : Iblt) (peer trace : string) :
    outcome (ReconcileSession * result ReconcileError ReconcileResult) :=
  match build_iblt s local with
  | Done local_iblt =>
      attempts fuel (Z.to_nat (max_retries (rs_config s))) s local local_iblt remote (iblt_cells (rs_config s))
        peer trace
  | Panics => Panics
  | OutOfFuel => OutOfFuel
  end.

Definition exact_difference (local remote : gset Key) : list Key * list Key :=
  (set_iter (local ∖ remote), set_iter (remote ∖ local)).

Definition drain_events (s : ReconcileSession) : ReconcileSession * list ReconcileEvent :=
  (mkRSession (rs_epoch s) (rs_config s) [] (rs_counts s), rs_events s).
End Recon.

(** ** The fallback protocol *)

Inductive FallbackTrigger :=
  | TPeelFailed (remaining_cells : Z)
  | TVerificationFailed (object_hash reason : string)
  | TTimeout (elapsed_ms slo_ms : Z)
  | TMmrConsistencyFailure (details : string).

Record FallbackEvidence := mkFEvidence {
  fallback_id : string;
  trigger : FallbackTrigger;
  original_reconciliation_id : string;
  scope_size : Z;
  differences_found : Z;
  objects_transferred : Z;
  duration_ms : Z;
  fe_epoch_id : Z;
  fe_trace : string }.

Record FallbackResult := mkFResult {
  fr_to_fetch : list Key;
  fr_to_send : list Key;
  evidence : FallbackEvidence }.

Record FallbackConfig := mkFConfig { max_fallback_rate_pct : Z; monitoring_window : Z }.
Definition default_fallback_config : FallbackConfig := mkFConfig 5 100.

Record FallbackRequest := mkFRequest {
  local_hashes : gset Key;
  remote_hashes : gset Key;
  rq_trigger : FallbackTrigger;
  rq_reconciliation_id : string;
  rq_peer : string;
  rq_trace : string }.

Record FallbackProtocol := mkFProtocol {
  fp_epoch : SecurityEpoch;
  fp_events : list FallbackEvidence;
  fp_counts : gmap string Z;
  fallback_seq : Z }.

Module Fallback.
Definition new (e : SecurityEpoch) : FallbackProtocol := mkFProtocol e [] ∅ 0.

Definition next_seq (p : FallbackProtocol) : FallbackProtocol :=
  mkFProtocol (fp_epoch p) (fp_events p) (fp_counts p) (wrap_u64 (fallback_seq p + 1)).

Definition evidence_of (p : FallbackProtocol) (rq : FallbackRequest) (to_send to_fetch : list Key) : FallbackEvidence :=
  let differences := zlen to_send + zlen to_fetch in
  mkFEvidence ("fb-" +:+ rq_trace rq +:+ "-" +:+ int_to_string (fallback_seq p)) (rq_trigger rq)
    (rq_reconciliation_id rq +:+ ":" +:+ rq_peer rq)
    (Z.max (Z.of_nat (size (local_hashes rq))) (Z.of_nat (size (remote_hashes rq))))
    differences differences 0 (fp_epoch p) (rq_trace rq).

Definition push_evidence (p : FallbackProtocol) (e : FallbackEvidence) (counts : gmap string Z) : FallbackProtocol :=
  mkFProtocol (fp_epoch p) (fp_events p ++ [e]) (bump_count "fallback_executed" counts) (fallback_seq p).

Definition execute (p : FallbackProtocol) (rq : FallbackRequest) : FallbackProtocol * FallbackResult :=
  let p := next_seq p in
  let to_send := set_iter (local_hashes rq ∖ remote_hashes rq) in
  let to_fetch := set_iter (remote_hashes rq ∖ local_hashes rq) in
  let e := evidence_of p rq to_send to_fetch in
  (push_evidence p e (fp_counts p), mkFResult to_fetch to_send e).

(** [h[0] >= lo && h[0] < hi] *)
Definition first_byte (k : Key) : Z := byteZ (default x00 (head k)).
Definition in_bucket (lo hi : Z) (k : Key) : Prop := lo <= first_byte k < hi.
#[export] Instance in_bucket_dec lo hi k : Decision (in_bucket lo hi k).
Proof. unfold in_bucket. apply _. Defined.

Definition bucket (num_ranges r : Z) : Z * Z :=
  let range_size := 256 / num_ranges in
  (r * range_size, if r =? num_ranges - 1 then 256 else r * range_size + range_size).

(** The loop over the ranges: keys to send and to fetch, and ranges skipped. *)
Fixpoint ranges (num_ranges : Z) (rs : list Z) (rq : FallbackRequest) : list Key * list Key * Z :=
  match rs with
  | [] => ([], [], 0)
  | r :: rs =>
      let (lo, hi) := bucket num_ranges r in
      let local_range := filter (in_bucket lo hi) (local_hashes rq) in
      let remote_range := filter (in_bucket lo hi) (remote_hashes rq) in
      let '(to_send, to_fetch, skipped) := ranges num_ranges rs rq in
      if bool_decide (local_range = remote_range) then (to_send, to_fetch, 1 + skipped)
      else (set_iter (local_range ∖ remote_range) ++ to_send, set_iter (remote_range ∖ local_range) ++ to_fetch, skipped)
  end.

Definition execute_incremental (p : FallbackProtocol) (rq : FallbackRequest) (num_ranges : Z) :
    FallbackProtocol * FallbackResult :=
  if num_ranges <=? 1 then execute p rq
  else
    let p := next_seq p in
    let '(to_send, to_fetch, skipped) := ranges num_ranges (seqZ 0 num_ranges) rq in
    let to_send := sort_keys to_send in
    let to_fetch := sort_keys to_fetch in
    let e := evidence_of p rq to_send to_fetch in
    let counts := <["fallback_ranges_skipped" :=
                      wrap_u64 (default 0 (fp_counts p !! "fallback_ranges_skipped") + skipped)]> (fp_counts p) in
    (push_evidence p e counts, mkFResult to_fetch to_send e).

Definition drain_events (p : FallbackProtocol) : FallbackProtocol * list FallbackEvidence :=
  (mkFProtocol (fp_epoch p) [] (fp_counts p) (fallback_seq p), fp_events p).
End Fallback.

(** ** The rate monitor *)

Record FallbackRateAlert := mkAlert {
  rate_pct : Z;
  threshold_pct : Z;
  fallbacks_in_window : Z;
  total_in_window : Z;
  fa_epoch_id : Z }.

Record FallbackRateMonitor := mkMonitor {
  fm_config : FallbackConfig;
  fm_epoch : SecurityEpoch;
  outcomes : list bool;
  cursor : Z;
  total_recorded : Z;
  alerts : list FallbackRateAlert }.

Module Monitor.
Definition new (e : SecurityEpoch) (c : FallbackConfig) : FallbackRateMonitor :=
  let window := Z.max (monitoring_window c) 1 in
  mkMonitor (mkFConfig (max_fallback_rate_pct c) window) e (replicate (Z.to_nat window) false) 0 0 [].

Definition window_size (m : FallbackRateMonitor) : Z := Z.min (total_recorded m) (monitoring_window (fm_config m)).

(** [outcomes[..window_size].iter().filter(|b| **b).count() as u32] *)
Definition fallback_count (m : FallbackRateMonitor) : Z :=
  wrap_u32 (zlen (filter (fun b => b = true) (take (Z.to_nat (window_size m)) (outcomes m)))).

Definition record (m : FallbackRateMonitor) (was_fallback : bool) : FallbackRateMonitor * option FallbackRateAlert :=
  let m := mkMonitor (fm_config m) (fm_epoch m) (<[Z.to_nat (cursor m) := was_fallback]> (outcomes m))
             (wrap_u64 (cursor m + 1) mod monitoring_window (fm_config m)) (wrap_u64 (total_recorded m + 1))
             (alerts m) in
  let total := wrap_u32 (window_size m) in
  if total =? 0 then (m, None)
  else
    let rate := wrap_u32 (fallback_count m * 100) / total in
    if max_fallback_rate_pct (fm_config m) <? rate then
      let a := mkAlert rate (max_fallback_rate_pct (fm_config m)) (fallback_count m) total (fm_epoch m) in
      (mkMonitor (fm_config m) (fm_epoch m) (outcomes m) (cursor m) (total_recorded m) (alerts m ++ [a]), Some a)
    else (m, None).

(** [None] is the panic of a division by zero, for windows of a multiple of 2^32. *)
Definition current_rate_pct (m : FallbackRateMonitor) : option Z :=
  let n := window_size m in
  if n =? 0 then Some 0
  else
    let effective := Z.min (fallback_count m) (wrap_u32 n) in
    if wrap_u32 n =? 0 then None else Some (wrap_u32 (effective * 100) / wrap_u32 n).

Definition is_rate_exceeded (m : FallbackRateMonitor) : option bool :=
  r ← current_rate_pct m; Some (max_fallback_rate_pct (fm_config m) <? r).

Definition drain_alerts (m : FallbackRateMonitor) : FallbackRateMonitor * list FallbackRateAlert :=
  (mkMonitor (fm_config m) (fm_epoch m) (outcomes m) (cursor m) (total_recorded m) [], alerts m).
End Monitor.
