(* ===== verification/AntiEntropyCorrect.v ===== *)
(** * Properties of anti-entropy reconciliation

    Every table is the sketch of a list of signed keys ([sketch]), a function of
    the multiset in which a key and its opposite cancel.  When no cell is hit by
    keys of both sides, peeling ends and finds exactly the difference unless some
    of its keys cover every one of their cells twice; otherwise the checksum, which
    is linear, lets phantom keys through. *)
From stdpp Require Import base numbers list strings gmap sorting.
From Stdlib Require Import Strings.Byte.
From S2P Require Import Prelude Bytes Text HashTiers SecurityEpoch SortedMultisig Capability CapabilityToken AntiEntropy.
Open Scope string_scope.
Open Scope list_scope.
Open Scope Z_scope.

#[local] Arguments compute_checksum : simpl never.
#[local] Arguments wrap_i64 : simpl never.

(** ** Exclusive or of keys *)

Lemma lxor_range n a b : 0 <= n -> 0 <= a < 2 ^ n -> 0 <= b < 2 ^ n -> 0 <= Z.lxor a b < 2 ^ n.
Proof.
  intros Hn Ha Hb. assert (H0 : 0 <= Z.lxor a b) by (apply Z.lxor_nonneg; lia). split; [done|].
  destruct (Z.eq_dec (Z.lxor a b) 0) as [->|Hne]; [lia|]. apply Z.log2_lt_pow2; [lia|].
  pose proof (Z.log2_lxor a b (proj1 Ha) (proj1 Hb)) as Hl.
  assert (Hlog : forall x, 0 <= x < 2 ^ n -> x <> 0 -> Z.log2 x < n) by (intros x Hx ?; apply Z.log2_lt_pow2; lia).
  destruct (Z.eq_dec a 0) as [->|Ha0]; [rewrite Z.lxor_0_l in *; by apply Hlog|].
  destruct (Z.eq_dec b 0) as [->|Hb0]; [rewrite Z.lxor_0_r in *; by apply Hlog|].
  specialize (Hlog a Ha Ha0) as H1. specialize (Hlog b Hb Hb0) as H2. lia.
Qed.

Lemma byteZ_xor a b : byteZ (xor_byte a b) = Z.lxor (byteZ a) (byteZ b).
Proof.
  unfold xor_byte. rewrite byteZ_Zbyte. apply Z.mod_small.
  apply (lxor_range 8); [lia|apply byteZ_range..].
Qed.

Lemma xor_byte_comm a b : xor_byte a b = xor_byte b a.
Proof. apply byteZ_inj. by rewrite !byteZ_xor, Z.lxor_comm. Qed.

Lemma xor_byte_assoc a b c : xor_byte a (xor_byte b c) = xor_byte (xor_byte a b) c.
Proof. apply byteZ_inj. by rewrite !byteZ_xor, Z.lxor_assoc. Qed.

Lemma xor_byte_cancel a b : xor_byte (xor_byte a b) b = a.
Proof. apply byteZ_inj. by rewrite !byteZ_xor, Z.lxor_assoc, Z.lxor_nilpotent, Z.lxor_0_r. Qed.

Lemma xor_into_swap a b c : xor_into (xor_into a b) c = xor_into (xor_into a c) b.
Proof.
  revert b c. induction a as [|x a IH]; intros [|y b] [|z c]; [done..|]. unfold xor_into in *. cbn. f_equal; [|apply IH].
  by rewrite <- !xor_byte_assoc, (xor_byte_comm y z).
Qed.

Lemma xor_into_comm a b : xor_into a b = xor_into b a.
Proof.
  revert b. induction a as [|x a IH]; intros [|y b]; [done..|]. unfold xor_into in *. cbn. by rewrite xor_byte_comm, IH.
Qed.

Lemma xor_into_cancel a b : length a = length b -> xor_into (xor_into a b) b = a.
Proof.
  revert b. induction a as [|x a IH]; intros [|y b] Hl; try done. unfold xor_into in *. cbn.
  rewrite xor_byte_cancel. f_equal. apply IH. by injection Hl.
Qed.

Lemma xor_into_assoc a b c : xor_into a (xor_into b c) = xor_into (xor_into a b) c.
Proof.
  revert b c. induction a as [|x a IH]; intros [|y b] [|z c]; [done..|]. unfold xor_into in *. cbn.
  by rewrite xor_byte_assoc, IH.
Qed.

Lemma length_xor_into a b : length a = length b -> length (xor_into a b) = length a.
Proof. intros Hl. unfold xor_into. rewrite length_zip_with. lia. Qed.

Lemma xor_into_zero n b : length b = n -> xor_into (replicate n x00) b = b.
Proof.
  revert b. induction n as [|n IH]; intros [|x b] Hl; try done. cbn. f_equal; [|apply IH; by injection Hl].
  apply byteZ_inj. rewrite byteZ_xor. apply Z.lxor_0_l.
Qed.

(** ** The checksum is linear *)

Lemma le_value_xor a b :
  length a = length b -> le_value (xor_into a b) = Z.lxor (le_value a) (le_value b).
Proof.
  revert b. induction a as [|x a IH]; intros [|y b] Hl; try done. cbn [xor_into zip_with le_value].
  change (zip_with xor_byte a b) with (xor_into a b). rewrite IH by (by injection Hl). rewrite byteZ_xor.
  assert (Hs : forall x v, 0 <= x < 256 -> 0 <= v -> x + 256 * v = Z.lxor x (Z.shiftl v 8)).
  { intros u v Hu Hv. rewrite Z.shiftl_mul_pow2, (Z.mul_comm v) by lia. change (2 ^ 8) with 256.
    apply Z.add_nocarry_lxor. apply Z.bits_inj'. intros n Hn. rewrite Z.land_spec, Z.bits_0.
    destruct (Z.lt_ge_cases n 8).
    - change 256 with (2 ^ 8). rewrite Z.mul_comm, Z.mul_pow2_bits_low by lia. apply andb_false_r.
    - rewrite (Z.bits_above_log2 u n); [done|lia|]. destruct (Z.eq_dec u 0) as [->|Hne]; [cbn; lia|].
      assert (Z.log2 u < 8) by (apply Z.log2_lt_pow2; lia). lia. }
  pose proof (le_value_range a). pose proof (le_value_range b).
  rewrite !Hs; try apply byteZ_range; try lia; [|apply (lxor_range 8); [lia|apply byteZ_range..]|apply Z.lxor_nonneg; lia].
  rewrite Z.shiftl_lxor. rewrite !Z.lxor_assoc. f_equal. rewrite <- !Z.lxor_assoc. f_equal. apply Z.lxor_comm.
Qed.

Lemma take_xor n a b : take n (xor_into a b) = xor_into (take n a) (take n b).
Proof. revert a b. induction n as [|n IH]; intros [|x a] [|y b]; try done. unfold xor_into in *. cbn. by rewrite IH. Qed.

Lemma drop_xor n a b : drop n (xor_into a b) = xor_into (drop n a) (drop n b).
Proof.
  revert a b. induction n as [|n IH]; intros [|x a] [|y b]; try done; unfold xor_into in *; cbn; [|apply IH].
  by destruct (drop n a).
Qed.

Lemma chunk_xor_linear fuel a b s t :
  length a = length b ->
  chunk_xor fuel (xor_into a b) (Z.lxor s t) = Z.lxor (chunk_xor fuel a s) (chunk_xor fuel b t).
Proof.
  revert a b s t. induction fuel as [|fuel IH]; intros a b s t Hl; [done|].
  destruct a as [|x a], b as [|y b]; try done. cbn [chunk_xor].
  change (xor_into (x :: a) (y :: b)) with (xor_byte x y :: xor_into a b). cbn [chunk_xor].
  change (xor_byte x y :: xor_into a b) with (xor_into (x :: a) (y :: b)).
  rewrite take_xor, drop_xor.
  rewrite le_value_xor by (rewrite !length_take; lia).
  rewrite <- IH by (rewrite !length_drop; lia). f_equal.
  rewrite !Z.lxor_assoc. f_equal. rewrite <- !Z.lxor_assoc. f_equal. apply Z.lxor_comm.
Qed.

(** The checksum of a sum is the sum of the checksums: it says nothing about
    whether a cell holds one key or several. *)
Lemma compute_checksum_xor a b :
  length a = length b -> compute_checksum (xor_into a b) = Z.lxor (compute_checksum a) (compute_checksum b).
Proof.
  intros Hl. unfold compute_checksum. rewrite length_xor_into, Hl by done.
  change 0 with (Z.lxor 0 0) at 1. by apply chunk_xor_linear.
Qed.

(** ** Cells *)

Definition cell_ok (c : IbltCell) : Prop :=
  length (key_hash_xor c) = 32%nat /\ is_i64 (count c) /\ checksum_xor c = compute_checksum (key_hash_xor c).

Definition key_ok (k : Key) : Prop := length k = 32%nat.

Lemma empty_cell_ok : cell_ok empty_cell.
Proof. split; [done|]. split; [vm_compute; split; discriminate|vm_compute; reflexivity]. Qed.

Lemma wrap_i64_add_l a b : wrap_i64 (wrap_i64 a + b) = wrap_i64 (a + b).
Proof.
  unfold wrap_i64. f_equal.
  replace ((a + 2 ^ 63) mod 2 ^ 64 - 2 ^ 63 + b + 2 ^ 63) with ((a + 2 ^ 63) mod 2 ^ 64 + b) by lia.
  rewrite Zplus_mod_idemp_l. f_equal. lia.
Qed.

Lemma wrap_i64_sub_r a b : wrap_i64 (a - wrap_i64 b) = wrap_i64 (a - b).
Proof.
  unfold wrap_i64. f_equal.
  replace (a - ((b + 2 ^ 63) mod 2 ^ 64 - 2 ^ 63) + 2 ^ 63) with (a + 2 ^ 64 - (b + 2 ^ 63) mod 2 ^ 64) by lia.
  rewrite Zminus_mod_idemp_r. f_equal. lia.
Qed.

(** [toggle] with the checksum of its key. *)
Definition put (x : Z * Key) (c : IbltCell) : IbltCell := toggle x.1 x.2 (compute_checksum x.2) c.
#[local] Arguments put : simpl never.

Lemma put_swap x y c : put x (put y c) = put y (put x c).
Proof.
  unfold put, toggle. cbn. f_equal; [|apply xor_into_swap|].
  - rewrite !wrap_i64_add_l. f_equal. lia.
  - rewrite !Z.lxor_assoc. f_equal. apply Z.lxor_comm.
Qed.

Lemma put_cell_ok x c : key_ok x.2 -> cell_ok c -> cell_ok (put x c).
Proof.
  intros Hk (Hl & Hc & Hs). unfold key_ok in Hk. unfold put, toggle. split; [cbn; by rewrite length_xor_into by congruence|].
  split; [apply is_i64_wrap|]. cbn. rewrite compute_checksum_xor by congruence. by rewrite Hs.
Qed.

Lemma put_cancel s k c : key_ok k -> cell_ok c -> put (- s, k) (put (s, k) c) = c.
Proof.
  intros Hk (Hl & Hc & Hs). unfold put, toggle. cbn. destruct c as [n key cs]. cbn in *. f_equal.
  - rewrite wrap_i64_add_l. replace (n + s + - s) with n by lia. by apply wrap_i64_small.
  - apply xor_into_cancel. congruence.
  - by rewrite Z.lxor_assoc, Z.lxor_nilpotent, Z.lxor_0_r.
Qed.

Lemma iter_put_swap a b x y c : Nat.iter a (put x) (Nat.iter b (put y) c) = Nat.iter b (put y) (Nat.iter a (put x) c).
Proof.
  assert (H1 : forall b c, put x (Nat.iter b (put y) c) = Nat.iter b (put y) (put x c)).
  { clear. intros b. induction b as [|b IH]; intros c; [done|].
    rewrite !Nat.iter_succ. by rewrite put_swap, IH. }
  induction a as [|a IH]; [done|]. rewrite !Nat.iter_succ. by rewrite IH, H1.
Qed.

Lemma iter_put_ok n x c : key_ok x.2 -> cell_ok c -> cell_ok (Nat.iter n (put x) c).
Proof. intros Hk Hc. induction n; [done|]. rewrite Nat.iter_succ. by apply put_cell_ok. Qed.

Lemma iter_put_cancel n s k c :
  key_ok k -> cell_ok c -> Nat.iter n (put (- s, k)) (Nat.iter n (put (s, k)) c) = c.
Proof.
  intros Hk Hc. induction n as [|n IH]; [done|]. rewrite Nat.iter_succ_r, Nat.iter_succ.
  rewrite put_cancel; [done|done|by apply iter_put_ok].
Qed.

Lemma sub_cell_put c x d : sub_cell c (put x d) = put (- x.1, x.2) (sub_cell c d).
Proof.
  unfold sub_cell, put, toggle. cbn. f_equal; [|apply xor_into_assoc|].
  - rewrite wrap_i64_sub_r, wrap_i64_add_l. f_equal. lia.
  - by rewrite Z.lxor_assoc.
Qed.

Lemma sub_cell_empty c : cell_ok c -> sub_cell c empty_cell = c.
Proof.
  intros (Hl & Hc & _). destruct c as [n key cs]. unfold sub_cell. cbn [count key_hash_xor checksum_xor empty_cell] in *. f_equal.
  - rewrite Z.sub_0_r. by apply wrap_i64_small.
  - unfold zero_key. by rewrite xor_into_comm, xor_into_zero.
  - apply Z.lxor_0_r.
Qed.

(** ** Sketches *)

(** How many of the [h] hash functions send a key to cell [i] of [n]. *)
Definition hits (n h : Z) (i : nat) (k : Key) : nat :=
  length (filter (fun j => Z.to_nat (hash_to_index k j n) = i) (seqZ 0 h)).

Lemma length_each_hash s k hs cs : length (Table.each_hash s k hs cs) = length cs.
Proof. revert cs. induction hs as [|j hs IH]; intros cs; [done|]. cbn. unfold Table.each_hash in IH. by rewrite IH, length_alter. Qed.

Lemma each_hash_lookup s k hs cs i :
  Table.each_hash s k hs cs !! i =
  Nat.iter (length (filter (fun j => Z.to_nat (hash_to_index k j (zlen cs)) = i) hs)) (put (s, k)) <$> cs !! i.
Proof.
  revert cs. induction hs as [|j hs IH]; intros cs; [symmetry; apply option_fmap_id|].
  unfold Table.each_hash in *. cbn [fold_left]. rewrite IH. unfold zlen. rewrite length_alter. fold (zlen cs).
  rewrite filter_cons. case_decide as Hd.
  - rewrite <- Hd, list_lookup_alter_eq. destruct (cs !! _) as [c|]; [|done]. cbn [fmap option_fmap option_map length].
    by rewrite Nat.iter_succ_r.
  - by rewrite list_lookup_alter_ne.
Qed.

Definition add (h : Z) (cs : list IbltCell) (x : Z * Key) : list IbltCell := Table.each_hash x.1 x.2 (seqZ 0 h) cs.

Lemma length_add h cs x : length (add h cs x) = length cs.
Proof. apply length_each_hash. Qed.

Lemma add_lookup h cs x i : add h cs x !! i = Nat.iter (hits (zlen cs) h i x.2) (put x) <$> cs !! i.
Proof. destruct x. apply each_hash_lookup. Qed.

Lemma zlen_add h cs x : zlen (add h cs x) = zlen cs.
Proof. unfold zlen. by rewrite length_add. Qed.

Lemma add_swap h cs x y : add h (add h cs x) y = add h (add h cs y) x.
Proof.
  apply list_eq. intros i. rewrite !add_lookup, !zlen_add. destruct (cs !! i); [|done]. cbn. by rewrite iter_put_swap.
Qed.

Lemma add_ok h cs x : key_ok x.2 -> Forall cell_ok cs -> Forall cell_ok (add h cs x).
Proof.
  intros Hk Hcs. apply Forall_lookup. intros i c. rewrite add_lookup. intros (c0 & Hc0 & ->)%fmap_Some.
  apply iter_put_ok; [done|]. by eapply Forall_lookup.
Qed.

Lemma add_cancel h cs s k : key_ok k -> Forall cell_ok cs -> add h (add h cs (s, k)) (- s, k) = cs.
Proof.
  intros Hk Hcs. apply list_eq. intros i. rewrite !add_lookup, !zlen_add. destruct (cs !! i) as [c|] eqn:Hc; [|done].
  cbn. f_equal. apply iter_put_cancel; [done|]. by eapply Forall_lookup.
Qed.

(** The table of a list of signed keys. *)
Definition sketch (n : nat) (h : Z) (D : list (Z * Key)) : list IbltCell := fold_left (add h) D (replicate n empty_cell).

Lemma fold_add_perm h D D' cs : D ≡ₚ D' -> fold_left (add h) D cs = fold_left (add h) D' cs.
Proof.
  intros Hp. revert cs. induction Hp as [|x D D' _ IH|x y D|D D' D'' _ IH1 _ IH2]; intros cs; cbn; [done|apply IH| |].
  - by rewrite add_swap.
  - by rewrite IH1.
Qed.

#[export] Instance sketch_proper n h : Proper ((≡ₚ) ==> (=)) (sketch n h).
Proof. intros D D' Hp. by apply fold_add_perm. Qed.

Lemma sketch_snoc n h D x : sketch n h (D ++ [x]) = add h (sketch n h D) x.
Proof. unfold sketch. by rewrite fold_left_app. Qed.

Lemma sketch_cons n h x D : sketch n h (x :: D) = add h (sketch n h D) x.
Proof. rewrite <- sketch_snoc. apply sketch_proper. by rewrite Permutation_app_comm. Qed.

Lemma length_sketch n h D : length (sketch n h D) = n.
Proof. induction D as [|x D IH]; [apply length_replicate|]. by rewrite sketch_cons, length_add. Qed.

Lemma zlen_sketch n h D : zlen (sketch n h D) = Z.of_nat n.
Proof. unfold zlen. by rewrite length_sketch. Qed.

Definition keys_ok (D : list (Z * Key)) : Prop := Forall (fun x => key_ok x.2) D.

Lemma sketch_ok n h D : keys_ok D -> Forall cell_ok (sketch n h D).
Proof.
  induction 1 as [|x D Hx _ IH]; [apply Forall_replicate, empty_cell_ok|]. rewrite sketch_cons. by apply add_ok.
Qed.

Lemma sketch_cancel n h s k D : key_ok k -> keys_ok D -> add h (sketch n h ((s, k) :: D)) (- s, k) = sketch n h D.
Proof. intros Hk HD. rewrite sketch_cons. apply add_cancel; [done|]. by apply sketch_ok. Qed.

(** Subtraction adds the keys of the other table with the opposite sign. *)
Definition opp (x : Z * Key) : Z * Key := (- x.1, x.2).

Lemma sketch_sub n h D D' :
  keys_ok D -> zip_with sub_cell (sketch n h D) (sketch n h D') = sketch n h (D ++ (opp <$> D')).
Proof.
  intros HD. induction D' as [|x D' IH]; cbn [fmap list_fmap].
  - rewrite app_nil_r. pose proof (sketch_ok n h D HD) as Hok. pose proof (length_sketch n h D) as Hl.
    apply list_eq. intros i. rewrite lookup_zip_with. destruct (sketch n h D !! i) as [c|] eqn:Hc; [|done]. cbn.
    change (sketch n h []) with (replicate n empty_cell). rewrite lookup_replicate_2 by (apply lookup_lt_Some in Hc; lia).
    cbn. f_equal. apply sub_cell_empty. by eapply Forall_lookup.
  - rewrite <- Permutation_middle, !sketch_cons, <- IH. apply list_eq. intros i.
    rewrite lookup_zip_with, !add_lookup, lookup_zip_with.
    replace (zlen (zip_with sub_cell (sketch n h D) (sketch n h D'))) with (zlen (sketch n h D'))
      by (unfold zlen; rewrite length_zip_with, !length_sketch; lia).
    destruct (sketch n h D !! i) as [c|]; [|done]. cbn. destruct (sketch n h D' !! i) as [d|]; [|done]. cbn. f_equal.
    generalize (hits (zlen (sketch n h D')) h i x.2). intros m. induction m as [|m IHm]; [done|].
    rewrite !Nat.iter_succ, <- IHm. apply sub_cell_put.
Qed.

(** ** What a cell shows *)

Section cells.
Context (n : nat) (h : Z).
Implicit Types (D : list (Z * Key)) (i : nat).

Abbreviation hit := (hits (Z.of_nat n) h).

Definition total (i : nat) (D : list (Z * Key)) : nat := sum_list_with (fun x => hit i x.2) D.
Definition signed_total (i : nat) (D : list (Z * Key)) : Z := Zsum ((fun x => x.1 * Z.of_nat (hit i x.2)) <$> D).

(** Cell [i] is hit by keys of sign [s] only. *)
Definition one_sign (i : nat) (s : Z) (D : list (Z * Key)) : Prop :=
  (s = 1 \/ s = -1) /\ forall x, x ∈ D -> hit i x.2 <> 0%nat -> x.1 = s.

#[export] Instance total_perm i : Proper ((≡ₚ) ==> (=)) (total i).
Proof. intros D D' Hp. unfold total. by rewrite Hp. Qed.

Lemma hits_bound i k : 0 <= h -> Z.of_nat (hit i k) <= h.
Proof.
  intros Hh. unfold hits.
  pose proof (length_filter (fun j => Z.to_nat (hash_to_index k j (Z.of_nat n)) = i) (seqZ 0 h)) as Hl.
  rewrite length_seqZ in Hl. lia.
Qed.

Lemma total_bound i D : 0 <= h -> Z.of_nat (total i D) <= zlen D * h.
Proof.
  intros Hh. unfold total. induction D as [|x D IH]; [by cbn|]. cbn [sum_list_with]. rewrite zlen_cons.
  pose proof (hits_bound i x.2 Hh). lia.
Qed.

Lemma total_submseteq i D D' : D ⊆+ D' -> (total i D <= total i D')%nat.
Proof. intros [D'' ->]%submseteq_Permutation. unfold total. rewrite sum_list_with_app. lia. Qed.

Lemma signed_total_one i s D : one_sign i s D -> signed_total i D = s * Z.of_nat (total i D).
Proof.
  intros [Hs Hall]. unfold signed_total, total. induction D as [|x D IH]; [cbn; lia|]. cbn [fmap list_fmap Zsum foldr sum_list_with].
  change (foldr Z.add 0 ?l) with (Zsum l). rewrite IH by (intros y Hy; apply Hall; by right).
  destruct (decide (hit i x.2 = 0%nat)) as [->|Hne]; [lia|]. rewrite (Hall x) by (done || by left). lia.
Qed.

Lemma count_put x c m : count (Nat.iter m (put x) c) = wrap_i64 (count c + Z.of_nat m * x.1) \/ m = 0%nat.
Proof.
  induction m as [|m IH]; [by right|]. left. rewrite Nat.iter_succ. unfold put at 1, toggle. cbn [count].
  destruct IH as [->| ->]; [rewrite wrap_i64_add_l; f_equal; lia|]. cbn. f_equal. lia.
Qed.

Lemma sketch_count i c D : sketch n h D !! i = Some c -> count c = wrap_i64 (signed_total i D).
Proof.
  revert c. induction D as [|x D IH]; intros c.
  - change (sketch n h []) with (replicate n empty_cell). intros [-> _]%lookup_replicate. done.
  - rewrite sketch_cons, add_lookup, zlen_sketch. intros (c0 & Hc0 & ->)%fmap_Some. specialize (IH c0 Hc0).
    unfold signed_total in *. cbn [fmap list_fmap Zsum foldr]. change (foldr Z.add 0 ?l) with (Zsum l).
    destruct (count_put x c0 (hit i x.2)) as [->| ->].
    + rewrite IH, wrap_i64_add_l. f_equal. lia.
    + cbn. rewrite IH. f_equal. lia.
Qed.

Lemma sketch_untouched i D : (i < n)%nat -> total i D = 0%nat -> sketch n h D !! i = Some empty_cell.
Proof.
  intros Hi. induction D as [|x D IH]; intros Ht.
  - change (sketch n h []) with (replicate n empty_cell). by apply lookup_replicate_2.
  - unfold total in *. cbn [sum_list_with] in Ht. rewrite sketch_cons, add_lookup, zlen_sketch, IH by lia.
    by replace (hit i x.2) with 0%nat by lia.
Qed.

(** A cell that is hit once shows the key that hits it. *)
Lemma total_one_pure i D :
  (i < n)%nat -> keys_ok D -> Forall (fun x => x.1 = 1 \/ x.1 = -1) D -> total i D = 1%nat ->
  exists x D', D ≡ₚ x :: D' /\ hit i x.2 = 1%nat /\ total i D' = 0%nat /\
    sketch n h D !! i ≫= Peel.pure = Some x.
Proof.
  intros Hi Hk Hs Ht.
  assert (Hx : exists x D', D ≡ₚ x :: D' /\ hit i x.2 = 1%nat /\ total i D' = 0%nat).
  { clear Hk Hs. revert Ht. unfold total. induction D as [|x D IH]; [done|]. cbn [sum_list_with]. intros Ht.
    destruct (decide (hit i x.2 = 0%nat)) as [H0|H0].
    - destruct IH as (y & D' & HD & Hy & H); [lia|]. exists y, (x :: D'). rewrite HD. split; [by constructor|].
      split; [done|]. cbn. lia.
    - exists x, D. split; [done|]. unfold total in *. split; lia. }
  destruct Hx as (x & D' & HD & Hhit & Ht'). exists x, D'. do 3 (split; [done|]).
  assert (Hx : x ∈ D) by (rewrite HD; by left).
  pose proof (proj1 (Forall_forall _ _) Hk x Hx) as Hkx. pose proof (proj1 (Forall_forall _ _) Hs x Hx) as Hsx. cbn in Hkx, Hsx.
  rewrite HD, sketch_cons, add_lookup, zlen_sketch, sketch_untouched, Hhit by done. cbn [fmap option_fmap option_map mbind option_bind].
  unfold Peel.pure, put, toggle. cbn [Nat.iter nat_rect count key_hash_xor checksum_xor empty_cell].
  unfold zero_key. rewrite xor_into_zero, Z.lxor_0_l, Z.eqb_refl by done. destruct x as [s k]. cbn in *.
  by destruct Hsx as [->| ->].
Qed.

(** In a cell of one sign nothing else looks like a key. *)
Lemma pure_total_one i s D x :
  (i < n)%nat -> one_sign i s D -> 0 <= h -> zlen D * h <= i64_max ->
  sketch n h D !! i ≫= Peel.pure = Some x -> total i D = 1%nat.
Proof.
  intros Hi Hs Hh Hb. destruct (sketch n h D !! i) as [c|] eqn:Hc; [|done]. cbn. unfold Peel.pure.
  pose proof (sketch_count i c D Hc) as Hn. rewrite (signed_total_one i s D Hs) in Hn.
  pose proof (total_bound i D Hh). rewrite wrap_i64_small in Hn by (destruct Hs as [[->| ->] _]; mlia).
  case_match eqn:He; [|done]. intros _. destruct Hs as [[->| ->] _]; lia.
Qed.

(** And a cell that was hit is not empty. *)
Lemma total_nonzero i s D c :
  one_sign i s D -> 0 <= h -> zlen D * h <= i64_max -> sketch n h D !! i = Some c -> total i D <> 0%nat ->
  is_zero c = false.
Proof.
  intros Hs Hh Hb Hc Ht. pose proof (sketch_count i c D Hc) as Hn. rewrite (signed_total_one i s D Hs) in Hn.
  pose proof (total_bound i D Hh). rewrite wrap_i64_small in Hn by (destruct Hs as [[->| ->] _]; mlia).
  unfold is_zero. destruct (Z.eqb_spec (count c) 0); [|done]. destruct Hs as [[->| ->] _]; lia.
Qed.
End cells.

(** ** Peeling *)

Section peeling.
Context (n : nat) (h : Z) (D0 : list (Z * Key)).
Implicit Types (D S : list (Z * Key)) (i : nat).

(** What is needed of a difference: its keys have 32 bytes, no cell mixes both
    signs and no counter overflows. *)
Record unmixed_diff (D : list (Z * Key)) : Prop := {
  ud_keys : keys_ok D;
  ud_signs : Forall (fun x => x.1 = 1 \/ x.1 = -1) D;
  ud_cells : forall i, (i < n)%nat -> exists s, one_sign n h i s D;
  ud_hashes : 0 <= h;
  ud_bound : zlen D * h <= i64_max }.

(** Keys that cover none of the cells exactly once. *)
Definition stopping (S : list (Z * Key)) : Prop := forall i, (i < n)%nat -> total n h i S <> 1%nat.

Record peel_inv (D : list (Z * Key)) (st : Peel.state) : Prop := {
  pi_work : Peel.work st = sketch n h D;
  pi_found : D0 ≡ₚ D ++ (pair 1 <$> Peel.positive st) ++ (pair (-1) <$> Peel.negative st) }.

(** What a step may leave: less, but all that stops. *)
Record leaves (D D' : list (Z * Key)) : Prop := {
  lv_sub : D' ⊆+ D;
  lv_stopping : forall S, stopping S -> S ⊆+ D -> S ⊆+ D' }.

Lemma leaves_refl D : leaves D D.
Proof. by split. Qed.

Lemma leaves_trans D D' D'' : leaves D D' -> leaves D' D'' -> leaves D D''.
Proof. intros [H1 H2] [H3 H4]. split; [by etrans|auto]. Qed.

Lemma unmixed_sub D D' : unmixed_diff D -> D' ⊆+ D -> unmixed_diff D'.
Proof.
  intros [H1 H2 H3 H4 H5] Hs. destruct (submseteq_Permutation _ _ Hs) as [D'' HD].
  unfold keys_ok in *. rewrite HD in H1, H2. apply Forall_app in H1 as [H1 _], H2 as [H2 _]. split; try done.
  - intros i Hi. destruct (H3 i Hi) as (s & Hsg & Hall). exists s. split; [done|]. intros x Hx. apply Hall. rewrite HD. set_solver.
  - apply submseteq_length in Hs. unfold zlen in *. nia.
Qed.

Lemma peel_one D x D' i :
  D ≡ₚ x :: D' -> hits (Z.of_nat n) h i x.2 = 1%nat -> total n h i D' = 0%nat -> (i < n)%nat -> leaves D D'.
Proof.
  intros HD Hx Ht Hi. split; [rewrite HD; by apply submseteq_cons|]. intros S HS Hsub. rewrite HD in Hsub.
  apply submseteq_cons_r in Hsub as [?|(S' & HS' & Hsub)]; [done|]. exfalso. apply (HS i Hi). rewrite HS'.
  apply (total_submseteq n h i) in Hsub. unfold total in *. cbn [sum_list_with]. lia.
Qed.

Lemma visit_step D st i :
  unmixed_diff D -> peel_inv D st -> (i < n)%nat ->
  exists D', peel_inv D' (Peel.visit h st i) /\ leaves D D' /\
    ((total n h i D <> 1%nat /\ D' = D /\ Peel.visit h st i = st) \/
     ((length D' < length D)%nat /\ Peel.changed (Peel.visit h st i) = true)).
Proof.
  intros Hu [Hw Hf] Hi. destruct (ud_cells D Hu i Hi) as [s Hs]. unfold Peel.visit. rewrite Hw.
  destruct (decide (total n h i D = 1%nat)) as [Ht|Ht].
  - destruct (total_one_pure n h i D Hi (ud_keys D Hu) (ud_signs D Hu) Ht) as (x & D' & HD & Hhit & Ht' & ->).
    exists D'. pose proof (ud_signs D Hu) as Hsg. pose proof (ud_keys D Hu) as Hk. unfold keys_ok in Hk.
    rewrite HD in Hsg, Hk. apply Forall_cons in Hsg as [Hsx _], Hk as [Hkx Hk].
    split; [|split; [by eapply peel_one|right; split; [rewrite HD; cbn; lia|by destruct x]]].
    destruct x as [sx k]. cbn [fst snd] in *. split; cbn [Peel.work Peel.positive Peel.negative].
    + change (Table.each_hash (- sx) k (seqZ 0 h) ?cs) with (add h cs (- sx, k)).
      rewrite (sketch_proper _ _ _ _ HD). by apply sketch_cancel.
    + rewrite Hf, HD. destruct Hsx as [->| ->]; cbn [Z.eqb Pos.eqb]; rewrite fmap_app; cbn; solve_Permutation.
  - exists D. replace (sketch n h D !! i ≫= Peel.pure) with (@None (Z * Key)).
    { split; [done|]. split; [apply leaves_refl|]. by left. }
    destruct (sketch n h D !! i ≫= Peel.pure) as [x|] eqn:Hp; [|done]. destruct Ht.
    by apply (pure_total_one n h i s D x Hi Hs (ud_hashes D Hu) (ud_bound D Hu)).
Qed.

Lemma visits_step l D st :
  unmixed_diff D -> peel_inv D st -> Forall (fun i => (i < n)%nat) l ->
  let st' := fold_left (Peel.visit h) l st in
  exists D', peel_inv D' st' /\ leaves D D' /\
    ((st' = st /\ D' = D /\ Forall (fun i => total n h i D <> 1%nat) l) \/
     ((length D' < length D)%nat /\ Peel.changed st' = true)).
Proof.
  intros Hu Hi Hl. cbv zeta. revert D st Hu Hi. induction Hl as [|i l Hil Hl IH]; intros D st Hu Hi; cbn [fold_left].
  { exists D. split; [done|]. split; [apply leaves_refl|]. left. by split. }
  destruct (visit_step D st i Hu Hi Hil) as (D1 & Hi1 & Hl1 & Hc1).
  destruct (IH D1 (Peel.visit h st i)) as (D2 & Hi2 & Hl2 & Hc2); [by eapply unmixed_sub, lv_sub|done|].
  exists D2. split; [done|]. split; [by eapply leaves_trans|].
  destruct Hc1 as [(Ht & -> & He)|[Hlen Hch]], Hc2 as [(He2 & -> & Ht2)|[Hlen2 Hch2]].
  - left. rewrite He2, He. split; [done|]. split; [done|]. by constructor.
  - by right.
  - right. by rewrite He2.
  - right. split; [lia|done].
Qed.

(** The loop ends, with keys left that stop it. *)
Lemma loop_step fuel D st :
  unmixed_diff D -> peel_inv D st -> (length D < fuel)%nat ->
  exists D' st', Peel.loop fuel h st = Some st' /\ peel_inv D' st' /\ leaves D D' /\ stopping D'.
Proof.
  revert D st. induction fuel as [|fuel IH]; intros D st Hu Hi Hlen; [lia|]. cbn [Peel.loop]. unfold Peel.pass.
  assert (Hi0 : peel_inv D (Peel.mkPeel (Peel.work st) (Peel.positive st) (Peel.negative st) false)) by (destruct Hi; by split).
  destruct (visits_step (seq 0 (length (Peel.work st))) D _ Hu Hi0) as (D1 & Hi1 & Hl1 & Hc).
  { apply Forall_seq. rewrite (pi_work _ _ Hi), length_sketch. intros j. lia. }
  destruct Hc as [(He & -> & Ht)|[Hlt Hch]].
  - rewrite He in *. cbn [Peel.changed]. exists D, (Peel.mkPeel (Peel.work st) (Peel.positive st) (Peel.negative st) false).
    split; [done|]. split; [done|]. split; [apply leaves_refl|]. intros i Hin. eapply (proj1 (Forall_forall _ _) Ht).
    rewrite (pi_work _ _ Hi), length_sketch. apply elem_of_seq. lia.
  - rewrite Hch. destruct (IH D1 _ (unmixed_sub _ _ Hu (lv_sub _ _ Hl1)) Hi1 ltac:(lia)) as (D2 & st' & He & Hi2 & Hl2 & Hs).
    exists D2, st'. split; [done|]. split; [done|]. split; [by eapply leaves_trans|done].
Qed.
End peeling.

(** ** Tables of sets *)

#[export] Instance bytes_le_antisymm : AntiSymm (=) (@key_le (list byte) _).
Proof.
  intros a b. cbn. unfold bytes_le. intros Ha Hb. apply bytes_cmp_eq.
  rewrite (bytes_cmp_antisym a b) in Hb. by destruct (bytes_cmp a b).
Qed.

Lemma sort_keys_perm l l' : l ≡ₚ l' -> sort_keys l = sort_keys l'.
Proof.
  intros Hp. apply (StronglySorted_unique key_le); [apply StronglySorted_merge_sort; apply _..|].
  unfold sort_keys. by rewrite !merge_sort_Permutation.
Qed.

(** The keys of one side, with their sign. *)
Definition signed (s : Z) (X : gset Key) : list (Z * Key) := pair s <$> set_iter X.

Definition signed_difference (L R : gset Key) : list (Z * Key) := signed 1 (L ∖ R) ++ signed (-1) (R ∖ L).

Lemma insert_all_sketch n h l D :
  (0 < n)%nat ->
  Recon.insert_all l (mkTable (sketch n h D) h) = Done (mkTable (sketch n h ((pair 1 <$> l) ++ D)) h).
Proof.
  intros Hn. revert D. induction l as [|k l IH]; intros D; [done|]. cbn [Recon.insert_all]. unfold Table.insert, Table.add_signed.
  unfold Table.num_cells. cbn [cells num_hashes]. rewrite zlen_sketch. destruct (Z.eqb_spec (Z.of_nat n) 0); [lia|]. cbn [andb].
  change (Table.each_hash 1 k (seqZ 0 h) ?cs) with (add h cs (1, k)). rewrite <- sketch_cons, IH.
  do 2 f_equal. apply sketch_proper. cbn. solve_Permutation.
Qed.

Lemma build_sized_sketch s num_cells X :
  0 < num_cells ->
  Recon.build_sized s num_cells X =
    Done (mkTable (sketch (Z.to_nat num_cells) (iblt_hashes (rs_config s)) (signed 1 X)) (iblt_hashes (rs_config s))).
Proof.
  intros Hn. unfold Recon.build_sized, Table.new.
  change (replicate (Z.to_nat num_cells) empty_cell) with (sketch (Z.to_nat num_cells) (iblt_hashes (rs_config s)) []).
  rewrite insert_all_sketch by lia. by rewrite app_nil_r.
Qed.

Lemma sketch_both n h C D :
  Forall key_ok C -> keys_ok D -> sketch n h ((pair 1 <$> C) ++ (pair (-1) <$> C) ++ D) = sketch n h D.
Proof.
  intros HC HD. induction HC as [|k C Hk HC IH]; [done|]. cbn [fmap list_fmap app].
  rewrite <- (Permutation_middle (pair 1 <$> C)), !sketch_cons.
  rewrite add_swap. etrans; [|exact IH]. rewrite <- (sketch_cons n h (1, k)).
  apply (sketch_cancel n h 1 k); [done|]. unfold keys_ok. rewrite !Forall_app, !Forall_fmap. done.
Qed.

Lemma set_iter_split (X Y : gset Key) : set_iter X ≡ₚ set_iter (X ∖ Y) ++ set_iter (X ∩ Y).
Proof.
  rewrite !set_iter_perm, <- elements_disj_union by set_solver. apply elements_proper.
  intros x. destruct (decide (x ∈ Y)); set_solver.
Qed.

Definition keys_of (X : gset Key) : Prop := forall k, k ∈ X -> key_ok k.

Lemma keys_of_iter X : keys_of X -> Forall key_ok (set_iter X).
Proof. intros HX. apply Forall_forall. intros k. rewrite set_iter_perm, elem_of_elements. apply HX. Qed.

Lemma signed_ok s X : keys_of X -> keys_ok (signed s X).
Proof. intros HX. unfold keys_ok, signed. rewrite Forall_fmap. by apply keys_of_iter. Qed.

Lemma difference_ok L R : keys_of L -> keys_of R -> keys_ok (signed_difference L R).
Proof. intros HL HR. apply Forall_app. split; apply signed_ok; intros k Hk; [apply HL|apply HR]; set_solver. Qed.

(** What both sides have cancels. *)
Lemma subtract_sketch n h L R :
  keys_of L -> keys_of R ->
  Peel.subtract (mkTable (sketch n h (signed 1 L)) h) (mkTable (sketch n h (signed 1 R)) h) =
    Ok (mkTable (sketch n h (signed_difference L R)) h).
Proof.
  intros HL HR. unfold Peel.subtract. cbn [cells num_hashes]. rewrite !zlen_sketch, !Z.eqb_refl. cbn [negb orb].
  rewrite sketch_sub by (by apply signed_ok). do 2 f_equal.
  assert (HC : Forall key_ok (set_iter (L ∩ R))) by (apply keys_of_iter; intros k Hk; apply HL; set_solver).
  rewrite <- (sketch_both n h (set_iter (L ∩ R)) (signed_difference L R)); [|done|by apply difference_ok].
  apply sketch_proper. unfold signed_difference, signed. rewrite (set_iter_split L R), (set_iter_split R L).
  assert (Hc : R ∩ L = L ∩ R) by (apply set_eq; intros k; rewrite !elem_of_intersection; tauto).
  rewrite Hc, !fmap_app.
  assert (Ho : forall l : list Key, opp <$> (pair 1 <$> l) = pair (-1) <$> l) by (intros l; by rewrite <- list_fmap_compose).
  rewrite !Ho. solve_Permutation.
Qed.

(** ** The theorem on peeling *)

(** No cell is hit by keys of both sides. *)
Definition unmixed (n : nat) (h : Z) (L R : gset Key) : Prop :=
  forall i a b, (i < n)%nat -> a ∈ L ∖ R -> b ∈ R ∖ L ->
    hits (Z.of_nat n) h i a = 0%nat \/ hits (Z.of_nat n) h i b = 0%nat.

(** Every nonempty part of the difference has a cell that it hits exactly once. *)
Definition peelable (n : nat) (h : Z) (X : gset Key) : Prop :=
  forall S : gset Key, S ⊆ X -> S <> ∅ ->
    exists i, (i < n)%nat /\ sum_list_with (hits (Z.of_nat n) h i) (elements S) = 1%nat.

(** Keys that hit none of the cells exactly once; the largest such part of a set. *)
Definition stuck (n : nat) (h : Z) (S : gset Key) : Prop :=
  forall i, (i < n)%nat -> sum_list_with (hits (Z.of_nat n) h i) (elements S) <> 1%nat.
Definition stuck_core (n : nat) (h : Z) (X S : gset Key) : Prop :=
  S ⊆ X /\ stuck n h S /\ forall S', S' ⊆ X -> stuck n h S' -> S' ⊆ S.

(** The cells that keys hit. *)
Definition hit_cells (n : nat) (h : Z) (S : gset Key) : list nat :=
  filter (fun i => sum_list_with (hits (Z.of_nat n) h i) (elements S) <> 0%nat) (seq 0 n).

Lemma elem_of_signed s X x : x ∈ signed s X <-> x.1 = s /\ x.2 ∈ X.
Proof.
  unfold signed. rewrite list_elem_of_fmap. split.
  - intros (k & -> & Hk). rewrite set_iter_perm, elem_of_elements in Hk. done.
  - intros [<- Hk]. exists x.2. split; [by destruct x|]. by rewrite set_iter_perm, elem_of_elements.
Qed.

Lemma elem_of_signed_difference L R x :
  x ∈ signed_difference L R <-> (x.1 = 1 /\ x.2 ∈ L ∖ R) \/ (x.1 = -1 /\ x.2 ∈ R ∖ L).
Proof. unfold signed_difference. by rewrite elem_of_app, !elem_of_signed. Qed.

Lemma signed_keys s X : (signed s X).*2 = set_iter X.
Proof. unfold signed. rewrite <- list_fmap_compose. rewrite <- (list_fmap_id (set_iter X)) at 2. by apply list_fmap_ext. Qed.

Lemma NoDup_difference L R : NoDup (signed_difference L R).*2.
Proof.
  unfold signed_difference. rewrite fmap_app, !signed_keys, !set_iter_perm. apply NoDup_app.
  split; [apply NoDup_elements|]. split; [|apply NoDup_elements]. intros k. rewrite !elem_of_elements, !elem_of_difference. tauto.
Qed.

Lemma zlen_difference L R : zlen (signed_difference L R) = Z.of_nat (size (L ∖ R) + size (R ∖ L)).
Proof. unfold signed_difference, signed, zlen. rewrite length_app, !length_fmap, !set_iter_perm. reflexivity. Qed.

Lemma unmixed_difference n h L R :
  keys_of L -> keys_of R -> unmixed n h L R -> 0 <= h ->
  Z.of_nat (size (L ∖ R) + size (R ∖ L)) * h <= i64_max -> unmixed_diff n h (signed_difference L R).
Proof.
  intros HL HR Hu Hh Hb. split; [by apply difference_ok| | |done|by rewrite zlen_difference].
  - apply Forall_forall. intros x [[? _]|[? _]]%elem_of_signed_difference; auto.
  - intros i Hi.
    destruct (decide (Exists (fun k => hits (Z.of_nat n) h i k <> 0%nat) (elements (L ∖ R)))) as [He|He].
    + exists 1. split; [by left|]. intros x [[? _]|[_ Hx]]%elem_of_signed_difference Hne; [done|].
      apply Exists_exists in He as (a & Ha%elem_of_elements & Hna). by destruct (Hu i a x.2 Hi Ha Hx).
    + exists (-1). split; [by right|]. intros x [[_ Hx]|[? _]]%elem_of_signed_difference Hne; [|done].
      destruct He. apply Exists_exists. exists x.2. by rewrite elem_of_elements.
Qed.

Lemma total_keys n h i D : total n h i D = sum_list_with (hits (Z.of_nat n) h i) D.*2.
Proof. unfold total. induction D as [|x D IH]; [done|]. cbn. by rewrite IH. Qed.

(** The keys of a part of the difference, as a set. *)
Lemma part_set n h L R D i :
  D ⊆+ signed_difference L R ->
  let S := list_to_set D.*2 : gset Key in
  S ⊆ (L ∖ R) ∪ (R ∖ L) /\ total n h i D = sum_list_with (hits (Z.of_nat n) h i) (elements S).
Proof.
  intros Hsub. destruct (submseteq_Permutation _ _ Hsub) as [D' HD]. split.
  - intros k. rewrite elem_of_list_to_set. intros (x & -> & Hx)%list_elem_of_fmap.
    assert (Hd : x ∈ signed_difference L R) by (rewrite HD; set_solver). apply elem_of_signed_difference in Hd. rewrite elem_of_union. tauto.
  - pose proof (NoDup_difference L R) as Hnd. rewrite HD, fmap_app in Hnd. apply NoDup_app in Hnd as (Hnd & _).
    rewrite total_keys. by rewrite elements_list_to_set.
Qed.

(** Every part of the difference is one of its signed keys. *)
Lemma part_of_set (L R S : gset Key) :
  S ⊆ (L ∖ R) ∪ (R ∖ L) ->
  exists DS, DS ⊆+ signed_difference L R /\ list_to_set DS.*2 = S.
Proof.
  intros HS. exists (filter (fun x => x.2 ∈ S) (signed_difference L R)).
  split; [apply sublist_submseteq, sublist_filter|].
  apply set_eq. intros k. rewrite elem_of_list_to_set, list_elem_of_fmap. split.
  - intros (x & -> & [? _]%list_elem_of_filter). done.
  - intros Hk. pose proof (HS k Hk) as [Hk'|Hk']%elem_of_union;
      [exists (1, k)|exists (-1, k)]; (split; [done|]); apply list_elem_of_filter; (split; [done|]);
      apply elem_of_signed_difference; [by left|by right].
Qed.

(** What is left over is the core of the difference. *)
Lemma leftover_core n h L R D :
  leaves n h (signed_difference L R) D -> stopping n h D -> stuck_core n h ((L ∖ R) ∪ (R ∖ L)) (list_to_set D.*2).
Proof.
  intros [Hsub Hstop] HD. split_and!.
  - by destruct (part_set n h L R D 0 Hsub).
  - intros i Hi. destruct (part_set n h L R D i Hsub) as [_ <-]. by apply HD.
  - intros S HS Hst. destruct (part_of_set L R S HS) as (DS & HDS & <-).
    assert (Hle : DS ⊆+ D).
    { apply Hstop; [|done]. intros i Hi. destruct (part_set n h L R DS i HDS) as [_ ->]. by apply Hst. }
    intros k. rewrite !elem_of_list_to_set, !list_elem_of_fmap. intros (x & -> & Hx). exists x. split; [done|].
    by eapply elem_of_submseteq.
Qed.

(** An empty core makes a set peelable. *)
Lemma core_peelable (n : nat) (h : Z) (X S : gset Key) : stuck_core n h X S -> (S = ∅ <-> peelable n h X).
Proof.
  intros (HS & Hst & Hmax). split.
  - intros -> T HT Hne.
    destruct (decide (Exists (fun i => sum_list_with (hits (Z.of_nat n) h i) (elements T) = 1%nat) (seq 0 n))) as [He|He].
    { apply Exists_exists in He as (i & Hi%elem_of_seq & He). exists i. split; [lia|done]. }
    destruct Hne. apply set_eq. intros k. split; [|set_solver]. apply Hmax; [done|]. intros i Hi Ht. apply He, Exists_exists.
    exists i. split; [apply elem_of_seq; lia|done].
  - intros Hp. destruct (decide (S = ∅)) as [|Hne]; [done|]. destruct (Hp S HS Hne) as (i & Hi & Ht). by destruct (Hst i Hi).
Qed.

(** Every key hits some cell. *)
Lemma some_hit n h k : (0 < n)%nat -> 0 < h -> exists i, (i < n)%nat /\ hits (Z.of_nat n) h i k <> 0%nat.
Proof.
  intros Hn Hh. exists (Z.to_nat (hash_to_index k 0 (Z.of_nat n))). split.
  - unfold hash_to_index. match goal with |- context [?a mod Z.of_nat n] => pose proof (Z.mod_pos_bound a (Z.of_nat n)) end. lia.
  - unfold hits. rewrite seqZ_cons by lia. rewrite filter_cons_True by done. done.
Qed.

Lemma length_filter_seq {A} (P : A -> Prop) (Q : nat -> Prop) `{!forall x, Decision (P x), !forall i, Decision (Q i)} l k :
  (forall i x, l !! i = Some x -> P x <-> Q (k + i)%nat) -> length (filter P l) = length (filter Q (seq k (length l))).
Proof.
  revert k. induction l as [|x l IH]; intros k HPQ; [done|]. cbn [length seq]. rewrite !filter_cons.
  assert (Hx : P x <-> Q k) by (rewrite (HPQ 0%nat x eq_refl), Nat.add_0_r; done).
  assert (Hl : length (filter P l) = length (filter Q (seq (S k) (length l)))).
  { apply IH. intros i y Hy. rewrite (HPQ (S i) y Hy). by rewrite Nat.add_succ_r. }
  destruct (decide (P x)), (decide (Q k)); cbn; tauto || congruence.
Qed.

(** The cells that are not empty are those that keys hit. *)
Lemma nonempty_cells n h D :
  unmixed_diff n h D ->
  length (filter (fun c => is_zero c = false) (sketch n h D)) = length (filter (fun i => total n h i D <> 0%nat) (seq 0 n)).
Proof.
  intros Hu. rewrite (length_filter_seq _ (fun i => total n h i D <> 0%nat) _ 0), length_sketch; [done|].
  intros i c Hc. pose proof (lookup_lt_Some _ _ _ Hc) as Hi. rewrite length_sketch in Hi. cbn. split.
  - intros Hz Ht. rewrite sketch_untouched in Hc by done. by injection Hc as <-.
  - destruct (ud_cells _ _ _ Hu i Hi) as [s Hs]. by apply (total_nonzero n h i s D c Hs (ud_hashes _ _ _ Hu) (ud_bound _ _ _ Hu)).
Qed.

(** What the end of the loop makes of the keys left over. *)
Lemma finish_spec n h D0 D st :
  (0 < n)%nat -> 0 < h -> unmixed_diff n h D -> peel_inv n h D0 D st ->
  match Peel.finish st with
  | Ok d => D = [] /\ d = (sort_keys (Peel.positive st), sort_keys (Peel.negative st))
  | Err e => D <> [] /\ e = PeelFailed (zlen (filter (fun i => total n h i D <> 0%nat) (seq 0 n)))
  end.
Proof.
  intros Hn Hh Hu Hi. unfold Peel.finish. rewrite (pi_work _ _ _ _ _ Hi). destruct D as [|x D].
  - replace (forallb is_zero (sketch n h [])) with true; [done|].
    change (sketch n h []) with (replicate n empty_cell). clear. induction n as [|n IH]; [done|]. cbn. by rewrite <- IH.
  - destruct (some_hit n h x.2 Hn Hh) as (i & Hi' & Hne). destruct (ud_cells _ _ _ Hu i Hi') as [s Hs].
    destruct (lookup_lt_is_Some_2 (sketch n h (x :: D)) i) as [c Hc]; [by rewrite length_sketch|].
    assert (Hz : is_zero c = false).
    { apply (total_nonzero n h i s (x :: D) c Hs (ud_hashes _ _ _ Hu) (ud_bound _ _ _ Hu) Hc).
      unfold total. cbn [sum_list_with]. lia. }
    destruct (forallb is_zero (sketch n h (x :: D))) eqn:Ha.
    { rewrite forallb_forall in Ha. rewrite Ha in Hz; [done|]. apply list_elem_of_In. by eapply list_elem_of_lookup_2. }
    split; [done|]. unfold zlen. by rewrite nonempty_cells.
Qed.

(** The keys found are the difference. *)
Lemma found_difference L R P N :
  signed_difference L R ≡ₚ (pair 1 <$> P) ++ (pair (-1) <$> N) -> sort_keys P = set_iter (L ∖ R) /\ sort_keys N = set_iter (R ∖ L).
Proof.
  intros Hp.
  assert (Hf : forall (l : list Key) (s s' : Z),
             (filter (fun x : Z * Key => x.1 = s) (pair s' <$> l)).*2 = if decide (s' = s) then l else []).
  { intros l s s'. induction l as [|k l IH]; cbn [fmap list_fmap]; [by destruct (decide (s' = s))|].
    destruct (decide (s' = s)); [rewrite filter_cons_True|rewrite filter_cons_False]; try done. cbn. by rewrite IH. }
  assert (Hs : forall s, (filter (fun x : Z * Key => x.1 = s) (signed_difference L R)).*2 ≡ₚ
                         (filter (fun x : Z * Key => x.1 = s) ((pair 1 <$> P) ++ (pair (-1) <$> N))).*2) by (intros s; by rewrite Hp).
  unfold signed_difference, signed in Hs. setoid_rewrite filter_app in Hs. setoid_rewrite fmap_app in Hs. setoid_rewrite Hf in Hs.
  pose proof (Hs 1) as H1. pose proof (Hs (-1)) as H2. cbn in H1, H2. rewrite !app_nil_r in H1.
  split; [rewrite (sort_keys_perm P (set_iter (L ∖ R)))|rewrite (sort_keys_perm N (set_iter (R ∖ L)))]; try done;
    apply sort_keys_perm; apply set_iter_perm.
Qed.

Lemma peel_difference n h L R fuel :
  (0 < n)%nat -> 0 < h -> keys_of L -> keys_of R -> unmixed n h L R ->
  Z.of_nat (size (L ∖ R) + size (R ∖ L)) * h <= i64_max -> (size (L ∖ R) + size (R ∖ L) < fuel)%nat ->
  exists r, Peel.peel fuel (mkTable (sketch n h (signed_difference L R)) h) = Done r /\
    match r with
    | Ok d => d = Recon.exact_difference L R /\ peelable n h ((L ∖ R) ∪ (R ∖ L))
    | Err e => exists S, stuck_core n h ((L ∖ R) ∪ (R ∖ L)) S /\ S <> ∅ /\ e = PeelFailed (zlen (hit_cells n h S))
    end.
Proof.
  intros Hn Hh HL HR Hu Hb Hf. pose proof (unmixed_difference n h L R HL HR Hu ltac:(lia) Hb) as Hud.
  assert (Hlen : length (signed_difference L R) = (size (L ∖ R) + size (R ∖ L))%nat)
    by (pose proof (zlen_difference L R); unfold zlen in *; lia).
  unfold Peel.peel. cbn [num_hashes cells].
  destruct (loop_step n h (signed_difference L R) fuel (signed_difference L R)
    (Peel.mkPeel (sketch n h (signed_difference L R)) [] [] false) Hud) as (D & st & -> & Hi & Hl & Hs); [|lia|].
  { split; [done|]. cbn. by rewrite app_nil_r. }
  pose proof (finish_spec n h _ D st Hn Hh (unmixed_sub _ _ _ _ Hud (lv_sub _ _ _ _ Hl)) Hi) as Hfin.
  pose proof (leftover_core n h L R D Hl Hs) as Hcore. exists (Peel.finish st). split; [done|].
  destruct (Peel.finish st) as [d|e].
  - destruct Hfin as [-> ->]. split; [|by eapply core_peelable]. pose proof (pi_found _ _ _ _ _ Hi) as Hfound. cbn in Hfound.
    by destruct (found_difference L R _ _ Hfound) as [-> ->].
  - destruct Hfin as [Hne ->]. eexists. split; [done|]. split.
    + destruct D; [done|]. cbn. set_solver.
    + do 2 f_equal. apply list_filter_iff. intros i. by destruct (part_set n h L R D i (lv_sub _ _ _ _ Hl)) as [_ ->].
Qed.

(** C27. Peeling the difference of the lookup tables of two sets refines set difference,
    for tables with at least one cell and one hash function, 32-byte keys and no counter
    overflow, when no cell is hit by differing keys of both sides (so always when one set
    contains the other). The loop of peel, unbounded in the code, ends within one pass
    more than there are differing keys. It returns exactly the two sorted differences if
    every nonempty part of the difference has a cell that it hits once; otherwise it fails
    with the number of cells hit by the largest part of the difference that hits no cell
    once. *)
Theorem iblt_difference_exact (n h : Z) (L R : gset Key) (fuel : nat) :
  0 < n -> 0 < h -> keys_of L -> keys_of R -> unmixed (Z.to_nat n) h L R ->
  Z.of_nat (size (L ∖ R) + size (R ∖ L)) * h <= i64_max -> (size (L ∖ R) + size (R ∖ L) < fuel)%nat ->
  exists local remote diff r,
    Recon.insert_all (set_iter L) (Table.new n h) = Done local /\
    Recon.insert_all (set_iter R) (Table.new n h) = Done remote /\
    Peel.subtract local remote = Ok diff /\ Peel.peel fuel diff = Done r /\
    match r with
    | Ok d => d = (set_iter (L ∖ R), set_iter (R ∖ L)) /\ peelable (Z.to_nat n) h ((L ∖ R) ∪ (R ∖ L))
    | Err e => exists S, stuck_core (Z.to_nat n) h ((L ∖ R) ∪ (R ∖ L)) S /\ S <> ∅ /\ e = PeelFailed (zlen (hit_cells (Z.to_nat n) h S))
    end.
Proof.
  intros Hn Hh HL HR Hu Hb Hf. pose (s := Recon.new 0 (mkRConfig n h 0 1)).
  destruct (peel_difference (Z.to_nat n) h L R fuel ltac:(lia) Hh HL HR Hu Hb Hf) as (r & Hr & Hm).
  exists (mkTable (sketch (Z.to_nat n) h (signed 1 L)) h), (mkTable (sketch (Z.to_nat n) h (signed 1 R)) h).
  eexists _, r. split; [exact (build_sized_sketch s n L Hn)|]. split; [exact (build_sized_sketch s n R Hn)|].
  split; [by apply subtract_sketch|]. split; [exact Hr|exact Hm].
Qed.

(** ** Sessions *)

Section reconcile.
Context (s : ReconcileSession) (local remote : gset Key) (nR : Z) (fuel : nat) (peer trace : string).
Context (Hh : 0 < iblt_hashes (rs_config s)) (Hc : 0 < iblt_cells (rs_config s)) (HnR : 0 < nR).
Context (Hl : keys_of local) (Hr : keys_of remote).
Context (Hu : unmixed (Z.to_nat nR) (iblt_hashes (rs_config s)) local remote).
Context (Hb : Z.of_nat (size (local ∖ remote) + size (remote ∖ local)) * iblt_hashes (rs_config s) <= i64_max).
Context (Hf : (size (local ∖ remote) + size (remote ∖ local) < fuel)%nat).

Abbreviation table n X := (mkTable (sketch (Z.to_nat n) (iblt_hashes (rs_config s)) (signed 1 X)) (iblt_hashes (rs_config s))).
Abbreviation can_peel := (peelable (Z.to_nat nR) (iblt_hashes (rs_config s)) ((local ∖ remote) ∪ (remote ∖ local))).

Lemma attempt_once_spec n :
  0 < n ->
  exists o, Recon.attempt_once fuel s (table n local) (table nR remote) peer trace = Done o /\
    match o with
    | Some x => x = Recon.success s peer trace (Recon.exact_difference local remote) /\ n = nR /\ can_peel
    | None => ~ (n = nR /\ can_peel)
    end.
Proof.
  intros Hn. unfold Recon.attempt_once, Table.num_cells. cbn [cells]. rewrite !zlen_sketch.
  destruct (Z.eqb_spec (Z.of_nat (Z.to_nat n)) (Z.of_nat (Z.to_nat nR))) as [He|He]; cbn [negb];
    [|exists None; split; [done|]; intros [-> _]; lia].
  assert (n = nR) as -> by lia. rewrite subtract_sketch by done.
  destruct (peel_difference (Z.to_nat nR) _ local remote fuel ltac:(lia) Hh Hl Hr Hu Hb Hf) as (r & -> & Hm).
  destruct r as [d|e].
  - destruct Hm as [-> Hp]. eexists. split; [done|]. done.
  - destruct Hm as (S & Hcore & Hne & ->). exists None. split; [done|]. intros [_ Hp]. apply Hne. by eapply core_peelable.
Qed.

Lemma attempts_spec retries current :
  0 < current -> 1 <= retry_scale_factor (rs_config s) ->
  current * retry_scale_factor (rs_config s) ^ Z.of_nat retries <= u64_max ->
  exists b : bool,
    Recon.attempts fuel retries s local (table (iblt_cells (rs_config s)) local) (table nR remote) current peer trace =
      Done (if b then Recon.success s peer trace (Recon.exact_difference local remote)
            else Recon.fallback_result s local peer trace) /\
    (b = true <-> (exists a, 0 <= a <= Z.of_nat retries /\ nR = current * retry_scale_factor (rs_config s) ^ a) /\ can_peel).
Proof.
  intros Hcur Hscale. set (f := retry_scale_factor (rs_config s)) in *. revert current Hcur.
  induction retries as [|retries IH]; intros current Hcur Hmax; cbn [Recon.attempts].
  all: assert (Hsk : (if current =? iblt_cells (rs_config s) then Done (table (iblt_cells (rs_config s)) local)
                      else Recon.build_sized s current local) = Done (table current local))
         by (destruct (Z.eqb_spec current (iblt_cells (rs_config s))) as [->|]; [done|by apply build_sized_sketch]).
  all: rewrite Hsk; destruct (attempt_once_spec current Hcur) as ([x|] & -> & Hx).
  - destruct Hx as (-> & -> & Hp). exists true. split; [done|]. split; [|done]. intros _. split; [|done]. exists 0. split; lia.
  - exists false. split; [done|]. split; [done|]. intros [(a & Ha & He) Hp]. assert (a = 0) as -> by lia. destruct Hx. split; [lia|done].
  - destruct Hx as (-> & -> & Hp). exists true. split; [done|]. split; [|done]. intros _. split; [|done]. exists 0. split; lia.
  - fold f. assert (Hpow : f ^ Z.of_nat (S retries) = f * f ^ Z.of_nat retries)
      by (rewrite Nat2Z.inj_succ, Z.pow_succ_r by lia; done).
    assert (Hp1 : 1 <= f ^ Z.of_nat retries) by (pose proof (Z.pow_pos_nonneg f (Z.of_nat retries)); lia).
    rewrite Hpow, Z.mul_assoc in Hmax. rewrite wrap_u64_small by (split; nia).
    destruct (IH (current * f)) as (b & Hb' & Hiff); [nia|done|]. exists b. split; [exact Hb'|]. rewrite Hiff.
    split; (intros [(a & Ha & He) Hp]; split; [|done]).
    + exists (a + 1). split; [lia|]. rewrite Z.pow_add_r, Z.pow_1_r by lia. lia.
    + destruct (Z.eq_dec a 0) as [->|Ha0]; [destruct Hx; split; [lia|done]|]. exists (a - 1). split; [lia|].
      rewrite He. replace a with ((a - 1) + 1) at 1 by lia. rewrite Z.pow_add_r, Z.pow_1_r by lia. lia.
Qed.
End reconcile.

Section outcome.
Context (s : ReconcileSession) (local remote : gset Key) (nR : Z) (table : Iblt) (fuel : nat) (peer trace : string).
Abbreviation c := (rs_config s).

(** What a session, a table of a peer and the two sets must satisfy: at least one
    cell and one hash function, tables whose sizes fit a [usize], a peer that uses
    as many hash functions, 32-byte keys, no mixed cell and no counter overflow. *)
Record reconcilable : Prop := {
  rc_cells : 0 < iblt_cells c;
  rc_hashes : 0 < iblt_hashes c;
  rc_retries : 0 <= max_retries c;
  rc_scale : 1 <= retry_scale_factor c;
  rc_sizes : iblt_cells c * retry_scale_factor c ^ max_retries c <= u64_max;
  rc_local : keys_of local;
  rc_remote : keys_of remote;
  rc_peer : 0 < nR;
  rc_table : Recon.build_sized s nR remote = Done table;
  rc_unmixed : unmixed (Z.to_nat nR) (iblt_hashes c) local remote;
  rc_counts : Z.of_nat (size (local ∖ remote) + size (remote ∖ local)) * iblt_hashes c <= i64_max;
  rc_fuel : (size (local ∖ remote) + size (remote ∖ local) < fuel)%nat }.

(** The peer's table has the size of one of the attempts. *)
Definition size_attempted : Prop :=
  exists a, 0 <= a <= max_retries c /\ nR = iblt_cells c * retry_scale_factor c ^ a.

Lemma reconcile_outcome :
  reconcilable ->
  exists s' r, Recon.reconcile fuel s local table peer trace = Done (s', Ok r) /\
    length (rs_events s') = S (length (rs_events s)) /\
    (if fallback_triggered r then objects_to_fetch r = [] /\ objects_to_send r = []
     else objects_to_fetch r = set_iter (remote ∖ local) /\ objects_to_send r = set_iter (local ∖ remote)) /\
    (fallback_triggered r = false <->
     size_attempted /\ peelable (Z.to_nat nR) (iblt_hashes c) ((local ∖ remote) ∪ (remote ∖ local))).
Proof.
  intros [Hc Hh Hm Hscale Hmax Hl Hr HnR Ht Hu Hb Hf].
  rewrite build_sized_sketch in Ht by done. injection Ht as <-.
  unfold Recon.reconcile, Recon.build_iblt. rewrite build_sized_sketch by done.
  destruct (attempts_spec s local remote nR fuel peer trace Hh HnR Hl Hr Hu Hb Hf
    (Z.to_nat (max_retries (rs_config s))) (iblt_cells (rs_config s))) as (b & -> & Hiff); [done|done|by rewrite Z2Nat.id|].
  rewrite Z2Nat.id in Hiff by done.
  destruct b; eexists _, _; (split; [reflexivity|]); cbn; rewrite length_app; cbn; (split; [lia|]); (split; [done|]);
    unfold size_attempted; rewrite <- Hiff; done.
Qed.

(** C28. Reconciling with the table of a peer returns Ok and records one event, when both
    sides use the same number of hash functions, sizes and counters do not overflow, the
    tables have at least one cell and one hash function, the scale is at least one and no
    cell of the peer's size mixes differing keys of both sides. Without the fallback flag
    the objects to fetch and to send are exactly the two sorted differences. The flag is
    not set when the peer's table has the size of one of the attempts and every nonempty
    part of the difference has a cell that it hits once. *)
Theorem reconcile_exact_or_fallback :
  reconcilable ->
  exists s' r, Recon.reconcile fuel s local table peer trace = Done (s', Ok r) /\
    length (rs_events s') = S (length (rs_events s)) /\
    (fallback_triggered r = false ->
     objects_to_fetch r = set_iter (remote ∖ local) /\ objects_to_send r = set_iter (local ∖ remote)) /\
    (size_attempted -> peelable (Z.to_nat nR) (iblt_hashes c) ((local ∖ remote) ∪ (remote ∖ local)) ->
     fallback_triggered r = false).
Proof.
  intros H. destruct (reconcile_outcome H) as (s' & r & Hr & He & Hd & Hiff). exists s', r. split_and!; [done..| |].
  - intros Hf. by rewrite Hf in Hd.
  - intros Hs Hp. by apply Hiff.
Qed.

(** Attempts after a failed peeling do not help: when the difference cannot be
    peeled in a table of the peer's size, the session falls back, with empty lists,
    however many attempts the configuration allows. *)
Theorem retries_never_help :
  reconcilable -> ~ peelable (Z.to_nat nR) (iblt_hashes c) ((local ∖ remote) ∪ (remote ∖ local)) ->
  exists s', Recon.reconcile fuel s local table peer trace = Done (s', Ok (mkReconcile [] [] true)).
Proof.
  intros H Hp. destruct (reconcile_outcome H) as (s' & [tf ts fb] & Hr & _ & Hd & Hiff). cbn in *. exists s'.
  destruct fb; [by destruct Hd as [-> ->]|]. destruct Hp. by apply Hiff.
Qed.
End outcome.

(** ** What the checksum does not do *)

(** In every table the checksum of a cell is that of its key field, whatever keys
    it holds: a count of one or minus one is always taken for a single key. *)
Theorem checksum_never_rejects (n : nat) (h : Z) (D : list (Z * Key)) (c : IbltCell) :
  keys_ok D -> c ∈ sketch n h D -> count c = 1 \/ count c = -1 -> Peel.pure c = Some (count c, key_hash_xor c).
Proof.
  intros HD Hc Hn. pose proof (sketch_ok n h D HD) as Hok. rewrite Forall_forall in Hok.
  destruct (Hok c Hc) as (_ & _ & He). unfold Peel.pure. rewrite He, Z.eqb_refl. by destruct Hn as [->| ->].
Qed.

(** Keys whose first three windows start with the given bytes. *)
Definition sample_key (b0 b1 b2 tag : Z) : Key :=
  [Zbyte b0; x00; x00; x00; Zbyte b1; x00; x00; x00; Zbyte b2; x00; x00; x00] ++ replicate 19 x00 ++ [Zbyte tag].

Definition sample_set (l : list (Z * Z * Z * Z)) : gset Key :=
  list_to_set ((fun '(a, b, c, t) => sample_key a b c t) <$> l).

Definition default_session : ReconcileSession := Recon.new 1 default_reconcile_config.

(** Reconciliation of two known sets under the default configuration. *)
Definition reconcile_sets (fuel : nat) (local remote : gset Key) : outcome (result ReconcileError ReconcileResult) :=
  match Recon.build_iblt default_session remote with
  | Done t =>
      match Recon.reconcile fuel default_session local t "peer" "trace" with
      | Done (_, r) => Done r
      | Panics => Panics
      | OutOfFuel => OutOfFuel
      end
  | Panics => Panics
  | OutOfFuel => OutOfFuel
  end.

Definition phantom : Key := sample_key 12 244 250 0.

(** Two keys of one side and one of the other meet in a cell: their exclusive or
    passes for a key, and the reconciliation succeeds with an object to fetch and
    to send that neither side has. *)
Theorem phantom_object_reported :
  let local := sample_set [(0, 1, 2, 1); (5, 255, 6, 2)] in
  let remote := sample_set [(9, 10, 254, 3)] in
  (phantom ∉ local ∪ remote) /\
  reconcile_sets 10 local remote =
    Done (Ok (mkReconcile [sample_key 9 10 254 3; phantom]
                [sample_key 0 1 2 1; sample_key 5 255 6 2; phantom] false)).
Proof. split; [vm_compute; by intros ?|vm_compute; reflexivity]. Qed.

(** Nine objects that differ: each of the first keys is kept from being peeled by
    two that share its other cells. *)
Definition stuck_local : gset Key :=
  sample_set [(0, 1, 2, 1); (3, 1, 2, 4); (3, 1, 2, 5); (5, 255, 6, 2); (5, 7, 6, 6); (5, 7, 6, 7)].
Definition stuck_remote : gset Key := sample_set [(9, 10, 254, 3); (9, 10, 11, 8); (9, 10, 11, 9)].

Definition diff_of (local remote : gset Key) : option Iblt :=
  match Recon.build_iblt default_session local, Recon.build_iblt default_session remote with
  | Done l, Done r => match Peel.subtract l r with Ok d => Some d | Err _ => None end
  | _, _ => None
  end.

Definition stuck_cells : list IbltCell :=
  Eval vm_compute in match diff_of stuck_local stuck_remote with Some d => cells d | None => [] end.

Lemma stuck_diff : diff_of stuck_local stuck_remote = Some (mkTable stuck_cells 3).
Proof. vm_compute. reflexivity. Qed.

(** A pass takes the phantom out, puts it back and says that something changed. *)
Lemma stuck_pass P N b :
  Peel.pass 3 (Peel.mkPeel stuck_cells P N b) = Peel.mkPeel stuck_cells (P ++ [phantom]) (N ++ [phantom]) true.
Proof. vm_compute. reflexivity. Qed.

Lemma stuck_loop fuel P N b : Peel.loop fuel 3 (Peel.mkPeel stuck_cells P N b) = None.
Proof. revert P N b. induction fuel as [|fuel IH]; intros P N b; [done|]. cbn [Peel.loop]. rewrite stuck_pass. apply IH. Qed.

(** Reconciling these sets never returns: the loop of [peel] has no end, and its
    lists grow with every pass. *)
Theorem reconcile_never_returns (fuel : nat) : reconcile_sets fuel stuck_local stuck_remote = OutOfFuel.
Proof.
  pose proof stuck_diff as Hd. unfold diff_of in Hd. unfold reconcile_sets, Recon.reconcile.
  destruct (Recon.build_iblt default_session stuck_local) as [l| |]; [|done..].
  destruct (Recon.build_iblt default_session stuck_remote) as [r| |]; [|done..].
  change (Z.to_nat (max_retries (rs_config default_session))) with 2%nat. cbn [Recon.attempts].
  rewrite Z.eqb_refl. unfold Recon.attempt_once.
  assert (Hn : Table.num_cells l = Table.num_cells r).
  { revert Hd. unfold Peel.subtract, Table.num_cells. by destruct (Z.eqb_spec (zlen (cells l)) (zlen (cells r))). }
  rewrite Hn, Z.eqb_refl. cbn [negb]. destruct (Peel.subtract l r) as [d|]; [|done]. injection Hd as ->.
  unfold Peel.peel. cbn [num_hashes cells]. by rewrite stuck_loop.
Qed.

(** ** Witnesses *)

Lemma keys_of_check X : forallb (fun k : Key => Nat.eqb (length k) 32) (elements X) = true -> keys_of X.
Proof.
  rewrite forallb_forall. intros H k Hk. apply Nat.eqb_eq, H. by apply list_elem_of_In, elem_of_elements.
Qed.

Lemma unmixed_check n h L R :
  forallb (fun i => forallb (fun k => Nat.eqb (hits (Z.of_nat n) h i k) 0) (elements (L ∖ R)) ||
                    forallb (fun k => Nat.eqb (hits (Z.of_nat n) h i k) 0) (elements (R ∖ L))) (seq 0 n) = true ->
  unmixed n h L R.
Proof.
  rewrite forallb_forall. intros H i a b Hi Ha Hb. specialize (H i). rewrite <- list_elem_of_In, elem_of_seq in H.
  specialize (H ltac:(lia)). apply orb_true_iff in H as [H|H]; rewrite forallb_forall in H; [left|right];
    apply Nat.eqb_eq, H; by apply list_elem_of_In, elem_of_elements.
Qed.

Definition two_local : gset Key := sample_set [(0, 1, 2, 1); (5, 6, 7, 2); (20, 21, 22, 4)].
Definition two_remote : gset Key := sample_set [(40, 50, 60, 3); (20, 21, 22, 4)].

Lemma iblt_difference_exact_witness :
  exists local remote diff r,
    Recon.insert_all (set_iter two_local) (Table.new 256 3) = Done local /\
    Recon.insert_all (set_iter two_remote) (Table.new 256 3) = Done remote /\
    Peel.subtract local remote = Ok diff /\ Peel.peel 5 diff = Done r.
Proof.
  destruct (iblt_difference_exact 256 3 two_local two_remote 5) as (l & r & d & p & H1 & H2 & H3 & H4 & _).
  - lia.
  - lia.
  - apply keys_of_check. vm_compute. reflexivity.
  - apply keys_of_check. vm_compute. reflexivity.
  - apply unmixed_check. vm_compute. reflexivity.
  - vm_compute. discriminate.
  - apply Nat.ltb_lt. vm_compute. reflexivity.
  - exists l, r, d, p. exact (conj H1 (conj H2 (conj H3 H4))).
Defined.

Lemma two_reconcilable t :
  Recon.build_sized default_session 512 two_remote = Done t -> reconcilable default_session two_local two_remote 512 t 5.
Proof.
  intros Ht. constructor.
  - reflexivity.
  - reflexivity.
  - vm_compute. discriminate.
  - vm_compute. discriminate.
  - vm_compute. discriminate.
  - apply keys_of_check. vm_compute. reflexivity.
  - apply keys_of_check. vm_compute. reflexivity.
  - reflexivity.
  - exact Ht.
  - apply unmixed_check. vm_compute. reflexivity.
  - vm_compute. discriminate.
  - apply Nat.ltb_lt. vm_compute. reflexivity.
Defined.

(** A peer with tables of twice the configured size. *)
Lemma reconcile_exact_or_fallback_witness :
  match Recon.build_sized default_session 512 two_remote with
  | Done t =>
      size_attempted default_session 512 /\
      exists s r, Recon.reconcile 5 default_session two_local t "peer" "trace" = Done (s, Ok r) /\
        (fallback_triggered r = false -> objects_to_fetch r = set_iter (two_remote ∖ two_local))
  | _ => False
  end.
Proof.
  destruct (Recon.build_sized default_session 512 two_remote) as [t| |] eqn:Ht.
  - split; [exists 1; vm_compute; split; [split; discriminate|reflexivity]|].
    destruct (reconcile_exact_or_fallback default_session two_local two_remote 512 t 5 "peer" "trace" (two_reconcilable t Ht))
      as (s & r & H & _ & Hd & _). exists s, r. split; [exact H|]. intros Hf. exact (proj1 (Hd Hf)).
  - rewrite build_sized_sketch in Ht by lia. discriminate.
  - rewrite build_sized_sketch in Ht by lia. discriminate.
Defined.
