(* ===== verification/FallbackCorrect.v ===== *)
(** * Properties of the anti-entropy fallback and its monitor

    The fallback by ranges of the first byte finds what the plain fallback finds,
    the exact difference in order; the ring buffer of the rate monitor is the
    window of the last outcomes. *)
From stdpp Require Import base numbers list strings gmap sorting.
From Stdlib Require Import Strings.Byte.
From S2P Require Import Prelude Bytes Text HashTiers SecurityEpoch SortedMultisig Capability CapabilityToken AntiEntropy AntiEntropyCorrect.
Open Scope string_scope.
Open Scope list_scope.
Open Scope Z_scope.

(** ** Ranges *)

Definition bucket_of (num_ranges r : Z) (k : Key) : Prop :=
  Fallback.in_bucket (Fallback.bucket num_ranges r).1 (Fallback.bucket num_ranges r).2 k.

Lemma first_byte_range k : 0 <= Fallback.first_byte k < 256.
Proof. apply byteZ_range. Qed.

(** Every key is in exactly one range. *)
Lemma bucket_exists num k : 1 < num <= 255 -> exists r, 0 <= r < num /\ bucket_of num r k.
Proof.
  intros Hn. pose proof (first_byte_range k). unfold bucket_of, Fallback.in_bucket, Fallback.bucket. cbn [fst snd].
  set (b := Fallback.first_byte k) in *. assert (Hs : 1 <= 256 / num) by (apply Z.div_le_lower_bound; lia).
  set (s := 256 / num) in *. pose proof (Z.div_mod b s ltac:(lia)). pose proof (Z.mod_pos_bound b s ltac:(lia)).
  exists (Z.min (b / s) (num - 1)). pose proof (Z.div_pos b s ltac:(lia) ltac:(lia)).
  destruct (Z.eqb_spec (Z.min (b / s) (num - 1)) (num - 1)); split; nia.
Qed.

Lemma bucket_unique num k r r' :
  1 < num -> 0 <= r < num -> 0 <= r' < num -> bucket_of num r k -> bucket_of num r' k -> r = r'.
Proof.
  intros Hn Hr Hr'. unfold bucket_of, Fallback.in_bucket, Fallback.bucket. cbn [fst snd].
  pose proof (Z.div_pos 256 num ltac:(lia) ltac:(lia)). set (s := 256 / num) in *.
  destruct (Z.eqb_spec r (num - 1)), (Z.eqb_spec r' (num - 1)); try nia.
Qed.

(** The keys of [X] in range [r], not in [Y]. *)
Definition range_diff (num : Z) (X Y : gset Key) (r : Z) : list Key :=
  let (lo, hi) := Fallback.bucket num r in
  set_iter (filter (Fallback.in_bucket lo hi) X ∖ filter (Fallback.in_bucket lo hi) Y).

Lemma elem_of_range_diff num X Y r k : k ∈ range_diff num X Y r <-> bucket_of num r k /\ k ∈ X ∖ Y.
Proof.
  unfold range_diff, bucket_of. destruct (Fallback.bucket num r) as [lo hi]. cbn [fst snd].
  rewrite set_iter_perm, elem_of_elements, !elem_of_difference, !elem_of_filter. tauto.
Qed.

Lemma range_diff_same num X Y r :
  let (lo, hi) := Fallback.bucket num r in
  filter (Fallback.in_bucket lo hi) X = filter (Fallback.in_bucket lo hi) Y -> range_diff num X Y r = [].
Proof.
  destruct (Fallback.bucket num r) as [lo hi] eqn:Hb. intros He. apply elem_of_nil_inv. intros k Hk.
  apply elem_of_range_diff in Hk as [Hin [HX HY]%elem_of_difference]. unfold bucket_of in Hin. rewrite Hb in Hin.
  apply HY, (elem_of_filter (Fallback.in_bucket lo hi)). rewrite <- He. by apply elem_of_filter.
Qed.

Lemma ranges_eq num rs rq :
  let '(to_send, to_fetch, _) := Fallback.ranges num rs rq in
  to_send = concat (range_diff num (local_hashes rq) (remote_hashes rq) <$> rs) /\
  to_fetch = concat (range_diff num (remote_hashes rq) (local_hashes rq) <$> rs).
Proof.
  induction rs as [|r rs IH]; [done|]. cbn [Fallback.ranges fmap list_fmap concat].
  pose proof (range_diff_same num (local_hashes rq) (remote_hashes rq) r) as H1.
  pose proof (range_diff_same num (remote_hashes rq) (local_hashes rq) r) as H2. unfold range_diff at 1 3. unfold range_diff in H1, H2.
  destruct (Fallback.bucket num r) as [lo hi]. destruct (Fallback.ranges num rs rq) as [[ts tf] sk]. destruct IH as [-> ->].
  case_bool_decide as He; [|done]. rewrite H1, H2 by done. done.
Qed.

Lemma concat_ranges num X Y :
  1 < num <= 255 -> concat (range_diff num X Y <$> seqZ 0 num) ≡ₚ set_iter (X ∖ Y).
Proof.
  intros Hn. apply NoDup_Permutation.
  - assert (Hgen : forall rs, NoDup rs -> (forall r, r ∈ rs -> 0 <= r < num) -> NoDup (concat (range_diff num X Y <$> rs))).
    { induction rs as [|r rs IH]; intros Hnd Hrs; [constructor|]. apply NoDup_cons in Hnd as [Hr Hnd]. cbn [fmap list_fmap concat].
      apply NoDup_app. split; [|split; [|apply IH; [done|]; intros r' Hr'; apply Hrs; by right]].
      - unfold range_diff. destruct (Fallback.bucket num r). rewrite set_iter_perm. apply NoDup_elements.
      - intros k Hk (l & Hkl & (r' & -> & Hr')%list_elem_of_fmap)%elem_of_concat.
        apply elem_of_range_diff in Hk as [Hk _], Hkl as [Hkl _]. apply Hr.
        rewrite (bucket_unique num k r r'); [done|lia|apply Hrs; by left|apply Hrs; by right|done..]. }
    apply Hgen; [apply NoDup_seqZ|]. intros r. rewrite elem_of_seqZ. lia.
  - rewrite set_iter_perm. apply NoDup_elements.
  - intros k. rewrite elem_of_concat, set_iter_perm, elem_of_elements. split.
    + intros (l & Hk & (r & -> & _)%list_elem_of_fmap). by apply elem_of_range_diff in Hk as [_ ?].
    + intros Hk. destruct (bucket_exists num k Hn) as (r & Hr & Hb). exists (range_diff num X Y r).
      split; [by apply elem_of_range_diff|]. apply list_elem_of_fmap. exists r. split; [done|]. apply elem_of_seqZ. lia.
Qed.

(** For every number of ranges, the fallback that splits the keys by their first byte
    and skips equal ranges returns what the plain fallback returns, lists in order and
    evidence included: the exact differences of both sets. Both record the same evidence
    and leave the same state, but for the counter of skipped ranges. *)
Theorem fallback_by_ranges_exact (p : FallbackProtocol) (rq : FallbackRequest) (num_ranges : Z) :
  0 <= num_ranges <= u8_max ->
  let '(p1, r1) := Fallback.execute p rq in
  let '(p2, r2) := Fallback.execute_incremental p rq num_ranges in
  r2 = r1 /\ fr_to_send r1 = set_iter (local_hashes rq ∖ remote_hashes rq) /\
  fr_to_fetch r1 = set_iter (remote_hashes rq ∖ local_hashes rq) /\
  differences_found (evidence r1) = zlen (fr_to_send r1) + zlen (fr_to_fetch r1) /\
  fp_events p2 = fp_events p1 /\ fp_events p1 = fp_events p ++ [evidence r1] /\ fallback_seq p2 = fallback_seq p1 /\
  forall name, name <> "fallback_ranges_skipped" -> fp_counts p2 !! name = fp_counts p1 !! name.
Proof.
  intros Hn. unfold Fallback.execute, Fallback.execute_incremental.
  destruct (Z.leb_spec num_ranges 1) as [Hle|Hgt]; [done|].
  pose proof (ranges_eq num_ranges (seqZ 0 num_ranges) rq) as Hr.
  destruct (Fallback.ranges num_ranges (seqZ 0 num_ranges) rq) as [[ts tf] sk]. destruct Hr as [-> ->].
  assert (Hb : 1 < num_ranges <= 255) by mlia.
  assert (Hsort : forall X Y, sort_keys (concat (range_diff num_ranges X Y <$> seqZ 0 num_ranges)) = set_iter (X ∖ Y)).
  { intros X Y. apply sort_keys_perm. rewrite concat_ranges by done. apply set_iter_perm. }
  rewrite !Hsort. do 7 (split; [done|]). intros name Hne. unfold Fallback.push_evidence, bump_count. cbn [fp_counts Fallback.next_seq].
  destruct (decide (name = "fallback_executed")) as [->|Hne'].
  - rewrite !lookup_insert_eq. by rewrite lookup_insert_ne.
  - by rewrite !lookup_insert_ne.
Qed.

(** ** The rate monitor *)

Definition record_all (m : FallbackRateMonitor) (l : list bool) : FallbackRateMonitor :=
  fold_left (fun m b => (Monitor.record m b).1) l m.

(** The last [W] outcomes, the fallbacks among them and their percentage. *)
Definition recent (W : nat) (l : list bool) : list bool := drop (length l - W) l.
Definition fallbacks (l : list bool) : Z := zlen (filter (fun b => b = true) l).
Definition rate (W : nat) (l : list bool) : Z := fallbacks (recent W l) * 100 / zlen (recent W l).

(** The ring buffer read from its cursor. *)
Definition rotation {A} (cur : nat) (l : list A) : list A := drop cur l ++ take cur l.

Lemma rotation_insert {A} (cur : nat) (l : list A) x :
  (cur < length l)%nat -> rotation (S cur) (<[cur := x]> l) = drop 1 (rotation cur l) ++ [x].
Proof.
  intros Hc. unfold rotation. rewrite drop_insert_lt by lia. rewrite (take_S_r _ _ x) by (by apply list_lookup_insert_eq).
  rewrite take_insert_ge by lia. destruct (lookup_lt_is_Some_2 l cur Hc) as [y Hy].
  rewrite (drop_S l y cur Hy). cbn. by rewrite app_assoc.
Qed.

Lemma rotation_full {A} (l : list A) : rotation (length l) l = rotation 0 l.
Proof. unfold rotation. rewrite drop_all, firstn_all. cbn. by rewrite app_nil_r. Qed.

Lemma rotation_perm {A} (cur : nat) (l : list A) : rotation cur l ≡ₚ l.
Proof. unfold rotation. by rewrite Permutation_app_comm, take_drop. Qed.

Section monitor.
Context (e : SecurityEpoch) (threshold : Z) (W : nat).
Context (HW : (0 < W)%nat) (HWb : Z.of_nat W * 100 <= u32_max).

Record mon_inv (m : FallbackRateMonitor) (l : list bool) : Prop := {
  mi_config : fm_config m = mkFConfig threshold (Z.of_nat W);
  mi_epoch : fm_epoch m = e;
  mi_length : length (outcomes m) = W;
  mi_total : total_recorded m = zlen l;
  mi_cursor : cursor m = zlen l mod Z.of_nat W;
  mi_ring : rotation (Z.to_nat (cursor m)) (outcomes m) = drop (length l) (replicate W false ++ l);
  mi_prefix : (length l <= W)%nat -> outcomes m = l ++ replicate (W - length l) false }.

Lemma window_counts m l :
  mon_inv m l -> Monitor.window_size m = zlen (recent W l) /\ Monitor.fallback_count m = fallbacks (recent W l) /\
  0 <= fallbacks (recent W l) <= zlen (recent W l) /\ zlen (recent W l) = Z.min (zlen l) (Z.of_nat W).
Proof.
  intros [Hcf _ Hlen Htot _ Hring Hpre]. unfold recent.
  assert (Hz : zlen (drop (length l - W) l) = Z.min (zlen l) (Z.of_nat W)) by (unfold zlen; rewrite length_drop; lia).
  assert (Hws : Monitor.window_size m = zlen (drop (length l - W) l)) by (unfold Monitor.window_size; rewrite Hcf, Htot; done).
  assert (Hf : 0 <= fallbacks (drop (length l - W) l) <= zlen (drop (length l - W) l)).
  { unfold fallbacks, zlen. pose proof (length_filter (fun b => b = true) (drop (length l - W) l)). lia. }
  split; [done|]. split; [|done]. unfold Monitor.fallback_count. rewrite Hws.
  assert (Hc : zlen (filter (fun b => b = true) (take (Z.to_nat (zlen (drop (length l - W) l))) (outcomes m))) =
               fallbacks (drop (length l - W) l)).
  { unfold fallbacks. destruct (le_lt_dec (length l) W) as [Hle|Hgt].
    - rewrite Hpre by done. replace (length l - W)%nat with 0%nat by lia. cbn [drop].
      rewrite to_nat_zlen, take_app_length. done.
    - rewrite take_ge by (rewrite Hlen, Hz; unfold zlen; lia). rewrite drop_app_ge in Hring by (rewrite length_replicate; lia).
      rewrite length_replicate in Hring. unfold zlen. f_equal. rewrite <- Hring.
      by rewrite (rotation_perm (Z.to_nat (cursor m)) (outcomes m)). }
  rewrite Hc. unfold wrap_u32. apply Z.mod_small. rewrite Hz in Hf. mlia.
Qed.

(** What recording makes of the buffer. *)
Lemma shift_inv m l b m' :
  mon_inv m l -> zlen l < u64_max -> fm_config m' = fm_config m -> fm_epoch m' = fm_epoch m ->
  outcomes m' = <[Z.to_nat (cursor m) := b]> (outcomes m) ->
  cursor m' = wrap_u64 (cursor m + 1) mod monitoring_window (fm_config m) ->
  total_recorded m' = wrap_u64 (total_recorded m + 1) -> mon_inv m' (l ++ [b]).
Proof.
  intros [Hcf He Hlen Htot Hcur Hring Hpre] Hl Ec Ee Eo Ecu Et.
  pose proof (Z.mod_pos_bound (zlen l) (Z.of_nat W) ltac:(lia)) as Hmod. rewrite <- Hcur in Hmod.
  assert (Hcl : (Z.to_nat (cursor m) < length (outcomes m))%nat) by lia.
  assert (Hz : zlen (l ++ [b]) = zlen l + 1) by (by rewrite zlen_app).
  assert (Hrot : rotation (Z.to_nat (cursor m')) (outcomes m') = rotation (S (Z.to_nat (cursor m))) (outcomes m')).
  { rewrite Ecu, Hcf. cbn [monitoring_window]. rewrite wrap_u64_small by mlia.
    destruct (Z.eq_dec (cursor m + 1) (Z.of_nat W)) as [Heq|Hne].
    - rewrite Heq, Z.mod_same by lia. replace (S (Z.to_nat (cursor m))) with (length (outcomes m')) by (rewrite Eo, length_insert; lia).
      symmetry. apply rotation_full.
    - rewrite Z.mod_small by lia. f_equal. lia. }
  split; [by rewrite Ec|by rewrite Ee|by rewrite Eo, length_insert| | | |].
  - rewrite Et, Htot, Hz. apply wrap_u64_small. unfold zlen in *. mlia.
  - rewrite Ecu, Hcf, Hz, Hcur. cbn [monitoring_window]. rewrite wrap_u64_small by mlia. by rewrite Zplus_mod_idemp_l.
  - rewrite Hrot, Eo, rotation_insert, Hring by done. rewrite drop_drop, length_app. cbn [length].
    rewrite (app_assoc (replicate W false)). rewrite (drop_app_le (replicate W false ++ l) [b]); [f_equal; f_equal; lia|].
    rewrite length_app, length_replicate. lia.
  - rewrite length_app. cbn [length]. intros Hle. rewrite Eo, (Hpre ltac:(lia)), Hcur.
    rewrite Z.mod_small by (unfold zlen; lia). rewrite to_nat_zlen, insert_app_r_alt, Nat.sub_diag by lia.
    rewrite <- app_assoc. f_equal. destruct (W - length l)%nat eqn:Hs; [lia|]. cbn. do 2 f_equal. lia.
Qed.

(** The alert that an outcome raises. *)
Definition alert_for (l : list bool) : option FallbackRateAlert :=
  if threshold <? rate W l then
    Some (mkAlert (rate W l) threshold (fallbacks (recent W l)) (zlen (recent W l)) e)
  else None.

Lemma record_step m l b :
  mon_inv m l -> zlen l < u64_max ->
  mon_inv (Monitor.record m b).1 (l ++ [b]) /\ (Monitor.record m b).2 = alert_for (l ++ [b]) /\
  alerts (Monitor.record m b).1 = alerts m ++ option_list (alert_for (l ++ [b])).
Proof.
  intros Hi Hl. unfold Monitor.record.
  set (m1 := mkMonitor (fm_config m) (fm_epoch m) _ _ _ (alerts m)).
  assert (Hi1 : mon_inv m1 (l ++ [b])) by (by eapply shift_inv).
  destruct (window_counts m1 (l ++ [b]) Hi1) as (Hw & Hc & Hb & Hz).
  assert (Hpos : 1 <= zlen (recent W (l ++ [b]))) by (rewrite Hz, zlen_app; unfold zlen; cbn; lia).
  assert (Hu : wrap_u32 (zlen (recent W (l ++ [b]))) = zlen (recent W (l ++ [b]))) by (apply Z.mod_small; mlia).
  assert (Hu2 : wrap_u32 (fallbacks (recent W (l ++ [b])) * 100) = fallbacks (recent W (l ++ [b])) * 100) by (apply Z.mod_small; mlia).
  rewrite Hw, Hu, Hc, Hu2. destruct (Z.eqb_spec (zlen (recent W (l ++ [b]))) 0); [lia|].
  unfold alert_for, rate. rewrite (mi_config _ _ Hi1). cbn [max_fallback_rate_pct].
  destruct (threshold <? _).
  - split; [|split; [by rewrite (mi_epoch _ _ Hi1)|by rewrite (mi_epoch _ _ Hi1)]].
    destruct Hi1 as [H1 H2 H3 H4 H5 H6 H7]. split; try assumption. reflexivity.
  - split; [done|]. split; [done|]. by rewrite app_nil_r.
Qed.
End monitor.

(** The monitor refines its history: for every sequence of outcomes the current rate
    is the rounded percentage of fallbacks among the last outcomes of the window, and
    an outcome raises an alert, with these numbers, exactly when it brings the rate
    above the threshold. *)
Theorem rate_monitor_window (e : SecurityEpoch) (c : FallbackConfig) (l : list bool) (b : bool) :
  monitoring_window c * 100 <= u32_max -> zlen l < u64_max ->
  let W := Z.to_nat (Z.max (monitoring_window c) 1) in
  let m := record_all (Monitor.new e c) l in
  Monitor.current_rate_pct m = Some (if decide (l = []) then 0 else rate W l) /\
  total_recorded m = zlen l /\
  (Monitor.record m b).2 = alert_for e (max_fallback_rate_pct c) W (l ++ [b]) /\
  alerts m = omap (fun k => alert_for e (max_fallback_rate_pct c) W (take k l)) (seq 1 (length l)).
Proof.
  intros Hc Hl. cbv zeta. set (W := Z.to_nat (Z.max (monitoring_window c) 1)).
  assert (HW : (0 < W)%nat) by lia. assert (HWb : Z.of_nat W * 100 <= u32_max) by mlia.
  assert (Hm : mon_inv e (max_fallback_rate_pct c) W (record_all (Monitor.new e c) l) l /\
               alerts (record_all (Monitor.new e c) l) =
                 omap (fun k => alert_for e (max_fallback_rate_pct c) W (take k l)) (seq 1 (length l))).
  { revert Hl. induction l as [|x l IH] using rev_ind; intros Hl.
    - split; [|done]. split.
      + cbn. f_equal. unfold W. lia.
      + done.
      + apply length_replicate.
      + done.
      + change (0 = 0 mod Z.of_nat W). by rewrite Z.mod_0_l by lia.
      + change (rotation 0 (replicate W false) = replicate W false ++ []). unfold rotation. by rewrite drop_0, take_0.
      + intros _. cbn. by rewrite Nat.sub_0_r.
    - rewrite zlen_app in Hl. destruct IH as [Hi Ha]; [unfold zlen in *; cbn in *; lia|]. unfold record_all. rewrite fold_left_app. cbn [fold_left].
      destruct (record_step e (max_fallback_rate_pct c) W HW HWb (record_all (Monitor.new e c) l) l x Hi) as (Hi' & _ & Ha');
        [unfold zlen in *; cbn in *; lia|]. split; [done|].
      unfold record_all in *. rewrite Ha', Ha, length_app. cbn [length]. rewrite seq_app, omap_app. f_equal.
      + apply list_omap_ext. apply Forall2_same_length_lookup. split; [done|]. intros i k k' Hk Hk'. rewrite Hk in Hk'. injection Hk' as <-.
        apply list_elem_of_lookup_2, elem_of_seq in Hk. by rewrite take_app_le by lia.
      + cbn. rewrite take_ge by (rewrite length_app; cbn; lia). by destruct (alert_for _ _ _ _). }
  destruct Hm as [Hi Ha]. split; [|split; [by apply Hi|split; [by apply record_step|done]]].
  destruct (window_counts e (max_fallback_rate_pct c) W HW HWb _ _ Hi) as (Hw & Hcnt & Hb & Hz). unfold Monitor.current_rate_pct. rewrite Hw, Hcnt.
  destruct (decide (l = [])) as [->|Hne]; [done|].
  assert (Hpos : 1 <= zlen (recent W l)) by (rewrite Hz; destruct l; [done|]; rewrite zlen_cons; unfold zlen; lia).
  assert (Hu : wrap_u32 (zlen (recent W l)) = zlen (recent W l)) by (apply Z.mod_small; mlia).
  destruct (Z.eqb_spec (zlen (recent W l)) 0); [lia|]. rewrite Hu. destruct (Z.eqb_spec (zlen (recent W l)) 0); [lia|].
  rewrite Z.min_l by lia. unfold rate. f_equal. f_equal. apply Z.mod_small. mlia.
Qed.

(** ** Witnesses *)

Definition sample_request : FallbackRequest := mkFRequest two_local two_remote (TPeelFailed 3) "r" "peer" "trace".

Lemma fallback_by_ranges_exact_witness :
  0 <= 4 <= u8_max /\
  (Fallback.execute_incremental (Fallback.new 1) sample_request 4).2 = (Fallback.execute (Fallback.new 1) sample_request).2.
Proof.
  split; [split; vm_compute; discriminate|].
  pose proof (fallback_by_ranges_exact (Fallback.new 1) sample_request 4 ltac:(split; vm_compute; discriminate)) as H.
  destruct (Fallback.execute (Fallback.new 1) sample_request) as [p1 r1].
  destruct (Fallback.execute_incremental (Fallback.new 1) sample_request 4) as [p2 r2]. exact (proj1 H).
Defined.

(** A window of three outcomes: the first fallback has left it. *)
Lemma rate_monitor_window_witness :
  let m := record_all (Monitor.new 1 (mkFConfig 40 3)) [true; false; true; false] in
  Monitor.current_rate_pct m = Some 33 /\
  (Monitor.record m true).2 = Some (mkAlert 66 40 2 3 1).
Proof.
  destruct (rate_monitor_window 1 (mkFConfig 40 3) [true; false; true; false] true) as (H1 & _ & H2 & _).
  - vm_compute. discriminate.
  - vm_compute. reflexivity.
  - split; [exact H1|exact H2].
Defined.
