(* ===== verification/Seqlock.v ===== *)
(** * The seqlock fast path (crates/franken-engine/src/seqlock_fastpath.rs)

    [SnapshotFastPath<T>] is shared by threads that publish, seed and read.  Each
    access to an atomic, to the gate of the writers, to the lock of the snapshot
    and to the snapshot is one step of the thread, and a schedule names the thread
    that moves next: this is the interleaving of a sequentially consistent memory.
    The gate blocks, and so does the [RwLock] of the snapshot: a writer waits until
    no reader holds it, and a reader until no writer does, nor waits for it where
    the platform lets writers go first ([prefer_writers]; the documentation of
    [RwLock] leaves that open, and the theorems hold for both).  Counters are
    [u64]s that wrap around, as [fetch_add] does; the two counters of a read are
    [u32]s that wrap around, as in a release build.
    A thread makes one call, and the closure of a read is the value it returns. *)
From stdpp Require Import base numbers list.
From S2P Require Import Prelude Bytes.
Open Scope Z_scope.

(** ** Data *)

Record RetryBudgetPolicy := mkBudget { max_retries : Z; max_writer_pressure_observations : Z }.

Inductive FastPathReadSource := FastPath | Fallback.
Inductive FastPathFallbackReason := RetryBudgetExceeded | Uninitialized | WriterPressure.
#[export] Instance read_source_eq_dec : EqDecision FastPathReadSource.
Proof. solve_decision. Defined.
#[export] Instance fallback_reason_eq_dec : EqDecision FastPathFallbackReason.
Proof. solve_decision. Defined.

Record FastPathReadResult (T : Type) := mkRead {
  value : T;
  source : FastPathReadSource;
  attempts : Z;
  observed_pressure : Z;
  fallback_reason : option FastPathFallbackReason }.
Arguments mkRead {T} _ _ _ _ _.
Arguments value {T} _.
Arguments source {T} _.
Arguments attempts {T} _.
Arguments observed_pressure {T} _.
Arguments fallback_reason {T} _.

Record FastPathTelemetry := mkTelemetry {
  total_reads : Z;
  fast_path_reads : Z;
  fallback_reads : Z;
  total_retries : Z;
  writer_pressure_observations : Z;
  retry_budget_fallbacks : Z;
  uninitialized_fallbacks : Z;
  writer_pressure_fallbacks : Z;
  writes : Z }.

(** The nine atomic counters of the structure, by name. *)
Inductive Counter :=
  | TotalReads | FastPathReads | FallbackReads | TotalRetries | WriterPressureObservations
  | RetryBudgetFallbacks | UninitializedFallbacks | WriterPressureFallbacks | Writes.
#[export] Instance counter_eq_dec : EqDecision Counter.
Proof. solve_decision. Defined.

(** The state of an [RwLock]: how many readers hold it, whether a writer does and
    whether a writer waits for it. *)
Record RwState := mkRw { lock_readers : Z; lock_writer : bool; lock_waiting : bool }.

(** [writer_gate] is the thread that holds the mutex. *)
Record SnapshotFastPath (T : Type) := mkFastPath {
  policy : RetryBudgetPolicy;
  initialized : bool;
  sequence : Z;
  writer_gate : option nat;
  snapshot_lock : RwState;
  snapshot : option T;
  counters : Counter -> Z }.
Arguments mkFastPath {T} _ _ _ _ _ _ _.
Arguments policy {T} _.
Arguments initialized {T} _.
Arguments sequence {T} _.
Arguments writer_gate {T} _.
Arguments snapshot_lock {T} _.
Arguments snapshot {T} _.
Arguments counters {T} _ _.

(** Where a thread stands.  Readers carry [attempts] and the pressure they have
    observed, from [RReason] on also why they fall back. *)
Inductive pc (T : Type) :=
  | RStart | RCheck
  | RLoop (a p : Z)
  | RPressure (a p : Z) | RPressureObserved (a p : Z)
  | RAcquire (start a p : Z)
  | RClone (start a p : Z)
  | RRelease (start : Z) (cloned : option T) (a p : Z)
  | REnd (start : Z) (cloned : option T) (a p : Z)
  | RFast (v : T) (a p : Z)
  | RRetry (a p : Z)
  | RReason (why : FastPathFallbackReason) (a p : Z)
  | RFallback (why : FastPathFallbackReason) (a p : Z)
  | RDone (res : FastPathReadResult T)
  | WLock (v : T) | WLoad (v : T) | WOdd (start : Z) (v : T)
  | WRequest (start : Z) (v : T) | WAcquire (start : Z) (v : T) | WSnapshot (start : Z) (v : T) | WRelease (start : Z) (v : T)
  | WInit (start : Z) (v : T) | WEven (start : Z) (v : T) | WCount (v : T) | WUnlock (v : T) | WDone (v : T)
  | SCheck (v : T) | SLock (v : T) | SRecheck (v : T)
  | SRequest (v : T) | SAcquire (v : T) | SSnapshot (v : T) | SRelease (v : T) | SInit (v : T)
  | SUnlock (v : T) (seeded : bool) | SDone (v : T) (seeded : bool).
Arguments RStart {T}.
Arguments RCheck {T}.
Arguments RLoop {T} _ _.
Arguments RPressure {T} _ _.
Arguments RPressureObserved {T} _ _.
Arguments RAcquire {T} _ _ _.
Arguments RClone {T} _ _ _.
Arguments RRelease {T} _ _ _ _.
Arguments REnd {T} _ _ _ _.
Arguments RFast {T} _ _ _.
Arguments RRetry {T} _ _.
Arguments RReason {T} _ _ _.
Arguments RFallback {T} _ _ _.
Arguments RDone {T} _.
Arguments WLock {T} _.
Arguments WLoad {T} _.
Arguments WOdd {T} _ _.
Arguments WRequest {T} _ _.
Arguments WAcquire {T} _ _.
Arguments WSnapshot {T} _ _.
Arguments WRelease {T} _ _.
Arguments WInit {T} _ _.
Arguments WEven {T} _ _.
Arguments WCount {T} _.
Arguments WUnlock {T} _.
Arguments WDone {T} _.
Arguments SCheck {T} _.
Arguments SLock {T} _.
Arguments SRecheck {T} _.
Arguments SRequest {T} _.
Arguments SAcquire {T} _.
Arguments SSnapshot {T} _.
Arguments SRelease {T} _.
Arguments SInit {T} _.
Arguments SUnlock {T} _ _.
Arguments SDone {T} _ _.

(** The calls, and the points at which they take effect. *)
Inductive call (T : Type) := Read | Publish (v : T) | Seed (v : T).
Arguments Read {T}.
Arguments Publish {T} _.
Arguments Seed {T} _.
Inductive event (T : Type) := EPublish (v : T) | ESeed (v : T) (seeded : bool) | ERead (found : option T).
Arguments EPublish {T} _.
Arguments ESeed {T} _ _.
Arguments ERead {T} _.

Section fast_path.
Context {T : Type} (prefer_writers : bool) (fallback : nat -> T).
Implicit Types (s : SnapshotFastPath T) (t : pc T).

Definition new (p : RetryBudgetPolicy) : SnapshotFastPath T := mkFastPath p false 0 None (mkRw 0 false false) None (fun _ => 0).

(** [Clone] and [PartialEq] look at the policy only. *)
Definition clone s : SnapshotFastPath T := new (policy s).

Definition telemetry s : FastPathTelemetry :=
  mkTelemetry (counters s TotalReads) (counters s FastPathReads) (counters s FallbackReads)
    (counters s TotalRetries) (counters s WriterPressureObservations) (counters s RetryBudgetFallbacks)
    (counters s UninitializedFallbacks) (counters s WriterPressureFallbacks) (counters s Writes).

(** [fetch_add(1, Relaxed)] on a counter. *)
Definition bump (c : Counter) s : SnapshotFastPath T :=
  mkFastPath (policy s) (initialized s) (sequence s) (writer_gate s) (snapshot_lock s) (snapshot s)
    (fun c' => if decide (c' = c) then wrap_u64 (counters s c' + 1) else counters s c').
Definition store_sequence (n : Z) s : SnapshotFastPath T :=
  mkFastPath (policy s) (initialized s) n (writer_gate s) (snapshot_lock s) (snapshot s) (counters s).
Definition store_initialized s : SnapshotFastPath T :=
  mkFastPath (policy s) true (sequence s) (writer_gate s) (snapshot_lock s) (snapshot s) (counters s).
Definition set_gate (g : option nat) s : SnapshotFastPath T :=
  mkFastPath (policy s) (initialized s) (sequence s) g (snapshot_lock s) (snapshot s) (counters s).
Definition write_snapshot (v : T) s : SnapshotFastPath T :=
  mkFastPath (policy s) (initialized s) (sequence s) (writer_gate s) (snapshot_lock s) (Some v) (counters s).

Definition set_lock (l : RwState) s : SnapshotFastPath T :=
  mkFastPath (policy s) (initialized s) (sequence s) (writer_gate s) l (snapshot s) (counters s).

(** *** The lock of the snapshot *)

(** [write()]: the writer announces itself, and has the lock once it is free. *)
Definition request_write s : SnapshotFastPath T :=
  let l := snapshot_lock s in set_lock (mkRw (lock_readers l) (lock_writer l) true) s.
Definition acquire_write s : option (SnapshotFastPath T) :=
  let l := snapshot_lock s in
  if (lock_readers l =? 0) && negb (lock_writer l) then Some (set_lock (mkRw 0 true false) s) else None.
Definition release_write s : SnapshotFastPath T :=
  let l := snapshot_lock s in set_lock (mkRw (lock_readers l) false (lock_waiting l)) s.

(** [read()] *)
Definition held_up s : bool :=
  let l := snapshot_lock s in lock_writer l || (prefer_writers && lock_waiting l).
Definition acquire_read s : option (SnapshotFastPath T) :=
  let l := snapshot_lock s in
  if held_up s then None else Some (set_lock (mkRw (lock_readers l + 1) (lock_writer l) (lock_waiting l)) s).
Definition release_read s : SnapshotFastPath T :=
  let l := snapshot_lock s in set_lock (mkRw (lock_readers l - 1) (lock_writer l) (lock_waiting l)) s.

Definition reason_counter (why : FastPathFallbackReason) : Counter :=
  match why with
  | RetryBudgetExceeded => RetryBudgetFallbacks
  | Uninitialized => UninitializedFallbacks
  | WriterPressure => WriterPressureFallbacks
  end.

(** [publish], for the thread [me]. *)
Definition publish_step (me : nat) t s : option (SnapshotFastPath T * pc T * option (event T)) :=
  match t with
  | WLock v => match writer_gate s with None => Some (set_gate (Some me) s, WLoad v, None) | Some _ => None end
  | WLoad v => Some (s, WOdd (sequence s) v, None)
  | WOdd start v => Some (store_sequence (wrap_u64 (start + 1)) s, WRequest start v, None)
  | WRequest start v => Some (request_write s, WAcquire start v, None)
  | WAcquire start v => s ← acquire_write s; Some (s, WSnapshot start v, None)
  | WSnapshot start v => Some (write_snapshot v s, WRelease start v, None)
  | WRelease start v => Some (release_write s, WInit start v, None)
  | WInit start v => Some (store_initialized s, WEven start v, Some (EPublish v))
  | WEven start v => Some (store_sequence (wrap_u64 (start + 2)) s, WCount v, None)
  | WCount v => Some (bump Writes s, WUnlock v, None)
  | WUnlock v => Some (set_gate None s, WDone v, None)
  | _ => None
  end.

(** [seed_if_uninitialized] *)
Definition seed_step (me : nat) t s : option (SnapshotFastPath T * pc T * option (event T)) :=
  match t with
  | SCheck v => if initialized s then Some (s, SDone v false, Some (ESeed v false)) else Some (s, SLock v, None)
  | SLock v => match writer_gate s with None => Some (set_gate (Some me) s, SRecheck v, None) | Some _ => None end
  | SRecheck v => if initialized s then Some (s, SUnlock v false, Some (ESeed v false)) else Some (s, SRequest v, None)
  | SRequest v => Some (request_write s, SAcquire v, None)
  | SAcquire v => s ← acquire_write s; Some (s, SSnapshot v, None)
  | SSnapshot v => Some (write_snapshot v s, SRelease v, None)
  | SRelease v => Some (release_write s, SInit v, None)
  | SInit v => Some (store_initialized s, SUnlock v true, Some (ESeed v true))
  | SUnlock v b => Some (set_gate None s, SDone v b, None)
  | _ => None
  end.

(** [read_clone_or_else] *)
Definition read_step (me : nat) t s : option (SnapshotFastPath T * pc T * option (event T)) :=
  match t with
  | RStart => Some (bump TotalReads s, RCheck, None)
  | RCheck =>
      if initialized s then Some (s, RLoop 0 0, None) else Some (s, RReason Uninitialized 0 0, Some (ERead None))
  | RLoop a p =>
      let start := sequence s in
      Some (s, if start mod 2 =? 1 then RPressure a (wrap_u32 (p + 1)) else RAcquire start a p, None)
  | RPressure a p => Some (bump TotalRetries s, RPressureObserved a p, None)
  | RPressureObserved a p =>
      Some (bump WriterPressureObservations s,
            if max_writer_pressure_observations (policy s) <? p then RReason WriterPressure a p else RLoop a p, None)
  | RAcquire start a p => s ← acquire_read s; Some (s, RClone start a p, None)
  | RClone start a p => Some (s, RRelease start (snapshot s) a p, None)
  | RRelease start cloned a p => Some (release_read s, REnd start cloned a p, None)
  | REnd start cloned a p =>
      let fin := sequence s in
      if (start =? fin) && (fin mod 2 =? 0) then
        match cloned with
        | Some v => Some (s, RFast v a p, Some (ERead (Some v)))
        | None => Some (s, RReason Uninitialized a p, Some (ERead None))
        end
      else Some (s, RRetry (wrap_u32 (a + 1)) p, None)
  | RFast v a p => Some (bump FastPathReads s, RDone (mkRead v FastPath a p None), None)
  | RRetry a p =>
      Some (bump TotalRetries s, if max_retries (policy s) <? a then RReason RetryBudgetExceeded a p else RLoop a p, None)
  | RReason why a p => Some (bump (reason_counter why) s, RFallback why a p, None)
  | RFallback why a p => Some (bump FallbackReads s, RDone (mkRead (fallback me) Fallback a p (Some why)), None)
  | _ => None
  end.

Definition thread_step (me : nat) t s : option (SnapshotFastPath T * pc T * option (event T)) :=
  match t with
  | WLock _ | WLoad _ | WOdd _ _ | WRequest _ _ | WAcquire _ _ | WSnapshot _ _ | WRelease _ _ | WInit _ _ | WEven _ _
  | WCount _ | WUnlock _ | WDone _ => publish_step me t s
  | SCheck _ | SLock _ | SRecheck _ | SRequest _ | SAcquire _ | SSnapshot _ | SRelease _ | SInit _ | SUnlock _ _ | SDone _ _ =>
      seed_step me t s
  | _ => read_step me t s
  end.

(** ** Threads and schedules *)

Record machine := mkMachine { shared : SnapshotFastPath T; threads : list (pc T) }.

Definition enter (c : call T) : pc T :=
  match c with Read => RStart | Publish v => WLock v | Seed v => SCheck v end.

Definition start_machine (p : RetryBudgetPolicy) (calls : list (call T)) : machine :=
  mkMachine (new p) (enter <$> calls).

(** The thread takes its step; one that is blocked or has finished does nothing. *)
Definition tick (i : nat) (m : machine) : machine * list (nat * event T) :=
  match threads m !! i with
  | Some t =>
      match thread_step i t (shared m) with
      | Some (s, t', e) => (mkMachine s (<[i := t']> (threads m)), match e with Some e => [(i, e)] | None => [] end)
      | None => (m, [])
      end
  | None => (m, [])
  end.

Fixpoint run (schedule : list nat) (m : machine) : machine * list (nat * event T) :=
  match schedule with
  | [] => (m, [])
  | i :: schedule => let '(m, es) := tick i m in let '(m, es') := run schedule m in (m, es ++ es')
  end.

(** ** The specification: one register, whose operations happen at once *)

Inductive register : option T -> list (nat * event T) -> option T -> Prop :=
  | reg_nil r : register r [] r
  | reg_publish r i v es r' : register (Some v) es r' -> register r ((i, EPublish v) :: es) r'
  | reg_seed i v es r' : register (Some v) es r' -> register None ((i, ESeed v true) :: es) r'
  | reg_seed_refused i w v es r' : register (Some w) es r' -> register (Some w) ((i, ESeed v false) :: es) r'
  | reg_read i r es r' : register r es r' -> register r ((i, ERead r) :: es) r'.

(** The call a thread makes, what it has done so far and whether it is through. *)
Definition call_of t : call T :=
  match t with
  | WLock v | WLoad v | WOdd _ v | WRequest _ v | WAcquire _ v | WSnapshot _ v | WRelease _ v | WInit _ v | WEven _ v
  | WCount v | WUnlock v | WDone v => Publish v
  | SCheck v | SLock v | SRecheck v | SRequest v | SAcquire v | SSnapshot v | SRelease v | SInit v | SUnlock v _ | SDone v _ =>
      Seed v
  | _ => Read
  end.
Definition events_of t : list (event T) :=
  match t with
  | RFast v _ _ => [ERead (Some v)]
  | RReason Uninitialized _ _ | RFallback Uninitialized _ _ => [ERead None]
  | RDone res =>
      match source res, fallback_reason res with
      | FastPath, _ => [ERead (Some (value res))]
      | Fallback, Some Uninitialized => [ERead None]
      | Fallback, _ => []
      end
  | WEven _ v | WCount v | WUnlock v | WDone v => [EPublish v]
  | SUnlock v b | SDone v b => [ESeed v b]
  | _ => []
  end.
Definition finished t : bool := match t with RDone _ | WDone _ | SDone _ _ => true | _ => false end.

(** ** The invariant *)

Definition holds t : bool :=
  match t with
  | WLoad _ | WOdd _ _ | WRequest _ _ | WAcquire _ _ | WSnapshot _ _ | WRelease _ _ | WInit _ _ | WEven _ _ | WCount _
  | WUnlock _ | SRecheck _ | SRequest _ | SAcquire _ | SSnapshot _ | SRelease _ | SInit _ | SUnlock _ _ => true
  | _ => false
  end.

(** Publications that are through with the sequence. *)
Definition published t : Z := match t with WCount _ | WUnlock _ | WDone _ => 1 | _ => 0 end.

Definition holder (m : machine) : option (pc T) := writer_gate (shared m) ≫= fun j => threads m !! j.

(** The thread inside the gate is the one the gate names. *)
Record gated (m : machine) : Prop := {
  gated_holds : forall i t, threads m !! i = Some t -> holds t = bool_decide (writer_gate (shared m) = Some i);
  gated_held : forall i, writer_gate (shared m) = Some i -> is_Some (threads m !! i) }.

(** The sequence and the snapshot while the given thread is inside the gate,
    [n] publications being through and the register holding [r]. *)
Definition phase (h : option (pc T)) s (r : option T) (n : Z) : Prop :=
  match h with
  | None | Some (WLoad _) | Some (WCount _) | Some (WUnlock _) | Some (SRecheck _) | Some (SUnlock _ _) =>
      sequence s = 2 * n /\ snapshot s = r
  | Some (WOdd start _) => sequence s = 2 * n /\ snapshot s = r /\ start = sequence s
  | Some (WRequest start _) | Some (WAcquire start _) | Some (WSnapshot start _) => sequence s = 2 * n + 1 /\ start = 2 * n /\ snapshot s = r
  | Some (WRelease start v) | Some (WInit start v) => sequence s = 2 * n + 1 /\ start = 2 * n /\ snapshot s = Some v
  | Some (WEven start v) => sequence s = 2 * n + 1 /\ start = 2 * n /\ snapshot s = Some v /\ r = Some v
  | Some (SRequest _) | Some (SAcquire _) | Some (SSnapshot _) => sequence s = 2 * n /\ snapshot s = r /\ r = None
  | Some (SRelease v) | Some (SInit v) => sequence s = 2 * n /\ snapshot s = Some v /\ r = None
  | Some _ => False
  end.

(** What a reader inside its loop knows. *)
Definition reader_ok s t : Prop :=
  match t with
  | RLoop _ _ | RPressure _ _ | RPressureObserved _ _ | RRetry _ _ => initialized s = true
  | RAcquire start _ _ | RClone start _ _ => initialized s = true /\ start mod 2 = 0 /\ start <= sequence s
  | RRelease start cloned _ _ | REnd start cloned _ _ =>
      initialized s = true /\ start mod 2 = 0 /\ start <= sequence s /\ (start = sequence s -> cloned = snapshot s)
  | _ => True
  end.

Record inv (m : machine) (r : option T) : Prop := {
  inv_gated : gated m;
  inv_init : initialized (shared m) = bool_decide (is_Some r);
  inv_phase : phase (holder m) (shared m) r (Zsum (published <$> threads m));
  inv_readers : forall i t, threads m !! i = Some t -> reader_ok (shared m) t }.

(** A step neither uninitializes nor runs the sequence backwards, and changes the
    snapshot only where no reader would accept it. *)
Record forth s s' : Prop := {
  forth_init : initialized s = true -> initialized s' = true;
  forth_seq : sequence s <= sequence s';
  forth_snap : initialized s = true -> sequence s mod 2 = 0 -> sequence s' = sequence s -> snapshot s' = snapshot s }.

Lemma reader_ok_forth s s' t : forth s s' -> reader_ok s t -> reader_ok s' t.
Proof.
  intros [Hi Hs Hn] Hr. destruct t; cbn in *; auto.
  1, 2: destruct Hr as (? & ? & ?); split_and!; [auto|done|lia].
  all: destruct Hr as (? & ? & ? & Hc); split_and!; [auto|done|lia|]; intros E;
    assert (E' : start = sequence s) by lia; rewrite (Hc E'); symmetry; apply Hn; [done|congruence|lia].
Qed.

Lemma Zsum_fmap_cons {A} (f : A -> Z) (x : A) l : Zsum (f <$> x :: l) = f x + Zsum (f <$> l).
Proof. done. Qed.

Lemma Zsum_fmap_insert {A} (f : A -> Z) (l : list A) i x y :
  l !! i = Some x -> Zsum (f <$> <[i := y]> l) = Zsum (f <$> l) - f x + f y.
Proof.
  revert i. induction l as [|z l IH]; intros [|i] Hi; [done..| |].
  - injection Hi as ->. change (<[0%nat:=y]> (x :: l)) with (y :: l). rewrite !Zsum_fmap_cons. lia.
  - specialize (IH i Hi). change (<[S i:=y]> (z :: l)) with (z :: <[i:=y]> l). rewrite !Zsum_fmap_cons. lia.
Qed.

Lemma Zsum_fmap_lt {A} (f : A -> Z) (l : list A) i x :
  (forall y, 0 <= f y <= 1) -> l !! i = Some x -> f x = 0 -> 0 <= Zsum (f <$> l) < zlen l.
Proof.
  intros Hf. revert i. induction l as [|z l IH]; intros [|i] Hi Hx; [done..| |]; rewrite zlen_cons; cbn.
  - injection Hi as ->. assert (0 <= Zsum (f <$> l) <= zlen l); [|unfold Zsum in *; lia].
    clear -Hf. induction l as [|z l IH]; [done|]. rewrite zlen_cons. specialize (Hf z). cbn. unfold Zsum in *. lia.
  - specialize (IH i Hi Hx). specialize (Hf z). unfold Zsum in *. lia.
Qed.

Lemma gated_update m i t t' s' :
  gated m -> threads m !! i = Some t ->
  writer_gate s' = (if holds t' then Some i else if holds t then None else writer_gate (shared m)) ->
  (holds t = false -> holds t' = true -> writer_gate (shared m) = None) ->
  gated (mkMachine s' (<[i := t']> (threads m))) /\
  holder (mkMachine s' (<[i := t']> (threads m))) = if holds t' then Some t' else if holds t then None else holder m.
Proof.
  intros [Hg Hh] Ht Hg' Hfree.
  pose proof (Hg i t Ht) as Hgi. pose proof (lookup_lt_Some _ _ _ Ht) as Hlt.
  assert (Hne : forall j, j <> i -> writer_gate (shared m) = Some j -> holds t = false /\ holds t' = false).
  { intros j Hj Hw. rewrite Hgi, Hw. split; [by rewrite bool_decide_eq_false; intros [=]|].
    destruct (holds t') eqn:E; [|done]. rewrite Hfree in Hw; [done| |done].
    rewrite Hgi, Hw, bool_decide_eq_false. by intros [=]. }
  assert (Hgt : holds t = false -> writer_gate (shared m) <> Some i).
  { intros E. rewrite E in Hgi. symmetry in Hgi. by apply bool_decide_eq_false in Hgi. }
  split; [constructor; cbn [shared threads]|].
  - intros j u. destruct (decide (j = i)) as [->|Hj].
    + rewrite list_lookup_insert_eq by done. intros [= <-]. rewrite Hg'.
      destruct (holds t'); [by rewrite bool_decide_eq_true_2|]. destruct (holds t); [done|].
      by rewrite bool_decide_eq_false_2 by auto.
    + rewrite list_lookup_insert_ne by done. intros Hu. rewrite (Hg j u Hu), Hg'. apply bool_decide_ext.
      split; [intros E; by destruct (Hne j Hj E) as [-> ->]|].
      destruct (holds t'); [by intros [= ->]|]. by destruct (holds t).
  - intros j Hj. destruct (decide (j = i)) as [->|Hji]; [by rewrite list_lookup_insert_eq|].
    rewrite list_lookup_insert_ne by done. rewrite Hg' in Hj. destruct (holds t'); [congruence|]. destruct (holds t); [done|eauto].
  - unfold holder at 1. cbn [shared threads]. rewrite Hg'. destruct (holds t') eqn:E; cbn; [by rewrite list_lookup_insert_eq|].
    destruct (holds t) eqn:E0; [done|]. unfold holder. destruct (writer_gate (shared m)) as [j|] eqn:Hw; [|done]. cbn.
    rewrite list_lookup_insert_ne; [done|]. intros ->. by apply Hgt.
Qed.

Lemma inv_update m r i t t' s' r' :
  inv m r -> threads m !! i = Some t ->
  writer_gate s' = (if holds t' then Some i else if holds t then None else writer_gate (shared m)) ->
  (holds t = false -> holds t' = true -> writer_gate (shared m) = None) ->
  initialized s' = bool_decide (is_Some r') -> forth (shared m) s' ->
  phase (if holds t' then Some t' else if holds t then None else holder m) s' r'
        (Zsum (published <$> threads m) - published t + published t') ->
  reader_ok s' t' ->
  inv (mkMachine s' (<[i := t']> (threads m))) r'.
Proof.
  intros [Hg Hi Hp Hr] Ht Hg' Hfree Hi' Hf Hp' Ht'. pose proof (lookup_lt_Some _ _ _ Ht) as Hlt.
  destruct (gated_update m i t t' s' Hg Ht Hg' Hfree) as [Hg1 Hh1].
  constructor; cbn [shared threads]; [done..|by rewrite Hh1, (Zsum_fmap_insert _ _ _ t)|].
  intros j u. destruct (decide (j = i)) as [->|Hj].
  - rewrite list_lookup_insert_eq by done. by intros [= <-].
  - rewrite list_lookup_insert_ne by done. intros Hu. eapply reader_ok_forth; eauto.
Qed.

Definition same_core s s' : Prop :=
  writer_gate s' = writer_gate s /\ initialized s' = initialized s /\ sequence s' = sequence s /\ snapshot s' = snapshot s.

Lemma forth_same s s' : same_core s s' -> forth s s'.
Proof. intros (Hg & Hi & Hs & Hn). constructor; [congruence|lia|congruence]. Qed.

Lemma phase_same h s s' r n : same_core s s' -> phase h s r n -> phase h s' r n.
Proof. intros (_ & _ & Hs & Hn). destruct h as [[]|]; cbn; rewrite ?Hs, ?Hn; auto. Qed.

(** A step outside the gate. *)
Lemma inv_local m r i t t' s' :
  inv m r -> threads m !! i = Some t -> holds t = false -> holds t' = false -> published t' = published t ->
  same_core (shared m) s' -> reader_ok s' t' -> inv (mkMachine s' (<[i := t']> (threads m))) r.
Proof.
  intros Hm Ht Hh Hh' Hpub Hs Ht'. pose proof Hs as (Hg & Hi & _).
  apply (inv_update m r i t t' s' r Hm Ht); rewrite ?Hh, ?Hh'; auto.
  - done.
  - by rewrite Hi, (inv_init _ _ Hm).
  - by apply forth_same.
  - replace (_ - _ + _) with (Zsum (published <$> threads m)) by lia. eapply phase_same; [done|apply Hm].
Qed.

Lemma holder_phase m r i t :
  inv m r -> threads m !! i = Some t -> holds t = true ->
  writer_gate (shared m) = Some i /\ phase (Some t) (shared m) r (Zsum (published <$> threads m)).
Proof.
  intros Hm Ht Hh. pose proof (inv_phase _ _ Hm) as Hph. unfold holder in Hph.
  pose proof (gated_holds _ (inv_gated _ _ Hm) i t Ht) as Hg. rewrite Hh in Hg. symmetry in Hg. apply bool_decide_eq_true in Hg.
  rewrite Hg in Hph. cbn in Hph. by rewrite Ht in Hph.
Qed.

(** A step inside the gate, leaving it included. *)
Lemma inv_gate_step m r i t t' s' r' :
  inv m r -> threads m !! i = Some t -> holds t = true -> writer_gate s' = (if holds t' then Some i else None) ->
  initialized s' = bool_decide (is_Some r') -> forth (shared m) s' ->
  phase (if holds t' then Some t' else None) s' r' (Zsum (published <$> threads m) - published t + published t') ->
  reader_ok s' t' -> inv (mkMachine s' (<[i := t']> (threads m))) r'.
Proof.
  intros Hm Ht Hh Hg' Hi' Hf Hp Ht'.
  apply (inv_update m r i t t' s' r' Hm Ht); rewrite ?Hh; auto; congruence.
Qed.

(** A step of the gate's holder on the lock of the snapshot. *)
Lemma inv_lock_step m r i t t' l :
  inv m r -> threads m !! i = Some t -> holds t = true -> holds t' = true -> published t' = published t ->
  (forall s n, phase (Some t) s r n -> phase (Some t') s r n) -> reader_ok (set_lock l (shared m)) t' ->
  inv (mkMachine (set_lock l (shared m)) (<[i := t']> (threads m))) r.
Proof.
  intros Hm Ht Hh Hh' Hpub Hp Hr. destruct (holder_phase m r i t Hm Ht Hh) as [Hg Hph].
  assert (Hs : same_core (shared m) (set_lock l (shared m))) by done.
  apply (inv_gate_step m r i t t' _ r Hm Ht Hh); rewrite ?Hh'; auto.
  - apply Hm.
  - by apply forth_same.
  - replace (_ - _ + _) with (Zsum (published <$> threads m)) by lia. eapply phase_same; [done|]. by apply Hp.
Qed.

Lemma acquire_write_lock s s' : acquire_write s = Some s' -> exists l, s' = set_lock l s.
Proof. unfold acquire_write. case_match; intros [= <-]. eauto. Qed.
Lemma acquire_read_lock s s' : acquire_read s = Some s' -> exists l, s' = set_lock l s.
Proof. unfold acquire_read. case_match; intros [= <-]. eauto. Qed.

Lemma forth_gate g s : forth s (set_gate g s).
Proof. constructor; cbn; auto; lia. Qed.

(** Taking the gate. *)
Lemma inv_take_gate m r i t t' :
  inv m r -> threads m !! i = Some t -> holds t = false -> writer_gate (shared m) = None ->
  published t = 0 -> (exists v, t' = WLoad v \/ t' = SRecheck v) ->
  inv (mkMachine (set_gate (Some i) (shared m)) (<[i := t']> (threads m))) r.
Proof.
  intros Hm Ht Hh Hg Hp Ht'. pose proof (inv_phase _ _ Hm) as Hph. unfold holder in Hph. rewrite Hg in Hph. cbn in Hph.
  apply (inv_update m r i t t' (set_gate (Some i) (shared m)) r Hm Ht);
    destruct Ht' as (v & [-> | ->]); cbn [holds]; rewrite ?Hh; auto; try exact I; try (apply Hm); try (by apply forth_gate);
    rewrite Hp; cbn [published]; by rewrite Z.sub_0_r, Z.add_0_r.
Qed.

Lemma published_bound m i t :
  threads m !! i = Some t -> published t = 0 -> 0 <= Zsum (published <$> threads m) < zlen (threads m).
Proof. intros Ht Hp. apply (Zsum_fmap_lt _ _ i t); [|done|done]. intros []; cbn; lia. Qed.

Lemma wrap_next m i t k :
  zlen (threads m) < 2 ^ 63 -> threads m !! i = Some t -> published t = 0 -> 1 <= k <= 2 ->
  wrap_u64 (2 * Zsum (published <$> threads m) + k) = 2 * Zsum (published <$> threads m) + k.
Proof. intros Hl Ht Hp Hk. pose proof (published_bound m i t Ht Hp). apply wrap_u64_small. mlia. Qed.

Local Ltac parity := exfalso; Z.div_mod_to_equations; lia.

Lemma publish_inv m r i t s' t' e :
  inv m r -> zlen (threads m) < 2 ^ 63 -> threads m !! i = Some t -> publish_step i t (shared m) = Some (s', t', e) ->
  exists r', register r (match e with Some e => [(i, e)] | None => [] end) r' /\
             inv (mkMachine s' (<[i := t']> (threads m))) r'.
Proof.
  intros Hm Hl Ht Hstep. pose proof (fun k => wrap_next m i t k Hl Ht) as Hw.
  pose proof (inv_init _ _ Hm) as Hi. pose proof (holder_phase m r i t Hm Ht) as Hh.
  destruct t; try discriminate Hstep; cbn [publish_step] in Hstep; cbn [holds published phase] in *;
    try (injection Hstep as <- <- <-; destruct (Hh eq_refl) as [Hg Hph]).
  - destruct (writer_gate (shared m)) eqn:E; [done|]. injection Hstep as <- <- <-. exists r. split; [constructor|].
    eapply inv_take_gate; eauto.
  - exists r. split; [constructor|]. apply (inv_gate_step m r i _ _ _ _ Hm Ht); cbn; auto.
    + constructor; auto; lia.
    + split_and!; lia || easy.
  - destruct Hph as (Hs & Hsn & ->). exists r. split; [constructor|]. 
    apply (inv_gate_step m r i _ _ _ _ Hm Ht); cbn; auto; rewrite Hs, Hw by lia.
    + constructor; cbn; intros; auto; first [lia|parity].
    + split_and!; lia || easy.
  - exists r. split; [constructor|]. by apply (inv_lock_step m r i _ _ _ Hm Ht).
  - apply bind_Some in Hstep as (s1 & [l ->]%acquire_write_lock & [= <- <- <-]). exists r. split; [constructor|].
    by apply (inv_lock_step m r i _ _ _ Hm Ht).
  - destruct Hph as (Hs & -> & Hsn). exists r. split; [constructor|].
    apply (inv_gate_step m r i _ _ _ _ Hm Ht); cbn; auto.
    + constructor; cbn; intros; auto; first [lia|parity].
    + split_and!; lia || easy.
  - exists r. split; [constructor|]. by apply (inv_lock_step m r i _ _ _ Hm Ht).
  - destruct Hph as (Hs & -> & Hsn). exists (Some v). split; [by repeat constructor|].
    apply (inv_gate_step m r i _ _ _ _ Hm Ht); cbn; auto.
    + constructor; cbn; intros; auto; first [lia|parity].
    + split_and!; lia || easy.
  - destruct Hph as (Hs & -> & Hsn & ->). exists (Some v). split; [constructor|].
    apply (inv_gate_step m _ i _ _ _ _ Hm Ht); cbn; auto; rewrite Hw by lia.
    + constructor; cbn; intros; auto; first [lia|parity].
    + split_and!; lia || easy.
  - exists r. split; [constructor|]. apply (inv_gate_step m r i _ _ _ _ Hm Ht); cbn; auto.
    + constructor; cbn; auto; lia.
    + split_and!; lia || easy.
  - exists r. split; [constructor|]. apply (inv_gate_step m r i _ _ _ _ Hm Ht); cbn; auto.
    + constructor; cbn; auto; lia.
    + split_and!; lia || easy.
Qed.

Lemma seed_inv m r i t s' t' e :
  inv m r -> threads m !! i = Some t -> seed_step i t (shared m) = Some (s', t', e) ->
  exists r', register r (match e with Some e => [(i, e)] | None => [] end) r' /\
             inv (mkMachine s' (<[i := t']> (threads m))) r'.
Proof.
  intros Hm Ht Hstep. pose proof (inv_init _ _ Hm) as Hi. pose proof (holder_phase m r i t Hm Ht) as Hh.
  destruct t; try discriminate Hstep; cbn [seed_step] in Hstep; cbn [holds published phase] in *.
  - destruct (initialized (shared m)) eqn:E; injection Hstep as <- <- <-; exists r.
    + destruct r as [w|]; [|done]. split; [by repeat constructor|]. by apply (inv_local m _ i _ _ _ Hm Ht).
    + split; [constructor|]. by apply (inv_local m _ i _ _ _ Hm Ht).
  - destruct (writer_gate (shared m)) eqn:E; [done|]. injection Hstep as <- <- <-. exists r. split; [constructor|].
    eapply inv_take_gate; eauto.
  - destruct (Hh eq_refl) as [Hg Hph].
    destruct (initialized (shared m)) eqn:E; injection Hstep as <- <- <-; exists r; destruct r as [w|]; try done;
      (split; [by repeat constructor|]); (apply (inv_gate_step m _ i _ _ _ _ Hm Ht); cbn; auto);
      try (by constructor; auto; lia); split_and!; lia || easy.
  - injection Hstep as <- <- <-. exists r. split; [constructor|]. by apply (inv_lock_step m r i _ _ _ Hm Ht).
  - apply bind_Some in Hstep as (s1 & [l ->]%acquire_write_lock & [= <- <- <-]). exists r. split; [constructor|].
    by apply (inv_lock_step m r i _ _ _ Hm Ht).
  - destruct (Hh eq_refl) as [Hg (Hs & Hsn & ->)]. injection Hstep as <- <- <-. exists None. split; [constructor|].
    apply (inv_gate_step m _ i _ _ _ _ Hm Ht); cbn; auto.
    + constructor; cbn; intros; try done; try lia; by rewrite Hi in *.
    + split_and!; lia || easy.
  - injection Hstep as <- <- <-. exists r. split; [constructor|]. by apply (inv_lock_step m r i _ _ _ Hm Ht).
  - destruct (Hh eq_refl) as [Hg (Hs & Hsn & ->)]. injection Hstep as <- <- <-. exists (Some v).
    split; [by repeat constructor|]. apply (inv_gate_step m _ i _ _ _ _ Hm Ht); cbn; auto.
    + constructor; cbn; intros; try done; first [lia|parity].
    + split_and!; lia || easy.
  - destruct (Hh eq_refl) as [Hg Hph]. injection Hstep as <- <- <-. exists r. split; [constructor|].
    apply (inv_gate_step m _ i _ _ _ _ Hm Ht); cbn; auto.
    + constructor; cbn; auto; lia.
    + split_and!; lia || easy.
Qed.

Lemma even_phase_snapshot m r :
  inv m r -> sequence (shared m) mod 2 = 0 -> initialized (shared m) = true -> exists v, r = Some v /\ snapshot (shared m) = r.
Proof.
  intros Hm Hs Hi. rewrite (inv_init _ _ Hm) in Hi. apply bool_decide_eq_true in Hi as [v Hv]. exists v. split; [done|].
  pose proof (inv_phase _ _ Hm) as Hph. destruct (holder m) as [[]|]; cbn in Hph; try done; try tauto; try parity.
  all: destruct Hph as (_ & _ & ?); congruence.
Qed.

Lemma read_inv m r i t s' t' e :
  inv m r -> threads m !! i = Some t -> read_step i t (shared m) = Some (s', t', e) ->
  exists r', register r (match e with Some e => [(i, e)] | None => [] end) r' /\
             inv (mkMachine s' (<[i := t']> (threads m))) r'.
Proof.
  intros Hm Ht Hstep. exists r. pose proof (inv_init _ _ Hm) as Hi. pose proof (inv_readers _ _ Hm i t Ht) as Hr.
  assert (Hl : same_core (shared m) s' -> holds t = false -> holds t' = false -> published t' = published t ->
               reader_ok s' t' -> inv (mkMachine s' (<[i := t']> (threads m))) r).
  { intros. by apply (inv_local m r i t). }
  destruct t as [ | | | | | | | |start cloned a p| | | | | | | | | | | | | | | | | | | | | | | | | | | ];
    try discriminate Hstep; cbn [read_step] in Hstep; cbn [reader_ok holds published] in *.
  - injection Hstep as <- <- <-. split; [constructor|]. by apply Hl.
  - destruct (initialized (shared m)) eqn:E; injection Hstep as <- <- <-; (split; [|by apply Hl]); [constructor|].
    destruct r; [done|]. by repeat constructor.
  - injection Hstep as <- <- <-. split; [constructor|]. case_match eqn:E; apply Hl; try done. apply Z.eqb_neq in E.
    pose proof (Z.mod_pos_bound (sequence (shared m)) 2). split_and!; [done|cbn; lia..].
  - injection Hstep as <- <- <-. split; [constructor|]. by apply Hl.
  - injection Hstep as <- <- <-. split; [constructor|]. case_match; by apply Hl.
  - apply bind_Some in Hstep as (s1 & [l ->]%acquire_read_lock & [= <- <- <-]). split; [constructor|]. by apply Hl.
  - injection Hstep as <- <- <-. split; [constructor|]. apply Hl; try done. destruct Hr as (? & ? & ?). by split_and!.
  - injection Hstep as <- <- <-. split; [constructor|]. by apply Hl.
  - destruct Hr as (Hini & Hev & Hle & Hc). destruct (_ && _) eqn:E.
    + apply andb_prop in E as [Es%Z.eqb_eq Ee%Z.eqb_eq].
      destruct (even_phase_snapshot m r Hm Ee Hini) as (v & -> & Hsn). rewrite (Hc Es), Hsn in Hstep.
      injection Hstep as <- <- <-. split; [by repeat constructor|]. by apply Hl.
    + injection Hstep as <- <- <-. split; [constructor|]. by apply Hl.
  - injection Hstep as <- <- <-. split; [constructor|]. by apply Hl.
  - injection Hstep as <- <- <-. split; [constructor|]. case_match; by apply Hl.
  - injection Hstep as <- <- <-. split; [constructor|]. by apply Hl.
  - injection Hstep as <- <- <-. split; [constructor|]. by apply Hl.
Qed.

Lemma register_app r es r' es' r'' : register r es r' -> register r' es' r'' -> register r (es ++ es') r''.
Proof. induction 1; intros; cbn; [done|constructor; auto..]. Qed.

Lemma tick_inv i m r :
  inv m r -> zlen (threads m) < 2 ^ 63 ->
  exists r', register r (tick i m).2 r' /\ inv (tick i m).1 r' /\
             length (threads (tick i m).1) = length (threads m).
Proof.
  intros Hm Hl. unfold tick. destruct (threads m !! i) as [t|] eqn:Ht; [|exists r; by repeat constructor; try apply Hm].
  destruct (thread_step i t (shared m)) as [[[s' t'] e]|] eqn:E; [|exists r; by repeat constructor; try apply Hm].
  assert (exists r', register r (match e with Some e => [(i, e)] | None => [] end) r' /\
             inv (mkMachine s' (<[i := t']> (threads m))) r') as (r' & ? & ?).
  { destruct t; solve [by eapply read_inv|by eapply publish_inv|by eapply seed_inv]. }
  exists r'. cbn. split_and!; [done..|]. apply length_insert.
Qed.

Lemma run_keeps_inv schedule m r :
  inv m r -> zlen (threads m) < 2 ^ 63 ->
  exists r', register r (run schedule m).2 r' /\ inv (run schedule m).1 r'.
Proof.
  revert m r. induction schedule as [|i schedule IH]; intros m r Hm Hl; [exists r; by split; [constructor|]|]. cbn.
  destruct (tick_inv i m r Hm Hl) as (r1 & Hr1 & Hm1 & Hlen). destruct (tick i m) as [m1 es]. cbn in *.
  destruct (IH m1 r1 Hm1) as (r2 & Hr2 & Hm2); [unfold zlen in *; by rewrite Hlen|].
  destruct (run schedule m1) as [m2 es']. exists r2. split; [by eapply register_app|done].
Qed.

Lemma inv_start p calls : inv (start_machine p calls) None.
Proof.
  assert (Hpc : forall i t, threads (start_machine p calls) !! i = Some t -> holds t = false /\ published t = 0 /\ reader_ok (new p) t).
  { intros i t. cbn. rewrite list_lookup_fmap_Some. intros ([] & -> & _); done. }
  constructor; cbn [shared start_machine new writer_gate initialized]; try done.
  - split; [|done]. intros i t Ht. by destruct (Hpc i t Ht) as (-> & _).
  - split; [|done]. change (0 = 2 * Zsum (published <$> (enter <$> calls))).
    assert (Zsum (published <$> (enter <$> calls)) = 0) as ->; [|done].
    clear. induction calls as [|[] calls IH]; [done|exact IH..].
  - intros i t Ht. by apply (Hpc i t).
Qed.

(** The step of a thread, by where it stands. *)
Local Ltac step_cases t H :=
  destruct t; cbn [thread_step publish_step seed_step read_step] in H;
  try (apply bind_Some in H as (? & [? ->]%acquire_write_lock & H));
  try (apply bind_Some in H as (? & [? ->]%acquire_read_lock & H));
  repeat case_match; simplify_eq.

(** What a thread has done so far is what the trace says of it. *)
Lemma step_events i t s s' t' e :
  thread_step i t s = Some (s', t', e) ->
  call_of t' = call_of t /\ events_of t' = events_of t ++ match e with Some e => [e] | None => [] end.
Proof.
  intros H. step_cases t H; try done; by destruct why.
Qed.

Lemma tick_events i j m t :
  threads m !! j = Some t ->
  exists t', threads (tick i m).1 !! j = Some t' /\ call_of t' = call_of t /\
             events_of t' = events_of t ++ (filter (fun e => e.1 = j) (tick i m).2).*2.
Proof.
  intros Ht. unfold tick. destruct (threads m !! i) as [u|] eqn:Hu; [|exists t; by rewrite app_nil_r].
  destruct (thread_step i u (shared m)) as [[[s' u'] e]|] eqn:E; [|exists t; by rewrite app_nil_r].
  apply step_events in E as [Hc He]. cbn [threads fst snd]. destruct (decide (i = j)) as [->|Hne].
  - rewrite list_lookup_insert_eq by (by eapply lookup_lt_Some). simplify_eq. exists u'. split_and!; [done..|]. rewrite He.
    destruct e; [|done]. by rewrite filter_cons_True.
  - rewrite list_lookup_insert_ne by done. exists t. destruct e; cbn; [|by rewrite app_nil_r].
    rewrite decide_False by done. by rewrite app_nil_r.
Qed.

Lemma run_events schedule j m t :
  threads m !! j = Some t ->
  exists t', threads (run schedule m).1 !! j = Some t' /\ call_of t' = call_of t /\
             events_of t' = events_of t ++ (filter (fun e => e.1 = j) (run schedule m).2).*2.
Proof.
  revert m t. induction schedule as [|i schedule IH]; intros m t Ht; [exists t; by rewrite app_nil_r|]. cbn.
  destruct (tick_events i j m t Ht) as (t1 & Ht1 & Hc1 & He1). destruct (tick i m) as [m1 es]. cbn in *.
  destruct (IH m1 t1 Ht1) as (t2 & Ht2 & Hc2 & He2). destruct (run schedule m1) as [m2 es'].
  exists t2. cbn in *. split_and!; [done|congruence|]. by rewrite He2, He1, filter_app, fmap_app, app_assoc.
Qed.

(** ** Linearizability *)

(** C13. Whatever the interleaving of threads that publish, seed and read one snapshot,
    the trace of the points at which their calls take effect is one of an atomic register:
    reads return the last published value, a seed succeeds exactly on an empty register,
    and a read falls back as uninitialized only when it is empty. Each thread contributes
    at most the one event of its own call. The sequence must not come round, which 2^63
    calls would take. *)
Theorem seqlock_linearizable (p : RetryBudgetPolicy) (calls : list (call T)) (schedule : list nat) :
  zlen calls < 2 ^ 63 ->
  let '(m, trace) := run schedule (start_machine p calls) in
  (exists r, register None trace r /\ (writer_gate (shared m) = None -> snapshot (shared m) = r)) /\
  forall i c, calls !! i = Some c ->
    exists t, threads m !! i = Some t /\ call_of t = c /\ (filter (fun e => e.1 = i) trace).*2 = events_of t.
Proof.
  intros Hl. destruct (run_keeps_inv schedule (start_machine p calls) None) as (r & Hr & Hm).
  { apply inv_start. }
  { unfold zlen in *. cbn. by rewrite length_fmap. }
  pose proof (fun j => run_events schedule j (start_machine p calls)) as He.
  destruct (run schedule (start_machine p calls)) as [m trace]. cbn [fst snd] in *. split.
  - exists r. split; [done|]. intros Hg. pose proof (inv_phase _ _ Hm) as Hph. unfold holder in Hph. rewrite Hg in Hph. apply Hph.
  - intros i c Hc. destruct (He i (enter c)) as (t & Ht & Hcall & Hev).
    { cbn. by rewrite list_lookup_fmap, Hc. }
    exists t. split_and!; [done|by destruct c|]. rewrite Hev. by destruct c.
Qed.

(** ** Readers return *)

(** The counters of a read, by where it stands. *)
Definition reader_local (p : RetryBudgetPolicy) (i : nat) t : Prop :=
  let within a b := 0 <= a <= max_retries p /\ 0 <= b <= max_writer_pressure_observations p in
  let gave_up why a b :=
    match why with
    | RetryBudgetExceeded => a = max_retries p + 1 /\ 0 <= b <= max_writer_pressure_observations p
    | WriterPressure => 0 <= a <= max_retries p /\ b = max_writer_pressure_observations p + 1
    | Uninitialized => within a b
    end in
  match t with
  | RLoop a b | RAcquire _ a b | RClone _ a b | RRelease _ _ a b | REnd _ _ a b | RFast _ a b => within a b
  | RPressure a b | RPressureObserved a b => within a (b - 1)
  | RRetry a b => within (a - 1) b
  | RReason why a b | RFallback why a b => gave_up why a b
  | RDone res =>
      match source res, fallback_reason res with
      | FastPath, None => within (attempts res) (observed_pressure res)
      | Fallback, Some why => gave_up why (attempts res) (observed_pressure res) /\ value res = fallback i
      | _, _ => False
      end
  | _ => True
  end.

(** How many steps of its own a read still takes at most. *)
Definition steps_left (p : RetryBudgetPolicy) t : Z :=
  let budget a b := 6 * (max_retries p - a) + 3 * (max_writer_pressure_observations p - b) in
  match t with
  | RStart => budget 0 0 + 10
  | RCheck => budget 0 0 + 9
  | RLoop a b => budget a b + 8
  | RAcquire _ a b => budget a b + 7
  | RClone _ a b => budget a b + 6
  | RRelease _ _ a b => budget a b + 5
  | REnd _ _ a b => budget a b + 4
  | RRetry a b => budget a b + 9
  | RPressure a b => budget a b + 10
  | RPressureObserved a b => budget a b + 9
  | RReason _ _ _ => 2
  | RFallback _ _ _ | RFast _ _ _ => 1
  | _ => 0
  end.

Definition good_budget (p : RetryBudgetPolicy) : Prop :=
  0 <= max_retries p < u32_max /\ 0 <= max_writer_pressure_observations p < u32_max.

Lemma step_policy i t s s' t' e : thread_step i t s = Some (s', t', e) -> policy s' = policy s.
Proof. intros H. by step_cases t H. Qed.

Lemma wrap_u32_next a : 0 <= a < u32_max -> wrap_u32 (a + 1) = a + 1.
Proof. intros. unfold wrap_u32. apply Z.mod_small. mlia. Qed.

Lemma step_local i t s s' t' e :
  good_budget (policy s) -> reader_local (policy s) i t -> thread_step i t s = Some (s', t', e) ->
  reader_local (policy s) i t' /\ (call_of t = Read -> steps_left (policy s) t' < steps_left (policy s) t).
Proof.
  intros [Hb1 Hb2] Hr H. step_cases t H; cbn in Hr;
    repeat match goal with E : (_ <? _) = _ |- _ => apply Z.ltb_lt in E || apply Z.ltb_ge in E end;
    cbn; rewrite ?wrap_u32_next by lia; try done; try (split; [|intros _]); try done; try lia;
    try (by destruct why; auto; lia).
Qed.

(** A reader is held up by the lock only. *)
Lemma reader_moves i t s :
  call_of t = Read -> finished t = false -> (forall start a p, t = RAcquire start a p -> held_up s = false) ->
  is_Some (thread_step i t s).
Proof.
  intros Hc Hf Hh. destruct t; try done; cbn; try (by repeat case_match; eauto).
  unfold acquire_read. rewrite (Hh _ _ _ eq_refl). cbn. eauto.
Qed.

(** The turns of a thread at which a reader is not held up. *)
Fixpoint free_turns (j : nat) (schedule : list nat) (m : machine) : Z :=
  match schedule with
  | [] => 0
  | i :: schedule =>
      (if decide (i = j) then if held_up (shared m) then 0 else 1 else 0) + free_turns j schedule (tick i m).1
  end.

Lemma free_turns_nonneg j schedule m : 0 <= free_turns j schedule m.
Proof. revert m. induction schedule as [|i schedule IH]; intros m; cbn; [done|]. specialize (IH (tick i m).1). repeat case_match; lia. Qed.

Lemma tick_local p i j m t :
  good_budget p -> policy (shared m) = p -> threads m !! j = Some t -> reader_local p j t ->
  policy (shared (tick i m).1) = p /\
  exists t', threads (tick i m).1 !! j = Some t' /\ reader_local p j t' /\ call_of t' = call_of t /\
    (call_of t = Read -> steps_left p t' <= steps_left p t -
       (if decide (i = j) then if finished t || held_up (shared m) then 0 else 1 else 0)).
Proof.
  intros Hp Hpol Ht Hr. unfold tick.
  assert (Hsame : (i = j -> call_of t = Read -> finished t || held_up (shared m) = true) ->
    call_of t = Read -> steps_left p t <= steps_left p t -
      (if decide (i = j) then if finished t || held_up (shared m) then 0 else 1 else 0)).
  { intros Hf Hc. case_decide; [rewrite Hf by done|]; lia. }
  destruct (threads m !! i) as [u|] eqn:Hu; [|split; [done|]; exists t; split_and!; try done; apply Hsame; congruence].
  destruct (thread_step i u (shared m)) as [[[s' u'] e]|] eqn:E.
  - split; [by rewrite <- Hpol; eapply step_policy|]. cbn [threads fst]. pose proof (step_events _ _ _ _ _ _ E) as [Hc _].
    destruct (decide (i = j)) as [->|Hne].
    + rewrite list_lookup_insert_eq by (by eapply lookup_lt_Some). simplify_eq.
      destruct (step_local _ _ _ _ _ _ Hp Hr E) as [Hr' Hs]. exists u'. split_and!; [done..|]. intros Hrd. specialize (Hs Hrd).
      destruct (_ || _); lia.
    + rewrite list_lookup_insert_ne by done. exists t. split_and!; try done. lia.
  - split; [done|]. exists t. split_and!; try done. apply Hsame. intros -> Hc. simplify_eq.
    destruct (finished t) eqn:Hf; [done|]. destruct (held_up (shared m)) eqn:Hh; [done|].
    destruct (reader_moves j t (shared m) Hc Hf (fun _ _ _ _ => Hh)). congruence.
Qed.

Lemma steps_left_done p i t :
  good_budget p -> reader_local p i t -> call_of t = Read -> 0 <= steps_left p t /\ (steps_left p t = 0 -> finished t = true).
Proof. intros [? ?] Hr Hc. destruct t; cbn in *; try done; lia. Qed.

Lemma run_local p schedule j m t :
  good_budget p -> policy (shared m) = p -> threads m !! j = Some t -> reader_local p j t -> call_of t = Read ->
  exists t', threads (run schedule m).1 !! j = Some t' /\ reader_local p j t' /\ call_of t' = Read /\
    (steps_left p t <= free_turns j schedule m -> finished t' = true).
Proof.
  intros Hp. revert m t. induction schedule as [|i schedule IH]; intros m t Hpol Ht Hr Hc.
  { exists t. split_and!; try done. pose proof (steps_left_done p j t Hp Hr Hc) as [? Hf]. intros Hle. apply Hf. cbn in Hle. lia. }
  cbn [run free_turns]. destruct (tick_local p i j m t Hp Hpol Ht Hr) as (Hpol1 & t1 & Ht1 & Hr1 & Hc1 & Hs1).
  destruct (tick i m) as [m1 es]. cbn [fst] in *.
  destruct (IH m1 t1 Hpol1 Ht1 Hr1) as (t2 & Ht2 & Hr2 & Hc2 & Hf2); [congruence|].
  exists t2. destruct (run schedule m1) as [m2 es']. cbn [fst] in *. split_and!; try done. intros Hle. apply Hf2.
  pose proof (free_turns_nonneg j schedule m1) as Hpos. specialize (Hs1 Hc).
  destruct (decide (i = j)); [|lia]. destruct (finished t) eqn:E; cbn [orb] in Hs1; [|destruct (held_up (shared m)); lia].
  destruct t; try done. cbn in *. lia.
Qed.

(** ** The lock of the snapshot *)

Definition cloning t : Z := match t with RClone _ _ _ | RRelease _ _ _ _ => 1 | _ => 0 end.
Definition writing t : bool :=
  match t with WSnapshot _ _ | WRelease _ _ | SSnapshot _ | SRelease _ => true | _ => false end.
Definition waiting t : bool := match t with WAcquire _ _ | SAcquire _ => true | _ => false end.

(** The lock counts the readers that clone, and a writer holds it or waits for it
    exactly when the thread inside the gate does; readers and writers exclude each
    other. *)
Record locked (m : machine) : Prop := {
  lk_gated : gated m;
  lk_readers : lock_readers (snapshot_lock (shared m)) = Zsum (cloning <$> threads m);
  lk_writer : lock_writer (snapshot_lock (shared m)) = from_option writing false (holder m);
  lk_waiting : lock_waiting (snapshot_lock (shared m)) = from_option waiting false (holder m);
  lk_excludes : lock_writer (snapshot_lock (shared m)) = true -> lock_readers (snapshot_lock (shared m)) = 0 }.

(** The effect of a step on gate and lock. *)
Lemma step_lock i t s s' t' e :
  thread_step i t s = Some (s', t', e) ->
  let l := snapshot_lock s in let l' := snapshot_lock s' in
  writer_gate s' = (if holds t' then if holds t then writer_gate s else Some i else if holds t then None else writer_gate s) /\
  (holds t = false -> holds t' = true -> writer_gate s = None) /\
  lock_readers l' = lock_readers l - cloning t + cloning t' /\
  (writing t' = true -> writing t = false -> lock_readers l = 0) /\
  (cloning t = 0 -> cloning t' = 1 -> lock_writer l = false) /\
  lock_writer l' = (if writing t' then if writing t then lock_writer l else true else if writing t then false else lock_writer l) /\
  lock_waiting l' = (if waiting t' then if waiting t then lock_waiting l else true else if waiting t then false else lock_waiting l).
Proof.
  intros H. destruct t; cbn [thread_step publish_step seed_step read_step] in H;
    unfold acquire_write, acquire_read, held_up in H; repeat case_match; simplify_eq/=;
    repeat match goal with E : (_ && _)%bool = true |- _ => apply andb_true_iff in E as [E%Z.eqb_eq ?%negb_true_iff] end;
    repeat match goal with E : (_ || _)%bool = false |- _ => apply orb_false_iff in E as [? ?] end;
    split_and!; try done; try lia; by intros.
Qed.

Lemma cloning_nonneg (l : list (pc T)) : 0 <= Zsum (cloning <$> l).
Proof. induction l as [|t l IH]; [done|]. rewrite Zsum_fmap_cons. destruct t; cbn [cloning]; lia. Qed.

Lemma cloning_pos m : 0 < Zsum (cloning <$> threads m) -> exists k w, threads m !! k = Some w /\ cloning w = 1.
Proof.
  induction (threads m) as [|t l IH]; [done|]. rewrite Zsum_fmap_cons. intros H.
  destruct (decide (cloning t = 1)); [by exists 0%nat, t|]. destruct IH as (k & w & ? & ?).
  - destruct t; cbn [cloning] in *; lia.
  - by exists (S k), w.
Qed.

(** A flag of the lock that follows the thread inside the gate. *)
Lemma holder_flag (f : pc T -> bool) m t t' (b b' : bool) :
  (forall t, f t = true -> holds t = true) -> b = from_option f false (holder m) ->
  (holds t = true -> holder m = Some t) -> (holds t = false -> holds t' = true -> holder m = None) ->
  b' = (if f t' then if f t then b else true else if f t then false else b) ->
  b' = from_option f false (if holds t' then Some t' else if holds t then None else holder m).
Proof.
  intros Hf -> Ht Hn ->. pose proof (Hf t). pose proof (Hf t').
  destruct (holds t); [rewrite Ht by done|]; destruct (holds t'); cbn; try rewrite Hn by done; cbn;
    destruct (f t) eqn:?, (f t') eqn:?; naive_solver.
Qed.

Lemma tick_locked i m : locked m -> locked (tick i m).1.
Proof.
  intros Hm. unfold tick. destruct (threads m !! i) as [t|] eqn:Ht; [|done].
  destruct (thread_step i t (shared m)) as [[[s' t'] e]|] eqn:E; [|done]. cbn [fst].
  apply step_lock in E as (Hg & Hfree & Hrd & Hz & Hcl & Hw & Hwt). destruct Hm as [Hgt Hr Hlw Hlt Hex].
  pose proof (gated_holds _ Hgt i t Ht) as Hgi.
  assert (Hgate : holds t = true -> writer_gate (shared m) = Some i).
  { intros Hh. rewrite Hh in Hgi. symmetry in Hgi. by apply bool_decide_eq_true in Hgi. }
  assert (Hhold : holds t = true -> holder m = Some t).
  { intros Hh. unfold holder. rewrite Hgate by done. done. }
  destruct (gated_update m i t t' s' Hgt Ht) as [Hgt' Hh'].
  { rewrite Hg. destruct (holds t') eqn:?, (holds t) eqn:?; auto. }
  { done. }
  assert (Hnone : holds t = false -> holds t' = true -> holder m = None).
  { intros H1 H2. unfold holder. by rewrite Hfree. }
  assert (Hsum : lock_readers (snapshot_lock s') = Zsum (cloning <$> <[i := t']> (threads m))).
  { rewrite Hrd, (Zsum_fmap_insert _ _ _ t), Hr by done. done. }
  constructor; cbn [shared threads]; [done..| | |].
  - rewrite Hh'. eapply holder_flag; [by intros []|done..].
  - rewrite Hh'. eapply holder_flag; [by intros []|done..].
  - intros H. pose proof (cloning_nonneg (<[i := t']> (threads m))).
    assert (cloning t' = 1 -> writing t' = false) by (by destruct t').
    assert (0 <= cloning t <= 1) by (destruct t; cbn; lia). assert (0 <= cloning t' <= 1) by (destruct t'; cbn; lia).
    rewrite Hw in H. destruct (writing t') eqn:?, (writing t) eqn:?; try done.
    + specialize (Hex H). assert (cloning t' <> 1) by naive_solver. lia.
    + specialize (Hz eq_refl eq_refl). assert (cloning t' <> 1) by naive_solver. lia.
    + specialize (Hex H). destruct (decide (cloning t' = 1)); [|lia]. destruct (decide (cloning t = 0)); [|lia].
      rewrite Hcl in H; done.
Qed.

Lemma run_locked schedule m : locked m -> locked (run schedule m).1.
Proof.
  revert m. induction schedule as [|i schedule IH]; intros m Hm; [done|]. cbn [run].
  pose proof (tick_locked i m Hm) as Hm1. destruct (tick i m) as [m1 es]. specialize (IH m1 Hm1).
  by destruct (run schedule m1).
Qed.

Lemma locked_start p calls : locked (start_machine p calls).
Proof.
  constructor; try done.
  - split; [|done]. intros i t. cbn. rewrite list_lookup_fmap_Some. by intros ([] & -> & _).
  - cbn. clear. induction calls as [|[] calls IH]; [done|exact IH..].
Qed.

(** A reader that clones is never held up. *)
Lemma cloning_moves k w s : cloning w = 1 -> is_Some (thread_step k w s).
Proof. destruct w; try done; cbn; eauto. Qed.

(** The thread inside the gate can move, or waits for a reader that can. *)
Lemma holder_moves m j u :
  locked m -> threads m !! j = Some u -> holds u = true ->
  is_Some (thread_step j u (shared m)) \/
  waiting u = true /\ exists k w, threads m !! k = Some w /\ cloning w = 1 /\ is_Some (thread_step k w (shared m)).
Proof.
  intros Hm Hu Hh. destruct (waiting u) eqn:Hw.
  - assert (Hhold : holder m = Some u).
    { pose proof (gated_holds _ (lk_gated _ Hm) j u Hu) as Hg. rewrite Hh in Hg. symmetry in Hg. apply bool_decide_eq_true in Hg.
      unfold holder. by rewrite Hg. }
    pose proof (lk_writer _ Hm) as Hlw. rewrite Hhold in Hlw. pose proof (lk_readers _ Hm) as Hr.
    assert (writing u = false) as Hwr by (by destruct u). cbn in Hlw. rewrite Hwr in Hlw.
    destruct (decide (Zsum (cloning <$> threads m) = 0)) as [E|E].
    + left. rewrite E in Hr. destruct u; try done; cbn; unfold acquire_write; rewrite Hr, Hlw; cbn; eauto.
    + right. split; [done|]. destruct (cloning_pos m) as (k & w & Hk & Hc).
      { pose proof (cloning_nonneg (threads m)). lia. }
      exists k, w. split_and!; [done..|]. by apply cloning_moves.
  - left. destruct u; try done; cbn; repeat case_match; eauto.
Qed.

(** A reader is held up by the writer inside the gate. *)
Lemma held_up_by m : locked m -> held_up (shared m) = true ->
  exists j u, writer_gate (shared m) = Some j /\ threads m !! j = Some u /\ (waiting u || writing u) = true.
Proof.
  intros Hm Hh. unfold held_up in Hh. rewrite (lk_writer _ Hm), (lk_waiting _ Hm) in Hh. unfold holder in Hh.
  destruct (writer_gate (shared m)) as [j|]; [|by rewrite andb_false_r in Hh]. cbn in Hh.
  destruct (threads m !! j) as [u|] eqn:Hu; [|by rewrite andb_false_r in Hh]. cbn in Hh. exists j, u. split_and!; [done..|].
  destruct (waiting u), (writing u); try done. by rewrite andb_false_r in Hh.
Qed.

(** C14. A reader returns after at most 6 max_retries + 3 max_writer_pressure_observations
    + 10 of its own turns at which the lock of the snapshot would admit a reader, for
    budgets below u32::MAX, whatever the other threads do meanwhile and also when a writer
    stops for ever outside of that lock with the sequence odd. It exceeds no budget by
    more than one, gives a reason for a fallback and returns the value of the closure
    then. The lock does not admit a reader only while the one writer inside the gate holds
    it or, on a platform where writers go first, waits for it; that writer can move at
    once, or waits for a reader that is cloning and can move at once. *)
Theorem seqlock_reader_returns (p : RetryBudgetPolicy) (calls : list (call T)) (schedule : list nat) (i : nat) :
  good_budget p -> calls !! i = Some Read ->
  let m := (run schedule (start_machine p calls)).1 in
  (6 * max_retries p + 3 * max_writer_pressure_observations p + 10 <= free_turns i schedule (start_machine p calls) ->
   exists res, threads m !! i = Some (RDone res) /\
    0 <= attempts res <= max_retries p + 1 /\
    0 <= observed_pressure res <= max_writer_pressure_observations p + 1 /\
    (source res = FastPath -> fallback_reason res = None) /\
    (source res = Fallback -> is_Some (fallback_reason res) /\ value res = fallback i)) /\
  (held_up (shared m) = true ->
   exists j u, writer_gate (shared m) = Some j /\ threads m !! j = Some u /\ (waiting u || writing u) = true /\
    (is_Some (thread_step j u (shared m)) \/
     waiting u = true /\ exists k w, threads m !! k = Some w /\ cloning w = 1 /\ is_Some (thread_step k w (shared m)))).
Proof.
  intros Hp Hc m. pose proof (run_locked schedule _ (locked_start p calls)) as Hm. split.
  - intros Hn. destruct (run_local p schedule i (start_machine p calls) RStart Hp) as (t & Ht & Hr & Hcall & Hf); try done.
    { cbn. by rewrite list_lookup_fmap, Hc. }
    assert (Hfin : finished t = true) by (apply Hf; cbn [steps_left]; lia). destruct t; try done.
    exists res. split; [done|]. destruct Hp as [? ?]. cbn in Hr.
    destruct (source res), (fallback_reason res) as [[]|]; try done; split_and!; try done; try lia; intros _; split; try done; apply Hr.
  - intros Hh. destruct (held_up_by m Hm Hh) as (j & u & Hj & Hu & Hl). exists j, u. split_and!; [done..|].
    apply holder_moves; [done..|]. by destruct u.
Qed.

(** No deadlock: while a thread is under way, some thread can move. *)
Theorem seqlock_never_stuck (p : RetryBudgetPolicy) (calls : list (call T)) (schedule : list nat) (i : nat) (t : pc T) :
  let m := (run schedule (start_machine p calls)).1 in
  threads m !! i = Some t -> finished t = false ->
  exists j u, threads m !! j = Some u /\ is_Some (thread_step j u (shared m)).
Proof.
  intros m Ht Hf. pose proof (run_locked schedule _ (locked_start p calls)) as Hm. fold m in Hm.
  assert (Hin : forall j, writer_gate (shared m) = Some j -> exists j u, threads m !! j = Some u /\ is_Some (thread_step j u (shared m))).
  { intros j Hj. destruct (gated_held _ (lk_gated _ Hm) j Hj) as [u Hu].
    destruct (holder_moves m j u Hm Hu) as [|(_ & k & w & ? & _ & ?)]; [|eauto..].
    rewrite (gated_holds _ (lk_gated _ Hm) j u Hu). by apply bool_decide_eq_true. }
  destruct (writer_gate (shared m)) as [j|] eqn:Hg; [by apply (Hin j)|]. exists i, t. split; [done|].
  pose proof (gated_holds _ (lk_gated _ Hm) i t Ht) as Hh. rewrite Hg in Hh.
  destruct (call_of t) eqn:Hc.
  - apply reader_moves; [done..|]. intros start a b _. destruct (held_up (shared m)) eqn:E; [|done].
    destruct (held_up_by m Hm E) as (j & u & Hj & _). congruence.
  - destruct t; try done. cbn. rewrite Hg. eauto.
  - destruct t; try done; cbn; rewrite ?Hg; try case_match; eauto.
Qed.


(** ** Telemetry *)

(** What a finished thread has added to a counter. *)
Definition outcome_count (c : Counter) t : Z :=
  match t with
  | RDone res =>
      match c with
      | TotalReads => 1
      | FastPathReads => match source res with FastPath => 1 | Fallback => 0 end
      | FallbackReads => match source res with FastPath => 0 | Fallback => 1 end
      | TotalRetries => attempts res + observed_pressure res
      | WriterPressureObservations => observed_pressure res
      | RetryBudgetFallbacks => match fallback_reason res with Some RetryBudgetExceeded => 1 | _ => 0 end
      | UninitializedFallbacks => match fallback_reason res with Some Uninitialized => 1 | _ => 0 end
      | WriterPressureFallbacks => match fallback_reason res with Some WriterPressure => 1 | _ => 0 end
      | Writes => 0
      end
  | WDone _ => match c with Writes => 1 | _ => 0 end
  | _ => 0
  end.

(** What a thread that is under way has added so far. *)
Definition added (c : Counter) t : Z :=
  match t with
  | RStart => 0
  | RDone _ | WDone _ => outcome_count c t
  | WUnlock _ => match c with Writes => 1 | _ => 0 end
  | RCheck => match c with TotalReads => 1 | _ => 0 end
  | RLoop a p | RAcquire _ a p | RClone _ a p | RRelease _ _ a p | REnd _ _ a p | RFast _ a p | RReason _ a p =>
      match c with TotalReads => 1 | TotalRetries => a + p | WriterPressureObservations => p | _ => 0 end
  | RPressure a p =>
      match c with TotalReads => 1 | TotalRetries => a + p - 1 | WriterPressureObservations => p - 1 | _ => 0 end
  | RPressureObserved a p =>
      match c with TotalReads => 1 | TotalRetries => a + p | WriterPressureObservations => p - 1 | _ => 0 end
  | RRetry a p =>
      match c with TotalReads => 1 | TotalRetries => a - 1 + p | WriterPressureObservations => p | _ => 0 end
  | RFallback why a p =>
      match c with
      | TotalReads => 1 | TotalRetries => a + p | WriterPressureObservations => p
      | FastPathReads | FallbackReads | Writes => 0
      | _ => if decide (c = reason_counter why) then 1 else 0
      end
  | _ => 0
  end.

Lemma wrap_u64_plus a b : wrap_u64 (wrap_u64 a + b) = wrap_u64 (a + b).
Proof. unfold wrap_u64. by rewrite Zplus_mod_idemp_l. Qed.

Lemma wrap_u64_plus_r a b : wrap_u64 (a + wrap_u64 b) = wrap_u64 (a + b).
Proof. by rewrite Z.add_comm, wrap_u64_plus, Z.add_comm. Qed.

Lemma step_added i t s s' t' e c n :
  good_budget (policy s) -> reader_local (policy s) i t -> thread_step i t s = Some (s', t', e) ->
  counters s c = wrap_u64 n -> counters s' c = wrap_u64 (n - added c t + added c t').
Proof.
  intros [Hb1 Hb2] Hr H Hc. 
  step_cases t H; cbn in Hr;
    cbn [counters bump set_gate store_sequence store_initialized write_snapshot set_lock request_write release_write release_read];
    rewrite ?Hc, ?wrap_u64_plus; try (by f_equal; lia);
    destruct c; cbn; rewrite ?wrap_u32_next by lia; rewrite ?Hc, ?wrap_u64_plus; try (by f_equal; lia);
    try destruct why; cbn; repeat case_decide; done || (f_equal; lia).
Qed.

Definition counted (m : machine) : Prop :=
  (forall i t, threads m !! i = Some t -> reader_local (policy (shared m)) i t) /\
  forall c, counters (shared m) c = wrap_u64 (Zsum (added c <$> threads m)).

Lemma tick_length i m : length (threads (tick i m).1) = length (threads m).
Proof. unfold tick. repeat case_match; cbn; by rewrite ?length_insert. Qed.

Lemma tick_counted i m :
  good_budget (policy (shared m)) -> counted m ->
  counted (tick i m).1 /\ policy (shared (tick i m).1) = policy (shared m).
Proof.
  intros Hp [Hr Hc]. assert (Hpol : policy (shared (tick i m).1) = policy (shared m)).
  { unfold tick. destruct (threads m !! i) as [t|]; [|done].
    destruct (thread_step i t (shared m)) as [[[s' t'] e]|] eqn:E; [|done]. by eapply step_policy. }
  split; [|done]. split.
  - intros j t Ht. rewrite Hpol. destruct (threads m !! j) as [u|] eqn:Hu.
    + destruct (tick_local _ i j m u Hp eq_refl Hu (Hr j u Hu)) as (_ & t' & Ht' & Hr' & _). by simplify_eq.
    + apply lookup_ge_None in Hu. apply lookup_lt_Some in Ht. rewrite tick_length in Ht. lia.
  - intros c. unfold tick. destruct (threads m !! i) as [t|] eqn:Ht; [|done].
    destruct (thread_step i t (shared m)) as [[[s' t'] e]|] eqn:E; [|done]. cbn [shared threads fst].
    rewrite (Zsum_fmap_insert _ _ _ t) by done. eapply step_added; eauto.
Qed.

Lemma run_counted schedule m :
  good_budget (policy (shared m)) -> counted m -> counted (run schedule m).1.
Proof.
  revert m. induction schedule as [|i schedule IH]; intros m Hp Hm; [done|]. cbn [run].
  destruct (tick_counted i m Hp Hm) as [Hm1 Hpol]. destruct (tick i m) as [m1 es]. cbn [fst] in *.
  specialize (IH m1). destruct (run schedule m1) as [m2 es']. apply IH; [by rewrite Hpol|done].
Qed.

(** Once all threads are through, each counter is the sum of what their outcomes
    say, every read was a fast or a fallback read, and every fallback has the one
    reason it was counted under. *)
Theorem seqlock_telemetry_exact (p : RetryBudgetPolicy) (calls : list (call T)) (schedule : list nat) :
  good_budget p ->
  let m := (run schedule (start_machine p calls)).1 in
  (forall i t, threads m !! i = Some t -> finished t = true) ->
  let tally c := wrap_u64 (Zsum (outcome_count c <$> threads m)) in
  telemetry (shared m) =
    mkTelemetry (tally TotalReads) (tally FastPathReads) (tally FallbackReads) (tally TotalRetries)
      (tally WriterPressureObservations) (tally RetryBudgetFallbacks) (tally UninitializedFallbacks)
      (tally WriterPressureFallbacks) (tally Writes) /\
  tally TotalReads = wrap_u64 (tally FastPathReads + tally FallbackReads) /\
  tally FallbackReads = wrap_u64 (tally RetryBudgetFallbacks + tally UninitializedFallbacks + tally WriterPressureFallbacks).
Proof.
  intros Hp m Hfin tally. destruct (run_counted schedule (start_machine p calls)) as [Hr Hc]; [done| |].
  { split.
    - intros i t. cbn. rewrite list_lookup_fmap_Some. by intros ([] & -> & _).
    - intros c. cbn. clear. unfold Zsum. induction calls as [|[] calls IH]; cbn in *; [by destruct c|by destruct c..]. }
  fold m in Hr, Hc. clearbody m.
  assert (Ht : forall c, counters (shared m) c = tally c).
  { intros c. rewrite Hc. unfold tally. do 2 f_equal. apply list_fmap_ext. intros i t Ht. specialize (Hfin i t Ht). by destruct t. }
  assert (Hsum : forall f g, (forall i t, threads m !! i = Some t -> f t = g t) -> Zsum (f <$> threads m) = Zsum (g <$> threads m)).
  { intros f g Hfg. f_equal. by apply list_fmap_ext. }
  assert (Hadd : forall f g (l : list (pc T)), Zsum ((fun t => f t + g t) <$> l) = Zsum (f <$> l) + Zsum (g <$> l)).
  { clear. intros f g l. induction l as [|t l IH]; [done|]. rewrite !Zsum_fmap_cons. lia. }
  split; [unfold telemetry; by rewrite !Ht|]. unfold tally. split.
  - rewrite wrap_u64_plus, wrap_u64_plus_r, <- Hadd. f_equal. apply Hsum. intros i t Hi.
    specialize (Hfin i t Hi). destruct t; try done. cbn. by destruct (source res).
  - rewrite wrap_u64_plus_r, <- Z.add_assoc, wrap_u64_plus, Z.add_assoc, (Z.add_comm _ (wrap_u64 _)), <- Z.add_assoc, wrap_u64_plus.
    rewrite Z.add_assoc, (Z.add_comm (Zsum _) (Zsum _)), <- !Hadd. f_equal. apply Hsum. intros i t Hi.
    specialize (Hfin i t Hi). specialize (Hr i t Hi). destruct t; try done. cbn in Hr |- *.
    by destruct (source res), (fallback_reason res) as [[]|].
Qed.
End fast_path.
Arguments machine : clear implicits.

(** ** Witnesses *)

(** A publication that is interrupted between its two stores, two readers and a
    refused seed. *)
Definition demo_policy : RetryBudgetPolicy := mkBudget 1 1.
Definition demo_calls : list (call Z) := [Seed 5; Read; Publish 7; Read; Seed 9].
Definition demo_schedule : list nat :=
  (repeat 0 9 ++ repeat 1 5 ++ repeat 2 3 ++ repeat 1 2 ++ repeat 3 3 ++ repeat 2 8 ++ repeat 1 16 ++ repeat 4 1 ++
   repeat 3 16)%nat.

Lemma seqlock_linearizable_witness :
  let '(m, trace) := run true (fun _ => 0) demo_schedule (start_machine demo_policy demo_calls) in
  trace = [(0%nat, ESeed 5 true); (2%nat, EPublish 7); (1%nat, ERead (Some 7)); (4%nat, ESeed 9 false);
           (3%nat, ERead (Some 7))] /\
  exists r, register None trace r /\ (writer_gate (shared m) = None -> snapshot (shared m) = r).
Proof.
  pose proof (seqlock_linearizable true (fun _ => 0) demo_policy demo_calls demo_schedule eq_refl) as H.
  vm_compute in H |- *. split; [reflexivity|]. exact (proj1 H).
Defined.

(** The publisher stops after its first store, and the reader gives up; or it stops
    while it holds the lock of the snapshot, and a reader that has seen an even
    sequence is held up by it. *)
Definition stopped_schedule : list nat := (repeat 0 9 ++ repeat 2 3 ++ repeat 1 19)%nat.
Definition held_schedule : list nat := (repeat 0 9 ++ repeat 1 3 ++ repeat 2 5 ++ repeat 1 40)%nat.

Lemma seqlock_reader_returns_witness :
  let m := (run true (fun _ => 0) stopped_schedule (start_machine demo_policy demo_calls)).1 in
  let h := (run true (fun _ => 0) held_schedule (start_machine demo_policy demo_calls)).1 in
  (threads m !! 2%nat = Some (WRequest 0 7) /\
   exists res, threads m !! 1%nat = Some (RDone res) /\ fallback_reason res = Some WriterPressure /\
    0 <= attempts res <= 2 /\ (source res = Fallback -> is_Some (fallback_reason res) /\ value res = 0)) /\
  threads h !! 1%nat = Some (RAcquire 0 0 0) /\
  exists j u, writer_gate (shared h) = Some j /\ threads h !! j = Some u /\ u = WSnapshot 0 7 /\
    (is_Some (thread_step true (fun _ => 0) j u (shared h)) \/ waiting u = true).
Proof.
  assert (Hp : good_budget demo_policy) by (vm_compute; split; split; discriminate || reflexivity).
  destruct (seqlock_reader_returns true (fun _ => 0) demo_policy demo_calls stopped_schedule 1%nat Hp eq_refl) as [Hd _].
  destruct (seqlock_reader_returns true (fun _ => 0) demo_policy demo_calls held_schedule 1%nat Hp eq_refl) as [_ Hh].
  destruct Hd as (res & Hres & Ha & _ & _ & Hf); [vm_compute; discriminate|].
  destruct Hh as (j & u & Hj & Hu & _ & Hl); [vm_compute; reflexivity|].
  intros m h. split; [split; [by vm_compute|]; exists res; split; [exact Hres|]; split; [|split; [exact Ha|exact Hf]]|].
  - clear Ha Hf. vm_compute in Hres. by injection Hres as <-.
  - split; [by vm_compute|]. exists j, u. split; [exact Hj|]. split; [exact Hu|]. split.
    + clear Hl. vm_compute in Hj. injection Hj as <-. vm_compute in Hu. by injection Hu as <-.
    + destruct Hl as [Hl|[Hl _]]; [left|right]; exact Hl.
Defined.

Lemma seqlock_telemetry_exact_witness :
  let m := (run true (fun _ => 0) demo_schedule (start_machine demo_policy demo_calls)).1 in
  telemetry (shared m) = mkTelemetry 2 2 0 2 1 0 0 0 1 /\
  telemetry (shared m) =
    let tally c := wrap_u64 (Zsum (outcome_count c <$> threads m)) in
    mkTelemetry (tally TotalReads) (tally FastPathReads) (tally FallbackReads) (tally TotalRetries)
      (tally WriterPressureObservations) (tally RetryBudgetFallbacks) (tally UninitializedFallbacks)
      (tally WriterPressureFallbacks) (tally Writes).
Proof.
  destruct (seqlock_telemetry_exact true (fun _ => 0) demo_policy demo_calls demo_schedule) as [H _].
  - vm_compute. split; split; discriminate || reflexivity.
  - intros [|[|[|[|[|i]]]]] t Ht; vm_compute in Ht; try (injection Ht as <-; reflexivity). discriminate.
  - intros m. split; [by vm_compute|]. exact H.
Defined.
