(* ===== verification/EsmLoader.v ===== *)
(** * The ES module loader (crates/franken-engine/src/esm_loader.rs)

    The module graph, its link and evaluate phases, the resolution of exports
    and the graph queries.  A [BTreeMap] is a [gmap]; a dependency set is a
    [gset] visited in increasing order.  A phase that fails leaves the changes
    made so far in the graph: the phases return the state next to their result.
    Recursion over modules stops at [MAX_MODULE_DEPTH], so that the phases recurse
    on the depth that is left.  The depth-first searches of the queries have no
    limit and run on fuel, one more than the nodes there are. *)
From stdpp Require Import base numbers list strings gmap sets.
From S2P Require Import Prelude Bytes Text HashTiers.
Open Scope string_scope.
Open Scope list_scope.
Open Scope Z_scope.

Definition MAX_MODULE_DEPTH : nat := 512.
Definition MAX_MODULE_GRAPH_SIZE : nat := Z.to_nat 10000.

(** ** Data *)

Inductive ModuleStatus := Unlinked | Linking | Linked | Evaluating | Evaluated | EvaluationError.
#[export] Instance module_status_eq_dec : EqDecision ModuleStatus.
Proof. solve_decision. Defined.

Definition status_string (s : ModuleStatus) : string :=
  match s with
  | Unlinked => "unlinked" | Linking => "linking" | Linked => "linked"
  | Evaluating => "evaluating" | Evaluated => "evaluated" | EvaluationError => "evaluation_error"
  end.

(** The derived order of the statuses. *)
Definition status_rank (s : ModuleStatus) : Z :=
  match s with Unlinked => 0 | Linking => 1 | Linked => 2 | Evaluating => 3 | Evaluated => 4 | EvaluationError => 5 end.

Inductive ModuleSyntax := EsModule | CommonJs.

Record ExportEntry := mkExport {
  ex_local : option string;
  export_name : string;
  ex_request : option string;
  ex_import : option string }.

Record ImportEntry := mkImport { module_request : string; import_name : string; im_local : string }.

Record EsmModule := mkModule {
  specifier : string;
  syntax : ModuleSyntax;
  em_source : string;
  content_hash : ContentHash;
  imports : list ImportEntry;
  exports : list ExportEntry;
  dependencies : gset string;
  status : ModuleStatus;
  dfs_index : option Z;
  dfs_ancestor_index : option Z;
  has_default_export : bool;
  eval_rank : option Z }.

Inductive TracePhase := Resolve | Link | Evaluate | CycleDetected.
Record TraceEvent := mkTrace { te_phase : TracePhase; te_specifier : string; te_detail : string; te_seq : Z }.

Record ModuleGraph := mkGraph {
  modules : gmap string EsmModule;
  entry_point : option string;
  trace_events : list TraceEvent }.

Record CycleInfo := mkCycle { ci_specifier : string; stack_snapshot : list string }.
Record LinkResult := mkLinkResult { linked_count : Z; cycle_count : Z; lr_cycles : list CycleInfo }.
Record EvalResult := mkEvalResult { er_order : list string; evaluated_count : Z }.

Inductive BindingType := Direct | ReExport | StarReExport.
Record ResolvedBinding := mkResolved { rb_module : string; rb_local : string; rb_type : BindingType }.

Inductive EsmLoaderError :=
  | NoEntryPoint
  | ModuleNotFound (s : string)
  | GraphTooLarge (limit : Z)
  | DepthExceeded (s : string) (depth limit : Z)
  | UnresolvedDependency (s dependency : string)
  | ExportNotFound (s name : string)
  | AmbiguousExport (s name : string)
  | EvaluationFailed (s reason : string)
  | InvalidStatus (s expected actual : string).

(** ** Entries and modules *)

Module Entries.
Definition direct (local name : string) : ExportEntry := mkExport (Some local) name None None.
Definition re_export (name request import : string) : ExportEntry := mkExport None name (Some request) (Some import).
Definition star_re_export (request : string) : ExportEntry := mkExport None "*" (Some request) None.
Definition namespace (request local : string) : ImportEntry := mkImport request "*" local.
End Entries.

Module Mod.
Definition new (sp source : string) (syn : ModuleSyntax) : EsmModule :=
  mkModule sp syn source (ContentHash_compute (str_bytes source)) [] [] ∅ Unlinked None None false None.

Definition add_import (e : ImportEntry) (m : EsmModule) : EsmModule :=
  mkModule (specifier m) (syntax m) (em_source m) (content_hash m) (imports m ++ [e]) (exports m)
    ({[module_request e]} ∪ dependencies m) (status m) (dfs_index m) (dfs_ancestor_index m)
    (has_default_export m) (eval_rank m).

Definition add_export (e : ExportEntry) (m : EsmModule) : EsmModule :=
  mkModule (specifier m) (syntax m) (em_source m) (content_hash m) (imports m) (exports m ++ [e])
    (match ex_request e with Some req => {[req]} ∪ dependencies m | None => dependencies m end)
    (status m) (dfs_index m) (dfs_ancestor_index m)
    (if decide (export_name e = "default") then true else has_default_export m) (eval_rank m).

(** Assignments to the fields of a module. *)
Definition set_link (st : ModuleStatus) (index ancestor : option Z) (m : EsmModule) : EsmModule :=
  mkModule (specifier m) (syntax m) (em_source m) (content_hash m) (imports m) (exports m) (dependencies m)
    st index ancestor (has_default_export m) (eval_rank m).
Definition set_eval (st : ModuleStatus) (rank : option Z) (m : EsmModule) : EsmModule :=
  mkModule (specifier m) (syntax m) (em_source m) (content_hash m) (imports m) (exports m) (dependencies m)
    st (dfs_index m) (dfs_ancestor_index m) (has_default_export m) rank.
End Mod.

(** ** The graph *)

Module Graph.
Definition new : ModuleGraph := mkGraph ∅ None [].

Definition add_module (m : EsmModule) (g : ModuleGraph) : result EsmLoaderError ModuleGraph :=
  if decide (MAX_MODULE_GRAPH_SIZE <= size (modules g))%nat then Err (GraphTooLarge (Z.of_nat MAX_MODULE_GRAPH_SIZE))
  else Ok (mkGraph (<[specifier m := m]> (modules g))
             (match entry_point g with None => Some (specifier m) | e => e end) (trace_events g)).

Definition trace (ph : TracePhase) (sp detail : string) (g : ModuleGraph) : ModuleGraph :=
  mkGraph (modules g) (entry_point g) (trace_events g ++ [mkTrace ph sp detail (zlen (trace_events g))]).

(** [if let Some(module) = self.modules.get_mut(specifier)] *)
Definition update (sp : string) (f : EsmModule -> EsmModule) (g : ModuleGraph) : ModuleGraph :=
  mkGraph (alter f sp (modules g)) (entry_point g) (trace_events g).

Definition modules_in_order (g : ModuleGraph) : list EsmModule := sorted_values (modules g).

Definition depth_at (room : nat) : Z := Z.of_nat (MAX_MODULE_DEPTH - room).

(** *** Linking *)

Record LinkState := mkLinkState {
  ls_graph : ModuleGraph;
  ls_counter : Z;
  ls_stack : list string;
  ls_cycles : list CycleInfo }.

(** Popping a component off the stack, whose top comes first. *)
Fixpoint pop_component (sp : string) (index : Z) (stack : list string) (g : ModuleGraph) : list string * ModuleGraph :=
  match stack with
  | [] => ([], g)
  | top :: stack =>
      let g := update top (fun m => Mod.set_link Linked (dfs_index m) (Some index) m) g in
      if decide (top = sp) then (stack, g) else pop_component sp index stack g
  end.

(** The loop over the dependencies; [link] links one of them. *)
Fixpoint link_deps (link : string -> LinkState -> LinkState * result EsmLoaderError Z)
    (sp : string) (deps : list string) (ancestor : Z) (st : LinkState) : LinkState * result EsmLoaderError Z :=
  match deps with
  | [] => (st, Ok ancestor)
  | dep :: deps =>
      match modules (ls_graph st) !! dep with
      | None => (st, Err (UnresolvedDependency sp dep))
      | Some _ =>
          match link dep st with
          | (st, Ok dep_ancestor) =>
              link_deps link sp deps (if dep_ancestor <? ancestor then dep_ancestor else ancestor) st
          | (st, Err e) => (st, Err e)
          end
      end
  end.

(** Entering a module: its index, the stack and the trace. *)
Definition enter_module (sp : string) (st : LinkState) : LinkState :=
  let index := ls_counter st in
  mkLinkState
    (trace Link sp ("linking (dfs_index=" +:+ int_to_string index +:+ ")")
       (update sp (Mod.set_link Linking (Some index) (Some index)) (ls_graph st)))
    (wrap_u32 (index + 1)) (sp :: ls_stack st) (ls_cycles st).

(** Leaving it: the ancestor, and its component when it is the root of one. *)
Definition leave_module (sp : string) (index ancestor : Z) (st : LinkState) : LinkState :=
  let g := update sp (fun m => Mod.set_link (status m) (dfs_index m) (Some ancestor) m) (ls_graph st) in
  let '(stack, g) := if ancestor =? index then pop_component sp index (ls_stack st) g else (ls_stack st, g) in
  mkLinkState g (ls_counter st) stack (ls_cycles st).

Fixpoint link_module (room : nat) (sp : string) (st : LinkState) : LinkState * result EsmLoaderError Z :=
  match room with
  | O => (st, Err (DepthExceeded sp (depth_at room) (Z.of_nat MAX_MODULE_DEPTH)))
  | S room' =>
      match modules (ls_graph st) !! sp with
      | None => (st, Err (ModuleNotFound sp))
      | Some m =>
          match status m with
          | Linked | Evaluated => (st, Ok (default u32_max (dfs_ancestor_index m)))
          | Linking =>
              (mkLinkState
                 (trace CycleDetected sp ("cycle detected at depth " +:+ int_to_string (depth_at room)) (ls_graph st))
                 (ls_counter st) (ls_stack st) (ls_cycles st ++ [mkCycle sp (reverse (ls_stack st))]),
               Ok (default 0 (dfs_index m)))
          | Unlinked | Evaluating | EvaluationError =>
              let index := ls_counter st in
              match link_deps (link_module room') sp (set_iter (dependencies m)) index (enter_module sp st) with
              | (st, Ok ancestor) => (leave_module sp index ancestor st, Ok ancestor)
              | (st, Err e) => (st, Err e)
              end
          end
      end
  end.

Definition is_linked (m : EsmModule) : bool := bool_decide (status m = Linked).

Definition link (g : ModuleGraph) : ModuleGraph * result EsmLoaderError LinkResult :=
  match entry_point g with
  | None => (g, Err NoEntryPoint)
  | Some entry =>
      let '(st, r) := link_module MAX_MODULE_DEPTH entry (mkLinkState g 0 [] []) in
      (ls_graph st,
       match r with
       | Ok _ => Ok (mkLinkResult (zlen (filter (fun m => is_linked m = true) (modules_in_order (ls_graph st))))
                       (zlen (ls_cycles st)) (ls_cycles st))
       | Err e => Err e
       end)
  end.

(** *** Evaluating *)

Record EvalState := mkEvalState { es_graph : ModuleGraph; es_order : list string; es_counter : Z }.

Fixpoint evaluate_deps (eval : string -> EvalState -> EvalState * result EsmLoaderError unit)
    (deps : list string) (st : EvalState) : EvalState * result EsmLoaderError unit :=
  match deps with
  | [] => (st, Ok tt)
  | dep :: deps =>
      match eval dep st with
      | (st, Ok _) => evaluate_deps eval deps st
      | (st, Err e) => (st, Err e)
      end
  end.

Definition begin_module (sp : string) (room : nat) (st : EvalState) : EvalState :=
  mkEvalState
    (trace Evaluate sp ("evaluating at depth " +:+ int_to_string (depth_at room))
       (update sp (fun m => Mod.set_eval Evaluating (eval_rank m) m) (es_graph st)))
    (es_order st) (es_counter st).

Definition end_module (sp : string) (st : EvalState) : EvalState :=
  mkEvalState (update sp (Mod.set_eval Evaluated (Some (es_counter st))) (es_graph st))
    (es_order st ++ [sp]) (wrap_u32 (es_counter st + 1)).

Fixpoint evaluate_module (room : nat) (sp : string) (st : EvalState) : EvalState * result EsmLoaderError unit :=
  match room with
  | O => (st, Err (DepthExceeded sp (depth_at room) (Z.of_nat MAX_MODULE_DEPTH)))
  | S room' =>
      match modules (es_graph st) !! sp with
      | None => (st, Err (ModuleNotFound sp))
      | Some m =>
          match status m with
          | Evaluated | Evaluating => (st, Ok tt)
          | EvaluationError => (st, Err (EvaluationFailed sp "previous evaluation failed"))
          | Unlinked | Linking => (st, Err (InvalidStatus sp "linked" (status_string (status m))))
          | Linked =>
              match evaluate_deps (evaluate_module room') (set_iter (dependencies m)) (begin_module sp room st) with
              | (st, Ok _) => (end_module sp st, Ok tt)
              | (st, Err e) => (st, Err e)
              end
          end
      end
  end.

Definition evaluate (g : ModuleGraph) : ModuleGraph * result EsmLoaderError EvalResult :=
  match entry_point g with
  | None => (g, Err NoEntryPoint)
  | Some entry =>
      let '(st, r) := evaluate_module MAX_MODULE_DEPTH entry (mkEvalState g [] 0) in
      (es_graph st,
       match r with Ok _ => Ok (mkEvalResult (es_order st) (es_counter st)) | Err e => Err e end)
  end.

(** *** Exports *)

(** The first entry of the name that is a local export or a re-export. *)
Inductive Exported := ELocal (local : string) | EFrom (request import : string).
Fixpoint find_export (name : string) (l : list ExportEntry) : option Exported :=
  match l with
  | [] => None
  | e :: l =>
      if decide (export_name e = name) then
        match ex_local e, ex_request e, ex_import e with
        | Some local, _, _ => Some (ELocal local)
        | None, Some req, Some imp => Some (EFrom req imp)
        | None, _, _ => find_export name l
        end
      else find_export name l
  end.

(** The modules that are re-exported as a whole. *)
Definition star_requests (l : list ExportEntry) : list string :=
  omap (fun e => if decide (export_name e = "*") then ex_request e else None) l.

Abbreviation Visited := (gset (string * string)).

(** [None] is a search out of fuel. *)
Abbreviation Resolution := (option (Visited * result EsmLoaderError ResolvedBinding)).

Fixpoint resolve_stars (resolve : string -> Visited -> Resolution)
    (sp name : string) (reqs : list string) (found : option ResolvedBinding) (visited : Visited) : Resolution :=
  match reqs with
  | [] => Some (visited, ok_or (ExportNotFound sp name) found)
  | req :: reqs =>
      match resolve req visited with
      | Some (visited, Ok b) =>
          match found with
          | Some _ => Some (visited, Err (AmbiguousExport sp name))
          | None => resolve_stars resolve sp name reqs (Some b) visited
          end
      | Some (visited, Err _) => resolve_stars resolve sp name reqs found visited
      | None => None
      end
  end.

Fixpoint resolve_export_inner (fuel : nat) (g : ModuleGraph) (sp name : string) (visited : Visited) : Resolution :=
  match fuel with
  | O => None
  | S fuel =>
      if decide ((sp, name) ∈ visited) then Some (visited, Err (AmbiguousExport sp name))
      else
        let visited := {[(sp, name)]} ∪ visited in
        match modules g !! sp with
        | None => Some (visited, Err (ModuleNotFound sp))
        | Some m =>
            match find_export name (exports m) with
            | Some (ELocal local) => Some (visited, Ok (mkResolved sp local Direct))
            | Some (EFrom req imp) => resolve_export_inner fuel g req imp visited
            | None =>
                resolve_stars (fun req => resolve_export_inner fuel g req name) sp name (star_requests (exports m)) None visited
            end
        end
  end.

(** The names a resolution can ask for, and one more than the keys it can visit. *)
Definition asked_names (g : ModuleGraph) (name : string) : gset string :=
  {[name]} ∪ list_to_set (m ← modules_in_order g; omap ex_import (exports m)).
Definition resolve_fuel (g : ModuleGraph) (name : string) : nat :=
  S (S (size (modules g) * size (asked_names g name))).

Definition resolve_export (g : ModuleGraph) (sp name : string) : option (result EsmLoaderError ResolvedBinding) :=
  snd <$> resolve_export_inner (resolve_fuel g name) g sp name ∅.

(** *** Queries *)

Definition deps_of (g : ModuleGraph) (sp : string) : list string :=
  match modules g !! sp with Some m => set_iter (dependencies m) | None => [] end.

(** All the names in the graph, those of missing modules included. *)
Definition names (g : ModuleGraph) : gset string :=
  dom (modules g) ∪ list_to_set (m ← modules_in_order g; set_iter (dependencies m)).

Fixpoint topo_dfs (fuel : nat) (g : ModuleGraph) (sp : string) (st : gset string * list string) :
    option (gset string * list string) :=
  match fuel with
  | O => None
  | S fuel =>
      let '(visited, order) := st in
      if decide (sp ∈ visited) then Some st
      else
        st ← foldl (fun st dep => st ≫= topo_dfs fuel g dep) (Some ({[sp]} ∪ visited, order)) (deps_of g sp);
        Some (st.1, st.2 ++ [sp])
  end.

Definition topological_order (g : ModuleGraph) : option (list string) :=
  snd <$> foldl (fun st sp => st ≫= topo_dfs (S (size (names g))) g sp) (Some (∅, [])) (sorted_keys (modules g)).

Fixpoint reachable_dfs (fuel : nat) (g : ModuleGraph) (sp : string) (reachable : gset string) : option (gset string) :=
  match fuel with
  | O => None
  | S fuel =>
      if decide (sp ∈ reachable) then Some reachable
      else foldl (fun r dep => r ≫= reachable_dfs fuel g dep) (Some ({[sp]} ∪ reachable)) (deps_of g sp)
  end.

Definition transitive_dependencies (g : ModuleGraph) (sp : string) : option (gset string) :=
  (fun r => r ∖ {[sp]}) <$> reachable_dfs (S (S (size (names g)))) g sp ∅.

Definition find_exporters (name : string) (g : ModuleGraph) : list string :=
  (filter (fun e => existsb (fun x => bool_decide (export_name x = name)) (exports e.2) = true)
     (sorted_entries (modules g))).*1.
End Graph.
