(* ===== verification/EsmCorrect.v ===== *)
(** * Linking and evaluating a module graph

    Both phases are depth-first searches over the dependencies.  On a graph with
    less modules than the depth limit linking fails for a missing dependency
    only; otherwise it links exactly the modules that the entry point reaches,
    and evaluation then runs each of them once, after all the dependencies that
    do not lead back to it. *)
From stdpp Require Import base numbers list strings gmap sets relations.
From S2P Require Import Prelude Bytes Text HashTiers EsmLoader.
Open Scope string_scope.
Open Scope list_scope.
Open Scope Z_scope.
Import Graph.

(** ** Graphs up to their statuses *)

(** A module without what the phases change. *)
Definition static (m : EsmModule) : EsmModule := Mod.set_eval Unlinked None (Mod.set_link Unlinked None None m).

Definition same_static (g g' : ModuleGraph) : Prop :=
  entry_point g = entry_point g' /\ forall x, static <$> modules g !! x = static <$> modules g' !! x.

#[export] Instance same_static_equiv : Equivalence same_static.
Proof.
  split; [done| |].
  - intros g g' [He Hs]. by split.
  - intros g1 g2 g3 [He1 H1] [He2 H2]. split; [congruence|]. intros x. by rewrite H1.
Qed.

Definition edge (g : ModuleGraph) (x y : string) : Prop :=
  exists m, modules g !! x = Some m /\ y ∈ dependencies m.
Definition present (g : ModuleGraph) (x : string) : Prop := is_Some (modules g !! x).

Lemma same_static_lookup g g' x m :
  same_static g g' -> modules g' !! x = Some m -> exists m0, modules g !! x = Some m0 /\ dependencies m = dependencies m0.
Proof.
  intros [_ Hs] Hm. specialize (Hs x). rewrite Hm in Hs. cbn in Hs. apply fmap_Some in Hs as (m0 & Hm0 & E).
  exists m0. split; [done|]. by apply (f_equal dependencies) in E.
Qed.

Lemma same_static_present g g' x : same_static g g' -> present g x <-> present g' x.
Proof.
  intros [_ Hs]. specialize (Hs x). unfold present.
  destruct (modules g !! x), (modules g' !! x); cbn in Hs; try done; split; eauto.
Qed.

#[export] Instance edge_proper : Proper (same_static ==> eq ==> eq ==> iff) edge.
Proof.
  assert (Hi : forall g g' x y, same_static g g' -> edge g' x y -> edge g x y).
  { intros g g' x y Hs (m & Hm & Hy). destruct (same_static_lookup _ _ _ _ Hs Hm) as (m0 & Hm0 & E).
    exists m0. split; [done|]. by rewrite <- E. }
  intros g g' Hs x _ <- y _ <-. split; apply Hi; [by symmetry|done].
Qed.

Lemma elem_of_set_iter (s : gset string) x : x ∈ set_iter s <-> x ∈ s.
Proof. by rewrite set_iter_perm, elem_of_elements. Qed.

Definition stat (g : ModuleGraph) (x : string) : option ModuleStatus := status <$> modules g !! x.

(** Changing the status of one module. *)
Lemma update_static sp f g :
  (forall m, static (f m) = static m) -> same_static g (update sp f g).
Proof.
  intros Hf. split; [done|]. intros x. cbn. destruct (decide (x = sp)) as [->|Hne].
  - rewrite lookup_alter_eq. destruct (modules g !! sp); cbn; [by rewrite Hf|done].
  - by rewrite lookup_alter_ne.
Qed.

Lemma stat_update sp f g x :
  stat (update sp f g) x = if decide (x = sp) then (status ∘ f) <$> modules g !! x else stat g x.
Proof.
  unfold stat. cbn. case_decide as E; [subst; rewrite lookup_alter_eq; by destruct (modules g !! sp)|by rewrite lookup_alter_ne].
Qed.

Lemma elem_of_dom_status g s x :
  x ∈ dom (filter (fun e => status e.2 = s) (modules g)) <-> stat g x = Some s.
Proof.
  rewrite elem_of_dom. unfold stat. split.
  - intros [m [Hm Hu]%map_lookup_filter_Some]. by rewrite Hm; cbn in *; rewrite Hu.
  - intros (m & Hm & Hu)%fmap_Some. exists m. by apply map_lookup_filter_Some.
Qed.

(** Modules that have not been visited. *)
Definition unlinked (g : ModuleGraph) : nat := size (filter (fun e => status e.2 = Unlinked) (modules g)).

Lemma unlinked_decreases g g' sp :
  stat g sp = Some Unlinked -> (forall x, stat g' x = Some Unlinked -> stat g x = Some Unlinked /\ x <> sp) ->
  (unlinked g' < unlinked g)%nat.
Proof.
  intros Hsp Hx. unfold unlinked. rewrite <- !size_dom. apply subset_size.
  split; [intros x; rewrite !elem_of_dom_status; by intros [? ?]%Hx|]. intros Hs.
  specialize (Hs sp). rewrite !elem_of_dom_status in Hs. by destruct (Hx sp (Hs Hsp)).
Qed.

(** ** Linking *)

Section link.
Context (g0 : ModuleGraph).
Implicit Types (st : LinkState) (x y sp : string).

Definition seen st x : Prop := stat (ls_graph st) x = Some Linking \/ stat (ls_graph st) x = Some Linked.

Record linv st : Prop := {
  li_static : same_static g0 (ls_graph st);
  li_status : forall x s, stat (ls_graph st) x = Some s -> s = Unlinked \/ s = Linking \/ s = Linked;
  li_nodup : NoDup (ls_stack st);
  li_stack : forall x, x ∈ ls_stack st <-> stat (ls_graph st) x = Some Linking;
  li_index : forall x m, modules (ls_graph st) !! x = Some m -> status m <> Unlinked ->
    0 <= default 0 (dfs_index m) /\ 0 <= default u32_max (dfs_ancestor_index m);
  li_counter : 0 <= ls_counter st }.

(** Every module comes before the modules it depends on. *)
Fixpoint topsorted (l : list string) : Prop :=
  match l with [] => True | x :: l => (forall y, edge g0 x y -> y ∈ l) /\ topsorted l end.

(** The modules seen are those under way and those that are through. *)
Definition covers (path fin : list string) st : Prop := forall x, seen st x <-> x ∈ path \/ x ∈ fin.

(** What a search from the targets does. *)
Record explored (targets : list string) st st' : Prop := {
  ex_inv : linv st';
  ex_stack : exists new, ls_stack st' = new ++ ls_stack st;
  ex_linked : forall x, stat (ls_graph st) x = Some Linked -> stat (ls_graph st') x = Some Linked;
  ex_targets : forall x, x ∈ targets -> seen st' x;
  ex_new : forall x, seen st' x -> ~ seen st x ->
    (exists t, t ∈ targets /\ rtc (edge g0) t x) /\ forall y, edge g0 x y -> seen st' y;
  ex_cycles : exists more, ls_cycles st' = ls_cycles st ++ more;
  ex_topo : ls_cycles st' = ls_cycles st -> forall path fin,
    (forall x, x ∈ path -> stat (ls_graph st) x = Some Linking) -> covers path fin st -> topsorted fin ->
    exists new, topsorted (new ++ fin) /\ covers path (new ++ fin) st' /\ forall t, t ∈ targets -> t ∈ new ++ fin }.

Lemma explored_linking targets st st' x :
  linv st -> explored targets st st' -> stat (ls_graph st) x = Some Linking -> stat (ls_graph st') x = Some Linking.
Proof.
  intros Hi [Hi' [new Hs] _ _ _ _ _] Hx. apply (li_stack _ Hi'). rewrite Hs. apply elem_of_app. right. by apply (li_stack _ Hi).
Qed.

Lemma explored_seen targets st st' x : linv st -> explored targets st st' -> seen st x -> seen st' x.
Proof. intros Hi He [Hx|Hx]; [left; by eapply explored_linking|right; by eapply ex_linked]. Qed.

Lemma seen_dec st x : seen st x \/ ~ seen st x.
Proof. unfold seen. destruct (stat (ls_graph st) x) as [[]|]; (left; by auto) || (right; by intros [|]). Qed.

Lemma explored_nil st : linv st -> explored [] st st.
Proof.
  intros Hi. constructor; try done; [by exists []|by intros x ?%elem_of_nil|by exists []; rewrite app_nil_r|].
  intros _ path fin _ Hc Ht. exists []. split_and!; [done..|]. by intros t ?%elem_of_nil.
Qed.

Lemma explored_cons t ts st st1 st2 :
  linv st -> explored [t] st st1 -> explored ts st1 st2 -> explored (t :: ts) st st2.
Proof.
  intros Hi H1 H2. pose proof (ex_inv _ _ _ H1) as Hi1. constructor.
  - apply H2.
  - destruct (ex_stack _ _ _ H1) as [n1 E1], (ex_stack _ _ _ H2) as [n2 E2]. exists (n2 ++ n1).
    by rewrite E2, E1, app_assoc.
  - intros x Hx. by apply H2, H1.
  - intros x [->|Hx]%elem_of_cons; [|by apply H2]. eapply explored_seen; [exact Hi1|done|]. apply H1. by left.
  - intros x Hx Hn. destruct (seen_dec st1 x) as [Hx1|Hx1].
    + destruct (ex_new _ _ _ H1 x Hx1 Hn) as [(t' & ->%list_elem_of_singleton & Hr) He]. split; [exists t; split; [by left|done]|].
      intros y Hy. eapply explored_seen; [exact Hi1|done|by apply He].
    + destruct (ex_new _ _ _ H2 x Hx Hx1) as [(t' & Ht & Hr) He]. split; [exists t'; split; [by right|done]|done].
  - destruct (ex_cycles _ _ _ H1) as [m1 E1], (ex_cycles _ _ _ H2) as [m2 E2]. exists (m1 ++ m2).
    by rewrite E2, E1, app_assoc.
  - intros Hc path fin Hp Hcov Ht.
    destruct (ex_cycles _ _ _ H1) as [m1 E1], (ex_cycles _ _ _ H2) as [m2 E2].
    assert (m1 = [] /\ m2 = []) as [-> ->].
    { rewrite E2, E1, <- app_assoc in Hc. rewrite <- (app_nil_r (ls_cycles st)) in Hc at 2.
      apply (inj (app _)) in Hc. by apply app_nil in Hc. }
    rewrite app_nil_r in E1, E2. destruct (ex_topo _ _ _ H1 E1 path fin Hp Hcov Ht) as (n1 & Ht1 & Hc1 & Hin1).
    destruct (ex_topo _ _ _ H2 E2 path (n1 ++ fin)) as (n2 & Ht2 & Hc2 & Hin2); [|done..|].
    { intros x Hx. by apply (explored_linking [t] st st1 x Hi H1), Hp. }
    exists (n2 ++ n1). rewrite <- app_assoc. split_and!; [done..|]. intros x [->|Hx]%elem_of_cons; [|by apply Hin2].
    apply elem_of_app. right. apply Hin1. by left.
Qed.

Lemma unlinked_mono targets st st' :
  linv st -> explored targets st st' -> (unlinked (ls_graph st') <= unlinked (ls_graph st))%nat.
Proof.
  intros Hi He. unfold unlinked. rewrite <- !size_dom. apply subseteq_size. intros x.
  rewrite !elem_of_dom. intros [m' [Hm' Hu]%map_lookup_filter_Some].
  destruct (same_static_lookup g0 _ _ _ (li_static _ (ex_inv _ _ _ He)) Hm') as (m0 & Hm0 & _).
  destruct (modules (ls_graph st) !! x) as [m|] eqn:Hm.
  - exists m. apply map_lookup_filter_Some. split; [done|]. cbn in *.
    destruct (li_status _ Hi x (status m)) as [E|E]; [by unfold stat; rewrite Hm|done|].
    exfalso. assert (Hs : seen st x) by (unfold seen, stat; rewrite Hm; cbn; destruct E as [-> | ->]; auto).
    apply (explored_seen _ _ _ _ Hi He) in Hs. unfold seen, stat in Hs. rewrite Hm' in Hs. cbn in Hs. rewrite Hu in Hs. by destruct Hs.
  - exfalso. destruct (li_static _ Hi) as [_ Hst]. specialize (Hst x). by rewrite Hm, Hm0 in Hst.
Qed.

(** *** Entering and leaving a module *)

Lemma pop_component_spec sp index pre rest g :
  sp ∉ pre -> exists g', pop_component sp index (pre ++ sp :: rest) g = (rest, g') /\ same_static g g' /\
    forall x, modules g' !! x =
      if decide (x ∈ pre ++ [sp]) then (fun m => Mod.set_link Linked (dfs_index m) (Some index) m) <$> modules g !! x
      else modules g !! x.
Proof.
  revert g. induction pre as [|top pre IH]; intros g Hn; cbn [app pop_component].
  - rewrite decide_True by done. eexists. split; [done|]. split; [by apply update_static|]. intros x. cbn.
    destruct (decide (x = sp)) as [->|Hne]; [rewrite lookup_alter_eq, decide_True by set_solver; done|].
    rewrite lookup_alter_ne, decide_False by set_solver. done.
  - apply not_elem_of_cons in Hn as [Hne Hn]. rewrite decide_False by done.
    destruct (IH (update top (fun m => Mod.set_link Linked (dfs_index m) (Some index) m) g) Hn) as (g' & E & Hs & Hl).
    exists g'. split; [done|]. split; [etrans; [|exact Hs]; by apply update_static|]. intros x. rewrite Hl. cbn.
    destruct (decide (x = top)) as [->|Hx].
    + rewrite lookup_alter_eq. rewrite (decide_True (P := top ∈ top :: _)) by set_solver. case_decide; [|done]. by destruct (modules g !! top).
    + rewrite lookup_alter_ne by done. destruct (decide (x ∈ pre ++ [sp])); [by rewrite decide_True by set_solver|].
      by rewrite decide_False by set_solver.
Qed.

Lemma stat_enter sp st x :
  stat (ls_graph (enter_module sp st)) x = if decide (x = sp) then (fun _ => Linking) <$> modules (ls_graph st) !! x else stat (ls_graph st) x.
Proof. unfold enter_module. cbn [ls_graph]. apply stat_update. Qed.

Lemma wrap_u32_nonneg z : 0 <= wrap_u32 z.
Proof. unfold wrap_u32. pose proof (Z.mod_pos_bound z (2 ^ 32)). lia. Qed.

Lemma linv_enter sp st :
  linv st -> stat (ls_graph st) sp = Some Unlinked -> linv (enter_module sp st).
Proof.
  intros Hi Hsp. assert (Hm : is_Some (modules (ls_graph st) !! sp)).
  { unfold stat in Hsp. by apply fmap_Some in Hsp as (m & -> & _). } destruct Hm as [m Hm]. constructor.
  - etrans; [apply Hi|]. by apply (update_static sp (Mod.set_link Linking _ _)).
  - intros x s. rewrite stat_enter. case_decide; [subst; rewrite Hm; intros [= <-]; auto|]. apply Hi.
  - cbn. constructor; [|apply Hi]. intros Hx%(li_stack _ Hi). congruence.
  - intros x. rewrite stat_enter. cbn. rewrite elem_of_cons. case_decide as E; [subst; rewrite Hm; by intuition|].
    rewrite (li_stack _ Hi). intuition.
  - intros x m'. cbn. pose proof (li_counter _ Hi). destruct (decide (x = sp)) as [->|Hne].
    + rewrite lookup_alter_eq, Hm. cbn. intros [= <-] _. cbn. lia.
    + rewrite lookup_alter_ne by done. apply Hi.
  - apply wrap_u32_nonneg.
Qed.

Lemma seen_enter sp st x :
  stat (ls_graph st) sp = Some Unlinked -> seen (enter_module sp st) x <-> x = sp \/ seen st x.
Proof.
  intros Hsp. assert (is_Some (modules (ls_graph st) !! sp)) as [m Hm] by (by apply fmap_Some in Hsp as (m & -> & _)).
  unfold seen. rewrite stat_enter. case_decide as E; [subst; rewrite Hm; cbn; intuition|]. intuition.
Qed.

(** What leaving does: the statuses stay, or the component on top of the stack is linked. *)
Lemma leave_module_spec sp index a st pre rest :
  linv st -> ls_stack st = pre ++ sp :: rest -> 0 <= index -> 0 <= a ->
  let st' := leave_module sp index a st in
  linv st' /\ ls_cycles st' = ls_cycles st /\ (forall x, seen st' x <-> seen st x) /\
  (forall x, stat (ls_graph st) x = Some Linked -> stat (ls_graph st') x = Some Linked) /\
  ls_stack st' = (if a =? index then rest else pre ++ sp :: rest).
Proof.
  intros Hi Hst Hidx Ha. unfold leave_module.
  set (g1 := update sp (fun m => Mod.set_link (status m) (dfs_index m) (Some a) m) (ls_graph st)).
  assert (Hs1 : same_static (ls_graph st) g1) by (by apply update_static).
  assert (Ht1 : forall x, stat g1 x = stat (ls_graph st) x).
  { intros x. unfold g1. rewrite stat_update. by case_decide. }
  assert (Hx1 : forall x m, modules g1 !! x = Some m -> status m <> Unlinked ->
                  0 <= default 0 (dfs_index m) /\ 0 <= default u32_max (dfs_ancestor_index m)).
  { intros x m. unfold g1. cbn. destruct (decide (x = sp)) as [->|Hne]; [rewrite lookup_alter_eq|rewrite lookup_alter_ne by done; apply Hi].
    intros (m0 & Hm0 & ->)%fmap_Some. cbn. intros Hn. split; [|done]. by apply (li_index _ Hi sp m0). }
  clearbody g1. destruct (a =? index).
  - pose proof (li_nodup _ Hi) as Hnd. rewrite Hst in Hnd.
    apply NoDup_app in Hnd as (_ & Hdis & (Hsp & Hnd)%NoDup_cons). rewrite Hst.
    assert (Hpre : sp ∉ pre) by (intros Hp; apply (Hdis sp Hp); by left).
    destruct (pop_component_spec sp index pre rest g1 Hpre) as (g2 & E & Hs2 & Hl2). rewrite E. cbn [ls_graph ls_cycles ls_stack].
    assert (Hcomp : forall x, x ∈ pre ++ [sp] -> stat (ls_graph st) x = Some Linking).
    { intros x Hx. apply (li_stack _ Hi). rewrite Hst. set_solver. }
    assert (Ht2 : forall x, stat g2 x = if decide (x ∈ pre ++ [sp]) then Some Linked else stat (ls_graph st) x).
    { intros x. unfold stat at 1. rewrite Hl2. case_decide as Hd; [|apply Ht1].
      specialize (Hcomp x Hd). rewrite <- Ht1 in Hcomp. apply fmap_Some in Hcomp as (m & -> & _). done. }
    split_and!; [constructor; cbn [ls_graph ls_stack ls_counter]|done| | |done].
    + etrans; [apply Hi|]. by etrans.
    + intros x s. rewrite Ht2. case_decide; [intros [= <-]; auto|apply Hi].
    + done.
    + intros x. rewrite Ht2. case_decide as Hd; [split; [|done]; intros Hx; exfalso|].
      * apply elem_of_app in Hd as [Hd| ->%list_elem_of_singleton]; [|done]. apply (Hdis x Hd). by right.
      * rewrite <- (li_stack _ Hi), Hst. set_solver.
    + intros x m. rewrite Hl2. case_decide as Hd; [|apply Hx1]. intros (m0 & Hm0 & ->)%fmap_Some _. cbn. split; [|done].
      apply (Hx1 x m0 Hm0). specialize (Hcomp x Hd). rewrite <- Ht1 in Hcomp. unfold stat in Hcomp. rewrite Hm0 in Hcomp.
      injection Hcomp as ->. done.
    + apply Hi.
    + intros x. unfold seen. cbn [ls_graph]. rewrite Ht2. case_decide as Hd; [|done]. rewrite (Hcomp x Hd). intuition.
    + intros x Hx. rewrite Ht2. by case_decide.
  - split_and!; [constructor; cbn [ls_graph ls_stack ls_counter]|done| | |by rewrite Hst].
    + etrans; [apply Hi|done].
    + intros x s. rewrite Ht1. apply Hi.
    + apply Hi.
    + intros x. rewrite Ht1. apply Hi.
    + done.
    + apply Hi.
    + intros x. unfold seen. cbn [ls_graph]. by rewrite !Ht1.
    + intros x Hx. cbn [ls_graph]. by rewrite Ht1.
Qed.

(** *** The search *)

(** A dependency that is reached and not there. *)
Definition missing (targets : list string) (e : EsmLoaderError) : Prop :=
  exists t s d, t ∈ targets /\ e = UnresolvedDependency s d /\ rtc (edge g0) t s /\ edge g0 s d /\ ~ present g0 d.

Definition link_ok (targets : list string) st (out : LinkState * result EsmLoaderError Z) : Prop :=
  match out with
  | (st', Ok a) => 0 <= a /\ explored targets st st'
  | (_, Err e) => missing targets e
  end.

Lemma present_stat st x : linv st -> present g0 x <-> is_Some (modules (ls_graph st) !! x).
Proof. intros Hi. apply (same_static_present _ _ x (li_static _ Hi)). Qed.

Lemma link_deps_ok room link sp :
  (forall dep st, linv st -> present g0 dep -> (unlinked (ls_graph st) < room)%nat ->
     link_ok [dep] st (link dep st)) ->
  forall deps a st, linv st -> (unlinked (ls_graph st) < room)%nat -> 0 <= a -> (forall d, d ∈ deps -> edge g0 sp d) ->
    match link_deps link sp deps a st with
    | (st', Ok a') => 0 <= a' <= a /\ explored deps st st'
    | (st', Err e) => missing [sp] e
    end.
Proof.
  intros Hlink. induction deps as [|d deps IH]; intros a st Hi Hroom Ha Hd; cbn [link_deps].
  { split; [lia|by apply explored_nil]. }
  assert (Hed : edge g0 sp d) by (apply Hd; by left).
  destruct (modules (ls_graph st) !! d) as [m|] eqn:Hm.
  - assert (Hp : present g0 d) by (apply (present_stat st d Hi); eauto).
    pose proof (Hlink d st Hi Hp Hroom) as Hl. destruct (link d st) as [st1 [a1|e]]; cbn in Hl.
    + destruct Hl as (Ha1 & Hex).
      specialize (IH (if a1 <? a then a1 else a) st1 (ex_inv _ _ _ Hex)).
      destruct (link_deps link sp deps _ st1) as [st2 [a2|e]].
      * destruct IH as [Ha2 Hex2]; [pose proof (unlinked_mono _ _ _ Hi Hex); lia|by case_match|intros; apply Hd; by right|].
        split; [destruct (Z.ltb_spec a1 a); lia|by eapply explored_cons].
      * apply IH; [pose proof (unlinked_mono _ _ _ Hi Hex); lia|by case_match|intros; apply Hd; by right].
    + destruct Hl as (t & s & d' & ->%list_elem_of_singleton & -> & Hr & He & Hn).
      exists sp, s, d'. split_and!; [by left|done| |done..]. by eapply rtc_l.
  - exists sp, sp, d. split_and!; [by left|done|done|done|]. intros Hp%(present_stat st d Hi). rewrite Hm in Hp. by destruct Hp.
Qed.

Lemma covers_enter path fin sp st :
  stat (ls_graph st) sp = Some Unlinked -> covers path fin st -> covers (sp :: path) fin (enter_module sp st).
Proof. intros Hsp Hc x. rewrite seen_enter by done. rewrite (Hc x). set_solver. Qed.

(** The search below a module that had not been visited. *)
Lemma explored_leave sp deps st st2 a :
  linv st -> stat (ls_graph st) sp = Some Unlinked -> 0 <= a <= ls_counter st ->
  (forall y, edge g0 sp y <-> y ∈ deps) -> explored deps (enter_module sp st) st2 ->
  explored [sp] st (leave_module sp (ls_counter st) a st2).
Proof.
  intros Hi Hsp Ha Hdeps Hex. pose proof (linv_enter sp st Hi Hsp) as Hi1.
  destruct (ex_stack _ _ _ Hex) as [pre Hst]. cbn in Hst. pose proof (li_counter _ Hi).
  destruct (leave_module_spec sp (ls_counter st) a st2 pre (ls_stack st) (ex_inv _ _ _ Hex) Hst) as (Hi3 & Hc & Hseen & Hlinked & Hst3);
    [done|lia|]. set (st3 := leave_module sp (ls_counter st) a st2) in *.
  assert (Hsp2 : seen st2 sp).
  { eapply explored_seen; [exact Hi1|exact Hex|]. apply seen_enter; auto. }
  constructor.
  - done.
  - rewrite Hst3. case_match; [by exists []|exists (pre ++ [sp]); by rewrite <- app_assoc].
  - intros x Hx. apply Hlinked, Hex. rewrite stat_enter. case_decide as E; [subst; congruence|done].
  - intros x ->%list_elem_of_singleton. by apply Hseen.
  - intros x Hx%Hseen Hn. destruct (decide (x = sp)) as [->|Hne].
    + split; [exists sp; by split; [left|]|]. intros y Hy%Hdeps. by apply Hseen, Hex.
    + destruct (ex_new _ _ _ Hex x Hx) as [(d & Hd & Hr) He]; [rewrite seen_enter by done; tauto|].
      split; [|intros y Hy; by apply Hseen, He]. exists sp. split; [by left|]. eapply rtc_l; [by apply Hdeps|done].
  - rewrite Hc. by destruct (ex_cycles _ _ _ Hex) as [more E]; exists more.
  - rewrite Hc. intros Hcyc path fin Hp Hcov Ht.
    destruct (ex_topo _ _ _ Hex Hcyc (sp :: path) fin) as (new & Ht2 & Hc2 & Hin2); [|by apply covers_enter|done|].
    { intros x Hx. rewrite stat_enter. case_decide as E.
      - apply fmap_Some in Hsp as (m & Hm & _). subst. by rewrite Hm.
      - apply Hp. set_solver. }
    exists (sp :: new). cbn [app topsorted]. split_and!; [|done| |].
    + intros y Hy%Hdeps. by apply Hin2.
    + intros x. rewrite Hseen, (Hc2 x). set_solver.
    + intros t ->%list_elem_of_singleton. by left.
Qed.

Lemma link_module_ok room sp st :
  linv st -> present g0 sp -> (unlinked (ls_graph st) < room)%nat -> link_ok [sp] st (link_module room sp st).
Proof.
  revert sp st. induction room as [|room IH]; intros sp st Hi Hp Hroom; [lia|]. cbn [link_module].
  pose proof Hp as [m Hm]%(present_stat st sp Hi). rewrite Hm.
  assert (Hstat : stat (ls_graph st) sp = Some (status m)) by (unfold stat; by rewrite Hm).
  destruct (li_status _ Hi sp _ Hstat) as [Hu|[Hu|Hu]]; rewrite Hu in Hstat; rewrite Hu.
  - pose proof (linv_enter sp st Hi Hstat) as Hi1.
    assert (Hdeps : forall y, edge g0 sp y <-> y ∈ set_iter (dependencies m)).
    { intros y. rewrite elem_of_set_iter, (edge_proper _ _ (li_static _ Hi) sp sp eq_refl y y eq_refl).
      split; [intros (m' & Hm' & Hy); congruence|by exists m]. }
    assert (Hless : (unlinked (ls_graph (enter_module sp st)) < unlinked (ls_graph st))%nat).
    { apply (unlinked_decreases _ _ sp Hstat). intros x. rewrite stat_enter. case_decide; [|done].
      subst. by rewrite Hm. }
    pose proof (link_deps_ok room (link_module room) sp IH (set_iter (dependencies m)) (ls_counter st) (enter_module sp st) Hi1) as Hl.
    destruct (link_deps _ _ _ _ _) as [st2 [a|e]]; cbn.
    + destruct Hl as [Ha Hex]; [lia|apply Hi|intros; by apply Hdeps|]. split; [lia|]. by eapply explored_leave.
    + apply Hl; [lia|apply Hi|intros; by apply Hdeps].
  - cbn. split; [apply (li_index _ Hi sp m Hm); congruence|].
    constructor.
    + destruct Hi. by constructor.
    + by exists [].
    + done.
    + intros x ->%list_elem_of_singleton. by left.
    + intros x Hx Hn. by destruct Hn.
    + by eexists.
    + intros E. cbn in E. apply (f_equal length) in E. rewrite length_app in E. cbn in E. lia.
  - cbn. split; [apply (li_index _ Hi sp m Hm); congruence|]. constructor.
    + done.
    + by exists [].
    + done.
    + intros x ->%list_elem_of_singleton. by right.
    + intros x Hx Hn. by destruct Hn.
    + exists []. by rewrite app_nil_r.
    + intros _ path fin Hpath Hcov Ht. exists []. split_and!; [done..|]. intros t ->%list_elem_of_singleton.
      assert (Hs : seen st sp) by by right. apply Hcov in Hs as [Hs%Hpath|Hs]; [congruence|done].
Qed.

(** The entry point comes back with the least index, so that its component is all
    that was visited. *)
Lemma link_entry_stack room sp st :
  linv st -> present g0 sp -> (unlinked (ls_graph st) < room)%nat ->
  stat (ls_graph st) sp = Some Unlinked -> ls_counter st = 0 ->
  match link_module room sp st with (st', Ok _) => ls_stack st' = ls_stack st | _ => True end.
Proof.
  intros Hi Hp Hroom Hstat Hc. destruct room as [|room]; [lia|]. cbn [link_module].
  pose proof Hp as [m Hm]%(present_stat st sp Hi). rewrite Hm. pose proof Hstat as Hu. unfold stat in Hu. rewrite Hm in Hu.
  injection Hu as ->. pose proof (linv_enter sp st Hi Hstat) as Hi1.
  assert (Hless : (unlinked (ls_graph (enter_module sp st)) < unlinked (ls_graph st))%nat).
  { apply (unlinked_decreases _ _ sp Hstat). intros x. rewrite stat_enter. case_decide; [|done]. subst. by rewrite Hm. }
  pose proof (link_deps_ok room (link_module room) sp (link_module_ok room) (set_iter (dependencies m)) (ls_counter st) (enter_module sp st) Hi1) as Hl.
  destruct (link_deps _ _ _ _ _) as [st2 [a|e]]; [|done].
  destruct Hl as [Ha Hex]; [lia|lia| |].
  { intros d Hd%elem_of_set_iter. rewrite (edge_proper _ _ (li_static _ Hi) sp sp eq_refl d d eq_refl). by exists m. }
  destruct (ex_stack _ _ _ Hex) as [pre Hst]. cbn in Hst.
  destruct (leave_module_spec sp (ls_counter st) a st2 pre (ls_stack st) (ex_inv _ _ _ Hex) Hst) as (_ & _ & _ & _ & Hst3); [lia..|].
  rewrite Hst3. by replace (a =? ls_counter st) with true by (symmetry; apply Z.eqb_eq; lia).
Qed.
End link.

(** *** The phase *)

(** No module has been linked yet. *)
Definition fresh (g : ModuleGraph) : Prop := forall x m, modules g !! x = Some m -> status m = Unlinked.

Lemma topsorted_closed g l x y : topsorted g l -> x ∈ l -> rtc (edge g) x y -> y ∈ l.
Proof.
  intros Ht Hx Hr. induction Hr as [|x z y Hxz _ IH]; [done|]. apply IH. clear IH.
  induction l as [|w l IH]; [by apply elem_of_nil in Hx|]. destruct Ht as [Hw Ht].
  apply elem_of_cons in Hx as [->|Hx]; right; [by apply Hw|by apply IH].
Qed.

Lemma topsorted_acyclic g l x : topsorted g l -> x ∈ l -> ~ tc (edge g) x x.
Proof.
  induction l as [|w l IH]; intros Ht Hx; [by apply elem_of_nil in Hx|]. destruct Ht as [Hw Ht].
  destruct (decide (x ∈ l)) as [Hxl|Hxl]; [by apply IH|]. apply elem_of_cons in Hx as [->|Hx]; [|done].
  intros Hc. apply Hxl. assert (exists y, edge g w y /\ rtc (edge g) y w) as (y & Hy & Hr).
  { inversion Hc as [? ? He|? y ? He Hc']; subst; [by exists w|]. exists y. split; [done|by apply tc_rtc]. }
  eapply topsorted_closed; [done| |done]. by apply Hw.
Qed.

Lemma linv_start g : fresh g -> linv g (mkLinkState g 0 [] []).
Proof.
  intros Hf. constructor; cbn; try done; [|constructor| |].
  - intros x s (m & Hm & ->)%fmap_Some. left. by eapply Hf.
  - intros x. split; [by intros ?%elem_of_nil|]. intros (m & Hm & E)%fmap_Some. rewrite (Hf x m Hm) in E. done.
  - intros x m Hm. by rewrite (Hf x m Hm).
Qed.

Lemma unlinked_le g : (unlinked g <= size (modules g))%nat.
Proof. unfold unlinked. rewrite <- !size_dom. apply subseteq_size, dom_filter_subseteq. Qed.

(** What linking from an entry point comes to. *)
Definition link_post (g : ModuleGraph) (entry : string) (out : ModuleGraph * result EsmLoaderError LinkResult) : Prop :=
  match out with
  | (g', Ok r) =>
      same_static g g' /\
      (forall x, rtc (edge g) entry x -> present g x /\ stat g' x = Some Linked) /\
      (forall x, present g x -> ~ rtc (edge g) entry x -> stat g' x = Some Unlinked) /\
      (lr_cycles r = [] -> forall x, rtc (edge g) entry x -> ~ tc (edge g) x x)
  | (_, Err e) =>
      exists s d, e = UnresolvedDependency s d /\ rtc (edge g) entry s /\ edge g s d /\ ~ present g d
  end.

Lemma link_meets_post (g : ModuleGraph) (entry : string) :
  entry_point g = Some entry -> present g entry -> fresh g -> (size (modules g) < MAX_MODULE_DEPTH)%nat ->
  link_post g entry (link g).
Proof.
  intros He Hp Hf Hsize. unfold link. rewrite He.
  pose proof (linv_start g Hf) as Hi. pose proof (unlinked_le g) as Hu.
  assert (Hstat : stat g entry = Some Unlinked).
  { destruct Hp as [m Hm]. unfold stat. rewrite Hm. cbn. by rewrite (Hf _ _ Hm). }
  assert (Hroom : (unlinked g < MAX_MODULE_DEPTH)%nat) by lia.
  pose proof (link_module_ok g _ entry _ Hi Hp Hroom) as Hl.
  pose proof (link_entry_stack g _ entry _ Hi Hp Hroom Hstat eq_refl) as Hst.
  destruct (link_module MAX_MODULE_DEPTH entry (mkLinkState g 0 [] [])) as [st [a|e]]; cbn in Hl, Hst.
  2:{ destruct Hl as (t & s & d & ->%list_elem_of_singleton & -> & Hrest). by exists s, d. }
  destruct Hl as [_ Hex]. pose proof (ex_inv _ _ _ _ Hex) as Hi'.
  assert (Hnone : forall x, ~ seen (mkLinkState g 0 [] []) x).
  { intros x [(m & Hm & E)%fmap_Some|(m & Hm & E)%fmap_Some]; cbn in Hm; by rewrite (Hf _ _ Hm) in E. }
  assert (Hlinked : forall x, seen st x -> stat (ls_graph st) x = Some Linked).
  { intros x [Hx|Hx]; [|done]. apply (li_stack _ _ Hi') in Hx. rewrite Hst in Hx. by apply elem_of_nil in Hx. }
  assert (Hreach : forall x, rtc (edge g) entry x -> seen st x).
  { intros x Hr. assert (Hse : seen st entry) by (apply Hex; by left). revert Hse. clear -Hr Hex Hnone.
    assert (Hcl : forall x y, seen st x -> edge g x y -> seen st y).
    { intros y z Hy. by apply (ex_new _ _ _ _ Hex y Hy (Hnone y)). }
    clear Hex Hnone. induction Hr as [|x y z Hxy _ IH]; eauto. }
  cbn [ls_graph lr_cycles]. split_and!.
  - apply Hi'.
  - intros x Hx%Hreach%Hlinked. split; [|done]. apply (same_static_present _ _ x (li_static _ _ Hi')).
    apply fmap_Some in Hx as (m & Hm & _). by exists m.
  - intros x Hpx Hn. apply (same_static_present _ _ x (li_static _ _ Hi')) in Hpx as [m Hm].
    assert (Hx : stat (ls_graph st) x = Some (status m)) by (unfold stat; by rewrite Hm).
    destruct (li_status _ _ Hi' x _ Hx) as [E|E]; [by rewrite Hx, E|]. exfalso. apply Hn.
    assert (Hs : seen st x) by (unfold seen; rewrite Hx; destruct E as [-> | ->]; auto).
    destruct (ex_new _ _ _ _ Hex x Hs (Hnone x)) as [(t & ->%list_elem_of_singleton & Hr) _]. done.
  - intros Hc x Hr. destruct (ex_topo _ _ _ _ Hex Hc [] []) as (new & Ht & Hcov & _); [by intros ? ?%elem_of_nil| |done|].
    { intros y. split; [by intros ?%Hnone|]. by intros [?%elem_of_nil|?%elem_of_nil]. }
    apply (topsorted_acyclic g _ x Ht). destruct (proj1 (Hcov x) (Hreach x Hr)) as [Hn|Hn]; [by apply elem_of_nil in Hn|done].
Qed.


(** ** Evaluating *)

Section evaluate.
Context (g0 : ModuleGraph) (entry : string).
Implicit Types (st : EvalState) (x y sp : string).

Definition reached x : Prop := rtc (edge g0) entry x.

(** Each module of the order comes after the modules it depends on, unless they
    lead back to it. *)
Definition deps_first (order : list string) : Prop :=
  forall i x y, order !! i = Some x -> edge g0 x y ->
    (exists j, (j < i)%nat /\ order !! j = Some y) \/ rtc (edge g0) y x.

Record einv (path : list string) st : Prop := {
  ei_static : same_static g0 (es_graph st);
  ei_reached : forall x, reached x -> exists s, stat (es_graph st) x = Some s /\ (s = Linked \/ s = Evaluating \/ s = Evaluated);
  ei_rest : forall x, ~ reached x -> modules (es_graph st) !! x = modules g0 !! x;
  ei_path : forall x, reached x -> (stat (es_graph st) x = Some Evaluating <-> x ∈ path);
  ei_order : forall x, reached x -> (stat (es_graph st) x = Some Evaluated <-> x ∈ es_order st);
  ei_sub : forall x, x ∈ path \/ x ∈ es_order st -> reached x;
  ei_nodup : NoDup (es_order st);
  ei_deps : deps_first (es_order st);
  ei_closed : forall x y, x ∈ es_order st -> edge g0 x y -> y ∈ path \/ y ∈ es_order st;
  ei_counter : es_counter st = zlen (es_order st);
  ei_rank : forall i x, es_order st !! i = Some x -> eval_rank <$> modules (es_graph st) !! x = Some (Some (Z.of_nat i)) }.

(** The modules that are still to run. *)
Definition todo st : nat := size (filter (fun e => status e.2 = Linked) (modules (es_graph st))).

Record ran (path targets : list string) st st' : Prop := {
  ra_inv : einv path st';
  ra_order : exists new, es_order st' = es_order st ++ new;
  ra_todo : (todo st' <= todo st)%nat;
  ra_targets : forall x, x ∈ targets -> x ∈ path \/ x ∈ es_order st' }.

Lemma ran_cons path t ts st st1 st2 : ran path [t] st st1 -> ran path ts st1 st2 -> ran path (t :: ts) st st2.
Proof.
  intros [_ [n1 E1] H1 T1] [Hi [n2 E2] H2 T2]. constructor; [done|exists (n1 ++ n2); by rewrite E2, E1, app_assoc|lia|].
  intros x [->|Hx]%elem_of_cons; [|by apply T2]. destruct (T1 t) as [Hx|Hx]; [by left|by left|right]. rewrite E2. set_solver.
Qed.

Lemma evaluate_deps_ok room path eval :
  (forall sp st, einv path st -> reached sp -> (todo st < room)%nat -> (forall y, y ∈ path -> rtc (edge g0) y sp) ->
     exists st', eval sp st = (st', Ok tt) /\ ran path [sp] st st') ->
  forall deps st, einv path st -> (todo st < room)%nat ->
    (forall d, d ∈ deps -> reached d /\ forall y, y ∈ path -> rtc (edge g0) y d) ->
    exists st', evaluate_deps eval deps st = (st', Ok tt) /\ ran path deps st st'.
Proof.
  intros Hev. induction deps as [|d deps IH]; intros st Hi Ht Hd.
  { exists st. split; [done|]. constructor; [done|exists []; by rewrite app_nil_r|lia|by intros x ?%elem_of_nil]. }
  cbn [evaluate_deps]. destruct (Hd d) as [Hr Hp]; [by left|].
  destruct (Hev d st Hi Hr Ht Hp) as (st1 & -> & H1).
  destruct (IH st1) as (st2 & E2 & H2); [apply H1|pose proof (ra_todo _ _ _ _ H1); lia|intros; apply Hd; by right|].
  exists st2. split; [done|by eapply ran_cons].
Qed.

Lemma stat_present g x s : stat g x = Some s -> exists m, modules g !! x = Some m /\ status m = s.
Proof. unfold stat. intros (m & Hm & ->)%fmap_Some. eauto. Qed.

(** Beginning a module. *)
Lemma einv_begin room path sp st :
  einv path st -> reached sp -> stat (es_graph st) sp = Some Linked ->
  einv (sp :: path) (begin_module sp room st) /\ (todo (begin_module sp room st) < todo st)%nat.
Proof.
  intros Hi Hr Hsp. destruct (stat_present _ _ _ Hsp) as (m & Hm & Hs).
  assert (Hstat : forall x, stat (es_graph (begin_module sp room st)) x =
                    if decide (x = sp) then Some Evaluating else stat (es_graph st) x).
  { intros x. unfold begin_module. cbn [es_graph]. change (stat (trace ?p ?s ?d ?g) x) with (stat g x).
    rewrite stat_update. case_decide; [subst; by rewrite Hm|done]. }
  assert (Hno : sp ∉ es_order st) by (intros Hx%(ei_order _ _ Hi sp Hr); congruence).
  split.
  - constructor; cbn [es_order es_counter].
    + etrans; [apply Hi|]. by apply (update_static sp (fun m => Mod.set_eval Evaluating (eval_rank m) m)).
    + intros x Hx. rewrite Hstat. case_decide; [eauto|by apply Hi].
    + intros x Hx. cbn. rewrite lookup_alter_ne by congruence. by apply Hi.
    + intros x Hx. rewrite Hstat, elem_of_cons. case_decide; [by intuition|]. rewrite (ei_path _ _ Hi x Hx). intuition.
    + intros x Hx. rewrite Hstat. cbn. rewrite <- (ei_order _ _ Hi x Hx). case_decide; [subst; split; congruence|done].
    + intros x. rewrite elem_of_cons. intros [[->|Hx]|Hx]; [done|apply (ei_sub _ _ Hi); auto..].
    + apply Hi.
    + apply Hi.
    + intros x y Hx He. destruct (ei_closed _ _ Hi x y Hx He); [left; by right|by right].
    + apply Hi.
    + intros i x Hx. cbn. destruct (decide (x = sp)) as [->|Hne].
      * exfalso. apply Hno. by eapply list_elem_of_lookup_2.
      * rewrite lookup_alter_ne by done. by apply (ei_rank _ _ Hi).
  - unfold todo. rewrite <- !size_dom. apply subset_size.
    split; [intros x; rewrite !elem_of_dom_status, Hstat; by case_decide|]. intros Hsub. specialize (Hsub sp).
    rewrite !elem_of_dom_status, Hstat, decide_True in Hsub by done. by specialize (Hsub Hsp).
Qed.

Lemma order_length path st : einv path st -> (length (es_order st) <= size (modules g0))%nat.
Proof.
  intros Hi. rewrite <- (size_list_to_set (C := gset string) _ (ei_nodup _ _ Hi)), <- size_dom. apply subseteq_size.
  intros x Hx%elem_of_list_to_set. assert (Hr : reached x) by (apply (ei_sub _ _ Hi); auto).
  apply (ei_order _ _ Hi x Hr), stat_present in Hx as (m & Hm & _). apply elem_of_dom.
  apply (same_static_present _ _ x (ei_static _ _ Hi)). by exists m.
Qed.

Lemma deps_first_snoc order sp :
  deps_first order -> (forall y, edge g0 sp y -> y ∈ order \/ rtc (edge g0) y sp) -> deps_first (order ++ [sp]).
Proof.
  intros Ho Hsp i x y Hi He. apply lookup_app_Some in Hi as [Hi|[Hlen Hi]].
  - destruct (Ho i x y Hi He) as [(j & Hj & Hy)|Hy]; [left|by right]. exists j. split; [done|by apply lookup_app_l_Some].
  - apply list_lookup_singleton_Some in Hi as [Hz <-]. destruct (Hsp y He) as [Hy|Hy]; [left|by right].
    apply list_elem_of_lookup in Hy as [j Hj]. pose proof (lookup_lt_Some _ _ _ Hj). exists j.
    split; [lia|by apply lookup_app_l_Some].
Qed.

(** Ending it. *)
Lemma einv_end path sp st :
  (size (modules g0) < MAX_MODULE_DEPTH)%nat -> einv (sp :: path) st -> sp ∉ path ->
  (forall y, edge g0 sp y -> y ∈ sp :: path \/ y ∈ es_order st) -> (forall y, y ∈ path -> rtc (edge g0) y sp) ->
  einv path (end_module sp st) /\ (todo (end_module sp st) <= todo st)%nat.
Proof.
  intros Hsize Hi Hn Hdeps Hpath. assert (Hr : reached sp) by (apply (ei_sub _ _ Hi); left; by left).
  assert (Hsp : stat (es_graph st) sp = Some Evaluating) by (apply (ei_path _ _ Hi sp Hr); by left).
  destruct (stat_present _ _ _ Hsp) as (m & Hm & Hs).
  assert (Hstat : forall x, stat (es_graph (end_module sp st)) x = if decide (x = sp) then Some Evaluated else stat (es_graph st) x).
  { intros x. unfold end_module. cbn [es_graph]. rewrite stat_update. case_decide; [subst; by rewrite Hm|done]. }
  assert (Hno : sp ∉ es_order st) by (intros Hx%(ei_order _ _ Hi sp Hr); congruence).
  pose proof (order_length _ _ Hi) as Hlen. split.
  - constructor; cbn [es_order es_counter end_module].
    + etrans; [apply Hi|]. by apply (update_static sp (Mod.set_eval Evaluated (Some (es_counter st)))).
    + intros x Hx. rewrite (Hstat x). case_decide; [eauto|by apply Hi].
    + intros x Hx. cbn. rewrite lookup_alter_ne by congruence. by apply Hi.
    + intros x Hx. rewrite (Hstat x). case_decide as E; [subst; split; [done|by intros]|].
      rewrite (ei_path _ _ Hi x Hx), elem_of_cons. intuition.
    + intros x Hx. rewrite (Hstat x), elem_of_app, list_elem_of_singleton. case_decide as E; [by intuition|].
      rewrite (ei_order _ _ Hi x Hx). intuition.
    + intros x. rewrite elem_of_app, list_elem_of_singleton. intros [Hx|[Hx| ->]]; [apply (ei_sub _ _ Hi)..|done]; [left; by right|auto].
    + apply NoDup_app. split_and!; [apply Hi| |apply NoDup_singleton]. intros x Hx ->%list_elem_of_singleton. done.
    + apply deps_first_snoc; [apply Hi|]. intros y [[->|Hy]%elem_of_cons|Hy]%Hdeps; [by right|right; by apply Hpath|by left].
    + intros x y. rewrite !elem_of_app, !list_elem_of_singleton. intros [Hx| ->] He.
      * destruct (ei_closed _ _ Hi x y Hx He) as [[->|Hy]%elem_of_cons|Hy]; auto.
      * destruct (Hdeps y He) as [[->|Hy]%elem_of_cons|Hy]; auto.
    + rewrite (ei_counter _ _ Hi), zlen_app. change (zlen [sp]) with 1. unfold wrap_u32. apply Z.mod_small.
      assert (zlen (es_order st) < 512) by (unfold zlen, MAX_MODULE_DEPTH in *; lia). pose proof (zlen_nonneg (es_order st)). lia.
    + intros i x Hx. cbn. apply lookup_app_Some in Hx as [Hx|[Hlen' Hx]].
      * destruct (decide (x = sp)) as [->|Hne]; [exfalso; apply Hno; by eapply list_elem_of_lookup_2|].
        rewrite lookup_alter_ne by done. by apply (ei_rank _ _ Hi).
      * apply list_lookup_singleton_Some in Hx as [Hz <-]. rewrite lookup_alter_eq, Hm. cbn. rewrite (ei_counter _ _ Hi).
        unfold zlen. do 2 f_equal. lia.
  - unfold todo. rewrite <- !size_dom. apply subseteq_size. intros x. rewrite !elem_of_dom_status, (Hstat x). by case_decide.
Qed.

Lemma evaluate_module_ok room :
  (size (modules g0) < MAX_MODULE_DEPTH)%nat ->
  forall path sp st, einv path st -> reached sp -> (todo st < room)%nat -> (forall y, y ∈ path -> rtc (edge g0) y sp) ->
    exists st', evaluate_module room sp st = (st', Ok tt) /\ ran path [sp] st st'.
Proof.
  intros Hsize. induction room as [|room IH]; intros path sp st Hi Hr Ht Hp; [lia|].
  destruct (ei_reached _ _ Hi sp Hr) as (s & Hsp & Hs). destruct (stat_present _ _ _ Hsp) as (m & Hm & Hms).
  cbn [evaluate_module]. rewrite Hm, Hms.
  assert (Hsame : sp ∈ path \/ sp ∈ es_order st -> ran path [sp] st st).
  { intros Hx. constructor; [done|exists []; by rewrite app_nil_r|lia|]. by intros x ->%list_elem_of_singleton. }
  destruct Hs as [-> | [-> | ->]].
  - destruct (einv_begin (S room) path sp st Hi Hr Hsp) as [Hi1 Ht1].
    assert (Hedge : forall d, d ∈ set_iter (dependencies m) <-> edge g0 sp d).
    { intros d. rewrite elem_of_set_iter, (edge_proper _ _ (ei_static _ _ Hi) sp sp eq_refl d d eq_refl).
      split; [intros Hd; by exists m|intros (m' & Hm' & Hd); congruence]. }
    destruct (evaluate_deps_ok room (sp :: path) (evaluate_module room) (IH (sp :: path)) (set_iter (dependencies m))
                (begin_module sp (S room) st) Hi1) as (st2 & E2 & H2); [lia| |].
    { intros d Hd%Hedge. split; [eapply rtc_r; [exact Hr|done]|]. intros y [->|Hy]%elem_of_cons; [by apply rtc_once|].
      eapply rtc_r; [by apply Hp|done]. }
    rewrite E2. exists (end_module sp st2). split; [done|].
    assert (Hn : sp ∉ path) by (intros Hx%(ei_path _ _ Hi sp Hr); congruence).
    destruct (einv_end path sp st2 Hsize (ra_inv _ _ _ _ H2) Hn) as [Hi3 Ht3]; [|done|].
    { intros y Hy%Hedge. by apply (ra_targets _ _ _ _ H2). }
    constructor; [done| |pose proof (ra_todo _ _ _ _ H2); lia|].
    + destruct (ra_order _ _ _ _ H2) as [new E]. exists (new ++ [sp]). cbn. rewrite E. cbn. by rewrite app_assoc.
    + intros x ->%list_elem_of_singleton. right. cbn. apply elem_of_app. right. by left.
  - exists st. split; [done|]. apply Hsame. left. by apply (ei_path _ _ Hi sp Hr).
  - exists st. split; [done|]. apply Hsame. right. by apply (ei_order _ _ Hi sp Hr).
Qed.
End evaluate.

Lemma rtc_edge_static g g' x y : same_static g g' -> rtc (edge g) x y <-> rtc (edge g') x y.
Proof.
  intros Hs. split; intros Hr; (induction Hr as [|x y z Hxy _ IH]; [done|]; eapply rtc_l; [|exact IH]).
  - by rewrite <- (edge_proper _ _ Hs x x eq_refl y y eq_refl).
  - by rewrite (edge_proper _ _ Hs x x eq_refl y y eq_refl).
Qed.

Lemma same_static_size g g' : same_static g g' -> size (modules g) = size (modules g').
Proof.
  intros [_ Hs]. rewrite <- !size_dom. f_equal. apply set_eq. intros x. rewrite !elem_of_dom. specialize (Hs x).
  destruct (modules g !! x), (modules g' !! x); cbn in Hs; split; intros [? ?]; try done; eauto.
Qed.

Lemma einv_start g entry :
  (forall x, rtc (edge g) entry x -> stat g x = Some Linked) -> einv g entry [] (mkEvalState g [] 0).
Proof.
  intros Hl. constructor; cbn; try done; [eauto| | | |constructor|by intros x y ?%elem_of_nil].
  - intros x Hx. rewrite (Hl x Hx). by split; [|intros ?%elem_of_nil].
  - intros x Hx. rewrite (Hl x Hx). by split; [|intros ?%elem_of_nil].
  - by intros x [?%elem_of_nil|?%elem_of_nil].
Qed.

(** C8. In a graph of less than 512 modules that are all unlinked, whose entry point is
    one of them: if linking succeeds, then evaluating the linked graph succeeds and runs
    exactly the modules that the entry point reaches, each once, each after all its
    dependencies except those that lead back to it; the modules carry their rank in that
    order and are evaluated, and the others are untouched. *)
Theorem esm_evaluate_exact (g : ModuleGraph) (entry : string) :
  entry_point g = Some entry -> present g entry -> fresh g -> (size (modules g) < MAX_MODULE_DEPTH)%nat ->
  match link g with
  | (g1, Ok _) =>
      exists g2 e, evaluate g1 = (g2, Ok e) /\
        NoDup (er_order e) /\ evaluated_count e = zlen (er_order e) /\
        (forall x, x ∈ er_order e <-> rtc (edge g) entry x) /\
        (forall i x y, er_order e !! i = Some x -> edge g x y ->
           (exists j, (j < i)%nat /\ er_order e !! j = Some y) \/ rtc (edge g) y x) /\
        (forall i x, er_order e !! i = Some x ->
           exists m, modules g2 !! x = Some m /\ status m = Evaluated /\ eval_rank m = Some (Z.of_nat i)) /\
        (forall x, ~ rtc (edge g) entry x -> modules g2 !! x = modules g1 !! x)
  | _ => True
  end.
Proof.
  intros He Hp Hf Hsize. pose proof (link_meets_post g entry He Hp Hf Hsize) as Hl.
  destruct (link g) as [g1 [r|e]]; [|done]. destruct Hl as (Hs & Hlinked & _ & _).
  pose proof (fun x y => rtc_edge_static g g1 x y Hs) as Hrtc.
  assert (Hi : einv g1 entry [] (mkEvalState g1 [] 0)).
  { apply einv_start. intros x Hx. by apply Hlinked, Hrtc. }
  rewrite (same_static_size g g1 Hs) in Hsize. unfold evaluate. rewrite <- (proj1 Hs), He.
  destruct (evaluate_module_ok g1 entry MAX_MODULE_DEPTH Hsize [] entry _ Hi) as (st & -> & Hran).
  { apply rtc_refl. }
  { unfold todo. cbn. pose proof (subseteq_size _ _ (dom_filter_subseteq (D := gset string) (fun e => status e.2 = Linked) (modules g1))).
    rewrite !size_dom in *. lia. }
  { by intros y ?%elem_of_nil. }
  pose proof (ra_inv _ _ _ _ _ _ Hran) as Hi'. cbn.
  assert (Hin : entry ∈ es_order st).
  { destruct (ra_targets _ _ _ _ _ _ Hran entry) as [Hx|Hx]; [by left|by apply elem_of_nil in Hx|done]. }
  assert (Hall : forall x, x ∈ es_order st <-> rtc (edge g) entry x).
  { intros x. rewrite Hrtc. split; [intros Hx; apply (ei_sub _ _ _ _ Hi'); by right|]. intros Hr. clear -Hr Hin Hi'.
    pose proof (ei_closed _ _ _ _ Hi') as Hcl. clear Hi'. induction Hr as [|x y z Hxy _ IH]; [done|]. apply IH.
    by destruct (Hcl x y Hin Hxy) as [?%elem_of_nil|]. }
  eexists _, _. split; [done|]. cbn [er_order evaluated_count es_graph]. split_and!; [apply Hi'..|done| | |].
  - intros i x y Hx Hxy. rewrite (edge_proper _ _ Hs x x eq_refl y y eq_refl) in Hxy. rewrite Hrtc.
    by apply (ei_deps _ _ _ _ Hi' i).
  - intros i x Hx. pose proof (ei_rank _ _ _ _ Hi' i x Hx) as Hk. apply fmap_Some in Hk as (m & Hm & Hk).
    exists m. split_and!; [done| |done]. apply list_elem_of_lookup_2 in Hx.
    assert (Hst : stat (es_graph st) x = Some Evaluated).
    { apply (ei_order _ _ _ _ Hi'); [apply (ei_sub _ _ _ _ Hi'); by right|done]. }
    unfold stat in Hst. rewrite Hm in Hst. by injection Hst.
  - intros x Hn. apply (ei_rest _ _ _ _ Hi'). unfold reached. by rewrite <- Hrtc.
Qed.

(** ** Concrete graphs *)

Definition module_of (name : string) (deps : list string) : EsmModule :=
  foldr (fun d m => Mod.add_import (Entries.namespace d d) m) (Mod.new name "" EsModule) deps.
Definition graph_of (l : list (string * list string)) : ModuleGraph :=
  foldl (fun g e => match add_module (module_of e.1 e.2) g with Ok g => g | Err _ => g end) new l.

(** The modules of a result and the statuses they have. *)
Definition statuses (g : ModuleGraph) : list (string * ModuleStatus) :=
  (fun m => (specifier m, status m)) <$> modules_in_order g.

Definition cyclic_graph : ModuleGraph := graph_of [("a", ["b"; "c"]); ("b", ["c"]); ("c", ["b"]); ("d", ["a"])].

Lemma graph_of_fresh l : fresh (graph_of l).
Proof.
  unfold graph_of. assert (H : fresh new) by (intros x m Hm; unfold new in Hm; cbn in Hm; by rewrite lookup_empty in Hm).
  revert H. generalize new. induction l as [|[x ds] l IH]; intros g Hg; [done|]. cbn [foldl]. apply IH.
  unfold add_module. case_decide; [done|]. intros y m. cbn [modules]. rewrite lookup_insert_Some.
  intros [[_ <-]|[_ Hm]]; [|by apply (Hg y)]. unfold module_of. cbn [fst snd]. by induction ds.
Qed.


Lemma esm_evaluate_exact_witness :
  (er_order <$> (evaluate (link cyclic_graph).1).2) = Ok ["c"; "b"; "a"] /\
  exists g2 e, evaluate (link cyclic_graph).1 = (g2, Ok e) /\ forall x, x ∈ er_order e <-> rtc (edge cyclic_graph) "a" x.
Proof.
  split; [vm_compute; reflexivity|].
  assert (Hok : is_ok (link cyclic_graph).2 = true) by (vm_compute; reflexivity).
  pose proof (esm_evaluate_exact cyclic_graph "a" eq_refl) as H.
  destruct (link cyclic_graph) as [g1 [r|e]]; [|discriminate Hok].
  destruct H as (g2 & e & Hev & _ & _ & Hall & _); [by eexists; vm_compute|apply graph_of_fresh|by vm_compute; repeat constructor|].
  exists g2, e. split; [exact Hev|exact Hall].
Defined.

(** An acyclic graph is reported to have a cycle: [c] depends on [b], which has
    been linked under the lower ancestor index, so that [c] is taken to belong to
    the component of [a] and stays on the stack, where [d] finds it. *)
Definition acyclic_graph : ModuleGraph := graph_of [("a", ["b"; "c"; "d"]); ("b", []); ("c", ["b"]); ("d", ["c"])].

Definition edges_within (g : ModuleGraph) (l : list (string * string)) : bool :=
  bool_decide (map_Forall (fun x m => Forall (fun y => (x, y) ∈ l) (elements (dependencies m))) (modules g)).

Lemma edges_within_spec g l x y : edges_within g l = true -> edge g x y -> (x, y) ∈ l.
Proof.
  intros H%bool_decide_eq_true (m & Hm & Hy). specialize (H x m Hm). rewrite Forall_forall in H. apply H. by apply elem_of_elements.
Qed.

Theorem acyclic_graph_reports_cycle :
  (forall x, ~ tc (edge acyclic_graph) x x) /\
  (lr_cycles <$> (link acyclic_graph).2) = Ok [mkCycle "c" ["a"; "c"; "d"]].
Proof.
  split; [|vm_compute; reflexivity].
  assert (He : forall x y, edge acyclic_graph x y -> (x, y) ∈ [("a", "b"); ("a", "c"); ("a", "d"); ("c", "b"); ("d", "c")]).
  { intros x y. apply edges_within_spec. by vm_compute. }
  assert (Ht : topsorted acyclic_graph ["a"; "d"; "c"; "b"]).
  { cbn. repeat split; intros y Hy%He; set_solver. }
  intros x Hc. assert (Hx : x ∈ ["a"; "d"; "c"; "b"]).
  { inversion Hc as [? ? Hxy|? ? ? Hxy]; subst; apply He in Hxy; set_solver. }
  by eapply topsorted_acyclic.
Qed.

(** A phase that failed leaves its modules as [Linking], which the next run takes
    for a cycle: linking again after the missing module has been added succeeds
    at once, with nothing linked. *)
Theorem failed_link_poisons_graph :
  let g1 := (link (graph_of [("a", ["b"])])).1 in
  (link (graph_of [("a", ["b"])])).2 = Err (UnresolvedDependency "a" "b") /\
  match add_module (module_of "b" []) g1 with
  | Ok g2 => Some ((link g2).2, statuses (link g2).1)
  | Err _ => None
  end = Some (Ok (mkLinkResult 0 1 [mkCycle "a" []]), [("a", Linking); ("b", Unlinked)]).
Proof. split; vm_compute; reflexivity. Qed.
