(* ===== verification/EsmExports.v ===== *)
(** * Resolving exports and the queries of a module graph

    A resolution follows re-exports and searches the modules that are re-exported
    as a whole, sharing the set of visited names between the branches.  It always
    ends, a binding it returns is a local export it can reach, and when there is
    exactly one it is returned. *)
From stdpp Require Import base numbers list strings gmap sets relations.
From S2P Require Import Prelude Bytes Text HashTiers EsmLoader EsmCorrect.
Open Scope string_scope.
Open Scope list_scope.
Open Scope Z_scope.
Import Graph.

Abbreviation Key := (string * string)%type.

Lemma list_to_set_size_le `{Countable A} (l : list A) : (size (list_to_set l : gset A) <= length l)%nat.
Proof.
  induction l as [|x l IH]; [done|]. cbn. rewrite size_union_alt, size_singleton.
  assert (size ((list_to_set l : gset A) ∖ {[x]}) <= size (list_to_set l : gset A))%nat by (apply subseteq_size; set_solver). lia.
Qed.

Section exports.
Context (g : ModuleGraph).
Implicit Types (k : Key) (v : Visited).

(** The name is a local export of the module. *)
Definition local_at k (l : string) : Prop :=
  exists m, modules g !! k.1 = Some m /\ find_export k.2 (exports m) = Some (ELocal l).

(** Where the module takes the name from. *)
Definition hop k k' : Prop :=
  exists m, modules g !! k.1 = Some m /\
    match find_export k.2 (exports m) with
    | Some (ELocal _) => False
    | Some (EFrom req imp) => k' = (req, imp)
    | None => exists req, req ∈ star_requests (exports m) /\ k' = (req, k.2)
    end.

Context (root : Key).
Definition at_most_one : Prop :=
  forall k1 l1 k2 l2, rtc hop root k1 -> local_at k1 l1 -> rtc hop root k2 -> local_at k2 l2 -> k1 = k2.

(** The binding is a local export that was visited on the way. *)
Definition found_at v v' k (b : ResolvedBinding) : Prop :=
  exists k', rtc hop k k' /\ k' ∈ v' /\ k' ∉ v /\ local_at k' (rb_local b) /\ b = mkResolved k'.1 (rb_local b) Direct.

Definition closed v v' : Prop := forall x y, x ∈ v' -> x ∉ v -> hop x y -> y ∈ v'.
Definition no_local v v' : Prop := forall x l, x ∈ v' -> x ∉ v -> ~ local_at x l.

Record resolved k v v' (r : result EsmLoaderError ResolvedBinding) : Prop := {
  rs_grow : v ⊆ v';
  rs_at : k ∈ v';
  rs_found : forall b, r = Ok b -> found_at v v' k b;
  rs_all : at_most_one -> rtc hop root k -> closed v v' /\ (is_ok r = false -> no_local v v') }.

Lemma found_at_weaken v0 v v' v1 k0 k b :
  v0 ⊆ v -> v' ⊆ v1 -> rtc hop k0 k -> found_at v v' k b -> found_at v0 v1 k0 b.
Proof. intros H0 H1 Hk (k' & Hr & Hi & Hn & Hl). exists k'. split_and!; [by etrans|set_solver..|apply Hl|apply Hl]. Qed.

(** The loop over the modules that are re-exported as a whole. *)
Lemma resolve_stars_ok (U : Visited) fuel resolve sp name :
  (forall req v, (size (U ∖ v) < fuel)%nat -> exists v' r, resolve req v = Some (v', r) /\ resolved (req, name) v v' r) ->
  forall reqs found v0 v, v0 ⊆ v -> (size (U ∖ v) < fuel)%nat ->
  (forall req, req ∈ reqs -> hop (sp, name) (req, name)) ->
  (forall b, found = Some b -> found_at v0 v (sp, name) b) ->
  (at_most_one -> rtc hop root (sp, name) -> closed v0 v /\ (found = None -> no_local v0 v)) ->
  exists v' r, resolve_stars resolve sp name reqs found v = Some (v', r) /\ v ⊆ v' /\
    (forall b, r = Ok b -> found_at v0 v' (sp, name) b) /\
    (at_most_one -> rtc hop root (sp, name) ->
       closed v0 v' /\ (forall req, req ∈ reqs -> (req, name) ∈ v') /\ (is_ok r = false -> no_local v0 v')).
Proof.
  intros Hres. induction reqs as [|req reqs IH]; intros found v0 v Hv Hfuel Hhop Hfound Hall; cbn [resolve_stars].
  - eexists _, _. split; [done|]. split; [done|]. split.
    + intros b Hb. apply ok_or_Ok in Hb. by apply Hfound.
    + intros Hu Hr. destruct (Hall Hu Hr) as [Hc Hn]. split_and!; [done|by intros ? ?%elem_of_nil|]. by destruct found; [|auto].
  - destruct (Hres req v Hfuel) as (v1 & r1 & -> & [Hg1 Ha1 Hf1 Hall1]).
    assert (Hh : hop (sp, name) (req, name)) by (apply Hhop; by left).
    assert (Hfuel1 : (size (U ∖ v1) < fuel)%nat).
    { assert (Hs : U ∖ v1 ⊆ U ∖ v) by set_solver. apply subseteq_size in Hs. lia. }
    assert (Hclosed : at_most_one -> rtc hop root (sp, name) -> closed v0 v1).
    { intros Hu Hr x y Hx Hx0 Hxy. destruct (Hall Hu Hr) as [Hc _]. destruct (Hall1 Hu) as [Hc1 _]; [by eapply rtc_r|].
      destruct (decide (x ∈ v)) as [Hxv|Hxv]; [|by apply (Hc1 x)]. apply Hg1. by apply (Hc x). }
    destruct r1 as [b1|e1].
    + assert (Hb1 : found_at v0 v1 (sp, name) b1).
      { eapply found_at_weaken; [exact Hv|reflexivity|by apply rtc_once|by apply Hf1]. }
      destruct found as [b|].
      * exists v1, (Err (AmbiguousExport sp name)). split; [done|]. split; [done|]. split; [done|]. intros Hu Hr. exfalso.
        destruct (Hfound b eq_refl) as (k1 & Hr1 & Hi1 & _ & Hl1 & _). destruct (Hf1 b1 eq_refl) as (k2 & Hr2 & _ & Hn2 & Hl2 & _).
        apply Hn2. replace k2 with k1; [done|]. eapply Hu; [by etrans|done| |done]. etrans; [exact Hr|]. by eapply rtc_l.
      * destruct (IH (Some b1) v0 v1) as (v' & r & E & Hg & Hb & Hall'); [set_solver|done|intros; apply Hhop; by right| | |].
        { by intros b [= <-]. }
        { intros Hu Hr. split; [by apply Hclosed|done]. }
        exists v', r. split_and!; [done|set_solver|done|]. intros Hu Hr. destruct (Hall' Hu Hr) as (Hc & Hreq & Hn).
        split_and!; [done| |done]. intros x [->|Hx]%elem_of_cons; [by apply Hg|by apply Hreq].
    + destruct (IH found v0 v1) as (v' & r & E & Hg & Hb & Hall'); [set_solver|done|intros; apply Hhop; by right| | |].
      { intros b Hb. eapply found_at_weaken; [reflexivity|exact Hg1|reflexivity|by apply Hfound]. }
      { intros Hu Hr. split; [by apply Hclosed|]. intros Hnone x l Hx Hx0. destruct (Hall Hu Hr) as [_ Hn].
        destruct (Hall1 Hu) as [_ Hn1]; [by eapply rtc_r|].
        destruct (decide (x ∈ v)) as [Hxv|Hxv]; [by apply Hn|by apply Hn1]. }
      exists v', r. split_and!; [done|set_solver|done|]. intros Hu Hr. destruct (Hall' Hu Hr) as (Hc & Hreq & Hn).
      split_and!; [done| |done]. intros x [->|Hx]%elem_of_cons; [by apply Hg|by apply Hreq].
Qed.

(** *** Enough fuel *)

(** The names that can be asked for, in the modules that are there. *)
Definition universe (name0 : string) : Visited :=
  list_to_set (list_prod (elements (dom (modules g))) (elements (asked_names g name0))).

Lemma elem_of_universe name0 k : k ∈ universe name0 <-> is_Some (modules g !! k.1) /\ k.2 ∈ asked_names g name0.
Proof.
  unfold universe. rewrite elem_of_list_to_set, list_elem_of_In. destruct k as [s n].
  rewrite in_prod_iff, <- !list_elem_of_In, !elem_of_elements, elem_of_dom. done.
Qed.

Lemma universe_size name0 : (size (universe name0) <= size (modules g) * size (asked_names g name0))%nat.
Proof.
  unfold universe. etrans; [apply list_to_set_size_le|]. rewrite length_prod, <- size_dom. done.
Qed.

Lemma find_export_from name l req imp : find_export name l = Some (EFrom req imp) -> imp ∈ omap ex_import l.
Proof.
  induction l as [|e l IH]; [done|]. cbn [find_export omap list_omap]. intros H.
  assert (Htail : find_export name l = Some (EFrom req imp) ->
                  imp ∈ match ex_import e with Some y => y :: omap ex_import l | None => omap ex_import l end).
  { intros Ht. destruct (ex_import e); [right|]; by apply IH. }
  case_decide; [|by apply Htail]. destruct (ex_local e), (ex_request e), (ex_import e) eqn:Ei; try done; try (by apply Htail).
  injection H as -> ->. by left.
Qed.

Lemma hop_asked name0 k k' : k.2 ∈ asked_names g name0 -> hop k k' -> k'.2 ∈ asked_names g name0.
Proof.
  intros Hk (m & Hm & Hh). destruct (find_export k.2 (exports m)) as [[l|req imp]|] eqn:E; [done| |].
  - subst. cbn. unfold asked_names. apply elem_of_union_r, elem_of_list_to_set, list_elem_of_bind. exists m. split; [by eapply find_export_from|].
    unfold modules_in_order, sorted_values. apply list_elem_of_fmap. exists (k.1, m). split; [done|]. by apply elem_of_sorted_entries.
  - destruct Hh as (req & _ & ->). done.
Qed.

Lemma universe_decreases name0 k v :
  k ∈ universe name0 -> k ∉ v -> (size (universe name0 ∖ ({[k]} ∪ v)) < size (universe name0 ∖ v))%nat.
Proof. intros Hk Hv. apply subset_size. split; [set_solver|]. intros H. specialize (H k). set_solver. Qed.

Lemma resolve_inner_ok name0 fuel : forall sp name v,
  name ∈ asked_names g name0 -> (size (universe name0 ∖ v) < fuel)%nat ->
  exists v' r, resolve_export_inner fuel g sp name v = Some (v', r) /\ resolved (sp, name) v v' r.
Proof.
  induction fuel as [|fuel IH]; intros sp name v Hname Hfuel; [lia|]. cbn [resolve_export_inner].
  case_decide as Hv.
  { eexists _, _. split; [done|]. constructor; [done|done|done|]. intros _ _. split; [by intros x y Hx|by intros _ x l Hx]. }
  set (v1 := {[(sp, name)]} ∪ v).
  assert (Hkey : (sp, name) ∈ v1) by set_solver. assert (Hgrow : v ⊆ v1) by set_solver.
  assert (Honly : forall x, x ∈ v1 -> x ∉ v -> x = (sp, name)) by set_solver.
  destruct (modules g !! sp) as [m|] eqn:Hm.
  2:{ eexists _, _. split; [done|]. constructor; [done|done|done|]. intros _ _. split.
      - intros x y Hx Hn (m & Hm' & _). rewrite (Honly x Hx Hn) in Hm'. cbn in Hm'. congruence.
      - intros _ x l Hx Hn (m & Hm' & _). rewrite (Honly x Hx Hn) in Hm'. cbn in Hm'. congruence. }
  assert (Hless : (size (universe name0 ∖ v1) < fuel)%nat).
  { assert (Hu : (sp, name) ∈ universe name0) by (apply elem_of_universe; split; [by exists m|done]).
    pose proof (universe_decreases name0 (sp, name) v Hu Hv). unfold v1. lia. }
  destruct (find_export name (exports m)) as [[local|req imp]|] eqn:Ef.
  - assert (Hl : local_at (sp, name) local) by (by exists m). eexists _, _. split; [done|]. constructor; [done|done| |].
    + intros b [= <-]. exists (sp, name). split_and!; done.
    + intros _ _. split; [|done]. intros x y Hx Hn (m' & Hm' & Hh). rewrite (Honly x Hx Hn) in Hm', Hh. cbn in *. simplify_eq.
      rewrite Ef in Hh. done.
  - assert (Hh : hop (sp, name) (req, imp)) by (exists m; cbn; by rewrite Ef).
    destruct (IH req imp v1) as (v' & r & E & [Hg Ha Hf Hall]); [by apply (hop_asked name0 (sp, name) (req, imp))|done|].
    exists v', r. split; [done|]. constructor; [set_solver|set_solver| |].
    + intros b Hb. eapply found_at_weaken; [exact Hgrow|reflexivity|by apply rtc_once|by apply Hf].
    + intros Hu Hr. destruct (Hall Hu) as [Hc Hn]; [by eapply rtc_r|]. split.
      * intros x y Hx Hxv Hxy. destruct (decide (x ∈ v1)) as [Hx1|Hx1]; [|by apply (Hc x)].
        rewrite (Honly x Hx1 Hxv) in Hxy. destruct Hxy as (m' & Hm' & Hh'). cbn in *. simplify_eq. rewrite Ef in Hh'. by subst.
      * intros Hok x l Hx Hxv. destruct (decide (x ∈ v1)) as [Hx1|Hx1]; [|by apply Hn].
        rewrite (Honly x Hx1 Hxv). intros (m' & Hm' & Hl'). cbn in *. by simplify_eq.
  - destruct (resolve_stars_ok (universe name0) fuel (fun req => resolve_export_inner fuel g req name) sp name) with
      (reqs := star_requests (exports m)) (found := @None ResolvedBinding) (v0 := v1) (v := v1) as (v' & r & E & Hg & Hf & Hall).
    + intros req w Hw. by apply IH.
    + done.
    + done.
    + intros req Hreq. exists m. cbn. rewrite Ef. eauto.
    + done.
    + intros _ _. split; [by intros x y Hx Hn|by intros _ x l Hx Hn].
    + exists v', r. split; [done|]. constructor; [set_solver|set_solver| |].
      * intros b Hb. eapply found_at_weaken; [exact Hgrow|reflexivity|reflexivity|by apply Hf].
      * intros Hu Hr. destruct (Hall Hu Hr) as (Hc & Hreq & Hn). split.
        -- intros x y Hx Hxv Hxy. destruct (decide (x ∈ v1)) as [Hx1|Hx1]; [|by apply (Hc x)].
           rewrite (Honly x Hx1 Hxv) in Hxy. destruct Hxy as (m' & Hm' & Hh'). cbn in *. simplify_eq. rewrite Ef in Hh'.
           destruct Hh' as (req & Hin & ->). by apply Hreq.
        -- intros Hok x l Hx Hxv. destruct (decide (x ∈ v1)) as [Hx1|Hx1]; [|by apply Hn].
           rewrite (Honly x Hx1 Hxv). intros (m' & Hm' & Hl'). cbn in *. by simplify_eq.
Qed.
End exports.

(** C9. The resolution of an export ends on every graph, cycles of re-exports included; a
    binding it returns is a local export that re-exports lead to, and when they lead to
    exactly one local export, that one is returned. *)
Theorem resolve_export_exact (g : ModuleGraph) (sp name : string) :
  exists r, resolve_export g sp name = Some r /\
    (forall b, r = Ok b -> exists k, rtc (hop g) (sp, name) k /\ local_at g k (rb_local b) /\ rb_module b = k.1 /\ rb_type b = Direct) /\
    (forall k l, rtc (hop g) (sp, name) k -> local_at g k l ->
       (forall k' l', rtc (hop g) (sp, name) k' -> local_at g k' l' -> k' = k) -> r = Ok (mkResolved k.1 l Direct)).
Proof.
  destruct (resolve_inner_ok g (sp, name) name (resolve_fuel g name) sp name ∅) as (v' & r & E & [_ Ha Hf Hall]).
  { unfold asked_names. set_solver. }
  { pose proof (universe_size g name). assert (size (universe g name ∖ ∅) <= size (universe g name))%nat by (apply subseteq_size; set_solver).
    unfold resolve_fuel. lia. }
  exists r. unfold resolve_export. rewrite E. split; [done|]. split.
  - intros b Hb. destruct (Hf b Hb) as (k & Hr & _ & _ & Hl & Eb). exists k. split_and!; [done|done|by rewrite Eb..].
  - intros k l Hr Hl Hu. destruct (Hall ltac:(intros k1 l1 k2 l2 H1 L1 H2 L2; by rewrite (Hu k1 l1), (Hu k2 l2)) ltac:(done)) as [Hc Hn].
    assert (Hk : k ∈ v').
    { clear -Hc Ha Hr. revert Ha. induction Hr as [|x y z Hxy _ IH]; [done|]. intros Hx. apply IH. by apply (Hc x y Hx ltac:(set_solver)). }
    destruct r as [b|e]; [|exfalso; by apply (Hn eq_refl k l Hk ltac:(set_solver))].
    destruct (Hf b eq_refl) as (k' & Hr' & _ & _ & Hl' & ->). rewrite (Hu k' _ Hr' Hl') in Hl' |- *. cbn in Hl'.
    destruct Hl as (m & Hm & El), Hl' as (m' & Hm' & El'). rewrite Hm in Hm'. injection Hm' as <-. rewrite El in El'. by injection El' as <-.
Qed.

(** ** Queries *)

Section queries.
Context (g : ModuleGraph).

Lemma elem_of_deps_of x y : y ∈ deps_of g x <-> edge g x y.
Proof.
  unfold deps_of, edge. destruct (modules g !! x) as [m|].
  - rewrite elem_of_set_iter. split; [by exists m|]. by intros (m' & [= <-] & Hy).
  - split; [by intros ?%elem_of_nil|]. by intros (m & ? & _).
Qed.

Lemma edge_names x y : edge g x y -> x ∈ names g /\ y ∈ names g.
Proof.
  intros (m & Hm & Hy). unfold names. split; [apply elem_of_union_l; by apply elem_of_dom|].
  apply elem_of_union_r, elem_of_list_to_set, list_elem_of_bind. exists m. split; [by apply elem_of_set_iter|].
  unfold modules_in_order, sorted_values. apply list_elem_of_fmap. exists (x, m). split; [done|]. by apply elem_of_sorted_entries.
Qed.

Lemma names_decrease x (v : gset string) : x ∈ names g -> x ∉ v -> (size (names g ∖ ({[x]} ∪ v)) < size (names g ∖ v))%nat.
Proof. intros Hx Hv. apply subset_size. split; [set_solver|]. intros H. specialize (H x). set_solver. Qed.

Lemma names_mono (v v' : gset string) : v ⊆ v' -> (size (names g ∖ v') <= size (names g ∖ v))%nat.
Proof. intros H. apply subseteq_size. set_solver. Qed.

(** A search that has visited [v'] from the targets, having started with [v]. *)
Record searched (targets : list string) (v v' : gset string) : Prop := {
  se_grow : v ⊆ v';
  se_targets : forall t, t ∈ targets -> t ∈ v';
  se_reached : forall x, x ∈ v' -> x ∈ v \/ exists t, t ∈ targets /\ rtc (edge g) t x;
  se_closed : forall x y, x ∈ v' -> x ∉ v -> edge g x y -> y ∈ v' }.

Lemma searched_cons t ts v v1 v2 : searched [t] v v1 -> searched ts v1 v2 -> searched (t :: ts) v v2.
Proof.
  intros [G1 T1 R1 C1] [G2 T2 R2 C2]. constructor.
  - by etrans.
  - intros x [->|Hx]%elem_of_cons; [apply G2, T1; by left|by apply T2].
  - intros x Hx. destruct (R2 x Hx) as [Hx1|(t' & Ht & Hr)]; [|right; exists t'; split; [by right|done]].
    destruct (R1 x Hx1) as [?|(t' & ->%list_elem_of_singleton & Hr)]; [by left|right; exists t; split; [by left|done]].
  - intros x y Hx Hv Hxy. destruct (decide (x ∈ v1)) as [Hx1|Hx1]; [apply G2; by apply (C1 x)|by apply (C2 x)].
Qed.

Lemma reachable_fold_ok fuel :
  (forall sp v, (size (names g ∖ v) < fuel)%nat -> exists v', reachable_dfs fuel g sp v = Some v' /\ searched [sp] v v') ->
  forall deps v, (size (names g ∖ v) < fuel)%nat ->
    exists v', foldl (fun r dep => r ≫= reachable_dfs fuel g dep) (Some v) deps = Some v' /\ searched deps v v'.
Proof.
  intros Hdfs. induction deps as [|d deps IH]; intros v Hv.
  { exists v. split; [done|]. constructor; [done|by intros ? ?%elem_of_nil|by left|done]. }
  cbn [foldl]. destruct (Hdfs d v Hv) as (v1 & E1 & H1).
  destruct (IH v1) as (v2 & E2 & H2); [pose proof (names_mono _ _ (se_grow _ _ _ H1)); lia|].
  exists v2. split; [by cbn; rewrite E1|by eapply searched_cons].
Qed.

Lemma reachable_dfs_ok fuel : forall sp v, (size (names g ∖ v) < fuel)%nat ->
  exists v', reachable_dfs fuel g sp v = Some v' /\ searched [sp] v v'.
Proof.
  induction fuel as [|fuel IH]; intros sp v Hfuel; [lia|]. cbn [reachable_dfs]. case_decide as Hv.
  { exists v. split; [done|]. constructor; [done|by intros ? ->%list_elem_of_singleton|by left|done]. }
  assert (Hcons : forall v', searched (deps_of g sp) ({[sp]} ∪ v) v' -> searched [sp] v v').
  { intros v' [G T R C]. constructor.
    - set_solver.
    - intros t ->%list_elem_of_singleton. set_solver.
    - intros x Hx. destruct (R x Hx) as [[->%elem_of_singleton|?]%elem_of_union|(t & Ht & Hr)]; [right|by left|right]; exists sp.
      + split; [by left|done].
      + split; [by left|]. eapply rtc_l; [by apply elem_of_deps_of|done].
    - intros x y Hx Hn Hxy. destruct (decide (x = sp)) as [->|Hne]; [by apply T, elem_of_deps_of|]. apply (C x); set_solver. }
  destruct (decide (sp ∈ names g)) as [Hn|Hn].
  - pose proof (names_decrease sp v Hn Hv). destruct (reachable_fold_ok fuel IH (deps_of g sp) ({[sp]} ∪ v)) as (v' & E & Hs); [lia|].
    exists v'. split; [done|by apply Hcons].
  - assert (Hd : deps_of g sp = []).
    { destruct (deps_of g sp) as [|y l] eqn:E; [done|]. destruct Hn. apply (edge_names sp y), elem_of_deps_of. rewrite E. by left. }
    rewrite Hd. cbn. eexists. split; [done|]. apply Hcons. rewrite Hd. constructor; [done|by intros ? ?%elem_of_nil|by left|done].
Qed.
End queries.

(** The transitive dependencies are what a module reaches, itself excepted. *)
Theorem transitive_dependencies_exact (g : ModuleGraph) (sp : string) :
  exists r, transitive_dependencies g sp = Some r /\ forall x, x ∈ r <-> x <> sp /\ rtc (edge g) sp x.
Proof.
  destruct (reachable_dfs_ok g (S (S (size (names g)))) sp ∅) as (v & E & [G T R C]).
  { assert (size (names g ∖ ∅) <= size (names g))%nat by (apply subseteq_size; set_solver). lia. }
  unfold transitive_dependencies. rewrite E. eexists. split; [done|]. intros x. rewrite elem_of_difference, elem_of_singleton. split.
  - intros [Hx Hne]. split; [done|]. destruct (R x Hx) as [Hx0|(t & ->%list_elem_of_singleton & Hr)]; [set_solver|done].
  - intros [Hne Hr]. split; [|done]. assert (Hs : sp ∈ v) by (apply T; by left). clear -Hr Hs C.
    induction Hr as [|x y z Hxy _ IH]; [done|]. apply IH. apply (C x y); set_solver.
Qed.

Section topological.
Context (g : ModuleGraph).

Record tinv (path : list string) (st : gset string * list string) : Prop := {
  ti_visited : forall x, x ∈ st.1 <-> x ∈ path \/ x ∈ st.2;
  ti_apart : forall x, x ∈ path -> x ∉ st.2;
  ti_nodup : NoDup st.2;
  ti_names : st.1 ⊆ names g;
  ti_deps : deps_first g st.2;
  ti_closed : forall x y, x ∈ st.2 -> edge g x y -> y ∈ st.1 }.

Definition topo_done (path targets : list string) (st st' : gset string * list string) : Prop :=
  tinv path st' /\ st.1 ⊆ st'.1 /\ forall t, t ∈ targets -> t ∈ st'.1.

Lemma topo_fold_ok fuel path :
  (forall sp st, tinv path st -> sp ∈ names g -> (size (names g ∖ st.1) < fuel)%nat -> (forall y, y ∈ path -> rtc (edge g) y sp) ->
     exists st', topo_dfs fuel g sp st = Some st' /\ topo_done path [sp] st st') ->
  forall deps st, tinv path st -> (size (names g ∖ st.1) < fuel)%nat ->
    (forall d, d ∈ deps -> d ∈ names g /\ forall y, y ∈ path -> rtc (edge g) y d) ->
    exists st', foldl (fun st dep => st ≫= topo_dfs fuel g dep) (Some st) deps = Some st' /\ topo_done path deps st st'.
Proof.
  intros Hdfs. induction deps as [|d deps IH]; intros st Hi Hv Hd.
  { exists st. split; [done|]. split_and!; [done..|]. by intros t ?%elem_of_nil. }
  cbn [foldl]. destruct (Hd d) as [Hn Hp]; [by left|]. destruct (Hdfs d st Hi Hn Hv Hp) as (st1 & E1 & Hi1 & Hg1 & Ht1).
  destruct (IH st1 Hi1) as (st2 & E2 & Hi2 & Hg2 & Ht2); [pose proof (names_mono g _ _ Hg1); lia|intros; apply Hd; by right|].
  exists st2. split; [by cbn; rewrite E1|]. split_and!; [done|by etrans|].
  intros t [->|Ht]%elem_of_cons; [apply Hg2, Ht1; by left|by apply Ht2].
Qed.

Lemma tinv_begin path sp st : tinv path st -> sp ∈ names g -> sp ∉ st.1 -> tinv (sp :: path) ({[sp]} ∪ st.1, st.2).
Proof.
  intros [V A N M D C] Hn Hs. constructor; cbn [fst snd]; [| |done|set_solver|done|].
  - intros x. rewrite elem_of_union, elem_of_singleton, elem_of_cons, V. tauto.
  - intros x [->|Hx]%elem_of_cons; [|by apply A]. intros Ho. apply Hs, V. by right.
  - intros x y Hx Hxy. apply elem_of_union_r. by eapply C.
Qed.

Lemma tinv_end path sp st :
  tinv (sp :: path) st -> sp ∉ path -> (forall y, edge g sp y -> y ∈ st.1) -> (forall y, y ∈ path -> rtc (edge g) y sp) ->
  tinv path (st.1, st.2 ++ [sp]).
Proof.
  intros [V A N M D C] Hn Hd Hp. assert (Ho : sp ∉ st.2) by (apply A; by left). constructor; cbn [fst snd].
  - intros x. rewrite V, elem_of_app, elem_of_cons, list_elem_of_singleton. tauto.
  - intros x Hx. rewrite elem_of_app, list_elem_of_singleton. intros [Hx'| ->]; [|done]. apply (A x); [by right|done].
  - apply NoDup_app. split_and!; [done| |apply NoDup_singleton]. intros x Hx ->%list_elem_of_singleton. done.
  - done.
  - apply deps_first_snoc; [done|]. intros y Hy%Hd%V. destruct Hy as [[->|Hy]%elem_of_cons|Hy]; [by right|right; by apply Hp|by left].
  - intros x y [Hx|Hx]%elem_of_app Hxy; [by eapply C|]. apply list_elem_of_singleton in Hx as ->. by apply Hd.
Qed.

Lemma topo_dfs_ok fuel : forall path sp st,
  tinv path st -> sp ∈ names g -> (size (names g ∖ st.1) < fuel)%nat -> (forall y, y ∈ path -> rtc (edge g) y sp) ->
  exists st', topo_dfs fuel g sp st = Some st' /\ topo_done path [sp] st st'.
Proof.
  induction fuel as [|fuel IH]; intros path sp st Hi Hn Hfuel Hp; [lia|]. cbn [topo_dfs]. destruct st as [v o] eqn:Est.
  rewrite <- Est in Hi. case_decide as Hv.
  { exists (v, o). split; [done|]. subst. split_and!; [done..|]. by intros t ->%list_elem_of_singleton. }
  pose proof (tinv_begin path sp st Hi Hn) as Hb. rewrite Est in Hb. specialize (Hb Hv). cbn [fst snd] in *.
  pose proof (names_decrease g sp v Hn Hv).
  destruct (topo_fold_ok fuel (sp :: path) (IH (sp :: path)) (deps_of g sp) ({[sp]} ∪ v, o) Hb) as (st2 & E2 & Hi2 & Hg2 & Ht2).
  { cbn. lia. }
  { intros d Hd%elem_of_deps_of. split; [by apply (edge_names g sp)|]. intros y [->|Hy]%elem_of_cons; [by apply rtc_once|].
    eapply rtc_r; [by apply Hp|done]. }
  rewrite E2. cbn. eexists. split; [done|].
  assert (Hpath : sp ∉ path) by (intros Hx; apply Hv; subst st; apply (ti_visited _ _ Hi); by left).
  split_and!.
  - apply tinv_end; [done..| |done]. intros y Hy%elem_of_deps_of. by apply Ht2.
  - cbn in *. set_solver.
  - intros t ->%list_elem_of_singleton. cbn. cbn in Hg2. set_solver.
Qed.
End topological.

(** The order has every module and every dependency once, each after what it
    depends on unless that leads back to it. *)
Theorem topological_order_exact (g : ModuleGraph) :
  exists order, topological_order g = Some order /\ NoDup order /\ (forall x, x ∈ order <-> x ∈ names g) /\ deps_first g order.
Proof.
  destruct (topo_fold_ok g (S (size (names g))) [] (topo_dfs_ok g (S (size (names g))) []) (sorted_keys (modules g)) (∅, []))
    as (st & E & [V A N M D C] & _ & T).
  { constructor; cbn [fst snd].
    - intros x. split; [set_solver|]. by intros [?%elem_of_nil|?%elem_of_nil].
    - by intros x ?%elem_of_nil.
    - constructor.
    - set_solver.
    - done.
    - by intros x y ?%elem_of_nil. }
  { cbn. assert (size (names g ∖ ∅) <= size (names g))%nat by (apply subseteq_size; set_solver). lia. }
  { intros d Hd%elem_of_sorted_keys. split; [by apply elem_of_union_l, elem_of_dom|by intros y ?%elem_of_nil]. }
  unfold topological_order. rewrite E. eexists. split; [done|]. split_and!; [done| |done].
  assert (Hv : forall x, x ∈ st.1 <-> x ∈ st.2) by (intros x; rewrite V; split; [by intros [?%elem_of_nil|]|by right]).
  intros x. rewrite <- Hv. split; [apply M|]. intros [Hx|Hx]%elem_of_union.
  - apply T. by apply elem_of_sorted_keys, elem_of_dom.
  - apply elem_of_list_to_set, list_elem_of_bind in Hx as (m & Hx & Hm). unfold modules_in_order, sorted_values in Hm.
    apply list_elem_of_fmap in Hm as ([k m'] & -> & Hm). apply elem_of_sorted_entries in Hm.
    apply (C k x).
    + apply Hv, T, elem_of_sorted_keys. by exists m'.
    + exists m'. split; [done|]. by apply elem_of_set_iter.
Qed.

(** ** Concrete graphs *)

Definition export_graph (l : list (string * list ExportEntry)) : ModuleGraph :=
  foldl (fun g e =>
    match add_module (foldl (fun m x => Mod.add_export x m) (Mod.new e.1 "" EsModule) e.2) g with Ok g => g | Err _ => g end) new l.

(** Two ways lead to the one export [x] of [d], and a cycle back to [a]. *)
Definition diamond_graph : ModuleGraph := export_graph
  [("a", [Entries.star_re_export "b"; Entries.star_re_export "c"]);
   ("b", [Entries.re_export "x" "d" "y"; Entries.star_re_export "a"]);
   ("c", [Entries.star_re_export "d"; Entries.re_export "x" "d" "y"]);
   ("d", [Entries.direct "v" "y"])].

Lemma resolve_export_exact_witness :
  resolve_export diamond_graph "a" "x" = Some (Ok (mkResolved "d" "v" Direct)) /\
  resolve_export diamond_graph "a" "z" = Some (Err (ExportNotFound "a" "z")) /\
  exists k, rtc (hop diamond_graph) ("a", "x") k /\ local_at diamond_graph k "v" /\ k.1 = "d".
Proof.
  assert (Hr : resolve_export diamond_graph "a" "x" = Some (Ok (mkResolved "d" "v" Direct))) by (vm_compute; reflexivity).
  split; [exact Hr|]. split; [vm_compute; reflexivity|].
  destruct (resolve_export_exact diamond_graph "a" "x") as (r & E & Hs & _). rewrite Hr in E. injection E as <-.
  destruct (Hs _ eq_refl) as (k & Hk & Hl & Hm & _). exists k. split; [exact Hk|]. split; [exact Hl|]. symmetry. exact Hm.
Defined.

(** An ambiguity below one of several [export *] is taken for a missing export:
    [b] exports [x] ambiguously, and [a] still resolves it, to the [x] of [c]. *)
Definition ambiguous_graph : ModuleGraph := export_graph
  [("a", [Entries.star_re_export "b"; Entries.star_re_export "c"]);
   ("b", [Entries.star_re_export "d"; Entries.star_re_export "e"]);
   ("c", [Entries.direct "u" "x"]); ("d", [Entries.direct "v" "x"]); ("e", [Entries.direct "w" "x"])].

Theorem ambiguity_is_swallowed :
  resolve_export ambiguous_graph "b" "x" = Some (Err (AmbiguousExport "b" "x")) /\
  resolve_export ambiguous_graph "a" "x" = Some (Ok (mkResolved "c" "u" Direct)).
Proof. split; vm_compute; reflexivity. Qed.

(** [export *] hands on the default export as well. *)
Theorem default_through_star :
  resolve_export (export_graph [("a", [Entries.star_re_export "b"]); ("b", [Entries.direct "f" "default"])]) "a" "default" =
  Some (Ok (mkResolved "b" "f" Direct)).
Proof. vm_compute. reflexivity. Qed.
