(* ===== verification/LiveBinding.v ===== *)
(** * Live bindings between modules (crates/franken-engine/src/module_live_binding.rs)

    The cells behind exported names, the aliases of re-exports, namespace objects
    and import bindings, and their construction from a linked graph.  Operations
    that fail on a cell leave the map as it was.  The walk along the aliases stops
    at the first repetition and needs one step more than there are aliases. *)
From stdpp Require Import base numbers list strings gmap sets sorting relations.
From S2P Require Import Prelude Bytes Text HashTiers EsmLoader EsmExports.
Open Scope string_scope.
Open Scope list_scope.
Open Scope Z_scope.

Definition MODULE_LIVE_BINDING_SCHEMA_VERSION : string := "franken-engine.module-live-binding.contract.v1".
Definition NAMESPACE_OBJECT_SCHEMA_VERSION : string := "franken-engine.module-namespace-object.v1".

(** ** Data *)

Inductive BindingCellState := Uninitialized | Initialized | Dead.
#[export] Instance binding_cell_state_eq_dec : EqDecision BindingCellState.
Proof. solve_decision. Defined.

Record BindingCell := mkCell {
  source_module : string;
  bc_export : string;
  bc_local : string;
  binding_type : BindingType;
  bc_state : BindingCellState;
  value_millionths : option Z;
  value_string : option string;
  version : Z }.

Record BindingId := mkId { id_module : string; id_export : string }.
#[export] Instance binding_id_eq_dec : EqDecision BindingId.
Proof. solve_decision. Defined.
#[export] Program Instance binding_id_countable : Countable BindingId :=
  inj_countable' (fun i => (id_module i, id_export i)) (fun p => mkId p.1 p.2) _.
Next Obligation. by intros []. Qed.

Record NamespaceObject := mkNamespace {
  ns_schema : string;
  ns_module : string;
  export_names : list string;
  ns_bindings : gmap string BindingId;
  source_hash : ContentHash }.

Record BindingAlias := mkAlias { alias : BindingId; al_source : BindingId }.

Record ImportBinding := mkImportBinding {
  importer : string;
  ib_local : string;
  target : BindingId;
  is_namespace : bool }.

Inductive BindingEvent :=
  | CellCreated (id : BindingId) (t : BindingType)
  | CellInitialized (id : BindingId) (version : Z)
  | CellMutated (id : BindingId) (version : Z)
  | CellDied (id : BindingId)
  | NamespaceCreated (m : string) (count : Z)
  | ImportWired (importer local : string) (target : BindingId).

Record LiveBindingMap := mkMap {
  schema_version : string;
  cells : gmap BindingId BindingCell;
  aliases : list BindingAlias;
  namespaces : gmap string NamespaceObject;
  lm_imports : list ImportBinding;
  events : list BindingEvent }.

Inductive LiveBindingError :=
  | ModuleNotLinked (m status : string)
  | BindingNotFound (m name : string)
  | BindingDead (m name : string)
  | ImportNotWired (importer local : string)
  | NamespaceNotFound (m : string).

(** ** Cells *)

Module Cell.
Definition new (m name local : string) (t : BindingType) : BindingCell :=
  mkCell m name local t Uninitialized None None 0.

Definition set (st : BindingCellState) (n : option Z) (s : option string) (c : BindingCell) : BindingCell :=
  mkCell (source_module c) (bc_export c) (bc_local c) (binding_type c) st n s (wrap_u64 (version c + 1)).

Definition initialize_millionths (v : Z) : BindingCell -> BindingCell := set Initialized (Some v) None.
Definition initialize_string (v : string) : BindingCell -> BindingCell := set Initialized None (Some v).
Definition mark_dead (c : BindingCell) : BindingCell := set Dead (value_millionths c) (value_string c) c.

Definition mutate (n : option Z) (s : option string) (c : BindingCell) : result LiveBindingError BindingCell :=
  if decide (bc_state c = Dead) then Err (BindingDead (source_module c) (bc_export c)) else Ok (set Initialized n s c).
Definition mutate_millionths (v : Z) := mutate (Some v) None.
Definition mutate_string (v : string) := mutate None (Some v).

Definition is_initialized (c : BindingCell) : bool := bool_decide (bc_state c = Initialized).
End Cell.

Module Namespace.
Definition get_binding (name : string) (n : NamespaceObject) : option BindingId := ns_bindings n !! name.
Definition has_export (name : string) (n : NamespaceObject) : bool := bool_decide (is_Some (ns_bindings n !! name)).
Definition len (n : NamespaceObject) : Z := zlen (export_names n).
Definition is_empty (n : NamespaceObject) : bool := match export_names n with [] => true | _ => false end.
End Namespace.

(** ** The map *)

Module Live.
Definition new : LiveBindingMap := mkMap MODULE_LIVE_BINDING_SCHEMA_VERSION ∅ [] ∅ [] [].

Definition push_event (e : BindingEvent) (m : LiveBindingMap) : LiveBindingMap :=
  mkMap (schema_version m) (cells m) (aliases m) (namespaces m) (lm_imports m) (events m ++ [e]).
Definition put_cell (id : BindingId) (c : BindingCell) (m : LiveBindingMap) : LiveBindingMap :=
  mkMap (schema_version m) (<[id := c]> (cells m)) (aliases m) (namespaces m) (lm_imports m) (events m).

Definition register_cell (c : BindingCell) (m : LiveBindingMap) : LiveBindingMap :=
  let id := mkId (source_module c) (bc_export c) in
  put_cell id c (push_event (CellCreated id (binding_type c)) m).

(** The derived order of the aliases. *)
Fixpoint lex_leb (l l' : list string) : bool :=
  match l, l' with
  | [], _ => true
  | _ :: _, [] => false
  | x :: l, y :: l' => if decide (x = y) then lex_leb l l' else String.leb x y
  end.
Definition alias_key (a : BindingAlias) : list string :=
  [id_module (alias a); id_export (alias a); id_module (al_source a); id_export (al_source a)].
Definition alias_le (a b : BindingAlias) : Prop := lex_leb (alias_key a) (alias_key b) = true.

#[export] Instance alias_le_dec : RelDecision alias_le.
Proof. intros a b. unfold alias_le. apply _. Defined.

Definition find_alias (id : BindingId) (l : list BindingAlias) : option BindingAlias :=
  snd <$> list_find (fun a => alias a = id) l.

(** Redirecting the first alias of the name. *)
Fixpoint redirect (id source : BindingId) (l : list BindingAlias) : list BindingAlias :=
  match l with
  | [] => []
  | a :: l => if decide (alias a = id) then mkAlias (alias a) source :: l else a :: redirect id source l
  end.

Definition register_alias (id source : BindingId) (m : LiveBindingMap) : LiveBindingMap :=
  mkMap (schema_version m) (cells m)
    (match find_alias id (aliases m) with
     | Some _ => redirect id source (aliases m)
     | None => merge_sort alias_le (aliases m ++ [mkAlias id source])
     end) (namespaces m) (lm_imports m) (events m).

Fixpoint walk (fuel : nat) (l : list BindingAlias) (current : BindingId) (visited : gset BindingId) : BindingId :=
  match fuel with
  | O => current
  | S fuel =>
      if decide (current ∈ visited) then current
      else match find_alias current l with
           | Some a => walk fuel l (al_source a) ({[current]} ∪ visited)
           | None => current
           end
  end.

Definition resolve_binding_id (m : LiveBindingMap) (id : BindingId) : BindingId :=
  walk (S (length (aliases m))) (aliases m) id ∅.

Definition get_cell (m : LiveBindingMap) (id : BindingId) : option BindingCell := cells m !! resolve_binding_id m id.

(** What the five operations on a cell share. *)
Definition on_cell (m : LiveBindingMap) (id : BindingId)
    (f : BindingCell -> result LiveBindingError BindingCell) (e : BindingId -> Z -> BindingEvent) :
    result LiveBindingError LiveBindingMap :=
  let resolved := resolve_binding_id m id in
  c ← ok_or (BindingNotFound (id_module resolved) (id_export resolved)) (cells m !! resolved);
  c ← f c;
  Ok (push_event (e resolved (version c)) (put_cell resolved c m)).

Definition initialize_millionths m id v := on_cell m id (fun c => Ok (Cell.initialize_millionths v c)) CellInitialized.
Definition initialize_string m id v := on_cell m id (fun c => Ok (Cell.initialize_string v c)) CellInitialized.
Definition mutate_millionths m id v := on_cell m id (Cell.mutate_millionths v) CellMutated.
Definition mutate_string m id v := on_cell m id (Cell.mutate_string v) CellMutated.
Definition mark_dead m id := on_cell m id (fun c => Ok (Cell.mark_dead c)) (fun id _ => CellDied id).

Definition register_namespace (n : NamespaceObject) (m : LiveBindingMap) : LiveBindingMap :=
  push_event (NamespaceCreated (ns_module n) (zlen (export_names n)))
    (mkMap (schema_version m) (cells m) (aliases m) (<[ns_module n := n]> (namespaces m)) (lm_imports m) (events m)).

Definition wire_import (b : ImportBinding) (m : LiveBindingMap) : LiveBindingMap :=
  mkMap (schema_version m) (cells m) (aliases m) (namespaces m) (lm_imports m ++ [b])
    (events m ++ [ImportWired (importer b) (ib_local b) (target b)]).

Definition find_import (m : LiveBindingMap) (imp local : string) : option ImportBinding :=
  snd <$> list_find (fun b => importer b = imp /\ ib_local b = local) (lm_imports m).

Definition read_through_import (m : LiveBindingMap) (imp local : string) : result LiveBindingError BindingCell :=
  b ← ok_or (ImportNotWired imp local) (find_import m imp local);
  ok_or (BindingNotFound (id_module (target b)) (id_export (target b))) (get_cell m (target b)).

(** *** From a graph *)

Definition re_export_name (e : ExportEntry) : string := default (export_name e) (ex_import e).

(** Phase 1: cells for the direct exports. *)
Definition direct_export (md : EsmModule) (m : LiveBindingMap) (e : ExportEntry) : LiveBindingMap :=
  match ex_request e with
  | Some _ => m
  | None => register_cell (Cell.new (specifier md) (export_name e) (default (export_name e) (ex_local e)) Direct) m
  end.
Definition direct_exports (md : EsmModule) (m : LiveBindingMap) : result LiveBindingError LiveBindingMap :=
  if status_rank (status md) <? status_rank Linked then Err (ModuleNotLinked (specifier md) (status_string (status md)))
  else Ok (foldl (direct_export md) m (exports md)).

(** Phase 2: aliases for the re-exports whose source has a cell by now. *)
Definition re_export (md : EsmModule) (m : LiveBindingMap) (e : ExportEntry) : LiveBindingMap :=
  match ex_request e with
  | None => m
  | Some target_module =>
      let source_id := mkId target_module (re_export_name e) in
      match cells m !! source_id with
      | None => m
      | Some _ =>
          let id := mkId (specifier md) (export_name e) in
          let m := match cells m !! id with
                   | Some _ => m
                   | None => register_cell (Cell.new (specifier md) (export_name e) (re_export_name e) ReExport) m
                   end in
          register_alias id source_id m
      end
  end.
Definition re_exports (m : LiveBindingMap) (md : EsmModule) : LiveBindingMap := foldl (re_export md) m (exports md).

(** Phase 3: the namespace object. *)
Definition export_target (md : EsmModule) (e : ExportEntry) : BindingId :=
  match ex_request e with
  | Some request => mkId request (re_export_name e)
  | None => mkId (specifier md) (export_name e)
  end.
Definition namespace_of (md : EsmModule) : NamespaceObject :=
  mkNamespace NAMESPACE_OBJECT_SCHEMA_VERSION (specifier md)
    (merge_sort String.le (export_name <$> exports md))
    (foldl (fun b e => <[export_name e := export_target md e]> b) ∅ (exports md)) (content_hash md).

(** Phase 4: the imports. *)
Definition import_binding (md : EsmModule) (i : ImportEntry) : ImportBinding :=
  mkImportBinding (specifier md) (im_local i) (mkId (module_request i) (import_name i)) (bool_decide (import_name i = "*")).

Fixpoint all_direct (l : list EsmModule) (m : LiveBindingMap) : result LiveBindingError LiveBindingMap :=
  match l with [] => Ok m | md :: l => m ← direct_exports md m; all_direct l m end.

Definition build_live_bindings (g : ModuleGraph) : result LiveBindingError LiveBindingMap :=
  let mods := Graph.modules_in_order g in
  m ← all_direct mods new;
  let m := foldl re_exports m mods in
  let m := foldl (fun m md => register_namespace (namespace_of md) m) m mods in
  Ok (foldl (fun m md => foldl (fun m i => wire_import (import_binding md i) m) m (imports md)) m mods).

Definition validate_bindings (m : LiveBindingMap) : list LiveBindingError :=
  omap (fun b =>
    if is_namespace b then
      match namespaces m !! id_module (target b) with Some _ => None | None => Some (NamespaceNotFound (id_module (target b))) end
    else
      match cells m !! target b with
      | Some _ => None
      | None => Some (BindingNotFound (id_module (target b)) (id_export (target b)))
      end) (lm_imports m).
End Live.

(** ** Walking along aliases *)

Section walk.
Import Live.
Implicit Types (l : list BindingAlias) (i k : BindingId).

(** [n] aliases lead from a name to one that is no alias. *)
Inductive leads l : nat -> BindingId -> BindingId -> Prop :=
  | leads_end i : find_alias i l = None -> leads l 0 i i
  | leads_step n i a k : find_alias i l = Some a -> leads l n (al_source a) k -> leads l (S n) i k.

Lemma leads_unique l n i k n' k' : leads l n i k -> leads l n' i k' -> n = n' /\ k = k'.
Proof.
  intros H. revert n' k'. induction H as [i Hi|n i a k Hi _ IH]; intros n' k' H'; inversion H'; subst; try congruence; [done|].
  assert (a0 = a) as -> by congruence. edestruct IH as [-> ->]; [done|]. done.
Qed.

Lemma find_alias_Some l i a : find_alias i l = Some a -> a ∈ l /\ alias a = i.
Proof.
  unfold find_alias. intros ([j x] & Hf & ->)%fmap_Some. apply list_find_Some in Hf as (Hx & He & _). split; [|done].
  by eapply list_elem_of_lookup_2.
Qed.

Lemma find_alias_None l i : find_alias i l = None <-> i ∉ alias <$> l.
Proof.
  unfold find_alias. rewrite fmap_None, list_find_None, Forall_forall. split.
  - intros Hf (a & -> & Ha)%list_elem_of_fmap. by apply (Hf a).
  - intros Hn a Ha E. apply Hn, list_elem_of_fmap. by exists a.
Qed.

Lemma find_alias_nodup l i a : NoDup (alias <$> l) -> a ∈ l -> alias a = i -> find_alias i l = Some a.
Proof.
  intros Hnd Ha Hi. destruct (find_alias i l) as [b|] eqn:E.
  - apply find_alias_Some in E as [Hb Hib]. f_equal. apply list_elem_of_lookup in Ha as [n Hn], Hb as [n' Hn'].
    assert (n = n') as <-; [|congruence]. eapply (NoDup_lookup _ _ _ i Hnd); rewrite list_lookup_fmap, ?Hn, ?Hn'; cbn; congruence.
  - apply find_alias_None in E. destruct E. apply list_elem_of_fmap. by exists a.
Qed.

Lemma walk_leads l n : forall i k v fuel,
  leads l n i k -> (forall x, x ∈ v -> exists n' k', leads l n' x k' /\ (n < n')%nat) ->
  (size ((list_to_set (alias <$> l) : gset BindingId) ∖ v) < fuel)%nat -> walk fuel l i v = k.
Proof.
  induction n as [|n IH]; intros i k v fuel Hl Hv Hf; (destruct fuel as [|fuel]; [lia|]); cbn [walk].
  - inversion Hl; subst. rewrite H. by case_decide.
  - case_decide as Hi.
    { destruct (Hv i Hi) as (n' & k' & Hl' & Hn). destruct (leads_unique _ _ _ _ _ _ Hl Hl') as [<- _]. lia. }
    inversion Hl as [|? ? a ? Ha Hl']; subst. rewrite Ha. apply (IH _ _ _ _ Hl').
    + intros x [->%elem_of_singleton|Hx]%elem_of_union; [exists (S n), k; split; [done|lia]|]. destruct (Hv x Hx) as (n' & k' & ? & ?).
      exists n', k'. split; [done|lia].
    + assert (Hin : i ∈ (list_to_set (alias <$> l) : gset BindingId)).
      { apply elem_of_list_to_set, list_elem_of_fmap. apply find_alias_Some in Ha as [Ha <-]. by exists a. }
      assert (size ((list_to_set (alias <$> l) : gset BindingId) ∖ ({[i]} ∪ v)) < size ((list_to_set (alias <$> l) : gset BindingId) ∖ v))%nat;
        [|lia]. apply subset_size. split; [set_solver|]. intros Hs. specialize (Hs i). set_solver.
Qed.
End walk.

(** ** Operations on shared cells *)

Section shared.
Import Live.
#[local] Arguments resolve_binding_id : simpl never.

Lemma on_cell_spec m id f e m' :
  on_cell m id f e = Ok m' ->
  exists c c', cells m !! resolve_binding_id m id = Some c /\ f c = Ok c' /\
    cells m' = <[resolve_binding_id m id := c']> (cells m) /\ aliases m' = aliases m /\ lm_imports m' = lm_imports m /\
    events m' = events m ++ [e (resolve_binding_id m id) (version c')].
Proof.
  unfold on_cell. intros (c & Hc%ok_or_Ok & (c' & Hf & [= <-])%bind_Ok)%bind_Ok. by exists c, c'.
Qed.

(** An update through one name is read through every import of the same cell,
    and nothing else changes. *)
Theorem live_binding_shared m id f e m' :
  on_cell m id f e = Ok m' ->
  exists c c', get_cell m id = Some c /\ f c = Ok c' /\
    forall imp local b, find_import m imp local = Some b ->
      read_through_import m' imp local =
        if decide (resolve_binding_id m (target b) = resolve_binding_id m id) then Ok c' else read_through_import m imp local.
Proof.
  intros (c & c' & Hc & Hf & Hcells & Hal & Him & _)%on_cell_spec. exists c, c'. split_and!; [done|done|].
  assert (Hres : forall i, resolve_binding_id m' i = resolve_binding_id m i) by (intros i; unfold resolve_binding_id; by rewrite Hal).
  intros imp local b Hb. unfold read_through_import, find_import, get_cell in *. rewrite Him, Hb. cbn. rewrite Hres, Hcells.
  case_decide as E; [rewrite E, lookup_insert_eq; done|by rewrite lookup_insert_ne by congruence].
Qed.

(** A dead cell cannot be mutated, but it can be initialized again. *)
Theorem dead_cells_revive c v :
  bc_state c = Dead -> Cell.mutate_millionths v c = Err (BindingDead (source_module c) (bc_export c)) /\
    Cell.is_initialized (Cell.initialize_millionths v c) = true.
Proof. intros Hd. split; [|done]. unfold Cell.mutate_millionths, Cell.mutate. by rewrite decide_True. Qed.
End shared.

(** ** What the construction builds *)

Section build.
Import Live.
Context (g : ModuleGraph).
Implicit Types (m : LiveBindingMap) (id : BindingId).

Definition pair_of id : string * string := (id_module id, id_export id).

(** Entries as the constructors of [ExportEntry] make them. *)
Definition wf_entry (e : ExportEntry) : Prop :=
  match ex_request e with
  | None => is_Some (ex_local e) /\ export_name e <> "*"
  | Some _ => ex_local e = None /\ (if decide (export_name e = "*") then ex_import e = None else is_Some (ex_import e))
  end.

(** The names a module exports are different, stars apart. *)
Record wf_module (x : string) (md : EsmModule) : Prop := {
  wm_key : specifier md = x;
  wm_entries : Forall wf_entry (exports md);
  wm_names : NoDup (export_name <$> filter (fun e => export_name e <> "*") (exports md)) }.

Definition wf_graph : Prop := forall x md, modules g !! x = Some md -> wf_module x md.

Definition entry_meaning (e : ExportEntry) : option Graph.Exported :=
  match ex_local e, ex_request e, ex_import e with
  | Some l, _, _ => Some (Graph.ELocal l)
  | None, Some req, Some imp => Some (Graph.EFrom req imp)
  | _, _, _ => None
  end.

Lemma find_export_entry l e :
  Forall wf_entry l -> NoDup (export_name <$> filter (fun e => export_name e <> "*") l) -> e ∈ l -> export_name e <> "*" ->
  Graph.find_export (export_name e) l = entry_meaning e.
Proof.
  induction l as [|h l IH]; intros Hw Hnd He Hs; [by apply elem_of_nil in He|]. apply Forall_cons in Hw as [Hh Hw]. cbn [Graph.find_export].
  rewrite filter_cons in Hnd. destruct (decide (export_name h = export_name e)) as [E|E].
  - rewrite decide_True in Hnd by congruence. rewrite fmap_cons in Hnd. apply NoDup_cons in Hnd as [Hn Hnd].
    assert (h = e) as <-.
    { apply elem_of_cons in He as [->|He]; [done|]. destruct Hn. rewrite E. apply list_elem_of_fmap. exists e. split; [done|].
      by apply list_elem_of_filter. }
    unfold entry_meaning. unfold wf_entry in Hh. destruct (ex_request h).
    + destruct Hh as [-> Hi]. rewrite decide_False in Hi by done. destruct Hi as [i ->]. done.
    + destruct Hh as [[lo ->] _]. done.
  - apply elem_of_cons in He as [->|He]; [done|]. apply IH; try done. case_decide; [by apply NoDup_cons in Hnd as [_ ?]|done].
Qed.

(** Every cell leads to the cell of a local export. *)
Record binv m : Prop := {
  bi_nodup : NoDup (alias <$> aliases m);
  bi_alias : forall a, a ∈ aliases m -> is_Some (cells m !! alias a);
  bi_star : forall id, is_Some (cells m !! id) -> id_export id <> "*";
  bi_cells : forall id, is_Some (cells m !! id) -> exists n k c,
    leads (aliases m) n id k /\ rtc (hop g) (pair_of id) (pair_of k) /\ local_at g (pair_of k) (bc_local c) /\
    cells m !! k = Some c /\ binding_type c = Direct }.

Lemma find_alias_snoc l i a :
  NoDup (alias <$> l) -> alias a ∉ alias <$> l ->
  find_alias i (merge_sort alias_le (l ++ [a])) = if decide (i = alias a) then Some a else find_alias i l.
Proof.
  intros Hnd Ha. assert (Hp : merge_sort alias_le (l ++ [a]) ≡ₚ l ++ [a]) by apply merge_sort_Permutation.
  assert (Hnd' : NoDup (alias <$> merge_sort alias_le (l ++ [a]))).
  { rewrite Hp, fmap_app. apply NoDup_app. split_and!; [done| |apply NoDup_singleton]. by intros x Hx ->%list_elem_of_singleton. }
  case_decide as E.
  - subst. apply find_alias_nodup; [done| |done]. rewrite Hp. set_solver.
  - destruct (find_alias i l) as [b|] eqn:Hb.
    + apply find_alias_Some in Hb as [Hb Hi]. apply find_alias_nodup; [done| |done]. rewrite Hp. set_solver.
    + apply find_alias_None. apply find_alias_None in Hb. rewrite Hp, fmap_app, elem_of_app. intros [?|?]; [done|set_solver].
Qed.

Lemma leads_snoc m n i k a c :
  binv m -> cells m !! alias a = None -> cells m !! k = Some c -> leads (aliases m) n i k ->
  leads (merge_sort alias_le (aliases m ++ [a])) n i k.
Proof.
  intros Hi Hfresh Hk Hl. assert (Ha : alias a ∉ alias <$> aliases m).
  { intros (b & E & Hb)%list_elem_of_fmap. destruct (bi_alias _ Hi b Hb) as [c' Hc']. congruence. }
  induction Hl as [i Hend|n i b k Hb _ IH].
  - constructor. rewrite find_alias_snoc by (done || apply Hi). rewrite decide_False by congruence. done.
  - econstructor; [|by apply IH]. rewrite find_alias_snoc by (done || apply Hi). rewrite decide_False; [done|].
    intros ->. apply find_alias_Some in Hb as [Hb E]. apply Ha. rewrite <- E. apply list_elem_of_fmap. by exists b.
Qed.

(** A re-export of a fresh name whose source has a cell. *)
Lemma binv_re_export m id source t :
  binv m -> cells m !! id = None -> is_Some (cells m !! source) -> id_export id <> "*" -> hop g (pair_of id) (pair_of source) ->
  binv (register_alias id source (register_cell (Cell.new (id_module id) (id_export id) t ReExport) m)).
Proof.
  intros Hi Hid Hs Hstar Hhop. assert (Hnew : mkId (id_module id) (id_export id) = id) by (by destruct id).
  assert (Ha : alias (mkAlias id source) ∉ alias <$> aliases m).
  { intros (b & E & Hb)%list_elem_of_fmap. cbn in E. destruct (bi_alias _ Hi b Hb) as [c Hc]. congruence. }
  assert (Hal : aliases (register_alias id source (register_cell (Cell.new (id_module id) (id_export id) t ReExport) m)) =
                merge_sort alias_le (aliases m ++ [mkAlias id source])).
  { unfold register_alias. cbn [aliases register_cell put_cell push_event].
    destruct (find_alias id (aliases m)) eqn:E; [|done]. exfalso. apply find_alias_Some in E as [Hb E].
    apply Ha. apply list_elem_of_fmap. eauto. }
  set (c0 := Cell.new (id_module id) (id_export id) t ReExport) in *.
  assert (Hcells : cells (register_alias id source (register_cell c0 m)) = <[id := c0]> (cells m)).
  { unfold register_alias, register_cell, put_cell. cbn. by rewrite Hnew. }
  constructor; rewrite ?Hal, ?Hcells.
  - rewrite merge_sort_Permutation, fmap_app. apply NoDup_app. split_and!; [apply Hi| |apply NoDup_singleton].
    by intros x Hx ->%list_elem_of_singleton.
  - intros a. rewrite merge_sort_Permutation, elem_of_app, list_elem_of_singleton. intros [Hin| ->]; [|by rewrite lookup_insert_eq].
    destruct (bi_alias _ Hi a Hin) as [c Hc]. rewrite lookup_insert_ne by congruence. eauto.
  - intros i. destruct (decide (i = id)) as [->|Hne]; [done|]. rewrite lookup_insert_ne by done. apply Hi.
  - intros i Hin. assert (Hold : is_Some (cells m !! i) -> exists n k c, leads (merge_sort alias_le (aliases m ++ [mkAlias id source])) n i k /\
        rtc (hop g) (pair_of i) (pair_of k) /\ local_at g (pair_of k) (bc_local c) /\ <[id := c0]> (cells m) !! k = Some c /\ binding_type c = Direct).
    { intros Hi0. destruct (bi_cells _ Hi i Hi0) as (n & k & c & Hl & Hr & Hlo & Hk & Ht). exists n, k, c. split_and!; try done.
      - by eapply leads_snoc.
      - by rewrite lookup_insert_ne by congruence. }
    destruct (decide (i = id)) as [->|Hne]; [|rewrite lookup_insert_ne in Hin by done; by apply Hold].
    destruct (bi_cells _ Hi source Hs) as (n & k & c & Hl & Hr & Hlo & Hk & Ht). exists (S n), k, c. split_and!; try done.
    + eapply leads_step; [rewrite find_alias_snoc by (done || apply Hi); by rewrite decide_True|]. cbn. by eapply leads_snoc.
    + by eapply rtc_l.
    + by rewrite lookup_insert_ne by congruence.
Qed.

(** *** Phase 1 *)

Record direct_inv m : Prop := {
  di_aliases : aliases m = [];
  di_cells : forall id c, cells m !! id = Some c ->
    id_export id <> "*" /\ local_at g (pair_of id) (bc_local c) /\ binding_type c = Direct }.

Lemma direct_export_inv md m e :
  wf_graph -> modules g !! specifier md = Some md -> e ∈ exports md -> direct_inv m -> direct_inv (direct_export md m e).
Proof.
  intros Hw Hmd He [Ha Hc]. unfold direct_export. destruct (ex_request e) eqn:Er; [done|].
  pose proof (Hw _ _ Hmd) as [_ Hen Hna]. pose proof (proj1 (Forall_forall _ _) Hen e He) as Hwe. unfold wf_entry in Hwe. rewrite Er in Hwe.
  destruct Hwe as [[lo Hlo] Hs]. constructor; [done|]. intros id c. cbn. rewrite Hlo, lookup_insert_Some. cbn.
  intros [[<- <-]|[_ Hid]]; [|by apply Hc]. split_and!; [done| |done]. exists md. split; [done|].
  cbn. rewrite (find_export_entry _ e Hen Hna He Hs). unfold entry_meaning. by rewrite Hlo.
Qed.

Lemma all_direct_inv mods m m' :
  wf_graph -> (forall md, md ∈ mods -> modules g !! specifier md = Some md) -> direct_inv m -> all_direct mods m = Ok m' ->
  direct_inv m'.
Proof.
  intros Hw. revert m. induction mods as [|md mods IH]; intros m Hmods Hi H; cbn in H; [by injection H as <-|].
  apply bind_Ok in H as (m1 & H1 & H). eapply IH; [intros; apply Hmods; by right| |exact H].
  unfold direct_exports in H1. case_match; [done|]. injection H1 as <-.
  assert (Hmd : modules g !! specifier md = Some md) by (apply Hmods; by left).
  assert (Hsub : forall es m, (forall e, e ∈ es -> e ∈ exports md) -> direct_inv m -> direct_inv (foldl (direct_export md) m es)).
  { induction es as [|e es IHes]; intros m0 He Hm0; [done|]. cbn. apply IHes; [intros; apply He; by right|].
    apply direct_export_inv; auto. apply He. by left. }
  by apply Hsub.
Qed.

Lemma direct_binv m : direct_inv m -> binv m.
Proof.
  intros [Ha Hc]. constructor; rewrite ?Ha.
  - constructor.
  - by intros a ?%elem_of_nil.
  - intros id [c Hid]. by apply (Hc id c).
  - intros id [c Hid]. destruct (Hc id c Hid) as (_ & Hl & Ht). exists 0%nat, id, c. split_and!; try done. by constructor.
Qed.

(** *** Phase 2 *)

Definition job_id (j : EsmModule * ExportEntry) : BindingId := mkId (specifier j.1) (export_name j.2).
Definition starred (j : EsmModule * ExportEntry) : bool := bool_decide (export_name j.2 = "*").

(** Names with a cell are direct exports or have been processed. *)
Definition accounted (don : list (EsmModule * ExportEntry)) m : Prop :=
  forall id, is_Some (cells m !! id) ->
    (exists l, local_at g (pair_of id) l) \/ exists j, j ∈ don /\ starred j = false /\ job_id j = id.

Lemma re_export_inv don j m :
  wf_graph -> modules g !! specifier j.1 = Some j.1 -> j.2 ∈ exports j.1 -> binv m -> accounted don m ->
  (starred j = false -> forall j', j' ∈ don -> starred j' = false -> job_id j' <> job_id j) ->
  binv (re_export j.1 m j.2) /\ accounted (j :: don) (re_export j.1 m j.2).
Proof.
  destruct j as [md e]. cbn [fst snd]. intros Hw Hmd He Hi Hacc Hfresh. unfold re_export.
  assert (Hkeep : accounted ((md, e) :: don) m).
  { intros id Hid. destruct (Hacc id Hid) as [?|(j & Hj & ?)]; [by left|right; exists j; split; [by right|done]]. }
  destruct (ex_request e) as [req|] eqn:Er; [|done].
  destruct (cells m !! mkId req (re_export_name e)) as [cs|] eqn:Hsrc; [|done].
  pose proof (Hw _ _ Hmd) as [_ Hen Hna]. pose proof (proj1 (Forall_forall _ _) Hen e He) as Hwe. unfold wf_entry in Hwe. rewrite Er in Hwe.
  destruct Hwe as [Hlo Him]. assert (Hs : export_name e <> "*").
  { intros E. rewrite decide_True in Him by done. apply (bi_star _ Hi (mkId req (re_export_name e))); [eauto|].
    cbn. unfold re_export_name. by rewrite Him. }
  rewrite decide_False in Him by done. destruct Him as [imp Him].
  pose proof (find_export_entry _ e Hen Hna He Hs) as Hfe. unfold entry_meaning in Hfe. rewrite Hlo, Er, Him in Hfe.
  assert (Hno : cells m !! mkId (specifier md) (export_name e) = None).
  { apply eq_None_not_Some. intros Hid. destruct (Hacc _ Hid) as [(l & md' & Hmd' & Hl)|(j & Hj & Hst & E)].
    - cbn in Hmd', Hl. rewrite Hmd in Hmd'. injection Hmd' as <-. congruence.
    - by apply (Hfresh ltac:(unfold starred; by apply bool_decide_eq_false) j Hj Hst). }
  rewrite Hno. split.
  - apply (binv_re_export m (mkId (specifier md) (export_name e)) (mkId req (re_export_name e)) (re_export_name e)); [done|done|by eexists|done|].
    exists md. split; [done|]. cbn. rewrite Hfe. unfold re_export_name. by rewrite Him.
  - intros id. unfold register_alias, register_cell, put_cell. cbn. rewrite lookup_insert_is_Some. intros [<-|[_ Hid]]; [|by apply Hkeep].
    right. exists (md, e). split_and!; [by left| |done]. unfold starred. by apply bool_decide_eq_false.
Qed.

Lemma re_exports_inv jobs : forall don m,
  wf_graph -> (forall j, j ∈ jobs -> modules g !! specifier j.1 = Some j.1 /\ j.2 ∈ exports j.1) -> binv m -> accounted don m ->
  NoDup (job_id <$> filter (fun j => starred j = false) (don ++ jobs)) ->
  binv (foldl (fun m j => re_export j.1 m j.2) m jobs).
Proof.
  induction jobs as [|j jobs IH]; intros don m Hw Hj Hi Hacc Hnd; [done|]. cbn [foldl].
  destruct (Hj j) as [Hmd He]; [by left|]. destruct (re_export_inv don j m Hw Hmd He Hi Hacc) as [Hi' Hacc'].
  { intros Hst j' Hj' Hst' E. rewrite filter_app, fmap_app in Hnd. apply NoDup_app in Hnd as (_ & Hdis & _).
    apply (Hdis (job_id j)).
    - rewrite <- E. apply list_elem_of_fmap. exists j'. split; [done|]. by apply list_elem_of_filter.
    - apply list_elem_of_fmap. exists j. split; [done|]. apply list_elem_of_filter. split; [done|by left]. }
  apply (IH (j :: don)); try done; [intros; apply Hj; by right|].
  assert (Hp : (j :: don) ++ jobs ≡ₚ don ++ j :: jobs) by (cbn; apply Permutation_middle). by rewrite Hp.
Qed.

Definition jobs_of (mods : list EsmModule) : list (EsmModule * ExportEntry) := mods ≫= fun md => pair md <$> exports md.

Lemma jobs_fold mods m : foldl re_exports m mods = foldl (fun m j => re_export j.1 m j.2) m (jobs_of mods).
Proof.
  unfold jobs_of. revert m. induction mods as [|md mods IH]; intros m; [done|]. cbn. rewrite foldl_app, <- IH. f_equal.
  unfold re_exports. generalize (exports md). intros es. revert m. induction es as [|e es IHes]; intros m; [done|]. apply IHes.
Qed.

Lemma jobs_of_module md :
  job_id <$> filter (fun j => starred j = false) (pair md <$> exports md) =
  mkId (specifier md) <$> (export_name <$> filter (fun e => export_name e <> "*") (exports md)).
Proof.
  induction (exports md) as [|e es IH]; [done|]. rewrite fmap_cons, !filter_cons. unfold starred at 1. cbn [snd].
  destruct (decide (export_name e = "*")) as [E|E].
  - destruct (decide (bool_decide (export_name e = "*") = false)) as [E1|_]; [by apply bool_decide_eq_false in E1|].
    by destruct (decide (export_name e <> "*")).
  - destruct (decide (bool_decide (export_name e = "*") = false)) as [_|E1]; [|by rewrite bool_decide_eq_false in E1].
    destruct (decide (export_name e <> "*")); [|done]. by rewrite !fmap_cons, IH.
Qed.

Lemma jobs_nodup mods :
  NoDup (specifier <$> mods) -> (forall md, md ∈ mods -> NoDup (export_name <$> filter (fun e => export_name e <> "*") (exports md))) ->
  NoDup (job_id <$> filter (fun j => starred j = false) (jobs_of mods)).
Proof.
  induction mods as [|md mods IH]; intros Hnd Hn; [constructor|]. apply NoDup_cons in Hnd as [Hmd Hnd].
  change (jobs_of (md :: mods)) with ((pair md <$> exports md) ++ jobs_of mods).
  rewrite filter_app, fmap_app. apply NoDup_app. split_and!.
  - rewrite jobs_of_module. apply NoDup_fmap_2; [by intros ? ? [=]|]. apply Hn. by left.
  - intros id. rewrite jobs_of_module. intros (n & -> & _)%list_elem_of_fmap ([md' e] & E & Hj)%list_elem_of_fmap.
    apply list_elem_of_filter in Hj as [_ Hj]. apply list_elem_of_bind in Hj as (md'' & Hj & Hin).
    apply list_elem_of_fmap in Hj as (e' & [= -> ->] & _). injection E as E _. cbn in E. apply Hmd. rewrite E.
    apply list_elem_of_fmap. by exists md''.
  - apply IH; [done|]. intros. apply Hn. by right.
Qed.

Lemma modules_in_order_lookup md : wf_graph -> md ∈ Graph.modules_in_order g -> modules g !! specifier md = Some md.
Proof.
  intros Hw (kv & -> & Hkv)%list_elem_of_fmap. destruct kv as [k md']. apply elem_of_sorted_entries in Hkv. cbn.
  by rewrite (wm_key _ _ (Hw _ _ Hkv)).
Qed.

Lemma modules_in_order_keys : wf_graph -> specifier <$> Graph.modules_in_order g = sorted_keys (modules g).
Proof.
  intros Hw. unfold Graph.modules_in_order, sorted_values, sorted_keys. rewrite <- list_fmap_compose. apply list_fmap_ext.
  intros i [k md] Hi. apply (wm_key _ _ (Hw _ _ (proj1 (elem_of_sorted_entries _ _ _) (list_elem_of_lookup_2 _ _ _ Hi)))).
Qed.

(** The namespaces and the imports leave the cells and aliases alone. *)
Definition same_cells m m' : Prop := cells m' = cells m /\ aliases m' = aliases m.

Lemma foldl_same_cells {A} (f : LiveBindingMap -> A -> LiveBindingMap) l :
  (forall m x, same_cells m (f m x)) -> forall m, same_cells m (foldl f m l).
Proof.
  intros Hf. induction l as [|x l IH]; intros m; [done|]. cbn. destruct (Hf m x) as [E1 E2], (IH (f m x)) as [E3 E4].
  split; congruence.
Qed.
End build.

(** C10. In the bindings built from a graph whose modules export distinct names, every
    name that has a cell resolves along its aliases, within the bound on the walk, to the
    cell of a local export, one to which the re-exports of the graph lead from that name
    and whose local name the cell carries. *)
Theorem live_bindings_agree (g : ModuleGraph) (m : LiveBindingMap) (id : BindingId) (c : BindingCell) :
  wf_graph g -> Live.build_live_bindings g = Ok m -> cells m !! id = Some c ->
  exists k ck, Live.resolve_binding_id m id = k /\ Live.get_cell m id = Some ck /\
    rtc (hop g) (id_module id, id_export id) (id_module k, id_export k) /\
    local_at g (id_module k, id_export k) (bc_local ck) /\ binding_type ck = Direct.
Proof.
  intros Hw Hb Hid. unfold Live.build_live_bindings in Hb. apply bind_Ok in Hb as (m1 & H1 & [= <-]).
  set (mods := Graph.modules_in_order g) in *.
  assert (Hmods : forall md, md ∈ mods -> modules g !! specifier md = Some md) by (intros; by apply modules_in_order_lookup).
  assert (Hd : direct_inv g m1).
  { eapply all_direct_inv; [done|exact Hmods| |exact H1]. constructor; [done|]. intros i x. unfold Live.new. cbn. by rewrite lookup_empty. }
  assert (Hi : binv g (foldl Live.re_exports m1 mods)).
  { rewrite jobs_fold. apply (re_exports_inv g (jobs_of mods) []); [done| |by apply direct_binv| |].
    - intros j (md & (e & -> & He)%list_elem_of_fmap & Hmd)%list_elem_of_bind. split; [by apply Hmods|done].
    - intros i [x Hx]. left. exists (bc_local x). by apply (di_cells _ _ Hd i x).
    - apply jobs_nodup; [unfold mods; rewrite modules_in_order_keys by done; apply NoDup_sorted_keys|].
      intros md Hmd%Hmods. by apply (Hw _ _ Hmd). }
  set (m2 := foldl Live.re_exports m1 mods) in *.
  set (m3 := foldl (fun m md => Live.register_namespace (Live.namespace_of md) m) m2 mods) in *.
  match goal with |- context [Live.resolve_binding_id ?mm] => set (m4 := mm) in * end.
  assert (Hsame : same_cells m2 m4).
  { destruct (foldl_same_cells (fun m md => Live.register_namespace (Live.namespace_of md) m) mods ltac:(done) m2) as [E1 E2].
    destruct (foldl_same_cells (fun m md => foldl (fun m i => Live.wire_import (Live.import_binding md i) m) m (imports md)) mods) with (m := m3) as [E3 E4].
    - intros x md. by apply foldl_same_cells.
    - split; [etrans; [exact E3|exact E1]|etrans; [exact E4|exact E2]]. }
  destruct Hsame as [Ec Ea]. rewrite Ec in Hid.
  destruct (bi_cells _ _ Hi id) as (n & k & ck & Hl & Hr & Hlo & Hk & Ht); [eauto|].
  assert (Hres : Live.resolve_binding_id m4 id = k).
  { unfold Live.resolve_binding_id. rewrite Ea. eapply walk_leads; [exact Hl|by intros x ?%elem_of_empty|].
    pose proof (list_to_set_size_le (alias <$> aliases m2)) as Hsz. rewrite length_fmap in Hsz.
    assert (size ((list_to_set (alias <$> aliases m2) : gset BindingId) ∖ ∅) <= size (list_to_set (alias <$> aliases m2) : gset BindingId))%nat
      by (apply subseteq_size; set_solver). lia. }
  exists k, ck. unfold Live.get_cell. rewrite Hres, Ec. split_and!; try done.
Qed.

(** ** Concrete graphs *)

(** A linked module with exports, and one import of [x] from [request]. *)
Definition linked_module (name : string) (es : list ExportEntry) (request : option string) : EsmModule :=
  let m := foldl (fun m e => Mod.add_export e m) (Mod.new name "" EsModule) es in
  Mod.set_link Linked None None (match request with Some r => Mod.add_import (mkImport r "x" "l") m | None => m end).
Definition linked_graph (l : list EsmModule) : ModuleGraph :=
  foldl (fun g m => match Graph.add_module m g with Ok g => g | Err _ => g end) Graph.new l.

(** [a] has [x], [b] hands it on as [y], [c] hands that on as [x], and [d] imports it. *)
Definition sharing_graph : ModuleGraph := linked_graph
  [linked_module "a" [Entries.direct "v" "x"] None; linked_module "b" [Entries.re_export "y" "a" "x"] None;
   linked_module "c" [Entries.re_export "x" "b" "y"; Entries.star_re_export "a"] None; linked_module "d" [] (Some "c")].

Definition built (g : ModuleGraph) : LiveBindingMap :=
  match Live.build_live_bindings g with Ok m => m | Err _ => Live.new end.

#[export] Instance wf_entry_dec e : Decision (wf_entry e).
Proof. unfold wf_entry. destruct (ex_request e); [|apply _]. destruct (decide (export_name e = "*")); apply _. Defined.

Definition wf_graphb (g : ModuleGraph) : bool :=
  bool_decide (map_Forall (fun x md => specifier md = x /\ Forall wf_entry (exports md) /\
    NoDup (export_name <$> filter (fun e => export_name e <> "*") (exports md))) (modules g)).

Lemma wf_graphb_spec g : wf_graphb g = true -> wf_graph g.
Proof. intros H%bool_decide_eq_true x md Hmd. destruct (H x md Hmd) as (? & ? & ?). by constructor. Qed.

Lemma live_bindings_agree_witness :
  wf_graphb sharing_graph = true /\ Live.validate_bindings (built sharing_graph) = [] /\
  (bc_local <$> Live.get_cell (built sharing_graph) (mkId "c" "x")) = Some "v" /\
  exists k ck, Live.resolve_binding_id (built sharing_graph) (mkId "c" "x") = k /\
    rtc (hop sharing_graph) ("c", "x") (id_module k, id_export k) /\
    local_at sharing_graph (id_module k, id_export k) (bc_local ck).
Proof.
  assert (Hw : wf_graphb sharing_graph = true) by (vm_compute; reflexivity).
  split; [exact Hw|]. split; [vm_compute; reflexivity|]. split; [vm_compute; reflexivity|].
  assert (Hok : is_ok (Live.build_live_bindings sharing_graph) = true) by (vm_compute; reflexivity).
  assert (Hc : is_Some (cells (built sharing_graph) !! mkId "c" "x")) by (eexists; vm_compute; reflexivity).
  unfold built in *. destruct (Live.build_live_bindings sharing_graph) as [m|e] eqn:E; [|discriminate Hok]. destruct Hc as [c Hc].
  destruct (live_bindings_agree sharing_graph m (mkId "c" "x") c (wf_graphb_spec _ Hw) E Hc) as (k & ck & Hk & _ & Hr & Hl & _).
  exists k, ck. split; [exact Hk|]. split; [exact Hr|exact Hl].
Defined.

(** Whether a chain of re-exports has a cell depends on the names of the modules:
    with the same modules under names in the other order, the first link of the
    chain is processed before its source has a cell and is left out, although the
    loader resolves the export. *)
Definition reversed_graph : ModuleGraph := linked_graph
  [linked_module "c" [Entries.direct "v" "x"] None; linked_module "b" [Entries.re_export "y" "c" "x"] None;
   linked_module "a" [Entries.re_export "x" "b" "y"] None; linked_module "d" [] (Some "a")].

Theorem re_export_chain_lost :
  Graph.resolve_export reversed_graph "a" "x" = Some (Ok (mkResolved "c" "v" Direct)) /\
  Live.validate_bindings (built reversed_graph) = [BindingNotFound "a" "x"] /\
  Live.read_through_import (built reversed_graph) "d" "l" = Err (BindingNotFound "a" "x") /\
  (bc_local <$> Live.read_through_import (built sharing_graph) "d" "l") = Ok "v".
Proof. repeat split; vm_compute; reflexivity. Qed.
